(* ===== verification/_CoqProject ===== *)
-Q . S2P
Prelude.v
DList.v
Hash.v
Threads.v
BlackHole.v
RunQueue.v
ThreadProps.v
STM.v
STMLog.v
STMAccess.v
STMCommit.v
STMTop.v
STMWatch.v
STMWait.v
STMWakeup.v
STMUnwait.v
MBlock.v
MBlockProps.v
MBlockMain.v
BlockAlloc.v
BlockArith.v
BlockMem.v
BlockLayout.v
BlockInv.v
BlockLists.v
BlockGroup.v
BlockSanity.v
BlockMega.v
BlockFree.v
BlockGet.v
BlockTake.v
BlockCount.v
BlockReturn.v
BlockLinks.v
BlockFacts.v
BlockMain.v
WSDeque.v
WSDequeSpec.v
WSDequeSim.v
WSDequeMain.v
ClosureFlags.v
Sparks.v
SparkProps.v
SparkMain.v
SparkFind.v
Stable.v
StableInv.v
StableGC.v
StableMain.v
Tasks.v
TasksInv.v
TasksStep.v
TasksKeep.v
TasksActs.v
TasksLive.v
TasksMain.v
Compact.v
CompactChain.v
CompactThread.v
CompactObj.v
CompactMarks.v
CompactHeap.v
CompactPlace.v
CompactFwd.v
CompactBkwd.v
CompactRoots.v
CompactCheck.v
CompactDemo.v
CompactMain.v
Sweep.v
SweepMain.v
StgPrimFloat.v
StgPrimFloatMain.v
Weak.v
WeakPtr.v
WeakThreads.v
WeakMain.v
