(* ===== verification/Prelude.v ===== *)
(** * The run-time system of GHC: storage, compaction, weak pointers, threads,
      transactions, sparks, names, floating-point numbers

    This library models components of the C run-time system under src/rts and
    src/includes, and proves what makes them correct.  The C code is translated
    function by function into executable state-passing definitions: [prog S A]
    is a run on a state of type [S] that returns an [A] or stops in a [failure]
    (a failed ASSERT, a bad pointer, a call of barf, a loop that exceeds its
    bound).  [wp m Q s] says that [m] started in [s] returns, in a state with
    [Q]: every theorem of that form includes termination and the absence of
    failures.  [wpb] additionally allows running out of memory (Barf).

    ** Layout of the library

    - Prelude: failures, the monad, [wp] and its rules, the tactics [wp_steps]
      and [preserves], words of w bits ([wrapU], [wrapS]).
      DList: doubly linked lists through a heap of objects, shared by the run
      queue, the watch queues and the lists of block descriptors.

    - Hash (rts/Hash.c): Larson's linear hashing with its directory, segments,
      free cells and chunks.  Class [HashKey]: what a pair of hash and
      comparison function promises; [hashWord] and [hashStr] are instances.  A
      table represents a finite map ([insertHashTable_map],
      [lookupHashTable_map], [removeHashTable_map]) as long as no key is
      inserted twice; [expand_resurrects_overwritten] shows what happens
      otherwise.  Class [WordTable] exports tables with word keys to clients.

    - Threads (rts/Schedule.h, Threads.c, Messages.c, Updates.h, RaiseAsync.c,
      sm/Storage.c): the run queue as doubly linked TSOs, the write barrier,
      waking and migrating threads, blocking queues, black holes and thunk
      update.  RunQueue: the queue is a list, and the barrier keeps every old
      thread with a younger object in its link, block_info, bq or
      blocked_exceptions, and every old black hole with a younger indirectee,
      on a mutable list (trec and stackobj are not tracked).  BlackHole: all
      threads that block on a thunk, the first on its owner and the others on
      the blocking queue, are woken by its update.  ThreadProps: the theorems
      with concrete runs.

    - STM (rts/STM.c, includes/rts/storage/Closures.h): every function of
      STM.c, in its three lock configurations, over the threads of Threads.
      STMLog: a chunked log is a list of entries.  STMAccess: reads and writes
      against an abstract nest of finite maps.  STMCommit, STMTop: commit
      installs all new values or none, and wakes the waiters.  STMWatch,
      STMWait, STMWakeup, STMUnwait: watch queues, waiting, no lost wake-up,
      and leaving the queues again.

    - MBlock (rts/sm/MBlock.c, includes/rts/storage/MBlock.h, posix/OSMem.c):
      megablocks from the operating system (class [OsMem], laws [OsMemLaws])
      and the map that answers HEAP_ALLOCED through its cache.  MBlockProps,
      MBlockMain: the map is a set of megablocks; 32-bit products limit it to
      4096 megablocks at a time.

    - BlockAlloc (rts/sm/BlockAlloc.c, includes/rts/storage/Block.h): groups of
      blocks, the buckets of small groups and the list of megablock groups, on
      top of MBlock.  BlockArith, BlockMem, BlockLayout: addresses, contents of
      memory and the layout of the heap in groups.  BlockInv: the invariant.
      BlockLists, BlockGroup, BlockMega, BlockFree, BlockGet, BlockTake,
      BlockCount, BlockReturn, BlockSanity, BlockLinks, BlockFacts: one
      operation or group of operations each.  BlockMain: the theorems.

    - WSDeque (rts/WSDeque.c, WSDeque.h): the lock-free deque of sparks as a
      transition system at the grain of accesses to shared memory.
      WSDequeSpec: the abstract deque and the invariant that relates the two.
      WSDequeSim: every access is a step of the abstract deque or none.
      WSDequeMain: linearizability, no element lost or handed out twice, no
      failed assertion, and what a call does without interference.

    - ClosureFlags (rts/ClosureFlags.c, includes/rts/storage/ClosureTypes.h,
      InfoTables.h, ClosureMacros.h, includes/MachDeps.h): the types of
      closures, their flags, tag and forwarding bits of pointers.

    - Sparks (rts/Sparks.c, Sparks.h, parts of Capability.c, Capability.h and
      Schedule.c): the spark pools and counters of all capabilities, on top of
      WSDeque and ClosureFlags.  SparkProps: pruning and traversing a pool.
      SparkMain: the counters add up, and pruning keeps what is alive and not
      evaluated.  SparkFind: findSpark while other capabilities push and steal
      between its accesses and win races against it (class [Accesses], of which
      a call without interference is the other instance; that of the counters
      uses the latter).

    - Stable (rts/Stable.c, includes/rts/Stable.h): stable names and stable
      pointers, over a [WordTable].  StableInv: the invariant and the lookups.
      StableGC: the passes of a collection over the table.  StableMain: a
      copying collection keeps the names and frees exactly the slots that can
      be freed; two runs in which a live object loses its name, because of the
      stale old address of a free slot and because a compacting collection
      moves it to the address of a dead one.  The theorem on collections
      excludes both ([moves]).

    - Tasks (rts/Capability.c, Task.c, sendMessage of Messages.c, parts of
      Schedule.c): how the OS threads hand the Capabilities over, as a
      transition system whose steps are the sections under [cap->lock] and
      [task->lock].  TasksInv: the invariant.  TasksStep, TasksKeep, TasksActs:
      waking and releasing, waiting, and all actions keep it.  TasksLive: what
      a task that is awake does with a free Capability.  TasksMain: a
      Capability has one holder, the queues are those of the waiting tasks, no
      call fails but for want of a thread, no wake-up is lost.

    - Compact (rts/sm/Compact.c, Compact.h, with the layouts and sizes of
      closures of ClosureMacros.h, Closures.h, InfoTables.h): the compacting
      collector on a memory of 64-bit words - threading and unthreading, every
      type of closure and stack frame, the forward pass, the backward pass, the
      roots.  CompactChain: chains of threaded fields, and what the memory would
      be without them.  CompactThread, CompactObj: code that threads a list of
      fields; [thread_obj] does that for an object of any layout.
      CompactMarks, CompactHeap, CompactPlace: mark bits, the class [heap_ok] of
      heaps that can be compacted, where the objects go.  CompactFwd,
      CompactBkwd: the invariants of the two passes.  CompactRoots: roots and
      the objects that stay.  CompactCheck: a decision procedure for the
      hypotheses; CompactDemo: a heap that has them.  CompactMain: [compact]
      moves every live object with all its words, redirects every pointer to it
      and changes nothing else; the moved objects are packed into the kept
      blocks and do not overlap; [closure_sizeW_] and [thread_obj] agree; a
      pointer of an object to itself may lose its tag.

    - Sweep (rts/sm/Sweep.c, countBlocks of BlockAlloc.c): freeing the blocks
      without a marked object after a marking collection.  SweepMain: which
      blocks are freed, kept and flagged, and the counters.

    - Weak (rts/sm/MarkWeak.c, the loop of GarbageCollect in GC.c): weak
      pointers, finalizers and the lists of threads, over the class [Collector]
      of what evacuates, scavenges and answers isAlive.  WeakPtr: the laws
      [CollectorLaws] of that class, liveness as the least set closed under
      references and weak pointers with live keys, the stage of weak pointers.
      The laws distinguish what the collector has got to from what isAlive
      calls alive (static closures and objects of generations that are not
      collected always), and an object from what stands for it after evacuation
      (indirections, updated thunks, selector thunks, small Ints and Chars).
      WeakThreads: the lists of threads.  WeakMain: the loop ends when the
      collector has got to exactly the objects it should, with the lists divided
      accordingly.

    - StgPrimFloat (rts/StgPrimFloat.c): encoding and decoding of doubles and
      floats.  StgPrimFloatMain: decoding and encoding again gives the same
      number; the sign of zero is not written; large exponents wrap.

    ** Correspondence of states

    Global variables are fields of the state record of their file, under their
    own names ([stm], [stable], the allocator state of BlockAlloc); structs are
    records with the fields the code of the component uses; objects reached by
    pointers live in finite maps from addresses ([ptr], an integer, 0 for
    NULL).  An access to an address that is not in its map is [BadPointer].
    nat and unsigned int are 32 bits wide, StgWord and W_ 64 (x86_64): sums and
    products that can wrap are written with [wrapU].  Freed memory that the
    source reads before writing it is a parameter ([junk]).

    ** Bounds

    A loop over a linked structure has the number of live objects as its
    fuel, so that only a cycle exhausts it, and the theorems prove that none
    does.  Others: [roundUp2] 64 shifts (the width of the word); a call of the
    deque 8 accesses (the longest path has fewer); [pruneSparkQueue] the size of the
    array; [findSpark] and its retry loop have fuel as arguments, and
    [findSpark_among_others] says which is enough; [removeIndirections] has its fuel
    as an argument: the length of the chain of indirections.  In Compact, a chain
    of fields has the number of words in memory as its fuel, a block 4096 objects
    (each has at least one word), a stack its size in words; running out is a
    failure, and the theorems exclude it.  The loop of a collection in Weak has
    its rounds as an argument, and [weak_collection] says that two more than
    there are weak pointers are enough.  The theorems on the deque assume fewer
    than 2^62 pushes and those on the counters of sparks fewer than 2^60
    operations, so that the 64-bit counters do not wrap.

    ** Concurrency

    WSDeque interleaves its threads freely at every shared access, with
    sequentially consistent memory: the barriers of the source order exactly
    the accesses that matter.  (stealWSDeque_ has none between its load of
    bottom and that of the element, and x86 needs none there.)  An abstract
    steal may fail at any time, as the source's does when it loses a race.
    SparkFind takes each access of findSpark to a deque as one step.  Elsewhere a
    call is one step: Stable.c and BlockAlloc.c hold a lock for the length of a
    call; STM.c is modelled with no other processor between the steps of a
    call (a taken lock is [Diverges]), and the threads of Threads.v belong
    to one Capability.  Tasks has any number of OS threads and Capabilities:
    a section under a lock is one step, fields read without a lock may have
    any value, and a condition variable may wake its task up without a
    signal.  What a task is entitled to do (yield a Capability it holds, put
    a thread on its own run queue) is [enabled].

    ** Parameters

    Code outside the repository and code of other components: mmap and munmap
    with the laws of their manual pages for whole pages ([OsMemLaws], instance
    [bump_os]); malloc'd addresses; the contents of uninitialised memory;
    evac, isAlive and the positions of objects after a collection in Stable
    and Sparks, with the hypothesis that they are one injective map on live
    objects, whose new addresses are none of the old ones ([moves],
    [good_forwarding]); the closures of the heap (their types and info
    pointers); in Weak the collector ([Collector], [CollectorLaws], with the
    instance [collector_demo]), with keys that isAlive can follow (it cannot
    follow updated thunks); in Compact the info tables ([itbl]) and the
    generated table of argument bitmaps, and the lists of roots that functions
    of other files hand to the collector.  Every theorem with a hypothesis is
    followed by an instance.

    ** Not modelled

    The Haskell compiler (not C).  The copying and marking collector (GC.c,
    Evac.c, Scav.c), which runs in parallel threads: of GC.c only the loop around
    traverseWeakPtrList is in Weak; the compacting collector and the sweeper are
    modelled from the mark bits that it leaves.  The theorems on whole heaps
    exclude frames and partial applications of byte code, which are modelled,
    but whose bitmaps lie in objects that move, and heaps in which a field of a
    marked object points to a dead one, as the key and value of a weak pointer
    that has just died may.  The interpreter, and the linker
    with its object files.  The scheduler loop; of tasks, the stack of in-calls,
    the list of suspended calls and the creation of Capabilities at run time.
    throwTo and the unwinding of stacks.  Profiling, tracing and statistics,
    which only report.  rts/parallel, which is not built.  The debugging output,
    and the filling of freed memory with a pattern. *)

From stdpp Require Import base tactics list gmap numbers option.
#[export] Set Warnings "-clear-no-such-hyp".

(** ** Failures of C code, as values

    A run of a C function either returns, or stops in one of the ways below.
    [AssertFailed] is an [ASSERT] of the source that does not hold (the macro
    is active in DEBUG builds only; a theorem that excludes it therefore also
    covers the builds in which the check is compiled out).  [BadPointer] is an
    access through a pointer that does not point to a live object of the
    expected type, or a read of uninitialised memory (but in BlockAlloc a block
    descriptor that is not mapped has arbitrary contents).  [Barf] is a call of
    [barf]/[sysErrorBelch]+[stg_exit].  [Diverges] is a loop that would not
    have ended within the bound the model gives it (each bound is the number of
    live objects, so that only a cyclic chain or a spin loop reaches it). *)
Inductive failure : Type :=
  | AssertFailed
  | BadPointer
  | Barf
  | Diverges.

Inductive outcome (A : Type) : Type :=
  | Ok (a : A)
  | Err (e : failure).
Arguments Ok {A} _.
Arguments Err {A} _.

(** A C function with state [S] and result [A]. *)
Definition prog (S A : Type) : Type := S → outcome (A * S).

#[export] Instance prog_ret S : MRet (prog S) := λ A a s, Ok (a, s).
#[export] Instance prog_bind S : MBind (prog S) := λ A B k m s,
  match m s with
  | Ok (a, s') => k a s'
  | Err e => Err e
  end.

(** The result of a run, its final state dropped. *)
Definition run {S A} (m : prog S A) (s : S) : option A :=
  match m s with Ok (a, _) => Some a | Err _ => None end.

Definition get {S} : prog S S := λ s, Ok (s, s).
Definition gets {S A} (f : S → A) : prog S A := λ s, Ok (f s, s).
Definition modify {S} (f : S → S) : prog S unit := λ s, Ok (tt, f s).
Definition fail {S A} (e : failure) : prog S A := λ _, Err e.

(** [ASSERT(b)] *)
Definition ASSERT {S} (b : bool) : prog S unit :=
  if b then mret tt else fail AssertFailed.

(** Dereference: the object at [p] in the part of the store [f] selects. *)
Definition load {S K V} `{Countable K} (f : S → gmap K V) (p : K) : prog S V :=
  λ s, match f s !! p with
       | Some v => Ok (v, s)
       | None => Err BadPointer
       end.

(** Lift an [option], [None] being an access outside the live objects. *)
Definition deref {S A} (o : option A) : prog S A :=
  match o with
  | Some a => mret a
  | None => fail BadPointer
  end.

Definition when {S} (b : bool) (m : prog S unit) : prog S unit :=
  if b then m else mret tt.

(** [for (x in l) body(x)] over a list that the loop does not change. *)
Fixpoint for_each {S A} (l : list A) (body : A → prog S unit) : prog S unit :=
  match l with
  | [] => mret tt
  | x :: l => body x ;; for_each l body
  end.

(** ** Total correctness

    [wp m Q s]: run from [s], [m] returns (it neither fails an assertion, nor
    follows a bad pointer, nor diverges), with a result and a final state that
    satisfy [Q]. *)
Definition wp {S A} (m : prog S A) (Q : A → S → Prop) (s : S) : Prop :=
  match m s with
  | Ok (a, s') => Q a s'
  | Err _ => False
  end.

Section wp_rules.
Context {S : Type}.
Implicit Types s : S.

Lemma wp_ret {A} (a : A) Q s : Q a s → wp (mret a) Q s.
Proof. done. Qed.

Lemma wp_bind {A B} (m : prog S A) (k : A → prog S B) Q s :
  wp m (λ a s', wp (k a) Q s') s → wp (m ≫= k) Q s.
Proof.
  unfold wp, mbind, prog_bind. destruct (m s) as [[a s']|e]; done.
Qed.

Lemma wp_bind_inv {A B} (m : prog S A) (k : A → prog S B) Q s :
  wp (m ≫= k) Q s → wp m (λ a s', wp (k a) Q s') s.
Proof.
  unfold wp, mbind, prog_bind. destruct (m s) as [[a s']|e]; done.
Qed.

Lemma wp_assoc {A B C} (m : prog S A) (k : A → prog S B) (j : B → prog S C) Q s :
  wp ((m ≫= k) ≫= j) Q s → wp (m ≫= λ a, k a ≫= j) Q s.
Proof. unfold wp, mbind, prog_bind. by destruct (m s) as [[a s']|e]. Qed.

Lemma wp_get Q s : Q s s → wp get Q s.
Proof. done. Qed.

Lemma wp_gets {A} (f : S → A) Q s : Q (f s) s → wp (gets f) Q s.
Proof. done. Qed.

Lemma wp_modify (f : S → S) Q s : Q tt (f s) → wp (modify f) Q s.
Proof. done. Qed.

Lemma wp_assert (b : bool) Q s : b = true → Q tt s → wp (ASSERT b) Q s.
Proof. intros ->. done. Qed.

Lemma wp_load {K V} `{Countable K} (f : S → gmap K V) p v Q s :
  f s !! p = Some v → Q v s → wp (load f p) Q s.
Proof. unfold wp, load. by intros ->. Qed.

Lemma wp_deref {A} (o : option A) a Q s : o = Some a → Q a s → wp (deref o) Q s.
Proof. by intros ->. Qed.

Lemma wp_when (b : bool) m Q s :
  (b = true → wp m Q s) → (b = false → Q tt s) → wp (when b m) Q s.
Proof. destruct b; cbn; auto. Qed.

Lemma wp_mono {A} (m : prog S A) (Q R : A → S → Prop) s :
  wp m Q s → (∀ a s', Q a s' → R a s') → wp m R s.
Proof. unfold wp. destruct (m s) as [[a s']|e]; eauto. Qed.

Lemma wp_and {A} (m : prog S A) (Q R : A → S → Prop) s :
  wp m Q s → wp m R s → wp m (λ a s', Q a s' ∧ R a s') s.
Proof. unfold wp. destruct (m s) as [[a s']|e]; eauto. Qed.

(** A run that is known to return: the form in which a theorem of the
    development states the result of a call. *)
Lemma wp_run {A} (m : prog S A) Q s :
  wp m Q s ↔ ∃ a s', m s = Ok (a, s') ∧ Q a s'.
Proof.
  unfold wp. destruct (m s) as [[a s']|e]; split.
  - eauto.
  - by intros (? & ? & [= <- <-] & ?).
  - done.
  - by intros (? & ? & ? & ?).
Qed.

Lemma wp_ok {A} (m : prog S A) (Q : A → S → Prop) s a s' :
  m s = Ok (a, s') → wp m Q s → Q a s'.
Proof. unfold wp. by intros ->. Qed.

(** Loop rule for [for_each]: an invariant over the elements done so far. *)
Lemma wp_for_each {A} (I : list A → S → Prop) (l : list A) body s :
  I [] s →
  (∀ pre x rest s, l = pre ++ x :: rest → I pre s →
     wp (body x) (λ _ s', I (pre ++ [x]) s') s) →
  wp (for_each l body) (λ _ s', I l s') s.
Proof.
  intros Hinit Hbody.
  enough (∀ rest pre s, l = pre ++ rest → I pre s →
            wp (for_each rest body) (λ _ s', I l s') s) as Hgen.
  { by apply (Hgen l []). }
  clear s Hinit. intros rest.
  induction rest as [|x rest IH]; intros pre s Hl HI; cbn [for_each].
  - apply wp_ret. rewrite app_nil_r in Hl. by subst.
  - apply wp_bind. eapply wp_mono; [by apply (Hbody pre x rest)|].
    intros u s1 H1. apply (IH (pre ++ [x])); [|done].
    by rewrite <- app_assoc.
Qed.
End wp_rules.

(** ** Running out of memory

    [wpb m Q s]: from [s], [m] returns with [Q], or stops through [barf] or
    [stg_exit], as it must when the operating system has no memory left. *)
Definition wpb {S A} (m : prog S A) (Q : A → S → Prop) (s : S) : Prop :=
  match m s with
  | Ok (a, s') => Q a s'
  | Err e => e = Barf
  end.

Section wpb_rules.
Context {S : Type}.
Implicit Types s : S.

Lemma wpb_wp {A} (m : prog S A) Q s : wp m Q s → wpb m Q s.
Proof. unfold wp, wpb. by destruct (m s) as [[a s']|e]. Qed.

Lemma wpb_bind {A B} (m : prog S A) (k : A → prog S B) Q s :
  wpb m (λ a s', wpb (k a) Q s') s → wpb (m ≫= k) Q s.
Proof. unfold wpb, mbind, prog_bind. by destruct (m s) as [[a s']|e]. Qed.

Lemma wpb_bind_wp {A B} (m : prog S A) (k : A → prog S B) Q s :
  wp m (λ a s', wpb (k a) Q s') s → wpb (m ≫= k) Q s.
Proof. unfold wp, wpb, mbind, prog_bind. by destruct (m s) as [[a s']|e]. Qed.

Lemma wpb_mono {A} (m : prog S A) (Q R : A → S → Prop) s :
  wpb m Q s → (∀ a s', Q a s' → R a s') → wpb m R s.
Proof. unfold wpb. destruct (m s) as [[a s']|e]; eauto. Qed.

Lemma wpb_barf {A} (Q : A → S → Prop) s : wpb (fail Barf) Q s.
Proof. done. Qed.
End wpb_rules.

Create HintDb wp.
#[export] Hint Resolve wp_ret wp_get wp_gets wp_modify : wp.

(** One symbolic step of a [prog]. *)
Ltac wp_step :=
  lazymatch goal with
  | |- wp (mbind _ _) _ _ => apply wp_bind
  | |- wp (mret _) _ _ => apply wp_ret
  | |- wp get _ _ => apply wp_get
  | |- wp (gets _) _ _ => apply wp_gets
  | |- wp (modify _) _ _ => apply wp_modify
  | |- wp (ASSERT _) _ _ => apply wp_assert; [try done|]
  | |- wp (load _ _) _ _ => eapply wp_load; [try done; try eassumption|]
  | |- wp (deref _) _ _ => eapply wp_deref; [try done; try eassumption|]
  | |- wp (when _ _) _ _ => apply wp_when; intros ?
  end; cbv beta zeta.
Ltac wp_steps := repeat wp_step.

(** ** Invariants of operations

    [preserves I m]: whenever [m] returns, it has kept the invariant [I].  The
    hints below decompose an operation along its text, so that only the writes
    are left to prove. *)
Definition preserves {S A} (I : S → Prop) (m : prog S A) : Prop :=
  ∀ s a s', m s = Ok (a, s') → I s → I s'.

Section preserves_rules.
Context {S : Type} (I : S → Prop).

Lemma preserves_ret {A} (a : A) : preserves I (mret a).
Proof. by intros s ? ? [= <- <-]. Qed.
Lemma preserves_fail {A} e : preserves I (fail e : prog S A).
Proof. by intros s ? ?. Qed.
Lemma preserves_get : preserves I get.
Proof. by intros s ? ? [= <- <-]. Qed.
Lemma preserves_gets {A} (f : S → A) : preserves I (gets f).
Proof. by intros s ? ? [= <- <-]. Qed.
Lemma preserves_modify f : (∀ s, I s → I (f s)) → preserves I (modify f).
Proof. intros Hf s ? ? [= <- <-]. apply Hf. Qed.
Lemma preserves_assert b : preserves I (ASSERT b).
Proof. intros s ? ?. destruct b; cbn; [by intros [= <- <-]|done]. Qed.
Lemma preserves_load {K V} `{Countable K} (f : S → gmap K V) p : preserves I (load f p).
Proof. intros s a s'. unfold load. destruct (f s !! p); [by intros [= <- <-]|done]. Qed.
Lemma preserves_deref {A} (o : option A) : preserves I (deref o).
Proof. intros s a s'. destruct o; cbn; [by intros [= <- <-]|done]. Qed.
Lemma preserves_bind {A B} (m : prog S A) (k : A → prog S B) :
  preserves I m → (∀ a, preserves I (k a)) → preserves I (m ≫= k).
Proof.
  intros Hm Hk s b s'. unfold mbind, prog_bind.
  destruct (m s) as [[a s1]|e] eqn:E; [|done]. intros Hb Hs.
  eapply Hk; [done|]. by eapply Hm.
Qed.
Lemma preserves_when b (m : prog S unit) : (b = true → preserves I m) → preserves I (when b m).
Proof. destruct b; cbn; [auto|]. intros _. apply preserves_ret. Qed.
Lemma preserves_for_each {A} (l : list A) body :
  (∀ x, preserves I (body x)) → preserves I (for_each l body).
Proof.
  intros Hb. induction l; cbn; [apply preserves_ret|]. by apply preserves_bind.
Qed.
Lemma wp_preserves {A} (m : prog S A) Q s :
  preserves I m → I s → wp m Q s → wp m (λ a s', Q a s' ∧ I s') s.
Proof.
  unfold wp. intros Hm Hs. specialize (Hm s). destruct (m s) as [[a s']|]; [|done]. eauto.
Qed.
End preserves_rules.

Create HintDb preserves.
#[export] Hint Resolve preserves_ret preserves_fail preserves_get preserves_gets preserves_assert
  preserves_load preserves_deref preserves_bind preserves_when preserves_for_each : preserves.

(** Decompose an operation down to its writes. *)
Ltac preserves_step :=
  lazymatch goal with
  | |- preserves _ (mbind _ _) => apply preserves_bind; [|intros ?]
  | |- preserves _ (when _ _) => apply preserves_when; intros ?
  | |- preserves _ (for_each _ _) => apply preserves_for_each; intros ?
  | |- preserves _ (match ?x with _ => _ end) => destruct x eqn:?
  | |- preserves _ (let _ := _ in _) => cbv zeta
  | |- preserves _ _ => solve [auto with preserves nocore]
  end.
Ltac preserves := repeat (cbv beta zeta; preserves_step).

(** ** Machine words *)
Section words.
Local Open Scope Z_scope.
(** Reduction of a mathematical integer to an unsigned [w]-bit word. *)
Definition wrapU (w : Z) (z : Z) : Z := z mod 2 ^ w.
(** ... and to a signed (two's complement) one. *)
Definition wrapS (w : Z) (z : Z) : Z :=
  let u := z mod 2 ^ w in if bool_decide (u < 2 ^ (w - 1)) then u else u - 2 ^ w.

Lemma wrapU_small w z : 0 <= z < 2 ^ w → wrapU w z = z.
Proof. apply Z.mod_small. Qed.

Lemma wrapU_bound w z : 0 <= w → 0 <= wrapU w z < 2 ^ w.
Proof. intros. apply Z.mod_pos_bound, Z.pow_pos_nonneg; lia. Qed.

Lemma wrapS_add w a b : wrapS w (wrapS w a + b) = wrapS w (a + b).
Proof.
  unfold wrapS at 1 3. assert ((wrapS w a + b) mod 2 ^ w = (a + b) mod 2 ^ w) as ->; [|done]. unfold wrapS.
  destruct (decide (2 ^ w = 0)) as [->|]; [by rewrite !Z.mod_0_r; case_bool_decide; rewrite ?Z.sub_0_r|].
  case_bool_decide.
  - by rewrite Z.add_mod_idemp_l.
  - replace (a mod 2 ^ w - 2 ^ w + b) with (a mod 2 ^ w + b + (-1) * 2 ^ w) by lia. by rewrite Z_mod_plus_full, Z.add_mod_idemp_l.
Qed.
Lemma wrapS_small w z : 0 < w → - 2 ^ (w - 1) <= z < 2 ^ (w - 1) → wrapS w z = z.
Proof.
  intros Hw Hz. unfold wrapS. assert (2 ^ w = 2 * 2 ^ (w - 1)) as E by (rewrite <- Z.pow_succ_r by lia; f_equal; lia).
  destruct (decide (0 <= z)).
  - rewrite Z.mod_small by lia. case_bool_decide; lia.
  - assert (z mod 2 ^ w = z + 2 ^ w) as ->; [|case_bool_decide; lia].
    symmetry. apply (Z.mod_unique _ _ (-1)); lia.
Qed.

(** Testing one bit *)
Lemma land_bit w b : 0 <= b → negb (Z.land w (2 ^ b) =? 0) = Z.testbit w b.
Proof.
  intros Hb. destruct (Z.eqb_spec (Z.land w (2 ^ b)) 0) as [E|E]; cbn.
  - apply (f_equal (λ z, Z.testbit z b)) in E. by rewrite Z.land_spec, Z.pow2_bits_true, andb_true_r, Z.bits_0 in E.
  - destruct (Z.testbit w b) eqn:T; [done|]. exfalso. apply E, Z.bits_inj'. intros n Hn.
    rewrite Z.land_spec, Z.bits_0, Z.pow2_bits_eqb by done. destruct (Z.eqb_spec b n) as [<-|]; [by rewrite T|apply andb_false_r].
Qed.
End words.

(** ** Lists *)
Section lists.
Lemma filter_all {A} (P : A → Prop) `{∀ x, Decision (P x)} (l : list A) :
  (∀ x, x ∈ l → P x) → filter P l = l.
Proof.
  induction l as [|x l IH]; intros Hall; [done|].
  rewrite filter_cons_True by (apply Hall; by left).
  rewrite IH; [done|]. intros y Hy. apply Hall. by right.
Qed.

Lemma filter_ne_perm `{EqDecision A} (b : A) (l : list A) :
  NoDup l → b ∈ l → l ≡ₚ b :: filter (λ b', b' ≠ b) l.
Proof.
  induction 1 as [|x l Hx _ IH]; [by intros ?%elem_of_nil|].
  intros [<-|Hb]%elem_of_cons.
  - rewrite filter_cons_False by naive_solver. f_equiv.
    rewrite filter_all; [done|]. by intros y Hy ->.
  - rewrite filter_cons_True by congruence.
    by rewrite Permutation_swap, <- IH.
Qed.

Lemma bind_ext_elem {A B} (f g : A → list B) (l : list A) :
  (∀ x, x ∈ l → f x = g x) → l ≫= f = l ≫= g.
Proof.
  induction l as [|x l IH]; intros H; [done|]. cbn.
  rewrite (H x), IH; [done| |by left]. intros; apply H. by right.
Qed.

Lemma Forall2_weaken_in {A B} (P Q : A → B → Prop) l k :
  (∀ x y, x ∈ l → P x y → Q x y) → Forall2 P l k → Forall2 Q l k.
Proof.
  intros HPQ H. induction H as [|x y l k Hp _ IH]; constructor.
  - apply HPQ; [by left|done].
  - apply IH. intros. apply HPQ; [by right|done].
Qed.
End lists.

Section arith.
Local Open Scope Z_scope.
Lemma lor_double_1 m : Z.lor (m * 2) 1 = m * 2 + 1.
Proof.
  assert (Z.land (m * 2) 1 = 0) as H.
  { change 1 with (Z.ones 1). rewrite Z.land_ones by lia. apply Z.mod_mul; lia. }
  by rewrite <- Z.lxor_lor, Z.add_nocarry_lxor.
Qed.

Lemma quot_rem_inj a b c : 0 < c →
  a `quot` c = b `quot` c → a `rem` c = b `rem` c → a = b.
Proof.
  intros Hc H1 H2. rewrite (Z.quot_rem' a c), (Z.quot_rem' b c). congruence.
Qed.

End arith.
