(* ===== verification/DList.v ===== *)
(** * Doubly linked lists threaded through a heap

    The RTS links its objects intrusively: TSOs on the run queue ([_link] and
    [block_info.prev]), watch-queue entries on a TVar ([next_queue_entry] and
    [prev_queue_entry]), block descriptors on a free list ([link] and
    [u.back]).  This file states once what it means for two partial functions
    [nx] and [pv] (the link fields of the live objects) to thread a list, and
    how appending, pushing and unlinking act on it. *)
From S2P Require Import Prelude.
From stdpp Require Import list gmap fin_map_dom.
Local Open Scope Z_scope.

(** An object pointer; 0 is NULL or the sentinel closure that ends a queue. *)
Definition ptr : Type := Z.
Definition END : ptr := 0.

#[export] Instance ptr_eq_dec : EqDecision ptr := Z.eq_dec.

(** [dlseg nx pv prev hd l last next]: the objects [l], linked in both
    directions, starting at [hd] with back pointer [prev], and ending at [last]
    whose forward pointer is [next]. *)
Fixpoint dlseg (nx pv : ptr → option ptr) (prev hd : ptr) (l : list ptr)
    (last next : ptr) : Prop :=
  match l with
  | [] => hd = next ∧ last = prev
  | x :: l => hd = x ∧ x ≠ END ∧ pv x = Some prev ∧
      ∃ n, nx x = Some n ∧ dlseg nx pv x n l last next
  end.

(** A whole list, from a head and a tail pointer. *)
Definition dlist (nx pv : ptr → option ptr) (hd tl : ptr) (l : list ptr) : Prop :=
  dlseg nx pv END hd l tl END ∧ NoDup l.

(** A singly linked list. *)
Fixpoint slist (nx : ptr → option ptr) (hd : ptr) (l : list ptr) (next : ptr) : Prop :=
  match l with
  | [] => hd = next
  | x :: l => hd = x ∧ x ≠ END ∧ ∃ n, nx x = Some n ∧ slist nx n l next
  end.

Section dlseg.
Implicit Types (nx pv : ptr → option ptr) (l : list ptr).

Lemma dlseg_app nx pv prev hd l1 l2 last next :
  dlseg nx pv prev hd (l1 ++ l2) last next ↔
  ∃ m n, dlseg nx pv prev hd l1 m n ∧ dlseg nx pv m n l2 last next.
Proof.
  revert prev hd. induction l1 as [|x l1 IH]; intros prev hd; cbn.
  { split; [by exists prev, hd|]. by intros (? & ? & [-> ->] & ?). }
  setoid_rewrite IH. naive_solver.
Qed.

Lemma dlseg_snoc nx pv prev hd l x last next :
  dlseg nx pv prev hd (l ++ [x]) last next ↔
  ∃ m, dlseg nx pv prev hd l m x ∧ x ≠ END ∧ pv x = Some m ∧ nx x = Some next ∧ last = x.
Proof.
  rewrite dlseg_app. cbn. split.
  - intros (m & n & H1 & -> & ? & ? & n' & ? & -> & ->). eauto 10.
  - intros (m & H1 & ? & ? & ? & ->). exists m, x. eauto 10.
Qed.

Lemma dlseg_ext nx pv nx' pv' prev hd l last next :
  (∀ x, x ∈ l → nx' x = nx x ∧ pv' x = pv x) →
  dlseg nx pv prev hd l last next → dlseg nx' pv' prev hd l last next.
Proof.
  revert prev hd. induction l as [|x l IH]; intros prev hd Hx; cbn; [done|].
  intros (-> & ? & ? & n & ? & ?). destruct (Hx x) as [E1 E2]; [by left|].
  rewrite E1, E2. split_and!; [done..|]. exists n. split; [done|].
  apply IH; [|done]. intros; apply Hx. by right.
Qed.

Lemma dlseg_not_END nx pv prev hd l last next x :
  dlseg nx pv prev hd l last next → x ∈ l → x ≠ END.
Proof.
  revert prev hd. induction l as [|y l IH]; intros prev hd; [by intros _ ?%elem_of_nil|].
  intros (-> & ? & ? & n & ? & ?) [->|?]%elem_of_cons; eauto.
Qed.

(** The last element, when there is one, is where [last] points. *)
Lemma dlseg_last nx pv prev hd l last next :
  dlseg nx pv prev hd l last next →
  (l = [] ∧ hd = next ∧ last = prev) ∨
  (∃ l', l = l' ++ [last] ∧ last ≠ END ∧ nx last = Some next).
Proof.
  destruct l as [|x l _] using rev_ind; [cbn; naive_solver|].
  intros (m & ? & ? & ? & ? & ->)%dlseg_snoc. right. eauto.
Qed.

Lemma dlseg_head nx pv prev hd l last next :
  dlseg nx pv prev hd l last next →
  (l = [] ∧ hd = next ∧ last = prev) ∨
  (∃ l', l = hd :: l' ∧ hd ≠ END ∧ pv hd = Some prev).
Proof.
  destruct l as [|x l]; cbn; [naive_solver|].
  intros (-> & ? & ? & n & ? & ?). right. eauto.
Qed.

(** Both ends of a segment that is re-pointed: the first element's back
    pointer and the last element's forward pointer change, nothing else. *)
Lemma dlseg_set_prev nx pv nx' pv' prev prev' hd l last next :
  dlseg nx pv prev hd l last next → hd ≠ next → NoDup l →
  (∀ x, x ∈ l → nx' x = nx x) →
  (∀ x, x ∈ l → x ≠ hd → pv' x = pv x) → pv' hd = Some prev' →
  dlseg nx' pv' prev' hd l last next.
Proof.
  destruct l as [|x l]; cbn; [naive_solver|].
  intros (-> & ? & ? & n & ? & ?) _ [Hx Hnd]%NoDup_cons Hnx Hpv Hp.
  split_and!; [done..|]. exists n. split; [rewrite Hnx; [done|by left]|].
  eapply dlseg_ext; [|done]. intros y Hy. split.
  - apply Hnx. by right.
  - apply Hpv; [by right|]. by intros ->.
Qed.

Lemma dlseg_set_next nx pv nx' pv' prev hd l last next next' :
  dlseg nx pv prev hd l last next → l ≠ [] → NoDup l →
  (∀ x, x ∈ l → pv' x = pv x) →
  (∀ x, x ∈ l → x ≠ last → nx' x = nx x) → nx' last = Some next' →
  dlseg nx' pv' prev hd l last next'.
Proof.
  destruct l as [|x l _] using rev_ind; [done|].
  intros (m & Hs & ? & ? & ? & ->)%dlseg_snoc _ Hnd Hpv Hnx Hn.
  apply NoDup_app in Hnd as (Hnd & Hx & _).
  apply dlseg_snoc. exists m. split_and!; [|done| |done|done].
  - eapply dlseg_ext; [|done]. intros y Hy. split.
    + apply Hnx; [by apply elem_of_app; left|]. intros ->. apply (Hx x Hy). by left.
    + apply Hpv. by apply elem_of_app; left.
  - rewrite Hpv; [done|]. apply elem_of_app; right. by left.
Qed.
End dlseg.

Section slist.
Implicit Types (nx : ptr → option ptr) (l : list ptr).

Lemma slist_app nx hd l1 l2 next :
  slist nx hd (l1 ++ l2) next ↔ ∃ m, slist nx hd l1 m ∧ slist nx m l2 next.
Proof.
  revert hd. induction l1 as [|x l1 IH]; intros hd; cbn; [naive_solver|].
  setoid_rewrite IH. naive_solver.
Qed.

Lemma slist_ext nx nx' hd l next :
  (∀ x, x ∈ l → nx' x = nx x) → slist nx hd l next → slist nx' hd l next.
Proof.
  revert hd. induction l as [|x l IH]; intros hd Hx; cbn; [done|].
  intros (-> & ? & n & ? & ?). split_and!; [done..|]. exists n.
  rewrite Hx by left. split; [done|]. apply IH; [|done]. intros; apply Hx. by right.
Qed.

Lemma slist_not_END nx hd l next x : slist nx hd l next → x ∈ l → x ≠ END.
Proof.
  revert hd. induction l as [|y l IH]; intros hd; [by intros _ ?%elem_of_nil|].
  intros (-> & ? & n & ? & ?) [->|?]%elem_of_cons; eauto.
Qed.

Lemma slist_END nx l : slist nx END l END → l = [].
Proof. destruct l as [|x l]; [done|]. intros (<- & ? & _). done. Qed.

Lemma slist_cons_inv nx hd l next :
  slist nx hd l next → hd ≠ next → ∃ n l', l = hd :: l' ∧ hd ≠ END ∧ nx hd = Some n ∧ slist nx n l' next.
Proof. destruct l as [|x l]; [done|]. intros (<- & ? & n & ? & ?) _. eauto 10. Qed.

Lemma slist_det nx hd l l' : slist nx hd l END → slist nx hd l' END → l = l'.
Proof.
  revert hd l'. induction l as [|x l IH]; intros hd [|x' l']; cbn; [done|naive_solver..|].
  intros (-> & ? & n & E & ?) (-> & ? & n' & E' & ?).
  f_equal. rewrite E in E'. injection E' as <-. eauto.
Qed.

Lemma dlseg_slist nx pv prev hd l last next :
  dlseg nx pv prev hd l last next → slist nx hd l next.
Proof.
  revert prev hd. induction l as [|x l IH]; intros prev hd; cbn; [naive_solver|].
  intros (-> & ? & ? & n & ? & ?). eauto 10.
Qed.
End slist.

(** An END-terminated chain has no repetition, so that the number of live
    objects bounds its length: this is the fuel of every list traversal. *)
Section bound.
Implicit Types (nx : ptr → option ptr) (l : list ptr).

Lemma slist_split nx hd l1 x l2 next :
  slist nx hd (l1 ++ x :: l2) next → slist nx x (x :: l2) next.
Proof. intros (m & _ & H)%slist_app. assert (m = x) as -> by apply H. done. Qed.

Lemma slist_NoDup nx hd l : slist nx hd l END → NoDup l.
Proof.
  revert hd. induction l as [|x l IH]; intros hd H; [constructor|].
  assert (hd = x) as -> by apply H.
  apply NoDup_cons. split.
  - intros (l1 & l2 & ->)%list_elem_of_split.
    pose proof (slist_split nx x (x :: l1) x l2 END H) as H'.
    pose proof (slist_det _ _ _ _ H H') as E.
    apply (f_equal length) in E. cbn in E. rewrite length_app in E. cbn in E. lia.
  - destruct H as (_ & _ & n & _ & H). by eapply IH.
Qed.

Lemma slist_length {A} (h : gmap ptr A) (f : A → ptr) hd l :
  slist (λ p, f <$> h !! p) hd l END → (length l ≤ size h)%nat.
Proof.
  intros H. pose proof (slist_NoDup _ _ _ H) as Hnd.
  rewrite <- size_dom, <- (size_list_to_set (C := gset ptr) l) by done.
  apply subseteq_size. intros x Hx%elem_of_list_to_set.
  apply list_elem_of_split in Hx as (l1 & l2 & ->).
  apply slist_split in H as (_ & _ & n & Hn & _).
  apply elem_of_dom. destruct (h !! x); [eauto|done].
Qed.
End bound.

(** ** Pushing and unlinking *)
Section edit.
Implicit Types (nx pv : ptr → option ptr) (l : list ptr).

(** [q] is put in front of [l]: its own links are set, and the old head, when
    there is one, points back to it. *)
Lemma dlist_push nx pv nx' pv' hd tl l q :
  dlist nx pv hd tl l → q ∉ l → q ≠ END →
  nx' q = Some hd → pv' q = Some END →
  (∀ x, x ∈ l → nx' x = nx x) →
  (∀ x, x ∈ l → x ≠ hd → pv' x = pv x) → (l ≠ [] → pv' hd = Some q) →
  ∃ tl', dlist nx' pv' q tl' (q :: l).
Proof.
  intros [Hd Hnd] Hq Hqe Hnq Hpq Hnx Hpv Hhd.
  assert (∃ tl', dlseg nx' pv' q hd l tl' END) as [tl' Hs].
  { destruct l as [|x l]; [exists q; by destruct Hd as [-> _]|]. exists tl.
    assert (hd = x) as -> by apply Hd.
    apply (dlseg_set_prev nx pv nx' pv' END q); [done| |done|done|done|by apply Hhd].
    by apply Hd. }
  exists tl'. split; [|by apply NoDup_cons]. cbn. split_and!; [done..|]. by exists hd.
Qed.

(** Taking [q] out of a list: its neighbours point at each other; without a
    back neighbour the head becomes the next one. *)
Lemma dlist_unlink nx pv nx' pv' hd tl l1 q l2 n p :
  dlist nx pv hd tl (l1 ++ q :: l2) → nx q = Some n → pv q = Some p →
  (∀ x, x ∈ l1 ++ l2 → nx' x = if decide (x = p) then Some n else nx x) →
  (∀ x, x ∈ l1 ++ l2 → pv' x = if decide (x = n) then Some p else pv x) →
  (p = END → l1 = []) ∧ (n = END → l2 = []) ∧ (p ≠ END → p ∈ l1) ∧ (n ≠ END → n ∈ l2) ∧
  ∃ tl', dlist nx' pv' (if decide (p = END) then n else hd) tl' (l1 ++ l2).
Proof.
  intros [Hd Hnd] Hnq Hpq Hnx Hpv. apply dlseg_app in Hd as (m & x & H1 & H2).
  destruct H2 as (-> & Hqe & Hpq' & n' & Hnq' & H2). rewrite Hnq in Hnq'. injection Hnq' as <-.
  rewrite Hpq in Hpq'. injection Hpq' as ->.
  apply NoDup_app in Hnd as (Hnd1 & H12 & [Hq2 Hnd2]%NoDup_cons).
  assert (NoDup (l1 ++ l2)) as Hnd.
  { apply NoDup_app. split_and!; [done| |done]. intros y Hy Hy2. apply (H12 y Hy). by right. }
  assert (∀ y, y ∈ l1 → y ∉ l2) as H12' by (intros y Hy Hy2; apply (H12 y Hy); by right).
  assert ((l1 = [] ∧ hd = q ∧ m = END) ∨ (∃ l', l1 = l' ++ [m] ∧ m ≠ END)) as Hl1.
  { destruct (dlseg_last _ _ _ _ _ _ _ H1) as [?|(l' & ? & ? & ?)]; [by left|right; eauto]. }
  assert ((l2 = [] ∧ n = END ∧ tl = q) ∨ (∃ l', l2 = n :: l' ∧ n ≠ END)) as Hl2.
  { destruct (dlseg_head _ _ _ _ _ _ _ H2) as [?|(l' & ? & ? & ?)]; [by left|right; eauto]. }
  assert (dlseg nx' pv' END (if decide (m = END) then n else hd) l1 m n) as H1'.
  { destruct Hl1 as [(-> & -> & ->)|(l' & -> & Hm)]; [by rewrite decide_True|].
    rewrite decide_False by done.
    apply (dlseg_set_next nx pv nx' pv' END hd _ m q); [done|by destruct l'|done| | |].
    - intros y Hy. rewrite Hpv by (apply elem_of_app; by left). rewrite decide_False; [done|].
      intros ->. destruct Hl2 as [(-> & -> & _)|(l2' & -> & _)].
      + by eapply (dlseg_not_END _ _ _ _ _ _ _ END H1).
      + apply (H12' n Hy). by left.
    - intros y Hy Hym. rewrite Hnx by (apply elem_of_app; by left). by rewrite decide_False.
    - rewrite Hnx; [by rewrite decide_True|]. apply elem_of_app; left. apply elem_of_app; right; by left. }
  split_and!.
  - intros ->. destruct Hl1 as [(? & _)|(l' & _ & ?)]; done.
  - intros ->. destruct Hl2 as [(? & _)|(l' & _ & ?)]; done.
  - intros Hm. destruct Hl1 as [(_ & _ & ?)|(l' & -> & _)]; [done|]. apply elem_of_app; right; by left.
  - intros Hn. destruct Hl2 as [(_ & ? & _)|(l' & -> & _)]; [done|]. by left.
  - assert (∀ y, y ∈ l2 → y ≠ m) as Hm2.
    { intros y Hy ->. destruct Hl1 as [(_ & _ & ->)|(l' & -> & _)].
      - by eapply (dlseg_not_END _ _ _ _ _ _ _ END H2).
      - apply (H12' m); [|done]. apply elem_of_app; right; by left. }
    destruct Hl2 as [(-> & -> & _)|(l2' & -> & Hn)].
    + exists m. rewrite app_nil_r in *. by split.
    + exists tl. split; [|done]. apply dlseg_app. exists m, n. split; [done|].
      apply (dlseg_set_prev nx pv nx' pv' q m); [done|done|done| | |].
      * intros y Hy. rewrite Hnx by (apply elem_of_app; by right). rewrite decide_False; [done|by apply Hm2].
      * intros y Hy Hyn. rewrite Hpv by (apply elem_of_app; by right). by rewrite decide_False.
      * rewrite Hpv; [by rewrite decide_True|]. apply elem_of_app; right; by left.
Qed.
End edit.
