(* ===== verification/Hash.v ===== *)
(** * rts/Hash.c: dynamically expanding linear hash tables

    The table of Larson's linear hashing, with its directory of segments, its
    free list of chain cells carved from chunks, and the hash and comparison
    functions the RTS instantiates it with.  A chain is the list of its cells
    in [next] order; a cell carries the address it was allocated at (chunk
    number and index), so that reuse of freed cells is visible.  [HashKey] is
    the interface a hash/compare pair must satisfy: [hashWord] and [hashStr]
    are its instances, and all the theorems about the table are proved against
    it.  [WordTable] is what the clients of tables with word keys rely on. *)
From S2P Require Import Prelude.
From stdpp Require Import list gmap sorting.
Local Open Scope Z_scope.

Definition HSEGSIZE : Z := 1024.
Definition HDIRSIZE : Z := 1024.
Definition HLOAD : Z := 5.
(** [1024 * sizeof(W_) / sizeof(HashList)], with 8-byte words and 24-byte cells *)
Definition HCHUNK : Z := 1024 * 8 / 24.

(** The address of a cell: the chunk it was carved from and its index there. *)
Definition cell_addr : Type := nat * Z.

Record HashList : Type := mkCell {
  hl_addr : cell_addr;
  key : Z;
  data : Z                    (* [void *]; NULL is 0 *)
}.

Record HashTable : Type := mkTable {
  split : Z;
  max : Z;
  mask1 : Z;
  mask2 : Z;
  kcount : Z;
  bcount : Z;
  dir : gmap Z (gmap Z (list HashList));  (* segment -> index -> chain *)
  freeList : list cell_addr;
  chunks : nat                             (* how many chunks were allocated *)
}.

Definition set_dir (d : gmap Z (gmap Z (list HashList))) (t : HashTable) : HashTable :=
  mkTable (split t) (max t) (mask1 t) (mask2 t) (kcount t) (bcount t) d (freeList t) (chunks t).
Definition set_freeList (l : list cell_addr) (t : HashTable) : HashTable :=
  mkTable (split t) (max t) (mask1 t) (mask2 t) (kcount t) (bcount t) (dir t) l (chunks t).
Definition set_chunks (n : nat) (t : HashTable) : HashTable :=
  mkTable (split t) (max t) (mask1 t) (mask2 t) (kcount t) (bcount t) (dir t) (freeList t) n.
Definition set_kcount (n : Z) (t : HashTable) : HashTable :=
  mkTable (split t) (max t) (mask1 t) (mask2 t) n (bcount t) (dir t) (freeList t) (chunks t).
Definition set_bcount (n : Z) (t : HashTable) : HashTable :=
  mkTable (split t) (max t) (mask1 t) (mask2 t) (kcount t) n (dir t) (freeList t) (chunks t).
Definition set_split (n : Z) (t : HashTable) : HashTable :=
  mkTable n (max t) (mask1 t) (mask2 t) (kcount t) (bcount t) (dir t) (freeList t) (chunks t).
Definition set_dims (s m m1 m2 : Z) (t : HashTable) : HashTable :=
  mkTable s m m1 m2 (kcount t) (bcount t) (dir t) (freeList t) (chunks t).

(** ** Hash and comparison functions *)

(** The reduction both hash functions end with: mod the smaller table, and
    the larger one when the bucket has already been split. *)
Definition bucket_of (t : HashTable) (h : Z) : Z :=
  let bucket := Z.land h (mask1 t) in
  if bucket <? split t then Z.land h (mask2 t) else bucket.

Definition hashWord (t : HashTable) (key : Z) : Z :=
  let key := key / 8 in
  let bucket := Z.land key (mask1 t) in
  if bucket <? split t then Z.land key (mask2 t) else bucket.

Section strings.
(** The bytes (as signed [char]s) of the C string at an address, without
    its terminating zero. *)
Context (str_at : Z → list Z).

Definition hashStr_loop (h : Z) (s : Z) : Z :=
  let h := h * 128 in
  let h := h + s in
  Z.rem h 1048583.

Definition hashStr (t : HashTable) (key : Z) : Z :=
  let h := foldl hashStr_loop 0 (str_at key) in
  let bucket := Z.land h (mask1 t) in
  if bucket <? split t then Z.land h (mask2 t) else bucket.

Definition compareStr (key1 key2 : Z) : bool :=
  bool_decide (str_at key1 = str_at key2).
End strings.

Definition compareWord (key1 key2 : Z) : bool := key1 =? key2.

(** What the table relies on: the bucket depends on the key only through an
    integer hash of its identity [canon], and the comparison tests identity. *)
Class HashKey (hash : HashTable → Z → Z) (compare : Z → Z → bool) (K : Type)
    `{Countable K} := {
  canon : Z → K;
  khash : K → Z;
  hash_spec : ∀ t k, hash t k = bucket_of t (khash (canon k));
  compare_spec : ∀ k1 k2, compare k1 k2 = true ↔ canon k1 = canon k2
}.

#[export] Program Instance HashKey_word : HashKey hashWord compareWord Z :=
  {| canon := id; khash k := k / 8 |}.
Next Obligation. done. Qed.
Next Obligation. intros; apply Z.eqb_eq. Qed.

#[export] Program Instance HashKey_str (str_at : Z → list Z) :
  HashKey (hashStr str_at) (compareStr str_at) (list Z) :=
  {| canon := str_at; khash := foldl hashStr_loop 0 |}.
Next Obligation. done. Qed.
Next Obligation. intros; apply bool_decide_eq_true. Qed.

(** ** The operations *)
Section ops.
Context (hash : HashTable → Z → Z) (compare : Z → Z → bool).

(** [table->dir[segment][index]]: a segment that was never allocated, or an
    index whose content was never stored, is a bad access. *)
Definition read_bucket (segment index : Z) : prog HashTable (list HashList) :=
  seg ← load dir segment;
  deref (seg !! index).

Definition write_bucket (segment index : Z) (l : list HashList) : prog HashTable unit :=
  seg ← load dir segment;
  modify (λ t, set_dir (<[segment := <[index := l]> seg]> (dir t)) t).

(** [malloc] leaves the segment's contents uninitialised *)
Definition allocSegment (segment : Z) : prog HashTable unit :=
  modify (λ t, set_dir (<[segment := ∅]> (dir t)) t).

(** The two lists [expand] distributes a chain over; each cell is pushed at
    the front. *)
Definition expand_split (t : HashTable) (newbucket : Z) (l : list HashList) :
    list HashList * list HashList :=
  foldl (λ '(old, new) hl,
    if hash t (key hl) =? newbucket then (old, hl :: new) else (hl :: old, new))
    ([], []) l.

Definition expand : prog HashTable unit :=
  t ← get;
  if HDIRSIZE * HSEGSIZE <=? split t + max t then mret tt
  else
    let oldsegment := split t `quot` HSEGSIZE in
    let oldindex := split t `rem` HSEGSIZE in
    let newbucket := max t + split t in
    let newsegment := newbucket `quot` HSEGSIZE in
    let newindex := newbucket `rem` HSEGSIZE in
    when (newindex =? 0) (allocSegment newsegment);;
    modify (λ t, set_split (split t + 1) t);;
    t ← get;
    when (split t =? max t)
      (modify (λ t, set_dims 0 (max t * 2) (mask2 t)
                      (Z.lor (Z.shiftl (mask2 t) 1) 1) t));;
    modify (λ t, set_bcount (bcount t + 1) t);;
    t ← get;
    chain ← read_bucket oldsegment oldindex;
    let '(old, new) := expand_split t newbucket chain in
    write_bucket oldsegment oldindex old;;
    write_bucket newsegment newindex new.

Definition lookupHashTable (k : Z) : prog HashTable Z :=
  t ← get;
  let bucket := hash t k in
  chain ← read_bucket (bucket `quot` HSEGSIZE) (bucket `rem` HSEGSIZE);
  mret (match find (λ hl, compare (key hl) k) chain with
        | Some hl => data hl
        | None => 0
        end).

Definition allocHashList : prog HashTable cell_addr :=
  t ← get;
  match freeList t with
  | hl :: rest => modify (set_freeList rest);; mret hl
  | [] =>
    let chunk := chunks t in
    modify (set_chunks (S chunk));;
    modify (set_freeList ((λ i, (chunk, i)) <$> seqZ 1 (HCHUNK - 1)));;
    mret (chunk, 0)
  end.

Definition freeHashList (hl : cell_addr) : prog HashTable unit :=
  modify (λ t, set_freeList (hl :: freeList t) t).

Definition insertHashTable (k d : Z) : prog HashTable unit :=
  modify (λ t, set_kcount (wrapS 32 (kcount t + 1)) t);;
  t ← get;
  when (HLOAD * bcount t <=? kcount t) expand;;
  t ← get;
  let bucket := hash t k in
  let segment := bucket `quot` HSEGSIZE in
  let index := bucket `rem` HSEGSIZE in
  hl ← allocHashList;
  chain ← read_bucket segment index;
  write_bucket segment index (mkCell hl k d :: chain).

(** The scan of [removeHashTable]: the cell found, and the chain relinked
    around it.  [prev] is the reversed prefix already passed. *)
Fixpoint remove_scan (k d : Z) (prev chain : list HashList) :
    option (HashList * list HashList) :=
  match chain with
  | [] => None
  | hl :: next =>
    if compare (key hl) k && ((d =? 0) || (data hl =? d))
    then Some (hl, rev_append prev next)
    else remove_scan k d (hl :: prev) next
  end.

Definition removeHashTable (k d : Z) : prog HashTable Z :=
  t ← get;
  let bucket := hash t k in
  let segment := bucket `quot` HSEGSIZE in
  let index := bucket `rem` HSEGSIZE in
  chain ← read_bucket segment index;
  match remove_scan k d [] chain with
  | Some (hl, chain') =>
    write_bucket segment index chain';;
    freeHashList (hl_addr hl);;
    modify (λ t, set_kcount (wrapS 32 (kcount t - 1)) t);;
    mret (data hl)
  | None =>
    ASSERT (d =? 0);;
    mret 0
  end.
End ops.

(** The bucket numbers [freeHashTable] visits, in order: the last bucket in
    use down to 0, segment by segment. *)
Definition freeHashTable_order (t : HashTable) : list (Z * Z) :=
  let segment := (max t + split t - 1) `quot` HSEGSIZE in
  let index := (max t + split t - 1) `rem` HSEGSIZE in
  ((λ i, (segment, i)) <$> reverse (seqZ 0 (index + 1))) ++
  (s ← reverse (seqZ 0 segment); (λ i, (s, i)) <$> reverse (seqZ 0 HSEGSIZE)).

(** The calls [freeDataFun(hl->data)] made, in order; [free_data] is false for
    a NULL [freeDataFun]. *)
Definition freeHashTable (free_data : bool) (t : HashTable) : outcome (list Z) :=
  foldr (λ '(segment, index) (rest : outcome (list Z)),
    match dir t !! segment ≫= lookup index with
    | None => Err BadPointer
    | Some chain =>
      match rest with
      | Ok l => Ok ((if free_data then data <$> chain else []) ++ l)
      | Err e => Err e
      end
    end) (Ok []) (freeHashTable_order t).

(** [allocHashTable_]; the two function pointers it stores are the [hash] and
    [compare] the operations are given. *)
Definition allocHashTable_ : HashTable :=
  mkTable 0 HSEGSIZE (HSEGSIZE - 1) (2 * HSEGSIZE - 1) 0 HSEGSIZE
    {[ 0 := list_to_map ((λ i, (i, [])) <$> seqZ 0 HSEGSIZE) ]} [] 0.
Definition allocHashTable : HashTable := allocHashTable_.
Definition allocStrHashTable : HashTable := allocHashTable_.

(** ** The invariant *)

(** The chain of a bucket number. *)
Definition bucket (t : HashTable) (b : Z) : option (list HashList) :=
  dir t !! (b `quot` HSEGSIZE) ≫= lookup (b `rem` HSEGSIZE).

(** All the cells of the table, bucket by bucket. *)
Definition elements (t : HashTable) : list HashList :=
  seqZ 0 (bcount t) ≫= λ b, default [] (bucket t b).

(** The dimensions: the smaller table has [2^n] buckets, [split] of which have
    been split, and the masks are those of [2^n] and [2^(n+1)]. *)
Definition dims_ok (t : HashTable) : Prop :=
  ∃ n, 10 <= n ∧ max t = 2 ^ n ∧ mask1 t = 2 ^ n - 1 ∧ mask2 t = 2 ^ (n + 1) - 1 ∧
    0 <= split t < max t ∧ bcount t = max t + split t ∧
    max t + split t <= HDIRSIZE * HSEGSIZE.

Section table_ok.
Context (hash : HashTable → Z → Z).

(** Every bucket in use is initialised and holds only keys that hash to it. *)
Record shape_ok (t : HashTable) : Prop := {
  ok_dims : dims_ok t;
  ok_bucket b : 0 <= b < bcount t →
    ∃ chain, bucket t b = Some chain ∧ ∀ c, c ∈ chain → hash t (key c) = b
}.

(** No cell is in two chains, nor in a chain and in the free list. *)
Record cells_ok (t : HashTable) : Prop := {
  ok_addrs : NoDup (freeList t ++ (hl_addr <$> elements t));
  ok_chunks a : a ∈ freeList t ++ (hl_addr <$> elements t) → (a.1 < chunks t)%nat
}.

Record table_ok (t : HashTable) : Prop := {
  ok_shape : shape_ok t;
  ok_cells : cells_ok t;
  ok_count : kcount t = wrapS 32 (Z.of_nat (length (elements t)))
}.
End table_ok.

(** ** Arithmetic of the buckets *)
Section bucket_arith.
Implicit Types t : HashTable.

Lemma bucket_of_mod t h : dims_ok t →
  bucket_of t h =
    if h mod max t <? split t then h mod (2 * max t) else h mod max t.
Proof.
  intros (n & Hn & Hm & H1 & H2 & _). unfold bucket_of.
  rewrite H1, H2, Hm, <- Z.pow_succ_r by lia.
  rewrite !Z.sub_1_r, <- !Z.ones_equiv, !Z.land_ones by lia. done.
Qed.

Lemma mod_double h m : 0 < m →
  h mod (2 * m) = h mod m ∨ h mod (2 * m) = h mod m + m.
Proof.
  intros. rewrite (Z.mul_comm 2 m), Z.rem_mul_r by lia.
  pose proof (Z.mod_pos_bound (h `div` m) 2 ltac:(lia)).
  assert ((h `div` m) mod 2 = 0 ∨ (h `div` m) mod 2 = 1) as [-> | ->]; lia.
Qed.

Lemma bucket_of_range t h : dims_ok t → 0 <= bucket_of t h < bcount t.
Proof.
  intros Hd. rewrite (bucket_of_mod t h Hd).
  destruct Hd as (n & Hn & Hm & _ & _ & Hs & Hb & _).
  assert (0 < max t) by lia.
  pose proof (Z.mod_pos_bound h (max t)).
  pose proof (mod_double h (max t)).
  destruct (Z.ltb_spec (h mod max t) (split t)); lia.
Qed.

(** The dimensions after one expansion step. *)
Definition expand_dims t : HashTable :=
  let t := set_split (split t + 1) t in
  let t := if split t =? max t
           then set_dims 0 (max t * 2) (mask2 t) (Z.lor (Z.shiftl (mask2 t) 1) 1) t
           else t in
  set_bcount (bcount t + 1) t.

Lemma expand_dims_ok t :
  dims_ok t → split t + max t < HDIRSIZE * HSEGSIZE → dims_ok (expand_dims t).
Proof.
  intros (n & Hn & Hm & H1 & H2 & Hs & Hb & Hl) Hlt.
  unfold expand_dims; cbn.
  destruct (Z.eqb_spec (split t + 1) (max t)) as [He|He]; cbn;
    unfold dims_ok; cbn.
  - assert (2 ^ (n + 1) = 2 * 2 ^ n) as Hp by (rewrite Z.pow_add_r by lia; lia).
    exists (n + 1). rewrite H2, Hm in *. repeat split; try lia.
    rewrite (Z.pow_add_r 2 (n + 1) 1), Z.shiftl_mul_pow2 by lia.
    change (2 ^ 1) with 2.
    rewrite lor_double_1. lia.
  - exists n. repeat split; lia.
Qed.

(** A key stays where it is, unless its bucket is the one being split. *)
Lemma expand_dims_bucket t h :
  dims_ok t → split t + max t < HDIRSIZE * HSEGSIZE →
  (bucket_of t h ≠ split t → bucket_of (expand_dims t) h = bucket_of t h) ∧
  (bucket_of t h = split t →
     bucket_of (expand_dims t) h = split t ∨
     bucket_of (expand_dims t) h = max t + split t).
Proof.
  intros Hd Hlt. pose proof (expand_dims_ok t Hd Hlt) as Hd'.
  rewrite (bucket_of_mod t h Hd), (bucket_of_mod _ h Hd').
  destruct Hd as (n & Hn & Hm & _ & _ & Hs & _ & _). clear Hd'.
  assert (0 < max t) as Hp by lia. clear Hm Hn n.
  pose proof (Z.mod_pos_bound h (max t) Hp) as Hb1.
  pose proof (mod_double h (max t) Hp) as Hd1.
  unfold expand_dims; cbn.
  destruct (Z.eqb_spec (split t + 1) (max t)) as [He|He]; cbn.
  - assert (0 < max t * 2) as Hp2 by lia.
    pose proof (Z.mod_pos_bound h (max t * 2) Hp2).
    rewrite (Z.mul_comm (max t) 2) in *.
    destruct (Z.ltb_spec (h mod (2 * max t)) 0); [lia|].
    destruct (Z.ltb_spec (h mod max t) (split t)); split; intros; lia.
  - destruct (Z.ltb_spec (h mod max t) (split t + 1)),
      (Z.ltb_spec (h mod max t) (split t)); split; intros; lia.
Qed.
End bucket_arith.

(** ** Reading and writing buckets *)
Section buckets.
Implicit Types t : HashTable.

(** The table after [write_bucket]. *)
Definition put_bucket (b : Z) (l : list HashList) t : HashTable :=
  set_dir (<[b `quot` HSEGSIZE :=
             <[b `rem` HSEGSIZE := l]> (default ∅ (dir t !! (b `quot` HSEGSIZE)))]>
           (dir t)) t.

Lemma bucket_put t b l b' :
  bucket (put_bucket b l t) b' = if decide (b = b') then Some l else bucket t b'.
Proof.
  unfold bucket, put_bucket; cbn. destruct (decide (b = b')) as [<-|Hne].
  { rewrite lookup_insert_eq. cbn. apply lookup_insert_eq. }
  destruct (decide (b `quot` HSEGSIZE = b' `quot` HSEGSIZE)) as [He|He].
  - rewrite He, lookup_insert_eq. cbn. rewrite lookup_insert_ne.
    + by destruct (dir t !! _).
    + intros Hr. by apply Hne, (quot_rem_inj b b' HSEGSIZE).
  - by rewrite lookup_insert_ne.
Qed.

Lemma wp_read_bucket t b l Q :
  bucket t b = Some l → Q l t →
  wp (read_bucket (b `quot` HSEGSIZE) (b `rem` HSEGSIZE)) Q t.
Proof.
  unfold bucket, read_bucket. destruct (dir t !! _) as [seg|] eqn:E; [|done].
  cbn. intros. by wp_steps.
Qed.

Lemma wp_write_bucket t b l Q :
  is_Some (dir t !! (b `quot` HSEGSIZE)) → Q tt (put_bucket b l t) →
  wp (write_bucket (b `quot` HSEGSIZE) (b `rem` HSEGSIZE) l) Q t.
Proof.
  intros [seg Hseg] HQ. unfold write_bucket, put_bucket in *.
  wp_steps. by rewrite Hseg in HQ.
Qed.

Lemma bucket_segment t b l :
  bucket t b = Some l → is_Some (dir t !! (b `quot` HSEGSIZE)).
Proof. unfold bucket. destruct (dir t !! _); [eauto|done]. Qed.

(** The cells in all buckets but [b]. *)
Definition other_elements (b : Z) t : list HashList :=
  filter (λ b', b' ≠ b) (seqZ 0 (bcount t)) ≫= λ b', default [] (bucket t b').

Lemma elements_split t b l :
  0 <= b < bcount t → bucket t b = Some l →
  elements t ≡ₚ l ++ other_elements b t.
Proof.
  intros Hb Hl. unfold elements, other_elements.
  rewrite (filter_ne_perm b (seqZ 0 (bcount t))) at 1.
  - cbn. by rewrite Hl.
  - apply NoDup_seqZ.
  - apply elem_of_seqZ. lia.
Qed.

Lemma elements_ext t t' :
  bcount t' = bcount t →
  (∀ b, 0 <= b < bcount t → bucket t' b = bucket t b) → elements t' = elements t.
Proof.
  intros Hc Hb. unfold elements. rewrite Hc. apply bind_ext_elem.
  intros b Hin%elem_of_seqZ. rewrite Hb; [done|lia].
Qed.

Lemma other_elements_ext t t' b :
  bcount t' = bcount t →
  (∀ b', 0 <= b' < bcount t → b' ≠ b → bucket t' b' = bucket t b') →
  other_elements b t' = other_elements b t.
Proof.
  intros Hc Hb. unfold other_elements. rewrite Hc. apply bind_ext_elem.
  intros b' [Hne Hin%elem_of_seqZ]%list_elem_of_filter. rewrite Hb; [done|lia|done].
Qed.

Lemma elem_of_elements t c :
  c ∈ elements t ↔ ∃ b l, 0 <= b < bcount t ∧ bucket t b = Some l ∧ c ∈ l.
Proof.
  unfold elements. rewrite list_elem_of_bind. split.
  - intros (b & Hc & Hb%elem_of_seqZ).
    destruct (bucket t b) as [l|] eqn:E; cbn in Hc; [|by apply elem_of_nil in Hc].
    exists b, l. repeat split; [lia|lia|done..].
  - intros (b & l & Hb & E & Hc). exists b. rewrite E. split; [done|].
    apply elem_of_seqZ. lia.
Qed.

Lemma elements_put t b l l' :
  0 <= b < bcount t → bucket t b = Some l →
  elements (put_bucket b l' t) ≡ₚ l' ++ other_elements b t.
Proof.
  intros Hb Hl. rewrite (elements_split (put_bucket b l' t) b l').
  - rewrite other_elements_ext with (t := t); [done|done|].
    intros b' _ Hne. rewrite bucket_put. by rewrite decide_False.
  - done.
  - rewrite bucket_put. by rewrite decide_True.
Qed.
End buckets.

(** ** Expansion *)
Section expand.
Context `{Hhk : HashKey hash compare K}.
Implicit Types t : HashTable.

Lemma expand_split_spec t nb l :
  expand_split hash t nb l =
    (reverse (filter (λ c, hash t (key c) ≠ nb) l),
     reverse (filter (λ c, hash t (key c) = nb) l)).
Proof.
  unfold expand_split.
  enough (∀ old new, foldl (λ '(old, new) hl,
      if hash t (key hl) =? nb then (old, hl :: new) else (hl :: old, new))
      (old, new) l =
    (reverse (filter (λ c, hash t (key c) ≠ nb) l) ++ old,
     reverse (filter (λ c, hash t (key c) = nb) l) ++ new)) as Hgen.
  { by rewrite Hgen, !app_nil_r. }
  induction l as [|c l IH]; intros old new; [done|]. cbn [foldl].
  rewrite !filter_cons. destruct (Z.eqb_spec (hash t (key c)) nb) as [He|He].
  - rewrite IH, decide_False, decide_True by naive_solver.
    by rewrite reverse_cons, <- app_assoc.
  - rewrite IH, decide_True, decide_False by naive_solver.
    by rewrite reverse_cons, <- app_assoc.
Qed.

Lemma expand_split_perm t nb l old new :
  expand_split hash t nb l = (old, new) → old ++ new ≡ₚ l.
Proof.
  rewrite expand_split_spec. intros [= <- <-].
  rewrite !reverse_Permutation, Permutation_app_comm.
  rewrite <- (filter_app_complement (λ c, hash t (key c) = nb) l) at 3. done.
Qed.

(** What [expand] leaves, when it does expand. *)
Definition expanded (old new : list HashList) (t : HashTable) : HashTable :=
  put_bucket (max t + split t) new (put_bucket (split t) old
    (expand_dims (if (max t + split t) `rem` HSEGSIZE =? 0
      then set_dir (<[(max t + split t) `quot` HSEGSIZE := ∅]> (dir t)) t else t))).

Lemma bcount_expanded old new t : bcount (expanded old new t) = bcount t + 1.
Proof.
  unfold expanded, put_bucket, expand_dims; cbn.
  destruct (_ =? 0); cbn; by destruct (_ =? _).
Qed.

Lemma bucket_expanded old new t b :
  dims_ok t → 0 <= b < bcount t →
  bucket (expanded old new t) b = if decide (b = split t) then Some old else bucket t b.
Proof.
  intros (n & Hn & Hm & _ & _ & Hs & Hb & _) Hr. unfold expanded.
  rewrite !bucket_put, decide_False by lia.
  destruct (decide (split t = b)) as [<-|Hne]; [by rewrite decide_True|].
  rewrite decide_False by congruence.
  assert (∀ t, bucket (expand_dims t) b = bucket t b) as ->.
  { intros t'. unfold bucket, expand_dims; cbn. by destruct (_ =? _). }
  destruct (Z.eqb_spec ((max t + split t) `rem` HSEGSIZE) 0) as [He|]; [|done].
  unfold bucket; cbn. rewrite lookup_insert_ne; [done|].
  unfold HSEGSIZE in *. Z.quot_rem_to_equations. lia.
Qed.

Lemma expand_elements old new t l :
  dims_ok t → bucket t (split t) = Some l → old ++ new ≡ₚ l →
  elements (expanded old new t) ≡ₚ elements t.
Proof.
  intros Hd Hl Hp. assert (Hd' := Hd).
  destruct Hd as (n & Hn & Hm & _ & _ & Hs & Hb & _).
  rewrite (elements_split t (split t) l) by (lia || done).
  rewrite (elements_split _ (split t) old);
    [|rewrite bcount_expanded; lia
     |rewrite bucket_expanded by (done || lia); by rewrite decide_True].
  unfold other_elements. rewrite bcount_expanded, seqZ_app by lia.
  rewrite Z.add_0_l, (seqZ_cons _ 1), (seqZ_nil _ (Z.pred 1)) by lia.
  rewrite filter_app, bind_app, (filter_all _ [bcount t]);
    [|intros b ->%list_elem_of_singleton; lia]. cbn.
  rewrite app_nil_r.
  replace (bucket (expanded old new t) (bcount t)) with (Some new).
  2: { unfold expanded. rewrite bucket_put, decide_True by lia. done. }
  cbn. rewrite (bind_ext_elem _ (λ b', default [] (bucket t b'))).
  - rewrite <- Hp. rewrite <- app_assoc. apply Permutation_app_head.
    apply Permutation_app_comm.
  - intros b [Hne Hin%elem_of_seqZ]%list_elem_of_filter.
    rewrite bucket_expanded by (done || lia). by rewrite decide_False.
Qed.

(** The table whose dimensions the keys are rehashed with. *)
Definition expand_base (t : HashTable) : HashTable :=
  expand_dims (if (max t + split t) `rem` HSEGSIZE =? 0
      then set_dir (<[(max t + split t) `quot` HSEGSIZE := ∅]> (dir t)) t else t).

Lemma bucket_expand_base t b :
  dims_ok t → 0 <= b < bcount t → bucket (expand_base t) b = bucket t b.
Proof.
  intros Hd Hb. pose proof (bucket_expanded [] [] t b Hd Hb) as He.
  unfold expanded in He. fold (expand_base t) in He. rewrite !bucket_put in He.
  destruct Hd as (n & Hn & Hm & _ & _ & Hs & Hc & _).
  rewrite decide_False in He by lia.
  destruct (decide (split t = b)) as [<-|]; [|by rewrite decide_False in He by congruence].
  unfold expand_base, bucket, expand_dims.
  destruct (Z.eqb_spec ((max t + split t) `rem` HSEGSIZE) 0) as [He'|]; cbn;
    destruct (_ =? _); cbn; try done.
  all: rewrite lookup_insert_ne; [done|].
  all: unfold HSEGSIZE in *; Z.quot_rem_to_equations; lia.
Qed.

Lemma new_segment t :
  shape_ok hash t → is_Some (dir (expand_base t) !! ((max t + split t) `quot` HSEGSIZE)).
Proof.
  intros [Hd Hb]. assert (∀ t, dir (expand_dims t) = dir t) as Hdir.
  { intros t'. unfold expand_dims; cbn. by destruct (_ =? _). }
  unfold expand_base. rewrite Hdir.
  destruct (Z.eqb_spec ((max t + split t) `rem` HSEGSIZE) 0) as [He|He]; cbn.
  { rewrite lookup_insert_eq. eauto. }
  destruct Hd as (n & Hn & Hm & _ & _ & Hs & Hc & _).
  destruct (Hb (max t + split t - 1)) as (l & Hl & _); [lia|].
  apply bucket_segment in Hl.
  replace ((max t + split t - 1) `quot` HSEGSIZE)
    with ((max t + split t) `quot` HSEGSIZE) in Hl; [done|].
  unfold HSEGSIZE in *. Z.quot_rem_to_equations. lia.
Qed.

Lemma wp_expand t Q :
  shape_ok hash t →
  (HDIRSIZE * HSEGSIZE <= split t + max t → Q tt t) →
  (∀ old new l, split t + max t < HDIRSIZE * HSEGSIZE →
     bucket t (split t) = Some l →
     expand_split hash (expand_base t) (max t + split t) l = (old, new) →
     Q tt (expanded old new t)) →
  wp (expand hash) Q t.
Proof.
  intros Hok HQ1 HQ2. unfold expand. wp_step. wp_step.
  destruct (Z.leb_spec (HDIRSIZE * HSEGSIZE) (split t + max t)) as [Hle|Hlt].
  { wp_step. auto. }
  assert (0 <= split t < bcount t) as Hr.
  { destruct Hok as [(n & _ & _ & _ & _ & ? & ? & _) _]. lia. }
  destruct (ok_bucket _ _ Hok (split t) Hr) as (l & Hl & _).
  destruct (expand_split hash (expand_base t) (max t + split t) l) as [old new] eqn:E.
  specialize (HQ2 old new l Hlt Hl E).
  assert (wp (chain ← read_bucket (split t `quot` HSEGSIZE) (split t `rem` HSEGSIZE);
              let '(old, new) := expand_split hash (expand_base t) (max t + split t) chain in
              write_bucket (split t `quot` HSEGSIZE) (split t `rem` HSEGSIZE) old;;
              write_bucket ((max t + split t) `quot` HSEGSIZE)
                           ((max t + split t) `rem` HSEGSIZE) new) Q (expand_base t)) as Hgo.
  { wp_step. eapply wp_read_bucket.
    { rewrite bucket_expand_base by (apply Hok || lia). done. }
    rewrite E. wp_step. apply wp_write_bucket.
    { eapply bucket_segment. rewrite bucket_expand_base by (apply Hok || lia). done. }
    apply wp_write_bucket; [|done].
    cbn. rewrite lookup_insert_is_Some'. right. by apply new_segment. }
  apply wp_bind_inv in Hgo. unfold expand_base, expand_dims in Hgo.
  wp_step. apply wp_when; intros Hn; unfold allocSegment; rewrite Hn in Hgo;
    wp_steps; match goal with H : (split _ =? max _) = _ |- _ =>
      cbn in H, Hgo |- *; rewrite H in Hgo end; exact Hgo.
Qed.

(** The hash of a key depends on the table's dimensions only. *)
Lemma hash_dims t t' k :
  split t' = split t → mask1 t' = mask1 t → mask2 t' = mask2 t →
  hash t' k = hash t k.
Proof. intros H1 H2 H3. rewrite (hash_spec t' k), (hash_spec t k). unfold bucket_of. by rewrite H1, H2, H3. Qed.

Lemma shape_expanded t old new l :
  shape_ok hash t → split t + max t < HDIRSIZE * HSEGSIZE →
  bucket t (split t) = Some l →
  expand_split hash (expand_base t) (max t + split t) l = (old, new) →
  shape_ok hash (expanded old new t).
Proof.
  intros Hok Hlt Hl E. rewrite expand_split_spec in E. injection E as Eo En.
  assert (Hd := ok_dims _ _ Hok). split.
  { pose proof (expand_dims_ok t Hd Hlt) as (n & Hdims). exists n. revert Hdims.
    unfold expanded, expand_dims. destruct (_ =? 0); cbn; destruct (_ =? max t); exact id. }
  assert (∀ k, hash (expanded old new t) k = bucket_of (expand_dims t) (khash (canon k))
             ∧ hash (expand_base t) k = bucket_of (expand_dims t) (khash (canon k))) as Hh.
  { intros k. rewrite (hash_spec (expanded _ _ _) k), (hash_spec (expand_base t) k).
    unfold expanded, expand_base, expand_dims.
    destruct (_ =? 0); cbn; by destruct (_ =? max t). }
  assert (Hs : 0 <= split t < max t ∧ bcount t = max t + split t).
  { by destruct Hd as (n & _ & _ & _ & _ & ? & ? & _). }
  rewrite bcount_expanded. intros b Hb.
  destruct (ok_bucket _ _ Hok (split t)) as (l' & Hl' & Hin); [lia|].
  rewrite Hl in Hl'. injection Hl' as <-.
  assert (∀ c, c ∈ l → bucket_of (expand_dims t) (khash (canon (key c))) = split t
     ∨ bucket_of (expand_dims t) (khash (canon (key c))) = max t + split t) as Hsp.
  { intros c Hc%Hin. rewrite hash_spec in Hc. by apply expand_dims_bucket. }
  destruct (decide (b = bcount t)) as [->|Hb'].
  { exists new. split; [unfold expanded; by rewrite bucket_put, decide_True by lia|].
    intros c Hc. rewrite (proj1 (Hh _)).
    rewrite <- En, elem_of_reverse, list_elem_of_filter, (proj2 (Hh _)) in Hc. lia. }
  rewrite bucket_expanded by (done || lia). case_decide as Hbs.
  { exists old. split; [done|]. intros c Hc. rewrite (proj1 (Hh _)).
    rewrite <- Eo, elem_of_reverse, list_elem_of_filter, (proj2 (Hh _)) in Hc.
    destruct Hc as [Hc ?%Hsp]. subst b. tauto. }
  destruct (ok_bucket _ _ Hok b) as (lb & Hlb & Hinb); [lia|].
  exists lb. split; [done|]. intros c Hc%Hinb. rewrite (proj1 (Hh _)).
  rewrite hash_spec in Hc.
  destruct (expand_dims_bucket t (khash (canon (key c))) Hd Hlt) as [Hstay _].
  rewrite Hstay; congruence.
Qed.
End expand.

(** ** The operations, over the cells of the table *)
Section specs.
Context `{Hhk : HashKey hash compare K}.
Implicit Types t : HashTable.

Lemma expand_ok t Q :
  shape_ok hash t →
  (∀ t', shape_ok hash t' → elements t' ≡ₚ elements t → freeList t' = freeList t →
     chunks t' = chunks t → kcount t' = kcount t → Q tt t') →
  wp (expand hash) Q t.
Proof.
  intros Hok HQ. apply wp_expand; [done|by auto|].
  intros old new l Hlt Hl E. apply HQ.
  - by eapply shape_expanded.
  - eapply expand_elements; [apply Hok|done|by eapply expand_split_perm].
  - unfold expanded, expand_dims. destruct (_ =? 0); cbn; by destruct (_ =? max t).
  - unfold expanded, expand_dims. destruct (_ =? 0); cbn; by destruct (_ =? max t).
  - unfold expanded, expand_dims. destruct (_ =? 0); cbn; by destruct (_ =? max t).
Qed.

(** The chain a key is looked for in holds every cell with that key. *)
Lemma chain_of t k :
  shape_ok hash t →
  ∃ l, 0 <= hash t k < bcount t ∧ bucket t (hash t k) = Some l ∧
    ∀ c, canon (key c) = canon k → c ∈ elements t ↔ c ∈ l.
Proof.
  intros Hok. assert (0 <= hash t k < bcount t) as Hr.
  { rewrite hash_spec. apply bucket_of_range, Hok. }
  destruct (ok_bucket _ _ Hok _ Hr) as (l & Hl & Hin).
  exists l. split_and!; [lia|lia|done|].
  intros c Hc. rewrite elem_of_elements. split.
  - intros (b & lb & Hb & Hlb & Hcl).
    destruct (ok_bucket _ _ Hok _ Hb) as (lb' & Hlb' & Hinb).
    rewrite Hlb in Hlb'. injection Hlb' as <-.
    apply Hinb in Hcl as He. rewrite hash_spec, Hc, <- hash_spec in He. congruence.
  - intros Hcl. by exists (hash t k), l.
Qed.

Lemma lookup_ok t k Q :
  shape_ok hash t →
  (∀ c, c ∈ elements t → canon (key c) = canon k → Q (data c) t) →
  ((∀ c, c ∈ elements t → canon (key c) ≠ canon k) → Q 0 t) →
  wp (lookupHashTable hash compare k) Q t.
Proof.
  intros Hok HS HN. destruct (chain_of t k Hok) as (l & _ & Hl & Hin).
  unfold lookupHashTable. wp_steps. eapply wp_read_bucket; [done|]. wp_steps.
  destruct (find _ l) as [c|] eqn:E.
  - apply find_some in E as [Hc E%compare_spec].
    apply HS; [|done]. apply Hin; [done|]. by apply list_elem_of_In.
  - apply HN. intros c Hc Hk.
    pose proof (find_none _ _ E c) as Hf. cbv beta in Hf. rewrite (proj2 (compare_spec _ _) Hk) in Hf.
    by apply Hin, list_elem_of_In in Hc; [apply Hf in Hc|].
Qed.

(** [write_bucket] into the bucket of a key keeps the shape. *)
Lemma shape_put t b l :
  shape_ok hash t → 0 <= b < bcount t → (∀ c, c ∈ l → hash t (key c) = b) →
  shape_ok hash (put_bucket b l t).
Proof.
  intros Hok Hb Hl. split; [apply Hok|].
  assert (∀ k, hash (put_bucket b l t) k = hash t k) as Hh by (intros; by apply hash_dims).
  intros b' Hb'. rewrite bucket_put. destruct (decide (b = b')) as [<-|].
  - exists l. split; [done|]. intros. rewrite Hh. auto.
  - destruct (ok_bucket _ _ Hok b' Hb') as (l' & Hl' & Hin).
    exists l'. split; [done|]. intros. rewrite Hh. auto.
Qed.

(** Allocation hands out an address that no live or free cell has. *)
Lemma alloc_ok t Q :
  cells_ok t →
  (∀ a t', dir t' = dir t → split t' = split t → max t' = max t →
     mask1 t' = mask1 t → mask2 t' = mask2 t → bcount t' = bcount t →
     kcount t' = kcount t →
     NoDup (a :: freeList t' ++ (hl_addr <$> elements t)) →
     (∀ a', a' ∈ a :: freeList t' ++ (hl_addr <$> elements t) → (a'.1 < chunks t')%nat) →
     Q a t') →
  wp allocHashList Q t.
Proof.
  intros [Hnd Hch] HQ. unfold allocHashList. wp_step. wp_step.
  assert (∀ a, a ∈ hl_addr <$> elements t → (a.1 < chunks t)%nat) as Hold.
  { intros a Ha. apply Hch. by rewrite elem_of_app; right. }
  destruct (freeList t) as [|a rest] eqn:E; wp_steps; apply HQ; try done; cbn.
  - rewrite app_comm_cons. apply NoDup_app. split_and!; [| |done].
    + apply NoDup_cons. split; [|apply (NoDup_fmap_2 _); apply NoDup_seqZ].
      rewrite list_elem_of_fmap. intros (i & [= <-] & Hi%elem_of_seqZ). lia.
    + intros a Ha Ha'%Hold. apply elem_of_cons in Ha as [->|Ha]; [cbn in *; lia|].
      apply list_elem_of_fmap in Ha as (i & -> & _). cbn in *. lia.
  - intros a' [->|[Ha|Ha]%elem_of_app]%elem_of_cons; cbn; [lia| |].
    + apply list_elem_of_fmap in Ha as (i & -> & _). cbn. lia.
    + apply Hold in Ha. lia.
Qed.

Lemma insert_ok t k d Q :
  table_ok hash t →
  (∀ a t', table_ok hash t' → elements t' ≡ₚ mkCell a k d :: elements t → Q tt t') →
  wp (insertHashTable hash k d) Q t.
Proof.
  intros [Hsh [Hnd Hch] Hct] HQ. unfold insertHashTable. wp_step. wp_step. wp_step. wp_step.
  set (t1 := set_kcount (wrapS 32 (kcount t + 1)) t).
  assert (shape_ok hash t1) as Hsh1.
  { split; [apply Hsh|]. intros b Hb.
    destruct (ok_bucket _ _ Hsh b Hb) as (l & Hl & Hin). exists l. split; [done|].
    intros c Hc%Hin. by rewrite <- Hc; apply hash_dims. }
  wp_step.
  set (Q' := λ (_ : unit) t', shape_ok hash t' ∧ elements t' ≡ₚ elements t ∧
     freeList t' = freeList t ∧ chunks t' = chunks t ∧ kcount t' = wrapS 32 (kcount t + 1)).
  apply (wp_mono _ Q').
  { apply wp_when; [|intros _; by split_and!]. intros _. apply expand_ok; [done|].
    intros t' ?????. by split_and!. }
  intros [] t2 (Hsh2 & Hel & Hfl & Hc2 & Hk2). wp_step. wp_step.
  assert (cells_ok t2) as Hcells2.
  { split; intros *; rewrite Hfl, Hel; [done|]. rewrite Hc2. apply Hch. }
  destruct (chain_of t2 k Hsh2) as (l & Hr & Hl & _).
  wp_step. apply alloc_ok; [done|].
  intros a t3 Hdir Hsp Hmx Hm1 Hm2 Hbc Hkc Hnd3 Hch3.
  assert (bucket t3 (hash t2 k) = Some l) as Hl3 by (unfold bucket; by rewrite Hdir).
  assert (shape_ok hash t3) as Hsh3.
  { split.
    - destruct (ok_dims _ _ Hsh2) as (n & Hn). exists n. by rewrite Hsp, Hmx, Hm1, Hm2, Hbc.
    - rewrite Hbc. intros b Hb.
      destruct (ok_bucket _ _ Hsh2 b Hb) as (lb & Hlb & Hin). exists lb.
      unfold bucket in *. rewrite Hdir. split; [done|]. intros c Hc%Hin.
      by rewrite <- Hc; apply hash_dims. }
  assert (elements t3 = elements t2) as Hel3.
  { apply elements_ext; [done|]. intros. unfold bucket. by rewrite Hdir. }
  wp_step. eapply wp_read_bucket; [done|].
  apply wp_write_bucket; [by eapply bucket_segment|].
  assert (hash t3 k = hash t2 k) as Hh3 by by apply hash_dims.
  assert (elements (put_bucket (hash t2 k) (mkCell a k d :: l) t3)
            ≡ₚ mkCell a k d :: elements t) as Hperm.
  { rewrite (elements_put t3 _ l) by (done || lia). rewrite <- Hel, <- Hel3.
    rewrite (elements_split t3 (hash t2 k) l) by (done || lia). done. }
  apply (HQ a); [|done]. split.
  - apply shape_put; [done|lia|]. intros c [->|Hc]%elem_of_cons; [done|].
    destruct (ok_bucket _ _ Hsh3 (hash t2 k)) as (l' & Hl' & Hin); [lia|].
    rewrite Hl3 in Hl'. injection Hl' as <-. auto.
  - assert (freeList t3 ++ (hl_addr <$> elements (put_bucket (hash t2 k) (mkCell a k d :: l) t3))
       ≡ₚ a :: freeList t3 ++ (hl_addr <$> elements t2)) as Hp2.
    { rewrite Hperm, Hel. cbn. by rewrite Permutation_middle. }
    split; cbn; intros *; rewrite Hp2; [done|apply Hch3].
  - cbn. rewrite Hkc, Hk2, Hct, Hperm, wrapS_add. f_equal. cbn. lia.
Qed.

Lemma remove_scan_Some k d prev l c l' :
  remove_scan compare k d prev l = Some (c, l') →
  ∃ l1 l2, l = l1 ++ c :: l2 ∧ l' = reverse prev ++ l1 ++ l2 ∧
    canon (key c) = canon k ∧ (d = 0 ∨ data c = d).
Proof.
  revert prev. induction l as [|c0 l IH]; intros prev; [done|]. cbn.
  destruct (compare (key c0) k && _) eqn:E.
  - intros [= -> <-]. exists [], l. split_and!; [done| |..].
    { unfold reverse. by rewrite !rev_append_rev, app_nil_r. }
    + apply andb_true_iff in E as [E _]. by apply compare_spec.
    + apply andb_true_iff in E as [_ E]. lia.
  - intros (l1 & l2 & -> & -> & Hk)%IH. exists (c0 :: l1), l2.
    split_and!; [done| |apply Hk..].
    by rewrite reverse_cons, <- app_assoc.
Qed.

Lemma remove_scan_None k d prev l c :
  remove_scan compare k d prev l = None → c ∈ l → canon (key c) = canon k →
  d ≠ 0 ∧ data c ≠ d.
Proof.
  revert prev. induction l as [|c0 l IH]; intros prev; [by intros _ ?%elem_of_nil|].
  cbn. destruct (compare (key c0) k && _) eqn:E; [done|].
  intros Hs [->|Hc]%elem_of_cons Hk; [|by eapply IH].
  rewrite (proj2 (compare_spec _ _) Hk) in E. cbn in E. lia.
Qed.

Lemma hremove_ok t k d Q :
  table_ok hash t →
  (∀ c t', table_ok hash t' → elements t ≡ₚ c :: elements t' →
     canon (key c) = canon k → d = 0 ∨ data c = d → Q (data c) t') →
  ((∀ c, c ∈ elements t → canon (key c) = canon k → d ≠ 0 ∧ data c ≠ d) →
     d = 0 ∧ Q 0 t) →
  wp (removeHashTable hash compare k d) Q t.
Proof.
  intros [Hsh [Hnd Hch] Hct] HS HN. destruct (chain_of t k Hsh) as (l & Hr & Hl & Hin).
  unfold removeHashTable. wp_step. wp_step. wp_step. eapply wp_read_bucket; [done|].
  destruct (remove_scan compare k d [] l) as [[c l']|] eqn:E.
  2: { destruct HN as [-> HQ].
       - intros c Hc Hk. eapply remove_scan_None; [done| |done]. by apply Hin.
       - by wp_steps. }
  apply remove_scan_Some in E as (l1 & l2 & -> & -> & Hk & Hd). cbn [reverse app].
  set (t1 := put_bucket (hash t k) (l1 ++ l2) t).
  assert (elements t ≡ₚ c :: elements t1) as Hperm.
  { unfold t1. rewrite (elements_put t (hash t k) (l1 ++ c :: l2)) by (lia || done).
    rewrite (elements_split t (hash t k) (l1 ++ c :: l2)) by (lia || done).
    rewrite <- app_assoc. cbn. rewrite <- Permutation_middle.
    by rewrite app_assoc. }
  assert (shape_ok hash t1) as Hsh1.
  { apply shape_put; [done|lia|]. intros c' Hc'.
    destruct (ok_bucket _ _ Hsh (hash t k)) as (l' & Hl' & Hin'); [lia|].
    rewrite Hl in Hl'. injection Hl' as <-. apply Hin'.
    apply elem_of_app in Hc' as [?|?]; apply elem_of_app; [by left|right; by right]. }
  wp_step. apply wp_write_bucket; [by eapply bucket_segment|].
  unfold freeHashList. wp_steps. fold t1.
  set (t2 := set_kcount _ _). assert (elements t2 = elements t1) as He by done.
  apply HS; [|by rewrite He|done..]. split.
  - split; [apply (ok_dims _ _ Hsh1)|]. intros b Hb.
    destruct (ok_bucket _ _ Hsh1 b Hb) as (lb & Hlb & Hinb). exists lb. split; [done|].
    intros c' Hc'%Hinb. by rewrite <- Hc'; apply hash_dims.
  - assert (freeList t ++ (hl_addr <$> elements t) ≡ₚ
            hl_addr c :: freeList t ++ (hl_addr <$> elements t1)) as Hp.
    { rewrite Hperm. cbn. by rewrite <- Permutation_middle. }
    split; rewrite He; unfold t2; cbn; setoid_rewrite <- Hp; [done|apply Hch].
  - rewrite He. unfold t2; cbn [kcount set_kcount]. cbn. rewrite <- Z.add_opp_r, Hct, Hperm, wrapS_add. f_equal. cbn. lia.
Qed.
End specs.

(** ** Refinement: the table as a finite map *)
Section rep.
Context `{Hhk : HashKey hash compare K}.
Implicit Types t : HashTable.

Definition entry (c : HashList) : K * Z := (canon (key c), data c).

(** The table holds exactly the entries of [m], each once. *)
Record table_rep (t : HashTable) (m : gmap K Z) : Prop := {
  rep_ok : table_ok hash t;
  rep_nodup : NoDup ((entry <$> elements t).*1);
  rep_map : list_to_map (entry <$> elements t) = m
}.

Lemma rep_elem t m c :
  table_rep t m → c ∈ elements t → m !! canon (key c) = Some (data c).
Proof.
  intros [_ Hnd <-] Hc. apply elem_of_list_to_map_1; [done|].
  change (canon (key c), data c) with (entry c). by apply list_elem_of_fmap_2.
Qed.

Lemma rep_find t m k d :
  table_rep t m → m !! k = Some d →
  ∃ c, c ∈ elements t ∧ canon (key c) = k ∧ data c = d.
Proof.
  intros [_ _ <-] Hk%elem_of_list_to_map_2.
  apply list_elem_of_fmap in Hk as (c & [= -> ->] & Hc). eauto.
Qed.

(** Adding and removing one cell, as map operations. *)
Lemma rep_cons t t' m c :
  table_rep t m → table_ok hash t' → elements t' ≡ₚ c :: elements t →
  m !! canon (key c) = None → table_rep t' (<[canon (key c) := data c]> m).
Proof.
  intros [Hok Hnd Hm] Hok' Hp Hnone.
  assert (NoDup ((entry <$> elements t').*1)) as Hnd'.
  { rewrite Hp. cbn. apply NoDup_cons. split; [|done].
    rewrite <- Hm in Hnone. by apply not_elem_of_list_to_map. }
  split; [done|done|].
  rewrite <- Hm. trans (list_to_map (entry <$> (c :: elements t)) : gmap K Z); [|done].
  apply list_to_map_proper; [done|]. by rewrite Hp.
Qed.

Lemma rep_uncons t t' m c :
  table_rep t m → table_ok hash t' → elements t ≡ₚ c :: elements t' →
  m !! canon (key c) = Some (data c) ∧ table_rep t' (delete (canon (key c)) m).
Proof.
  intros Hrep Hok' Hp. assert (Hnd := rep_nodup _ _ Hrep). assert (Hm := rep_map _ _ Hrep).
  split.
  { eapply rep_elem; [done|]. rewrite Hp. by left. }
  assert (Hnd' := Hnd). rewrite Hp in Hnd'. cbn in Hnd'. apply NoDup_cons in Hnd' as [Hnin Hnd'].
  split; [done|done|].
  rewrite <- Hm, (list_to_map_proper (entry <$> elements t) (entry <$> (c :: elements t')));
    [|done|by rewrite Hp].
  cbn. rewrite delete_insert_id; [done|]. by apply not_elem_of_list_to_map.
Qed.

Lemma insert_rep t m k d :
  table_rep t m → m !! canon k = None →
  wp (insertHashTable hash k d) (λ _ t', table_rep t' (<[canon k := d]> m)) t.
Proof.
  intros Hrep Hnone. apply insert_ok; [apply Hrep|].
  intros a t' Hok Hp. exact (rep_cons t t' m (mkCell a k d) Hrep Hok Hp Hnone).
Qed.

Lemma lookup_rep t m k :
  table_rep t m →
  wp (lookupHashTable hash compare k) (λ d t', d = default 0 (m !! canon k) ∧ t' = t) t.
Proof.
  intros Hrep. apply lookup_ok; [apply Hrep|..].
  - intros c Hc Hk. by rewrite <- Hk, (rep_elem t m c Hrep Hc).
  - intros Hno. destruct (m !! canon k) as [d|] eqn:E; [|done].
    apply (rep_find t m _ _ Hrep) in E as (c & Hc & Hk & _). by apply Hno in Hc.
Qed.

Lemma remove_rep t m k d :
  table_rep t m → d = 0 ∨ m !! canon k = Some d →
  wp (removeHashTable hash compare k d)
     (λ r t', r = default 0 (m !! canon k) ∧ table_rep t' (delete (canon k) m)) t.
Proof.
  intros Hrep Hd. apply hremove_ok; [apply Hrep|..].
  - intros c t' Hok Hp Hk _. destruct (rep_uncons t t' m c Hrep Hok Hp) as [Hm Hr].
    rewrite Hk in *. by rewrite Hm.
  - intros Hno. destruct (m !! canon k) as [d'|] eqn:E.
    + apply (rep_find t m _ _ Hrep) in E as (c & Hc & Hk & <-).
      apply Hno in Hk as [H1 H2]; [|done]. destruct Hd; congruence.
    + destruct Hd as [->|?]; [|done]. rewrite delete_id by done. done.
Qed.

(** C25: while a key has at most one entry, the table behaves as a finite map
    from key identities to data pointers: inserting a key that is absent
    returns (no bad access, no failed assertion) with that entry added and
    every other entry kept, whether or not the insertion expands the table. *)
Theorem insertHashTable_map t m k d :
  table_rep t m → m !! canon k = None →
  wp (insertHashTable hash k d) (λ _ t', table_rep t' (<[canon k := d]> m)) t.
Proof. apply insert_rep. Qed.

(** C26: [lookupHashTable] returns the data stored for the key's identity, or
    NULL when there is none, and changes nothing. *)
Theorem lookupHashTable_map t m k :
  table_rep t m →
  wp (lookupHashTable hash compare k) (λ d t', d = default 0 (m !! canon k) ∧ t' = t) t.
Proof. apply lookup_rep. Qed.

(** C27: [removeHashTable] deletes the entry of a key and returns its data.  A
    NULL [data] argument matches any entry (and an absent key); a non-NULL
    one must be the data stored, which is what its final [ASSERT] demands. *)
Theorem removeHashTable_map t m k d :
  table_rep t m → d = 0 ∨ m !! canon k = Some d →
  wp (removeHashTable hash compare k d)
     (λ r t', r = default 0 (m !! canon k) ∧ table_rep t' (delete (canon k) m)) t.
Proof. apply remove_rep. Qed.

Lemma allocHashTable_rep : table_rep allocHashTable_ ∅.
Proof.
  assert (∀ b, 0 <= b < HSEGSIZE → bucket allocHashTable_ b = Some []) as Hb.
  { intros b Hb. unfold bucket, allocHashTable_; cbn [dir].
    unfold HSEGSIZE in *. rewrite Z.quot_small, Z.rem_small, lookup_singleton_eq by lia.
    cbn [mbind option_bind]. apply elem_of_list_to_map_1.
    - rewrite <- list_fmap_compose. apply (NoDup_fmap_2 _), NoDup_seqZ.
    - apply list_elem_of_fmap. exists b. split; [done|]. apply elem_of_seqZ. lia. }
  assert (elements allocHashTable_ = []) as He.
  { unfold elements. rewrite (bind_ext_elem _ (λ _, [])).
    - cbn [bcount allocHashTable_]. by induction (seqZ 0 HSEGSIZE).
    - intros b Hin%elem_of_seqZ. rewrite Hb; [done|]. cbn in Hin. lia. }
  split; [split|..].
  - constructor.
    + exists 10. change (2 ^ (10 + 1)) with 2048. change (2 ^ 10) with 1024.
      unfold allocHashTable_, HSEGSIZE, HDIRSIZE. cbn [max mask1 mask2 split bcount]. lia.
    + intros b Hr. exists []. constructor; [apply Hb; exact Hr|].
      intros c Hc. apply elem_of_nil in Hc. destruct Hc.
  - constructor; rewrite He; [constructor|]. intros a Ha. apply elem_of_nil in Ha. destruct Ha.
  - rewrite He. reflexivity.
  - rewrite He. constructor.
  - rewrite He. reflexivity.
Qed.

Lemma find_skip (f : HashList → bool) l1 c l2 :
  (∀ c', c' ∈ l1 → f c' = false) → f c = true → find f (l1 ++ c :: l2) = Some c.
Proof.
  intros H1 H2. induction l1 as [|c1 l1 IH]; cbn; [by rewrite H2|].
  rewrite H1 by left. apply IH. intros. apply H1. by right.
Qed.

(** Looking a key up in a known chain. *)
Lemma lookup_chain t k l c Q :
  bucket t (hash t k) = Some l → find (λ hl, compare (key hl) k) l = Some c →
  Q (data c) t → wp (lookupHashTable hash compare k) Q t.
Proof.
  intros Hl Hf HQ. unfold lookupHashTable. wp_steps.
  eapply wp_read_bucket; [done|]. wp_steps. by rewrite Hf.
Qed.

Lemma compare_false k1 k2 : canon k1 ≠ canon k2 → compare k1 k2 = false.
Proof. intros Hne. destruct (compare k1 k2) eqn:E; [|done]. by apply compare_spec in E. Qed.

(** C28: overwriting an entry by inserting its key again does not survive an
    expansion: when the bucket being split holds an old entry of [k] with data
    [d1] behind a newer one with data [d2], [lookupHashTable] returns [d2]
    before [expand] and the stale [d1] after it, because [expand] reverses
    the chains it builds. *)
Theorem expand_resurrects_overwritten t k a1 a2 d1 d2 l1 l2 l3 :
  shape_ok hash t → split t + max t < HDIRSIZE * HSEGSIZE →
  bucket t (split t) = Some (l1 ++ mkCell a2 k d2 :: l2 ++ mkCell a1 k d1 :: l3) →
  (∀ c, c ∈ l1 ++ l2 ++ l3 → canon (key c) ≠ canon k) →
  wp (before ← lookupHashTable hash compare k;
      expand hash;;
      after ← lookupHashTable hash compare k;
      mret (before, after)) (λ r _, r = (d2, d1)) t.
Proof.
  intros Hok Hlt Hl Hne. set (c2 := mkCell a2 k d2) in *. set (c1 := mkCell a1 k d1) in *.
  assert (0 <= split t < bucket_of t 0 + bcount t) as Hs.
  { pose proof (bucket_of_range t 0 (ok_dims _ _ Hok)).
    destruct (ok_dims _ _ Hok) as (n & _ & _ & _ & _ & ? & ? & _). lia. }
  destruct (ok_bucket _ _ Hok (split t)) as (l & Hl' & Hin).
  { destruct (ok_dims _ _ Hok) as (n & _ & _ & _ & _ & ? & ? & _). lia. }
  rewrite Hl in Hl'. injection Hl' as <-.
  assert (hash t k = split t) as Hk.
  { apply (Hin c2). apply elem_of_app. right. by left. }
  assert (∀ c, c ∈ l1 ∨ c ∈ l2 ∨ c ∈ l3 → compare (key c) k = false) as Hf.
  { intros c Hc. apply compare_false, Hne. rewrite !elem_of_app. tauto. }
  assert (compare k k = true) as Hr by by apply compare_spec.
  wp_step. eapply (lookup_chain t k _ c2).
  { by rewrite Hk. } { apply find_skip; [|done]. intros; apply Hf; tauto. }
  wp_step. apply wp_expand; [done|lia|].
  intros old new l' _ Hl2 E. rewrite Hl in Hl2. injection Hl2 as <-.
  assert (Hsh := shape_expanded t old new _ Hok Hlt Hl E).
  rewrite expand_split_spec in E. injection E as Eo En.
  assert (∀ k, hash (expanded old new t) k = hash (expand_base t) k) as Hh.
  { intros k'. rewrite (hash_spec (expanded _ _ _) k'), (hash_spec (expand_base t) k').
    unfold expanded, expand_base, expand_dims.
    destruct (_ =? 0); cbn; by destruct (_ =? max t). }
  assert (∀ P `{∀ c, Decision (P c)} l0, P c1 → P c2 →
    l0 = reverse (filter P (l1 ++ c2 :: l2 ++ c1 :: l3)) →
    find (λ hl, compare (key hl) k) l0 = Some c1) as Hfind.
  { intros P ? l0 P1 P2 ->.
    rewrite filter_app, filter_cons_True, filter_app, filter_cons_True by done.
    rewrite app_comm_cons, app_assoc, reverse_app, reverse_cons, <- app_assoc.
    apply find_skip; [|done]. intros c.
    rewrite elem_of_reverse, list_elem_of_filter. intros [_ Hc]. apply Hf. tauto. }
  wp_step. destruct (decide (hash (expand_base t) k = max t + split t)) as [Heq|Hneq].
  - eapply (lookup_chain _ k new c1); [|by eapply (Hfind _ _ new Heq Heq)|by wp_steps].
    rewrite Hh, Heq. unfold expanded. by rewrite bucket_put, decide_True.
  - eapply (lookup_chain _ k old c1);
      [|by eapply (Hfind (λ c, hash (expand_base t) (key c) ≠ max t + split t) _ old)|by wp_steps].
    destruct (chain_of _ k Hsh) as (l0 & Hr0 & Hl0 & _).
    rewrite Hh in *. rewrite hash_spec in Hk.
    destruct (expand_dims_bucket t (khash (canon k)) (ok_dims _ _ Hok) Hlt) as [_ Hsp].
    assert (hash (expand_base t) k = bucket_of (expand_dims t) (khash (canon k))) as Hb.
    { rewrite hash_spec. unfold expand_base, expand_dims.
      destruct (_ =? 0); cbn; by destruct (_ =? max t). }
    destruct (Hsp Hk); [|congruence]. rewrite Hb in *.
    rewrite bucket_expanded; [by rewrite decide_True|apply Hok|].
    destruct (ok_dims _ _ Hok) as (n & _ & _ & _ & _ & ? & ? & _). lia.
Qed.
End rep.

(** ** Freeing a table *)
Section free.
Context `{Hhk : HashKey hash compare K}.
Implicit Types t : HashTable.

Definition coords (b : Z) : Z * Z := (b `quot` HSEGSIZE, b `rem` HSEGSIZE).

Lemma coords_segment s n :
  0 <= s → 0 <= n <= HSEGSIZE →
  coords <$> seqZ (HSEGSIZE * s) n = (λ i, (s, i)) <$> seqZ 0 n.
Proof.
  intros Hs Hn. rewrite <- (Z.add_0_r (HSEGSIZE * s)), <- fmap_add_seqZ.
  rewrite <- list_fmap_compose. apply list_fmap_ext. intros j i Hi%list_elem_of_lookup_2.
  apply elem_of_seqZ in Hi. cbn. unfold coords, HSEGSIZE in *.
  f_equal; Z.quot_rem_to_equations; lia.
Qed.

Lemma bind_seq_snoc {B} (f : Z → list B) (s : nat) :
  reverse (seqZ 0 (Z.of_nat (S s))) ≫= f =
  f (Z.of_nat s) ++ (reverse (seqZ 0 (Z.of_nat s)) ≫= f).
Proof. by rewrite seqZ_S, reverse_app, reverse_singleton, Z.add_0_l. Qed.

Lemma coords_segments (s : nat) :
  (s ← reverse (seqZ 0 (Z.of_nat s)); (λ i, (s, i)) <$> reverse (seqZ 0 HSEGSIZE))
  ≡ₚ coords <$> seqZ 0 (HSEGSIZE * Z.of_nat s).
Proof.
  induction s as [|s IH]; [done|].
  etransitivity; [rewrite bind_seq_snoc; apply Permutation_app_head, IH|].
  replace (HSEGSIZE * Z.of_nat (S s)) with (HSEGSIZE * Z.of_nat s + HSEGSIZE) by lia.
  rewrite (seqZ_app 0 (HSEGSIZE * Z.of_nat s)), fmap_app by (unfold HSEGSIZE; lia).
  etransitivity; [apply Permutation_app_comm|].
  apply Permutation_app_head. rewrite Z.add_0_l, coords_segment by (unfold HSEGSIZE; lia).
  apply fmap_Permutation, reverse_Permutation.
Qed.

Lemma freeHashTable_order_perm t :
  dims_ok t → freeHashTable_order t ≡ₚ coords <$> seqZ 0 (bcount t).
Proof.
  intros (n & Hn & Hm & _ & _ & Hs & Hb & _). unfold freeHashTable_order. rewrite Hb.
  set (last := max t + split t - 1).
  assert (0 <= last) by lia.
  assert (0 <= last `quot` HSEGSIZE ∧ 0 <= last `rem` HSEGSIZE < HSEGSIZE ∧
    last = HSEGSIZE * (last `quot` HSEGSIZE) + last `rem` HSEGSIZE) as (Hq & Hr & He).
  { unfold HSEGSIZE. Z.quot_rem_to_equations. lia. }
  set (s := last `quot` HSEGSIZE) in *. set (i := last `rem` HSEGSIZE) in *.
  pose proof (coords_segments (Z.to_nat s)) as Hseg. rewrite Z2Nat.id in Hseg by done.
  rewrite Hseg, Permutation_app_comm.
  replace (max t + split t) with (HSEGSIZE * s + (i + 1)) by lia.
  rewrite (seqZ_app 0 (HSEGSIZE * s)), fmap_app by (unfold HSEGSIZE; lia).
  apply Permutation_app_head. rewrite Z.add_0_l, coords_segment by lia.
  by rewrite reverse_Permutation.
Qed.

Lemma freeHashTable_fold t (f : HashList → Z) l :
  (∀ b, b ∈ l → is_Some (bucket t b)) →
  foldr (λ '(segment, index) (rest : outcome (list Z)),
    match dir t !! segment ≫= lookup index with
    | None => Err BadPointer
    | Some chain =>
      match rest with Ok l => Ok ((f <$> chain) ++ l) | Err e => Err e end
    end) (Ok []) (coords <$> l) =
  Ok (f <$> (l ≫= λ b, default [] (bucket t b))).
Proof.
  intros Hl. induction l as [|b l IH]; [done|]. cbn [fmap list_fmap foldr coords].
  destruct (Hl b) as [chain Hc]; [by left|]. rewrite IH by (intros; apply Hl; by right).
  rewrite bind_cons, Hc, fmap_app. unfold bucket in Hc. by rewrite Hc.
Qed.

(** [freeHashTable] visits every bucket in use and calls the data
    destructor exactly once per entry: it makes no bad access, and the
    pointers passed are the data of the table's cells, with multiplicity. *)
Theorem freeHashTable_all t :
  table_ok hash t →
  ∃ l, freeHashTable true t = Ok l ∧ l ≡ₚ data <$> elements t.
Proof.
  intros [[Hd Hb] _ _]. pose proof (freeHashTable_order_perm t Hd) as Hp.
  apply Permutation_map_inv in Hp as (l & Hl & Hlp).
  change (freeHashTable_order t = coords <$> l) in Hl.
  exists (data <$> (l ≫= λ b, default [] (bucket t b))). split.
  - unfold freeHashTable. rewrite Hl. apply (freeHashTable_fold t data).
    intros b Hin. rewrite <- Hlp in Hin. apply elem_of_seqZ in Hin.
    destruct (Hb b) as (chain & Hc & _); [lia|]. eauto.
  - unfold elements. apply fmap_Permutation. apply bind_Permutation. by symmetry.
Qed.
End free.

(** ** Tables whose comparison function reads memory

    A table keyed by pointers stays a table for another hash/compare pair, as
    long as both give the keys it holds the same identity and the same hash
    (FileLock's [Lock] objects, of which other ones come and go). *)
Section transport.
Context `{Countable K} {hash hash' : HashTable → Z → Z} {compare compare' : Z → Z → bool}.
Context (H1 : HashKey hash compare K) (H2 : HashKey hash' compare' K).

Lemma table_rep_transport t m :
  (∀ k, @khash _ _ K _ _ H1 k = @khash _ _ K _ _ H2 k) →
  (∀ c, c ∈ elements t → @canon _ _ K _ _ H1 (key c) = @canon _ _ K _ _ H2 (key c)) →
  table_rep (Hhk := H1) t m → table_rep (Hhk := H2) t m.
Proof.
  intros Hh Hc [[[Hd Hb] Hcells Hcount] Hnd Hm].
  assert (entry (Hhk := H1) <$> elements t = entry (Hhk := H2) <$> elements t) as He.
  { apply list_fmap_ext. intros i c Hi%list_elem_of_lookup_2. unfold entry. by rewrite Hc. }
  rewrite He in Hnd, Hm. split; [|done|done]. split; [|done|done]. split; [done|].
  intros b Hr. destruct (Hb b Hr) as (l & Hl & Hin). exists l. split; [done|].
  intros c Hcl. rewrite <- (Hin c Hcl).
  rewrite (@hash_spec _ _ _ _ _ H1), (@hash_spec _ _ _ _ _ H2), Hh, Hc; [done|].
  apply elem_of_elements. eauto.
Qed.
End transport.

(** ** The interface of word-keyed tables

    What the clients of [allocHashTable] (thread labels, file descriptors, ...)
    rely on; their theorems are proved against this class. *)
Class WordTable (T : Type) := {
  wt_alloc : T;
  wt_lookup : Z → prog T Z;
  wt_insert : Z → Z → prog T unit;
  wt_remove : Z → Z → prog T Z;
  wt_rep : T → gmap Z Z → Prop;
  wt_alloc_rep : wt_rep wt_alloc ∅;
  wt_insert_spec t m k d : wt_rep t m → m !! k = None →
    wp (wt_insert k d) (λ _ t', wt_rep t' (<[k := d]> m)) t;
  wt_lookup_spec t m k : wt_rep t m →
    wp (wt_lookup k) (λ d t', d = default 0 (m !! k) ∧ t' = t) t;
  wt_remove_spec t m k d : wt_rep t m → d = 0 ∨ m !! k = Some d →
    wp (wt_remove k d) (λ r t', r = default 0 (m !! k) ∧ wt_rep t' (delete k m)) t
}.

#[export] Program Instance WordTable_Hash : WordTable HashTable := {|
  wt_alloc := allocHashTable;
  wt_lookup := lookupHashTable hashWord compareWord;
  wt_insert := insertHashTable hashWord;
  wt_remove := removeHashTable hashWord compareWord;
  wt_rep := table_rep (Hhk := HashKey_word)
|}.
Next Obligation. apply allocHashTable_rep. Qed.
Next Obligation. intros. by apply (insert_rep (Hhk := HashKey_word)). Qed.
Next Obligation. intros. by apply (lookup_rep (Hhk := HashKey_word)). Qed.
Next Obligation. intros. by apply (remove_rep (Hhk := HashKey_word)). Qed.

(** ** Concrete runs and witnesses *)

(** The overwriting seen through the operations alone: 0 is inserted twice, with data
    1 and 2; after 5118 more insertions the first bucket has been split. *)
Example overwrite_lost_run :
  run (insertHashTable hashWord 0 1;;
       insertHashTable hashWord 0 2;;
       before ← lookupHashTable hashWord compareWord 0;
       for_each (seqZ 1 5118) (λ i, insertHashTable hashWord (8 * i) 7);;
       after ← lookupHashTable hashWord compareWord 0;
       mret (before, after)) allocHashTable = Some (2, 1).
Proof. vm_compute. reflexivity. Qed.

Lemma insertHashTable_map_witness :
  wp (insertHashTable hashWord 40 7)
     (λ _ t', table_rep (Hhk := HashKey_word) t' (<[40 := 7]> ∅)) allocHashTable.
Proof.
  apply (insertHashTable_map (Hhk := HashKey_word)).
  - apply allocHashTable_rep.
  - reflexivity.
Defined.

Lemma lookupHashTable_map_witness :
  wp (lookupHashTable hashWord compareWord 40)
     (λ d t', d = default 0 ((∅ : gmap Z Z) !! 40) ∧ t' = allocHashTable) allocHashTable.
Proof.
  apply (lookupHashTable_map (Hhk := HashKey_word) allocHashTable ∅ 40).
  apply allocHashTable_rep.
Defined.

Lemma removeHashTable_map_witness :
  wp (removeHashTable hashWord compareWord 40 0)
     (λ r t', r = default 0 ((∅ : gmap Z Z) !! 40) ∧
        table_rep (Hhk := HashKey_word) t' (delete 40 ∅)) allocHashTable.
Proof.
  apply (removeHashTable_map (Hhk := HashKey_word) allocHashTable ∅ 40 0).
  - apply allocHashTable_rep.
  - left. reflexivity.
Defined.

(** Two entries for key 0 in bucket 0, the newer in front. *)
Definition twice : HashTable :=
  put_bucket 0 [mkCell (0%nat, 1) 0 2; mkCell (0%nat, 0) 0 1] allocHashTable.

Lemma twice_shape : shape_ok hashWord twice.
Proof.
  apply (shape_put (Hhk := HashKey_word)).
  - apply (rep_ok (Hhk := HashKey_word) _ _ allocHashTable_rep).
  - change (0 <= 0 < 1024). lia.
  - intros c [->|[->|Hc%elem_of_nil]%elem_of_cons]%elem_of_cons; [done|done|destruct Hc].
Qed.

Lemma expand_resurrects_overwritten_witness :
  wp (before ← lookupHashTable hashWord compareWord 0;
      expand hashWord;;
      after ← lookupHashTable hashWord compareWord 0;
      mret (before, after)) (λ r _, r = (2, 1)) twice.
Proof.
  apply (expand_resurrects_overwritten (Hhk := HashKey_word) twice 0 (0%nat, 0) (0%nat, 1) 1 2
           [] [] []).
  - apply twice_shape.
  - reflexivity.
  - vm_compute. reflexivity.
  - intros c Hc. apply elem_of_nil in Hc. destruct Hc.
Defined.

Lemma freeHashTable_all_witness :
  ∃ l, freeHashTable true allocHashTable = Ok l ∧ l ≡ₚ data <$> elements allocHashTable.
Proof.
  apply (freeHashTable_all (hash := hashWord)).
  apply (rep_ok (Hhk := HashKey_word) _ _ allocHashTable_rep).
Defined.
