(* ===== verification/Threads.v ===== *)
(** * Threads: run queues, wake-ups and black holes

    The thread-level core of the RTS, with one Capability: the run queue
    (rts/Schedule.h, rts/Schedule.c) as a doubly linked list of TSOs with its
    generational write barrier (rts/sm/Storage.c), waking and migrating threads,
    blocking queues and thunk update (rts/Threads.c, rts/Updates.h), blocking on
    a black hole (rts/Messages.c), and the part of asynchronous exceptions that
    moves threads between queues (rts/RaiseAsync.c).  With one Capability every
    [tso->cap != cap] test of the source is false, so that its message-sending
    branches are unreachable and [lockClosure] never spins. *)
From S2P Require Import Prelude DList.
From stdpp Require Import list gmap.
Local Open Scope Z_scope.

Inductive BlockReason : Type :=
  | NotBlocked | BlockedOnMVar | BlockedOnBlackHole | BlockedOnRead | BlockedOnWrite
  | BlockedOnDelay | BlockedOnSTM | BlockedOnCCall | BlockedOnCCall_Interruptible
  | BlockedOnMsgThrowTo | ThreadMigrating.
#[export] Instance BlockReason_eq : EqDecision BlockReason.
Proof. solve_decision. Defined.

(** The info pointers the code compares closures' headers with. *)
Inductive info : Type :=
  | stg_TSO_info | stg_BLACKHOLE_info | stg_CAF_BLACKHOLE_info
  | stg_EAGER_BLACKHOLE_info | stg_WHITEHOLE_info | stg_IND_info
  | stg_BLOCKING_QUEUE_CLEAN_info | stg_BLOCKING_QUEUE_DIRTY_info
  | stg_MSG_BLACKHOLE_info | stg_MSG_THROWTO_info | stg_MSG_NULL_info
  | other_info (n : Z).
#[export] Instance info_eq : EqDecision info.
Proof. solve_decision. Defined.

(** A word of a thread's stack: the return address of the frame pushed by a
    blocking throwTo, or anything else. *)
Inductive stackword : Type := stg_block_throwto_word | stack_word (n : Z).
#[export] Instance stackword_eq : EqDecision stackword.
Proof. solve_decision. Defined.

(** The fields of a TSO the modelled code uses; [block_info] is a union of
    pointers ([closure], [prev], [bh], [throwto]), and [tso_stack] is the stack
    from [sp] upwards. *)
Record StgTSO : Type := mkTSO {
  tso_id : Z;
  tso_link : ptr;
  why_blocked : BlockReason;
  block_info : ptr;
  tso_dirty : bool;
  tso_bq : ptr;
  blocked_exceptions : ptr;
  tso_stack : list stackword;
  tso_trec : ptr
}.

Definition with_link (x : ptr) (t : StgTSO) : StgTSO :=
  mkTSO (tso_id t) x (why_blocked t) (block_info t) (tso_dirty t) (tso_bq t)
    (blocked_exceptions t) (tso_stack t) (tso_trec t).
Definition with_why (x : BlockReason) (t : StgTSO) : StgTSO :=
  mkTSO (tso_id t) (tso_link t) x (block_info t) (tso_dirty t) (tso_bq t)
    (blocked_exceptions t) (tso_stack t) (tso_trec t).
Definition with_block (x : ptr) (t : StgTSO) : StgTSO :=
  mkTSO (tso_id t) (tso_link t) (why_blocked t) x (tso_dirty t) (tso_bq t)
    (blocked_exceptions t) (tso_stack t) (tso_trec t).
Definition with_dirty (x : bool) (t : StgTSO) : StgTSO :=
  mkTSO (tso_id t) (tso_link t) (why_blocked t) (block_info t) x (tso_bq t)
    (blocked_exceptions t) (tso_stack t) (tso_trec t).
Definition with_bq (x : ptr) (t : StgTSO) : StgTSO :=
  mkTSO (tso_id t) (tso_link t) (why_blocked t) (block_info t) (tso_dirty t) x
    (blocked_exceptions t) (tso_stack t) (tso_trec t).
Definition with_exceptions (x : ptr) (t : StgTSO) : StgTSO :=
  mkTSO (tso_id t) (tso_link t) (why_blocked t) (block_info t) (tso_dirty t) (tso_bq t)
    x (tso_stack t) (tso_trec t).
Definition with_stack (x : list stackword) (t : StgTSO) : StgTSO :=
  mkTSO (tso_id t) (tso_link t) (why_blocked t) (block_info t) (tso_dirty t) (tso_bq t)
    (blocked_exceptions t) x (tso_trec t).
Definition with_trec (x : ptr) (t : StgTSO) : StgTSO :=
  mkTSO (tso_id t) (tso_link t) (why_blocked t) (block_info t) (tso_dirty t) (tso_bq t)
    (blocked_exceptions t) (tso_stack t) x.

(** A closure with an indirectee: a thunk under evaluation, an evaluated
    thunk, an indirection, or any other heap object. *)
Record StgInd : Type := mkInd { ind_info : info; indirectee : ptr }.

Record StgBlockingQueue : Type := mkBQ {
  bq_info : info;
  bq_link : ptr;
  bq_bh : ptr;
  bq_queue : ptr;
  bq_owner : ptr
}.

Record MessageBlackHole : Type := mkMsg {
  msg_info : info;
  msg_link : ptr;
  msg_tso : ptr;
  msg_bh : ptr
}.

Record MessageThrowTo : Type := mkThrowTo {
  tt_info : info;
  tt_link : ptr;
  tt_source : ptr;
  tt_target : ptr;
  tt_exception : ptr
}.

(** The state: the heap, by type of object, the Capability's run queue and
    mutable lists, and the two queues of the non-threaded scheduler. *)
Record sched : Type := mkSched {
  tsos : gmap ptr StgTSO;
  inds : gmap ptr StgInd;
  bqs : gmap ptr StgBlockingQueue;
  msgs : gmap ptr MessageBlackHole;
  throwtos : gmap ptr MessageThrowTo;
  run_queue_hd : ptr;
  run_queue_tl : ptr;
  blocked_queue_hd : ptr;
  blocked_queue_tl : ptr;
  sleeping_queue : ptr;
  mut_lists : gmap Z (list ptr);
  heap_next : ptr   (* the next address [allocate] returns *)
}.

Definition set_tsos (x : gmap ptr StgTSO) (s : sched) : sched :=
  mkSched x (inds s) (bqs s) (msgs s) (throwtos s) (run_queue_hd s) (run_queue_tl s)
    (blocked_queue_hd s) (blocked_queue_tl s) (sleeping_queue s) (mut_lists s)
    (heap_next s).
Definition set_inds (x : gmap ptr StgInd) (s : sched) : sched :=
  mkSched (tsos s) x (bqs s) (msgs s) (throwtos s) (run_queue_hd s) (run_queue_tl s)
    (blocked_queue_hd s) (blocked_queue_tl s) (sleeping_queue s) (mut_lists s)
    (heap_next s).
Definition set_bqs (x : gmap ptr StgBlockingQueue) (s : sched) : sched :=
  mkSched (tsos s) (inds s) x (msgs s) (throwtos s) (run_queue_hd s) (run_queue_tl s)
    (blocked_queue_hd s) (blocked_queue_tl s) (sleeping_queue s) (mut_lists s)
    (heap_next s).
Definition set_msgs (x : gmap ptr MessageBlackHole) (s : sched) : sched :=
  mkSched (tsos s) (inds s) (bqs s) x (throwtos s) (run_queue_hd s) (run_queue_tl s)
    (blocked_queue_hd s) (blocked_queue_tl s) (sleeping_queue s) (mut_lists s)
    (heap_next s).
Definition set_throwtos (x : gmap ptr MessageThrowTo) (s : sched) : sched :=
  mkSched (tsos s) (inds s) (bqs s) (msgs s) x (run_queue_hd s) (run_queue_tl s)
    (blocked_queue_hd s) (blocked_queue_tl s) (sleeping_queue s) (mut_lists s)
    (heap_next s).
Definition set_hd (x : ptr) (s : sched) : sched :=
  mkSched (tsos s) (inds s) (bqs s) (msgs s) (throwtos s) x (run_queue_tl s)
    (blocked_queue_hd s) (blocked_queue_tl s) (sleeping_queue s) (mut_lists s)
    (heap_next s).
Definition set_tl (x : ptr) (s : sched) : sched :=
  mkSched (tsos s) (inds s) (bqs s) (msgs s) (throwtos s) (run_queue_hd s) x
    (blocked_queue_hd s) (blocked_queue_tl s) (sleeping_queue s) (mut_lists s)
    (heap_next s).
Definition set_blocked_hd (x : ptr) (s : sched) : sched :=
  mkSched (tsos s) (inds s) (bqs s) (msgs s) (throwtos s) (run_queue_hd s)
    (run_queue_tl s) x (blocked_queue_tl s) (sleeping_queue s) (mut_lists s)
    (heap_next s).
Definition set_blocked_tl (x : ptr) (s : sched) : sched :=
  mkSched (tsos s) (inds s) (bqs s) (msgs s) (throwtos s) (run_queue_hd s)
    (run_queue_tl s) (blocked_queue_hd s) x (sleeping_queue s) (mut_lists s)
    (heap_next s).
Definition set_sleeping (x : ptr) (s : sched) : sched :=
  mkSched (tsos s) (inds s) (bqs s) (msgs s) (throwtos s) (run_queue_hd s)
    (run_queue_tl s) (blocked_queue_hd s) (blocked_queue_tl s) x (mut_lists s)
    (heap_next s).
Definition set_mut (x : gmap Z (list ptr)) (s : sched) : sched :=
  mkSched (tsos s) (inds s) (bqs s) (msgs s) (throwtos s) (run_queue_hd s)
    (run_queue_tl s) (blocked_queue_hd s) (blocked_queue_tl s) (sleeping_queue s) x
    (heap_next s).
Definition set_next (x : ptr) (s : sched) : sched :=
  mkSched (tsos s) (inds s) (bqs s) (msgs s) (throwtos s) (run_queue_hd s)
    (run_queue_tl s) (blocked_queue_hd s) (blocked_queue_tl s) (sleeping_queue s)
    (mut_lists s) x.

(** [#define UNTAG_CLOSURE(c)]: clear the three tag bits of a 64-bit pointer. *)
Definition UNTAG_CLOSURE (p : ptr) : ptr := Z.land p (Z.lnot 7).

Section ops.
(** [Bdescr(p)->gen_no]: the generation of the block a closure lives in. *)
Context (gen_no : ptr → Z).

Definition upd_tso (p : ptr) (f : StgTSO → StgTSO) : prog sched unit :=
  t ← load tsos p;
  modify (λ s, set_tsos (<[p := f t]> (tsos s)) s).

Definition recordMutableCap (p : ptr) (gen : Z) : prog sched unit :=
  modify (λ s, set_mut (<[gen := p :: default [] (mut_lists s !! gen)]> (mut_lists s)) s).

Definition recordClosureMutated (p : ptr) : prog sched unit :=
  when (negb (gen_no p =? 0)) (recordMutableCap p (gen_no p)).

Definition setTSOLink (tso target : ptr) : prog sched unit :=
  t ← load tsos tso;
  when (negb (tso_dirty t))
    (upd_tso tso (with_dirty true);; recordClosureMutated tso);;
  upd_tso tso (with_link target).

Definition setTSOPrev (tso target : ptr) : prog sched unit :=
  t ← load tsos tso;
  when (negb (tso_dirty t))
    (upd_tso tso (with_dirty true);; recordClosureMutated tso);;
  upd_tso tso (with_block target).

Definition dirty_TSO (tso : ptr) : prog sched unit :=
  t ← load tsos tso;
  when (negb (tso_dirty t))
    (upd_tso tso (with_dirty true);; recordClosureMutated tso).

(** *** Run queue *)

Definition appendToRunQueue (tso : ptr) : prog sched unit :=
  t ← load tsos tso;
  ASSERT (tso_link t =? END);;
  hd ← gets run_queue_hd;
  (if hd =? END
   then modify (set_hd tso);; upd_tso tso (with_block END)
   else tl ← gets run_queue_tl;
        setTSOLink tl tso;;
        tl ← gets run_queue_tl;
        setTSOPrev tso tl);;
  modify (set_tl tso).

Definition pushOnRunQueue (tso : ptr) : prog sched unit :=
  hd ← gets run_queue_hd;
  setTSOLink tso hd;;
  upd_tso tso (with_block END);;
  hd ← gets run_queue_hd;
  when (negb (hd =? END)) (setTSOPrev hd tso);;
  modify (set_hd tso);;
  tl ← gets run_queue_tl;
  when (tl =? END) (modify (set_tl tso)).

Definition popRunQueue : prog sched ptr :=
  t ← gets run_queue_hd;
  ASSERT (negb (t =? END));;
  tso ← load tsos t;
  modify (set_hd (tso_link tso));;
  when (negb (tso_link tso =? END)) (upd_tso (tso_link tso) (with_block END));;
  upd_tso t (with_link END);;
  hd ← gets run_queue_hd;
  when (hd =? END) (modify (set_tl END));;
  mret t.

Definition removeFromRunQueue (tso : ptr) : prog sched unit :=
  t ← load tsos tso;
  (if block_info t =? END
   then hd ← gets run_queue_hd;
        ASSERT (hd =? tso);;
        modify (set_hd (tso_link t))
   else setTSOLink (block_info t) (tso_link t));;
  t ← load tsos tso;
  (if tso_link t =? END
   then tl ← gets run_queue_tl;
        ASSERT (tl =? tso);;
        modify (set_tl (block_info t))
   else setTSOPrev (tso_link t) (block_info t));;
  upd_tso tso (with_block END);;
  upd_tso tso (with_link END).

Definition appendToBlockedQueue (tso : ptr) : prog sched unit :=
  t ← load tsos tso;
  ASSERT (tso_link t =? END);;
  hd ← gets blocked_queue_hd;
  tl ← gets blocked_queue_tl;
  (if hd =? END
   then modify (set_blocked_hd tso)
   else setTSOLink tl tso);;
  modify (set_blocked_tl tso).

(** *** Removal from a singly linked queue

    The scan walks [_link] fields; [fuel] bounds it by the number of TSOs. *)
Fixpoint queue_scan (fuel : nat) (prev t tso : ptr) : prog sched (ptr * ptr) :=
  match fuel with
  | O => fail Diverges
  | S fuel =>
    if t =? END then fail Barf
    else if t =? tso then r ← load tsos t; mret (prev, tso_link r)
    else r ← load tsos t; queue_scan fuel t (tso_link r) tso
  end.

(** [removeThreadFromQueue(cap, &queue, tso)]: the new head, and the flag *)
Definition removeThreadFromQueue (queue tso : ptr) : prog sched (ptr * bool) :=
  s ← get;
  '(prev, link) ← queue_scan (S (size (tsos s))) END queue tso;
  if negb (prev =? END)
  then setTSOLink prev link;; upd_tso tso (with_link END);; mret (queue, false)
  else upd_tso tso (with_link END);; mret (link, true).

(** [removeThreadFromDeQueue(cap, &head, &tail, tso)] *)
Definition removeThreadFromDeQueue (head tail tso : ptr) :
    prog sched (ptr * ptr * bool) :=
  s ← get;
  '(prev, link) ← queue_scan (S (size (tsos s))) END head tso;
  '(head, flag) ←
    (if negb (prev =? END)
     then setTSOLink prev link;; mret (head, false)
     else mret (link, true));
  upd_tso tso (with_link END);;
  if tail =? tso
  then mret (head, if negb (prev =? END) then prev else END, true)
  else mret (head, tail, flag).

(** *** Waking threads *)

(** [lockClosure] on a throwTo message: with one Capability a WHITEHOLE is
    never unlocked by anybody else, so that the spin would not end. *)
Definition lockThrowTo (m : ptr) : prog sched info :=
  t ← load throwtos m;
  if decide (tt_info t = stg_WHITEHOLE_info) then fail Diverges
  else modify (λ s, set_throwtos (<[m := mkThrowTo stg_WHITEHOLE_info (tt_link t)
         (tt_source t) (tt_target t) (tt_exception t)]> (throwtos s)) s);;
       mret (tt_info t).

Definition unlockThrowTo (m : ptr) (i : info) : prog sched unit :=
  t ← load throwtos m;
  modify (λ s, set_throwtos (<[m := mkThrowTo i (tt_link t)
     (tt_source t) (tt_target t) (tt_exception t)]> (throwtos s)) s).

Definition unblock (tso : ptr) : prog sched unit :=
  upd_tso tso (with_why NotBlocked);;
  appendToRunQueue tso.

Definition tryWakeupThread (tso : ptr) : prog sched unit :=
  t ← load tsos tso;
  match why_blocked t with
  | BlockedOnMVar =>
    if tso_link t =? END
    then upd_tso tso (with_block END);; unblock tso
    else mret tt
  | BlockedOnMsgThrowTo =>
    i ← lockThrowTo (block_info t);
    unlockThrowTo (block_info t) i;;
    if decide (i ≠ stg_MSG_NULL_info) then mret tt
    else
      t ← load tsos tso;
      ASSERT (bool_decide (head (tso_stack t) = Some stg_block_throwto_word));;
      upd_tso tso (with_stack (drop 3 (tso_stack t)));;
      unblock tso
  | BlockedOnBlackHole | BlockedOnSTM | ThreadMigrating => unblock tso
  | _ => mret tt
  end.

Definition migrateThread (tso : ptr) : prog sched unit :=
  upd_tso tso (with_why ThreadMigrating);;
  tryWakeupThread tso.

(** *** Blocking queues and thunk update *)

(** The info pointer in the header of any object. *)
Definition info_of (p : ptr) : prog sched info := λ s,
  match tsos s !! p, bqs s !! p, msgs s !! p, inds s !! p with
  | Some _, _, _, _ => Ok (stg_TSO_info, s)
  | _, Some b, _, _ => Ok (bq_info b, s)
  | _, _, Some m, _ => Ok (msg_info m, s)
  | _, _, _, Some i => Ok (ind_info i, s)
  | _, _, _, _ => Err BadPointer
  end.

Definition is_blackhole (i : info) : bool :=
  bool_decide (i = stg_BLACKHOLE_info) || bool_decide (i = stg_CAF_BLACKHOLE_info) ||
  bool_decide (i = stg_EAGER_BLACKHOLE_info) || bool_decide (i = stg_WHITEHOLE_info).

Definition is_blocking_queue (i : info) : bool :=
  bool_decide (i = stg_BLOCKING_QUEUE_CLEAN_info) ||
  bool_decide (i = stg_BLOCKING_QUEUE_DIRTY_info).

(** The loop of [wakeBlockingQueue] over [bq->queue]. *)
Fixpoint wake_msgs (fuel : nat) (msg : ptr) : prog sched unit :=
  match fuel with
  | O => fail Diverges
  | S fuel =>
    if msg =? END then mret tt
    else
      m ← load msgs msg;
      (if decide (msg_info m ≠ stg_IND_info)
       then ASSERT (bool_decide (msg_info m = stg_MSG_BLACKHOLE_info));;
            tryWakeupThread (msg_tso m)
       else mret tt);;
      m ← load msgs msg;
      wake_msgs fuel (msg_link m)
  end.

(** The fields are not cleared: that is done in DEBUG builds only. *)
Definition wakeBlockingQueue (bq : ptr) : prog sched unit :=
  b ← load bqs bq;
  ASSERT (is_blocking_queue (bq_info b));;
  s ← get;
  wake_msgs (S (size (msgs s))) (bq_queue b);;
  b ← load bqs bq;
  modify (λ s, set_bqs (<[bq := mkBQ stg_IND_info (bq_link b) (bq_bh b)
     (bq_queue b) (bq_owner b)]> (bqs s)) s).

Fixpoint check_bqs (fuel : nat) (bq : ptr) : prog sched unit :=
  match fuel with
  | O => fail Diverges
  | S fuel =>
    if bq =? END then mret tt
    else
      b ← load bqs bq;
      let next := bq_link b in
      (if decide (bq_info b = stg_IND_info) then mret tt
       else
         p ← load inds (bq_bh b);
         if decide (ind_info p ≠ stg_BLACKHOLE_info ∨ indirectee p ≠ bq)
         then wakeBlockingQueue bq
         else mret tt);;
      check_bqs fuel next
  end.

Definition checkBlockingQueues (tso : ptr) : prog sched unit :=
  t ← load tsos tso;
  s ← get;
  check_bqs (S (size (bqs s))) (tso_bq t).

Definition updateWithIndirection (p1 p2 : ptr) : prog sched unit :=
  ASSERT (negb (p1 =? p2));;
  c ← load inds p1;
  modify (λ s, set_inds (<[p1 := mkInd stg_BLACKHOLE_info p2]> (inds s)) s);;
  when (negb (gen_no p1 =? 0)) (recordMutableCap p1 (gen_no p1)).

Definition updateThunk (tso thunk val : ptr) : prog sched unit :=
  c ← load inds thunk;
  if negb (is_blackhole (ind_info c)) then updateWithIndirection thunk val
  else
    let v := indirectee c in
    updateWithIndirection thunk val;;
    i ← info_of v;
    if decide (i = stg_TSO_info) then
      let owner := v in
      when (negb (owner =? tso)) (checkBlockingQueues tso)
    else if negb (is_blocking_queue i) then checkBlockingQueues tso
    else
      b ← load bqs v;
      if negb (bq_owner b =? tso) then checkBlockingQueues tso
      else wakeBlockingQueue v.

(** *** Blocking on a black hole *)

Definition allocate : prog sched ptr :=
  s ← get;
  modify (set_next (heap_next s + 8));;
  mret (heap_next s).

(** Bump the owner to the front of the run queue (#3838). *)
Definition bump_owner (owner blocked : ptr) : prog sched unit :=
  o ← load tsos owner;
  t ← load tsos blocked;
  when (bool_decide (why_blocked o = NotBlocked) && negb (tso_id o =? tso_id t))
    (removeFromRunQueue owner;; pushOnRunQueue owner).

Definition set_msg_link (m link : ptr) : prog sched unit :=
  r ← load msgs m;
  modify (λ s, set_msgs (<[m := mkMsg (msg_info r) link (msg_tso r) (msg_bh r)]> (msgs s)) s).

Definition set_bq (p : ptr) (b : StgBlockingQueue) : prog sched unit :=
  modify (λ s, set_bqs (<[p := b]> (bqs s)) s).

(** The result is 1 when the thread stays blocked, 0 when the caller may wake
    it.  An indirectee that is an [IND] makes the source re-read the field,
    which only another processor could change. *)
Definition messageBlackHole (msg : ptr) : prog sched Z :=
  m ← load msgs msg;
  let bh := UNTAG_CLOSURE (msg_bh m) in
  c ← load inds bh;
  if negb (is_blackhole (ind_info c)) then mret 0
  else
    let p := UNTAG_CLOSURE (indirectee c) in
    i ← info_of p;
    if decide (i = stg_IND_info) then fail Diverges
    else if decide (i = stg_TSO_info) then
      let owner := p in
      bq ← allocate;
      o ← load tsos owner;
      set_bq bq (mkBQ stg_BLOCKING_QUEUE_DIRTY_info END bh msg owner);;
      set_msg_link msg END;;
      b ← load bqs bq;
      set_bq bq (mkBQ (bq_info b) (tso_bq o) (bq_bh b) (bq_queue b) (bq_owner b));;
      upd_tso owner (with_bq bq);;
      dirty_TSO owner;;
      bump_owner owner (msg_tso m);;
      modify (λ s, set_inds (<[bh := mkInd (ind_info c) bq]> (inds s)) s);;
      recordClosureMutated bh;;
      mret 1
    else if is_blocking_queue i then
      b ← load bqs p;
      ASSERT (bq_bh b =? bh);;
      let owner := bq_owner b in
      ASSERT (negb (owner =? END));;
      set_msg_link msg (bq_queue b);;
      set_bq p (mkBQ (bq_info b) (bq_link b) (bq_bh b) msg (bq_owner b));;
      recordClosureMutated msg;;
      when (bool_decide (i = stg_BLOCKING_QUEUE_CLEAN_info))
        (set_bq p (mkBQ stg_BLOCKING_QUEUE_DIRTY_info (bq_link b) (bq_bh b) msg (bq_owner b));;
         recordClosureMutated p);;
      bump_owner owner (msg_tso m);;
      mret 1
    else mret 0.

(** NULL is 0 *)
Definition blackHoleOwner (bh : ptr) : prog sched ptr :=
  c ← load inds bh;
  if negb (is_blackhole (ind_info c)) then mret 0
  else
    let p := UNTAG_CLOSURE (indirectee c) in
    i ← info_of p;
    if decide (i = stg_IND_info) then fail Diverges
    else if decide (i = stg_TSO_info) then mret p
    else if is_blocking_queue i then b ← load bqs p; mret (bq_owner b)
    else mret 0.

(** *** Exceptions blocked on a thread *)

Definition doneWithMsgThrowTo (m : ptr) : prog sched unit :=
  unlockThrowTo m stg_MSG_NULL_info.

Definition set_throwto_link (m link : ptr) : prog sched unit :=
  r ← load throwtos m;
  modify (λ s, set_throwtos (<[m := mkThrowTo (tt_info r) link
     (tt_source r) (tt_target r) (tt_exception r)]> (throwtos s)) s).

Definition blockedThrowTo (target msg : ptr) : prog sched unit :=
  t ← load tsos target;
  set_throwto_link msg (blocked_exceptions t);;
  upd_tso target (with_exceptions msg);;
  dirty_TSO target.

Fixpoint awaken_exceptions (fuel : nat) (msg : ptr) : prog sched unit :=
  match fuel with
  | O => fail Diverges
  | S fuel =>
    if msg =? END then mret tt
    else
      i ← lockThrowTo msg;
      (if decide (i ≠ stg_MSG_NULL_info) then
         m ← load throwtos msg;
         let source := tt_source m in
         doneWithMsgThrowTo msg;;
         tryWakeupThread source
       else unlockThrowTo msg i);;
      m ← load throwtos msg;
      awaken_exceptions fuel (tt_link m)
  end.

Definition awakenBlockedExceptionQueue (tso : ptr) : prog sched unit :=
  t ← load tsos tso;
  s ← get;
  awaken_exceptions (S (size (throwtos s))) (blocked_exceptions t);;
  upd_tso tso (with_exceptions END).
End ops.

(** ** The run queue as a list *)

Definition tso_nx (s : sched) (p : ptr) : option ptr := tso_link <$> tsos s !! p.
Definition tso_pv (s : sched) (p : ptr) : option ptr := block_info <$> tsos s !! p.

(** The run queue holds the threads [l], in order. *)
Definition run_queue (s : sched) (l : list ptr) : Prop :=
  dlist (tso_nx s) (tso_pv s) (run_queue_hd s) (run_queue_tl s) l.

Definition put_tso (p : ptr) (t : StgTSO) (s : sched) : sched :=
  set_tsos (<[p := t]> (tsos s)) s.

Section specs.
Context (gen_no : ptr → Z).
Implicit Types (s : sched) (p : ptr) (t : StgTSO).

(** What the write barrier leaves on the mutable list. *)
Definition note (p : ptr) (t : StgTSO) (s : sched) : sched :=
  if tso_dirty t then s
  else if gen_no p =? 0 then s
  else set_mut (<[gen_no p := p :: default [] (mut_lists s !! gen_no p)]> (mut_lists s)) s.

Lemma note_tsos p t s : tsos (note p t s) = tsos s.
Proof. unfold note. by destruct (tso_dirty t), (gen_no p =? 0). Qed.
Lemma note_hd p t s : run_queue_hd (note p t s) = run_queue_hd s.
Proof. unfold note. by destruct (tso_dirty t), (gen_no p =? 0). Qed.
Lemma note_tl p t s : run_queue_tl (note p t s) = run_queue_tl s.
Proof. unfold note. by destruct (tso_dirty t), (gen_no p =? 0). Qed.

Lemma with_dirty_id t : tso_dirty t = true → with_dirty true t = t.
Proof. destruct t; cbn. by intros ->. Qed.

Lemma wp_upd_tso p t f Q s :
  tsos s !! p = Some t → Q tt (put_tso p (f t) s) → wp (upd_tso p f) Q s.
Proof. intros. unfold upd_tso. by wp_steps. Qed.

(** The three barriered writes have the same shape. *)
Lemma wp_barrier p t f Q s :
  tsos s !! p = Some t → Q tt (put_tso p (f (with_dirty true t)) (note p t s)) →
  wp (t ← load tsos p;
      when (negb (tso_dirty t))
        (upd_tso p (with_dirty true);; recordClosureMutated gen_no p);;
      upd_tso p f) Q s.
Proof.
  intros Hp HQ. unfold note, put_tso in HQ. wp_step. wp_step.
  wp_step. apply wp_when; destruct (tso_dirty t) eqn:E; cbn [negb]; intros [=].
  - wp_step. eapply wp_upd_tso; [done|].
    unfold recordClosureMutated, recordMutableCap.
    apply wp_when; destruct (gen_no p =? 0) eqn:Eg; cbn [negb]; intros [=];
      (try wp_step); (eapply wp_upd_tso; [cbn; apply lookup_insert_eq|]).
    + unfold put_tso; cbn. by rewrite insert_insert_eq.
    + unfold put_tso; cbn. by rewrite insert_insert_eq.
  - eapply wp_upd_tso; [done|]. by rewrite with_dirty_id in HQ.
Qed.

Lemma wp_setTSOLink p q t Q s :
  tsos s !! p = Some t →
  Q tt (put_tso p (with_link q (with_dirty true t)) (note p t s)) →
  wp (setTSOLink gen_no p q) Q s.
Proof. apply wp_barrier. Qed.

Lemma wp_setTSOPrev p q t Q s :
  tsos s !! p = Some t →
  Q tt (put_tso p (with_block q (with_dirty true t)) (note p t s)) →
  wp (setTSOPrev gen_no p q) Q s.
Proof. apply wp_barrier. Qed.

Lemma nx_put p t s x :
  tso_nx (put_tso p t s) x = if decide (p = x) then Some (tso_link t) else tso_nx s x.
Proof.
  unfold tso_nx, put_tso; cbn. rewrite lookup_insert. by case_decide.
Qed.
Lemma pv_put p t s x :
  tso_pv (put_tso p t s) x = if decide (p = x) then Some (block_info t) else tso_pv s x.
Proof.
  unfold tso_pv, put_tso; cbn. rewrite lookup_insert. by case_decide.
Qed.
Lemma nx_note p t s x : tso_nx (note p t s) x = tso_nx s x.
Proof. unfold tso_nx. by rewrite note_tsos. Qed.
Lemma pv_note p t s x : tso_pv (note p t s) x = tso_pv s x.
Proof. unfold tso_pv. by rewrite note_tsos. Qed.

Lemma nx_set_hd h s x : tso_nx (set_hd h s) x = tso_nx s x.
Proof. done. Qed.
Lemma pv_set_hd h s x : tso_pv (set_hd h s) x = tso_pv s x.
Proof. done. Qed.
Lemma nx_set_tl h s x : tso_nx (set_tl h s) x = tso_nx s x.
Proof. done. Qed.
Lemma pv_set_tl h s x : tso_pv (set_tl h s) x = tso_pv s x.
Proof. done. Qed.
Lemma tsos_put p t s x : tsos (put_tso p t s) !! x = if decide (p = x) then Some t else tsos s !! x.
Proof. unfold put_tso; cbn. rewrite lookup_insert. done. Qed.
Lemma hd_put p t s : run_queue_hd (put_tso p t s) = run_queue_hd s.
Proof. done. Qed.
Lemma tl_put p t s : run_queue_tl (put_tso p t s) = run_queue_tl s.
Proof. done. Qed.
Lemma tsos_set_hd h s : tsos (set_hd h s) = tsos s.
Proof. done. Qed.
Lemma tsos_set_tl h s : tsos (set_tl h s) = tsos s.
Proof. done. Qed.
Lemma hd_set_tl h s : run_queue_hd (set_tl h s) = run_queue_hd s.
Proof. done. Qed.
Lemma tl_set_hd h s : run_queue_tl (set_hd h s) = run_queue_tl s.
Proof. done. Qed.
Lemma hd_set_hd h s : run_queue_hd (set_hd h s) = h.
Proof. done. Qed.
Lemma tl_set_tl h s : run_queue_tl (set_tl h s) = h.
Proof. done. Qed.
Lemma tso_nx_lookup s x t : tsos s !! x = Some t → tso_nx s x = Some (tso_link t).
Proof. unfold tso_nx. by intros ->. Qed.
Lemma tso_pv_lookup s x t : tsos s !! x = Some t → tso_pv s x = Some (block_info t).
Proof. unfold tso_pv. by intros ->. Qed.
Lemma tso_nx_inv s x q : tso_nx s x = Some q → ∃ t, tsos s !! x = Some t ∧ tso_link t = q.
Proof. unfold tso_nx. destruct (tsos s !! x); [|done]. intros [= <-]. eauto. Qed.
Lemma tso_pv_inv s x q : tso_pv s x = Some q → ∃ t, tsos s !! x = Some t ∧ block_info t = q.
Proof. unfold tso_pv. destruct (tsos s !! x); [|done]. intros [= <-]. eauto. Qed.
End specs.

Create Rewrite HintDb sched.
#[export] Hint Rewrite note_tsos note_hd note_tl nx_put pv_put nx_note pv_note
  nx_set_hd pv_set_hd nx_set_tl pv_set_tl tsos_put hd_put tl_put tsos_set_hd tsos_set_tl
  hd_set_tl tl_set_hd hd_set_hd tl_set_tl : sched.

(** Normalise the link fields of an updated state, deciding the addresses. *)
Ltac q_simp :=
  autorewrite with sched;
  repeat ((rewrite decide_True by done) || (rewrite decide_False by (done || congruence)));
  cbn [tso_link block_info tso_dirty with_link with_block with_dirty];
  try done.

(** What an operation on the queue [X] leaves alone: every other object, every
    thread not in [X], and of the threads of [X] all but the link fields and
    the dirty bit. *)
Definition tso_core (t : StgTSO) :=
  (tso_id t, why_blocked t, tso_bq t, blocked_exceptions t, tso_stack t, tso_trec t).

Record queue_frame (X : list ptr) (s s' : sched) : Prop := {
  qf_inds : inds s' = inds s;
  qf_bqs : bqs s' = bqs s;
  qf_msgs : msgs s' = msgs s;
  qf_throwtos : throwtos s' = throwtos s;
  qf_sleeping : sleeping_queue s' = sleeping_queue s;
  qf_blocked : blocked_queue_hd s' = blocked_queue_hd s ∧ blocked_queue_tl s' = blocked_queue_tl s;
  qf_next : heap_next s' = heap_next s;
  qf_other p : p ∉ X → tsos s' !! p = tsos s !! p;
  qf_core p : tso_core <$> tsos s' !! p = tso_core <$> tsos s !! p
}.

Section frame.
Context (gen_no : ptr → Z).
Implicit Types (s : sched) (X : list ptr).

Lemma queue_frame_refl X s : queue_frame X s s.
Proof. done. Qed.

Lemma queue_frame_trans X Y s1 s2 s3 :
  (∀ p, p ∈ X → p ∈ Y) → queue_frame X s1 s2 → queue_frame Y s2 s3 → queue_frame Y s1 s3.
Proof.
  intros Hsub [?????[??]? Ho Hc] [?????[??]? Ho' Hc'].
  constructor; [congruence..|split; congruence|congruence| |].
  - intros p Hp. rewrite Ho', Ho; auto.
  - intros p. by rewrite Hc', Hc.
Qed.

Lemma queue_frame_put X s p t t' :
  p ∈ X → tsos s !! p = Some t → tso_core t' = tso_core t →
  queue_frame X s (put_tso p t' (note gen_no p t s)).
Proof.
  intros Hin Hp Hcore. unfold note.
  assert (∀ m, queue_frame X s (put_tso p t' (set_mut m s))) as Hm.
  { intros m. split; try done; cbn; intros q.
    - intros Hq. rewrite lookup_insert_ne; [done|]. by intros ->.
    - rewrite lookup_insert. case_decide as Hpq; [subst q|done].
      rewrite Hp. cbn. by rewrite Hcore. }
  destruct (tso_dirty t); [|destruct (gen_no p =? 0); [|apply Hm]].
  all: specialize (Hm (mut_lists s)); by destruct s.
Qed.

Lemma queue_frame_put' X s p t t' :
  p ∈ X → tsos s !! p = Some t → tso_core t' = tso_core t →
  queue_frame X s (put_tso p t' s).
Proof.
  intros Hin Hp Hcore. split; try done; cbn; intros q.
  - intros Hq. rewrite lookup_insert_ne; [done|]. by intros ->.
  - rewrite lookup_insert. case_decide as Hpq; [subst q|done].
    rewrite Hp. cbn. by rewrite Hcore.
Qed.

Lemma queue_frame_hd X s s' h : queue_frame X s s' → queue_frame X s (set_hd h s').
Proof. by intros []. Qed.
Lemma queue_frame_tl X s s' h : queue_frame X s s' → queue_frame X s (set_tl h s').
Proof. by intros []. Qed.
End frame.

Create HintDb sched.
#[export] Hint Resolve queue_frame_refl queue_frame_hd queue_frame_tl : sched.

Section runqueue.
Context (gen_no : ptr → Z).
Implicit Types (s : sched) (l : list ptr).

Lemma run_queue_live s l p : run_queue s l → p ∈ l → is_Some (tsos s !! p).
Proof.
  intros [Hs _] (l1 & l2 & ->)%list_elem_of_split.
  apply dlseg_app in Hs as (m & n & _ & (_ & _ & Hp & _)).
  unfold tso_pv in Hp. destruct (tsos s !! p); [eauto|done].
Qed.

Lemma append_ok s l p t :
  run_queue s l → p ∉ l → p ≠ END → tsos s !! p = Some t → tso_link t = END →
  wp (appendToRunQueue gen_no p)
     (λ _ s', run_queue s' (l ++ [p]) ∧ queue_frame (p :: l) s s') s.
Proof.
  intros [Hs Hnd] Hp Hpe Ht Hl. unfold appendToRunQueue.
  wp_step. wp_step. wp_step. wp_step; [lia|]. wp_step. wp_step. wp_step.
  assert (NoDup (l ++ [p])) as Hnd'.
  { apply NoDup_app. split_and!; [done| |apply NoDup_singleton].
    intros x Hx ->%list_elem_of_singleton. done. }
  destruct (dlseg_last _ _ _ _ _ _ _ Hs) as [(-> & Hhd & Htl)|(l' & El & Htl & Hn)].
  - rewrite Hhd. cbn [Z.eqb END]. wp_step. wp_step. eapply wp_upd_tso; [done|]. wp_step.
    split.
    + split; [|done]. cbn [dlseg app]. split_and!; [by q_simp..|].
      exists END. split; [by q_simp; rewrite Hl|]. q_simp.
    + apply queue_frame_tl, (queue_frame_trans [p] _ _ (set_hd p s)); [set_solver|by auto with sched|].
      eapply queue_frame_put'; [by left|done|done].
  - assert (run_queue_hd s ≠ END) as Hhd.
    { destruct (dlseg_head _ _ _ _ _ _ _ Hs) as [(-> & _)|(? & _ & ? & _)]; [by destruct l'|done]. }
    rewrite (proj2 (Z.eqb_neq _ _) Hhd).
    assert (run_queue_tl s ∈ l) as Htlin by (rewrite El; apply elem_of_app; right; by left).
    assert (p ≠ run_queue_tl s) as Hptl by by intros ->.
    destruct (tso_nx_inv _ _ _ Hn) as (u & Hu & Hul).
    do 3 wp_step. eapply wp_setTSOLink; [done|]. do 2 wp_step.
    eapply wp_setTSOPrev; [by q_simp|]. wp_step. q_simp. split.
    + split; [|done]. q_simp. apply dlseg_snoc. exists (run_queue_tl s).
      split_and!; [|done|by q_simp|q_simp; by rewrite Hl|done].
      eapply (dlseg_set_next (tso_nx s) (tso_pv s)); [exact Hs| |done|..].
      * rewrite El. by destruct l'.
      * intros x Hx. assert (p ≠ x) by congruence. q_simp.
        destruct (decide (run_queue_tl s = x)) as [<-|]; q_simp. symmetry. by apply tso_pv_lookup.
      * intros x Hx Hne. assert (p ≠ x) by congruence. q_simp.
      * q_simp.
    + apply queue_frame_tl.
      eapply (queue_frame_trans (p :: l) (p :: l));
        [done|apply (queue_frame_put gen_no (p :: l) s (run_queue_tl s) u); [by right|done|]|].
      2: apply queue_frame_put; [by left|by q_simp|done].
      done.
Qed.

Lemma run_queue_empty s l : run_queue s l → run_queue_hd s = END ↔ l = [].
Proof.
  intros [Hs _]. destruct (dlseg_head _ _ _ _ _ _ _ Hs) as [(-> & ? & _)|(l' & -> & ? & _)];
    split; done.
Qed.

Lemma run_queue_empty_tl s l : run_queue s l → run_queue_tl s = END ↔ l = [].
Proof.
  intros [Hs _]. destruct (dlseg_last _ _ _ _ _ _ _ Hs) as [(-> & _ & ?)|(l' & -> & ? & _)];
    split; try done. by destruct l'.
Qed.

Lemma push_ok s l p t :
  run_queue s l → p ∉ l → p ≠ END → tsos s !! p = Some t →
  wp (pushOnRunQueue gen_no p)
     (λ _ s', run_queue s' (p :: l) ∧ queue_frame (p :: l) s s') s.
Proof.
  intros Hq Hp Hpe Ht. assert (Hq' := Hq). destruct Hq' as [Hs Hnd].
  assert (NoDup (p :: l)) as Hnd' by by apply NoDup_cons.
  unfold pushOnRunQueue. do 3 wp_step. eapply wp_setTSOLink; [done|].
  wp_step. eapply wp_upd_tso; [by q_simp|]. do 2 wp_step. q_simp.
  set (t1 := with_block END (with_link (run_queue_hd s) (with_dirty true t))).
  set (s1 := put_tso p t1 (put_tso p (with_link (run_queue_hd s) (with_dirty true t)) (note gen_no p t s))).
  assert (queue_frame (p :: l) s s1) as Hf1.
  { eapply (queue_frame_trans (p :: l) (p :: l)); [done|apply queue_frame_put; [by left|done|]|].
    2: eapply queue_frame_put'; [by left|by q_simp|done].
    done. }
  destruct (dlseg_head _ _ _ _ _ _ _ Hs) as [(-> & Hhd & Htl)|(l' & El & Hhd & Hv)].
  - rewrite Hhd. wp_step. apply wp_when; [done|]. intros _. do 4 wp_step. unfold s1.
    q_simp. rewrite Htl. apply wp_when; [|done]. intros _. wp_step. split.
    + split; [|done]. cbn [dlseg]. split_and!; [by q_simp..|].
      exists END. split; [q_simp; by rewrite <- Hhd|]. q_simp.
    + by apply queue_frame_tl, queue_frame_hd.
  - assert (p ≠ run_queue_hd s) as Hph by (intros ->; apply Hp; rewrite El; by left).
    destruct (tso_pv_inv _ _ _ Hv) as (u & Hu & Hub).
    wp_step. apply wp_when; [|intros Hc; lia]. intros _.
    eapply wp_setTSOPrev; [unfold s1; by q_simp|]. do 4 wp_step. q_simp.
    assert (run_queue_tl s ≠ END) as Htl.
    { intros Htl. apply (run_queue_empty_tl s l Hq) in Htl. by rewrite Htl in El. }
    unfold s1; q_simp. apply wp_when; [intros Hc; lia|]. intros _. split.
    + split; [|done]. cbn [dlseg]. split_and!; [by q_simp|done|by q_simp|].
      exists (run_queue_hd s). split; [by q_simp|]. q_simp.
      eapply (dlseg_set_prev (tso_nx s) (tso_pv s)); [exact Hs|done|done|..].
      * intros x Hx. assert (p ≠ x) by congruence. q_simp.
        destruct (decide (run_queue_hd s = x)) as [<-|]; q_simp. symmetry. by apply tso_nx_lookup.
      * intros x Hx Hne. assert (p ≠ x) by congruence. q_simp.
      * q_simp.
    + apply queue_frame_hd.
      eapply (queue_frame_trans (p :: l) (p :: l)); [done|exact Hf1|].
      apply queue_frame_put; [right; rewrite El; by left| |done]. unfold s1; by q_simp.
Qed.

Lemma pop_ok s l p :
  run_queue s (p :: l) →
  wp popRunQueue
     (λ r s', r = p ∧ run_queue s' l ∧ queue_frame (p :: l) s s' ∧
        tso_link <$> tsos s' !! p = Some END) s.
Proof.
  intros [(Hhd & Hpe & Hv & n & Hn & Hs) [Hp Hnd]%NoDup_cons]. unfold popRunQueue.
  destruct (tso_nx_inv _ _ _ Hn) as (t & Ht & Htn).
  do 2 wp_step. rewrite Hhd. wp_step. wp_step; [lia|]. do 2 wp_step. wp_step. wp_step.
  rewrite Htn.
  destruct (dlseg_head _ _ _ _ _ _ _ Hs) as [(-> & Hne & Htl)|(l' & El & Hne & Hv')].
  - rewrite Hne. wp_step. apply wp_when; [done|]. intros _. wp_step.
    eapply wp_upd_tso; [done|]. do 3 wp_step. q_simp. apply wp_when; [|done]. intros _.
    wp_step. wp_step. split_and!; [done|..].
    + split; [|constructor]. cbn [dlseg]. by q_simp.
    + apply queue_frame_tl, (queue_frame_trans [p] _ _ (set_hd END s)); [set_solver|by auto with sched|].
      eapply queue_frame_put'; [by left|done|done].
    + by q_simp.
  - assert (p ≠ n) as Hpn by (intros ->; apply Hp; rewrite El; by left).
    destruct (tso_pv_inv _ _ _ Hv') as (u & Hu & Hub).
    wp_step. apply wp_when; [|intros Hc; lia]. intros _. eapply wp_upd_tso; [done|].
    wp_step. eapply wp_upd_tso; [by q_simp|]. do 3 wp_step. q_simp.
    apply wp_when; [intros Hc; lia|]. intros _. wp_step. split_and!; [done|..].
    + split; [|done]. q_simp.
      eapply (dlseg_set_prev (tso_nx s) (tso_pv s)); [exact Hs|done|done|..].
      * intros x Hx. assert (p ≠ x) by congruence. q_simp.
        destruct (decide (n = x)) as [<-|]; q_simp. symmetry. by apply tso_nx_lookup.
      * intros x Hx Hne'. assert (p ≠ x) by congruence. q_simp.
      * q_simp.
    + eapply (queue_frame_trans (p :: l) (p :: l) _ (put_tso n (with_block END u) (set_hd n s)));
        [done|..].
      * eapply (queue_frame_trans [] _ _ (set_hd n s)); [set_solver|by auto with sched|].
        eapply queue_frame_put'; [right; rewrite El; by left|done|done].
      * eapply queue_frame_put'; [by left|by q_simp|done].
    + by q_simp.
Qed.

Lemma dlseg_tsos s s' prev hd l last next :
  (∀ x, x ∈ l → tsos s' !! x = tsos s !! x) →
  dlseg (tso_nx s) (tso_pv s) prev hd l last next →
  dlseg (tso_nx s') (tso_pv s') prev hd l last next.
Proof.
  intros Hx. apply dlseg_ext. intros x Hin. unfold tso_nx, tso_pv. by rewrite Hx.
Qed.

(** The first half of an unlink: the predecessor, or the queue head, skips
    over [p]. *)
Lemma unlink_next s l1 m p n :
  dlseg (tso_nx s) (tso_pv s) END (run_queue_hd s) l1 m p → NoDup l1 →
  wp (if m =? END
      then hd ← gets run_queue_hd; ASSERT (hd =? p);; modify (set_hd n)
      else setTSOLink gen_no m n)
     (λ _ s', dlseg (tso_nx s') (tso_pv s') END (run_queue_hd s') l1 m n ∧
        run_queue_tl s' = run_queue_tl s ∧
        (∀ x, x ∉ l1 → tsos s' !! x = tsos s !! x) ∧ queue_frame l1 s s') s.
Proof.
  intros Hs Hnd. destruct (dlseg_last _ _ _ _ _ _ _ Hs) as [(-> & Hhd & ->)|(l' & El & Hm & Hn)].
  - cbn [Z.eqb END]. wp_step. wp_step. wp_step. wp_step; [lia|]. wp_step.
    split_and!; [done..|]. by auto with sched.
  - rewrite (proj2 (Z.eqb_neq _ _) Hm).
    destruct (tso_nx_inv _ _ _ Hn) as (u & Hu & Hul).
    assert (m ∈ l1) as Hin by (rewrite El; apply elem_of_app; right; by left).
    eapply wp_setTSOLink; [done|]. q_simp. split_and!; [|done|..].
    + eapply (dlseg_set_next (tso_nx s) (tso_pv s)); [exact Hs| |done|..].
      * rewrite El. by destruct l'.
      * intros x Hx. q_simp. destruct (decide (m = x)) as [<-|]; q_simp.
        symmetry. by apply tso_pv_lookup.
      * intros x Hx Hne. q_simp.
      * q_simp.
    + intros x Hx. assert (m ≠ x) by congruence. q_simp.
    + by apply queue_frame_put.
Qed.

(** ... and the second: the successor, or the queue tail. *)
Lemma unlink_prev s l2 m p n :
  dlseg (tso_nx s) (tso_pv s) p n l2 (run_queue_tl s) END → NoDup l2 →
  wp (if n =? END
      then tl ← gets run_queue_tl; ASSERT (tl =? p);; modify (set_tl m)
      else setTSOPrev gen_no n m)
     (λ _ s', dlseg (tso_nx s') (tso_pv s') m n l2 (run_queue_tl s') END ∧
        run_queue_hd s' = run_queue_hd s ∧
        (∀ x, x ∉ l2 → tsos s' !! x = tsos s !! x) ∧ queue_frame l2 s s') s.
Proof.
  intros Hs Hnd. destruct (dlseg_head _ _ _ _ _ _ _ Hs) as [(-> & -> & Htl)|(l' & El & Hn & Hv)].
  - cbn [Z.eqb END]. wp_step. wp_step. wp_step. wp_step; [lia|]. wp_step.
    split_and!; [done..|]. by auto with sched.
  - rewrite (proj2 (Z.eqb_neq _ _) Hn).
    destruct (tso_pv_inv _ _ _ Hv) as (u & Hu & Hul).
    assert (n ∈ l2) as Hin by (rewrite El; by left).
    eapply wp_setTSOPrev; [done|]. q_simp. split_and!; [|done|..].
    + eapply (dlseg_set_prev (tso_nx s) (tso_pv s)); [exact Hs|done|done|..].
      * intros x Hx. q_simp. destruct (decide (n = x)) as [<-|]; q_simp.
        symmetry. by apply tso_nx_lookup.
      * intros x Hx Hne. q_simp.
      * q_simp.
    + intros x Hx. assert (n ≠ x) by congruence. q_simp.
    + by apply queue_frame_put.
Qed.

Lemma remove_ok s l1 p l2 :
  run_queue s (l1 ++ p :: l2) →
  wp (removeFromRunQueue gen_no p)
     (λ _ s', run_queue s' (l1 ++ l2) ∧ queue_frame (l1 ++ p :: l2) s s' ∧
        tso_nx s' p = Some END ∧ tso_pv s' p = Some END) s.
Proof.
  intros [Hs Hnd]. apply dlseg_app in Hs as (m & ? & H1 & (-> & Hpe & Hv & n & Hn & H2)).
  apply NoDup_app in Hnd as (Hnd1 & Hd & [Hp2 Hnd2]%NoDup_cons).
  destruct (tso_nx_inv _ _ _ Hn) as (t & Ht & Htn).
  destruct (tso_pv_inv _ _ _ Hv) as (t' & Ht' & Htv). rewrite Ht in Ht'. injection Ht' as <-.
  assert (p ∉ l1) as Hp1 by (intros ?; eapply Hd; [done|]; by left).
  unfold removeFromRunQueue. do 3 wp_step. rewrite Htv, Htn.
  eapply wp_mono; [by apply unlink_next|]. intros [] s1 (H1' & Htl1 & Ho1 & Hf1).
  assert (tsos s1 !! p = Some t) as Ht1 by by rewrite Ho1.
  do 3 wp_step. rewrite Htv, Htn.
  eapply wp_mono; [apply (unlink_prev s1 l2)|].
  { rewrite Htl1. eapply dlseg_tsos; [|done]. intros x Hx. apply Ho1. intros Hx1.
    eapply Hd; [done|]. by right. }
  { done. }
  intros [] s2 (H2' & Hhd2 & Ho2 & Hf2).
  assert (tsos s2 !! p = Some t) as Ht2 by by rewrite Ho2.
  wp_step. eapply wp_upd_tso; [done|]. eapply wp_upd_tso; [by q_simp|].
  split_and!.
  - split; [q_simp; apply dlseg_app; exists m, n; split|].
    + eapply (dlseg_tsos s1).
      { intros x Hx. assert (p ≠ x) by congruence. q_simp. apply Ho2. intros Hx2.
        eapply Hd; [done|]. by right. }
      by rewrite Hhd2.
    + eapply (dlseg_tsos s2); [|done]. intros x Hx. assert (p ≠ x) by congruence. q_simp.
    + apply NoDup_app. split_and!; [done| |done]. intros x Hx Hx2.
      eapply Hd; [done|]. by right.
  - eapply (queue_frame_trans l1); [set_solver|done|].
    eapply (queue_frame_trans l2); [set_solver|done|].
    eapply (queue_frame_trans [p] _ _ (put_tso p (with_block END t) s2)); [set_solver|..].
    { eapply queue_frame_put'; [by left|done|done]. }
    eapply queue_frame_put'; [set_solver|by q_simp|done].
  - q_simp.
  - q_simp.
Qed.
End runqueue.

(** ** Waking threads *)

(** The threads [W] have been woken: they are [NotBlocked], the rest of their
    state but for the queue links is as before, and so is everything else but
    the links of the threads of [X]. *)
Definition wake_core (W : list ptr) (p : ptr) (t : StgTSO) : StgTSO :=
  if decide (p ∈ W) then with_why NotBlocked t else t.

Record wake_frame (W X : list ptr) (s s' : sched) : Prop := {
  wf_inds : inds s' = inds s;
  wf_bqs : bqs s' = bqs s;
  wf_msgs : msgs s' = msgs s;
  wf_throwtos : throwtos s' = throwtos s;
  wf_next : heap_next s' = heap_next s;
  wf_other p : p ∉ X → p ∉ W → tsos s' !! p = tsos s !! p;
  wf_core p : tso_core <$> tsos s' !! p = (λ t, tso_core (wake_core W p t)) <$> tsos s !! p
}.

(** A thread [tryWakeupThread] wakes unconditionally. *)
Definition wakeable (s : sched) (p : ptr) : Prop :=
  p ≠ END ∧ ∃ t, tsos s !! p = Some t ∧ tso_link t = END ∧
    (why_blocked t = BlockedOnBlackHole ∨ why_blocked t = BlockedOnSTM ∨
     why_blocked t = ThreadMigrating).

Section wake.
Context (gen_no : ptr → Z).
Implicit Types (s : sched) (l W : list ptr).

Lemma wake_frame_nil X s : wake_frame [] X s s.
Proof.
  by constructor.
Qed.

Lemma queue_wake_frame p X s s' t :
  tsos s !! p = Some t →
  queue_frame (p :: X) (put_tso p (with_why NotBlocked t) s) s' →
  wake_frame [p] X s s'.
Proof.
  intros Ht [?????[??]? Ho Hc]. split; try done.
  - intros q Hq1 Hq2. rewrite Ho by set_solver. q_simp.
    rewrite decide_False by set_solver. done.
  - intros q. rewrite Hc. unfold wake_core. q_simp.
    destruct (decide (p = q)) as [<-|Hne].
    + rewrite Ht. cbn. by rewrite decide_True by (by left).
    + destruct (tsos s !! q); [|done]. cbn.
      by rewrite decide_False by set_solver.
Qed.

Lemma wake_frame_app W1 W2 X s1 s2 s3 :
  wake_frame W1 X s1 s2 → wake_frame W2 (X ++ W1) s2 s3 → wake_frame (W1 ++ W2) X s1 s3.
Proof.
  intros [????? Ho Hc] [????? Ho' Hc']. constructor; [congruence..| |].
  - intros p H1 H2. rewrite Ho', Ho; [done|..]; set_solver.
  - intros p. rewrite Hc'. specialize (Hc p).
    destruct (tsos s2 !! p) as [t2|], (tsos s1 !! p) as [t1|]; cbn in *; try done.
    f_equal. apply (inj Some) in Hc. revert Hc. unfold wake_core.
    destruct (decide (p ∈ W1)) as [E1|E1], (decide (p ∈ W2)) as [E2|E2];
      [rewrite decide_True by (apply elem_of_app; tauto)..
      |rewrite decide_False by (rewrite elem_of_app; tauto)];
      destruct t1, t2; unfold tso_core; cbn; congruence.
Qed.

Lemma unblock_ok s l p t :
  run_queue s l → p ∉ l → p ≠ END → tsos s !! p = Some t → tso_link t = END →
  wp (unblock gen_no p) (λ _ s', run_queue s' (l ++ [p]) ∧ wake_frame [p] l s s') s.
Proof.
  intros [Hs Hnd] Hp Hpe Ht Hl. unfold unblock. wp_step. eapply wp_upd_tso; [done|].
  eapply wp_mono; [eapply (append_ok gen_no _ l p (with_why NotBlocked t)); try done|].
  - split; [|done]. eapply dlseg_tsos; [|exact Hs]. intros x Hx.
    assert (p ≠ x) by congruence. q_simp.
  - q_simp.
  - intros [] s' [Hq Hf]. split; [done|]. by eapply queue_wake_frame.
Qed.

Lemma wakeup_ok s l p :
  run_queue s l → p ∉ l → wakeable s p →
  wp (tryWakeupThread gen_no p) (λ _ s', run_queue s' (l ++ [p]) ∧ wake_frame [p] l s s') s.
Proof.
  intros Hq Hp (Hpe & t & Ht & Hl & Hw). unfold tryWakeupThread. do 2 wp_step.
  destruct Hw as [->|[->| ->]]; by eapply unblock_ok.
Qed.

(** The threads [wake_msgs] wakes: those of the messages not yet revoked. *)
Definition msg_threads (s : sched) (ms : list ptr) : list ptr :=
  omap (λ m, r ← msgs s !! m;
    if decide (msg_info r = stg_IND_info) then None else Some (msg_tso r)) ms.

Lemma wake_msgs_ok fuel s l m ms :
  slist (λ p, msg_link <$> msgs s !! p) m ms END → (length ms < fuel)%nat →
  (∀ x r, x ∈ ms → msgs s !! x = Some r →
     msg_info r = stg_IND_info ∨ msg_info r = stg_MSG_BLACKHOLE_info) →
  run_queue s l → NoDup (l ++ msg_threads s ms) →
  (∀ p, p ∈ msg_threads s ms → wakeable s p) →
  wp (wake_msgs gen_no fuel m)
     (λ _ s', run_queue s' (l ++ msg_threads s ms) ∧ wake_frame (msg_threads s ms) l s s') s.
Proof.
  revert s l m ms. induction fuel as [|fuel IH]; intros s l m ms Hm Hlen Hinfo Hq Hnd Hw; [lia|].
  cbn [wake_msgs]. destruct ms as [|x ms].
  { cbn in Hm. destruct Hm. rewrite Z.eqb_refl. wp_step. unfold msg_threads; cbn. rewrite app_nil_r.
    split; [done|apply wake_frame_nil]. }
  destruct Hm as (-> & Hx & n & Hn & Hm). rewrite (proj2 (Z.eqb_neq _ _) Hx).
  destruct (msgs s !! x) as [r|] eqn:Hr; [|done]. cbn in Hn. injection Hn as Hn.
  cbn in Hlen. do 2 wp_step.
  assert (Hth : msg_threads s (x :: ms) =
    (if decide (msg_info r = stg_IND_info) then [] else [msg_tso r]) ++ msg_threads s ms).
  { unfold msg_threads. cbn. rewrite Hr. cbn. by case_decide. }
  rewrite Hth in *. wp_step.
  destruct (decide (msg_info r = stg_IND_info)) as [E|E].
  - rewrite decide_False by tauto. do 3 wp_step. rewrite Hn.
    apply IH; try done; [lia|]. intros; eapply Hinfo; [by right|done].
  - rewrite decide_True by done.
    destruct (Hinfo x r) as [?|Ei]; [by left|done|done|].
    wp_step. wp_step; [by apply bool_decide_eq_true|].
    assert (Hw1 : wakeable s (msg_tso r)) by (apply Hw; by left).
    assert (msg_tso r ∉ l) as Hnl.
    { apply NoDup_app in Hnd as (_ & Hd & _). intros Hin. apply (Hd _ Hin). by left. }
    eapply wp_mono; [by apply wakeup_ok|]. intros [] s1 [Hq1 Hf1].
    assert (msgs s1 = msgs s) as Em by apply Hf1.
    do 2 wp_step; [rewrite Em; done|]. rewrite Hn.
    assert (msg_threads s1 ms = msg_threads s ms) as Et by (unfold msg_threads; by rewrite Em).
    eapply wp_mono; [apply (IH s1 (l ++ [msg_tso r]) n ms)|].
    + by rewrite Em.
    + lia.
    + rewrite Em. intros; eapply Hinfo; [by right|done].
    + done.
    + by rewrite Et, <- app_assoc.
    + rewrite Et. intros p Hp. destruct (Hw p) as (Hpe & t & Ht & Hrest).
      { by apply elem_of_app; right. }
      split; [done|]. exists t. split; [|done].
      apply NoDup_app in Hnd as (_ & Hd & [Hr1 _]%NoDup_cons).
      rewrite (wf_other _ _ _ _ Hf1); [done|..].
      * intros Hl. apply (Hd p Hl). apply elem_of_app. by right.
      * intros ->%list_elem_of_singleton. done.
    + intros [] s2 [Hq2 Hf2]. rewrite Et in *. rewrite <- app_assoc in Hq2. split; [done|].
      by eapply wake_frame_app.
Qed.

(** A blocking queue with the messages [ms], whose unrevoked threads can be
    woken. *)
Record bq_wakeable (s : sched) (l : list ptr) (bq : ptr) (b : StgBlockingQueue)
    (ms : list ptr) : Prop := {
  bw_bq : bqs s !! bq = Some b;
  bw_info : is_blocking_queue (bq_info b) = true;
  bw_chain : slist (λ p, msg_link <$> msgs s !! p) (bq_queue b) ms END;
  bw_msgs x r : x ∈ ms → msgs s !! x = Some r →
    msg_info r = stg_IND_info ∨ msg_info r = stg_MSG_BLACKHOLE_info;
  bw_nodup : NoDup (l ++ msg_threads s ms);
  bw_threads p : p ∈ msg_threads s ms → wakeable s p
}.

Definition retire_bq (bq : ptr) (b : StgBlockingQueue) (s : sched) : sched :=
  set_bqs (<[bq := mkBQ stg_IND_info (bq_link b) (bq_bh b) (bq_queue b) (bq_owner b)]> (bqs s)) s.

Lemma wakeBQ_ok s l bq b ms :
  run_queue s l → bq_wakeable s l bq b ms →
  wp (wakeBlockingQueue gen_no bq)
     (λ _ s', run_queue s' (l ++ msg_threads s ms) ∧
        wake_frame (msg_threads s ms) l (retire_bq bq b s) s') s.
Proof.
  intros Hq [Hb Hi Hc Hm Hnd Hw]. unfold wakeBlockingQueue.
  do 4 wp_step. wp_step. wp_step. wp_step.
  eapply wp_mono; [eapply wake_msgs_ok; try done|].
  { apply slist_length in Hc. lia. }
  intros [] s1 [Hq1 Hf1]. do 2 wp_step; [by rewrite (wf_bqs _ _ _ _ Hf1)|]. wp_step.
  split; [done|]. destruct Hf1 as [? Hbq ????]. constructor; try done.
  cbn. by rewrite Hbq.
Qed.
End wake.

