(* ===== verification/BlackHole.v ===== *)
(** * Blocking on a black hole

    Theorems on [messageBlackHole] (rts/Messages.c) and [updateThunk]
    (rts/Threads.c), whose definitions are in Threads.v: a thread that blocks
    on a thunk under evaluation is woken by the update of that thunk. *)
From S2P Require Import Prelude DList Threads.
From stdpp Require Import list gmap.
Local Open Scope Z_scope.

Section blackhole.
Context (gen_no : ptr → Z).
Implicit Types (s : sched) (l : list ptr).

Lemma wp_dirty_TSO p t Q s :
  tsos s !! p = Some t →
  Q tt (put_tso p (with_dirty true t) (note gen_no p t s)) →
  wp (dirty_TSO gen_no p) Q s.
Proof.
  intros Hp HQ. unfold dirty_TSO. do 2 wp_step. unfold note in HQ.
  apply wp_when; destruct (tso_dirty t) eqn:E; cbn [negb]; intros [=].
  - wp_step. eapply wp_upd_tso; [done|]. unfold recordClosureMutated, recordMutableCap.
    apply wp_when; destruct (gen_no p =? 0) eqn:Eg; cbn [negb]; intros [=]; [by wp_step|done].
  - rewrite with_dirty_id in HQ by done.
    assert (put_tso p t s = s) as E'; [|by rewrite E' in HQ].
    unfold put_tso. rewrite insert_id by done. by destruct s.
Qed.

Lemma wp_recordClosureMutated p Q s :
  (∀ m, Q tt (set_mut m s)) → wp (recordClosureMutated gen_no p) Q s.
Proof.
  intros HQ. unfold recordClosureMutated, recordMutableCap.
  apply wp_when; intros _; [by wp_step|]. specialize (HQ (mut_lists s)). by destruct s.
Qed.

Lemma run_queue_links s s' l :
  (∀ x, x ∈ l → tso_nx s' x = tso_nx s x ∧ tso_pv s' x = tso_pv s x) →
  run_queue_hd s' = run_queue_hd s → run_queue_tl s' = run_queue_tl s →
  run_queue s l → run_queue s' l.
Proof.
  intros Hx Hh Ht [Hs Hnd]. split; [|done]. rewrite Hh, Ht. by eapply dlseg_ext.
Qed.

(** The owner moves to the front. *)
Lemma bump_ok s l1 o l2 ot t tt' :
  run_queue s (l1 ++ o :: l2) → tsos s !! o = Some ot → why_blocked ot = NotBlocked →
  tsos s !! t = Some tt' → tso_id ot ≠ tso_id tt' →
  wp (bump_owner gen_no o t)
     (λ _ s', run_queue s' (o :: l1 ++ l2) ∧ queue_frame (l1 ++ o :: l2) s s') s.
Proof.
  intros Hq Ho Hw Ht Hid. unfold bump_owner. do 4 wp_step.
  rewrite Hw. apply wp_when; [intros _|].
  2: { rewrite bool_decide_true by done. cbn. lia. }
  wp_step. eapply wp_mono; [by apply remove_ok|]. intros [] s1 (Hq1 & Hf1 & Hn & _).
  destruct (tso_nx_inv _ _ _ Hn) as (ot1 & Ho1 & _).
  assert ((o ∉ l1 ++ l2) ∧ (o ≠ END)) as [Hnin Hoe].
  { destruct Hq as [Hs Hnd]. split.
    - rewrite <- Permutation_middle in Hnd. by apply NoDup_cons in Hnd as [? _].
    - eapply dlseg_not_END; [done|]. set_solver. }
  eapply wp_mono; [by eapply push_ok|]. intros [] s2 [Hq2 Hf2]. split; [done|].
  eapply (queue_frame_trans (l1 ++ o :: l2)); [done|done|].
  destruct Hf2 as [??????? Hoth Hc]. constructor; try done.
  intros p Hp. apply Hoth. set_solver.
Qed.

(** What the first thread to block on a black hole leaves behind: a blocking
    queue holding its message, hung on the owner and on the black hole. *)
Definition first_blocked (bh : ptr) (c : StgInd) (m : ptr) (r : MessageBlackHole)
    (o : ptr) (ot : StgTSO) (s : sched) : sched :=
  set_inds (<[bh := mkInd (ind_info c) (heap_next s)]> (inds s))
  (set_msgs (<[m := mkMsg (msg_info r) END (msg_tso r) (msg_bh r)]> (msgs s))
  (set_bqs (<[heap_next s := mkBQ stg_BLOCKING_QUEUE_DIRTY_info (tso_bq ot) bh m o]> (bqs s))
  (put_tso o (with_bq (heap_next s) ot) s))).

Record same_but_queue (X : list ptr) (s s' : sched) : Prop := {
  sb_inds : inds s' = inds s;
  sb_bqs : bqs s' = bqs s;
  sb_msgs : msgs s' = msgs s;
  sb_throwtos : throwtos s' = throwtos s;
  sb_other p : p ∉ X → tsos s' !! p = tsos s !! p;
  sb_core p : tso_core <$> tsos s' !! p = tso_core <$> tsos s !! p
}.

Lemma info_of_tso s p t Q : tsos s !! p = Some t → Q stg_TSO_info s → wp (info_of p) Q s.
Proof. intros Hp HQ. unfold wp, info_of. by rewrite Hp. Qed.

Lemma info_of_bq s p b Q :
  tsos s !! p = None → bqs s !! p = Some b → Q (bq_info b) s → wp (info_of p) Q s.
Proof. intros Hp Hb HQ. unfold wp, info_of. by rewrite Hp, Hb. Qed.

Lemma note_mut p t s : ∃ m, note gen_no p t s = set_mut m s.
Proof.
  unfold note. assert (∃ m, s = set_mut m s) by (exists (mut_lists s); by destruct s).
  destruct (tso_dirty t); [done|]. destruct (gen_no p =? 0); [done|]. eauto.
Qed.

Lemma messageBlackHole_first s l1 l2 bh c m r o ot bt :
  run_queue s (l1 ++ o :: l2) →
  msgs s !! m = Some r → UNTAG_CLOSURE (msg_bh r) = bh →
  inds s !! bh = Some c → is_blackhole (ind_info c) = true →
  UNTAG_CLOSURE (indirectee c) = o → tsos s !! o = Some ot → why_blocked ot = NotBlocked →
  tsos s !! msg_tso r = Some bt → tso_id ot ≠ tso_id bt → msg_tso r ≠ o →
  wp (messageBlackHole gen_no m)
     (λ res s', res = 1 ∧ run_queue s' (o :: l1 ++ l2) ∧
        same_but_queue (l1 ++ o :: l2) (first_blocked bh c m r o ot s) s') s.
Proof.
  intros Hq Hm Hbh Hc Hb Hi Ho How Hbt Hid Hne.
  unfold messageBlackHole. do 4 wp_step; [by rewrite Hbh|]. rewrite Hb. cbn [negb]. rewrite Hi.
  wp_step. eapply info_of_tso; [done|].
  rewrite decide_False by done. rewrite decide_True by done.
  unfold allocate, set_bq, set_msg_link. do 6 wp_step. do 2 wp_step.
  do 2 wp_step. do 2 wp_step. wp_step. wp_step. do 2 wp_step; [cbn; by apply lookup_insert_eq|].
  do 2 wp_step. wp_step. eapply wp_upd_tso; [done|].
  wp_step. eapply wp_dirty_TSO; [by q_simp|]. cbn [bq_info bq_bh bq_queue bq_owner].
  match goal with |- context [note gen_no ?p ?t ?s0] =>
    destruct (note_mut p t s0) as [mu ->] end.
  cbn [bqs msgs inds tsos set_bqs set_msgs set_next put_tso set_tsos set_mut].
  rewrite !insert_insert_eq. rewrite Hbh. wp_step. eapply wp_mono.
  { apply (bump_ok _ l1 o l2 (with_dirty true (with_bq (heap_next s) ot)) (msg_tso r) bt).
    - apply (run_queue_links s); [|done|done|exact Hq]. intros x Hx. unfold tso_nx, tso_pv; cbn.
      rewrite !lookup_insert. case_decide; [subst x; by rewrite Ho|done].
    - cbn. by rewrite lookup_insert_eq.
    - done.
    - cbn. rewrite !lookup_insert_ne by congruence; done.
    - done. }
  intros [] s2 [Hq2 Hf2]. do 3 wp_step. apply wp_recordClosureMutated. intros mu2.
  wp_step. split_and!; [done| |].
  - by apply (run_queue_links s2).
  - destruct Hf2 as [Hfi ?? ???? qf_other Hcore]. constructor.
    + cbn. by rewrite Hfi.
    + done.
    + done.
    + done.
    + intros p Hp. change (tsos s2 !! p = tsos (put_tso o (with_bq (heap_next s) ot) s) !! p).
      rewrite qf_other by done. cbn. assert (o ≠ p) by (intros ->; set_solver).
      by rewrite !lookup_insert_ne.
    + intros p. etrans; [apply Hcore|]. cbn. rewrite !lookup_insert. by case_decide.
Qed.

Lemma wp_updateWithIndirection p v c Q s :
  p ≠ v → inds s !! p = Some c →
  (∀ mu, Q tt (set_mut mu (set_inds (<[p := mkInd stg_BLACKHOLE_info v]> (inds s)) s))) →
  wp (updateWithIndirection gen_no p v) Q s.
Proof.
  intros Hne Hp HQ. unfold updateWithIndirection, recordMutableCap.
  wp_step. wp_step; [lia|]. do 4 wp_step. apply wp_when; intros _; [by wp_step|].
  specialize (HQ (mut_lists s)). by destruct s.
Qed.

(** Update of a thunk whose black hole carries a blocking queue of the
    updating thread. *)
Lemma updateThunk_bq s l tso bh v c bq b ms :
  run_queue s l → inds s !! bh = Some c → is_blackhole (ind_info c) = true →
  indirectee c = bq → tsos s !! bq = None → bq_owner b = tso → bh ≠ v →
  bq_wakeable s l bq b ms →
  wp (updateThunk gen_no tso bh v)
     (λ _ s', run_queue s' (l ++ msg_threads s ms) ∧
        inds s' !! bh = Some (mkInd stg_BLACKHOLE_info v) ∧
        (∀ p, tso_core <$> tsos s' !! p =
           (λ t, tso_core (wake_core (msg_threads s ms) p t)) <$> tsos s !! p)) s.
Proof.
  intros Hq Hc Hbl Hi Hn Ho Hv Hw. assert (Hw' := Hw). destruct Hw' as [Hb Hinfo _ _ _ _].
  unfold updateThunk. do 2 wp_step. rewrite Hbl, Hi. cbn [negb].
  wp_step. eapply wp_updateWithIndirection; [done|done|]. intros mu.
  wp_step. eapply info_of_bq; [done|done|]. rewrite decide_False, Hinfo.
  2: { intros E. by rewrite E in Hinfo. }
  cbn [negb]. do 2 wp_step. rewrite (proj2 (Z.eqb_eq _ _) Ho). cbn [negb].
  eapply wp_mono; [apply (wakeBQ_ok gen_no _ l bq b ms); [exact Hq|]|].
  { destruct Hw. by constructor. }
  intros [] s' [Hq' []]. split_and!; [exact Hq'| |exact wf_core].
  rewrite wf_inds. cbn. by rewrite lookup_insert_eq.
Qed.

(** *** Several threads on one black hole *)

(** The thread [thr m] is about to block on [bh] with the message [m]; [q] is
    the run queue. *)
Definition about_to_block (thr : ptr → ptr) (bh : ptr) (oid : Z) (q : list ptr) (s : sched) (m : ptr) : Prop :=
  m ≠ END ∧ thr m ≠ END ∧ (thr m ∉ q) ∧
  (∃ r, msgs s !! m = Some r ∧ msg_info r = stg_MSG_BLACKHOLE_info ∧ UNTAG_CLOSURE (msg_bh r) = bh ∧ msg_tso r = thr m) ∧
  ∃ t, tsos s !! thr m = Some t ∧ why_blocked t = BlockedOnBlackHole ∧ tso_link t = END ∧ tso_id t ≠ oid.

(** The black hole [bh] of the runnable thread [o] has a blocking queue with
    the messages [ms], last come first. *)
Record blocked_on (s : sched) (l : list ptr) (o bh bq : ptr) (oid : Z) (ms : list ptr) : Prop := {
  bo_queue : run_queue s (o :: l);
  bo_owner : ∃ t, tsos s !! o = Some t ∧ why_blocked t = NotBlocked ∧ tso_id t = oid;
  bo_bh : ∃ c, inds s !! bh = Some c ∧ is_blackhole (ind_info c) = true ∧ indirectee c = bq;
  bo_tso : tsos s !! bq = None;
  bo_bq : ∃ b, bqs s !! bq = Some b ∧ is_blocking_queue (bq_info b) = true ∧ bq_bh b = bh ∧
    bq_owner b = o ∧ slist (λ p, msg_link <$> msgs s !! p) (bq_queue b) ms END
}.

Lemma owner_not_END s q o : run_queue s q → o ∈ q → o ≠ END.
Proof. intros [Hs _] Ho. by eapply dlseg_not_END. Qed.

(** A thread about to block stays so when others block. *)
Lemma about_to_block_frame thr bh oid (q q' : list ptr) s s' (X : list ptr) m :
  about_to_block thr bh oid q s m → (∀ x, x ∈ q' → x ∈ q) → (∀ x, x ∈ X → x ∈ q) →
  msgs s' !! m = msgs s !! m → (∀ p, p ∉ X → tsos s' !! p = tsos s !! p) →
  about_to_block thr bh oid q' s' m.
Proof.
  intros (Hm & Ht & Hq & Hr & Hb) Hsub HX Em Et. split_and!; [done|done|by auto|by rewrite Em|].
  rewrite Et; [done|]. by auto.
Qed.

Lemma blocked_first thr s l1 l2 o bh m c ot :
  run_queue s (l1 ++ o :: l2) → inds s !! bh = Some c → is_blackhole (ind_info c) = true →
  UNTAG_CLOSURE (indirectee c) = o → tsos s !! o = Some ot → why_blocked ot = NotBlocked →
  tsos s !! heap_next s = None → about_to_block thr bh (tso_id ot) (l1 ++ o :: l2) s m →
  wp (messageBlackHole gen_no m)
    (λ res s', res = 1 ∧ blocked_on s' (l1 ++ l2) o bh (heap_next s) (tso_id ot) [m] ∧
       about_to_block thr bh (tso_id ot) (o :: l1 ++ l2) s' m ∧
       ∀ x, x ≠ m → about_to_block thr bh (tso_id ot) (l1 ++ o :: l2) s x → about_to_block thr bh (tso_id ot) (o :: l1 ++ l2) s' x) s.
Proof.
  intros Hq Hc Hb Ho Hot How Hfresh (Hm & Ht & Htq & (r & Hr & Hri & Hrb & Hrt) & (bt & Hbt & Hbw & Hbl & Hbi)).
  assert (thr m ≠ o) as Hto by (intros E; apply Htq; rewrite E; set_solver).
  eapply wp_mono; [eapply messageBlackHole_first; try done; by rewrite Hrt|].
  intros res s' (-> & Hq' & [Hi Hbq Hms _ Hoth Hcore]). split; [done|].
  assert (∀ x, tsos (first_blocked bh c m r o ot s) !! x = tsos (put_tso o (with_bq (heap_next s) ot) s) !! x) as E by done.
  assert (∀ p, p ∉ l1 ++ o :: l2 → tsos s' !! p = tsos s !! p) as Hoth'.
  { intros p Hp. rewrite Hoth, E by done. cbn. rewrite lookup_insert_ne; [done|]. intros ->. set_solver. }
  split_and!.
  - constructor; [done|..].
    + specialize (Hcore o). rewrite E in Hcore. cbn in Hcore. rewrite lookup_insert_eq in Hcore.
      destruct (tsos s' !! o) as [t'|]; [|done]. cbn in Hcore. exists t'. unfold tso_core in Hcore. cbn in Hcore.
      injection Hcore; intros; split_and!; congruence.
    + eexists. split; [rewrite Hi; cbn; by rewrite lookup_insert_eq|done].
    + specialize (Hcore (heap_next s)). rewrite E in Hcore. cbn in Hcore. rewrite lookup_insert_ne in Hcore by congruence.
      rewrite Hfresh in Hcore. by destruct (tsos s' !! heap_next s).
    + eexists. split; [rewrite Hbq; cbn; by rewrite lookup_insert_eq|]. split_and!; [done|done|done|]. cbn. split_and!; [done|done|].
      exists END. rewrite Hms. cbn. by rewrite lookup_insert_eq.
  - split_and!; [done|done|set_solver|eexists; rewrite Hms; cbn; by rewrite lookup_insert_eq|]. exists bt. by rewrite Hoth'.
  - intros x Hx Hax. eapply (about_to_block_frame _ _ _ _ _ s s' (l1 ++ o :: l2)); [done|set_solver|done| |done].
    rewrite Hms. cbn. by rewrite lookup_insert_ne.
Qed.

Lemma blocked_next thr s l o bh bq oid ms m :
  blocked_on s l o bh bq oid ms → UNTAG_CLOSURE bq = bq → m ∉ ms → about_to_block thr bh oid (o :: l) s m →
  wp (messageBlackHole gen_no m)
    (λ res s', res = 1 ∧ blocked_on s' l o bh bq oid (m :: ms) ∧
       ∀ x, about_to_block thr bh oid (o :: l) s x → about_to_block thr bh oid (o :: l) s' x) s.
Proof.
  intros [Hq (ot & Hot & How & Hoid) (c & Hc & Hb & Hci) Htso (b & Hbq & Hbi & Hbb & Hbo & Hch)] Hun Hms
    (Hm & Ht & Htq & (r & Hr & Hri & Hrb & Hrt) & (bt & Hbt & Hbw & Hbl & Hid)).
  unfold messageBlackHole. do 4 wp_step; [by rewrite Hrb|]. rewrite Hb. cbn [negb]. rewrite Hci, Hun.
  wp_step. eapply info_of_bq; [done|done|].
  rewrite decide_False by (intros E; by rewrite E in Hbi). rewrite decide_False by (intros E; by rewrite E in Hbi). rewrite Hbi.
  do 2 wp_step. wp_step. wp_step; [rewrite Hrb; lia|]. wp_step. wp_step.
  { rewrite Hbo. pose proof (owner_not_END _ _ o Hq ltac:(by left)). by apply negb_true_iff, Z.eqb_neq. }
  unfold set_msg_link, set_bq. do 4 wp_step. do 2 wp_step. wp_step. apply wp_recordClosureMutated. intros mu.
  cbn [msgs inds tsos bqs set_bqs set_msgs set_mut]. rewrite Hrt, Hbo.
  set (s1 := set_mut mu (set_bqs (<[bq:=mkBQ (bq_info b) (bq_link b) (bq_bh b) m o]> (bqs s))
    (set_msgs (<[m:=mkMsg (msg_info r) (bq_queue b) (thr m) (msg_bh r)]> (msgs s)) s))).
  wp_step. apply (wp_mono _ (λ _ s2, tsos s2 = tsos s ∧ inds s2 = inds s ∧ msgs s2 = msgs s1 ∧ run_queue_hd s2 = run_queue_hd s ∧
    run_queue_tl s2 = run_queue_tl s ∧ ∃ b2, bqs s2 !! bq = Some b2 ∧ is_blocking_queue (bq_info b2) = true ∧ bq_bh b2 = bh ∧ bq_owner b2 = o ∧ bq_queue b2 = m)).
  { apply wp_when; intros Hi.
    - do 2 wp_step. apply wp_recordClosureMutated. intros mu2. cbn. split_and!; try done. eexists. by rewrite lookup_insert_eq.
    - cbn. split_and!; try done. eexists. by rewrite lookup_insert_eq. }
  intros _ s2 (Et & Ei & Em & Eh & Etl & (b2 & Hb2 & Hb2i & Hb2b & Hb2o & Hb2q)). wp_step. eapply wp_mono.
  { apply (bump_ok s2 [] o l ot (thr m) bt); [|by rewrite Et|done|by rewrite Et|congruence].
    apply (run_queue_links s); [|done|done|exact Hq]. intros x _. unfold tso_nx, tso_pv. by rewrite Et. }
  intros [] s3 [Hq3 [Hfi Hfb Hfm _ _ _ _ Hoth Hcore]]. wp_step. split; [done|]. split.
  - constructor; [done|..].
    + specialize (Hcore o). rewrite Et, Hot in Hcore. destruct (tsos s3 !! o) as [t'|]; [|done]. exists t'.
      unfold tso_core in Hcore. cbn in Hcore. injection Hcore; intros; split_and!; congruence.
    + exists c. by rewrite Hfi, Ei.
    + specialize (Hcore bq). rewrite Et, Htso in Hcore. by destruct (tsos s3 !! bq).
    + exists b2. rewrite Hfb. split_and!; try done. rewrite Hb2q. split_and!; [done|done|]. exists (bq_queue b).
      rewrite Hfm, Em. cbn. rewrite lookup_insert_eq. split; [done|].
      eapply slist_ext; [|exact Hch]. intros x Hx. cbn. rewrite lookup_insert_ne; [done|]. by intros ->.
  - intros x (H1 & H2 & H3 & (r' & Hr' & H4) & H5). split_and!; [done|done|done| |].
    + rewrite Hfm, Em. cbn. rewrite lookup_insert. case_decide as E; [|by eauto]. subst x. eexists. split; [done|].
      cbn. split_and!; [done|done|]. done.
    + rewrite Hoth, Et by done. done.
Qed.

(** The threads block one after the other, then the owner runs. *)
Fixpoint block_all (ms : list ptr) : prog sched (list Z) :=
  match ms with
  | [] => mret []
  | m :: ms => r ← messageBlackHole gen_no m; rs ← block_all ms; mret (r :: rs)
  end.

Lemma block_all_ok thr s l o bh bq oid done ms :
  blocked_on s l o bh bq oid done → UNTAG_CLOSURE bq = bq → NoDup (ms ++ done) →
  Forall (about_to_block thr bh oid (o :: l) s) (ms ++ done) →
  wp (block_all ms) (λ rs s', rs = repeat 1 (length ms) ∧ blocked_on s' l o bh bq oid (rev ms ++ done) ∧
    Forall (about_to_block thr bh oid (o :: l) s') (rev ms ++ done)) s.
Proof.
  intros Hb Hun. revert s done Hb. induction ms as [|m ms IH]; intros s dn Hb Hnd Hf; cbn [block_all]; [by wp_step|].
  cbn in Hnd. apply NoDup_cons in Hnd as [Hm Hnd]. cbn in Hf. apply Forall_cons in Hf as [Hfm Hf].
  wp_step. eapply wp_mono; [eapply blocked_next; [done|done| |done]|]; [set_solver|].
  intros res s1 (-> & Hb1 & Hk). wp_step. eapply wp_mono; [apply (IH s1 (m :: dn) Hb1)|].
  - rewrite <- Permutation_middle. by apply NoDup_cons.
  - rewrite <- Permutation_middle. apply Forall_cons. split; [by apply Hk|]. eapply Forall_impl; [exact Hf|exact Hk].
  - intros rs s2 (-> & Hb2 & Hf2). wp_step. cbn [rev length repeat]. by rewrite <- app_assoc.
Qed.

Lemma waiting_threads thr bh oid q s ms : Forall (about_to_block thr bh oid q s) ms → msg_threads s ms = thr <$> ms.
Proof.
  induction 1 as [|m ms (_ & _ & _ & (r & Hr & Hi & _ & Ht) & _) _ IH]; [done|]. unfold msg_threads in *. cbn. rewrite Hr. cbn.
  rewrite decide_False by congruence. cbn. by rewrite IH, Ht.
Qed.

(** A runnable owner of a black hole, and the threads that are about to block
    on it with the messages [ms] *)
Record before_blocking (thr : ptr → ptr) (s : sched) (l1 l2 : list ptr) (o bh : ptr) (ms : list ptr) : Prop := {
  bb_queue : run_queue s (l1 ++ o :: l2);
  bb_bh : ∃ c, inds s !! bh = Some c ∧ is_blackhole (ind_info c) = true ∧ UNTAG_CLOSURE (indirectee c) = o;
  bb_fresh : tsos s !! heap_next s = None ∧ UNTAG_CLOSURE (heap_next s) = heap_next s;
  bb_nonempty : ms ≠ [];
  bb_nodup : NoDup ms ∧ NoDup (thr <$> ms);
  bb_waiting : ∃ ot, tsos s !! o = Some ot ∧ why_blocked ot = NotBlocked ∧
    Forall (about_to_block thr bh (tso_id ot) (l1 ++ o :: l2) s) ms
}.

(** The owner is popped and updates the thunk. *)
Lemma update_wakes {A} (a : A) thr s l o bh bq oid ms v :
  blocked_on s l o bh bq oid ms → Forall (about_to_block thr bh oid (o :: l) s) ms → NoDup (thr <$> ms) → bh ≠ v →
  wp (p ← popRunQueue; updateThunk gen_no p bh v;; mret (a, p))
    (λ x s', x = (a, o) ∧ run_queue s' (l ++ (thr <$> ms)) ∧ inds s' !! bh = Some (mkInd stg_BLACKHOLE_info v) ∧
       ∀ m, m ∈ ms → why_blocked <$> tsos s' !! thr m = Some NotBlocked) s.
Proof.
  intros [Hq (ot & Hot & How & Hoid) (c & Hc & Hb & Hci) Htso (b & Hbq & Hbi & Hbb & Hbo & Hch)] Hf Hnd Hv.
  rewrite Forall_forall in Hf. wp_step. eapply wp_mono; [by eapply pop_ok|].
  intros p s2 (-> & Hq2 & Hf2 & _). wp_step.
  assert (∀ m, m ∈ ms → about_to_block thr bh oid l s2 m) as Hf'.
  { intros m Hm. eapply (about_to_block_frame _ _ _ (o :: l) l s s2 (o :: l)); [by apply Hf|set_solver|done|by rewrite (qf_msgs _ _ _ Hf2)|apply (qf_other _ _ _ Hf2)]. }
  assert (msg_threads s2 ms = thr <$> ms) as Hth by (eapply (waiting_threads thr bh oid l), Forall_forall; exact Hf').
  eapply wp_mono; [eapply (updateThunk_bq s2 l o bh v c bq b ms)|]; try done.
  - by rewrite (qf_inds _ _ _ Hf2).
  - pose proof (qf_core _ _ _ Hf2 bq) as E. rewrite Htso in E. by destruct (tsos s2 !! bq).
  - constructor; [by rewrite (qf_bqs _ _ _ Hf2)|done|by rewrite (qf_msgs _ _ _ Hf2)| | |].
    + intros x r Hx Hr. destruct (Hf' x Hx) as (_ & _ & _ & (r' & Hr' & Hi & _) & _). right. congruence.
    + rewrite Hth. apply NoDup_app. split_and!; [apply Hq2| |done]. intros x Hx (m & -> & Hm)%list_elem_of_fmap.
      by destruct (Hf' m Hm) as (_ & _ & ? & _).
    + rewrite Hth. intros x (m & -> & Hm)%list_elem_of_fmap. destruct (Hf' m Hm) as (_ & ? & _ & _ & (t & ? & ? & ? & _)).
      split; [done|]. exists t. auto.
  - rewrite Hth. intros [] s3 (Hq3 & Hi3 & Hc3). wp_step. split_and!; [done|done|done|].
    intros m Hm. specialize (Hc3 (thr m)). destruct (Hf' m Hm) as (_ & _ & _ & _ & (t & Ht & _)).
    rewrite Ht in Hc3. cbn in Hc3. unfold wake_core in Hc3. rewrite decide_True in Hc3 by (by apply list_elem_of_fmap_2).
    destruct (tsos s3 !! thr m) as [t3|]; [|done]. cbn in *. injection Hc3; intros; congruence.
Qed.

Lemma block_then_update thr s l1 l2 o bh ms v :
  before_blocking thr s l1 l2 o bh ms → bh ≠ v →
  wp (rs ← block_all ms;
      p ← popRunQueue;
      updateThunk gen_no p bh v;; mret (rs, p))
     (λ x s', x = (repeat 1 (length ms), o) ∧ run_queue s' (l1 ++ l2 ++ (thr <$> rev ms)) ∧
        inds s' !! bh = Some (mkInd stg_BLACKHOLE_info v) ∧
        ∀ m, m ∈ ms → why_blocked <$> tsos s' !! thr m = Some NotBlocked) s.
Proof.
  intros [Hq (c & Hc & Hb & Ho) [Hfr Hun] Hne [Hnd Hndt] (ot & Hot & How & Hf)] Hv.
  destruct ms as [|m ms]; [done|]. apply Forall_cons in Hf as [Hfm Hf]. apply NoDup_cons in Hnd as [Hm Hnd].
  cbn [block_all]. do 2 wp_step. eapply wp_mono; [by eapply blocked_first|].
  intros res s1 (-> & Hb1 & Hm1 & Hk). wp_step. eapply wp_mono; [apply (block_all_ok thr s1 _ _ _ _ _ [m] ms Hb1 Hun)|].
  { rewrite Permutation_app_comm. by apply NoDup_cons. }
  { apply Forall_app. split; [|by apply Forall_cons]. rewrite Forall_forall in *. intros x Hx. apply Hk; [by intros ->|by apply Hf]. }
  intros rs s2 (-> & Hb2 & Hf2). wp_step.
  eapply wp_mono; [eapply (update_wakes _ thr s2 (l1 ++ l2) o bh (heap_next s) (tso_id ot) (rev ms ++ [m]) v Hb2 Hf2); [|done]|].
  - rewrite fmap_app. by rewrite <- Permutation_rev, Permutation_app_comm.
  - intros x s3 (-> & Hq3 & Hi3 & Hw3). split_and!; [done|by rewrite app_assoc|done|].
    intros x Hx. apply Hw3. rewrite <- Permutation_rev, Permutation_app_comm. done.
Qed.
End blackhole.
