(* ===== verification/RunQueue.v ===== *)
(** * Properties of the run queue and of waking threads

    The run queue refines a list: every sequence of queue operations behaves on
    the linked TSOs as on the list of their addresses.  The generational write
    barrier of rts/sm/Storage.c is correct for every operation of Threads.v:
    a thread of an old generation that holds a pointer into a younger one is on
    the mutable list of its generation. *)
From S2P Require Import Prelude DList Threads BlackHole.
From stdpp Require Import list gmap.
Local Open Scope Z_scope.

(** ** The run queue as an abstract FIFO with removal *)

Inductive qop : Type :=
  | OpAppend (p : ptr)
  | OpPush (p : ptr)
  | OpPop
  | OpRemove (p : ptr).

(** The specification: the queue is the list of the threads.  A thread is
    queued at most once, and only a queued one is removed. *)
Definition qop_spec (o : qop) (l : list ptr) : option (list ptr * option ptr) :=
  match o with
  | OpAppend p => if decide (p ∈ l) then None else Some (l ++ [p], None)
  | OpPush p => if decide (p ∈ l) then None else Some (p :: l, None)
  | OpPop => match l with [] => None | p :: l => Some (l, Some p) end
  | OpRemove p => if decide (p ∈ l) then Some (filter (λ q, q ≠ p) l, None) else None
  end.

Fixpoint qops_spec (os : list qop) (l : list ptr) : option (list ptr * list (option ptr)) :=
  match os with
  | [] => Some (l, [])
  | o :: os => '(l1, r) ← qop_spec o l; '(l2, rs) ← qops_spec os l1; Some (l2, r :: rs)
  end.

Definition qop_arg (o : qop) : option ptr :=
  match o with OpAppend p | OpPush p | OpRemove p => Some p | OpPop => None end.

Section refinement.
Context (gen_no : ptr → Z).
Implicit Types (s : sched) (l : list ptr).

Definition qop_run (o : qop) : prog sched (option ptr) :=
  match o with
  | OpAppend p => appendToRunQueue gen_no p;; mret None
  | OpPush p => pushOnRunQueue gen_no p;; mret None
  | OpPop => p ← popRunQueue; mret (Some p)
  | OpRemove p => removeFromRunQueue gen_no p;; mret None
  end.

Fixpoint qops_run (os : list qop) : prog sched (list (option ptr)) :=
  match os with
  | [] => mret []
  | o :: os => r ← qop_run o; rs ← qops_run os; mret (r :: rs)
  end.

(** The queue holds [l], and a thread outside it has its link cleared, which
    [appendToRunQueue] asserts. *)
Record rq_inv (s : sched) (l : list ptr) : Prop := {
  ri_queue : run_queue s l;
  ri_off p t : tsos s !! p = Some t → p ∉ l → tso_link t = END;
  ri_null : tsos s !! END = None
}.

Lemma queue_frame_live X s s' p :
  queue_frame X s s' → is_Some (tsos s !! p) ↔ is_Some (tsos s' !! p).
Proof.
  intros Hf. pose proof (qf_core _ _ _ Hf p) as E.
  destruct (tsos s !! p), (tsos s' !! p); split; intros []; eauto; done.
Qed.

(** After an operation with frame [X] that leaves [l'], only the threads of
    [X] that left the queue have to be looked at. *)
Lemma rq_inv_frame X s s' l l' :
  rq_inv s l → run_queue s' l' → queue_frame X s s' →
  (∀ p t, p ∈ X → p ∉ l' → tsos s' !! p = Some t → tso_link t = END) →
  (∀ p, p ∈ l → p ∈ X ∨ p ∈ l') →
  rq_inv s' l'.
Proof.
  intros [Hq Hoff Hnull] Hq' Hf HX Hl. split; [done| |].
  - intros p t Ht Hp. destruct (decide (p ∈ X)); [by eauto|].
    rewrite (qf_other _ _ _ Hf) in Ht by done. eapply Hoff; [done|].
    intros Hpl. by destruct (Hl p Hpl).
  - pose proof (queue_frame_live _ _ _ END Hf) as Hn. rewrite Hnull in Hn.
    destruct (tsos s' !! END); [|done]. destruct Hn as [_ Hn]. destruct Hn; eauto. done.
Qed.

Lemma filter_ne_split l1 p l2 :
  NoDup (l1 ++ p :: l2) → filter (λ q, q ≠ p) (l1 ++ p :: l2) = l1 ++ l2.
Proof.
  intros (Hnd1 & Hd & [Hp2 Hnd2]%NoDup_cons)%NoDup_app.
  rewrite filter_app, filter_cons_False by naive_solver.
  rewrite !filter_all; [done|..].
  - by intros x Hx ->.
  - intros x Hx ->. by apply (Hd p Hx); left.
Qed.

Lemma qop_refines o s l l' r :
  rq_inv s l → qop_spec o l = Some (l', r) →
  (∀ p, qop_arg o = Some p → is_Some (tsos s !! p)) →
  wp (qop_run o) (λ r' s', r' = r ∧ rq_inv s' l' ∧
    ∀ p, is_Some (tsos s !! p) ↔ is_Some (tsos s' !! p)) s.
Proof.
  intros Hi Hspec Hlive. assert (Hq := ri_queue _ _ Hi).
  assert (∀ p, is_Some (tsos s !! p) → p ≠ END) as Hne.
  { intros p [t Ht] ->. by rewrite (ri_null _ _ Hi) in Ht. }
  destruct o as [p|p| |p]; cbn in Hspec |- *; wp_step.
  - case_decide as Hp; [done|]. injection Hspec as <- <-.
    destruct (Hlive p eq_refl) as [t Ht].
    eapply wp_mono; [eapply append_ok; eauto; by eapply ri_off|].
    intros [] s' [Hq' Hf]. wp_step. split_and!; [done| |by intros; eapply queue_frame_live].
    eapply rq_inv_frame; [done..| |]; set_solver.
  - case_decide as Hp; [done|]. injection Hspec as <- <-.
    destruct (Hlive p eq_refl) as [t Ht].
    eapply wp_mono; [eapply push_ok; eauto|].
    intros [] s' [Hq' Hf]. wp_step. split_and!; [done| |by intros; eapply queue_frame_live].
    eapply rq_inv_frame; [done..| |]; set_solver.
  - destruct l as [|p l]; [done|]. injection Hspec as <- <-.
    eapply wp_mono; [by eapply pop_ok|]. intros p' s' (-> & Hq' & Hf & Hlk). wp_step.
    split_and!; [done| |by intros; eapply queue_frame_live].
    eapply rq_inv_frame; [done..| |]; [|set_solver].
    intros q t [->|?]%elem_of_cons Hql Ht; [|done]. rewrite Ht in Hlk. by injection Hlk.
  - case_decide as Hp; [|done]. injection Hspec as <- <-.
    apply list_elem_of_split in Hp as (l1 & l2 & ->).
    assert (NoDup (l1 ++ p :: l2)) as Hnd by apply Hq.
    eapply wp_mono; [by eapply remove_ok|]. intros [] s' (Hq' & Hf & Hn & _). wp_step.
    rewrite filter_ne_split by done.
    split_and!; [done| |by intros; eapply queue_frame_live].
    eapply rq_inv_frame; [done..| |]; [|set_solver].
    intros q t Hql Hq2 Ht. assert (q = p) as -> by set_solver.
    destruct (tso_nx_inv _ _ _ Hn) as (t' & Ht' & ?). congruence.
Qed.

Lemma qops_refine os s l l' rs :
  rq_inv s l → qops_spec os l = Some (l', rs) →
  (∀ o p, o ∈ os → qop_arg o = Some p → is_Some (tsos s !! p)) →
  wp (qops_run os) (λ rs' s', rs' = rs ∧ rq_inv s' l') s.
Proof.
  revert s l l' rs. induction os as [|o os IH]; intros s l l' rs Hi Hspec Hlive; cbn in *.
  { injection Hspec as <- <-. done. }
  destruct (qop_spec o l) as [[l1 r]|] eqn:Eo; [|done]. cbn in Hspec.
  destruct (qops_spec os l1) as [[l2 rs2]|] eqn:Eos; [|done]. cbn in Hspec.
  injection Hspec as <- <-. wp_step. eapply wp_mono; [eapply qop_refines; [done..|]|].
  { intros. eapply Hlive; [by left|done]. }
  intros r' s1 (-> & Hi1 & Hl1). wp_step. eapply wp_mono; [eapply IH; [done..|]|].
  { intros. apply Hl1. eapply Hlive; [by right|done]. }
  intros rs' s2 [-> Hi2]. by wp_step.
Qed.
End refinement.

(** ** The generational write barrier *)
Section barrier.
Context (gen_no : ptr → Z).
Implicit Types (s : sched) (t : StgTSO).

(** Pointers of a TSO that may lead to any generation *)
Definition tso_pointers (t : StgTSO) : list ptr := [tso_link t; block_info t; tso_bq t; blocked_exceptions t].

(** [q] is no pointer from [p] into a younger generation. *)
Definition not_younger (p q : ptr) : Prop := q = END ∨ gen_no p <= gen_no q.

(** A TSO at [p] needs no entry on a mutable list. *)
Definition clean_ok (p : ptr) (t : StgTSO) : Prop :=
  tso_dirty t = false ∧ ∀ q, q ∈ tso_pointers t → not_younger p q.

Definition remembered (s : sched) (p : ptr) : Prop := p ∈ default [] (mut_lists s !! gen_no p).

(** Every thread of an old generation is on the mutable list of its generation,
    or is clean and points to nothing younger; a closure with an indirectee is
    on that list, or its indirectee is not younger. *)
Record gen_inv (s : sched) : Prop := {
  gi_tsos p t : tsos s !! p = Some t → gen_no p ≠ 0 → remembered s p ∨ clean_ok p t;
  gi_inds p c : inds s !! p = Some c → gen_no p ≠ 0 → remembered s p ∨ not_younger p (indirectee c)
}.

Lemma gen_inv_ext s s' :
  tsos s' = tsos s → inds s' = inds s → (∀ p, gen_no p ≠ 0 → remembered s p → remembered s' p) → gen_inv s → gen_inv s'.
Proof.
  intros Ht Hi Hm [Hit Hii]. split; intros p x; [rewrite Ht|rewrite Hi]; intros Hx Hg.
  - destruct (Hit p x Hx Hg); auto.
  - destruct (Hii p x Hx Hg); auto.
Qed.

Lemma gen_inv_put s p t t' :
  tsos s !! p = Some t → tso_dirty t' = tso_dirty t →
  (∀ q, q ∈ tso_pointers t' → q ∈ tso_pointers t ∨ q = END) →
  gen_inv s → gen_inv (put_tso p t' s).
Proof.
  intros Hp Hd Hq [Hit Hii]. split; [|exact Hii]. intros x u Hu Hx. cbn in Hu. rewrite lookup_insert in Hu. case_decide; [|by eapply Hit].
  subst x. injection Hu as <-. destruct (Hit p t Hp Hx) as [?|[Hc Hq']]; [by left|right].
  split; [congruence|]. intros q Hin. destruct (Hq q Hin) as [?| ->]; [by apply Hq'|by left].
Qed.

Lemma remembered_note s p t q : remembered s q → remembered (note gen_no p t s) q.
Proof.
  unfold remembered, note. intros H. destruct (tso_dirty t); [done|]. destruct (gen_no p =? 0); [done|]. cbn.
  rewrite lookup_insert. case_decide as E; [|done]. cbn. right. by rewrite E.
Qed.

Lemma note_inds p t s : inds (note gen_no p t s) = inds s.
Proof. unfold note. by destruct (tso_dirty t), (gen_no p =? 0). Qed.

Lemma gen_inv_note s p t t' :
  tsos s !! p = Some t → (tso_dirty t = true → gen_no p ≠ 0 → remembered s p) →
  gen_inv s → gen_inv (put_tso p t' (note gen_no p t s)).
Proof.
  intros Hp Hm [Hit Hii]. split.
  - intros q u Hu Hq. cbn in Hu. rewrite note_tsos, lookup_insert in Hu. case_decide.
    + subst q. left. destruct (tso_dirty t) eqn:E; [apply (remembered_note s); by apply Hm|].
      unfold remembered, note. rewrite E. destruct (gen_no p =? 0) eqn:Eg; [lia|]. cbn. rewrite lookup_insert_eq. by left.
    + destruct (Hit q u Hu Hq); [left; by apply (remembered_note s)|by right].
  - intros q c. cbn. rewrite note_inds. intros Hc Hq. destruct (Hii q c Hc Hq); [left; by apply (remembered_note s)|by right].
Qed.

(** A dirty thread of an old generation cannot be [clean_ok]. *)
Lemma gen_inv_dirty s p t :
  gen_inv s → tsos s !! p = Some t → tso_dirty t = true → gen_no p ≠ 0 → remembered s p.
Proof. intros Hi Hp Hd Hg. destruct (gi_tsos _ Hi p t Hp Hg) as [?|(? & _)]; [done|congruence]. Qed.

Lemma preserves_upd p f :
  (∀ t, tso_dirty (f t) = tso_dirty t ∧ ∀ q, q ∈ tso_pointers (f t) → q ∈ tso_pointers t ∨ q = END) →
  preserves gen_inv (upd_tso p f).
Proof.
  intros Hf s a s' Hrun Hi. unfold upd_tso, mbind, prog_bind, load in Hrun.
  destruct (tsos s !! p) as [t|] eqn:Hp; [|done]. injection Hrun as <- <-.
  destruct (Hf t) as (? & ?). by eapply gen_inv_put.
Qed.

Lemma preserves_barrier p (m : prog sched unit) (f : StgTSO → StgTSO) :
  (∀ s t Q, tsos s !! p = Some t →
     Q tt (put_tso p (f (with_dirty true t)) (note gen_no p t s)) → wp m Q s) →
  (∀ s, tsos s !! p = None → m s = Err BadPointer) →
  preserves gen_inv m.
Proof.
  intros Hm Hbad s [] s' Hrun Hi. destruct (tsos s !! p) as [t|] eqn:Hp.
  - eapply (wp_ok m (λ _ s', gen_inv s')); [done|]. eapply Hm; [done|].
    eapply gen_inv_note; [done| |done]. intros. by eapply gen_inv_dirty.
  - rewrite Hbad in Hrun; done.
Qed.

Lemma preserves_setTSOLink p q : preserves gen_inv (setTSOLink gen_no p q).
Proof.
  apply (preserves_barrier p _ (with_link q)); [intros; by eapply wp_setTSOLink|].
  intros s E. unfold setTSOLink, mbind, prog_bind, load. by rewrite E.
Qed.
Lemma preserves_setTSOPrev p q : preserves gen_inv (setTSOPrev gen_no p q).
Proof.
  apply (preserves_barrier p _ (with_block q)); [intros; by eapply wp_setTSOPrev|].
  intros s E. unfold setTSOPrev, mbind, prog_bind, load. by rewrite E.
Qed.
Lemma preserves_dirty_TSO p : preserves gen_inv (dirty_TSO gen_no p).
Proof.
  apply (preserves_barrier p _ id); [intros; by eapply wp_dirty_TSO|].
  intros s E. unfold dirty_TSO, mbind, prog_bind, load. by rewrite E.
Qed.

(** A field is written before the barrier. *)
Lemma preserves_written p f :
  (∀ t, with_dirty true (f t) = f (with_dirty true t) ∧ tso_dirty (f t) = tso_dirty t) →
  preserves gen_inv (upd_tso p f;; dirty_TSO gen_no p).
Proof.
  intros Hf. apply (preserves_barrier p _ f).
  - intros s t Q Hp HQ. wp_step. eapply wp_upd_tso; [done|]. eapply wp_dirty_TSO; [apply lookup_insert_eq|].
    destruct (Hf t) as [E1 E2]. rewrite E1. replace (put_tso p _ _) with (put_tso p (f (with_dirty true t)) (note gen_no p t s)); [done|].
    unfold put_tso, note, set_tsos, set_mut. rewrite E2. destruct (tso_dirty t), (gen_no p =? 0); cbn; by rewrite insert_insert_eq.
  - intros s E. unfold upd_tso, mbind, prog_bind, load. by rewrite E.
Qed.

(** The mutable lists only grow. *)
Lemma preserves_recordMutableCap p g : preserves gen_inv (recordMutableCap p g).
Proof.
  apply preserves_modify. intros s. apply gen_inv_ext; [done..|]. intros q _. unfold remembered. cbn.
  rewrite lookup_insert. case_decide as E; [|done]. intros H. cbn. right. by rewrite E.
Qed.

(** An indirectee is written before the barrier. *)
Lemma preserves_indirectee p c :
  preserves gen_inv (modify (λ s, set_inds (<[p := c]> (inds s)) s);; when (negb (gen_no p =? 0)) (recordMutableCap p (gen_no p))).
Proof.
  intros s [] s'. destruct (negb (gen_no p =? 0)) eqn:E; intros [= <-] [Hit Hii]; split; cbn.
  - intros q t Hq Hg. destruct (Hit q t Hq Hg) as [H|]; [left|by right]. unfold remembered in *. cbn.
    rewrite lookup_insert. case_decide as E'; [|done]. cbn. right. by rewrite E'.
  - intros q c' Hq Hg. destruct (decide (q = p)) as [->|Hne].
    + left. unfold remembered. cbn. rewrite lookup_insert_eq. by left.
    + rewrite lookup_insert_ne in Hq by done. destruct (Hii q c' Hq Hg) as [H|]; [left|by right]. unfold remembered in *. cbn.
      rewrite lookup_insert. case_decide as E'; [|done]. cbn. right. by rewrite E'.
  - exact Hit.
  - intros q c' Hq Hg. rewrite lookup_insert in Hq. case_decide; [subst q; lia|]. by apply (Hii q c').
Qed.

Lemma preserves_set f :
  (∀ s, tsos (f s) = tsos s) → (∀ s, inds (f s) = inds s) → (∀ s, mut_lists (f s) = mut_lists s) →
  preserves gen_inv (modify f).
Proof. intros Ht Hi Hm. apply preserves_modify. intros s. apply gen_inv_ext; [done..|]. intros p _. unfold remembered. by rewrite Hm. Qed.
End barrier.

#[export] Hint Resolve preserves_setTSOLink preserves_setTSOPrev preserves_dirty_TSO
  preserves_recordMutableCap : preserves.
#[export] Hint Extern 1 (preserves (gen_inv _) (upd_tso _ _)) =>
  (apply preserves_upd; intros ?; unfold tso_pointers; cbn; split; [done|]; intros ?; rewrite !elem_of_cons; tauto) : preserves.
#[export] Hint Extern 1 (preserves (gen_inv _) (modify _)) =>
  (apply preserves_set; done) : preserves.

(** Writes with their barrier, in front of the rest of an operation *)
Lemma preserves_then {S A} (I : S → Prop) (m n : prog S unit) (k : unit → prog S A) :
  preserves I (m;; n) → (∀ u, preserves I (k u)) → preserves I (m ≫= λ _, n ≫= k).
Proof.
  intros Hmn Hk s a s' Hrun. apply (preserves_bind I (m;; n) k Hmn Hk s a s'). rewrite <- Hrun.
  unfold mbind, prog_bind. by destruct (m s) as [[[] s1]|].
Qed.
Ltac barrier_step :=
  lazymatch goal with
  | |- preserves (gen_inv _) (upd_tso _ _ ≫= λ _, dirty_TSO _ _) => apply preserves_written; done
  | |- preserves (gen_inv _) (upd_tso _ _ ≫= λ _, dirty_TSO _ _ ≫= _) => apply preserves_then; [apply preserves_written; done|intros ?]
  | |- preserves (gen_inv _) (modify (λ _, set_inds _ _) ≫= λ _, when _ (recordMutableCap _ _)) => apply preserves_indirectee
  | |- preserves (gen_inv _) (modify (λ _, set_inds _ _) ≫= λ _, recordClosureMutated _ _ ≫= _) => apply preserves_then; [apply preserves_indirectee|intros ?]
  end.

Section barrier_ops.
Context (gen_no : ptr → Z).

Lemma preserves_recordClosureMutated p : preserves (gen_inv gen_no) (recordClosureMutated gen_no p).
Proof. unfold recordClosureMutated. preserves. Qed.
Lemma preserves_append p : preserves (gen_inv gen_no) (appendToRunQueue gen_no p).
Proof. unfold appendToRunQueue. preserves. Qed.
Lemma preserves_push p : preserves (gen_inv gen_no) (pushOnRunQueue gen_no p).
Proof. unfold pushOnRunQueue. preserves. Qed.
Lemma preserves_pop : preserves (gen_inv gen_no) popRunQueue.
Proof. unfold popRunQueue. preserves. Qed.
Lemma preserves_remove p : preserves (gen_inv gen_no) (removeFromRunQueue gen_no p).
Proof. unfold removeFromRunQueue. preserves. Qed.
Lemma preserves_blocked p : preserves (gen_inv gen_no) (appendToBlockedQueue gen_no p).
Proof. unfold appendToBlockedQueue. preserves. Qed.
Lemma preserves_queue_scan fuel prev t p : preserves (gen_inv gen_no) (queue_scan fuel prev t p).
Proof. revert prev t. induction fuel; intros; cbn [queue_scan]; preserves. Qed.
#[local] Hint Resolve preserves_queue_scan : preserves.
Lemma preserves_removeThreadFromQueue q p : preserves (gen_inv gen_no) (removeThreadFromQueue gen_no q p).
Proof. unfold removeThreadFromQueue. preserves. Qed.
Lemma preserves_removeThreadFromDeQueue h t p :
  preserves (gen_inv gen_no) (removeThreadFromDeQueue gen_no h t p).
Proof. unfold removeThreadFromDeQueue. preserves. Qed.
End barrier_ops.

#[export] Hint Resolve preserves_recordClosureMutated preserves_append preserves_push preserves_pop
  preserves_remove preserves_blocked preserves_removeThreadFromQueue
  preserves_removeThreadFromDeQueue : preserves.

Section barrier_wake.
Context (gen_no : ptr → Z).

Lemma preserves_tryWakeupThread p : preserves (gen_inv gen_no) (tryWakeupThread gen_no p).
Proof. unfold tryWakeupThread, unblock, lockThrowTo, unlockThrowTo. preserves. Qed.
#[local] Hint Resolve preserves_tryWakeupThread : preserves.
Lemma preserves_wake_msgs fuel m : preserves (gen_inv gen_no) (wake_msgs gen_no fuel m).
Proof. revert m. induction fuel; intros; cbn [wake_msgs]; preserves. Qed.
#[local] Hint Resolve preserves_wake_msgs : preserves.
Lemma preserves_wakeBlockingQueue q : preserves (gen_inv gen_no) (wakeBlockingQueue gen_no q).
Proof. unfold wakeBlockingQueue. preserves. Qed.
#[local] Hint Resolve preserves_wakeBlockingQueue : preserves.
Lemma preserves_check_bqs fuel q : preserves (gen_inv gen_no) (check_bqs gen_no fuel q).
Proof. revert q. induction fuel; intros; cbn [check_bqs]; preserves. Qed.
#[local] Hint Resolve preserves_check_bqs : preserves.
Lemma preserves_info_of p : preserves (gen_inv gen_no) (info_of p).
Proof.
  intros s i s'. unfold info_of.
  repeat case_match; intros [=]; by subst.
Qed.
#[local] Hint Resolve preserves_info_of : preserves.
Lemma preserves_updateThunk t bh v : preserves (gen_inv gen_no) (updateThunk gen_no t bh v).
Proof. unfold updateThunk, updateWithIndirection, checkBlockingQueues. repeat (barrier_step || preserves_step); preserves. Qed.
Lemma preserves_messageBlackHole m : preserves (gen_inv gen_no) (messageBlackHole gen_no m).
Proof. unfold messageBlackHole, allocate, set_bq, set_msg_link, bump_owner. repeat (barrier_step || preserves_step); preserves. Qed.
Lemma preserves_blockedThrowTo p m : preserves (gen_inv gen_no) (blockedThrowTo gen_no p m).
Proof. unfold blockedThrowTo, set_throwto_link. repeat (barrier_step || preserves_step); preserves. Qed.
Lemma preserves_awaken fuel m : preserves (gen_inv gen_no) (awaken_exceptions gen_no fuel m).
Proof.
  revert m. induction fuel; intros; cbn [awaken_exceptions];
    unfold lockThrowTo, doneWithMsgThrowTo, unlockThrowTo; preserves.
Qed.
#[local] Hint Resolve preserves_awaken : preserves.
Lemma preserves_awakenBlockedExceptionQueue p :
  preserves (gen_inv gen_no) (awakenBlockedExceptionQueue gen_no p).
Proof. unfold awakenBlockedExceptionQueue. preserves. Qed.
End barrier_wake.
