(* ===== verification/ThreadProps.v ===== *)
(** * Threads: the theorems

    The properties of Threads.v, with concrete runs: the run queue as a list,
    the write barrier, waking a thread once, removal from a blocking queue, and
    the life of a black hole from the thread that blocks on it to the update
    that wakes it. *)
From S2P Require Import Prelude DList Threads BlackHole RunQueue.
From stdpp Require Import list gmap.
Local Open Scope Z_scope.

(** ** Every operation that moves threads, as one step *)
Inductive rts_op : Type :=
  | RQ (o : qop)
  | AppendBlocked (p : ptr)
  | RemoveFromQueue (q p : ptr)
  | RemoveFromDeQueue (h t p : ptr)
  | TryWakeup (p : ptr)
  | Migrate (p : ptr)
  | WakeBQ (q : ptr)
  | CheckBQs (p : ptr)
  | UpdateThunk (tso thunk val : ptr)
  | MessageBH (m : ptr)
  | BlockThrowTo (p m : ptr)
  | AwakenExceptions (p : ptr).

Definition rts_run (gen_no : ptr → Z) (o : rts_op) : prog sched unit :=
  match o with
  | RQ o => qop_run gen_no o;; mret tt
  | AppendBlocked p => appendToBlockedQueue gen_no p
  | RemoveFromQueue q p => removeThreadFromQueue gen_no q p;; mret tt
  | RemoveFromDeQueue h t p => removeThreadFromDeQueue gen_no h t p;; mret tt
  | TryWakeup p => tryWakeupThread gen_no p
  | Migrate p => migrateThread gen_no p
  | WakeBQ q => wakeBlockingQueue gen_no q
  | CheckBQs p => checkBlockingQueues gen_no p
  | UpdateThunk t h v => updateThunk gen_no t h v
  | MessageBH m => messageBlackHole gen_no m;; mret tt
  | BlockThrowTo p m => blockedThrowTo gen_no p m
  | AwakenExceptions p => awakenBlockedExceptionQueue gen_no p
  end.

#[local] Hint Resolve preserves_tryWakeupThread preserves_wakeBlockingQueue preserves_check_bqs
  preserves_updateThunk preserves_messageBlackHole preserves_blockedThrowTo preserves_awakenBlockedExceptionQueue : preserves.

Lemma preserves_rts_op gen_no o : preserves (gen_inv gen_no) (rts_run gen_no o).
Proof.
  destruct o as [o| | | | | | | | | | |]; cbn [rts_run];
    [destruct o; cbn [qop_run]|..];
    unfold migrateThread, checkBlockingQueues; preserves.
Qed.

(** ** Removal from a singly linked queue of threads *)
Section remove_queue.
Context (gen_no : ptr → Z).
Implicit Types (s : sched) (l : list ptr).

(** The scan stops at [tso], with its predecessor. *)
Lemma queue_scan_ok fuel s prev l1 l2 hd p :
  slist (tso_nx s) hd (l1 ++ p :: l2) END → p ∉ l1 → (length l1 < fuel)%nat →
  wp (queue_scan fuel prev hd p)
     (λ r s', s' = s ∧ r.1 = default prev (last l1) ∧
        tso_nx s p = Some r.2 ∧ slist (tso_nx s) r.2 l2 END) s.
Proof.
  revert prev hd l1. induction fuel as [|fuel IH]; intros prev hd l1 Hs Hp Hlen; [lia|].
  cbn [queue_scan]. destruct l1 as [|x l1]; cbn in Hs.
  - destruct Hs as (-> & Hpe & n & Hn & Hs). rewrite (proj2 (Z.eqb_neq _ _) Hpe), Z.eqb_refl.
    destruct (tso_nx_inv _ _ _ Hn) as (t & Ht & <-). do 2 wp_step. by wp_step.
  - destruct Hs as (-> & Hxe & n & Hn & Hs). rewrite (proj2 (Z.eqb_neq _ _) Hxe).
    assert (x ≠ p) by (intros ->; apply Hp; by left).
    rewrite (proj2 (Z.eqb_neq x p)) by done.
    destruct (tso_nx_inv _ _ _ Hn) as (t & Ht & <-). do 2 wp_step.
    cbn in Hlen. eapply wp_mono; [apply (IH x _ l1); [done|set_solver|lia]|].
    intros [a b] s' (-> & Ha & ?). split_and!; [done| |tauto..].
    cbn in Ha |- *. rewrite Ha, last_cons. by destruct (last l1).
Qed.

Lemma removeThreadFromQueue_ok s hd l1 p l2 :
  slist (tso_nx s) hd (l1 ++ p :: l2) END →
  wp (removeThreadFromQueue gen_no hd p)
     (λ r s', slist (tso_nx s') r.1 (l1 ++ l2) END ∧ tso_nx s' p = Some END ∧
        r.2 = bool_decide (l1 = []) ∧ queue_frame (l1 ++ p :: l2) s s') s.
Proof.
  intros Hs. pose proof (slist_NoDup _ _ _ Hs) as (Hnd1 & Hd & [Hp2 Hnd2]%NoDup_cons)%NoDup_app.
  assert (p ∉ l1) as Hp1 by (intros ?; eapply Hd; [done|]; by left).
  unfold removeThreadFromQueue. do 3 wp_step.
  eapply wp_mono; [apply (queue_scan_ok _ s END l1 l2 hd p Hs Hp1)|].
  { apply slist_length in Hs. revert Hs. rewrite length_app. cbn. lia. }
  intros [prev link] s' (-> & Hprev & Hn & Hl2). cbn [fst snd] in *.
  destruct (tso_nx_inv _ _ _ Hn) as (t & Ht & Htl).
  destruct l1 as [|x l1' _] using rev_ind.
  - cbn in Hprev. subst prev. cbn. wp_step. eapply wp_upd_tso; [done|]. wp_step. cbn.
    split_and!; [|by q_simp|done|].
    + eapply slist_ext; [|exact Hl2]. intros y Hy. assert (p ≠ y) by congruence. q_simp.
    + eapply queue_frame_put'; [by left|done|done].
  - rewrite last_snoc in Hprev. cbn in Hprev. subst prev.
    apply slist_app in Hs as (m & Hs1 & Hs2). assert (m = p) as -> by apply Hs2.
    apply slist_app in Hs1 as (m & Hs1 & (-> & Hxe & n & Hnx & Hnp)).
    destruct (tso_nx_inv _ _ _ Hnx) as (u & Hu & _).
    assert (x ≠ p) by (intros ->; apply Hp1, elem_of_app; right; by left).
    assert ((x ∉ l1') ∧ (x ∉ l2)) as [Hx1 Hx2].
    { split; [|intros ?; eapply Hd; [apply elem_of_app; right; by left|by right]].
      apply NoDup_app in Hnd1 as (_ & Hd1 & _). intros Hx. apply (Hd1 x Hx). by left. }
    rewrite (proj2 (Z.eqb_neq x END)) by done. cbn [negb].
    wp_step. eapply wp_setTSOLink; [done|]. wp_step. eapply wp_upd_tso; [by q_simp|].
    wp_step. cbn. split_and!; [|by q_simp|by rewrite bool_decide_false by (by destruct l1')|].
    + rewrite <- app_assoc. apply slist_app. exists x. split.
      * eapply slist_ext; [|exact Hs1]. intros y Hy.
        assert (p ≠ y) by (intros ->; apply Hp1, elem_of_app; by left).
        assert (x ≠ y) by congruence. q_simp.
      * cbn. split_and!; [done|done|]. exists link. split; [by q_simp|].
        eapply slist_ext; [|exact Hl2]. intros y Hy.
        assert (p ≠ y) by congruence. assert (x ≠ y) by congruence. q_simp.
    + eapply (queue_frame_trans [x] _ _ (put_tso x (with_link link (with_dirty true u)) (note gen_no x u s)));
        [set_solver|apply queue_frame_put; [by left|done..]|].
      eapply queue_frame_put'; [set_solver|by q_simp|done].
Qed.
End remove_queue.

(** ** Waking a thread once *)

(** The three ways in which [tryWakeupThread] finds a thread it must wake. *)
Definition wake_due (s : sched) (t : StgTSO) : Prop :=
  match why_blocked t with
  | BlockedOnBlackHole | BlockedOnSTM | ThreadMigrating | BlockedOnMVar => True
  | BlockedOnMsgThrowTo =>
      (∃ m, throwtos s !! block_info t = Some m ∧ tt_info m = stg_MSG_NULL_info) ∧
      head (tso_stack t) = Some stg_block_throwto_word
  | _ => False
  end.

Section wake_once.
Context (gen_no : ptr → Z).

Lemma unblock_state s l p t t0 s1 :
  run_queue s l → p ∉ l → p ≠ END → tsos s !! p = Some t0 → tso_link t0 = END →
  tso_link t = END → s1 = put_tso p t s →
  wp (unblock gen_no p)
     (λ _ s', run_queue s' (l ++ [p]) ∧ (why_blocked <$> tsos s' !! p) = Some NotBlocked) s1.
Proof.
  intros [Hs Hnd] Hp Hpe Ht Hl Hl' ->. eapply wp_mono.
  { eapply (unblock_ok gen_no _ l p t); [|done|done|by q_simp|done].
    split; [|done]. eapply dlseg_tsos; [|exact Hs]. intros x Hx.
    assert (p ≠ x) by congruence. q_simp. }
  intros [] s' [Hq Hf]. split; [done|].
  pose proof (wf_core _ _ _ _ Hf p) as E. unfold wake_core in E.
  revert E. q_simp. cbn. rewrite decide_True by by left.
  destruct (tsos s' !! p) as [t'|]; [|done]. cbn. intros E. injection E as ? -> ????. done.
Qed.

Lemma wake_NotBlocked s p :
  (why_blocked <$> tsos s !! p) = Some NotBlocked → tryWakeupThread gen_no p s = Ok (tt, s).
Proof.
  intros E. unfold tryWakeupThread, mbind, prog_bind, load.
  destruct (tsos s !! p) as [t|]; [|done]. cbn in E. injection E as ->. done.
Qed.

Lemma wake_once_ok s l p t :
  run_queue s l → p ∉ l → p ≠ END → tsos s !! p = Some t → tso_link t = END → wake_due s t →
  wp (tryWakeupThread gen_no p)
     (λ _ s', run_queue s' (l ++ [p]) ∧ (why_blocked <$> tsos s' !! p) = Some NotBlocked) s.
Proof.
  intros Hq Hp Hpe Ht Hl Hw. unfold wake_due in Hw. unfold tryWakeupThread. do 2 wp_step.
  assert (put_tso p t s = s) as Hid.
  { unfold put_tso. rewrite insert_id by done. by destruct s. }
  destruct (why_blocked t) eqn:Ew; try done.
  - rewrite Hl, Z.eqb_refl. wp_step. eapply wp_upd_tso; [done|].
    by eapply (unblock_state s l p (with_block END t)).
  - by eapply (unblock_state s l p t t).
  - by eapply (unblock_state s l p t t).
  - destruct Hw as ((m & Hm & Hi) & Hst).
    unfold lockThrowTo, unlockThrowTo. do 3 wp_step. rewrite Hi.
    rewrite decide_False by done. do 2 wp_step. wp_step. wp_step. wp_step. wp_step; [cbn; by apply lookup_insert_eq|]. wp_step.
    rewrite decide_False by tauto. do 2 wp_step. wp_step. wp_step; [by apply bool_decide_eq_true|].
    wp_step. eapply wp_upd_tso; [done|]. cbn. rewrite insert_insert_eq.
    rewrite insert_id; [|rewrite Hm; destruct m; cbn in *; subst; done].
    eapply (unblock_state s l p (with_stack (drop 3 (tso_stack t)) t)); try done.
  - by eapply (unblock_state s l p t t).
Qed.
End wake_once.

(** ** The theorems *)

(** The invariant of any sequence of operations. *)
Fixpoint rts_runs (gen_no : ptr → Z) (os : list rts_op) : prog sched unit :=
  match os with
  | [] => mret tt
  | o :: os => rts_run gen_no o;; rts_runs gen_no os
  end.

Lemma preserves_rts_runs gen_no os : preserves (gen_inv gen_no) (rts_runs gen_no os).
Proof.
  induction os as [|o os IH]; cbn [rts_runs]; [apply preserves_ret|].
  apply preserves_bind; [apply preserves_rts_op|by intros _].
Qed.

(** A concrete heap: threads 8 (the owner of the black hole 40) and 16 (old
    generation) in the run queue, thread 24 about to block on 40 with the
    message 56. *)
Module Demo.
Definition gen_no (p : ptr) : Z := if p =? 16 then 1 else 0.
Definition thread (id link : Z) (w : BlockReason) (b : ptr) : StgTSO :=
  mkTSO id link w b false END END [] END.
Definition owner : StgTSO := thread 1 END NotBlocked 16.
Definition blocked : StgTSO := thread 3 END BlockedOnBlackHole 56.
Definition thunk : StgInd := mkInd stg_BLACKHOLE_info 8.
Definition msg : MessageBlackHole := mkMsg stg_MSG_BLACKHOLE_info END 24 40.
Definition start : sched :=
  mkSched {[ 8 := owner; 16 := thread 2 8 NotBlocked END; 24 := blocked ]}
    {[ 40 := thunk ]} ∅ {[ 56 := msg ]} ∅ 16 8 END END END {[ 1 := [16] ]} 64.

Lemma start_queue : run_queue start [16; 8].
Proof.
  split; [cbn|apply (bool_decide_unpack _); vm_compute; exact I].
  split_and!; try done. eexists. split; [done|]. split_and!; try done. eexists. split; done.
Qed.

Lemma start_off p t : tsos start !! p = Some t → p ∉ [16; 8] → tso_link t = END.
Proof.
  cbn. rewrite <- insert_empty, !lookup_insert, lookup_empty. repeat case_decide; intros [= <-] Hn;
    try done; exfalso; apply Hn; subst; set_solver.
Qed.
End Demo.

(** C23: The run queue refines a list of threads.  Start from a queue that holds
    the list [l] (doubly linked through [_link] and [block_info.prev], head and
    tail in the Capability) and run any sequence of appendToRunQueue,
    pushOnRunQueue, popRunQueue and removeFromRunQueue that the list
    specification admits: no assertion of the code fails, the threads popped are
    those of the specification in the same order, and the queue holds the
    resulting list. *)
Theorem runqueue_refines gen_no os s l l' rs :
  rq_inv s l → qops_spec os l = Some (l', rs) →
  (∀ o p, o ∈ os → qop_arg o = Some p → is_Some (tsos s !! p)) →
  ∃ s', qops_run gen_no os s = Ok (rs, s') ∧ rq_inv s' l'.
Proof.
  intros Hi Hs Hl. pose proof (qops_refine gen_no os s l l' rs Hi Hs Hl) as Hw.
  apply wp_run in Hw as (rs' & s' & E & -> & Hi'). eauto.
Qed.

Lemma runqueue_refines_witness :
  ∃ s', qops_run Demo.gen_no [OpPush 24; OpRemove 8; OpAppend 8; OpPop] Demo.start
          = Ok ([None; None; None; Some 24], s') ∧ rq_inv s' [16; 8].
Proof.
  apply (runqueue_refines Demo.gen_no _ _ [16; 8]).
  - split; [exact Demo.start_queue|exact Demo.start_off|done].
  - vm_compute. reflexivity.
  - intros o p. rewrite !elem_of_cons, elem_of_nil.
    intros [->|[->|[->|[->|[]]]]] [= <-]; vm_compute; eauto.
Defined.

(** C24: The generational write barrier is sound.  Whatever sequence of the
    operations below runs (queue operations, wake-ups, migration, black holes,
    thunk updates, throwTo queues), a thread in an old generation that points
    through [_link], [block_info], [bq] or [blocked_exceptions] to an object of
    a younger one is on the mutable list of its generation, where the collector
    finds it; and so is a thunk or black hole whose indirectee is younger. *)
Theorem write_barrier_sound gen_no os s s' p :
  gen_inv gen_no s → rts_runs gen_no os s = Ok (tt, s') → gen_no p ≠ 0 →
  (∃ t q, tsos s' !! p = Some t ∧ q ∈ [tso_link t; block_info t; tso_bq t; blocked_exceptions t] ∧
     q ≠ END ∧ gen_no q < gen_no p) ∨
  (∃ c, inds s' !! p = Some c ∧ indirectee c ≠ END ∧ gen_no (indirectee c) < gen_no p) →
  p ∈ default [] (mut_lists s' !! gen_no p).
Proof.
  intros Hi Hrun Hg Hyoung. pose proof (preserves_rts_runs gen_no os _ _ _ Hrun Hi) as [Ht Hc].
  destruct Hyoung as [(t & q & Hp & Hq & Hn & Hlt)|(c & Hp & Hn & Hlt)].
  - destruct (Ht p t Hp Hg) as [?|[_ Hcl]]; [done|]. destruct (Hcl q Hq) as [?|?]; [done|lia].
  - destruct (Hc p c Hp Hg) as [?|[?|?]]; [done|done|lia].
Qed.

(** The owner 16 of the black hole 48 is old, thread 24 blocks on it. *)
Definition demo_old : sched :=
  set_inds {[ 48 := mkInd stg_BLACKHOLE_info 16 ]} (set_msgs {[ 56 := mkMsg stg_MSG_BLACKHOLE_info END 24 48 ]}
    (set_mut ∅ (set_tsos (<[8 := Demo.thread 1 END NotBlocked END]> (<[16 := Demo.thread 2 END NotBlocked END]> (tsos Demo.start)))
      (set_hd 16 (set_tl 16 Demo.start))))).
Lemma write_barrier_sound_witness :
  ∃ s' t, rts_runs Demo.gen_no [MessageBH 56] demo_old = Ok (tt, s') ∧
    tsos s' !! 16 = Some t ∧ tso_bq t = 64 ∧ 16 ∈ default [] (mut_lists s' !! 1).
Proof.
  eexists _, _. split; [vm_compute; reflexivity|]. split; [vm_compute; reflexivity|].
  split; [reflexivity|].
  apply (write_barrier_sound Demo.gen_no [MessageBH 56] demo_old _ 16).
  - split; intros p x Hx Hg.
    + right. assert (p = 16) as ->; [revert Hg; unfold Demo.gen_no; destruct (p =? 16) eqn:E; lia|]. vm_compute in Hx. injection Hx as <-.
      split; [done|]. intros q. unfold tso_pointers. cbn. rewrite !elem_of_cons, elem_of_nil. intros [->|[->|[->|[->|[]]]]]; by left.
    + exfalso. revert Hx Hg. unfold Demo.gen_no. destruct (p =? 16) eqn:E; [|done]. apply Z.eqb_eq in E. by subst.
  - vm_compute. reflexivity.
  - done.
  - left. eexists _, 64. split; [vm_compute; reflexivity|]. cbn. split; [right; right; by left|done].
Defined.

(** Waking a thread is idempotent.  A thread that is due to be woken
    (blocked on a black hole, in STM, migrating, blocked on an MVar from whose
    queue it has been removed, or in a throwTo whose message has been performed)
    is appended to the run queue by [tryWakeupThread], and further wake-ups do
    not change the state: it is queued once. *)
Theorem tryWakeupThread_once gen_no s l p t :
  run_queue s l → p ∉ l → p ≠ END → tsos s !! p = Some t → tso_link t = END → wake_due s t →
  ∃ s', tryWakeupThread gen_no p s = Ok (tt, s') ∧ run_queue s' (l ++ [p]) ∧
        tryWakeupThread gen_no p s' = Ok (tt, s').
Proof.
  intros Hq Hp Hpe Ht Hl Hw. pose proof (wake_once_ok gen_no s l p t Hq Hp Hpe Ht Hl Hw) as H.
  apply wp_run in H as ([] & s' & E & Hq' & Hn). exists s'. split_and!; [done..|].
  by apply wake_NotBlocked.
Qed.

Lemma tryWakeupThread_once_witness :
  ∃ s', tryWakeupThread Demo.gen_no 24 Demo.start = Ok (tt, s') ∧ run_queue s' [16; 8; 24] ∧
        tryWakeupThread Demo.gen_no 24 s' = Ok (tt, s').
Proof.
  apply (tryWakeupThread_once Demo.gen_no Demo.start [16; 8] 24 Demo.blocked);
    [exact Demo.start_queue|set_solver|done..].
Defined.

(** C18: No wake-up is lost on a black hole.  Threads block on a thunk under
    evaluation, one after the other, each by sending a BLACKHOLE message;
    [messageBlackHole] answers that it stays blocked, hangs it on the thunk - the
    first on a new blocking queue, the others on that queue - and moves the owner
    to the front of the run queue.  When the owner is next popped and updates the
    thunk, all of them are made runnable at the end of the queue, the last to
    block first, and the thunk is the value's indirection. *)
Theorem blackhole_no_lost_wakeup gen_no thr s l1 l2 o bh ms v :
  before_blocking thr s l1 l2 o bh ms → bh ≠ v →
  wp (rs ← block_all gen_no ms;
      p ← popRunQueue;
      updateThunk gen_no p bh v;; mret (rs, p))
     (λ x s', x = (repeat 1 (length ms), o) ∧ run_queue s' (l1 ++ l2 ++ (thr <$> rev ms)) ∧
        inds s' !! bh = Some (mkInd stg_BLACKHOLE_info v) ∧
        ∀ m, m ∈ ms → why_blocked <$> tsos s' !! thr m = Some NotBlocked) s.
Proof. apply block_then_update. Qed.

(** Threads 24 and 32 are about to block on 40 with the messages 56 and 72. *)
Definition demo_two : sched :=
  set_tsos (<[32 := Demo.thread 4 END BlockedOnBlackHole 72]> (tsos Demo.start))
  (set_msgs {[ 56 := Demo.msg; 72 := mkMsg stg_MSG_BLACKHOLE_info END 32 40 ]} Demo.start).
Definition demo_thr (m : ptr) : ptr := if m =? 56 then 24 else 32.

Lemma blackhole_no_lost_wakeup_witness :
  wp (rs ← block_all Demo.gen_no [56; 72];
      p ← popRunQueue;
      updateThunk Demo.gen_no p 40 48;; mret (rs, p))
     (λ x s', x = ([1; 1], 8) ∧ run_queue s' [16; 32; 24] ∧
        inds s' !! 40 = Some (mkInd stg_BLACKHOLE_info 48) ∧
        ∀ m, m ∈ [56; 72] → why_blocked <$> tsos s' !! demo_thr m = Some NotBlocked) demo_two.
Proof.
  apply (blackhole_no_lost_wakeup Demo.gen_no demo_thr demo_two [16] [] 8 40 [56; 72] 48); [|done].
  constructor.
  - apply (run_queue_links Demo.start); [|done|done|exact Demo.start_queue].
    intros x. cbn [app]. rewrite !elem_of_cons, elem_of_nil. intros [->|[->|[]]]; done.
  - exists Demo.thunk. done.
  - done.
  - done.
  - split; apply (bool_decide_unpack _); vm_compute; exact I.
  - exists Demo.owner. split; [done|]. split; [done|].
    apply Forall_cons; split; [|apply Forall_cons; split; [|done]].
    + split_and!; [done|done|set_solver|by exists Demo.msg|]. by exists Demo.blocked.
    + split_and!; [done|done|set_solver|by eexists|]. by eexists.
Defined.

(** [wakeBlockingQueue] wakes every thread of the queue whose message has
    not been revoked, in queue order, at the end of the run queue, and retires
    the queue to an indirection; nothing else changes but queue links. *)
Theorem wakeBlockingQueue_wakes gen_no s l bq b ms :
  run_queue s l → bq_wakeable s l bq b ms →
  ∃ s', wakeBlockingQueue gen_no bq s = Ok (tt, s') ∧
    run_queue s' (l ++ msg_threads s ms) ∧
    wake_frame (msg_threads s ms) l (retire_bq bq b s) s'.
Proof.
  intros Hq Hb. pose proof (wakeBQ_ok gen_no s l bq b ms Hq Hb) as H.
  apply wp_run in H as ([] & s' & E & ?). eauto.
Qed.

(** Threads 24 and 32 are queued on the black hole; the message of 32 has been
    revoked. *)
Definition demo_bq : StgBlockingQueue := mkBQ stg_BLOCKING_QUEUE_DIRTY_info END 40 64 8.
Definition demo_waiting : sched :=
  set_tsos (<[32 := Demo.thread 4 END BlockedOnBlackHole 64]> (tsos Demo.start))
  (set_bqs {[ 72 := demo_bq ]}
  (set_msgs {[ 56 := Demo.msg; 64 := mkMsg stg_IND_info 56 32 40 ]} Demo.start)).

Lemma wakeBlockingQueue_wakes_witness :
  ∃ s', wakeBlockingQueue Demo.gen_no 72 demo_waiting = Ok (tt, s') ∧
    run_queue s' [16; 8; 24] ∧
    wake_frame [24] [16; 8] (retire_bq 72 demo_bq demo_waiting) s'.
Proof.
  apply (wakeBlockingQueue_wakes Demo.gen_no demo_waiting [16; 8] 72 demo_bq [64; 56]).
  - apply (run_queue_links Demo.start); [|done|done|exact Demo.start_queue].
    intros x. rewrite !elem_of_cons, elem_of_nil. intros [->|[->|[]]]; done.
  - constructor; [done|done| | | |].
    + split_and!; [done|done|]. eexists. split; [done|]. split_and!; [done|done|].
      eexists. by split.
    + intros x r. rewrite !elem_of_cons, elem_of_nil.
      intros [->|[->|[]]] [= <-]; [by left|by right].
    + apply (bool_decide_unpack _). vm_compute. exact I.
    + intros p ->%list_elem_of_singleton. split; [done|]. eexists. split; [vm_compute; reflexivity|].
      split; [done|]. by left.
Defined.

(** [removeThreadFromQueue] deletes exactly the thread from a singly
    linked queue, clears its link, and reports whether the head changed. *)
Theorem removeThreadFromQueue_deletes gen_no s hd l1 p l2 :
  slist (tso_nx s) hd (l1 ++ p :: l2) END →
  wp (removeThreadFromQueue gen_no hd p)
     (λ r s', slist (tso_nx s') r.1 (l1 ++ l2) END ∧ tso_nx s' p = Some END ∧
        r.2 = bool_decide (l1 = []) ∧ queue_frame (l1 ++ p :: l2) s s') s.
Proof. apply removeThreadFromQueue_ok. Qed.

Lemma removeThreadFromQueue_deletes_witness :
  wp (removeThreadFromQueue Demo.gen_no 16 8)
     (λ r s', slist (tso_nx s') r.1 [16] END ∧ tso_nx s' 8 = Some END ∧
        r.2 = false ∧ queue_frame [16; 8] Demo.start s') Demo.start.
Proof.
  apply (removeThreadFromQueue_deletes Demo.gen_no Demo.start 16 [16] 8 []).
  split; [done|]. split; [done|]. eexists. split; [done|]. split; [done|]. split; [done|].
  eexists. by split.
Defined.
