(* ===== verification/STM.v ===== *)
(** * Software transactional memory (rts/STM.c)

    The data structures of includes/rts/storage/Closures.h as heaps of typed
    objects, and every function of rts/STM.c, in the order of the source and for
    its three build configurations (STM_UNIPROC, STM_CG_LOCK, STM_FG_LOCKS).
    Threads are those of Threads.v, so that waking a waiter is the wake-up of
    rts/Threads.c.

    A function runs to its end without another processor's steps in between: a
    spin loop that finds its lock taken therefore never ends, which the model
    reports as [Diverges]; the compare-and-swap of the source is a test followed
    by a write.  SHAKE is not defined, so that [shake()] is false.  ASSERTs of
    a DEBUG build are kept. *)
From S2P Require Import Prelude DList Threads.
From stdpp Require Import list gmap.
Local Open Scope Z_scope.

(** ** Data *)

(** A [StgClosure *], with the type of the object it points to: what the code
    finds by looking at the info pointer.  [CValue] is any object of the Haskell
    program. *)
Inductive closure : Type :=
  | CValue (v : Z)
  | CTRec (p : ptr)
  | CTSO (p : ptr)
  | CInvariant (p : ptr)
  | CWatch (p : ptr).
#[export] Instance closure_eq : EqDecision closure.
Proof. solve_decision. Defined.

Definition TREC_CHUNK_NUM_ENTRIES : nat := 16.
Definition NO_TREC : ptr := END.
Definition END_STM_CHUNK_LIST : ptr := END.
Definition END_STM_WATCH_QUEUE : ptr := END.
Definition END_INVARIANT_CHECK_QUEUE : ptr := END.

Inductive TRecState : Type :=
  | TREC_ACTIVE | TREC_CONDEMNED | TREC_COMMITTED | TREC_ABORTED | TREC_WAITING.
#[export] Instance TRecState_eq : EqDecision TRecState.
Proof. solve_decision. Defined.

Record StgTVarWatchQueue : Type := mkWatch {
  wq_closure : closure;
  wq_next : ptr;
  wq_prev : ptr
}.

Definition wq_set_closure (x : closure) (q : StgTVarWatchQueue) : StgTVarWatchQueue :=
  mkWatch x (wq_next q) (wq_prev q).
Definition wq_set_next (x : ptr) (q : StgTVarWatchQueue) : StgTVarWatchQueue :=
  mkWatch (wq_closure q) x (wq_prev q).
Definition wq_set_prev (x : ptr) (q : StgTVarWatchQueue) : StgTVarWatchQueue :=
  mkWatch (wq_closure q) (wq_next q) x.

Record StgTVar : Type := mkTVar {
  current_value : closure;
  first_watch_queue_entry : ptr;
  num_updates : Z
}.

Definition tv_set_value (x : closure) (v : StgTVar) : StgTVar :=
  mkTVar x (first_watch_queue_entry v) (num_updates v).
Definition tv_set_first (x : ptr) (v : StgTVar) : StgTVar :=
  mkTVar (current_value v) x (num_updates v).
Definition tv_set_updates (x : Z) (v : StgTVar) : StgTVar :=
  mkTVar (current_value v) (first_watch_queue_entry v) x.

Record StgAtomicInvariant : Type := mkInv {
  inv_code : closure;
  last_execution : ptr;
  inv_lock : Z
}.

Definition inv_set_last (x : ptr) (i : StgAtomicInvariant) : StgAtomicInvariant :=
  mkInv (inv_code i) x (inv_lock i).
Definition inv_set_lock (x : Z) (i : StgAtomicInvariant) : StgAtomicInvariant :=
  mkInv (inv_code i) (last_execution i) x.

Record TRecEntry : Type := mkEntry {
  e_tvar : ptr;
  expected_value : closure;
  new_value : closure;
  e_num_updates : Z
}.

Definition e_set_expected (x : closure) (e : TRecEntry) : TRecEntry :=
  mkEntry (e_tvar e) x (new_value e) (e_num_updates e).
Definition e_set_new (x : closure) (e : TRecEntry) : TRecEntry :=
  mkEntry (e_tvar e) (expected_value e) x (e_num_updates e).
Definition e_set_updates (x : Z) (e : TRecEntry) : TRecEntry :=
  mkEntry (e_tvar e) (expected_value e) (new_value e) x.

(** [entries] has TREC_CHUNK_NUM_ENTRIES slots; [None] is a slot never written. *)
Record StgTRecChunk : Type := mkChunk {
  prev_chunk : ptr;
  next_entry_idx : nat;
  entries : list (option TRecEntry)
}.

Definition ch_set_prev (x : ptr) (c : StgTRecChunk) : StgTRecChunk :=
  mkChunk x (next_entry_idx c) (entries c).
Definition ch_set_next (x : nat) (c : StgTRecChunk) : StgTRecChunk :=
  mkChunk (prev_chunk c) x (entries c).
Definition ch_set_entries (x : list (option TRecEntry)) (c : StgTRecChunk) : StgTRecChunk :=
  mkChunk (prev_chunk c) (next_entry_idx c) x.

Record StgInvariantCheckQueue : Type := mkICQ {
  icq_invariant : ptr;
  my_execution : ptr;
  icq_next : ptr
}.

Definition icq_set_inv (x : ptr) (q : StgInvariantCheckQueue) : StgInvariantCheckQueue :=
  mkICQ x (my_execution q) (icq_next q).
Definition icq_set_exec (x : ptr) (q : StgInvariantCheckQueue) : StgInvariantCheckQueue :=
  mkICQ (icq_invariant q) x (icq_next q).
Definition icq_set_next (x : ptr) (q : StgInvariantCheckQueue) : StgInvariantCheckQueue :=
  mkICQ (icq_invariant q) (my_execution q) x.

Record StgTRecHeader : Type := mkTRec {
  trec_enclosing : ptr;
  current_chunk : ptr;
  invariants_to_check : ptr;
  state : TRecState
}.

Definition tr_set_enclosing (x : ptr) (t : StgTRecHeader) : StgTRecHeader :=
  mkTRec x (current_chunk t) (invariants_to_check t) (state t).
Definition tr_set_chunk (x : ptr) (t : StgTRecHeader) : StgTRecHeader :=
  mkTRec (trec_enclosing t) x (invariants_to_check t) (state t).
Definition tr_set_invs (x : ptr) (t : StgTRecHeader) : StgTRecHeader :=
  mkTRec (trec_enclosing t) (current_chunk t) x (state t).
Definition tr_set_state (x : TRecState) (t : StgTRecHeader) : StgTRecHeader :=
  mkTRec (trec_enclosing t) (current_chunk t) (invariants_to_check t) x.

(** The state: the STM objects of the heap, the Capability's free lists and
    tokens, the globals of rts/STM.c, and the threads with the allocator. *)
Record stm : Type := mkStm {
  sch : sched;
  tvars : gmap ptr StgTVar;
  watchqs : gmap ptr StgTVarWatchQueue;
  trecs : gmap ptr StgTRecHeader;
  chunks : gmap ptr StgTRecChunk;
  invs : gmap ptr StgAtomicInvariant;
  icqs : gmap ptr StgInvariantCheckQueue;
  free_tvar_watch_queues : ptr;
  free_invariant_check_queues : ptr;
  free_trec_chunks : ptr;
  free_trec_headers : ptr;
  transaction_tokens : Z;
  max_commits : Z;
  token_locked : bool;
  smp_locked : option ptr   (* STM_CG_LOCK only; None is NULL *)
}.

Definition set_sch (x : sched) (s : stm) : stm :=
  mkStm x (tvars s) (watchqs s) (trecs s) (chunks s) (invs s) (icqs s)
    (free_tvar_watch_queues s) (free_invariant_check_queues s) (free_trec_chunks s)
    (free_trec_headers s) (transaction_tokens s) (max_commits s) (token_locked s)
    (smp_locked s).
Definition set_tvars (x : gmap ptr StgTVar) (s : stm) : stm :=
  mkStm (sch s) x (watchqs s) (trecs s) (chunks s) (invs s) (icqs s)
    (free_tvar_watch_queues s) (free_invariant_check_queues s) (free_trec_chunks s)
    (free_trec_headers s) (transaction_tokens s) (max_commits s) (token_locked s)
    (smp_locked s).
Definition set_watchqs (x : gmap ptr StgTVarWatchQueue) (s : stm) : stm :=
  mkStm (sch s) (tvars s) x (trecs s) (chunks s) (invs s) (icqs s)
    (free_tvar_watch_queues s) (free_invariant_check_queues s) (free_trec_chunks s)
    (free_trec_headers s) (transaction_tokens s) (max_commits s) (token_locked s)
    (smp_locked s).
Definition set_trecs (x : gmap ptr StgTRecHeader) (s : stm) : stm :=
  mkStm (sch s) (tvars s) (watchqs s) x (chunks s) (invs s) (icqs s)
    (free_tvar_watch_queues s) (free_invariant_check_queues s) (free_trec_chunks s)
    (free_trec_headers s) (transaction_tokens s) (max_commits s) (token_locked s)
    (smp_locked s).
Definition set_chunks (x : gmap ptr StgTRecChunk) (s : stm) : stm :=
  mkStm (sch s) (tvars s) (watchqs s) (trecs s) x (invs s) (icqs s)
    (free_tvar_watch_queues s) (free_invariant_check_queues s) (free_trec_chunks s)
    (free_trec_headers s) (transaction_tokens s) (max_commits s) (token_locked s)
    (smp_locked s).
Definition set_invs (x : gmap ptr StgAtomicInvariant) (s : stm) : stm :=
  mkStm (sch s) (tvars s) (watchqs s) (trecs s) (chunks s) x (icqs s)
    (free_tvar_watch_queues s) (free_invariant_check_queues s) (free_trec_chunks s)
    (free_trec_headers s) (transaction_tokens s) (max_commits s) (token_locked s)
    (smp_locked s).
Definition set_icqs (x : gmap ptr StgInvariantCheckQueue) (s : stm) : stm :=
  mkStm (sch s) (tvars s) (watchqs s) (trecs s) (chunks s) (invs s) x
    (free_tvar_watch_queues s) (free_invariant_check_queues s) (free_trec_chunks s)
    (free_trec_headers s) (transaction_tokens s) (max_commits s) (token_locked s)
    (smp_locked s).
Definition set_free_wqs (x : ptr) (s : stm) : stm :=
  mkStm (sch s) (tvars s) (watchqs s) (trecs s) (chunks s) (invs s) (icqs s) x
    (free_invariant_check_queues s) (free_trec_chunks s) (free_trec_headers s)
    (transaction_tokens s) (max_commits s) (token_locked s) (smp_locked s).
Definition set_free_icqs (x : ptr) (s : stm) : stm :=
  mkStm (sch s) (tvars s) (watchqs s) (trecs s) (chunks s) (invs s) (icqs s)
    (free_tvar_watch_queues s) x (free_trec_chunks s) (free_trec_headers s)
    (transaction_tokens s) (max_commits s) (token_locked s) (smp_locked s).
Definition set_free_chunks (x : ptr) (s : stm) : stm :=
  mkStm (sch s) (tvars s) (watchqs s) (trecs s) (chunks s) (invs s) (icqs s)
    (free_tvar_watch_queues s) (free_invariant_check_queues s) x (free_trec_headers s)
    (transaction_tokens s) (max_commits s) (token_locked s) (smp_locked s).
Definition set_free_trecs (x : ptr) (s : stm) : stm :=
  mkStm (sch s) (tvars s) (watchqs s) (trecs s) (chunks s) (invs s) (icqs s)
    (free_tvar_watch_queues s) (free_invariant_check_queues s) (free_trec_chunks s) x
    (transaction_tokens s) (max_commits s) (token_locked s) (smp_locked s).
Definition set_tokens (x : Z) (s : stm) : stm :=
  mkStm (sch s) (tvars s) (watchqs s) (trecs s) (chunks s) (invs s) (icqs s)
    (free_tvar_watch_queues s) (free_invariant_check_queues s) (free_trec_chunks s)
    (free_trec_headers s) x (max_commits s) (token_locked s) (smp_locked s).
Definition set_commits (x : Z) (s : stm) : stm :=
  mkStm (sch s) (tvars s) (watchqs s) (trecs s) (chunks s) (invs s) (icqs s)
    (free_tvar_watch_queues s) (free_invariant_check_queues s) (free_trec_chunks s)
    (free_trec_headers s) (transaction_tokens s) x (token_locked s) (smp_locked s).
Definition set_token_lock (x : bool) (s : stm) : stm :=
  mkStm (sch s) (tvars s) (watchqs s) (trecs s) (chunks s) (invs s) (icqs s)
    (free_tvar_watch_queues s) (free_invariant_check_queues s) (free_trec_chunks s)
    (free_trec_headers s) (transaction_tokens s) (max_commits s) x (smp_locked s).
Definition set_smp (x : option ptr) (s : stm) : stm :=
  mkStm (sch s) (tvars s) (watchqs s) (trecs s) (chunks s) (invs s) (icqs s)
    (free_tvar_watch_queues s) (free_invariant_check_queues s) (free_trec_chunks s)
    (free_trec_headers s) (transaction_tokens s) (max_commits s) (token_locked s) x.

(** The build configuration (rts/STM.h). *)
Inductive stm_config : Type := STM_UNIPROC | STM_CG_LOCK | STM_FG_LOCKS.
#[export] Instance stm_config_eq : EqDecision stm_config.
Proof. solve_decision. Defined.

(** An operation of the thread layer. *)
Definition in_sched {A} (m : prog sched A) : prog stm A := λ s,
  match m (sch s) with
  | Ok (a, s') => Ok (a, set_sch s' s)
  | Err e => Err e
  end.

(** [p->field = ...] for each type of object *)
Definition upd {V} (f : stm → gmap ptr V) (set : gmap ptr V → stm → stm)
    (p : ptr) (g : V → V) : prog stm unit :=
  v ← load f p;
  modify (λ s, set (<[p := g v]> (f s)) s).
Definition upd_tvar := upd tvars set_tvars.
Definition upd_watchq := upd watchqs set_watchqs.
Definition upd_trec := upd trecs set_trecs.
Definition upd_chunk := upd chunks set_chunks.
Definition upd_inv := upd invs set_invs.
Definition upd_icq := upd icqs set_icqs.
Definition put {V} (f : stm → gmap ptr V) (set : gmap ptr V → stm → stm)
    (p : ptr) (v : V) : prog stm unit :=
  modify (λ s, set (<[p := v]> (f s)) s).

(** A pointer to an entry: [&(c -> entries[i])] *)
Definition eref : Type := ptr * nat.
Definition get_entry (r : eref) : prog stm TRecEntry :=
  c ← load chunks r.1;
  deref (mjoin (entries c !! r.2)).
Definition upd_entry (r : eref) (g : TRecEntry → TRecEntry) : prog stm unit :=
  e ← get_entry r;
  upd_chunk r.1 (λ c, ch_set_entries (<[r.2 := Some (g e)]> (entries c)) c).
(** The three writes that fill a fresh entry; [num_updates] keeps whatever the
    slot held. *)
Definition fill_entry (r : eref) (tvar : ptr) (expected new : closure) : prog stm unit :=
  c ← load chunks r.1;
  old ← deref (entries c !! r.2);
  let n := match old with Some e => e_num_updates e | None => 0 end in
  upd_chunk r.1 (λ c, ch_set_entries (<[r.2 := Some (mkEntry tvar expected new n)]> (entries c)) c).

Section loops.
Context {A : Type} (body : eref → A → prog stm (A * bool)).

(** The [for] of FOR_EACH_ENTRY over one chunk; the flag is BREAK_FOR_EACH. *)
Fixpoint for_slots (c : ptr) (js : list nat) (a : A) : prog stm (A * bool) :=
  match js with
  | [] => mret (a, false)
  | i :: js =>
    '(a, brk) ← body (c, i) a;
    if brk : bool then mret (a, true) else for_slots c js a
  end.

(** Its [while] over the chunks. *)
Fixpoint for_chunks (fuel : nat) (c : ptr) (limit : nat) (a : A) : prog stm A :=
  match fuel with
  | O => fail Diverges
  | S fuel =>
    if c =? END_STM_CHUNK_LIST then mret a
    else
      '(a, brk) ← for_slots c (seq 0 limit) a;
      if brk : bool then mret a
      else
        ch ← load chunks c;
        for_chunks fuel (prev_chunk ch) TREC_CHUNK_NUM_ENTRIES a
  end.

(** [FOR_EACH_ENTRY(t, e, body)]; the limit of the first chunk is read once. *)
Definition FOR_EACH_ENTRY (t : ptr) (a : A) : prog stm A :=
  h ← load trecs t;
  c ← load chunks (current_chunk h);
  s ← get;
  for_chunks (S (size (chunks s))) (current_chunk h) (next_entry_idx c) a.
End loops.

(** The plain loops of stmGetInvariantsToCheck and stmCommitTransaction, whose
    bound is each chunk's own [next_entry_idx], read at every step. *)
Fixpoint plain_loop (fuel : nat) (c : ptr) (i : nat) (body : eref → prog stm unit) : prog stm unit :=
  match fuel with
  | O => fail Diverges
  | S fuel =>
    if c =? END_STM_CHUNK_LIST then mret tt
    else
      ch ← load chunks c;
      if (i <? next_entry_idx ch)%nat then body (c, i);; plain_loop fuel c (S i) body
      else plain_loop fuel (prev_chunk ch) 0 body
  end.
Definition for_all_slots (c : ptr) (body : eref → prog stm unit) : prog stm unit :=
  s ← get;
  plain_loop (S (S TREC_CHUNK_NUM_ENTRIES * size (chunks s))) c 0 body.

Section ops.
Context (cfg : stm_config) (gen_no : ptr → Z) (n_capabilities : Z).

Definition config_use_read_phase : bool := bool_decide (cfg = STM_FG_LOCKS).
Definition THREADED_RTS : bool := negb (bool_decide (cfg = STM_UNIPROC)).
Definition ACQ_ASSERT (b : bool) : prog stm unit :=
  if decide (cfg = STM_FG_LOCKS) then ASSERT b else mret tt.
Definition NACQ_ASSERT (b : bool) : prog stm unit :=
  if decide (cfg = STM_FG_LOCKS) then mret tt else ASSERT b.

Definition is_trec (c : closure) : bool := match c with CTRec _ => true | _ => false end.

(** *** Locks *)

Definition lock_stm (trec : ptr) : prog stm unit :=
  match cfg with
  | STM_CG_LOCK =>
    l ← gets smp_locked;
    match l with
    | None => modify (set_smp (Some trec))
    | Some _ => fail Diverges
    end
  | _ => mret tt
  end.

Definition unlock_stm (trec : ptr) : prog stm unit :=
  match cfg with
  | STM_CG_LOCK =>
    l ← gets smp_locked;
    ASSERT (bool_decide (l = Some trec));;
    modify (set_smp None)
  | _ => mret tt
  end.

(** [ASSERT (smp_locked == trec)] *)
Definition assert_smp (trec : ptr) : prog stm unit :=
  l ← gets smp_locked;
  ASSERT (bool_decide (l = Some trec)).

Definition lock_tvar (trec s : ptr) : prog stm closure :=
  match cfg with
  | STM_UNIPROC => v ← load tvars s; mret (current_value v)
  | STM_CG_LOCK => assert_smp trec;; v ← load tvars s; mret (current_value v)
  | STM_FG_LOCKS =>
    v ← load tvars s;
    if is_trec (current_value v) then fail Diverges
    else upd_tvar s (tv_set_value (CTRec trec));; mret (current_value v)
  end.

Definition unlock_tvar (trec s : ptr) (c : closure) (force_update : bool) : prog stm unit :=
  match cfg with
  | STM_UNIPROC => when force_update (upd_tvar s (tv_set_value c))
  | STM_CG_LOCK => assert_smp trec;; when force_update (upd_tvar s (tv_set_value c))
  | STM_FG_LOCKS =>
    v ← load tvars s;
    ASSERT (bool_decide (current_value v = CTRec trec));;
    upd_tvar s (tv_set_value c)
  end.

Definition cond_lock_tvar (trec s : ptr) (expected : closure) : prog stm bool :=
  match cfg with
  | STM_UNIPROC => v ← load tvars s; mret (bool_decide (current_value v = expected))
  | STM_CG_LOCK =>
    assert_smp trec;; v ← load tvars s; mret (bool_decide (current_value v = expected))
  | STM_FG_LOCKS =>
    v ← load tvars s;
    when (bool_decide (current_value v = expected)) (upd_tvar s (tv_set_value (CTRec trec)));;
    mret (bool_decide (current_value v = expected))
  end.

Definition lock_inv (inv : ptr) : prog stm bool :=
  match cfg with
  | STM_FG_LOCKS =>
    i ← load invs inv;
    when (inv_lock i =? 0) (upd_inv inv (inv_set_lock 1));;
    mret (inv_lock i =? 0)
  | _ => mret true
  end.

Definition unlock_inv (inv : ptr) : prog stm unit :=
  match cfg with
  | STM_FG_LOCKS =>
    i ← load invs inv;
    ASSERT (inv_lock i =? 1);;
    upd_inv inv (inv_set_lock 0)
  | _ => mret tt
  end.

(** *** Watch queues *)

Definition watcher_is_tso (q : ptr) : prog stm bool :=
  w ← load watchqs q;
  mret (match wq_closure w with CTSO _ => true | _ => false end).

Definition watcher_is_invariant (q : ptr) : prog stm bool :=
  w ← load watchqs q;
  mret (match wq_closure w with CInvariant _ => true | _ => false end).

Definition park_tso (tso : ptr) : prog stm unit :=
  in_sched (
    t ← load tsos tso;
    ASSERT (bool_decide (why_blocked t = NotBlocked));;
    upd_tso tso (with_why BlockedOnSTM);;
    upd_tso tso (with_block END)).

(** [lockTSO] takes a lock only against other processors. *)
Definition unpark_tso (tso : ptr) : prog stm unit :=
  in_sched (
    t ← load tsos tso;
    if decide (why_blocked t = BlockedOnSTM) then tryWakeupThread gen_no tso else mret tt).

(** The first loop finds the last entry of the queue ... *)
Fixpoint watch_last (fuel : nat) (q trail : ptr) : prog stm ptr :=
  match fuel with
  | O => fail Diverges
  | S fuel =>
    if q =? END_STM_WATCH_QUEUE then mret trail
    else w ← load watchqs q; watch_last fuel (wq_next w) q
  end.
(** ... and the second goes back to the front. *)
Fixpoint unpark_back (fuel : nat) (q : ptr) : prog stm unit :=
  match fuel with
  | O => fail Diverges
  | S fuel =>
    if q =? END_STM_WATCH_QUEUE then mret tt
    else
      b ← watcher_is_tso q;
      when b (w ← load watchqs q;
              match wq_closure w with CTSO p => unpark_tso p | _ => fail BadPointer end);;
      w ← load watchqs q;
      unpark_back fuel (wq_prev w)
  end.
Definition unpark_waiters_on (s : ptr) : prog stm unit :=
  v ← load tvars s;
  st ← get;
  let q := first_watch_queue_entry v in
  q ← watch_last (S (size (watchqs st))) q q;
  unpark_back (S (size (watchqs st))) q.

(** *** Allocation *)

Definition alloc : prog stm ptr := in_sched allocate.

Definition new_stg_invariant_check_queue (invariant : ptr) : prog stm ptr :=
  result ← alloc;
  put icqs set_icqs result (mkICQ invariant NO_TREC END);;
  mret result.

Definition new_stg_tvar_watch_queue (closure : closure) : prog stm ptr :=
  result ← alloc;
  put watchqs set_watchqs result (mkWatch closure END END);;
  mret result.

Definition new_stg_trec_chunk : prog stm ptr :=
  result ← alloc;
  put chunks set_chunks result
    (mkChunk END_STM_CHUNK_LIST 0 (replicate TREC_CHUNK_NUM_ENTRIES None));;
  mret result.

(** The state of a new header. *)
Definition initial_state (enclosing_trec : ptr) : prog stm TRecState :=
  if enclosing_trec =? NO_TREC then mret TREC_ACTIVE
  else
    e ← load trecs enclosing_trec;
    ASSERT (bool_decide (state e = TREC_ACTIVE ∨ state e = TREC_CONDEMNED));;
    mret (state e).

Definition new_stg_trec_header (enclosing_trec : ptr) : prog stm ptr :=
  result ← alloc;
  c ← new_stg_trec_chunk;
  st ← initial_state enclosing_trec;
  put trecs set_trecs result (mkTRec enclosing_trec c END_INVARIANT_CHECK_QUEUE st);;
  mret result.

Definition alloc_stg_invariant_check_queue (invariant : ptr) : prog stm ptr :=
  f ← gets free_invariant_check_queues;
  if f =? END_INVARIANT_CHECK_QUEUE then new_stg_invariant_check_queue invariant
  else
    let result := f in
    upd_icq result (λ q, icq_set_exec NO_TREC (icq_set_inv invariant q));;
    q ← load icqs result;
    modify (set_free_icqs (icq_next q));;
    mret result.

Definition alloc_stg_tvar_watch_queue (closure : closure) : prog stm ptr :=
  f ← gets free_tvar_watch_queues;
  if f =? END_STM_WATCH_QUEUE then new_stg_tvar_watch_queue closure
  else
    let result := f in
    upd_watchq result (wq_set_closure closure);;
    q ← load watchqs result;
    modify (set_free_wqs (wq_next q));;
    mret result.

Definition free_stg_tvar_watch_queue (wq : ptr) : prog stm unit :=
  f ← gets free_tvar_watch_queues;
  upd_watchq wq (wq_set_next f);;
  modify (set_free_wqs wq).

Definition alloc_stg_trec_chunk : prog stm ptr :=
  f ← gets free_trec_chunks;
  if f =? END_STM_CHUNK_LIST then new_stg_trec_chunk
  else
    let result := f in
    c ← load chunks result;
    modify (set_free_chunks (prev_chunk c));;
    upd_chunk result (λ c, ch_set_next 0 (ch_set_prev END_STM_CHUNK_LIST c));;
    mret result.

Definition free_stg_trec_chunk (c : ptr) : prog stm unit :=
  f ← gets free_trec_chunks;
  upd_chunk c (ch_set_prev f);;
  modify (set_free_chunks c).

Definition alloc_stg_trec_header (enclosing_trec : ptr) : prog stm ptr :=
  f ← gets free_trec_headers;
  if f =? NO_TREC then new_stg_trec_header enclosing_trec
  else
    let result := f in
    h ← load trecs result;
    modify (set_free_trecs (trec_enclosing h));;
    upd_trec result (tr_set_enclosing enclosing_trec);;
    upd_chunk (current_chunk h) (ch_set_next 0);;
    upd_trec result (tr_set_invs END_INVARIANT_CHECK_QUEUE);;
    st ← initial_state enclosing_trec;
    upd_trec result (tr_set_state st);;
    mret result.

(** The loop of [free_stg_trec_header] over the older chunks. *)
Fixpoint free_chunks_loop (fuel : nat) (chunk : ptr) : prog stm unit :=
  match fuel with
  | O => fail Diverges
  | S fuel =>
    if chunk =? END_STM_CHUNK_LIST then mret tt
    else
      c ← load chunks chunk;
      free_stg_trec_chunk chunk;;
      free_chunks_loop fuel (prev_chunk c)
  end.

Definition free_stg_trec_header (trec : ptr) : prog stm unit :=
  h ← load trecs trec;
  c ← load chunks (current_chunk h);
  s ← get;
  free_chunks_loop (S (size (chunks s))) (prev_chunk c);;
  upd_chunk (current_chunk h) (ch_set_prev END_STM_CHUNK_LIST);;
  f ← gets free_trec_headers;
  upd_trec trec (tr_set_enclosing f);;
  modify (set_free_trecs trec).

(** *** Watch-queue entries of a transaction *)

(** Push a new entry at the front of the watch queue of [s]. *)
Definition push_watch (s q : ptr) : prog stm unit :=
  v ← load tvars s;
  let fq := first_watch_queue_entry v in
  upd_watchq q (wq_set_next fq);;
  upd_watchq q (wq_set_prev END_STM_WATCH_QUEUE);;
  when (negb (fq =? END_STM_WATCH_QUEUE)) (upd_watchq fq (wq_set_prev q));;
  upd_tvar s (tv_set_first q).

(** Unlink the entry [q] from the watch queue of [s], and free it. *)
Definition unlink_watch (s q : ptr) : prog stm unit :=
  w ← load watchqs q;
  let nq := wq_next w in
  let pq := wq_prev w in
  when (negb (nq =? END_STM_WATCH_QUEUE)) (upd_watchq nq (wq_set_prev pq));;
  (if negb (pq =? END_STM_WATCH_QUEUE) then upd_watchq pq (wq_set_next nq)
   else
     v ← load tvars s;
     ASSERT (first_watch_queue_entry v =? q);;
     upd_tvar s (tv_set_first nq));;
  free_stg_tvar_watch_queue q.

Definition build_watch_queue_entries_for_trec (tso trec : ptr) : prog stm unit :=
  ASSERT (negb (trec =? NO_TREC));;
  h ← load trecs trec;
  ASSERT (trec_enclosing h =? NO_TREC);;
  ASSERT (bool_decide (state h = TREC_ACTIVE));;
  FOR_EACH_ENTRY (λ e _,
    en ← get_entry e;
    let s := e_tvar en in
    v ← load tvars s;
    ACQ_ASSERT (bool_decide (current_value v = CTRec trec));;
    NACQ_ASSERT (bool_decide (current_value v = expected_value en));;
    q ← alloc_stg_tvar_watch_queue (CTSO tso);
    push_watch s q;;
    upd_entry e (e_set_new (CWatch q));;
    mret (tt, false)) trec tt.

Definition remove_watch_queue_entries_for_trec (trec : ptr) : prog stm unit :=
  ASSERT (negb (trec =? NO_TREC));;
  h ← load trecs trec;
  ASSERT (trec_enclosing h =? NO_TREC);;
  ASSERT (bool_decide (state h = TREC_WAITING ∨ state h = TREC_CONDEMNED));;
  FOR_EACH_ENTRY (λ e _,
    en ← get_entry e;
    let s := e_tvar en in
    saw ← lock_tvar trec s;
    v ← load tvars s;
    match new_value en with
    | CWatch q =>
      ACQ_ASSERT (bool_decide (current_value v = CTRec trec));;
      unlink_watch s q;;
      unlock_tvar trec s saw false;;
      mret (tt, false)
    | _ => fail BadPointer
    end) trec tt.

(** *** Entries *)

Definition get_new_entry (t : ptr) : prog stm eref :=
  h ← load trecs t;
  let c := current_chunk h in
  ch ← load chunks c;
  let i := next_entry_idx ch in
  ASSERT (negb (c =? END_STM_CHUNK_LIST));;
  if (i <? TREC_CHUNK_NUM_ENTRIES)%nat
  then upd_chunk c (ch_set_next (S i));; mret (c, i)
  else
    nc ← alloc_stg_trec_chunk;
    upd_chunk nc (λ x, ch_set_next 1 (ch_set_prev c x));;
    upd_trec t (tr_set_chunk nc);;
    mret (nc, 0%nat).

(** The search of the merges: has [tvar] an entry; an inconsistent one
    condemns the transaction, and [f] updates the entry found. *)
Definition merge_find (t tvar : ptr) (expected : closure)
    (f : TRecEntry → TRecEntry) : prog stm bool :=
  FOR_EACH_ENTRY (λ e (found : bool),
    en ← get_entry e;
    if e_tvar en =? tvar then
      when (negb (bool_decide (expected_value en = expected)))
        (upd_trec t (tr_set_state TREC_CONDEMNED));;
      upd_entry e f;;
      mret (true, true)
    else mret (found, false)) t false.

Definition merge_update_into (t tvar : ptr) (expected new : closure) : prog stm unit :=
  found ← merge_find t tvar expected (e_set_new new);
  when (negb found) (ne ← get_new_entry t; fill_entry ne tvar expected new).

Definition merge_read_into (t tvar : ptr) (expected : closure) : prog stm unit :=
  found ← merge_find t tvar expected id;
  when (negb found) (ne ← get_new_entry t; fill_entry ne tvar expected expected).

(** *** Validation *)

Definition entry_is_update (e : TRecEntry) : bool :=
  negb (bool_decide (expected_value e = new_value e)).
Definition entry_is_read_only (e : TRecEntry) : bool :=
  bool_decide (expected_value e = new_value e).

Definition tvar_is_locked (s h : ptr) : prog stm bool :=
  v ← load tvars s;
  mret (bool_decide (current_value v = CTRec h)).

Definition revert_ownership (trec : ptr) (revert_all : bool) : prog stm unit :=
  if decide (cfg = STM_FG_LOCKS) then
    FOR_EACH_ENTRY (λ e _,
      en ← get_entry e;
      when (revert_all || entry_is_update en)
        (b ← tvar_is_locked (e_tvar en) trec;
         when b (unlock_tvar trec (e_tvar en) (expected_value en) true));;
      mret (tt, false)) trec tt
  else mret tt.

Definition validate_and_acquire_ownership (trec : ptr)
    (acquire_all retain_ownership : bool) : prog stm bool :=
  h ← load trecs trec;
  ASSERT (bool_decide (state h = TREC_ACTIVE ∨ state h = TREC_WAITING ∨
                       state h = TREC_CONDEMNED));;
  let result := negb (bool_decide (state h = TREC_CONDEMNED)) in
  result ←
    (if result then
       FOR_EACH_ENTRY (λ e (result : bool),
         en ← get_entry e;
         let s := e_tvar en in
         if acquire_all || entry_is_update en then
           b ← cond_lock_tvar trec s (expected_value en);
           if negb b then mret (false, true) else mret (result, false)
         else
           ASSERT config_use_read_phase;;
           v ← load tvars s;
           if negb (bool_decide (current_value v = expected_value en)) then mret (false, true)
           else
             upd_entry e (e_set_updates (num_updates v));;
             v ← load tvars s;
             if negb (bool_decide (current_value v = expected_value en)) then mret (false, true)
             else mret (result, false)) trec result
     else mret result);
  when (negb result || negb retain_ownership) (revert_ownership trec acquire_all);;
  mret result.

Definition check_read_only (trec : ptr) : prog stm bool :=
  ASSERT config_use_read_phase;;
  if decide (cfg = STM_FG_LOCKS) then
    FOR_EACH_ENTRY (λ e (result : bool),
      en ← get_entry e;
      if entry_is_read_only en then
        v ← load tvars (e_tvar en);
        if negb (num_updates v =? e_num_updates en) then mret (false, true)
        else mret (result, false)
      else mret (result, false)) trec true
  else mret true.

Definition stmPreGCHook : prog stm unit :=
  lock_stm NO_TREC;;
  modify (set_free_wqs END_STM_WATCH_QUEUE);;
  modify (set_free_chunks END_STM_CHUNK_LIST);;
  modify (set_free_trecs NO_TREC);;
  unlock_stm NO_TREC.

(** *** Tokens *)

Definition TOKEN_BATCH_SIZE : Z := 1024.

Definition getTokenBatch : prog stm unit :=
  l ← gets token_locked;
  if l : bool then fail Diverges
  else
    modify (set_token_lock true);;
    modify (λ s, set_commits (wrapS 64 (max_commits s + TOKEN_BATCH_SIZE)) s);;
    modify (set_tokens TOKEN_BATCH_SIZE);;
    modify (set_token_lock false).

Definition getToken : prog stm unit :=
  when THREADED_RTS
    (n ← gets transaction_tokens;
     when (n =? 0) getTokenBatch;;
     modify (λ s, set_tokens (transaction_tokens s - 1) s)).

(** *** Transactions *)

Definition stmStartTransaction (outer : ptr) : prog stm ptr :=
  getToken;;
  alloc_stg_trec_header outer.

(** [ASSERT (trec != NO_TREC)] and the three states *)
Definition assert_in_progress (trec : ptr) : prog stm StgTRecHeader :=
  ASSERT (negb (trec =? NO_TREC));;
  h ← load trecs trec;
  ASSERT (bool_decide (state h = TREC_ACTIVE ∨ state h = TREC_WAITING ∨
                       state h = TREC_CONDEMNED));;
  mret h.
(** ... and the two of a transaction that is not waiting. *)
Definition assert_running (trec : ptr) : prog stm StgTRecHeader :=
  ASSERT (negb (trec =? NO_TREC));;
  h ← load trecs trec;
  ASSERT (bool_decide (state h = TREC_ACTIVE ∨ state h = TREC_CONDEMNED));;
  mret h.

Definition stmAbortTransaction (trec : ptr) : prog stm unit :=
  h ← assert_in_progress trec;
  lock_stm trec;;
  let et := trec_enclosing h in
  (if et =? NO_TREC then
     if decide (state h = TREC_WAITING)
     then remove_watch_queue_entries_for_trec trec
     else mret tt
   else
     FOR_EACH_ENTRY (λ e _,
       en ← get_entry e;
       merge_read_into et (e_tvar en) (expected_value en);;
       mret (tt, false)) trec tt);;
  upd_trec trec (tr_set_state TREC_ABORTED);;
  unlock_stm trec.

Definition stmFreeAbortedTRec (trec : ptr) : prog stm unit :=
  ASSERT (negb (trec =? NO_TREC));;
  h ← load trecs trec;
  ASSERT (bool_decide (state h = TREC_CONDEMNED ∨ state h = TREC_ABORTED));;
  free_stg_trec_header trec.

Definition stmCondemnTransaction (trec : ptr) : prog stm unit :=
  h ← assert_in_progress trec;
  lock_stm trec;;
  (if decide (state h = TREC_WAITING) then
     ASSERT (trec_enclosing h =? NO_TREC);;
     remove_watch_queue_entries_for_trec trec
   else mret tt);;
  upd_trec trec (tr_set_state TREC_CONDEMNED);;
  unlock_stm trec.

(** [result &= ...] over the nest; the conjunction does not short-cut. *)
Fixpoint validate_nest (fuel : nat) (t : ptr) (result : bool) : prog stm bool :=
  match fuel with
  | O => fail Diverges
  | S fuel =>
    if t =? NO_TREC then mret result
    else
      r ← validate_and_acquire_ownership t true false;
      h ← load trecs t;
      validate_nest fuel (trec_enclosing h) (result && r)
  end.

Definition stmValidateNestOfTransactions (trec : ptr) : prog stm bool :=
  _ ← assert_in_progress trec;
  lock_stm trec;;
  s ← get;
  result ← validate_nest (S (size (trecs s))) trec true;
  h ← load trecs trec;
  when (negb result && negb (bool_decide (state h = TREC_WAITING)))
    (upd_trec trec (tr_set_state TREC_CONDEMNED));;
  unlock_stm trec;;
  mret result.

(** [get_entry_for(trec, tvar, &in)]: the entry and the transaction it is in *)
Fixpoint entry_loop (fuel : nat) (trec tvar : ptr) : prog stm (option (eref * ptr)) :=
  match fuel with
  | O => fail Diverges
  | S fuel =>
    r ← FOR_EACH_ENTRY (λ e r,
          en ← get_entry e;
          if e_tvar en =? tvar then mret (Some (e, trec), true) else mret (r, false))
        trec (None : option (eref * ptr));
    h ← load trecs trec;
    match r with
    | Some _ => mret r
    | None => if trec_enclosing h =? NO_TREC then mret None
              else entry_loop fuel (trec_enclosing h) tvar
    end
  end.
Definition get_entry_for (trec tvar : ptr) : prog stm (option (eref * ptr)) :=
  ASSERT (negb (trec =? NO_TREC));;
  s ← get;
  entry_loop (S (size (trecs s))) trec tvar.

(** *** Data invariants *)

(** The search of [disconnect_invariant] in the watch queue of [s]; the end of
    the queue is the failure of [ASSERT(found)]. *)
Fixpoint find_watch (fuel : nat) (q : ptr) (c : closure) : prog stm (option ptr) :=
  match fuel with
  | O => fail Diverges
  | S fuel =>
    if q =? END_STM_WATCH_QUEUE then mret None
    else
      w ← load watchqs q;
      if decide (wq_closure w = c) then mret (Some q) else find_watch fuel (wq_next w) c
  end.

Definition disconnect_invariant (inv : ptr) : prog stm unit :=
  i ← load invs inv;
  FOR_EACH_ENTRY (λ e _,
    en ← get_entry e;
    let s := e_tvar en in
    v ← load tvars s;
    st ← get;
    r ← find_watch (S (size (watchqs st))) (first_watch_queue_entry v) (CInvariant inv);
    match r with
    | Some q => unlink_watch s q;; mret (tt, false)
    | None => fail AssertFailed
    end) (last_execution i) tt;;
  upd_inv inv (inv_set_last NO_TREC).

Definition connect_invariant_to_trec (inv my_execution : ptr) : prog stm unit :=
  i ← load invs inv;
  ASSERT (last_execution i =? NO_TREC);;
  FOR_EACH_ENTRY (λ e _,
    en ← get_entry e;
    let s := e_tvar en in
    q ← alloc_stg_tvar_watch_queue (CInvariant inv);
    v ← load tvars s;
    h ← load trecs my_execution;
    r ← get_entry_for (trec_enclosing h) s;
    match r with
    | Some (r, _) =>
      entry ← get_entry r;
      upd_entry e (e_set_expected (new_value entry));;
      upd_entry e (e_set_new (new_value entry))
    | None => mret tt
    end;;
    push_watch s q;;
    mret (tt, false)) my_execution tt;;
  upd_inv inv (inv_set_last my_execution).

Definition stmAddInvariantToCheck (trec : ptr) (code : closure) : prog stm unit :=
  _ ← assert_running trec;
  invariant ← alloc;
  put invs set_invs invariant (mkInv code NO_TREC 0);;
  q ← alloc_stg_invariant_check_queue invariant;
  upd_icq q (icq_set_inv invariant);;
  upd_icq q (icq_set_exec NO_TREC);;
  h ← load trecs trec;
  upd_icq q (icq_set_next (invariants_to_check h));;
  upd_trec trec (tr_set_invs q).

(** Is the invariant already on the list? *)
Fixpoint find_icq (fuel : nat) (q2 inv : ptr) : prog stm bool :=
  match fuel with
  | O => fail Diverges
  | S fuel =>
    if q2 =? END_INVARIANT_CHECK_QUEUE then mret false
    else
      i ← load icqs q2;
      if icq_invariant i =? inv then mret true else find_icq fuel (icq_next i) inv
  end.

(** The loop of [stmGetInvariantsToCheck] over a watch queue. *)
Fixpoint touch_invariants (fuel : nat) (trec q : ptr) : prog stm unit :=
  match fuel with
  | O => fail Diverges
  | S fuel =>
    if q =? END_STM_WATCH_QUEUE then mret tt
    else
      w ← load watchqs q;
      match wq_closure w with
      | CInvariant inv =>
        h ← load trecs trec;
        st ← get;
        found ← find_icq (S (size (icqs st))) (invariants_to_check h) inv;
        when (negb found)
          (q3 ← alloc_stg_invariant_check_queue inv;
           h ← load trecs trec;
           upd_icq q3 (icq_set_next (invariants_to_check h));;
           upd_trec trec (tr_set_invs q3))
      | _ => mret tt
      end;;
      w ← load watchqs q;
      touch_invariants fuel trec (wq_next w)
  end.

Definition stmGetInvariantsToCheck (trec : ptr) : prog stm ptr :=
  h ← assert_in_progress trec;
  ASSERT (trec_enclosing h =? NO_TREC);;
  lock_stm trec;;
  for_all_slots (current_chunk h) (λ e,
    en ← get_entry e;
    when (entry_is_update en)
      (let s := e_tvar en in
       old ← lock_tvar trec s;
       v ← load tvars s;
       st ← get;
       touch_invariants (S (size (watchqs st))) trec (first_watch_queue_entry v);;
       unlock_tvar trec s old false));;
  unlock_stm trec;;
  h ← load trecs trec;
  mret (invariants_to_check h).

(** *** Commit *)

(** Step (i) and (ii) for the invariants touched: lock them, and add their
    read sets to ours. *)
Fixpoint lock_invariants (fuel : nat) (trec q : ptr) : prog stm unit :=
  match fuel with
  | O => fail Diverges
  | S fuel =>
    if q =? END_INVARIANT_CHECK_QUEUE then mret tt
    else
      i ← load icqs q;
      let inv := icq_invariant i in
      b ← lock_inv inv;
      if negb b then upd_trec trec (tr_set_state TREC_CONDEMNED)
      else
        v ← load invs inv;
        (if negb (last_execution v =? NO_TREC) then
           h ← load trecs (last_execution v);
           for_all_slots (current_chunk h) (λ e,
             en ← get_entry e;
             merge_read_into trec (e_tvar en) (expected_value en))
         else mret tt);;
        i ← load icqs q;
        lock_invariants fuel trec (icq_next i)
  end.

(** Unhook the invariants from their old read sets, hook them to the new. *)
Fixpoint rehook_invariants (fuel : nat) (q : ptr) : prog stm unit :=
  match fuel with
  | O => fail Diverges
  | S fuel =>
    if q =? END_INVARIANT_CHECK_QUEUE then mret tt
    else
      i ← load icqs q;
      let inv := icq_invariant i in
      v ← load invs inv;
      when (negb (last_execution v =? NO_TREC)) (disconnect_invariant inv);;
      connect_invariant_to_trec inv (my_execution i);;
      unlock_inv inv;;
      i ← load icqs q;
      rehook_invariants fuel (icq_next i)
  end.

(** The read phase: no version changed, and not so many commits have run
    meanwhile that a version number could have wrapped around. *)
Definition read_phase (trec : ptr) (max_commits_at_start : Z) : prog stm bool :=
  result ← check_read_only trec;
  max_commits_at_end ← gets max_commits;
  let max_concurrent_commits := wrapS 64 (wrapS 64 (max_commits_at_end - max_commits_at_start)
        + wrapU 32 (n_capabilities * TOKEN_BATCH_SIZE)) in
  mret (if 0 <? Z.shiftr max_concurrent_commits 32 then false else result).

(** Make the updates, waking the threads that wait for them. *)
Definition write_updates (trec : ptr) (use_read_phase : bool) : prog stm unit :=
  FOR_EACH_ENTRY (λ e _,
    en ← get_entry e;
    let s := e_tvar en in
    when (negb use_read_phase || negb (bool_decide (new_value en = expected_value en)))
      (b ← tvar_is_locked s trec;
       ACQ_ASSERT b;;
       unpark_waiters_on s;;
       when (bool_decide (cfg = STM_FG_LOCKS))
         (upd_tvar s (λ v, tv_set_updates (wrapS 64 (num_updates v + 1)) v));;
       unlock_tvar trec s (new_value en) true);;
    b ← tvar_is_locked s trec;
    ACQ_ASSERT (negb b);;
    mret (tt, false)) trec tt.

Definition stmCommitTransaction (trec : ptr) : prog stm bool :=
  max_commits_at_start ← gets max_commits;
  ASSERT (negb (trec =? NO_TREC));;
  lock_stm trec;;
  h ← load trecs trec;
  ASSERT (trec_enclosing h =? NO_TREC);;
  ASSERT (bool_decide (state h = TREC_ACTIVE ∨ state h = TREC_CONDEMNED));;
  let q := invariants_to_check h in
  let touched_invariants := negb (q =? END_INVARIANT_CHECK_QUEUE) in
  s ← get;
  when touched_invariants (lock_invariants (S (size (icqs s))) trec q);;
  let use_read_phase := config_use_read_phase && negb touched_invariants in
  result ← validate_and_acquire_ownership trec (negb use_read_phase) true;
  result ←
    (if result : bool then
       h ← load trecs trec;
       ASSERT (bool_decide (state h = TREC_ACTIVE));;
       result ← (if use_read_phase then read_phase trec max_commits_at_start else mret true);
       if result : bool then
         s ← get;
         h ← load trecs trec;
         when touched_invariants (rehook_invariants (S (size (icqs s))) (invariants_to_check h));;
         write_updates trec use_read_phase;;
         mret true
       else revert_ownership trec false;; mret false
     else mret false);
  unlock_stm trec;;
  free_stg_trec_header trec;;
  mret result.

Definition stmCommitNestedTransaction (trec : ptr) : prog stm bool :=
  ASSERT (negb (trec =? NO_TREC));;
  h ← load trecs trec;
  ASSERT (negb (trec_enclosing h =? NO_TREC));;
  ASSERT (bool_decide (state h = TREC_ACTIVE ∨ state h = TREC_CONDEMNED));;
  lock_stm trec;;
  let et := trec_enclosing h in
  result ← validate_and_acquire_ownership trec (negb config_use_read_phase) true;
  result ←
    (if result : bool then
       result ← (if config_use_read_phase then check_read_only trec else mret true);
       if result : bool then
         FOR_EACH_ENTRY (λ e _,
           en ← get_entry e;
           let s := e_tvar en in
           when (entry_is_update en) (unlock_tvar trec s (expected_value en) false);;
           merge_update_into et s (expected_value en) (new_value en);;
           b ← tvar_is_locked s trec;
           ACQ_ASSERT (negb b);;
           mret (tt, false)) trec tt;;
         mret true
       else revert_ownership trec false;; mret false
     else mret false);
  unlock_stm trec;;
  free_stg_trec_header trec;;
  mret result.

(** *** Waiting *)

Definition stmWait (tso trec : ptr) : prog stm bool :=
  h ← assert_running trec;
  ASSERT (trec_enclosing h =? NO_TREC);;
  lock_stm trec;;
  result ← validate_and_acquire_ownership trec true true;
  (if result : bool then
     build_watch_queue_entries_for_trec tso trec;;
     park_tso tso;;
     upd_trec trec (tr_set_state TREC_WAITING)
   else
     unlock_stm trec;;
     free_stg_trec_header trec);;
  mret result.

Definition stmWaitUnlock (trec : ptr) : prog stm unit :=
  revert_ownership trec true;;
  unlock_stm trec.

Definition stmReWait (tso : ptr) : prog stm bool :=
  t ← in_sched (load tsos tso);
  let trec := tso_trec t in
  ASSERT (negb (trec =? NO_TREC));;
  h ← load trecs trec;
  ASSERT (trec_enclosing h =? NO_TREC);;
  ASSERT (bool_decide (state h = TREC_WAITING ∨ state h = TREC_CONDEMNED));;
  lock_stm trec;;
  result ← validate_and_acquire_ownership trec true true;
  (if result : bool then
     h ← load trecs trec;
     ASSERT (bool_decide (state h = TREC_WAITING));;
     park_tso tso;;
     revert_ownership trec true
   else
     h ← load trecs trec;
     (if decide (state h = TREC_CONDEMNED) then mret tt
      else remove_watch_queue_entries_for_trec trec);;
     free_stg_trec_header trec);;
  unlock_stm trec;;
  mret result.

(** *** TVars *)

Definition read_current_value (trec tvar : ptr) : prog stm closure :=
  v ← load tvars tvar;
  if bool_decide (cfg = STM_FG_LOCKS) && is_trec (current_value v)
  then fail Diverges
  else mret (current_value v).

Definition stmReadTVar (trec tvar : ptr) : prog stm closure :=
  _ ← assert_running trec;
  r ← get_entry_for trec tvar;
  match r with
  | Some (r, entry_in) =>
    entry ← get_entry r;
    if entry_in =? trec then mret (new_value entry)
    else
      new_entry ← get_new_entry trec;
      fill_entry new_entry tvar (expected_value entry) (new_value entry);;
      mret (new_value entry)
  | None =>
    current_value ← read_current_value trec tvar;
    new_entry ← get_new_entry trec;
    fill_entry new_entry tvar current_value current_value;;
    mret current_value
  end.

Definition stmWriteTVar (trec tvar : ptr) (new_value : closure) : prog stm unit :=
  _ ← assert_running trec;
  r ← get_entry_for trec tvar;
  match r with
  | Some (r, entry_in) =>
    if entry_in =? trec then upd_entry r (e_set_new new_value)
    else
      entry ← get_entry r;
      new_entry ← get_new_entry trec;
      fill_entry new_entry tvar (expected_value entry) new_value
  | None =>
    current_value ← read_current_value trec tvar;
    new_entry ← get_new_entry trec;
    fill_entry new_entry tvar current_value new_value
  end.

Definition stmNewTVar (new_value : closure) : prog stm ptr :=
  result ← alloc;
  put tvars set_tvars result (mkTVar new_value END_STM_WATCH_QUEUE 0);;
  mret result.
End ops.
