(* ===== verification/STMLog.v ===== *)
(** * Transaction logs

    A transaction record as the list of its entries: the reading of
    FOR_EACH_ENTRY over the chunks of a log, and the specifications of the
    operations that search and extend one ([get_entry_for], [get_new_entry],
    [merge_read_into], [merge_update_into]). *)
From S2P Require Import Prelude DList Threads STM.
From stdpp Require Import list gmap.
Local Open Scope Z_scope.

Definition chunk_prev (s : stm) (c : ptr) : option ptr := prev_chunk <$> chunks s !! c.

Definition entry_at (s : stm) (r : eref) : option TRecEntry :=
  c ← chunks s !! r.1; mjoin (entries c !! r.2).

(** The entries of a chunk list, in the order FOR_EACH_ENTRY visits them: [n] of
    the newest chunk, all of the others. *)
Definition slots (c : ptr) (n : nat) : list eref := (λ i, (c, i)) <$> seq 0 n.
#[global] Arguments slots : simpl never.
#[global] Arguments TREC_CHUNK_NUM_ENTRIES : simpl never.
Definition refs_of (cs : list ptr) (n : nat) : list eref :=
  match cs with
  | [] => []
  | c :: cs => slots c n ++ (cs ≫= λ c, slots c TREC_CHUNK_NUM_ENTRIES)
  end.

(** The log of [t]: header [h], [n] entries in the newest chunk, chunks [cs],
    entries [es]. *)
Record is_log (s : stm) (t : ptr) (h : StgTRecHeader) (n : nat)
    (cs : list ptr) (es : list TRecEntry) : Prop := {
  il_trec : trecs s !! t = Some h;
  il_head : head cs = Some (current_chunk h);
  il_chain : slist (chunk_prev s) (current_chunk h) cs END;
  il_chunk : next_entry_idx <$> chunks s !! current_chunk h = Some n;
  il_bound : (n ≤ TREC_CHUNK_NUM_ENTRIES)%nat;
  il_size c x : c ∈ cs → chunks s !! c = Some x → length (entries x) = TREC_CHUNK_NUM_ENTRIES;
  il_entries : Forall2 (λ r e, entry_at s r = Some e) (refs_of cs n) es
}.

Section loops.
Context {A : Type} (body : eref → A → prog stm (A * bool)).

Lemma wp_for_slots (I : list eref → A → stm → Prop) (B : A → stm → Prop) rs c js pre a s :
  (∀ pre r post a s, rs = pre ++ r :: post → I pre a s →
     wp (body r a) (λ r' s', if r'.2 : bool then B r'.1 s' else I (pre ++ [r]) r'.1 s') s) →
  (∃ post, rs = pre ++ ((λ i, (c, i)) <$> js) ++ post) → I pre a s →
  wp (for_slots body c js a)
     (λ r' s', if r'.2 : bool then B r'.1 s' else I (pre ++ ((λ i, (c, i)) <$> js)) r'.1 s') s.
Proof.
  intros Hb. revert pre a s. induction js as [|i js IH]; intros pre a s [post Hrs] HI; cbn [for_slots].
  { wp_step. cbn. by rewrite app_nil_r. }
  wp_step. cbn in Hrs. eapply wp_mono; [by eapply Hb|].
  intros [a' []] s' HQ; cbn in HQ; [by wp_step|]. eapply wp_mono; [apply (IH (pre ++ [(c, i)])); [|done]|].
  { exists post. rewrite Hrs. by rewrite <- app_assoc. }
  intros [a2 []] s2 H2; cbn in *; [done|]. by rewrite <- app_assoc in H2.
Qed.

Lemma wp_for_chunks (I : list eref → A → stm → Prop) (B : A → stm → Prop) s0 rs fuel c cs n pre a s :
  (∀ pre r post a s, rs = pre ++ r :: post → I pre a s →
     wp (body r a) (λ r' s', if r'.2 : bool then B r'.1 s' else I (pre ++ [r]) r'.1 s') s) →
  (∀ pre a s c, I pre a s → c ∈ cs → chunk_prev s c = chunk_prev s0 c) →
  slist (chunk_prev s0) c cs END → (length cs < fuel)%nat →
  rs = pre ++ refs_of cs n → I pre a s →
  wp (for_chunks body fuel c n a) (λ a s', B a s' ∨ I rs a s') s.
Proof.
  intros Hb. revert c cs n pre a s.
  induction fuel as [|fuel IH]; intros c cs n pre a s Hp Hc Hlen Hrs HI; [lia|].
  cbn [for_chunks]. destruct cs as [|c' cs]; cbn [slist] in Hc.
  { rewrite Hc. change (END =? END_STM_CHUNK_LIST) with true. cbv iota. wp_step. right. cbn in Hrs. rewrite app_nil_r in Hrs. by subst. }
  destruct Hc as (-> & Hne & n' & Hn & Hc). rewrite (proj2 (Z.eqb_neq c' END_STM_CHUNK_LIST) Hne).
  cbn [refs_of] in Hrs. wp_step. eapply wp_mono.
  { eapply (wp_for_slots I B rs); [done|by eexists|done]. }
  intros [a' []] s' HQ; cbn in HQ; [wp_step; by left|].
  assert (chunk_prev s' c' = Some n') as Hn'.
  { rewrite <- Hn. eapply Hp; [done|by left]. }
  unfold chunk_prev in Hn'. destruct (chunks s' !! c') as [x|] eqn:Hx; [|done].
  injection Hn' as Hn'. do 2 wp_step. rewrite Hn'. cbn in Hlen.
  eapply (IH _ cs); [|done|lia| |done].
  - intros. eapply Hp; [done|by right].
  - rewrite Hrs. rewrite <- app_assoc. do 2 f_equal. by destruct cs.
Qed.

(** The rule for FOR_EACH_ENTRY: [I] holds of the entries visited so far, [B]
    when the body breaks out; the body leaves the chunk list alone. *)
Lemma wp_FOR_EACH_ENTRY (I : list eref → A → stm → Prop) (B : A → stm → Prop) s t h n cs es a :
  is_log s t h n cs es →
  (∀ pre r post a s, refs_of cs (n) = pre ++ r :: post → I pre a s →
     wp (body r a) (λ r' s', if r'.2 : bool then B r'.1 s' else I (pre ++ [r]) r'.1 s') s) →
  (∀ pre a s' c, I pre a s' → c ∈ cs → chunk_prev s' c = chunk_prev s c) →
  I [] a s →
  wp (FOR_EACH_ENTRY body t a) (λ a s', B a s' ∨ I (refs_of cs (n)) a s') s.
Proof.
  intros [Ht Hh Hc Hch Hb Hz He] Hbody Hp HI. unfold FOR_EACH_ENTRY.
  destruct (chunks s !! current_chunk h) as [ch|] eqn:Ech; [|done]. injection Hch as Hch.
  do 6 wp_step. rewrite Hch.
  eapply (wp_for_chunks I B s _ _ _ cs _ []); try done. apply slist_length in Hc. lia.
Qed.
End loops.

(** ** Updates of one slot *)
Section slots.
Implicit Types (s : stm) (r : eref).

Definition write_slot (r : eref) (e : TRecEntry) (x : StgTRecChunk) (s : stm) : stm :=
  set_chunks (<[r.1 := ch_set_entries (<[r.2 := Some e]> (entries x)) x]> (chunks s)) s.

Lemma entry_at_write s r e x r' :
  chunks s !! r.1 = Some x → (r.2 < length (entries x))%nat →
  entry_at (write_slot r e x s) r' = if decide (r = r') then Some e else entry_at s r'.
Proof.
  intros Hx Hlen. unfold entry_at. cbn. rewrite lookup_insert.
  destruct r as [c i], r' as [c' i']. cbn in *. case_decide; [subst c'|].
  - rewrite Hx. cbn. destruct (decide (i = i')) as [->|].
    + rewrite list_lookup_insert_eq by done. by rewrite decide_True.
    + rewrite list_lookup_insert_ne by done. by rewrite decide_False by congruence.
  - by rewrite decide_False by congruence.
Qed.

Lemma chunk_prev_write s r e x c :
  chunks s !! r.1 = Some x → chunk_prev (write_slot r e x s) c = chunk_prev s c.
Proof.
  intros Hx. unfold chunk_prev; cbn. rewrite lookup_insert. case_decide; [subst|done].
  by rewrite Hx.
Qed.

Lemma entry_at_inv s r e :
  entry_at s r = Some e → ∃ x, chunks s !! r.1 = Some x ∧ entries x !! r.2 = Some (Some e).
Proof.
  unfold entry_at. destruct (chunks s !! r.1) as [x|]; [|done]. cbn. intros Hm. exists x.
  split; [done|]. by destruct (entries x !! r.2) as [[]|]; cbn in Hm; simplify_eq.
Qed.

Lemma wp_get_entry s r e Q : entry_at s r = Some e → Q e s → wp (get_entry r) Q s.
Proof.
  intros (x & Hx & He)%entry_at_inv HQ. unfold get_entry. do 2 wp_step. wp_step; [|done].
  by rewrite He.
Qed.

Lemma wp_upd_entry s r e g Q :
  entry_at s r = Some e →
  (∀ x, chunks s !! r.1 = Some x → (r.2 < length (entries x))%nat →
     Q tt (write_slot r (g e) x s)) →
  wp (upd_entry r g) Q s.
Proof.
  intros Hr HQ. unfold upd_entry. wp_step. eapply wp_get_entry; [done|].
  apply entry_at_inv in Hr as (x & Hx & He). unfold upd_chunk, upd. do 3 wp_step.
  apply HQ; [done|]. by eapply lookup_lt_Some.
Qed.

Lemma elem_slots c n r : r ∈ slots c n ↔ r.1 = c ∧ (r.2 < n)%nat.
Proof.
  unfold slots. rewrite list_elem_of_fmap. destruct r as [c' i]; cbn. split.
  - intros (j & [= -> ->] & Hj). apply elem_of_seq in Hj. split; [done|lia].
  - intros [-> ?]. exists i. split; [done|]. apply elem_of_seq. lia.
Qed.

Lemma elem_refs cs n r :
  (n ≤ TREC_CHUNK_NUM_ENTRIES)%nat → r ∈ refs_of cs n →
  r.1 ∈ cs ∧ (r.2 < TREC_CHUNK_NUM_ENTRIES)%nat.
Proof.
  intros Hn. destruct cs as [|c cs]; cbn; [by intros ?%elem_of_nil|].
  intros [[<- Hr]%elem_slots|(c' & [<- Hr]%elem_slots & Hc')%list_elem_of_bind]%elem_of_app.
  - split; [by left|lia].
  - split; [by right|done].
Qed.

Lemma NoDup_slots c n : NoDup (slots c n).
Proof. apply NoDup_fmap_2; [intros ?? [=]; done|apply NoDup_seq]. Qed.

Lemma NoDup_refs cs n : NoDup cs → NoDup (refs_of cs n).
Proof.
  destruct cs as [|c cs]; cbn; [constructor|]. intros [Hc Hcs]%NoDup_cons.
  apply NoDup_app. split_and!; [apply NoDup_slots| |].
  - intros r [<- _]%elem_slots (c' & [<- _]%elem_slots & ?)%list_elem_of_bind. done.
  - clear Hc. induction Hcs as [|c' cs Hc' _ IH]; cbn; [constructor|].
    apply NoDup_app. split_and!; [apply NoDup_slots| |done].
    intros r [<- _]%elem_slots (c2 & [<- _]%elem_slots & ?)%list_elem_of_bind. done.
Qed.
End slots.

(** ** A log as a finite map *)

(** What a log says: the expected and the new value of each TVar accessed. *)
Notation log := (gmap ptr (closure * closure)).
Definition log_map (es : list TRecEntry) : log :=
  list_to_map ((λ e, (e_tvar e, (expected_value e, new_value e))) <$> es).

#[global] Arguments log_map : simpl never.

Section log_map.
Implicit Types (es : list TRecEntry) (e : TRecEntry).

Lemma log_keys es : ((λ e, (e_tvar e, (expected_value e, new_value e))) <$> es).*1 = e_tvar <$> es.
Proof. by rewrite <- list_fmap_compose. Qed.

Lemma log_map_elem es e :
  NoDup (e_tvar <$> es) → e ∈ es → log_map es !! e_tvar e = Some (expected_value e, new_value e).
Proof.
  intros Hnd He. apply elem_of_list_to_map_1; [by rewrite log_keys|].
  apply list_elem_of_fmap. eauto.
Qed.

Lemma log_map_Some es tv x n :
  log_map es !! tv = Some (x, n) → ∃ e, e ∈ es ∧ e_tvar e = tv ∧ expected_value e = x ∧ new_value e = n.
Proof.
  intros Hl. apply elem_of_list_to_map_2, list_elem_of_fmap in Hl as (e & [= -> -> ->] & He). eauto.
Qed.

Lemma log_map_None es tv : log_map es !! tv = None ↔ tv ∉ e_tvar <$> es.
Proof. etrans; [symmetry; apply not_elem_of_list_to_map|]. by rewrite log_keys. Qed.

Lemma log_map_perm es es' : NoDup (e_tvar <$> es) → es ≡ₚ es' → log_map es = log_map es'.
Proof.
  intros Hnd Hp. apply list_to_map_proper; [by rewrite log_keys|]. by f_equiv.
Qed.

Lemma log_map_cons e es :
  log_map (e :: es) = <[e_tvar e := (expected_value e, new_value e)]> (log_map es).
Proof. done. Qed.

Lemma log_map_update es k e e' :
  NoDup (e_tvar <$> es) → es !! k = Some e → e_tvar e' = e_tvar e →
  log_map (<[k := e']> es) = <[e_tvar e := (expected_value e', new_value e')]> (log_map es).
Proof.
  intros Hnd He Ht. assert (e_tvar <$> <[k := e']> es = e_tvar <$> es) as Hk.
  { rewrite list_fmap_insert, Ht. apply list_insert_id. by rewrite list_lookup_fmap, He. }
  apply map_eq. intros tv. rewrite lookup_insert. case_decide as Etv.
  - subst tv. rewrite <- Ht. apply log_map_elem; [by rewrite Hk|].
    eapply list_elem_of_lookup_2, list_lookup_insert_eq. by eapply lookup_lt_Some.
  - destruct (log_map es !! tv) as [[x n]|] eqn:E.
    + apply log_map_Some in E as (e2 & (j & Hj)%list_elem_of_lookup_1 & <- & <- & <-).
      apply log_map_elem; [by rewrite Hk|].
      apply list_elem_of_lookup_2 with j. rewrite list_lookup_insert_ne; [done|]. congruence.
    + apply log_map_None. rewrite Hk. by apply log_map_None.
Qed.
End log_map.

(** ** Logs under writes *)
Section is_log.
Implicit Types (s : stm) (t : ptr) (es : list TRecEntry).

Lemma entry_at_ext s s' r : chunks s' !! r.1 = chunks s !! r.1 → entry_at s' r = entry_at s r.
Proof. intros E. unfold entry_at. by rewrite E. Qed.

Lemma is_log_refs s t h n cs es r : is_log s t h n cs es → r ∈ refs_of cs n → r.1 ∈ cs.
Proof. intros Hl Hr. by apply elem_refs in Hr as [? _]; [|apply Hl]. Qed.

Lemma head_in {A} (l : list A) x : head l = Some x → x ∈ l.
Proof. destruct l; [done|]. intros [= ->]. by left. Qed.

Lemma is_log_ext s s' t h n cs es :
  trecs s' !! t = trecs s !! t → (∀ c, c ∈ cs → chunks s' !! c = chunks s !! c) →
  is_log s t h n cs es → is_log s' t h n cs es.
Proof.
  intros Ht Hc Hl. assert (Hl' := Hl). destruct Hl' as [].
  constructor; [by rewrite Ht|done| | |done| |].
  - eapply slist_ext; [|done]. intros c Hin. unfold chunk_prev. by rewrite Hc.
  - by rewrite Hc by by apply head_in.
  - intros c x Hin. rewrite Hc by done. by apply il_size0.
  - eapply Forall2_weaken_in; [|done]. intros r e Hr. rewrite (entry_at_ext s s'); [done|].
    apply Hc. by eapply is_log_refs.
Qed.

Lemma is_log_entry s t h n cs es k r :
  is_log s t h n cs es → refs_of cs n !! k = Some r → ∃ e, es !! k = Some e ∧ entry_at s r = Some e.
Proof. intros Hl Hr. eapply (Forall2_lookup_l _ _ _ _ _ (il_entries _ _ _ _ _ _ Hl)) in Hr as (e & ? & ?). eauto. Qed.

Lemma is_log_slot s t h n cs es k r :
  is_log s t h n cs es → refs_of cs n !! k = Some r →
  ∃ x, chunks s !! r.1 = Some x ∧ (r.2 < length (entries x))%nat.
Proof.
  intros Hl Hr. destruct (is_log_entry _ _ _ _ _ _ _ _ Hl Hr) as (e & _ & He).
  apply entry_at_inv in He as (x & Hx & He). exists x. split; [done|]. by eapply lookup_lt_Some.
Qed.

(** Writing the [k]-th entry of a log. *)
Lemma is_log_write s t h n cs es k r e x :
  is_log s t h n cs es → refs_of cs n !! k = Some r → chunks s !! r.1 = Some x →
  is_log (write_slot r e x s) t h n cs (<[k := e]> es).
Proof.
  intros Hl Hr Hx. destruct (is_log_slot _ _ _ _ _ _ _ _ Hl Hr) as (x' & Hx' & Hlen).
  rewrite Hx in Hx'. injection Hx' as <-.
  assert (Hnd : NoDup (refs_of cs n)) by (eapply NoDup_refs, slist_NoDup, Hl).
  destruct Hl as []. constructor; try done.
  - eapply slist_ext; [|done]. intros c _. by apply chunk_prev_write.
  - cbn. rewrite lookup_insert. case_decide as E; [|done]. cbn. by rewrite <- E, Hx in il_chunk0.
  - intros c y Hc. cbn. rewrite lookup_insert. case_decide as E; [|by apply il_size0].
    intros [= <-]. cbn. rewrite length_insert. eapply il_size0; [done|by rewrite <- E].
  - apply Forall2_same_length_lookup. split.
    { rewrite length_insert. by eapply Forall2_length. }
    intros j r' e' Hj He'. rewrite entry_at_write by done.
    destruct (decide (j = k)) as [->|Hne].
    + rewrite list_lookup_insert_eq in He'.
      * assert (Some r' = Some r) as [= ->] by (etrans; [symmetry; exact Hj|exact Hr]).
        injection He' as <-. by rewrite decide_True.
      * apply lookup_lt_Some in He'. by rewrite length_insert in He'.
    + rewrite list_lookup_insert_ne in He' by done. rewrite decide_False.
      * eapply (Forall2_lookup_lr (λ r e, entry_at s r = Some e)); done.
      * intros ->. apply Hne. by eapply NoDup_lookup.
Qed.
End is_log.

(** ** Searching a log *)
(** One transaction of a nest: its record, its chunks and its entries. *)
Record tframe : Type := mkFrame { f_trec : ptr; f_chunks : list ptr; f_entries : list TRecEntry }.

Section search.
Implicit Types (s : stm) (t tv : ptr) (es : list TRecEntry).

Lemma refs_split_lookup {A} (l pre post : list A) r : l = pre ++ r :: post → l !! length pre = Some r.
Proof. intros ->. rewrite lookup_app_r by done. by rewrite Nat.sub_diag. Qed.

(** A loop that stops at the entry of [tv]. *)
Lemma wp_search {A} (body : eref → A → prog stm (A * bool)) tv (a0 : A) Q s t h n cs es :
  is_log s t h n cs es →
  (∀ r e, entry_at s r = Some e → e_tvar e ≠ tv →
     wp (body r a0) (λ r' s', r' = (a0, false) ∧ s' = s) s) →
  (∀ k r e, refs_of cs n !! k = Some r → es !! k = Some e → entry_at s r = Some e → e_tvar e = tv →
     wp (body r a0) (λ r' s', r'.2 = true ∧ Q r'.1 s') s) →
  (tv ∉ e_tvar <$> es → Q a0 s) →
  wp (FOR_EACH_ENTRY body t a0) Q s.
Proof.
  intros Hl Hmiss Hhit Hnone.
  eapply wp_mono; [eapply (wp_FOR_EACH_ENTRY body
    (λ pre a s', a = a0 ∧ s' = s ∧ ∀ k e, (k < length pre)%nat → es !! k = Some e → e_tvar e ≠ tv) Q);
    [exact Hl|..]|].
  - intros pre r post a s' Hrs (-> & -> & Hpre). apply refs_split_lookup in Hrs as Hr.
    destruct (is_log_entry _ _ _ _ _ _ _ _ Hl Hr) as (e & He & Hre).
    destruct (decide (e_tvar e = tv)) as [Et|Et].
    + eapply wp_mono; [by eapply Hhit|]. intros [a' b] s' [Hb HQ]; cbn in *. by subst b.
    + eapply wp_mono; [by eapply Hmiss|]. intros r' s' [-> ->]; cbn. split_and!; [done..|].
      intros k e' Hk He'. rewrite length_app in Hk; cbn in Hk.
      destruct (decide (k = length pre)) as [->|]; [congruence|]. apply (Hpre k); [lia|done].
  - by intros pre a s' c (_ & -> & _) _.
  - split_and!; [done..|]. cbn. lia.
  - intros a s' [HQ|(-> & -> & Hall)]; [done|]. apply Hnone.
    intros (e & -> & (k & Hk)%list_elem_of_lookup)%list_elem_of_fmap.
    eapply (Hall k e); [|done|done].
    rewrite (Forall2_length _ _ _ (il_entries _ _ _ _ _ _ Hl)). by eapply lookup_lt_Some.
Qed.

(** A nest of transactions, innermost first: each with its log. *)
Inductive is_nest (s : stm) : ptr → list tframe → Prop :=
  | nest_nil : is_nest s NO_TREC []
  | nest_cons t h n cs es N :
      t ≠ NO_TREC → is_log s t h n cs es → is_nest s (trec_enclosing h) N →
      is_nest s t (mkFrame t cs es :: N).

Lemma is_nest_NO_TREC s t N : is_nest s t N → t = NO_TREC ↔ N = [].
Proof. intros []; naive_solver. Qed.

Lemma is_nest_slist s t N :
  is_nest s t N → slist (λ t, trec_enclosing <$> trecs s !! t) t (f_trec <$> N) END.
Proof.
  induction 1 as [|t h n cs es N Ht Hl _ IH]; [done|]. cbn. split_and!; [done..|].
  exists (trec_enclosing h). by rewrite (il_trec _ _ _ _ _ _ Hl).
Qed.

(** The innermost entry for [tv] in the nest, and the transaction it is in. *)
Fixpoint nest_entry (N : list tframe) (tv : ptr) : option (ptr * (closure * closure)) :=
  match N with
  | [] => None
  | f :: N =>
    match log_map (f_entries f) !! tv with
    | Some xn => Some (f_trec f, xn)
    | None => nest_entry N tv
    end
  end.

Definition nest_nodup (N : list tframe) : Prop := ∀ f, f ∈ N → NoDup (e_tvar <$> f_entries f).

(** A reference to the entry [e] of transaction [t], which is in the nest. *)
Definition ref_in (s : stm) (t : ptr) (r : eref) (e : TRecEntry) : Prop :=
  ∃ h n cs es k, is_log s t h n cs es ∧ refs_of cs n !! k = Some r ∧ es !! k = Some e.

Lemma wp_entry_loop fuel s t tv N :
  is_nest s t N → N ≠ [] → nest_nodup N → (length N < fuel)%nat →
  wp (entry_loop fuel t tv)
     (λ res s', s' = s ∧
        match res with
        | Some (r, t') => ∃ e, ref_in s t' r e ∧ e_tvar e = tv ∧
            nest_entry N tv = Some (t', (expected_value e, new_value e))
        | None => nest_entry N tv = None
        end) s.
Proof.
  revert t N. induction fuel as [|fuel IH]; intros t N Hn Hne Hnd Hlen; [lia|].
  destruct Hn as [|t h n cs es N Ht Hl Hn]; [done|]. cbn [entry_loop]. wp_step.
  assert (NoDup (e_tvar <$> es)) as Hnd1 by (apply (Hnd (mkFrame t cs es)); by left).
  eapply (wp_search _ tv); [exact Hl|..].
  - intros r e Hr Het. wp_step. eapply wp_get_entry; [done|].
    rewrite (proj2 (Z.eqb_neq _ _) Het). by wp_step.
  - intros k r e Hk He Hr <-. wp_step. eapply wp_get_entry; [done|].
    rewrite Z.eqb_refl. wp_step. split; [done|]. cbn.
    do 2 wp_step; [apply Hl|]. wp_step. split; [done|]. exists e.
    split; [by exists h, n, cs, es, k|]. split; [done|].
    cbn [nest_entry f_entries f_trec]. rewrite log_map_elem; [done|done|by eapply list_elem_of_lookup_2].
  - intros Hno. do 2 wp_step; [apply Hl|]. apply log_map_None in Hno.
    cbn [nest_entry f_entries f_trec]. rewrite Hno.
    destruct (trec_enclosing h =? NO_TREC) eqn:E.
    + apply Z.eqb_eq in E. wp_step. split; [done|].
      apply (is_nest_NO_TREC _ _ _ Hn) in E. by rewrite E.
    + apply Z.eqb_neq in E. cbn in Hlen. apply IH; [done| | |lia].
      * intros En. apply E. by apply (is_nest_NO_TREC _ _ _ Hn).
      * intros f Hf. apply Hnd. by right.
Qed.

Lemma wp_get_entry_for s t tv N :
  is_nest s t N → N ≠ [] → nest_nodup N →
  wp (get_entry_for t tv)
     (λ res s', s' = s ∧
        match res with
        | Some (r, t') => ∃ e, ref_in s t' r e ∧ e_tvar e = tv ∧
            nest_entry N tv = Some (t', (expected_value e, new_value e))
        | None => nest_entry N tv = None
        end) s.
Proof.
  intros Hn Hne Hnd. unfold get_entry_for. wp_step. wp_step.
  { apply negb_true_iff, Z.eqb_neq. intros E. apply Hne. by apply (is_nest_NO_TREC _ _ _ Hn). }
  do 2 wp_step. apply wp_entry_loop; try done.
  apply is_nest_slist, slist_length in Hn. revert Hn. rewrite length_fmap. lia.
Qed.
End search.

(** ** Extending a log *)

(** What a step on the logs [T] and the chunks [C] changes: those records, those
    chunks, the free list of chunks, and the allocator. *)
Definition log_step (T C : list ptr) (s s' : stm) : Prop :=
  ∃ nx f ch tr, heap_next (sch s) <= nx ∧
    s' = set_trecs tr (set_chunks ch (set_free_chunks f (set_sch (set_next nx (sch s)) s))) ∧
    (∀ t, t ∉ T → tr !! t = trecs s !! t) ∧ (∀ c, c ∉ C → ch !! c = chunks s !! c).

(** The free list of chunks, and fresh memory. *)
Record chunk_pool (s : stm) (fc : list ptr) : Prop := {
  cp_free : slist (chunk_prev s) (free_trec_chunks s) fc END;
  cp_size c x : c ∈ fc → chunks s !! c = Some x → length (entries x) = TREC_CHUNK_NUM_ENTRIES;
  cp_fresh c : heap_next (sch s) <= c → chunks s !! c = None;
  cp_next : 0 < heap_next (sch s)
}.

Section extend.
Implicit Types (s : stm) (t tv : ptr) (es : list TRecEntry).

Lemma log_step_refl T C s : log_step T C s s.
Proof.
  exists (heap_next (sch s)), (free_trec_chunks s), (chunks s), (trecs s).
  split; [lia|]. split; [|done]. destruct s as [[]]; done.
Qed.

Lemma log_step_trans T C T' C' s1 s2 s3 :
  (∀ t, t ∈ T → t ∈ T') → (∀ c, c ∈ C → c ∈ C') →
  log_step T C s1 s2 → log_step T' C' s2 s3 → log_step T' C' s1 s3.
Proof.
  intros HT HC (nx & f & ch & tr & Hn & -> & Ht & Hc) (nx' & f' & ch' & tr' & Hn' & -> & Ht' & Hc').
  exists nx', f', ch', tr'. cbn in *. split; [lia|]. split; [done|]. split.
  - intros t Hin. rewrite Ht', Ht; auto.
  - intros c Hin. rewrite Hc', Hc; auto.
Qed.

Lemma log_step_intro T C s tr ch :
  (∀ t, t ∉ T → tr !! t = trecs s !! t) → (∀ c, c ∉ C → ch !! c = chunks s !! c) →
  log_step T C s (set_trecs tr (set_chunks ch s)).
Proof.
  intros Ht Hc. exists (heap_next (sch s)), (free_trec_chunks s), ch, tr.
  split; [lia|]. split; [|done]. destruct s as [[]]; done.
Qed.

Lemma log_step_write T C s r e x :
  r.1 ∈ C → log_step T C s (write_slot r e x s).
Proof.
  intros Hr. exists (heap_next (sch s)), (free_trec_chunks s), (chunks (write_slot r e x s)), (trecs s).
  split; [lia|]. split; [|split].
  - unfold write_slot. destruct s as [[]]; done.
  - done.
  - intros c Hc. cbn. rewrite lookup_insert_ne; [done|]. by intros E; rewrite E in Hr.
Qed.

Lemma alloc_chunk_ok s fc :
  chunk_pool s fc →
  wp alloc_stg_trec_chunk
     (λ r s', ∃ ents fc',
        chunks s' = <[r := mkChunk END 0 ents]> (chunks s) ∧
        length ents = TREC_CHUNK_NUM_ENTRIES ∧ r ≠ END ∧ trecs s' = trecs s ∧
        log_step [] [r] s s' ∧ chunk_pool s' fc' ∧
        ((fc = r :: fc') ∨ (fc = fc' ∧ chunks s !! r = None))) s.
Proof.
  intros [Hf Hz Hfr Hn]. unfold alloc_stg_trec_chunk. do 2 wp_step.
  destruct (free_trec_chunks s =? END_STM_CHUNK_LIST) eqn:E.
  - apply Z.eqb_eq in E. unfold new_stg_trec_chunk, alloc, put. wp_step. unfold wp at 1. cbn.
    exists (replicate TREC_CHUNK_NUM_ENTRIES None), fc.
    assert (fc = []) as -> by (apply (slist_END (chunk_prev s)); by rewrite E in Hf).
    split_and!; [done|by rewrite length_replicate|unfold END; lia|done| | |right].
    + exists (heap_next (sch s) + 8), (free_trec_chunks s),
        (<[heap_next (sch s) := mkChunk END 0 (replicate TREC_CHUNK_NUM_ENTRIES None)]> (chunks s)),
        (trecs s).
      split; [lia|split; [|split; [done|]]].
      * destruct s as [[]]; reflexivity.
      * intros c Hc. cbn. rewrite lookup_insert_ne; [done|set_solver].
    + constructor; cbn.
      * by rewrite E.
      * intros c x Hc. by apply elem_of_nil in Hc.
      * intros c Hc. rewrite lookup_insert_ne by lia. apply Hfr. lia.
      * lia.
    + split; [done|]. apply Hfr. lia.
  - apply Z.eqb_neq in E.
    destruct (slist_cons_inv _ _ _ _ Hf E) as (n & fc' & -> & Hne & Hn' & Hc).
    pose proof (slist_NoDup _ _ _ Hf) as [Hnd _]%NoDup_cons.
    unfold chunk_prev in Hn'. destruct (chunks s !! free_trec_chunks s) as [x|] eqn:Ex; [|done].
    injection Hn' as Hn'. do 4 wp_step. unfold upd_chunk, upd. do 4 wp_step.
    wp_step. exists (entries x), fc'. cbn. rewrite Hn'.
    split_and!; [done|eapply Hz; [by left|done]|done|done| | |by left].
    + exists (heap_next (sch s)), n,
        (<[free_trec_chunks s := mkChunk END 0 (entries x)]> (chunks s)), (trecs s).
      split; [apply Z.le_refl|]. split; [|split; [done|]].
      * destruct s as [[]]; reflexivity.
      * intros c Hc'. cbn. rewrite lookup_insert_ne; [done|set_solver].
    + constructor; cbn.
      * eapply slist_ext; [|exact Hc]. intros c Hc'. unfold chunk_prev. cbn.
        rewrite lookup_insert_ne; [done|]. by intros <-.
      * intros c y Hc'. rewrite lookup_insert_ne by by intros <-.
        apply Hz. by right.
      * intros c Hc'. rewrite lookup_insert_ne; [by apply Hfr|].
        intros <-. rewrite Hfr in Ex by done. done.
      * done.
Qed.

(** A pool is untouched by steps on other chunks. *)
Lemma chunk_pool_step T C s s' fc :
  log_step T C s s' → free_trec_chunks s' = free_trec_chunks s →
  (∀ c, c ∈ C → (c ∉ fc) ∧ is_Some (chunks s !! c)) →
  chunk_pool s fc → chunk_pool s' fc.
Proof.
  intros (nx & f & ch & tr & Hn & -> & _ & Hc) Hf HC [H1 H2 H3 H4]. cbn in *. subst f.
  assert (∀ c, c ∈ fc → ch !! c = chunks s !! c) as Hfc.
  { intros c Hin. apply Hc. intros Hin'. by destruct (HC c Hin'). }
  constructor; cbn.
  - eapply slist_ext; [|exact H1]. intros c Hin. unfold chunk_prev; cbn. by rewrite Hfc.
  - intros c x Hin. rewrite Hfc by done. by apply H2.
  - intros c Hle. rewrite Hc; [apply H3; lia|]. intros Hin.
    destruct (HC c Hin) as [_ [x Hx]]. rewrite H3 in Hx by lia. done.
  - lia.
Qed.

Lemma refs_of_cons c cs n :
  refs_of (c :: cs) n = slots c n ++ refs_of cs TREC_CHUNK_NUM_ENTRIES.
Proof. cbn. f_equal. destruct cs; done. Qed.

Lemma slots_S c n : slots c (S n) = slots c n ++ [(c, n)].
Proof. unfold slots. rewrite seq_S, fmap_app. done. Qed.

(** The current chunk has room. *)
Lemma is_log_grow s t h n cs es e x :
  is_log s t h n cs es → (n < TREC_CHUNK_NUM_ENTRIES)%nat →
  chunks s !! current_chunk h = Some x →
  is_log (set_chunks (<[current_chunk h := mkChunk (prev_chunk x) (S n) (<[n := Some e]> (entries x))]>
            (chunks s)) s) t h (S n) cs (take n es ++ e :: drop n es).
Proof.
  intros [Ht Hh Hc Hch Hb Hz He] Hn Hx. set (c := current_chunk h) in *.
  assert (length (entries x) = TREC_CHUNK_NUM_ENTRIES) as Hlen by (eapply Hz; [by apply head_in|done]).
  destruct cs as [|c' cs]; [done|]. injection Hh as ->.
  pose proof (slist_NoDup _ _ _ Hc) as [Hcn _]%NoDup_cons.
  rewrite refs_of_cons in He. apply Forall2_app_inv_l in He as (es1 & es2 & He1 & He2 & ->).
  assert (length es1 = n) as Hl1.
  { apply Forall2_length in He1. unfold slots in He1. by rewrite length_fmap, length_seq in He1. }
  rewrite take_app_length', drop_app_length' by done.
  constructor; cbn -[slist refs_of]; [done|done| | |lia| |].
  - eapply slist_ext; [|exact Hc]. intros d _. unfold chunk_prev; cbn. rewrite lookup_insert.
    case_decide; [subst d|done]. by rewrite Hx.
  - by rewrite lookup_insert_eq.
  - intros d y Hd. rewrite lookup_insert. case_decide; [|by apply Hz].
    intros [= <-]. cbn. by rewrite length_insert.
  - rewrite refs_of_cons, slots_S, <- app_assoc.
    apply Forall2_app; [|cbn; constructor].
    + eapply Forall2_weaken_in; [|exact He1]. intros r e' [Hr1 Hr2]%elem_slots Hre.
      unfold entry_at in *. cbn. rewrite lookup_insert, Hr1. rewrite decide_True by done. cbn.
      rewrite list_lookup_insert_ne by lia. by rewrite Hr1, Hx in Hre.
    + unfold entry_at; cbn. rewrite lookup_insert_eq. cbn.
      rewrite list_lookup_insert_eq by lia. done.
    + eapply Forall2_weaken_in; [|exact He2]. intros r e' Hr Hre.
      apply elem_refs in Hr as [Hr _]; [|done]. unfold entry_at in *. cbn.
      rewrite lookup_insert_ne; [done|]. intros E. apply Hcn. by rewrite E.
Qed.

(** The current chunk is full: a fresh one goes in front. *)
Lemma is_log_chain s t h cs es e c ents s' :
  is_log s t h TREC_CHUNK_NUM_ENTRIES cs es → c ∉ cs → c ≠ END →
  length ents = TREC_CHUNK_NUM_ENTRIES →
  trecs s' = <[t := tr_set_chunk c h]> (trecs s) →
  chunks s' = <[c := mkChunk (current_chunk h) 1 (<[0%nat := Some e]> ents)]> (chunks s) →
  is_log s' t (tr_set_chunk c h) 1 (c :: cs) (e :: es).
Proof.
  intros [Ht Hh Hc Hch Hb Hz He] Hcs Hne Hlen Htr Hchs.
  assert (∀ d, d ∈ cs → chunks s' !! d = chunks s !! d) as Hd.
  { intros d Hd. rewrite Hchs, lookup_insert_ne; [done|]. by intros <-. }
  constructor; cbn.
  - rewrite Htr. by rewrite lookup_insert_eq.
  - done.
  - split_and!; [done|done|]. exists (current_chunk h). unfold chunk_prev at 1.
    rewrite Hchs, lookup_insert_eq. split; [done|].
    eapply slist_ext; [|exact Hc]. intros d Hin. unfold chunk_prev. by rewrite Hd.
  - rewrite Hchs, lookup_insert_eq. done.
  - unfold TREC_CHUNK_NUM_ENTRIES. lia.
  - intros d y [->|Hin]%elem_of_cons.
    + rewrite Hchs, lookup_insert_eq. intros [= <-]. cbn. by rewrite length_insert.
    + rewrite Hd by done. by apply Hz.
  - change (slots c 1 ++ _) with (refs_of (c :: cs) 1). rewrite refs_of_cons. cbn. constructor.
    + unfold entry_at. cbn. rewrite Hchs, lookup_insert_eq. cbn.
      rewrite list_lookup_insert_eq; [done|]. rewrite Hlen. unfold TREC_CHUNK_NUM_ENTRIES. lia.
    + eapply Forall2_weaken_in; [|exact He]. intros r e' Hr Hre.
      apply elem_refs in Hr as [Hr _]; [|done]. rewrite (entry_at_ext s); [done|]. by apply Hd.
Qed.

(** What a new entry leaves: the log extended, with at most one chunk taken
    from the pool. *)
Record entry_added (s : stm) (t : ptr) (h : StgTRecHeader) (cs fc : list ptr)
    (es : list TRecEntry) (tv : ptr) (x nw : closure) (s' : stm) : Prop := {
  ea_log : ∃ h' n' cs' fc' es' k,
    is_log s' t h' n' cs' es' ∧ es' ≡ₚ mkEntry tv x nw k :: es ∧ chunk_pool s' fc' ∧
    log_step [t] cs' s s' ∧ (∀ c, c ∈ cs → c ∈ cs') ∧
    ((cs' ++ fc' ≡ₚ cs ++ fc) ∨ (∃ c, chunks s !! c = None ∧ cs' ++ fc' ≡ₚ c :: cs ++ fc)) ∧
    h' = tr_set_chunk (current_chunk h') h
}.

Lemma tr_set_chunk_id h : h = tr_set_chunk (current_chunk h) h.
Proof. by destruct h. Qed.

Lemma wp_fill_entry s r tv x nw ch o Q :
  chunks s !! r.1 = Some ch → entries ch !! r.2 = Some o →
  (∀ k, Q tt (write_slot r (mkEntry tv x nw k) ch s)) →
  wp (fill_entry r tv x nw) Q s.
Proof.
  intros Hc He HQ. unfold fill_entry. do 2 wp_step. do 2 wp_step.
  unfold upd_chunk, upd. do 3 wp_step. apply HQ.
Qed.

Lemma wp_new_entry s t h n cs fc es tv x nw :
  is_log s t h n cs es → chunk_pool s fc → (∀ c, c ∈ cs → c ∉ fc) →
  wp (ne ← get_new_entry t; fill_entry ne tv x nw)
     (λ _ s', entry_added s t h cs fc es tv x nw s') s.
Proof.
  intros Hl Hp Hd. assert (Hl' := Hl). destruct Hl' as [Ht Hh Hc Hch Hb Hz He].
  destruct (chunks s !! current_chunk h) as [ch|] eqn:Ech; [|done]. injection Hch as Hch.
  assert (current_chunk h ∈ cs) as Hin by by apply head_in.
  unfold get_new_entry. wp_step. do 4 wp_step. rewrite Hch. wp_step. wp_step.
  { apply negb_true_iff, Z.eqb_neq. eapply slist_not_END; [exact Hc|done]. }
  destruct (decide (n < TREC_CHUNK_NUM_ENTRIES)%nat) as [Hn|Hn].
  - rewrite (proj2 (Nat.ltb_lt _ _) Hn). unfold upd_chunk, upd. do 4 wp_step. wp_step.
    destruct (lookup_lt_is_Some_2 (entries ch) n) as [o Ho].
    { rewrite (Hz _ _ Hin Ech). done. }
    eapply (wp_fill_entry _ _ _ _ _ (ch_set_next (S n) ch) o); [by apply lookup_insert_eq|done|].
    intros k. constructor. eexists h, (S n), cs, fc, _, k.
    set (e := mkEntry tv x nw k).
    assert (write_slot (current_chunk h, n) e (ch_set_next (S n) ch)
      (set_chunks (<[current_chunk h:=ch_set_next (S n) ch]> (chunks s)) s) =
      set_chunks (<[current_chunk h := mkChunk (prev_chunk ch) (S n) (<[n := Some e]> (entries ch))]>
        (chunks s)) s) as ->.
    { unfold write_slot. cbn. by rewrite insert_insert_eq. }
    assert (log_step [t] cs s (set_chunks (<[current_chunk h :=
      mkChunk (prev_chunk ch) (S n) (<[n := Some e]> (entries ch))]> (chunks s)) s)) as Hstep.
    { exists (heap_next (sch s)), (free_trec_chunks s), (<[current_chunk h :=
        mkChunk (prev_chunk ch) (S n) (<[n := Some e]> (entries ch))]> (chunks s)), (trecs s).
      split; [lia|]. split; [destruct s as [[]]; reflexivity|]. split; [done|].
      intros c Hc'. rewrite lookup_insert_ne; [done|]. by intros <-. }
    split_and!; [by apply is_log_grow| | |done|done|by left|apply tr_set_chunk_id].
    + rewrite <- Permutation_middle. by rewrite take_drop.
    + apply (chunk_pool_step [t] [current_chunk h] s); [|done| |done].
      * destruct Hstep as (nx & f & c2 & tr & ? & E & ? & _). exists nx, f, c2, tr.
        split; [done|]. split; [done|]. split; [done|]. intros c Hc'.
        apply (f_equal chunks) in E. cbn in E. rewrite <- E.
        rewrite lookup_insert_ne; [done|]. set_solver.
      * intros c ->%list_elem_of_singleton. eauto.
  - assert (n = TREC_CHUNK_NUM_ENTRIES) as -> by lia.
    rewrite Nat.ltb_irrefl. wp_step. eapply wp_mono; [by apply alloc_chunk_ok|].
    intros c s1 (ents & fc' & Hch1 & Hlen & Hne & Htr1 & Hst1 & Hp1 & Hfc).
    assert (c ∉ cs) as Hcs.
    { intros Hin'. destruct Hfc as [->|[_ Hno]]; [apply (Hd c Hin'); by left|].
      assert (is_Some (chunks s !! c)) as [y Hy]; [|congruence].
      apply list_elem_of_split in Hin' as (l1 & l2 & ->).
      apply slist_split in Hc as (_ & _ & m & Hm & _). unfold chunk_prev in Hm.
      destruct (chunks s !! c); [eauto|done]. }
    assert (c ∉ fc') as Hcf.
    { destruct Hfc as [->|[<- Hno]].
      - by pose proof (slist_NoDup _ _ _ (cp_free _ _ Hp)) as [? _]%NoDup_cons.
      - intros Hin'. destruct Hp as [Hf _ _ _].
        apply list_elem_of_split in Hin' as (l1 & l2 & ->).
        apply slist_split in Hf as (_ & _ & m & Hm & _). unfold chunk_prev in Hm.
        by rewrite Hno in Hm. }
    unfold upd_chunk, upd_trec, upd. wp_step. do 2 wp_step; [rewrite Hch1; by apply lookup_insert_eq|].
    wp_step. wp_step. do 2 wp_step; [cbn; rewrite Htr1; done|]. do 2 wp_step.
    rewrite Hch1, insert_insert_eq. cbn. rewrite Htr1.
    destruct (lookup_lt_is_Some_2 ents 0) as [o Ho]; [rewrite Hlen; unfold TREC_CHUNK_NUM_ENTRIES; lia|].
    eapply (wp_fill_entry _ (c, 0%nat)); [by apply lookup_insert_eq|done|].
    intros k. set (e := mkEntry tv x nw k).
    set (c' := mkChunk (current_chunk h) 1 (<[0%nat := Some e]> ents)).
    set (fin := set_trecs (<[t := tr_set_chunk c h]> (trecs s)) (set_chunks (<[c := c']> (chunks s)) s1)).
    match goal with |- entry_added _ _ _ _ _ _ _ _ _ ?s' => assert (s' = fin) as -> end.
    { unfold write_slot. cbn. by rewrite insert_insert_eq. }
    assert (log_step [t] [c] s1 fin) as Hst2.
    { apply log_step_intro.
      - intros u Hu. rewrite Htr1, lookup_insert_ne; [done|set_solver].
      - intros d Hd'. rewrite Hch1, !lookup_insert_ne; [done|set_solver..]. }
    constructor. exists (tr_set_chunk c h), 1%nat, (c :: cs), fc', (e :: es), k.
    split_and!; [by eapply is_log_chain|done| | |by right| |done].
    + apply (chunk_pool_step [t] [c] s1); [done|done| |done].
      intros d ->%list_elem_of_singleton. split; [done|]. rewrite Hch1, lookup_insert_eq. eauto.
    + eapply (log_step_trans [] [c]); [set_solver..|exact Hst1|].
      destruct Hst2 as (nx & f & c2 & tr & ? & E & ? & Hc2). exists nx, f, c2, tr.
      split_and!; [done..|]. intros d Hd'. apply Hc2. set_solver.
    + destruct Hfc as [->|[<- Hno]]; [left|right; by exists c].
      cbn. by rewrite Permutation_middle.
Qed.
End extend.
