(* ===== verification/STMAccess.v ===== *)
(** * Transactional reads and writes

    [stmReadTVar] and [stmWriteTVar] against an abstract transaction: a nest of
    finite maps from TVars to the value expected and the value to be written.
    The entries of the C logs, spread over chunks that come from the free list
    or the heap, never get mixed up between transactions. *)
From S2P Require Import Prelude DList Threads STM STMLog.
From stdpp Require Import list gmap.
Local Open Scope Z_scope.

(** ** The abstract transaction *)

(** The innermost entry for a TVar, in a nest of logs. *)
Fixpoint nest_lookup (Ls : list log) (tv : ptr) : option (closure * closure) :=
  match Ls with
  | [] => None
  | L :: Ls => match L !! tv with Some xn => Some xn | None => nest_lookup Ls tv end
  end.

(** What an access finds: an entry of the nest, or the TVar's current value. *)
Definition spec_entry (Ls : list log) (tv : ptr) (current : closure) : closure * closure :=
  default (current, current) (nest_lookup Ls tv).

(** A read leaves an entry in the innermost log, a write changes its new value. *)
Definition spec_read (L : log) (Ls : list log) (tv : ptr) (current : closure) : closure * log :=
  ((spec_entry (L :: Ls) tv current).2, <[tv := spec_entry (L :: Ls) tv current]> L).
Definition spec_write (L : log) (Ls : list log) (tv : ptr) (current new : closure) : log :=
  <[tv := ((spec_entry (L :: Ls) tv current).1, new)]> L.

Definition f_log (f : tframe) : log := log_map (f_entries f).

(** ** The concrete nest *)

(** A nest of well-formed logs, no chunk of which is shared or free. *)
Record nest_ok (s : stm) (t : ptr) (N : list tframe) (fc : list ptr) : Prop := {
  no_nest : is_nest s t N;
  no_nodup : nest_nodup N;
  no_pool : chunk_pool s fc;
  no_disjoint : NoDup ((N ≫= f_chunks) ++ fc)
}.

Definition running (s : stm) (t : ptr) : Prop :=
  ∃ h, trecs s !! t = Some h ∧ (state h = TREC_ACTIVE ∨ state h = TREC_CONDEMNED).

Section access.
Implicit Types (s : stm) (t tv : ptr) (N : list tframe).

Lemma nest_entry_lookup N tv : snd <$> nest_entry N tv = nest_lookup (f_log <$> N) tv.
Proof.
  induction N as [|f N IH]; [done|]. cbn. unfold f_log at 1.
  by destruct (log_map (f_entries f) !! tv).
Qed.

(** The entry found is in the top log exactly when its transaction is. *)
Lemma nest_entry_top t cs es N tv t' xn :
  nest_entry (mkFrame t cs es :: N) tv = Some (t', xn) → t ∉ f_trec <$> N →
  if decide (t' = t) then log_map es !! tv = Some xn else log_map es !! tv = None.
Proof.
  cbn. destruct (log_map es !! tv) as [xn'|] eqn:E.
  - intros [= <- <-] _. by rewrite decide_True.
  - intros Hn Ht. rewrite decide_False; [done|]. intros ->. apply Ht.
    clear Ht E. induction N as [|f N IH]; [done|]. cbn in Hn |- *.
    destruct (log_map (f_entries f) !! tv); [injection Hn as -> _; by left|right; auto].
Qed.

(** Chunks of a log are live. *)
Lemma is_log_live s t h n cs es c : is_log s t h n cs es → c ∈ cs → is_Some (chunks s !! c).
Proof.
  intros Hl (l1 & l2 & ->)%list_elem_of_split.
  pose proof (il_chain _ _ _ _ _ _ Hl) as Hc.
  apply slist_split in Hc as (_ & _ & m & Hm & _). unfold chunk_prev in Hm.
  destruct (chunks s !! c); [eauto|done].
Qed.

Lemma chunk_pool_live s fc c : chunk_pool s fc → c ∈ fc → is_Some (chunks s !! c).
Proof.
  intros [Hf _ _ _] (l1 & l2 & ->)%list_elem_of_split.
  apply slist_split in Hf as (_ & _ & m & Hm & _). unfold chunk_prev in Hm.
  destruct (chunks s !! c); [eauto|done].
Qed.

Lemma is_nest_live s t N c : is_nest s t N → c ∈ (N ≫= f_chunks) → is_Some (chunks s !! c).
Proof.
  induction 1 as [|t h n cs es N _ Hl _ IH]; cbn; [by intros ?%elem_of_nil|].
  intros [Hc|Hc]%elem_of_app; [by eapply is_log_live|auto].
Qed.

Lemma is_nest_ext s s' t N :
  (∀ u, u ∈ f_trec <$> N → trecs s' !! u = trecs s !! u) →
  (∀ c, c ∈ (N ≫= f_chunks) → chunks s' !! c = chunks s !! c) →
  is_nest s t N → is_nest s' t N.
Proof.
  intros Ht Hc Hn. induction Hn as [|t h n cs es N Hne Hl _ IH]; [constructor|].
  econstructor; [done| |apply IH].
  - eapply is_log_ext; [|..|exact Hl]; [apply Ht; by left|].
    intros c Hin. apply Hc. cbn. apply elem_of_app. by left.
  - intros u Hu. apply Ht. by right.
  - intros c Hin. apply Hc. cbn. apply elem_of_app. by right.
Qed.

Lemma log_step_trecs T C s s' t : log_step T C s s' → t ∉ T → trecs s' !! t = trecs s !! t.
Proof. intros (? & ? & ? & ? & _ & -> & Ht & _). apply Ht. Qed.
Lemma log_step_chunks T C s s' c : log_step T C s s' → c ∉ C → chunks s' !! c = chunks s !! c.
Proof. intros (? & ? & ? & ? & _ & -> & _ & Hc). apply Hc. Qed.

(** The top log of a nest is replaced: it may have taken a chunk of the pool
    or a fresh one. *)
Lemma nest_ok_step s s' t h n cs es N fc h' n' cs' es' fc' :
  nest_ok s t (mkFrame t cs es :: N) fc → is_log s t h n cs es →
  is_log s' t h' n' cs' es' → NoDup (e_tvar <$> es') → trec_enclosing h' = trec_enclosing h →
  chunk_pool s' fc' → log_step [t] cs' s s' → (∀ c, c ∈ cs → c ∈ cs') →
  (cs' ++ fc' ≡ₚ cs ++ fc) ∨ (∃ c, chunks s !! c = None ∧ cs' ++ fc' ≡ₚ c :: cs ++ fc) →
  nest_ok s' t (mkFrame t cs' es' :: N) fc'.
Proof.
  intros [Hn Hnd Hp0 Hdis] Hl Hl' Hnd' Hen Hp Hst Hsub Hperm.
  pose proof (is_nest_slist _ _ _ Hn) as Hsl. apply slist_NoDup in Hsl. cbn in Hsl.
  apply NoDup_cons in Hsl as [Htn _].
  inversion Hn as [|? h0 n0 ? ? ? Hne Hl0 HN]; subst.
  assert (h0 = h) as ->.
  { pose proof (il_trec _ _ _ _ _ _ Hl0). pose proof (il_trec _ _ _ _ _ _ Hl). congruence. }
  cbn in Hdis. set (R := N ≫= f_chunks) in *.
  assert (NoDup ((cs' ++ R) ++ fc')) as Hdis'.
  { rewrite <- app_assoc in Hdis |- *.
    assert (cs' ++ R ++ fc' ≡ₚ R ++ (cs' ++ fc')) as E1 by (rewrite !app_assoc; f_equiv; apply Permutation_app_comm).
    rewrite E1. assert (cs ++ R ++ fc ≡ₚ R ++ (cs ++ fc)) as E2 by (rewrite !app_assoc; f_equiv; apply Permutation_app_comm).
    rewrite E2 in Hdis. destruct Hperm as [->|(c & Hc & ->)]; [done|].
    rewrite <- Permutation_middle. apply NoDup_cons. split; [|done].
    intros [Hin|[Hin|Hin]%elem_of_app]%elem_of_app.
    - destruct (is_nest_live _ _ _ c HN Hin). congruence.
    - destruct (is_log_live _ _ _ _ _ _ c Hl Hin). congruence.
    - destruct (chunk_pool_live _ _ c Hp0 Hin). congruence. }
  constructor; [|intros f [->|Hf]%elem_of_cons; [done|apply Hnd; by right]|done|done].
  econstructor; [done|exact Hl'|]. rewrite Hen. apply (is_nest_ext s); [| |done].
  - intros u Hu. eapply log_step_trecs; [done|]. intros ->%list_elem_of_singleton. done.
  - intros c Hc. eapply log_step_chunks; [done|]. intros Hc'.
    apply NoDup_app in Hdis' as ((_ & Hd & _)%NoDup_app & _). by apply (Hd c).
Qed.

(** What an access leaves: the top log now says [L]; only that transaction's
    record, its chunks and the pool have changed. *)
Definition top_log (s : stm) (t : ptr) (N : list tframe) (L : log) (s' : stm) : Prop :=
  ∃ cs es fc, nest_ok s' t (mkFrame t cs es :: N) fc ∧ log_map es = L ∧ log_step [t] cs s s' ∧
    (∀ h, trecs s !! t = Some h → ∃ h', trecs s' !! t = Some h' ∧ h' = tr_set_chunk (current_chunk h') h).

Lemma wp_add_entry s t cs es N fc tv x nw :
  nest_ok s t (mkFrame t cs es :: N) fc → log_map es !! tv = None →
  wp (ne ← get_new_entry t; fill_entry ne tv x nw)
     (λ _ s', top_log s t N (<[tv := (x, nw)]> (log_map es)) s') s.
Proof.
  intros Hok Htv. assert (Hok' := Hok). destruct Hok' as [Hn Hnd Hp Hdis].
  inversion Hn as [|? h n ? ? ? Hne Hl HN]; subst.
  assert (NoDup (e_tvar <$> es)) as Hnd1 by (apply (Hnd (mkFrame t cs es)); by left).
  eapply wp_mono; [eapply wp_new_entry; [done|done|]|].
  { intros c Hc Hc'. cbn in Hdis. apply NoDup_app in Hdis as (_ & Hd & _).
    apply (Hd c); [apply elem_of_app; by left|done]. }
  intros [] s' [(h' & n' & cs' & fc' & es' & k & Hl' & Hperm & Hp' & Hst & Hsub & Hdis' & Hh)].
  assert (NoDup (e_tvar <$> es')) as Hnd'.
  { rewrite Hperm. cbn. apply NoDup_cons. split; [by apply log_map_None|done]. }
  exists cs', es', fc'. split_and!.
  - eapply nest_ok_step; try done. by rewrite Hh.
  - by rewrite (log_map_perm _ _ Hnd' Hperm).
  - done.
  - intros h2 Hh2. exists h'. split; [apply Hl'|].
    pose proof (il_trec _ _ _ _ _ _ Hl). congruence.
Qed.

Lemma is_log_unique s t h n cs es h' n' cs' es' :
  is_log s t h n cs es → is_log s t h' n' cs' es' → h' = h ∧ n' = n ∧ cs' = cs ∧ es' = es.
Proof.
  intros [Ht _ Hc Hch _ _ He] [Ht' _ Hc' Hch' _ _ He'].
  rewrite Ht in Ht'. injection Ht' as <-. rewrite Hch in Hch'. injection Hch' as <-.
  rewrite (slist_det _ _ _ _ Hc' Hc) in *. split_and!; [done..|].
  clear -He He'. revert es' He'. induction He as [|r e rs es Hr _ IH]; intros es' He'; inversion He'; subst; [done|].
  f_equal; [congruence|auto].
Qed.

Lemma wp_write_entry s t cs es N fc r e nw :
  nest_ok s t (mkFrame t cs es :: N) fc → ref_in s t r e →
  wp (upd_entry r (e_set_new nw))
     (λ _ s', top_log s t N (<[e_tvar e := (expected_value e, nw)]> (log_map es)) s') s.
Proof.
  intros Hok (h & n & cs2 & es2 & k & Hl2 & Hk & He). assert (Hok' := Hok).
  destruct Hok' as [Hn Hnd Hp Hdis]. inversion Hn as [|? h0 n0 ? ? ? Hne Hl HN]; subst.
  destruct (is_log_unique _ _ _ _ _ _ _ _ _ _ Hl Hl2) as (-> & -> & -> & ->). clear Hl2.
  assert (NoDup (e_tvar <$> es)) as Hnd1 by (apply (Hnd (mkFrame t cs es)); by left).
  destruct (is_log_entry _ _ _ _ _ _ _ _ Hl Hk) as (e' & He' & Hr). rewrite He in He'. injection He' as <-.
  eapply wp_upd_entry; [done|]. intros x Hx Hlen.
  assert (r.1 ∈ cs) as Hin by (eapply is_log_refs; [done|by eapply list_elem_of_lookup_2]).
  set (e2 := e_set_new nw e). assert (Hst : log_step [t] cs s (write_slot r e2 x s)) by by apply log_step_write.
  exists cs, (<[k := e2]> es), fc. split_and!; [|by rewrite (log_map_update es k e)|done|].
  - eapply (nest_ok_step s); [done|done| | | | |exact Hst| |by left].
    + by eapply is_log_write.
    + assert (e_tvar <$> <[k := e2]> es = e_tvar <$> es) as ->; [|done].
      rewrite list_fmap_insert. apply list_insert_id. by rewrite list_lookup_fmap, He.
    + done.
    + apply (chunk_pool_step [t] cs s); [done|done| |done]. intros c Hc. split.
      * intros Hc'. cbn in Hdis. apply NoDup_app in Hdis as (_ & Hd & _).
        apply (Hd c); [apply elem_of_app; by left|done].
      * by eapply is_log_live.
    + done.
  - intros h2 Hh2. exists h2. split; [done|apply tr_set_chunk_id].
Qed.

Definition unlocked (cfg : stm_config) (v : StgTVar) : Prop :=
  cfg = STM_FG_LOCKS → is_trec (current_value v) = false.

Lemma wp_read_current cfg s t tv v Q :
  tvars s !! tv = Some v → unlocked cfg v → Q (current_value v) s →
  wp (read_current_value cfg t tv) Q s.
Proof.
  intros Hv Hu HQ. unfold read_current_value. do 2 wp_step.
  destruct (decide (cfg = STM_FG_LOCKS)) as [E|E].
  - rewrite (Hu E), andb_false_r. by wp_step.
  - rewrite bool_decide_false by done. cbn [andb]. by wp_step.
Qed.

Lemma wp_assert_running s t Q :
  t ≠ NO_TREC → running s t → (∀ h, Q h s) → wp (assert_running t) Q s.
Proof.
  intros Hne (h & Hh & Hst) HQ. unfold assert_running. wp_step. wp_step.
  { by apply negb_true_iff, Z.eqb_neq. }
  do 2 wp_step. wp_step. wp_step; [by apply bool_decide_eq_true|]. wp_step. apply HQ.
Qed.

Lemma nest_trec_notin s t cs es N fc : nest_ok s t (mkFrame t cs es :: N) fc → (t ∉ f_trec <$> N) ∧ t ≠ NO_TREC.
Proof.
  intros [Hn _ _ _]. pose proof (is_nest_slist _ _ _ Hn) as Hsl.
  apply slist_NoDup, NoDup_cons in Hsl as [? _]. inversion Hn; done.
Qed.

Lemma read_ok cfg s t cs es N fc tv v :
  nest_ok s t (mkFrame t cs es :: N) fc → running s t →
  tvars s !! tv = Some v → unlocked cfg v →
  wp (stmReadTVar cfg t tv)
     (λ r s', let '(x, L) := spec_read (log_map es) (f_log <$> N) tv (current_value v) in
        r = x ∧ top_log s t N L s') s.
Proof.
  intros Hok Hrun Hv Hu. destruct (nest_trec_notin _ _ _ _ _ _ Hok) as [Htn Hne].
  unfold stmReadTVar. wp_step. apply wp_assert_running; [done|done|]. intros _.
  wp_step. eapply wp_mono; [eapply wp_get_entry_for; [apply Hok|done|apply Hok]|].
  intros res s' [-> Hres].
  pose proof (nest_entry_lookup (mkFrame t cs es :: N) tv) as Hlk.
  change (f_log <$> mkFrame t cs es :: N) with (log_map es :: (f_log <$> N)) in Hlk.
  unfold spec_read, spec_entry. rewrite <- Hlk.
  destruct res as [[r t']|].
  - destruct Hres as (e & Hr & <- & He). pose proof (nest_entry_top _ _ _ _ _ _ _ He Htn) as Htop.
    rewrite He. cbn. assert (Hr' := Hr). destruct Hr' as (h & n & cs2 & es2 & k & Hl2 & Hk & Hke).
    destruct (is_log_entry _ _ _ _ _ _ _ _ Hl2 Hk) as (e' & He' & Hre). rewrite Hke in He'. injection He' as <-.
    wp_step. eapply wp_get_entry; [done|]. destruct (decide (t' = t)) as [->|Ht'].
    + rewrite decide_True in Htop by done.
      rewrite Z.eqb_refl. wp_step. split; [done|]. rewrite insert_id by done.
      exists cs, es, fc. split_and!; [done|done|apply log_step_refl|].
      intros h2 Hh2. exists h2. split; [done|apply tr_set_chunk_id].
    + rewrite decide_False in Htop by done. rewrite (proj2 (Z.eqb_neq _ _) Ht'). apply wp_assoc. wp_step.
      eapply wp_mono; [by eapply wp_add_entry|]. intros [] s' Hs'. by wp_step.
  - rewrite Hres. cbn. cbn in Hres.
    assert (log_map es !! tv = None) as Hno by (by destruct (log_map es !! tv)).
    wp_step. eapply wp_read_current; [done|done|]. apply wp_assoc. wp_step.
    eapply wp_mono; [by eapply wp_add_entry|]. intros [] s' Hs'. by wp_step.
Qed.

Lemma write_ok cfg s t cs es N fc tv v nw :
  nest_ok s t (mkFrame t cs es :: N) fc → running s t →
  tvars s !! tv = Some v → unlocked cfg v →
  wp (stmWriteTVar cfg t tv nw)
     (λ _ s', top_log s t N (spec_write (log_map es) (f_log <$> N) tv (current_value v) nw) s') s.
Proof.
  intros Hok Hrun Hv Hu. destruct (nest_trec_notin _ _ _ _ _ _ Hok) as [Htn Hne].
  unfold stmWriteTVar. wp_step. apply wp_assert_running; [done|done|]. intros _.
  wp_step. eapply wp_mono; [eapply wp_get_entry_for; [apply Hok|done|apply Hok]|].
  intros res s' [-> Hres].
  pose proof (nest_entry_lookup (mkFrame t cs es :: N) tv) as Hlk.
  change (f_log <$> mkFrame t cs es :: N) with (log_map es :: (f_log <$> N)) in Hlk.
  unfold spec_write, spec_entry. rewrite <- Hlk.
  destruct res as [[r t']|].
  - destruct Hres as (e & Hr & <- & He). pose proof (nest_entry_top _ _ _ _ _ _ _ He Htn) as Htop.
    rewrite He. cbn. destruct (decide (t' = t)) as [->|Ht'].
    + rewrite Z.eqb_refl. by eapply wp_write_entry.
    + rewrite decide_False in Htop by done. rewrite (proj2 (Z.eqb_neq _ _) Ht').
      destruct Hr as (h & n & cs2 & es2 & k & Hl2 & Hk & Hke).
      destruct (is_log_entry _ _ _ _ _ _ _ _ Hl2 Hk) as (e' & He' & Hre). rewrite Hke in He'. injection He' as <-.
      wp_step. eapply wp_get_entry; [done|]. by eapply wp_add_entry.
  - rewrite Hres. cbn. cbn in Hres.
    assert (log_map es !! tv = None) as Hno by (by destruct (log_map es !! tv)).
    wp_step. eapply wp_read_current; [done|done|]. by eapply wp_add_entry.
Qed.
End access.

(** ** The theorems *)
Section theorems.
Implicit Types (s : stm) (t tv : ptr) (N : list tframe).

Lemma top_log_tvars s t N L s' : top_log s t N L s' → tvars s' = tvars s.
Proof. intros (cs & es & fc & _ & _ & (? & ? & ? & ? & _ & -> & _) & _). done. Qed.

Lemma top_log_running s t N L s' : top_log s t N L s' → running s t → running s' t.
Proof.
  intros (cs & es & fc & _ & _ & _ & Hh) (h & Ht & Hs).
  destruct (Hh h Ht) as (h' & Ht' & E). exists h'. split; [done|]. by rewrite E.
Qed.
End theorems.

(** C20: [stmReadTVar] refines the abstract read.  In a nest of transactions with
    well-formed logs, the value returned is the new value of the innermost entry
    for the TVar, or its current value when no transaction of the nest has
    accessed it; the innermost log then holds that entry, the logs of the
    enclosing transactions and everything else are as before. *)
Theorem stmReadTVar_refines cfg s t cs es N fc tv v :
  nest_ok s t (mkFrame t cs es :: N) fc → running s t →
  tvars s !! tv = Some v → unlocked cfg v →
  wp (stmReadTVar cfg t tv)
     (λ r s', let '(x, L) := spec_read (log_map es) (f_log <$> N) tv (current_value v) in
        r = x ∧ top_log s t N L s') s.
Proof. apply read_ok. Qed.

(** C21: [stmWriteTVar] refines the abstract write: the innermost log maps the
    TVar to the new value and to the value expected by the nest (or the current
    one), and the TVar itself is not written. *)
Theorem stmWriteTVar_refines cfg s t cs es N fc tv v nw :
  nest_ok s t (mkFrame t cs es :: N) fc → running s t →
  tvars s !! tv = Some v → unlocked cfg v →
  wp (stmWriteTVar cfg t tv nw)
     (λ _ s', top_log s t N (spec_write (log_map es) (f_log <$> N) tv (current_value v) nw) s') s.
Proof. apply write_ok. Qed.

(** Isolation of a transaction's view.  After a write, a read of the same
    TVar returns the value written, and a read of any other TVar returns what it
    would have returned without the write; no TVar changes. *)
Theorem read_your_writes cfg s t cs es N fc tv tv' v v' nw :
  nest_ok s t (mkFrame t cs es :: N) fc → running s t →
  tvars s !! tv = Some v → unlocked cfg v →
  tvars s !! tv' = Some v' → unlocked cfg v' → tv' ≠ tv →
  wp (stmWriteTVar cfg t tv nw;;
      x ← stmReadTVar cfg t tv; y ← stmReadTVar cfg t tv'; mret (x, y))
     (λ r s', r = (nw, (spec_read (log_map es) (f_log <$> N) tv' (current_value v')).1) ∧
        tvars s' = tvars s) s.
Proof.
  intros Hok Hrun Hv Hu Hv' Hu' Hne. wp_step. eapply wp_mono; [by eapply write_ok|].
  intros [] s1 Hs1. pose proof (top_log_tvars _ _ _ _ _ Hs1) as Etv1.
  pose proof (top_log_running _ _ _ _ _ Hs1 Hrun) as Hrun1.
  destruct Hs1 as (cs1 & es1 & fc1 & Hok1 & E1 & _ & _).
  wp_step. eapply wp_mono; [eapply read_ok; [done|done|by rewrite Etv1|done]|].
  unfold spec_read. intros x s2 [Hx Hs2]. pose proof (top_log_tvars _ _ _ _ _ Hs2) as Etv2.
  pose proof (top_log_running _ _ _ _ _ Hs2 Hrun1) as Hrun2.
  destruct Hs2 as (cs2 & es2 & fc2 & Hok2 & E2 & _ & _).
  wp_step. eapply wp_mono; [eapply read_ok; [done|done|by rewrite Etv2, Etv1|done]|].
  intros y s3 [Hy Hs3]. wp_step. rewrite (top_log_tvars _ _ _ _ _ Hs3), Etv2, Etv1.
  split; [|done]. f_equal.
  - rewrite Hx, E1. unfold spec_write, spec_entry. cbn. by rewrite lookup_insert_eq.
  - rewrite Hy, E2, E1. unfold spec_write, spec_entry. cbn.
    by rewrite !lookup_insert_ne by done.
Qed.

(** ** A concrete nest

    TVars 8 and 16; an outer transaction 24 that has written 5 to TVar 8, and a
    nested one 32 whose log is empty. *)
Module AccessDemo.
Definition no_threads : sched := mkSched ∅ ∅ ∅ ∅ ∅ END END END END END ∅ 64.
Definition written : TRecEntry := mkEntry 8 (CValue 1) (CValue 5) 0.
Definition slots16 (l : list TRecEntry) : list (option TRecEntry) :=
  (Some <$> l) ++ replicate (TREC_CHUNK_NUM_ENTRIES - length l) None.
Definition start : stm :=
  mkStm no_threads
    {[ 8 := mkTVar (CValue 1) END 0; 16 := mkTVar (CValue 2) END 0 ]} ∅
    {[ 24 := mkTRec NO_TREC 40 END TREC_ACTIVE; 32 := mkTRec 24 48 END TREC_ACTIVE ]}
    {[ 40 := mkChunk END 1 (slots16 [written]); 48 := mkChunk END 0 (slots16 []) ]}
    ∅ ∅ END END END END 0 0 false None.
Definition outer : tframe := mkFrame 24 [40] [written].
Definition inner : tframe := mkFrame 32 [48] [].

Lemma start_nest : nest_ok start 32 [inner; outer] [].
Proof.
  constructor.
  - apply (nest_cons _ 32 (mkTRec 24 48 END TREC_ACTIVE) 0 [48]); [done| |].
    { constructor; try done.
      - split_and!; [done|done|]. by eexists.
      - unfold TREC_CHUNK_NUM_ENTRIES. lia.
      - intros c x ->%list_elem_of_singleton. by intros [= <-]. }
    apply (nest_cons _ 24 (mkTRec NO_TREC 40 END TREC_ACTIVE) 1 [40]); [done| |constructor].
    constructor; try done.
    + split_and!; [done|done|]. by eexists.
    + unfold TREC_CHUNK_NUM_ENTRIES. lia.
    + intros c x ->%list_elem_of_singleton. by intros [= <-].
    + constructor; [done|constructor].
  - intros f [->|[->|Hf%elem_of_nil]%elem_of_cons]%elem_of_cons; [constructor| |done].
    apply NoDup_singleton.
  - constructor; try done.
    + intros c x Hc. by apply elem_of_nil in Hc.
    + cbn. intros c Hc. rewrite lookup_insert_ne by lia. by rewrite lookup_singleton_ne by lia.
  - apply (bool_decide_unpack _). vm_compute. exact I.
Qed.

Lemma start_running : running start 32.
Proof. eexists. split; [done|]. by left. Qed.
End AccessDemo.

Lemma stmReadTVar_refines_witness :
  wp (stmReadTVar STM_FG_LOCKS 32 8)
     (λ r s', r = CValue 5 ∧
        top_log AccessDemo.start 32 [AccessDemo.outer] {[ 8 := (CValue 1, CValue 5) ]} s') AccessDemo.start.
Proof.
  apply (stmReadTVar_refines STM_FG_LOCKS AccessDemo.start 32 [48] [] [AccessDemo.outer] [] 8
    (mkTVar (CValue 1) END 0)); [exact AccessDemo.start_nest|exact AccessDemo.start_running|done|done].
Defined.

Lemma stmWriteTVar_refines_witness :
  wp (stmWriteTVar STM_FG_LOCKS 32 8 (CValue 6))
     (λ _ s', top_log AccessDemo.start 32 [AccessDemo.outer] {[ 8 := (CValue 1, CValue 6) ]} s') AccessDemo.start.
Proof.
  apply (stmWriteTVar_refines STM_FG_LOCKS AccessDemo.start 32 [48] [] [AccessDemo.outer] [] 8
    (mkTVar (CValue 1) END 0)); [exact AccessDemo.start_nest|exact AccessDemo.start_running|done|done].
Defined.

Lemma read_your_writes_witness :
  wp (stmWriteTVar STM_UNIPROC 32 16 (CValue 7);;
      x ← stmReadTVar STM_UNIPROC 32 16; y ← stmReadTVar STM_UNIPROC 32 8; mret (x, y))
     (λ r s', r = (CValue 7, CValue 5) ∧ tvars s' = tvars AccessDemo.start) AccessDemo.start.
Proof.
  apply (read_your_writes STM_UNIPROC AccessDemo.start 32 [48] [] [AccessDemo.outer] [] 16 8
    (mkTVar (CValue 2) END 0) (mkTVar (CValue 1) END 0));
    [exact AccessDemo.start_nest|exact AccessDemo.start_running|done..].
Defined.
