(* ===== verification/STMCommit.v ===== *)
(** * Commit

    Validation, ownership of TVars, the write phase and the waking of waiters:
    [stmCommitTransaction] is atomic, it either installs every new value of the
    log or changes no TVar. *)
From S2P Require Import Prelude DList Threads STM STMLog STMAccess.
From stdpp Require Import list gmap.
Local Open Scope Z_scope.

(** ** Waking the waiters of a TVar *)

Definition why (sc : sched) (p : ptr) : option BlockReason := why_blocked <$> tsos sc !! p.

(** The run queue holds [l], and a thread parked in STM is off it. *)
Record sched_inv (sc : sched) (l : list ptr) : Prop := {
  si_queue : run_queue sc l;
  si_parked p t : tsos sc !! p = Some t → why_blocked t = BlockedOnSTM →
    (p ∉ l) ∧ p ≠ END ∧ tso_link t = END
}.

(** The threads [W] have been woken, in that order. *)
Record woken (l W : list ptr) (sc sc' : sched) : Prop := {
  wk_inv : sched_inv sc' (l ++ W);
  wk_frame : wake_frame W l sc sc';
  wk_parked p : p ∈ W → why sc p = Some BlockedOnSTM
}.

(** The watch queue of a TVar holds the entries [qs]. *)
Definition watch_list (s : stm) (v : StgTVar) (qs : list ptr) : Prop :=
  ∃ last, dlist (λ q, wq_next <$> watchqs s !! q) (λ q, wq_prev <$> watchqs s !! q)
    (first_watch_queue_entry v) last qs.

(** The threads that watch, front to back. *)
Definition watchers (s : stm) (qs : list ptr) : list ptr :=
  omap (λ q, w ← watchqs s !! q; match wq_closure w with CTSO p => Some p | _ => None end) qs.

Section unpark.
Context (gen_no : ptr → Z).
Implicit Types (s : stm) (sc : sched) (l W : list ptr).

Lemma wp_in_sched {A} (m : prog sched A) Q s :
  wp m (λ a sc, Q a (set_sch sc s)) (sch s) → wp (in_sched m) Q s.
Proof. unfold wp, in_sched. by destruct (m (sch s)) as [[a sc]|e]. Qed.

Lemma woken_nil l sc : sched_inv sc l → woken l [] sc sc.
Proof.
  constructor; [by rewrite app_nil_r|apply wake_frame_nil|by intros p ?%elem_of_nil].
Qed.

Lemma why_woken l W sc sc' p :
  woken l W sc sc' → why sc' p = if decide (p ∈ W) then Some NotBlocked else why sc p.
Proof.
  intros [_ Hf Hp]. pose proof (wf_core _ _ _ _ Hf p) as E. unfold why, wake_core in *.
  destruct (decide (p ∈ W)) as [Hin|Hin].
  - specialize (Hp p Hin). unfold why in Hp. destruct (tsos sc !! p) as [t|]; [|done].
    destruct (tsos sc' !! p) as [t'|]; [|done]. cbn in *. injection E as ? -> ????. done.
  - destruct (tsos sc !! p) as [t|], (tsos sc' !! p) as [t'|]; try done.
    cbn in *. injection E as ? -> ????. done.
Qed.

Lemma woken_live l W sc sc' p : woken l W sc sc' → is_Some (tsos sc !! p) ↔ is_Some (tsos sc' !! p).
Proof.
  intros [_ Hf _]. pose proof (wf_core _ _ _ _ Hf p) as E.
  destruct (tsos sc !! p), (tsos sc' !! p); split; intros []; eauto; done.
Qed.

Lemma woken_trans l W1 W2 sc1 sc2 sc3 :
  woken l W1 sc1 sc2 → woken (l ++ W1) W2 sc2 sc3 → woken l (W1 ++ W2) sc1 sc3.
Proof.
  intros H1 [Hi Hf Hp]. constructor.
  - by rewrite app_assoc.
  - eapply (wake_frame_app gen_no); [exact (wk_frame _ _ _ _ H1)|done].
  - intros p [Hin|Hin]%elem_of_app; [by apply (wk_parked _ _ _ _ H1)|]. specialize (Hp p Hin).
    rewrite (why_woken _ _ _ _ p H1) in Hp. by case_decide.
Qed.

Lemma unpark_ok s l p :
  sched_inv (sch s) l → is_Some (tsos (sch s) !! p) →
  wp (unpark_tso gen_no p)
     (λ _ s', ∃ sc', s' = set_sch sc' s ∧
        woken l (if decide (why (sch s) p = Some BlockedOnSTM) then [p] else []) (sch s) sc') s.
Proof.
  intros Hi [t Ht]. unfold unpark_tso. apply wp_in_sched. do 2 wp_step.
  unfold why. rewrite Ht. cbn. destruct (decide (why_blocked t = BlockedOnSTM)) as [E|E].
  - destruct (si_parked _ _ Hi p t Ht E) as (Hl & Hpe & Hlk).
    eapply wp_mono; [eapply (wakeup_ok gen_no _ l p); [apply Hi|done|]|].
    { split; [done|]. exists t. auto. }
    intros [] sc' [Hq Hf]. eexists. split; [done|]. rewrite decide_True by congruence.
    constructor; [|done|].
    + constructor; [done|]. intros q u Hu Hw.
      pose proof (wf_core _ _ _ _ Hf q) as Ec. rewrite Hu in Ec. unfold wake_core in Ec.
      destruct (tsos (sch s) !! q) as [u0|] eqn:Hu0; [|done]. cbn in Ec.
      destruct (decide (q ∈ [p])) as [Hin|Hin].
      * injection Ec as ? Ew ????. cbn in Ew. congruence.
      * injection Ec as ? Ew ????. rewrite Ew in Hw.
        destruct (si_parked _ _ Hi q u0 Hu0 Hw) as (Hql & Hqe & Hqk).
        rewrite (wf_other _ _ _ _ Hf) in Hu by done. rewrite Hu0 in Hu. injection Hu as <-.
        split; [|done]. intros [?|?]%elem_of_app; done.
    + intros q ->%list_elem_of_singleton. unfold why. rewrite Ht. cbn. congruence.
  - wp_step. exists (sch s). split; [by destruct s|]. rewrite decide_False by congruence.
    by apply woken_nil.
Qed.

(** Walking to the end of the queue ... *)
Lemma watch_last_ok fuel s q trail qs :
  slist (λ q, wq_next <$> watchqs s !! q) q qs END → (length qs < fuel)%nat →
  wp (watch_last fuel q trail) (λ r s', s' = s ∧ r = default trail (last qs)) s.
Proof.
  revert q trail qs. induction fuel as [|fuel IH]; intros q trail qs Hq Hlen; [lia|].
  cbn [watch_last]. destruct qs as [|x qs]; cbn [slist] in Hq.
  - subst q. change (END =? END_STM_WATCH_QUEUE) with true. cbv iota. by wp_step.
  - destruct Hq as (-> & Hx & n & Hn & Hq).
    rewrite (proj2 (Z.eqb_neq x END_STM_WATCH_QUEUE) Hx). cbn in Hlen.
    destruct (watchqs s !! x) as [w|] eqn:Hw; [|done]. injection Hn as <-. do 2 wp_step.
    eapply wp_mono; [apply (IH _ x qs); [done|lia]|]. intros r s' [-> ->]. split; [done|].
    rewrite last_cons. by destruct (last qs).
Qed.

(** ... and back to the front, waking. *)
Lemma unpark_back_ok fuel s l hd qs last next :
  dlseg (λ q, wq_next <$> watchqs s !! q) (λ q, wq_prev <$> watchqs s !! q) END hd qs last next →
  sched_inv (sch s) l → (length qs < fuel)%nat →
  (∀ p, p ∈ watchers s qs → is_Some (tsos (sch s) !! p)) →
  wp (unpark_back gen_no fuel last)
     (λ _ s', ∃ sc' W, s' = set_sch sc' s ∧ woken l W (sch s) sc' ∧
        ∀ p, p ∈ W ↔ p ∈ watchers s qs ∧ why (sch s) p = Some BlockedOnSTM) s.
Proof.
  revert s l last fuel next.
  induction qs as [|x qs IH] using rev_ind; intros s l last fuel next Hq Hi Hlen Hlive;
    (destruct fuel as [|fuel]; [lia|]); cbn [unpark_back].
  - destruct Hq as [_ ->]. change (END =? END_STM_WATCH_QUEUE) with true. cbv iota.
    wp_step. exists (sch s), []. split; [by destruct s|].
    split; [by apply woken_nil|]. set_solver.
  - apply dlseg_snoc in Hq as (m & Hq & Hx & Hpv & Hn & ->).
    rewrite (proj2 (Z.eqb_neq x END_STM_WATCH_QUEUE) Hx).
    rewrite length_app in Hlen. cbn in Hlen.
    destruct (watchqs s !! x) as [w|] eqn:Hw; [|done]. injection Hpv as <-.
    assert (watchers s (qs ++ [x]) = watchers s qs ++ match wq_closure w with CTSO p => [p] | _ => [] end) as Hws.
    { unfold watchers. rewrite omap_app. cbn. rewrite Hw. cbn. by destruct (wq_closure w). }
    rewrite Hws in Hlive |- *. unfold watcher_is_tso. do 4 wp_step. wp_step.
    assert (∀ Q, (∀ sc1 W1, woken l W1 (sch s) sc1 →
               (∀ p, p ∈ W1 ↔ p ∈ match wq_closure w with CTSO p => [p] | _ => [] end ∧
                  why (sch s) p = Some BlockedOnSTM) → Q tt (set_sch sc1 s)) →
             wp (when match wq_closure w with CTSO _ => true | _ => false end
               (w ← load watchqs x;
                match wq_closure w with CTSO p => unpark_tso gen_no p | _ => fail BadPointer end)) Q s) as Hone.
    { intros Q HQ. destruct (wq_closure w) as [| |p| |] eqn:Ec; cbn [when];
        try (wp_step; specialize (HQ (sch s) []); destruct s; apply HQ; [by apply woken_nil|set_solver]).
      do 2 wp_step. rewrite Ec. eapply wp_mono; [apply (unpark_ok s l p Hi)|].
      { apply Hlive. apply elem_of_app. right; by left. }
      intros [] s' (sc' & -> & Hwk). apply (HQ _ _ Hwk). intros q.
      case_decide as Ep; set_solver. }
    apply Hone. intros sc1 W1 Hwk1 HW1. do 2 wp_step.
    eapply wp_mono; [apply (IH (set_sch sc1 s) (l ++ W1) _ _ x); [done|apply Hwk1|lia|]|].
    { intros p Hp. apply (woken_live _ _ _ _ p Hwk1), Hlive, elem_of_app. by left. }
    intros [] s' (sc' & W & -> & Hwk & HW). exists sc', (W1 ++ W). split; [done|].
    split; [by eapply woken_trans|]. intros p. rewrite !elem_of_app, HW1, HW. cbn.
    rewrite (why_woken _ _ _ _ p Hwk1).
    change (watchers (set_sch sc1 s) qs) with (watchers s qs).
    case_decide as Ep; [apply HW1 in Ep|rewrite HW1 in Ep]; naive_solver.
Qed.

Lemma unpark_waiters_ok s l tv v qs :
  tvars s !! tv = Some v → watch_list s v qs → sched_inv (sch s) l →
  (∀ p, p ∈ watchers s qs → is_Some (tsos (sch s) !! p)) →
  wp (unpark_waiters_on gen_no tv)
     (λ _ s', ∃ sc' W, s' = set_sch sc' s ∧ woken l W (sch s) sc' ∧
        ∀ p, p ∈ W ↔ p ∈ watchers s qs ∧ why (sch s) p = Some BlockedOnSTM) s.
Proof.
  intros Hv [lst [Hq Hnd]] Hi Hlive. unfold unpark_waiters_on. do 4 wp_step.
  pose proof (dlseg_slist _ _ _ _ _ _ _ Hq) as Hsl.
  pose proof (slist_length _ _ _ _ Hsl) as Hlen.
  wp_step. eapply wp_mono; [eapply watch_last_ok; [exact Hsl|lia]|]. intros r s' [-> ->].
  assert (default (first_watch_queue_entry v) (last qs) = lst) as ->.
  { destruct (dlseg_last _ _ _ _ _ _ _ Hq) as [(-> & -> & ->)|(l' & -> & _)]; [done|].
    by rewrite last_snoc. }
  eapply unpark_back_ok; try done. lia.
Qed.
End unpark.

(** ** TVars along a log

    [tvs_at f tvs0 es tvs]: the TVars [tvs] are [tvs0] with the [j]-th entry's
    TVar transformed by [f j]. *)
Definition tvs_at (f : nat → TRecEntry → StgTVar → StgTVar) (tvs0 : gmap ptr StgTVar)
    (es : list TRecEntry) (tvs : gmap ptr StgTVar) : Prop :=
  (∀ j e v, es !! j = Some e → tvs0 !! e_tvar e = Some v → tvs !! e_tvar e = Some (f j e v)) ∧
  (∀ tv, tv ∉ e_tvar <$> es → tvs !! tv = tvs0 !! tv).

(** Every TVar of the log exists. *)
Definition tvars_live (tvs : gmap ptr StgTVar) (es : list TRecEntry) : Prop :=
  ∀ e, e ∈ es → is_Some (tvs !! e_tvar e).

Section tvs_at.
Implicit Types (tvs : gmap ptr StgTVar) (es : list TRecEntry).

Lemma tvs_at_refl f tvs es : (∀ j e v, es !! j = Some e → f j e v = v) → tvs_at f tvs es tvs.
Proof. intros Hf. split; [|done]. intros j e v He ->. f_equal. by rewrite Hf. Qed.

Lemma tvs_at_ext f f' tvs0 es tvs :
  (∀ j e v, es !! j = Some e → tvs0 !! e_tvar e = Some v → f' j e v = f j e v) →
  tvs_at f tvs0 es tvs → tvs_at f' tvs0 es tvs.
Proof. intros Hf [H1 H2]. split; [|done]. intros j e v He Hv. rewrite (Hf j e v He Hv). by eapply H1. Qed.

Lemma tvs_at_insert f f' tvs0 es tvs k e v v' :
  NoDup (e_tvar <$> es) → es !! k = Some e → tvs0 !! e_tvar e = Some v →
  tvs_at f tvs0 es tvs → (∀ j e v, j ≠ k → f' j e v = f j e v) → f' k e v = v' →
  tvs_at f' tvs0 es (<[e_tvar e := v']> tvs).
Proof.
  intros Hnd He Hv [H1 H2] Hf <-. split.
  - intros j e' u He' Hu. rewrite lookup_insert. case_decide as Et.
    + assert (j = k) as ->.
      { eapply (NoDup_lookup _ j k (e_tvar e)); [done|..]; rewrite list_lookup_fmap;
          [rewrite He'|rewrite He]; cbn; congruence. }
      congruence.
    + rewrite Hf; [by eapply H1|]. intros ->. congruence.
  - intros tv Htv. rewrite lookup_insert_ne; [by apply H2|]. intros <-. apply Htv.
    apply list_elem_of_fmap. exists e. split; [done|]. by eapply list_elem_of_lookup_2.
Qed.

Lemma tvs_at_eq f tvs0 es tvs :
  tvars_live tvs0 es → tvs_at f tvs0 es tvs →
  (∀ j e v, es !! j = Some e → tvs0 !! e_tvar e = Some v → f j e v = v) → tvs = tvs0.
Proof.
  intros Hlive [H1 H2] Hf. apply map_eq. intros tv.
  destruct (decide (tv ∈ e_tvar <$> es)) as [Hin|]; [|by apply H2].
  apply list_elem_of_fmap in Hin as (e & -> & He). destruct (Hlive e He) as [v Hv].
  apply list_elem_of_lookup in He as [j Hj]. rewrite Hv.
  rewrite (H1 j e v Hj Hv). f_equal. by eapply Hf.
Qed.
End tvs_at.

(** Entries with the same contents, but for the version number seen. *)
Definition same_entry (e e' : TRecEntry) : Prop :=
  e_tvar e' = e_tvar e ∧ expected_value e' = expected_value e ∧ new_value e' = new_value e.

(** Two states that differ in TVars, log chunks and threads only. *)
Definition commit_step (s s' : stm) : Prop :=
  ∃ tvs ch sc, s' = set_tvars tvs (set_chunks ch (set_sch sc s)).

Section validate.
Context (cfg : stm_config) (gen_no : ptr → Z).
Implicit Types (s : stm) (t : ptr) (es : list TRecEntry).

(** The entry's TVar holds the expected value. *)
Definition valid_entry (tvs : gmap ptr StgTVar) (e : TRecEntry) : bool :=
  bool_decide (current_value <$> tvs !! e_tvar e = Some (expected_value e)).
Definition valid_log (tvs : gmap ptr StgTVar) (es : list TRecEntry) : bool :=
  forallb (valid_entry tvs) es.

(** Is the entry's TVar locked during the operation? *)
Definition acquired (all : bool) (e : TRecEntry) : bool :=
  bool_decide (cfg = STM_FG_LOCKS) && (all || entry_is_update e).
Definition lock_fun (t : ptr) (all : bool) (k : nat) (j : nat) (e : TRecEntry) (v : StgTVar) : StgTVar :=
  if decide (j < k)%nat then if acquired all e then tv_set_value (CTRec t) v else v else v.

(** No TVar of the log is locked, nor a lock expected. *)
Definition plain_log (s : stm) (es : list TRecEntry) : Prop :=
  tvars_live (tvars s) es ∧
  ∀ e, e ∈ es → is_trec (expected_value e) = false ∧ is_trec (new_value e) = false ∧
    ∀ v, tvars s !! e_tvar e = Some v → unlocked cfg v.

(** The big lock is held, where there is one. *)
Definition holds_lock (s : stm) (t : ptr) : Prop := cfg = STM_CG_LOCK → smp_locked s = Some t.

Lemma wp_assert_smp s t Q : smp_locked s = Some t → Q tt s → wp (assert_smp t) Q s.
Proof. intros E HQ. unfold assert_smp. do 2 wp_step. wp_step; [by apply bool_decide_eq_true|done]. Qed.

Lemma wp_cond_lock s t tv v x Q :
  tvars s !! tv = Some v → holds_lock s t →
  Q (bool_decide (current_value v = x))
    (if bool_decide (cfg = STM_FG_LOCKS) && bool_decide (current_value v = x)
     then set_tvars (<[tv := tv_set_value (CTRec t) v]> (tvars s)) s else s) →
  wp (cond_lock_tvar cfg t tv x) Q s.
Proof.
  intros Hv Hh HQ. unfold cond_lock_tvar, holds_lock in *. destruct cfg; cbn in HQ.
  - do 3 wp_step. done.
  - wp_step. apply wp_assert_smp; [auto|]. do 3 wp_step. done.
  - do 2 wp_step. wp_step. apply wp_when; intros E; rewrite E in HQ |- *; cbn [andb] in HQ.
    + unfold upd_tvar, upd. do 3 wp_step. by wp_step.
    + by wp_step.
Qed.

Lemma wp_unlock s t tv v c force Q :
  tvars s !! tv = Some v → holds_lock s t →
  (cfg = STM_FG_LOCKS → current_value v = CTRec t) →
  Q tt (if bool_decide (cfg = STM_FG_LOCKS) || force
        then set_tvars (<[tv := tv_set_value c v]> (tvars s)) s else s) →
  wp (unlock_tvar cfg t tv c force) Q s.
Proof.
  intros Hv Hh Hl HQ. unfold unlock_tvar, holds_lock, upd_tvar, upd in *.
  destruct cfg; cbn in HQ.
  - apply wp_when; intros ->; [|done]. by do 3 wp_step.
  - wp_step. apply wp_assert_smp; [auto|]. apply wp_when; intros ->; [|done]. by do 3 wp_step.
  - do 2 wp_step. wp_step. wp_step; [by apply bool_decide_eq_true, Hl|]. by do 3 wp_step.
Qed.

Lemma slist_agree nx nx' hd l : slist nx hd l END → slist nx' hd l END → ∀ x, x ∈ l → nx' x = nx x.
Proof.
  revert hd. induction l as [|y l IH]; intros hd; [by intros _ _ x ?%elem_of_nil|].
  intros (-> & _ & n & Hn & H) (_ & _ & n' & Hn' & H') x [->|Hx]%elem_of_cons.
  - rewrite Hn, Hn'. destruct l as [|z l]; cbn in H, H'; [congruence|].
    destruct H as [-> _], H' as [-> _]. done.
  - assert (n' = n) as ->.
    { destruct l as [|z l]; cbn in H, H'; [congruence|]. destruct H as [-> _], H' as [-> _]. done. }
    by eapply IH.
Qed.

Lemma is_log_chain_same s s' t h n cs es es' c :
  is_log s t h n cs es → is_log s' t h n cs es' → c ∈ cs → chunk_prev s' c = chunk_prev s c.
Proof. intros Hl Hl'. apply slist_agree with (current_chunk h); [apply Hl|apply Hl']. Qed.

(** After [k] entries: those are valid, their TVars locked as required, and the
    versions of the others noted in the log. *)
Record validated (s : stm) (t : ptr) (h : StgTRecHeader) (n : nat) (cs : list ptr)
    (es : list TRecEntry) (all : bool) (k : nat) (s' : stm) (es' : list TRecEntry) : Prop := {
  vs_step : commit_step s s' ∧ sch s' = sch s;
  vs_log : is_log s' t h n cs es';
  vs_same : Forall2 same_entry es es';
  vs_tvars : tvs_at (lock_fun t all k) (tvars s) es (tvars s');
  vs_valid j e : (j < k)%nat → es !! j = Some e → valid_entry (tvars s) e = true;
  vs_seen j e e' v : (j < k)%nat → es !! j = Some e → es' !! j = Some e' →
    cfg = STM_FG_LOCKS → acquired all e = false → tvars s !! e_tvar e = Some v →
    e_num_updates e' = num_updates v
}.

Lemma commit_step_refl s : commit_step s s.
Proof. exists (tvars s), (chunks s), (sch s). by destruct s. Qed.

Lemma same_entry_refl es : Forall2 same_entry es es.
Proof. apply Forall_Forall2_diag, Forall_true. done. Qed.

Lemma same_entry_update e e' : same_entry e e' → entry_is_update e' = entry_is_update e.
Proof. intros (_ & E1 & E2). unfold entry_is_update. by rewrite E1, E2. Qed.

Lemma commit_step_tvars s s' tvs : commit_step s s' → commit_step s (set_tvars tvs s').
Proof. intros (? & ch & sc & ->). by exists tvs, ch, sc. Qed.
Lemma commit_step_write s s' r e x : commit_step s s' → commit_step s (write_slot r e x s').
Proof. intros (tvs & ch & sc & ->). by eexists tvs, _, sc. Qed.
Lemma commit_step_lock s s' t : commit_step s s' → holds_lock s t → holds_lock s' t.
Proof. by intros (? & ? & ? & ->). Qed.
Lemma commit_step_trans s1 s2 s3 : commit_step s1 s2 → commit_step s2 s3 → commit_step s1 s3.
Proof. intros (? & ? & ? & ->) (tvs & ch & sc & ->). by exists tvs, ch, sc. Qed.

Lemma valid_entry_spec tvs e v :
  tvs !! e_tvar e = Some v → valid_entry tvs e = bool_decide (current_value v = expected_value e).
Proof.
  intros Hv. unfold valid_entry. rewrite Hv. cbn. apply bool_decide_ext. split; congruence.
Qed.

(** One step of the loop keeps [validated]. *)
Lemma validated_lock s t h n cs es all k s' es' e v :
  NoDup (e_tvar <$> es) → validated s t h n cs es all k s' es' → es !! k = Some e →
  tvars s !! e_tvar e = Some v → valid_entry (tvars s) e = true →
  all || entry_is_update e = true →
  validated s t h n cs es all (S k)
    (if bool_decide (cfg = STM_FG_LOCKS) && true
     then set_tvars (<[e_tvar e := tv_set_value (CTRec t) v]> (tvars s')) s' else s') es'.
Proof.
  intros Hnd [Hst Hl Hs Htv Hval Hseen] He Hv Hve Hacq.
  assert (∀ j e, (j < S k)%nat → es !! j = Some e → valid_entry (tvars s) e = true) as Hval'.
  { intros j e2 Hj He2. destruct (decide (j = k)) as [->|]; [congruence|]. eapply (Hval j); [lia|done]. }
  assert (acquired all e = bool_decide (cfg = STM_FG_LOCKS)) as Ha.
  { unfold acquired. by rewrite Hacq, andb_true_r. }
  rewrite andb_true_r. case_bool_decide as Ec.
  - constructor; cbn; [by split; [apply commit_step_tvars|]; apply Hst| |done| |done|].
    + by eapply is_log_ext; [| |exact Hl].
    + eapply tvs_at_insert; [done|done|done|exact Htv| |].
      * intros j e2 v2 Hj. unfold lock_fun. repeat case_decide; try done; lia.
      * unfold lock_fun. rewrite decide_True by lia. by rewrite Ha.
    + intros j e2 e2' v2 Hj He2 He2' _ Hna Hv2. destruct (decide (j = k)) as [->|].
      * assert (e2 = e) as -> by congruence. congruence.
      * eapply (Hseen j e2); try done. lia.
  - constructor; cbn; [done|done|done| |done|done].
    eapply tvs_at_ext; [|exact Htv]. intros j e2 v2 _ _. unfold lock_fun, acquired.
    rewrite bool_decide_false by done. cbn. by repeat case_decide.
Qed.

Lemma validated_read s t h n cs es all k s' es' e e' v r x :
  validated s t h n cs es all k s' es' → es !! k = Some e → es' !! k = Some e' →
  refs_of cs n !! k = Some r → chunks s' !! r.1 = Some x →
  tvars s !! e_tvar e = Some v → valid_entry (tvars s) e = true →
  all || entry_is_update e = false →
  validated s t h n cs es all (S k) (write_slot r (e_set_updates (num_updates v) e') x s')
    (<[k := e_set_updates (num_updates v) e']> es').
Proof.
  intros [[Hst Hsch] Hl Hs Htv Hval Hseen] He He' Hr Hx Hv Hve Hacq.
  assert (acquired all e = false) as Ha by (unfold acquired; by rewrite Hacq, andb_false_r).
  assert (same_entry e e') as Hse by (eapply Forall2_lookup_lr; eauto).
  constructor; cbn.
  - split; [by apply commit_step_write|done].
  - by eapply is_log_write.
  - apply Forall2_same_length_lookup. split.
    { rewrite length_insert. by eapply Forall2_length. }
    intros j e1 e2 He1 He2. destruct (decide (j = k)) as [->|Hj].
    + rewrite list_lookup_insert_eq in He2 by by eapply lookup_lt_Some.
      injection He2 as <-. assert (e1 = e) as -> by congruence. done.
    + rewrite list_lookup_insert_ne in He2 by done. eapply Forall2_lookup_lr; eauto.
  - eapply tvs_at_ext; [|exact Htv]. intros j e2 v2 He2 _. unfold lock_fun.
    destruct (decide (j = k)) as [->|].
    + assert (e2 = e) as -> by congruence. rewrite decide_True, Ha by lia. by case_decide.
    + repeat case_decide; try done; lia.
  - intros j e2 Hj He2. destruct (decide (j = k)) as [->|]; [congruence|]. eapply (Hval j); [lia|done].
  - intros j e1 e2 v2 Hj He1 He2 Hc Hna Hv2. destruct (decide (j = k)) as [->|Hjk].
    + rewrite list_lookup_insert_eq in He2 by by eapply lookup_lt_Some.
      injection He2 as <-. cbn. assert (e1 = e) as -> by congruence. congruence.
    + rewrite list_lookup_insert_ne in He2 by done. eapply (Hseen j e1); try done. lia.
Qed.

(** The body of the validation loop. *)
Definition validate_body (t : ptr) (all : bool) (r : eref) (result : bool) : prog stm (bool * bool) :=
  en ← get_entry r;
  let s := e_tvar en in
  if all || entry_is_update en then
    b ← cond_lock_tvar cfg t s (expected_value en);
    if negb b then mret (false, true) else mret (result, false)
  else
    ASSERT (config_use_read_phase cfg);;
    v ← load tvars s;
    if negb (bool_decide (current_value v = expected_value en)) then mret (false, true)
    else
      upd_entry r (e_set_updates (num_updates v));;
      v ← load tvars s;
      if negb (bool_decide (current_value v = expected_value en)) then mret (false, true)
      else mret (result, false).

Definition validate_post (s : stm) t h n cs es all (r : bool) (s' : stm) : Prop :=
  ∃ k es', validated s t h n cs es all k s' es' ∧
    if r then k = length es else ∃ e, es !! k = Some e ∧ valid_entry (tvars s) e = false.

Lemma validate_step s t h n cs es all k s' es' e v r Q :
  NoDup (e_tvar <$> es) → validated s t h n cs es all k s' es' → es !! k = Some e →
  refs_of cs n !! k = Some r → tvars s !! e_tvar e = Some v → holds_lock s t →
  (cfg ≠ STM_FG_LOCKS → all = true) →
  (valid_entry (tvars s) e = true → ∀ s2 es2, validated s t h n cs es all (S k) s2 es2 → Q (true, false) s2) →
  (valid_entry (tvars s) e = false → Q (false, true) s') →
  wp (validate_body t all r true) Q s'.
Proof.
  intros Hnd Hvs He Hr Hv Hh Hcfg Hok Hbad. assert (Hvs' := Hvs).
  destruct Hvs' as [[Hst Hsch] Hl Hs Htv Hval Hseen].
  destruct (is_log_entry _ _ _ _ _ _ _ _ Hl Hr) as (e' & He' & Hre).
  assert (same_entry e e') as Hse by (eapply Forall2_lookup_lr; eauto).
  assert (tvars s' !! e_tvar e = Some v) as Hv'.
  { rewrite (proj1 Htv k e v He Hv). unfold lock_fun. by rewrite decide_False by lia. }
  pose proof (valid_entry_spec (tvars s) e v Hv) as Hspec.
  assert (Hse' := Hse). destruct Hse' as (Et & Ex & En).
  unfold validate_body. wp_step. eapply wp_get_entry; [done|].
  rewrite (same_entry_update _ _ Hse), Et, Ex.
  destruct (all || entry_is_update e) eqn:Hacq.
  - wp_step. eapply wp_cond_lock; [done|by eapply commit_step_lock|].
    rewrite <- Hspec. destruct (valid_entry (tvars s) e) eqn:Hve; cbn [negb].
    + wp_step. eapply Hok; [done|]. by eapply validated_lock.
    + rewrite andb_false_r. wp_step. by apply Hbad.
  - assert (cfg = STM_FG_LOCKS) as Ec.
    { destruct (decide (cfg = STM_FG_LOCKS)); [done|]. rewrite Hcfg in Hacq by done. done. }
    wp_step. wp_step; [unfold config_use_read_phase; by apply bool_decide_eq_true|].
    do 2 wp_step. rewrite <- Hspec. destruct (valid_entry (tvars s) e) eqn:Hve; cbn [negb].
    + wp_step. eapply wp_upd_entry; [done|]. intros x Hx Hlen. do 2 wp_step.
      rewrite <- Hspec. cbn [negb]. wp_step.
      eapply Hok; [done|]. by eapply validated_read.
    + wp_step. by apply Hbad.
Qed.

Lemma validate_loop s t h n cs es all :
  is_log s t h n cs es → NoDup (e_tvar <$> es) → plain_log s es → holds_lock s t →
  (cfg ≠ STM_FG_LOCKS → all = true) →
  wp (FOR_EACH_ENTRY (validate_body t all) t true)
     (λ r s', validate_post s t h n cs es all r s') s.
Proof.
  intros Hl Hnd [Hlive Hplain] Hh Hcfg.
  pose proof (Forall2_length _ _ _ (il_entries _ _ _ _ _ _ Hl)) as Hlen.
  eapply wp_mono; [eapply (wp_FOR_EACH_ENTRY (validate_body t all)
    (λ pre a s', a = true ∧ ∃ es', validated s t h n cs es all (length pre) s' es')
    (λ a s', a = false ∧ validate_post s t h n cs es all false s')); [exact Hl|..]|].
  - intros pre r post a s' Hrs (-> & es' & Hvs). apply refs_split_lookup in Hrs as Hr.
    destruct (is_log_entry _ _ _ _ _ _ _ _ Hl Hr) as (e & He & _).
    destruct (Hlive e) as [v Hv]; [by eapply list_elem_of_lookup_2|].
    eapply validate_step; try done; cbn.
    + intros _ s2 es2 H2. split; [done|]. exists es2. rewrite length_app; cbn. by rewrite Nat.add_1_r.
    + intros Hbad. split; [done|]. exists (length pre), es'. split; [done|]. eauto.
  - intros pre a s' c (_ & es' & Hvs) Hc. eapply is_log_chain_same; [exact Hl|apply Hvs|done].
  - split; [done|]. exists es. constructor; [|done|apply same_entry_refl| |cbn; lia..].
    + split; [apply commit_step_refl|done].
    + apply tvs_at_refl. intros j e v _. done.
  - intros a s' [[-> Hpost]|(-> & es' & Hvs)]; [done|]. exists (length es), es'. split; [|done].
    by rewrite Hlen in Hvs.
Qed.

Definition revert_body (t : ptr) (all : bool) (r : eref) (_ : unit) : prog stm (unit * bool) :=
  en ← get_entry r;
  when (all || entry_is_update en)
    (b ← tvar_is_locked (e_tvar en) t;
     when b (unlock_tvar cfg t (e_tvar en) (expected_value en) true));;
  mret (tt, false).

Definition revert_fun (t : ptr) (all : bool) (k i : nat) (j : nat) (e : TRecEntry) (v : StgTVar) : StgTVar :=
  if decide (j < i)%nat then v else lock_fun t all k j e v.

Lemma lock_fun_set x v t : current_value v = x → tv_set_value x (tv_set_value (CTRec t) v) = v.
Proof. destruct v; cbn. by intros ->. Qed.

(** What releasing a TVar looks at: its entry's TVar, the value expected, and
    whether the entry is an update when only those were acquired. *)
Definition release_entry (all : bool) (e e' : TRecEntry) : Prop :=
  e_tvar e' = e_tvar e ∧ expected_value e' = expected_value e ∧
  all || entry_is_update e' = all || entry_is_update e.

Lemma same_release all es es1 : Forall2 same_entry es es1 → Forall2 (release_entry all) es es1.
Proof.
  intros H. eapply Forall2_impl; [exact H|]. intros e e' He. destruct (He) as (Et & Ex & _).
  split_and!; [done|done|]. by rewrite (same_entry_update _ _ He).
Qed.

Lemma revert_step s t es es1 all k i tvs s2 e v r Q :
  NoDup (e_tvar <$> es) → Forall2 (release_entry all) es es1 → cfg = STM_FG_LOCKS →
  es !! i = Some e → (∃ e1, es1 !! i = Some e1 ∧ entry_at s2 r = Some e1) →
  tvars s !! e_tvar e = Some v → unlocked cfg v →
  (∀ j e, (j < k)%nat → es !! j = Some e → valid_entry (tvars s) e = true) →
  tvs_at (revert_fun t all k i) (tvars s) es tvs → s2 = set_tvars tvs s2 → holds_lock s2 t →
  (∀ tvs', tvs_at (revert_fun t all k (S i)) (tvars s) es tvs' → Q (tt, false) (set_tvars tvs' s2)) →
  wp (revert_body t all r tt) Q s2.
Proof.
  intros Hnd Hsame Ec He (e1 & He1 & Hre) Hv Hu Hval Htv Es2 Hh HQ.
  assert (release_entry all e e1) as (Et & Ex & Eu) by (eapply Forall2_lookup_lr; eauto).
  assert (tvars s2 = tvs) as Etvs by (rewrite Es2; done).
  assert (tvars s2 !! e_tvar e = Some (lock_fun t all k i e v)) as Hv2.
  { rewrite Etvs, (proj1 Htv i e v He Hv). unfold revert_fun. by rewrite decide_False by lia. }
  assert (lock_fun t all k i e v = v → tvs_at (revert_fun t all k (S i)) (tvars s) es tvs) as Hskip.
  { intros Hlf. eapply tvs_at_ext; [|exact Htv]. intros j e2 v2 He2 Hv2'. unfold revert_fun.
    destruct (decide (j = i)) as [->|]; [|repeat case_decide; try done; lia].
    rewrite decide_True, decide_False by lia. assert (e2 = e) as -> by congruence. congruence. }
  unfold revert_body. wp_step. eapply wp_get_entry; [done|].
  rewrite Eu, Et, Ex.
  assert (tvs_at (revert_fun t all k (S i)) (tvars s) es tvs → wp (mret (tt, false)) Q s2) as Hend.
  { intros Hs. wp_step. rewrite Es2. by apply HQ. }
  wp_step. apply wp_when; intros Hacq.
  - unfold tvar_is_locked. do 4 wp_step.
    apply wp_when; intros Hb; [apply bool_decide_eq_true in Hb|apply bool_decide_eq_false in Hb].
    + unfold lock_fun in Hb, Hv2. destruct (decide (i < k)%nat) as [Hik|]; [|by specialize (Hu Ec); rewrite Hb in Hu].
      destruct (acquired all e) eqn:Ha; [|by specialize (Hu Ec); rewrite Hb in Hu].
      eapply wp_unlock; [done|done|done|]. rewrite orb_true_r. wp_step.
      pose proof (Hval i e Hik He) as Hve. rewrite (valid_entry_spec _ _ v Hv) in Hve.
      apply bool_decide_eq_true in Hve. rewrite lock_fun_set by done.
      eapply HQ. rewrite Etvs. eapply tvs_at_insert; [done|done|done|exact Htv| |].
      * intros j e2 v2 Hj. unfold revert_fun. repeat case_decide; try done; lia.
      * unfold revert_fun. by rewrite decide_True by lia.
    + apply Hend, Hskip. unfold lock_fun in *. repeat case_decide; try done.
      by destruct (acquired all e).
  - apply Hend, Hskip. unfold lock_fun, acquired. rewrite Hacq, andb_false_r. by repeat case_decide.
Qed.

Lemma revert_ok s s1 t h n cs es es1 all k :
  is_log s1 t h n cs es1 → Forall2 (release_entry all) es es1 → NoDup (e_tvar <$> es) →
  plain_log s es → holds_lock s1 t →
  tvs_at (lock_fun t all k) (tvars s) es (tvars s1) →
  (∀ j e, (j < k)%nat → es !! j = Some e → valid_entry (tvars s) e = true) →
  wp (revert_ownership cfg t all) (λ _ s2, s2 = set_tvars (tvars s) s1) s1.
Proof.
  intros Hl Hsame Hnd [Hlive Hplain] Hh Htv Hval. unfold revert_ownership.
  destruct (decide (cfg = STM_FG_LOCKS)) as [Ec|Ec].
  - pose proof (Forall2_length _ _ _ (il_entries _ _ _ _ _ _ Hl)) as Hlen.
    pose proof (Forall2_length _ _ _ Hsame) as Hlen2.
    eapply wp_mono; [eapply (wp_FOR_EACH_ENTRY (revert_body t all)
      (λ pre _ s2, ∃ tvs, s2 = set_tvars tvs s1 ∧
         tvs_at (revert_fun t all k (length pre)) (tvars s) es tvs) (λ _ _, False)); [exact Hl|..]|].
    + intros pre r post [] s2 Hrs (tvs & -> & Htvs). apply refs_split_lookup in Hrs as Hr.
      destruct (is_log_entry _ _ _ _ _ _ _ _ Hl Hr) as (e1 & He1 & Hre).
      destruct (lookup_lt_is_Some_2 es (length pre)) as [e He].
      { rewrite Hlen2. by eapply lookup_lt_Some. }
      destruct (Hlive e) as [v Hv]; [by eapply list_elem_of_lookup_2|].
      eapply (revert_step s t es es1 all k (length pre) tvs _ e v); try done.
      * by exists e1.
      * apply (proj2 (proj2 (Hplain e (list_elem_of_lookup_2 _ _ _ He)))); done.
      * intros tvs' Htvs'. cbn. exists tvs'. split; [done|]. rewrite length_app; cbn. by rewrite Nat.add_1_r.
    + intros pre [] s2 c (tvs & -> & _) _. done.
    + exists (tvars s1). split; [by destruct s1|]. cbn. eapply tvs_at_ext; [|exact Htv].
      intros j e v _ _. unfold revert_fun. by rewrite decide_False by lia.
    + intros [] s2 [[]|(tvs & -> & Htvs)]. f_equal. eapply tvs_at_eq; [exact Hlive|exact Htvs|].
      intros j e v He _. unfold revert_fun. rewrite decide_True; [done|].
      apply lookup_lt_Some in He. lia.
  - wp_step. assert (tvars s1 = tvars s) as <-; [|by destruct s1].
    eapply tvs_at_eq; [exact Hlive|exact Htv|]. intros j e v _ _. unfold lock_fun, acquired.
    rewrite bool_decide_false by done. cbn. by case_decide.
Qed.

(** Nothing has changed but the version numbers noted in the log. *)
Definition untouched (s : stm) t h n cs es (s' : stm) : Prop :=
  ∃ es', is_log s' t h n cs es' ∧ Forall2 same_entry es es' ∧ tvars s' = tvars s ∧
    commit_step s s' ∧ sch s' = sch s.

Lemma valid_log_all tvs es :
  (∀ j e, (j < length es)%nat → es !! j = Some e → valid_entry tvs e = true) → valid_log tvs es = true.
Proof.
  intros Hall. apply forallb_forall. intros e He.
  apply list_elem_of_In, list_elem_of_lookup in He as [j Hj].
  eapply Hall; [by eapply lookup_lt_Some|done].
Qed.

Lemma valid_log_none tvs es k e :
  es !! k = Some e → valid_entry tvs e = false → valid_log tvs es = false.
Proof.
  intros He Hv. apply not_true_is_false. intros Hall. unfold valid_log in Hall.
  rewrite forallb_forall in Hall. rewrite Hall in Hv; [done|].
  apply list_elem_of_In. by eapply list_elem_of_lookup_2.
Qed.

Lemma validated_untouched s t h n cs es all k s' es' :
  NoDup (e_tvar <$> es) → plain_log s es → holds_lock s t →
  validated s t h n cs es all k s' es' →
  wp (revert_ownership cfg t all) (λ _ s2, untouched s t h n cs es s2) s'.
Proof.
  intros Hnd Hpl Hh [[Hst Hsch] Hl Hs Htv Hval _].
  eapply wp_mono; [eapply revert_ok; try done; [by apply same_release|by eapply commit_step_lock]|].
  intros [] s2 ->. exists es'. split_and!; [|done|done|by apply commit_step_tvars|done].
  by eapply is_log_ext; [| |exact Hl].
Qed.

Lemma validate_ok s t h n cs es all retain :
  is_log s t h n cs es → NoDup (e_tvar <$> es) → plain_log s es → holds_lock s t →
  (cfg ≠ STM_FG_LOCKS → all = true) →
  state h = TREC_ACTIVE ∨ state h = TREC_WAITING ∨ state h = TREC_CONDEMNED →
  wp (validate_and_acquire_ownership cfg t all retain)
     (λ r s', r = negb (bool_decide (state h = TREC_CONDEMNED)) && valid_log (tvars s) es ∧
        if r && retain then ∃ es', validated s t h n cs es all (length es) s' es'
        else untouched s t h n cs es s') s.
Proof.
  intros Hl Hnd Hpl Hh Hcfg Hstate. unfold validate_and_acquire_ownership.
  do 2 wp_step; [apply Hl|]. wp_step. wp_step; [by apply bool_decide_eq_true|].
  wp_step. destruct (decide (state h = TREC_CONDEMNED)) as [E|E].
  - rewrite bool_decide_true by done. cbn [negb andb]. wp_step. wp_step. cbn [negb orb when].
    eapply wp_mono; [eapply (validated_untouched s t h n cs es all 0 s es)|]; try done.
    { constructor; [|done|apply same_entry_refl| |lia..].
      - split; [apply commit_step_refl|done].
      - by apply tvs_at_refl. }
  - rewrite bool_decide_false by done. cbn [negb andb].
    eapply wp_mono; [eapply (validate_loop s t h n cs es all); done|].
    intros r s' (k & es' & Hvs & Hr). wp_step. destruct r.
    + subst k. rewrite valid_log_all by (intros; eapply vs_valid; done).
      destruct retain; cbn [negb orb when andb].
      * wp_step. wp_step. split; [done|]. by exists es'.
      * eapply wp_mono; [by eapply validated_untouched|]. intros [] s2 Hs2. by wp_step.
    + destruct Hr as (e & He & Hve). rewrite (valid_log_none _ _ _ _ He Hve). cbn [negb orb when andb].
      eapply wp_mono; [by eapply validated_untouched|]. intros [] s2 Hs2. by wp_step.
Qed.

(** *** The read phase *)

Lemma same_entry_read_only e e' : same_entry e e' → entry_is_read_only e' = negb (entry_is_update e).
Proof.
  intros (_ & E1 & E2). unfold entry_is_read_only, entry_is_update.
  by rewrite E1, E2, negb_involutive.
Qed.

Lemma check_read_only_ok s t h n cs es s1 es1 :
  cfg = STM_FG_LOCKS → tvars_live (tvars s) es →
  validated s t h n cs es false (length es) s1 es1 →
  wp (check_read_only cfg t) (λ r s', r = true ∧ s' = s1) s1.
Proof.
  intros Ec Hlive [_ Hl Hs Htv _ Hseen]. unfold check_read_only. wp_step. wp_step.
  { unfold config_use_read_phase. by apply bool_decide_eq_true. }
  rewrite decide_True by done.
  eapply wp_mono; [eapply (wp_FOR_EACH_ENTRY _ (λ pre a s', a = true ∧ s' = s1) (λ _ _, False)); [exact Hl|..]|].
  - intros pre r post a s' Hrs (-> & ->). apply refs_split_lookup in Hrs as Hr.
    destruct (is_log_entry _ _ _ _ _ _ _ _ Hl Hr) as (e' & He' & Hre).
    destruct (lookup_lt_is_Some_2 es (length pre)) as [e He].
    { rewrite (Forall2_length _ _ _ Hs). by eapply lookup_lt_Some. }
    assert (same_entry e e') as Hse by (eapply Forall2_lookup_lr; eauto).
    destruct (Hlive e) as [v Hv]; [by eapply list_elem_of_lookup_2|].
    wp_step. eapply wp_get_entry; [done|]. rewrite (same_entry_read_only _ _ Hse).
    destruct (entry_is_update e) eqn:Eu; cbn [negb]; [by wp_step|].
    assert (acquired false e = false) as Ha by (unfold acquired; by rewrite Eu, andb_false_r).
    do 2 wp_step.
    { destruct Hse as (-> & _). rewrite (proj1 Htv _ _ _ He Hv). unfold lock_fun. rewrite Ha.
      by rewrite decide_True by by eapply lookup_lt_Some. }
    rewrite (Hseen (length pre) e e' v); try done; [|by eapply lookup_lt_Some].
    rewrite Z.eqb_refl. cbn [negb]. by wp_step.
  - by intros pre a s' c (_ & ->) _.
  - done.
  - by intros a s' [[]|[-> ->]].
Qed.

Lemma read_phase_ok n_capabilities s t h n cs es s1 es1 start :
  cfg = STM_FG_LOCKS → tvars_live (tvars s) es →
  validated s t h n cs es false (length es) s1 es1 →
  max_commits s1 = start →
  wp (read_phase cfg n_capabilities t start) (λ r s', r = true ∧ s' = s1) s1.
Proof.
  intros Ec Hlive Hvs Hm. unfold read_phase. wp_step.
  eapply wp_mono; [by eapply check_read_only_ok|]. intros r s' [-> ->]. do 3 wp_step.
  rewrite Hm, Z.sub_diag. change (wrapS 64 0) with 0.
  pose proof (wrapU_bound 32 (n_capabilities * TOKEN_BATCH_SIZE) ltac:(lia)) as Hb.
  set (u := wrapU 32 (n_capabilities * TOKEN_BATCH_SIZE)) in *.
  assert (wrapS 64 (0 + u) = u) as ->.
  { unfold wrapS. rewrite Z.mod_small by lia. rewrite bool_decide_true by lia. lia. }
  rewrite Z.shiftr_div_pow2 by lia. rewrite Z.div_small by lia. done.
Qed.
End validate.

(** ** The write phase *)
Section write.
Context (cfg : stm_config) (gen_no : ptr → Z).
Implicit Types (s : stm) (t : ptr) (es : list TRecEntry).

(** A TVar after the commit of an entry. *)
Definition committed (all : bool) (e : TRecEntry) (v : StgTVar) : StgTVar :=
  if all || entry_is_update e
  then mkTVar (new_value e) (first_watch_queue_entry v)
         (if bool_decide (cfg = STM_FG_LOCKS) then wrapS 64 (num_updates v + 1) else num_updates v)
  else v.

Definition write_fun (t : ptr) (all : bool) (k i : nat) (j : nat) (e : TRecEntry) (v : StgTVar) : StgTVar :=
  if decide (j < i)%nat then committed all e v else lock_fun cfg t all k j e v.

(** The watch queue of every TVar of the log: [qs] gives its entries. *)
Definition watched (s : stm) (es : list TRecEntry) (qs : ptr → list ptr) : Prop :=
  ∀ e v, e ∈ es → tvars s !! e_tvar e = Some v →
    watch_list s v (qs (e_tvar e)) ∧
    ∀ p, p ∈ watchers s (qs (e_tvar e)) → is_Some (tsos (sch s) !! p).

(** The threads the first [i] entries wake. *)
Definition wakes (s : stm) (es : list TRecEntry) (qs : ptr → list ptr) (all : bool) (i : nat) (p : ptr) : Prop :=
  why (sch s) p = Some BlockedOnSTM ∧
  ∃ j e, (j < i)%nat ∧ es !! j = Some e ∧ (all || entry_is_update e) = true ∧
    p ∈ watchers s (qs (e_tvar e)).

Definition write_inv (s s1 : stm) t es qs all l (i : nat) (s2 : stm) : Prop :=
  ∃ tvs sc W, s2 = set_tvars tvs (set_sch sc s1) ∧
    tvs_at (write_fun t all (length es) i) (tvars s) es tvs ∧
    woken l W (sch s) sc ∧ ∀ p, p ∈ W ↔ wakes s es qs all i p.

Definition write_body (t : ptr) (use_read_phase : bool) (r : eref) (_ : unit) : prog stm (unit * bool) :=
  en ← get_entry r;
  let s := e_tvar en in
  when (negb use_read_phase || negb (bool_decide (new_value en = expected_value en)))
    (b ← tvar_is_locked s t;
     ACQ_ASSERT cfg b;;
     unpark_waiters_on gen_no s;;
     when (bool_decide (cfg = STM_FG_LOCKS))
       (upd_tvar s (λ v, tv_set_updates (wrapS 64 (num_updates v + 1)) v));;
     unlock_tvar cfg t s (new_value en) true);;
  b ← tvar_is_locked s t;
  ACQ_ASSERT cfg (negb b);;
  mret (tt, false).

Lemma wp_ACQ_ASSERT b Q s : (cfg = STM_FG_LOCKS → b = true) → Q tt s → wp (ACQ_ASSERT cfg b) Q s.
Proof.
  intros Hb HQ. unfold ACQ_ASSERT. destruct (decide (cfg = STM_FG_LOCKS)); [|by wp_step].
  wp_step; [auto|done].
Qed.

Lemma wp_tvar_is_locked s tv t v Q :
  tvars s !! tv = Some v → Q (bool_decide (current_value v = CTRec t)) s → wp (tvar_is_locked tv t) Q s.
Proof. intros Hv HQ. unfold tvar_is_locked. by do 3 wp_step. Qed.

Lemma acquired_all all e :
  cfg = STM_FG_LOCKS → acquired cfg all e = all || entry_is_update e.
Proof. intros Ec. unfold acquired. by rewrite bool_decide_true. Qed.

(** Wake the waiters of one TVar, then write it. *)
Lemma write_one s s1 t es qs all l i e e1 v tvs sc W Q :
  NoDup (e_tvar <$> es) → es !! i = Some e → same_entry e e1 → tvars s !! e_tvar e = Some v →
  watched s es qs → watchqs s1 = watchqs s → holds_lock cfg s1 t →
  (all || entry_is_update e) = true → (cfg ≠ STM_FG_LOCKS → all = true) →
  tvs_at (write_fun t all (length es) i) (tvars s) es tvs →
  woken l W (sch s) sc → (∀ p, p ∈ W ↔ wakes s es qs all i p) →
  (∀ s2, write_inv s s1 t es qs all l (S i) s2 → tvars s2 !! e_tvar e = Some (committed all e v) → Q tt s2) →
  wp (b ← tvar_is_locked (e_tvar e) t;
      ACQ_ASSERT cfg b;;
      unpark_waiters_on gen_no (e_tvar e);;
      when (bool_decide (cfg = STM_FG_LOCKS))
        (upd_tvar (e_tvar e) (λ v, tv_set_updates (wrapS 64 (num_updates v + 1)) v));;
      unlock_tvar cfg t (e_tvar e) (new_value e) true) Q (set_tvars tvs (set_sch sc s1)).
Proof.
  intros Hnd He Hse Hv Hwd Hwq Hh Hacq Hall Htv Hwk HW HQ.
  assert (i < length es)%nat as Hi by by eapply lookup_lt_Some.
  set (vl := lock_fun cfg t all (length es) i e v).
  assert (tvs !! e_tvar e = Some vl) as Hvl.
  { rewrite (proj1 Htv i e v He Hv). unfold write_fun. by rewrite decide_False by lia. }
  assert (cfg = STM_FG_LOCKS → current_value vl = CTRec t) as Hlk.
  { intros Ec. unfold vl, lock_fun. rewrite decide_True by done. by rewrite acquired_all, Hacq. }
  assert (first_watch_queue_entry vl = first_watch_queue_entry v ∧ num_updates vl = num_updates v) as [Hf Hn].
  { unfold vl, lock_fun. by repeat case_match. }
  destruct (Hwd e v) as [Hwl Hlive]; [by eapply list_elem_of_lookup_2|done|].
  wp_step. eapply wp_tvar_is_locked; [done|]. wp_step. apply wp_ACQ_ASSERT.
  { intros Ec. by apply bool_decide_eq_true, Hlk. }
  wp_step. eapply wp_mono; [eapply (unpark_waiters_ok gen_no _ (l ++ W) (e_tvar e) vl (qs (e_tvar e)))|].
  { done. }
  { destruct Hwl as [lst Hd]. exists lst. cbn. by rewrite Hwq, Hf. }
  { apply Hwk. }
  { cbn. unfold watchers in *. cbn. rewrite Hwq. intros p Hp. apply (woken_live _ _ _ _ p Hwk). by apply Hlive. }
  intros [] s2 (sc' & W' & -> & Hwk' & HW'). cbn in Hwk', HW'.
  assert (∀ Q', Q' tt (set_tvars (<[e_tvar e := committed all e v]> tvs) (set_sch sc' s1)) →
    wp (when (bool_decide (cfg = STM_FG_LOCKS))
        (upd_tvar (e_tvar e) (λ v, tv_set_updates (wrapS 64 (num_updates v + 1)) v));;
      unlock_tvar cfg t (e_tvar e) (new_value e) true) Q' (set_sch sc' (set_tvars tvs (set_sch sc s1)))) as Hw.
  { intros Q' HQ'. unfold committed in HQ'. rewrite Hacq in HQ'. wp_step.
    apply wp_when; intros Ec; [apply bool_decide_eq_true in Ec|apply bool_decide_eq_false in Ec].
    - unfold upd_tvar, upd. do 3 wp_step. eapply wp_unlock; [cbn; apply lookup_insert_eq|done|by intros; cbn; apply Hlk|].
      rewrite orb_true_r. cbn. rewrite insert_insert_eq. unfold tv_set_value, tv_set_updates; cbn.
      rewrite Hf, Hn. rewrite bool_decide_true in HQ' by done. done.
    - eapply wp_unlock; [done|done|done|]. rewrite orb_true_r. cbn.
      unfold tv_set_value; cbn. rewrite Hf, Hn. rewrite bool_decide_false in HQ' by done. done. }
  apply Hw. apply HQ; [|cbn; by rewrite lookup_insert_eq].
  eexists _, sc', (W ++ W'). split; [done|]. split_and!.
  - eapply tvs_at_insert; [done|done|done|exact Htv| |].
    + intros j e2 v2 Hj. unfold write_fun. repeat case_decide; try done; lia.
    + unfold write_fun. by rewrite decide_True by lia.
  - by eapply woken_trans.
  - intros p. rewrite elem_of_app, HW'.
    change (watchers (set_tvars tvs (set_sch sc s1)) (qs (e_tvar e))) with (watchers s1 (qs (e_tvar e))).
    assert (watchers s1 (qs (e_tvar e)) = watchers s (qs (e_tvar e))) as ->.
    { unfold watchers. by rewrite Hwq. }
    rewrite (why_woken _ _ _ _ p Hwk). split.
    + intros [Hin|[Hin Hw2]].
      * apply HW in Hin as (Hst & j & e2 & Hj & ?). split; [done|]. exists j, e2. split; [lia|done].
      * case_decide; [done|]. split; [done|]. exists i, e. split; [lia|done].
    + intros (Hst & j & e2 & Hj & He2 & Ha2 & Hin). destruct (decide (j = i)) as [->|].
      * assert (e2 = e) as -> by congruence. destruct (decide (p ∈ W)); [by left|right; split; [exact Hin|exact Hst]].
      * left. apply HW. split; [done|]. exists j, e2. split; [lia|done].
Qed.

Lemma write_skip s s1 t es qs all l i e s2 :
  write_inv s s1 t es qs all l i s2 → es !! i = Some e → (all || entry_is_update e) = false →
  write_inv s s1 t es qs all l (S i) s2.
Proof.
  intros (tvs & sc & W & -> & Htv & Hwk & HW) He Hacq. exists tvs, sc, W. split_and!; [done| |done|].
  - eapply tvs_at_ext; [|exact Htv]. intros j e2 v2 He2 _. unfold write_fun.
    destruct (decide (j = i)) as [->|]; [|repeat case_decide; try done; lia].
    assert (e2 = e) as -> by congruence. rewrite decide_True, decide_False by lia.
    unfold committed, lock_fun, acquired. rewrite Hacq, andb_false_r. by case_decide.
  - intros p. rewrite HW. split; intros (Hst & j & e2 & Hj & He2 & Ha2 & Hin); split; try done;
      exists j, e2; (split; [|done]); [lia|].
    destruct (decide (j = i)) as [->|]; [congruence|lia].
Qed.

Lemma committed_unlocked all t e v :
  is_trec (new_value e) = false → unlocked cfg v → cfg = STM_FG_LOCKS →
  negb (bool_decide (current_value (committed all e v) = CTRec t)) = true.
Proof.
  intros Hn Hu Ec. apply negb_true_iff, bool_decide_eq_false. unfold committed.
  destruct (all || entry_is_update e); cbn; intros E; [by rewrite E in Hn|].
  specialize (Hu Ec). by rewrite E in Hu.
Qed.

Lemma write_updates_ok s s1 t h n cs es es1 qs all l :
  NoDup (e_tvar <$> es) → plain_log cfg s es → watched s es qs → watchqs s1 = watchqs s →
  holds_lock cfg s1 t → (cfg ≠ STM_FG_LOCKS → all = true) → sched_inv (sch s) l →
  sch s1 = sch s → validated cfg s t h n cs es all (length es) s1 es1 →
  wp (write_updates cfg gen_no t (negb all))
     (λ _ s2, write_inv s s1 t es qs all l (length es) s2) s1.
Proof.
  intros Hnd [Hlive Hplain] Hwd Hwq Hh Hall Hsi Hsch [_ Hl Hs Htv _ _].
  pose proof (Forall2_length _ _ _ (il_entries _ _ _ _ _ _ Hl)) as Hlen.
  pose proof (Forall2_length _ _ _ Hs) as Hlen2.
  eapply wp_mono; [eapply (wp_FOR_EACH_ENTRY (write_body t (negb all))
    (λ pre _ s2, write_inv s s1 t es qs all l (length pre) s2) (λ _ _, False)); [exact Hl|..]|].
  - intros pre r post [] s2 Hrs Hinv. apply refs_split_lookup in Hrs as Hr.
    destruct (is_log_entry _ _ _ _ _ _ _ _ Hl Hr) as (e1 & He1 & Hre).
    destruct (lookup_lt_is_Some_2 es (length pre)) as [e He]; [rewrite Hlen2; by eapply lookup_lt_Some|].
    assert (same_entry e e1) as Hse by (eapply Forall2_lookup_lr; eauto).
    assert (e ∈ es) as Hin by by eapply list_elem_of_lookup_2.
    destruct (Hlive e Hin) as [v Hv]. destruct (Hplain e Hin) as (_ & Hnew & Hunl).
    unfold write_body. wp_step.
    assert (Hinv' := Hinv). destruct Hinv' as (tvs & sc & W & -> & Htvs & Hwk & HW).
    eapply wp_get_entry; [done|].
    assert (negb (negb all) || negb (bool_decide (new_value e1 = expected_value e1)) =
      all || entry_is_update e) as ->.
    { rewrite negb_involutive. f_equal. destruct Hse as (_ & -> & ->). unfold entry_is_update.
      f_equal. apply bool_decide_ext. split; congruence. }
    destruct Hse as (Et & Ex & En). rewrite Et, En.
    assert (∀ s2, write_inv s s1 t es qs all l (S (length pre)) s2 →
      tvars s2 !! e_tvar e = Some (committed all e v) →
      wp (b ← tvar_is_locked (e_tvar e) t; ACQ_ASSERT cfg (negb b);; mret (tt, false))
        (λ r' s', if r'.2 : bool then False else write_inv s s1 t es qs all l (length (pre ++ [r])) s') s2) as Hend.
    { intros s2 Hi2 Hv2. wp_step. eapply wp_tvar_is_locked; [done|].
      wp_step. apply wp_ACQ_ASSERT; [intros Ec; apply committed_unlocked; auto|].
      wp_step. cbn. rewrite length_app; cbn. by rewrite Nat.add_1_r. }
    wp_step. apply wp_when; intros Hacq.
    + eapply write_one; try done.
    + apply Hend; [by eapply write_skip|]. cbn. rewrite (proj1 Htvs _ _ _ He Hv).
      unfold write_fun. rewrite decide_False by lia. unfold lock_fun, acquired, committed.
      rewrite Hacq, andb_false_r. by case_decide.
  - intros pre [] s2 c (tvs & sc & W & -> & _) _. done.
  - exists (tvars s1), (sch s1), []. split; [by destruct s1|]. split_and!.
    + eapply tvs_at_ext; [|exact Htv]. intros j e v _ _. unfold write_fun. by rewrite decide_False by (apply Nat.nlt_0_r).
    + rewrite Hsch. by apply woken_nil.
    + intros p. split; [by intros ?%elem_of_nil|]. intros (_ & j & ? & Hj & _). by apply Nat.nlt_0_r in Hj.
  - intros [] s2 [[]|Hi]. by rewrite Hlen, <- Hlen2 in Hi.
Qed.
End write.

(** ** Freeing a transaction record *)
Section free.
Implicit Types (s : stm) (t : ptr).

Definition chunks_freed (cs : list ptr) (s s' : stm) : Prop :=
  ∃ f ch, s' = set_free_chunks f (set_chunks ch s) ∧
    (∀ c, c ∉ cs → ch !! c = chunks s !! c) ∧
    (∀ c, entries <$> ch !! c = entries <$> chunks s !! c) ∧
    ∀ fc, slist (chunk_prev s) (free_trec_chunks s) fc END → (∀ c, c ∈ cs → c ∉ fc) →
      slist (chunk_prev s') f (reverse cs ++ fc) END.

Lemma free_chunks_loop_ok fuel s c cs :
  slist (chunk_prev s) c cs END → (length cs < fuel)%nat →
  wp (free_chunks_loop fuel c) (λ _ s', chunks_freed cs s s') s.
Proof.
  revert s c cs. induction fuel as [|fuel IH]; intros s c cs Hc Hlen; [lia|].
  cbn [free_chunks_loop]. destruct cs as [|x cs]; cbn [slist] in Hc.
  - subst c. change (END =? END_STM_CHUNK_LIST) with true. cbv iota. wp_step.
    exists (free_trec_chunks s), (chunks s). split; [by destruct s|]. split_and!; [done..|].
    intros fc Hfc _. destruct s; exact Hfc.
  - pose proof (slist_NoDup (chunk_prev s) c (x :: cs) Hc) as [Hx Hnd]%NoDup_cons.
    destruct Hc as (-> & Hxe & n & Hn & Hc).
    rewrite (proj2 (Z.eqb_neq x END_STM_CHUNK_LIST) Hxe). unfold chunk_prev in Hn.
    destruct (chunks s !! x) as [ch|] eqn:Hch; [|done]. injection Hn as Hn.
    do 2 wp_step. wp_step. unfold free_stg_trec_chunk, upd_chunk, upd. do 4 wp_step. do 3 wp_step.
    rewrite Hn. cbn in Hlen.
    set (s1 := set_free_chunks x (set_chunks (<[x := ch_set_prev (free_trec_chunks s) ch]> (chunks s)) s)).
    eapply wp_mono; [apply (IH s1 n cs); [|lia]|].
    { eapply slist_ext; [|exact Hc]. intros y Hy. unfold chunk_prev; cbn.
      rewrite lookup_insert_ne; [done|]. by intros <-. }
    intros [] s' (f & ch' & -> & Hout & Hent & Hsl). exists f, ch'. split; [done|]. split_and!.
    + intros y Hy. rewrite Hout by set_solver. cbn. rewrite lookup_insert_ne; [done|set_solver].
    + intros y. rewrite Hent. cbn. rewrite lookup_insert. case_decide; [subst y; by rewrite Hch|done].
    + intros fc Hfc Hd. rewrite reverse_cons, <- app_assoc. apply Hsl.
      * cbn. split_and!; [done|done|]. exists (free_trec_chunks s). unfold chunk_prev at 1; cbn.
        rewrite lookup_insert_eq. split; [done|]. eapply slist_ext; [|exact Hfc].
        intros y Hy. unfold chunk_prev; cbn. rewrite lookup_insert_ne; [done|].
        intros <-. apply (Hd x); [by left|done].
      * intros y Hy [->|Hyf]%elem_of_cons; [done|]. apply (Hd y); [by right|done].
Qed.

(** What freeing a record leaves: the record at the head of the free list with
    its newest chunk, the other chunks in the pool. *)
Record header_freed (s : stm) (t : ptr) (h : StgTRecHeader) (cs : list ptr) (s' : stm) : Prop := {
  hf_step : ∃ f ch tr, s' = set_free_trecs t (set_trecs tr (set_free_chunks f (set_chunks ch s)));
  hf_trec : trecs s' = <[t := tr_set_enclosing (free_trec_headers s) h]> (trecs s);
  hf_entries c : entries <$> chunks s' !! c = entries <$> chunks s !! c;
  hf_chunks c : c ∉ cs → chunks s' !! c = chunks s !! c;
  hf_current : chunk_prev s' (current_chunk h) = Some END;
  hf_pool fc : slist (chunk_prev s) (free_trec_chunks s) fc END → (∀ c, c ∈ cs → c ∉ fc) →
    slist (chunk_prev s') (free_trec_chunks s') (reverse (tail cs) ++ fc) END
}.

Lemma free_header_ok s t h n cs es :
  is_log s t h n cs es →
  wp (free_stg_trec_header t) (λ _ s', header_freed s t h cs s') s.
Proof.
  intros [Ht Hh Hc Hch _ _ _]. destruct cs as [|c cs]; [done|]. injection Hh as ->.
  set (c := current_chunk h) in *.
  destruct (chunks s !! c) as [ch|] eqn:Ec; [|done].
  pose proof (slist_NoDup _ _ _ Hc) as [Hcn Hnd]%NoDup_cons.
  destruct Hc as (_ & Hce & m & Hm & Hc). unfold chunk_prev in Hm. rewrite Ec in Hm. injection Hm as Hm.
  unfold free_stg_trec_header. do 6 wp_step. wp_step. rewrite Hm.
  eapply wp_mono; [apply (free_chunks_loop_ok _ _ _ cs Hc)|].
  { apply slist_length in Hc. lia. }
  intros [] s1 (f & ch' & -> & Hout & Hent & Hsl). unfold upd_chunk, upd_trec, upd.
  do 2 wp_step. wp_step; [cbn; rewrite Hout by done; exact Ec|]. do 4 wp_step. do 4 wp_step.
  constructor; cbn -[reverse].
  - by eexists _, _, _.
  - done.
  - intros y. rewrite lookup_insert. case_decide as E; [rewrite <- E; exact (f_equal (fmap entries) (eq_sym Ec))|apply Hent].
  - intros y Hy. rewrite lookup_insert_ne by set_solver. apply Hout. set_solver.
  - unfold chunk_prev; cbn. by rewrite lookup_insert_eq.
  - intros fc Hfc Hd. eapply slist_ext; [|apply Hsl; [exact Hfc|]].
    + intros y Hy. unfold chunk_prev; cbn. rewrite lookup_insert_ne; [done|].
      intros Ey. rewrite <- Ey in Hy. apply elem_of_app in Hy as [Hy|Hy].
      * rewrite elem_of_reverse in Hy. exact (Hcn Hy).
      * apply (Hd c); [by left|exact Hy].
    + intros y Hy. apply Hd. by right.
Qed.
End free.
