(* ===== verification/STMTop.v ===== *)
(** * Top-level commit

    [stmCommitTransaction] on a transaction without data invariants: atomicity
    of the commit and the waking of the threads that wait for its TVars. *)
From S2P Require Import Prelude DList Threads STM STMLog STMAccess STMCommit.
From stdpp Require Import list gmap.
Local Open Scope Z_scope.

(** A transaction at the point of its commit: a top-level one, in progress, with
    a well-formed log, no invariant to check, and every TVar it names unlocked
    and with a well-formed watch queue. *)
Record commit_ready (cfg : stm_config) (s : stm) (t : ptr) (h : StgTRecHeader) (n : nat)
    (cs : list ptr) (es : list TRecEntry) (l : list ptr) (qs : ptr → list ptr) : Prop := {
  cr_ptr : t ≠ NO_TREC;
  cr_log : is_log s t h n cs es;
  cr_top : trec_enclosing h = NO_TREC;
  cr_state : state h = TREC_ACTIVE ∨ state h = TREC_CONDEMNED;
  cr_invs : invariants_to_check h = END_INVARIANT_CHECK_QUEUE;
  cr_nodup : NoDup (e_tvar <$> es);
  cr_plain : plain_log cfg s es;
  cr_unlocked : cfg = STM_CG_LOCK → smp_locked s = None;
  cr_sched : sched_inv (sch s) l;
  cr_watched : watched s es qs
}.

(** The answer of the commit: not condemned, and every TVar read still holds the
    value expected. *)
Definition commit_answer (s : stm) (h : StgTRecHeader) (es : list TRecEntry) : bool :=
  negb (bool_decide (state h = TREC_CONDEMNED)) && valid_log (tvars s) es.

(** Does the commit write every TVar of the log, or the updated ones only? *)
Definition writes_all (cfg : stm_config) : bool := negb (config_use_read_phase cfg).

(** The heap a commit leaves. *)
Definition commit_result (cfg : stm_config) (s : stm) (h : StgTRecHeader) (es : list TRecEntry)
    (l : list ptr) (qs : ptr → list ptr) (r : bool) (s' : stm) : Prop :=
  smp_locked s' = smp_locked s ∧
  if r then
    tvs_at (λ _ e v, committed cfg (writes_all cfg) e v) (tvars s) es (tvars s') ∧
    ∃ W, woken l W (sch s) (sch s') ∧
      ∀ p, p ∈ W ↔ wakes s es qs (writes_all cfg) (length es) p
  else tvars s' = tvars s ∧ sch s' = sch s.

Section commit.
Context (cfg : stm_config) (gen_no : ptr → Z) (n_capabilities : Z).
Implicit Types (s : stm) (t : ptr) (es : list TRecEntry).

(** With the lock taken, where there is a lock. *)
Definition locked_state (t : ptr) (s : stm) : stm :=
  if decide (cfg = STM_CG_LOCK) then set_smp (Some t) s else s.
Definition unlocked_state (s : stm) : stm :=
  if decide (cfg = STM_CG_LOCK) then set_smp None s else s.

Lemma wp_lock_stm s t Q :
  (cfg = STM_CG_LOCK → smp_locked s = None) → Q tt (locked_state t s) → wp (lock_stm cfg t) Q s.
Proof.
  intros Hu HQ. unfold lock_stm, locked_state in *. destruct (decide (cfg = STM_CG_LOCK)) as [->|Hc].
  - do 2 wp_step. rewrite Hu by done. by wp_step.
  - assert (wp (mret tt) Q s) by by wp_step. by destruct cfg.
Qed.

Lemma wp_unlock_stm s t Q :
  holds_lock cfg s t → Q tt (unlocked_state s) → wp (unlock_stm cfg t) Q s.
Proof.
  intros Hu HQ. unfold unlock_stm, unlocked_state, holds_lock in *.
  destruct (decide (cfg = STM_CG_LOCK)) as [->|Hc].
  - do 3 wp_step. wp_step; [by apply bool_decide_eq_true, Hu|]. by wp_step.
  - assert (wp (mret tt) Q s) by by wp_step. by destruct cfg.
Qed.

Lemma holds_locked s t : holds_lock cfg (locked_state t s) t.
Proof. intros E. unfold locked_state. by rewrite decide_True. Qed.

(** Everything a log and its TVars depend on is as before. *)
Lemma locked_same s t :
  tvars (locked_state t s) = tvars s ∧ chunks (locked_state t s) = chunks s ∧
  trecs (locked_state t s) = trecs s ∧ sch (locked_state t s) = sch s ∧
  watchqs (locked_state t s) = watchqs s ∧ max_commits (locked_state t s) = max_commits s.
Proof. unfold locked_state. by case_decide. Qed.

Lemma unlocked_same s :
  tvars (unlocked_state s) = tvars s ∧ chunks (unlocked_state s) = chunks s ∧
  trecs (unlocked_state s) = trecs s ∧ sch (unlocked_state s) = sch s ∧
  watchqs (unlocked_state s) = watchqs s.
Proof. unfold unlocked_state. by case_decide. Qed.

Lemma is_log_locked s t0 t h n cs es : is_log s t h n cs es → is_log (locked_state t0 s) t h n cs es.
Proof.
  destruct (locked_same s t0) as (_ & Hc & Ht & _). apply is_log_ext; [by rewrite Ht|].
  intros c _. by rewrite Hc.
Qed.

Lemma is_log_unlocked s t h n cs es : is_log s t h n cs es → is_log (unlocked_state s) t h n cs es.
Proof.
  destruct (unlocked_same s) as (_ & Hc & Ht & _). apply is_log_ext; [by rewrite Ht|].
  intros c _. by rewrite Hc.
Qed.

(** The end of a commit: the record is freed. *)
Lemma commit_finish s0 s2 t h n cs es es2 l qs r :
  is_log s2 t h n cs es2 → holds_lock cfg s2 t → (cfg = STM_CG_LOCK → smp_locked s0 = None) →
  (cfg ≠ STM_CG_LOCK → smp_locked s2 = smp_locked s0) →
  (if r : bool then
    tvs_at (λ _ e v, committed cfg (writes_all cfg) e v) (tvars s0) es (tvars s2) ∧
    ∃ W, woken l W (sch s0) (sch s2) ∧ ∀ p, p ∈ W ↔ wakes s0 es qs (writes_all cfg) (length es) p
   else tvars s2 = tvars s0 ∧ sch s2 = sch s0) →
  wp (unlock_stm cfg t;; free_stg_trec_header t;; mret r)
     (λ r' s', r' = r ∧ commit_result cfg s0 h es l qs r' s') s2.
Proof.
  intros Hl Hh Hu Hsmp Hres. wp_step. apply wp_unlock_stm; [done|]. wp_step.
  eapply wp_mono; [by eapply free_header_ok, is_log_unlocked|].
  intros [] s' [(f & ch & tr & ->) _ _ _ _ _]. wp_step. split; [done|].
  destruct (unlocked_same s2) as (Et & _ & _ & Es & _). unfold commit_result. cbn. rewrite Et, Es.
  split; [|done]. unfold unlocked_state. case_decide; cbn; [by rewrite Hu|by apply Hsmp].
Qed.

Lemma watched_locked s t es qs : watched s es qs → watched (locked_state t s) es qs.
Proof. unfold locked_state. by case_decide. Qed.
Lemma wakes_locked s t es qs all i p : wakes (locked_state t s) es qs all i p ↔ wakes s es qs all i p.
Proof. unfold locked_state. by case_decide. Qed.

(** The read phase, where the configuration has one. *)
Lemma commit_read_phase s t h n cs es s2 es2 :
  tvars_live (tvars s) es → validated cfg s t h n cs es (writes_all cfg) (length es) s2 es2 →
  max_commits s2 = max_commits s →
  wp (if config_use_read_phase cfg && true then read_phase cfg n_capabilities t (max_commits s) else mret true)
    (λ r s', r = true ∧ s' = s2) s2.
Proof.
  intros Hlive Hvs Hm. rewrite andb_true_r. unfold writes_all, config_use_read_phase in *.
  case_bool_decide as Hc; [|by wp_step]. by eapply read_phase_ok.
Qed.

Lemma commit_step_smp s s' : commit_step s s' → smp_locked s' = smp_locked s ∧ watchqs s' = watchqs s ∧ max_commits s' = max_commits s.
Proof. by intros (? & ? & ? & ->). Qed.

(** What the write phase leaves is what the commit promises. *)
Lemma commit_written s s1 s2 t h n cs es es2 qs l s3 :
  s1 = locked_state t s → commit_step s1 s2 → is_log s2 t h n cs es2 →
  write_inv cfg s1 s2 t es qs (writes_all cfg) l (length es) s3 →
  (is_log s3 t h n cs es2 ∧ commit_step s1 s3) ∧
  tvs_at (λ _ e v, committed cfg (writes_all cfg) e v) (tvars s) es (tvars s3) ∧
  ∃ W, woken l W (sch s) (sch s3) ∧ ∀ p, p ∈ W ↔ wakes s es qs (writes_all cfg) (length es) p.
Proof.
  intros -> Hcs Hl (tvs & sc & W & -> & Htvs & Hwk & HW).
  destruct (locked_same s t) as (Et & _ & _ & Es & _). rewrite Et in Htvs. rewrite Es in Hwk.
  split; [split|split]; cbn.
  - by eapply is_log_ext; [| |exact Hl].
  - destruct Hcs as (? & ch & ? & ->). by exists tvs, ch, sc.
  - eapply tvs_at_ext; [|exact Htvs]. intros j e v He _. unfold write_fun.
    by rewrite decide_True by by eapply lookup_lt_Some.
  - exists W. split; [done|]. intros p. rewrite HW. apply wakes_locked.
Qed.

Lemma commit_ok s t h n cs es l qs :
  commit_ready cfg s t h n cs es l qs →
  wp (stmCommitTransaction cfg gen_no n_capabilities t)
     (λ r s', r = commit_answer s h es ∧ commit_result cfg s h es l qs r s') s.
Proof.
  intros [Hne Hl Htop Hst Hinv Hnd Hpl Hul Hsi Hwd].
  unfold stmCommitTransaction. do 2 wp_step. wp_step. wp_step; [by apply negb_true_iff, Z.eqb_neq|].
  wp_step. apply wp_lock_stm; [done|].
  set (s1 := locked_state t s). destruct (locked_same s t) as (Et & Ec & Er & Es & Ew & Em).
  fold s1 in Et, Ec, Er, Es, Ew, Em.
  assert (is_log s1 t h n cs es) as Hl1 by by apply is_log_locked.
  do 2 wp_step; [apply Hl1|]. wp_step. wp_step; [by rewrite Htop|].
  wp_step. wp_step; [by apply bool_decide_eq_true|].
  do 2 wp_step. rewrite Hinv, Z.eqb_refl. cbn [negb when].
  wp_step. wp_step. wp_step.
  assert (plain_log cfg s1 es) as Hpl1 by (destruct Hpl; split; rewrite Et; done).
  pose proof (holds_locked s t) as Hh1. fold s1 in Hh1.
  pose proof (watched_locked s t es qs Hwd) as Hwd1. fold s1 in Hwd1.
  assert (∀ s2, smp_locked s2 = smp_locked s1 → cfg ≠ STM_CG_LOCK → smp_locked s2 = smp_locked s) as Hsmp.
  { intros s2 -> Hc. unfold s1, locked_state. by rewrite decide_False. }
  assert (cfg ≠ STM_FG_LOCKS → writes_all cfg = true) as Hall.
  { unfold writes_all, config_use_read_phase. intros Hc. by rewrite bool_decide_false. }
  rewrite andb_true_r. fold (writes_all cfg).
  eapply wp_mono; [apply (validate_ok cfg s1 t h n cs es (writes_all cfg) true); try done|].
  { tauto. }
  intros r s2 [Hr Hs2]. rewrite Et in Hr. fold (commit_answer s h es) in Hr. subst r.
  destruct (commit_answer s h es) eqn:Hans; cbn [andb] in Hs2; wp_step.
  - destruct Hs2 as [es2 Hvs]. assert (Hvs' := Hvs). destruct Hvs' as [[Hcs Hsch] Hl2 Hsame Htv _ _].
    destruct (commit_step_smp _ _ Hcs) as (Esm & Ewq & Emc).
    wp_step. wp_step; [apply Hl2|]. wp_step. wp_step.
    { apply bool_decide_eq_true. destruct Hst as [|Hst]; [done|]. unfold commit_answer in Hans.
      by rewrite bool_decide_true in Hans. }
    wp_step. rewrite <- Em, <- (andb_true_r (config_use_read_phase cfg)).
    eapply wp_mono; [eapply commit_read_phase; [apply Hpl1|exact Hvs|done]|].
    intros r s' [-> ->]. rewrite andb_true_r. do 2 wp_step. wp_step. wp_step; [apply Hl2|]. do 2 wp_step. wp_step.
    assert (config_use_read_phase cfg = negb (writes_all cfg)) as -> by (unfold writes_all; by rewrite negb_involutive).
    eapply wp_mono; [eapply (write_updates_ok cfg gen_no s1 s2 t h n cs es es2 qs (writes_all cfg) l); try done|].
    { by eapply commit_step_lock. } { by rewrite Es. }
    intros [] s3 Hw. wp_step.
    destruct (commit_written s s1 s2 t h n cs es es2 qs l s3 eq_refl Hcs Hl2 Hw) as [[Hl3 Hcs3] Hres].
    apply (commit_finish s s3 t h n cs es es2 l qs true); [done|exact (commit_step_lock _ _ _ _ Hcs3 Hh1)|done| |exact Hres].
    apply Hsmp. apply (commit_step_smp _ _ Hcs3).
  - destruct Hs2 as (es2 & Hl2 & _ & Htv2 & Hcs & Hsch).
    apply (commit_finish s s2 t h n cs es es2 l qs false); [done|exact (commit_step_lock _ _ _ _ Hcs Hh1)|done| |].
    + apply Hsmp. apply (commit_step_smp _ _ Hcs).
    + by rewrite Htv2, Hsch.
Qed.
End commit.

Section facts.
Context (cfg : stm_config).
Implicit Types (s : stm) (es : list TRecEntry).

Lemma valid_log_in tvs es e :
  valid_log tvs es = true → e ∈ es → current_value <$> tvs !! e_tvar e = Some (expected_value e).
Proof.
  intros Hv He. unfold valid_log in Hv. rewrite forallb_forall in Hv.
  apply list_elem_of_In in He. apply Hv in He. by apply bool_decide_eq_true in He.
Qed.

(** Where the log is valid, committing an entry installs its new value. *)
Lemma committed_value tvs es e v all :
  valid_log tvs es = true → e ∈ es → tvs !! e_tvar e = Some v →
  current_value (committed cfg all e v) = new_value e.
Proof.
  intros Hval He Hv. pose proof (valid_log_in _ _ _ Hval He) as Ev. rewrite Hv in Ev.
  injection Ev as Ev. unfold committed. destruct (all || entry_is_update e) eqn:Ha; [done|].
  apply orb_false_iff in Ha as [_ Hu]. unfold entry_is_update in Hu.
  apply negb_false_iff, bool_decide_eq_true in Hu. congruence.
Qed.

Lemma commit_values s h es l qs s' :
  commit_answer s h es = true → commit_result cfg s h es l qs true s' →
  tvars_live (tvars s) es →
  (∀ e, e ∈ es → current_value <$> tvars s' !! e_tvar e = Some (new_value e)) ∧
  (∀ tv, tv ∉ e_tvar <$> es → tvars s' !! tv = tvars s !! tv).
Proof.
  intros [_ Hval]%andb_true_iff [_ [[Hw Ho] _]] Hlive. split; [|done].
  intros e He. destruct (Hlive e He) as [v Hv]. apply list_elem_of_lookup in He as Hj.
  destruct Hj as [j Hj]. rewrite (Hw j e v Hj Hv). cbn. f_equal. by eapply committed_value.
Qed.
End facts.

(** The threads to wake, entry by entry *)
Lemma wakes_entries cfg s es qs p :
  wakes s es qs (writes_all cfg) (length es) p ↔ why (sch s) p = Some BlockedOnSTM ∧
    ∃ e, e ∈ es ∧ (cfg = STM_FG_LOCKS → entry_is_update e = true) ∧ p ∈ watchers s (qs (e_tvar e)).
Proof.
  assert (∀ e, (writes_all cfg || entry_is_update e) = true ↔ (cfg = STM_FG_LOCKS → entry_is_update e = true)) as E.
  { intros e. unfold writes_all, config_use_read_phase. case_bool_decide; cbn; naive_solver. }
  unfold wakes. split; (intros [Hb Hex]; split; [done|]).
  - destruct Hex as (j & e & _ & Hj & Hu & Hp). exists e. split; [by eapply list_elem_of_lookup_2|]. by rewrite <- E.
  - destruct Hex as (e & [j Hj]%list_elem_of_lookup & Hu & Hp). exists j, e. split_and!; [by eapply lookup_lt_Some|done|by apply E|done].
Qed.

(** C1: Atomicity of [stmCommitTransaction].  A top-level transaction commits
    exactly when it is not condemned and every TVar it accessed still holds the
    value it expects.  If it commits, every TVar of its log holds the log's new
    value and no other TVar has changed; if it does not, no TVar has changed
    (in STM_FG_LOCKS: the TVars it had locked are as they were) and no thread
    has been woken.  In both cases the lock of STM_CG_LOCK is free again. *)
Theorem stmCommitTransaction_atomic cfg gen_no n_capabilities s t h n cs es l qs :
  commit_ready cfg s t h n cs es l qs →
  wp (stmCommitTransaction cfg gen_no n_capabilities t)
     (λ r s', r = bool_decide (state h ≠ TREC_CONDEMNED) && valid_log (tvars s) es ∧
        smp_locked s' = smp_locked s ∧
        if r then
          (∀ e, e ∈ es → current_value <$> tvars s' !! e_tvar e = Some (new_value e)) ∧
          (∀ tv, tv ∉ e_tvar <$> es → tvars s' !! tv = tvars s !! tv)
        else tvars s' = tvars s ∧ sch s' = sch s) s.
Proof.
  intros Hr. eapply wp_mono; [by eapply commit_ok|]. intros r s' [Er Hres].
  split; [by rewrite Er, bool_decide_not|]. split; [apply Hres|]. destruct r; [|apply Hres].
  eapply commit_values; [by rewrite <- Er|done|apply (cr_plain _ _ _ _ _ _ _ _ _ Hr)].
Qed.

(** C9: A commit wakes exactly the threads it has to.  When it succeeds, the
    threads woken are those parked in STM that watch a TVar the commit writes
    back: a TVar with a new value; where there is no read phase (STM_UNIPROC and
    STM_CG_LOCK) the code writes back every TVar of the log, also those that
    were only read.  The run queue is the old one followed by these threads,
    each of them once, and the others are blocked as before. *)
Theorem stmCommitTransaction_wakes cfg gen_no n_capabilities s t h n cs es l qs :
  commit_ready cfg s t h n cs es l qs → commit_answer s h es = true →
  wp (stmCommitTransaction cfg gen_no n_capabilities t)
     (λ r s', r = true ∧ ∃ W, run_queue (sch s') (l ++ W) ∧ NoDup W ∧
        (∀ p, p ∈ W ↔ why (sch s) p = Some BlockedOnSTM ∧
           ∃ e, e ∈ es ∧ (cfg = STM_FG_LOCKS → entry_is_update e = true) ∧
             p ∈ watchers s (qs (e_tvar e))) ∧
        ∀ p, why (sch s') p = if decide (p ∈ W) then Some NotBlocked else why (sch s) p) s.
Proof.
  intros Hr Hans. eapply wp_mono; [by eapply commit_ok|]. rewrite Hans.
  intros r s' [-> (_ & _ & W & Hwk & HW)]. split; [done|]. exists W.
  destruct (si_queue _ _ (wk_inv _ _ _ _ Hwk)) as [Hd Hnd].
  split; [by split|]. split; [by apply NoDup_app in Hnd as (_ & _ & ?)|]. split.
  - intros p. rewrite HW. by apply wakes_entries.
  - intros p. by eapply why_woken.
Qed.

(** ** A concrete commit

    Transaction 24 has read TVar 72 and written 5 to TVar 64, on which thread 16
    waits through the watch-queue entry 56; thread 8 is on the run queue. *)
Module CommitDemo.
Definition thread (id : Z) (w : BlockReason) : StgTSO := mkTSO id END w END false END END [] END.
Definition threads : sched :=
  mkSched {[ 8 := thread 1 NotBlocked; 16 := thread 2 BlockedOnSTM ]} ∅ ∅ ∅ ∅ 8 8 END END END ∅ 128.
Definition log : list TRecEntry :=
  [mkEntry 64 (CValue 1) (CValue 5) 0; mkEntry 72 (CValue 2) (CValue 2) 0].
Definition header (st : TRecState) : StgTRecHeader := mkTRec NO_TREC 40 END st.
Definition start (st : TRecState) (x : Z) : stm :=
  mkStm threads
    {[ 64 := mkTVar (CValue x) 56 7; 72 := mkTVar (CValue 2) END 3 ]}
    {[ 56 := mkWatch (CTSO 16) END END ]}
    {[ 24 := header st ]} {[ 40 := mkChunk END 2 (AccessDemo.slots16 log) ]}
    ∅ ∅ END END END END 0 0 false None.
Definition queues (tv : ptr) : list ptr := if tv =? 64 then [56] else [].

Lemma ready cfg st x :
  st = TREC_ACTIVE ∨ st = TREC_CONDEMNED →
  commit_ready cfg (start st x) 24 (header st) 2 [40] log [8] queues.
Proof.
  intros Hst. constructor; try done.
  - constructor; try done.
    + split_and!; [done|done|]. by eexists.
    + unfold TREC_CHUNK_NUM_ENTRIES. lia.
    + intros c y ->%list_elem_of_singleton. by intros [= <-].
    + constructor; [done|]. constructor; [done|constructor].
  - apply (bool_decide_unpack _). vm_compute. exact I.
  - split.
    + intros e [->|[->|[]%elem_of_nil]%elem_of_cons]%elem_of_cons; by eexists.
    + intros e [->|[->|[]%elem_of_nil]%elem_of_cons]%elem_of_cons; (split_and!; [done|done|]);
        intros v [= <-]; done.
  - constructor.
    + split; [|apply NoDup_singleton]. cbn. split_and!; try done. by eexists.
    + intros p t. cbn. rewrite <- insert_empty, !lookup_insert, lookup_empty.
      repeat case_decide; intros [= <-] Hw; try done. subst p. split_and!; [|done|done].
      by intros ?%list_elem_of_singleton.
  - intros e v [->|[->|[]%elem_of_nil]%elem_of_cons]%elem_of_cons [= <-]; split.
    + exists 56. split; [|apply NoDup_singleton]. cbn. split_and!; try done. by eexists.
    + intros p ->%list_elem_of_singleton. by eexists.
    + exists END. split; [done|constructor].
    + intros p []%elem_of_nil.
Qed.
End CommitDemo.

Lemma stmCommitTransaction_atomic_witness :
  wp (stmCommitTransaction STM_FG_LOCKS (λ _, 0) 1 24)
     (λ r s', r = true ∧ smp_locked s' = None ∧
        if r then
          (∀ e, e ∈ CommitDemo.log → current_value <$> tvars s' !! e_tvar e = Some (new_value e)) ∧
          (∀ tv, tv ∉ e_tvar <$> CommitDemo.log →
             tvars s' !! tv = tvars (CommitDemo.start TREC_ACTIVE 1) !! tv)
        else tvars s' = tvars (CommitDemo.start TREC_ACTIVE 1) ∧
             sch s' = CommitDemo.threads) (CommitDemo.start TREC_ACTIVE 1).
Proof.
  exact (stmCommitTransaction_atomic STM_FG_LOCKS (λ _, 0) 1 _ 24 _ 2 [40] CommitDemo.log [8]
    CommitDemo.queues (CommitDemo.ready STM_FG_LOCKS TREC_ACTIVE 1 (or_introl eq_refl))).
Defined.

Lemma stmCommitTransaction_wakes_witness :
  wp (stmCommitTransaction STM_FG_LOCKS (λ _, 0) 1 24)
     (λ r s', r = true ∧ ∃ W, run_queue (sch s') ([8] ++ W) ∧ NoDup W ∧
        (∀ p, p ∈ W ↔ why CommitDemo.threads p = Some BlockedOnSTM ∧
           ∃ e, e ∈ CommitDemo.log ∧ (STM_FG_LOCKS = STM_FG_LOCKS → entry_is_update e = true) ∧
             p ∈ watchers (CommitDemo.start TREC_ACTIVE 1) (CommitDemo.queues (e_tvar e))) ∧
        ∀ p, why (sch s') p = if decide (p ∈ W) then Some NotBlocked else why CommitDemo.threads p)
     (CommitDemo.start TREC_ACTIVE 1).
Proof.
  apply (stmCommitTransaction_wakes STM_FG_LOCKS (λ _, 0) 1 _ 24 _ 2 [40] CommitDemo.log [8]
    CommitDemo.queues (CommitDemo.ready STM_FG_LOCKS TREC_ACTIVE 1 (or_introl eq_refl))).
  vm_compute. reflexivity.
Defined.
