(* ===== verification/STMWatch.v ===== *)
(** * Watch queues

    The watch queues of all TVars and the free list of watch-queue entries as
    one invariant, and what allocating, pushing and unlinking an entry do to the
    abstract queues. *)
From S2P Require Import Prelude DList Threads STM STMLog STMCommit.
From stdpp Require Import list gmap.
Local Open Scope Z_scope.

#[export] Instance StgTVarWatchQueue_eq : EqDecision StgTVarWatchQueue.
Proof. solve_decision. Defined.

Definition wq_nx (s : stm) (q : ptr) : option ptr := wq_next <$> watchqs s !! q.
Definition wq_pv (s : stm) (q : ptr) : option ptr := wq_prev <$> watchqs s !! q.

(** The abstract watch queues: the entries of each TVar, front to back, each
    with the object that watches. *)
Definition queues : Type := ptr → list (ptr * closure).

(** The queue of [tv] replaced. *)
Definition q_set (tv : ptr) (l : list (ptr * closure)) (Q : queues) : queues :=
  λ x, if decide (x = tv) then l else Q x.

Record watch_ok (s : stm) (Q : queues) (fq : list ptr) : Prop := {
  wo_queue tv v : tvars s !! tv = Some v →
    ∃ last, dlist (wq_nx s) (wq_pv s) (first_watch_queue_entry v) last (Q tv).*1;
  wo_closure tv q c : (q, c) ∈ Q tv → wq_closure <$> watchqs s !! q = Some c;
  wo_disj tv tv' q : q ∈ (Q tv).*1 → q ∈ (Q tv').*1 → tv = tv';
  wo_free : slist (wq_nx s) (free_tvar_watch_queues s) fq END;
  wo_off tv q : q ∈ (Q tv).*1 → q ∉ fq;
  wo_fresh q : heap_next (sch s) <= q → watchqs s !! q = None;
  wo_next : 0 < heap_next (sch s);
  wo_null : watchqs s !! END = None
}.

Section watch.
Implicit Types (s : stm) (Q : queues) (fq : list ptr) (wq : gmap ptr StgTVarWatchQueue).

(** The threads that watch, as the commit finds them. *)
Lemma watchers_queue s Q fq tv :
  watch_ok s Q fq →
  watchers s (Q tv).*1 = omap (λ x, match x.2 with CTSO p => Some p | _ => None end) (Q tv).
Proof.
  intros Hok. pose proof (wo_closure _ _ _ Hok tv) as Hc. induction (Q tv) as [|[q c] l IH]; [done|].
  unfold watchers in *. cbn. destruct (watchqs s !! q) as [w|] eqn:Hw.
  - specialize (Hc q c (list_elem_of_here _ _)) as Hq. rewrite Hw in Hq. injection Hq as Hq.
    cbn. rewrite Hq. rewrite IH; [done|]. intros q' c' H'. apply Hc. by right.
  - specialize (Hc q c (list_elem_of_here _ _)) as Hq. by rewrite Hw in Hq.
Qed.

(** The invariant depends on the watch queues, the heads in the TVars and the
    free list only. *)
Lemma watch_ok_ext s s' Q fq :
  (∀ tv v', tvars s' !! tv = Some v' → ∃ v, tvars s !! tv = Some v ∧
     first_watch_queue_entry v' = first_watch_queue_entry v) →
  watchqs s' = watchqs s → free_tvar_watch_queues s' = free_tvar_watch_queues s →
  heap_next (sch s) <= heap_next (sch s') → watch_ok s Q fq → watch_ok s' Q fq.
Proof.
  intros Ht Ew Ef Hn []. constructor.
  - intros tv v' Hv'. destruct (Ht tv v' Hv') as (v & Hv & ->). unfold wq_nx, wq_pv. rewrite Ew. eauto.
  - intros tv q c. rewrite Ew. eauto.
  - done.
  - unfold wq_nx. by rewrite Ew, Ef.
  - done.
  - intros q Hq. rewrite Ew. apply wo_fresh0. lia.
  - lia.
  - by rewrite Ew.
Qed.

(** Entries [q] outside all queues. *)
Definition off_queues (Q : queues) (q : ptr) : Prop := ∀ tv, q ∉ (Q tv).*1.

(** A change to entries outside the queues and the free list. *)
Lemma watch_ok_off s Q fq fq' wq f nx :
  watch_ok s Q fq → (∀ q, wq !! q ≠ watchqs s !! q → off_queues Q q ∧ q < nx ∧ q ≠ END) →
  slist (λ q, wq_next <$> wq !! q) f fq' END → (∀ q, q ∈ fq' → off_queues Q q) →
  heap_next (sch s) <= nx →
  watch_ok (set_watchqs wq (set_free_wqs f (set_sch (set_next nx (sch s)) s))) Q fq'.
Proof.
  intros [] Hwq Hf Hfq Hnx.
  assert (∀ tv q, q ∈ (Q tv).*1 → wq !! q = watchqs s !! q) as Hin.
  { intros tv q Hq. destruct (decide (wq !! q = watchqs s !! q)) as [|E]; [done|].
    by destruct (Hwq q E) as [Hoff _]; destruct (Hoff tv). }
  constructor; cbn; [| |done|exact Hf| | |lia|].
  - intros tv v Hv. destruct (wo_queue0 tv v Hv) as (last & Hd & Hnd). exists last. split; [|done].
    eapply dlseg_ext; [|exact Hd]. intros q Hq. unfold wq_nx, wq_pv; cbn. by rewrite (Hin tv q Hq).
  - intros tv q c Hq. rewrite (Hin tv q); [by eapply wo_closure0|].
    apply list_elem_of_fmap. by exists (q, c).
  - intros tv q Hq Hq'. by apply (Hfq q Hq' tv).
  - intros q Hq. destruct (decide (wq !! q = watchqs s !! q)) as [->|E]; [apply wo_fresh0; lia|].
    destruct (Hwq q E). lia.
  - destruct (decide (wq !! END = watchqs s !! END)) as [->|E]; [done|]. by destruct (Hwq END E) as (_ & _ & ?).
Qed.

(** A fresh entry for the closure [c]. *)
Record fresh_watch (s : stm) (Q : queues) (c : closure) (q : ptr) (s' : stm) : Prop := {
  fw_step : ∃ wq f nx, heap_next (sch s) <= nx ∧
    s' = set_watchqs wq (set_free_wqs f (set_sch (set_next nx (sch s)) s));
  fw_off : off_queues Q q;
  fw_nonnull : q ≠ END;
  fw_closure : wq_closure <$> watchqs s' !! q = Some c
}.

Definition watch_allocated (s : stm) (Q : queues) (c : closure) (q : ptr) (s' : stm) : Prop :=
  fresh_watch s Q c q s' ∧ ∃ fq', watch_ok s' Q fq' ∧ q ∉ fq'.

Lemma new_watch_ok s Q c :
  watch_ok s Q [] → free_tvar_watch_queues s = END →
  wp (new_stg_tvar_watch_queue c) (watch_allocated s Q c) s.
Proof.
  intros Hok E. assert (Hok' := Hok). destruct Hok' as [_ Hcl _ Hf Hoff Hfr Hn _].
  unfold new_stg_tvar_watch_queue, alloc, put. wp_step. unfold wp at 1. cbn.
  set (q := heap_next (sch s)). assert (watchqs s !! q = None) as Hq by (apply Hfr; lia).
  set (wq := <[q := mkWatch c END END]> (watchqs s)).
  assert (off_queues Q q) as Hqoff.
  { intros tv ([q' c'] & -> & Hin)%list_elem_of_fmap. apply Hcl in Hin. cbn in *. by rewrite Hq in Hin. }
  assert (set_watchqs wq (set_sch (set_next (q + 8) (sch s)) s) =
    set_watchqs wq (set_free_wqs END (set_sch (set_next (q + 8) (sch s)) s))) as Es.
  { destruct s; cbn in *. by subst. }
  enough (watch_allocated s Q c q (set_watchqs wq (set_free_wqs END (set_sch (set_next (q + 8) (sch s)) s)))) as Hal.
  { rewrite <- Es in Hal. exact Hal. }
  split.
  - constructor; [|done|unfold END; lia|cbn; unfold wq; by rewrite lookup_insert_eq].
    exists wq, END, (q + 8). split; [lia|done].
  - exists []. split; [|by apply not_elem_of_nil]. apply (watch_ok_off s Q []); [done| |done| |lia].
    + intros q'. unfold wq. rewrite lookup_insert. case_decide as E'; [|done]. subst q'. intros _.
      split_and!; [done|lia|unfold END; lia].
    + by intros q' ?%elem_of_nil.
Qed.

Lemma alloc_watch_ok s Q fq c :
  watch_ok s Q fq → wp (alloc_stg_tvar_watch_queue c) (watch_allocated s Q c) s.
Proof.
  intros Hok. assert (Hok' := Hok). destruct Hok' as [_ Hcl _ Hf Hoff Hfr Hn _].
  unfold alloc_stg_tvar_watch_queue. do 2 wp_step.
  destruct (free_tvar_watch_queues s =? END_STM_WATCH_QUEUE) eqn:E.
  { apply Z.eqb_eq in E. assert (fq = []) as -> by (apply (slist_END (wq_nx s)); by rewrite E in Hf).
    by apply new_watch_ok. }
  apply Z.eqb_neq in E. destruct (slist_cons_inv _ _ _ _ Hf E) as (n & fq' & -> & He & Hnx & Hf').
  pose proof (slist_NoDup _ _ _ Hf) as [Hqf Hnd]%NoDup_cons.
  set (q := free_tvar_watch_queues s) in *.
  assert (off_queues Q q) as Hqoff by (intros tv Hin; apply (Hoff tv q Hin); by left).
  unfold wq_nx in Hnx. destruct (watchqs s !! q) as [w|] eqn:Hw; [|done]. injection Hnx as <-.
  unfold upd_watchq, upd. do 4 wp_step. do 2 wp_step; [cbn; apply lookup_insert_eq|]. do 3 wp_step.
  set (wq := <[q := wq_set_closure c w]> (watchqs s)).
  assert (set_free_wqs (wq_next (wq_set_closure c w)) (set_watchqs wq s) =
    set_watchqs wq (set_free_wqs (wq_next w) (set_sch (set_next (heap_next (sch s)) (sch s)) s))) as ->.
  { destruct s as [[]]; reflexivity. }
  split.
  - constructor; [|done|done|cbn; unfold wq; by rewrite lookup_insert_eq].
    exists wq, (wq_next w), (heap_next (sch s)). split; [lia|done].
  - exists fq'. split; [|done]. apply (watch_ok_off s Q (q :: fq')); [done| | | |lia].
    + intros q'. unfold wq. rewrite lookup_insert. case_decide as E'; [|done]. subst q'. intros _.
      split_and!; [done| |done]. destruct (decide (heap_next (sch s) <= q)); [|lia].
      rewrite Hfr in Hw by done. done.
    + eapply slist_ext; [|exact Hf']. intros q' Hq'. unfold wq_nx, wq. rewrite lookup_insert_ne; [done|].
      by intros <-.
    + intros q' Hq' tv Hin. apply (Hoff tv q' Hin). by right.
Qed.

(** The TVars after an update of the head of the queue of [tv]. *)
Definition set_first (tv : ptr) (v : StgTVar) (f : ptr) (s : stm) : stm :=
  set_tvars (<[tv := tv_set_first f v]> (tvars s)) s.

Lemma q_set_other tv l Q x : x ≠ tv → q_set tv l Q x = Q x.
Proof. intros. unfold q_set. by rewrite decide_False. Qed.
Lemma q_set_same tv l Q : q_set tv l Q tv = l.
Proof. unfold q_set. by rewrite decide_True. Qed.

(** An entry put in front of the queue of [tv]. *)
Lemma push_heap s Q fq tv v q c wq :
  watch_ok s Q fq → off_queues Q q → q ≠ END → q ∉ fq → tvars s !! tv = Some v →
  (∃ w, wq !! q = Some w ∧ wq_closure w = c ∧ wq_next w = first_watch_queue_entry v ∧ wq_prev w = END) →
  (∀ x, x ≠ q → wq !! x = if decide (x = first_watch_queue_entry v)
      then wq_set_prev q <$> watchqs s !! x else watchqs s !! x) →
  q < heap_next (sch s) →
  watch_ok (set_first tv v q (set_watchqs wq s)) (q_set tv ((q, c) :: Q tv) Q) fq.
Proof.
  intros Hok Hoff Hqe Hqf Hv (w & Hw & Hwc & Hwn & Hwp) Hwq Hlt. assert (Hok' := Hok). destruct Hok'.
  assert (∀ x, x ≠ q → wq_next <$> wq !! x = wq_next <$> watchqs s !! x) as Hnx.
  { intros x Hx. rewrite Hwq by done. case_decide; [by destruct (watchqs s !! x)|done]. }
  assert (∀ x, x ≠ q → wq_closure <$> wq !! x = wq_closure <$> watchqs s !! x) as Hcl.
  { intros x Hx. rewrite Hwq by done. case_decide; [by destruct (watchqs s !! x)|done]. }
  assert (∀ x, x ≠ q → x ≠ first_watch_queue_entry v → wq_prev <$> wq !! x = wq_prev <$> watchqs s !! x) as Hpv.
  { intros x Hx Hxf. rewrite Hwq by done. by rewrite decide_False. }
  destruct (wo_queue0 tv v Hv) as (last & Hd).
  assert (first_watch_queue_entry v ≠ END → first_watch_queue_entry v ∈ (Q tv).*1) as Hfirst.
  { intros He. destruct Hd as [Hd _]. destruct (dlseg_head _ _ _ _ _ _ _ Hd) as [(_ & ? & _)|(l' & -> & _)]; [done|by left]. }
  constructor; cbn; [| | | | |intros x Hx|done|].
  - intros tv' v'. rewrite lookup_insert. case_decide as Et.
    + subst tv'. intros [= <-]. rewrite q_set_same. cbn.
      eapply (dlist_push (wq_nx s) (wq_pv s)); [exact Hd|apply Hoff|done|..]; unfold wq_nx, wq_pv; cbn.
      * by rewrite Hw; cbn; rewrite Hwn.
      * by rewrite Hw; cbn; rewrite Hwp.
      * intros x Hx. apply Hnx. intros ->. by destruct (Hoff tv).
      * intros x Hx Hxf. apply Hpv; [|done]. intros ->. by destruct (Hoff tv).
      * intros Hne. assert (first_watch_queue_entry v ∈ (Q tv).*1) as Hf.
        { destruct Hd as [Hd _]. destruct (dlseg_head _ _ _ _ _ _ _ Hd) as [(? & _)|(l' & -> & _)]; [done|by left]. }
        rewrite Hwq by (intros E; rewrite E in Hf; by destruct (Hoff tv)). rewrite decide_True by done.
        destruct Hd as [Hd _]. apply list_elem_of_split in Hf as (l1 & l2 & Hl). rewrite Hl in Hd.
        apply dlseg_slist, slist_split in Hd as (_ & _ & n & Hn & _). unfold wq_nx in Hn.
        by destruct (watchqs s !! first_watch_queue_entry v).
    + intros Hv'. rewrite q_set_other by done. destruct (wo_queue0 tv' v' Hv') as (last' & Hd' & Hnd').
      exists last'. split; [|done]. eapply dlseg_ext; [|exact Hd']. intros x Hx. unfold wq_nx, wq_pv; cbn.
      assert (x ≠ q) by (intros ->; by destruct (Hoff tv')).
      split; [by apply Hnx|]. apply Hpv; [done|]. intros ->. apply Et.
      eapply wo_disj0; [|exact Hx]. apply Hfirst. by eapply (dlseg_not_END _ _ _ _ _ _ _ _ Hd').
  - intros tv' x c'. destruct (decide (tv' = tv)) as [->|Et].
    + rewrite q_set_same. intros [[= -> ->]|Hin]%elem_of_cons; [by rewrite Hw; cbn; rewrite Hwc|].
      rewrite Hcl; [by eapply wo_closure0|]. intros ->. apply (Hoff tv), list_elem_of_fmap. by exists (q, c').
    + rewrite q_set_other by done. intros Hin. rewrite Hcl; [by eapply wo_closure0|]. intros ->.
      apply (Hoff tv'), list_elem_of_fmap. by exists (q, c').
  - intros a b x. destruct (decide (a = tv)) as [->|Ha], (decide (b = tv)) as [->|Hb]; [done|..];
      rewrite ?q_set_same, ?q_set_other by done; cbn.
    + intros [->|?]%elem_of_cons ?; [by destruct (Hoff b)|by eapply wo_disj0].
    + intros ? [->|?]%elem_of_cons; [by destruct (Hoff a)|by eapply wo_disj0].
    + by apply wo_disj0.
  - eapply slist_ext; [|exact wo_free0]. intros x Hx. unfold wq_nx; cbn. apply Hnx. by intros ->.
  - intros tv' x. destruct (decide (tv' = tv)) as [->|Et].
    + rewrite q_set_same. cbn. intros [->|?]%elem_of_cons; [done|by eapply wo_off0].
    + rewrite q_set_other by done. by apply wo_off0.
  - rewrite Hwq by lia.
    case_decide; [exact (f_equal (fmap (wq_set_prev q)) (wo_fresh0 x Hx))|exact (wo_fresh0 x Hx)].
  - rewrite Hwq by done. rewrite wo_null0. by case_decide.
Qed.

Lemma push_watch_ok s Q fq tv v q c :
  watch_ok s Q fq → off_queues Q q → q ≠ END → q ∉ fq →
  tvars s !! tv = Some v → wq_closure <$> watchqs s !! q = Some c →
  wp (push_watch tv q)
     (λ _ s', (∃ wq, s' = set_first tv v q (set_watchqs wq s)) ∧
        watch_ok s' (q_set tv ((q, c) :: Q tv) Q) fq) s.
Proof.
  intros Hok Hoff Hqe Hqf Hv Hc. unfold push_watch, upd_watchq, upd_tvar, upd.
  destruct (watchqs s !! q) as [w|] eqn:Hw; [|done]. injection Hc as Hc.
  assert (q < heap_next (sch s)) as Hlt.
  { destruct (decide (heap_next (sch s) <= q)); [|lia]. rewrite (wo_fresh _ _ _ Hok) in Hw by done. done. }
  do 6 wp_step. do 2 wp_step. wp_step; [cbn; apply lookup_insert_eq|]. wp_step. cbn.
  rewrite insert_insert_eq.
  destruct (wo_queue _ _ _ Hok tv v Hv) as (last & [Hd _]).
  assert (first_watch_queue_entry v ≠ END →
    first_watch_queue_entry v ≠ q ∧ is_Some (watchqs s !! first_watch_queue_entry v)) as Hf.
  { intros He. destruct (dlseg_head _ _ _ _ _ _ _ Hd) as [(_ & ? & _)|(l' & El & _ & Hp)]; [done|]. split.
    - intros E. apply (Hoff tv). rewrite El, <- E. by left.
    - unfold wq_pv in Hp. by destruct (watchqs s !! first_watch_queue_entry v). }
  set (w' := wq_set_prev END_STM_WATCH_QUEUE (wq_set_next (first_watch_queue_entry v) w)).
  assert (∀ wq, (∀ x, x ≠ q → wq !! x = if decide (x = first_watch_queue_entry v)
      then wq_set_prev q <$> watchqs s !! x else watchqs s !! x) → wq !! q = Some w' →
    wp (v ← load tvars tv; modify (λ s, set_tvars (<[tv := tv_set_first q v]> (tvars s)) s))
     (λ _ s', (∃ wq, s' = set_first tv v q (set_watchqs wq s)) ∧
        watch_ok s' (q_set tv ((q, c) :: Q tv) Q) fq) (set_watchqs wq s)) as Hend.
  { intros wq Hwq Hq. do 2 wp_step. wp_step. split; [by exists wq|].
    apply push_heap; try done. exists w'. done. }
  wp_step. apply wp_when; intros E.
  - apply negb_true_iff, Z.eqb_neq in E. destruct (Hf E) as [Hfq [wf Hwf]].
    do 2 wp_step; [cbn; by rewrite lookup_insert_ne|]. wp_step. cbn. apply Hend.
    + intros x Hx. rewrite lookup_insert. case_decide as Ex.
      * subst x. rewrite decide_True by done. by rewrite Hwf.
      * rewrite decide_False by done. by rewrite lookup_insert_ne.
    + rewrite lookup_insert_ne by done. apply lookup_insert_eq.
  - apply negb_false_iff, Z.eqb_eq in E. apply Hend; [|apply lookup_insert_eq].
    intros x Hx. rewrite lookup_insert_ne by done. case_decide as Ex; [|done].
    subst x. rewrite E. change END_STM_WATCH_QUEUE with END. by rewrite (wo_null _ _ _ Hok).
Qed.

(** An entry taken out of the queue of [tv], back to the free list. *)
Definition without (q : ptr) (l : list (ptr * closure)) : list (ptr * closure) :=
  filter (λ x, x.1 ≠ q) l.

Lemma without_fst q l : (without q l).*1 = filter (λ x, x ≠ q) l.*1.
Proof.
  induction l as [|[x c] l IH]; [done|]. unfold without in *. cbn [fmap list_fmap fst].
  rewrite !filter_cons. cbn. repeat case_decide; cbn; try done. by rewrite IH.
Qed.

Lemma filter_nodup_split (l1 l2 : list ptr) q :
  NoDup (l1 ++ q :: l2) → filter (λ x, x ≠ q) (l1 ++ q :: l2) = l1 ++ l2.
Proof.
  intros Hnd. apply NoDup_app in Hnd as (_ & H1 & [H2 _]%NoDup_cons).
  assert (∀ l : list ptr, q ∉ l → filter (λ x, x ≠ q) l = l) as Hid.
  { intros l Hl. induction l as [|y l IH]; [done|]. apply not_elem_of_cons in Hl as [? ?].
    rewrite filter_cons_True by done. by rewrite IH. }
  rewrite filter_app, filter_cons_False by naive_solver.
  rewrite !Hid; [done|done|]. intros Hq. apply (H1 q Hq). by left.
Qed.

(** What unlinking does to the links of one other entry. *)
Definition relink (p n x : ptr) (w : StgTVarWatchQueue) : StgTVarWatchQueue :=
  let w := if decide (x = n) then wq_set_prev p w else w in
  if decide (x = p) then wq_set_next n w else w.

Lemma relink_off p n x w : x ≠ p → x ≠ n → relink p n x w = w.
Proof. intros. unfold relink. by rewrite !decide_False. Qed.

(** The state after the unlinking of [q], whose links are those of [w]. *)
Definition unlinked (s : stm) (tv : ptr) (v : StgTVar) (q : ptr) (w : StgTVarWatchQueue)
    (wq : gmap ptr StgTVarWatchQueue) : stm :=
  set_free_wqs q (set_watchqs wq (set_first tv v
    (if decide (wq_prev w = END) then wq_next w else first_watch_queue_entry v) s)).

Lemma without_elem q l x c : (x, c) ∈ without q l ↔ x ≠ q ∧ (x, c) ∈ l.
Proof. unfold without. rewrite list_elem_of_filter. done. Qed.
Lemma without_elem_fst q l x : x ∈ (without q l).*1 ↔ x ≠ q ∧ x ∈ l.*1.
Proof. by rewrite without_fst, list_elem_of_filter. Qed.

Lemma queue_live s Q fq tv x : watch_ok s Q fq → x ∈ (Q tv).*1 → is_Some (watchqs s !! x).
Proof.
  intros Hok ([y c] & -> & Hin)%list_elem_of_fmap. apply (wo_closure _ _ _ Hok) in Hin.
  cbn. by destruct (watchqs s !! y).
Qed.

(** The queue itself ... *)
Lemma unlink_queue s Q fq tv v q w wq :
  watch_ok s Q fq → tvars s !! tv = Some v → watchqs s !! q = Some w → q ∈ (Q tv).*1 →
  (∀ x, x ≠ q → wq !! x = relink (wq_prev w) (wq_next w) x <$> watchqs s !! x) →
  (∃ tl, dlist (λ x, wq_next <$> wq !! x) (λ x, wq_prev <$> wq !! x)
     (if decide (wq_prev w = END) then wq_next w else first_watch_queue_entry v) tl (without q (Q tv)).*1) ∧
  (wq_prev w = END → first_watch_queue_entry v = q) ∧
  (∀ x, x = wq_next w ∨ x = wq_prev w → x ≠ END → x ≠ q ∧ x ∈ (Q tv).*1).
Proof.
  intros Hok Hv Hw Hq Hwq.
  destruct (wo_queue _ _ _ Hok tv v Hv) as (tl & Hd).
  apply list_elem_of_split in Hq as Hs. destruct Hs as (l1 & l2 & El).
  assert (NoDup (l1 ++ q :: l2)) as Hnd by (rewrite <- El; apply Hd).
  assert (∀ x, x ∈ l1 ++ l2 → x ≠ q ∧ x ∈ (Q tv).*1) as Hin.
  { intros x. rewrite <- (filter_nodup_split l1 l2 q Hnd), El. by intros [? ?]%list_elem_of_filter. }
  rewrite El in Hd.
  destruct (dlist_unlink (wq_nx s) (wq_pv s) (λ x, wq_next <$> wq !! x) (λ x, wq_prev <$> wq !! x)
    (first_watch_queue_entry v) tl l1 q l2 (wq_next w) (wq_prev w)) as (Hp1 & Hn2 & Hp & Hn & tl' & Hd');
    [done|unfold wq_nx; by rewrite Hw|unfold wq_pv; by rewrite Hw|..].
  { intros x Hx. destruct (Hin x Hx) as [Hxq HxQ]. rewrite Hwq by done. unfold wq_nx, relink.
    destruct (queue_live s Q fq tv x Hok HxQ) as [wx ->]. cbn. by repeat case_decide. }
  { intros x Hx. destruct (Hin x Hx) as [Hxq HxQ]. rewrite Hwq by done. unfold wq_pv, relink.
    destruct (queue_live s Q fq tv x Hok HxQ) as [wx ->]. cbn. by repeat case_decide. }
  split_and!.
  - exists tl'. by rewrite without_fst, El, filter_nodup_split by done.
  - intros E. rewrite (Hp1 E) in Hd. by destruct Hd as [(-> & _) _].
  - intros x [->| ->] Hx; apply Hin, elem_of_app; [right; by apply Hn|left; by apply Hp].
Qed.

(** ... and the rest of the heap. *)
Lemma unlink_heap s Q fq tv v q w wq :
  watch_ok s Q fq → tvars s !! tv = Some v → watchqs s !! q = Some w → q ∈ (Q tv).*1 →
  (∀ x, x ≠ q → wq !! x = relink (wq_prev w) (wq_next w) x <$> watchqs s !! x) →
  wq_next <$> wq !! q = Some (free_tvar_watch_queues s) →
  watch_ok (unlinked s tv v q w wq) (q_set tv (without q (Q tv)) Q) (q :: fq) ∧
  (wq_prev w = END → first_watch_queue_entry v = q) ∧
  (∀ x, x = wq_next w ∨ x = wq_prev w → x ≠ END → x ≠ q ∧ is_Some (watchqs s !! x)).
Proof.
  intros Hok Hv Hw Hq Hwq Hfree.
  destruct (unlink_queue s Q fq tv v q w wq) as ([tl Hd] & Hp1 & Hnear); [done..|].
  assert (Hok' := Hok). destruct Hok'.
  split_and!.
  - constructor; cbn.
    + intros tv' v'. destruct (decide (tv = tv')) as [<-|Et].
      * rewrite lookup_insert_eq. intros [= <-]. rewrite q_set_same. by exists tl.
      * rewrite lookup_insert_ne by done. intros Hv'. rewrite q_set_other by done. destruct (wo_queue0 tv' v' Hv') as (last' & Hd2 & Hnd2).
        exists last'. split; [|done]. eapply dlseg_ext; [|exact Hd2]. intros x Hx. unfold wq_nx, wq_pv; cbn.
        assert (x ∉ (Q tv).*1) as Hxt by (intros Hx2; apply Et; by eapply wo_disj0).
        assert (x ≠ END) by by eapply (dlseg_not_END _ _ _ _ _ _ _ _ Hd2).
        rewrite Hwq by (intros ->; done).
        destruct (watchqs s !! x) as [wx|]; [|done]. cbn.
        rewrite relink_off; [done|intros E; apply Hxt, Hnear; auto..].
    + intros tv' x c Hx. assert (x ≠ q ∧ (x, c) ∈ Q tv') as [Hxq Hx'].
      { destruct (decide (tv' = tv)) as [->|Et].
        - rewrite q_set_same in Hx. by apply without_elem.
        - rewrite q_set_other in Hx by done. split; [|done]. intros ->. apply Et.
          eapply wo_disj0; [|exact Hq]. apply list_elem_of_fmap. by exists (q, c). }
      rewrite Hwq by done. pose proof (wo_closure0 tv' x c Hx') as Hc.
      destruct (watchqs s !! x) as [wx|]; [|done]. cbn in *. rewrite <- Hc. unfold relink. by repeat case_decide.
    + intros a b x. assert (∀ a, x ∈ (q_set tv (without q (Q tv)) Q a).*1 → x ∈ (Q a).*1) as Hsub.
      { intros a'. destruct (decide (a' = tv)) as [->|]; [rewrite q_set_same; by intros [_ ?]%without_elem_fst|by rewrite q_set_other]. }
      intros Ha Hb. by eapply wo_disj0; apply Hsub.
    + split_and!; [done| |].
      { intros ->. by rewrite wo_null0 in Hw. }
      exists (free_tvar_watch_queues s). split; [exact Hfree|].
      eapply slist_ext; [|exact wo_free0]. intros x Hx. unfold wq_nx; cbn.
      assert (∀ tv', x ∉ (Q tv').*1) as Hxq by (intros tv' Hx'; by eapply wo_off0).
      rewrite Hwq by (intros ->; by apply (Hxq tv)). destruct (watchqs s !! x) as [wx|]; [|done]. cbn.
      assert (x ≠ END) by by eapply (slist_not_END _ _ _ _ _ wo_free0).
      rewrite relink_off; [done|intros E; apply (Hxq tv), Hnear; auto..].
    + intros tv' x Hx [->|Hxf]%elem_of_cons; [|].
      * destruct (decide (tv' = tv)) as [->|Et].
        -- rewrite q_set_same in Hx. by apply without_elem_fst in Hx as [? _].
        -- rewrite q_set_other in Hx by done. apply Et. by eapply wo_disj0.
      * destruct (decide (tv' = tv)) as [->|Et].
        -- rewrite q_set_same in Hx. apply without_elem_fst in Hx as [_ Hx]. by eapply wo_off0.
        -- rewrite q_set_other in Hx by done. by eapply wo_off0.
    + intros x Hx. pose proof (wo_fresh0 x Hx) as Hxn. change (watchqs s !! (x : ptr) = None) in Hxn.
      change (wq !! (x : ptr) = None). rewrite Hwq, Hxn; [done|]. intros ->. congruence.
    + done.
    + rewrite Hwq, wo_null0; [done|]. intros <-. congruence.
  - done.
  - intros x Hx Hxe. destruct (Hnear x Hx Hxe) as [? HxQ]. split; [done|]. by eapply queue_live.
Qed.

(** A guarded update of the entry [k], as the code writes it: nothing at END. *)
Definition at_entry (f : StgTVarWatchQueue → StgTVarWatchQueue) (k : ptr) wq : gmap ptr StgTVarWatchQueue :=
  if decide (k = END) then wq else alter f k wq.

Lemma at_entry_lookup f k wq x :
  wq !! END = None → at_entry f k wq !! x = (λ w, if decide (x = k) then f w else w) <$> wq !! x.
Proof.
  intros Hn. unfold at_entry. case_decide as Ek.
  - subst k. destruct (wq !! x) eqn:E; cbn; [|done]. by case_decide; [subst x; rewrite Hn in E|].
  - rewrite lookup_alter. case_decide as Ex.
    + subst x. destruct (wq !! k); cbn; [by rewrite decide_True|done].
    + destruct (wq !! x); cbn; [by rewrite decide_False|done].
Qed.

Lemma wp_at_entry f k s (Q : unit → stm → Prop) :
  (k ≠ END → is_Some (watchqs s !! k)) → Q tt (set_watchqs (at_entry f k (watchqs s)) s) →
  wp (when (negb (k =? END_STM_WATCH_QUEUE)) (upd_watchq k f)) Q s.
Proof.
  intros Hk HQ. apply wp_when; intros E; [apply negb_true_iff, Z.eqb_neq in E|apply negb_false_iff, Z.eqb_eq in E].
  - destruct (Hk E) as [w Hw]. unfold upd_watchq, upd. do 3 wp_step.
    assert (at_entry f k (watchqs s) = <[k := f w]> (watchqs s)) as <-; [|done].
    unfold at_entry. rewrite decide_False by done. apply map_eq. intros x.
    rewrite lookup_alter, lookup_insert. case_decide; [subst x; by rewrite Hw|done].
  - unfold at_entry in HQ. rewrite decide_True in HQ by done. by destruct s.
Qed.

Lemma relink_lookup p n wq x :
  wq !! END = None →
  at_entry (wq_set_next n) p (at_entry (wq_set_prev p) n wq) !! x = relink p n x <$> wq !! x.
Proof.
  intros Hn. rewrite at_entry_lookup by (rewrite at_entry_lookup by done; by rewrite Hn).
  rewrite at_entry_lookup by done. rewrite <- option_fmap_compose. done.
Qed.

Lemma set_first_same s tv v : tvars s !! tv = Some v → set_first tv v (first_watch_queue_entry v) s = s.
Proof.
  intros Hv. unfold set_first, tv_set_first. destruct s, v; cbn in *. by rewrite insert_id.
Qed.

Lemma unlink_watch_ok s Q fq tv v q :
  watch_ok s Q fq → tvars s !! tv = Some v → q ∈ (Q tv).*1 →
  wp (unlink_watch tv q)
     (λ _ s', (∃ w wq, s' = unlinked s tv v q w wq) ∧
        watch_ok s' (q_set tv (without q (Q tv)) Q) (q :: fq)) s.
Proof.
  intros Hok Hv Hq. destruct (queue_live _ _ _ _ _ Hok Hq) as [w Hw].
  unfold unlink_watch. do 2 wp_step. set (n := wq_next w). set (p := wq_prev w).
  set (wq2 := at_entry (wq_set_next n) p (at_entry (wq_set_prev p) n (watchqs s))).
  pose proof (relink_lookup p n (watchqs s)) as Hwq2. fold wq2 in Hwq2.
  pose proof (λ x, Hwq2 x (wo_null _ _ _ Hok)) as Hlook.
  set (wq3 := <[q := wq_set_next (free_tvar_watch_queues s) (relink p n q w)]> wq2).
  assert (wq2 !! q = Some (relink p n q w)) as Hq2 by (by rewrite Hlook, Hw).
  destruct (unlink_heap s Q fq tv v q w wq3) as (Hok' & Hhead & Hnear); [done..| | |].
  { intros x Hx. unfold wq3. by rewrite lookup_insert_ne. }
  { unfold wq3. by rewrite lookup_insert_eq. }
  wp_step. apply wp_at_entry; [intros; apply Hnear; auto|]. wp_step.
  assert (∀ Q' : unit → stm → Prop, Q' tt (set_watchqs wq2 (set_first tv v
       (if decide (p = END) then n else first_watch_queue_entry v) s)) →
    wp (if negb (p =? END_STM_WATCH_QUEUE) then upd_watchq p (wq_set_next n)
        else v ← load tvars tv; ASSERT (first_watch_queue_entry v =? q);; upd_tvar tv (tv_set_first n))
      Q' (set_watchqs (at_entry (wq_set_prev p) n (watchqs s)) s)) as Hmid.
  { intros Q' HQ'. destruct (negb (p =? END_STM_WATCH_QUEUE)) eqn:E.
    - assert (wp (when (negb (p =? END_STM_WATCH_QUEUE)) (upd_watchq p (wq_set_next n))) Q'
        (set_watchqs (at_entry (wq_set_prev p) n (watchqs s)) s)) as Hgo; [|by rewrite E in Hgo].
      apply negb_true_iff, Z.eqb_neq in E. apply wp_at_entry.
      + intros _. cbn. rewrite at_entry_lookup by exact (wo_null _ _ _ Hok).
        destruct (Hnear p) as [_ [wp ->]]; [by right|done|]. done.
      + rewrite decide_False, set_first_same in HQ' by done. exact HQ'.
    - apply negb_false_iff, Z.eqb_eq in E. do 2 wp_step. wp_step. wp_step; [by apply Z.eqb_eq, Hhead|].
      unfold upd_tvar, upd. do 3 wp_step. rewrite decide_True in HQ' by done.
      assert (wq2 = at_entry (wq_set_prev p) n (watchqs s)) as <-; [|exact HQ'].
      unfold wq2. generalize (at_entry (wq_set_prev p) n (watchqs s)). intros m. unfold at_entry.
      by rewrite decide_True. }
  apply Hmid. unfold free_stg_tvar_watch_queue, upd_watchq, upd. do 2 wp_step. do 3 wp_step. do 2 wp_step.
  split; [by exists w, wq3|exact Hok'].
Qed.
End watch.
