(* ===== verification/STMWait.v ===== *)
(** * Waiting

    [stmWait] puts a watch-queue entry for the thread on every TVar of the log
    and parks the thread; [stmCondemnTransaction] and [stmAbortTransaction] take
    the entries away again, and a commit that writes one of the TVars wakes the
    thread. *)
From S2P Require Import Prelude DList Threads STM STMLog STMAccess STMCommit STMWatch STMTop.
From stdpp Require Import list gmap.
Local Open Scope Z_scope.

(** What a watch-queue operation leaves alone in a TVar. *)
Definition tv_core (v : StgTVar) : closure * Z := (current_value v, num_updates v).

(** Only log chunks, TVar heads, watch-queue entries and the allocator differ. *)
Record build_step (s s' : stm) : Prop := {
  bs_eq : ∃ tvs ch wq f nx, heap_next (sch s) <= nx ∧
    s' = set_tvars tvs (set_chunks ch (set_watchqs wq (set_free_wqs f (set_sch (set_next nx (sch s)) s))));
  bs_core tv : tv_core <$> tvars s' !! tv = tv_core <$> tvars s !! tv
}.

(** The log and the queues after the first [k] entries have been registered for
    the thread [tso]. *)
Record registered (tso : ptr) (es : list TRecEntry) (Q : queues) (k : nat)
    (es' : list TRecEntry) (Q' : queues) : Prop := {
  rg_length : length es' = length es;
  rg_done j e : (j < k)%nat → es !! j = Some e → ∃ q,
    es' !! j = Some (e_set_new (CWatch q) e) ∧ Q' (e_tvar e) = (q, CTSO tso) :: Q (e_tvar e);
  rg_todo j : (k <= j)%nat → es' !! j = es !! j;
  rg_other tv : tv ∉ e_tvar <$> take k es → Q' tv = Q tv
}.

Section steps.
Implicit Types (s : stm) (Q : queues).

Lemma build_step_refl s : build_step s s.
Proof.
  split; [|done]. exists (tvars s), (chunks s), (watchqs s), (free_tvar_watch_queues s), (heap_next (sch s)).
  split; [lia|]. by destruct s as [[]].
Qed.

Lemma build_step_trans s1 s2 s3 : build_step s1 s2 → build_step s2 s3 → build_step s1 s3.
Proof.
  intros [(tvs & ch & wq & f & nx & H1 & ->) C1] [(tvs' & ch' & wq' & f' & nx' & H2 & ->) C2].
  cbn in H2. split; [|intros tv; by rewrite C2, C1].
  exists tvs', ch', wq', f', nx'. split; [lia|done].
Qed.

Lemma fresh_build_step s Q c q s' : fresh_watch s Q c q s' → build_step s s'.
Proof.
  intros [(wq & f & nx & Hn & ->) _ _ _]. split; [|done].
  exists (tvars s), (chunks s), wq, f, nx. split; [done|]. by destruct s.
Qed.

Lemma set_first_step s tv v f wq :
  tvars s !! tv = Some v → build_step s (set_first tv v f (set_watchqs wq s)).
Proof.
  intros Hv. split.
  - exists (tvars (set_first tv v f s)), (chunks s), wq, (free_tvar_watch_queues s), (heap_next (sch s)). split; [lia|].
    unfold set_first. by destruct s as [[]].
  - intros tv'. cbn. rewrite lookup_insert. case_decide; [subst tv'; by rewrite Hv|done].
Qed.

Lemma write_build_step s r e x : build_step s (write_slot r e x s).
Proof.
  split; [|done].
  exists (tvars s), (chunks (write_slot r e x s)), (watchqs s), (free_tvar_watch_queues s), (heap_next (sch s)).
  split; [lia|]. by destruct s as [[]].
Qed.

Lemma build_step_frame s s' :
  build_step s s' → trecs s' = trecs s ∧ smp_locked s' = smp_locked s ∧ tsos (sch s') = tsos (sch s).
Proof. by intros [(tvs & ch & wq & f & nx & Hn & ->) _]. Qed.

Lemma build_step_tvar s s' tv v :
  build_step s s' → tvars s !! tv = Some v →
  ∃ v', tvars s' !! tv = Some v' ∧ tv_core v' = tv_core v.
Proof.
  intros Hs Hv. pose proof (bs_core _ _ Hs tv) as E. rewrite Hv in E.
  destruct (tvars s' !! tv) as [v'|]; [|done]. exists v'. split; [done|]. injection E as E1 E2; unfold tv_core; congruence.
Qed.

Lemma is_log_build s s' t h n cs es :
  chunks s' = chunks s → trecs s' = trecs s → is_log s t h n cs es → is_log s' t h n cs es.
Proof. intros Ec Et. apply is_log_ext; [by rewrite Et|]. intros c _. by rewrite Ec. Qed.
End steps.

Section build.
Context (cfg : stm_config).
Implicit Types (s : stm) (t tso : ptr) (es : list TRecEntry) (Q : queues).

(** A TVar of the log as [build_watch_queue_entries_for_trec] asserts it: locked
    by the transaction, or unlocked with the expected value. *)
Definition held (t : ptr) (e : TRecEntry) (v : StgTVar) : Prop :=
  current_value v = if decide (cfg = STM_FG_LOCKS) then CTRec t else expected_value e.

Definition build_inv s t tso h n cs es Q (k : nat) s' : Prop :=
  ∃ es' Q' fq', build_step s s' ∧ watch_ok s' Q' fq' ∧ is_log s' t h n cs es' ∧
    registered tso es Q k es' Q' ∧ ∀ c, c ∉ cs → chunks s' !! c = chunks s !! c.

Definition build_body (tso t : ptr) (e : eref) (_ : unit) : prog stm (unit * bool) :=
  en ← get_entry e;
  let s := e_tvar en in
  v ← load tvars s;
  ACQ_ASSERT cfg (bool_decide (current_value v = CTRec t));;
  NACQ_ASSERT cfg (bool_decide (current_value v = expected_value en));;
  q ← alloc_stg_tvar_watch_queue (CTSO tso);
  push_watch s q;;
  upd_entry e (e_set_new (CWatch q));;
  mret (tt, false).

Lemma wp_held_asserts {A} t e v (m : prog stm A) (Post : A → stm → Prop) s :
  held t e v → wp m Post s →
  wp (ACQ_ASSERT cfg (bool_decide (current_value v = CTRec t));;
      NACQ_ASSERT cfg (bool_decide (current_value v = expected_value e));; m) Post s.
Proof.
  unfold held, ACQ_ASSERT, NACQ_ASSERT. intros Hh Hm. case_decide.
  - wp_step. wp_step; [by apply bool_decide_eq_true|]. wp_step. by wp_step.
  - wp_step. wp_step. wp_step. by wp_step; [apply bool_decide_eq_true|].
Qed.

Lemma registered_next tso es Q k es' Q' e q :
  NoDup (e_tvar <$> es) → registered tso es Q k es' Q' → es !! k = Some e →
  registered tso es Q (S k) (<[k := e_set_new (CWatch q) e]> es')
    (q_set (e_tvar e) ((q, CTSO tso) :: Q' (e_tvar e)) Q').
Proof.
  intros Hnd [Hlen Hd Ht Ho] He. pose proof (lookup_lt_Some _ _ _ He) as Hk.
  assert (∀ j e', es !! j = Some e' → e_tvar e' = e_tvar e → j = k) as Huniq.
  { intros j e' He' Et. eapply (NoDup_lookup _ j k (e_tvar e)); [done|..]; rewrite list_lookup_fmap;
      [rewrite He'|rewrite He]; cbn; congruence. }
  assert (e_tvar e ∉ e_tvar <$> take k es) as Hnew.
  { intros (e' & Et & [j Hj]%list_elem_of_lookup)%list_elem_of_fmap.
    apply lookup_take_Some in Hj as [Hj Hlt]. specialize (Huniq j e' Hj (eq_sym Et)). lia. }
  constructor.
  - by rewrite length_insert.
  - intros j e' Hj He'. destruct (decide (j = k)) as [->|Hne].
    + assert (e' = e) as -> by congruence. exists q. rewrite list_lookup_insert_eq by lia.
      rewrite q_set_same, (Ho _ Hnew). done.
    + destruct (Hd j e') as (q' & Hq' & HQ'); [lia|done|]. exists q'.
      rewrite list_lookup_insert_ne by done. split; [done|]. rewrite q_set_other; [done|].
      intros Et. by apply Hne, (Huniq j e').
  - intros j Hj. rewrite list_lookup_insert_ne by lia. apply Ht. lia.
  - intros tv Htv. rewrite (take_S_r _ _ _ He), fmap_app in Htv.
    assert (tv ≠ e_tvar e) by (intros ->; apply Htv, elem_of_app; right; by left).
    rewrite q_set_other by done. apply Ho. intros Hin. apply Htv, elem_of_app. by left.
Qed.

Lemma build_one s t tso h n cs es Q k s' e v r :
  NoDup (e_tvar <$> es) → build_inv s t tso h n cs es Q k s' → es !! k = Some e →
  refs_of cs n !! k = Some r → tvars s !! e_tvar e = Some v → held t e v →
  wp (build_body tso t r tt)
     (λ r' s', r'.2 = false ∧ build_inv s t tso h n cs es Q (S k) s') s'.
Proof.
  intros Hnd (es' & Q' & fq' & Hst & Hok & Hl & Hreg & Hfr) He Hr Hv Hh.
  assert (es' !! k = Some e) as He' by (rewrite (rg_todo _ _ _ _ _ _ Hreg); [done|lia]).
  destruct (is_log_entry _ _ _ _ _ _ _ _ Hl Hr) as (e0 & He0 & Hre).
  assert (e0 = e) as -> by congruence.
  destruct (build_step_tvar _ _ _ _ Hst Hv) as (v' & Hv' & Ev). injection Ev as Ev _.
  unfold build_body. wp_step. eapply wp_get_entry; [done|]. do 2 wp_step.
  apply wp_held_asserts; [unfold held in *; congruence|].
  wp_step. eapply wp_mono; [by eapply alloc_watch_ok|]. intros q s1 (Hfw & fq1 & Hok1 & Hqf).
  assert (Hfw' := Hfw). destruct Hfw' as [(wq & f & nx & Hn & E1) Hoff Hne Hcl].
  assert (tvars s1 = tvars s' ∧ chunks s1 = chunks s' ∧ trecs s1 = trecs s') as (Et1 & Ec1 & Er1) by by rewrite E1.
  wp_step. eapply wp_mono; [eapply (push_watch_ok s1 Q' fq1 (e_tvar e) v' q); [done..|by rewrite Et1|done]|].
  intros [] s2 [(wq2 & E2) Hok2].
  assert (is_log s2 t h n cs es') as Hl2.
  { eapply is_log_build; [| |exact Hl]; rewrite E2; cbn; [apply Ec1|apply Er1]. }
  destruct (is_log_entry _ _ _ _ _ _ _ _ Hl2 Hr) as (e2 & He2 & Hre2).
  assert (e2 = e) as -> by congruence.
  wp_step. eapply wp_upd_entry; [done|]. intros x Hx Hlen. wp_step. split; [done|].
  exists (<[k := e_set_new (CWatch q) e]> es'), (q_set (e_tvar e) ((q, CTSO tso) :: Q' (e_tvar e)) Q'), fq1.
  split_and!.
  - eapply build_step_trans; [exact Hst|]. eapply build_step_trans; [by eapply fresh_build_step|].
    eapply build_step_trans; [|apply write_build_step]. rewrite E2. apply set_first_step. by rewrite Et1.
  - eapply watch_ok_ext; [| | | |exact Hok2]; [|done..|cbn; lia]. intros tv v0 Hv0. by exists v0.
  - by apply is_log_write.
  - by apply registered_next.
  - intros c Hc. cbn. rewrite lookup_insert_ne; [rewrite E2; cbn; rewrite Ec1; by apply Hfr|].
    intros <-. by apply Hc, (is_log_refs _ _ _ _ _ _ _ Hl2), (list_elem_of_lookup_2 _ k).
Qed.

Lemma build_ok s t tso h n cs es Q fq :
  t ≠ NO_TREC → is_log s t h n cs es → trec_enclosing h = NO_TREC → state h = TREC_ACTIVE →
  NoDup (e_tvar <$> es) → watch_ok s Q fq →
  (∀ e, e ∈ es → ∃ v, tvars s !! e_tvar e = Some v ∧ held t e v) →
  wp (build_watch_queue_entries_for_trec cfg tso t)
     (λ _ s', build_inv s t tso h n cs es Q (length es) s') s.
Proof.
  intros Hne Hl Htop Hst Hnd Hok Hheld. unfold build_watch_queue_entries_for_trec.
  wp_step. wp_step; [by apply negb_true_iff, Z.eqb_neq|]. do 2 wp_step; [apply Hl|].
  wp_step. wp_step; [by rewrite Htop|]. wp_step. wp_step; [by apply bool_decide_eq_true|].
  pose proof (Forall2_length _ _ _ (il_entries _ _ _ _ _ _ Hl)) as Hlen.
  eapply wp_mono; [eapply (wp_FOR_EACH_ENTRY (build_body tso t)
    (λ pre _ s', build_inv s t tso h n cs es Q (length pre) s') (λ _ _, False)); [exact Hl|..]|].
  - intros pre r post [] s' Hrs Hinv. apply refs_split_lookup in Hrs as Hr.
    destruct (is_log_entry _ _ _ _ _ _ _ _ Hl Hr) as (e & He & _).
    destruct (Hheld e) as (v & Hv & Hh); [by eapply list_elem_of_lookup_2|].
    eapply wp_mono; [by eapply build_one|]. intros [u b] s2 [Hb Hi]; cbn in *. subst b.
    rewrite length_app; cbn. by rewrite Nat.add_1_r.
  - intros pre [] s' c (es' & Q' & fq' & _ & _ & Hl' & _) Hc. by eapply is_log_chain_same.
  - exists es, Q, fq. split_and!; [apply build_step_refl|done|done| |done].
    constructor; [done|cbn; lia|done|done].
  - intros [] s' [[]|Hi]. by rewrite Hlen in Hi.
Qed.
End build.

(** ** Parking *)
Section park.
Implicit Types (sc : sched).

(** Thread [p] is parked in STM, the others as before. *)
Record parked (p : ptr) (l : list ptr) (sc sc' : sched) : Prop := {
  pk_inv : sched_inv sc' l;
  pk_why q : why sc' q = if decide (q = p) then Some BlockedOnSTM else why sc q;
  pk_live q : is_Some (tsos sc' !! q) ↔ is_Some (tsos sc !! q);
  pk_next : heap_next sc <= heap_next sc'
}.

Lemma park_ok s p l tp :
  sched_inv (sch s) l → p ∉ l → p ≠ END → tsos (sch s) !! p = Some tp →
  why_blocked tp = NotBlocked → tso_link tp = END →
  wp (park_tso p) (λ _ s', ∃ sc', s' = set_sch sc' s ∧ parked p l (sch s) sc') s.
Proof.
  intros [[Hd Hnd] Hpk] Hp Hpe Ht Hw Hlk. unfold park_tso. apply wp_in_sched.
  do 2 wp_step. wp_step. wp_step; [by apply bool_decide_eq_true|]. unfold upd_tso. wp_step.
  do 3 wp_step. do 2 wp_step; [cbn; apply lookup_insert_eq|]. wp_step. eexists. split; [done|].
  set (tp' := with_block END (with_why BlockedOnSTM tp)). cbn. rewrite insert_insert_eq.
  constructor; cbn; [constructor; cbn|..|lia].
  - split; [|done]. eapply dlseg_ext; [|exact Hd]. intros x Hx. unfold tso_nx, tso_pv; cbn.
    rewrite !lookup_insert_ne; [done|by intros ->..].
  - intros q u. rewrite lookup_insert. case_decide; [subst q; by intros [= <-]|by apply Hpk].
  - intros q. unfold why; cbn. rewrite lookup_insert. repeat case_decide; subst; done.
  - intros q. rewrite lookup_insert. case_decide; [subst q; rewrite Ht; by split; eauto|done].
Qed.
End park.

(** ** The whole of [stmWait] *)

(** A transaction that is about to wait for the thread [tso]. *)
Record wait_ready (cfg : stm_config) (s : stm) (t : ptr) (h : StgTRecHeader) (n : nat)
    (cs : list ptr) (es : list TRecEntry) (tso : ptr) (l : list ptr) (Q : queues) (fq : list ptr) : Prop := {
  wr_ptr : t ≠ NO_TREC;
  wr_log : is_log s t h n cs es;
  wr_top : trec_enclosing h = NO_TREC;
  wr_state : state h = TREC_ACTIVE ∨ state h = TREC_CONDEMNED;
  wr_nodup : NoDup (e_tvar <$> es);
  wr_plain : plain_log cfg s es;
  wr_unlocked : cfg = STM_CG_LOCK → smp_locked s = None;
  wr_sched : sched_inv (sch s) l;
  wr_watch : watch_ok s Q fq;
  wr_thread : (tso ∉ l) ∧ tso ≠ END ∧
    ∃ tp, tsos (sch s) !! tso = Some tp ∧ why_blocked tp = NotBlocked ∧ tso_link tp = END
}.

(** The thread waits: it is parked, watches every TVar of the log, and no TVar
    has changed or is locked. *)
Record waiting (s : stm) (t : ptr) (h : StgTRecHeader) (n : nat) (cs : list ptr)
    (es : list TRecEntry) (tso : ptr) (l : list ptr) (Q : queues) (s' : stm) : Prop := {
  wt_core tv : tv_core <$> tvars s' !! tv = tv_core <$> tvars s !! tv;
  wt_log : ∃ es1 es' Q' fq', Forall2 same_entry es es1 ∧ registered tso es1 Q (length es1) es' Q' ∧
    is_log s' t (tr_set_state TREC_WAITING h) n cs es' ∧ watch_ok s' Q' fq';
  wt_sched : parked tso l (sch s) (sch s');
  wt_trecs : trecs s' = <[t := tr_set_state TREC_WAITING h]> (trecs s);
  wt_chunks c : c ∉ cs → chunks s' !! c = chunks s !! c;
  wt_smp : smp_locked s' = smp_locked s
}.

(** The values of [tvs0] with the queue heads of [tvs1]. *)
Definition restore (tvs0 tvs1 : gmap ptr StgTVar) : gmap ptr StgTVar :=
  map_zip_with (λ v0 v1, mkTVar (current_value v0) (first_watch_queue_entry v1) (num_updates v0)) tvs0 tvs1.

Section restore.
Implicit Types (tvs : gmap ptr StgTVar).

Lemma restore_lookup tvs0 tvs1 tv v0 v1 :
  tvs0 !! tv = Some v0 → tvs1 !! tv = Some v1 →
  restore tvs0 tvs1 !! tv = Some (mkTVar (current_value v0) (first_watch_queue_entry v1) (num_updates v0)).
Proof. intros H0 H1. unfold restore. by rewrite map_lookup_zip_with, H0, H1. Qed.

Lemma restore_inv tvs0 tvs1 tv v :
  restore tvs0 tvs1 !! tv = Some v → ∃ v0 v1, tvs0 !! tv = Some v0 ∧ tvs1 !! tv = Some v1 ∧
    v = mkTVar (current_value v0) (first_watch_queue_entry v1) (num_updates v0).
Proof.
  unfold restore. rewrite map_lookup_zip_with. destruct (tvs0 !! tv), (tvs1 !! tv); try done.
  intros [= <-]. eauto.
Qed.

Lemma restore_core tvs0 tvs1 tv :
  (is_Some (tvs0 !! tv) → is_Some (tvs1 !! tv)) →
  tv_core <$> restore tvs0 tvs1 !! tv = tv_core <$> tvs0 !! tv.
Proof.
  intros Hl. unfold restore. rewrite map_lookup_zip_with.
  destruct (tvs0 !! tv); [|done]. by destruct Hl as [v1 ->].
Qed.
End restore.

Section wait.
Context (cfg : stm_config).
Implicit Types (s : stm) (t tso : ptr) (es : list TRecEntry) (Q : queues).

Lemma is_log_state s s' t h n cs es st :
  trecs s' !! t = Some (tr_set_state st h) → chunks s' = chunks s →
  is_log s t h n cs es → is_log s' t (tr_set_state st h) n cs es.
Proof.
  intros Ht Ec [Ht0 Hh Hc Hch Hb Hz He].
  assert (∀ c, chunk_prev s' c = chunk_prev s c) as Hp by (intros; unfold chunk_prev; by rewrite Ec).
  constructor; cbn; [done|done|eapply slist_ext; [|exact Hc]; auto|by rewrite Ec|done|by rewrite Ec|].
  eapply Forall2_impl; [exact He|]. intros r e Hre. by rewrite (entry_at_ext s s') by by rewrite Ec.
Qed.

(** From the validated state to the one after the registration, the TVars are
    those of [s] locked as [validate_and_acquire_ownership] left them, up to the
    heads of their queues. *)
Lemma restore_locked s s1 t h n cs es es1 tvs5 :
  validated cfg s t h n cs es true (length es) s1 es1 →
  (∀ tv, tv_core <$> tvs5 !! tv = tv_core <$> tvars s1 !! tv) →
  tvs_at (lock_fun cfg t true (length es1)) (restore (tvars s) tvs5) es1 tvs5.
Proof.
  intros [_ _ Hs [Hin Hout] _ _] Hcore. pose proof (Forall2_length _ _ _ Hs) as Hlen.
  assert (e_tvar <$> es1 = e_tvar <$> es) as Etv.
  { symmetry. apply list_eq_Forall2. apply Forall2_fmap. eapply Forall2_impl; [exact Hs|]. by intros ?? [-> _]. }
  split.
  - intros j e1 b He1 (v0 & v5 & Hv0 & Hv5 & ->)%restore_inv.
    destruct (lookup_lt_is_Some_2 es j) as [e He]; [rewrite Hlen; by eapply lookup_lt_Some|].
    assert (same_entry e e1) as Hse by (eapply Forall2_lookup_lr; eauto).
    assert (Hse' := Hse). destruct Hse' as (Et & _). rewrite Et in *.
    specialize (Hin j e v0 He Hv0). specialize (Hcore (e_tvar e)). rewrite Hin, Hv5 in Hcore.
    rewrite Hv5. f_equal. unfold lock_fun in *.
    assert (acquired cfg true e1 = acquired cfg true e) as -> by done.
    pose proof (lookup_lt_Some _ _ _ He). rewrite decide_True in Hcore by done. rewrite decide_True by lia.
    injection Hcore as Ev Eu. destruct v5 as [x f u]; cbn in *.
    destruct (acquired cfg true e); cbn in *; by subst.
  - intros tv Htv. rewrite Etv in Htv. specialize (Hout tv Htv). specialize (Hcore tv). rewrite Hout in Hcore.
    unfold restore. rewrite map_lookup_zip_with.
    destruct (tvars s !! tv) as [v0|], (tvs5 !! tv) as [v5|]; try done.
    injection Hcore as Ev Eu. destruct v5; cbn in *; by subst.
Qed.
(** *** Acquiring every TVar writes no chunk *)
Lemma preserves_FOR_EACH {A} I (body : eref → A → prog stm (A * bool)) t a :
  (∀ r a, preserves I (body r a)) → preserves I (FOR_EACH_ENTRY body t a).
Proof.
  intros Hb. unfold FOR_EACH_ENTRY.
  assert (∀ c js a, preserves I (for_slots body c js a)) as Hslots.
  { intros c js. induction js as [|i js IH]; intros a'; cbn [for_slots]; [preserves|].
    apply preserves_bind; [apply Hb|]. intros [a2 []]; [preserves|apply IH]. }
  assert (∀ fuel c n a, preserves I (for_chunks body fuel c n a)) as Hchunks.
  { induction fuel as [|fuel IH]; intros c n a'; cbn [for_chunks]; [preserves|].
    destruct (c =? END_STM_CHUNK_LIST); [preserves|].
    apply preserves_bind; [apply Hslots|]. intros [a2 []]; [preserves|].
    apply preserves_bind; [preserves|]. intros ch. apply IH. }
  preserves; apply Hchunks.
Qed.

Definition chunks_are (C : gmap ptr StgTRecChunk) (s : stm) : Prop := chunks s = C.

Lemma preserves_tvar C tv f : preserves (chunks_are C) (upd_tvar tv f).
Proof. unfold upd_tvar, upd. apply preserves_bind; [preserves|]. intros v. by apply preserves_modify. Qed.

Lemma preserves_acquire C t : preserves (chunks_are C) (validate_and_acquire_ownership cfg t true true).
Proof.
  pose proof (preserves_tvar C) as Ht.
  assert (∀ tv c b, preserves (chunks_are C) (unlock_tvar cfg t tv c b)) as Hu.
  { intros tv c b. unfold unlock_tvar, assert_smp. preserves; apply Ht. }
  assert (∀ tv x, preserves (chunks_are C) (cond_lock_tvar cfg t tv x)) as Hc.
  { intros tv x. unfold cond_lock_tvar, assert_smp. preserves; apply Ht. }
  assert (∀ r, preserves (chunks_are C) (get_entry r)) as Hg by (intros r; unfold get_entry; preserves).
  unfold validate_and_acquire_ownership, revert_ownership, tvar_is_locked.
  preserves; apply preserves_FOR_EACH; intros r ?; preserves; first [done|by auto].
Qed.

(** *** From validation to the parked thread *)

Lemma validated_held s t h n cs es s1 es1 e1 :
  validated cfg s t h n cs es true (length es) s1 es1 → tvars_live (tvars s) es → e1 ∈ es1 →
  ∃ v, tvars s1 !! e_tvar e1 = Some v ∧ held cfg t e1 v.
Proof.
  intros [_ _ Hs [Hin _] Hval _] Hlive [j He1]%list_elem_of_lookup.
  destruct (lookup_lt_is_Some_2 es j) as [e He].
  { rewrite (Forall2_length _ _ _ Hs). by eapply lookup_lt_Some. }
  assert (same_entry e e1) as Hse by (eapply Forall2_lookup_lr; eauto).
  destruct Hse as (Et & Ex & _). destruct (Hlive e) as [v Hv]; [by eapply list_elem_of_lookup_2|].
  pose proof (lookup_lt_Some _ _ _ He) as Hj.
  specialize (Hval j e Hj He). rewrite (valid_entry_spec _ _ _ Hv) in Hval. apply bool_decide_eq_true in Hval.
  rewrite Et, (Hin j e v He Hv). eexists. split; [done|].
  unfold lock_fun, held, acquired. rewrite decide_True by done. cbn.
  destruct (decide (cfg = STM_FG_LOCKS)) as [Ec|Ec].
  - by rewrite bool_decide_true.
  - rewrite bool_decide_false by done. cbn. congruence.
Qed.

Lemma validated_watch s t h n cs es k s1 es1 Q fq :
  validated cfg s t h n cs es true k s1 es1 → tvars_live (tvars s) es → watch_ok s Q fq → watch_ok s1 Q fq.
Proof.
  intros [[(tvs & ch & sc & ->) Hsch] _ _ [Hin Hout] _ _] Hlive Hok.
  cbn in *. subst sc. apply (watch_ok_ext s); [|done|done|cbn; lia|exact Hok].
  intros tv v' Hv'. cbn in *. destruct (decide (tv ∈ e_tvar <$> es)) as [Htv|Htv].
  - apply list_elem_of_fmap in Htv as (e & -> & [j He]%list_elem_of_lookup).
    destruct (Hlive e) as [v Hv]; [by eapply list_elem_of_lookup_2|].
    exists v. split; [done|]. rewrite (Hin j e v He Hv) in Hv'. injection Hv' as <-.
    unfold lock_fun. by repeat case_match.
  - exists v'. by rewrite <- (Hout tv Htv).
Qed.

Lemma same_tvars es es1 : Forall2 same_entry es es1 → e_tvar <$> es1 = e_tvar <$> es.
Proof.
  intros Hs. symmetry. apply list_eq_Forall2, Forall2_fmap. eapply Forall2_impl; [exact Hs|]. by intros ?? [-> _].
Qed.

(** What [stmWait] leaves when it answers TRUE: the TVars are still owned. *)
Definition wait_locked s t h n cs es tso l Q s5 : Prop :=
  ∃ s1 es1 es' Q' fq',
    validated cfg (locked_state cfg t s) t h n cs es true (length es) s1 es1 ∧
    (∀ tv, tv_core <$> tvars s5 !! tv = tv_core <$> tvars s1 !! tv) ∧
    registered tso es1 Q (length es1) es' Q' ∧
    is_log s5 t (tr_set_state TREC_WAITING h) n cs es' ∧ watch_ok s5 Q' fq' ∧
    parked tso l (sch s) (sch s5) ∧ trecs s5 = <[t := tr_set_state TREC_WAITING h]> (trecs s) ∧
    (∀ c, c ∉ cs → chunks s5 !! c = chunks s !! c) ∧
    smp_locked s5 = smp_locked (locked_state cfg t s).

Lemma wait_true s t h n cs es tso l Q fq s1 es1 :
  wait_ready cfg s t h n cs es tso l Q fq → state h ≠ TREC_CONDEMNED →
  validated cfg (locked_state cfg t s) t h n cs es true (length es) s1 es1 → chunks s1 = chunks s →
  wp (build_watch_queue_entries_for_trec cfg tso t;; park_tso tso;; upd_trec t (tr_set_state TREC_WAITING))
     (λ _ s5, wait_locked s t h n cs es tso l Q s5) s1.
Proof.
  intros [Hne Hl Htop Hst Hnd [Hlive Hplain] Hul Hsi Hwo (Hpl & Hpe & tp & Htp & Hwhy & Hlk)] Hnc Hvs Hch.
  destruct (locked_same cfg s t) as (Et & Ec & Er & Es & Ew & Em).
  assert (Hvs' := Hvs). destruct Hvs' as [[Hcs Hsch] Hl1 Hs _ _ _].
  assert (tvars_live (tvars (locked_state cfg t s)) es) as Hlive0 by by rewrite Et.
  assert (watch_ok (locked_state cfg t s) Q fq) as Hwo0.
  { apply (watch_ok_ext s); [rewrite Et; eauto|done| |by rewrite Es|done]. unfold locked_state. by case_decide. }
  pose proof (validated_watch _ _ _ _ _ _ _ _ _ _ _ Hvs Hlive0 Hwo0) as Hwo1.
  assert (state h = TREC_ACTIVE) as Hact by by destruct Hst.
  wp_step. eapply wp_mono.
  { eapply (build_ok cfg s1 t tso h n cs es1 Q fq); try done; [by rewrite (same_tvars es)|].
    intros e1 He1. by eapply validated_held. }
  intros [] s2 (es' & Q' & fq' & Hst2 & Hwo2 & Hl2 & Hreg & Hfr2).
  assert (Hst2' := Hst2). destruct Hst2' as [(tvs & ch & wq & f & nx & Hnx & E2) Hcore].
  assert (sch s2 = set_next nx (sch s)) as Esc by (rewrite E2; cbn; by rewrite Hsch, Es).
  wp_step. eapply wp_mono; [eapply (park_ok s2 tso l tp); [|done|done|by rewrite Esc|done|done]|].
  { rewrite Esc. destruct Hsi as [Hq Hp]. by split. }
  intros [] s3 (sc3 & -> & Hpk). unfold upd_trec, upd.
  assert (trecs s2 !! t = Some h) as Ht2 by apply Hl2.
  do 3 wp_step.
  exists s1, es1, es', Q', fq'. split_and!; cbn; try done.
  - apply (is_log_state s2); [|done|exact Hl2]. cbn. apply lookup_insert_eq.
  - apply (watch_ok_ext s2); [eauto|done|done| |exact Hwo2]. apply Hpk.
  - destruct Hpk as [H1 H2 H3 H4]. constructor; [done| | |rewrite Esc in H4; cbn in H4; rewrite Hsch, Es in Hnx; lia].
    + intros q. rewrite H2, Esc. done.
    + intros q. rewrite H3, Esc. done.
  - rewrite E2. cbn. destruct Hcs as (? & ? & ? & ->). cbn. by rewrite Er.
  - intros c Hc. by rewrite Hfr2, Hch.
  - rewrite E2. cbn. apply (commit_step_smp _ _ Hcs).
Qed.

(** *** Giving the TVars back *)
Lemma restore_plain s es es1 tvs5 :
  plain_log cfg s es → Forall2 same_entry es es1 →
  (∀ tv, is_Some (tvars s !! tv) → is_Some (tvs5 !! tv)) →
  plain_log cfg (set_tvars (restore (tvars s) tvs5) s) es1.
Proof.
  intros [Hlive Hplain] Hs H5.
  assert (∀ e1, e1 ∈ es1 → ∃ e, e ∈ es ∧ same_entry e e1) as Hback.
  { intros e1 [j Hj]%list_elem_of_lookup. destruct (lookup_lt_is_Some_2 es j) as [e He].
    { rewrite (Forall2_length _ _ _ Hs). by eapply lookup_lt_Some. }
    exists e. split; [by eapply list_elem_of_lookup_2|]. by eapply Forall2_lookup_lr. }
  split; cbn.
  - intros e1 He1. destruct (Hback e1 He1) as (e & He & -> & _). destruct (Hlive e He) as [v Hv].
    destruct (H5 (e_tvar e)) as [v5 Hv5]; [by rewrite Hv|]. rewrite (restore_lookup _ _ _ _ _ Hv Hv5). eauto.
  - intros e1 He1. destruct (Hback e1 He1) as (e & He & Et & -> & ->).
    destruct (Hplain e He) as (Hx & Hn & Hu). split_and!; [done|done|].
    rewrite Et. intros v (v0 & v1 & Hv0 & _ & ->)%restore_inv. intros Ec. by apply (Hu v0 Hv0).
Qed.

Lemma validated_dom s t h n cs es k s1 es1 tv :
  validated cfg s t h n cs es true k s1 es1 → is_Some (tvars s !! tv) → is_Some (tvars s1 !! tv).
Proof.
  intros [_ _ _ [Hin Hout] _ _] [v Hv]. destruct (decide (tv ∈ e_tvar <$> es)) as [Htv|Htv].
  - apply list_elem_of_fmap in Htv as (e & -> & [j He]%list_elem_of_lookup). rewrite (Hin j e v He Hv). eauto.
  - rewrite (Hout tv Htv), Hv. eauto.
Qed.

Lemma registered_release tso es1 Q es' Q' :
  registered tso es1 Q (length es1) es' Q' → Forall2 (release_entry true) es1 es'.
Proof.
  intros [Hlen Hd _ _]. apply Forall2_same_length_lookup. split; [done|].
  intros j e e' He He'. destruct (Hd j e) as (q & Hq & _); [by eapply lookup_lt_Some|done|].
  assert (e' = e_set_new (CWatch q) e) as -> by congruence. done.
Qed.

Lemma restore_valid s t h n cs es s1 es1 tvs5 j e1 :
  validated cfg s t h n cs es true (length es) s1 es1 → tvars_live (tvars s) es →
  (∀ tv, is_Some (tvars s !! tv) → is_Some (tvs5 !! tv)) →
  es1 !! j = Some e1 → valid_entry (restore (tvars s) tvs5) e1 = true.
Proof.
  intros [_ _ Hs _ Hval _] Hlive H5 He1.
  destruct (lookup_lt_is_Some_2 es j) as [e He].
  { rewrite (Forall2_length _ _ _ Hs). by eapply lookup_lt_Some. }
  assert (same_entry e e1) as (Et & Ex & _) by (eapply Forall2_lookup_lr; eauto).
  destruct (Hlive e) as [v Hv]; [by eapply list_elem_of_lookup_2|].
  destruct (H5 (e_tvar e)) as [v5 Hv5]; [by rewrite Hv|].
  specialize (Hval j e (lookup_lt_Some _ _ _ He) He). rewrite (valid_entry_spec _ _ _ Hv) in Hval.
  erewrite valid_entry_spec; [|rewrite Et; by apply restore_lookup]. by rewrite Ex.
Qed.

Lemma wait_unlock_ok s t h n cs es tso l Q s5 :
  NoDup (e_tvar <$> es) → plain_log cfg s es → wait_locked s t h n cs es tso l Q s5 →
  (cfg = STM_CG_LOCK → smp_locked s = None) →
  wp (stmWaitUnlock cfg t) (λ _ s', waiting s t h n cs es tso l Q s') s5.
Proof.
  intros Hnd Hpl (s1 & es1 & es' & Q' & fq' & Hvs & Hcore & Hreg & Hl5 & Hwo5 & Hpk & Htr & Hch & Hsmp) Hul.
  destruct (locked_same cfg s t) as (Et & _).
  pose proof (vs_same _ _ _ _ _ _ _ _ _ _ _ Hvs) as Hs.
  pose proof (restore_locked _ _ _ _ _ _ _ _ (tvars s5) Hvs Hcore) as Hlocked. rewrite Et in Hlocked.
  assert (∀ tv, is_Some (tvars s !! tv) → is_Some (tvars s5 !! tv)) as Hdom.
  { intros tv Htv. rewrite <- Et in Htv. apply (validated_dom _ _ _ _ _ _ _ _ _ _ Hvs) in Htv as [v Hv].
    specialize (Hcore tv). rewrite Hv in Hcore. destruct (tvars s5 !! tv); [eauto|done]. }
  assert (holds_lock cfg s5 t) as Hh5.
  { intros Ec. rewrite Hsmp. by apply (holds_locked cfg s t). }
  unfold stmWaitUnlock. wp_step. eapply wp_mono.
  { eapply (revert_ok cfg (set_tvars (restore (tvars s) (tvars s5)) s) s5 t _ _ _ es1 es' true (length es1)).
    - exact Hl5.
    - by eapply registered_release.
    - by rewrite (same_tvars es).
    - by apply (restore_plain s es).
    - done.
    - exact Hlocked.
    - cbn. rewrite <- Et. intros j e1 _ He1. eapply (restore_valid (locked_state cfg t s)); [exact Hvs| | |done].
      + rewrite Et. apply Hpl.
      + by rewrite Et. }
  cbn. intros [] s6 ->. apply wp_unlock_stm; [done|].
  set (s6 := set_tvars (restore (tvars s) (tvars s5)) s5).
  destruct (unlocked_same cfg s6) as (Et6 & Ec6 & Er6 & Es6 & Ew6).
  constructor.
  - intros tv. rewrite Et6. apply restore_core, Hdom.
  - exists es1, es', Q', fq'. split_and!; [done|done| |].
    + by apply is_log_unlocked, (is_log_ext s5).
    + apply (watch_ok_ext s5); [|by rewrite Ew6| |by rewrite Es6|done].
      * rewrite Et6. intros tv v (v0 & v5 & _ & Hv5 & ->)%restore_inv. by exists v5.
      * unfold unlocked_state. by case_decide.
  - by rewrite Es6.
  - by rewrite Er6.
  - intros c Hc. rewrite Ec6. by apply Hch.
  - unfold unlocked_state, s6. case_decide as Ec; cbn; [by rewrite Hul|].
    rewrite Hsmp. unfold locked_state. by rewrite decide_False.
Qed.

(** [stmWait] followed, when it answers TRUE, by [stmWaitUnlock]: what the
    primitive operation stmWait# does. *)
Lemma wait_ok s t h n cs es tso l Q fq :
  wait_ready cfg s t h n cs es tso l Q fq →
  wp (r ← stmWait cfg tso t; when r (stmWaitUnlock cfg t);; mret r)
     (λ r s', r = commit_answer s h es ∧ if r then waiting s t h n cs es tso l Q s'
        else tvars s' = tvars s ∧ sch s' = sch s ∧ smp_locked s' = smp_locked s) s.
Proof.
  intros Hr. assert (Hr' := Hr). destruct Hr' as [Hne Hl Htop Hst Hnd Hpl Hul Hsi Hwo _].
  destruct (locked_same cfg s t) as (Et & Ec & Er & Es & _).
  assert (is_log (locked_state cfg t s) t h n cs es) as Hl1 by by apply is_log_locked.
  assert (plain_log cfg (locked_state cfg t s) es) as Hpl1 by (destruct Hpl; split; rewrite Et; done).
  unfold stmWait, assert_running. wp_step. wp_step. wp_step. wp_step; [by apply negb_true_iff, Z.eqb_neq|].
  do 2 wp_step; [apply Hl|]. wp_step. wp_step; [by apply bool_decide_eq_true|]. wp_step.
  wp_step. wp_step; [by rewrite Htop|]. wp_step. apply wp_lock_stm; [done|]. wp_step.
  eapply wp_mono.
  { apply (wp_preserves (chunks_are (chunks s))); [apply preserves_acquire|exact Ec|].
    apply (validate_ok cfg _ t h n cs es true true); try done; [apply holds_locked|tauto]. }
  cbn beta. intros r s1 [[Er1 Hs1] Hch]. rewrite Et in Er1. fold (commit_answer s h es) in Er1. subst r.
  destruct (commit_answer s h es) eqn:Hans; cbn [andb] in Hs1.
  - destruct Hs1 as [es1 Hvs]. wp_step. eapply wp_mono; [eapply wait_true; try done|].
    { intros Hc. unfold commit_answer in Hans. by rewrite bool_decide_true in Hans. }
    intros [] s5 H5. do 2 wp_step. cbn [when]. eapply wp_mono.
    { eapply wait_unlock_ok; [exact Hnd|exact Hpl|exact H5|exact Hul]. }
    intros [] s6 H6. by wp_step.
  - destruct Hs1 as (es2 & Hl2 & _ & Htv2 & Hcs & Hsch2).
    do 2 wp_step. apply wp_unlock_stm; [eapply commit_step_lock; [exact Hcs|apply holds_locked]|].
    destruct (unlocked_same cfg s1) as (Et6 & _ & _ & Es6 & _).
    eapply wp_mono; [by eapply free_header_ok, is_log_unlocked|].
    intros [] s' [(f & ch & tr & ->) _ _ _ _ _]. wp_step. cbn [when]. do 2 wp_step. wp_step. split; [done|]. cbn.
    rewrite Et6, Es6, Htv2, Hsch2, Et, Es. split_and!; [done..|].
    unfold unlocked_state. case_decide as Ecc; cbn; [by rewrite Hul|].
    rewrite (proj1 (commit_step_smp _ _ Hcs)). unfold locked_state. by rewrite decide_False.
Qed.
End wait.
