(* ===== verification/STMWakeup.v ===== *)
(** * No lost wake-ups

    A thread that waits in STM and a transaction that then commits: the commit
    wakes the thread when it writes a TVar the thread has read.  Condemning the
    waiting transaction instead takes its watch-queue entries away again. *)
From S2P Require Import Prelude DList Threads STM STMLog STMAccess STMCommit STMTop STMWatch STMWait.
From stdpp Require Import list gmap.
Local Open Scope Z_scope.

(** The entries of the queues, without the objects that watch. *)
Definition entries_of (Q : queues) (tv : ptr) : list ptr := (Q tv).*1.

Section wakeup.
Context (cfg : stm_config).
Implicit Types (s : stm) (t tso : ptr) (es : list TRecEntry) (Q : queues).

(** The queue of a TVar after a registration. *)
Lemma registered_queue tso es1 Q es' Q' tv :
  registered tso es1 Q (length es1) es' Q' →
  (∃ q, Q' tv = (q, CTSO tso) :: Q tv ∧ tv ∈ e_tvar <$> es1) ∨ (Q' tv = Q tv ∧ tv ∉ e_tvar <$> es1).
Proof.
  intros [_ Hd _ Ho]. destruct (decide (tv ∈ e_tvar <$> es1)) as [Hin|Hin].
  - left. apply list_elem_of_fmap in Hin as (e & -> & Hj). assert (Hin := Hj).
    apply list_elem_of_lookup in Hj as [j Hj].
    destruct (Hd j e) as (q & _ & HQ); [by eapply lookup_lt_Some|done|]. exists q. split; [done|].
    apply list_elem_of_fmap. eauto.
  - right. split; [|done]. apply Ho. by rewrite take_ge.
Qed.

Definition watching (c : closure) : option ptr := match c with CTSO p => Some p | _ => None end.

Lemma waiting_watched s t h n cs es tso l Q s' es2 :
  waiting s t h n cs es tso l Q s' → watched s es2 (entries_of Q) →
  (∃ fq, watch_ok s Q fq) → is_Some (tsos (sch s) !! tso) →
  ∃ Q' fq', watch_ok s' Q' fq' ∧ watched s' es2 (entries_of Q') ∧
    (∀ e, e ∈ es → ∃ q, Q' (e_tvar e) = (q, CTSO tso) :: Q (e_tvar e)) ∧
    (∀ tv, tv ∉ e_tvar <$> es → Q' tv = Q tv).
Proof.
  intros [Hcore (es1 & es' & Q' & fq' & Hs & Hreg & _ & Hwo) Hpk _ _ _] Hwd [fq Hwo0] Hlive.
  pose proof (same_tvars _ _ Hs) as Etv.
  exists Q', fq'. split_and!; [done| | |].
  - intros e v' He Hv'. split.
    + destruct (wo_queue _ _ _ Hwo _ _ Hv') as [last Hd]. by exists last.
    + pose proof (Hcore (e_tvar e)) as Hc. rewrite Hv' in Hc.
      destruct (tvars s !! e_tvar e) as [v|] eqn:Hv; [|done].
      destruct (Hwd e v He Hv) as [_ Hold]. unfold entries_of in *.
      rewrite (watchers_queue _ _ _ _ Hwo). rewrite (watchers_queue _ _ _ _ Hwo0) in Hold.
      intros p Hp. apply (pk_live _ _ _ _ Hpk).
      destruct (registered_queue _ _ _ _ _ (e_tvar e) Hreg) as [(q & HQ & _)|[HQ _]]; rewrite HQ in Hp; [|by apply Hold].
      cbn in Hp. apply elem_of_cons in Hp as [->|Hp]; [done|by apply Hold].
  - intros e He. destruct (registered_queue _ _ _ _ _ (e_tvar e) Hreg) as [(q & HQ & _)|[_ Hn]]; [by exists q|].
    exfalso. apply Hn. rewrite Etv. apply list_elem_of_fmap. eauto.
  - intros tv Htv. destruct (registered_queue _ _ _ _ _ tv Hreg) as [(q & _ & Hin)|[HQ _]]; [|done].
    by rewrite Etv in Hin.
Qed.

(** Another transaction is as ready to commit as before. *)
Lemma waiting_commit_ready s t h n cs es tso l Q fq s' t2 h2 n2 cs2 es2 :
  wait_ready cfg s t h n cs es tso l Q fq → waiting s t h n cs es tso l Q s' →
  commit_ready cfg s t2 h2 n2 cs2 es2 l (entries_of Q) → t2 ≠ t → (∀ c, c ∈ cs → c ∉ cs2) →
  ∃ Q', commit_ready cfg s' t2 h2 n2 cs2 es2 l (entries_of Q') ∧
    (∃ fq', watch_ok s' Q' fq') ∧
    (∀ e, e ∈ es → ∃ q, Q' (e_tvar e) = (q, CTSO tso) :: Q (e_tvar e)).
Proof.
  intros Hr Hw [Hne Hl Htop Hst Hinv Hnd [Hlive Hplain] Hul Hsi Hwd] Hneq Hdis.
  destruct (wr_thread _ _ _ _ _ _ _ _ _ _ _ Hr) as (_ & _ & tp & Htp & _).
  destruct (waiting_watched _ _ _ _ _ _ _ _ _ _ es2 Hw Hwd) as (Q' & fq' & Hwo & Hwd' & HQ & _);
    [by eapply ex_intro, wr_watch|by eexists|].
  exists Q'. split; [|split; [by exists fq'|done]]. constructor; try done.
  - eapply is_log_ext; [| |exact Hl].
    + rewrite (wt_trecs _ _ _ _ _ _ _ _ _ _ Hw). by rewrite lookup_insert_ne.
    + intros c Hc. apply (wt_chunks _ _ _ _ _ _ _ _ _ _ Hw). intros Hc'. by apply (Hdis c).
  - assert (∀ tv v', tvars s' !! tv = Some v' → ∃ v, tvars s !! tv = Some v ∧ tv_core v' = tv_core v) as Hback.
    { intros tv v' Hv'. pose proof (wt_core _ _ _ _ _ _ _ _ _ _ Hw tv) as Hc. rewrite Hv' in Hc.
      destruct (tvars s !! tv) as [v|]; [|done]. exists v. split; [done|]. injection Hc as E1 E2.
      unfold tv_core. congruence. }
    split.
    + intros e He. destruct (Hlive e He) as [v Hv].
      pose proof (wt_core _ _ _ _ _ _ _ _ _ _ Hw (e_tvar e)) as Hc. rewrite Hv in Hc.
      destruct (tvars s' !! e_tvar e); [eauto|done].
    + intros e He. destruct (Hplain e He) as (Hx & Hn & Hu). split_and!; [done|done|].
      intros v' Hv' Ec. destruct (Hback _ _ Hv') as (v & Hv & E). injection E as -> _. by apply Hu.
  - intros Ec. rewrite (wt_smp _ _ _ _ _ _ _ _ _ _ Hw). by apply Hul.
  - apply (pk_inv _ _ _ _ (wt_sched _ _ _ _ _ _ _ _ _ _ Hw)).
Qed.

Lemma waiting_valid s t h n cs es tso l Q s' es2 :
  waiting s t h n cs es tso l Q s' → valid_log (tvars s') es2 = valid_log (tvars s) es2.
Proof.
  intros Hw. unfold valid_log. induction es2 as [|e es2 IH]; [done|]. cbn. rewrite IH. f_equal.
  unfold valid_entry. apply bool_decide_ext.
  pose proof (wt_core _ _ _ _ _ _ _ _ _ _ Hw (e_tvar e)) as Hc.
  destruct (tvars s' !! e_tvar e) as [v'|], (tvars s !! e_tvar e) as [v|]; try done.
  injection Hc as E _. cbn. by rewrite E.
Qed.
End wakeup.

Lemma wp_assoc3 {S A B C} (m : prog S A) (k : A → prog S unit) (j : A → prog S B) (f : A → B → prog S C) Q s :
  wp (x ← (r ← m; k r;; mret r); y ← j x; f x y) Q s →
  wp (r ← m; k r;; y ← j r; f r y) Q s.
Proof.
  unfold wp, mbind, prog_bind. destruct (m s) as [[a s1]|]; [|done]. by destruct (k a s1) as [[u s2]|].
Qed.

(** [stmWait] registers the waiting thread.  When the transaction is valid,
    the thread is parked, the watch queue of every TVar of the log has a new
    entry for it in front and the other queues are as before; no TVar has
    changed or stays locked, and the run queue is the same.  When it is not
    valid nothing happens. *)
Theorem stmWait_registers cfg s t h n cs es tso l Q fq :
  wait_ready cfg s t h n cs es tso l Q fq → watched s es (entries_of Q) →
  wp (r ← stmWait cfg tso t; when r (stmWaitUnlock cfg t);; mret r)
     (λ r s', r = bool_decide (state h ≠ TREC_CONDEMNED) && valid_log (tvars s) es ∧
        (∀ tv, tv_core <$> tvars s' !! tv = tv_core <$> tvars s !! tv) ∧
        if r then
          why (sch s') tso = Some BlockedOnSTM ∧ sched_inv (sch s') l ∧
          ∃ Q' fq', watch_ok s' Q' fq' ∧
            (∀ e, e ∈ es → ∃ q, Q' (e_tvar e) = (q, CTSO tso) :: Q (e_tvar e)) ∧
            (∀ tv, tv ∉ e_tvar <$> es → Q' tv = Q tv)
        else sch s' = sch s) s.
Proof.
  intros Hr Hwd. eapply wp_mono; [by eapply wait_ok|]. intros r s' [Er Hs'].
  split; [by rewrite Er, bool_decide_not|]. destruct r; [|by destruct Hs' as (-> & -> & _)].
  split; [apply Hs'|]. destruct (wr_thread _ _ _ _ _ _ _ _ _ _ _ Hr) as (_ & _ & tp & Htp & _).
  destruct (waiting_watched _ _ _ _ _ _ _ _ _ _ es Hs' Hwd) as (Q' & fq' & ? & _ & ? & ?);
    [by eapply ex_intro, wr_watch|by eexists|].
  destruct (wt_sched _ _ _ _ _ _ _ _ _ _ Hs') as [Hi Hw _ _].
  split; [rewrite Hw; by rewrite decide_True|]. split; [done|]. by exists Q', fq'.
Qed.

(** C3: No STM wake-up is lost.  A thread waits ([stmWait] answers TRUE) and
    then another transaction commits.  If that transaction updates a TVar the
    thread's transaction has accessed, the thread is on the run queue and no
    longer blocked when the commit returns. *)
Theorem stm_no_lost_wakeup cfg gen_no n_capabilities s t h n cs es tso l Q fq t2 h2 n2 cs2 es2 e e2 :
  wait_ready cfg s t h n cs es tso l Q fq →
  commit_ready cfg s t2 h2 n2 cs2 es2 l (entries_of Q) → t2 ≠ t → (∀ c, c ∈ cs → c ∉ cs2) →
  commit_answer s h es = true → commit_answer s h2 es2 = true →
  e ∈ es → e2 ∈ es2 → e_tvar e2 = e_tvar e → entry_is_update e2 = true →
  wp (r ← stmWait cfg tso t; when r (stmWaitUnlock cfg t);;
      r2 ← stmCommitTransaction cfg gen_no n_capabilities t2; mret (r, r2))
     (λ r s', r = (true, true) ∧ ∃ l', run_queue (sch s') l' ∧ tso ∈ l' ∧
        why (sch s') tso = Some NotBlocked) s.
Proof.
  intros Hr Hc Hne Hdis Ha Ha2 He He2 Et Hu.
  assert (wp (r ← stmWait cfg tso t; when r (stmWaitUnlock cfg t);; mret r)
     (λ r s', r = true ∧ waiting s t h n cs es tso l Q s') s) as Hwait.
  { eapply wp_mono; [by eapply wait_ok|]. intros r s' [-> Hs']. by rewrite Ha in Hs' |- *. }
  apply wp_assoc3. wp_step. eapply wp_mono; [exact Hwait|]. intros r s1 [-> Hw].
  destruct (waiting_commit_ready _ _ _ _ _ _ _ _ _ _ _ _ _ _ _ _ _ Hr Hw Hc Hne Hdis) as (Q' & Hc' & [fq' Hwo'] & HQ').
  destruct (HQ' e He) as [q HQ]. wp_step. eapply wp_mono; [by eapply commit_ok|].
  assert (commit_answer s1 h2 es2 = true) as Ha1.
  { unfold commit_answer in *. by rewrite (waiting_valid _ _ _ _ _ _ _ _ _ _ _ Hw). }
  rewrite Ha1. intros r2 s2 [-> (_ & _ & W & Hwk & HW)]. wp_step. split; [done|].
  exists (l ++ W). assert (why (sch s1) tso = Some BlockedOnSTM) as Hb.
  { rewrite (pk_why _ _ _ _ (wt_sched _ _ _ _ _ _ _ _ _ _ Hw)). by rewrite decide_True. }
  assert (tso ∈ W) as Hin.
  { apply HW. split; [done|]. apply list_elem_of_lookup in He2 as [j Hj]. exists j, e2.
    split_and!; [by eapply lookup_lt_Some|done|by rewrite Hu, orb_true_r|].
    unfold entries_of. rewrite (watchers_queue _ _ _ _ Hwo'), Et, HQ. by left. }
  split; [apply (wk_inv _ _ _ _ Hwk)|]. split; [apply elem_of_app; by right|].
  rewrite (why_woken _ _ _ _ tso Hwk). by rewrite decide_True.
Qed.

(** ** A concrete wait

    Transaction 24 of thread 8 has read TVars 64 and 72; transaction 32 is about
    to write TVar 64.  Thread 48 already waits for TVar 64 through entry 56, and
    entry 88 is on the free list; thread 16 is on the run queue. *)
Module WaitDemo.
Definition thread (id : Z) (w : BlockReason) : StgTSO := mkTSO id END w END false END END [] END.
Definition threads : sched :=
  mkSched {[ 8 := thread 1 NotBlocked; 16 := thread 2 NotBlocked; 48 := thread 3 BlockedOnSTM ]}
    ∅ ∅ ∅ ∅ 16 16 END END END ∅ 128.
Definition log : list TRecEntry :=
  [mkEntry 64 (CValue 1) (CValue 1) 0; mkEntry 72 (CValue 2) (CValue 2) 0].
Definition log2 : list TRecEntry := [mkEntry 64 (CValue 1) (CValue 5) 0].
Definition header (c : ptr) : StgTRecHeader := mkTRec NO_TREC c END TREC_ACTIVE.
Definition start : stm :=
  mkStm threads
    {[ 64 := mkTVar (CValue 1) 56 7; 72 := mkTVar (CValue 2) END 3 ]}
    {[ 56 := mkWatch (CTSO 48) END END; 88 := mkWatch (CTSO 8) END END ]}
    {[ 24 := header 40; 32 := header 104 ]}
    {[ 40 := mkChunk END 2 (AccessDemo.slots16 log); 104 := mkChunk END 1 (AccessDemo.slots16 log2) ]}
    ∅ ∅ 88 END END END 0 0 false None.
Definition Q : queues := λ tv, if tv =? 64 then [(56, CTSO 48)] else [].

Lemma Q_elem tv q c : (q, c) ∈ Q tv → tv = 64 ∧ q = 56 ∧ c = CTSO 48.
Proof.
  unfold Q. destruct (tv =? 64) eqn:E; [|by intros ?%elem_of_nil].
  intros [= -> ->]%list_elem_of_singleton. split; [by apply Z.eqb_eq|done].
Qed.

Lemma Q_fst tv q : q ∈ (Q tv).*1 → tv = 64 ∧ q = 56.
Proof. intros ([q' c] & -> & H)%list_elem_of_fmap. apply Q_elem in H as (-> & -> & _). done. Qed.

Lemma start_watch : watch_ok start Q [88].
Proof.
  constructor; try done.
  - intros tv v. cbn. rewrite <- insert_empty, !lookup_insert, lookup_empty. repeat case_decide; intros [= <-]; subst.
    + exists 56. split; [|apply NoDup_singleton]. cbn. split_and!; try done. by eexists.
    + exists END. split; [done|constructor].
  - intros tv q c (-> & -> & ->)%Q_elem. done.
  - intros tv tv' q [-> ->]%Q_fst [-> _]%Q_fst. done.
  - cbn. split_and!; [done|done|]. by eexists.
  - intros tv q [-> ->]%Q_fst ?%list_elem_of_singleton. done.
  - cbn. intros q Hq. rewrite lookup_insert_ne by lia. by rewrite lookup_singleton_ne by lia.
Qed.

Lemma start_sched : sched_inv threads [16].
Proof.
  constructor.
  - split; [|apply NoDup_singleton]. cbn. split_and!; try done. by eexists.
  - intros p t. cbn. rewrite <- insert_empty, !lookup_insert, lookup_empty.
    repeat case_decide; intros [= <-] Hw; try done. subst p. split_and!; [|done|done].
    by intros ?%list_elem_of_singleton.
Qed.

Lemma start_watched es : watched start es (entries_of Q).
Proof.
  intros e v _ Hv. destruct (wo_queue _ _ _ start_watch _ _ Hv) as [last Hd]. split; [by exists last|].
  intros p. unfold entries_of. rewrite (watchers_queue _ _ _ _ start_watch).
  intros ([q c] & Hin & Hc)%list_elem_of_omap. apply Q_elem in Hin as (_ & _ & ->). injection Hc as <-. by eexists.
Qed.

Lemma plain_start cfg es :
  (∀ e, e ∈ es → (e_tvar e = 64 ∨ e_tvar e = 72) ∧ is_trec (expected_value e) = false ∧ is_trec (new_value e) = false) →
  plain_log cfg start es.
Proof.
  intros H. split.
  - intros e He. destruct (H e He) as [[-> | ->] _]; by eexists.
  - intros e He. destruct (H e He) as ([-> | ->] & ? & ?); (split_and!; [done|done|]); by intros v [= <-].
Qed.

Lemma wait_start cfg : wait_ready cfg start 24 (header 40) 2 [40] log 8 [16] Q [88].
Proof.
  constructor; try done.
  - constructor; try done.
    + split_and!; [done|done|]. by eexists.
    + unfold TREC_CHUNK_NUM_ENTRIES. lia.
    + intros c y ->%list_elem_of_singleton. by intros [= <-].
    + constructor; [done|]. constructor; [done|constructor].
  - by left.
  - apply (bool_decide_unpack _). vm_compute. exact I.
  - apply plain_start. intros e [->|[->|[]%elem_of_nil]%elem_of_cons]%elem_of_cons; auto.
  - exact start_sched.
  - exact start_watch.
  - split_and!; [by intros ?%list_elem_of_singleton|done|]. by eexists.
Qed.

Lemma commit_start cfg : commit_ready cfg start 32 (header 104) 1 [104] log2 [16] (entries_of Q).
Proof.
  constructor; try done.
  - constructor; try done.
    + split_and!; [done|done|]. by eexists.
    + unfold TREC_CHUNK_NUM_ENTRIES. lia.
    + intros c y ->%list_elem_of_singleton. by intros [= <-].
    + constructor; [done|constructor].
  - by left.
  - apply NoDup_singleton.
  - apply plain_start. intros e ->%list_elem_of_singleton. auto.
  - exact start_sched.
  - apply start_watched.
Qed.
End WaitDemo.

Lemma stmWait_registers_witness :
  wp (r ← stmWait STM_FG_LOCKS 8 24; when r (stmWaitUnlock STM_FG_LOCKS 24);; mret r)
     (λ r s', r = true ∧ (∀ tv, tv_core <$> tvars s' !! tv = tv_core <$> tvars WaitDemo.start !! tv) ∧
        if r then
          why (sch s') 8 = Some BlockedOnSTM ∧ sched_inv (sch s') [16] ∧
          ∃ Q' fq', watch_ok s' Q' fq' ∧
            (∀ e, e ∈ WaitDemo.log → ∃ q, Q' (e_tvar e) = (q, CTSO 8) :: WaitDemo.Q (e_tvar e)) ∧
            (∀ tv, tv ∉ e_tvar <$> WaitDemo.log → Q' tv = WaitDemo.Q tv)
        else sch s' = WaitDemo.threads) WaitDemo.start.
Proof.
  exact (stmWait_registers STM_FG_LOCKS WaitDemo.start 24 (WaitDemo.header 40) 2 [40] WaitDemo.log 8 [16]
    WaitDemo.Q [88] (WaitDemo.wait_start STM_FG_LOCKS) (WaitDemo.start_watched _)).
Defined.

Lemma stm_no_lost_wakeup_witness :
  wp (r ← stmWait STM_CG_LOCK 8 24; when r (stmWaitUnlock STM_CG_LOCK 24);;
      r2 ← stmCommitTransaction STM_CG_LOCK (λ _, 0) 1 32; mret (r, r2))
     (λ r s', r = (true, true) ∧ ∃ l', run_queue (sch s') l' ∧ 8 ∈ l' ∧
        why (sch s') 8 = Some NotBlocked) WaitDemo.start.
Proof.
  apply (stm_no_lost_wakeup STM_CG_LOCK (λ _, 0) 1 WaitDemo.start 24 (WaitDemo.header 40) 2 [40] WaitDemo.log 8 [16]
    WaitDemo.Q [88] 32 (WaitDemo.header 104) 1 [104] WaitDemo.log2
    (mkEntry 64 (CValue 1) (CValue 1) 0) (mkEntry 64 (CValue 1) (CValue 5) 0)
    (WaitDemo.wait_start STM_CG_LOCK) (WaitDemo.commit_start STM_CG_LOCK)); try reflexivity.
  - done.
  - by intros c ->%list_elem_of_singleton ?%list_elem_of_singleton.
  - by left.
  - by left.
Defined.
