(* ===== verification/STMUnwait.v ===== *)
(** * Leaving the watch queues

    [remove_watch_queue_entries_for_trec] undoes the registration of
    [build_watch_queue_entries_for_trec]: a transaction that waits and is then
    condemned or aborted leaves every watch queue as it found it. *)
From S2P Require Import Prelude DList Threads STM STMLog STMAccess STMCommit STMTop STMWatch STMWait STMWakeup.
From stdpp Require Import list gmap.
Local Open Scope Z_scope.

Lemma wp_assoc4 {S A B} (m : prog S A) (k : A → prog S B) (P : A → B → prog S unit) (Q : A → B → prog S unit)
    (R : A → B → prog S unit) (ret : prog S (unit * bool)) Post s :
  wp (a ← m; b ← k a; P a b;; Q a b;; R a b) (λ _ s, wp ret Post s) s →
  wp (a ← m; b ← k a; P a b;; Q a b;; R a b;; ret) Post s.
Proof.
  unfold wp, mbind, prog_bind. destruct (m s) as [[a s1]|]; [|done]. destruct (k a s1) as [[b s2]|]; [|done].
  destruct (P a b s2) as [[[] s3]|]; [|done]. destruct (Q a b s3) as [[[] s4]|]; [|done].
  by destruct (R a b s4) as [[[] s5]|].
Qed.

Lemma wp_assoc2 {S A B} (m : prog S A) (k : A → prog S unit) (j : prog S B) Post s :
  wp (_ ← (a ← m; k a;; mret a); j) Post s → wp (a ← m; k a;; j) Post s.
Proof.
  unfold wp, mbind, prog_bind. destruct (m s) as [[a s1]|]; [|done]. by destruct (k a s1) as [[u s2]|].
Qed.

Section unwait.
Context (cfg : stm_config).
Implicit Types (s : stm) (t tso : ptr) (es : list TRecEntry) (Q : queues).

(** The queues after the first [k] entries have been taken out. *)
Record removed (s : stm) (es1 : list TRecEntry) (Q Q' : queues) (k : nat) (s2 : stm) : Prop := {
  rm_watch : ∃ Q2 fq2, watch_ok s2 Q2 fq2 ∧
    (∀ tv, tv ∈ e_tvar <$> take k es1 → Q2 tv = Q tv) ∧
    (∀ tv, tv ∉ e_tvar <$> take k es1 → Q2 tv = Q' tv);
  rm_core tv : tv_core <$> tvars s2 !! tv = tv_core <$> tvars s !! tv;
  rm_frame : ∃ tvs wq f, s2 = set_free_wqs f (set_tvars tvs (set_watchqs wq s))
}.

Definition remove_body (trec : ptr) (e : eref) (_ : unit) : prog stm (unit * bool) :=
  en ← get_entry e;
  let s := e_tvar en in
  saw ← lock_tvar cfg trec s;
  v ← load tvars s;
  match new_value en with
  | CWatch q =>
    ACQ_ASSERT cfg (bool_decide (current_value v = CTRec trec));;
    unlink_watch s q;;
    unlock_tvar cfg trec s saw false;;
    mret (tt, false)
  | _ => fail BadPointer
  end.

(** Taking the lock of a TVar that is not locked. *)
Definition locked_tvar (t tv : ptr) (v : StgTVar) (s : stm) : stm :=
  if decide (cfg = STM_FG_LOCKS) then set_tvars (<[tv := tv_set_value (CTRec t) v]> (tvars s)) s else s.

Lemma wp_lock_tvar s t tv v (Post : closure → stm → Prop) :
  tvars s !! tv = Some v → unlocked cfg v → holds_lock cfg s t →
  Post (current_value v) (locked_tvar t tv v s) → wp (lock_tvar cfg t tv) Post s.
Proof.
  intros Hv Hu Hh HQ. unfold lock_tvar, locked_tvar, unlocked, holds_lock in *. destruct cfg.
  - rewrite decide_False in HQ by done. do 2 wp_step. by wp_step.
  - rewrite decide_False in HQ by done. wp_step. apply wp_assert_smp; [auto|]. do 2 wp_step. by wp_step.
  - rewrite decide_True in HQ by done. do 2 wp_step. rewrite Hu by done.
    unfold upd_tvar, upd. do 4 wp_step. by wp_step.
Qed.

Definition lockval (t : ptr) (v : StgTVar) : StgTVar :=
  if decide (cfg = STM_FG_LOCKS) then tv_set_value (CTRec t) v else v.

Lemma locked_tvar_lookup s t tv v :
  tvars s !! tv = Some v → tvars (locked_tvar t tv v s) !! tv = Some (lockval t v).
Proof.
  intros Hv. unfold locked_tvar, lockval. case_decide; [cbn; apply lookup_insert_eq|done].
Qed.

Lemma locked_tvar_watch s t tv v Q fq :
  tvars s !! tv = Some v → watch_ok s Q fq → watch_ok (locked_tvar t tv v s) Q fq.
Proof.
  intros Hv Hok. unfold locked_tvar. case_decide; [|done].
  apply (watch_ok_ext s); [|done|done|cbn; lia|done]. intros tv' v'. cbn. rewrite lookup_insert.
  case_decide; [subst tv'; intros [= <-]|]; eauto.
Qed.

(** Lock, unlink, unlock: only the head of the queue has changed. *)
Lemma remove_tvar s t tv v q Q fq (Post : unit → stm → Prop) :
  tvars s !! tv = Some v → unlocked cfg v → holds_lock cfg s t → watch_ok s Q fq → q ∈ (Q tv).*1 →
  (∀ s2, watch_ok s2 (q_set tv (without q (Q tv)) Q) (q :: fq) →
     (∃ f wq, s2 = set_free_wqs q (set_tvars (<[tv := tv_set_first f v]> (tvars s)) (set_watchqs wq s))) →
     Post tt s2) →
  wp (saw ← lock_tvar cfg t tv;
      v ← load tvars tv;
      ACQ_ASSERT cfg (bool_decide (current_value v = CTRec t));;
      unlink_watch tv q;;
      unlock_tvar cfg t tv saw false) Post s.
Proof.
  intros Hv Hu Hh Hok Hq HP. wp_step. apply (wp_lock_tvar _ _ _ v); [done..|].
  set (s1 := locked_tvar t tv v s). pose proof (locked_tvar_lookup s t tv v Hv) as Hv1. fold s1 in Hv1.
  do 2 wp_step. wp_step. apply wp_ACQ_ASSERT.
  { intros Ec. unfold lockval. rewrite decide_True by done. by apply bool_decide_eq_true. }
  wp_step. eapply wp_mono; [eapply (unlink_watch_ok s1 Q fq tv (lockval t v) q); [by apply locked_tvar_watch|done|done]|].
  intros [] s2 [(w & wq & E2) Hok2].
  set (f := if decide (wq_prev w = END) then wq_next w else first_watch_queue_entry (lockval t v)) in *.
  assert (tvars s2 = <[tv := tv_set_first f (lockval t v)]> (tvars s1)) as Et2 by by rewrite E2.
  assert (holds_lock cfg s2 t) as Hh2.
  { intros Ec. rewrite E2. unfold s1, locked_tvar. cbn. case_decide; cbn; by apply Hh. }
  eapply wp_unlock; [rewrite Et2; apply lookup_insert_eq|done| |].
  { intros Ec. unfold lockval. by rewrite decide_True. }
  rewrite orb_false_r. apply HP.
  - case_bool_decide as Ec; [|done]. apply (watch_ok_ext s2); [|done|done|cbn; lia|done].
    intros tv' v'. cbn. rewrite lookup_insert. case_decide as E; [|eauto]. subst tv'. intros [= <-].
    rewrite Et2, lookup_insert_eq. by eexists.
  - exists f, wq. rewrite E2. unfold unlinked. fold f. clearbody f. unfold set_first, s1, locked_tvar, lockval.
    case_decide as Ec.
    + rewrite bool_decide_true by done. cbn. rewrite !insert_insert_eq. by destruct s.
    + rewrite bool_decide_false by done. by destruct s.
Qed.

Lemma removed_frame s es1 Q Q' k s2 : removed s es1 Q Q' k s2 →
  chunks s2 = chunks s ∧ trecs s2 = trecs s ∧ smp_locked s2 = smp_locked s ∧ sch s2 = sch s.
Proof. by intros [_ _ (tvs & wq & f & ->)]. Qed.

Lemma without_head q c (l : list (ptr * closure)) :
  NoDup ((q, c) :: l).*1 → without q ((q, c) :: l) = l.
Proof.
  intros [Hq _]%NoDup_cons. unfold without. rewrite filter_cons_False by naive_solver.
  apply filter_all. intros [x d] Hx; cbn. intros ->. apply Hq, list_elem_of_fmap. by exists (q, d).
Qed.

Lemma remove_one s s2 t tso h n cs es1 es' Q Q' k r :
  NoDup (e_tvar <$> es1) → registered tso es1 Q (length es1) es' Q' → is_log s t h n cs es' →
  (∀ e v, e ∈ es1 → tvars s !! e_tvar e = Some v → unlocked cfg v) → holds_lock cfg s t →
  (∀ e, e ∈ es1 → is_Some (tvars s !! e_tvar e)) →
  removed s es1 Q Q' k s2 → refs_of cs n !! k = Some r →
  wp (remove_body t r tt) (λ r' s3, r'.2 = false ∧ removed s es1 Q Q' (S k) s3) s2.
Proof.
  intros Hnd Hreg Hl Hu Hh Hlive Hrm Hr.
  destruct (removed_frame _ _ _ _ _ _ Hrm) as (Ec & Er & Esm & _).
  destruct (is_log_entry _ _ _ _ _ _ _ _ Hl Hr) as (e' & He' & Hre).
  assert (k < length es1)%nat as Hk by (rewrite <- (rg_length _ _ _ _ _ _ Hreg); by eapply lookup_lt_Some).
  destruct (lookup_lt_is_Some_2 es1 k Hk) as [e He].
  destruct (rg_done _ _ _ _ _ _ Hreg k e Hk He) as (q & Hq & HQ'). assert (e' = e_set_new (CWatch q) e) as -> by congruence.
  assert (Hrm' := Hrm). destruct Hrm' as [(Q2 & fq2 & Hwo2 & Hin & Hout) Hcore (tvs & wq & f & E2)].
  destruct (Hlive e) as [v0 Hv0]; [by eapply list_elem_of_lookup_2|].
  pose proof (Hcore (e_tvar e)) as Hc. rewrite Hv0 in Hc.
  destruct (tvars s2 !! e_tvar e) as [v|] eqn:Hv; [|done].
  assert (tv_core v = tv_core v0) as Evc by (injection Hc as E3 E4; unfold tv_core; congruence).
  assert (e_tvar e ∉ e_tvar <$> take k es1) as Hnew.
  { intros (e2 & Et & [j Hj]%list_elem_of_lookup)%list_elem_of_fmap. apply lookup_take_Some in Hj as [Hj Hlt].
    assert (j = k) as ->; [|lia]. eapply (NoDup_lookup _ j k (e_tvar e)); [exact Hnd|..];
      rewrite list_lookup_fmap; [rewrite Hj|rewrite He]; cbn; congruence. }
  pose proof (Hout _ Hnew) as HQ2. rewrite HQ' in HQ2.
  unfold remove_body. wp_step. eapply wp_get_entry; [by rewrite (entry_at_ext s)by by rewrite Ec|].
  cbn [e_tvar new_value e_set_new]. apply wp_assoc4.
  apply (remove_tvar s2 t (e_tvar e) v q Q2 fq2); [done| |by intros Ecg; rewrite Esm; apply Hh|done| |].
  - intros Ecf. injection Evc as -> _. apply (Hu e v0); [by eapply list_elem_of_lookup_2|done|done].
  - rewrite HQ2. by left.
  - intros s3 Hwo3 (f3 & wq3 & E3). wp_step. split; [done|]. constructor.
    + exists (q_set (e_tvar e) (without q (Q2 (e_tvar e))) Q2), (q :: fq2). split; [done|].
      assert (without q (Q2 (e_tvar e)) = Q (e_tvar e)) as ->.
      { rewrite HQ2. apply without_head. rewrite <- HQ2.
        destruct (wo_queue _ _ _ Hwo2 _ _ Hv) as [last Hd]. apply Hd. }
      rewrite (take_S_r _ _ _ He), fmap_app. split; intros tv Htv.
      * destruct (decide (tv = e_tvar e)) as [->|Hne]; [by rewrite q_set_same|]. rewrite q_set_other by done.
        apply Hin. apply elem_of_app in Htv as [?|[?|[]%elem_of_nil]%elem_of_cons]; done.
      * rewrite q_set_other by (intros ->; apply Htv, elem_of_app; right; by left).
        apply Hout. intros Hin'. apply Htv, elem_of_app. by left.
    + intros tv. rewrite E3. cbn. rewrite lookup_insert. case_decide as Et; [subst tv; cbn|apply Hcore].
      rewrite Hv0. cbn. f_equal. rewrite <- Evc. done.
    + exists (tvars s3), (watchqs s3), (free_tvar_watch_queues s3). rewrite E3, E2. by destruct s.
Qed.

Lemma unwatch_ok s t tso h n cs es1 es' Q Q' fq' :
  t ≠ NO_TREC → trec_enclosing h = NO_TREC → state h = TREC_WAITING ∨ state h = TREC_CONDEMNED →
  NoDup (e_tvar <$> es1) → registered tso es1 Q (length es1) es' Q' → is_log s t h n cs es' →
  (∀ e v, e ∈ es1 → tvars s !! e_tvar e = Some v → unlocked cfg v) → holds_lock cfg s t →
  (∀ e, e ∈ es1 → is_Some (tvars s !! e_tvar e)) → watch_ok s Q' fq' →
  wp (remove_watch_queue_entries_for_trec cfg t) (λ _ s', removed s es1 Q Q' (length es1) s') s.
Proof.
  intros Hne Htop Hst Hnd Hreg Hl Hu Hh Hlive Hwo. unfold remove_watch_queue_entries_for_trec.
  wp_step. wp_step; [by apply negb_true_iff, Z.eqb_neq|]. do 2 wp_step; [apply Hl|].
  wp_step. wp_step; [by rewrite Htop|]. wp_step. wp_step; [by apply bool_decide_eq_true|].
  pose proof (Forall2_length _ _ _ (il_entries _ _ _ _ _ _ Hl)) as Hlen.
  rewrite (rg_length _ _ _ _ _ _ Hreg) in Hlen.
  eapply wp_mono; [eapply (wp_FOR_EACH_ENTRY (remove_body t)
    (λ pre _ s', removed s es1 Q Q' (length pre) s') (λ _ _, False)); [exact Hl|..]|].
  - intros pre r post [] s' Hrs Hrm. apply refs_split_lookup in Hrs as Hr.
    eapply wp_mono; [by eapply remove_one|]. intros [u b] s2 [Hb Hi]; cbn in *. subst b.
    rewrite length_app; cbn. by rewrite Nat.add_1_r.
  - intros pre [] s' c Hrm _. unfold chunk_prev. by rewrite (proj1 (removed_frame _ _ _ _ _ _ Hrm)).
  - constructor; [|done|].
    + exists Q', fq'. split; [done|]. split; [by intros tv ?%elem_of_nil|done].
    + exists (tvars s), (watchqs s), (free_tvar_watch_queues s). by destruct s.
  - intros [] s' [[]|Hi]. by rewrite Hlen in Hi.
Qed.

(** How [stmAbortTransaction] and [stmCondemnTransaction] leave a top-level
    transaction that waits. *)
Lemma leave_ok s0 s t tso h n cs es l Q st :
  t ≠ NO_TREC → trec_enclosing h = NO_TREC → NoDup (e_tvar <$> es) → plain_log cfg s0 es →
  (cfg = STM_CG_LOCK → smp_locked s0 = None) → waiting s0 t h n cs es tso l Q s →
  wp (lock_stm cfg t;; remove_watch_queue_entries_for_trec cfg t;; upd_trec t (tr_set_state st);; unlock_stm cfg t)
     (λ _ s', (∀ tv, tv_core <$> tvars s' !! tv = tv_core <$> tvars s0 !! tv) ∧
        (∃ Q' fq', watch_ok s' Q' fq' ∧ ∀ tv, Q' tv = Q tv) ∧
        (state <$> trecs s' !! t = Some st)) s.
Proof.
  intros Hne Htop Hnd [Hlive Hplain] Hul [Hcore (es1 & es' & Q' & fq' & Hs & Hreg & Hl & Hwo) _ _ _ Hsmp].
  pose proof (same_tvars _ _ Hs) as Etv.
  wp_step. apply wp_lock_stm; [by rewrite Hsmp|].
  destruct (locked_same cfg s t) as (Et & Ec & Er & Es & Ew & _).
  assert (∀ e1, e1 ∈ es1 → ∃ e, e ∈ es ∧ e_tvar e1 = e_tvar e) as Hback.
  { intros e1 He1. assert (e_tvar e1 ∈ e_tvar <$> es) as (e & E & He)%list_elem_of_fmap; [|by exists e].
    rewrite <- Etv. apply list_elem_of_fmap. eauto. }
  wp_step. eapply wp_mono.
  { eapply (unwatch_ok (locked_state cfg t s) t tso (tr_set_state TREC_WAITING h) n cs es1 es' Q Q' fq'); [done|done|by left| |done|..].
    - by rewrite Etv.
    - by apply is_log_locked.
    - intros e1 v He1. rewrite Et. destruct (Hback e1 He1) as (e & He & ->). intros Hv Ecf.
      pose proof (Hcore (e_tvar e)) as Hc. rewrite Hv in Hc.
      destruct (tvars s0 !! e_tvar e) as [v0|] eqn:Hv0; [|done]. injection Hc as -> _.
      by apply (proj2 (proj2 (Hplain e He)) v0).
    - apply holds_locked.
    - intros e1 He1. rewrite Et. destruct (Hback e1 He1) as (e & He & ->). destruct (Hlive e He) as [v0 Hv0].
      pose proof (Hcore (e_tvar e)) as Hc. rewrite Hv0 in Hc. destruct (tvars s !! e_tvar e); [eauto|done].
    - apply (watch_ok_ext s); [rewrite Et; eauto|done| |by rewrite Es|done]. unfold locked_state. by case_decide. }
  intros [] s2 Hrm. destruct (removed_frame _ _ _ _ _ _ Hrm) as (Ec2 & Er2 & Esm2 & Es2).
  destruct Hrm as [(Q2 & fq2 & Hwo2 & Hin & Hout) Hcore2 _].
  unfold upd_trec, upd. wp_step. do 2 wp_step; [rewrite Er2, Er; apply Hl|]. wp_step.
  apply wp_unlock_stm; [intros Ecg; cbn; rewrite Esm2; by apply holds_locked|].
  match goal with |- context [unlocked_state cfg ?x] => set (s3 := x) end.
  destruct (unlocked_same cfg s3) as (Et3 & _ & Er3 & Es3 & Ew3). split_and!.
  - intros tv. rewrite Et3. cbn. by rewrite Hcore2, Et.
  - exists Q2, fq2. split.
    + apply (watch_ok_ext s2); [rewrite Et3; eauto|by rewrite Ew3| |by rewrite Es3|done].
      unfold unlocked_state. by case_decide.
    + intros tv. rewrite take_ge in Hin, Hout by done. destruct (decide (tv ∈ e_tvar <$> es1)) as [Hi|Hi]; [by apply Hin|].
      rewrite Hout by done. destruct (registered_queue _ _ _ _ _ tv Hreg) as [(q & _ & ?)|[? _]]; done.
  - rewrite Er3. cbn. by rewrite lookup_insert_eq.
Qed.
End unwait.

(** C15: Waiting can be undone.  When a transaction has waited and is then
    aborted or condemned (instead of being woken by a commit), every watch queue
    again holds the entries it held before the wait, in the same order, and no
    TVar has changed; the record is in the state that was asked for. *)
Theorem wait_abort_roundtrip cfg s t h n cs es tso l Q fq (abort : bool) :
  wait_ready cfg s t h n cs es tso l Q fq → commit_answer s h es = true →
  wp (r ← stmWait cfg tso t; when r (stmWaitUnlock cfg t);;
      if abort then stmAbortTransaction cfg t else stmCondemnTransaction cfg t)
     (λ _ s', (∀ tv, tv_core <$> tvars s' !! tv = tv_core <$> tvars s !! tv) ∧
        (∃ Q' fq', watch_ok s' Q' fq' ∧ ∀ tv, Q' tv = Q tv) ∧
        (state <$> trecs s' !! t = Some (if abort then TREC_ABORTED else TREC_CONDEMNED))) s.
Proof.
  intros Hr Ha. apply (wp_assoc2 (stmWait cfg tso t) (λ r, when r (stmWaitUnlock cfg t))).
  wp_step. eapply wp_mono; [by eapply wait_ok|]. intros r s1 [-> Hw]. rewrite Ha in Hw.
  assert (trecs s1 !! t = Some (tr_set_state TREC_WAITING h)) as Ht.
  { rewrite (wt_trecs _ _ _ _ _ _ _ _ _ _ Hw). apply lookup_insert_eq. }
  destruct Hr as [Hne _ Htop _ Hnd Hpl Hul _ _ _].
  destruct abort; [unfold stmAbortTransaction|unfold stmCondemnTransaction]; unfold assert_in_progress;
    wp_step; (wp_step; wp_step; [by apply negb_true_iff, Z.eqb_neq|]); (do 2 wp_step);
    wp_step; wp_step; wp_step; cbn [state tr_set_state trec_enclosing].
  - rewrite Htop, Z.eqb_refl, decide_True by done. by eapply leave_ok.
  - rewrite decide_True by done. rewrite Htop, Z.eqb_refl.
    apply (leave_ok cfg s s1 t tso h n cs es l Q TREC_CONDEMNED); done.
Qed.

Lemma wait_abort_roundtrip_witness :
  wp (r ← stmWait STM_FG_LOCKS 8 24; when r (stmWaitUnlock STM_FG_LOCKS 24);;
      if true then stmAbortTransaction STM_FG_LOCKS 24 else stmCondemnTransaction STM_FG_LOCKS 24)
     (λ _ s', (∀ tv, tv_core <$> tvars s' !! tv = tv_core <$> tvars WaitDemo.start !! tv) ∧
        (∃ Q' fq', watch_ok s' Q' fq' ∧ ∀ tv, Q' tv = WaitDemo.Q tv) ∧
        (state <$> trecs s' !! 24 = Some TREC_ABORTED)) WaitDemo.start.
Proof.
  exact (wait_abort_roundtrip STM_FG_LOCKS WaitDemo.start 24 (WaitDemo.header 40) 2 [40] WaitDemo.log 8 [16]
    WaitDemo.Q [88] true (WaitDemo.wait_start STM_FG_LOCKS) eq_refl).
Defined.
