(* ===== verification/MBlock.v ===== *)
(** * Megablocks (rts/sm/MBlock.c, rts/posix/OSMem.c)

    Aligned memory from the operating system, and the map that says which
    megablocks of the address space belong to the heap, with its cache: the
    64-bit version of HEAP_ALLOCED (includes/rts/storage/MBlock.h), on x86_64,
    where an entry of the cache has 32 bits.

    The operating system is a parameter: a type of its states with [mmap] and
    [munmap], the laws of which ([OsMemLaws]) are those of the manual pages. *)
From S2P Require Import Prelude.
From stdpp Require Import list gmap.
Local Open Scope Z_scope.

(** ** Constants *)
Definition MBLOCK_SHIFT : Z := 20.
Definition MBLOCK_SIZE : Z := 2 ^ MBLOCK_SHIFT.
Definition MBLOCK_MASK : Z := MBLOCK_SIZE - 1.
Definition MBC_LINE_BITS : Z := 0.
Definition MBC_TAG_BITS : Z := 15.
Definition MBC_LINE_SIZE : Z := 2 ^ MBC_LINE_BITS.
Definition MBC_SHIFT : Z := 48 - MBLOCK_SHIFT - MBC_LINE_BITS - MBC_TAG_BITS.
Definition MBC_ENTRIES : Z := 2 ^ MBC_SHIFT.
Definition MBLOCK_MAP_ENTRIES : Z := 2 ^ (32 - MBLOCK_SHIFT - MBC_LINE_BITS).
Definition MBLOCK_MAP_LINE (p : Z) : Z := Z.shiftr (Z.land p 4294967295) (MBLOCK_SHIFT + MBC_LINE_BITS).

(** ** The operating system *)
Class OsMem (OS : Type) : Type := {
  mmap : Z → Z → OS → option Z * OS;   (* [None] is MAP_FAILED *)
  munmap : Z → Z → OS → bool * OS;     (* [false] is -1 *)
  mapped : OS → Z → Prop               (* is a byte of the address space mapped? *)
}.

(** What the manual pages of mmap and munmap say.  The kernel rounds lengths up
    to whole pages; all lengths here are, and so are all addresses. *)
Definition PAGE_SIZE : Z := 4096.
Definition page_aligned (x : Z) : Prop := x mod PAGE_SIZE = 0.
Class OsMemLaws (OS : Type) `{OsMem OS} : Prop := {
  mmap_ok a n (os os' : OS) r : page_aligned n → mmap a n os = (Some r, os') →
    page_aligned r ∧ 0 < r ∧ r + n <= 2 ^ 48 ∧
    (∀ x, r <= x < r + n → ¬ mapped os x) ∧
    (∀ x, mapped os' x ↔ mapped os x ∨ r <= x < r + n);
  munmap_ok a n (os os' : OS) : page_aligned a → page_aligned n → munmap a n os = (true, os') →
    ∀ x, mapped os' x ↔ mapped os x ∧ ¬ a <= x < a + n;
  munmap_outside a n (os os' : OS) b : page_aligned a → page_aligned n → munmap a n os = (b, os') →
    ∀ x, ¬ a <= x < a + n → mapped os' x ↔ mapped os x
}.

(** ** State *)
Record MBlockMap : Type := mkMap {
  addrHigh32 : Z;
  lines : list Z
}.

Record mstate (OS : Type) : Type := mkM {
  os : OS;
  next_request : Z;
  mblock_maps : list MBlockMap;
  mblock_map_count : nat;
  mblock_cache : list Z;
  mblocks_allocated : Z;
  peak_mblocks_allocated : Z;
  mpc_misses : Z
}.
Arguments mkM {OS}.
Arguments os {OS}.
Arguments next_request {OS}.
Arguments mblock_maps {OS}.
Arguments mblock_map_count {OS}.
Arguments mblock_cache {OS}.
Arguments mblocks_allocated {OS}.
Arguments peak_mblocks_allocated {OS}.
Arguments mpc_misses {OS}.

Section setters.
Context {OS : Type}.
Implicit Types m : mstate OS.
Definition set_os (x : OS) m : mstate OS :=
  mkM x (next_request m) (mblock_maps m) (mblock_map_count m) (mblock_cache m)
    (mblocks_allocated m) (peak_mblocks_allocated m) (mpc_misses m).
Definition set_next_request (x : Z) m : mstate OS :=
  mkM (os m) x (mblock_maps m) (mblock_map_count m) (mblock_cache m)
    (mblocks_allocated m) (peak_mblocks_allocated m) (mpc_misses m).
Definition set_maps (x : list MBlockMap) m : mstate OS :=
  mkM (os m) (next_request m) x (mblock_map_count m) (mblock_cache m)
    (mblocks_allocated m) (peak_mblocks_allocated m) (mpc_misses m).
Definition set_map_count (x : nat) m : mstate OS :=
  mkM (os m) (next_request m) (mblock_maps m) x (mblock_cache m)
    (mblocks_allocated m) (peak_mblocks_allocated m) (mpc_misses m).
Definition set_cache (x : list Z) m : mstate OS :=
  mkM (os m) (next_request m) (mblock_maps m) (mblock_map_count m) x
    (mblocks_allocated m) (peak_mblocks_allocated m) (mpc_misses m).
Definition set_allocated (x : Z) m : mstate OS :=
  mkM (os m) (next_request m) (mblock_maps m) (mblock_map_count m) (mblock_cache m)
    x (peak_mblocks_allocated m) (mpc_misses m).
Definition set_peak (x : Z) m : mstate OS :=
  mkM (os m) (next_request m) (mblock_maps m) (mblock_map_count m) (mblock_cache m)
    (mblocks_allocated m) x (mpc_misses m).
Definition set_misses (x : Z) m : mstate OS :=
  mkM (os m) (next_request m) (mblock_maps m) (mblock_map_count m) (mblock_cache m)
    (mblocks_allocated m) (peak_mblocks_allocated m) x.
End setters.

Section mblock.
Context {OS : Type} `{OsMem OS}.
Notation prog := (prog (mstate OS)).

(** ** rts/posix/OSMem.c *)

Definition osMemInit (heapBase : Z) : prog unit := modify (set_next_request heapBase).

Definition do_mmap (addr size : Z) : prog (option Z) := λ m,
  let '(r, o) := mmap addr size (os m) in Ok (r, set_os o m).
Definition do_munmap (addr size : Z) : prog bool := λ m,
  let '(r, o) := munmap addr size (os m) in Ok (r, set_os o m).

(** Out of memory is [stg_exit], any other failure [barf]. *)
Definition my_mmap (addr size : Z) : prog Z :=
  r ← do_mmap addr size;
  match r with
  | Some ret => mret ret
  | None => fail Barf
  end.

Definition gen_map_mblocks (size : Z) : prog Z :=
  let size := wrapU 64 (size + MBLOCK_SIZE) in
  ret ← my_mmap 0 size;
  let slop := Z.land ret MBLOCK_MASK in
  ok ← do_munmap ret (MBLOCK_SIZE - slop);
  (if negb ok then fail Barf else mret tt);;
  (if 0 <? slop then
     ok ← do_munmap (ret + size - slop) slop;
     if negb ok then fail Barf else mret tt
   else mret tt);;
  mret (ret + (MBLOCK_SIZE - slop)).

Definition osGetMBlocks (n : Z) : prog Z :=
  let size := wrapU 64 (MBLOCK_SIZE * n) in
  next ← gets next_request;
  ret ←
    (if next =? 0 then gen_map_mblocks size
     else
       ret ← my_mmap next size;
       if negb (Z.land ret MBLOCK_MASK =? 0) then
         ok ← do_munmap ret size;
         if negb ok then fail Barf else gen_map_mblocks size
       else mret ret);
  modify (set_next_request (ret + size));;
  mret ret.

(** [n * MBLOCK_SIZE] is a product of 32-bit integers; the result of munmap is
    ignored. *)
Definition osFreeMBlocks (addr n : Z) : prog unit :=
  _ ← do_munmap addr (wrapU 32 (n * MBLOCK_SIZE));
  mret tt.

Definition osReleaseFreeMemory : prog unit := mret tt.

(** ** rts/sm/MBlock.c *)

(** [findMBlockMap]: the index of the map found. *)
Fixpoint find_from (js : list nat) (hi : Z) : prog (option nat) :=
  match js with
  | [] => mret None
  | j :: js =>
    ms ← gets mblock_maps;
    map ← deref (ms !! j);
    if addrHigh32 map =? hi then mret (Some j) else find_from js hi
  end.
Definition findMBlockMap (p : Z) : prog (option nat) :=
  c ← gets mblock_map_count;
  find_from (seq 0 c) (wrapU 32 (Z.shiftr p 32)).

(** An entry of the cache is 32 bits wide. *)
Definition cache_entry (mblock value : Z) : Z := wrapU 32 (Z.shiftl mblock 1 + value).
Definition write_cache (entry_no x : Z) : prog unit :=
  modify (λ m, set_cache (<[Z.to_nat entry_no := x]> (mblock_cache m)) m).

(** [(mblock << 1) | value]; [value] is 0 or 1. *)
Definition HEAP_ALLOCED_miss (mblock p : Z) : prog Z :=
  let entry_no := Z.land mblock (MBC_ENTRIES - 1) in
  map ← findMBlockMap p;
  match map with
  | Some j =>
    modify (λ m, set_misses (wrapU 64 (mpc_misses m + 1)) m);;
    ms ← gets mblock_maps;
    map ← deref (ms !! j);
    value ← deref (lines map !! Z.to_nat (MBLOCK_MAP_LINE p));
    write_cache entry_no (wrapU 32 (Z.lor (Z.shiftl mblock 1) value));;
    mret value
  | None =>
    write_cache entry_no (wrapU 32 (Z.shiftl mblock 1));;
    mret 0
  end.

Definition HEAP_ALLOCED (p : Z) : prog Z :=
  let mblock := Z.shiftr p MBLOCK_SHIFT in
  let entry_no := Z.land mblock (MBC_ENTRIES - 1) in
  c ← gets mblock_cache;
  entry ← deref (c !! Z.to_nat entry_no);
  let value := wrapU 32 (Z.lxor entry (Z.shiftl mblock 1)) in
  if value =? 1 then mret 1
  else if value =? 0 then mret 0
  else HEAP_ALLOCED_miss mblock p.

(** The same under a spin lock around the miss. *)
Definition HEAP_ALLOCED_GC (p : Z) : prog Z :=
  let mblock := Z.shiftr p MBLOCK_SHIFT in
  let entry_no := Z.land mblock (MBC_ENTRIES - 1) in
  c ← gets mblock_cache;
  entry ← deref (c !! Z.to_nat entry_no);
  let value := wrapU 32 (Z.lxor entry (Z.shiftl mblock 1)) in
  if value =? 1 then mret 1
  else if value =? 0 then mret 0
  else b ← HEAP_ALLOCED_miss mblock p; mret b.

Definition setHeapAlloced (p i : Z) : prog unit :=
  map ← findMBlockMap p;
  j ← match map with
      | Some j => mret j
      | None =>
        modify (λ m, set_map_count (S (mblock_map_count m)) m);;
        modify (λ m, set_maps (mblock_maps m ++
          [mkMap (wrapU 32 (Z.shiftr p 32)) (replicate (Z.to_nat MBLOCK_MAP_ENTRIES) 0)]) m);;
        c ← gets mblock_map_count;
        mret (c - 1)%nat
      end;
  ms ← gets mblock_maps;
  map ← deref (ms !! j);
  modify (set_maps (<[j := mkMap (addrHigh32 map)
    (<[Z.to_nat (MBLOCK_MAP_LINE p) := i]> (lines map))]> ms));;
  let mblock := Z.shiftr p MBLOCK_SHIFT in
  let entry_no := Z.land mblock (MBC_ENTRIES - 1) in
  write_cache entry_no (cache_entry mblock i).

Definition markHeapAlloced (p : Z) : prog unit := setHeapAlloced p 1.
Definition markHeapUnalloced (p : Z) : prog unit := setHeapAlloced p 0.

(** The scan of one line for a bit at or after [off] ... *)
Definition line_hit (line : Z) (offs : list nat) : option nat :=
  head (filter (λ off, Z.testbit line (Z.of_nat off) = true) offs).
(** ... and of the lines from [line_no] on, the first from [off]. *)
Fixpoint scan_lines (ls : list Z) (line_no : Z) (off : nat) (hi : Z) : option Z :=
  match ls with
  | [] => None
  | line :: ls =>
    match line_hit line (seq off (Z.to_nat MBC_LINE_SIZE - off)) with
    | Some off => Some (Z.shiftl hi 32 + wrapU 32 (line_no * MBC_LINE_SIZE * MBLOCK_SIZE)
                        + Z.of_nat off * MBLOCK_SIZE)
    | None => scan_lines ls (line_no + 1) 0 hi
    end
  end.

(** The rest of the maps, from their first line. *)
Fixpoint scan_maps (js : list nat) (p : Z) : prog (option Z) :=
  match js with
  | [] => mret None
  | j :: js =>
    ms ← gets mblock_maps;
    map ← deref (ms !! j);
    let '(line_no, off) :=
      if addrHigh32 map =? Z.shiftr p 32
      then (MBLOCK_MAP_LINE p, S (Z.to_nat (Z.land (Z.shiftr p MBLOCK_SHIFT) (MBC_LINE_SIZE - 1))))
      else (0, 0%nat) in
    match scan_lines (drop (Z.to_nat line_no) (lines map)) line_no off (addrHigh32 map) with
    | Some r => mret (Some r)
    | None => scan_maps js p
    end
  end.

(** [None] is NULL. *)
Definition getNextMBlock (p : Z) : prog (option Z) :=
  c ← gets mblock_map_count;
  j ← find_from (seq 0 c) (Z.shiftr p 32);
  match j with
  | None => mret None
  | Some j => scan_maps (seq j (c - j)) p
  end.

Definition getFirstMBlock : prog (option Z) :=
  ms ← gets mblock_maps;
  map ← deref (ms !! 0%nat);
  mret (scan_lines (lines map) 0 0 (addrHigh32 map)).

(** [for (i = 0; i < n; i++) f(addr + i * MBLOCK_SIZE)]; the product has 32
    bits. *)
Definition for_mblocks (addr n : Z) (f : Z → prog unit) : prog unit :=
  for_each (seq 0 (Z.to_nat n)) (λ i, f (addr + wrapU 32 (Z.of_nat i * MBLOCK_SIZE))).

Definition getMBlocks (n : Z) : prog Z :=
  ret ← osGetMBlocks n;
  for_mblocks ret n markHeapAlloced;;
  modify (λ m, set_allocated (wrapU 64 (mblocks_allocated m + n)) m);;
  modify (λ m, set_peak (Z.max (peak_mblocks_allocated m) (mblocks_allocated m)) m);;
  mret ret.

Definition getMBlock : prog Z := getMBlocks 1.

Definition freeMBlocks (addr n : Z) : prog unit :=
  modify (λ m, set_allocated (wrapU 64 (mblocks_allocated m - n)) m);;
  for_mblocks addr n markHeapUnalloced;;
  osFreeMBlocks addr n.

(** The walk of [osFreeAllMBlocks]; [fuel] bounds the number of megablocks. *)
Fixpoint free_all (fuel : nat) (mblock : option Z) : prog unit :=
  match mblock, fuel with
  | None, _ => mret tt
  | Some _, O => fail Diverges
  | Some mb, S fuel =>
    _ ← do_munmap mb MBLOCK_SIZE;
    next ← getNextMBlock mb;
    free_all fuel next
  end.
Definition osFreeAllMBlocks : prog unit :=
  mblock ← getFirstMBlock;
  c ← gets mblock_map_count;
  free_all (S (c * Z.to_nat MBLOCK_MAP_ENTRIES)) mblock.

(** The maps are freed, their count is not reset. *)
Definition freeAllMBlocks : prog unit :=
  osFreeAllMBlocks;;
  modify (set_maps []).

Definition initMBlocks (heapBase : Z) : prog unit :=
  osMemInit heapBase;;
  modify (set_cache (replicate (Z.to_nat MBC_ENTRIES) 4294967295)).
End mblock.
