(* ===== verification/MBlockProps.v ===== *)
(** * The megablock map

    HEAP_ALLOCED and its cache against the set of megablocks of the heap, the
    marking of ranges, the walk over all megablocks, and the alignment of the
    memory the operating system is asked for. *)
From S2P Require Import Prelude MBlock.
From stdpp Require Import list gmap.
Local Open Scope Z_scope.

(** ** Addresses and megablock numbers *)

(** A megablock number of the 48-bit address space. *)
Definition mb_ok (mb : Z) : Prop := 0 <= mb < 2 ^ 28.
Definition mb_of (p : Z) : Z := p / MBLOCK_SIZE.

Section numbers.

Lemma mb_shiftr p : Z.shiftr p MBLOCK_SHIFT = mb_of p.
Proof. unfold MBLOCK_SHIFT, mb_of. rewrite Z.shiftr_div_pow2 by lia. done. Qed.

Lemma mb_entry mb : Z.land mb (MBC_ENTRIES - 1) = mb mod 8192.
Proof. change (MBC_ENTRIES - 1) with (Z.ones 13). by rewrite Z.land_ones by lia. Qed.

Lemma mb_line p : MBLOCK_MAP_LINE p = mb_of p mod 4096.
Proof.
  unfold MBLOCK_MAP_LINE, MBLOCK_SHIFT, MBC_LINE_BITS. change 4294967295 with (Z.ones 32).
  rewrite Z.land_ones, Z.shiftr_div_pow2 by lia. unfold mb_of, MBLOCK_SIZE, MBLOCK_SHIFT.
  change (20 + 0) with 20. change (2 ^ 32) with (2 ^ 20 * 4096).
  rewrite Z.rem_mul_r by lia. rewrite Z.mul_comm, Z.div_add by lia.
  rewrite (Z.div_small (p mod 2 ^ 20)) by (apply Z.mod_pos_bound; lia). lia.
Qed.

Lemma mb_high p : mb_ok (mb_of p) → wrapU 32 (Z.shiftr p 32) = mb_of p / 4096 ∧ Z.shiftr p 32 = mb_of p / 4096.
Proof.
  intros Hp. rewrite Z.shiftr_div_pow2 by lia.
  assert (p / 2 ^ 32 = mb_of p / 4096) as ->.
  { unfold mb_of, MBLOCK_SIZE, MBLOCK_SHIFT. rewrite Z.div_div by lia. done. }
  split; [|done]. apply wrapU_small. unfold mb_ok in Hp. split; [apply Z.div_pos; lia|].
  apply Z.div_lt_upper_bound; lia.
Qed.

Lemma lxor_entry e mb :
  0 <= e < 2 ^ 32 → mb_ok mb →
  (wrapU 32 (Z.lxor e (Z.shiftl mb 1)) = 1 ↔ e = 2 * mb + 1) ∧
  (wrapU 32 (Z.lxor e (Z.shiftl mb 1)) = 0 ↔ e = 2 * mb).
Proof.
  intros He Hmb. unfold mb_ok in Hmb. rewrite Z.shiftl_mul_pow2 by lia. change (2 ^ 1) with 2.
  assert (0 <= mb * 2 < 2 ^ 32) as Ha by lia.
  assert (0 <= Z.lxor e (mb * 2) < 2 ^ 32) as Hx.
  { split; [apply Z.lxor_nonneg; lia|].
    destruct (Z.eq_dec (Z.lxor e (mb * 2)) 0) as [->|Hne]; [lia|].
    apply Z.log2_lt_pow2; [assert (0 <= Z.lxor e (mb * 2)) by (apply Z.lxor_nonneg; lia); lia|].
    eapply Z.le_lt_trans; [apply Z.log2_lxor; lia|]. apply Z.max_lub_lt.
    - destruct (Z.eq_dec e 0) as [->|]; [cbn; lia|]. apply Z.log2_lt_pow2; lia.
    - destruct (Z.eq_dec (mb * 2) 0) as [->|]; [cbn; lia|]. apply Z.log2_lt_pow2; lia. }
  rewrite wrapU_small by done.
  assert (Z.lxor (mb * 2) 1 = mb * 2 + 1) as H1.
  { rewrite <- lor_double_1, <- Z.lxor_lor; [done|]. change 1 with (Z.ones 1). rewrite Z.land_ones by lia.
    apply Z.mod_mul; lia. }
  split; split.
  - intros E. assert (e = Z.lxor (Z.lxor e (mb * 2)) (mb * 2)) as ->.
    { by rewrite Z.lxor_assoc, Z.lxor_nilpotent, Z.lxor_0_r. }
    rewrite E, Z.lxor_comm, H1. lia.
  - intros ->. replace (2 * mb + 1) with (Z.lxor (mb * 2) 1) by lia.
    rewrite Z.lxor_comm, <- Z.lxor_assoc, Z.lxor_nilpotent. done.
  - intros ->%Z.lxor_eq. lia.
  - intros ->. replace (2 * mb) with (mb * 2) by lia. apply Z.lxor_nilpotent.
Qed.
End numbers.

(** ** The invariant *)

Definition map_ok (map : MBlockMap) : Prop :=
  length (lines map) = Z.to_nat 4096 ∧ ∀ x, x ∈ lines map → x = 0 ∨ x = 1.

(** The megablock [mb] belongs to the heap. *)
Definition in_heap (ms : list MBlockMap) (mb : Z) : Prop :=
  ∃ map, map ∈ ms ∧ addrHigh32 map = mb / 4096 ∧ lines map !! Z.to_nat (mb mod 4096) = Some 1.

Record mm_inv {OS} (m : mstate OS) : Prop := {
  mi_count : mblock_map_count m = length (mblock_maps m);
  mi_high : NoDup (addrHigh32 <$> mblock_maps m);
  mi_maps map : map ∈ mblock_maps m → map_ok map;
  mi_cache_len : length (mblock_cache m) = Z.to_nat 8192;
  mi_cache mb e : mb_ok mb → mblock_cache m !! Z.to_nat (mb mod 8192) = Some e →
    0 <= e < 2 ^ 32 ∧ (e = 2 * mb + 1 → in_heap (mblock_maps m) mb) ∧
    (e = 2 * mb → ¬ in_heap (mblock_maps m) mb)
}.

Section map.
Context {OS : Type} `{OsMem OS}.
Implicit Types (m : mstate OS) (ms : list MBlockMap).

Lemma wp_find_from js hi m :
  (∀ j, j ∈ js → is_Some (mblock_maps m !! j)) →
  wp (find_from js hi) (λ r m', m' = m ∧
    match r with
    | Some j => j ∈ js ∧ ∃ map, mblock_maps m !! j = Some map ∧ addrHigh32 map = hi
    | None => ∀ j map, j ∈ js → mblock_maps m !! j = Some map → addrHigh32 map ≠ hi
    end) m.
Proof.
  intros Hjs. induction js as [|j js IH]; cbn [find_from].
  { wp_step. split; [done|]. by intros j map ?%elem_of_nil. }
  destruct (Hjs j) as [map Hmap]; [by left|]. do 2 wp_step. do 2 wp_step.
  destruct (addrHigh32 map =? hi) eqn:E.
  - apply Z.eqb_eq in E. wp_step. split; [done|]. split; [by left|]. by exists map.
  - apply Z.eqb_neq in E. eapply wp_mono; [apply IH; intros; apply Hjs; by right|].
    intros [j'|] m' [-> Hr]; (split; [done|]).
    + destruct Hr as [? ?]. split; [by right|done].
    + intros j' map' [->|?]%elem_of_cons Hm; [congruence|by eapply Hr].
Qed.

Lemma wp_findMBlockMap m p :
  mm_inv m → mb_ok (mb_of p) →
  wp (findMBlockMap p) (λ r m', m' = m ∧
    match r with
    | Some j => ∃ map, mblock_maps m !! j = Some map ∧ addrHigh32 map = mb_of p / 4096
    | None => ∀ map, map ∈ mblock_maps m → addrHigh32 map ≠ mb_of p / 4096
    end) m.
Proof.
  intros Hi Hp. unfold findMBlockMap. do 2 wp_step. rewrite (mi_count _ Hi), (proj1 (mb_high p Hp)).
  eapply wp_mono; [apply wp_find_from|].
  { intros j Hj%elem_of_seq. apply lookup_lt_is_Some. lia. }
  intros [j|] m' [-> Hr]; (split; [done|]); [by destruct Hr|].
  intros map [j Hj]%list_elem_of_lookup. eapply Hr; [|done]. apply elem_of_seq.
  apply lookup_lt_Some in Hj. lia.
Qed.

(** In a map with the top bits of [mb], the line decides. *)
Lemma in_heap_map ms mb j map :
  NoDup (addrHigh32 <$> ms) → ms !! j = Some map → addrHigh32 map = mb / 4096 →
  in_heap ms mb ↔ lines map !! Z.to_nat (mb mod 4096) = Some 1.
Proof.
  intros Hnd Hj Hhi. split; [|intros Hl; exists map; split_and!; [by eapply list_elem_of_lookup_2|done|done]].
  intros (map' & [j' Hj']%list_elem_of_lookup & Hhi' & Hl).
  assert (j' = j) as ->; [|congruence].
  eapply (NoDup_lookup _ _ _ (mb / 4096)); [exact Hnd|..]; rewrite list_lookup_fmap; [rewrite Hj'|rewrite Hj];
    cbn; congruence.
Qed.

Lemma mod_bound mb k : 0 < k → (Z.to_nat (mb mod k) < Z.to_nat k)%nat.
Proof. intros. pose proof (Z.mod_pos_bound mb k). lia. Qed.

(** The cache entry of [mb] tells the truth about it, for both answers. *)
Definition truthful (ms : list MBlockMap) (mb v : Z) : Prop :=
  (v = 0 ∨ v = 1) ∧ (v = 1 ↔ in_heap ms mb).

Lemma cache_write_inv m mb v ms' :
  mm_inv m → mb_ok mb → truthful ms' mb v →
  (∀ mb', mb_ok mb' → mb' ≠ mb → in_heap ms' mb' ↔ in_heap (mblock_maps m) mb') →
  ∀ mb' e, mb_ok mb' → <[Z.to_nat (mb mod 8192) := 2 * mb + v]> (mblock_cache m) !! Z.to_nat (mb' mod 8192) = Some e →
    0 <= e < 2 ^ 32 ∧ (e = 2 * mb' + 1 → in_heap ms' mb') ∧ (e = 2 * mb' → ¬ in_heap ms' mb').
Proof.
  intros Hi Hmb [Hv Hin] Hoth mb' e Hmb'.
  destruct (decide (Z.to_nat (mb mod 8192) = Z.to_nat (mb' mod 8192))) as [E|E].
  - rewrite E, list_lookup_insert_eq by (rewrite mi_cache_len by done; by apply mod_bound).
    intros [= <-]. unfold mb_ok in *. split; [lia|].
    split; intros E'; (assert (mb' = mb) as -> by lia).
    + apply Hin. lia.
    + intros Hh%Hin. lia.
  - rewrite list_lookup_insert_ne by done. intros He.
    destruct (mi_cache _ Hi mb' e Hmb' He) as (Hb & H1 & H0). split; [done|].
    assert (mb' ≠ mb) as Hne by by intros ->. rewrite (Hoth mb' Hmb' Hne). done.
Qed.

Lemma cache_value mb v : mb_ok mb → v = 0 ∨ v = 1 →
  wrapU 32 (Z.shiftl mb 1 + v) = 2 * mb + v ∧ wrapU 32 (Z.lor (Z.shiftl mb 1) v) = 2 * mb + v.
Proof.
  intros Hmb Hv. unfold mb_ok in Hmb. rewrite Z.shiftl_mul_pow2 by lia. change (2 ^ 1) with 2.
  assert (Z.lor (mb * 2) v = mb * 2 + v) as ->.
  { destruct Hv as [->| ->]; [by rewrite Z.lor_0_r, Z.add_0_r|apply lor_double_1]. }
  rewrite wrapU_small by lia. lia.
Qed.

Lemma miss_ok m p :
  mm_inv m → mb_ok (mb_of p) →
  wp (HEAP_ALLOCED_miss (mb_of p) p)
     (λ r m', truthful (mblock_maps m) (mb_of p) r ∧ mm_inv m' ∧ mblock_maps m' = mblock_maps m) m.
Proof.
  intros Hi Hp. unfold HEAP_ALLOCED_miss. wp_step. eapply wp_mono; [by apply wp_findMBlockMap|].
  rewrite mb_entry. intros [j|] m' [-> Hr].
  - destruct Hr as (map & Hj & Hhi). do 2 wp_step. do 4 wp_step. cbn [mblock_maps set_misses].
    destruct (mi_maps _ Hi map) as [Hlen Hval]; [by eapply list_elem_of_lookup_2|].
    destruct (lookup_lt_is_Some_2 (lines map) (Z.to_nat (mb_of p mod 4096))) as [v Hv].
    { rewrite Hlen. by apply mod_bound. }
    do 2 wp_step; [by rewrite mb_line|]. unfold write_cache. do 3 wp_step.
    assert (v = 0 ∨ v = 1) as Hv01 by (eapply Hval, list_elem_of_lookup_2; done).
    assert (truthful (mblock_maps m) (mb_of p) v) as Ht.
    { split; [done|]. rewrite (in_heap_map _ _ j map (mi_high _ Hi)) by done. rewrite Hv.
      split; [by intros ->|by intros [= ->]]. }
    split; [done|]. split; [|done]. rewrite (proj2 (cache_value _ v Hp Hv01)).
    destruct Hi as [H1 H2 H3 H4 H5]. constructor; cbn; [done..|by rewrite length_insert|].
    by apply (cache_write_inv m).
  - unfold write_cache. do 3 wp_step.
    assert (truthful (mblock_maps m) (mb_of p) 0) as Ht.
    { split; [by left|]. split; [done|]. intros (map & Hin & Hhi & _). by destruct (Hr map). }
    split; [done|]. split; [|done].
    assert (wrapU 32 (Z.shiftl (mb_of p) 1) = 2 * mb_of p + 0) as ->.
    { rewrite <- (proj1 (cache_value _ 0 Hp (or_introl eq_refl))). by rewrite Z.add_0_r. }
    destruct Hi as [H1 H2 H3 H4 H5]. constructor; cbn; [done..|by rewrite length_insert|].
    by apply (cache_write_inv m).
Qed.

Lemma heap_alloced_ok m p :
  mm_inv m → mb_ok (mb_of p) →
  wp (HEAP_ALLOCED p)
     (λ r m', truthful (mblock_maps m) (mb_of p) r ∧ mm_inv m' ∧ mblock_maps m' = mblock_maps m) m.
Proof.
  intros Hi Hp. unfold HEAP_ALLOCED. rewrite mb_shiftr, mb_entry. do 2 wp_step.
  destruct (lookup_lt_is_Some_2 (mblock_cache m) (Z.to_nat (mb_of p mod 8192))) as [e He].
  { rewrite (mi_cache_len _ Hi). by apply mod_bound. }
  do 2 wp_step. destruct (mi_cache _ Hi _ e Hp He) as (Hb & H1 & H0).
  destruct (lxor_entry e (mb_of p) Hb Hp) as [E1 E0].
  destruct (_ =? 1) eqn:D1; [|destruct (_ =? 0) eqn:D0].
  - apply Z.eqb_eq, E1 in D1. wp_step. split_and!; [|done|done]. split; [by right|]. split; [intros _; auto|done].
  - apply Z.eqb_eq, E0 in D0. wp_step. split_and!; [|done|done]. split; [by left|].
    split; [done|]. intros Hin. by destruct (H0 D0).
  - by apply miss_ok.
Qed.

(** ** Marking *)

(** Everything but the map and its cache. *)
Definition map_frame (m m' : mstate OS) : Prop :=
  os m' = os m ∧ next_request m' = next_request m ∧ mblocks_allocated m' = mblocks_allocated m ∧
  peak_mblocks_allocated m' = peak_mblocks_allocated m.

(** The map found or added for [p]. *)
Record map_for (m : mstate OS) (p : Z) (j : nat) (m' : mstate OS) : Prop := {
  mf_inv : mm_inv m';
  mf_map : ∃ map, mblock_maps m' !! j = Some map ∧ addrHigh32 map = mb_of p / 4096;
  mf_heap mb : mb_ok mb → in_heap (mblock_maps m') mb ↔ in_heap (mblock_maps m) mb;
  mf_frame : map_frame m m'
}.

Definition new_map (p : Z) : MBlockMap := mkMap (mb_of p / 4096) (replicate (Z.to_nat MBLOCK_MAP_ENTRIES) 0).

Lemma add_map_inv m p :
  mm_inv m → mb_ok (mb_of p) → (∀ map, map ∈ mblock_maps m → addrHigh32 map ≠ mb_of p / 4096) →
  map_for m p (length (mblock_maps m))
    (set_maps (mblock_maps m ++ [new_map p]) (set_map_count (S (mblock_map_count m)) m)).
Proof.
  intros Hi Hp Hno.
  assert (∀ mb, in_heap (mblock_maps m ++ [new_map p]) mb ↔ in_heap (mblock_maps m) mb) as Hh.
  { intros mb. split; intros (map & Hin & ? & Hl).
    - apply elem_of_app in Hin as [Hin|Hin]; [by exists map|].
    apply list_elem_of_singleton in Hin as ->.
      cbn in Hl. by apply lookup_replicate_1 in Hl as [? _].
    - exists map. split_and!; [apply elem_of_app; by left|done|done]. }
  destruct Hi as [Hc Hnd Hm Hl Hca]. constructor; [constructor| | |]; cbn.
  - rewrite length_app, Hc; cbn. lia.
  - rewrite fmap_app. apply NoDup_app. split_and!; [done| |apply NoDup_singleton].
    intros hi (map & -> & Hin)%list_elem_of_fmap E%list_elem_of_singleton. by apply (Hno map).
  - intros map [Hin|Hin]%elem_of_app; [by apply Hm|]. apply list_elem_of_singleton in Hin as ->. split; cbn.
    + by rewrite length_replicate.
    + intros x [-> _]%elem_of_replicate. by left.
  - done.
  - intros mb e Hmb He. rewrite Hh. by apply Hca.
  - exists (new_map p). split; [|done]. by rewrite lookup_app_r, Nat.sub_diag by done.
  - intros mb _. apply Hh.
  - done.
Qed.

Lemma map_for_ok m p :
  mm_inv m → mb_ok (mb_of p) →
  wp (map ← findMBlockMap p;
      match map with
      | Some j => mret j
      | None =>
        modify (λ m, set_map_count (S (mblock_map_count m)) m);;
        modify (λ m, set_maps (mblock_maps m ++
          [mkMap (wrapU 32 (Z.shiftr p 32)) (replicate (Z.to_nat MBLOCK_MAP_ENTRIES) 0)]) m);;
        c ← gets mblock_map_count;
        mret (c - 1)%nat
      end) (map_for m p) m.
Proof.
  intros Hi Hp. wp_step. eapply wp_mono; [by apply wp_findMBlockMap|]. intros [j|] m' [-> Hr].
  - wp_step. by constructor.
  - do 4 wp_step. do 3 wp_step. cbn [mblock_map_count set_maps set_map_count].
    rewrite (proj1 (mb_high p Hp)). replace (S (mblock_map_count m) - 1)%nat with (mblock_map_count m) by lia.
    pose proof (mi_count _ Hi) as Hc. pose proof (add_map_inv m p Hi Hp Hr) as Hadd. rewrite <- Hc in Hadd. done.
Qed.

(** A line of a map written. *)
Definition set_line (j : nat) (map : MBlockMap) (mb i : Z) ms : list MBlockMap :=
  <[j := mkMap (addrHigh32 map) (<[Z.to_nat (mb mod 4096) := i]> (lines map))]> ms.

Lemma set_line_heap m j map mb i :
  mm_inv m → mblock_maps m !! j = Some map → addrHigh32 map = mb / 4096 → mb_ok mb →
  ∀ mb', mb_ok mb' → in_heap (set_line j map mb i (mblock_maps m)) mb' ↔
    if decide (mb' = mb) then i = 1 else in_heap (mblock_maps m) mb'.
Proof.
  intros Hi Hj Hhi Hmb mb' Hmb'. set (ms' := set_line j map mb i (mblock_maps m)).
  assert (addrHigh32 <$> ms' = addrHigh32 <$> mblock_maps m) as Eh.
  { unfold ms', set_line. rewrite list_fmap_insert. cbn. apply list_insert_id. by rewrite list_lookup_fmap, Hj. }
  assert (NoDup (addrHigh32 <$> ms')) as Hnd by (rewrite Eh; apply Hi).
  pose proof (lookup_lt_Some _ _ _ Hj) as Hlt.
  assert (ms' !! j = Some (mkMap (addrHigh32 map) (<[Z.to_nat (mb mod 4096) := i]> (lines map)))) as Hj'.
  { unfold ms', set_line. by rewrite list_lookup_insert_eq. }
  destruct (mi_maps _ Hi map) as [Hlen _]; [by eapply list_elem_of_lookup_2|].
  destruct (decide (mb' / 4096 = mb / 4096)) as [Ed|Ed].
  - rewrite (in_heap_map ms' mb' j _ Hnd Hj') by (cbn; congruence). cbn.
    destruct (decide (mb' = mb)) as [->|Hne].
    + rewrite list_lookup_insert_eq by (rewrite Hlen; by apply mod_bound). naive_solver.
    + rewrite (in_heap_map (mblock_maps m) mb' j map (mi_high _ Hi) Hj) by congruence.
      rewrite list_lookup_insert_ne; [done|]. intros E. apply Hne.
      pose proof (Z.mod_pos_bound mb 4096). pose proof (Z.mod_pos_bound mb' 4096).
      pose proof (Z.div_mod mb' 4096). pose proof (Z.div_mod mb 4096). lia.
  - rewrite decide_False by (intros ->; done). split.
    + intros (map' & [j' Hin]%list_elem_of_lookup & Hhi' & Hl). exists map'. split_and!; [|done|done].
      unfold ms', set_line in Hin. destruct (decide (j' = j)) as [->|].
      * rewrite list_lookup_insert_eq in Hin by done. injection Hin as <-. cbn in Hhi'. congruence.
      * rewrite list_lookup_insert_ne in Hin by done. by eapply list_elem_of_lookup_2.
    + intros (map' & [j' Hin]%list_elem_of_lookup & Hhi' & Hl). exists map'. split_and!; [|done|done].
      apply (list_elem_of_lookup_2 _ j'). unfold ms', set_line. rewrite list_lookup_insert_ne; [done|].
      intros ->. congruence.
Qed.

Lemma set_line_inv m j map mb i :
  mm_inv m → mblock_maps m !! j = Some map → addrHigh32 map = mb / 4096 → mb_ok mb → i = 0 ∨ i = 1 →
  mm_inv (set_cache (<[Z.to_nat (mb mod 8192) := 2 * mb + i]> (mblock_cache m))
    (set_maps (set_line j map mb i (mblock_maps m)) m)).
Proof.
  intros Hi Hj Hhi Hmb Hi01. pose proof (set_line_heap m j map mb i Hi Hj Hhi Hmb) as Hh.
  destruct (mi_maps _ Hi map) as [Hlen Hval]; [by eapply list_elem_of_lookup_2|].
  constructor; cbn.
  - unfold set_line. rewrite length_insert. apply Hi.
  - unfold set_line. rewrite list_fmap_insert. cbn. rewrite list_insert_id; [apply Hi|].
    by rewrite list_lookup_fmap, Hj.
  - intros map' [j' Hin]%list_elem_of_lookup. unfold set_line in Hin.
    destruct (decide (j' = j)) as [->|]; [|rewrite list_lookup_insert_ne in Hin by done; by eapply (mi_maps _ Hi), list_elem_of_lookup_2].
    rewrite list_lookup_insert_eq in Hin by by eapply lookup_lt_Some. injection Hin as <-.
    split; cbn; [by rewrite length_insert|]. intros x [k Hk]%list_elem_of_lookup.
    destruct (decide (k = Z.to_nat (mb mod 4096))) as [->|].
    + rewrite list_lookup_insert_eq in Hk by (rewrite Hlen; by apply mod_bound). by injection Hk as <-.
    + rewrite list_lookup_insert_ne in Hk by done. by eapply Hval, list_elem_of_lookup_2.
  - rewrite length_insert. apply Hi.
  - apply (cache_write_inv m); [done|done| |].
    + split; [done|]. rewrite Hh by done. by rewrite decide_True.
    + intros mb' Hmb' Hne. rewrite Hh by done. by rewrite decide_False.
Qed.

(** [setHeapAlloced] puts the megablock of [p] in the heap or takes it out. *)
Record marked (m : mstate OS) (mb i : Z) (m' : mstate OS) : Prop := {
  mk_inv : mm_inv m';
  mk_heap mb' : mb_ok mb' → in_heap (mblock_maps m') mb' ↔
    if decide (mb' = mb) then i = 1 else in_heap (mblock_maps m) mb';
  mk_frame : map_frame m m'
}.

Lemma wp_bind_assoc {A B C} (m : prog (mstate OS) A) (k : A → prog (mstate OS) B) (c : B → prog (mstate OS) C) Q s :
  wp (m ≫= k) (λ b s', wp (c b) Q s') s → wp (m ≫= λ a, k a ≫= c) Q s.
Proof. unfold wp, mbind, prog_bind. by destruct (m s) as [[a s']|e]; [destruct (k a s') as [[]|]|]. Qed.

Lemma setHeapAlloced_ok m p i :
  mm_inv m → mb_ok (mb_of p) → i = 0 ∨ i = 1 →
  wp (setHeapAlloced p i) (λ _ m', marked m (mb_of p) i m') m.
Proof.
  intros Hi Hp Hi01. unfold setHeapAlloced. apply wp_bind_assoc.
  eapply wp_mono; [by apply map_for_ok|]. intros j m1 [Hi1 (map & Hj & Hhi) Hh Hf].
  do 4 wp_step. do 2 wp_step. unfold write_cache. wp_step. cbn [mblock_maps set_maps mblock_cache].
  rewrite mb_shiftr, mb_entry, mb_line. unfold cache_entry. rewrite (proj1 (cache_value _ i Hp Hi01)).
  constructor.
  - apply (set_line_inv m1 j map); done.
  - intros mb' Hmb'. etrans; [exact (set_line_heap m1 j map (mb_of p) i Hi1 Hj Hhi Hp mb' Hmb')|].
    case_decide; [done|by apply Hh].
  - exact Hf.
Qed.

(** Marking [n] megablocks from [addr]: at most 4096 of them, since the offset
    has 32 bits. *)
Lemma offset_mod addr i : addr mod MBLOCK_SIZE = 0 → (0 <= i) →
  mb_of (addr + wrapU 32 (i * MBLOCK_SIZE)) = mb_of addr + i mod 4096.
Proof.
  intros Ha Hi. unfold mb_of, wrapU, MBLOCK_SIZE, MBLOCK_SHIFT in *. change (2 ^ 32) with (4096 * 2 ^ 20).
  rewrite Z.mul_mod_distr_r by lia. rewrite Z.div_add by lia. lia.
Qed.

(** The megablocks that [for_mblocks addr n] visits. *)
Definition visited (mb0 n mb : Z) : Prop := ∃ i, 0 <= i < n ∧ mb = mb0 + i mod 4096.

Lemma visited_small mb0 n mb : 0 <= n → visited mb0 n mb ↔ mb0 <= mb < mb0 + Z.min n 4096.
Proof.
  intros Hn. split.
  - intros (i & Hi & ->). pose proof (Z.mod_pos_bound i 4096). 
    destruct (decide (n <= 4096)); [rewrite Z.mod_small by lia|]; lia.
  - intros Hb. exists (mb - mb0). rewrite Z.mod_small by lia. lia.
Qed.

Lemma for_mblocks_ok m addr n (f : Z → prog (mstate OS) unit) i :
  (∀ m p, mm_inv m → mb_ok (mb_of p) → wp (f p) (λ _ m', marked m (mb_of p) i m') m) →
  mm_inv m → 0 <= n → addr mod MBLOCK_SIZE = 0 → 0 <= mb_of addr → mb_of addr + Z.min n 4096 <= 2 ^ 28 →
  wp (for_mblocks addr n f) (λ _ m', mm_inv m' ∧ map_frame m m' ∧ ∀ mb, mb_ok mb →
     in_heap (mblock_maps m') mb ↔
       if bool_decide (mb_of addr <= mb < mb_of addr + Z.min n 4096) then i = 1 else in_heap (mblock_maps m) mb) m.
Proof.
  intros Hf Hi Hn Ha H0 Hmax. unfold for_mblocks.
  eapply wp_mono; [apply (wp_for_each (λ pre m', mm_inv m' ∧ map_frame m m' ∧ ∀ mb, mb_ok mb →
    ((∃ k, k ∈ pre ∧ mb = mb_of addr + Z.of_nat k mod 4096) → in_heap (mblock_maps m') mb ↔ i = 1) ∧
    ((¬ ∃ k, k ∈ pre ∧ mb = mb_of addr + Z.of_nat k mod 4096) → in_heap (mblock_maps m') mb ↔ in_heap (mblock_maps m) mb)))|].
  - split_and!; [done|done|]. intros mb _. split; [|done]. by intros (k & ?%elem_of_nil & _).
  - intros pre k rest m1 Hl (Hi1 & Hf1 & Hh1).
    assert (k ∈ seq 0 (Z.to_nat n)) as Hk by (rewrite Hl; apply elem_of_app; right; by left).
    apply elem_of_seq in Hk. pose proof (Z.mod_pos_bound (Z.of_nat k) 4096).
    assert (Z.of_nat k mod 4096 < Z.min n 4096).
    { destruct (decide (n <= 4096)); [rewrite Z.mod_small by lia|]; lia. }
    eapply wp_mono; [apply Hf; [done|]|].
    { rewrite offset_mod by (done || lia). unfold mb_ok. lia. }
    rewrite offset_mod by (done || lia). intros u m2 [Hi2 Hh2 Hf2]. split; [done|]. split.
    { destruct Hf2 as (E1 & E2 & E3 & E4), Hf1 as (E5 & E6 & E7 & E8). unfold map_frame.
      by rewrite E1, E2, E3, E4. }
    intros mb Hmb. destruct (Hh1 mb Hmb) as [Hin Hout]. split.
    + intros (k' & [Hk'|Hk']%elem_of_app & E); rewrite Hh2 by done; case_decide; try done.
      * apply Hin. eauto.
      * apply list_elem_of_singleton in Hk' as ->. done.
    + intros Hno. rewrite Hh2 by done. rewrite decide_False.
      * apply Hout. intros (k' & ? & ?). apply Hno. exists k'. split; [apply elem_of_app; by left|done].
      * intros E. apply Hno. exists k. split; [apply elem_of_app; right; by left|done].
  - intros u m' (Hi' & Hf' & Hh'). split_and!; [done|done|]. intros mb Hmb. destruct (Hh' mb Hmb) as [Hin Hout].
    assert ((∃ k, k ∈ seq 0 (Z.to_nat n) ∧ mb = mb_of addr + Z.of_nat k mod 4096) ↔ visited (mb_of addr) n mb) as Hv.
    { split.
      - intros (k & Hk%elem_of_seq & ->). exists (Z.of_nat k). split; [lia|done].
      - intros (j & Hj & ->). exists (Z.to_nat j). rewrite Z2Nat.id by lia. split; [|done]. apply elem_of_seq. lia. }
    rewrite visited_small in Hv by done. case_bool_decide as E; [by apply Hin, Hv|]. apply Hout. by rewrite Hv.
Qed.
End map.

(** ** Memory from the operating system *)

(** Multiples of the page size *)
Ltac paged := unfold page_aligned, PAGE_SIZE, MBLOCK_SIZE, MBLOCK_SHIFT in *; change (2 ^ 20) with 1048576 in *;
  Z.to_euclidean_division_equations; lia.
Section os.
Context {OS : Type} `{OsMemLaws OS}.
Implicit Types (m : mstate OS).

(** Everything but the operating system and the next address to ask for. *)
Definition os_frame m m' : Prop := ∃ o nr, m' = set_os o (set_next_request nr m).

Lemma os_frame_refl m : os_frame m m.
Proof. exists (os m), (next_request m). by destruct m. Qed.
Lemma os_frame_trans m1 m2 m3 : os_frame m1 m2 → os_frame m2 m3 → os_frame m1 m3.
Proof. intros (? & ? & ->) (o & nr & ->). by exists o, nr. Qed.

(** [size] more bytes are mapped, from [r]; none of them was. *)
Definition grown m m' (r size : Z) : Prop :=
  0 < r ∧ r + size <= 2 ^ 48 ∧ (∀ x, r <= x < r + size → ¬ mapped (os m) x) ∧
  (∀ x, mapped (os m') x ↔ mapped (os m) x ∨ r <= x < r + size).

Lemma my_mmap_ok a n m : page_aligned n →
  wpb (my_mmap a n) (λ r m', page_aligned r ∧ grown m m' r n ∧ os_frame m m') m.
Proof.
  intros Hn.
  unfold wpb, my_mmap, do_mmap, mbind, prog_bind. destruct (mmap a n (os m)) as [[r|] o] eqn:E; [|done].
  apply mmap_ok in E as [Hr E]; [|done]. split; [done|]. split; [exact E|]. exists o, (next_request m). by destruct m.
Qed.

(** A part of a region given back. *)
Lemma munmap_ok' (a n : Z) m : page_aligned a → page_aligned n →
  wp (do_munmap a n) (λ b m', os_frame m m' ∧
    (b = true → ∀ x, mapped (os m') x ↔ mapped (os m) x ∧ ¬ a <= x < a + n)) m.
Proof.
  intros Ha Hn. unfold wp, do_munmap. destruct (munmap a n (os m)) as [b o] eqn:E. split.
  - exists o, (next_request m). by destruct m.
  - intros ->. by apply (munmap_ok _ _ _ _ Ha Hn E).
Qed.

Lemma munmap_or_barf (a n : Z) m (Q : unit → mstate OS → Prop) : page_aligned a → page_aligned n →
  (∀ m', os_frame m m' → (∀ x, mapped (os m') x ↔ mapped (os m) x ∧ ¬ a <= x < a + n) → Q tt m') →
  wpb (ok ← do_munmap a n; if negb ok then fail Barf else mret tt) Q m.
Proof.
  intros Ha Hn HQ. apply wpb_bind_wp. eapply wp_mono; [by apply munmap_ok'|]. intros [] m' [Hf Hm]; cbn [negb].
  - apply (HQ m'); auto.
  - apply wpb_barf.
Qed.

Lemma slop_mod r : Z.land r MBLOCK_MASK = r mod MBLOCK_SIZE.
Proof. unfold MBLOCK_MASK, MBLOCK_SIZE, MBLOCK_SHIFT. change (2 ^ 20 - 1) with (Z.ones 20). by rewrite Z.land_ones by lia. Qed.

Lemma gen_map_ok n m :
  0 < n → MBLOCK_SIZE * n < 2 ^ 48 →
  wpb (gen_map_mblocks (MBLOCK_SIZE * n))
    (λ r m', r mod MBLOCK_SIZE = 0 ∧ grown m m' r (MBLOCK_SIZE * n) ∧ os_frame m m') m.
Proof.
  intros Hn Hsz. unfold gen_map_mblocks.
  assert (MBLOCK_SIZE = 2 ^ 20) as ES by done.
  rewrite wrapU_small by lia. apply wpb_bind. eapply wpb_mono; [apply my_mmap_ok; paged|].
  intros r m1 (Hpage & (Hr & Hmax & Hnew & Hmap) & Hf1). rewrite slop_mod. set (slop := r mod MBLOCK_SIZE).
  assert (0 <= slop < MBLOCK_SIZE) as Hs by (apply Z.mod_pos_bound; lia).
  assert (page_aligned slop) as Hslop by (unfold slop; paged).
  apply wpb_bind_wp. eapply wp_mono; [apply munmap_ok'; [done|clearbody slop; paged]|]. intros b m2 [Hf2 Hm2].
  apply wpb_bind. destruct b; cbn [negb]; [|apply wpb_barf]. specialize (Hm2 eq_refl). apply wpb_wp, wp_ret.
  set (r' := r + (MBLOCK_SIZE - slop)).
  assert (r' mod MBLOCK_SIZE = 0) as Hr'.
  { unfold r', slop. replace (r + (MBLOCK_SIZE - r mod MBLOCK_SIZE)) with ((r / MBLOCK_SIZE + 1) * MBLOCK_SIZE);
      [apply Z.mod_mul; lia|]. pose proof (Z.div_mod r MBLOCK_SIZE). lia. }
  assert (∀ m3, os_frame m2 m3 → (∀ x, mapped (os m3) x ↔ mapped (os m2) x ∧ ¬ (r' + MBLOCK_SIZE * n <= x < r' + MBLOCK_SIZE * n + slop)) →
    wpb (mret r' : prog (mstate OS) Z)
      (λ r m', r mod MBLOCK_SIZE = 0 ∧ grown m m' r (MBLOCK_SIZE * n) ∧ os_frame m m') m3) as Hend.
  { intros m3 Hf3 Hm3. apply wpb_wp, wp_ret. split; [done|]. split.
    - unfold grown. split_and!; [unfold r'; lia|unfold r'; lia|intros x Hx; apply Hnew; unfold r' in *; lia|].
      intros x. rewrite Hm3, Hm2, Hmap. specialize (Hnew x). unfold r' in *.
      destruct (decide (r <= x < r + (MBLOCK_SIZE * n + MBLOCK_SIZE))).
      + split; [intros ([[?|?] ?] & ?); [tauto|right; lia]|intros [?|?]; [tauto|]]. split; [split; [by right|lia]|lia].
      + split; [intros ([[?|?] ?] & ?); [by left|lia]|intros [?|?]; [|lia]]. split; [split; [by left|lia]|lia].
    - eapply os_frame_trans; [exact Hf1|]. by eapply os_frame_trans. }
  apply wpb_bind. destruct (0 <? slop) eqn:Es.
  - apply munmap_or_barf; [clearbody slop; paged|done|]. intros m3 Hf3 Hm3. apply Hend; [done|]. intros x. rewrite Hm3. unfold r'.
    replace (r + (MBLOCK_SIZE * n + MBLOCK_SIZE) - slop) with (r + (MBLOCK_SIZE - slop) + MBLOCK_SIZE * n) by lia. done.
  - apply Z.ltb_ge in Es. apply wpb_wp, wp_ret. apply Hend; [apply os_frame_refl|]. intros x.
    assert (slop = 0) as -> by lia. rewrite Z.add_0_r. split; [|tauto]. intros; split; [done|lia].
Qed.

Lemma osGetMBlocks_ok n m :
  0 < n → MBLOCK_SIZE * n < 2 ^ 48 →
  wpb (osGetMBlocks n)
    (λ r m', r mod MBLOCK_SIZE = 0 ∧ grown m m' r (MBLOCK_SIZE * n) ∧ os_frame m m' ∧
       next_request m' = r + MBLOCK_SIZE * n) m.
Proof.
  intros Hn Hsz. assert (MBLOCK_SIZE = 2 ^ 20) as ES by done. unfold osGetMBlocks.
  rewrite wrapU_small by lia. apply wpb_bind_wp, wp_gets.
  assert (∀ r m', r mod MBLOCK_SIZE = 0 ∧ grown m m' r (MBLOCK_SIZE * n) ∧ os_frame m m' →
    wpb (modify (set_next_request (r + MBLOCK_SIZE * n));; mret r)
     (λ r m', r mod MBLOCK_SIZE = 0 ∧ grown m m' r (MBLOCK_SIZE * n) ∧ os_frame m m' ∧
       next_request m' = r + MBLOCK_SIZE * n) m') as Hend.
  { intros r m' (Hal & Hg & Hf). apply wpb_wp. do 3 wp_step. split_and!; [done|done| |done].
    eapply os_frame_trans; [exact Hf|]. exists (os m'), (r + MBLOCK_SIZE * n). by destruct m'. }
  apply wpb_bind. destruct (next_request m =? 0).
  - eapply wpb_mono; [by apply gen_map_ok|]. intros r m' Hr. by apply Hend.
  - apply wpb_bind. eapply wpb_mono; [apply my_mmap_ok; paged|]. intros r m1 (Hpage & Hg & Hf1). rewrite slop_mod.
    destruct (r mod MBLOCK_SIZE =? 0) eqn:E; cbn [negb].
    + apply Z.eqb_eq in E. apply wpb_wp, wp_ret. by apply Hend.
    + apply wpb_bind_wp. eapply wp_mono; [apply munmap_ok'; [done|paged]|]. intros b m2 [Hf2 Hm2].
      destruct b; cbn [negb]; [|apply wpb_barf]. specialize (Hm2 eq_refl).
      eapply wpb_mono; [by apply gen_map_ok|]. intros r' m' (Hal & (H1 & H2 & H3 & H4) & Hf3).
      destruct Hg as (Hr & Hmax & Hnew & Hmap).
      assert (∀ x, mapped (os m2) x ↔ mapped (os m) x) as Hsame.
      { intros x. rewrite Hm2, Hmap. specialize (Hnew x). tauto. }
      apply Hend. split_and!; [done| |].
      * split_and!; [done|done|intros x Hx; rewrite <- Hsame; by apply H3|]. intros x. by rewrite H4, Hsame.
      * eapply os_frame_trans; [exact Hf1|]. by eapply os_frame_trans.
Qed.
End os.

(** ** Allocating and freeing megablocks *)
Section alloc.
Context {OS : Type} `{OsMemLaws OS}.
Implicit Types (m : mstate OS).

Lemma mm_inv_frame m m' : os_frame m m' → mm_inv m → mm_inv m'.
Proof. intros (o & nr & ->) []. by constructor. Qed.

Lemma mark_ok p m :
  mm_inv m → mb_ok (mb_of p) → wp (markHeapAlloced p) (λ _ m', marked m (mb_of p) 1 m') m.
Proof. intros. apply setHeapAlloced_ok; auto. Qed.
Lemma unmark_ok p m :
  mm_inv m → mb_ok (mb_of p) → wp (markHeapUnalloced p) (λ _ m', marked m (mb_of p) 0 m') m.
Proof. intros. apply setHeapAlloced_ok; auto. Qed.

Lemma aligned_range r n :
  r mod MBLOCK_SIZE = 0 → 0 <= r → 0 < n → r + MBLOCK_SIZE * n <= 2 ^ 48 →
  0 <= mb_of r ∧ mb_of r + n <= 2 ^ 28 ∧ r = mb_of r * MBLOCK_SIZE.
Proof.
  intros Ha Hr Hn Hmax. unfold mb_of. assert (MBLOCK_SIZE = 2 ^ 20) as ES by done.
  pose proof (Z.div_mod r MBLOCK_SIZE). split; [apply Z.div_pos; lia|]. lia.
Qed.

Lemma getMBlocks_ok n m :
  mm_inv m → 0 < n → MBLOCK_SIZE * n < 2 ^ 48 →
  wpb (getMBlocks n) (λ r m', r mod MBLOCK_SIZE = 0 ∧ grown m m' r (MBLOCK_SIZE * n) ∧ mm_inv m' ∧
    mblocks_allocated m' = wrapU 64 (mblocks_allocated m + n) ∧
    ∀ mb, mb_ok mb → in_heap (mblock_maps m') mb ↔
      mb_of r <= mb < mb_of r + Z.min n 4096 ∨ in_heap (mblock_maps m) mb) m.
Proof.
  intros Hi Hn Hsz. unfold getMBlocks. apply wpb_bind. eapply wpb_mono; [by apply osGetMBlocks_ok|].
  intros r m1 (Ha & Hg & Hf & _). assert (Hg' := Hg). destruct Hg' as (Hr & Hmax & _ & _).
  destruct (aligned_range r n) as (Hb0 & Hb & _); [done|lia|done..|].
  apply wpb_wp. wp_step. eapply wp_mono.
  { apply (for_mblocks_ok m1 r n _ 1); [intros; by apply mark_ok|by eapply mm_inv_frame|lia|done|done|lia]. }
  intros u m2 (Hi2 & (Eos & _ & Eal & _) & Hh). do 4 wp_step. wp_step. split_and!; [done| | | |].
  - unfold grown in *. cbn. by rewrite Eos.
  - destruct Hi2. by constructor.
  - cbn. rewrite Eal. destruct Hf as (o & nr & ->). done.
  - intros mb Hmb. cbn. rewrite (Hh mb Hmb). destruct Hf as (o & nr & ->). cbn. case_bool_decide; tauto.
Qed.

Lemma freeMBlocks_ok addr n m :
  mm_inv m → 0 < n → addr mod MBLOCK_SIZE = 0 → 0 <= addr → addr + MBLOCK_SIZE * n <= 2 ^ 48 →
  wp (freeMBlocks addr n) (λ _ m', mm_inv m' ∧
    mblocks_allocated m' = wrapU 64 (mblocks_allocated m - n) ∧
    (∀ mb, mb_ok mb → in_heap (mblock_maps m') mb ↔
      ¬ mb_of addr <= mb < mb_of addr + Z.min n 4096 ∧ in_heap (mblock_maps m) mb) ∧
    os m' = (munmap addr (wrapU 32 (n * MBLOCK_SIZE)) (os m)).2) m.
Proof.
  intros Hi Hn Ha Hr Hmax. destruct (aligned_range addr n) as (Hb0 & Hb & _); [done..|].
  unfold freeMBlocks. do 2 wp_step. wp_step. eapply wp_mono.
  { apply (for_mblocks_ok _ addr n _ 0); [intros; by apply unmark_ok| |lia|done|done|lia]. destruct Hi. by constructor. }
  intros u m2 (Hi2 & (Eos & _ & Eal & _) & Hh). unfold osFreeMBlocks. wp_step. unfold wp at 1, do_munmap.
  destruct (munmap addr (wrapU 32 (n * MBLOCK_SIZE)) (os m2)) as [b o] eqn:E. wp_step. split_and!.
  - destruct Hi2. by constructor.
  - cbn. by rewrite Eal.
  - intros mb Hmb. cbn. rewrite (Hh mb Hmb). cbn. case_bool_decide; [|tauto]. split; [done|tauto].
  - cbn in *. rewrite Eos in E. by rewrite E.
Qed.
End alloc.

(** ** The walk over the megablocks *)
Section walk.
Context {OS : Type} `{OsMem OS}.
Implicit Types (m : mstate OS) (ms : list MBlockMap).

(** The megablocks of the lines [ls], the first of which is number [k], in a map
    whose top address bits are [hi]. *)
Fixpoint lines_mblocks (hi k : Z) (ls : list Z) : list Z :=
  match ls with
  | [] => []
  | x :: ls => (if x =? 1 then [(hi * 4096 + k) * MBLOCK_SIZE] else []) ++ lines_mblocks hi (k + 1) ls
  end.
Definition map_mblocks (map : MBlockMap) : list Z := lines_mblocks (addrHigh32 map) 0 (lines map).
Definition all_mblocks ms : list Z := ms ≫= map_mblocks.

Lemma line_hit_first x : x = 0 ∨ x = 1 → line_hit x (seq 0 1) = if x =? 1 then Some 0%nat else None.
Proof. by intros [->| ->]. Qed.

Lemma line_hit_none x : line_hit x (seq 1 (Z.to_nat MBC_LINE_SIZE - 1)) = None.
Proof. done. Qed.

Lemma scan_lines_spec hi k ls :
  (∀ x, x ∈ ls → x = 0 ∨ x = 1) → 0 <= k → k + Z.of_nat (length ls) <= 4096 →
  scan_lines ls k 0 hi = head (lines_mblocks hi k ls).
Proof.
  revert k. induction ls as [|x ls IH]; intros k Hx Hk Hlen; [done|]. cbn [scan_lines lines_mblocks length] in *.
  change (seq 0 (Z.to_nat MBC_LINE_SIZE - 0)) with (seq 0 1).
  rewrite line_hit_first by (apply Hx; by left). destruct (x =? 1) eqn:E; cbn [app head].
  - f_equal. unfold MBC_LINE_SIZE, MBC_LINE_BITS, MBLOCK_SIZE, MBLOCK_SHIFT. change (2 ^ 0) with 1.
    rewrite Z.shiftl_mul_pow2 by lia. rewrite wrapU_small by lia. lia.
  - apply IH; [|lia|lia]. intros y Hy. apply Hx. by right.
Qed.

(** From the line after the one of a megablock on. *)
Lemma scan_lines_next hi k x ls :
  (∀ x, x ∈ ls → x = 0 ∨ x = 1) → 0 <= k → k + 1 + Z.of_nat (length ls) <= 4096 →
  scan_lines (x :: ls) k 1 hi = head (lines_mblocks hi (k + 1) ls).
Proof. intros Hx Hk Hlen. cbn [scan_lines]. rewrite line_hit_none. apply scan_lines_spec; [done|lia|lia]. Qed.

Lemma lines_mblocks_split hi k ls l1 p l2 :
  lines_mblocks hi k ls = l1 ++ p :: l2 →
  ∃ i, (i < length ls)%nat ∧ p = (hi * 4096 + (k + Z.of_nat i)) * MBLOCK_SIZE ∧
    lines_mblocks hi (k + Z.of_nat i + 1) (drop (S i) ls) = l2.
Proof.
  revert k l1. induction ls as [|x ls IH]; intros k l1 E; cbn [lines_mblocks] in E; [by destruct l1|].
  destruct (x =? 1); cbn [app] in E.
  - destruct l1 as [|y l1]; cbn [app] in E; injection E as <- E.
    + exists 0%nat. split; [cbn; lia|]. split; [f_equal; lia|]. cbn. rewrite <- E. f_equal. lia.
    + destruct (IH _ _ E) as (i & Hi & -> & Hl). exists (S i). split; [cbn; lia|]. split; [f_equal; lia|].
      rewrite <- Hl. cbn. f_equal. lia.
  - destruct (IH _ _ E) as (i & Hi & -> & Hl). exists (S i). split; [cbn; lia|]. split; [f_equal; lia|].
    rewrite <- Hl. cbn. f_equal. lia.
Qed.

Lemma head_app_or {A} (l1 l2 : list A) : head (l1 ++ l2) = match head l1 with Some x => Some x | None => head l2 end.
Proof. by destruct l1. Qed.

Lemma bind_split {A B} (f : A → list B) (l : list A) l1 p l2 :
  l ≫= f = l1 ++ p :: l2 → ∃ j x a b, l !! j = Some x ∧ f x = a ++ p :: b ∧ l2 = b ++ (drop (S j) l ≫= f).
Proof.
  revert l1. induction l as [|x l IH]; intros l1 E; cbn in E; [by destruct l1|].
  apply app_eq_app in E as [k [[E1 E2]|[E1 E2]]].
  - destruct k as [|y k]; cbn in E2.
    + destruct (IH [] (eq_sym E2)) as (j & y & a & b & Hj & Hf & ->). exists (S j), y, a, b. by cbn.
    + injection E2 as <- E2. exists 0%nat, x, l1, k. by cbn.
  - destruct (IH k E2) as (j & y & a & b & Hj & Hf & ->). exists (S j), y, a, b. by cbn.
Qed.

Lemma number_bits hi i : 0 <= i < 4096 →
  Z.shiftr ((hi * 4096 + i) * MBLOCK_SIZE) 32 = hi ∧ MBLOCK_MAP_LINE ((hi * 4096 + i) * MBLOCK_SIZE) = i.
Proof.
  intros Hi. rewrite mb_line. unfold mb_of. rewrite Z.div_mul by done. split.
  - rewrite Z.shiftr_div_pow2 by lia. unfold MBLOCK_SIZE, MBLOCK_SHIFT. change (2 ^ 32) with (4096 * 2 ^ 20).
    rewrite Z.div_mul_cancel_r by lia. rewrite Z.div_add_l, Z.div_small by lia. lia.
  - rewrite Z.add_comm, Z.mod_add, Z.mod_small by lia. done.
Qed.

(** Maps after the one of [p] are scanned whole. *)
Lemma scan_maps_rest m js p hi :
  Z.shiftr p 32 = hi → (∀ j, j ∈ js → ∃ map, mblock_maps m !! j = Some map ∧ addrHigh32 map ≠ hi ∧ map_ok map) →
  wp (scan_maps js p) (λ r m', m' = m ∧ r = head (omap (λ j, mblock_maps m !! j) js ≫= map_mblocks)) m.
Proof.
  intros Hp. induction js as [|j js IH]; intros Hjs; cbn [scan_maps]; [by wp_step|].
  destruct (Hjs j) as (map & Hj & Hne & [Hlen Hval]); [by left|]. do 2 wp_step. do 2 wp_step.
  rewrite Hp, (proj2 (Z.eqb_neq _ _) Hne). change (drop (Z.to_nat 0) (lines map)) with (lines map).
  rewrite scan_lines_spec by (done || (rewrite Hlen; lia)). cbn [omap list_omap]. rewrite Hj. cbn [mbind list_bind].
  fold (map_mblocks map). rewrite head_app_or. destruct (head (map_mblocks map)); [by wp_step|].
  apply IH. intros; apply Hjs. by right.
Qed.

Lemma omap_shift {A} (f : nat → option A) (l : list nat) : omap f (S <$> l) = omap (λ i, f (S i)) l.
Proof. induction l as [|x l IH]; [done|]. cbn. destruct (f (S x)); by rewrite <- IH. Qed.

Lemma omap_seq_drop ms j : omap (λ i, ms !! i) (seq j (length ms - j)) = drop j ms.
Proof.
  revert j. induction ms as [|x ms IH]; intros j; [by rewrite drop_nil|]. destruct j as [|j]; cbn.
  - f_equal. rewrite <- (IH 0%nat) at 2. rewrite Nat.sub_0_r, <- fmap_S_seq. by rewrite omap_shift.
  - rewrite <- fmap_S_seq, omap_shift. apply IH.
Qed.

Lemma next_ok m l1 p l2 :
  mm_inv m → all_mblocks (mblock_maps m) = l1 ++ p :: l2 →
  wp (getNextMBlock p) (λ r m', m' = m ∧ r = head l2) m.
Proof.
  intros Hi E. destruct (bind_split _ _ _ _ _ E) as (j & map & a & b & Hj & Hf & ->).
  destruct (mi_maps _ Hi map) as [Hlen Hval]; [by eapply list_elem_of_lookup_2|].
  unfold map_mblocks in Hf. apply lines_mblocks_split in Hf as (i & Hilt & -> & <-). rewrite Hlen in Hilt.
  rewrite Z.add_0_l. set (hi := addrHigh32 map). set (p := (hi * 4096 + Z.of_nat i) * MBLOCK_SIZE).
  destruct (number_bits hi (Z.of_nat i)) as [Hsh Hln]; [lia|]. fold p in Hsh, Hln.
  pose proof (lookup_lt_Some _ _ _ Hj) as Hjlt.
  assert (∀ j' map', mblock_maps m !! j' = Some map' → addrHigh32 map' = hi → j' = j) as Huniq.
  { intros j' map' Hj' Hh. eapply (NoDup_lookup _ _ _ hi); [apply (mi_high _ Hi)|..];
      rewrite list_lookup_fmap; [rewrite Hj'; cbn; by rewrite Hh|by rewrite Hj]. }
  unfold getNextMBlock. do 2 wp_step. wp_step. rewrite (mi_count _ Hi), Hsh.
  eapply wp_mono; [apply wp_find_from|].
  { intros k Hk%elem_of_seq. apply lookup_lt_is_Some. lia. }
  intros r m' [-> Hr]. destruct r as [j'|].
  2: { exfalso. eapply (Hr j map); [apply elem_of_seq; lia|done|done]. }
  destruct Hr as (_ & map' & Hj' & Hh'). assert (j' = j) as -> by by eapply Huniq.
  assert (map' = map) as -> by congruence. clear Hj'.
  replace (length (mblock_maps m) - j)%nat with (S (length (mblock_maps m) - S j)) by lia.
  cbn [seq scan_maps]. do 2 wp_step. do 2 wp_step. fold hi. rewrite Hsh, Z.eqb_refl, Hln, Nat2Z.id.
  change (MBC_LINE_SIZE - 1) with 0. rewrite Z.land_0_r.
  destruct (lookup_lt_is_Some_2 (lines map) i) as [x Hx]; [by rewrite Hlen|].
  rewrite (drop_S _ _ _ Hx). change (S (Z.to_nat 0)) with 1%nat.
  rewrite scan_lines_next; [|intros y [k Hk]%list_elem_of_lookup; rewrite lookup_drop in Hk; by eapply Hval, list_elem_of_lookup_2|lia|rewrite length_drop, Hlen; lia].
  rewrite head_app_or. destruct (head (lines_mblocks hi _ _)); [by wp_step|].
  eapply wp_mono; [apply (scan_maps_rest m _ p hi Hsh)|].
  - intros k Hk%elem_of_seq. destruct (lookup_lt_is_Some_2 (mblock_maps m) k) as [map2 Hk2]; [lia|].
    exists map2. split_and!; [done| |by apply (mi_maps _ Hi), (list_elem_of_lookup_2 _ k)].
    intros E2. apply (Huniq _ _ Hk2) in E2. lia.
  - intros r m' [-> ->]. split; [done|]. by rewrite omap_seq_drop.
Qed.

Lemma first_ok m map ms :
  mm_inv m → mblock_maps m = map :: ms →
  wp getFirstMBlock (λ r m', m' = m ∧ r = head (map_mblocks map)) m.
Proof.
  intros Hi E. destruct (mi_maps _ Hi map) as [Hlen Hval]; [rewrite E; by left|].
  unfold getFirstMBlock. do 4 wp_step. { by rewrite E. } wp_step. split; [done|].
  rewrite scan_lines_spec; [done|done|lia|rewrite Hlen; lia].
Qed.
End walk.
