(* ===== verification/MBlockMain.v ===== *)
(** * Properties of the megablock layer

    HEAP_ALLOCED answers for the set of megablocks of the heap; allocating and
    freeing megablocks changes that set and the address space as they should, up
    to 4096 of them at a time; the walk visits the megablocks of the heap. *)
From S2P Require Import Prelude MBlock MBlockProps.
From stdpp Require Import list gmap.
Local Open Scope Z_scope.

(** ** An operating system

    The address space as the list of the calls made, newest first: a call of mmap
    returns memory above everything mapped before, from byte 4096 on. *)
Module BumpOS.
Definition t : Type := list (bool * Z * Z).
Fixpoint is_mapped (l : t) (x : Z) : Prop :=
  match l with
  | [] => False
  | (true, a, n) :: l => is_mapped l x ∨ a <= x < a + n
  | (false, a, n) :: l => is_mapped l x ∧ ¬ a <= x < a + n
  end.
Fixpoint top (l : t) : Z :=
  match l with
  | [] => 4096
  | (true, a, n) :: l => Z.max (top l) ((a + n + 4095) / 4096 * 4096)
  | (false, _, _) :: l => top l
  end.
Definition do_map (a n : Z) (l : t) : option Z * t :=
  if bool_decide (top l + n <= 2 ^ 48) then (Some (top l), (true, top l, n) :: l) else (None, l).

Lemma round_up n : n <= (n + 4095) / 4096 * 4096 ∧ page_aligned ((n + 4095) / 4096 * 4096).
Proof. split; [pose proof (Z.div_mod (n + 4095) 4096); pose proof (Z.mod_pos_bound (n + 4095) 4096); lia|by apply Z.mod_mul]. Qed.
Lemma top_pos l : 0 < top l.
Proof. induction l as [|[[[] a] n] l IH]; cbn; lia. Qed.
Lemma top_aligned l : page_aligned (top l).
Proof. induction l as [|[[[] a] n] l IH]; cbn; [done| |done]. destruct (Z.max_spec (top l) ((a + n + 4095) / 4096 * 4096)) as [[_ ->]|[_ ->]]; [apply round_up|done]. Qed.
Lemma mapped_top l x : is_mapped l x → x < top l.
Proof.
  induction l as [|[[[] a] n] l IH]; cbn; [done| |]; [|tauto]. pose proof (proj1 (round_up (a + n))). intros [Hx|Hx]; [specialize (IH Hx)|]; lia.
Qed.
End BumpOS.

#[export] Instance bump_os : OsMem BumpOS.t := {
  mmap := BumpOS.do_map;
  munmap a n l := (true, (false, a, n) :: l);
  mapped := BumpOS.is_mapped
}.

#[export] Instance bump_laws : OsMemLaws BumpOS.t.
Proof.
  constructor.
  - intros a n l l' r _. cbn. unfold BumpOS.do_map. case_bool_decide as Hn; [|done]. intros [= <- <-].
    pose proof (BumpOS.top_pos l). split_and!; [apply BumpOS.top_aligned|done|done| |done].
    intros x Hx Hm. apply BumpOS.mapped_top in Hm. lia.
  - intros a n l l' _ _ [= <-]. done.
  - intros a n l l' b _ _ [= <- <-] x Hx. cbn. tauto.
Qed.

Section facts.
Implicit Types (ms : list MBlockMap).

Lemma elem_lines hi k ls p :
  p ∈ lines_mblocks hi k ls ↔ ∃ i, ls !! i = Some 1 ∧ p = (hi * 4096 + (k + Z.of_nat i)) * MBLOCK_SIZE.
Proof.
  revert k. induction ls as [|x ls IH]; intros k; cbn [lines_mblocks].
  { split; [by intros ?%elem_of_nil|by intros (i & ? & _)]. }
  rewrite elem_of_app, IH. split.
  - intros [Hx|(i & Hi & ->)].
    + destruct (x =? 1) eqn:E; [|by apply elem_of_nil in Hx]. apply Z.eqb_eq in E as ->.
      apply list_elem_of_singleton in Hx as ->. exists 0%nat. split; [done|]. f_equal. lia.
    + exists (S i). split; [done|]. f_equal. lia.
  - intros ([|i] & Hi & ->).
    + left. injection Hi as ->. cbn. apply list_elem_of_singleton. f_equal. lia.
    + right. exists i. split; [done|]. f_equal. lia.
Qed.

(** The walk is over the megablocks of the heap. *)
Lemma elem_all ms p :
  (∀ map, map ∈ ms → map_ok map) → p ∈ all_mblocks ms ↔ ∃ mb, in_heap ms mb ∧ p = mb * MBLOCK_SIZE.
Proof.
  intros Hms. unfold all_mblocks. rewrite list_elem_of_bind. split.
  - intros (map & Hp & Hin). unfold map_mblocks in Hp. apply elem_lines in Hp as (i & Hi & ->).
    assert (Z.of_nat i < 4096).
    { apply lookup_lt_Some in Hi. destruct (Hms map Hin) as [Hlen _]. lia. }
    exists (addrHigh32 map * 4096 + Z.of_nat i). split; [|done]. exists map. split_and!; [done| |].
    + rewrite Z.div_add_l, Z.div_small by lia. lia.
    + rewrite Z.add_comm, Z.mod_add, Z.mod_small, Nat2Z.id by lia. done.
  - intros (mb & (map & Hin & Hhi & Hl) & ->). exists map. split; [|done]. unfold map_mblocks.
    apply elem_lines. exists (Z.to_nat (mb mod 4096)). split; [done|]. rewrite Hhi.
    pose proof (Z.mod_pos_bound mb 4096). pose proof (Z.div_mod mb 4096). f_equal. lia.
Qed.
End facts.

(** C22: The HEAP_ALLOCED test is exact.  For an address of the 48-bit space the
    answer is 1 if the megablock of the address is marked in the map, and 0 if
    not; the 32-bit cache never makes it stale, and the test keeps the map and
    the coherence of the cache. *)
Theorem HEAP_ALLOCED_correct {OS} `{OsMem OS} (m : mstate OS) p :
  mm_inv m → 0 <= p < 2 ^ 48 →
  wp (HEAP_ALLOCED p) (λ r m', (r = 0 ∨ r = 1) ∧ (r = 1 ↔ in_heap (mblock_maps m) (p / 2 ^ 20)) ∧
    mm_inv m' ∧ mblock_maps m' = mblock_maps m) m.
Proof.
  intros Hi Hp. eapply wp_mono; [apply (heap_alloced_ok m p Hi)|].
  - unfold mb_ok, mb_of, MBLOCK_SIZE, MBLOCK_SHIFT. split; [apply Z.div_pos; lia|]. apply Z.div_lt_upper_bound; lia.
  - intros r m' [[H1 H2] H3]. done.
Qed.

(** [getMBlocks] either stops with an out-of-memory error, or returns an
    aligned region of [n] megablocks that was not mapped before and is now, and
    the megablocks of the region join the heap; but no more than the first 4096
    do, since the offset [i * MBLOCK_SIZE] is a 32-bit product. *)
Theorem getMBlocks_marks {OS} `{OsMemLaws OS} (m : mstate OS) n :
  mm_inv m → 0 < n < 2 ^ 28 →
  wpb (getMBlocks n) (λ r m', r mod 2 ^ 20 = 0 ∧ grown m m' r (2 ^ 20 * n) ∧ mm_inv m' ∧
    mblocks_allocated m' = wrapU 64 (mblocks_allocated m + n) ∧
    ∀ mb, 0 <= mb < 2 ^ 28 → in_heap (mblock_maps m') mb ↔
      r / 2 ^ 20 <= mb < r / 2 ^ 20 + Z.min n 4096 ∨ in_heap (mblock_maps m) mb) m.
Proof. intros Hi Hn. apply getMBlocks_ok; [done|lia|]. unfold MBLOCK_SIZE, MBLOCK_SHIFT. lia. Qed.

(** [freeMBlocks] takes megablocks out of the heap, but at most 4096 of them,
    and gives back to the operating system [n mod 4096] megablocks only: both the
    offsets and the length passed to munmap are 32-bit products. *)
Theorem freeMBlocks_unmaps {OS} `{OsMemLaws OS} (m : mstate OS) addr n :
  mm_inv m → 0 < n → addr mod 2 ^ 20 = 0 → 0 < addr → addr + 2 ^ 20 * n <= 2 ^ 48 →
  wp (freeMBlocks addr n) (λ _ m', mm_inv m' ∧
    mblocks_allocated m' = wrapU 64 (mblocks_allocated m - n) ∧
    (∀ mb, 0 <= mb < 2 ^ 28 → in_heap (mblock_maps m') mb ↔
      ¬ addr / 2 ^ 20 <= mb < addr / 2 ^ 20 + Z.min n 4096 ∧ in_heap (mblock_maps m) mb) ∧
    os m' = (munmap addr (n mod 4096 * 2 ^ 20) (os m)).2) m.
Proof.
  intros Hi Hn Ha Hr Hmax. eapply wp_mono; [apply freeMBlocks_ok; done || lia|]. cbn beta. intros _ m' (H1 & H2 & H3 & ->).
  split_and!; [done|done|done|]. unfold wrapU, MBLOCK_SIZE, MBLOCK_SHIFT.
  change (2 ^ 32) with (4096 * 2 ^ 20). by rewrite Z.mul_mod_distr_r by lia.
Qed.

(** The walk.  [getNextMBlock] takes a megablock of the heap to the next one
    in the order of the maps, and to NULL after the last; the list it walks holds
    exactly the megablocks of the heap. *)
Theorem getNextMBlock_walk {OS} `{OsMem OS} (m : mstate OS) l1 p l2 :
  mm_inv m → all_mblocks (mblock_maps m) = l1 ++ p :: l2 →
  wp (getNextMBlock p) (λ r m', m' = m ∧ r = head l2 ∧
    ∀ q, q ∈ l1 ++ p :: l2 ↔ ∃ mb, in_heap (mblock_maps m) mb ∧ q = mb * 2 ^ 20) m.
Proof.
  intros Hi E. eapply wp_mono; [by eapply next_ok|]. intros r m' [-> ->]. split_and!; [done|done|].
  intros q. rewrite <- E. apply elem_all. apply Hi.
Qed.

(** [getFirstMBlock] looks at the first map only.  When the megablocks of the
    first 4Gb region that was used have all been freed it returns NULL, whatever
    the other maps hold. *)
Theorem getFirstMBlock_first_map {OS} `{OsMem OS} (m : mstate OS) map ms :
  mm_inv m → mblock_maps m = map :: ms →
  wp getFirstMBlock (λ r m', m' = m ∧ r = head (map_mblocks map)) m.
Proof. apply first_ok. Qed.

(** ** Concrete states *)
Module MBlockDemo.
Definition empty : mstate BumpOS.t :=
  mkM [] 0 [] 0 (replicate (Z.to_nat MBC_ENTRIES) 4294967295) 0 0 0.

Lemma empty_inv : mm_inv empty.
Proof.
  constructor; cbn; [done|constructor|by intros map ?%elem_of_nil|by rewrite length_replicate|].
  intros mb e Hmb He. apply lookup_replicate_1 in He as [-> _]. unfold mb_ok in Hmb.
  split; [lia|]. split; intros; lia.
Qed.

(** Megablock 4097, in the second 4Gb region, after the first map was emptied. *)
Definition line1 (i : nat) : list Z := <[i := 1]> (replicate (Z.to_nat MBLOCK_MAP_ENTRIES) 0).
Definition two_maps (ls : list Z) : mstate BumpOS.t :=
  mkM [] 0 [mkMap 0 ls; mkMap 1 (line1 1)] 2
    (replicate (Z.to_nat MBC_ENTRIES) 4294967295) 1 1 0.

Lemma line1_ok hi i : map_ok (mkMap hi (line1 i)).
Proof.
  split; cbn; [by unfold line1; rewrite length_insert, length_replicate|]. unfold line1.
  intros x [k Hk]%list_elem_of_lookup. destruct (decide (k = i)) as [->|].
  - destruct (decide (i < Z.to_nat MBLOCK_MAP_ENTRIES)%nat).
    + rewrite list_lookup_insert_eq in Hk by (by rewrite length_replicate). injection Hk as <-. by right.
    + rewrite list_insert_ge in Hk by (rewrite length_replicate; lia). apply lookup_replicate_1 in Hk as [-> _]. by left.
  - rewrite list_lookup_insert_ne in Hk by done. apply lookup_replicate_1 in Hk as [-> _]. by left.
Qed.

Lemma two_maps_inv ls : map_ok (mkMap 0 ls) → mm_inv (two_maps ls).
Proof.
  intros Hls. constructor; cbn; [done| | |by rewrite length_replicate|].
  - apply NoDup_cons. split; [by intros ?%list_elem_of_singleton|apply NoDup_singleton].
  - intros map [->|[->|[]%elem_of_nil]%elem_of_cons]%elem_of_cons; [done|apply line1_ok].
  - intros mb e Hmb He. apply lookup_replicate_1 in He as [-> _]. unfold mb_ok in Hmb.
    split; [lia|]. split; intros; lia.
Qed.
End MBlockDemo.

Lemma HEAP_ALLOCED_correct_witness :
  wp (HEAP_ALLOCED (4097 * 2 ^ 20 + 12)) (λ r m', (r = 0 ∨ r = 1) ∧
    (r = 1 ↔ in_heap (mblock_maps (MBlockDemo.two_maps (MBlockDemo.line1 0))) ((4097 * 2 ^ 20 + 12) / 2 ^ 20)) ∧
    mm_inv m' ∧ mblock_maps m' = mblock_maps (MBlockDemo.two_maps (MBlockDemo.line1 0)))
    (MBlockDemo.two_maps (MBlockDemo.line1 0)).
Proof.
  apply HEAP_ALLOCED_correct; [apply MBlockDemo.two_maps_inv, MBlockDemo.line1_ok|lia].
Defined.

Lemma getMBlocks_marks_witness :
  wpb (getMBlocks 3) (λ r m', r mod 2 ^ 20 = 0 ∧ grown MBlockDemo.empty m' r (2 ^ 20 * 3) ∧ mm_inv m' ∧
    mblocks_allocated m' = wrapU 64 (0 + 3) ∧
    ∀ mb, 0 <= mb < 2 ^ 28 → in_heap (mblock_maps m') mb ↔
      r / 2 ^ 20 <= mb < r / 2 ^ 20 + Z.min 3 4096 ∨ in_heap [] mb) MBlockDemo.empty ∧
  match getMBlocks 3 MBlockDemo.empty with Ok (r, _) => r = 2 ^ 20 | Err _ => False end.
Proof.
  split; [exact (getMBlocks_marks MBlockDemo.empty 3 MBlockDemo.empty_inv ltac:(lia))|].
  vm_compute. reflexivity.
Defined.

Lemma freeMBlocks_unmaps_witness :
  wp (freeMBlocks (4097 * 2 ^ 20) 1) (λ _ m', mm_inv m' ∧
    mblocks_allocated m' = wrapU 64 (1 - 1) ∧
    (∀ mb, 0 <= mb < 2 ^ 28 → in_heap (mblock_maps m') mb ↔
      ¬ 4097 * 2 ^ 20 / 2 ^ 20 <= mb < 4097 * 2 ^ 20 / 2 ^ 20 + Z.min 1 4096 ∧
      in_heap (mblock_maps (MBlockDemo.two_maps (MBlockDemo.line1 0))) mb) ∧
    os m' = (munmap (4097 * 2 ^ 20) (1 mod 4096 * 2 ^ 20) []).2)
    (MBlockDemo.two_maps (MBlockDemo.line1 0)).
Proof.
  apply (freeMBlocks_unmaps (MBlockDemo.two_maps (MBlockDemo.line1 0)));
    [apply MBlockDemo.two_maps_inv, MBlockDemo.line1_ok|lia|by vm_compute|lia|lia].
Defined.

Lemma getNextMBlock_walk_witness :
  wp (getNextMBlock 0) (λ r m', m' = MBlockDemo.two_maps (MBlockDemo.line1 0) ∧ r = Some (4097 * 2 ^ 20) ∧
    ∀ q, q ∈ [] ++ 0 :: [4097 * 2 ^ 20] ↔
      ∃ mb, in_heap (mblock_maps (MBlockDemo.two_maps (MBlockDemo.line1 0))) mb ∧ q = mb * 2 ^ 20)
    (MBlockDemo.two_maps (MBlockDemo.line1 0)).
Proof.
  apply (getNextMBlock_walk (MBlockDemo.two_maps (MBlockDemo.line1 0)) [] 0 [4097 * 2 ^ 20]);
    [apply MBlockDemo.two_maps_inv, MBlockDemo.line1_ok|vm_compute; reflexivity].
Defined.

Lemma getFirstMBlock_first_map_witness :
  wp getFirstMBlock (λ r m', m' = MBlockDemo.two_maps (replicate (Z.to_nat MBLOCK_MAP_ENTRIES) 0) ∧
    r = head (map_mblocks (mkMap 0 (replicate (Z.to_nat MBLOCK_MAP_ENTRIES) 0))))
    (MBlockDemo.two_maps (replicate (Z.to_nat MBLOCK_MAP_ENTRIES) 0)) ∧
  map_mblocks (mkMap 0 (replicate (Z.to_nat MBLOCK_MAP_ENTRIES) 0)) = [] ∧
  all_mblocks (mblock_maps (MBlockDemo.two_maps (replicate (Z.to_nat MBLOCK_MAP_ENTRIES) 0))) = [4097 * 2 ^ 20].
Proof.
  split; [|split; vm_compute; reflexivity].
  apply (getFirstMBlock_first_map (MBlockDemo.two_maps (replicate (Z.to_nat MBLOCK_MAP_ENTRIES) 0)) _
    [mkMap 1 (MBlockDemo.line1 1)]); [|reflexivity].
  apply MBlockDemo.two_maps_inv. split; [by vm_compute|]. cbn. intros x [-> _]%elem_of_replicate. by left.
Defined.
