(* ===== verification/BlockAlloc.v ===== *)
(** * The block allocator (rts/sm/BlockAlloc.c, includes/rts/storage/Block.h)

    Groups of 4Kb blocks, their descriptors, the free lists of small groups (a
    bucket per power of two, doubly linked), the address-ordered free list of
    megablock groups, and the debugging and statistics functions over them, on
    top of the megablock layer of [MBlock].

    A pointer to a descriptor is its address, so that [bd + k] is [bd] plus
    [k * 64].  The store [bds] holds the descriptors that have been written;
    the contents of memory that was never written (or was unmapped since) is the
    parameter [junk], about which nothing is known.  Reading or writing through
    NULL is [BadPointer].  The data in the blocks, and so the memset of freed and
    allocated groups in sanity-checking runs, are not modelled. *)
From S2P Require Import Prelude DList MBlock.
From stdpp Require Import list gmap.
Local Open Scope Z_scope.

(** ** Constants and address arithmetic *)
Definition BLOCK_SHIFT : Z := 12.
Definition BLOCK_SIZE : Z := 2 ^ BLOCK_SHIFT.
Definition BLOCK_SIZE_W : Z := BLOCK_SIZE / 8.
Definition BLOCK_MASK : Z := BLOCK_SIZE - 1.
Definition BLOCK_ROUND_UP (p : Z) : Z := Z.land (p + BLOCK_SIZE - 1) (Z.lnot BLOCK_MASK).
Definition BLOCK_ROUND_DOWN (p : Z) : Z := Z.land p (Z.lnot BLOCK_MASK).
Definition MBLOCK_SIZE_W : Z := MBLOCK_SIZE / 8.
Definition MBLOCK_ROUND_UP (p : Z) : Z := Z.land (wrapU 64 (p + MBLOCK_SIZE - 1)) (Z.lnot MBLOCK_MASK).
Definition MBLOCK_ROUND_DOWN (p : Z) : Z := Z.land p (Z.lnot MBLOCK_MASK).
Definition BDESCR_SIZE : Z := 64.
Definition BDESCR_SHIFT : Z := 6.
Definition BF_KNOWN : Z := 128.
Definition FIRST_BLOCK_OFF : Z := BLOCK_ROUND_UP (BDESCR_SIZE * (MBLOCK_SIZE / BLOCK_SIZE)).
Definition FIRST_BLOCK (m : Z) : Z := FIRST_BLOCK_OFF + m.
Definition LAST_BLOCK (m : Z) : Z := MBLOCK_SIZE - BLOCK_SIZE + m.
Definition FIRST_BDESCR (m : Z) : ptr := Z.shiftr FIRST_BLOCK_OFF (BLOCK_SHIFT - BDESCR_SHIFT) + m.
Definition LAST_BDESCR (m : Z) : ptr := Z.shiftr (MBLOCK_SIZE - BLOCK_SIZE) (BLOCK_SHIFT - BDESCR_SHIFT) + m.
Definition BLOCKS_PER_MBLOCK : Z := (MBLOCK_SIZE - FIRST_BLOCK_OFF) / BLOCK_SIZE.

(** The product has the width [w] of the macro's argument (a [nat] or a
    [StgWord]), the sum has 64 bits. *)
Definition MBLOCK_GROUP_BLOCKS (w n : Z) : Z :=
  wrapU 64 (BLOCKS_PER_MBLOCK + wrapU w (wrapU w (n - 1) * (MBLOCK_SIZE / BLOCK_SIZE))).
Definition BLOCKS_TO_MBLOCKS (n : Z) : Z :=
  1 + MBLOCK_ROUND_UP (wrapU 64 (wrapU 64 (n - BLOCKS_PER_MBLOCK) * BLOCK_SIZE)) / MBLOCK_SIZE.

(** The descriptor of the block of an address. *)
Definition Bdescr (p : Z) : ptr :=
  Z.lor (Z.shiftr (Z.land (Z.land p MBLOCK_MASK) (Z.lnot BLOCK_MASK)) (BLOCK_SHIFT - BDESCR_SHIFT))
    (Z.land p (Z.lnot MBLOCK_MASK)).

(** [(StgPtr)(-1)], in the [free] field of the head of a free group. *)
Definition FREE : Z := 2 ^ 64 - 1.
(** [bd + k] *)
Definition bd_add (bd : ptr) (k : Z) : ptr := bd + BDESCR_SIZE * k.

(** Sizes of large allocations, in words. *)
Definition round_to_mblocks (words : Z) : Z :=
  if BLOCKS_PER_MBLOCK * BLOCK_SIZE_W <? words then
    let words := wrapU 64 (words + FIRST_BLOCK_OFF / 8) in
    let words := if words `mod` MBLOCK_SIZE_W <? MBLOCK_SIZE_W / 2
                 then words / MBLOCK_SIZE_W * MBLOCK_SIZE_W
                 else wrapU 64 ((words / MBLOCK_SIZE_W + 1) * MBLOCK_SIZE_W) in
    wrapU 64 (words - FIRST_BLOCK_OFF / 8)
  else words.
Definition round_up_to_mblocks (words : Z) : Z :=
  let words := wrapU 64 (words + FIRST_BLOCK_OFF / 8) in
  let words := wrapU 64 ((words / MBLOCK_SIZE_W + 1) * MBLOCK_SIZE_W) in
  wrapU 64 (words - FIRST_BLOCK_OFF / 8).

(** ** State *)

(** [back] is the union [u]. *)
Record bdescr : Type := mkBd {
  start : Z;
  free : Z;
  link : ptr;
  back : ptr;
  gen : ptr;
  gen_no : Z;
  dest_no : Z;
  flags : Z;
  blocks : Z
}.

Definition set_start x d : bdescr := mkBd x (free d) (link d) (back d) (gen d) (gen_no d) (dest_no d) (flags d) (blocks d).
Definition set_free x d : bdescr := mkBd (start d) x (link d) (back d) (gen d) (gen_no d) (dest_no d) (flags d) (blocks d).
Definition set_link x d : bdescr := mkBd (start d) (free d) x (back d) (gen d) (gen_no d) (dest_no d) (flags d) (blocks d).
Definition set_back x d : bdescr := mkBd (start d) (free d) (link d) x (gen d) (gen_no d) (dest_no d) (flags d) (blocks d).
Definition set_gen x y d : bdescr := mkBd (start d) (free d) (link d) (back d) x y (dest_no d) (flags d) (blocks d).
Definition set_flags x d : bdescr := mkBd (start d) (free d) (link d) (back d) (gen d) (gen_no d) (dest_no d) x (blocks d).
(** 32 bits *)
Definition set_blocks x d : bdescr := mkBd (start d) (free d) (link d) (back d) (gen d) (gen_no d) (dest_no d) (flags d) (wrapU 32 x).

Record ba (OS : Type) : Type := mkBA {
  bds : gmap ptr bdescr;
  free_list : list ptr;
  free_mblock_list : ptr;
  n_alloc_blocks : Z;
  hw_alloc_blocks : Z;
  sm_mutex : bool;
  mbs : mstate OS
}.
Arguments mkBA {OS}.
Arguments bds {OS}.
Arguments free_list {OS}.
Arguments free_mblock_list {OS}.
Arguments n_alloc_blocks {OS}.
Arguments hw_alloc_blocks {OS}.
Arguments sm_mutex {OS}.
Arguments mbs {OS}.

Section ba_setters.
Context {OS : Type}.
Implicit Types s : ba OS.
Definition set_bds x s : ba OS := mkBA x (free_list s) (free_mblock_list s) (n_alloc_blocks s) (hw_alloc_blocks s) (sm_mutex s) (mbs s).
Definition set_free_list x s : ba OS := mkBA (bds s) x (free_mblock_list s) (n_alloc_blocks s) (hw_alloc_blocks s) (sm_mutex s) (mbs s).
Definition set_free_mblock_list x s : ba OS := mkBA (bds s) (free_list s) x (n_alloc_blocks s) (hw_alloc_blocks s) (sm_mutex s) (mbs s).
Definition set_n_alloc x s : ba OS := mkBA (bds s) (free_list s) (free_mblock_list s) x (hw_alloc_blocks s) (sm_mutex s) (mbs s).
Definition set_hw_alloc x s : ba OS := mkBA (bds s) (free_list s) (free_mblock_list s) (n_alloc_blocks s) x (sm_mutex s) (mbs s).
Definition set_sm_mutex x s : ba OS := mkBA (bds s) (free_list s) (free_mblock_list s) (n_alloc_blocks s) (hw_alloc_blocks s) x (mbs s).
Definition set_mbs x s : ba OS := mkBA (bds s) (free_list s) (free_mblock_list s) (n_alloc_blocks s) (hw_alloc_blocks s) (sm_mutex s) x.
End ba_setters.

Section blockalloc.
Context {OS : Type} `{OsMem OS}.
(** What memory holds before it is written. *)
Variable junk : ptr → bdescr.
(** The run-time flag -DS. *)
Variable sanity : bool.
Notation prog := (prog (ba OS)).

Definition rd (s : ba OS) (p : ptr) : bdescr := default (junk p) (bds s !! p).

(** [*p] and an assignment to fields of [*p] *)
Definition ld (p : ptr) : prog bdescr := λ s,
  if p =? END then Err BadPointer else Ok (rd s p, s).
Definition upd (p : ptr) (f : bdescr → bdescr) : prog unit := λ s,
  if p =? END then Err BadPointer else Ok (tt, set_bds (<[p := f (rd s p)]> (bds s)) s).

(** A call of the megablock layer. *)
Definition in_mbs {A} (m : Prelude.prog (mstate OS) A) : prog A := λ s,
  match m (mbs s) with
  | Ok (a, x) => Ok (a, set_mbs x s)
  | Err e => Err e
  end.

(** [*list], where [list] is the address of an element of [free_list] *)
Definition get_list (ln : nat) : prog ptr := fl ← gets free_list; deref (fl !! ln).
Definition set_list (ln : nat) (bd : ptr) : prog unit :=
  _ ← get_list ln;
  modify (λ s, set_free_list (<[ln := bd]> (free_list s)) s).

(** The bound of a walk along [link]: the number of descriptors in the store. *)
Definition fuel_of (s : ba OS) : nat := S (size (bds s)).

(** The storage manager lock; one thread runs, so that a second acquisition would
    block for ever. *)
Definition ACQUIRE_SM_LOCK : prog unit :=
  l ← gets sm_mutex;
  if l : bool then fail Diverges else modify (set_sm_mutex true).
Definition RELEASE_SM_LOCK : prog unit := modify (set_sm_mutex false).

(** ** Doubly linked lists of descriptors *)
Definition dbl_link_onto (bd : ptr) (list : nat) : prog unit :=
  l ← get_list list;
  upd bd (set_link l);;
  upd bd (set_back END);;
  when (negb (l =? END)) (upd l (set_back bd));;
  set_list list bd.

Definition dbl_link_remove (bd : ptr) (list : nat) : prog unit :=
  d ← ld bd;
  (if negb (back d =? END) then upd (back d) (set_link (link d)) else set_list list (link d));;
  d ← ld bd;
  when (negb (link d =? END)) (upd (link d) (set_back (back d))).

Definition dbl_link_insert_after (bd after : ptr) : prog unit :=
  a ← ld after;
  upd bd (set_link (link a));;
  upd bd (set_back after);;
  a ← ld after;
  when (negb (link a =? END)) (upd (link a) (set_back bd));;
  upd after (set_link bd).

Definition dbl_link_replace (new old : ptr) (list : nat) : prog unit :=
  o ← ld old;
  upd new (set_link (link o));;
  o ← ld old;
  upd new (set_back (back o));;
  o ← ld old;
  when (negb (link o =? END)) (upd (link o) (set_back new));;
  o ← ld old;
  if negb (back o =? END) then upd (back o) (set_link new) else set_list list new.

(** ** Initialisation *)
Definition MAX_FREE_LIST : nat := 9.

Definition initBlockAllocator : prog unit :=
  modify (set_free_list (replicate MAX_FREE_LIST END));;
  modify (set_free_mblock_list END);;
  modify (set_n_alloc 0);;
  modify (set_hw_alloc 0).

Definition initGroup (head : ptr) : prog unit :=
  d ← ld head;
  upd head (λ d, set_free (start d) d);;
  upd head (set_link END);;
  for_each (seq 1 (Z.to_nat (blocks d) - 1)) (λ i,
    let bd := bd_add head (Z.of_nat i) in
    upd bd (set_free 0);;
    upd bd (set_blocks 0);;
    upd bd (set_link head)).

Definition initMBlock (mblock : Z) : prog unit :=
  for_each (seq 0 (Z.to_nat BLOCKS_PER_MBLOCK)) (λ i,
    upd (bd_add (FIRST_BDESCR mblock) (Z.of_nat i))
      (set_start (FIRST_BLOCK mblock + BLOCK_SIZE * Z.of_nat i))).

(** The loops of the logarithms: [idx] is the rest of the range of [i]. *)
Fixpoint log_2_ceil_loop (idx : list nat) (x n : Z) : nat :=
  match idx with
  | [] => MAX_FREE_LIST
  | i :: idx => if n <=? x then i else log_2_ceil_loop idx (wrapU 32 (Z.shiftl x 1)) n
  end.
Definition log_2_ceil (n : Z) : nat := log_2_ceil_loop (seq 0 MAX_FREE_LIST) 1 n.

Fixpoint log_2_loop (idx : list nat) (x : Z) : nat :=
  match idx with
  | [] => MAX_FREE_LIST
  | i :: idx => let x := Z.shiftr x 1 in if x =? 0 then i else log_2_loop idx x
  end.
Definition log_2 (n : Z) : nat := log_2_loop (seq 0 MAX_FREE_LIST) n.

(** ** Small groups *)
Definition free_list_insert (bd : ptr) : prog unit :=
  d ← ld bd;
  ASSERT (blocks d <? BLOCKS_PER_MBLOCK);;
  dbl_link_onto bd (log_2 (blocks d)).

Definition tail_of (bd : ptr) : prog ptr :=
  d ← ld bd;
  mret (bd_add (bd_add bd (blocks d)) (-1)).

Definition setup_tail (bd : ptr) : prog unit :=
  tail ← tail_of bd;
  when (negb (tail =? bd)) (
    upd tail (set_blocks 0);;
    upd tail (set_free 0);;
    upd tail (set_link bd)).

Definition split_free_block (bd : ptr) (n : Z) (ln : nat) : prog ptr :=
  d ← ld bd;
  ASSERT (n <? blocks d);;
  dbl_link_remove bd ln;;
  d ← ld bd;
  let fg := bd_add (bd_add bd (blocks d)) (- n) in
  upd fg (set_blocks n);;
  upd bd (λ d, set_blocks (blocks d - n) d);;
  setup_tail bd;;
  d ← ld bd;
  dbl_link_onto bd (log_2 (blocks d));;
  mret fg.

(** ** Sanity checks *)
Definition check_tail (bd : ptr) : prog unit :=
  tail ← tail_of bd;
  when (negb (tail =? bd)) (
    t ← ld tail;
    ASSERT (blocks t =? 0);;
    ASSERT (free t =? 0);;
    ASSERT (link t =? bd)).

(** The checks of one group of the bucket whose smallest size is [min]. *)
Definition check_group (min : Z) (prev bd : ptr) : prog unit :=
  d ← ld bd;
  ASSERT (free d =? FREE);;
  ASSERT ((0 <? blocks d) && (blocks d <? BLOCKS_PER_MBLOCK));;
  ASSERT ((min <=? blocks d) && (blocks d <=? wrapU 32 (min * 2 - 1)));;
  ASSERT (negb (link d =? bd));;
  check_tail bd;;
  (if negb (prev =? END) then ASSERT (back d =? prev) else ASSERT (back d =? END));;
  let next := bd_add bd (blocks d) in
  when (next <=? LAST_BDESCR (MBLOCK_ROUND_DOWN bd)) (
    x ← ld next;
    ASSERT (negb (free x =? FREE))).

Fixpoint check_bucket (fuel : nat) (min : Z) (prev bd : ptr) : prog unit :=
  if bd =? END then mret tt else
  match fuel with
  | O => fail Diverges
  | S fuel =>
    check_group min prev bd;;
    d ← ld bd;
    check_bucket fuel min bd (link d)
  end.

(** The checks of one megablock group. *)
Definition check_mega (bd : ptr) : prog unit :=
  d ← ld bd;
  ASSERT (negb (link d =? bd));;
  when (negb (link d =? END)) (
    x ← ld (link d);
    ASSERT (start d <? start x));;
  ASSERT (BLOCKS_PER_MBLOCK <=? blocks d);;
  ASSERT (MBLOCK_GROUP_BLOCKS 64 (BLOCKS_TO_MBLOCKS (blocks d)) =? blocks d);;
  when (negb (link d =? END)) (
    ASSERT (negb (MBLOCK_ROUND_DOWN (link d) =?
      wrapU 64 (MBLOCK_ROUND_DOWN bd + wrapU 64 (BLOCKS_TO_MBLOCKS (blocks d) * MBLOCK_SIZE))))).

Fixpoint check_megas (fuel : nat) (bd : ptr) : prog unit :=
  if bd =? END then mret tt else
  match fuel with
  | O => fail Diverges
  | S fuel =>
    check_mega bd;;
    d ← ld bd;
    check_megas fuel (link d)
  end.

Definition checkFreeListSanity : prog unit :=
  fuel ← gets fuel_of;
  for_each (seq 0 MAX_FREE_LIST) (λ ln,
    bd ← get_list ln;
    check_bucket fuel (Z.shiftl 1 (Z.of_nat ln)) END bd);;
  bd ← gets free_mblock_list;
  check_megas fuel bd.

(** ** Megablock groups *)

(** The search: an exact fit is unlinked and returned ([inl]), otherwise the
    best group that is too big is found ([inr]). *)
Fixpoint mega_scan (fuel : nat) (n : Z) (best prev bd : ptr) : prog (ptr + ptr) :=
  if bd =? END then mret (inr best) else
  match fuel with
  | O => fail Diverges
  | S fuel =>
    d ← ld bd;
    if blocks d =? n then
      (if negb (prev =? END) then upd prev (set_link (link d))
       else modify (set_free_mblock_list (link d)));;
      initGroup bd;;
      mret (inl bd)
    else
      best ←
        (if n <? blocks d then
           if best =? END then mret bd
           else b ← ld best; mret (if blocks d <? blocks b then bd else best)
         else mret best);
      mega_scan fuel n best bd (link d)
  end.

Definition alloc_mega_group (mblocks : Z) : prog ptr :=
  let n := wrapU 32 (MBLOCK_GROUP_BLOCKS 32 mblocks) in
  fuel ← gets fuel_of;
  bd ← gets free_mblock_list;
  r ← mega_scan fuel n END END bd;
  match r with
  | inl bd => mret bd
  | inr best =>
    bd ←
      (if negb (best =? END) then
         d ← ld best;
         let best_mblocks := BLOCKS_TO_MBLOCKS (blocks d) in
         let bd := FIRST_BDESCR (MBLOCK_ROUND_DOWN best +
                     wrapU 64 (wrapU 64 (best_mblocks - mblocks) * MBLOCK_SIZE)) in
         upd best (set_blocks (MBLOCK_GROUP_BLOCKS 64 (wrapU 64 (best_mblocks - mblocks))));;
         initMBlock (MBLOCK_ROUND_DOWN bd);;
         mret bd
       else
         mblock ← in_mbs (getMBlocks mblocks);
         initMBlock mblock;;
         mret (FIRST_BDESCR mblock));
    upd bd (set_blocks (MBLOCK_GROUP_BLOCKS 32 mblocks));;
    mret bd
  end.

Definition coalesce_mblocks (p : ptr) : prog ptr :=
  d ← ld p;
  let q := link d in
  if negb (q =? END) &&
     (MBLOCK_ROUND_DOWN q =?
      wrapU 64 (MBLOCK_ROUND_DOWN p + wrapU 64 (BLOCKS_TO_MBLOCKS (blocks d) * MBLOCK_SIZE)))
  then
    e ← ld q;
    upd p (set_blocks (MBLOCK_GROUP_BLOCKS 64
      (wrapU 64 (BLOCKS_TO_MBLOCKS (blocks d) + BLOCKS_TO_MBLOCKS (blocks e)))));;
    e ← ld q;
    upd p (set_link (link e));;
    mret p
  else mret q.

(** The place of [mg] in the list: the group before it and the one after it. *)
Fixpoint mega_place (fuel : nat) (mg prev bd : ptr) : prog (ptr * ptr) :=
  if bd =? END then mret (prev, bd) else
  match fuel with
  | O => fail Diverges
  | S fuel =>
    d ← ld bd;
    e ← ld mg;
    if start d <? start e then mega_place fuel mg bd (link d) else mret (prev, bd)
  end.

Definition free_mega_group (mg : ptr) : prog unit :=
  fuel ← gets fuel_of;
  bd ← gets free_mblock_list;
  r ← mega_place fuel mg END bd;
  let prev := r.1 in
  mg ←
    (if negb (prev =? END) then
       p ← ld prev;
       upd mg (set_link (link p));;
       upd prev (set_link mg);;
       coalesce_mblocks prev
     else
       l ← gets free_mblock_list;
       upd mg (set_link l);;
       modify (set_free_mblock_list mg);;
       mret mg);
  _ ← coalesce_mblocks mg;
  when sanity checkFreeListSanity.

(** ** Freeing *)

(** "coalesce forwards": [false] when a whole megablock was freed. *)
Definition coalesce_forwards (p : ptr) : prog bool :=
  d ← ld p;
  let next := bd_add p (blocks d) in
  if next <=? LAST_BDESCR (MBLOCK_ROUND_DOWN p) then
    x ← ld next;
    if free x =? FREE then
      upd p (set_blocks (blocks d + blocks x));;
      x ← ld next;
      dbl_link_remove next (log_2 (blocks x));;
      d ← ld p;
      if blocks d =? BLOCKS_PER_MBLOCK then free_mega_group p;; mret false
      else setup_tail p;; mret true
    else mret true
  else mret true.

(** "coalesce backwards": the group to put on a free list, [None] when a whole
    megablock was freed. *)
Definition coalesce_backwards (p : ptr) : prog (option ptr) :=
  if negb (p =? FIRST_BDESCR (MBLOCK_ROUND_DOWN p)) then
    let prev := bd_add p (-1) in
    x ← ld prev;
    prev ← (if blocks x =? 0 then mret (link x) else mret prev);
    x ← ld prev;
    if free x =? FREE then
      dbl_link_remove prev (log_2 (blocks x));;
      d ← ld p;
      upd prev (λ x, set_blocks (blocks x + blocks d) x);;
      x ← ld prev;
      if BLOCKS_PER_MBLOCK <=? blocks x then free_mega_group prev;; mret None
      else mret (Some prev)
    else mret (Some p)
  else mret (Some p).

Definition freeGroup (p : ptr) : prog unit :=
  d ← ld p;
  ASSERT (negb (free d =? FREE));;
  upd p (set_free FREE);;
  upd p (set_gen END 0);;
  if blocks d =? 0 then fail Barf
  else if BLOCKS_PER_MBLOCK <=? blocks d then
    let mblocks := wrapU 32 (BLOCKS_TO_MBLOCKS (blocks d)) in
    ASSERT (blocks d =? MBLOCK_GROUP_BLOCKS 32 mblocks);;
    modify (λ s, set_n_alloc (wrapU 64 (n_alloc_blocks s - mblocks * BLOCKS_PER_MBLOCK)) s);;
    free_mega_group p
  else
    n ← gets n_alloc_blocks;
    ASSERT (blocks d <=? n);;
    modify (λ s, set_n_alloc (wrapU 64 (n_alloc_blocks s - blocks d)) s);;
    b ← coalesce_forwards p;
    if b : bool then
      r ← coalesce_backwards p;
      match r with
      | Some p =>
        setup_tail p;;
        free_list_insert p;;
        when sanity checkFreeListSanity
      | None => mret tt
      end
    else mret tt.

Definition freeGroup_lock (p : ptr) : prog unit :=
  ACQUIRE_SM_LOCK;; freeGroup p;; RELEASE_SM_LOCK.

Fixpoint free_chain (fuel : nat) (bd : ptr) : prog unit :=
  if bd =? END then mret tt else
  match fuel with
  | O => fail Diverges
  | S fuel =>
    d ← ld bd;
    freeGroup bd;;
    free_chain fuel (link d)
  end.
Definition freeChain (bd : ptr) : prog unit := fuel ← gets fuel_of; free_chain fuel bd.
Definition freeChain_lock (bd : ptr) : prog unit :=
  ACQUIRE_SM_LOCK;; freeChain bd;; RELEASE_SM_LOCK.

(** ** Allocation *)
Definition bump_hw : prog unit :=
  modify (λ s, if hw_alloc_blocks s <? n_alloc_blocks s then set_hw_alloc (n_alloc_blocks s) s else s).

(** [while (ln < MAX_FREE_LIST && free_list[ln] == NULL) ln++] *)
Fixpoint find_bucket (lns : list nat) : prog nat :=
  match lns with
  | [] => mret MAX_FREE_LIST
  | ln :: lns => bd ← get_list ln; if bd =? END then find_bucket lns else mret ln
  end.

(** A fresh megablock is cut in two, and the slop freed. *)
Definition alloc_from_mblock (n : Z) : prog ptr :=
  bd ← alloc_mega_group 1;
  upd bd (set_blocks n);;
  initGroup bd;;
  let rem := bd_add bd n in
  upd rem (set_blocks (BLOCKS_PER_MBLOCK - n));;
  initGroup rem;;
  r ← ld rem;
  modify (λ s, set_n_alloc (wrapU 64 (n_alloc_blocks s + blocks r)) s);;
  freeGroup rem;;
  mret bd.

Definition alloc_from_bucket (n : Z) (ln : nat) : prog ptr :=
  bd ← get_list ln;
  d ← ld bd;
  if blocks d =? n then
    dbl_link_remove bd ln;;
    initGroup bd;;
    mret bd
  else if n <? blocks d then
    bd ← split_free_block bd n ln;
    d ← ld bd;
    ASSERT (blocks d =? n);;
    initGroup bd;;
    mret bd
  else fail Barf.

Definition allocGroup (n : Z) : prog ptr :=
  if n =? 0 then fail Barf else
  bd ←
    (if BLOCKS_PER_MBLOCK <=? n then
       let mblocks := wrapU 32 (BLOCKS_TO_MBLOCKS n) in
       modify (λ s, set_n_alloc (wrapU 64 (n_alloc_blocks s + mblocks * BLOCKS_PER_MBLOCK)) s);;
       bump_hw;;
       bd ← alloc_mega_group mblocks;
       initGroup bd;;
       mret bd
     else
       modify (λ s, set_n_alloc (wrapU 64 (n_alloc_blocks s + n)) s);;
       bump_hw;;
       let ln := log_2_ceil n in
       ln ← find_bucket (seq ln (MAX_FREE_LIST - ln));
       if (ln =? MAX_FREE_LIST)%nat then alloc_from_mblock n else alloc_from_bucket n ln);
  when sanity checkFreeListSanity;;
  mret bd.

Definition allocGroup_lock (n : Z) : prog ptr :=
  ACQUIRE_SM_LOCK;; bd ← allocGroup n; RELEASE_SM_LOCK;; mret bd.
Definition allocBlock : prog ptr := allocGroup 1.
Definition allocBlock_lock : prog ptr :=
  ACQUIRE_SM_LOCK;; bd ← allocBlock; RELEASE_SM_LOCK;; mret bd.

(** ** Statistics *)
Fixpoint count_chain (f : Z → Z → Z) (fuel : nat) (n : Z) (bd : ptr) : prog Z :=
  if bd =? END then mret n else
  match fuel with
  | O => fail Diverges
  | S fuel => d ← ld bd; count_chain f fuel (f n (blocks d)) (link d)
  end.

Definition countBlocks (bd : ptr) : prog Z :=
  fuel ← gets fuel_of;
  count_chain (λ n b, wrapU 32 (n + b)) fuel 0 bd.

(** The extra blocks of the second and later megablocks of a group are not
    counted. *)
Definition count_allocd (n b : Z) : Z :=
  let n := wrapU 32 (n + b) in
  if BLOCKS_PER_MBLOCK <? b
  then wrapU 32 (n - (MBLOCK_SIZE / BLOCK_SIZE - BLOCKS_PER_MBLOCK) * (b / (MBLOCK_SIZE / BLOCK_SIZE)))
  else n.
Definition countAllocdBlocks (bd : ptr) : prog Z :=
  fuel ← gets fuel_of;
  count_chain count_allocd fuel 0 bd.

Fixpoint count_buckets (lns : list nat) (total : Z) : prog Z :=
  match lns with
  | [] => mret total
  | ln :: lns =>
    fuel ← gets fuel_of;
    bd ← get_list ln;
    total ← count_chain (λ n b, wrapU 64 (n + b)) fuel total bd;
    count_buckets lns total
  end.
Definition countFreeList : prog Z :=
  total ← count_buckets (seq 0 MAX_FREE_LIST) 0;
  fuel ← gets fuel_of;
  bd ← gets free_mblock_list;
  total ← count_chain (λ n b, wrapU 64 (n + wrapU 64 (BLOCKS_PER_MBLOCK * BLOCKS_TO_MBLOCKS b))) fuel total bd;
  mret (wrapU 32 total).

Fixpoint mark_chain (fuel : nat) (bd : ptr) : prog unit :=
  if bd =? END then mret tt else
  match fuel with
  | O => fail Diverges
  | S fuel =>
    upd bd (λ d, set_flags (Z.lor (flags d) BF_KNOWN) d);;
    d ← ld bd;
    mark_chain fuel (link d)
  end.
Definition markBlocks (bd : ptr) : prog unit := fuel ← gets fuel_of; mark_chain fuel bd.

(** ** Returning memory *)

(** The descriptors of unmapped memory are gone. *)
Definition forget (addr size : Z) (s : ba OS) : ba OS :=
  set_bds (filter (λ pd : ptr * bdescr, ¬ addr <= pd.1 < addr + size) (bds s)) s.

(** [newSize * MBLOCK_SIZE] is a product of 32-bit integers. *)
Fixpoint return_loop (fuel : nat) (n : Z) (bd : ptr) : prog ptr :=
  if (n <=? 0) || (bd =? END) then mret bd else
  match fuel with
  | O => fail Diverges
  | S fuel =>
    d ← ld bd;
    let size := wrapU 32 (BLOCKS_TO_MBLOCKS (blocks d)) in
    if n <? size then
      let newSize := size - n in
      let freeAddr := MBLOCK_ROUND_DOWN (start d) + wrapU 32 (newSize * MBLOCK_SIZE) in
      upd bd (set_blocks (MBLOCK_GROUP_BLOCKS 32 newSize));;
      in_mbs (freeMBlocks freeAddr n);;
      modify (forget freeAddr (wrapU 32 (n * MBLOCK_SIZE)));;
      mret bd
    else
      let freeAddr := MBLOCK_ROUND_DOWN (start d) in
      in_mbs (freeMBlocks freeAddr size);;
      modify (forget freeAddr (wrapU 32 (size * MBLOCK_SIZE)));;
      return_loop fuel (n - size) (link d)
  end.
Definition returnMemoryToOS (n : Z) : prog unit :=
  fuel ← gets fuel_of;
  bd ← gets free_mblock_list;
  bd ← return_loop fuel n bd;
  modify (set_free_mblock_list bd);;
  in_mbs osReleaseFreeMemory.

(** ** Leaks *)

(** The blocks of one megablock; the result is what is printed and the megablock
    to go on from. *)
Fixpoint report_mblock (fuel : nat) (mblock : Z) (bd : ptr) : prog (list ptr * Z) :=
  if negb (bd <=? LAST_BDESCR mblock) then mret ([], mblock) else
  match fuel with
  | O => fail Diverges
  | S fuel =>
    d ← ld bd;
    let out := if (Z.land (flags d) BF_KNOWN =? 0) && negb (free d =? FREE) then [bd] else [] in
    if BLOCKS_PER_MBLOCK <=? blocks d then
      mret (out, mblock + wrapU 64 ((BLOCKS_TO_MBLOCKS (blocks d) - 1) * MBLOCK_SIZE))
    else
      r ← report_mblock fuel mblock (bd_add bd (blocks d));
      mret (out ++ r.1, r.2)
  end.
Fixpoint report_loop (fuel : nat) (mblock : option Z) : prog (list ptr) :=
  match mblock, fuel with
  | None, _ => mret []
  | Some _, O => fail Diverges
  | Some mblock, S fuel =>
    r ← report_mblock (Z.to_nat BLOCKS_PER_MBLOCK) mblock (FIRST_BDESCR mblock);
    next ← in_mbs (getNextMBlock r.2);
    out ← report_loop fuel next;
    mret (r.1 ++ out)
  end.
Definition reportUnmarkedBlocks : prog (list ptr) :=
  mblock ← in_mbs getFirstMBlock;
  c ← in_mbs (gets mblock_map_count);
  report_loop (S (c * Z.to_nat MBLOCK_MAP_ENTRIES)) mblock.
End blockalloc.
