(* ===== verification/BlockArith.v ===== *)
(** * Blocks, descriptors and logarithms

    A block of the heap is named by its number (its address divided by the block
    size); [desc b] is the address of its descriptor.  This file reduces the
    address arithmetic of Block.h to arithmetic on block numbers, and proves the
    logarithms of the free lists. *)
From S2P Require Import Prelude DList MBlock BlockAlloc.
From stdpp Require Import list gmap.
Local Open Scope Z_scope.

(** The descriptor of block [b] of the address space. *)
Definition desc (b : Z) : ptr := b / 256 * 1048576 + 64 * (b `mod` 256).

(** Linear arithmetic with divisions by constants. *)
Ltac zlia := Z.to_euclidean_division_equations; lia.

Section arith.
Implicit Types b p n m : Z.

Lemma land_lnot_ones p k : 0 <= k → Z.land p (Z.lnot (2 ^ k - 1)) = p - p `mod` 2 ^ k.
Proof.
  intros Hk.
  replace (2 ^ k - 1) with (Z.ones k) by (rewrite Z.ones_equiv; lia).
  rewrite <- Z.ldiff_land, Z.ldiff_ones_r, Z.shiftl_mul_pow2, Z.shiftr_div_pow2 by lia.
  pose proof (Z.div_mod p (2 ^ k)) as E. lia.
Qed.

Lemma round_down p : MBLOCK_ROUND_DOWN p = p - p `mod` 1048576.
Proof. apply (land_lnot_ones p 20). lia. Qed.

Lemma first_bdescr m : FIRST_BDESCR m = m + 256.
Proof. unfold FIRST_BDESCR. change (Z.shiftr FIRST_BLOCK_OFF (BLOCK_SHIFT - BDESCR_SHIFT)) with 256. lia. Qed.
Lemma last_bdescr m : LAST_BDESCR m = m + 16320.
Proof. unfold LAST_BDESCR. change (Z.shiftr (MBLOCK_SIZE - BLOCK_SIZE) (BLOCK_SHIFT - BDESCR_SHIFT)) with 16320. lia. Qed.
Lemma first_block m : FIRST_BLOCK m = m + 16384.
Proof. unfold FIRST_BLOCK. change FIRST_BLOCK_OFF with 16384. lia. Qed.
Lemma bpm : BLOCKS_PER_MBLOCK = 252.
Proof. done. Qed.

(** ** Descriptors *)
Lemma desc_round b : MBLOCK_ROUND_DOWN (desc b) = b / 256 * 1048576.
Proof. rewrite round_down. unfold desc. zlia. Qed.

Lemma desc_add b i : 0 <= b `mod` 256 + i < 256 → bd_add (desc b) i = desc (b + i).
Proof. intros H. unfold bd_add, desc, BDESCR_SIZE. zlia. Qed.

Lemma desc_inj b b' : desc b = desc b' → b = b'.
Proof. unfold desc. zlia. Qed.

Lemma desc_pos b : 0 <= b → 4 <= b `mod` 256 → 0 < desc b.
Proof. unfold desc. zlia. Qed.

Lemma desc_lt b b' : b < b' → desc b < desc b'.
Proof. unfold desc. zlia. Qed.

Lemma desc_first x : FIRST_BDESCR (x * 1048576) = desc (256 * x + 4).
Proof. rewrite first_bdescr. unfold desc. zlia. Qed.

Lemma desc_in_first b : desc b = FIRST_BDESCR (MBLOCK_ROUND_DOWN (desc b)) ↔ b `mod` 256 = 4.
Proof. rewrite desc_round, first_bdescr. unfold desc. zlia. Qed.

Lemma next_in_mblock b n :
  0 <= n → bd_add (desc b) n <= LAST_BDESCR (MBLOCK_ROUND_DOWN (desc b)) ↔ b `mod` 256 + n < 256.
Proof. intros Hn. rewrite desc_round, last_bdescr. unfold bd_add, BDESCR_SIZE, desc. zlia. Qed.

(** The descriptor of an address of block [b]. *)
Lemma bdescr_desc b i : 0 <= b → 0 <= i < 4096 → Bdescr (4096 * b + i) = desc b.
Proof.
  intros Hb Hi. unfold Bdescr, MBLOCK_MASK, BLOCK_MASK, MBLOCK_SIZE, BLOCK_SIZE, BLOCK_SHIFT, BDESCR_SHIFT, MBLOCK_SHIFT.
  rewrite !land_lnot_ones by lia. change (2 ^ 20 - 1) with (Z.ones 20). rewrite Z.land_ones by lia.
  change (2 ^ 20) with 1048576. change (2 ^ 12) with 4096.
  set (p := 4096 * b + i). rewrite Z.shiftr_div_pow2 by lia. change (2 ^ (12 - 6)) with 64.
  pose proof (Z.div_mod b 256 ltac:(done)) as Eb. pose proof (Z.mod_pos_bound b 256 ltac:(done)).
  assert (p `mod` 1048576 = 4096 * (b `mod` 256) + i) as ->.
  { symmetry. apply (Z.mod_unique _ _ (b / 256)); unfold p; lia. }
  assert ((4096 * (b `mod` 256) + i) `mod` 4096 = i) as ->.
  { symmetry. apply (Z.mod_unique _ _ (b `mod` 256)); lia. }
  replace (4096 * (b `mod` 256) + i - i) with (64 * (b `mod` 256) * 64) by lia. rewrite Z.div_mul by lia.
  replace (p - (4096 * (b `mod` 256) + i)) with (b / 256 * 1048576) by (unfold p; lia).
  assert (Z.land (64 * (b `mod` 256)) (b / 256 * 1048576) = 0) as H0.
  { generalize dependent (b `mod` 256). intros r _ Hr. generalize (b / 256). intros q.
    change 1048576 with (2 ^ 20). rewrite <- Z.shiftl_mul_pow2 by lia.
    apply Z.bits_inj_iff'. intros k Hk. rewrite Z.land_spec, Z.bits_0, Z.shiftl_spec by lia.
    destruct (decide (k < 20)) as [Hlt|Hge].
    - rewrite (Z.testbit_neg_r _ (k - 20)) by lia. apply andb_false_r.
    - rewrite (Z.bits_above_log2 (64 * r)); [done|lia|].
      destruct (decide (r = 0)) as [->|]; [change (Z.log2 (64 * 0)) with 0; lia|].
      apply Z.log2_lt_pow2; [lia|]. apply Z.lt_le_trans with (2 ^ 20); [lia|]. apply Z.pow_le_mono_r; lia. }
  rewrite <- Z.lxor_lor, <- Z.add_nocarry_lxor by done. unfold desc. lia.
Qed.

(** ** Sizes *)

(** The sizes of megablock groups. *)
Definition mega_size (n : Z) : Prop := 252 <= n ∧ n `mod` 256 = 252.
Definition mblocks_of (n : Z) : Z := n / 256 + 1.

Lemma blocks_to_mblocks n : 252 <= n < 2 ^ 33 → BLOCKS_TO_MBLOCKS n = (n + 3) / 256 + 1.
Proof.
  intros Hn. unfold BLOCKS_TO_MBLOCKS, MBLOCK_ROUND_UP, MBLOCK_MASK. rewrite bpm.
  change BLOCK_SIZE with 4096. change MBLOCK_SIZE with 1048576.
  rewrite (wrapU_small 64 (n - 252)) by lia. rewrite (wrapU_small 64 ((n - 252) * 4096)) by lia.
  rewrite wrapU_small by lia. change (1048576 - 1) with (2 ^ 20 - 1). rewrite land_lnot_ones by lia.
  change (2 ^ 20) with 1048576. zlia.
Qed.

Lemma mega_mblocks n : mega_size n → n < 2 ^ 33 → BLOCKS_TO_MBLOCKS n = mblocks_of n.
Proof. intros [H1 H2] H3. rewrite blocks_to_mblocks by lia. unfold mblocks_of. zlia. Qed.

Lemma mega_mblocks_val n : mega_size n → n = 256 * mblocks_of n - 4 ∧ 1 <= mblocks_of n.
Proof. unfold mega_size, mblocks_of. zlia. Qed.

Lemma group_blocks_64 j : 1 <= j <= 2 ^ 30 → MBLOCK_GROUP_BLOCKS 64 j = 256 * j - 4.
Proof.
  intros Hj. unfold MBLOCK_GROUP_BLOCKS. rewrite bpm. change (MBLOCK_SIZE / BLOCK_SIZE) with 256.
  rewrite (wrapU_small 64 (j - 1)), (wrapU_small 64 (_ * _)), wrapU_small by lia. lia.
Qed.

Lemma group_blocks_32 j : 1 <= j <= 2 ^ 24 → MBLOCK_GROUP_BLOCKS 32 j = 256 * j - 4.
Proof.
  intros Hj. unfold MBLOCK_GROUP_BLOCKS. rewrite bpm. change (MBLOCK_SIZE / BLOCK_SIZE) with 256.
  rewrite (wrapU_small 32 (j - 1)), (wrapU_small 32 (_ * _)), wrapU_small by lia. lia.
Qed.

(** One more megablock, and the 32-bit product is lost: a request of more than
    16Tb is served with 252 blocks. *)
Lemma group_blocks_overflow : MBLOCK_GROUP_BLOCKS 32 (2 ^ 24 + 1) = 252.
Proof. done. Qed.

(** ** Logarithms *)
Lemma range_check (P : Z → bool) (k : nat) n :
  forallb P (Z.of_nat <$> seq 0 k) = true → 0 <= n < Z.of_nat k → P n = true.
Proof.
  intros H Hn. rewrite forallb_forall in H. apply H. apply in_map_iff. exists (Z.to_nat n).
  split; [lia|]. apply in_seq. lia.
Qed.

Lemma log_2_spec n : 0 < n < 512 →
  (log_2 n < MAX_FREE_LIST)%nat ∧ 2 ^ Z.of_nat (log_2 n) <= n < 2 ^ (Z.of_nat (log_2 n) + 1).
Proof.
  intros Hn.
  assert ((n =? 0) || ((log_2 n <? MAX_FREE_LIST)%nat && (2 ^ Z.of_nat (log_2 n) <=? n) &&
            (n <? 2 ^ (Z.of_nat (log_2 n) + 1))) = true) as H.
  { apply (range_check (λ n, (n =? 0) || ((log_2 n <? MAX_FREE_LIST)%nat && (2 ^ Z.of_nat (log_2 n) <=? n) &&
            (n <? 2 ^ (Z.of_nat (log_2 n) + 1)))) 512); [by vm_compute|lia]. }
  apply orb_true_iff in H as [H|H]; [lia|]. rewrite !andb_true_iff, Nat.ltb_lt in H. lia.
Qed.

Lemma log_2_ceil_spec n : 0 < n <= 256 →
  (log_2_ceil n < MAX_FREE_LIST)%nat ∧ n <= 2 ^ Z.of_nat (log_2_ceil n) ∧
  (log_2_ceil n ≠ 0%nat → 2 ^ (Z.of_nat (log_2_ceil n) - 1) < n).
Proof.
  intros Hn.
  assert ((n =? 0) || ((log_2_ceil n <? MAX_FREE_LIST)%nat && (n <=? 2 ^ Z.of_nat (log_2_ceil n)) &&
            ((log_2_ceil n =? 0)%nat || (2 ^ (Z.of_nat (log_2_ceil n) - 1) <? n))) = true) as H.
  { apply (range_check (λ n, (n =? 0) || ((log_2_ceil n <? MAX_FREE_LIST)%nat && (n <=? 2 ^ Z.of_nat (log_2_ceil n)) &&
            ((log_2_ceil n =? 0)%nat || (2 ^ (Z.of_nat (log_2_ceil n) - 1) <? n)))) 257); [by vm_compute|lia]. }
  apply orb_true_iff in H as [H|H]; [lia|]. rewrite !andb_true_iff, Nat.ltb_lt, orb_true_iff, Nat.eqb_eq in H. lia.
Qed.

(** A group whose bucket is at or above the rounded-up logarithm is big enough. *)
Lemma log_2_fits n k ln :
  0 < n <= 256 → 0 < k < 512 → log_2 k = ln → (log_2_ceil n <= ln)%nat → n <= k.
Proof.
  intros Hn Hk <- Hle. destruct (log_2_ceil_spec n Hn) as (_ & H1 & _). destruct (log_2_spec k Hk) as (_ & H2 & _).
  eapply Z.le_trans; [exact H1|]. eapply Z.le_trans; [|exact H2]. apply Z.pow_le_mono_r; lia.
Qed.
End arith.
