(* ===== verification/BlockMem.v ===== *)
(** * Descriptors in memory, and their linked lists

    The effect of writes on the contents of memory, the frame of an operation
    that relinks descriptors, and the doubly linked lists of Block.h as lists of
    descriptors. *)
From S2P Require Import Prelude DList MBlock BlockAlloc.
From stdpp Require Import list gmap.
Local Open Scope Z_scope.

(** What a relinking operation leaves alone. *)
Definition core (d : bdescr) : bdescr := set_link END (set_back END d).

Section mem.
Context {OS : Type} `{OsMem OS}.
Variable junk : ptr → bdescr.
Notation rd := (rd junk).
Implicit Types s : ba OS.

(** The state after a write through [p]. *)
Definition wr (s : ba OS) (p : ptr) (f : bdescr → bdescr) : ba OS :=
  set_bds (<[p := f (rd s p)]> (bds s)) s.

Lemma rd_wr s p f q : rd (wr s p f) q = if decide (q = p) then f (rd s p) else rd s q.
Proof.
  unfold BlockAlloc.rd, wr. cbn. case_decide as E; [subst; by rewrite lookup_insert_eq|].
  by rewrite lookup_insert_ne.
Qed.

Lemma rd_wr_eq s p f : rd (wr s p f) p = f (rd s p).
Proof. by rewrite rd_wr, decide_True. Qed.
Lemma rd_wr_ne s p f q : q ≠ p → rd (wr s p f) q = rd s q.
Proof. intros. by rewrite rd_wr, decide_False. Qed.

Lemma wp_ld p Q s : p ≠ END → Q (rd s p) s → wp (ld junk p) Q s.
Proof. intros Hp HQ. unfold wp, ld. by rewrite (proj2 (Z.eqb_neq p END) Hp). Qed.

Lemma wp_upd p f Q s : p ≠ END → Q tt (wr s p f) → wp (upd junk p f) Q s.
Proof. intros Hp HQ. unfold wp, upd. by rewrite (proj2 (Z.eqb_neq p END) Hp). Qed.

Lemma wp_in_mbs {A} (m : prog (mstate OS) A) Q s :
  wp m (λ a x, Q a (set_mbs x s)) (mbs s) → wp (in_mbs m) Q s.
Proof. unfold wp, in_mbs. by destruct (m (mbs s)) as [[a x]|]. Qed.
Lemma wpb_in_mbs {A} (m : prog (mstate OS) A) Q s :
  wpb m (λ a x, Q a (set_mbs x s)) (mbs s) → wpb (in_mbs m) Q s.
Proof. unfold wpb, in_mbs. by destruct (m (mbs s)) as [[a x]|]. Qed.

(** ** Frames *)
Definition rest (s : ba OS) := (free_mblock_list s, n_alloc_blocks s, hw_alloc_blocks s, sm_mutex s, mbs s).

(** Only link fields of the descriptors [X], and heads of [free_list], change. *)
Record relinked (X : list ptr) (s s' : ba OS) : Prop := {
  rl_rest : rest s' = rest s;
  rl_dom : dom (bds s) ⊆ dom (bds s');
  rl_core q : core (rd s' q) = core (rd s q);
  rl_out q : q ∉ X → rd s' q = rd s q
}.

Lemma relinked_refl X s : relinked X s s.
Proof. by constructor. Qed.

Lemma relinked_trans X s1 s2 s3 : relinked X s1 s2 → relinked X s2 s3 → relinked X s1 s3.
Proof.
  intros [R1 D1 C1 O1] [R2 D2 C2 O2]. constructor; [congruence|set_solver| |].
  - intros q. by rewrite C2.
  - intros q Hq. by rewrite O2, O1.
Qed.

Lemma relinked_mono X Y s s' : (∀ x, x ∈ X → x ∈ Y) → relinked X s s' → relinked Y s s'.
Proof. intros Hs [R D C O]. constructor; [done..|]. intros q Hq. apply O. auto. Qed.

Lemma dom_wr s p f : dom (bds s) ⊆ dom (bds (wr s p f)).
Proof. unfold wr. cbn. rewrite dom_insert_L. set_solver. Qed.

Lemma relinked_wr X s p f : p ∈ X → (∀ d, core (f d) = core d) → relinked X s (wr s p f).
Proof.
  intros Hp Hf. constructor; [done|apply dom_wr| |].
  - intros q. rewrite rd_wr. case_decide; [by subst|done].
  - intros q Hq. apply rd_wr_ne. by intros ->.
Qed.

Lemma relinked_fl X s l : relinked X s (set_free_list l s).
Proof. by constructor. Qed.

Lemma core_eq d d' : core d = core d' →
  start d = start d' ∧ free d = free d' ∧ blocks d = blocks d' ∧ gen d = gen d' ∧ flags d = flags d'.
Proof. unfold core. destruct d, d'; cbn. by intros [= -> -> -> -> -> -> ->]. Qed.

(** ** Lists *)
Definition nx (s : ba OS) : ptr → option ptr := λ p, Some (link (rd s p)).
Definition pv (s : ba OS) : ptr → option ptr := λ p, Some (back (rd s p)).
Definition bucket (s : ba OS) (ln : nat) (L : list ptr) : Prop :=
  ∃ hd tl, free_list s !! ln = Some hd ∧ dlist (nx s) (pv s) hd tl L.

Lemma bucket_frame X s s' ln L :
  relinked X s s' → free_list s' !! ln = free_list s !! ln → (∀ x, x ∈ L → x ∉ X) →
  bucket s ln L → bucket s' ln L.
Proof.
  intros HR Hfl HX (hd & tl & Hhd & Hd & Hnd). exists hd, tl. split; [by rewrite Hfl|]. split; [|done].
  eapply dlseg_ext; [|done]. intros x Hx. unfold nx, pv. by rewrite (rl_out _ _ _ HR x) by auto.
Qed.

Lemma wp_get_list ln L Q s :
  bucket s ln L → (∀ hd tl, free_list s !! ln = Some hd → dlist (nx s) (pv s) hd tl L → Q hd s) →
  wp (get_list ln) Q s.
Proof. intros (hd & tl & Hhd & Hd) HQ. unfold get_list. do 2 wp_step. eapply wp_deref; [done|]. eauto. Qed.

Lemma wp_set_list ln bd hd Q s :
  free_list s !! ln = Some hd → Q tt (set_free_list (<[ln := bd]> (free_list s)) s) → wp (set_list ln bd) Q s.
Proof.
  intros Hhd HQ. unfold set_list, get_list. do 3 wp_step. eapply wp_deref; [done|]. apply wp_modify, HQ.
Qed.

Lemma lookup_set_fl s ln (bd hd : ptr) :
  free_list s !! ln = Some hd → <[ln := bd]> (free_list s) !! ln = Some bd.
Proof. intros E. apply list_lookup_insert_eq. by eapply lookup_lt_Some. Qed.

(** ** Pushing *)
Lemma link_onto_ok s ln L bd :
  bucket s ln L → bd ∉ L → bd ≠ END →
  wp (dbl_link_onto junk bd ln) (λ _ s', bucket s' ln (bd :: L) ∧ relinked (bd :: L) s s' ∧
    free_list s' = <[ln := bd]> (free_list s)) s.
Proof.
  intros Hb Hbd Hne. unfold dbl_link_onto. wp_step. apply (wp_get_list ln L _ _ Hb). intros hd tl Hhd Hd.
  wp_step. apply wp_upd; [done|]. wp_step. apply wp_upd; [done|].
  set (s1 := wr (wr s bd (set_link hd)) bd (set_back END)). wp_step.
  assert (relinked (bd :: L) s s1) as R1.
  { eapply relinked_trans; apply relinked_wr; [by left|done|by left|done]. }
  assert (rd s1 bd = set_back END (set_link hd (rd s bd))) as Eb by (unfold s1; by rewrite !rd_wr_eq).
  assert (∀ q, q ≠ bd → rd s1 q = rd s q) as Eo by (intros q Hq; unfold s1; by rewrite !rd_wr_ne).
  assert (hd = END ∧ L = [] ∨ hd ≠ END ∧ hd ∈ L) as Hcase.
  { destruct Hd as [Hd _]. destruct (dlseg_head _ _ _ _ _ _ _ Hd) as [(-> & -> & _)|(l' & -> & ? & _)];
      [by left|right; split; [done|by left]]. }
  apply (wp_mono _ (λ _ s2, ∃ tl', dlist (nx s2) (pv s2) bd tl' (bd :: L) ∧ relinked (bd :: L) s1 s2 ∧
    free_list s2 = free_list s)).
  - destruct Hcase as [[-> ->]|[Hh Hin]].
    + change (negb (END =? END)) with false. apply wp_ret. exists bd. split_and!; [|apply relinked_refl|done].
      split; [|apply NoDup_singleton]. cbn. split_and!; [done|done|unfold pv; by rewrite Eb|].
      exists END. unfold nx. by rewrite Eb.
    + rewrite (proj2 (Z.eqb_neq hd END) Hh). cbn [negb when]. apply wp_upd; [done|].
      set (s2 := wr s1 hd (set_back bd)).
      assert (hd ≠ bd) as Hhb by (by intros ->).
      assert (nx s2 bd = Some hd) as Hn1 by (unfold nx, s2; by rewrite rd_wr_ne, Eb).
      assert (pv s2 bd = Some END) as Hp1 by (unfold pv, s2; by rewrite rd_wr_ne, Eb).
      destruct (dlist_push (nx s) (pv s) (nx s2) (pv s2) hd tl L bd) as [tl' Hd']; [done..| | | |].
      * intros x Hx. unfold nx, s2. rewrite rd_wr. assert (x ≠ bd) by (by intros ->).
        case_decide; [subst x; cbn; by rewrite Eo|by rewrite Eo].
      * intros x Hx Hxh. unfold pv, s2. rewrite rd_wr_ne by done. rewrite Eo; [done|by intros ->].
      * intros _. unfold pv, s2. by rewrite rd_wr_eq.
      * exists tl'. split_and!; [done| |done]. apply relinked_wr; [by right|done].
  - intros _ s2 (tl' & Hd' & R2 & Hf). eapply wp_set_list; [by rewrite Hf|]. rewrite Hf. split_and!; [| |done].
    + exists bd, tl'. split; [cbn; by eapply lookup_set_fl|done].
    + eapply relinked_trans; [done|]. eapply relinked_trans; [done|]. apply relinked_fl.
Qed.

(** ** Removing *)
Lemma link_remove_ok s ln L1 bd L2 :
  bucket s ln (L1 ++ bd :: L2) →
  wp (dbl_link_remove junk bd ln) (λ _ s', bucket s' ln (L1 ++ L2) ∧ relinked (L1 ++ bd :: L2) s s' ∧
    ∃ hd, free_list s' = <[ln := hd]> (free_list s)) s.
Proof.
  intros (hd & tl & Hhd & Hd). unfold dbl_link_remove.
  assert (bd ≠ END) as Hne.
  { destruct Hd as [Hd _]. eapply dlseg_not_END; [done|]. apply elem_of_app; right; by left. }
  assert (bd ∉ L1 ++ L2) as Hbd.
  { destruct Hd as [_ Hnd]. apply NoDup_app in Hnd as (_ & H12 & [? _]%NoDup_cons).
    intros [Hx|?]%elem_of_app; [|done]. apply (H12 _ Hx). by left. }
  wp_step. apply wp_ld; [done|]. set (n := link (rd s bd)). set (p := back (rd s bd)).
  pose proof (λ nx' pv', dlist_unlink (nx s) (pv s) nx' pv' hd tl L1 bd L2 n p Hd eq_refl eq_refl) as Hun.
  assert ((p ≠ END → p ∈ L1) ∧ (n ≠ END → n ∈ L2) ∧ (p = END → L1 = [])) as (Hp & Hn & Hp0).
  { destruct (Hun (λ x, if decide (x = p) then Some n else nx s x) (λ x, if decide (x = n) then Some p else pv s x))
      as (? & ? & ? & ? & _); done. }
  set (X := L1 ++ bd :: L2).
  set (s1 := if decide (p = END) then set_free_list (<[ln := n]> (free_list s)) s else wr s p (set_link n)).
  assert (relinked X s s1) as R1.
  { unfold s1. case_decide; [apply relinked_fl|]. apply relinked_wr; [|done]. apply elem_of_app; left; auto. }
  assert (∀ q, rd s1 q = if decide (q = p) then (if decide (p = END) then rd s q else set_link n (rd s q)) else rd s q) as E1.
  { intros q. unfold s1. destruct (decide (p = END)) as [E|E]; [by destruct (decide (q = p))|].
    rewrite rd_wr. by destruct (decide (q = p)) as [->|]. }
  assert (∃ h, free_list s1 = <[ln := h]> (free_list s) ∧ h = if decide (p = END) then n else hd) as (h & Efl & Eh).
  { unfold s1. case_decide; [by eexists|]. exists hd. split; [|done]. cbn. by rewrite list_insert_id. }
  apply wp_bind. apply (wp_mono _ (λ _ s', s' = s1)).
  { unfold s1. fold p n. destruct (decide (p = END)) as [->|Hpe]; cbn [negb].
    - rewrite (Z.eqb_refl END). cbn [negb]. by eapply wp_set_list.
    - rewrite (proj2 (Z.eqb_neq p END) Hpe). cbn [negb]. by apply wp_upd. }
  intros _ s' ->. wp_step. apply wp_ld; [done|].
  assert (bd ≠ p) as Hbp. { intros Ep. destruct (decide (p = END)) as [|Hpe]; [congruence|].
    apply Hbd, elem_of_app; left. rewrite Ep. auto. }
  assert (rd s1 bd = rd s bd) as Eb by (rewrite E1; by rewrite decide_False).
  rewrite Eb. fold n p.
  assert (∀ s2, (∀ q, rd s2 q = if decide (q = n) then (if decide (n = END) then rd s1 q else set_back p (rd s1 q)) else rd s1 q) →
     ∃ tl', dlist (nx s2) (pv s2) h tl' (L1 ++ L2)) as Hfin.
  { intros s2 E2. subst h. destruct Hd as [Hd Hnd]. apply Hun.
    - intros x Hx. assert (x ≠ END) by (eapply dlseg_not_END; [done|]; set_solver). unfold nx. rewrite E2.
      destruct (decide (x = n)); [destruct (decide (n = END)); [congruence|]|]; rewrite E1;
        (destruct (decide (x = p)); [destruct (decide (p = END)); [congruence|done]|done]).
    - intros x Hx. assert (x ≠ END) by (eapply dlseg_not_END; [done|]; set_solver). unfold pv. rewrite E2.
      destruct (decide (x = n)); [destruct (decide (n = END)); [congruence|done]|]. rewrite E1.
      destruct (decide (x = p)); [destruct (decide (p = END)); [congruence|done]|done]. }
  assert (free_list s1 !! ln = Some h) as Hl1 by (rewrite Efl; by eapply lookup_set_fl).
  destruct (decide (n = END)) as [En|Hne'].
  - rewrite En. change (negb (END =? END)) with false. apply wp_ret. destruct (Hfin s1) as [tl' Hd']; [by intros q; destruct (decide (q = n))|].
    split_and!; [by exists h, tl'|done|by exists h].
  - rewrite (proj2 (Z.eqb_neq n END) Hne'). cbn [negb when]. apply wp_upd; [done|].
    destruct (Hfin (wr s1 n (set_back p))) as [tl' Hd'].
    { intros q. rewrite rd_wr. by destruct (decide (q = n)) as [->|]. }
    split_and!; [by exists h, tl'| |by exists h]. eapply relinked_trans; [done|]. apply relinked_wr; [|done].
    apply elem_of_app; right. right. auto.
Qed.
End mem.
