(* ===== verification/BlockLayout.v ===== *)
(** * The layout of the heap in groups of blocks

    A layout gives every group of the heap, by the number of its first block, its
    size in blocks: groups do not overlap, the groups of a megablock that is cut
    up fill it, and a group of at least a megablock starts at the first block of
    one and ends at the end of one.  The lemmas say how cutting a group, joining
    two, adding and taking away a megablock group act on a layout. *)
From S2P Require Import Prelude DList MBlock BlockAlloc BlockArith.
From stdpp Require Import list gmap fin_maps.
Local Open Scope Z_scope.

(** ** Sums over a finite map *)
Section msum.
Implicit Types (f : Z → Z → Z) (S : gmap Z Z).
Definition msum f S : Z := map_fold (λ b n acc, f b n + acc) 0 S.

Lemma msum_empty f : msum f ∅ = 0.
Proof. apply map_fold_empty. Qed.

Lemma msum_insert f S b n : S !! b = None → msum f (<[b := n]> S) = f b n + msum f S.
Proof. intros H. unfold msum. rewrite map_fold_insert_L; [done|intros; lia|done]. Qed.

Lemma msum_delete f S b n : S !! b = Some n → msum f S = f b n + msum f (delete b S).
Proof. intros H. unfold msum. rewrite (map_fold_delete_L _ _ b n S); [done|intros; lia|done]. Qed.

Lemma msum_update f S b n n' : S !! b = Some n → msum f (<[b := n']> S) = msum f S - f b n + f b n'.
Proof.
  intros H. rewrite (msum_delete f S b n H), <- insert_delete_eq.
  rewrite msum_insert by apply lookup_delete_eq. lia.
Qed.

Lemma msum_ext f g S : (∀ b n, S !! b = Some n → f b n = g b n) → msum f S = msum g S.
Proof.
  induction S as [|b n S Hb IH] using map_ind; intros Hfg; [done|].
  rewrite !msum_insert by done. rewrite (Hfg b n) by apply lookup_insert_eq. rewrite IH; [done|].
  intros b' n' H'. apply Hfg. rewrite lookup_insert_ne; [done|congruence].
Qed.

Lemma msum_le f g S : (∀ b n, S !! b = Some n → f b n <= g b n) → msum f S <= msum g S.
Proof.
  induction S as [|b n S Hb IH] using map_ind; intros Hfg; [done|].
  rewrite !msum_insert by done. pose proof (Hfg b n (lookup_insert_eq _ _ _)).
  enough (msum f S <= msum g S) by lia. apply IH.
  intros b' n' H'. apply Hfg. rewrite lookup_insert_ne; [done|congruence].
Qed.

Lemma msum_zero S : msum (λ _ _, 0) S = 0.
Proof. induction S as [|b n S Hb IH] using map_ind; [done|]. rewrite msum_insert by done. lia. Qed.

Lemma msum_lookup f S b n :
  (∀ b n, S !! b = Some n → 0 <= f b n) → S !! b = Some n → f b n <= msum f S.
Proof.
  intros Hf Hb. rewrite (msum_delete f S b n Hb). enough (0 <= msum f (delete b S)) by lia.
  rewrite <- (msum_zero (delete b S)). apply msum_le. intros b' n' [_ H]%lookup_delete_Some. by eapply Hf.
Qed.

Lemma msum_add f g S : msum (λ b n, f b n + g b n) S = msum f S + msum g S.
Proof. induction S as [|b n S Hb IH] using map_ind; [done|]. rewrite !msum_insert by done. lia. Qed.
End msum.

(** ** Layouts *)

(** The blocks of the heap a group stands for: the first group of a megablock
    also stands for the blocks of the descriptors. *)
Definition weight (b n : Z) : Z := n + (if b `mod` 256 =? 4 then 4 else 0).
Definition heap_blocks (S : gmap Z Z) : Z := msum weight S.

(** The megablocks of a group that starts at the first block of one. *)
Definition lead (b n : Z) : Z := if b `mod` 256 =? 4 then n / 256 + 1 else 0.

Record layout (S : gmap Z Z) : Prop := {
  ly_pos b n : S !! b = Some n → 0 <= b ∧ 4 <= b `mod` 256 ∧ 1 <= n;
  ly_max b n : S !! b = Some n → b + n <= 2 ^ 36;
  ly_small b n : S !! b = Some n → n < 252 → b `mod` 256 + n <= 256;
  ly_mega b n : S !! b = Some n → 252 <= n → b `mod` 256 = 4 ∧ n `mod` 256 = 252;
  ly_next b n : S !! b = Some n → n < 252 → b `mod` 256 + n < 256 → is_Some (S !! (b + n));
  ly_prev b n : S !! b = Some n → 4 < b `mod` 256 → ∃ b' n', S !! b' = Some n' ∧ b' + n' = b;
  ly_disj b n b' n' : S !! b = Some n → S !! b' = Some n' → b < b' → b + n <= b';
  ly_total : heap_blocks S <= 2 ^ 32;
  ly_lead : heap_blocks S = 256 * msum lead S
}.

(** Take apart the lookups in an updated map. *)
Ltac lk :=
  repeat match goal with
  | H : <[_ := _]> _ !! _ = Some _ |- _ => apply lookup_insert_Some in H as [[<- <-]|[? H]]
  | H : delete _ _ !! _ = Some _ |- _ => apply lookup_delete_Some in H as [? H]
  end.

Section layout.
Implicit Types (S : gmap Z Z).

Lemma weight_pos b n : 1 <= n → 0 <= weight b n.
Proof. unfold weight. destruct (_ =? _); lia. Qed.

Lemma layout_size S b n : layout S → S !! b = Some n → n <= 2 ^ 32.
Proof.
  intros Hl Hb. etransitivity; [|apply (ly_total _ Hl)].
  etransitivity; [|apply (msum_lookup weight S b n); [|done]].
  - unfold weight. destruct (_ =? _); lia.
  - intros b' n' H'. apply weight_pos. by eapply ly_pos.
Qed.

Lemma layout_mega_size S b n : layout S → S !! b = Some n → 252 <= n →
  mega_size n ∧ n <= 2 ^ 32 - 4 ∧ b = b / 256 * 256 + 4.
Proof.
  intros Hl Hb Hn. destruct (ly_mega _ Hl b n Hb Hn) as [H1 H2]. split_and!; [done| |zlia].
  enough (n + 4 <= 2 ^ 32) by lia. etransitivity; [|apply (ly_total _ Hl)].
  etransitivity; [|apply (msum_lookup weight S b n); [|done]].
  - unfold weight. by rewrite H1.
  - intros b' n' H'. apply weight_pos. by eapply ly_pos.
Qed.

(** The group before a group that is not the first of its megablock. *)
Lemma layout_prev S b n : layout S → S !! b = Some n → 4 < b `mod` 256 →
  ∃ b' n', S !! b' = Some n' ∧ b' + n' = b ∧ n' < 252 ∧ b' / 256 = b / 256 ∧ b' `mod` 256 + n' < 256.
Proof.
  intros Hl Hb Hm. destruct (ly_prev _ Hl b n Hb Hm) as (b' & n' & Hb' & <-).
  pose proof (ly_pos _ Hl _ _ Hb'). destruct (decide (n' < 252)) as [Hn|Hn].
  - pose proof (ly_small _ Hl _ _ Hb' Hn). exists b', n'. split_and!; [done..| |]; zlia.
  - destruct (ly_mega _ Hl _ _ Hb') as [? ?]; [lia|]. exfalso. zlia.
Qed.

Lemma layout_next S b n : layout S → S !! b = Some n → n < 252 → b `mod` 256 + n < 256 →
  ∃ n', S !! (b + n) = Some n' ∧ n' < 252 ∧ (b + n) `mod` 256 = b `mod` 256 + n ∧
    b `mod` 256 + n + n' <= 256.
Proof.
  intros Hl Hb Hn Hm. destruct (ly_next _ Hl b n Hb Hn Hm) as [n' Hn']. pose proof (ly_pos _ Hl _ _ Hb).
  assert ((b + n) `mod` 256 = b `mod` 256 + n) as E by zlia.
  exists n'. split; [done|]. destruct (decide (n' < 252)) as [Hlt|Hge].
  - pose proof (ly_small _ Hl _ _ Hn' Hlt). lia.
  - destruct (ly_mega _ Hl _ _ Hn') as [? ?]; lia.
Qed.

Lemma layout_uniq S b n b' n' x :
  layout S → S !! b = Some n → S !! b' = Some n' → b <= x < b + n → b' <= x < b' + n' → b = b'.
Proof.
  intros Hl Hb Hb' Hx Hx'. destruct (Z.lt_trichotomy b b') as [Hlt|[?|Hlt]]; [|done|].
  - pose proof (ly_disj _ Hl _ _ _ _ Hb Hb' Hlt). lia.
  - pose proof (ly_disj _ Hl _ _ _ _ Hb' Hb Hlt). lia.
Qed.

(** ** Joining *)
Definition joined (S : gmap Z Z) (b c n : Z) : gmap Z Z := <[b := n]> (delete c S).

Lemma join_sum f S b c n1 n2 n :
  S !! b = Some n1 → S !! c = Some n2 → b ≠ c → f b n = f b n1 + f c n2 →
  msum f (joined S b c n) = msum f S.
Proof.
  intros Hb Hc Hne Hw. unfold joined. rewrite (msum_update _ _ b n1) by (by rewrite lookup_delete_ne).
  rewrite (msum_delete _ S c n2) by done. lia.
Qed.

Lemma joined_lookup S b c n x k : b ≠ c →
  joined S b c n !! x = Some k ↔ (x = b ∧ k = n) ∨ (x ≠ b ∧ x ≠ c ∧ S !! x = Some k).
Proof.
  intros Hbc. unfold joined. rewrite lookup_insert_Some, lookup_delete_Some. naive_solver.
Qed.

(** Two neighbours of a megablock. *)
Lemma layout_join S b n n' :
  layout S → S !! b = Some n → S !! (b + n) = Some n' → n < 252 → b `mod` 256 + n < 256 →
  layout (joined S b (b + n) (n + n')) ∧ heap_blocks (joined S b (b + n) (n + n')) = heap_blocks S.
Proof.
  intros Hl Hb Hc Hn Hm. pose proof (ly_pos _ Hl _ _ Hb) as (P1 & P2 & P3).
  pose proof (ly_pos _ Hl _ _ Hc) as (P4 & P5 & P6).
  destruct (layout_next _ _ _ Hl Hb Hn Hm) as (n'' & Hc' & Hn' & Em & Hend).
  rewrite Hc in Hc'. injection Hc' as <-.
  assert (heap_blocks (joined S b (b + n) (n + n')) = heap_blocks S) as Et.
  { apply (join_sum weight S b (b + n) n n'); [done|done|lia|]. unfold weight. rewrite Em.
    rewrite (proj2 (Z.eqb_neq (b `mod` 256 + n) 4)) by lia. lia. }
  assert (msum lead (joined S b (b + n) (n + n')) = msum lead S) as Ed.
  { apply (join_sum lead S b (b + n) n n'); [done|done|lia|]. unfold lead. rewrite Em.
    rewrite (proj2 (Z.eqb_neq (b `mod` 256 + n) 4)), !Z.div_small by lia. destruct (_ =? _); lia. }
  split; [|done]. constructor; [..|rewrite Et; apply Hl|rewrite Et, Ed; apply Hl]; unfold joined.
  - intros x k Hx. lk; [lia|]. by eapply ly_pos.
  - intros x k Hx. lk; [pose proof (ly_max _ Hl _ _ Hc); lia|]. by eapply ly_max.
  - intros x k Hx. lk; [lia|]. by eapply ly_small.
  - intros x k Hx Hk. lk; [|by eapply ly_mega]. assert (n + n' = 252) as -> by lia. split; [lia|done].
  - intros x k Hx Hk Hxk. lk.
    + assert (S !! (b + n + n') ≠ None) as Hne.
      { destruct (ly_next _ Hl _ _ Hc Hn') as [? ->]; [lia|done]. }
      rewrite Z.add_assoc. rewrite lookup_insert_ne by lia. rewrite lookup_delete_ne by lia.
      by destruct (S !! (b + n + n')); [eauto|].
    + destruct (decide (b = x + k)) as [Ebx|Hbx]; [rewrite <- Ebx, lookup_insert_eq; eauto|].
      rewrite lookup_insert_ne by done. rewrite lookup_delete_ne; [by eapply ly_next|].
      intros E. assert (x = b) as ->; [|lia].
      apply (layout_uniq S x k b n (b + n - 1)); [done..| |lia].
      pose proof (ly_pos _ Hl _ _ Hx). lia.
  - intros x k Hx Hxm.
    assert (∀ x' k', S !! x' = Some k' → x' + k' = x → x ≠ b + n → ∃ b' n'0, joined S b (b + n) (n + n') !! b' = Some n'0 ∧ b' + n'0 = x) as Hgo.
    { intros x' k' Hx' E Hne. destruct (decide (x' = b)) as [->|]; [exfalso; apply Hne; congruence|].
      destruct (decide (x' = b + n)) as [->|].
      - exists b, (n + n'). unfold joined. rewrite lookup_insert_eq. split; [done|]. assert (k' = n') by congruence. lia.
      - exists x', k'. unfold joined. rewrite lookup_insert_ne, lookup_delete_ne by done. done. }
    lk.
    + destruct (ly_prev _ Hl _ _ Hb) as (x' & k' & Hx' & E); [lia|]. apply (Hgo x' k'); [done|done|lia].
    + destruct (ly_prev _ Hl _ _ Hx) as (x' & k' & Hx' & E); [lia|]. by apply (Hgo x' k').
  - intros x k x' k' Hx Hx' Hlt. lk; [lia| | |].
    + eapply (ly_disj _ Hl); done.
    + assert (b + n <= x') by by eapply ly_disj. assert (b + n + n' <= x'); [|lia].
      eapply (ly_disj _ Hl); [done..|lia].
    + eapply (ly_disj _ Hl); done.
Qed.

(** Two megablock groups next to each other. *)
Lemma layout_join_mega S b n n' :
  layout S → S !! b = Some n → S !! (b + n + 4) = Some n' → 252 <= n → 252 <= n' →
  layout (joined S b (b + n + 4) (n + 4 + n')) ∧ heap_blocks (joined S b (b + n + 4) (n + 4 + n')) = heap_blocks S.
Proof.
  intros Hl Hb Hc Hn Hn'. pose proof (ly_pos _ Hl _ _ Hb) as (P1 & P2 & P3).
  destruct (ly_mega _ Hl _ _ Hb Hn) as [M1 M2]. destruct (ly_mega _ Hl _ _ Hc Hn') as [M3 M4].
  assert (heap_blocks (joined S b (b + n + 4) (n + 4 + n')) = heap_blocks S) as Et.
  { apply (join_sum weight S b (b + n + 4) n n'); [done|done|lia|]. unfold weight. rewrite M1, M3. cbn. lia. }
  assert (msum lead (joined S b (b + n + 4) (n + 4 + n')) = msum lead S) as Ed.
  { apply (join_sum lead S b (b + n + 4) n n'); [done|done|lia|]. unfold lead. rewrite M1, M3.
    cbn [Z.eqb Pos.eqb]. clear -M2 M4. zlia. }
  split; [|done]. constructor; [..|rewrite Et; apply Hl|rewrite Et, Ed; apply Hl]; unfold joined.
  - intros x k Hx. lk; [lia|]. by eapply ly_pos.
  - intros x k Hx. lk; [pose proof (ly_max _ Hl _ _ Hc); lia|]. by eapply ly_max.
  - intros x k Hx. lk; [lia|]. by eapply ly_small.
  - intros x k Hx Hk. lk; [|by eapply ly_mega]. split; [done|zlia].
  - intros x k Hx Hk Hxk. lk; [lia|]. destruct (ly_next _ Hl _ _ Hx Hk Hxk) as [k' Hk'].
    pose proof (ly_pos _ Hl _ _ Hx) as P7. destruct (decide (b = x + k)) as [Ebx|Hbx]; [rewrite <- Ebx, lookup_insert_eq; eauto|].
    rewrite lookup_insert_ne by done. rewrite lookup_delete_ne; [eauto|]. intros E. rewrite E in M3. clear -M3 P7 Hxk. zlia.
  - intros x k Hx Hxm. lk; [lia|]. destruct (layout_prev _ _ _ Hl Hx Hxm) as (x' & k' & Hx' & E & Hk' & _).
    exists x', k'. rewrite lookup_insert_ne, lookup_delete_ne; [done| |]; intros <-.
    + assert (k' = n') by congruence. lia.
    + assert (k' = n) by congruence. lia.
  - intros x k x' k' Hx Hx' Hlt. lk; [lia| | |].
    + eapply (ly_disj _ Hl); done.
    + assert (b + n <= x') as Hd by by eapply ly_disj. pose proof (ly_pos _ Hl _ _ Hx').
      assert (b + n + 4 <= x') by zlia. assert (b + n + 4 + n' <= x'); [|lia].
      eapply (ly_disj _ Hl); [done..|lia].
    + eapply (ly_disj _ Hl); done.
Qed.

(** ** Cutting *)
Definition cut_in (S : gmap Z Z) (b n1 c n2 : Z) : gmap Z Z := <[b := n1]> (<[c := n2]> S).

Lemma layout_inside S b n x : layout S → S !! b = Some n → b < x < b + n → S !! x = None.
Proof.
  intros Hl Hb Hx. destruct (S !! x) as [k|] eqn:E; [|done].
  pose proof (ly_disj _ Hl _ _ _ _ Hb E). lia.
Qed.

Lemma cut_sum f S b n n1 c n2 :
  S !! b = Some n → S !! c = None → f b n = f b n1 + f c n2 →
  msum f (cut_in S b n1 c n2) = msum f S.
Proof.
  intros Hb Hc Hw. assert (c ≠ b) by congruence. unfold cut_in.
  rewrite (msum_update _ _ b n) by (by rewrite lookup_insert_ne). rewrite msum_insert by done. lia.
Qed.

Lemma cut_lookup S b n c m x k : b ≠ c →
  cut_in S b n c m !! x = Some k ↔ (x = b ∧ k = n) ∨ (x = c ∧ k = m) ∨ (x ≠ b ∧ x ≠ c ∧ S !! x = Some k).
Proof. intros Hbc. unfold cut_in. rewrite !lookup_insert_Some. naive_solver. Qed.

(** A group of a megablock, or a whole one, is cut in two. *)
Lemma layout_cut S b n1 n2 :
  layout S → S !! b = Some (n1 + n2) → 1 <= n1 → 1 <= n2 → n1 + n2 <= 252 →
  layout (cut_in S b n1 (b + n1) n2) ∧ heap_blocks (cut_in S b n1 (b + n1) n2) = heap_blocks S.
Proof.
  intros Hl Hb Hn1 Hn2 Hn. pose proof (ly_pos _ Hl _ _ Hb) as (P1 & P2 & P3).
  assert (b `mod` 256 + (n1 + n2) <= 256) as Hm.
  { destruct (decide (n1 + n2 < 252)); [by eapply ly_small|]. destruct (ly_mega _ Hl _ _ Hb); lia. }
  assert ((b + n1) `mod` 256 = b `mod` 256 + n1) as Em by (clear -Hm Hn1 Hn2; zlia).
  assert (S !! (b + n1) = None) as Hc by (eapply layout_inside; [done..|lia]).
  assert (heap_blocks (cut_in S b n1 (b + n1) n2) = heap_blocks S) as Et.
  { eapply (cut_sum weight); [done..|]. unfold weight. rewrite Em.
    rewrite (proj2 (Z.eqb_neq (b `mod` 256 + n1) 4)) by lia. lia. }
  assert (msum lead (cut_in S b n1 (b + n1) n2) = msum lead S) as Ed.
  { eapply (cut_sum lead); [done..|]. unfold lead. rewrite Em.
    rewrite (proj2 (Z.eqb_neq (b `mod` 256 + n1) 4)), !Z.div_small by lia. destruct (_ =? _); lia. }
  pose proof (ly_max _ Hl _ _ Hb).
  split; [|done]. constructor; [..|rewrite Et; apply Hl|rewrite Et, Ed; apply Hl]; unfold cut_in.
  - intros x k Hx. lk; [lia| |by eapply ly_pos]. lia.
  - intros x k Hx. lk; [lia|lia|by eapply ly_max].
  - intros x k Hx Hk. lk; [lia|lia|by eapply ly_small].
  - intros x k Hx Hk. lk; [lia|lia|by eapply ly_mega].
  - intros x k Hx Hk Hxk. lk.
    + rewrite lookup_insert_ne, lookup_insert_eq by lia. eauto.
    + rewrite !lookup_insert_ne by lia. rewrite <- Z.add_assoc. eapply ly_next; [done..|lia|lia].
    + destruct (ly_next _ Hl _ _ Hx Hk Hxk) as [k' Hk'].
      destruct (decide (b = x + k)) as [Ebx|Hbx]; [rewrite <- Ebx, lookup_insert_eq; eauto|].
      rewrite lookup_insert_ne by done. rewrite lookup_insert_ne; [eauto|congruence].
  - intros x k Hx Hxm.
    assert (∀ x' k', S !! x' = Some k' → x' + k' = x → x ≠ b + (n1 + n2) →
      ∃ b' n', cut_in S b n1 (b + n1) n2 !! b' = Some n' ∧ b' + n' = x) as Hgo.
    { intros x' k' Hx' E Hne. exists x', k'. unfold cut_in. destruct (decide (x' = b)) as [->|].
      - exfalso. apply Hne. assert (k' = n1 + n2) by congruence. lia.
      - rewrite lookup_insert_ne by done. rewrite lookup_insert_ne; [done|congruence]. }
    lk.
    + destruct (ly_prev _ Hl _ _ Hb) as (x' & k' & Hx' & E); [lia|]. apply (Hgo x' k'); [done|done|lia].
    + exists b, n1. by rewrite lookup_insert_eq.
    + destruct (decide (x = b + (n1 + n2))) as [->|Hne].
      * exists (b + n1), n2. rewrite lookup_insert_ne, lookup_insert_eq by lia. split; [done|lia].
      * destruct (ly_prev _ Hl _ _ Hx) as (x' & k' & Hx' & E); [lia|]. by apply (Hgo x' k').
  - intros x k x' k' Hx Hx' Hlt.
    assert (∀ y, y ≠ b → ∀ j, S !! y = Some j → (y < b → y + j <= b) ∧ (b < y → b + (n1 + n2) <= y)) as Hy.
    { intros y Hyb j Hj. split; intros; by eapply (ly_disj _ Hl). }
    lk; try lia.
    + assert (x ≠ b) as Hxb by congruence. destruct (Hy x Hxb _ Hx). lia.
    + assert (x ≠ b) as Hxb by congruence. destruct (Hy x Hxb _ Hx). lia.
    + assert (x' ≠ b) as Hxb by congruence. destruct (Hy x' Hxb _ Hx'). lia.
    + assert (x' ≠ b) as Hxb by congruence. destruct (Hy x' Hxb _ Hx'). lia.
    + by eapply (ly_disj _ Hl).
Qed.

(** The last megablocks of a megablock group are cut off. *)
Lemma layout_cut_mega S b j1 j2 :
  layout S → S !! b = Some (256 * (j1 + j2) - 4) → 1 <= j1 → 1 <= j2 →
  layout (cut_in S b (256 * j1 - 4) (b + 256 * j1) (256 * j2 - 4)) ∧
  heap_blocks (cut_in S b (256 * j1 - 4) (b + 256 * j1) (256 * j2 - 4)) = heap_blocks S.
Proof.
  intros Hl Hb Hj1 Hj2. pose proof (ly_pos _ Hl _ _ Hb) as (P1 & P2 & P3).
  destruct (ly_mega _ Hl _ _ Hb) as [M1 M2]; [lia|].
  assert ((b + 256 * j1) `mod` 256 = 4) as Em by (clear -M1; zlia).
  assert (∀ j, (256 * j - 4) `mod` 256 = 252) as Ej by (clear; intros; zlia).
  assert (S !! (b + 256 * j1) = None) as Hc by (eapply layout_inside; [done..|lia]).
  assert (heap_blocks (cut_in S b (256 * j1 - 4) (b + 256 * j1) (256 * j2 - 4)) = heap_blocks S) as Et.
  { eapply (cut_sum weight); [done..|]. unfold weight. rewrite M1, Em. cbn [Z.eqb Pos.eqb]. lia. }
  assert (msum lead (cut_in S b (256 * j1 - 4) (b + 256 * j1) (256 * j2 - 4)) = msum lead S) as Ed.
  { eapply (cut_sum lead); [done..|]. unfold lead. rewrite M1, Em. cbn [Z.eqb Pos.eqb]. clear. zlia. }
  pose proof (ly_max _ Hl _ _ Hb).
  split; [|done]. constructor; [..|rewrite Et; apply Hl|rewrite Et, Ed; apply Hl]; unfold cut_in.
  - intros x k Hx. lk; [lia| |by eapply ly_pos]. lia.
  - intros x k Hx. lk; [lia|lia|by eapply ly_max].
  - intros x k Hx Hk. lk; [lia|lia|by eapply ly_small].
  - intros x k Hx Hk. lk; [by split|by split|by eapply ly_mega].
  - intros x k Hx Hk Hxk. lk; [lia|lia|]. destruct (ly_next _ Hl _ _ Hx Hk Hxk) as [k' Hk'].
    destruct (decide (b = x + k)) as [Ebx|Hbx]; [rewrite <- Ebx, lookup_insert_eq; eauto|].
    rewrite lookup_insert_ne by done. rewrite lookup_insert_ne; [eauto|congruence].
  - intros x k Hx Hxm. lk; [lia|lia|]. destruct (layout_prev _ _ _ Hl Hx Hxm) as (x' & k' & Hx' & E & Hk' & _).
    exists x', k'. rewrite lookup_insert_ne; [rewrite lookup_insert_ne; [done|congruence]|].
    intros <-. assert (k' = 256 * (j1 + j2) - 4) by congruence. lia.
  - intros x k x' k' Hx Hx' Hlt.
    assert (∀ y, y ≠ b → ∀ j, S !! y = Some j → (y < b → y + j <= b) ∧ (b < y → b + (256 * (j1 + j2) - 4) <= y)) as Hy.
    { intros y Hyb j Hj. split; intros; by eapply (ly_disj _ Hl). }
    lk; try lia.
    + assert (x ≠ b) as Hxb by congruence. destruct (Hy x Hxb _ Hx). lia.
    + assert (x ≠ b) as Hxb by congruence. destruct (Hy x Hxb _ Hx). lia.
    + assert (x' ≠ b) as Hxb by congruence. destruct (Hy x' Hxb _ Hx'). lia.
    + assert (x' ≠ b) as Hxb by congruence. destruct (Hy x' Hxb _ Hx'). lia.
    + by eapply (ly_disj _ Hl).
Qed.

(** ** New megablocks *)
Lemma layout_add S b n :
  layout S → 0 <= b → b `mod` 256 = 4 → mega_size n → b + n <= 2 ^ 36 →
  (∀ x k, S !! x = Some k → x + k <= b ∨ b + n <= x) → heap_blocks S + (n + 4) <= 2 ^ 32 →
  S !! b = None ∧ layout (<[b := n]> S) ∧ heap_blocks (<[b := n]> S) = heap_blocks S + (n + 4).
Proof.
  intros Hl Hb Hm [Hn1 Hn2] Hmax Hfresh Htot.
  assert (S !! b = None) as Hnone.
  { destruct (S !! b) as [k|] eqn:E; [|done]. pose proof (ly_pos _ Hl _ _ E). destruct (Hfresh _ _ E); lia. }
  assert (heap_blocks (<[b := n]> S) = heap_blocks S + (n + 4)) as Et.
  { unfold heap_blocks. rewrite msum_insert by done. unfold weight at 1. rewrite Hm. cbn [Z.eqb Pos.eqb]. lia. }
  split; [done|]. split; [|done]. constructor; [..|by rewrite Et|].
  8:{ rewrite Et, (msum_insert lead) by done. unfold lead at 1. rewrite Hm, (ly_lead _ Hl). cbn [Z.eqb Pos.eqb].
      clear -Hn2. zlia. }
  - intros x k Hx. lk; [lia|]. by eapply ly_pos.
  - intros x k Hx. lk; [lia|]. by eapply ly_max.
  - intros x k Hx. lk; [lia|]. by eapply ly_small.
  - intros x k Hx Hk. lk; [done|]. by eapply ly_mega.
  - intros x k Hx Hk Hxk. lk; [lia|]. destruct (ly_next _ Hl _ _ Hx Hk Hxk) as [k' Hk'].
    exists k'. rewrite lookup_insert_ne; [done|congruence].
  - intros x k Hx Hxm. lk; [lia|]. destruct (ly_prev _ Hl _ _ Hx Hxm) as (x' & k' & Hx' & E).
    exists x', k'. split; [|done]. rewrite lookup_insert_ne; [done|congruence].
  - intros x k x' k' Hx Hx' Hlt. lk; [lia| | |].
    + pose proof (ly_pos _ Hl _ _ Hx). destruct (Hfresh _ _ Hx); lia.
    + pose proof (ly_pos _ Hl _ _ Hx'). destruct (Hfresh _ _ Hx'); lia.
    + by eapply (ly_disj _ Hl).
Qed.

Lemma layout_remove S b n :
  layout S → S !! b = Some n → 252 <= n →
  layout (delete b S) ∧ heap_blocks (delete b S) = heap_blocks S - (n + 4).
Proof.
  intros Hl Hb Hn. destruct (ly_mega _ Hl _ _ Hb Hn) as [M1 M2].
  assert (heap_blocks (delete b S) = heap_blocks S - (n + 4)) as Et.
  { unfold heap_blocks. rewrite (msum_delete weight S b n) by done. unfold weight at 2. rewrite M1. cbn [Z.eqb Pos.eqb]. lia. }
  split; [|done]. pose proof (ly_total _ Hl). constructor; [..|rewrite Et; lia|].
  8:{ rewrite Et, (ly_lead _ Hl), (msum_delete lead S b n) by done. unfold lead at 1. rewrite M1. cbn [Z.eqb Pos.eqb].
      clear -M2. zlia. }
  - intros x k Hx. lk. by eapply ly_pos.
  - intros x k Hx. lk. by eapply ly_max.
  - intros x k Hx. lk. by eapply ly_small.
  - intros x k Hx Hk. lk. by eapply ly_mega.
  - intros x k Hx Hk Hxk. lk. destruct (layout_next _ _ _ Hl Hx Hk Hxk) as (k' & Hk' & Hlt & _).
    exists k'. rewrite lookup_delete_ne; [done|]. intros E. rewrite <- E in Hk'. assert (k' = n) by congruence. lia.
  - intros x k Hx Hxm. lk. destruct (layout_prev _ _ _ Hl Hx Hxm) as (x' & k' & Hx' & E & Hlt & _).
    exists x', k'. split; [|done]. rewrite lookup_delete_ne; [done|]. intros <-. assert (k' = n) by congruence. lia.
  - intros x k x' k' Hx Hx' Hlt. lk. by eapply (ly_disj _ Hl).
Qed.

Lemma layout_empty : layout ∅.
Proof. constructor; try (intros *; by rewrite lookup_empty); unfold heap_blocks; by rewrite !msum_empty. Qed.
End layout.
