(* ===== verification/BlockInv.v ===== *)
(** * The invariant of the block allocator

    The state of the allocator stands for a layout [S] of the heap in groups, a
    set [F] of groups that are free and a set [A] of groups that are allocated; a
    group that is in neither is being worked on, and of its descriptors only the
    [start] fields are known.  The invariant says what the descriptors of each
    kind of group hold, that the free lists hold exactly the free groups, each in
    its bucket, and that no two free neighbours are left uncoalesced. *)
From S2P Require Import Prelude DList MBlock MBlockProps BlockAlloc BlockArith BlockMem BlockLayout.
From stdpp Require Import list gmap sets sorting.
Local Open Scope Z_scope.

Section inv.
Context {OS : Type} `{OsMem OS}.
Variable junk : ptr → bdescr.
Notation rd := (rd junk).
Implicit Types (s : ba OS) (S : gmap Z Z) (F A : gset Z).

(** The descriptors of a group: those of its first megablock. *)
Definition own (b n : Z) (q : ptr) : Prop := ∃ i, 0 <= i < Z.min n 252 ∧ q = desc (b + i).

(** A descriptor that is not the head of its group [h]. *)
Definition inner s (h q : ptr) : Prop :=
  blocks (rd s q) = 0 ∧ free (rd s q) = 0 ∧ link (rd s q) = h.

Definition grp s (b n : Z) : Prop :=
  ∀ i, 0 <= i < Z.min n 252 →
    start (rd s (desc (b + i))) = 4096 * (b + i) ∧ desc (b + i) ∈ dom (bds s).
Definition alloc_part s (b n : Z) : Prop :=
  blocks (rd s (desc b)) = n ∧ free (rd s (desc b)) ≠ FREE ∧
  ∀ i, 0 < i < Z.min n 252 → inner s (desc b) (desc (b + i)).
Definition free_part s (b n : Z) : Prop :=
  blocks (rd s (desc b)) = n ∧ free (rd s (desc b)) = FREE ∧
  (1 < n < 252 → inner s (desc b) (desc (b + n - 1))).

(** Group [b] is free, small, and of bucket [ln]; group [b] is a free megablock
    group. *)
Definition in_bucket S F (ln : nat) (b : Z) : Prop :=
  b ∈ F ∧ ∃ n, S !! b = Some n ∧ n < 252 ∧ log_2 n = ln.
Definition in_megas S F (b : Z) : Prop := b ∈ F ∧ ∃ n, S !! b = Some n ∧ 252 <= n.

(** [X]: the megablock groups that may have a free neighbour. *)
Variable X : gset Z.
Record inv S F A s : Prop := {
  iv_layout : layout S;
  iv_F : F ⊆ dom S;
  iv_A : A ⊆ dom S;
  iv_FA : F ## A;
  iv_grp b n : S !! b = Some n → grp s b n;
  iv_alloc b n : b ∈ A → S !! b = Some n → alloc_part s b n;
  iv_free b n : b ∈ F → S !! b = Some n → free_part s b n;
  iv_bucket ln : (ln < MAX_FREE_LIST)%nat →
    ∃ B, bucket junk s ln (desc <$> B) ∧ ∀ b, b ∈ B ↔ in_bucket S F ln b;
  iv_mega : ∃ M, slist (nx junk s) (free_mblock_list s) (desc <$> M) END ∧
    StronglySorted Z.lt M ∧ ∀ b, b ∈ M ↔ in_megas S F b;
  iv_coal b n : b ∈ F → S !! b = Some n → n < 252 → b + n ∉ F;
  iv_coal_mega b n n' : b ∉ X → b ∈ F → S !! b = Some n → 252 <= n →
    S !! (b + n + 4) = Some n' → 252 <= n' → b + n + 4 ∉ F;
  iv_mapped b n x : S !! b = Some n →
    1048576 * (b / 256) <= x < 1048576 * ((b + n + 255) / 256) → mapped (os (mbs s)) x;
  iv_mm : mm_inv (mbs s);
  iv_total : 256 * mblocks_allocated (mbs s) = heap_blocks S
}.
#[local] Arguments iv_layout {S F A s}.
#[local] Arguments iv_F {S F A s}.
#[local] Arguments iv_A {S F A s}.
#[local] Arguments iv_FA {S F A s}.
#[local] Arguments iv_grp {S F A s}.
#[local] Arguments iv_alloc {S F A s}.
#[local] Arguments iv_free {S F A s}.
#[local] Arguments iv_bucket {S F A s}.
#[local] Arguments iv_mega {S F A s}.
#[local] Arguments iv_coal {S F A s}.
#[local] Arguments iv_coal_mega {S F A s}.
#[local] Arguments iv_mapped {S F A s}.
#[local] Arguments iv_mm {S F A s}.
#[local] Arguments iv_total {S F A s}.

(** ** Descriptors *)
Lemma own_head b n : 1 <= n → own b n (desc b).
Proof. intros. exists 0. split; [lia|]. by rewrite Z.add_0_r. Qed.

Lemma own_disjoint S b n b' n' q :
  layout S → S !! b = Some n → S !! b' = Some n' → own b n q → own b' n' q → b = b'.
Proof.
  intros Hl Hb Hb' (i & Hi & ->) (j & Hj & E). apply desc_inj in E.
  apply (layout_uniq S b n b' n' (b + i)); [done..|lia|lia].
Qed.

Lemma layout_pos S b n : layout S → S !! b = Some n → 0 < desc b ∧ desc b ≠ END.
Proof.
  intros Hl Hb. destruct (ly_pos _ Hl _ _ Hb) as (? & ? & _). pose proof (desc_pos b). unfold END. lia.
Qed.

Lemma inv_pos S F A s b n : inv S F A s → S !! b = Some n → desc b ≠ END.
Proof. intros Hi Hb. eapply layout_pos; [apply Hi|done]. Qed.

Lemma inv_head_ne S F A s b n b' n' : inv S F A s →
  S !! b = Some n → S !! b' = Some n' → b ≠ b' → desc b ≠ desc b'.
Proof. intros _ _ _ Hne E. apply Hne. by apply desc_inj. Qed.

Lemma grp_ext s s' b n :
  (∀ q, own b n q → start (rd s' q) = start (rd s q)) → dom (bds s) ⊆ dom (bds s') →
  grp s b n → grp s' b n.
Proof.
  intros Hst Hd G i Hi. destruct (G i Hi) as [G1 G2]. split; [|by apply Hd]. rewrite Hst; [done|]. by exists i.
Qed.

Lemma alloc_ext s s' b n : 1 <= n →
  (∀ q, own b n q → rd s' q = rd s q) → alloc_part s b n → alloc_part s' b n.
Proof.
  intros Hn Hq (P1 & P2 & P3). assert (rd s' (desc b) = rd s (desc b)) as E by (by apply Hq, own_head).
  split_and!; [by rewrite E|by rewrite E|]. intros i Hi. unfold inner. rewrite Hq by (exists i; split; [lia|done]).
  by apply P3.
Qed.

Lemma free_ext s s' b n : 1 <= n →
  (∀ q, own b n q → q ≠ desc b → rd s' q = rd s q) → core (rd s' (desc b)) = core (rd s (desc b)) →
  free_part s b n → free_part s' b n.
Proof.
  intros Hn Hq Hc (P1 & P2 & P3). apply core_eq in Hc as (_ & Ef & Eb & _).
  split_and!; [by rewrite Eb|by rewrite Ef|]. intros Hn2. unfold inner. rewrite Hq.
  - by apply P3.
  - exists (n - 1). split; [lia|f_equal; lia].
  - intros E. apply desc_inj in E. lia.
Qed.

(** ** Changes that leave the groups of [F] and [A] alone *)
Lemma inv_ext S F A s s' :
  inv S F A s →
  (∀ b n q, S !! b = Some n → own b n q → start (rd s' q) = start (rd s q)) →
  (∀ b n q, S !! b = Some n → b ∈ F ∪ A → own b n q → rd s' q = rd s q) →
  dom (bds s) ⊆ dom (bds s') → free_list s' = free_list s →
  free_mblock_list s' = free_mblock_list s → mbs s' = mbs s → inv S F A s'.
Proof.
  intros Hi Hst Hrd Hd Hfl Hfm Hmb. pose proof (iv_layout Hi) as Hl.
  assert (∀ b, b ∈ F → rd s' (desc b) = rd s (desc b)) as HF.
  { intros b Hb. destruct (proj1 (elem_of_dom S b)) as [n Hn]; [by apply (iv_F Hi)|].
    eapply Hrd; [done|set_solver|]. apply own_head. by eapply ly_pos. }
  constructor; try apply Hi; try (rewrite Hmb; apply Hi).
  - intros b n Hb. eapply grp_ext; [|done|by apply (iv_grp Hi)]. eauto.
  - intros b n HbA Hb. eapply alloc_ext; [by eapply ly_pos| |by apply (iv_alloc Hi)].
    intros q Hq. eapply Hrd; [done|set_solver|done].
  - intros b n HbF Hb. eapply free_ext; [by eapply ly_pos| | |by apply (iv_free Hi)].
    + intros q Hq _. eapply Hrd; [done|set_solver|done].
    + by rewrite HF.
  - intros ln Hln. destruct (iv_bucket Hi ln Hln) as (B & (hd & tl & Hhd & Hs & Hnd) & HB).
    exists B. split; [|done]. exists hd, tl. rewrite Hfl. split; [done|]. split; [|done].
    eapply dlseg_ext; [|done]. intros x (b & -> & Hb)%list_elem_of_fmap. apply HB in Hb as [Hb _].
    unfold nx, pv. by rewrite (HF b Hb).
  - destruct (iv_mega Hi) as (M & Hs & HM & HMb). exists M. rewrite Hfm. split_and!; [|done..].
    eapply slist_ext; [|done]. intros x (b & -> & Hb)%list_elem_of_fmap. apply HMb in Hb as [Hb _].
    unfold nx. by rewrite (HF b Hb).
Qed.

(** Fields of a group that is being worked on. *)
Lemma inv_limbo_wr S F A s b n q f :
  inv S F A s → S !! b = Some n → b ∉ F ∪ A → own b n q → (∀ d, start (f d) = start d) →
  inv S F A (wr junk s q f).
Proof.
  intros Hi Hb Hlim Hq Hf. apply (inv_ext S F A s); [done| | |apply dom_wr|done..].
  - intros b' n' q' Hb' Hq'. rewrite rd_wr. case_decide; [by subst; rewrite Hf|done].
  - intros b' n' q' Hb' HFA Hq'. apply rd_wr_ne. intros ->.
    assert (b = b') as <- by (by eapply own_disjoint; [apply Hi|..]). done.
Qed.

(** ** A group leaves [A], or joins it *)
Lemma inv_drop S F A s b : inv S F A s → inv S F (A ∖ {[b]}) s.
Proof.
  intros []. constructor; try done.
  - set_solver.
  - set_solver.
  - intros b' n' Hb'. set_solver.
Qed.

Lemma inv_take S F A s b n :
  inv S F A s → S !! b = Some n → b ∉ F → alloc_part s b n → inv S F (A ∪ {[b]}) s.
Proof.
  intros [] Hb HF Ha. constructor; try done.
  - apply union_subseteq. split; [done|]. apply singleton_subseteq_l. by apply elem_of_dom_2 in Hb.
  - set_solver.
  - intros b' n' [Hb'| ->%elem_of_singleton]%elem_of_union Hn'; [eauto|]. congruence.
Qed.

(** ** Groups that are being worked on are joined and cut *)
Lemma in_bucket_ext S S' F ln b :
  (b ∈ F → S' !! b = S !! b) → in_bucket S' F ln b ↔ in_bucket S F ln b.
Proof. intros E. unfold in_bucket. split; intros (HF & n & Hn & ?); (split; [done|exists n]); [rewrite <- E|rewrite E]; done. Qed.
Lemma in_megas_ext S S' F b :
  (b ∈ F → S' !! b = S !! b) → in_megas S' F b ↔ in_megas S F b.
Proof. intros E. unfold in_megas. split; intros (HF & n & Hn & ?); (split; [done|exists n]); [rewrite <- E|rewrite E]; done. Qed.

(** Another layout with the same groups in [F] and [A]. *)
Lemma inv_layout S S' F A s :
  inv S F A s → layout S' → heap_blocks S' = heap_blocks S → (∀ b, b ∈ F ∪ A → S' !! b = S !! b) →
  (∀ b n, S' !! b = Some n → grp s b n) →
  (∀ b n x, S' !! b = Some n → 1048576 * (b / 256) <= x < 1048576 * ((b + n + 255) / 256) → mapped (os (mbs s)) x) →
  inv S' F A s.
Proof.
  intros [] Hl' Ht HFA Hg Hmap.
  assert (∀ b, b ∈ F → S' !! b = S !! b) as HF by (intros; apply HFA; set_solver).
  assert (∀ b, b ∈ A → S' !! b = S !! b) as HA by (intros; apply HFA; set_solver).
  constructor; try done.
  - intros b Hb. apply elem_of_dom. rewrite HF by done. apply elem_of_dom. auto.
  - intros b Hb. apply elem_of_dom. rewrite HA by done. apply elem_of_dom. auto.
  - intros b n Hb Hn. rewrite HA in Hn by done. eauto.
  - intros b n Hb Hn. rewrite HF in Hn by done. eauto.
  - intros ln Hln. destruct (iv_bucket0 ln Hln) as (B & HB & HBb). exists B. split; [done|].
    intros b. rewrite HBb. symmetry. apply in_bucket_ext. apply HF.
  - destruct iv_mega0 as (M & HM & HMs & HMb). exists M. split_and!; [done..|].
    intros b. rewrite HMb. symmetry. apply in_megas_ext. apply HF.
  - intros b n Hb Hn. rewrite HF in Hn by done. eauto.
  - intros b n n' HX Hb Hn Hn252 Hn' Hn'252 Hin. rewrite HF in Hn by done. rewrite HF in Hn' by done. by eapply (iv_coal_mega0 b n n').
  - by rewrite Ht.
Qed.

Lemma inv_join S F A s b n n' :
  inv S F A s → S !! b = Some n → S !! (b + n) = Some n' → n < 252 → b `mod` 256 + n < 256 →
  b ∉ F ∪ A → b + n ∉ F ∪ A → inv (joined S b (b + n) (n + n')) F A s.
Proof.
  intros Hi Hb Hc Hn Hm HbFA HcFA. pose proof (iv_layout Hi) as Hl.
  destruct (layout_join S b n n' Hl Hb Hc Hn Hm) as [Hl' Ht].
  destruct (layout_next _ _ _ Hl Hb Hn Hm) as (n'' & Hc' & Hn' & Em & Hend). rewrite Hc in Hc'. injection Hc' as <-.
  pose proof (ly_pos _ Hl _ _ Hb) as (P1 & P2 & P3).
  pose proof (iv_grp Hi _ _ Hb) as G1. pose proof (iv_grp Hi _ _ Hc) as G3.
  apply (inv_layout S); [done..| | |]; unfold joined.
  - intros x Hx. rewrite lookup_insert_ne, lookup_delete_ne; [done| |]; intros <-; done.
  - intros x k Hx. lk; [|by eapply (iv_grp Hi)]. intros i Hi'.
    destruct (decide (i < n)); [apply G1; lia|].
    replace (b + i) with (b + n + (i - n)) by lia. apply G3. lia.
  - intros x k y Hx Hy. lk; [|by eapply (iv_mapped Hi)]. apply (iv_mapped Hi b n); [done|].
    clear -Hy Hm Hend P2 P3. zlia.
Qed.

Lemma inv_cut S F A s b n1 n2 :
  inv S F A s → S !! b = Some (n1 + n2) → 1 <= n1 → 1 <= n2 → n1 + n2 <= 252 → b ∉ F ∪ A →
  inv (cut_in S b n1 (b + n1) n2) F A s.
Proof.
  intros Hi Hb Hn1 Hn2 Hn HbFA. pose proof (iv_layout Hi) as Hl.
  destruct (layout_cut S b n1 n2 Hl Hb Hn1 Hn2 Hn) as [Hl' Ht].
  pose proof (ly_pos _ Hl _ _ Hb) as (P1 & P2 & P3).
  assert (b `mod` 256 + (n1 + n2) <= 256) as Hm.
  { destruct (decide (n1 + n2 < 252)); [by eapply (ly_small _ Hl)|]. destruct (ly_mega _ Hl _ _ Hb); lia. }
  assert (S !! (b + n1) = None) as Hc by (eapply layout_inside; [done..|lia]).
  pose proof (iv_grp Hi _ _ Hb) as G1.
  apply (inv_layout S); [done..| | |]; unfold cut_in.
  - intros x Hx. rewrite !lookup_insert_ne; [done| |]; intros <-; [|done].
    assert (b + n1 ∈ dom S); [|by apply not_elem_of_dom in Hc].
    apply elem_of_union in Hx as [Hx|Hx]; [by apply (iv_F Hi)|by apply (iv_A Hi)].
  - intros x k Hx. lk; [| |by eapply (iv_grp Hi)]; intros i Hi'.
    + apply G1. lia.
    + rewrite <- Z.add_assoc. apply G1. lia.
  - intros x k y Hx Hy. lk; [| |by eapply (iv_mapped Hi)];
      apply (iv_mapped Hi b (n1 + n2)); try done; clear -Hy Hm P2 P3 Hn1 Hn2; zlia.
Qed.
End inv.
Arguments iv_layout {OS H junk X S F A s}.
Arguments iv_F {OS H junk X S F A s}.
Arguments iv_A {OS H junk X S F A s}.
Arguments iv_FA {OS H junk X S F A s}.
Arguments iv_grp {OS H junk X S F A s}.
Arguments iv_alloc {OS H junk X S F A s}.
Arguments iv_free {OS H junk X S F A s}.
Arguments iv_bucket {OS H junk X S F A s}.
Arguments iv_mega {OS H junk X S F A s}.
Arguments iv_coal {OS H junk X S F A s}.
Arguments iv_coal_mega {OS H junk X S F A s}.
Arguments iv_mapped {OS H junk X S F A s}.
Arguments iv_mm {OS H junk X S F A s}.
Arguments iv_total {OS H junk X S F A s}.
