(* ===== verification/BlockLists.v ===== *)
(** * Steps on groups

    Taking a group off its bucket and putting one on, as steps on the
    invariant, with the frame of what they touch. *)
From S2P Require Import Prelude DList MBlock MBlockProps BlockAlloc BlockArith BlockMem BlockLayout BlockInv.
From stdpp Require Import list gmap sets sorting.
Local Open Scope Z_scope.

Section lists.
Context {OS : Type} `{OsMem OS}.
Variable junk : ptr → bdescr.
Variable X : gset Z.
Notation rd := (rd junk).
Notation inv := (inv junk X).
Implicit Types (s : ba OS) (S : gmap Z Z) (F A : gset Z).

(** ** What a step changes *)

(** Descriptors outside [P] stay, and no [start] field changes. *)
Record touched (P : ptr → Prop) s s' : Prop := {
  th_out q : ¬ P q → rd s' q = rd s q;
  th_start q : start (rd s' q) = start (rd s q);
  th_fl : free_list s' = free_list s;
  th_rest : rest s' = rest s;
  th_dom : dom (bds s) ⊆ dom (bds s')
}.

Lemma touched_refl P s : touched P s s.
Proof. by constructor. Qed.
Lemma touched_trans P s1 s2 s3 : touched P s1 s2 → touched P s2 s3 → touched P s1 s3.
Proof.
  intros [O1 S1 L1 R1 D1] [O2 S2 L2 R2 D2]. constructor; [|congruence..|set_solver].
  intros q Hq. by rewrite O2, O1.
Qed.
Lemma touched_mono (P Q : ptr → Prop) s s' : (∀ q, P q → Q q) → touched P s s' → touched Q s s'.
Proof. intros HPQ []. constructor; eauto. Qed.
Lemma touched_wr (P : ptr → Prop) s p f : P p → (∀ d, start (f d) = start d) → touched P s (wr junk s p f).
Proof.
  intros Hp Hf. constructor; [| |done|done|apply dom_wr].
  - intros q Hq. apply rd_wr_ne. by intros ->.
  - intros q. rewrite rd_wr. case_decide; [by subst|done].
Qed.

(** The descriptors that a group of [n] blocks would have if they were all in
    one row: [initGroup] writes them, in the memory of the group. *)
Definition row (b n : Z) (q : ptr) : Prop := ∃ i, 0 <= i < n ∧ q = bd_add (desc b) i.

Lemma desc_row S b n i : layout S → S !! b = Some n → 0 <= i < Z.min n 252 →
  bd_add (desc b) i = desc (b + i).
Proof.
  intros Hl Hb Hi. apply desc_add. destruct (ly_pos _ Hl _ _ Hb) as (_ & ? & _).
  destruct (decide (n < 252)) as [Hn|Hn].
  - pose proof (ly_small _ Hl _ _ Hb Hn). lia.
  - destruct (ly_mega _ Hl _ _ Hb); lia.
Qed.

Lemma own_row S b n q : layout S → S !! b = Some n → own b n q → row b n q.
Proof. intros Hl Hb (i & Hi & ->). exists i. split; [lia|]. symmetry. by eapply desc_row. Qed.

Lemma row_disjoint S b n b' n' q :
  layout S → S !! b = Some n → S !! b' = Some n' → row b n q → own b' n' q → b = b'.
Proof.
  intros Hl Hb Hb' (i & Hi & ->) (j & Hj & E). destruct (decide (i < 252)) as [Hlt|Hge].
  - rewrite (desc_row S b n i) in E by (done || lia). apply desc_inj in E.
    apply (layout_uniq S b n b' n' (b + i)); [done..|lia|lia].
  - destruct (ly_mega _ Hl _ _ Hb) as [M1 M2]; [lia|].
    pose proof (ly_pos _ Hl _ _ Hb). pose proof (ly_pos _ Hl _ _ Hb') as (P1 & P2 & P3).
    assert (4 <= (b' + j) `mod` 256).
    { destruct (decide (n' < 252)) as [Hn'|Hn'].
      - pose proof (ly_small _ Hl _ _ Hb' Hn'). clear -P2 H1 Hj. zlia.
      - destruct (ly_mega _ Hl _ _ Hb') as [M3 _]; [lia|]. clear -M3 Hj. zlia. }
    apply (layout_uniq S b n b' n' (b' + j)); [done..| |lia].
    unfold bd_add, BDESCR_SIZE, desc in E. clear -E M1 M2 H1 Hi Hge. zlia.
Qed.

(** A step within a group that is being worked on. *)
Lemma inv_touched S F A s s' b n :
  inv S F A s → S !! b = Some n → b ∉ F ∪ A → touched (row b n) s s' → inv S F A s'.
Proof.
  intros Hi Hb Hlim [Ho Hs Hf Hr Hd]. unfold rest in Hr. apply (inv_ext junk X S F A s); [done| | |done|done|congruence|congruence].
  - intros b' n' q Hb' Hq. apply Hs.
  - intros b' n' q Hb' HFA Hq. apply Ho. intros Hrow.
    assert (b = b') as <- by (by eapply row_disjoint; [apply Hi|..]). done.
Qed.

(** ** Relinking a bucket *)
Lemma inv_relink S F A F' s s' ln B' :
  inv S F A s → relinked junk (desc <$> B') s s' → (ln < MAX_FREE_LIST)%nat →
  (∀ b, b ∈ B' → ∃ n, S !! b = Some n ∧ n < 252 ∧ log_2 n = ln ∧ b ∉ A) →
  (∀ b n, b ∈ F' → S !! b = Some n → free_part junk s b n) →
  F' ⊆ dom S → F' ## A →
  (∃ B, bucket junk s' ln (desc <$> B) ∧ ∀ b, b ∈ B ↔ in_bucket S F' ln b) →
  (∀ b n, S !! b = Some n → 252 <= n ∨ log_2 n ≠ ln → b ∈ F' ↔ b ∈ F) →
  (∀ k, k ≠ ln → free_list s' !! k = free_list s !! k) →
  (∀ b n, b ∈ F' → S !! b = Some n → n < 252 → b + n ∉ F') →
  inv S F' A s'.
Proof.
  intros Hi HR Hln HB' Hfree HF' HFA' Hbk HFF Hfl Hcoal. pose proof (iv_layout Hi) as Hl.
  pose proof (rl_rest _ _ _ _ HR) as Hrest. unfold rest in Hrest. injection Hrest as Hfm _ _ _ Hmb.
  assert (∀ b n q, S !! b = Some n → own b n q → b ∉ B' ∨ q ≠ desc b → rd s' q = rd s q) as Hout.
  { intros b n q Hb Hq Hor. apply (rl_out _ _ _ _ HR). intros (b' & -> & Hb')%list_elem_of_fmap.
    destruct (HB' b' Hb') as (n' & Hn' & _). assert (b' = b) as ->.
    { eapply own_disjoint; [done|exact Hn'|exact Hb|apply own_head; by eapply ly_pos|done]. }
    destruct Hor; done. }
  constructor; try apply Hi; try done.
  - intros b n Hb. eapply grp_ext; [|apply HR|by apply (iv_grp Hi)].
    intros q _. by destruct (core_eq _ _ (rl_core _ _ _ _ HR q)).
  - intros b n HbA Hb. eapply alloc_ext; [by eapply ly_pos| |by apply (iv_alloc Hi)].
    intros q Hq. eapply Hout; [done..|]. left. intros HbB. destruct (HB' b HbB) as (? & _ & _ & _ & ?). done.
  - intros b n HbF Hb. eapply free_ext; [by eapply ly_pos| | |by apply Hfree].
    + intros q Hq Hne. eapply Hout; [done..|]. by right.
    + apply (rl_core _ _ _ _ HR).
  - intros k Hk. destruct (decide (k = ln)) as [->|Hne]; [done|].
    destruct (iv_bucket Hi k Hk) as (B & HB & HBb). exists B. split.
    + eapply bucket_frame; [done|by apply Hfl| |done].
      intros x (b & -> & Hb)%list_elem_of_fmap (b' & E & Hb')%list_elem_of_fmap.
      apply desc_inj in E as <-. apply HBb in Hb as (_ & n & Hn & _ & Hlog).
      destruct (HB' b Hb') as (n' & Hn' & _ & Hlog' & _). congruence.
    + intros b. rewrite HBb. unfold in_bucket. split; intros (HbF & n & Hn & Hn252 & Hlog);
        (split; [|by exists n]); apply (HFF b n Hn); try done; right; congruence.
  - destruct (iv_mega Hi) as (M & Hs & HM & HMb). exists M. rewrite Hfm. split_and!; [|done|].
    + eapply slist_ext; [|done]. intros x (b & -> & Hb)%list_elem_of_fmap. unfold nx. f_equal. f_equal.
      apply (rl_out _ _ _ _ HR). intros (b' & E & Hb')%list_elem_of_fmap. apply desc_inj in E as <-.
      apply HMb in Hb as (_ & n & Hn & Hn252). destruct (HB' b Hb') as (n' & Hn' & ? & _).
      assert (n = n') by congruence. lia.
    + intros b. rewrite HMb. unfold in_megas. split; intros (HbF & n & Hn & Hn252);
        (split; [|by exists n]); apply (HFF b n Hn); auto.
  - intros b n n' HX HbF Hb Hn Hc Hn' HcF. apply (iv_coal_mega Hi b n n'); try done.
    + apply (HFF b n Hb); auto.
    + apply (HFF _ n' Hc); auto.
  - rewrite Hmb. by apply (iv_mapped Hi).
  - rewrite Hmb. apply Hi.
  - rewrite Hmb. apply Hi.
Qed.

(** Off its bucket. *)
Lemma unlist_ok S F A s b n :
  inv S F A s → b ∈ F → S !! b = Some n → n < 252 →
  wp (dbl_link_remove junk (desc b) (log_2 n))
    (λ _ s', inv S (F ∖ {[b]}) A s' ∧ relinked junk (desc <$> elements F) s s') s.
Proof.
  intros Hi HbF Hb Hn. pose proof (iv_layout Hi) as Hl. destruct (ly_pos _ Hl _ _ Hb) as (_ & _ & Hn1).
  destruct (log_2_spec n ltac:(lia)) as [Hln _].
  destruct (iv_bucket Hi _ Hln) as (B & HB & HBb).
  assert (b ∈ B) as HbB by (apply HBb; split; [done|by exists n]).
  apply list_elem_of_split in HbB as (B1 & B2 & ->). rewrite fmap_app, fmap_cons in HB.
  eapply wp_mono; [by apply link_remove_ok|]. intros _ s' (HB' & HR & hd & Hfl).
  assert (NoDup (B1 ++ b :: B2)) as Hnd.
  { destruct HB as (? & ? & _ & _ & Hnd). rewrite <- fmap_cons, <- fmap_app in Hnd. by apply NoDup_fmap_1 in Hnd. }
  rewrite <- fmap_cons, <- fmap_app in HR. split.
  - apply (inv_relink S F A (F ∖ {[b]}) s s' (log_2 n) (B1 ++ b :: B2)); [done..| | | | | | | |].
    + intros b' Hb'. apply HBb in Hb' as (HbF' & n' & Hn' & ? & ?). exists n'. split_and!; [done..|].
      intros HbA. by apply (iv_FA Hi b').
    + intros b' n' Hb' Hn'. apply (iv_free Hi); [set_solver|done].
    + pose proof (iv_F Hi). set_solver.
    + pose proof (iv_FA Hi). set_solver.
    + exists (B1 ++ B2). rewrite fmap_app. split; [done|]. intros b'.
      apply NoDup_app in Hnd as (_ & H12 & [H2 _]%NoDup_cons).
      assert (b ∉ B1) as H1 by (intros Hx; apply (H12 b Hx); by left).
      specialize (HBb b'). unfold in_bucket in *. rewrite elem_of_difference, not_elem_of_singleton. set_solver.
    + intros b' n' Hb' Hor. rewrite elem_of_difference, not_elem_of_singleton.
      split; [tauto|]. intros HF'. split; [done|]. intros ->. assert (n' = n) by congruence. subst n'. destruct Hor; [lia|done].
    + intros k Hk. rewrite Hfl. by rewrite list_lookup_insert_ne.
    + intros b' n' Hb' Hn' Hs. pose proof (iv_coal Hi b' n'). set_solver.
  - eapply relinked_mono; [|done]. intros x (b' & -> & Hb')%list_elem_of_fmap.
    apply list_elem_of_fmap. exists b'. split; [done|]. apply elem_of_elements. by apply HBb in Hb' as [? _].
Qed.

(** On its bucket: a group whose neighbours are not free. *)
Lemma enlist_ok S F A s b n :
  inv S F A s → b ∉ F ∪ A → S !! b = Some n → n < 252 → free_part junk s b n →
  b + n ∉ F → (∀ b' n', b' ∈ F → S !! b' = Some n' → b' + n' ≠ b) →
  wp (dbl_link_onto junk (desc b) (log_2 n))
    (λ _ s', inv S (F ∪ {[b]}) A s' ∧ relinked junk (desc <$> elements (F ∪ {[b]})) s s') s.
Proof.
  intros Hi Hlim Hb Hn Hfree Hnext Hprev. pose proof (iv_layout Hi) as Hl.
  destruct (ly_pos _ Hl _ _ Hb) as (_ & _ & Hn1). destruct (log_2_spec n ltac:(lia)) as [Hln _].
  destruct (iv_bucket Hi _ Hln) as (B & HB & HBb).
  assert (b ∉ B) as HbB by (intros [? _]%HBb; set_solver).
  eapply wp_mono; [apply (link_onto_ok junk s (log_2 n) (desc <$> B)); [done| |by eapply inv_pos]|].
  { intros (b' & E & Hb')%list_elem_of_fmap. apply desc_inj in E as <-. done. }
  intros _ s' (HB' & HR & Hfl). rewrite <- fmap_cons in HB', HR. split.
  - apply (inv_relink S F A (F ∪ {[b]}) s s' (log_2 n) (b :: B)); [done..| | | | | | | |].
    + intros b' [->|Hb']%elem_of_cons; [exists n; split_and!; [done..|set_solver]|].
      apply HBb in Hb' as (HbF' & n' & Hn' & ? & ?). exists n'. split_and!; [done..|].
      intros HbA. by apply (iv_FA Hi b').
    + intros b' n' [Hb'|Hb']%elem_of_union Hn'; [by apply (iv_free Hi)|].
      apply elem_of_singleton in Hb' as ->. by assert (n' = n) as -> by congruence.
    + pose proof (iv_F Hi). apply union_subseteq. split; [done|]. apply singleton_subseteq_l. by apply elem_of_dom_2 in Hb.
    + pose proof (iv_FA Hi). set_solver.
    + exists (b :: B). split; [done|]. intros b'. specialize (HBb b'). unfold in_bucket in *.
      rewrite elem_of_cons, elem_of_union, elem_of_singleton, HBb. split.
      * intros [->|[? ?]]; [split; [by right|by exists n]|split; [by left|done]].
      * intros [[?| ->] Hx]; [by right|by left].
    + intros b' n' Hb' Hor. rewrite elem_of_union, elem_of_singleton.
      split; [|by left]. intros [?| ->]; [done|]. assert (n' = n) by congruence. subst n'. destruct Hor; [lia|done].
    + intros k Hk. rewrite Hfl. by rewrite list_lookup_insert_ne.
    + intros b' n' [Hb'|Hb']%elem_of_union Hn' Hs; rewrite elem_of_union, elem_of_singleton; intros [Hx|Hx].
      * by apply (iv_coal Hi b' n').
      * by apply (Hprev b' n').
      * apply elem_of_singleton in Hb' as ->. by assert (n' = n) as -> by congruence.
      * apply elem_of_singleton in Hb' as ->. assert (n' = n) by congruence. lia.
  - eapply relinked_mono; [|done]. intros x (b' & -> & Hb')%list_elem_of_fmap.
    apply list_elem_of_fmap. exists b'. split; [done|]. apply elem_of_elements.
    apply elem_of_cons in Hb' as [->|[Hb' _]%HBb]; set_solver.
Qed.
End lists.
