(* ===== verification/BlockGroup.v ===== *)
(** * Initialising groups

    The tail of a small group, the descriptors of an allocated group and the
    [start] fields of a megablock. *)
From S2P Require Import Prelude DList MBlock MBlockProps BlockAlloc BlockArith BlockMem BlockLayout BlockInv BlockLists.
From stdpp Require Import list gmap sets sorting.
Local Open Scope Z_scope.

Section group.
Context {OS : Type} `{OsMem OS}.
Variable junk : ptr → bdescr.
Variable X : gset Z.
Notation rd := (rd junk).
Notation inv := (inv junk X).
Notation inner := (inner junk).
Notation touched := (touched junk).
Implicit Types (s : ba OS) (S : gmap Z Z) (F A : gset Z).

(** ** Tails *)
Lemma wp_tail_of p Q s :
  p ≠ END → Q (bd_add p (blocks (rd s p) - 1)) s → wp (tail_of junk p) Q s.
Proof.
  intros Hp HQ. unfold tail_of. wp_step. apply wp_ld; [done|]. wp_step.
  replace (bd_add (bd_add p (blocks (rd s p))) (-1)) with (bd_add p (blocks (rd s p) - 1)); [done|].
  unfold bd_add, BDESCR_SIZE. lia.
Qed.

Lemma setup_tail_ok S F A s b n :
  inv S F A s → S !! b = Some n → b ∉ F ∪ A → n < 252 → blocks (rd s (desc b)) = n →
  wp (setup_tail junk (desc b))
    (λ _ s', inv S F A s' ∧ touched (row b n) s s' ∧ rd s' (desc b) = rd s (desc b) ∧
      (1 < n → inner s' (desc b) (desc (b + n - 1)))) s.
Proof.
  intros Hi Hb Hlim Hn Hbl. pose proof (iv_layout Hi) as Hl.
  destruct (ly_pos _ Hl _ _ Hb) as (_ & _ & Hn1). unfold setup_tail. wp_step.
  apply wp_tail_of; [by eapply inv_pos|]. rewrite Hbl.
  rewrite (desc_row S b n (n - 1)) by (done || lia). replace (b + (n - 1)) with (b + n - 1) by lia.
  destruct (decide (n = 1)) as [->|Hne].
  - replace (b + 1 - 1) with b by lia. rewrite Z.eqb_refl. apply wp_ret.
    split_and!; [done|apply touched_refl|done|lia].
  - assert (desc (b + n - 1) ≠ desc b) as Hne' by (intros E%desc_inj; lia).
    assert (desc (b + n - 1) ≠ END) as Hpos.
    { pose proof (desc_lt b (b + n - 1)). destruct (layout_pos _ _ _ Hl Hb). unfold END in *. lia. }
    assert (row b n (desc (b + n - 1))) as Hrow.
    { exists (n - 1). split; [lia|]. rewrite (desc_row S b n) by (done || lia). f_equal. lia. }
    rewrite (proj2 (Z.eqb_neq _ _) Hne'). cbn [negb when].
    wp_step. apply wp_upd; [done|]. wp_step. apply wp_upd; [done|]. apply wp_upd; [done|].
    set (s' := wr junk _ _ _).
    assert (touched (row b n) s s') as Ht.
    { eapply touched_trans; [|by apply touched_wr]. eapply touched_trans; by apply touched_wr. }
    split_and!; [by eapply inv_touched|done| |].
    + unfold s'. by rewrite !rd_wr_ne.
    + intros _. unfold inner, s'. by rewrite !rd_wr_eq.
Qed.

(** ** Allocated groups *)
Lemma initGroup_mem S b n s :
  layout S → S !! b = Some n → blocks (rd s (desc b)) = n →
  wp (initGroup junk (desc b))
    (λ _ s', touched (row b n) s s' ∧ rd s' (desc b) = set_link END (set_free (start (rd s (desc b))) (rd s (desc b))) ∧
      ∀ i, 0 < i < n → inner s' (desc b) (bd_add (desc b) i)) s.
Proof.
  intros Hl Hb Hbl. destruct (ly_pos _ Hl _ _ Hb) as (_ & _ & Hn1). destruct (layout_pos _ _ _ Hl Hb) as [Hpos Hne].
  unfold initGroup. wp_step. apply wp_ld; [done|]. rewrite Hbl. wp_step. apply wp_upd; [done|].
  wp_step. apply wp_upd; [done|]. set (s1 := wr junk _ _ _).
  assert (row b n (desc b)) as Hrow.
  { exists 0. split; [lia|]. unfold bd_add. lia. }
  assert (touched (row b n) s s1) as Ht1 by (eapply touched_trans; by apply touched_wr).
  assert (rd s1 (desc b) = set_link END (set_free (start (rd s (desc b))) (rd s (desc b)))) as E1.
  { unfold s1. by rewrite !rd_wr_eq. }
  eapply wp_mono; [apply (wp_for_each (λ pre s', touched (row b n) s s' ∧ rd s' (desc b) = rd s1 (desc b) ∧
    ∀ j, j ∈ pre → inner s' (desc b) (bd_add (desc b) (Z.of_nat j))))|].
  - split_and!; [done|done|]. by intros j ?%elem_of_nil.
  - intros pre i rs s2 Hseq (Ht2 & E2 & Hpre).
    assert (i ∈ seq 1 (Z.to_nat n - 1)) as Hin by (rewrite Hseq; apply elem_of_app; right; by left).
    apply elem_of_seq in Hin. set (q := bd_add (desc b) (Z.of_nat i)).
    assert (desc b < q) as Hlt by (unfold q, bd_add, BDESCR_SIZE; lia).
    assert (q ≠ END) as Hqe by (unfold END; lia).
    assert (row b n q) as Hq by (exists (Z.of_nat i); split; [lia|done]).
    wp_step. apply wp_upd; [done|]. wp_step. apply wp_upd; [done|]. apply wp_upd; [done|]. set (s3 := wr junk _ _ _).
    assert (∀ p, rd s3 p = if decide (p = q) then set_link (desc b) (set_blocks 0 (set_free 0 (rd s2 q))) else rd s2 p) as E3.
    { intros p. unfold s3. destruct (decide (p = q)) as [->|]; [by rewrite !rd_wr_eq|by rewrite !rd_wr_ne]. }
    split_and!.
    + eapply touched_trans; [done|]. eapply touched_trans; [|by apply touched_wr].
      eapply touched_trans; by apply touched_wr.
    + rewrite E3, decide_False by lia. done.
    + intros j [Hj|Hj]%elem_of_app.
      * unfold inner. rewrite E3. case_decide; [done|by apply Hpre].
      * apply list_elem_of_singleton in Hj as ->. unfold inner. rewrite E3, decide_True by done. done.
  - intros _ s2 (Ht2 & E2 & Hpre). split_and!; [done|by rewrite E2|]. intros i Hi.
    replace i with (Z.of_nat (Z.to_nat i)) by lia. apply Hpre. apply elem_of_seq. lia.
Qed.

Lemma initGroup_ok S F A s b n :
  inv S F A s → S !! b = Some n → b ∉ F ∪ A → blocks (rd s (desc b)) = n →
  wp (initGroup junk (desc b))
    (λ _ s', inv S F (A ∪ {[b]}) s' ∧ touched (row b n) s s' ∧
      free (rd s' (desc b)) = 4096 * b ∧ link (rd s' (desc b)) = END) s.
Proof.
  intros Hi Hb Hlim Hbl. pose proof (iv_layout Hi) as Hl.
  destruct (ly_pos _ Hl _ _ Hb) as (Hb0 & _ & Hn1). pose proof (ly_max _ Hl _ _ Hb) as Hmax.
  eapply wp_mono; [by eapply initGroup_mem|]. intros _ s' (Ht & Eh & Hin).
  assert (start (rd s (desc b)) = 4096 * b) as Est.
  { destruct (iv_grp Hi _ _ Hb 0 ltac:(lia)) as [Hg0 _]. by rewrite !Z.add_0_r in Hg0. }
  rewrite Est in Eh. split_and!; [|done|by rewrite Eh|by rewrite Eh].
  eapply inv_take; [by eapply inv_touched|done|set_solver|]. split_and!.
  - by rewrite Eh.
  - rewrite Eh. cbn. unfold FREE. lia.
  - intros i Hi'. rewrite <- (desc_row S b n) by (done || lia). apply Hin. lia.
Qed.

(** ** Megablocks *)
Lemma initMBlock_ok s x :
  0 <= x →
  wp (initMBlock junk (x * 1048576))
    (λ _ s', grp junk s' (256 * x + 4) 252 ∧
      (∀ q, (∀ i, 0 <= i < 252 → q ≠ desc (256 * x + 4 + i)) → rd s' q = rd s q) ∧
      dom (bds s) ⊆ dom (bds s') ∧ free_list s' = free_list s ∧ rest s' = rest s) s.
Proof.
  intros Hx. unfold initMBlock. change (Z.to_nat BLOCKS_PER_MBLOCK) with 252%nat.
  eapply wp_mono; [apply (wp_for_each (λ pre s',
    (∀ i, i ∈ pre → start (rd s' (desc (256 * x + 4 + Z.of_nat i))) = 4096 * (256 * x + 4 + Z.of_nat i) ∧
      desc (256 * x + 4 + Z.of_nat i) ∈ dom (bds s')) ∧
    (∀ q, (∀ i, 0 <= i < 252 → q ≠ desc (256 * x + 4 + i)) → rd s' q = rd s q) ∧
    dom (bds s) ⊆ dom (bds s') ∧ free_list s' = free_list s ∧ rest s' = rest s))|].
  - split_and!; [by intros i ?%elem_of_nil|done..].
  - intros pre i rs s1 Hseq (H1 & H2 & H3 & H4 & H5).
    assert (i ∈ seq 0 252) as Hin by (rewrite Hseq; apply elem_of_app; right; by left). apply elem_of_seq in Hin.
    assert (bd_add (FIRST_BDESCR (x * 1048576)) (Z.of_nat i) = desc (256 * x + 4 + Z.of_nat i)) as ->.
    { rewrite desc_first, desc_add; [done|]. clear -Hin. zlia. }
    rewrite first_block. set (q := desc (256 * x + 4 + Z.of_nat i)).
    assert (q ≠ END) as Hqe.
    { unfold q. pose proof (desc_lt 0 (256 * x + 4 + Z.of_nat i)). change (desc 0) with 0 in *. unfold END. lia. }
    apply wp_upd; [done|]. split_and!; [| | |done|done].
    + intros j [Hj|Hj]%elem_of_app.
      * destruct (H1 j Hj) as [Hs Hd]. split; [|by apply dom_wr].
        rewrite rd_wr. case_decide as E; [|done]. apply desc_inj in E. cbn. change BLOCK_SIZE with 4096. lia.
      * apply list_elem_of_singleton in Hj as ->. split.
        -- fold q. rewrite rd_wr_eq. cbn. change BLOCK_SIZE with 4096. lia.
        -- fold q. unfold wr. cbn. rewrite dom_insert_L. set_solver.
    + intros q' Hq'. rewrite rd_wr_ne; [by apply H2|]. apply Hq'. lia.
    + etransitivity; [done|apply dom_wr].
  - intros _ s' (H1 & H2 & H3 & H4 & H5). split_and!; [|done..].
    intros i Hi. replace i with (Z.of_nat (Z.to_nat i)) by lia. apply H1. apply elem_of_seq. lia.
Qed.
End group.
