(* ===== verification/BlockSanity.v ===== *)
(** * checkFreeListSanity

    Every assertion of the sanity check holds in a state of the invariant in
    which no group is being worked on. *)
From S2P Require Import Prelude DList MBlock MBlockProps BlockAlloc BlockArith BlockMem BlockLayout BlockInv BlockLists BlockGroup.
From stdpp Require Import list gmap sets sorting.
Local Open Scope Z_scope.

Section sanity.
Context {OS : Type} `{OsMem OS}.
Variable junk : ptr → bdescr.
Notation rd := (rd junk).
Notation inv := (inv junk ∅).
Implicit Types (s : ba OS) (S : gmap Z Z) (F A : gset Z).

(** ** Bounds of the walks *)
Lemma fuel_enough s (L : list ptr) :
  NoDup L → (∀ x, x ∈ L → x ∈ dom (bds s)) → (length L < fuel_of s)%nat.
Proof.
  intros Hnd Hd. unfold fuel_of. apply Nat.lt_succ_r.
  rewrite <- size_dom, <- (size_list_to_set (C := gset ptr) L) by done.
  apply subseteq_size. intros x Hx%elem_of_list_to_set. auto.
Qed.

Lemma inv_dom S F A s b n : inv S F A s → S !! b = Some n → desc b ∈ dom (bds s).
Proof.
  intros Hi Hb. pose proof (ly_pos _ (iv_layout Hi) _ _ Hb). destruct (iv_grp Hi _ _ Hb 0 ltac:(lia)) as [_ Hd].
  by rewrite Z.add_0_r in Hd.
Qed.

Lemma desc_NoDup (B : list Z) : NoDup B → NoDup (desc <$> B).
Proof. apply NoDup_fmap_2. intros b b'. apply desc_inj. Qed.

Lemma sorted_NoDup (M : list Z) : StronglySorted Z.lt M → NoDup M.
Proof.
  induction 1 as [|x M _ IH Hx]; constructor; [|done]. intros Hin.
  rewrite Forall_forall in Hx. pose proof (Hx x Hin). lia.
Qed.

Lemma bucket_fuel S F A s B :
  inv S F A s → NoDup (desc <$> B) → (∀ b, b ∈ B → b ∈ F) → (length B < fuel_of s)%nat.
Proof.
  intros Hi Hnd HB. rewrite <- (length_fmap desc). apply fuel_enough; [done|].
  intros x (b & -> & Hb)%list_elem_of_fmap. apply HB in Hb. apply (iv_F Hi) in Hb.
  apply elem_of_dom in Hb as [n Hn]. by eapply inv_dom.
Qed.

(** ** One group *)
Lemma check_tail_ok S F A s b n :
  inv S F A s → b ∈ F → S !! b = Some n → n < 252 → wp (check_tail junk (desc b)) (λ _ s', s' = s) s.
Proof.
  intros Hi HF Hb Hn. pose proof (iv_layout Hi) as Hl. destruct (ly_pos _ Hl _ _ Hb) as (_ & _ & Hn1).
  destruct (iv_free Hi _ _ HF Hb) as (Hbl & _ & Ht). unfold check_tail. wp_step.
  apply wp_tail_of; [by eapply inv_pos|]. rewrite Hbl. rewrite (desc_row S b n (n - 1)) by (done || lia).
  replace (b + (n - 1)) with (b + n - 1) by lia.
  destruct (decide (n = 1)) as [->|Hne].
  - replace (b + 1 - 1) with b by lia. rewrite Z.eqb_refl. by apply wp_ret.
  - destruct Ht as (T1 & T2 & T3); [lia|].
    assert (desc (b + n - 1) ≠ desc b) as Hne' by (intros E%desc_inj; lia).
    rewrite (proj2 (Z.eqb_neq _ _) Hne'). cbn [negb when]. wp_step. apply wp_ld.
    { pose proof (desc_lt b (b + n - 1)). destruct (layout_pos _ _ _ Hl Hb). unfold END in *. lia. }
    wp_step. apply wp_assert; [by apply Z.eqb_eq|]. wp_step. apply wp_assert; [by apply Z.eqb_eq|].
    apply wp_assert; [by apply Z.eqb_eq|]. done.
Qed.

Lemma check_group_ok S F A s ln b prev :
  inv S F A s → dom S = F ∪ A → (ln < MAX_FREE_LIST)%nat → in_bucket S F ln b →
  back (rd s (desc b)) = prev → link (rd s (desc b)) ≠ desc b →
  wp (check_group junk (Z.shiftl 1 (Z.of_nat ln)) prev (desc b)) (λ _ s', s' = s) s.
Proof.
  intros Hi Hdom Hln (HF & n & Hb & Hn & Hlog) Hback Hlink. pose proof (iv_layout Hi) as Hl.
  destruct (ly_pos _ Hl _ _ Hb) as (_ & Hb4 & Hn1). destruct (iv_free Hi _ _ HF Hb) as (Hbl & Hfr & _).
  destruct (log_2_spec n ltac:(lia)) as [_ Hrange]. rewrite Hlog in Hrange.
  unfold check_group. wp_step. apply wp_ld; [by eapply inv_pos|]. rewrite Hbl, Hfr.
  wp_step. apply wp_assert; [done|]. wp_step.
  apply wp_assert; [rewrite bpm; apply andb_true_iff; split; apply Z.ltb_lt; lia|]. wp_step.
  apply wp_assert.
  { rewrite Z.shiftl_mul_pow2, Z.mul_1_l by lia. rewrite wrapU_small.
    - rewrite Z.pow_add_r in Hrange by lia. apply andb_true_iff. split; apply Z.leb_le; lia.
    - split; [lia|]. assert (2 ^ Z.of_nat ln <= 2 ^ 9) by (apply Z.pow_le_mono_r; unfold MAX_FREE_LIST in *; lia). lia. }
  wp_step. apply wp_assert; [by apply negb_true_iff, Z.eqb_neq|]. wp_step.
  eapply wp_mono; [by eapply check_tail_ok|]. cbn beta. intros _ s' ->. wp_step.
  assert (wp (if negb (prev =? END) then ASSERT (back (rd s (desc b)) =? prev) else ASSERT (back (rd s (desc b)) =? END))
    (λ _ s', s' = s) s) as Hback'.
  { destruct (prev =? END) eqn:E; cbn [negb]; apply wp_assert; [|done| |done]; apply Z.eqb_eq; [|done].
    apply Z.eqb_eq in E. congruence. }
  eapply wp_mono; [apply Hback'|]. cbn beta. intros _ s' ->. wp_step; [|done]. wp_step.
  match goal with H : (_ <=? _) = true |- _ => apply Z.leb_le, next_in_mblock in H as Hm; [|lia] end.
  destruct (layout_next _ _ _ Hl Hb Hn Hm) as (n' & Hc & Hn' & Em & _).
  rewrite desc_add by lia. apply wp_ld; [by eapply inv_pos|].
  assert (b + n ∈ A) as HA.
  { pose proof (iv_coal Hi b n HF Hb Hn). apply elem_of_dom_2 in Hc. set_solver. }
  destruct (iv_alloc Hi _ _ HA Hc) as (_ & Hfr' & _).
  apply wp_assert; [by apply negb_true_iff, Z.eqb_neq|done].
Qed.

(** ** The lists *)
Lemma check_bucket_ok S F A s ln B fuel prev hd tl :
  inv S F A s → dom S = F ∪ A → (ln < MAX_FREE_LIST)%nat → (∀ b, b ∈ B → in_bucket S F ln b) →
  dlseg (nx junk s) (pv junk s) prev hd (desc <$> B) tl END → NoDup (desc <$> B) → (length B < fuel)%nat →
  wp (check_bucket junk fuel (Z.shiftl 1 (Z.of_nat ln)) prev hd) (λ _ s', s' = s) s.
Proof.
  intros Hi Hdom Hln HB. revert prev hd fuel. induction B as [|b B IH]; intros prev hd fuel Hseg Hnd Hfuel.
  - destruct Hseg as [-> _]. destruct fuel; by apply wp_ret.
  - destruct fuel as [|fuel]; cbn [length] in Hfuel; [lia|].
    destruct Hseg as (-> & Hne & Hpv & n & Hnx & Hseg). cbn [fmap list_fmap] in Hnd.
    apply NoDup_cons in Hnd as [Hb Hnd]. cbn [check_bucket]. rewrite (proj2 (Z.eqb_neq _ _) Hne).
    unfold pv in Hpv. injection Hpv as Hpv. unfold nx in Hnx. injection Hnx as Hnx. wp_step.
    eapply wp_mono; [eapply (check_group_ok S F A); [done..|apply HB; by left|done|]|].
    { rewrite Hnx. intros ->. destruct B as [|b' B]; [by destruct Hseg|].
      destruct Hseg as [E _]. apply Hb. rewrite E. by left. }
    cbn beta. intros _ s' ->. wp_step. apply wp_ld; [done|]. rewrite Hnx.
    apply IH; [|done|done|lia]. intros b' Hb'. apply HB. by right.
Qed.

Lemma check_mega_ok S F A s b c n :
  inv S F A s → b ∈ F → S !! b = Some n → 252 <= n → link (rd s (desc b)) = c →
  (c = END ∨ ∃ b', c = desc b' ∧ b < b' ∧ in_megas S F b') →
  wp (check_mega junk (desc b)) (λ _ s', s' = s) s.
Proof.
  intros Hi HF Hb Hn Hlink Hc. pose proof (iv_layout Hi) as Hl.
  destruct (iv_free Hi _ _ HF Hb) as (Hbl & Hfr & _).
  destruct (layout_mega_size _ _ _ Hl Hb Hn) as (Hms & Hmax & Hb256).
  assert (∀ b n, S !! b = Some n → start (rd s (desc b)) = 4096 * b) as Hst.
  { intros b' n' Hb'. pose proof (ly_pos _ Hl _ _ Hb'). destruct (iv_grp Hi _ _ Hb' 0 ltac:(lia)) as [E _].
    by rewrite !Z.add_0_r in E. }
  unfold check_mega. wp_step. apply wp_ld; [by eapply inv_pos|]. rewrite Hlink, Hbl. wp_step.
  apply wp_assert.
  { apply negb_true_iff, Z.eqb_neq. destruct Hc as [->|(b' & -> & Hlt & _)].
    - intros E. by eapply inv_pos.
    - intros E%desc_inj. lia. }
  wp_step. destruct (mega_mblocks_val n Hms) as [En Hj].
  apply (wp_mono _ (λ _ s', s' = s)).
  { destruct Hc as [->|(b' & -> & Hlt & HF' & n' & Hb' & Hn')]; [by apply wp_ret|]. wp_step; [|done].
    wp_step. apply wp_ld; [by eapply inv_pos|]. apply wp_assert; [|done].
    rewrite (Hst b n Hb), (Hst b' n' Hb'). apply Z.ltb_lt. lia. }
  cbn beta. intros _ s' ->. wp_step. apply wp_assert; [rewrite bpm; apply Z.leb_le; lia|]. wp_step.
  apply wp_assert.
  { rewrite mega_mblocks, group_blocks_64 by (done || lia). apply Z.eqb_eq. lia. }
  destruct Hc as [->|(b' & -> & Hlt & HF' & n' & Hb' & Hn')]; [by apply wp_ret|].
  wp_step; [|done]. apply wp_assert; [|done]. apply negb_true_iff, Z.eqb_neq.
  rewrite !desc_round, mega_mblocks by (done || lia). change MBLOCK_SIZE with 1048576.
  pose proof (ly_max _ Hl _ _ Hb) as Hmx. pose proof (ly_pos _ Hl _ _ Hb) as (P1 & _).
  rewrite (wrapU_small 64 (_ * _)) by lia. rewrite wrapU_small by (clear -Hmx P1 En Hj Hb256; zlia).
  intros E. destruct (layout_mega_size _ _ _ Hl Hb' Hn') as (_ & _ & Hb256').
  apply (iv_coal_mega Hi b n n'); [set_solver|done|done|done| |done|];
    replace (b + n + 4) with b' by (clear -E En Hb256 Hb256'; lia); done.
Qed.

Lemma check_megas_ok S F A s M fuel hd :
  inv S F A s → (∀ b, b ∈ M → in_megas S F b) → StronglySorted Z.lt M →
  slist (nx junk s) hd (desc <$> M) END → (length M < fuel)%nat →
  wp (check_megas junk fuel hd) (λ _ s', s' = s) s.
Proof.
  intros Hi HM Hs. revert hd fuel. induction Hs as [|b M Hs IH Hb]; intros hd fuel Hseg Hfuel.
  - cbn in Hseg. subst hd. destruct fuel; by apply wp_ret.
  - destruct fuel as [|fuel]; cbn [length] in Hfuel; [lia|].
    destruct Hseg as (-> & Hne & n & Hnx & Hseg). cbn [check_megas]. rewrite (proj2 (Z.eqb_neq _ _) Hne).
    unfold nx in Hnx. injection Hnx as Hnx. wp_step. destruct (HM b) as (HF & k & Hk & Hk252); [by left|].
    eapply wp_mono; [eapply (check_mega_ok S F A s b n k); [done..|]|].
    { destruct M as [|b' M]; [by left|right]. destruct Hseg as [-> _]. exists b'.
      rewrite Forall_cons in Hb. split_and!; [done|apply Hb|apply HM; by right; left]. }
    cbn beta. intros _ s' ->. wp_step. apply wp_ld; [done|]. rewrite Hnx.
    apply IH; [|done|lia]. intros b' Hb'. apply HM. by right.
Qed.

Lemma sanity_ok S F A s :
  inv S F A s → dom S = F ∪ A → wp (checkFreeListSanity junk) (λ _ s', s' = s) s.
Proof.
  intros Hi Hdom. unfold checkFreeListSanity. do 2 wp_step. wp_step.
  eapply wp_mono; [apply (wp_for_each (λ _ s', s' = s)); [done|]|].
  - intros pre ln rs s1 Hseq ->.
    assert (ln ∈ seq 0 MAX_FREE_LIST) as Hln by (rewrite Hseq; apply elem_of_app; right; by left).
    apply elem_of_seq in Hln. destruct (iv_bucket Hi ln) as (B & HB & HBb); [lia|].
    wp_step. eapply wp_get_list; [done|]. intros hd tl _ [Hseg Hnd].
    eapply check_bucket_ok; [done|done|lia|intros b; apply HBb|done|done|].
    eapply bucket_fuel; [done|done|]. intros b Hb. by apply HBb in Hb as [? _].
  - cbn beta. intros _ s1 ->. do 2 wp_step. destruct (iv_mega Hi) as (M & Hs & HM & HMb).
    eapply check_megas_ok; [done|intros b; apply HMb|done|done|].
    eapply bucket_fuel; [done|by apply desc_NoDup, sorted_NoDup|]. intros b Hb. by apply HMb in Hb as [? _].
Qed.
End sanity.
