(* ===== verification/BlockMega.v ===== *)
(** * Megablock groups

    The address-ordered free list: finding the place of a group, putting it
    there, and coalescing it with its neighbours. *)
From S2P Require Import Prelude DList MBlock MBlockProps BlockAlloc BlockArith BlockMem BlockLayout BlockInv BlockLists BlockGroup BlockSanity.
From stdpp Require Import list gmap sets sorting.
Local Open Scope Z_scope.

Section mega.
Context {OS : Type} `{OsMem OS}.
Variable junk : ptr → bdescr.
Notation rd := (rd junk).
Notation inv := (inv junk).
Notation nx := (nx junk).
Implicit Types (s : ba OS) (S : gmap Z Z) (F A X : gset Z).

(** What the allocator keeps when it works for one caller: the allocated groups
    of the others and their descriptors, and the size of the heap. *)
Record evolves A S s S' s' : Prop := {
  ev_size a : a ∈ A → S' !! a = S !! a;
  ev_kept a n q : a ∈ A → S !! a = Some n → own a n q → rd s' q = rd s q;
  ev_heap : heap_blocks S' = heap_blocks S;
  ev_mbs : mbs s' = mbs s;
  ev_n : n_alloc_blocks s' = n_alloc_blocks s;
  ev_hw : hw_alloc_blocks s' = hw_alloc_blocks s;
  ev_mutex : sm_mutex s' = sm_mutex s
}.

Lemma evolves_refl A S s : evolves A S s S s.
Proof. by constructor. Qed.

Lemma evolves_trans A S1 s1 S2 s2 S3 s3 :
  evolves A S1 s1 S2 s2 → evolves A S2 s2 S3 s3 → evolves A S1 s1 S3 s3.
Proof.
  intros [Z1 K1 T1 B1 N1 W1 X1] [Z2 K2 T2 B2 N2 W2 X2]. constructor; [..|congruence|congruence|congruence|congruence|congruence].
  - intros a Ha. by rewrite Z2, Z1.
  - intros a n q Ha Hn Hq. rewrite (K2 a n q); [by eapply K1|done|by rewrite Z1|done].
Qed.

Lemma evolves_touched A S s s' b n :
  layout S → S !! b = Some n → b ∉ A → touched junk (row b n) s s' → evolves A S s S s'.
Proof.
  intros Hl Hb HA [Ho _ _ Hr _]. unfold rest in Hr. injection Hr as ? ? ? ? ?. constructor; [done| |done..].
  intros a k q Ha Hk Hq. apply Ho. intros Hrow. assert (b = a) as <- by (by eapply row_disjoint). done.
Qed.

Lemma evolves_relinked A S s s' F :
  layout S → F ⊆ dom S → F ## A → relinked junk (desc <$> elements F) s s' → evolves A S s S s'.
Proof.
  intros Hl HF HFA [Hr _ _ Ho]. unfold rest in Hr. injection Hr as ? ? ? ? ?. constructor; [done| |done..].
  intros a k q Ha Hk Hq. apply Ho. intros (f & -> & Hf)%list_elem_of_fmap. apply elem_of_elements in Hf.
  destruct (proj1 (elem_of_dom S f)) as [m Hm]; [by apply HF|].
  assert (f = a) as ->; [|by apply (HFA a)].
  eapply own_disjoint; [done|exact Hm|exact Hk|apply own_head; by eapply ly_pos|done].
Qed.

(** ** Steps on the megablock groups *)
Lemma inv_mega_gen X X' S S' F F' A s s' M' :
  inv X S F A s → layout S' →
  256 * mblocks_allocated (mbs s') = heap_blocks S' → mm_inv (mbs s') →
  (∀ x n, n < 252 → S' !! x = Some n ↔ S !! x = Some n) →
  (∀ x, x ∈ A → S' !! x = S !! x) →
  (∀ x n q, S !! x = Some n → n < 252 ∨ x ∈ A → own x n q → rd s' q = rd s q) →
  free_list s' = free_list s →
  (∀ x n, S !! x = Some n → n < 252 → x ∈ F' ↔ x ∈ F) → F' ⊆ dom S' → F' ## A →
  (∀ x n, S' !! x = Some n → grp junk s' x n) →
  (∀ x n y, S' !! x = Some n →
     1048576 * (x / 256) <= y < 1048576 * ((x + n + 255) / 256) → mapped (os (mbs s')) y) →
  (∀ x n, x ∈ F' → S' !! x = Some n → 252 <= n →
     blocks (rd s' (desc x)) = n ∧ free (rd s' (desc x)) = FREE) →
  slist (nx s') (free_mblock_list s') (desc <$> M') END → StronglySorted Z.lt M' →
  (∀ b, b ∈ M' ↔ in_megas S' F' b) →
  (∀ b n n', b ∉ X' → b ∈ F' → S' !! b = Some n → 252 <= n →
     S' !! (b + n + 4) = Some n' → 252 <= n' → b + n + 4 ∉ F') →
  inv X' S' F' A s'.
Proof.
  intros Hi Hl' Htot Hmm Hsm HA Hown Hfl HFF HF' HFA' Hg Hmap' Hfree Hs Hsort HM Hcoal.
  pose proof (iv_layout Hi) as Hl.
  constructor; try done.
  - intros a Ha. apply elem_of_dom. rewrite HA by done. apply elem_of_dom. by apply (iv_A Hi).
  - intros b n HbA Hb. rewrite HA in Hb by done. eapply alloc_ext; [by eapply ly_pos| |by apply (iv_alloc Hi)].
    intros q Hq. rewrite (Hown b n q); auto.
  - intros b n HbF Hb. destruct (decide (n < 252)) as [Hn|].
    + apply Hsm in Hb; [|done]. pose proof (own_head b n ltac:(by eapply ly_pos)).
      eapply free_ext; [by eapply ly_pos| | |apply (iv_free Hi); [by apply (HFF b n)|done]].
      * intros q Hq _. rewrite (Hown b n q); auto.
      * rewrite (Hown b n); auto.
    + destruct (Hfree b n) as [? ?]; [done|done|lia|]. split_and!; [done|done|lia].
  - intros ln Hln. destruct (iv_bucket Hi ln Hln) as (B & (hd & tl & Hhd & Hseg & Hnd) & HB). exists B. split.
    + exists hd, tl. rewrite Hfl. split; [done|]. split; [|done]. eapply dlseg_ext; [|done].
      intros x (b & -> & Hb)%list_elem_of_fmap. apply HB in Hb as (_ & n & Hn & Hn252 & _).
      unfold BlockMem.nx, pv. rewrite (Hown b n); auto. apply own_head. by eapply ly_pos.
    + intros b. rewrite HB. unfold in_bucket. split; intros (HbF & n & Hn & Hn252 & Hlog).
      * split; [by apply (HFF b n)|]. exists n. rewrite Hsm; auto.
      * apply Hsm in Hn; [|done]. split; [by apply (HFF b n)|]. by exists n.
  - by exists M'.
  - intros b n HbF Hb Hn HcF. apply Hsm in Hb as Hb'; [|done]. apply (HFF b n) in HbF as HbF'; [|done..].
    apply (iv_coal Hi b n HbF' Hb' Hn). destruct (proj1 (elem_of_dom S' (b + n))) as [k Hk]; [by apply HF'|].
    destruct (ly_pos _ Hl' _ _ Hb) as (_ & ? & ?). pose proof (ly_small _ Hl' _ _ Hb Hn).
    destruct (decide (k < 252)) as [Hk252|Hk252].
    + apply Hsm in Hk; [|done]. by apply (HFF _ k).
    + destruct (ly_mega _ Hl' _ _ Hk) as [? ?]; [lia|]. exfalso. zlia.
Qed.

(** The same when no memory is unmapped. *)
Lemma inv_mega_step X X' S S' F F' A s s' M' :
  inv X S F A s → layout S' →
  256 * mblocks_allocated (mbs s') = heap_blocks S' → mm_inv (mbs s') →
  (∀ y, mapped (os (mbs s)) y → mapped (os (mbs s')) y) →
  (∀ x n, n < 252 → S' !! x = Some n ↔ S !! x = Some n) →
  (∀ x, x ∈ A → S' !! x = S !! x) →
  (∀ x n q, S !! x = Some n → n < 252 ∨ x ∈ A → own x n q → rd s' q = rd s q) →
  dom (bds s) ⊆ dom (bds s') → free_list s' = free_list s →
  (∀ x n, S !! x = Some n → n < 252 → x ∈ F' ↔ x ∈ F) → F' ⊆ dom S' → F' ## A →
  (∀ x n, S' !! x = Some n → 252 <= n → grp junk s' x n) →
  (∀ x n y, S' !! x = Some n → 252 <= n →
     1048576 * (x / 256) <= y < 1048576 * ((x + n + 255) / 256) → mapped (os (mbs s')) y) →
  (∀ x n, x ∈ F' → S' !! x = Some n → 252 <= n →
     blocks (rd s' (desc x)) = n ∧ free (rd s' (desc x)) = FREE) →
  slist (nx s') (free_mblock_list s') (desc <$> M') END → StronglySorted Z.lt M' →
  (∀ b, b ∈ M' ↔ in_megas S' F' b) →
  (∀ b n n', b ∉ X' → b ∈ F' → S' !! b = Some n → 252 <= n →
     S' !! (b + n + 4) = Some n' → 252 <= n' → b + n + 4 ∉ F') →
  inv X' S' F' A s'.
Proof.
  intros Hi Hl' Htot Hmm Hmp Hsm HA Hown Hdom Hfl HFF HF' HFA' Hg Hmap' Hfree Hs Hsort HM Hcoal.
  apply (inv_mega_gen X X' S S' F F' A s s' M'); try done.
  - intros b n Hb. destruct (decide (n < 252)) as [Hn|]; [|apply Hg; [done|lia]].
    apply Hsm in Hb; [|done]. eapply grp_ext; [|done|by apply (iv_grp Hi)].
    intros q Hq. rewrite (Hown b n q); auto.
  - intros b n y Hb Hy. destruct (decide (n < 252)) as [Hn|]; [|eapply Hmap'; [done|lia|done]].
    apply Hsm in Hb; [|done]. apply Hmp. by eapply (iv_mapped Hi).
Qed.

(** ** Coalescing *)
Lemma mega_start X S F A s b n : inv X S F A s → S !! b = Some n → start (rd s (desc b)) = 4096 * b.
Proof.
  intros Hi Hb. pose proof (ly_pos _ (iv_layout Hi) _ _ Hb). destruct (iv_grp Hi _ _ Hb 0 ltac:(lia)) as [E _].
  by rewrite !Z.add_0_r in E.
Qed.

(** Is the next free group also the next in memory? *)
Lemma adjacent_iff S x n c k :
  layout S → S !! x = Some n → 252 <= n → S !! c = Some k → 252 <= k →
  (MBLOCK_ROUND_DOWN (desc c) =? wrapU 64 (MBLOCK_ROUND_DOWN (desc x) + wrapU 64 (BLOCKS_TO_MBLOCKS n * MBLOCK_SIZE))) = true
  ↔ c = x + n + 4.
Proof.
  intros Hl Hx Hn Hc Hk. rewrite Z.eqb_eq, !desc_round. change MBLOCK_SIZE with 1048576.
  destruct (layout_mega_size _ _ _ Hl Hx Hn) as (Hms & Hmax & Hx256).
  destruct (layout_mega_size _ _ _ Hl Hc Hk) as (_ & _ & Hc256).
  pose proof (ly_max _ Hl _ _ Hx) as Hmx. pose proof (ly_pos _ Hl _ _ Hx) as (P1 & _).
  rewrite mega_mblocks by (done || lia). destruct (mega_mblocks_val n Hms) as [En Hj].
  rewrite (wrapU_small 64 (_ * _)) by lia. rewrite wrapU_small by (clear -Hmx P1 En Hj Hx256; zlia). lia.
Qed.

(** The next free group after [x] is the first that can be adjacent to it. *)
Lemma next_free_adjacent S F M1 x M2 n k :
  layout S → StronglySorted Z.lt (M1 ++ x :: M2) → (∀ b, b ∈ M1 ++ x :: M2 ↔ in_megas S F b) →
  S !! x = Some n → 252 <= n → S !! (x + n + 4) = Some k → 252 <= k → x + n + 4 ∈ F →
  ∃ M2', M2 = x + n + 4 :: M2'.
Proof.
  intros Hl Hs HM Hx Hn Hk Hk252 HF. destruct (ly_pos _ Hl _ _ Hx) as (_ & _ & Hn1).
  assert (x + n + 4 ∈ M1 ++ x :: M2) as Hin by (apply HM; split; [done|by exists k]).
  apply StronglySorted_app in Hs as (H12 & _ & Hs2).
  apply StronglySorted_inv in Hs2 as [Hs2 HxM]. rewrite Forall_forall in HxM.
  apply elem_of_app in Hin as [Hin|[Hin|Hin]%elem_of_cons]; [|lia|].
  { pose proof (H12 _ x Hin ltac:(by left)). lia. }
  destruct M2 as [|c M2]; [by apply elem_of_nil in Hin|]. exists M2. f_equal.
  pose proof (HxM c ltac:(by left)) as Hxc.
  assert (in_megas S F c) as (_ & m & Hm & Hm252) by (apply HM; apply elem_of_app; right; right; by left).
  pose proof (ly_disj _ Hl _ _ _ _ Hx Hm Hxc) as Hd.
  destruct (layout_mega_size _ _ _ Hl Hx Hn) as (Hms & _ & Hx256). destruct (mega_mblocks_val n Hms) as [En _].
  destruct (layout_mega_size _ _ _ Hl Hm Hm252) as (_ & _ & Hc256).
  apply elem_of_cons in Hin as [->|Hin]; [done|]. apply StronglySorted_inv in Hs2 as [_ HcM].
  rewrite Forall_forall in HcM. pose proof (HcM _ Hin). lia.
Qed.

(** The list of free megablock groups, split at one of them. *)
Lemma mega_split X S F A s x n :
  inv X S F A s → x ∈ F → S !! x = Some n → 252 <= n →
  ∃ M1 M2, slist (nx s) (free_mblock_list s) (desc <$> (M1 ++ x :: M2)) END ∧
    StronglySorted Z.lt (M1 ++ x :: M2) ∧ (∀ b, b ∈ M1 ++ x :: M2 ↔ in_megas S F b).
Proof.
  intros Hi HF Hx Hn. destruct (iv_mega Hi) as (M & Hs & HM & HMb).
  assert (x ∈ M) as (M1 & M2 & ->)%list_elem_of_split by (apply HMb; split; [done|by exists n]). eauto.
Qed.

(** Two neighbours on the list become one. *)
Lemma inv_coalesce X S F A s M1 x n c k M2 :
  inv X S F A s → slist (nx s) (free_mblock_list s) (desc <$> (M1 ++ x :: c :: M2)) END →
  StronglySorted Z.lt (M1 ++ x :: c :: M2) → (∀ b, b ∈ M1 ++ x :: c :: M2 ↔ in_megas S F b) →
  S !! x = Some n → 252 <= n → S !! c = Some k → 252 <= k → c = x + n + 4 → x ∈ F → c ∈ F →
  inv (if decide (c ∈ X) then X ∖ {[c]} ∪ {[x]} else X ∖ {[x]}) (joined S x c (n + 4 + k)) (F ∖ {[c]}) A
    (wr junk (wr junk s (desc x) (set_blocks (n + 4 + k))) (desc x) (set_link (link (rd s (desc c))))).
Proof.
  intros Hi Hs Hsort HM Hx Hn Hc Hk Ec HxF HcF. pose proof (iv_layout Hi) as Hl.
  assert (x ≠ c) as Hxc by (destruct (ly_pos _ Hl _ _ Hx); lia).
  destruct (layout_join_mega S x n k Hl Hx ltac:(by rewrite <- Ec) Hn Hk) as [Hl' Ht]. rewrite <- Ec in Hl', Ht.
  assert (n + 4 + k < 2 ^ 32) as Hmax.
  { assert (joined S x c (n + 4 + k) !! x = Some (n + 4 + k)) as Hx' by (apply joined_lookup; [done|by left]).
    destruct (layout_mega_size _ _ _ Hl' Hx'); lia. }
  set (s' := wr junk _ _ _).
  assert (∀ q, q ≠ desc x → rd s' q = rd s q) as Hrd by (intros; unfold s'; by rewrite !rd_wr_ne).
  assert (rd s' (desc x) = set_link (link (rd s (desc c))) (set_blocks (n + 4 + k) (rd s (desc x)))) as Ex.
  { unfold s'. by rewrite !rd_wr_eq. }
  assert (∀ q, start (rd s' q) = start (rd s q)) as Hst.
  { intros q. destruct (decide (q = desc x)) as [->|]; [by rewrite Ex|by rewrite Hrd]. }
  assert (dom (bds s) ⊆ dom (bds s')) as Hdom by (etransitivity; apply dom_wr).
  assert ((x ∉ A) ∧ (c ∉ A)) as [HxA HcA] by (pose proof (iv_FA Hi); set_solver).
  assert (NoDup (M1 ++ x :: c :: M2)) as Hnd by by apply sorted_NoDup.
  assert (∀ b m, joined S x c (n + 4 + k) !! b = Some m → 252 <= m → ∃ m0, S !! b = Some m0 ∧ 252 <= m0 ∧ (b ≠ x → m0 = m)) as Hold.
  { intros b m Hb Hm. apply joined_lookup in Hb as [[-> ->]|(? & ? & Hb)]; [|by exists m|done]. by exists n. }
  apply (inv_mega_step X _ S _ F _ A s s' (M1 ++ x :: M2)); [done|done| |apply Hi|done|..].
  - rewrite Ht. apply (iv_total Hi).
  - intros b m Hm. rewrite joined_lookup by done. split.
    + intros [[-> ->]|(_ & _ & ?)]; [lia|done].
    + intros Hb. right. split_and!; [| |done]; intros ->; [assert (m = n)|assert (m = k)]; try congruence; lia.
  - intros b HbA. unfold joined. rewrite lookup_insert_ne, lookup_delete_ne; [done| |]; intros <-; done.
  - intros b m q Hb Hor Hq. apply Hrd. intros ->.
    assert (b = x) as -> by (by eapply (own_disjoint S); [done|exact Hb|exact Hx|done|apply own_head; lia]).
    destruct Hor; [assert (m = n) by congruence; lia|done].
  - done.
  - done.
  - intros b m Hb Hm. rewrite elem_of_difference, not_elem_of_singleton. split; [tauto|]. intros ?. split; [done|].
    intros ->. assert (m = k) by congruence. lia.
  - intros b [HbF Hbc]%elem_of_difference. rewrite not_elem_of_singleton in Hbc. apply (iv_F Hi) in HbF.
    apply elem_of_dom in HbF as [m Hm]. apply elem_of_dom. destruct (decide (b = x)) as [->|].
    + exists (n + 4 + k). apply joined_lookup; [done|by left].
    + exists m. apply joined_lookup; [done|by right].
  - pose proof (iv_FA Hi). set_solver.
  - intros b m Hb Hm. destruct (Hold b m Hb Hm) as (m0 & Hb0 & Hm0 & _). pose proof (iv_grp Hi _ _ Hb0) as G.
    intros i Hi'. rewrite Hst. destruct (G i) as [? ?]; [lia|]. split; [done|by apply Hdom].
  - intros b m y Hb Hm Hy. apply joined_lookup in Hb as [[-> ->]|(_ & _ & Hb)]; [|by eapply (iv_mapped Hi)|done].
    destruct (layout_mega_size _ _ _ Hl Hx Hn) as (Hms & _ & Hx256). destruct (mega_mblocks_val n Hms) as [En _].
    destruct (decide (y < 1048576 * ((x + n + 255) / 256))).
    + apply (iv_mapped Hi x n y Hx). lia.
    + apply (iv_mapped Hi c k y Hc). clear -Ec En Hx256 Hy n0. zlia.
  - intros b m [HbF Hbc]%elem_of_difference Hb Hm. destruct (decide (b = x)) as [->|Hbx].
    + apply joined_lookup in Hb as [[_ ->]|[? _]]; [|done|done]. rewrite Ex. cbn.
      destruct (iv_free Hi x n HxF Hx) as (_ & -> & _). split; [|done]. apply wrapU_small. lia.
    + apply joined_lookup in Hb as [[? _]|(_ & _ & Hb)]; [done| |done]. rewrite Hrd by (intros E%desc_inj; done).
      by destruct (iv_free Hi b m HbF Hb) as (? & ? & _).
  - rewrite fmap_app, !fmap_cons in Hs. apply slist_app in Hs as (hd & Hs1 & Hhd & Hxe & nxt & Hnx & Hs2).
    rewrite fmap_app, fmap_cons. apply slist_app. exists hd.
    assert (∀ b, b ∈ M1 ++ M2 → nx s' (desc b) = nx s (desc b)) as Hnx'.
    { intros b Hb. unfold BlockMem.nx. rewrite Hrd; [done|]. intros ->%desc_inj.
      apply NoDup_app in Hnd as (_ & H12 & [Hx2 _]%NoDup_cons). apply elem_of_app in Hb as [Hb|Hb].
      - apply (H12 x Hb). by left.
      - apply Hx2. by right. }
    split; [|split; [done|split; [done|]]].
    + eapply slist_ext; [|done]. intros y (b & -> & Hb)%list_elem_of_fmap. apply Hnx', elem_of_app. by left.
    + destruct Hs2 as (-> & Hce & nxt' & Hnc & Hs2). exists nxt'. split.
      * unfold BlockMem.nx. rewrite Ex. cbn. done.
      * eapply slist_ext; [|done]. intros y (b & -> & Hb)%list_elem_of_fmap. apply Hnx', elem_of_app. by right.
  - apply StronglySorted_app in Hsort as (H12 & Hs1 & Hs2). apply StronglySorted_app. split_and!; [|done|].
    + intros y z Hy Hz. apply H12; [done|]. set_solver.
    + apply StronglySorted_inv in Hs2 as [Hs2 Hf]. apply StronglySorted_inv in Hs2 as [Hs2 _].
      constructor; [done|]. by apply Forall_cons in Hf as [_ ?].
  - intros b. assert (b ∈ M1 ++ x :: M2 ↔ b ∈ M1 ++ x :: c :: M2 ∧ b ≠ c) as ->.
    { apply NoDup_app in Hnd as (_ & H12 & [Hx2 [Hc2 _]%NoDup_cons]%NoDup_cons).
      assert (c ∉ M1) by (intros Hc1; apply (H12 c Hc1); right; by left). set_solver. }
    rewrite HM. unfold in_megas. rewrite elem_of_difference, not_elem_of_singleton. split.
    + intros [[HbF (m & Hb & Hm)] Hbc]. split; [done|]. destruct (decide (b = x)) as [->|].
      * exists (n + 4 + k). split; [apply joined_lookup; [done|by left]|lia].
      * exists m. split; [apply joined_lookup; [done|by right]|done].
    + intros [[HbF Hbc] (m & Hb & Hm)]. destruct (Hold b m Hb Hm) as (m0 & ? & ? & _). split; [|done]. split; [done|by exists m0].
  - intros b m m' HX HbF Hb Hm Hb' Hm'. rewrite elem_of_difference, not_elem_of_singleton. intros [HbF' Hbc'].
    apply elem_of_difference in HbF as [HbF Hbc]. rewrite not_elem_of_singleton in Hbc.
    assert (b + m + 4 ≠ x → S !! (b + m + 4) = Some m') as Hb'x.
    { intros Hne. apply joined_lookup in Hb' as [[? _]|(_ & _ & ?)]; done. }
    destruct (decide (b = x)) as [->|Hbx].
    + apply joined_lookup in Hb as [[_ ->]|[? _]]; [|done|done]. case_decide as HcX.
      { exfalso. apply HX, elem_of_union. right. by apply elem_of_singleton. }
      replace (x + (n + 4 + k) + 4) with (c + k + 4) in * by lia.
      apply (iv_coal_mega Hi c k m'); [done|done|done|done| |done|done].
      apply Hb'x. destruct (ly_pos _ Hl _ _ Hx). lia.
    + apply joined_lookup in Hb as [[? _]|(_ & _ & Hb)]; [done| |done].
      assert (b ∉ X) as HbX.
      { intros HbX. apply HX. case_decide; [apply elem_of_union; left|]; apply elem_of_difference;
          (split; [done|]); by rewrite not_elem_of_singleton. }
      destruct (decide (b + m + 4 = x)) as [E|Hne].
      * rewrite E in *. apply (iv_coal_mega Hi b m n); [done..|by rewrite E|done|by rewrite E].
      * by apply (iv_coal_mega Hi b m m' HbX HbF Hb Hm (Hb'x Hne) Hm').
Qed.

Lemma inv_unexempt X S F A s M1 x M2 n :
  inv X S F A s → StronglySorted Z.lt (M1 ++ x :: M2) → (∀ b, b ∈ M1 ++ x :: M2 ↔ in_megas S F b) →
  S !! x = Some n → 252 <= n → (∀ k M2', M2 = x + n + 4 :: M2' → S !! (x + n + 4) = Some k → 252 <= k → False) →
  inv (X ∖ {[x]}) S F A s.
Proof.
  intros Hi Hsort HM Hx Hn Hadj. pose proof (iv_layout Hi) as Hl. pose proof (iv_coal_mega Hi) as Hc.
  destruct Hi. constructor; try done. intros b m k HX HbF Hb Hm Hb' Hk HcF.
  destruct (decide (b = x)) as [->|Hbx].
  - assert (m = n) as -> by congruence.
    destruct (next_free_adjacent S F M1 x M2 n k) as [M2' E]; [done..|]. by eapply Hadj.
  - apply (Hc b m k); [|done..]. intros HbX. apply HX, elem_of_difference. split; [done|].
    by rewrite not_elem_of_singleton.
Qed.

(** [coalesce_mblocks]: the group is joined with the next one, and returned, or
    it cannot be, and the next one is returned. *)
Lemma coalesce_ok X S F A s x n :
  inv X S F A s → x ∈ F → S !! x = Some n → 252 <= n →
  wp (coalesce_mblocks junk (desc x)) (λ r s', ∃ S' F' X', inv X' S' F' A s' ∧ evolves A S s S' s' ∧
    (dom S = F ∪ A → dom S' = F' ∪ A) ∧
    ((r = desc x ∧ x ∈ F' ∧ (∃ n', S' !! x = Some n' ∧ 252 <= n') ∧
        ∃ c, c ≠ x ∧ desc c = link (rd s (desc x)) ∧ X' = (if decide (c ∈ X) then X ∖ {[c]} ∪ {[x]} else X ∖ {[x]})) ∨
     (r = link (rd s (desc x)) ∧ S' = S ∧ F' = F ∧ X' = X ∖ {[x]}))) s.
Proof.
  intros Hi HxF Hx Hn. pose proof (iv_layout Hi) as Hl.
  destruct (mega_split _ _ _ _ _ _ _ Hi HxF Hx Hn) as (M1 & M2 & Hs & Hsort & HM).
  assert (desc x ≠ END) as Hxe by by eapply inv_pos.
  destruct (iv_free Hi x n HxF Hx) as (Hbl & _ & _).
  unfold coalesce_mblocks. wp_step. apply wp_ld; [done|]. rewrite Hbl. set (q := link (rd s (desc x))).
  assert (slist (nx s) q (desc <$> M2) END) as Hq.
  { rewrite fmap_app, fmap_cons in Hs. apply slist_app in Hs as (m & _ & _ & _ & nxt & Hnx & Hs).
    unfold BlockMem.nx in Hnx. injection Hnx as <-. done. }
  destruct M2 as [|c M2].
  { cbn in Hq. rewrite Hq. cbn [Z.eqb negb andb]. change (END =? END) with true. cbn [negb andb]. apply wp_ret.
    exists S, F, (X ∖ {[x]}). split_and!; [|apply evolves_refl|done|right; done].
    by eapply inv_unexempt. }
  destruct Hq as (Eq & Hce & nxt & Hnc & Hs2). rewrite Eq. rewrite (proj2 (Z.eqb_neq _ _) Hce). cbn [negb andb].
  assert (in_megas S F c) as (HcF & k & Hc & Hk) by (apply HM, elem_of_app; right; right; by left).
  destruct (MBLOCK_ROUND_DOWN (desc c) =? _) eqn:Eadj.
  - apply (adjacent_iff S x n c k Hl Hx Hn Hc Hk) in Eadj. wp_step. apply wp_ld; [done|].
    destruct (iv_free Hi c k HcF Hc) as (-> & _ & _).
    destruct (layout_mega_size _ _ _ Hl Hx Hn) as (Hms & Hmax & _). destruct (mega_mblocks_val n Hms) as [En Hj].
    destruct (layout_mega_size _ _ _ Hl Hc Hk) as (Hmk & Hmaxk & _). destruct (mega_mblocks_val k Hmk) as [Ek Hjk].
    rewrite !mega_mblocks by (done || lia). rewrite (wrapU_small 64 (_ + _)), group_blocks_64 by lia.
    replace (256 * (mblocks_of n + mblocks_of k) - 4) with (n + 4 + k) by lia.
    wp_step. apply wp_upd; [done|]. wp_step. apply wp_ld; [done|].
    assert (desc c ≠ desc x) as Hcx. { intros ->%desc_inj. destruct (ly_pos _ Hl _ _ Hx). lia. }
    rewrite rd_wr_ne by done. wp_step. apply wp_upd; [done|]. apply wp_ret.
    exists (joined S x c (n + 4 + k)), (F ∖ {[c]}), (if decide (c ∈ X) then X ∖ {[c]} ∪ {[x]} else X ∖ {[x]}).
    pose proof (inv_coalesce X S F A s M1 x n c k M2 Hi Hs Hsort HM Hx Hn Hc Hk Eadj HxF HcF) as Hi'.
    assert (x ≠ c) as Hxc by congruence.
    assert ((x ∉ A) ∧ (c ∉ A)) as [HxA HcA] by (pose proof (iv_FA Hi) as HFA; split; intros ?; [by apply (HFA x)|by apply (HFA c)]).
    destruct (layout_join_mega S x n k Hl Hx ltac:(by rewrite <- Eadj) Hn Hk) as [_ Ht]. rewrite <- Eadj in Ht.
    split_and!; [done| | |].
    + constructor; [| |done..].
      * intros a Ha. unfold joined. rewrite lookup_insert_ne, lookup_delete_ne; [done| |]; intros <-; done.
      * intros a m q' Ha Hm Hq'. rewrite !rd_wr_ne; [done| |]; intros ->; apply HxA;
          assert (x = a) as ->; try done; eapply (own_disjoint S); try done; apply own_head; lia.
    + intros Hdom. unfold joined. rewrite dom_insert_L, dom_delete_L, Hdom.
      apply set_eq. intros y. rewrite !elem_of_union, !elem_of_difference, elem_of_union, !elem_of_singleton.
      split; [|intros [[? ?]|?]; [by right; split; [left|]|]].
      * intros [->|[[?|?] ?]]; [left; done|by left|by right].
      * right. split; [by right|]. by intros ->.
    + left. split_and!; [done| | |].
      * apply elem_of_difference. split; [done|]. by rewrite not_elem_of_singleton.
      * exists (n + 4 + k). split; [|lia]. apply joined_lookup; [done|by left].
      * exists c. by split_and!.
  - apply wp_ret. exists S, F, (X ∖ {[x]}). split_and!; [|apply evolves_refl|done|right; done].
    eapply inv_unexempt; [done..|]. intros k' M2' [= -> ->] Hk' Hk252.
    apply not_true_iff_false in Eadj. apply Eadj. by apply (adjacent_iff S x n _ k').
Qed.

(** ** Insertion *)
Definition prev_of (M1 : list Z) : ptr := default END (desc <$> last M1).

Lemma mega_place_ok X S F A s b n :
  inv X S F A s → S !! b = Some n → b ∉ F → ∀ M2 M1 hd fuel,
  slist (nx s) hd (desc <$> M2) END → (length M2 < fuel)%nat →
  (∀ x, x ∈ M1 ++ M2 → in_megas S F x) → (∀ x, x ∈ M1 → x < b) → StronglySorted Z.lt (M1 ++ M2) →
  wp (mega_place junk fuel (desc b) (prev_of M1) hd) (λ r s', s' = s ∧ ∃ M1' M2', M1 ++ M2 = M1' ++ M2' ∧
    r.1 = prev_of M1' ∧ (∀ x, x ∈ M1' → x < b) ∧ (∀ x, x ∈ M2' → b < x)) s.
Proof.
  intros Hi Hb HbF. induction M2 as [|c M2 IH]; intros M1 hd fuel Hs Hfuel HM HM1 Hsort.
  - cbn in Hs. subst hd. assert (wp (mret (prev_of M1, END) : prog _ _) (λ r s', s' = s ∧ ∃ M1' M2', M1 ++ [] = M1' ++ M2' ∧
      r.1 = prev_of M1' ∧ (∀ x, x ∈ M1' → x < b) ∧ (∀ x, x ∈ M2' → b < x)) s) as Hret.
    { apply wp_ret. split; [done|]. exists M1, []. split_and!; [done..|]. by intros x ?%elem_of_nil. }
    by destruct fuel.
  - destruct Hs as (-> & Hce & nxt & Hnc & Hs2). destruct fuel as [|fuel]; [cbn in Hfuel; lia|].
    cbn [mega_place]. rewrite (proj2 (Z.eqb_neq _ _) Hce). wp_step. apply wp_ld; [done|]. wp_step.
    apply wp_ld; [by eapply inv_pos|].
    destruct (HM c) as (HcF & k & Hc & _); [apply elem_of_app; right; by left|].
    rewrite (mega_start _ _ _ _ _ _ _ Hi Hb), (mega_start _ _ _ _ _ _ _ Hi Hc).
    destruct (4096 * c <? 4096 * b) eqn:E.
    + apply Z.ltb_lt in E. unfold BlockMem.nx in Hnc. injection Hnc as Hnc. rewrite Hnc.
      replace (desc c) with (prev_of (M1 ++ [c])) by (unfold prev_of; by rewrite last_snoc).
      replace (M1 ++ c :: M2) with ((M1 ++ [c]) ++ M2) in * by (by rewrite <- app_assoc).
      apply IH; [done|cbn in Hfuel; lia|done| |done].
      intros x [Hx|Hx%list_elem_of_singleton]%elem_of_app; [by apply HM1|lia].
    + apply Z.ltb_ge in E. apply wp_ret. split; [done|]. exists M1, (c :: M2). split_and!; [done..|].
      assert (c ≠ b) as Hcb by (intros ->; done).
      apply StronglySorted_app in Hsort as (_ & _ & Hs2'). apply StronglySorted_inv in Hs2' as [_ Hf].
      rewrite Forall_forall in Hf. intros x [->|Hx]%elem_of_cons; [lia|]. specialize (Hf x Hx). lia.
Qed.

(** [b] is put on the list, and not yet coalesced. *)
Lemma inv_insert X S F A s s' b n M1 M2 :
  inv ∅ S F A s → S !! b = Some n → 252 <= n → b ∉ F ∪ A → blocks (rd s (desc b)) = n → free (rd s (desc b)) = FREE →
  StronglySorted Z.lt (M1 ++ M2) → (∀ x, x ∈ M1 ++ M2 ↔ in_megas S F x) →
  (∀ x, x ∈ M1 → x < b) → (∀ x, x ∈ M2 → b < x) →
  b ∈ X → (∀ a, last M1 = Some a → a ∈ X) →
  (∀ q, q ≠ desc b → q ≠ prev_of M1 → rd s' q = rd s q) → (∀ q, core (rd s' q) = core (rd s q)) →
  dom (bds s) ⊆ dom (bds s') → free_list s' = free_list s → mbs s' = mbs s →
  slist (nx s') (free_mblock_list s') (desc <$> (M1 ++ b :: M2)) END →
  inv X S (F ∪ {[b]}) A s'.
Proof.
  intros Hi Hb Hn Hlim Hbl Hfr Hsort HM HM1 HM2 HbX HaX Hrd Hcore Hdom Hfl Hmb Hs. pose proof (iv_layout Hi) as Hl.
  assert (∀ a, prev_of M1 = desc a → S !! a = None ∨ in_megas S F a) as Hprev.
  { intros a. unfold prev_of. destruct (last M1) as [a'|] eqn:E; cbn.
    - intros <-%desc_inj. right. apply HM, elem_of_app. left. by apply last_Some_elem_of.
    - intros Ea. left. destruct (S !! a) eqn:Ha; [|done]. exfalso. by eapply inv_pos. }
  assert (∀ q, start (rd s' q) = start (rd s q) ∧ free (rd s' q) = free (rd s q) ∧ blocks (rd s' q) = blocks (rd s q)) as Hc.
  { intros q. by destruct (core_eq _ _ (Hcore q)) as (? & ? & ? & _). }
  apply (inv_mega_step ∅ X S S F _ A s s' (M1 ++ b :: M2)); [done|done|rewrite Hmb; apply Hi|rewrite Hmb; apply Hi|by rewrite Hmb|done|done| |done|done|..].
  - intros x m q Hx Hor Hq.
    assert (∀ a k, S !! a = Some k → 252 <= k → a ∉ A → q ≠ desc a) as Hne.
    { intros a k Ha Hk HaA ->. assert (a = x) as ->.
      { eapply (own_disjoint S); [done|exact Ha|exact Hx|apply own_head; lia|done]. }
      destruct Hor; [assert (m = k) by congruence; lia|done]. }
    apply Hrd; [eapply Hne; [done..|set_solver]|]. unfold prev_of. destruct (last M1) as [a|] eqn:E; cbn.
    + assert (in_megas S F a) as (HaF & k & Ha & Hk).
      { apply HM, elem_of_app. left. by apply last_Some_elem_of. }
      eapply Hne; [done..|]. intros HaA. by apply (iv_FA Hi a).
    + destruct Hq as (i & Hi' & ->). destruct (layout_pos _ _ _ Hl Hx) as [Hpos _]. unfold END.
      destruct (decide (i = 0)) as [->|]; [rewrite Z.add_0_r; lia|]. pose proof (desc_lt x (x + i)). lia.
  - intros x m Hx Hm. rewrite elem_of_union, elem_of_singleton. split; [|by left].
    intros [?| ->]; [done|]. assert (m = n) by congruence. lia.
  - apply union_subseteq. split; [apply (iv_F Hi)|]. apply singleton_subseteq_l. by apply elem_of_dom_2 in Hb.
  - pose proof (iv_FA Hi). set_solver.
  - intros x m Hx _. intros i Hi'. destruct (iv_grp Hi _ _ Hx i Hi') as [G1 G2].
    destruct (Hc (desc (x + i))) as (-> & _). split; [done|by apply Hdom].
  - intros x m y Hx _. rewrite Hmb. by apply (iv_mapped Hi).
  - intros x m Hxb Hx Hm. destruct (Hc (desc x)) as (_ & -> & ->).
    apply elem_of_union in Hxb as [HxF|Hxb]; [by destruct (iv_free Hi x m HxF Hx) as (? & ? & _)|].
    apply elem_of_singleton in Hxb as ->. split; [congruence|done].
  - done.
  - apply StronglySorted_app in Hsort as (H12 & Hs1 & Hs2). apply StronglySorted_app. split_and!; [|done|].
    + intros x y Hx [->|Hy]%elem_of_cons; [by apply HM1|by apply H12].
    + constructor; [done|]. apply Forall_forall. apply HM2.
  - intros x. specialize (HM x). unfold in_megas in *. rewrite elem_of_app, elem_of_cons, elem_of_union, elem_of_singleton.
    rewrite elem_of_app in HM. split.
    + intros [Hx|[->|Hx]]; [|split; [by right|by exists n]|]; (destruct (proj1 HM) as [? ?]; [tauto|]; split; [by left|done]).
    + intros [[HxF| ->] Hx]; [|tauto]. destruct (proj2 HM) as [?|?]; tauto.
  - intros x m k HxX HxF Hx Hm Hx' Hk. rewrite elem_of_union, elem_of_singleton.
    apply elem_of_union in HxF as [HxF|Hxb]; [|apply elem_of_singleton in Hxb as ->; done].
    intros [HF|Eb]; [eapply (iv_coal_mega Hi x m k); [set_solver|done..]|].
    assert (x ∈ M1 ++ M2) as Hin by (apply HM; split; [done|by exists m]).
    destruct (ly_pos _ Hl _ _ Hx) as (_ & _ & Hm1). apply elem_of_app in Hin as [Hin|Hin]; [|specialize (HM2 x Hin); lia].
    destruct M1 as [|a M1 _] using rev_ind; [by apply elem_of_nil in Hin|]. rewrite last_snoc in HaX.
    apply elem_of_app in Hin as [Hin|Hin%list_elem_of_singleton]; [|subst x; apply HxX; auto].
    rewrite <- app_assoc in Hsort. apply StronglySorted_app in Hsort as (H12 & _ & _).
    assert (x < a) as Hxa by (apply H12; [done|by left]).
    assert (a < b) as Hab by (apply HM1; apply elem_of_app; right; by left).
    assert (in_megas S F a) as (_ & k' & Ha & Hk'). { apply HM. apply elem_of_app. left. apply elem_of_app; right; by left. }
    pose proof (ly_disj _ Hl _ _ _ _ Hx Ha Hxa). pose proof (ly_disj _ Hl _ _ _ _ Ha Hb Hab). lia.
Qed.

(** The links after the insertion. *)
Lemma insert_first s s' b M2 :
  slist (nx s) (free_mblock_list s) (desc <$> M2) END → desc b ≠ END → b ∉ M2 →
  (∀ q, q ≠ desc b → rd s' q = rd s q) → link (rd s' (desc b)) = free_mblock_list s →
  free_mblock_list s' = desc b → slist (nx s') (free_mblock_list s') (desc <$> (b :: M2)) END.
Proof.
  intros Hs Hne HbM Hrd Hlink ->. rewrite fmap_cons. split_and!; [done..|]. exists (free_mblock_list s). split.
  - unfold BlockMem.nx. by rewrite Hlink.
  - eapply slist_ext; [|done]. intros x (c & -> & Hc)%list_elem_of_fmap. unfold BlockMem.nx.
    rewrite Hrd; [done|]. by intros ->%desc_inj.
Qed.

Lemma insert_after s s' a b M1 M2 :
  slist (nx s) (free_mblock_list s) (desc <$> ((M1 ++ [a]) ++ M2)) END → NoDup (M1 ++ a :: M2) →
  desc b ≠ END → b ∉ M1 ++ a :: M2 →
  (∀ q, q ≠ desc b → q ≠ desc a → rd s' q = rd s q) → link (rd s' (desc b)) = link (rd s (desc a)) →
  link (rd s' (desc a)) = desc b →
  free_mblock_list s' = free_mblock_list s →
  slist (nx s') (free_mblock_list s') (desc <$> ((M1 ++ [a]) ++ b :: M2)) END.
Proof.
  intros Hs Hnd Hne Hb Hrd Hlb Hla ->. rewrite <- app_assoc in Hs |- *. cbn [app] in Hs |- *.
  rewrite fmap_app, fmap_cons in Hs |- *.
  apply NoDup_app in Hnd as (_ & H12 & [Ha2 _]%NoDup_cons).
  rewrite not_elem_of_app, not_elem_of_cons in Hb. destruct Hb as (Hb1 & Hba & Hb2).
  apply slist_app in Hs as (hd & Hs1 & Hhd & Hae & nxt & Hnx & Hs2). apply slist_app. exists hd.
  assert (∀ c, c ≠ a → c ≠ b → nx s' (desc c) = nx s (desc c)) as Hext.
  { intros c Hca Hcb. unfold BlockMem.nx. rewrite Hrd; [done|..]; by intros ?%desc_inj. }
  split; [|split; [done|split; [done|]]].
  - eapply slist_ext; [|done]. intros x (c & -> & Hc)%list_elem_of_fmap. apply Hext.
    + intros ->. apply (H12 a Hc). by left.
    + by intros ->.
  - exists (desc b). split; [unfold BlockMem.nx; by rewrite Hla|]. rewrite fmap_cons. split; [done|]. split; [done|].
    exists nxt. split; [unfold BlockMem.nx in *; by rewrite Hlb|].
    eapply slist_ext; [|done]. intros x (c & -> & Hc)%list_elem_of_fmap. apply Hext; by intros ->.
Qed.

Lemma evolves_core A S s s' :
  mbs s' = mbs s → n_alloc_blocks s' = n_alloc_blocks s → hw_alloc_blocks s' = hw_alloc_blocks s →
  sm_mutex s' = sm_mutex s → (∀ a n q, a ∈ A → S !! a = Some n → own a n q → rd s' q = rd s q) →
  evolves A S s S s'.
Proof. intros ? ? ? ? Hk. by constructor. Qed.

Variable sanity : bool.

Lemma free_mega_group_ok S F A s b n :
  inv ∅ S F A s → dom S = F ∪ A ∪ {[b]} → S !! b = Some n → 252 <= n → b ∉ F ∪ A →
  blocks (rd s (desc b)) = n → free (rd s (desc b)) = FREE →
  wp (free_mega_group junk sanity (desc b))
    (λ _ s', ∃ S' F', inv ∅ S' F' A s' ∧ evolves A S s S' s' ∧ dom S' = F' ∪ A) s.
Proof.
  intros Hi Hdom Hb Hn Hlim Hbl Hfr. pose proof (iv_layout Hi) as Hl.
  assert (desc b ≠ END) as Hbe by by eapply inv_pos.
  assert (b ∉ F) as HbF by set_solver. assert (b ∉ A) as HbA by set_solver.
  destruct (iv_mega Hi) as (M & Hs & Hsort & HM).
  assert (b ∉ M) as HbM by (intros [? _]%HM; done).
  unfold free_mega_group. do 4 wp_step. wp_step.
  eapply wp_mono; [apply (mega_place_ok ∅ S F A s b n Hi Hb HbF M [])|].
  { done. } { eapply bucket_fuel; [done|by apply desc_NoDup, sorted_NoDup|]. intros x Hx. by apply HM in Hx as [? _]. }
  { intros x Hx. by apply HM. } { by intros x ?%elem_of_nil. } { done. }
  cbn beta. intros r s1 (-> & M1 & M2 & HMe & Hr & HM1 & HM2). cbn [app] in HMe. subst M.
  destruct r as [p0 nxt]. cbn [fst] in Hr |- *. subst p0.
  (* after the insertion and the first coalescing: only [y] may have a free neighbour *)
  apply wp_bind. apply (wp_mono _ (λ r s', ∃ S' F' y n', r = desc y ∧ inv {[y]} S' F' A s' ∧ evolves A S s S' s' ∧
    dom S' = F' ∪ A ∧ y ∈ F' ∧ S' !! y = Some n' ∧ 252 <= n')).
  - destruct M1 as [|a M1 _] using rev_ind.
    + change (prev_of []) with END. change (negb (END =? END)) with false. cbn [app] in *. do 2 wp_step. wp_step.
      apply wp_upd; [done|]. do 2 wp_step. wp_step. set (s1 := set_free_mblock_list _ _).
      assert (∀ q, rd s1 q = if decide (q = desc b) then set_link (free_mblock_list s) (rd s (desc b)) else rd s q) as Hrd.
      { intros q. unfold s1. apply rd_wr. }
      exists S, (F ∪ {[b]}), b, n. split_and!; [done| | | |set_solver|done|done].
      * apply (inv_insert {[b]} S F A s s1 b n [] M2); try done; [set_solver| | |apply dom_wr|].
        -- intros q Hq _. by rewrite Hrd, decide_False.
        -- intros q. rewrite Hrd. by case_decide as E; [rewrite E|].
        -- cbn [app]. eapply (insert_first s); [done..| | |done].
           ++ intros q Hq. by rewrite Hrd, decide_False.
           ++ by rewrite Hrd, decide_True.
      * apply evolves_core; [done..|]. intros a k q Ha Hk Hq. rewrite Hrd, decide_False; [done|]. intros ->.
        assert (b = a) as ->; [|done]. eapply (own_disjoint S); [done|exact Hb|exact Hk|apply own_head; lia|done].
      * rewrite Hdom. clear. set_solver.
    + unfold prev_of. rewrite last_snoc. cbn [default].
      assert (in_megas S F a) as (HaF & k & Ha & Hk). { apply HM. apply elem_of_app; left. apply elem_of_app; right; by left. }
      assert (desc a ≠ END) as Hae by by eapply inv_pos.
      change (default END (desc <$> Some a)) with (desc a).
      rewrite (proj2 (Z.eqb_neq _ _) Hae). cbn [negb]. wp_step. apply wp_ld; [done|]. wp_step. apply wp_upd; [done|].
      wp_step. apply wp_upd; [done|]. set (s1 := wr junk _ _ _).
      assert (a ≠ b) as Hab by (intros ->; done).
      assert (desc a ≠ desc b) as Hdab by by intros ?%desc_inj.
      assert (∀ q, q ≠ desc b → q ≠ desc a → rd s1 q = rd s q) as Hrd by (intros; unfold s1; by rewrite !rd_wr_ne).
      assert (rd s1 (desc a) = set_link (desc b) (rd s (desc a))) as Ea by (unfold s1; by rewrite rd_wr_eq, rd_wr_ne).
      assert (rd s1 (desc b) = set_link (link (rd s (desc a))) (rd s (desc b))) as Eb.
      { unfold s1. rewrite rd_wr_ne by done. by rewrite rd_wr_eq. }
      assert (evolves A S s S s1) as He1.
      { apply evolves_core; [done..|]. intros a' k' q Ha' Hk' Hq. apply Hrd; intros ->.
        - assert (b = a') as ->; [|done]. eapply (own_disjoint S); [done|exact Hb|exact Hk'|apply own_head; lia|done].
        - assert (a = a') as ->; [|by apply (iv_FA Hi a')].
          eapply (own_disjoint S); [done|exact Ha|exact Hk'|apply own_head; lia|done]. }
      assert (inv {[a; b]} S (F ∪ {[b]}) A s1) as Hi1.
      { apply (inv_insert {[a; b]} S F A s s1 b n (M1 ++ [a]) M2); try done; [set_solver| | | |etransitivity; apply dom_wr|].
        - intros a'. rewrite last_snoc. intros [= <-]. set_solver.
        - intros q Hq. unfold prev_of. rewrite last_snoc. cbn. intros Hqa. by apply Hrd.
        - intros q. destruct (decide (q = desc a)) as [->|]; [by rewrite Ea|].
          destruct (decide (q = desc b)) as [->|]; [by rewrite Eb|by rewrite Hrd].
        - eapply (insert_after s); [done| |done| |done|by rewrite Eb|by rewrite Ea|done].
          + apply sorted_NoDup. by rewrite <- app_assoc in Hsort.
          + by rewrite <- app_assoc in HbM. }
      eapply wp_mono; [apply (coalesce_ok {[a; b]} S (F ∪ {[b]}) A s1 a k); [done|set_solver|done|done]|].
      cbn beta. intros r' s2 (S' & F' & X' & Hi2 & He2 & Hd2 & Hcase). rewrite Ea in Hcase. cbn [link set_link] in Hcase.
      assert (dom S = F ∪ {[b]} ∪ A) as Hdom1 by (rewrite Hdom; clear; set_solver).
      specialize (Hd2 Hdom1). pose proof (evolves_trans _ _ _ _ _ _ _ He1 He2) as He.
      destruct Hcase as [(-> & Ha' & (n' & Hn' & Hn252) & c & Hca & Hc%desc_inj & ->)|(-> & -> & -> & ->)].
      * subst c. rewrite decide_True in Hi2 by set_solver.
        assert (({[a; b]} : gset Z) ∖ {[b]} ∪ {[a]} = {[a]}) as EX by (clear -Hab; set_solver). rewrite EX in Hi2.
        exists S', F', a, n'. by split_and!.
      * assert (({[a; b]} : gset Z) ∖ {[a]} = {[b]}) as EX by (clear -Hab; set_solver). rewrite EX in Hi2.
        exists S, (F ∪ {[b]}), b, n. split_and!; [done..|set_solver|done|done].
  - cbn beta. intros r' s' (S' & F' & y & n' & -> & Hi' & He & Hd & Hy & Hy' & Hn'). wp_step.
    eapply wp_mono; [by apply (coalesce_ok {[y]} S' F' A s' y n')|].
    cbn beta. intros r'' s'' (S2 & F2 & X2 & Hi2 & He2 & Hd2 & Hcase).
    assert (X2 = ∅) as ->.
    { destruct Hcase as [(_ & _ & _ & c & Hca & _ & ->)|(_ & _ & _ & ->)].
      - rewrite decide_False by (clear -Hca; set_solver). clear. set_solver.
      - clear. set_solver. }
    specialize (Hd2 Hd). wp_step.
    + eapply wp_mono; [by eapply sanity_ok|]. cbn beta. intros _ ? ->. exists S2, F2. split_and!; [done| |done].
      by eapply evolves_trans.
    + exists S2, F2. split_and!; [done| |done]. by eapply evolves_trans.
Qed.
End mega.
