(* ===== verification/BlockFree.v ===== *)
(** * freeGroup

    Freeing an allocated group coalesces it with its free neighbours and puts the
    result on the free list it belongs to; the other allocated groups and their
    descriptors are left alone. *)
From S2P Require Import Prelude DList MBlock MBlockProps BlockAlloc BlockArith BlockMem BlockLayout BlockInv BlockLists BlockGroup BlockSanity BlockMega.
From stdpp Require Import list gmap sets sorting.
Local Open Scope Z_scope.

(** ** The count of allocated blocks *)
Section count.
Implicit Types (S : gmap Z Z) (A : gset Z).

(** What a group of [n] blocks counts for: a megablock group counts for the blocks
    its megablocks would have one by one. *)
Definition allocd (n : Z) : Z := n - 4 * (n / 256).
Definition asum S A : Z := msum (λ _ n, allocd n) (filter (λ bn : Z * Z, bn.1 ∈ A) S).

Lemma asum_ext S S' A : A ⊆ dom S → (∀ a, a ∈ A → S' !! a = S !! a) → asum S' A = asum S A.
Proof.
  intros HA HS. unfold asum. f_equal. apply map_eq. intros b. destruct (decide (b ∈ A)) as [Hb|Hb].
  - destruct (proj1 (elem_of_dom S b) (HA b Hb)) as [n Hn].
    rewrite !(map_lookup_filter_Some_2 _ _ _ n); [done|done|done|by rewrite HS|done].
  - trans (None : option Z); [|symmetry]; apply map_lookup_filter_None_2; right; by intros ? ? ?.
Qed.

Lemma asum_take S A b n : S !! b = Some n → b ∉ A → asum S (A ∪ {[b]}) = allocd n + asum S A.
Proof.
  intros Hb HbA. unfold asum.
  assert (filter (λ bn : Z * Z, bn.1 ∈ A ∪ {[b]}) S = <[b := n]> (filter (λ bn : Z * Z, bn.1 ∈ A) S)) as ->.
  { apply map_eq. intros x. apply option_eq. intros k.
    rewrite map_lookup_filter_Some, lookup_insert_Some, map_lookup_filter_Some. cbn.
    rewrite elem_of_union, elem_of_singleton. split.
    - intros [Hx [HxA| ->]]; [right; split; [congruence|done]|left; split; [done|congruence]].
    - intros [[<- <-]|[? [? ?]]]; [auto|auto]. }
  rewrite msum_insert; [done|]. apply map_lookup_filter_None_2. right. by intros ? ? ?.
Qed.

Lemma asum_drop S A b n : S !! b = Some n → b ∈ A → asum S A = allocd n + asum S (A ∖ {[b]}).
Proof.
  intros Hb HbA. rewrite <- (asum_take S (A ∖ {[b]}) b n); [|done|set_solver]. f_equal.
  apply set_eq. intros x. destruct (decide (x = b)); set_solver.
Qed.

Lemma allocd_range n : 1 <= n → 1 <= allocd n <= n.
Proof. unfold allocd. zlia. Qed.

Lemma asum_range S A : layout S → 0 <= asum S A <= heap_blocks S.
Proof.
  intros Hl. unfold asum, heap_blocks.
  assert (∀ f : Z → Z → Z, msum f (filter (λ bn : Z * Z, bn.1 ∈ A) S) = msum (λ b n, if decide (b ∈ A) then f b n else 0) S) as ->.
  { intros f. clear. induction S as [|b n S Hb IH] using map_ind; [done|]. rewrite msum_insert by done.
    rewrite map_filter_insert. cbn. destruct (decide (b ∈ A)).
    - rewrite msum_insert, IH; [done|]. apply map_lookup_filter_None_2. by left.
    - rewrite map_filter_delete, delete_id, IH; [lia|]. apply map_lookup_filter_None_2. by left. }
  split.
  - trans (msum (λ _ _, 0) S); [by rewrite msum_zero|]. apply msum_le. intros b n Hb. destruct (ly_pos _ Hl _ _ Hb) as (_ & _ & Hn).
    pose proof (allocd_range n Hn). case_decide; lia.
  - apply msum_le. intros b n Hb. destruct (ly_pos _ Hl _ _ Hb) as (_ & _ & Hn).
    pose proof (allocd_range n Hn). unfold weight. case_decide; destruct (_ =? _); lia.
Qed.
End count.

Section free.
Context {OS : Type} `{OsMem OS}.
Variable junk : ptr → bdescr.
Variable sanity : bool.
Notation rd := (rd junk).
Notation inv := (inv junk ∅).
Notation evolves := (evolves junk).
Implicit Types (s : ba OS) (S : gmap Z Z) (F A : gset Z).

Lemma inv_n_alloc X S F A s x : BlockInv.inv junk X S F A s → BlockInv.inv junk X S F A (set_n_alloc x s).
Proof. intros Hi. by apply (inv_ext junk X S F A s). Qed.
Lemma inv_hw_alloc X S F A s x : BlockInv.inv junk X S F A s → BlockInv.inv junk X S F A (set_hw_alloc x s).
Proof. intros Hi. by apply (inv_ext junk X S F A s). Qed.
Lemma inv_mutex X S F A s x : BlockInv.inv junk X S F A s → BlockInv.inv junk X S F A (set_sm_mutex x s).
Proof. intros Hi. by apply (inv_ext junk X S F A s). Qed.

Lemma dom_joined S b c n : b ≠ c → dom (joined S b c n) = {[b]} ∪ dom S ∖ {[c]}.
Proof. intros. unfold joined. rewrite dom_insert_L, dom_delete_L. done. Qed.

Lemma evolves_joined A S s b c n :
  b ∉ A → c ∉ A → b ≠ c → heap_blocks (joined S b c n) = heap_blocks S → evolves A S s (joined S b c n) s.
Proof.
  intros Hb Hc Hbc Ht. constructor; try done. intros a Ha. unfold joined.
  rewrite lookup_insert_ne, lookup_delete_ne; [done| |]; intros <-; done.
Qed.

(** Group [b] is being worked on, alone; it is marked free. *)
Record limbo S F A s (b n : Z) : Prop := {
  lb_inv : inv S F A s;
  lb_dom : dom S = F ∪ A ∪ {[b]};
  lb_F : b ∉ F;
  lb_A : b ∉ A;
  lb_size : S !! b = Some n;
  lb_blocks : blocks (rd s (desc b)) = n;
  lb_free : free (rd s (desc b)) = FREE
}.

Lemma limbo_FA S F A s b n : limbo S F A s b n → b ∉ F ∪ A.
Proof. intros []. rewrite not_elem_of_union. done. Qed.

(** The two neighbours become one group, which is being worked on. *)
Lemma limbo_join S F A s b n k s' :
  inv S F A s' → dom S = F ∪ A ∪ {[b; b + n]} → (b ∉ F ∪ A) → (b + n ∉ F ∪ A) → S !! b = Some n → S !! (b + n) = Some k →
  n < 252 → b `mod` 256 + n < 256 →
  blocks (rd s' (desc b)) = n + k → free (rd s' (desc b)) = FREE →
  limbo (joined S b (b + n) (n + k)) F A s' b (n + k).
Proof.
  intros Hi Hdom Hb Hc Hbn Hck Hn Hm Hbl Hfr.
  assert (b ≠ b + n) as Hbc by (destruct (ly_pos _ (iv_layout Hi) _ _ Hbn); lia).
  assert ((b ∉ F) ∧ (b ∉ A)) as [HbF HbA] by by apply not_elem_of_union.
  constructor; try done.
  - by apply inv_join.
  - rewrite dom_joined, Hdom by done. clear -Hbc Hc. set_solver.
  - by apply lookup_insert_eq.
Qed.

(** ** Coalescing with the next group *)
Lemma coalesce_forwards_ok S F A s b n :
  limbo S F A s b n → n < 252 →
  wp (coalesce_forwards junk sanity (desc b)) (λ r s', ∃ S' F', evolves A S s S' s' ∧
    if r then ∃ n', limbo S' F' A s' b n' ∧ n' < 252 ∧ (b + n' ∉ F')
    else inv S' F' A s' ∧ dom S' = F' ∪ A) s.
Proof.
  intros [Hi Hdom HbF HbA Hb Hbl Hfr] Hn. pose proof (iv_layout Hi) as Hl.
  assert (desc b ≠ END) as Hbe by by eapply inv_pos.
  destruct (ly_pos _ Hl _ _ Hb) as (Hb0 & Hb4 & Hn1).
  assert (b ∉ F ∪ A) as HbFA by by apply not_elem_of_union.
  assert (b + n ∉ F → wp (mret true : prog _ _) (λ r s', ∃ S' F', evolves A S s S' s' ∧
    if r : bool then ∃ n', limbo S' F' A s' b n' ∧ n' < 252 ∧ (b + n' ∉ F') else inv S' F' A s' ∧ dom S' = F' ∪ A) s) as Hno.
  { intros HnF. apply wp_ret. exists S, F. split; [apply evolves_refl|]. exists n. by split_and!. }
  unfold coalesce_forwards. wp_step. apply wp_ld; [done|]. rewrite Hbl.
  destruct (bd_add (desc b) n <=? LAST_BDESCR (MBLOCK_ROUND_DOWN (desc b))) eqn:Em.
  2:{ apply Hno. intros HnF. apply (iv_F Hi) in HnF. apply elem_of_dom in HnF as [k Hk].
      destruct (ly_pos _ Hl _ _ Hk) as (_ & Hk4 & _). pose proof (ly_small _ Hl _ _ Hb Hn) as Hsm.
      apply Z.leb_gt in Em. rewrite Z.lt_nge in Em. apply Em, next_in_mblock; [lia|].
      clear -Hk4 Hsm Hb4 Hn1. zlia. }
  apply Z.leb_le, next_in_mblock in Em; [|lia]. rewrite desc_add by lia.
  destruct (layout_next _ _ _ Hl Hb Hn Em) as (k & Hc & Hk & Emod & Hend).
  assert (desc (b + n) ≠ END) as Hce by by eapply inv_pos.
  destruct (ly_pos _ Hl _ _ Hc) as (_ & _ & Hk1).
  wp_step. apply wp_ld; [done|]. destruct (decide (b + n ∈ F)) as [HcF|HcF].
  2:{ assert (b + n ∈ A) as HcA. { apply elem_of_dom_2 in Hc. rewrite Hdom in Hc. clear -Hc HcF Hn1. set_solver by lia. }
      destruct (iv_alloc Hi _ _ HcA Hc) as (_ & Hfr' & _). rewrite (proj2 (Z.eqb_neq _ _) Hfr'). by apply Hno. }
  destruct (iv_free Hi _ _ HcF Hc) as (Hblc & Hfrc & _). rewrite Hfrc, Hblc. change (FREE =? FREE) with true. cbv iota.
  wp_step. apply wp_upd; [done|]. set (s1 := wr junk s (desc b) (set_blocks (n + k))).
  assert (inv S F A s1) as Hi1 by (eapply inv_limbo_wr; [done|exact Hb|done|by apply own_head|done]).
  assert (rd s1 (desc b) = set_blocks (n + k) (rd s (desc b))) as E1 by (unfold s1; by rewrite rd_wr_eq).
  assert (rd s1 (desc (b + n)) = rd s (desc (b + n))) as E1c.
  { unfold s1. apply rd_wr_ne. intros E%desc_inj. lia. }
  wp_step. apply wp_ld; [done|]. rewrite E1c, Hblc. wp_step.
  eapply wp_mono; [by eapply unlist_ok|]. cbn beta. intros _ s2 [Hi2 R2].
  assert (∀ q, (∀ f, f ∈ F → q ≠ desc f) → rd s2 q = rd s1 q) as Hout.
  { intros q Hq. apply (rl_out _ _ _ _ R2). intros (f & -> & Hf%elem_of_elements)%list_elem_of_fmap. by apply (Hq f). }
  assert (rd s2 (desc b) = set_blocks (n + k) (rd s (desc b))) as E2.
  { rewrite <- E1. apply Hout. by intros f Hf <-%desc_inj. }
  wp_step. apply wp_ld; [done|]. rewrite E2. cbn [blocks set_blocks]. rewrite wrapU_small by lia.
  assert (limbo (joined S b (b + n) (n + k)) (F ∖ {[b + n]}) A s2 b (n + k)) as Hlb.
  { assert (b + n ∉ A) as HcA by (intros HcA; by apply (iv_FA Hi (b + n))).
    apply (limbo_join S (F ∖ {[b + n]}) A s2 b n k s2); try done.
    - rewrite Hdom. apply set_eq. intros x. rewrite !elem_of_union, elem_of_difference, !elem_of_singleton.
      destruct (decide (x = b + n)) as [->|]; naive_solver.
    - rewrite elem_of_union, elem_of_difference. naive_solver.
    - rewrite elem_of_union, elem_of_difference, elem_of_singleton. naive_solver.
    - rewrite E2. cbn. apply wrapU_small. lia.
    - by rewrite E2. }
  assert (evolves A S s (joined S b (b + n) (n + k)) s2) as Hev.
  { destruct (layout_join S b n k Hl Hb Hc Hn Em) as [_ Ht].
    apply (evolves_trans _ _ _ _ S s1); [|apply (evolves_trans _ _ _ _ S s2)].
    - apply evolves_touched with (b := b) (n := n); [done..|]. apply touched_wr; [|done].
      eapply own_row; [done..|by apply own_head].
    - eapply evolves_relinked; [done|apply (iv_F Hi)|apply (iv_FA Hi)|done].
    - apply evolves_joined; [done| |lia|done]. intros HcA. by apply (iv_FA Hi (b + n)). }
  destruct (n + k =? BLOCKS_PER_MBLOCK) eqn:E252; rewrite bpm in E252.
  - apply Z.eqb_eq in E252. wp_step. pose proof (limbo_FA _ _ _ _ _ _ Hlb). destruct Hlb.
    eapply wp_mono; [eapply free_mega_group_ok; try done; lia|]. cbn beta. intros _ s3 (S' & F' & Hi3 & Hev3 & Hd3).
    apply wp_ret. exists S', F'. split; [by eapply evolves_trans|done].
  - apply Z.eqb_neq in E252. pose proof (ly_small _ Hl _ _ Hb Hn). wp_step. pose proof (limbo_FA _ _ _ _ _ _ Hlb). destruct Hlb.
    assert (n + k < 252) as Hnk by lia.
    eapply wp_mono; [by eapply setup_tail_ok|]. cbn beta. intros _ s3 (Hi3 & Ht3 & E3 & _).
    apply wp_ret. exists (joined S b (b + n) (n + k)), (F ∖ {[b + n]}). split.
    { eapply evolves_trans; [done|]. eapply evolves_touched; [apply lb_inv0|done|done|done]. }
    exists (n + k). split_and!; [|done|].
    + constructor; try done; by rewrite E3.
    + rewrite Z.add_assoc. intros [HF _]%elem_of_difference. by apply (iv_coal Hi (b + n) k).
Qed.

(** ** Coalescing with the previous group *)
Lemma coalesce_backwards_ok S F A s b n :
  limbo S F A s b n → n < 252 → b + n ∉ F →
  wp (coalesce_backwards junk sanity (desc b)) (λ r s', ∃ S' F', evolves A S s S' s' ∧
    match r with
    | Some p => ∃ b' n', p = desc b' ∧ limbo S' F' A s' b' n' ∧ n' < 252 ∧ (b' + n' ∉ F') ∧
        ∀ x m, x ∈ F' → S' !! x = Some m → x + m ≠ b'
    | None => inv S' F' A s' ∧ dom S' = F' ∪ A
    end) s.
Proof.
  intros Hlb Hn HnF. pose proof Hlb as [Hi Hdom HbF HbA Hb Hbl Hfr]. pose proof (iv_layout Hi) as Hl.
  destruct (ly_pos _ Hl _ _ Hb) as (Hb0 & Hb4 & Hn1).
  assert ((∀ x m, x ∈ F → S !! x = Some m → x + m ≠ b) →
    wp (mret (Some (desc b)) : prog _ _) (λ r s', ∃ S' F', evolves A S s S' s' ∧
      match r with
      | Some p => ∃ b' n', p = desc b' ∧ limbo S' F' A s' b' n' ∧ n' < 252 ∧ (b' + n' ∉ F') ∧
          ∀ x m, x ∈ F' → S' !! x = Some m → x + m ≠ b'
      | None => inv S' F' A s' ∧ dom S' = F' ∪ A
      end) s) as Hno.
  { intros HF. apply wp_ret. exists S, F. split; [apply evolves_refl|]. exists b, n. by split_and!. }
  unfold coalesce_backwards. destruct (decide (b `mod` 256 = 4)) as [E4|E4].
  { rewrite (proj2 (Z.eqb_eq _ _) (proj2 (desc_in_first b) E4)). apply Hno. intros x m HxF Hx E.
    destruct (ly_pos _ Hl _ _ Hx) as (P1 & P2 & P3). destruct (decide (m < 252)) as [Hm|Hm].
    - pose proof (ly_small _ Hl _ _ Hx Hm) as P4. clear -E E4 P1 P2 P3 P4. zlia.
    - destruct (ly_mega _ Hl _ _ Hx) as [P5 P6]; [lia|]. clear -E E4 P5 P6. zlia. }
  rewrite (proj2 (Z.eqb_neq _ _)) by (intros E; apply E4; by apply desc_in_first). cbn [negb].
  destruct (layout_prev _ _ _ Hl Hb) as (x & m & Hx & E & Hm & Hdiv & Hxm); [lia|].
  destruct (ly_pos _ Hl _ _ Hx) as (P1 & P2 & P3).
  assert (desc x ≠ END) as Hxe by by eapply inv_pos.
  rewrite desc_add by (clear -E4 Hb4; zlia). replace (b + -1) with (x + m - 1) by lia.
  assert (x ≠ b) as Hxb by lia.
  assert (x ∈ F ∨ x ∈ A) as HxFA.
  { apply elem_of_dom_2 in Hx. rewrite Hdom in Hx. clear -Hx Hxb. set_solver. }
  assert (1 < m → inner junk s (desc x) (desc (x + m - 1))) as Htail.
  { intros Hm1. destruct HxFA as [HxF|HxA].
    - destruct (iv_free Hi _ _ HxF Hx) as (_ & _ & Ht). apply Ht. lia.
    - destruct (iv_alloc Hi _ _ HxA Hx) as (_ & _ & Ht).
      replace (x + m - 1) with (x + (m - 1)) by lia. apply Ht. lia. }
  assert (blocks (rd s (desc x)) = m) as Hblx.
  { destruct HxFA as [HxF|HxA]; [by apply (iv_free Hi)|by apply (iv_alloc Hi)]. }
  wp_step. apply wp_ld.
  { pose proof (desc_lt x (x + m - 1)). destruct (layout_pos _ _ _ Hl Hx) as [? _]. destruct (decide (m = 1)) as [->|].
    - by replace (x + 1 - 1) with x by lia.
    - unfold END. lia. }
  wp_step. apply (wp_mono _ (λ p s', p = desc x ∧ s' = s)).
  { destruct (decide (m = 1)) as [->|Hm1].
    - replace (x + 1 - 1) with x by lia. rewrite Hblx. change (1 =? 0) with false. by apply wp_ret.
    - destruct Htail as (T1 & T2 & T3); [lia|]. rewrite T1, T3. by apply wp_ret. }
  cbn beta. intros p s' [-> ->]. wp_step. apply wp_ld; [done|].
  destruct HxFA as [HxF|HxA].
  2:{ destruct (iv_alloc Hi _ _ HxA Hx) as (_ & Hfx & _). rewrite (proj2 (Z.eqb_neq _ _) Hfx). apply Hno.
      intros y k HyF Hy Ey. assert (y = x) as ->; [|by apply (iv_FA Hi x)].
      pose proof (ly_pos _ Hl _ _ Hy). apply (layout_uniq S y k x m (b - 1)); [done..|lia|lia]. }
  destruct (iv_free Hi _ _ HxF Hx) as (_ & Hfx & _). rewrite Hfx, Hblx. change (FREE =? FREE) with true. cbv iota.
  wp_step. eapply wp_mono; [by eapply unlist_ok|]. cbn beta. intros _ s1 [Hi1 R1].
  assert (rd s1 (desc b) = rd s (desc b)) as E1b.
  { apply (rl_out _ _ _ _ R1). intros (f & Ef%desc_inj & Hf%elem_of_elements)%list_elem_of_fmap. by subst f. }
  wp_step. apply wp_ld; [by eapply inv_pos|]. rewrite E1b, Hbl. wp_step. apply wp_upd; [done|].
  destruct (core_eq _ _ (rl_core _ _ _ _ R1 (desc x))) as (_ & Ef1 & Eb1 & _).
  set (s2 := wr junk s1 _ _).
  assert (x ∉ A) as HxA by (intros HxA; by apply (iv_FA Hi x)).
  assert (x ∉ (F ∖ {[x]}) ∪ A) as HxFA' by (rewrite elem_of_union, elem_of_difference, elem_of_singleton; naive_solver).
  assert (inv S (F ∖ {[x]}) A s2) as Hi2.
  { eapply inv_limbo_wr; [done|exact Hx|done|apply own_head; lia|done]. }
  assert (rd s2 (desc x) = set_blocks (m + n) (rd s1 (desc x))) as E2.
  { unfold s2. rewrite rd_wr_eq. by rewrite Eb1, Hblx. }
  pose proof (ly_small _ Hl _ _ Hb Hn) as Hsm.
  assert (b `mod` 256 = x `mod` 256 + m) as Emod by (clear -E Hxm P2 P3; zlia).
  assert (limbo (joined S x (x + m) (m + n)) (F ∖ {[x]}) A s2 x (m + n)) as Hlb2.
  { apply (limbo_join S (F ∖ {[x]}) A s2 x m n s2); try done.
    - rewrite Hdom, E. apply set_eq. intros y. rewrite !elem_of_union, elem_of_difference, !elem_of_singleton.
      destruct (decide (y = x)) as [->|]; naive_solver.
    - rewrite E, elem_of_union, elem_of_difference. naive_solver.
    - by rewrite E.
    - rewrite E2. cbn. apply wrapU_small. lia.
    - rewrite E2. cbn. by rewrite Ef1. }
  assert (evolves A S s (joined S x (x + m) (m + n)) s2) as Hev.
  { destruct (layout_join S x m n Hl Hx) as [_ Ht]; [by rewrite E|done|done|].
    apply (evolves_trans _ _ _ _ S s1); [|apply (evolves_trans _ _ _ _ S s2)].
    - eapply evolves_relinked; [done|apply (iv_F Hi)|apply (iv_FA Hi)|done].
    - apply evolves_touched with (b := x) (n := m); [done..|]. apply touched_wr; [|done].
      eapply own_row; [done..|apply own_head; lia].
    - apply evolves_joined; [done|by rewrite E|lia|done]. }
  wp_step. apply wp_ld; [done|]. rewrite E2. cbn [blocks set_blocks]. rewrite wrapU_small by lia.
  destruct (BLOCKS_PER_MBLOCK <=? m + n) eqn:E252; rewrite bpm in E252.
  - apply Z.leb_le in E252. wp_step. pose proof (limbo_FA _ _ _ _ _ _ Hlb2). destruct Hlb2.
    eapply wp_mono; [eapply free_mega_group_ok; try done; lia|]. cbn beta. intros _ s3 (S' & F' & Hi3 & Hev3 & Hd3).
    apply wp_ret. exists S', F'. split; [by eapply evolves_trans|done].
  - apply Z.leb_gt in E252. apply wp_ret. exists (joined S x (x + m) (m + n)), (F ∖ {[x]}). split; [done|].
    exists x, (m + n). split_and!; [done|done|done| |].
    + rewrite Z.add_assoc, E. by intros [? _]%elem_of_difference.
    + intros y k [HyF Hyx]%elem_of_difference Hy Ey. rewrite not_elem_of_singleton in Hyx.
      assert (x ≠ x + m) as Hne by lia. apply joined_lookup in Hy as [[? _]|(_ & _ & Hy)]; [done| |done].
      destruct (ly_pos _ Hl _ _ Hy) as (Y1 & Y2 & Y3).
      destruct (decide (k < 252)) as [Hk|Hk].
      * apply (iv_coal Hi y k HyF Hy Hk). by rewrite Ey.
      * destruct (ly_mega _ Hl _ _ Hy) as [Y4 Y5]; [lia|]. clear -Y4 Y5 Ey P2. zlia.
Qed.

(** No group is being worked on, and the counts are right. *)
Record ready S F A s : Prop := {
  rd_inv : inv S F A s;
  rd_dom : dom S = F ∪ A;
  rd_n : n_alloc_blocks s = asum S A;
  rd_hw : n_alloc_blocks s <= hw_alloc_blocks s
}.

(** ** Putting a group on its free list *)
Lemma free_small_ok S F A s b n :
  limbo S F A s b n → n < 252 → b + n ∉ F → (∀ x m, x ∈ F → S !! x = Some m → x + m ≠ b) →
  wp (setup_tail junk (desc b);; free_list_insert junk (desc b);; when sanity (checkFreeListSanity junk))
    (λ _ s', inv S (F ∪ {[b]}) A s' ∧ evolves A S s S s') s.
Proof.
  intros Hlb Hn Hnext Hprev. pose proof (limbo_FA _ _ _ _ _ _ Hlb) as HFA. destruct Hlb as [Hi Hdom HbF HbA Hb Hbl Hfr].
  pose proof (iv_layout Hi) as Hl. wp_step. eapply wp_mono; [by eapply setup_tail_ok|].
  cbn beta. intros _ s1 (Hi1 & Ht1 & E1 & Htail). wp_step.
  unfold free_list_insert. wp_step. apply wp_ld; [by eapply inv_pos|]. rewrite E1, Hbl. wp_step.
  apply wp_assert; [rewrite bpm; by apply Z.ltb_lt|].
  eapply wp_mono; [apply (enlist_ok junk ∅ S F A s1 b n); try done|].
  { split_and!; [by rewrite E1|by rewrite E1|]. intros Hn2. apply Htail. lia. }
  cbn beta. intros _ s2 [Hi2 R2].
  assert (evolves A S s S s2) as Hev.
  { eapply evolves_trans; [by apply evolves_touched with (b := b) (n := n)|].
    eapply evolves_relinked; [done|apply (iv_F Hi2)|apply (iv_FA Hi2)|done]. }
  wp_step; [|done]. eapply wp_mono; [eapply sanity_ok; [done|]|].
  - rewrite Hdom. apply set_eq. intros x. rewrite !elem_of_union. tauto.
  - cbn beta. by intros _ ? ->.
Qed.

(** ** freeGroup *)
Lemma freeGroup_ok S F A s b n :
  inv S F A s → dom S = F ∪ A → b ∈ A → S !! b = Some n → allocd n <= n_alloc_blocks s < 2 ^ 64 →
  wp (freeGroup junk sanity (desc b)) (λ _ s', ∃ S' F', inv S' F' (A ∖ {[b]}) s' ∧ dom S' = F' ∪ A ∖ {[b]} ∧
    evolves (A ∖ {[b]}) S (set_n_alloc (n_alloc_blocks s - allocd n) s) S' s') s.
Proof.
  intros Hi Hdom HbA Hb Hcount. pose proof (iv_layout Hi) as Hl. destruct (ly_pos _ Hl _ _ Hb) as (_ & _ & Hn1).
  assert (b ∉ F) as HbF by (intros ?; by apply (iv_FA Hi b)).
  destruct (iv_alloc Hi _ _ HbA Hb) as (Hbl & Hfr & _). assert (desc b ≠ END) as Hbe by by eapply inv_pos.
  pose proof (allocd_range n Hn1) as Had.
  unfold freeGroup. wp_step. apply wp_ld; [done|]. rewrite Hbl. wp_step.
  apply wp_assert; [by apply negb_true_iff, Z.eqb_neq|]. wp_step. apply wp_upd; [done|]. wp_step. apply wp_upd; [done|].
  set (s1 := wr junk _ _ _). set (s2 := set_n_alloc (n_alloc_blocks s - allocd n) s1).
  assert (b ∉ F ∪ A ∖ {[b]}) as Hlim by (clear -HbF; set_solver).
  assert (rd s1 (desc b) = set_gen END 0 (set_free FREE (rd s (desc b)))) as E1 by (unfold s1; by rewrite !rd_wr_eq).
  assert (limbo S F (A ∖ {[b]}) s2 b n) as Hlb.
  { constructor; try done.
    - apply inv_n_alloc. unfold s1. eapply inv_limbo_wr; [|exact Hb|done|by apply own_head|done].
      eapply inv_limbo_wr; [|exact Hb|done|by apply own_head|done]. by apply inv_drop.
    - rewrite Hdom. apply set_eq. intros x. rewrite !elem_of_union, elem_of_difference, elem_of_singleton.
      destruct (decide (x = b)) as [->|]; naive_solver.
    - clear. set_solver.
    - change (rd s2 (desc b)) with (rd s1 (desc b)). by rewrite E1.
    - change (rd s2 (desc b)) with (rd s1 (desc b)). by rewrite E1. }
  assert (evolves (A ∖ {[b]}) S (set_n_alloc (n_alloc_blocks s - allocd n) s) S s2) as Hev2.
  { constructor; try done. intros a k q Ha Hk Hq. change (rd s2 q) with (rd s1 q).
    change (rd (set_n_alloc (n_alloc_blocks s - allocd n) s) q) with (rd s q). unfold s1.
    assert (q ≠ desc b) as Hqb; [|by rewrite !rd_wr_ne]. intros ->.
    assert (b = a) as ->; [|set_solver]. eapply own_disjoint; [done|exact Hb|exact Hk|by apply own_head|done]. }
  rewrite (proj2 (Z.eqb_neq n 0)) by lia. destruct (BLOCKS_PER_MBLOCK <=? n) eqn:E252; rewrite bpm in E252.
  - apply Z.leb_le in E252. destruct (layout_mega_size _ _ _ Hl Hb E252) as (Hms & Hmax & _).
    destruct (mega_mblocks_val n Hms) as [En Hj]. rewrite mega_mblocks by (done || lia).
    rewrite (wrapU_small 32) by lia. wp_step.
    apply wp_assert; [apply Z.eqb_eq; rewrite group_blocks_32 by lia; lia|]. do 2 wp_step.
    assert (wrapU 64 (n_alloc_blocks s1 - mblocks_of n * BLOCKS_PER_MBLOCK) = n_alloc_blocks s - allocd n) as ->.
    { rewrite bpm. change (n_alloc_blocks s1) with (n_alloc_blocks s).
      assert (mblocks_of n * 252 = allocd n) as Ea by (unfold allocd; clear -En; unfold mblocks_of in *; lia).
      rewrite Ea. apply wrapU_small. lia. }
    fold s2. pose proof (limbo_FA _ _ _ _ _ _ Hlb). destruct Hlb.
    eapply wp_mono; [by eapply free_mega_group_ok|]. cbn beta. intros _ s3 (S' & F' & Hi3 & Hev3 & Hd3).
    exists S', F'. split_and!; [done|done|by eapply evolves_trans].
  - apply Z.leb_gt in E252. do 2 wp_step. change (n_alloc_blocks s1) with (n_alloc_blocks s).
    assert (allocd n = n) as Ea by (unfold allocd; clear -E252 Hn1; zlia).
    wp_step. apply wp_assert; [apply Z.leb_le; lia|]. do 2 wp_step.
    rewrite (wrapU_small 64) by (change (n_alloc_blocks s1) with (n_alloc_blocks s); lia).
    change (n_alloc_blocks s1) with (n_alloc_blocks s). rewrite <- Ea at 1. fold s2.
    wp_step. eapply wp_mono; [by eapply coalesce_forwards_ok|]. cbn beta. intros r s3 (S3 & F3 & Hev3 & Hr).
    pose proof (evolves_trans _ _ _ _ _ _ _ _ Hev2 Hev3) as Hev23. destruct r.
    2:{ apply wp_ret. exists S3, F3. destruct Hr. by split_and!. }
    destruct Hr as (n3 & Hlb3 & Hn3 & Hnext3). wp_step.
    eapply wp_mono; [by eapply coalesce_backwards_ok|]. cbn beta. intros r s4 (S4 & F4 & Hev4 & Hr).
    pose proof (evolves_trans _ _ _ _ _ _ _ _ Hev23 Hev4) as Hev24. destruct r as [p|].
    2:{ apply wp_ret. exists S4, F4. destruct Hr. by split_and!. }
    destruct Hr as (b4 & n4 & -> & Hlb4 & Hn4 & Hnext4 & Hprev4).
    eapply wp_mono; [by eapply free_small_ok|]. cbn beta. intros _ s5 [Hi5 Hev5].
    exists S4, (F4 ∪ {[b4]}). split_and!; [done| |by eapply evolves_trans].
    rewrite (lb_dom _ _ _ _ _ _ Hlb4). apply set_eq. intros x. rewrite !elem_of_union. tauto.
Qed.

(** The same with the counts. *)
Lemma freeGroup_ready S F A s b n :
  ready S F A s → b ∈ A → S !! b = Some n →
  wp (freeGroup junk sanity (desc b)) (λ _ s', ∃ S' F', ready S' F' (A ∖ {[b]}) s' ∧
    evolves (A ∖ {[b]}) S (set_n_alloc (n_alloc_blocks s - allocd n) s) S' s') s.
Proof.
  intros [Hi Hdom Hn Hhw] HbA Hb. pose proof (asum_range S A (iv_layout Hi)) as Hra.
  pose proof (ly_total _ (iv_layout Hi)) as Hmax.
  pose proof (asum_range S (A ∖ {[b]}) (iv_layout Hi)) as Hrd. pose proof (asum_drop S A b n Hb HbA) as Ed.
  eapply wp_mono; [eapply freeGroup_ok; try done; lia|]. cbn beta. intros _ s' (S' & F' & Hi' & Hd' & Hev).
  exists S', F'. split; [|done]. pose proof Hev as [Hsz _ _ _ Hen Heh _]. cbn in Hen, Heh. constructor; [done|done| |].
  - rewrite Hen, Hn, Ed. rewrite (asum_ext S S'); [lia| |done].
    intros x [HxA _]%elem_of_difference. by apply (iv_A Hi).
  - rewrite Hen, Heh. destruct (allocd_range n); [|lia]. by eapply ly_pos, Hb; apply (iv_layout Hi).
Qed.
End free.
