(* ===== verification/BlockGet.v ===== *)
(** * Megablock groups for allocation

    An exact fit off the free list, the end of the best bigger group, or fresh
    megablocks from the operating system. *)
From S2P Require Import Prelude DList MBlock MBlockProps BlockAlloc BlockArith BlockMem BlockLayout BlockInv BlockLists BlockGroup BlockSanity BlockMega BlockFree.
From stdpp Require Import list gmap sets sorting.
Local Open Scope Z_scope.

Section mega.
Context {OS : Type} `{OsMemLaws OS}.
Variable junk : ptr → bdescr.
Notation rd := (rd junk).
Notation inv := (inv junk ∅).
Notation nx := (nx junk).
Implicit Types (s : ba OS) (S : gmap Z Z) (F A : gset Z).

(** What allocation keeps: the heap may grow. *)
Record keeps A S s S' s' : Prop := {
  kp_size a : a ∈ A → S' !! a = S !! a;
  kp_desc a n q : a ∈ A → S !! a = Some n → own a n q → rd s' q = rd s q;
  kp_n : n_alloc_blocks s' = n_alloc_blocks s;
  kp_hw : hw_alloc_blocks s' = hw_alloc_blocks s;
  kp_mutex : sm_mutex s' = sm_mutex s
}.

Lemma keeps_refl A S s : keeps A S s S s.
Proof. by constructor. Qed.
Lemma keeps_trans A S1 s1 S2 s2 S3 s3 : keeps A S1 s1 S2 s2 → keeps A S2 s2 S3 s3 → keeps A S1 s1 S3 s3.
Proof.
  intros [Z1 K1 N1 W1 X1] [Z2 K2 N2 W2 X2]. constructor; [..|congruence|congruence|congruence].
  - intros a Ha. by rewrite Z2, Z1.
  - intros a n q Ha Hn Hq. rewrite (K2 a n q); [by eapply K1|done|by rewrite Z1|done].
Qed.
Lemma evolves_keeps A S s S' s' : evolves junk A S s S' s' → keeps A S s S' s'.
Proof. intros []. by constructor. Qed.
Lemma keeps_mono A B S s S' s' : A ⊆ B → keeps B S s S' s' → keeps A S s S' s'.
Proof. intros HA []. constructor; eauto. Qed.
Lemma evolves_mono A B S s S' s' : A ⊆ B → evolves junk B S s S' s' → evolves junk A S s S' s'.
Proof. intros HA []. constructor; eauto. Qed.

(** ** Off the list *)
Lemma inv_unlink S F A s s' x n M1 M2 :
  inv S F A s → slist (nx s) (free_mblock_list s) (desc <$> (M1 ++ x :: M2)) END →
  StronglySorted Z.lt (M1 ++ x :: M2) → (∀ b, b ∈ M1 ++ x :: M2 ↔ in_megas S F b) → S !! x = Some n → 252 <= n →
  (∀ q, q ≠ prev_of M1 → rd s' q = rd s q) → (∀ q, core (rd s' q) = core (rd s q)) →
  dom (bds s) ⊆ dom (bds s') → free_list s' = free_list s → mbs s' = mbs s →
  slist (nx s') (free_mblock_list s') (desc <$> (M1 ++ M2)) END →
  inv S (F ∖ {[x]}) A s'.
Proof.
  intros Hi Hs Hsort HM Hx Hn Hrd Hcore Hdom Hfl Hmb Hs'. pose proof (iv_layout Hi) as Hl.
  assert (NoDup (M1 ++ x :: M2)) as Hnd by by apply sorted_NoDup.
  assert (∀ q, start (rd s' q) = start (rd s q) ∧ free (rd s' q) = free (rd s q) ∧ blocks (rd s' q) = blocks (rd s q)) as Hc.
  { intros q. by destruct (core_eq _ _ (Hcore q)) as (? & ? & ? & _). }
  apply (inv_mega_step junk ∅ ∅ S S F _ A s s' (M1 ++ M2)); [done|done|rewrite Hmb; apply Hi|rewrite Hmb; apply Hi|by rewrite Hmb|done|done| |done|done|..].
  - intros y m q Hy Hor Hq. apply Hrd. unfold prev_of. destruct (last M1) as [a|] eqn:E; cbn.
    + assert (in_megas S F a) as (HaF & k & Ha & Hk).
      { apply HM, elem_of_app. left. by apply last_Some_elem_of. }
      intros ->. assert (a = y) as ->.
      { eapply (own_disjoint S); [done|exact Ha|exact Hy|apply own_head; lia|done]. }
      destruct Hor; [assert (m = k) by congruence; lia|by apply (iv_FA Hi y)].
    + destruct Hq as (i & Hi' & ->). destruct (layout_pos _ _ _ Hl Hy) as [Hpos _]. unfold END.
      destruct (decide (i = 0)) as [->|]; [rewrite Z.add_0_r; lia|]. pose proof (desc_lt y (y + i)). lia.
  - intros y m Hy Hm. rewrite elem_of_difference, elem_of_singleton. split; [tauto|]. intros ?. split; [done|].
    intros ->. assert (m = n) by congruence. lia.
  - pose proof (iv_F Hi) as HF. clear -HF. set_solver.
  - pose proof (iv_FA Hi) as HFA. clear -HFA. set_solver.
  - intros y m Hy _ i Hi'. destruct (iv_grp Hi _ _ Hy i Hi') as [G1 G2].
    destruct (Hc (desc (y + i))) as (-> & _). split; [done|by apply Hdom].
  - intros y m z Hy _. rewrite Hmb. by apply (iv_mapped Hi).
  - intros y m [HyF _]%elem_of_difference Hy Hm. destruct (Hc (desc y)) as (_ & -> & ->).
    by destruct (iv_free Hi y m HyF Hy) as (? & ? & _).
  - done.
  - apply StronglySorted_app in Hsort as (H12 & Hs1 & Hs2). apply StronglySorted_app. split_and!; [|done|].
    + intros y z Hy Hz. apply H12; [done|by right].
    + by apply StronglySorted_inv in Hs2 as [? _].
  - intros b. apply NoDup_app in Hnd as (_ & H12 & [Hx2 _]%NoDup_cons).
    assert (x ∉ M1) as Hx1 by (intros Hx1; apply (H12 x Hx1); by left).
    specialize (HM b). unfold in_megas in *. rewrite elem_of_app, elem_of_cons in HM.
    rewrite elem_of_app, elem_of_difference, elem_of_singleton. split.
    + intros Hb. destruct (proj1 HM) as [? ?]; [tauto|]. split; [|done]. split; [done|]. intros ->. tauto.
    + intros [[HbF Hbx] Hb]. destruct (proj2 HM) as [?|[?|?]]; tauto.
  - intros b m k _ [HbF _]%elem_of_difference Hb Hm Hb' Hk [HF' _]%elem_of_difference.
    by apply (iv_coal_mega Hi b m k (not_elem_of_empty _) HbF Hb Hm Hb' Hk).
Qed.

(** ** The search *)
Definition best_ok S (n : Z) (M : list Z) (p : ptr) : Prop :=
  (p = END ∧ ∀ x k, x ∈ M → S !! x = Some k → k < n) ∨
  (∃ x k, p = desc x ∧ x ∈ M ∧ S !! x = Some k ∧ n < k ∧ ∀ y m, y ∈ M → S !! y = Some m → n < m → k <= m).

Lemma mega_scan_ok S F A s n M2 : ∀ M1 best hd fuel,
  inv S F A s → slist (nx s) (free_mblock_list s) (desc <$> (M1 ++ M2)) END → slist (nx s) hd (desc <$> M2) END →
  StronglySorted Z.lt (M1 ++ M2) → (∀ b, b ∈ M1 ++ M2 ↔ in_megas S F b) →
  (length M2 < fuel)%nat → 252 <= n → (∀ x, x ∈ M1 → S !! x ≠ Some n) → best_ok S n M1 best →
  wp (mega_scan junk fuel n best (prev_of M1) hd) (λ r s',
    match r with
    | inl p => ∃ x, p = desc x ∧ x ∈ F ∧ S !! x = Some n ∧ inv S (F ∖ {[x]}) (A ∪ {[x]}) s' ∧ keeps A S s S s' ∧
        blocks (rd s' p) = n
    | inr p => s' = s ∧ best_ok S n (M1 ++ M2) p ∧ ∀ x, x ∈ M1 ++ M2 → S !! x ≠ Some n
    end) s.
Proof.
  induction M2 as [|c M2 IH]; intros M1 best hd fuel Hi Hs Hs2 Hsort HM Hfuel Hn HM1 Hbest.
  { cbn in Hs2. subst hd. assert (s = s ∧ best_ok S n (M1 ++ []) best ∧ ∀ x, x ∈ M1 ++ [] → S !! x ≠ Some n) as Hfin by (by rewrite app_nil_r).
    destruct fuel; by apply wp_ret. }
  destruct fuel as [|fuel]; [cbn in Hfuel; lia|]. pose proof (iv_layout Hi) as Hl.
  destruct Hs2 as (-> & Hce & nxt & Hnc & Hs2). unfold BlockMem.nx in Hnc. injection Hnc as Hnc.
  assert (in_megas S F c) as (HcF & k & Hc & Hk) by (apply HM, elem_of_app; right; by left).
  destruct (iv_free Hi c k HcF Hc) as (Hbl & _ & _).
  assert (c ∉ A) as HcA by (intros ?; by apply (iv_FA Hi c)).
  cbn [mega_scan]. rewrite (proj2 (Z.eqb_neq _ _) Hce). wp_step. apply wp_ld; [done|]. rewrite Hbl, Hnc.
  destruct (k =? n) eqn:Ekn.
  - (* an exact fit *)
    apply Z.eqb_eq in Ekn as ->. wp_step.
    apply (wp_mono _ (λ _ s1, inv S (F ∖ {[c]}) A s1 ∧ keeps A S s S s1 ∧ rd s1 (desc c) = rd s (desc c))).
    + assert (NoDup (M1 ++ c :: M2)) as Hnd by by apply sorted_NoDup.
      apply NoDup_app in Hnd as (_ & H12 & [Hc2 _]%NoDup_cons).
      assert (c ∉ M1) as Hc1 by (intros Hc1; apply (H12 c Hc1); by left).
      destruct M1 as [|a M1 _] using rev_ind.
      * change (prev_of []) with END. change (negb (END =? END)) with false. cbv iota. wp_step. split_and!; [|by constructor|done].
        eapply (inv_unlink S F A s _ c n [] M2); try done.
      * unfold prev_of. rewrite last_snoc. change (default END (desc <$> Some a)) with (desc a).
        assert (in_megas S F a) as (HaF & m & Ha & Hm). { apply HM. apply elem_of_app; left. apply elem_of_app; right; by left. }
        assert (desc a ≠ END) as Hae by by eapply inv_pos.
        rewrite (proj2 (Z.eqb_neq _ _) Hae). cbn [negb]. apply wp_upd; [done|]. set (s1 := wr junk _ _ _).
        assert (a ≠ c) as Hac. { intros ->. apply Hc1. apply elem_of_app; right; by left. }
        split_and!; [| |by apply rd_wr_ne; intros ?%desc_inj].
        -- eapply (inv_unlink S F A s s1 c n (M1 ++ [a]) M2); try done.
           ++ intros q. unfold prev_of. rewrite last_snoc. cbn. intros Hq. by apply rd_wr_ne.
           ++ intros q. unfold s1. rewrite rd_wr. case_decide as E; [by rewrite E|done].
           ++ apply dom_wr.
           ++ change (free_mblock_list s1) with (free_mblock_list s).
              rewrite <- app_assoc in Hs |- *. cbn [app] in Hs |- *. rewrite fmap_app, !fmap_cons in Hs. rewrite fmap_app, fmap_cons.
              apply slist_app in Hs as (h & Hs1 & Hha & _ & nxta & Hna & Hsc). apply slist_app. exists h.
              rewrite <- app_assoc in Hsort. cbn [app] in Hsort. apply sorted_NoDup in Hsort.
              apply NoDup_app in Hsort as (_ & H12' & [Ha2 _]%NoDup_cons).
              assert (∀ b, b ≠ a → nx s1 (desc b) = nx s (desc b)) as Hext.
              { intros b Hba. unfold BlockMem.nx, s1. rewrite rd_wr_ne; [done|]. by intros ?%desc_inj. }
              split; [|split; [done|split; [done|]]].
              ** eapply slist_ext; [|done]. intros y (b & -> & Hb)%list_elem_of_fmap. apply Hext. intros ->.
                 apply (H12' a Hb). by left.
              ** exists nxt. split; [unfold BlockMem.nx, s1; by rewrite rd_wr_eq|].
                 eapply slist_ext; [|done]. intros y (b & -> & Hb)%list_elem_of_fmap. apply Hext. intros ->.
                 apply Ha2. by right.
        -- constructor; try done. intros a' m' q Ha' Hm' Hq. unfold s1. apply rd_wr_ne. intros ->.
           assert (a = a') as ->; [|by apply (iv_FA Hi a')].
           eapply (own_disjoint S); [done|exact Ha|exact Hm'|apply own_head; lia|done].
    + cbn beta. intros _ s1 (Hi1 & Hk1 & E1). wp_step.
      assert (c ∉ F ∖ {[c]} ∪ A) as Hlim by (clear -HcA; set_solver).
      eapply wp_mono; [eapply initGroup_ok; [done|exact Hc|done|by rewrite E1]|].
      cbn beta. intros _ s2 (Hi2 & Ht2 & _). apply wp_ret. exists c. split_and!; [done..| |].
      * eapply keeps_trans; [done|]. by eapply evolves_keeps, evolves_touched.
      * by apply (iv_alloc Hi2 c n); [apply elem_of_union; right; by apply elem_of_singleton|].
  - (* go on *)
    apply Z.eqb_neq in Ekn.
    assert (∀ b, best_ok S n (M1 ++ [c]) b → wp (mega_scan junk fuel n b (prev_of (M1 ++ [c])) nxt) (λ r s',
      match r with
      | inl p => ∃ x, p = desc x ∧ x ∈ F ∧ S !! x = Some n ∧ inv S (F ∖ {[x]}) (A ∪ {[x]}) s' ∧ keeps A S s S s' ∧
          blocks (rd s' p) = n
      | inr p => s' = s ∧ best_ok S n (M1 ++ c :: M2) p ∧ ∀ x, x ∈ M1 ++ c :: M2 → S !! x ≠ Some n
      end) s) as Hrec.
    { intros b Hb. replace (M1 ++ c :: M2) with ((M1 ++ [c]) ++ M2) in * by (by rewrite <- app_assoc).
      apply IH; try done; [cbn in Hfuel; lia|].
      intros x [Hx|Hx%list_elem_of_singleton]%elem_of_app; [by apply HM1|]. subst x. congruence. }
    assert (prev_of (M1 ++ [c]) = desc c) as Eprev by (unfold prev_of; by rewrite last_snoc). rewrite Eprev in Hrec.
    wp_step. apply (wp_mono _ (λ b s', s' = s ∧ best_ok S n (M1 ++ [c]) b)).
    2:{ cbn beta. intros b s' [-> Hb]. by apply Hrec. }
    assert (n < k → (∀ y m, y ∈ M1 → S !! y = Some m → n < m → k <= m) → best_ok S n (M1 ++ [c]) (desc c)) as Hnew.
    { intros Hlt Hmin. right. exists c, k. split_and!; [done|apply elem_of_app; right; by left|done|done|].
      intros y m [Hy|Hy%list_elem_of_singleton]%elem_of_app Hym Hm; [by eapply Hmin|]. subst y. assert (m = k) by congruence. lia. }
    destruct (n <? k) eqn:Elt.
    + apply Z.ltb_lt in Elt. destruct Hbest as [[-> Hno]|(x & m & -> & Hx & Hxm & Hnm & Hmin)].
      * change (END =? END) with true. cbv iota. apply wp_ret. split; [done|]. apply Hnew; [done|].
        intros y j Hy Hyj Hj. specialize (Hno y j Hy Hyj). lia.
      * assert (in_megas S F x) as (HxF & _) by (apply HM, elem_of_app; by left).
        destruct (layout_pos _ _ _ Hl Hxm) as [_ Hxe]. rewrite (proj2 (Z.eqb_neq _ _) Hxe). wp_step. apply wp_ld; [done|].
        destruct (iv_free Hi x m HxF Hxm) as (-> & _ & _). apply wp_ret. split; [done|].
        destruct (k <? m) eqn:Ekm.
        -- apply Z.ltb_lt in Ekm. apply Hnew; [done|]. intros y j Hy Hyj Hj. specialize (Hmin y j Hy Hyj Hj). lia.
        -- apply Z.ltb_ge in Ekm. right. exists x, m. split_and!; [done|apply elem_of_app; by left|done|done|].
           intros y j [Hy|Hy%list_elem_of_singleton]%elem_of_app Hyj Hj; [by eapply Hmin|]. subst y. assert (j = k) by congruence. lia.
    + apply Z.ltb_ge in Elt. apply wp_ret. split; [done|]. destruct Hbest as [[-> Hno]|(x & m & -> & Hx & Hxm & Hnm & Hmin)].
      * left. split; [done|]. intros y j [Hy|Hy%list_elem_of_singleton]%elem_of_app Hyj; [by eapply Hno|]. subst y. assert (j = k) by congruence. lia.
      * right. exists x, m. split_and!; [done|apply elem_of_app; by left|done|done|].
        intros y j [Hy|Hy%list_elem_of_singleton]%elem_of_app Hyj Hj; [by eapply Hmin|]. subst y. assert (j = k) by congruence. lia.
Qed.

(** ** The end of a bigger group *)
Lemma inv_cut_mega S F A s s' x j1 j2 :
  let c := x + 256 * j1 in
  inv S F A s → S !! x = Some (256 * (j1 + j2) - 4) → x ∈ F → 1 <= j1 → 1 <= j2 →
  grp junk s' c (256 * j2 - 4) →
  (∀ q, q ≠ desc x → (∀ i, 0 <= i < 252 → q ≠ desc (c + i)) → rd s' q = rd s q) →
  rd s' (desc x) = set_blocks (256 * j1 - 4) (rd s (desc x)) →
  dom (bds s) ⊆ dom (bds s') → free_list s' = free_list s → rest s' = rest s →
  inv (cut_in S x (256 * j1 - 4) c (256 * j2 - 4)) F A s' ∧ (c ∉ F ∪ A) ∧
  keeps A S s (cut_in S x (256 * j1 - 4) c (256 * j2 - 4)) s'.
Proof.
  intros c Hi Hx HxF Hj1 Hj2 Hg Hrd Hrx Hdom Hfl Hrest. pose proof (iv_layout Hi) as Hl.
  unfold rest in Hrest. injection Hrest as Hfm Hna Hhw Hmx Hmb.
  destruct (layout_cut_mega S x j1 j2 Hl Hx Hj1 Hj2) as [Hl' Ht]. fold c in Hl', Ht.
  assert (256 <= 256 * (j1 + j2) - 4) as Hsz by lia.
  destruct (layout_mega_size _ _ _ Hl Hx ltac:(lia)) as (_ & Hmax & Hx256).
  assert (S !! c = None) as Hc by (eapply layout_inside; [done..|unfold c; lia]).
  assert (x ≠ c) as Hxc by (unfold c; lia).
  assert (x ∉ A) as HxA by (intros ?; by apply (iv_FA Hi x)).
  assert (c ∉ F ∪ A) as HcFA.
  { intros Hc'. apply not_elem_of_dom in Hc. apply Hc. apply elem_of_union in Hc' as [?|?]; [by apply (iv_F Hi)|by apply (iv_A Hi)]. }
  assert (∀ b n q, S !! b = Some n → own b n q → b ≠ x → rd s' q = rd s q) as Hown.
  { intros b n q Hb Hq Hbx. apply Hrd.
    - intros ->. apply Hbx. eapply (own_disjoint S); [done|exact Hb|exact Hx|done|apply own_head; lia].
    - intros i Hi' ->. destruct Hq as (j & Hj & E%desc_inj). apply Hbx.
      apply (layout_uniq S b n x (256 * (j1 + j2) - 4) (b + j)); [done..|lia|].
      unfold c in E. lia. }
  assert (∀ b n, cut_in S x (256 * j1 - 4) c (256 * j2 - 4) !! b = Some n →
    (b = x ∧ n = 256 * j1 - 4) ∨ (b = c ∧ n = 256 * j2 - 4) ∨ (b ≠ x ∧ b ≠ c ∧ S !! b = Some n)) as Hlk.
  { intros b n Hb. by apply cut_lookup. }
  assert (∀ b, b ∈ A → cut_in S x (256 * j1 - 4) c (256 * j2 - 4) !! b = S !! b) as HA.
  { intros b HbA. unfold cut_in. rewrite !lookup_insert_ne; [done| |]; intros <-; [apply HcFA; apply elem_of_union; by right|done]. }
  destruct (iv_mega Hi) as (M & Hs & Hsort & HM).
  assert (∀ b, b ∈ F → link (rd s' (desc b)) = link (rd s (desc b)) ∧ free (rd s' (desc b)) = free (rd s (desc b))) as HF.
  { intros b HbF. destruct (decide (b = x)) as [->|Hbx]; [by rewrite Hrx|].
    destruct (proj1 (elem_of_dom S b)) as [n Hn]; [by apply (iv_F Hi)|].
    rewrite (Hown b n); [done|done| |done]. apply own_head. by eapply (ly_pos _ Hl). }
  split; [|split; [done|]].
  - apply (inv_mega_step junk ∅ ∅ S _ F F A s s' M); try done.
    + rewrite Hmb, Ht. apply Hi.
    + rewrite Hmb. apply Hi.
    + by rewrite Hmb.
    + intros b n Hn. split.
      * intros [[_ ->]|[[_ ->]|(_ & _ & ?)]]%Hlk; [lia|lia|done].
      * intros Hb. apply cut_lookup; [done|]. right; right. split_and!; [| |done]; intros ->; [|congruence].
        assert (n = 256 * (j1 + j2) - 4) by congruence. lia.
    + intros b n q Hb Hor Hq. apply (Hown b n); [done|done|]. intros ->.
      destruct Hor; [assert (n = 256 * (j1 + j2) - 4) by congruence; lia|done].
    + intros b HbF. apply elem_of_dom. destruct (decide (b = x)) as [->|Hbx].
      * exists (256 * j1 - 4). apply cut_lookup; [done|by left].
      * destruct (proj1 (elem_of_dom S b)) as [n Hn]; [by apply (iv_F Hi)|]. exists n. apply cut_lookup; [done|].
        right; right. split_and!; [done| |done]. intros ->. congruence.
    + apply Hi.
    + intros b n [[-> ->]|[[-> ->]|(Hbx & _ & Hb)]]%Hlk Hn.
      * intros i Hi'. destruct (iv_grp Hi _ _ Hx i) as [G1 G2]; [lia|]. split; [|by apply Hdom].
        destruct (decide (i = 0)) as [->|].
        -- rewrite Z.add_0_r in *. by rewrite Hrx.
        -- rewrite Hrd; [done|intros E%desc_inj; lia|]. intros i' Hi2 E%desc_inj. unfold c in E. lia.
      * exact Hg.
      * intros i Hi'. destruct (iv_grp Hi _ _ Hb i Hi') as [G1 G2]. split; [|by apply Hdom].
        rewrite (Hown b n); [done|done|by exists i|done].
    + rewrite Hmb. intros b n y [[-> ->]|[[-> ->]|(_ & _ & Hb)]]%Hlk Hn Hy; [| |by eapply (iv_mapped Hi)];
        apply (iv_mapped Hi x _ y Hx); subst c; clear -Hy Hx256 Hj1 Hj2; zlia.
    + intros b n HbF [[-> ->]|[[-> ->]|(Hbx & _ & Hb)]]%Hlk Hn.
      * rewrite Hrx. cbn. destruct (iv_free Hi _ _ HxF Hx) as (_ & -> & _). split; [|done]. apply wrapU_small. lia.
      * exfalso. apply HcFA. apply elem_of_union. by left.
      * destruct (iv_free Hi b n HbF Hb) as (Hbl & Hfr & _).
        rewrite (Hown b n); [done|done| |done]. apply own_head. lia.
    + rewrite Hfm. eapply slist_ext; [|done]. intros y (b & -> & Hb)%list_elem_of_fmap. unfold BlockMem.nx.
      apply HM in Hb as [HbF _]. by destruct (HF b HbF) as [-> _].
    + intros b. rewrite HM. unfold in_megas. split; intros (HbF & n & Hb & Hn); (split; [done|]).
      * destruct (decide (b = x)) as [->|Hbx].
        -- exists (256 * j1 - 4). split; [apply cut_lookup; [done|by left]|lia].
        -- exists n. split; [|done]. apply cut_lookup; [done|]. right; right. split_and!; [done| |done]. intros ->. congruence.
      * destruct (Hlk _ _ Hb) as [[-> _]|[[-> _]|(_ & _ & ?)]]; [by eexists; split; [done|lia]| |by exists n].
        exfalso. apply HcFA. apply elem_of_union. by left.
    + intros b n n' _ HbF Hb Hn Hb' Hn' HbF'.
      destruct (Hlk _ _ Hb') as [[E _]|[[E _]|(_ & _ & Hb2)]].
      * destruct (Hlk _ _ Hb) as [[-> ->]|[[-> ->]|(Hbx & _ & Hb1)]]; [lia|apply HcFA; apply elem_of_union; by left|].
        rewrite E in HbF'. apply (iv_coal_mega Hi b n (256 * (j1 + j2) - 4) (not_elem_of_empty _) HbF Hb1 Hn); [by rewrite E|lia|by rewrite E].
      * apply HcFA. apply elem_of_union. left. by rewrite <- E.
      * destruct (Hlk _ _ Hb) as [[-> ->]|[[-> ->]|(Hbx & _ & Hb1)]].
        -- replace (x + (256 * j1 - 4) + 4) with c in Hb2 by (unfold c; lia). congruence.
        -- apply HcFA; apply elem_of_union; by left.
        -- by apply (iv_coal_mega Hi b n n' (not_elem_of_empty _) HbF Hb1 Hn Hb2 Hn').
  - constructor; try done. intros a n q Ha Hn Hq. apply (Hown a n); [done|done|]. by intros ->.
Qed.

(** ** Fresh megablocks *)
Lemma inv_fresh S F A s s' y j :
  let b := 256 * y + 4 in
  inv S F A s → 1 <= j → 0 <= y → heap_blocks S + 256 * j <= 2 ^ 32 →
  grown (mbs s) (mbs s') (y * 1048576) (1048576 * j) → mm_inv (mbs s') →
  mblocks_allocated (mbs s') = mblocks_allocated (mbs s) + j →
  grp junk s' b 252 → (∀ q, (∀ i, 0 <= i < 252 → q ≠ desc (b + i)) → rd s' q = rd s q) →
  dom (bds s) ⊆ dom (bds s') → free_list s' = free_list s → free_mblock_list s' = free_mblock_list s →
  n_alloc_blocks s' = n_alloc_blocks s → hw_alloc_blocks s' = hw_alloc_blocks s → sm_mutex s' = sm_mutex s →
  S !! b = None ∧ inv (<[b := 256 * j - 4]> S) F A s' ∧ keeps A S s (<[b := 256 * j - 4]> S) s'.
Proof.
  intros b Hi Hj Hy Hheap (Hr & Hmaxr & Hfresh & Hgrown) Hmm Hmb Hg Hrd Hdom Hfl Hfm Hna Hhw Hmx.
  pose proof (iv_layout Hi) as Hl.
  destruct (layout_add S b (256 * j - 4)) as (Hnone & Hl' & Ht); [done|unfold b; lia|unfold b; zlia|split; [lia|zlia]|unfold b; lia| |lia|].
  { intros x k Hx. destruct (decide (x + k <= b)); [by left|right]. destruct (decide (b + (256 * j - 4) <= x)); [done|].
    destruct (ly_pos _ Hl _ _ Hx) as (X1 & X2 & X3).
    exfalso. apply (Hfresh (4096 * Z.max x b)); [unfold b in *; lia|].
    apply (iv_mapped Hi x k); [done|]. subst b. clear -X1 X2 X3 n n0 Hj. zlia. }
  split; [done|].
  assert (∀ x k q, S !! x = Some k → own x k q → rd s' q = rd s q) as Hown.
  { intros x k q Hx Hq. apply Hrd. intros i Hi' ->. destruct Hq as (i' & Hi2 & E%desc_inj).
    assert (b = x) as <-; [|congruence].
    apply (layout_uniq (<[b := 256 * j - 4]> S) b (256 * j - 4) x k (b + i)); [done|apply lookup_insert_eq| |lia|lia].
    rewrite lookup_insert_ne; [done|congruence]. }
  assert (∀ x, x ∈ F ∪ A → x ≠ b) as HFA.
  { intros x Hx ->. apply not_elem_of_dom in Hnone. apply Hnone. apply elem_of_union in Hx as [?|?]; [by apply (iv_F Hi)|by apply (iv_A Hi)]. }
  assert (∀ x, x ∈ F → x ≠ b) as HF by (intros; apply HFA, elem_of_union; by left).
  destruct (iv_mega Hi) as (M & Hs & Hsort & HM).
  split.
  - apply (inv_mega_step junk ∅ ∅ S _ F F A s s' M); try done.
    + rewrite Ht, Hmb, <- (iv_total Hi). lia.
    + intros x Hx. apply Hgrown. by left.
    + intros x k Hk. rewrite lookup_insert_Some. split; [intros [[_ <-]|[_ ?]]; [lia|done]|].
      intros Hx. right. split; [congruence|done].
    + intros x Hx. apply lookup_insert_ne. intros <-. apply (HFA b); [apply elem_of_union; by right|done].
    + intros x k q Hx _ Hq. by apply (Hown x k).
    + pose proof (iv_F Hi) as HFd. rewrite dom_insert_L. clear -HFd. set_solver.
    + apply Hi.
    + intros x k Hx Hk. lk.
      * intros i Hi'. apply Hg. lia.
      * intros i Hi'. destruct (iv_grp Hi _ _ Hx i Hi') as [G1 G2]. split; [|by apply Hdom].
        rewrite (Hown x k); [done|done|by exists i].
    + intros x k z Hx Hk Hz. apply Hgrown. lk; [right|left; by eapply (iv_mapped Hi)].
      subst b. clear -Hz Hj Hy. zlia.
    + intros x k HxF Hx Hk. lk; [by exfalso; apply (HF b)|]. destruct (iv_free Hi x k HxF Hx) as (Hbl & Hfr & _).
      rewrite (Hown x k); [done|done|]. apply own_head. lia.
    + rewrite Hfm. eapply slist_ext; [|done]. intros z (x & -> & Hx)%list_elem_of_fmap. unfold BlockMem.nx.
      apply HM in Hx as (_ & k & Hx & _). rewrite (Hown x k); [done|done|]. apply own_head. by eapply (ly_pos _ Hl).
    + intros x. rewrite HM. unfold in_megas. split; intros (HxF & k & Hx & Hk); (split; [done|]); exists k; (split; [|done]).
      * rewrite lookup_insert_ne; [done|]. intros <-. by apply (HF b).
      * by lk; [exfalso; apply (HF b)|].
    + intros x k k' _ HxF Hx Hk Hx' Hk' HxF'. lk; try (by exfalso; apply (HF b)).
      apply lookup_insert_Some in Hx' as [[E _]|[_ Hx']]; [by apply (HF (x + k + 4))|].
      by apply (iv_coal_mega Hi x k k' (not_elem_of_empty _) HxF Hx Hk Hx' Hk').
  - constructor; try done.
    + intros x Hx. apply lookup_insert_ne. intros <-. apply (HFA b); [apply elem_of_union; by right|done].
    + intros x k q _ Hx Hq. by apply (Hown x k).
Qed.

(** ** alloc_mega_group *)

(** A group of [j] megablocks that is being worked on. *)
Record fresh_mega S F A s (b j : Z) : Prop := {
  fm_inv : inv S F A s;
  fm_dom : dom S = F ∪ A ∪ {[b]};
  fm_lim : b ∉ F ∪ A;
  fm_size : S !! b = Some (256 * j - 4);
  fm_blocks : blocks (rd s (desc b)) = 256 * j - 4
}.

Lemma set_size S F A s b j :
  inv S F A s → dom S = F ∪ A ∪ {[b]} → b ∉ F ∪ A → S !! b = Some (256 * j - 4) → 1 <= j <= 2 ^ 24 →
  fresh_mega S F A (wr junk s (desc b) (set_blocks (256 * j - 4))) b j ∧
  keeps A S s S (wr junk s (desc b) (set_blocks (256 * j - 4))).
Proof.
  intros Hi Hdom Hlim Hb Hj. pose proof (iv_layout Hi) as Hl.
  assert (own b (256 * j - 4) (desc b)) as Hown by (apply own_head; lia).
  split.
  - constructor; try done.
    + by eapply inv_limbo_wr.
    + rewrite rd_wr_eq. cbn. apply wrapU_small. lia.
  - apply evolves_keeps. apply evolves_touched with (b := b) (n := 256 * j - 4); [done|done| |].
    + intros ?. apply Hlim, elem_of_union. by right.
    + apply touched_wr; [|done]. by eapply own_row.
Qed.

Lemma alloc_mega_group_ok S F A s j :
  inv S F A s → dom S = F ∪ A → 1 <= j <= 2 ^ 24 → heap_blocks S + 256 * j <= 2 ^ 32 →
  wpb (alloc_mega_group junk j) (λ p s', ∃ S' F' b, p = desc b ∧ fresh_mega S' F' A s' b j ∧ keeps A S s S' s') s.
Proof.
  intros Hi HdomS Hj Hheap. pose proof (iv_layout Hi) as Hl. destruct (iv_mega Hi) as (M & Hs & Hsort & HM).
  unfold alloc_mega_group. rewrite group_blocks_32 by lia. rewrite (wrapU_small 32) by lia.
  apply wpb_bind_wp. wp_step. apply wpb_bind_wp. wp_step. apply wpb_bind_wp.
  eapply wp_mono; [apply (mega_scan_ok S F A s (256 * j - 4) M [] END); try done; [|lia|by intros x ?%elem_of_nil|]|].
  { eapply bucket_fuel; [done|by apply desc_NoDup, sorted_NoDup|]. intros x Hx. by apply HM in Hx as [? _]. }
  { left. split; [done|]. by intros x k ?%elem_of_nil. }
  cbn beta. intros [p|p] s1 Hr.
  { (* exact fit *)
    destruct Hr as (x & -> & HxF & Hx & Hi1 & Hk1 & Hbl). apply wpb_wp, wp_ret.
    assert (x ∉ A) as HxA by (intros ?; by apply (iv_FA Hi x)).
    exists S, (F ∖ {[x]}), x. split_and!; [done| |done]. constructor; [| | |done|done].
    - pose proof (inv_drop _ _ _ _ _ _ x Hi1) as Hi1'. replace ((A ∪ {[x]}) ∖ {[x]}) with A in Hi1'; [done|].
      apply set_eq. intros y. rewrite elem_of_difference, elem_of_union, elem_of_singleton. naive_solver.
    - rewrite HdomS. apply set_eq. intros y. rewrite !elem_of_union, elem_of_difference, elem_of_singleton.
      destruct (decide (y = x)) as [->|]; naive_solver.
    - rewrite elem_of_union, elem_of_difference, elem_of_singleton. naive_solver. }
  destruct Hr as (-> & Hbest & _). cbn [app] in Hbest. destruct Hbest as [[-> _]|(x & k & -> & HxM & Hx & Hlt & _)].
  - (* from the operating system *)
    change (negb (END =? END)) with false. cbv iota. apply wpb_bind. apply wpb_bind. apply wpb_in_mbs.
    eapply wpb_mono; [apply getMBlocks_ok; [apply Hi|lia|change MBLOCK_SIZE with 1048576; lia]|].
    cbn beta. intros r m' (Har & Hgr & Hmm & Hma & _). change MBLOCK_SIZE with 1048576 in Har, Hgr.
    pose proof (iv_total Hi) as Htot. pose proof (asum_range S ∅ Hl) as Hpos.
    rewrite wrapU_small in Hma by lia. pose proof Hgr as (Hr & Hmaxr & _).
    assert (r = r / 1048576 * 1048576) as Er by (clear -Har; zlia). set (y := r / 1048576) in *. rewrite Er in Hgr |- *.
    apply wpb_bind_wp. eapply wp_mono; [apply (initMBlock_ok junk); clear -Hr Er; lia|].
    cbn beta. intros _ s1 (Hg & Hrd & Hd & Hfl & Hrest). unfold rest in Hrest. cbn in Hrest. injection Hrest as Hfm Hna Hhw Hmx Hmb.
    destruct (inv_fresh S F A s s1 y j) as (Hnone & Hi1 & Hk1); try done; try lia; [by rewrite Hmb|by rewrite Hmb|by rewrite Hmb|].
    apply wpb_wp, wp_ret. rewrite desc_first. apply wpb_wp. wp_step. apply wp_upd.
    { eapply inv_pos; [exact Hi1|apply lookup_insert_eq]. }
    apply wp_ret. assert (256 * y + 4 ∉ dom S) as Hnd by by apply not_elem_of_dom.
    destruct (set_size (<[256 * y + 4 := 256 * j - 4]> S) F A s1 (256 * y + 4) j) as [Hfm1 Hk2]; try done.
    + rewrite dom_insert_L, HdomS. clear. set_solver.
    + rewrite <- HdomS. done.
    + apply lookup_insert_eq.
    + eexists _, F, _. split_and!; [done|exact Hfm1|]. by eapply keeps_trans.
  - (* the end of the best group *)
    destruct (proj1 (HM x) HxM) as (HxF & k' & Hx' & Hk). rewrite Hx in Hx'. injection Hx' as <-.
    destruct (layout_mega_size _ _ _ Hl Hx Hk) as (Hms & Hmax & Hx256). destruct (mega_mblocks_val k Hms) as [Ek Hjk].
    destruct (iv_free Hi x k HxF Hx) as (Hbl & _ & _).
    assert (desc x ≠ END) as Hxe by by eapply inv_pos.
    set (j1 := mblocks_of k - j). assert (k = 256 * (j1 + j) - 4) as Ek' by (unfold j1; lia).
    assert (1 <= j1) as Hj1 by (unfold j1; lia).
    rewrite (proj2 (Z.eqb_neq _ _) Hxe). cbn [negb]. apply wpb_wp. wp_step. wp_step. apply wp_ld; [done|]. rewrite Hbl.
    rewrite mega_mblocks by (done || lia). fold j1. rewrite (wrapU_small 64 j1) by (unfold j1; lia).
    rewrite group_blocks_64 by lia. change MBLOCK_SIZE with 1048576. rewrite (wrapU_small 64 (_ * _)) by lia.
    rewrite desc_round. replace (x / 256 * 1048576 + j1 * 1048576) with ((x / 256 + j1) * 1048576) by lia. rewrite desc_first.
    set (c := 256 * (x / 256 + j1) + 4). assert (c = x + 256 * j1) as Ec by (unfold c; lia).
    wp_step. apply wp_upd; [done|]. set (s1 := wr junk s (desc x) _).
    assert (MBLOCK_ROUND_DOWN (desc c) = (x / 256 + j1) * 1048576) as ->.
    { rewrite desc_round. unfold c. f_equal. clear. zlia. }
    wp_step. destruct (ly_pos _ Hl _ _ Hx) as (Hx0 & _ & _).
    eapply wp_mono; [apply (initMBlock_ok junk); clear -Hx0 Hj1; zlia|].
    cbn beta. intros _ s2 (Hg & Hrd & Hd & Hfl & Hrest). fold c in Hg, Hrd.
    destruct (inv_cut_mega S F A s s2 x j1 j) as (Hi2 & Hlim & Hk2); try done.
    + by rewrite <- Ek'.
    + lia.
    + rewrite <- Ec. intros i Hi'. apply Hg. lia.
    + rewrite <- Ec. intros q Hq Hqc. rewrite Hrd by done. by apply rd_wr_ne.
    + rewrite Hrd; [unfold s1; by rewrite rd_wr_eq|]. intros i Hi' E%desc_inj. unfold c in E. lia.
    + etransitivity; [|done]. apply dom_wr.
    + rewrite <- Ec in *. wp_step. wp_step.
      assert (x ≠ c) as Hxc by lia.
      assert (cut_in S x (256 * j1 - 4) c (256 * j - 4) !! c = Some (256 * j - 4)) as Hsz by (apply cut_lookup; [done|right; by left]).
      apply wp_upd; [by eapply inv_pos|]. apply wp_ret.
      destruct (set_size (cut_in S x (256 * j1 - 4) c (256 * j - 4)) F A s2 c j) as [Hfm1 Hk3]; try done.
      * unfold cut_in. rewrite !dom_insert_L, HdomS. clear -HxF. set_solver.
      * eexists _, F, c. split_and!; [done|exact Hfm1|]. by eapply keeps_trans.
Qed.
End mega.
