(* ===== verification/BlockTake.v ===== *)
(** * allocGroup

    A group from a bucket, cut if it is too big, from a fresh megablock, or a
    megablock group; the allocated groups of the others are left alone. *)
From S2P Require Import Prelude DList MBlock MBlockProps BlockAlloc BlockArith BlockMem BlockLayout BlockInv BlockLists BlockGroup BlockSanity BlockMega BlockFree BlockGet.
From stdpp Require Import list gmap sets sorting.
Local Open Scope Z_scope.

Section take.
Context {OS : Type} `{OsMemLaws OS}.
Variable junk : ptr → bdescr.
Variable sanity : bool.
Notation rd := (rd junk).
Notation inv := (inv junk ∅).
Notation keeps := (keeps junk).
Implicit Types (s : ba OS) (S : gmap Z Z) (F A : gset Z).

(** A new allocated group of [n] blocks, [p], beside those of [A]. *)
Definition taken S F A s (n : Z) (p : ptr) (S' : gmap Z Z) (F' : gset Z) s' : Prop :=
  ∃ b, p = desc b ∧ (b ∉ A) ∧ inv S' F' (A ∪ {[b]}) s' ∧ dom S' = F' ∪ (A ∪ {[b]}) ∧ S' !! b = Some n ∧
    free (rd s' p) = 4096 * b ∧ link (rd s' p) = END ∧ keeps A S s S' s'.

Lemma keeps_touched A S s s' b n :
  layout S → S !! b = Some n → b ∉ A → touched junk (row b n) s s' → keeps A S s S s'.
Proof. intros. by eapply evolves_keeps, evolves_touched. Qed.

(** initGroup on a group that is being worked on, alone. *)
Lemma take_limbo S0 s0 S F A s b n :
  keeps A S0 s0 S s → inv S F A s → dom S = F ∪ A ∪ {[b]} → b ∉ F ∪ A → S !! b = Some n → blocks (rd s (desc b)) = n →
  wp (initGroup junk (desc b)) (λ _ s', taken S0 F A s0 n (desc b) S F s') s.
Proof.
  intros Hk Hi Hdom Hlim Hb Hbl. pose proof (iv_layout Hi) as Hl.
  assert (b ∉ A) as HbA by (intros ?; apply Hlim, elem_of_union; by right).
  eapply wp_mono; [by eapply initGroup_ok|]. cbn beta. intros _ s' (Hi' & Ht & Hf & Hlk).
  exists b. split_and!; [done..| |done|done|done|].
  - rewrite Hdom. apply set_eq. intros x. rewrite !elem_of_union. tauto.
  - eapply keeps_trans; [done|]. by eapply keeps_touched.
Qed.

(** ** Cutting a free group *)
Lemma split_free_block_ok S F A s b k n ln :
  inv S F A s → dom S = F ∪ A → b ∈ F → S !! b = Some k → k < 252 → 1 <= n < k → log_2 k = ln →
  wp (split_free_block junk (desc b) n ln) (λ p s', ∃ S' F' c, p = desc c ∧ inv S' F' A s' ∧
    dom S' = F' ∪ A ∪ {[c]} ∧ (c ∉ F' ∪ A) ∧ S' !! c = Some n ∧ blocks (rd s' (desc c)) = n ∧
    evolves junk A S s S' s') s.
Proof.
  intros Hi Hdom HbF Hb Hk Hn Hlog. pose proof (iv_layout Hi) as Hl.
  destruct (iv_free Hi _ _ HbF Hb) as (Hbl & Hfr & _).
  assert (desc b ≠ END) as Hbe by by eapply inv_pos.
  assert (b ∉ A) as HbA by (intros ?; by apply (iv_FA Hi b)).
  unfold split_free_block. wp_step. apply wp_ld; [done|]. rewrite Hbl. wp_step. apply wp_assert; [apply Z.ltb_lt; lia|].
  wp_step. rewrite <- Hlog. eapply wp_mono; [by eapply unlist_ok|]. cbn beta. intros _ s1 [Hi1 R1].
  destruct (core_eq _ _ (rl_core _ _ _ _ R1 (desc b))) as (_ & Ef1 & Eb1 & _).
  wp_step. apply wp_ld; [done|]. rewrite Eb1, Hbl.
  assert (b ∉ F ∖ {[b]} ∪ A) as Hlim by (clear -HbA; set_solver).
  (* the two parts *)
  set (c := b + (k - n)). set (S' := cut_in S b (k - n) c n). set (F1 := F ∖ {[b]}).
  assert (inv S' F1 A s1) as Hi1'.
  { apply inv_cut; [done|by replace (k - n + n) with k by lia|lia..|done]. }
  destruct (layout_cut S b (k - n) n Hl) as [Hl' Ht]; [by replace (k - n + n) with k by lia|lia..|].
  assert (b ≠ c) as Hbc by (unfold c; lia).
  assert (S !! c = None) as Hc by (apply (layout_inside S b k); [done..|unfold c; lia]).
  assert (c ∉ dom S) as Hcd by by apply not_elem_of_dom.
  assert (S' !! b = Some (k - n)) as Hb' by (apply cut_lookup; [done|by left]).
  assert (S' !! c = Some n) as Hc' by (apply cut_lookup; [done|right; by left]).
  assert (c ∉ F1 ∪ A) as Hclim.
  { unfold F1. rewrite Hdom in Hcd. clear -Hcd. set_solver. }
  assert (desc c ≠ END) as Hce by by eapply (inv_pos _ _ S').
  assert (bd_add (bd_add (desc b) k) (- n) = desc c) as Eaddr.
  { unfold c. rewrite <- (desc_row S b k (k - n)) by (done || lia). unfold bd_add, BDESCR_SIZE. lia. }
  rewrite Eaddr. wp_step. apply wp_upd; [done|]. wp_step. apply wp_upd; [done|].
  set (s2 := wr junk s1 (desc c) (set_blocks n)). set (s3 := wr junk s2 _ _).
  assert (desc b ≠ desc c) as Hdbc by by intros ?%desc_inj.
  assert (rd s3 (desc b) = set_blocks (k - n) (rd s1 (desc b))) as E3b.
  { unfold s3, s2. rewrite rd_wr_eq, rd_wr_ne by done. by rewrite Eb1, Hbl. }
  assert (rd s3 (desc c) = set_blocks n (rd s1 (desc c))) as E3c.
  { unfold s3, s2. by rewrite rd_wr_ne, rd_wr_eq. }
  assert (own b (k - n) (desc b)) as Hob by (apply own_head; lia).
  assert (own c n (desc c)) as Hoc by (apply own_head; lia).
  assert (inv S' F1 A s3) as Hi3.
  { eapply inv_limbo_wr; [|exact Hb'|done|done|done]. by eapply inv_limbo_wr. }
  wp_step. eapply wp_mono; [eapply (setup_tail_ok junk ∅ S' F1 A s3 b (k - n)); try done; [lia|]|].
  { rewrite E3b. cbn. apply wrapU_small. lia. }
  cbn beta. intros _ s4 (Hi4 & Ht4 & E4 & Htail). wp_step. apply wp_ld; [done|]. rewrite E4, E3b.
  cbn [blocks set_blocks]. rewrite wrapU_small by lia. wp_step.
  assert (rd s4 (desc c) = rd s3 (desc c)) as E4c.
  { apply (th_out _ _ _ _ Ht4). intros Hrow. apply Hbc.
    by eapply (row_disjoint S'). }
  eapply wp_mono; [eapply (enlist_ok junk ∅ S' F1 A s4 b (k - n)); try done; [lia| | |]|].
  { split_and!; [|by rewrite E4, E3b; cbn; rewrite Ef1|].
    - rewrite E4, E3b. cbn. apply wrapU_small. lia.
    - intros H1. apply Htail. lia. }
  { fold c. intros HcF. apply Hclim, elem_of_union. by left. }
  { intros x m HxF Hx Ex. apply (cut_lookup S b (k - n) c n x m Hbc) in Hx as [[-> ->]|[[-> ->]|(Hxb & Hxc & Hx)]]; [lia| |].
    - apply Hclim, elem_of_union. by left.
    - apply elem_of_difference in HxF as [HxF _].
      destruct (ly_pos _ Hl _ _ Hx) as (X1 & X2 & X3). destruct (ly_pos _ Hl _ _ Hb) as (B1 & B2 & _).
      destruct (decide (m < 252)).
      + apply (iv_coal Hi x m HxF Hx); [done|]. by rewrite Ex.
      + destruct (ly_mega _ Hl _ _ Hx) as [M1 M2]; [lia|]. clear -M1 M2 Ex B2. zlia. }
  cbn beta. intros _ s5 [Hi5 R5].
  assert (rd s5 (desc c) = rd s4 (desc c)) as E5c.
  { apply (rl_out _ _ _ _ R5). intros (f & Ef%desc_inj & Hf%elem_of_elements)%list_elem_of_fmap. subst f.
    apply elem_of_union in Hf as [Hf|Hf%elem_of_singleton]; [|done]. apply Hclim, elem_of_union. by left. }
  apply wp_ret. exists S', (F1 ∪ {[b]}), c. split_and!; [done|done| | |done| |].
  - unfold S', cut_in, F1. rewrite !dom_insert_L, Hdom. apply set_eq. intros x.
    rewrite !elem_of_union, elem_of_difference, !elem_of_singleton. destruct (decide (x = b)); tauto.
  - rewrite !elem_of_union, elem_of_singleton. rewrite elem_of_union in Hclim. naive_solver.
  - rewrite E5c, E4c, E3c. cbn. apply wrapU_small. lia.
  - assert (c ∉ A) as HcA by (intros ?; apply Hclim, elem_of_union; by right).
    apply (evolves_trans _ _ _ _ S s1); [eapply evolves_relinked; [done|apply (iv_F Hi)|apply (iv_FA Hi)|done]|].
    apply (evolves_trans _ _ _ _ S' s1).
    { constructor; try done. intros a Ha. unfold S', cut_in. rewrite !lookup_insert_ne; [done| |]; by intros <-. }
    apply (evolves_trans _ _ _ _ S' s3).
    { eapply evolves_trans; [eapply (evolves_touched junk A S' s1 s2 c n)|eapply (evolves_touched junk A S' s2 s3 b (k - n))]; try done.
      - apply touched_wr; [by eapply own_row|done].
      - apply touched_wr; [by eapply own_row|done]. }
    apply (evolves_trans _ _ _ _ S' s4); [by apply (evolves_touched junk A S' s3 s4 b (k - n))|].
    eapply evolves_relinked; [done|apply (iv_F Hi5)|apply (iv_FA Hi5)|done].
Qed.

(** ** From a bucket *)
Lemma alloc_from_bucket_ok S F A s n ln p :
  inv S F A s → dom S = F ∪ A → 1 <= n < 252 → (log_2_ceil n <= ln)%nat → (ln < MAX_FREE_LIST)%nat →
  free_list s !! ln = Some p → p ≠ END →
  wp (alloc_from_bucket junk n ln) (λ p s', ∃ S' F', taken S F A s n p S' F' s') s.
Proof.
  intros Hi Hdom Hn Hceil Hln Hp Hpe. pose proof (iv_layout Hi) as Hl.
  destruct (iv_bucket Hi ln Hln) as (B & HB & HBb). unfold alloc_from_bucket. wp_step.
  eapply wp_get_list; [done|]. intros hd tl Hhd [Hseg Hnd].
  assert (hd = p) as -> by congruence.
  destruct B as [|b B]; [by destruct Hseg|]. destruct Hseg as (-> & _). wp_step. apply wp_ld; [done|].
  destruct (proj1 (HBb b)) as (HbF & k & Hb & Hk & Hlog); [by left|].
  destruct (iv_free Hi _ _ HbF Hb) as (Hbl & _ & _). rewrite Hbl.
  destruct (ly_pos _ Hl _ _ Hb) as (_ & _ & Hk1).
  assert (b ∉ A) as HbA by (intros ?; by apply (iv_FA Hi b)).
  pose proof (log_2_fits n k ln ltac:(lia) ltac:(lia) Hlog Hceil) as Hnk.
  destruct (k =? n) eqn:E.
  - apply Z.eqb_eq in E as ->. wp_step. rewrite <- Hlog. eapply wp_mono; [by eapply unlist_ok|]. cbn beta. intros _ s1 [Hi1 R1].
    destruct (core_eq _ _ (rl_core _ _ _ _ R1 (desc b))) as (_ & _ & Eb1 & _). wp_step.
    eapply wp_mono; [eapply (take_limbo S s S (F ∖ {[b]}) A s1 b n); try done|].
    + eapply evolves_keeps, evolves_relinked; [done|apply (iv_F Hi)|apply (iv_FA Hi)|done].
    + rewrite Hdom. apply set_eq. intros x. rewrite !elem_of_union, elem_of_difference, !elem_of_singleton.
      destruct (decide (x = b)) as [->|]; naive_solver.
    + clear -HbA. set_solver.
    + by rewrite Eb1.
    + cbn beta. intros _ s2 Hs2. apply wp_ret. exists S, (F ∖ {[b]}). exact Hs2.
  - apply Z.eqb_neq in E. rewrite (proj2 (Z.ltb_lt n k)) by lia. wp_step.
    eapply wp_mono; [eapply split_free_block_ok; try done; lia|]. cbn beta.
    intros q s1 (S' & F' & c & -> & Hi1 & Hd1 & Hlim & Hc & Hblc & Hev). wp_step.
    apply wp_ld; [by eapply (inv_pos _ _ S')|]. rewrite Hblc. wp_step. apply wp_assert; [apply Z.eqb_refl|]. wp_step.
    eapply wp_mono; [eapply (take_limbo S s S' F' A s1 c n); try done; by apply evolves_keeps|].
    cbn beta. intros _ s2 Hs2. apply wp_ret. exists S', F'. exact Hs2.
Qed.

(** ** From a fresh megablock *)
Lemma alloc_from_mblock_ok S F A s n :
  inv S F A s → dom S = F ∪ A → 1 <= n < 252 → heap_blocks S + 256 <= 2 ^ 32 → 0 <= n_alloc_blocks s <= 2 ^ 33 →
  wpb (alloc_from_mblock junk sanity n) (λ p s', ∃ S' F', taken S F A s n p S' F' s') s.
Proof.
  intros Hi Hdom Hn Hheap Hcount. unfold alloc_from_mblock. apply wpb_bind.
  eapply wpb_mono; [by apply (alloc_mega_group_ok junk S F A s 1)|]. cbn beta.
  intros p s1 (S1 & F1 & b & -> & [Hi1 Hd1 Hlim1 Hb1 Hbl1] & Hk1). change (256 * 1 - 4) with 252 in *.
  pose proof (iv_layout Hi1) as Hl1. apply wpb_wp. wp_step. apply wp_upd; [by eapply inv_pos|].
  set (s2 := wr junk s1 (desc b) (set_blocks n)).
  assert (inv S1 F1 A s2) as Hi2 by (eapply inv_limbo_wr; [done|exact Hb1|done|apply own_head; lia|done]).
  set (c := b + n). set (S2 := cut_in S1 b n c (252 - n)).
  assert (inv S2 F1 A s2) as Hi2'.
  { apply inv_cut; [done|by replace (n + (252 - n)) with 252 by lia|lia..|done]. }
  assert (b ≠ c) as Hbc by (unfold c; lia).
  assert (S1 !! c = None) as Hc1 by (apply (layout_inside S1 b 252); [done..|unfold c; lia]).
  assert (S2 !! b = Some n) as Hb2 by (apply cut_lookup; [done|by left]).
  assert (S2 !! c = Some (252 - n)) as Hc2 by (apply cut_lookup; [done|right; by left]).
  assert (b ∉ A) as HbA by (intros ?; apply Hlim1, elem_of_union; by right).
  assert (c ∉ F1 ∪ A) as Hclim.
  { apply not_elem_of_dom in Hc1. rewrite Hd1 in Hc1. clear -Hc1. set_solver. }
  assert (dom S2 = F1 ∪ A ∪ {[b; c]}) as Hd2.
  { unfold S2, cut_in. rewrite !dom_insert_L, Hd1. clear. set_solver. }
  assert (keeps A S1 s1 S2 s2) as Hk2.
  { apply (keeps_trans junk _ _ _ S1 s2).
    - eapply keeps_touched; [done|exact Hb1|done|]. apply touched_wr; [|done]. eapply own_row; [done..|apply own_head; lia].
    - constructor; try done. intros a Ha. unfold S2, cut_in. rewrite !lookup_insert_ne; [done| |]; intros <-; [|done].
      apply Hclim, elem_of_union. by right. }
  pose proof (iv_layout Hi2') as Hl2.
  wp_step. eapply wp_mono; [eapply (initGroup_ok junk ∅ S2 F1 A s2 b n); try done|].
  { unfold s2. rewrite rd_wr_eq. cbn. apply wrapU_small. lia. }
  cbn beta. intros _ s3 (Hi3 & Ht3 & Hf3 & Hlk3).
  assert (bd_add (desc b) n = desc c) as Ec by (apply (desc_row S1 b 252); [done..|lia]). rewrite Ec.
  assert (desc c ≠ END) as Hce by by eapply (inv_pos _ _ S2).
  assert (c ∉ F1 ∪ (A ∪ {[b]})) as Hclim3.
  { rewrite !elem_of_union, elem_of_singleton. rewrite elem_of_union in Hclim. naive_solver. }
  wp_step. apply wp_upd; [done|]. set (s4 := wr junk s3 _ _).
  assert (inv S2 F1 (A ∪ {[b]}) s4) as Hi4 by (eapply inv_limbo_wr; [done|exact Hc2|done|apply own_head; lia|done]).
  wp_step. eapply wp_mono; [eapply (initGroup_ok junk ∅ S2 F1 (A ∪ {[b]}) s4 c (252 - n)); try done|].
  { unfold s4. rewrite rd_wr_eq. cbn. rewrite bpm. apply wrapU_small. lia. }
  cbn beta. intros _ s5 (Hi5 & Ht5 & _ & _).
  destruct (iv_alloc Hi5 c (252 - n)) as (Hbl5 & _ & _); [apply elem_of_union; right; by apply elem_of_singleton|done|].
  wp_step. apply wp_ld; [done|]. rewrite Hbl5. do 2 wp_step. set (s6 := set_n_alloc _ s5). wp_step.
  assert (c ∉ A ∪ {[b]}) as HcA3 by (intros ?; apply Hclim3, elem_of_union; by right).
  assert (keeps (A ∪ {[b]}) S2 s3 S2 s5) as Hk5.
  { apply (keeps_trans junk _ _ _ S2 s4).
    - eapply keeps_touched; [done|exact Hc2|done|]. apply touched_wr; [|done]. eapply own_row; [done..|apply own_head; lia].
    - by eapply (keeps_touched _ S2 s4 s5 c (252 - n)). }
  assert (n_alloc_blocks s5 = n_alloc_blocks s) as Hn5.
  { rewrite (kp_n _ _ _ _ _ _ Hk5), (kp_n _ _ _ _ _ _ (keeps_touched _ _ _ _ _ _ Hl2 Hb2 HbA Ht3)).
    by rewrite (kp_n _ _ _ _ _ _ Hk2), (kp_n _ _ _ _ _ _ Hk1). }
  assert (n_alloc_blocks s6 = n_alloc_blocks s + (252 - n)) as Hn6.
  { unfold s6. cbn. rewrite Hn5. apply wrapU_small. lia. }
  assert (allocd (252 - n) = 252 - n) as Ead by (unfold allocd; clear -Hn; zlia).
  set (A5 := A ∪ {[b]} ∪ {[c]}) in *. assert (A5 ∖ {[c]} = A ∪ {[b]}) as EA.
  { unfold A5. clear -HcA3. set_solver. }
  eapply wp_mono; [eapply (freeGroup_ok junk sanity S2 F1 A5 s6 c (252 - n))|].
  { by apply inv_n_alloc. }
  { rewrite Hd2. unfold A5. clear. set_solver. }
  { unfold A5. apply elem_of_union; right. by apply elem_of_singleton. }
  { done. }
  { rewrite Hn6, Ead. lia. }
  cbn beta. intros _ s7 (S7 & F7 & Hi7 & Hd7 & Hev7). rewrite EA in Hi7, Hd7, Hev7. rewrite Hn6, Ead in Hev7.
  pose proof (evolves_keeps _ _ _ _ _ _ Hev7) as [Z7 K7 N7 W7 X7]. cbn in N7, W7, X7.
  assert (b ∈ A ∪ {[b]}) as HbAb by (apply elem_of_union; right; by apply elem_of_singleton).
  assert (rd s7 (desc b) = rd s3 (desc b)) as E7.
  { rewrite (K7 b n (desc b)); [|done|done|apply own_head; lia].
    change (rd (set_n_alloc (n_alloc_blocks s + (252 - n) - (252 - n)) s6) (desc b)) with (rd s5 (desc b)).
    apply (kp_desc _ _ _ _ _ _ Hk5 b n); [done|done|apply own_head; lia]. }
  apply wp_ret. exists S7, F7, b. rewrite E7. split_and!; [done..| |done|done|].
  - by rewrite Z7.
  - apply (keeps_trans junk _ _ _ S1 s1); [done|]. apply (keeps_trans junk _ _ _ S2 s2); [done|].
    apply (keeps_trans junk _ _ _ S2 s3); [by apply (keeps_touched A S2 s2 s3 b n)|]. apply (keeps_trans junk _ _ _ S2 s5).
    { eapply keeps_mono; [|done]. clear. set_solver. }
    constructor.
    + intros a Ha. apply Z7. apply elem_of_union. by left.
    + intros a k q Ha Hk Hq. apply (K7 a k q); [apply elem_of_union; by left|done|done].
    + rewrite N7, Hn5. lia.
    + by rewrite W7.
    + by rewrite X7.
Qed.

(** ** The search for a bucket *)
Lemma find_bucket_ok S F A s k : inv S F A s → ∀ m, (k + m = MAX_FREE_LIST)%nat →
  wp (find_bucket (seq k m)) (λ ln s', s' = s ∧ (ln = MAX_FREE_LIST ∨
    ((k <= ln)%nat ∧ (ln < MAX_FREE_LIST)%nat ∧ ∃ p, free_list s !! ln = Some p ∧ p ≠ END))) s.
Proof.
  intros Hi m. revert k. induction m as [|m IH]; intros k Hk; cbn [seq find_bucket].
  - apply wp_ret. split; [done|by left].
  - destruct (iv_bucket Hi k) as (B & HB & _); [lia|]. wp_step. eapply wp_get_list; [done|]. intros hd tl Hhd _.
    destruct (hd =? END) eqn:E.
    + eapply wp_mono; [apply IH; lia|]. cbn beta. intros ln s' [-> [->|(? & ? & ?)]]; (split; [done|]); [by left|right].
      split_and!; [lia|done|done].
    + apply Z.eqb_neq in E. apply wp_ret. split; [done|]. right. split_and!; [lia|lia|eauto].
Qed.

(** ** allocGroup *)

(** The blocks of the group a request of [n] blocks is served with. *)
Definition group_size (n : Z) : Z := if decide (n < 252) then n else 256 * ((n + 3) / 256 + 1) - 4.

Lemma bump_hw_ok (Q : unit → ba OS → Prop) s :
  Q tt (set_hw_alloc (Z.max (hw_alloc_blocks s) (n_alloc_blocks s)) s) → wp bump_hw Q s.
Proof.
  intros HQ. unfold bump_hw. apply wp_modify. destruct (hw_alloc_blocks s <? n_alloc_blocks s) eqn:E.
  - apply Z.ltb_lt in E. by rewrite Z.max_r in HQ by lia.
  - apply Z.ltb_ge in E. rewrite Z.max_l in HQ by lia. by destruct s.
Qed.

(** The result of an allocation: a new group beside those of [A], which are left
    alone. *)
Definition allocated S F A s (n : Z) (p : ptr) s' : Prop := ∃ S' F' b,
  p = desc b ∧ (b ∉ A) ∧ ready junk S' F' (A ∪ {[b]}) s' ∧ S' !! b = Some n ∧
  free (rd s' p) = 4096 * b ∧ link (rd s' p) = END ∧
  (∀ a, a ∈ A → S' !! a = S !! a) ∧ (∀ a k q, a ∈ A → S !! a = Some k → own a k q → rd s' q = rd s q) ∧
  sm_mutex s' = sm_mutex s.

(** The counts after the request was noted. *)
Definition raised (x : Z) (s : ba OS) : ba OS :=
  set_hw_alloc (Z.max (hw_alloc_blocks s) (n_alloc_blocks s + x)) (set_n_alloc (n_alloc_blocks s + x) s).

Lemma raise_ok x s (Q : unit → ba OS → Prop) :
  0 <= n_alloc_blocks s <= 2 ^ 32 → 0 <= x <= 2 ^ 32 → Q tt (raised x s) →
  wp (modify (λ s, set_n_alloc (wrapU 64 (n_alloc_blocks s + x)) s)) (λ _ s', wp bump_hw Q s') s.
Proof. intros Hn Hx HQ. apply wp_modify. rewrite wrapU_small by lia. by apply bump_hw_ok. Qed.

Lemma inv_raised S F A s x : inv S F A s → inv S F A (raised x s).
Proof. intros Hi. by apply inv_hw_alloc, inv_n_alloc. Qed.

Lemma finish_ok S F A s n p S' F' s' :
  ready junk S F A s → 1 <= n → taken S F A (raised (allocd n) s) n p S' F' s' →
  wp (when sanity (checkFreeListSanity junk);; mret p) (allocated S F A s n) s'.
Proof.
  intros [Hi Hdom Hna Hhw] Hn (b & -> & HbA & Hi' & Hd' & Hb & Hf & Hlk & [Z1 K1 N1 W1 X1]).
  unfold raised in N1, W1, X1. cbn in N1, W1, X1.
  assert (ready junk S' F' (A ∪ {[b]}) s') as Hrdy.
  { constructor; [done|done| |rewrite N1, W1; lia].
    rewrite N1, Hna, (asum_take S' A b n), (asum_ext S S' A) by (done || apply (iv_A Hi)). lia. }
  assert (wp (mret (desc b) : prog _ _) (allocated S F A s n) s') as Hret.
  { apply wp_ret. exists S', F', b. by split_and!. }
  wp_step. wp_step; [|done]. eapply wp_mono; [by eapply sanity_ok|]. cbn beta. by intros _ ? ->.
Qed.

(** Whole megablocks. *)
Lemma alloc_mega_ok S F A s j :
  ready junk S F A s → 1 <= j <= 2 ^ 24 → heap_blocks S + 256 * j <= 2 ^ 32 →
  wpb (bd ← alloc_mega_group junk j; initGroup junk bd;; mret bd)
    (λ p s', ∃ S' F', taken S F A (raised (j * 252) s) (256 * j - 4) p S' F' s') (raised (j * 252) s).
Proof.
  intros [Hi Hdom _ _] Hj Hheap. apply wpb_bind.
  eapply wpb_mono; [eapply (alloc_mega_group_ok junk S F A); [by apply inv_raised|done..]|].
  cbn beta. intros p s1 (S1 & F1 & b & -> & [Hi1 Hd1 Hlim1 Hb1 Hbl1] & Hk1). apply wpb_wp. wp_step.
  eapply wp_mono; [by eapply take_limbo|]. cbn beta. intros _ s2 Ht. apply wp_ret. by exists S1, F1.
Qed.

(** Less than a megablock. *)
Lemma alloc_small_ok S F A s n :
  ready junk S F A s → 1 <= n < 252 → heap_blocks S + 256 <= 2 ^ 32 →
  wpb (ln ← find_bucket (seq (log_2_ceil n) (MAX_FREE_LIST - log_2_ceil n));
       if (ln =? MAX_FREE_LIST)%nat then alloc_from_mblock junk sanity n else alloc_from_bucket junk n ln)
    (λ p s', ∃ S' F', taken S F A (raised n s) n p S' F' s') (raised n s).
Proof.
  intros [Hi Hdom Hna Hhw] Hn Hheap. pose proof (asum_range S A (iv_layout Hi)) as Hra.
  apply (inv_raised _ _ _ _ n) in Hi. destruct (log_2_ceil_spec n) as [Hc _]; [lia|].
  apply wpb_bind_wp. eapply wp_mono; [eapply (find_bucket_ok S F A); [done|lia]|].
  cbn beta. intros ln s1 [-> [->|(Hln & Hln9 & p & Hp & Hpe)]].
  - rewrite Nat.eqb_refl. apply alloc_from_mblock_ok; try done. unfold raised. cbn. lia.
  - rewrite (proj2 (Nat.eqb_neq ln MAX_FREE_LIST)) by lia. apply wpb_wp. by eapply alloc_from_bucket_ok.
Qed.

Lemma allocGroup_ready S F A s n :
  ready junk S F A s → 0 < n <= 2 ^ 32 - 4 → heap_blocks S + 256 * ((n + 3) / 256 + 1) <= 2 ^ 32 →
  wpb (allocGroup junk sanity n) (allocated S F A s (group_size n)) s.
Proof.
  intros Hr Hn Hheap. pose proof Hr as [Hi Hdom Hna Hhw]. pose proof (asum_range S A (iv_layout Hi)) as Hra.
  pose proof (ly_total _ (iv_layout Hi)) as Hmax.
  unfold allocGroup. rewrite (proj2 (Z.eqb_neq n 0)) by lia. apply wpb_bind. unfold group_size. rewrite bpm.
  assert (∀ k p s', 1 <= k → (∃ S' F', taken S F A (raised (allocd k) s) k p S' F' s') →
    wpb (when sanity (checkFreeListSanity junk);; mret p) (allocated S F A s k) s') as Hfin.
  { intros k p s' Hk (S' & F' & Ht). apply wpb_wp. by eapply finish_ok. }
  destruct (252 <=? n) eqn:E.
  - apply Z.leb_le in E. rewrite decide_False by lia. rewrite blocks_to_mblocks by lia.
    set (j := (n + 3) / 256 + 1) in *. assert (1 <= j <= 2 ^ 24) as Hj by (unfold j; clear -Hn E; zlia).
    rewrite wrapU_small by lia. apply wpb_bind_wp. eapply wp_mono; [apply raise_ok with (Q := λ _ s', s' = raised (j * 252) s); [lia|lia|done]|].
    cbn beta. intros _ s1 Hs1. apply wpb_bind_wp. eapply wp_mono; [exact Hs1|]. cbn beta. intros _ ? ->.
    eapply wpb_mono; [by eapply alloc_mega_ok|]. cbn beta. intros p s2 Ht. apply Hfin; [lia|].
    replace (allocd (256 * j - 4)) with (j * 252); [done|]. unfold allocd. clear. zlia.
  - apply Z.leb_gt in E. rewrite decide_True by lia. apply wpb_bind_wp.
    eapply wp_mono; [apply raise_ok with (Q := λ _ s', s' = raised n s); [lia|lia|done]|].
    cbn beta. intros _ s1 Hs1. apply wpb_bind_wp. eapply wp_mono; [exact Hs1|]. cbn beta. intros _ ? ->.
    eapply wpb_mono; [eapply alloc_small_ok; [done|lia|]|].
    { clear -Hheap Hn. zlia. }
    cbn beta. intros p s2 Ht. apply Hfin; [lia|].
    replace (allocd n) with n; [done|]. unfold allocd. clear -Hn E. zlia.
Qed.
End take.
