(* ===== verification/BlockCount.v ===== *)
(** * Chains and counts

    Walks along [link]: freeing a chain of groups, counting its blocks, and the
    count of the free lists, which with the allocated blocks accounts for every
    megablock of the heap. *)
From S2P Require Import Prelude DList MBlock MBlockProps BlockAlloc BlockArith BlockMem BlockLayout BlockInv BlockLists BlockGroup BlockSanity BlockMega BlockFree.
From stdpp Require Import list gmap sets sorting.
Local Open Scope Z_scope.

(** ** Sums over a list of groups *)
Section sums.
Implicit Types (S : gmap Z Z) (A : gset Z) (L : list Z).

Definition sum_over (f : Z → Z) S L : Z := foldr (λ b acc, f (default 0 (S !! b)) + acc) 0 L.

Lemma sum_over_cons f S b L : sum_over f S (b :: L) = f (default 0 (S !! b)) + sum_over f S L.
Proof. done. Qed.

Lemma sum_over_app f S L1 L2 : sum_over f S (L1 ++ L2) = sum_over f S L1 + sum_over f S L2.
Proof. unfold sum_over. induction L1 as [|b L1 IH]; cbn; [done|]. rewrite IH. lia. Qed.

Lemma sum_over_ext f S S' L : (∀ b, b ∈ L → S' !! b = S !! b) → sum_over f S' L = sum_over f S L.
Proof.
  unfold sum_over. induction L as [|b L IH]; intros HL; cbn; [done|].
  rewrite HL by by left. rewrite IH; [done|]. intros; apply HL. by right.
Qed.

Lemma asum_alt S A : asum S A = msum (λ b n, if decide (b ∈ A) then allocd n else 0) S.
Proof.
  unfold asum. induction S as [|b n S Hb IH] using map_ind; [done|]. rewrite msum_insert by done.
  rewrite map_filter_insert. cbn. destruct (decide (b ∈ A)).
  - rewrite msum_insert, IH; [done|]. apply map_lookup_filter_None_2. by left.
  - rewrite map_filter_delete, delete_id, IH; [lia|]. apply map_lookup_filter_None_2. by left.
Qed.

Lemma asum_list S L : NoDup L → (∀ b, b ∈ L → is_Some (S !! b)) → asum S (list_to_set L) = sum_over allocd S L.
Proof.
  induction 1 as [|b L Hb _ IH]; intros HL; cbn.
  - rewrite asum_alt, (msum_ext _ (λ _ _, 0)); [apply msum_zero|]. intros b n _. by rewrite decide_False by set_solver.
  - destruct (HL b) as [n Hn]; [by left|]. rewrite (union_comm_L {[b]}), (asum_take S (list_to_set L) b n); [|done|].
    + rewrite Hn, IH; [done|]. intros; apply HL. by right.
    + by rewrite elem_of_list_to_set.
Qed.


(** Every megablock has 252 blocks, free or allocated. *)
Lemma asum_all S F A : layout S → dom S = F ∪ A → F ## A → asum S F + asum S A = 252 * msum lead S.
Proof.
  intros Hl Hdom HFA. rewrite !asum_alt, <- msum_add.
  assert (msum (λ b n, (if decide (b ∈ F) then allocd n else 0) + (if decide (b ∈ A) then allocd n else 0)) S =
    msum (λ b n, weight b n + -4 * lead b n) S) as ->.
  { apply msum_ext. intros b n Hb. destruct (ly_pos _ Hl _ _ Hb) as (_ & _ & Hn).
    assert (allocd n = weight b n + -4 * lead b n) as E.
    { unfold allocd, weight, lead. destruct (b `mod` 256 =? 4) eqn:E; [lia|]. apply Z.eqb_neq in E.
      destruct (decide (n < 252)); [rewrite Z.div_small by lia; lia|]. destruct (ly_mega _ Hl _ _ Hb); lia. }
    apply elem_of_dom_2 in Hb. rewrite Hdom in Hb. specialize (HFA b).
    destruct (decide (b ∈ F)), (decide (b ∈ A)); [tauto|lia|lia|set_solver]. }
  rewrite msum_add. change (msum weight S) with (heap_blocks S). rewrite (ly_lead _ Hl).
  assert (msum (λ b n, -4 * lead b n) S = -4 * msum lead S) as ->; [|lia].
  clear. induction S as [|b n S Hb IH] using map_ind; [done|]. rewrite !msum_insert by done. lia.
Qed.
End sums.

Section chains.
Context {OS : Type} `{OsMem OS}.
Variable junk : ptr → bdescr.
Variable sanity : bool.
Notation rd := (rd junk).
Notation inv := (inv junk ∅).
Implicit Types (s : ba OS) (S : gmap Z Z) (F A : gset Z).

(** The chain of the groups [L], from [hd]. *)
Definition chain s (hd : ptr) (L : list Z) : Prop := slist (nx junk s) hd (desc <$> L) END.

Lemma chain_fuel S F A s hd L :
  inv S F A s → chain s hd L → (∀ b, b ∈ L → is_Some (S !! b)) → (length L < fuel_of s)%nat.
Proof.
  intros Hi Hc HL. rewrite <- (length_fmap desc). apply fuel_enough.
  - by eapply slist_NoDup.
  - intros x (b & -> & Hb)%list_elem_of_fmap. destruct (HL b Hb). by eapply inv_dom.
Qed.

(** ** freeChain *)
Lemma free_chain_ok L : ∀ S F A s hd fuel,
  ready junk S F A s → chain s hd L → (∀ b, b ∈ L → b ∈ A) → (length L < fuel)%nat →
  wp (free_chain junk sanity fuel hd) (λ _ s', ∃ S' F', ready junk S' F' (A ∖ list_to_set L) s' ∧
    (∀ a, a ∈ A ∖ list_to_set L → S' !! a = S !! a) ∧
    (∀ a n q, a ∈ A ∖ list_to_set L → S !! a = Some n → own a n q → rd s' q = rd s q) ∧
    n_alloc_blocks s' = n_alloc_blocks s - sum_over allocd S L) s.
Proof.
  induction L as [|b L IH]; intros S F A s hd fuel Hr Hc HL Hfuel.
  - cbn in Hc. subst hd. replace (A ∖ list_to_set []) with A by (cbn; clear; set_solver).
    assert (∃ S' F', ready junk S' F' A s ∧ (∀ a, a ∈ A → S' !! a = S !! a) ∧
      (∀ a n q, a ∈ A → S !! a = Some n → own a n q → rd s q = rd s q) ∧
      n_alloc_blocks s = n_alloc_blocks s - sum_over allocd S []) as Hfin.
    { exists S, F. split_and!; [done..|]. cbn. lia. }
    destruct fuel; by apply wp_ret.
  - destruct fuel as [|fuel]; [cbn in Hfuel; lia|]. pose proof (slist_NoDup _ _ _ Hc) as Hnd.
    apply NoDup_fmap_1 in Hnd. apply NoDup_cons in Hnd as [HbL Hnd].
    destruct Hc as (-> & Hbe & nxt & Hnx & Hc). unfold nx in Hnx. injection Hnx as Hnx.
    assert (b ∈ A) as HbA by (apply HL; by left).
    destruct (proj1 (elem_of_dom S b)) as [n Hb]; [by apply (iv_A (rd_inv _ _ _ _ _ Hr))|].
    cbn [free_chain]. rewrite (proj2 (Z.eqb_neq _ _) Hbe). wp_step. apply wp_ld; [done|]. rewrite Hnx. wp_step.
    eapply wp_mono; [by eapply freeGroup_ready|]. cbn beta. intros _ s1 (S1 & F1 & Hr1 & [Z1 K1 _ _ N1 _ _]). cbn in N1.
    assert (∀ x, x ∈ L → x ∈ A ∖ {[b]}) as HL1.
    { intros x Hx. apply elem_of_difference. split; [apply HL; by right|]. rewrite not_elem_of_singleton. by intros ->. }
    eapply wp_mono; [eapply (IH S1 F1 (A ∖ {[b]}) s1 nxt fuel); [done| |done|cbn in Hfuel; lia]|].
    + eapply slist_ext; [|done]. intros x (c & -> & Hc')%list_elem_of_fmap. unfold nx.
      destruct (proj1 (elem_of_dom S c)) as [k Hk]; [apply (iv_A (rd_inv _ _ _ _ _ Hr)), HL; by right|].
      rewrite (K1 c k); [done|by apply HL1|done|]. apply own_head. eapply ly_pos; [|done]. apply (rd_inv _ _ _ _ _ Hr).
    + cbn beta. intros _ s2 (S2 & F2 & Hr2 & Z2 & K2 & N2). exists S2, F2.
      assert (A ∖ list_to_set (b :: L) = A ∖ {[b]} ∖ list_to_set L) as EA by (cbn; clear; set_solver).
      rewrite EA. split_and!; [done| | |].
      * intros a Ha. rewrite Z2 by done. apply Z1. by apply elem_of_difference in Ha as [? _].
      * intros a k q Ha Hk Hq. assert (a ∈ A ∖ {[b]}) as Ha1 by by apply elem_of_difference in Ha as [? _].
        rewrite (K2 a k q); [by apply (K1 a k)|done|by rewrite Z1|done].
      * rewrite N2, N1, sum_over_cons, Hb, (sum_over_ext allocd S S1); [change (default 0 (Some n)) with n; lia|]. intros x Hx. by apply Z1, HL1.
Qed.

(** ** Counting *)
Lemma count_chain_ok (f : Z → Z → Z) S F A s L : ∀ n hd fuel,
  inv S F A s → chain s hd L → (∀ b, b ∈ L → b ∈ F ∪ A) → (length L < fuel)%nat →
  wp (count_chain junk f fuel n hd) (λ r s', s' = s ∧ r = foldl (λ n b, f n (default 0 (S !! b))) n L) s.
Proof.
  induction L as [|b L IH]; intros n hd fuel Hi Hc HL Hfuel.
  - cbn in Hc. subst hd. destruct fuel; by apply wp_ret.
  - destruct fuel as [|fuel]; [cbn in Hfuel; lia|]. destruct Hc as (-> & Hbe & nxt & Hnx & Hc).
    unfold nx in Hnx. injection Hnx as Hnx. cbn [count_chain]. rewrite (proj2 (Z.eqb_neq _ _) Hbe).
    wp_step. apply wp_ld; [done|]. rewrite Hnx.
    assert (∃ k, S !! b = Some k ∧ blocks (rd s (desc b)) = k) as (k & Hk & ->).
    { destruct (elem_of_union F A b) as [[HF|HA] _]; [apply HL; by left| |].
      - destruct (proj1 (elem_of_dom S b)) as [k Hk]; [by apply (iv_F Hi)|]. exists k. split; [done|]. by apply (iv_free Hi).
      - destruct (proj1 (elem_of_dom S b)) as [k Hk]; [by apply (iv_A Hi)|]. exists k. split; [done|]. by apply (iv_alloc Hi). }
    eapply wp_mono; [apply IH; [done|done|intros x Hx; apply HL; by right|cbn in Hfuel; lia]|].
    cbn beta. intros r s' [-> ->]. split; [done|]. cbn. by rewrite Hk.
Qed.

Lemma foldl_wrap w (g : Z → Z) S L : ∀ n,
  foldl (λ n b, wrapU w (n + g (default 0 (S !! b)))) (wrapU w n) L = wrapU w (n + sum_over g S L).
Proof.
  induction L as [|b L IH]; intros n; cbn; [f_equal; lia|].
  assert (wrapU w (wrapU w n + g (default 0 (S !! b))) = wrapU w (n + g (default 0 (S !! b)))) as ->.
  { unfold wrapU. apply Zplus_mod_idemp_l. }
  rewrite IH. f_equal. unfold sum_over. lia.
Qed.

Lemma wrap_sub w a b : wrapU w (wrapU w a - b) = wrapU w (a - b).
Proof. unfold wrapU. apply Zminus_mod_idemp_l. Qed.

Lemma count_allocd_wrap n b : 0 <= n < 2 ^ 32 → b < 252 ∨ b `mod` 256 = 252 → 1 <= b < 2 ^ 32 →
  count_allocd n b = wrapU 32 (n + allocd b).
Proof.
  intros Hn Hb Hb1. unfold count_allocd, allocd. rewrite bpm. change (MBLOCK_SIZE / BLOCK_SIZE) with 256. cbv zeta.
  destruct (252 <? b) eqn:E.
  - rewrite wrap_sub. f_equal. lia.
  - apply Z.ltb_ge in E. rewrite (Z.div_small b) by lia. f_equal. lia.
Qed.

Lemma foldl_allocd S L n :
  0 <= n < 2 ^ 32 → layout S → (∀ b, b ∈ L → is_Some (S !! b)) →
  foldl (λ n b, count_allocd n (default 0 (S !! b))) n L = wrapU 32 (n + sum_over allocd S L).
Proof.
  intros Hn Hl HL.
  assert (foldl (λ n b, count_allocd n (default 0 (S !! b))) n L =
    foldl (λ n b, wrapU 32 (n + allocd (default 0 (S !! b)))) n L) as ->.
  { revert n Hn. induction L as [|b L IH]; intros n Hn; cbn; [done|].
    destruct (HL b) as [k Hk]; [by left|]. rewrite Hk. cbn.
    destruct (ly_pos _ Hl _ _ Hk) as (_ & _ & Hk1).
    rewrite count_allocd_wrap; [|done| |].
    - apply IH; [intros; apply HL; by right|]. by apply wrapU_bound.
    - destruct (decide (k < 252)); [by left|right]. by destruct (ly_mega _ Hl _ _ Hk); [lia|].
    - split; [done|]. destruct (decide (k < 252)); [lia|]. destruct (layout_mega_size _ _ _ Hl Hk); lia. }
  rewrite <- (wrapU_small 32 n) at 1 by done. apply foldl_wrap.
Qed.

(** ** countFreeList *)
Lemma count_buckets_ok S F A s : ready junk S F A s → ∀ m k L,
  (k + m = MAX_FREE_LIST)%nat → NoDup L →
  (∀ b, b ∈ L ↔ b ∈ F ∧ ∃ n, S !! b = Some n ∧ n < 252 ∧ (log_2 n < k)%nat) →
  wp (count_buckets junk (seq k m) (wrapU 64 (sum_over allocd S L))) (λ r s', s' = s ∧ ∃ L', NoDup L' ∧
    (∀ b, b ∈ L' ↔ b ∈ F ∧ ∃ n, S !! b = Some n ∧ n < 252) ∧ r = wrapU 64 (sum_over allocd S L')) s.
Proof.
  intros Hr. pose proof (rd_inv _ _ _ _ _ Hr) as Hi. pose proof (iv_layout Hi) as Hl.
  induction m as [|m IH]; intros k L Hk Hnd HL; cbn [seq count_buckets].
  - apply wp_ret. split; [done|]. exists L. split_and!; [done| |done]. intros b. rewrite HL.
    split; [by intros (HF & n & Hn & Hn252 & _); split; [|exists n]|].
    intros (HF & n & Hn & Hn252). split; [done|]. exists n. split_and!; [done..|].
    destruct (ly_pos _ Hl _ _ Hn) as (_ & _ & ?). destruct (log_2_spec n); lia.
  - destruct (iv_bucket Hi k) as (B & HB & HBb); [lia|]. do 2 wp_step. wp_step.
    eapply wp_get_list; [done|]. intros hd tl _ [Hseg HndB].
    assert (chain s hd B) as Hc by by eapply dlseg_slist.
    wp_step. eapply wp_mono; [eapply count_chain_ok; [done|done| |]|].
    { intros b Hb. apply HBb in Hb as [? _]. apply elem_of_union. by left. }
    { eapply bucket_fuel; [done|done|]. intros b Hb. by apply HBb in Hb as [? _]. }
    cbn beta. intros r s' [-> ->]. rewrite (foldl_wrap 64 (λ x, x)).
    assert (sum_over (λ x, x) S B = sum_over allocd S B) as ->.
    { assert (∀ b, b ∈ B → default 0 (S !! b) = allocd (default 0 (S !! b))) as HBa.
      { intros b Hb. apply HBb in Hb as (_ & n & Hn & Hn252 & _). rewrite Hn. cbn.
        destruct (ly_pos _ Hl _ _ Hn) as (_ & _ & ?). unfold allocd. rewrite Z.div_small by lia. lia. }
      clear -HBa. unfold sum_over. induction B as [|b B IH]; cbn; [done|]. rewrite <- HBa by by left.
      rewrite IH; [done|]. intros; apply HBa. by right. }
    rewrite <- sum_over_app. apply IH; [lia| |].
    + apply NoDup_app. split_and!; [done| |by apply NoDup_fmap_1 in HndB].
      intros b [_ (n & Hn & _ & Hlt)]%HL [_ (n' & Hn' & _ & Hlog)]%HBb. assert (n = n') by congruence. subst. lia.
    + intros b. rewrite elem_of_app, HL, HBb. unfold in_bucket. split.
      * intros [(HF & n & ? & ? & ?)|(HF & n & ? & ? & ?)]; (split; [done|]); exists n; (split_and!; [done..|lia]).
      * intros (HF & n & ? & ? & ?). destruct (decide (log_2 n = k)); [right|left]; (split; [done|]); exists n; split_and!; try done; lia.
Qed.

Lemma countFreeList_ok S F A s :
  ready junk S F A s →
  wp (countFreeList junk) (λ r s', s' = s ∧
    r = wrapU 32 (252 * mblocks_allocated (mbs s) - n_alloc_blocks s)) s.
Proof.
  intros Hr. pose proof (rd_inv _ _ _ _ _ Hr) as Hi. pose proof (iv_layout Hi) as Hl. unfold countFreeList. wp_step.
  eapply wp_mono; [apply (count_buckets_ok S F A s Hr MAX_FREE_LIST 0 []); [done|constructor|]|].
  { intros b. split; [by intros ?%elem_of_nil|]. intros (_ & n & _ & _ & ?). lia. }
  cbn beta. intros r s' (-> & L & Hnd & HL & ->). do 4 wp_step.
  destruct (iv_mega Hi) as (M & Hs & Hsort & HM). wp_step.
  eapply wp_mono; [eapply count_chain_ok; [done|done| |]|].
  { intros b Hb. apply HM in Hb as [? _]. apply elem_of_union. by left. }
  { eapply bucket_fuel; [done|by apply desc_NoDup, sorted_NoDup|]. intros b Hb. by apply HM in Hb as [? _]. }
  cbn beta. intros r s' [-> ->]. apply wp_ret. split; [done|].
  rewrite (foldl_wrap 64 (λ b, wrapU 64 (BLOCKS_PER_MBLOCK * BLOCKS_TO_MBLOCKS b))).
  assert (sum_over (λ b, wrapU 64 (BLOCKS_PER_MBLOCK * BLOCKS_TO_MBLOCKS b)) S M = sum_over allocd S M) as ->.
  { assert (∀ b, b ∈ M → wrapU 64 (BLOCKS_PER_MBLOCK * BLOCKS_TO_MBLOCKS (default 0 (S !! b))) = allocd (default 0 (S !! b))) as HMa.
    { intros b Hb. apply HM in Hb as (_ & n & Hn & Hn252). rewrite Hn. cbn.
      destruct (layout_mega_size _ _ _ Hl Hn Hn252) as (Hms & Hmax & _). destruct (mega_mblocks_val n Hms).
      rewrite mega_mblocks, bpm by (done || lia). rewrite wrapU_small by lia. unfold allocd, mblocks_of in *. lia. }
    clear -HMa. unfold sum_over. induction M as [|b M IH]; cbn; [done|]. rewrite HMa by by left.
    rewrite IH; [done|]. intros; apply HMa. by right. }
  rewrite <- sum_over_app, <- asum_list.
  - assert (list_to_set (L ++ M) = F) as ->.
    { apply set_eq. intros b. rewrite elem_of_list_to_set, elem_of_app, HL, HM. unfold in_megas. split; [tauto|].
      intros HF. destruct (proj1 (elem_of_dom S b)) as [n Hn]; [by apply (iv_F Hi)|].
      destruct (decide (n < 252)); [left|right]; (split; [done|]); exists n; (split; [done|lia]). }
    pose proof (asum_all S F A Hl (rd_dom _ _ _ _ _ Hr) (iv_FA Hi)) as E. pose proof (asum_range S F Hl). pose proof (ly_total _ Hl).
    rewrite (wrapU_small 64) by lia. rewrite (rd_n _ _ _ _ _ Hr). f_equal.
    pose proof (iv_total Hi). pose proof (ly_lead _ Hl). lia.
  - apply NoDup_app. split_and!; [done| |by apply sorted_NoDup].
    intros b [_ (n & Hn & Hlt)]%HL [_ (n' & Hn' & Hge)]%HM. assert (n = n') by congruence. lia.
  - intros b [[HF _]%HL|[HF _]%HM]%elem_of_app; apply elem_of_dom; by apply (iv_F Hi).
Qed.
End chains.
