(* ===== verification/BlockReturn.v ===== *)
(** * returnMemoryToOS

    The first groups of the megablock free list go back to the operating system,
    the last of them in part; the offset of that part is a 32-bit product. *)
From S2P Require Import Prelude DList MBlock MBlockProps BlockAlloc BlockArith BlockMem BlockLayout BlockInv BlockLists BlockGroup BlockSanity BlockMega BlockFree BlockGet BlockCount.
From stdpp Require Import list gmap sets sorting.
Local Open Scope Z_scope.

Section give_back.
Context {OS : Type} `{OsMemLaws OS}.
Variable junk : ptr → bdescr.
Notation rd := (rd junk).
Notation inv := (inv junk ∅).
Notation nx := (nx junk).
Implicit Types (s : ba OS) (S : gmap Z Z) (F A : gset Z).

(** ** Megablocks of different groups *)
Lemma mb_disjoint S x k b n w :
  layout S → S !! x = Some k → S !! b = Some n → x ≠ b → 252 <= n →
  x / 256 <= w < (x + k + 255) / 256 → b / 256 <= w < b / 256 + mblocks_of n → False.
Proof.
  intros Hl Hx Hb Hne Hn Hw Hwb. destruct (layout_mega_size _ _ _ Hl Hb Hn) as (Hms & _ & Hb256).
  destruct (mega_mblocks_val n Hms) as [En _]. destruct (ly_pos _ Hl _ _ Hx) as (X1 & X2 & X3). apply Hne.
  apply (layout_uniq S x k b n (Z.max x (256 * w + 4))); [done..| |].
  - destruct (decide (k < 252)) as [Hk|Hk].
    + pose proof (ly_small _ Hl _ _ Hx Hk). assert (w = x / 256) as -> by (clear -Hw H1 X2 X3; zlia). clear -X2 X3. zlia.
    + destruct (layout_mega_size _ _ _ Hl Hx ltac:(lia)) as (Hmk & _ & Hx256).
      destruct (mega_mblocks_val k Hmk) as [Ek _]. clear -Hw Ek Hx256 X3. zlia.
  - assert (x < 256 * w + 256 ∧ 256 * (x / 256) + 4 <= x) as [H1 H2] by (clear -Hw X2; zlia). lia.
Qed.

Lemma rd_forget s a sz q : rd (forget a sz s) q = if decide (a <= q < a + sz) then junk q else rd s q.
Proof.
  unfold BlockAlloc.rd, forget. cbn. case_decide as E.
  - rewrite map_lookup_filter_None_2; [done|]. right. intros d _ Hn. by apply Hn.
  - destruct (bds s !! q) as [d|] eqn:Eq.
    + by rewrite (map_lookup_filter_Some_2 _ _ _ d).
    + rewrite map_lookup_filter_None_2; [done|by left].
Qed.

Lemma dom_forget s a sz q : q ∈ dom (bds s) → ¬ a <= q < a + sz → q ∈ dom (bds (forget a sz s)).
Proof.
  intros [d Hd]%elem_of_dom Hq. apply elem_of_dom. exists d. unfold forget. cbn.
  by apply map_lookup_filter_Some_2.
Qed.

(** [j2] megablocks from megablock [y] on were unmapped, and their descriptors are
    gone. *)
Record unmapped s (s' : ba OS) (y j2 : Z) : Prop := {
  um_rd q : ¬ 1048576 * y <= q < 1048576 * (y + j2) → rd s' q = rd s q;
  um_dom q : ¬ 1048576 * y <= q < 1048576 * (y + j2) → q ∈ dom (bds s) → q ∈ dom (bds s');
  um_mm : mm_inv (mbs s');
  um_count : mblocks_allocated (mbs s') = mblocks_allocated (mbs s) - j2;
  um_map x : ¬ 1048576 * y <= x < 1048576 * (y + j2) → mapped (os (mbs s)) x → mapped (os (mbs s')) x;
  um_fl : free_list s' = free_list s
}.

(** The descriptors of a group, and its memory, are in its megablocks. *)
Lemma own_mblock S x k q :
  layout S → S !! x = Some k → own x k q → x / 256 <= q / 1048576 < (x + k + 255) / 256.
Proof.
  intros Hl Hx (i & Hi & ->). destruct (ly_pos _ Hl _ _ Hx) as (X1 & X2 & X3).
  assert (desc (x + i) / 1048576 = (x + i) / 256) as ->; [|clear -Hi X1; zlia].
  unfold desc. rewrite Z.div_add_l by lia. rewrite (Z.div_small (64 * _)) by (clear; zlia). lia.
Qed.

Lemma unmapped_other S s s' y j2 b n x k :
  layout S → unmapped s s' y j2 → S !! b = Some n → 252 <= n → b / 256 <= y → y + j2 <= b / 256 + mblocks_of n →
  S !! x = Some k → x ≠ b →
  (∀ q, own x k q → rd s' q = rd s q) ∧ (grp junk s x k → grp junk s' x k) ∧
  (∀ z, 1048576 * (x / 256) <= z < 1048576 * ((x + k + 255) / 256) → mapped (os (mbs s)) z → mapped (os (mbs s')) z).
Proof.
  intros Hl [Ur Ud _ _ Um _] Hb Hn Hy Hj2 Hx Hne.
  assert (∀ z, x / 256 <= z / 1048576 < (x + k + 255) / 256 → ¬ 1048576 * y <= z < 1048576 * (y + j2)) as Hout.
  { intros z Hz Hin. apply (mb_disjoint S x k b n (z / 1048576)); try done. clear -Hin Hy Hj2. zlia. }
  split_and!.
  - intros q Hq. apply Ur, Hout. by apply (own_mblock S x k).
  - intros Hg i Hi. destruct (Hg i Hi) as [G1 G2].
    assert (¬ 1048576 * y <= desc (x + i) < 1048576 * (y + j2)) as Hq by (apply Hout, (own_mblock S x k); [done..|by exists i]).
    split; [by rewrite Ur|by apply Ud].
  - intros z Hz. apply Um, Hout. clear -Hz. zlia.
Qed.

(** ** A whole group *)
Lemma inv_return_all S F A s s' b n M :
  inv S F A s → slist (nx s) (free_mblock_list s) (desc <$> (b :: M)) END → StronglySorted Z.lt (b :: M) →
  (∀ x, x ∈ b :: M ↔ in_megas S F x) → S !! b = Some n → 252 <= n →
  unmapped s s' (b / 256) (mblocks_of n) → free_mblock_list s' = link (rd s (desc b)) →
  inv (delete b S) (F ∖ {[b]}) A s'.
Proof.
  intros Hi Hs Hsort HM Hb Hn Hu Hfm. pose proof (iv_layout Hi) as Hl. pose proof Hu as [_ _ Umm Uc _ Ufl].
  destruct (layout_remove S b n Hl Hb Hn) as [Hl' Ht]. destruct (layout_mega_size _ _ _ Hl Hb Hn) as (Hms & _ & _).
  destruct (mega_mblocks_val n Hms) as [En _].
  assert (in_megas S F b) as [HbF _] by (apply HM; by left).
  assert (b ∉ A) as HbA by (intros ?; by apply (iv_FA Hi b)).
  assert (∀ x k, S !! x = Some k → x ≠ b → (∀ q, own x k q → rd s' q = rd s q) ∧ (grp junk s x k → grp junk s' x k) ∧
    (∀ z, 1048576 * (x / 256) <= z < 1048576 * ((x + k + 255) / 256) → mapped (os (mbs s)) z → mapped (os (mbs s')) z)) as Hoth.
  { intros x k Hx Hne. apply (unmapped_other S s s' (b / 256) (mblocks_of n) b n x k); try done; lia. }
  destruct Hs as (Ehd & Hbe & nxt & Hnx & Hs). unfold BlockMem.nx in Hnx. injection Hnx as Hnx.
  apply StronglySorted_inv in Hsort as [Hsort Hlt]. rewrite Forall_forall in Hlt.
  apply (inv_mega_gen junk ∅ ∅ S _ F _ A s s' M); try done.
  - rewrite Uc, Ht, <- (iv_total Hi). lia.
  - intros x k Hk. rewrite lookup_delete_Some. split; [tauto|]. intros Hx. split; [|done]. intros <-.
    assert (k = n) by congruence. lia.
  - intros x Hx. apply lookup_delete_ne. by intros <-.
  - intros x k q Hx Hor Hq. destruct (Hoth x k Hx) as [Ho _]; [|by apply Ho]. intros ->.
    destruct Hor; [assert (k = n) by congruence; lia|done].
  - intros x k Hx Hk. rewrite elem_of_difference, elem_of_singleton. split; [tauto|]. intros ?. split; [done|].
    intros ->. assert (k = n) by congruence. lia.
  - pose proof (iv_F Hi) as HF. rewrite dom_delete_L. clear -HF. set_solver.
  - pose proof (iv_FA Hi) as HFA. clear -HFA. set_solver.
  - intros x k [Hne Hx]%lookup_delete_Some. destruct (Hoth x k Hx) as (_ & Hg & _); [done|]. by apply Hg, (iv_grp Hi).
  - intros x k z [Hne Hx]%lookup_delete_Some Hz. destruct (Hoth x k Hx) as (_ & _ & Hm); [done|].
    apply Hm; [done|]. by apply (iv_mapped Hi x k).
  - intros x k [HxF _]%elem_of_difference [Hne Hx]%lookup_delete_Some Hk. destruct (iv_free Hi _ _ HxF Hx) as (Hbl & Hfr & _).
    destruct (Hoth x k Hx) as [Ho _]; [done|]. rewrite Ho; [done|]. apply own_head. lia.
  - rewrite Hfm, Hnx. eapply slist_ext; [|done]. intros q (x & -> & Hx)%list_elem_of_fmap. unfold BlockMem.nx.
    assert (b < x) by by apply Hlt. assert (in_megas S F x) as (_ & k & Hk & Hk252) by (apply HM; by right).
    destruct (Hoth x k Hk) as [Ho _]; [lia|]. rewrite Ho; [done|]. apply own_head. lia.
  - intros x. specialize (HM x). unfold in_megas in *. rewrite elem_of_difference, elem_of_singleton. rewrite elem_of_cons in HM. split.
    + intros Hx. assert (b < x) as Hbx by by apply Hlt. destruct (proj1 HM (or_intror Hx)) as (HxF & k & Hk & Hk252).
      split; [split; [done|lia]|]. exists k. split; [|done]. rewrite lookup_delete_ne; [done|lia].
    + intros [[HxF Hne] (k & [_ Hk]%lookup_delete_Some & Hk252)]. destruct (proj2 HM) as [?|?]; [|done|done].
      split; [done|by exists k].
  - intros x k k' _ [HxF _]%elem_of_difference [_ Hx]%lookup_delete_Some Hk [_ Hx']%lookup_delete_Some Hk' [HxF' _]%elem_of_difference.
    by apply (iv_coal_mega Hi x k k' (not_elem_of_empty _) HxF Hx Hk Hx' Hk').
Qed.

(** ** The end of a group *)
Lemma inv_return_part S F A s s' b j1 j2 :
  inv S F A s → S !! b = Some (256 * (j1 + j2) - 4) → b ∈ F → 1 <= j1 → 1 <= j2 →
  unmapped (wr junk s (desc b) (set_blocks (256 * j1 - 4))) s' (b / 256 + j1) j2 →
  free_mblock_list s' = free_mblock_list s →
  inv (<[b := 256 * j1 - 4]> S) F A s'.
Proof.
  intros Hi Hb HbF Hj1 Hj2 Hu Hfm. pose proof (iv_layout Hi) as Hl.
  set (s1 := wr junk s (desc b) (set_blocks (256 * j1 - 4))) in *. pose proof Hu as [Ur Ud Umm Uc Um Ufl].
  destruct (layout_mega_size _ _ _ Hl Hb) as (Hms & Hmax & Hb256); [lia|].
  destruct (mega_mblocks_val _ Hms) as [En _].
  assert (S !! (b + 256 * j1) = None) as Hc by (eapply (layout_inside S b); [done|exact Hb|lia]).
  assert (layout (<[b := 256 * j1 - 4]> S) ∧ heap_blocks (<[b := 256 * j1 - 4]> S) = heap_blocks S - 256 * j2) as [Hl' Ht].
  { destruct (layout_cut_mega S b j1 j2 Hl Hb Hj1 Hj2) as [Hl1 Ht1].
    destruct (layout_remove _ (b + 256 * j1) (256 * j2 - 4) Hl1) as [Hl2 Ht2]; [apply cut_lookup; [lia|right; by left]|lia|].
    assert (delete (b + 256 * j1) (cut_in S b (256 * j1 - 4) (b + 256 * j1) (256 * j2 - 4)) = <[b := 256 * j1 - 4]> S) as E.
    { unfold cut_in. rewrite delete_insert_ne by lia. by rewrite delete_insert_id. }
    rewrite E in Hl2, Ht2. split; [done|lia]. }
  assert (b ∉ A) as HbA by (intros ?; by apply (iv_FA Hi b)).
  assert (∀ q, q ≠ desc b → rd s1 q = rd s q) as E1 by (intros; by apply rd_wr_ne).
  assert (∀ x k, S !! x = Some k → x ≠ b → (∀ q, own x k q → rd s' q = rd s q) ∧ grp junk s' x k ∧
    (∀ z, 1048576 * (x / 256) <= z < 1048576 * ((x + k + 255) / 256) → mapped (os (mbs s)) z → mapped (os (mbs s')) z)) as Hoth.
  { intros x k Hx Hne.
    assert (∀ q, own x k q → q ≠ desc b) as Hqb.
    { intros q Hq ->. apply Hne. eapply (own_disjoint S); [done|exact Hx|exact Hb|done|apply own_head; lia]. }
    destruct (unmapped_other S s1 s' (b / 256 + j1) j2 b _ x k Hl Hu Hb) as (Ho & Hg & Hm); [lia|lia|lia|done|done|].
    split_and!; [|apply Hg|done].
    - intros q Hq. rewrite Ho by done. by apply E1, Hqb.
    - eapply grp_ext; [|apply dom_wr|by apply (iv_grp Hi)]. intros q Hq. by rewrite E1 by (by apply Hqb). }
  assert (∀ i, 0 <= i < 252 → ¬ 1048576 * (b / 256 + j1) <= desc (b + i) < 1048576 * (b / 256 + j1 + j2)) as Hin.
  { intros i Hi'. unfold desc. clear -Hi' Hb256 Hj1. zlia. }
  assert (rd s' (desc b) = set_blocks (256 * j1 - 4) (rd s (desc b))) as Eb.
  { rewrite Ur; [unfold s1; by rewrite rd_wr_eq|]. pose proof (Hin 0 ltac:(lia)) as Hin0. by rewrite Z.add_0_r in Hin0. }
  destruct (iv_mega Hi) as (M & Hs & Hsort & HM).
  apply (inv_mega_gen junk ∅ ∅ S _ F F A s s' M); try done.
  - rewrite Uc, Ht, <- (iv_total Hi). change (mbs s1) with (mbs s). lia.
  - intros x k Hk. rewrite lookup_insert_Some. split; [intros [[_ <-]|[_ ?]]; [lia|done]|]. intros Hx. right. split; [|done].
    intros <-. assert (k = 256 * (j1 + j2) - 4) by congruence. lia.
  - intros x Hx. apply lookup_insert_ne. by intros <-.
  - intros x k q Hx Hor Hq. destruct (Hoth x k Hx) as [Ho _]; [|by apply Ho]. intros ->.
    destruct Hor; [assert (k = 256 * (j1 + j2) - 4) by congruence; lia|done].
  - pose proof (iv_F Hi) as HF. rewrite dom_insert_L. clear -HF. set_solver.
  - apply Hi.
  - intros x k Hx. lk; [|by destruct (Hoth x k Hx) as (_ & ? & _)].
    intros i Hi'. destruct (iv_grp Hi _ _ Hb i) as [G1 G2]; [lia|]. assert (0 <= i < 252) as Hi2 by lia. split.
    + rewrite Ur by by apply Hin. unfold s1. rewrite rd_wr. case_decide as E; [by rewrite <- E|done].
    + apply Ud; [by apply Hin|]. by apply dom_wr.
  - intros x k z Hx Hz. lk.
    + apply Um; [clear -Hz Hb256; zlia|]. apply (iv_mapped Hi b _ z Hb). clear -Hz Hj1 Hj2 Hb256. zlia.
    + destruct (Hoth x k Hx) as (_ & _ & Hm); [done|]. apply Hm; [done|]. by apply (iv_mapped Hi x k).
  - intros x k HxF Hx Hk. lk.
    + rewrite Eb. destruct (iv_free Hi _ _ HbF Hb) as (_ & Hfr & _). cbn. split; [apply wrapU_small; lia|done].
    + destruct (iv_free Hi _ _ HxF Hx) as (Hbl & Hfr & _). destruct (Hoth x k Hx) as [Ho _]; [done|]. rewrite Ho; [done|]. apply own_head. lia.
  - rewrite Hfm. eapply slist_ext; [|done]. intros q (x & -> & Hx)%list_elem_of_fmap. unfold BlockMem.nx.
    destruct (decide (x = b)) as [->|Hne]; [by rewrite Eb|]. apply HM in Hx as (_ & k & Hk & Hk252).
    destruct (Hoth x k Hk) as [Ho _]; [done|]. rewrite Ho; [done|]. apply own_head. lia.
  - intros x. rewrite HM. unfold in_megas. split; intros (HxF & k & Hk & Hk252); (split; [done|]).
    + destruct (decide (x = b)) as [->|]; [exists (256 * j1 - 4); split; [apply lookup_insert_eq|lia]|].
      exists k. split; [|done]. by rewrite lookup_insert_ne.
    + lk; [eexists; split; [done|lia]|by exists k].
  - intros x k k' _ HxF Hx Hk Hx' Hk' HxF'. apply lookup_insert_Some in Hx' as [[E _]|[_ Hx']]; lk.
    + lia.
    + apply (iv_coal_mega Hi x k (256 * (j1 + j2) - 4) (not_elem_of_empty _) HxF Hx Hk); [by rewrite <- E|lia|done].
    + replace (b + (256 * j1 - 4) + 4) with (b + 256 * j1) in Hx' by lia. congruence.
    + by apply (iv_coal_mega Hi x k k' (not_elem_of_empty _) HxF Hx Hk Hx' Hk').
Qed.

(** ** Unmapping *)
Lemma free_megas_ok s y j :
  mm_inv (mbs s) → mblocks_allocated (mbs s) < 2 ^ 32 → 0 <= y → 1 <= j < 4096 → y + j <= 2 ^ 28 →
  j <= mblocks_allocated (mbs s) →
  wp (in_mbs (freeMBlocks (1048576 * y) j);; modify (forget (1048576 * y) (wrapU 32 (j * MBLOCK_SIZE))))
    (λ _ s', unmapped s s' y j ∧ free_mblock_list s' = free_mblock_list s ∧ n_alloc_blocks s' = n_alloc_blocks s ∧
      hw_alloc_blocks s' = hw_alloc_blocks s ∧ sm_mutex s' = sm_mutex s) s.
Proof.
  intros Hmm0 Hm Hy Hj Hmax Hcount. change MBLOCK_SIZE with 1048576.
  rewrite (wrapU_small 32 (j * 1048576)) by lia. wp_step. apply wp_in_mbs.
  eapply wp_mono; [apply (freeMBlocks_ok (1048576 * y) j); [done|lia| |lia|]|].
  { change MBLOCK_SIZE with 1048576. rewrite Z.mul_comm. by apply Z.mod_mul. }
  { change MBLOCK_SIZE with 1048576. lia. }
  cbn beta. intros _ m' (Hmm & Hma & _ & Hos). wp_step. split_and!; [|done..].
  change MBLOCK_SIZE with 1048576 in Hos. rewrite (wrapU_small 32 (j * 1048576)) in Hos by lia.
  constructor.
  - intros q Hq. rewrite rd_forget, decide_False by lia. done.
  - intros q Hq Hd. apply dom_forget; [done|lia].
  - done.
  - cbn. rewrite Hma. apply wrapU_small. lia.
  - intros x Hx Hmx. cbn. rewrite Hos.
    destruct (munmap (1048576 * y) (j * 1048576) (os (mbs s))) as [b o] eqn:E. cbn.
    apply (munmap_outside (1048576 * y) (j * 1048576) _ _ _ ltac:(paged) ltac:(paged) E); [lia|done].
  - done.
Qed.

(** The allocated groups are left alone. *)
Record left_alone A S s S' s' : Prop := {
  la_size a : a ∈ A → S' !! a = S !! a;
  la_desc a n q : a ∈ A → S !! a = Some n → own a n q → rd s' q = rd s q;
  la_n : n_alloc_blocks s' = n_alloc_blocks s;
  la_hw : hw_alloc_blocks s' = hw_alloc_blocks s;
  la_mutex : sm_mutex s' = sm_mutex s
}.

Lemma left_alone_trans A S1 s1 S2 s2 S3 s3 :
  left_alone A S1 s1 S2 s2 → left_alone A S2 s2 S3 s3 → left_alone A S1 s1 S3 s3.
Proof.
  intros [Z1 K1 N1 W1 X1] [Z2 K2 N2 W2 X2]. constructor; [..|congruence|congruence|congruence].
  - intros a Ha. by rewrite Z2, Z1.
  - intros a n q Ha Hn Hq. rewrite (K2 a n q); [by eapply K1|done|by rewrite Z1|done].
Qed.

Lemma unmapped_alone A S S' s s' y j2 b n :
  layout S → unmapped s s' y j2 → S !! b = Some n → 252 <= n → b / 256 <= y → y + j2 <= b / 256 + mblocks_of n →
  b ∉ A → (∀ x, x ≠ b → S' !! x = S !! x) →
  n_alloc_blocks s' = n_alloc_blocks s → hw_alloc_blocks s' = hw_alloc_blocks s → sm_mutex s' = sm_mutex s →
  left_alone A S s S' s'.
Proof.
  intros Hl Hu Hb Hn Hy Hj HbA HS E1 E2 E3. constructor; try done.
  - intros a Ha. apply HS. by intros ->.
  - intros a m q Ha Hm Hq. destruct (unmapped_other S s s' y j2 b n a m Hl Hu Hb Hn Hy Hj Hm) as [Ho _]; [by intros ->|].
    by apply Ho.
Qed.

Lemma mega_count S F A s b n :
  inv S F A s → S !! b = Some n → 252 <= n →
  mega_size n ∧ 1 <= mblocks_of n <= 2 ^ 24 ∧ n = 256 * mblocks_of n - 4 ∧ b = b / 256 * 256 + 4 ∧ 0 <= b / 256 ∧
  b / 256 + mblocks_of n <= 2 ^ 28 ∧ mblocks_of n <= mblocks_allocated (mbs s).
Proof.
  intros Hi Hb Hn. pose proof (iv_layout Hi) as Hl. destruct (layout_mega_size _ _ _ Hl Hb Hn) as (Hms & Hmax & Hb256).
  destruct (mega_mblocks_val n Hms) as [En Hj]. pose proof (ly_max _ Hl _ _ Hb) as Hm. destruct (ly_pos _ Hl _ _ Hb) as (Hb0 & _).
  destruct (layout_remove S b n Hl Hb Hn) as [Hl' Ht]. pose proof (asum_range (delete b S) ∅ Hl').
  pose proof (iv_total Hi). split_and!; [done|lia|lia|done|done|clear -Hb0; zlia|lia|lia].
Qed.

Lemma return_loop_ok A M : ∀ S F s n hd fuel,
  inv S F A (set_free_mblock_list hd s) → dom S = F ∪ A →
  slist (nx s) hd (desc <$> M) END → StronglySorted Z.lt M → (∀ x, x ∈ M ↔ in_megas S F x) →
  0 <= n < 2 ^ 32 → (∀ x k, x ∈ M → S !! x = Some k → mblocks_of k < 4096) → (length M < fuel)%nat →
  wp (return_loop junk fuel n hd) (λ hd' s', ∃ S' F', inv S' F' A (set_free_mblock_list hd' s') ∧ dom S' = F' ∪ A ∧
    left_alone A S s S' s' ∧
    mblocks_allocated (mbs s') = mblocks_allocated (mbs s) - Z.min n (sum_over mblocks_of S M)) s.
Proof.
  induction M as [|b M IH]; intros S F s n hd fuel Hi Hdom Hs Hsort HM Hn Hsz Hfuel.
  - cbn in Hs. subst hd. assert (∃ S' F', inv S' F' A (set_free_mblock_list END s) ∧ dom S' = F' ∪ A ∧ left_alone A S s S' s ∧
      mblocks_allocated (mbs s) = mblocks_allocated (mbs s) - Z.min n 0) as Hfin.
    { exists S, F. split_and!; [done|done|by constructor|lia]. }
    destruct fuel; cbn [return_loop]; rewrite orb_true_r; by apply wp_ret.
  - destruct fuel as [|fuel]; [cbn in Hfuel; lia|]. cbn [return_loop].
    pose proof (slist_NoDup _ _ _ Hs) as Hnd. apply NoDup_fmap_1 in Hnd. apply NoDup_cons in Hnd as [HbM _].
    assert (in_megas S F b) as (HbF & k & Hb & Hk) by (apply HM; by left).
    destruct (mega_count _ _ _ _ _ _ Hi Hb Hk) as (Hms & Hj & Ek & Hb256 & Hy0 & Hymax & Hcount).
    pose proof (Hsz b k ltac:(by left) Hb) as Hj4096. pose proof Hs as (-> & Hbe & nxt & Hnx & Hs2).
    unfold BlockMem.nx in Hnx. injection Hnx as Hnx.
    assert (∀ x, x ∈ M → 0 <= mblocks_of (default 0 (S !! x))) as Hpos.
    { intros x Hx. assert (in_megas S F x) as (_ & m & Hm & Hm252) by (apply HM; by right). rewrite Hm.
      change (default 0 (Some m)) with m. unfold mblocks_of. clear -Hm252. zlia. }
    assert (0 <= sum_over mblocks_of S M) as Hsum.
    { clear -Hpos. induction M as [|x M IH]; [done|]. rewrite sum_over_cons. pose proof (Hpos x ltac:(by left)).
      assert (0 <= sum_over mblocks_of S M); [|lia]. apply IH. intros; apply Hpos. by right. }
    rewrite sum_over_cons, Hb. change (default 0 (Some k)) with k.
    destruct (n <=? 0) eqn:E0.
    { apply Z.leb_le in E0. cbn [orb]. apply wp_ret. exists S, F. split_and!; [done|done|by constructor|lia]. }
    apply Z.leb_gt in E0. rewrite (proj2 (Z.eqb_neq _ _) Hbe). cbn [orb]. wp_step. apply wp_ld; [done|].
    assert (rd s (desc b) = rd (set_free_mblock_list (desc b) s) (desc b)) as Erd by done.
    destruct (iv_free Hi b k HbF Hb) as (Hbl & Hfr & _). rewrite <- Erd in Hbl, Hfr.
    assert (start (rd s (desc b)) = 4096 * b) as Hst by (rewrite Erd; by eapply mega_start).
    assert (MBLOCK_ROUND_DOWN (start (rd s (desc b))) = 1048576 * (b / 256)) as Eaddr.
    { rewrite Hst, round_down. clear -Hb256. zlia. }
    rewrite Hbl, Hnx, Eaddr. rewrite mega_mblocks by (done || lia). rewrite (wrapU_small 32 (mblocks_of k)) by lia.
    destruct (n <? mblocks_of k) eqn:Elt.
    + (* the end of the group *)
      apply Z.ltb_lt in Elt. set (j1 := mblocks_of k - n) in *. change MBLOCK_SIZE with 1048576.
      rewrite group_blocks_32 by lia. rewrite (wrapU_small 32 (j1 * 1048576)) by lia.
      replace (1048576 * (b / 256) + j1 * 1048576) with (1048576 * (b / 256 + j1)) by lia.
      wp_step. apply wp_upd; [done|]. set (s1 := wr junk s (desc b) (set_blocks (256 * j1 - 4))).
      apply (wp_assoc (in_mbs (freeMBlocks (1048576 * (b / 256 + j1)) n)) (λ _, modify (forget (1048576 * (b / 256 + j1)) (wrapU 32 (n * 1048576))))).
      apply wp_bind. eapply wp_mono; [apply (free_megas_ok s1); [apply Hi|..]; change (mbs s1) with (mbs s)|].
      { change (mbs s) with (mbs (set_free_mblock_list (desc b) s)). pose proof (iv_total Hi). pose proof (ly_total _ (iv_layout Hi)). lia. }
      { lia. } { lia. } { lia. } { cbn in Hcount. lia. }
      intros _ s' (Hu & Hfm & Hna & Hhw & Hsm). apply wp_ret. exists (<[b := 256 * j1 - 4]> S), F.
      assert (b ∉ A) as HbA by (intros ?; by apply (iv_FA Hi b)).
      assert (k = 256 * (j1 + n) - 4) as Ek' by lia. split_and!.
      * apply (inv_return_part S F A (set_free_mblock_list (desc b) s) (set_free_mblock_list (desc b) s') b j1 n); try done; [by rewrite <- Ek'|lia|lia|].
        destruct Hu. by constructor.
      * rewrite dom_insert_L, <- Hdom. apply elem_of_dom_2 in Hb. clear -Hb. set_solver.
      * apply (left_alone_trans A S s S s1).
        { constructor; try done. intros a m q Ha Hm Hq. unfold s1. apply rd_wr_ne. intros ->. apply HbA.
          assert (b = a) as ->; [|done]. apply (own_disjoint S b k a m (desc b)); [apply Hi|done|done|apply own_head; lia|done]. }
        apply (unmapped_alone A S _ s1 s' (b / 256 + j1) n b k); try done; [apply Hi|lia|lia|].
        intros x Hx. apply lookup_insert_ne. by intros ->.
      * pose proof (um_count _ _ _ _ Hu) as Hc. change (mbs s1) with (mbs s) in Hc. lia.
    + (* the whole group *)
      apply Z.ltb_ge in Elt. change MBLOCK_SIZE with 1048576. set (j := mblocks_of k) in *.
      apply (wp_assoc (in_mbs (freeMBlocks (1048576 * (b / 256)) j)) (λ _, modify (forget (1048576 * (b / 256)) (wrapU 32 (j * 1048576))))).
      apply wp_bind. eapply wp_mono; [apply (free_megas_ok s); [apply Hi|..]|].
      { pose proof (iv_total Hi) as Htot. cbn in Htot. pose proof (ly_total _ (iv_layout Hi)). lia. }
      { lia. } { lia. } { lia. } { cbn in Hcount. lia. }
      intros _ s' (Hu & Hfm & Hna & Hhw & Hsm).
      assert (b ∉ A) as HbA by (intros ?; by apply (iv_FA Hi b)).
      assert (∀ x, x ∈ M → x ≠ b) as HMb by (intros x Hx ->; done).
      assert (∀ x, x ∈ M → b < x) as Hlt by (apply StronglySorted_inv in Hsort as [_ Hlt]; by rewrite Forall_forall in Hlt).
      assert (inv (delete b S) (F ∖ {[b]}) A (set_free_mblock_list nxt s')) as Hi'.
      { apply (inv_return_all S F A (set_free_mblock_list (desc b) s) _ b k M); try done. destruct Hu; by constructor. }
      eapply wp_mono; [apply (IH (delete b S) (F ∖ {[b]})); [done|..]|].
      * rewrite dom_delete_L, Hdom. clear -HbA. set_solver.
      * eapply slist_ext; [|done]. intros q (x & -> & Hx)%list_elem_of_fmap. unfold BlockMem.nx.
        assert (in_megas S F x) as (_ & m & Hm & Hm252) by (apply HM; by right).
        destruct (unmapped_other S s s' (b / 256) j b k x m (iv_layout Hi) Hu Hb Hk) as [Ho _]; [lia|lia|done|by apply HMb|].
        rewrite Ho; [done|]. apply own_head. lia.
      * by apply StronglySorted_inv in Hsort as [? _].
      * intros x. specialize (HM x). rewrite elem_of_cons in HM. unfold in_megas in *.
        rewrite elem_of_difference, elem_of_singleton. split.
        -- intros Hx. pose proof (HMb x Hx). destruct (proj1 HM (or_intror Hx)) as (HxF & m & Hm & Hm252).
           split; [done|]. exists m. by rewrite lookup_delete_ne.
        -- intros [[HxF Hne] (m & [_ Hm]%lookup_delete_Some & Hm252)]. destruct (proj2 HM) as [?|?]; [|done|done]. split; [done|by exists m].
      * lia.
      * intros x m Hx [_ Hm]%lookup_delete_Some. apply (Hsz x m); [by right|done].
      * cbn in Hfuel. lia.
      * cbn beta. intros hd' s'' (S' & F' & Hi'' & Hdom' & Hla & Hc). exists S', F'. split_and!; [done|done| |].
        -- eapply left_alone_trans; [|exact Hla].
           apply (unmapped_alone A S _ s s' (b / 256) j b k); try done; [apply Hi|].
           intros x Hx. apply lookup_delete_ne. by intros ->.
        -- rewrite Hc, (um_count _ _ _ _ Hu).
           assert (sum_over mblocks_of (delete b S) M = sum_over mblocks_of S M) as ->; [|lia].
           apply sum_over_ext. intros x Hx. apply lookup_delete_ne. apply not_eq_sym, HMb, Hx.
Qed.

Lemma mega_bound S F A s M :
  inv S F A s → slist (nx s) (free_mblock_list s) (desc <$> M) END → (∀ x, x ∈ M ↔ in_megas S F x) →
  (length M < fuel_of s)%nat.
Proof.
  intros Hi Hs HM. eapply (chain_fuel junk S F A s); [done|exact Hs|].
  intros b Hb. apply HM in Hb as (_ & n & Hn & _). by exists n.
Qed.

Lemma returnMemoryToOS_ok S F A s M n :
  ready junk S F A s → 0 <= n < 2 ^ 32 → slist (nx s) (free_mblock_list s) (desc <$> M) END →
  StronglySorted Z.lt M → (∀ x, x ∈ M ↔ in_megas S F x) →
  (∀ x k, x ∈ M → S !! x = Some k → mblocks_of k < 4096) →
  wp (returnMemoryToOS junk n) (λ _ s', ∃ S' F', ready junk S' F' A s' ∧ left_alone A S s S' s' ∧
    mblocks_allocated (mbs s') = mblocks_allocated (mbs s) - Z.min n (sum_over mblocks_of S M)) s.
Proof.
  intros [Hi Hdom Hn Hhw] Hn32 Hs Hsort HM Hsz. unfold returnMemoryToOS. do 5 wp_step.
  assert (set_free_mblock_list (free_mblock_list s) s = s) as Es by by destruct s.
  eapply wp_mono; [apply (return_loop_ok A M S F s n); try done; [by rewrite Es|by eapply mega_bound]|].
  cbn beta. intros hd' s' (S' & F' & Hi' & Hdom' & Hla & Hc). do 2 wp_step. apply wp_in_mbs. apply wp_ret.
  exists S', F'. destruct Hla as [Z1 K1 N1 W1 X1]. split_and!; [|by constructor|done].
  constructor; [by destruct s'|done| |cbn; by rewrite N1, W1].
  cbn. rewrite N1, Hn.
  symmetry. apply asum_ext; [apply (iv_A Hi)|done].
Qed.

(** ** The 32-bit offset *)
Lemma return_overflow S F A s b j n :
  inv S F A s → b ∈ F → S !! b = Some (256 * j - 4) → free_mblock_list s = desc b →
  0 < n < 4096 → n + 4096 <= j →
  wp (returnMemoryToOS junk n) (λ _ s', free_mblock_list s' = desc b ∧ ∃ y, b / 256 <= y < b / 256 + (j - n) ∧
    ¬ in_heap (mblock_maps (mbs s')) y ∧
    os (mbs s') = (munmap (2 ^ 20 * y) (2 ^ 20 * n) (os (mbs s))).2) s.
Proof.
  intros Hi HbF Hb Hfm Hn Hj.
  destruct (mega_count _ _ _ _ _ _ Hi Hb ltac:(lia)) as (Hms & Hj' & Ek & Hb256 & Hy0 & Hymax & Hcount).
  assert (mblocks_of (256 * j - 4) = j) as Ej by lia. rewrite Ej in *.
  assert (desc b ≠ END) as Hbe by by eapply inv_pos.
  assert (start (rd s (desc b)) = 4096 * b) as Hst by by eapply mega_start.
  destruct (iv_free Hi b _ HbF Hb) as (Hbl & _).
  unfold returnMemoryToOS. do 4 wp_step. rewrite Hfm. unfold fuel_of. cbn [return_loop].
  rewrite (proj2 (Z.leb_gt n 0)) by lia. rewrite (proj2 (Z.eqb_neq _ _) Hbe). cbn [orb].
  wp_step. wp_step. apply wp_ld; [done|]. rewrite Hbl, Hst, round_down. rewrite mega_mblocks by (done || lia). rewrite Ej.
  rewrite (wrapU_small 32 j) by lia. rewrite (proj2 (Z.ltb_lt n j)) by lia. change MBLOCK_SIZE with 1048576.
  set (y := b / 256 + (j - n) mod 4096).
  assert (wrapU 32 ((j - n) * 1048576) = 1048576 * ((j - n) mod 4096)) as ->.
  { unfold wrapU. change (2 ^ 32) with (4096 * 1048576). rewrite Z.mul_mod_distr_r by lia. lia. }
  assert (0 <= (j - n) mod 4096 <= j - n - 4096) as Hmod by (clear -Hj; zlia).
  replace (4096 * b - (4096 * b) mod 1048576 + 1048576 * ((j - n) mod 4096)) with (1048576 * y) by (unfold y; clear -Hb256; zlia).
  wp_step. apply wp_upd; [done|]. set (s1 := wr junk s (desc b) _).
  wp_step. apply wp_in_mbs. eapply wp_mono.
  { apply (freeMBlocks_ok (1048576 * y) n (mbs s1)); [apply Hi|lia| |lia|].
    - change MBLOCK_SIZE with 1048576. rewrite Z.mul_comm. by apply Z.mod_mul.
    - change MBLOCK_SIZE with 1048576. lia. }
  cbn beta. intros _ m' (_ & _ & Hheap & Hos). do 2 wp_step. wp_step. do 2 wp_step. apply wp_in_mbs, wp_ret. cbn.
  split; [done|]. exists y. unfold mb_of, mb_ok in Hheap. change MBLOCK_SIZE with 1048576 in Hheap, Hos.
  assert (1048576 * y / 1048576 = y) as Ey by (rewrite Z.mul_comm; by apply Z.div_mul). rewrite Ey in Hheap.
  split_and!; [lia|lia| |].
  - rewrite Hheap by lia. lia.
  - rewrite Hos. rewrite (wrapU_small 32 (n * 1048576)) by lia. do 2 f_equal; lia.
Qed.
End give_back.
