(* ===== verification/BlockLinks.v ===== *)
(** * Inserting into and replacing in the lists of descriptors

    [dbl_link_insert_after] and [dbl_link_replace] of Block.h as operations on
    lists. *)
From S2P Require Import Prelude DList MBlock BlockAlloc BlockMem.
From stdpp Require Import list gmap.
Local Open Scope Z_scope.

Section edit.
Implicit Types (nx pv : ptr → option ptr) (l : list ptr).

(** The middle of a list. *)
Lemma dlist_middle nx pv hd tl l1 q l2 :
  dlist nx pv hd tl (l1 ++ q :: l2) → ∃ p n, nx q = Some n ∧ pv q = Some p ∧ q ≠ END ∧
    dlseg nx pv END hd l1 p q ∧ dlseg nx pv q n l2 tl END ∧
    (l1 = [] ∧ hd = q ∧ p = END ∨ p ≠ END ∧ p ∈ l1) ∧ (l2 = [] ∧ n = END ∧ tl = q ∨ n ≠ END ∧ n ∈ l2) ∧
    NoDup l1 ∧ NoDup l2 ∧ (q ∉ l1) ∧ (q ∉ l2) ∧ (∀ x, x ∈ l1 → x ∉ l2).
Proof.
  intros [Hd Hnd]. apply dlseg_app in Hd as (p & x & H1 & H2). destruct H2 as (-> & Hq & Hpv & n & Hnx & H2).
  apply NoDup_app in Hnd as (Hnd1 & H12 & [Hq2 Hnd2]%NoDup_cons). exists p, n. split_and!; try done.
  - destruct (dlseg_last _ _ _ _ _ _ _ H1) as [(-> & -> & ->)|(l' & -> & ? & _)]; [by left|right].
    split; [done|]. apply elem_of_app; right; by left.
  - destruct (dlseg_head _ _ _ _ _ _ _ H2) as [(-> & -> & ->)|(l' & -> & ? & _)]; [by left|right].
    split; [done|by left].
  - intros Hx. apply (H12 q Hx). by left.
  - intros y Hy Hy2. apply (H12 y Hy). by right.
Qed.

(** [l2] comes to hang after [b] in place of [q]. *)
Lemma dlseg_rehang nx pv nx' pv' q b n l2 tl :
  dlseg nx pv q n l2 tl END → NoDup l2 → (∀ x, x ∈ l2 → nx' x = nx x) →
  (∀ x, x ∈ l2 → pv' x = if decide (x = n) then Some b else pv x) →
  ∃ tl', dlseg nx' pv' b n l2 tl' END.
Proof.
  intros Hd Hnd Hnx Hpv. destruct l2 as [|x l2]; [destruct Hd as [-> _]; by exists b|]. exists tl.
  assert (n = x) as -> by apply Hd. apply (dlseg_set_prev nx pv nx' pv' q b); [done| |done|done| |].
  - intros ->. by destruct Hd as (_ & ? & _).
  - intros y Hy Hne. rewrite Hpv by done. by rewrite decide_False.
  - rewrite Hpv by left. by rewrite decide_True.
Qed.

Lemma dlist_insert_after nx pv nx' pv' hd tl l1 a l2 b n :
  dlist nx pv hd tl (l1 ++ a :: l2) → nx a = Some n → b ∉ l1 ++ a :: l2 → b ≠ END →
  nx' b = Some n → pv' b = Some a →
  (∀ x, x ∈ l1 ++ a :: l2 → nx' x = if decide (x = a) then Some b else nx x) →
  (∀ x, x ∈ l1 ++ a :: l2 → pv' x = if decide (x = n) then Some b else pv x) →
  (n = END ∨ n ∈ l2) ∧ ∃ tl', dlist nx' pv' hd tl' (l1 ++ a :: b :: l2).
Proof.
  intros Hd Hn Hb Hbe Hnb Hpb Hnx Hpv. pose proof Hd as [_ Hnd].
  destruct (dlist_middle _ _ _ _ _ _ _ Hd) as (p & n' & Hn' & Hp & Ha & H1 & H2 & Hl1 & Hl2 & N1 & N2 & Ha1 & Ha2 & H12).
  rewrite Hn in Hn'. injection Hn' as <-.
  assert (n = END ∨ n ∈ l2) as Hnl by (destruct Hl2 as [(_ & ? & _)|[_ ?]]; [by left|by right]).
  split; [done|].
  assert (∀ x, x ∈ l1 ++ [a] → x ≠ END → x ≠ n) as Hout.
  { intros x Hx Hxe ->. destruct Hnl as [->|Hnl]; [done|]. apply elem_of_app in Hx as [Hx| ->%list_elem_of_singleton]; [by apply (H12 n)|done]. }
  destruct (dlseg_rehang nx pv nx' pv' a b n l2 tl H2 N2) as [tl' H2'].
  { intros x Hx. rewrite Hnx by set_solver. rewrite decide_False; [done|]. by intros ->. }
  { intros x Hx. apply Hpv. set_solver. }
  exists tl'. split.
  - apply dlseg_app. exists p, a. split.
    + eapply dlseg_ext; [|exact H1]. intros x Hx. pose proof (dlseg_not_END _ _ _ _ _ _ _ x H1 Hx). split.
      * rewrite Hnx by set_solver. rewrite decide_False; [done|]. by intros ->.
      * rewrite Hpv by set_solver. rewrite decide_False; [done|]. apply Hout; [set_solver|done].
    + cbn. split_and!; [done|done| |].
      * rewrite Hpv by set_solver. rewrite decide_False; [done|]. apply Hout; [set_solver|done].
      * exists b. split; [rewrite Hnx by set_solver; by rewrite decide_True|]. split_and!; [done|done|done|]. by exists n.
  - apply NoDup_app in Hnd as (M1 & M2 & [M3 M4]%NoDup_cons). apply NoDup_app. split_and!; [done| |].
    + intros x Hx Hx2. apply (M2 x Hx). set_solver.
    + apply NoDup_cons. split; [set_solver|]. apply NoDup_cons. split; [set_solver|done].
Qed.

Lemma dlist_replace nx pv nx' pv' hd tl l1 o l2 b n p :
  dlist nx pv hd tl (l1 ++ o :: l2) → nx o = Some n → pv o = Some p → b ∉ l1 ++ o :: l2 → b ≠ END →
  nx' b = Some n → pv' b = Some p →
  (∀ x, x ∈ l1 ++ l2 → nx' x = if decide (x = p) then Some b else nx x) →
  (∀ x, x ∈ l1 ++ l2 → pv' x = if decide (x = n) then Some b else pv x) →
  (n = END ∨ n ∈ l2) ∧ (p = END ∨ p ∈ l1) ∧
  ∃ tl', dlist nx' pv' (if decide (p = END) then b else hd) tl' (l1 ++ b :: l2).
Proof.
  intros Hd Hn Hp Hb Hbe Hnb Hpb Hnx Hpv. pose proof Hd as [_ Hnd].
  destruct (dlist_middle _ _ _ _ _ _ _ Hd) as (p' & n' & Hn' & Hp' & Ho & H1 & H2 & Hl1 & Hl2 & N1 & N2 & Ho1 & Ho2 & H12).
  rewrite Hn in Hn'. injection Hn' as <-. rewrite Hp in Hp'. injection Hp' as <-.
  assert (n = END ∨ n ∈ l2) as Hnl by (destruct Hl2 as [(_ & ? & _)|[_ ?]]; [by left|by right]).
  assert (p = END ∨ p ∈ l1) as Hpl by (destruct Hl1 as [(_ & _ & ?)|[_ ?]]; [by left|by right]).
  split_and!; [done|done|].
  assert (∀ x, x ∈ l2 → x ≠ p) as Hp2.
  { intros x Hx ->. pose proof (dlseg_not_END _ _ _ _ _ _ _ p H2 Hx). destruct Hpl; [done|]. by apply (H12 p). }
  assert (∀ x, x ∈ l1 → x ≠ n) as Hn1.
  { intros x Hx ->. pose proof (dlseg_not_END _ _ _ _ _ _ _ n H1 Hx). destruct Hnl; [done|]. by apply (H12 n). }
  destruct (dlseg_rehang nx pv nx' pv' o b n l2 tl H2 N2) as [tl' H2'].
  { intros x Hx. rewrite Hnx by set_solver. rewrite decide_False; [done|]. by apply Hp2. }
  { intros x Hx. apply Hpv. set_solver. }
  exists tl'. split.
  - apply dlseg_app. exists p, b. split.
    + destruct Hl1 as [(-> & -> & ->)|[Hpe Hpin]]; [by rewrite decide_True|]. rewrite decide_False by done.
      apply (dlseg_set_next nx pv nx' pv' END hd l1 p o b); [done|intros ->; by apply elem_of_nil in Hpin|done| | |].
      * intros x Hx. rewrite Hpv by set_solver. rewrite decide_False; [done|]. by apply Hn1.
      * intros x Hx Hxp. rewrite Hnx by set_solver. by rewrite decide_False.
      * rewrite Hnx by set_solver. by rewrite decide_True.
    + cbn. split_and!; [done|done|done|]. by exists n.
  - apply NoDup_app in Hnd as (M1 & M2 & [M3 M4]%NoDup_cons). apply NoDup_app. split_and!; [done| |].
    + intros x Hx [->|Hx2]%elem_of_cons; [set_solver|]. by apply (H12 x).
    + apply NoDup_cons. split; [set_solver|done].
Qed.
End edit.

Section links.
Context {OS : Type} `{OsMem OS}.
Variable junk : ptr → bdescr.
Notation rd := (rd junk).
Notation wr := (wr junk).
Notation bucket := (bucket junk).
Notation relinked := (relinked junk).
Implicit Types s : ba OS.

Lemma rd_wr_case s p f q b : (q = p → b = f (rd s p)) → (q ≠ p → b = rd s q) → rd (wr s p f) q = b.
Proof. intros H1 H2. rewrite rd_wr. case_decide; symmetry; auto. Qed.

Lemma insert_after_ok s ln L1 after L2 bd :
  bucket s ln (L1 ++ after :: L2) → bd ∉ L1 ++ after :: L2 → bd ≠ END →
  wp (dbl_link_insert_after junk bd after) (λ _ s', bucket s' ln (L1 ++ after :: bd :: L2) ∧
    relinked (L1 ++ after :: bd :: L2) s s' ∧ free_list s' = free_list s) s.
Proof.
  intros (hd & tl & Hhd & Hd) Hbd Hbe. unfold dbl_link_insert_after.
  assert (after ≠ END) as Hae by (destruct Hd as [Hd _]; eapply dlseg_not_END; [done|]; set_solver).
  assert (bd ≠ after) as Hba by (intros ->; set_solver). set (n := link (rd s after)).
  set (X := L1 ++ after :: bd :: L2).
  pose proof (λ nx' pv', dlist_insert_after (nx junk s) (pv junk s) nx' pv' hd tl L1 after L2 bd n Hd eq_refl Hbd Hbe) as Hins.
  assert (n = END ∨ n ∈ L2) as Hn.
  { edestruct (Hins (λ x, if decide (x = bd) then Some n else if decide (x = after) then Some bd else nx junk s x)
      (λ x, if decide (x = bd) then Some after else if decide (x = n) then Some bd else pv junk s x)); [by rewrite decide_True..| | |done];
      intros x Hx; (rewrite (decide_False (P := x = bd)); [done|by intros ->]). }
  wp_step. apply wp_ld; [done|]. wp_step. apply wp_upd; [done|]. wp_step. apply wp_upd; [done|].
  set (s1 := wr (wr s bd (set_link (link (rd s after)))) bd (set_back after)).
  assert (∀ q, rd s1 q = if decide (q = bd) then set_back after (set_link n (rd s bd)) else rd s q) as E1.
  { intros q. unfold s1. apply rd_wr_case; intros Hq; [rewrite rd_wr_eq; by rewrite decide_True|].
    rewrite rd_wr_ne by done. by rewrite decide_False. }
  assert (relinked X s s1) as R1.
  { eapply relinked_trans; apply relinked_wr; (done || unfold X; set_solver). }
  wp_step. apply wp_ld; [done|]. assert (link (rd s1 after) = n) as En by (rewrite E1; by rewrite decide_False).
  rewrite En. wp_step.
  set (s2 := if decide (n = END) then s1 else wr s1 n (set_back bd)).
  apply (wp_mono _ (λ _ s', s' = s2)).
  { unfold s2. destruct (decide (n = END)) as [->|Hne]; [done|].
    rewrite (proj2 (Z.eqb_neq n END) Hne). cbn [negb when]. by apply wp_upd. }
  intros _ ? ->. apply wp_upd; [done|].
  assert (n ≠ bd) as Hnbd by (intros E; destruct Hn as [Hn|Hn]; [congruence|set_solver]).
  assert (∀ q, q ≠ END → rd s2 q = if decide (q = n) then set_back bd (rd s1 n) else rd s1 q) as E2.
  { intros q Hq. unfold s2. destruct (decide (n = END)) as [->|]; [by rewrite decide_False|]. rewrite rd_wr. done. }
  assert (relinked X s1 s2 ∧ free_list s2 = free_list s1) as [R2 Ef].
  { unfold s2. destruct (decide (n = END)); [split; [apply relinked_refl|done]|]. split; [|done].
    apply relinked_wr; [|done]. unfold X. destruct Hn; [done|set_solver]. }
  split_and!; [|eapply relinked_trans; [eapply relinked_trans; [exact R1|exact R2]|]; apply relinked_wr; [unfold X; set_solver|done]|done].
  assert (∀ x, x ∈ L1 ++ after :: L2 → x ≠ END ∧ x ≠ bd) as Hxs.
  { intros x Hx. split; [|by intros ->]. destruct Hd as [Hd _]. by eapply dlseg_not_END. }
  destruct (Hins (nx junk (wr s2 after (set_link bd))) (pv junk (wr s2 after (set_link bd)))) as [_ [tl' Hd']].
  - unfold nx. rewrite rd_wr_ne by done. rewrite E2, decide_False, E1, decide_True by done. done.
  - unfold pv. rewrite rd_wr_ne by done. rewrite E2, decide_False, E1, decide_True by done. done.
  - intros x Hx. destruct (Hxs x Hx) as [Hxe Hxb]. unfold nx. rewrite rd_wr. destruct (decide (x = after)) as [->|]; [done|].
    rewrite E2 by done. destruct (decide (x = n)) as [->|]; (rewrite E1, decide_False by done); done.
  - intros x Hx. destruct (Hxs x Hx) as [Hxe Hxb]. unfold pv. rewrite rd_wr.
    assert (rd s2 x = if decide (x = n) then set_back bd (rd s n) else rd s x) as E3.
    { rewrite E2 by done. destruct (decide (x = n)); [by rewrite E1, decide_False|]. by rewrite E1, decide_False. }
    destruct (decide (x = after)) as [->|]; [cbn|]; rewrite E3; by destruct (decide (_ = n)).
  - exists hd, tl'. split; [|done]. cbn. by rewrite Ef.
Qed.

Lemma replace_ok s ln L1 old L2 new :
  bucket s ln (L1 ++ old :: L2) → new ∉ L1 ++ old :: L2 → new ≠ END →
  wp (dbl_link_replace junk new old ln) (λ _ s', bucket s' ln (L1 ++ new :: L2) ∧
    relinked (new :: L1 ++ L2) s s' ∧ ∃ hd, free_list s' = <[ln := hd]> (free_list s)) s.
Proof.
  intros (hd & tl & Hhd & Hd) Hbd Hbe. unfold dbl_link_replace.
  assert (old ≠ END) as Hoe by (destruct Hd as [Hd _]; eapply dlseg_not_END; [done|]; set_solver).
  assert (new ≠ old) as Hno by (intros ->; set_solver).
  set (n := link (rd s old)). set (p := back (rd s old)). set (X := new :: L1 ++ L2).
  pose proof (λ nx' pv', dlist_replace (nx junk s) (pv junk s) nx' pv' hd tl L1 old L2 new n p Hd eq_refl eq_refl Hbd Hbe) as Hrep.
  assert ((n = END ∨ n ∈ L2) ∧ (p = END ∨ p ∈ L1)) as [Hn Hp].
  { edestruct (Hrep (λ x, if decide (x = new) then Some n else if decide (x = p) then Some new else nx junk s x)
      (λ x, if decide (x = new) then Some p else if decide (x = n) then Some new else pv junk s x)) as (? & ? & _); [by rewrite decide_True..| | |done];
      intros x Hx; (rewrite (decide_False (P := x = new)); [done|intros ->; set_solver]). }
  assert (old ∉ L1 ++ L2) as Hold.
  { destruct Hd as [_ Hnd]. apply NoDup_app in Hnd as (_ & H12 & [? _]%NoDup_cons).
    intros [Hx|?]%elem_of_app; [|done]. apply (H12 _ Hx). by left. }
  assert (old ≠ n ∧ old ≠ p ∧ new ≠ n ∧ new ≠ p) as (Hon & Hop & Hnn & Hnp).
  { clearbody n p. clear -Hn Hp Hold Hbd Hbe Hoe. split_and!; intros ->; destruct Hn, Hp; (congruence || set_solver). }
  wp_step. apply wp_ld; [done|]. fold n. wp_step. apply wp_upd; [done|]. set (s0 := wr s new (set_link n)).
  assert (rd s0 old = rd s old) as E0 by by apply rd_wr_ne.
  wp_step. apply wp_ld; [done|]. rewrite E0. fold p. wp_step. apply wp_upd; [done|]. set (s1 := wr s0 new (set_back p)).
  assert (∀ q, rd s1 q = if decide (q = new) then set_back p (set_link n (rd s new)) else rd s q) as E1.
  { intros q. unfold s1. apply rd_wr_case; intros Hq; [unfold s0; rewrite rd_wr_eq; by rewrite decide_True|].
    unfold s0. rewrite rd_wr_ne by done. by rewrite decide_False. }
  assert (relinked X s s1) as R1 by (eapply relinked_trans; apply relinked_wr; (done || unfold X; set_solver)).
  assert (rd s1 old = rd s old) as Eo by (rewrite E1; by rewrite decide_False).
  wp_step. apply wp_ld; [done|]. rewrite Eo. fold n. wp_step.
  set (s2 := if decide (n = END) then s1 else wr s1 n (set_back new)).
  apply (wp_mono _ (λ _ s', s' = s2)).
  { unfold s2. destruct (decide (n = END)) as [->|Hne]; [done|].
    rewrite (proj2 (Z.eqb_neq n END) Hne). cbn [negb when]. by apply wp_upd. }
  intros _ ? ->.
  assert (∀ q, q ≠ END → rd s2 q = if decide (q = n) then set_back new (rd s1 n) else rd s1 q) as E2.
  { intros q Hq. unfold s2. destruct (decide (n = END)) as [->|]; [by rewrite decide_False|]. rewrite rd_wr. done. }
  assert (relinked X s1 s2 ∧ free_list s2 = free_list s) as [R2 Ef].
  { unfold s2. destruct (decide (n = END)); [split; [apply relinked_refl|done]|]. split; [|done].
    apply relinked_wr; [|done]. unfold X. destruct Hn; [done|set_solver]. }
  assert (rd s2 old = rd s old) as Eo2 by (by rewrite E2, decide_False, Eo).
  wp_step. apply wp_ld; [done|]. rewrite Eo2. fold p.
  set (s3 := if decide (p = END) then set_free_list (<[ln := new]> (free_list s2)) s2 else wr s2 p (set_link new)).
  apply (wp_mono _ (λ _ s', s' = s3)).
  { unfold s3. destruct (decide (p = END)) as [->|Hne]; [rewrite Z.eqb_refl; cbn [negb]; eapply wp_set_list; [by rewrite Ef|done]|].
    rewrite (proj2 (Z.eqb_neq p END) Hne). cbn [negb]. by apply wp_upd. }
  intros _ ? ->.
  assert (∀ q, q ≠ END → rd s3 q = if decide (q = p) then set_link new (rd s2 p) else rd s2 q) as E3.
  { intros q Hq. unfold s3. destruct (decide (p = END)) as [->|]; [by rewrite decide_False|]. rewrite rd_wr. done. }
  assert (relinked X s2 s3 ∧ ∃ h, h = (if decide (p = END) then new else hd) ∧ free_list s3 = <[ln := h]> (free_list s)) as [R3 (h & Eh & Ef3)].
  { unfold s3. destruct (decide (p = END)); [split; [apply relinked_fl|exists new; split; [done|cbn; by rewrite Ef]]|].
    split; [apply relinked_wr; [|done]; unfold X; destruct Hp; [done|set_solver]|].
    exists hd. split; [done|]. cbn. rewrite Ef. by rewrite list_insert_id. }
  split_and!; [|eapply relinked_trans; [exact R1|]; eapply relinked_trans; [exact R2|exact R3]|by exists h].
  assert (∀ x, x ∈ L1 ++ L2 → x ≠ END ∧ x ≠ new) as Hxs.
  { intros x Hx. split; [|intros ->; set_solver]. destruct Hd as [Hd _]. eapply dlseg_not_END; [done|]. set_solver. }
  destruct (Hrep (nx junk s3) (pv junk s3)) as (_ & _ & tl' & Hd').
  - unfold nx. rewrite E3, decide_False, E2, decide_False, E1, decide_True by done. done.
  - unfold pv. rewrite E3, decide_False, E2, decide_False, E1, decide_True by done. done.
  - intros x Hx. destruct (Hxs x Hx) as [Hxe Hxb]. unfold nx. rewrite E3 by done. destruct (decide (x = p)) as [->|]; [done|].
    rewrite E2 by done. destruct (decide (x = n)) as [->|]; (rewrite E1, decide_False by done); done.
  - intros x Hx. destruct (Hxs x Hx) as [Hxe Hxb]. unfold pv.
    assert (rd s2 x = if decide (x = n) then set_back new (rd s n) else rd s x) as E4.
    { rewrite E2 by done. destruct (decide (x = n)); [by rewrite E1, decide_False|]. by rewrite E1, decide_False. }
    rewrite E3 by done. destruct (decide (x = p)) as [->|]; [cbn|]; rewrite E4; by destruct (decide (_ = n)).
  - exists h, tl'. split; [rewrite Ef3; by eapply lookup_set_fl|]. by rewrite Eh.
Qed.
End links.
