(* ===== verification/BlockFacts.v ===== *)
(** * Requests at the edges

    Requests between half a megablock and a megablock, requests that overflow
    the size of a group, the group of an address, and the state of the allocator
    before its first call. *)
From S2P Require Import Prelude DList MBlock MBlockProps BlockAlloc BlockArith BlockMem BlockLayout BlockInv BlockLists BlockGroup BlockSanity BlockMega BlockFree BlockGet BlockTake BlockCount.
From stdpp Require Import list gmap sets sorting.
Local Open Scope Z_scope.

Section facts.
Context {OS : Type} `{OsMemLaws OS}.
Variable junk : ptr → bdescr.
Variable sanity : bool.
Notation rd := (rd junk).
Notation inv := (inv junk ∅).
Notation ready := (ready junk).
Implicit Types (s : ba OS) (S : gmap Z Z) (F A : gset Z).

(** ** The last bucket *)
Lemma log_2_ceil_large n : 128 < n <= 256 → log_2_ceil n = 8%nat.
Proof.
  intros Hn. assert ((n <=? 128) || (log_2_ceil n =? 8)%nat = true) as Hb.
  { apply (range_check (λ n, (n <=? 128) || (log_2_ceil n =? 8)%nat) 257); [by vm_compute|lia]. }
  apply orb_true_iff in Hb as [Hb|Hb]; [lia|]. by apply Nat.eqb_eq.
Qed.

(** No group is big enough for the last bucket. *)
Lemma last_bucket_empty S F A s : inv S F A s → free_list s !! 8%nat = Some END.
Proof.
  intros Hi. destruct (iv_bucket Hi 8) as (B & (hd & tl & Hhd & Hd & _) & HB); [unfold MAX_FREE_LIST; lia|].
  rewrite Hhd. destruct B as [|b B]; [by destruct Hd as [-> _]|]. exfalso.
  destruct (proj1 (HB b)) as (_ & n & Hn & Hlt & Hlog); [by left|].
  destruct (ly_pos _ (iv_layout Hi) _ _ Hn) as (_ & _ & Hn1).
  destruct (log_2_spec n) as (_ & Hle & _); [lia|]. rewrite Hlog in Hle. change (2 ^ Z.of_nat 8) with 256 in Hle. lia.
Qed.

Lemma large_request S F A s n :
  ready S F A s → 128 < n < 252 →
  allocGroup junk sanity n s =
    (bd ← (modify (λ s, set_n_alloc (wrapU 64 (n_alloc_blocks s + n)) s);; bump_hw;; alloc_from_mblock junk sanity n);
     when sanity (checkFreeListSanity junk);; mret bd) s.
Proof.
  intros [Hi _ _ _] Hn. unfold allocGroup. rewrite (proj2 (Z.eqb_neq n 0)), bpm, (proj2 (Z.leb_gt 252 n)) by lia.
  rewrite log_2_ceil_large by lia. set (s1 := set_n_alloc (wrapU 64 (n_alloc_blocks s + n)) s).
  assert (∃ s2, bump_hw s1 = Ok (tt, s2) ∧ free_list s2 = free_list s) as (s2 & E2 & Ef).
  { unfold bump_hw, modify. eexists. split; [done|]. by destruct (_ <? _). }
  assert (find_bucket (seq 8 (MAX_FREE_LIST - 8)) s2 = Ok (MAX_FREE_LIST, s2)) as E3.
  { change (seq 8 (MAX_FREE_LIST - 8)) with [8%nat]. unfold find_bucket, get_list, mbind, prog_bind, gets.
    rewrite Ef, (last_bucket_empty S F A s Hi). done. }
  unfold mbind, prog_bind, modify. fold s1. by rewrite E2, E3.
Qed.

(** ** The group of an address *)
Lemma bdescr_group S F A s b n p :
  ready S F A s → b ∈ A → S !! b = Some n → b <= p / 4096 < b + Z.min n 252 →
  start (rd s (Bdescr p)) = p - p mod 4096 ∧
  (if blocks (rd s (Bdescr p)) =? 0 then link (rd s (Bdescr p)) else Bdescr p) = desc b.
Proof.
  intros [Hi _ _ _] HbA Hb Hp. destruct (ly_pos _ (iv_layout Hi) _ _ Hb) as (Hb0 & _ & Hn1).
  pose proof (Z.div_mod p 4096 ltac:(done)) as Ep. pose proof (Z.mod_pos_bound p 4096 ltac:(done)) as Hm.
  assert (Bdescr p = desc (p / 4096)) as ->.
  { rewrite Ep at 1. apply bdescr_desc; lia. }
  destruct (iv_alloc Hi _ _ HbA Hb) as (Hbl & _ & Hin).
  destruct (iv_grp Hi _ _ Hb (p / 4096 - b)) as [Hst _]; [lia|].
  replace (b + (p / 4096 - b)) with (p / 4096) in Hst by lia. split; [rewrite Hst; lia|].
  destruct (decide (p / 4096 = b)) as [->|Hne].
  - rewrite Hbl. by rewrite (proj2 (Z.eqb_neq n 0)) by lia.
  - destruct (Hin (p / 4096 - b)) as (E1 & _ & E2); [lia|].
    replace (b + (p / 4096 - b)) with (p / 4096) in E1, E2 by lia. by rewrite E1, E2.
Qed.

(** ** A request of 16Tb *)
Lemma mega_wrapped S F A s x :
  inv S F A s → x ∈ F → S !! x = Some 252 →
  wp (alloc_mega_group junk (2 ^ 24 + 1)) (λ p s', ∃ y, p = desc y ∧ y ∈ F ∧ S !! y = Some 252 ∧
    inv S (F ∖ {[y]}) (A ∪ {[y]}) s' ∧ keeps junk A S s S s' ∧ blocks (rd s' p) = 252) s.
Proof.
  intros Hi HxF Hx. destruct (iv_mega Hi) as (M & Hs & Hsort & HM). unfold alloc_mega_group.
  rewrite group_blocks_overflow. rewrite (wrapU_small 32 252) by lia. do 5 wp_step.
  eapply wp_mono; [apply (mega_scan_ok junk S F A s 252 M [] END); try done; [|by intros y ?%elem_of_nil|]|].
  { eapply bucket_fuel; [done|by apply desc_NoDup, sorted_NoDup|]. intros y Hy. by apply HM in Hy as [? _]. }
  { left. split; [done|]. by intros y k ?%elem_of_nil. }
  cbn beta. intros [p|p] s1.
  - intros (y & -> & HyF & Hy & Hi' & Hk & Hbl). apply wp_ret. exists y. by split_and!.
  - intros (_ & _ & Hno). destruct (Hno x); [|done]. apply HM. split; [done|]. exists 252. by split.
Qed.

Lemma alloc_wrapped S F A s x n :
  ready S F A s → x ∈ F → S !! x = Some 252 → 2 ^ 32 - 4 < n < 2 ^ 32 →
  wp (allocGroup junk sanity n) (λ p s', blocks (rd s' p) = 252 ∧
    n_alloc_blocks s' = n_alloc_blocks s + 252 * (2 ^ 24 + 1)) s.
Proof.
  intros [Hi Hdom Hna Hhw] HxF Hx Hn. pose proof (asum_range S A (iv_layout Hi)) as Hra.
  pose proof (ly_total _ (iv_layout Hi)) as Hmax.
  unfold allocGroup. rewrite (proj2 (Z.eqb_neq n 0)), bpm, (proj2 (Z.leb_le 252 n)) by lia.
  rewrite blocks_to_mblocks by lia. replace ((n + 3) / 256 + 1) with (2 ^ 24 + 1) by (clear -Hn; zlia).
  rewrite (wrapU_small 32 (2 ^ 24 + 1)) by lia. wp_step. wp_step.
  eapply wp_mono; [apply raise_ok with (Q := λ _ s', s' = raised ((2 ^ 24 + 1) * 252) s); [lia|lia|done]|].
  cbn beta. intros _ s1 Hs1. wp_step. eapply wp_mono; [exact Hs1|]. cbn beta. intros _ ? ->.
  apply (inv_raised junk S F A s ((2 ^ 24 + 1) * 252)) in Hi. wp_step.
  eapply wp_mono; [by eapply mega_wrapped|]. cbn beta. intros p s2 (y & -> & HyF & Hy & Hi2 & [_ _ N2 _ _] & Hbl).
  apply (inv_drop junk ∅ _ _ _ _ y) in Hi2. wp_step.
  eapply wp_mono; [eapply initGroup_ok; [exact Hi2|exact Hy| |done]|].
  { pose proof (iv_FA Hi) as HFA. clear. set_solver. }
  cbn beta. intros _ s3 (Hi3 & Ht & _). apply wp_ret. wp_step.
  assert (blocks (rd s3 (desc y)) = 252 ∧ n_alloc_blocks s3 = n_alloc_blocks s + 252 * (2 ^ 24 + 1)) as Hfin.
  { split.
    - apply (iv_alloc Hi3 y 252); [|done]. clear. set_solver.
    - pose proof (th_rest _ _ _ _ Ht) as Hr. unfold rest in Hr. injection Hr as _ -> _ _ _. rewrite N2. unfold raised. cbn. lia. }
  wp_step; [|by apply wp_ret]. eapply wp_mono; [eapply sanity_ok; [exact Hi3|]|].
  { rewrite Hdom. apply set_eq. intros z. rewrite !elem_of_union, !elem_of_difference, !elem_of_union, !elem_of_singleton.
    destruct (decide (z = y)) as [->|]; naive_solver. }
  cbn beta. intros _ ? ->. by apply wp_ret.
Qed.

(** The head of the megablock free list. *)
Lemma head_mega S F A s b :
  inv S F A s → free_mblock_list s = desc b → desc b ≠ END → b ∈ F ∧ S !! b = Some (blocks (rd s (desc b))).
Proof.
  intros Hi Hfm Hne. destruct (iv_mega Hi) as (M & Hs & _ & HM). rewrite Hfm in Hs.
  destruct M as [|c M]; [done|]. destruct Hs as (E & _). apply desc_inj in E as ->.
  destruct (proj1 (HM c)) as (HcF & k & Hk & _); [by left|]. split; [done|].
  destruct (iv_free Hi c k HcF Hk) as (-> & _). done.
Qed.

(** ** The first state *)
Lemma init_ready s :
  mm_inv (mbs s) → mblocks_allocated (mbs s) = 0 →
  wp initBlockAllocator (λ _ s', ready ∅ ∅ ∅ s' ∧ sm_mutex s' = sm_mutex s ∧ mbs s' = mbs s) s.
Proof.
  intros Hmm Hz. unfold initBlockAllocator. repeat wp_step. split; [|done]. constructor; [|set_solver|done|done].
  constructor; try done.
  - intros ln Hln. exists []. split.
    + exists END, END. cbn. split; [|by split; [|constructor]].
      do 9 (destruct ln as [|ln]; [done|]). unfold MAX_FREE_LIST in Hln. lia.
    + intros b. split; [by intros ?%elem_of_nil|by intros [? _]].
  - exists []. cbn. split_and!; [done|constructor|]. intros b. split; [by intros ?%elem_of_nil|by intros [? _]].
  - cbn. rewrite Hz. done.
Qed.

(** One free group of megablocks. *)
Lemma single_ready s b n :
  0 <= b → b `mod` 256 = 4 → mega_size n → b + n <= 2 ^ 32 →
  grp junk s b n → blocks (rd s (desc b)) = n → free (rd s (desc b)) = FREE → link (rd s (desc b)) = END →
  free_list s = replicate MAX_FREE_LIST END → free_mblock_list s = desc b →
  n_alloc_blocks s = 0 → 0 <= hw_alloc_blocks s → mm_inv (mbs s) → 256 * mblocks_allocated (mbs s) = n + 4 →
  (∀ x, 4096 * (b - 4) <= x < 4096 * (b + n) → mapped (os (mbs s)) x) →
  ready {[b := n]} {[b]} ∅ s.
Proof.
  intros Hb Hb4 Hms Hmax Hg Hbl Hfr Hlk Hfl Hfm Hna Hhw Hmm Hma Hmap. pose proof Hms as [Hn Hn252].
  destruct (layout_add ∅ b n layout_empty) as (_ & Hl & Ht); [done..|lia|done|change (heap_blocks ∅) with 0; clear -Hmax Hb Hb4; zlia|].
  rewrite insert_empty in Hl, Ht. change (heap_blocks ∅) with 0 in Ht.
  assert (asum {[b := n]} ∅ = 0) as Ha.
  { apply (asum_list {[b := n]} [] NoDup_nil_2). by intros x ?%elem_of_nil. }
  constructor; [|rewrite dom_singleton_L; clear; set_solver|by rewrite Ha|lia]. constructor; try done.
  - by rewrite dom_singleton_L.
  - by intros x k [<- <-]%lookup_singleton_Some.
  - intros x k _ [<- <-]%lookup_singleton_Some. split_and!; [done|done|lia].
  - intros ln Hln. exists []. split.
    + exists END, END. split; [rewrite Hfl; by apply lookup_replicate_2|by split; [|constructor]].
    + intros x. split; [by intros ?%elem_of_nil|]. intros (_ & k & [_ <-]%lookup_singleton_Some & ? & _). lia.
  - exists [b]. split_and!.
    + split; [done|]. destruct (layout_pos _ _ _ Hl (lookup_singleton_eq b n)) as [_ Hne]. split; [done|]. exists END. unfold nx. by rewrite Hlk.
    + repeat constructor.
    + intros x. rewrite list_elem_of_singleton. split.
      * intros ->. split; [by apply elem_of_singleton|]. exists n. split; [apply lookup_singleton_eq|lia].
      * by intros [?%elem_of_singleton _].
  - intros x k _ [_ <-]%lookup_singleton_Some ?. lia.
  - intros x k k' _ _ [<- <-]%lookup_singleton_Some _ [E _]%lookup_singleton_Some. lia.
  - intros x k z [<- <-]%lookup_singleton_Some Hz. apply Hmap. clear -Hz Hb4 Hn252. zlia.
  - lia.
Qed.
End facts.
