(* ===== verification/BlockMain.v ===== *)
(** * Properties of the block allocator

    What the functions of BlockAlloc.c promise to the storage manager: from a
    state that satisfies [ready], allocation returns a new group, freeing gives
    it back, the debugging functions find nothing wrong, and the statistics add
    up; and the requests for which the code does something else. *)
From S2P Require Import Prelude DList MBlock MBlockProps MBlockMain BlockAlloc BlockArith BlockMem BlockLayout BlockInv BlockLists BlockGroup BlockSanity BlockMega BlockFree BlockGet BlockTake BlockCount BlockReturn BlockLinks BlockFacts.
From stdpp Require Import list gmap sets sorting.
Local Open Scope Z_scope.

(** ** Concrete states *)
Module BlockDemo.
Definition junk0 : ptr → bdescr := λ _, mkBd 1 2 3 4 5 6 7 8 9.
Definition before : ba BumpOS.t := mkBA ∅ [] 0 0 0 false MBlockDemo.empty.
Definition state {A} (m : prog (ba BumpOS.t) A) (s : ba BumpOS.t) : ba BumpOS.t :=
  match m s with Ok (_, s') => s' | Err _ => s end.
(** After initialisation, an allocation of five blocks, and freeing them. *)
Definition s0 : ba BumpOS.t := state initBlockAllocator before.
Definition s1 : ba BumpOS.t := state (allocGroup junk0 true 5) s0.
Definition s2 : ba BumpOS.t := state (freeGroup junk0 true (desc 260)) s1.

Lemma ready0 : ready junk0 ∅ ∅ ∅ s0.
Proof. exact (proj1 (init_ready junk0 before MBlockDemo.empty_inv eq_refl)). Qed.

Lemma run1 : allocGroup junk0 true 5 s0 = Ok (desc 260, s1).
Proof. vm_compute. reflexivity. Qed.

Lemma ran_wpb {S A} (m : prog S A) Q s a s' : m s = Ok (a, s') → wpb m Q s → Q a s'.
Proof. intros E. unfold wpb. by rewrite E. Qed.
Lemma ran_wp {S A} (m : prog S A) Q s a s' : m s = Ok (a, s') → wp m Q s → Q a s'.
Proof. intros E. unfold wp. by rewrite E. Qed.

Lemma alloc1 : allocated junk0 ∅ ∅ ∅ s0 5 (desc 260) s1.
Proof.
  apply (ran_wpb _ _ _ _ _ run1). apply (allocGroup_ready junk0 true ∅ ∅ ∅ s0 5 ready0); [lia|]. by vm_compute.
Qed.

Lemma ready1 : ∃ S F, ready junk0 S F {[260]} s1 ∧ S !! 260 = Some 5.
Proof.
  destruct alloc1 as (S & F & b & E & _ & Hr & Hb & _). apply desc_inj in E as <-. exists S, F.
  replace (∅ ∪ {[260]} : gset Z) with ({[260]} : gset Z) in Hr by set_solver. done.
Qed.

Lemma run2 : freeGroup junk0 true (desc 260) s1 = Ok (tt, s2).
Proof. vm_compute. reflexivity. Qed.

Lemma ready2 : ∃ S F, ready junk0 S F ∅ s2.
Proof.
  destruct ready1 as (S & F & Hr & Hb).
  pose proof (freeGroup_ready junk0 true S F {[260]} s1 260 5 Hr ltac:(set_solver) Hb) as Hw.
  destruct (ran_wp _ _ _ _ _ run2 Hw) as (S' & F' & Hr' & _). exists S', F'.
  replace ({[260]} ∖ {[260]} : gset Z) with (∅ : gset Z) in Hr' by set_solver. done.
Qed.

Lemma free2 S F : ready junk0 S F ∅ s2 → 260 ∈ F ∧ S !! 260 = Some 252.
Proof.
  intros Hr. destruct (head_mega junk0 S F ∅ s2 260 (rd_inv _ _ _ _ _ Hr)) as [HF HS]; [by vm_compute|done|].
  split; [exact HF|]. rewrite HS. by vm_compute.
Qed.

(** A heap of 4097 free megablocks, in one group. *)
Definition big_bd (i : Z) : bdescr :=
  mkBd (4096 * (260 + i)) (if i =? 0 then FREE else 0) END END END 0 0 0 (if i =? 0 then 1048828 else 0).
Definition big : ba BumpOS.t :=
  mkBA (list_to_map ((λ i, (desc (260 + Z.of_nat i), big_bd (Z.of_nat i))) <$> seq 0 252)) (replicate 9 END) (desc 260) 0 0 false
    (mkM [(true, 1048576, 4097 * 1048576)] 0 [] 0 (mblock_cache MBlockDemo.empty) 4097 4097 0).

Lemma big_lookup i : 0 <= i < 252 → bds big !! desc (260 + i) = Some (big_bd i).
Proof.
  intros Hi. apply elem_of_list_to_map.
  - rewrite <- list_fmap_compose. apply NoDup_fmap_2; [|apply NoDup_seq]. intros x y E%desc_inj. lia.
  - apply list_elem_of_fmap. exists (Z.to_nat i). rewrite Z2Nat.id by lia. split; [done|]. apply elem_of_seq. lia.
Qed.

Lemma big_rd i : 0 <= i < 252 → rd junk0 big (desc (260 + i)) = big_bd i.
Proof. intros Hi. unfold rd. by rewrite big_lookup. Qed.

Lemma big_mm : mm_inv (mbs big).
Proof. destruct MBlockDemo.empty_inv. by constructor. Qed.

Lemma big_ready : ready junk0 {[260 := 1048828]} {[260]} ∅ big.
Proof.
  pose proof (big_rd 0 ltac:(lia)) as E0. change (260 + 0) with 260 in E0.
  apply single_ready; [lia|reflexivity|split; [lia|reflexivity]|lia| | | | |reflexivity|reflexivity|reflexivity|reflexivity|exact big_mm|reflexivity|].
  - intros i Hi. rewrite big_rd by lia. split; [reflexivity|]. apply elem_of_dom. rewrite big_lookup by lia. eauto.
  - rewrite E0. reflexivity.
  - rewrite E0. reflexivity.
  - rewrite E0. reflexivity.
  - intros x Hx. right. lia.
Qed.

(** Two descriptors on the list of bucket 0. *)
Definition pair : ba BumpOS.t :=
  set_bds {[64 := set_link 128 (set_back END (junk0 0)); 128 := set_link END (set_back 64 (junk0 0))]}
    (set_free_list (<[0%nat := 64]> (replicate 9 END)) s0).

Lemma pair_bucket : bucket junk0 pair 0 [64; 128].
Proof.
  exists 64, 128. split; [done|]. split.
  - split_and!; [done|done|done|]. exists 128. split; [done|]. split_and!; [done|done|done|]. by exists END.
  - apply NoDup_cons. split; [by intros ?%list_elem_of_singleton|apply NoDup_singleton].
Qed.
End BlockDemo.

Section properties.
Context {OS : Type} `{OsMemLaws OS}.
Variable junk : ptr → bdescr.
Variable sanity : bool.
Implicit Types (s : ba OS) (S : gmap Z Z) (F A : gset Z).

(** C16: Allocation.  From a state in which the groups [A] are allocated,
    [allocGroup n] either stops because the operating system has no more memory
    or returns the head of a group that was not allocated before, of [n] blocks
    (rounded up to whole megablocks if that is a megablock or more), initialised
    and unlinked; it keeps the invariant, and the sizes and the descriptors of
    the groups of [A]. *)
Theorem allocGroup_correct S F A s n :
  ready junk S F A s → 0 < n <= 2 ^ 32 - 4 → heap_blocks S + 256 * ((n + 3) / 256 + 1) <= 2 ^ 32 →
  wpb (allocGroup junk sanity n) (allocated junk S F A s (group_size n)) s.
Proof. apply allocGroup_ready. Qed.

(** C17: Freeing.  [freeGroup] of an allocated group never fails an assertion; the
    group leaves the allocated ones, is coalesced with its free neighbours, and
    the block count goes down by its size; the other allocated groups keep their
    sizes and descriptors, and no memory is taken from or given to the operating
    system. *)
Theorem freeGroup_correct S F A s b n :
  ready junk S F A s → b ∈ A → S !! b = Some n →
  wp (freeGroup junk sanity (desc b)) (λ _ s', ∃ S' F', ready junk S' F' (A ∖ {[b]}) s' ∧
    evolves junk (A ∖ {[b]}) S (set_n_alloc (n_alloc_blocks s - allocd n) s) S' s') s.
Proof. apply freeGroup_ready. Qed.

(** C29: Allocating and freeing is a round trip: the allocated groups and the
    number of allocated blocks are what they were. *)
Theorem alloc_free_roundtrip S F A s n :
  ready junk S F A s → 0 < n <= 2 ^ 32 - 4 → heap_blocks S + 256 * ((n + 3) / 256 + 1) <= 2 ^ 32 →
  wpb (p ← allocGroup junk sanity n; freeGroup junk sanity p) (λ _ s', ∃ S' F', ready junk S' F' A s' ∧
    n_alloc_blocks s' = n_alloc_blocks s ∧ (∀ a, a ∈ A → S' !! a = S !! a) ∧
    (∀ a k q, a ∈ A → S !! a = Some k → own a k q → rd junk s' q = rd junk s q)) s.
Proof.
  intros Hr Hn Hheap. apply wpb_bind. eapply wpb_mono; [by eapply allocGroup_ready|].
  cbn beta. intros p s1 (S1 & F1 & b & -> & HbA & Hr1 & Hb & _ & _ & HS1 & Hk1 & _). apply wpb_wp.
  eapply wp_mono; [eapply freeGroup_ready; [exact Hr1| |exact Hb]; clear; set_solver|].
  cbn beta. intros _ s' (S' & F' & Hr' & [HS' Hk' _ _ _ _ _]).
  replace ((A ∪ {[b]}) ∖ {[b]}) with A in * by (clear -HbA; set_solver). exists S', F'. split_and!; [done| | |].
  - rewrite (rd_n _ _ _ _ _ Hr'), (rd_n _ _ _ _ _ Hr). apply asum_ext; [apply (iv_A (rd_inv _ _ _ _ _ Hr))|].
    intros a Ha. by rewrite HS', HS1.
  - intros a Ha. by rewrite HS', HS1.
  - intros a k q Ha Hk Hq. etransitivity; [apply (Hk' a k q); [done|by rewrite HS1|done]|by apply (Hk1 a k q)].
Qed.

(** The debugging check agrees: in a state that satisfies the invariant no
    assertion of [checkFreeListSanity] fails, on any bucket, and it changes
    nothing. *)
Theorem checkFreeListSanity_passes S F A s :
  ready junk S F A s → wp (checkFreeListSanity junk) (λ _ s', s' = s) s.
Proof. intros [Hi Hd _ _]. by eapply sanity_ok. Qed.

(** The memory inventory adds up: [countFreeList] is the number of blocks of
    the megablocks of the heap less the blocks that are allocated (modulo
    [2 ^ 32], the width of its result). *)
Theorem countFreeList_inventory S F A s :
  ready junk S F A s →
  wp (countFreeList junk) (λ r s', s' = s ∧ r = wrapU 32 (252 * mblocks_allocated (mbs s) - n_alloc_blocks s)) s.
Proof. apply countFreeList_ok. Qed.

(** C30: [freeChain] frees every group of a chain of allocated groups, whatever its
    length, although freeing a group rewrites descriptors; the other allocated
    groups keep theirs. *)
Theorem freeChain_frees S F A s hd L :
  ready junk S F A s → chain junk s hd L → (∀ b, b ∈ L → b ∈ A) →
  wp (freeChain junk sanity hd) (λ _ s', ∃ S' F', ready junk S' F' (A ∖ list_to_set L) s' ∧
    (∀ a, a ∈ A ∖ list_to_set L → S' !! a = S !! a) ∧
    (∀ a n q, a ∈ A ∖ list_to_set L → S !! a = Some n → own a n q → rd junk s' q = rd junk s q) ∧
    n_alloc_blocks s' = n_alloc_blocks s - sum_over allocd S L) s.
Proof.
  intros Hr Hc HL. pose proof (rd_inv _ _ _ _ _ Hr) as Hi. unfold freeChain. wp_step. wp_step.
  apply (free_chain_ok junk sanity L S F A); [done..|]. apply (chain_fuel junk S F A s hd L); [done..|]. intros b Hb.
  apply elem_of_dom, (iv_A Hi), HL, Hb.
Qed.

(** [countAllocdBlocks] of a chain is the number of blocks its groups hold: the
    descriptor blocks of the second and later megablocks of a group are left
    out. *)
Theorem countAllocdBlocks_chain S F A s hd L :
  ready junk S F A s → chain junk s hd L → (∀ b, b ∈ L → b ∈ A) →
  wp (countAllocdBlocks junk hd) (λ r s', s' = s ∧ r = wrapU 32 (sum_over allocd S L)) s.
Proof.
  intros [Hi _ _ _] Hc HL. assert (∀ b, b ∈ L → is_Some (S !! b)) as HS.
  { intros b Hb. apply elem_of_dom, (iv_A Hi), HL, Hb. }
  unfold countAllocdBlocks. wp_step. wp_step.
  eapply wp_mono; [eapply (count_chain_ok junk _ S F A); [done|exact Hc| |by apply (chain_fuel junk S F A s hd L)]|].
  - intros b Hb. apply elem_of_union; right. by apply HL.
  - cbn beta. intros r s' [-> ->]. split; [done|]. apply foldl_allocd; [lia|apply Hi|done].
Qed.

(** C31: [returnMemoryToOS n] gives back [n] megablocks, or all the free ones if
    there are fewer: whole groups from the front of the free list, then the end
    of one.  The invariant and the allocated groups are kept.  This needs every
    free group to be shorter than 4096 megablocks. *)
Theorem returnMemoryToOS_correct S F A s n :
  ready junk S F A s → 0 <= n < 2 ^ 32 → (∀ x k, x ∈ F → S !! x = Some k → mblocks_of k < 4096) →
  wp (returnMemoryToOS junk n) (λ _ s', ∃ S' F' M, ready junk S' F' A s' ∧ left_alone junk A S s S' s' ∧
    NoDup M ∧ (∀ x, x ∈ M ↔ in_megas S F x) ∧
    mblocks_allocated (mbs s') = mblocks_allocated (mbs s) - Z.min n (sum_over mblocks_of S M)) s.
Proof.
  intros Hr Hn Hsz. destruct (iv_mega (rd_inv _ _ _ _ _ Hr)) as (M & Hs & Hsort & HM).
  eapply wp_mono; [eapply returnMemoryToOS_ok; try done|].
  - intros x k Hx. apply Hsz. by apply HM in Hx as [? _].
  - cbn beta. intros _ s' (S' & F' & Hr' & Hla & Hc). exists S', F', M. split_and!; try done. by apply sorted_NoDup.
Qed.

(** C32: With a longer group it goes wrong: when 4096 megablocks or more of the
    first group are to be kept, their length in bytes overflows 32 bits, and the
    memory that is unmapped belongs to the part that stays on the free list. *)
Theorem returnMemoryToOS_overflow S F A s b j n :
  ready junk S F A s → b ∈ F → S !! b = Some (256 * j - 4) → free_mblock_list s = desc b →
  0 < n < 4096 → n + 4096 <= j →
  wp (returnMemoryToOS junk n) (λ _ s', free_mblock_list s' = desc b ∧ ∃ y, b / 256 <= y < b / 256 + (j - n) ∧
    ¬ in_heap (mblock_maps (mbs s')) y ∧
    os (mbs s') = (munmap (2 ^ 20 * y) (2 ^ 20 * n) (os (mbs s))).2) s.
Proof. intros [Hi _ _ _]. by apply (return_overflow junk S F A). Qed.

(** A request for 129 to 251 blocks takes a fresh megablock even if a free
    group is big enough: the search starts at the last bucket, which no group is
    big enough for. *)
Theorem large_requests_skip_buckets S F A s n :
  ready junk S F A s → 128 < n < 252 →
  allocGroup junk sanity n s =
    (bd ← (modify (λ s, set_n_alloc (wrapU 64 (n_alloc_blocks s + n)) s);; bump_hw;; alloc_from_mblock junk sanity n);
     when sanity (checkFreeListSanity junk);; mret bd) s.
Proof. apply large_request. Qed.

(** A request for more than [2 ^ 32 - 4] blocks is served with a group of 252
    blocks, if the free list has one: the size of the group wraps to that of one
    megablock.  The count of allocated blocks does not. *)
Theorem allocGroup_wraps S F A s x n :
  ready junk S F A s → x ∈ F → S !! x = Some 252 → 2 ^ 32 - 4 < n < 2 ^ 32 →
  wp (allocGroup junk sanity n) (λ p s', blocks (rd junk s' p) = 252 ∧
    n_alloc_blocks s' = n_alloc_blocks s + 252 * (2 ^ 24 + 1)) s.
Proof. apply alloc_wrapped. Qed.

(** [Bdescr] of an address in the first megablock of an allocated group is the
    descriptor of its block, and leads to the head of the group: it is the head,
    or its block count is 0 and its link is the head. *)
Theorem Bdescr_finds_group S F A s b n p :
  ready junk S F A s → b ∈ A → S !! b = Some n → b <= p / 4096 < b + Z.min n 252 →
  start (rd junk s (Bdescr p)) = p - p mod 4096 ∧
  (if blocks (rd junk s (Bdescr p)) =? 0 then link (rd junk s (Bdescr p)) else Bdescr p) = desc b.
Proof. apply bdescr_group. Qed.

(** The operations of Block.h on doubly linked lists of descriptors: pushing,
    removing, inserting after a descriptor and replacing one, on the list of a
    bucket. *)
Theorem descriptor_lists s ln L1 d L2 bd :
  bucket junk s ln (L1 ++ d :: L2) → bd ∉ L1 ++ d :: L2 → bd ≠ END →
  wp (dbl_link_onto junk bd ln) (λ _ s', bucket junk s' ln (bd :: L1 ++ d :: L2)) s ∧
  wp (dbl_link_remove junk d ln) (λ _ s', bucket junk s' ln (L1 ++ L2)) s ∧
  wp (dbl_link_insert_after junk bd d) (λ _ s', bucket junk s' ln (L1 ++ d :: bd :: L2)) s ∧
  wp (dbl_link_replace junk bd d ln) (λ _ s', bucket junk s' ln (L1 ++ bd :: L2)) s.
Proof.
  intros Hb Hbd Hne. split_and!.
  - eapply wp_mono; [by apply link_onto_ok|]. by intros _ s' [? _].
  - eapply wp_mono; [by apply link_remove_ok|]. by intros _ s' [? _].
  - eapply wp_mono; [by apply insert_after_ok|]. by intros _ s' [? _].
  - eapply wp_mono; [by apply replace_ok|]. by intros _ s' [? _].
Qed.

(** [initBlockAllocator] establishes the invariant, with nothing allocated and
    nothing free, before the first megablock is taken from the operating
    system. *)
Theorem initBlockAllocator_ready s :
  mm_inv (mbs s) → mblocks_allocated (mbs s) = 0 →
  wp initBlockAllocator (λ _ s', ready junk ∅ ∅ ∅ s' ∧ sm_mutex s' = sm_mutex s ∧ mbs s' = mbs s) s.
Proof. apply init_ready. Qed.
End properties.

(** ** The properties on concrete states *)
Lemma allocGroup_correct_witness :
  wpb (allocGroup BlockDemo.junk0 true 300) (allocated BlockDemo.junk0 ∅ ∅ ∅ BlockDemo.s0 508) BlockDemo.s0 ∧
  match allocGroup BlockDemo.junk0 true 300 BlockDemo.s0 with Ok (p, s) => p = desc 260 ∧ n_alloc_blocks s = 504 | Err _ => False end.
Proof.
  split; [|by vm_compute].
  apply (allocGroup_correct BlockDemo.junk0 true ∅ ∅ ∅ BlockDemo.s0 300); [exact BlockDemo.ready0|lia|by vm_compute].
Defined.

Lemma freeGroup_correct_witness : ∃ S F, ready BlockDemo.junk0 S F {[260]} BlockDemo.s1 ∧
  wp (freeGroup BlockDemo.junk0 true (desc 260)) (λ _ s', ∃ S' F', ready BlockDemo.junk0 S' F' ({[260]} ∖ {[260]}) s' ∧
    evolves BlockDemo.junk0 ({[260]} ∖ {[260]}) S (set_n_alloc (n_alloc_blocks BlockDemo.s1 - allocd 5) BlockDemo.s1) S' s') BlockDemo.s1.
Proof.
  destruct BlockDemo.ready1 as (S & F & Hr & Hb). exists S, F. split; [exact Hr|].
  apply (freeGroup_correct BlockDemo.junk0 true S F {[260]} BlockDemo.s1 260 5 Hr); [by apply elem_of_singleton|exact Hb].
Defined.

Lemma alloc_free_roundtrip_witness : ∃ S F, ready BlockDemo.junk0 S F {[260]} BlockDemo.s1 ∧
  wpb (p ← allocGroup BlockDemo.junk0 true 7; freeGroup BlockDemo.junk0 true p) (λ _ s', ∃ S' F',
    ready BlockDemo.junk0 S' F' {[260]} s' ∧
    n_alloc_blocks s' = n_alloc_blocks BlockDemo.s1 ∧ (∀ a, a ∈ ({[260]} : gset Z) → S' !! a = S !! a) ∧
    (∀ a k q, a ∈ ({[260]} : gset Z) → S !! a = Some k → own a k q → rd BlockDemo.junk0 s' q = rd BlockDemo.junk0 BlockDemo.s1 q)) BlockDemo.s1 ∧
  match (p ← allocGroup BlockDemo.junk0 true 7; freeGroup BlockDemo.junk0 true p) BlockDemo.s1 with
  | Ok (_, s) => n_alloc_blocks s = 5 | Err _ => False end.
Proof.
  destruct BlockDemo.ready1 as (S & F & Hr & Hb). exists S, F. split; [exact Hr|]. split; [|by vm_compute].
  apply (alloc_free_roundtrip BlockDemo.junk0 true S F {[260]} BlockDemo.s1 7 Hr); [lia|].
  rewrite <- (iv_total (rd_inv _ _ _ _ _ Hr)). by vm_compute.
Defined.

Lemma checkFreeListSanity_passes_witness :
  wp (checkFreeListSanity BlockDemo.junk0) (λ _ s', s' = BlockDemo.s1) BlockDemo.s1.
Proof.
  destruct BlockDemo.ready1 as (S & F & Hr & _). exact (checkFreeListSanity_passes BlockDemo.junk0 S F {[260]} BlockDemo.s1 Hr).
Defined.

Lemma countFreeList_inventory_witness :
  wp (countFreeList BlockDemo.junk0) (λ r s', s' = BlockDemo.s1 ∧
    r = wrapU 32 (252 * mblocks_allocated (mbs BlockDemo.s1) - n_alloc_blocks BlockDemo.s1)) BlockDemo.s1 ∧
  wrapU 32 (252 * mblocks_allocated (mbs BlockDemo.s1) - n_alloc_blocks BlockDemo.s1) = 247.
Proof.
  split; [|by vm_compute].
  destruct BlockDemo.ready1 as (S & F & Hr & _). exact (countFreeList_inventory BlockDemo.junk0 S F {[260]} BlockDemo.s1 Hr).
Defined.

Lemma freeChain_frees_witness : ∃ S F, ready BlockDemo.junk0 S F {[260]} BlockDemo.s1 ∧
  wp (freeChain BlockDemo.junk0 true (desc 260)) (λ _ s', ∃ S' F',
    ready BlockDemo.junk0 S' F' ({[260]} ∖ list_to_set [260]) s' ∧
    (∀ a, a ∈ ({[260]} ∖ list_to_set [260] : gset Z) → S' !! a = S !! a) ∧
    (∀ a n q, a ∈ ({[260]} ∖ list_to_set [260] : gset Z) → S !! a = Some n → own a n q → rd BlockDemo.junk0 s' q = rd BlockDemo.junk0 BlockDemo.s1 q) ∧
    n_alloc_blocks s' = n_alloc_blocks BlockDemo.s1 - sum_over allocd S [260]) BlockDemo.s1.
Proof.
  destruct BlockDemo.ready1 as (S & F & Hr & _). exists S, F. split; [exact Hr|].
  apply (freeChain_frees BlockDemo.junk0 true S F {[260]} BlockDemo.s1 (desc 260) [260] Hr).
  - split; [done|]. split; [done|]. exists END. split; [by vm_compute|done].
  - intros b ->%list_elem_of_singleton. by apply elem_of_singleton.
Defined.

Lemma countAllocdBlocks_chain_witness : ∃ S, S !! 260 = Some 5 ∧
  wp (countAllocdBlocks BlockDemo.junk0 (desc 260)) (λ r s', s' = BlockDemo.s1 ∧ r = wrapU 32 (sum_over allocd S [260])) BlockDemo.s1.
Proof.
  destruct BlockDemo.ready1 as (S & F & Hr & Hb). exists S. split; [exact Hb|].
  apply (countAllocdBlocks_chain BlockDemo.junk0 S F {[260]} BlockDemo.s1 (desc 260) [260] Hr).
  - split; [done|]. split; [done|]. exists END. split; [by vm_compute|done].
  - intros b ->%list_elem_of_singleton. by apply elem_of_singleton.
Defined.

Lemma returnMemoryToOS_correct_witness : ∃ S F, ready BlockDemo.junk0 S F ∅ BlockDemo.s2 ∧
  wp (returnMemoryToOS BlockDemo.junk0 3) (λ _ s', ∃ S' F' M, ready BlockDemo.junk0 S' F' ∅ s' ∧
    left_alone BlockDemo.junk0 ∅ S BlockDemo.s2 S' s' ∧ NoDup M ∧ (∀ x, x ∈ M ↔ in_megas S F x) ∧
    mblocks_allocated (mbs s') = mblocks_allocated (mbs BlockDemo.s2) - Z.min 3 (sum_over mblocks_of S M)) BlockDemo.s2 ∧
  match returnMemoryToOS BlockDemo.junk0 3 BlockDemo.s2 with Ok (_, s) => mblocks_allocated (mbs s) = 0 | Err _ => False end.
Proof.
  destruct BlockDemo.ready2 as (S & F & Hr). exists S, F. split; [exact Hr|]. split; [|by vm_compute].
  apply (returnMemoryToOS_correct BlockDemo.junk0 S F ∅ BlockDemo.s2 3 Hr); [lia|].
  intros x k Hx Hk. destruct (decide (252 <= k)) as [Hk252|Hk252].
  - destruct (mega_count BlockDemo.junk0 S F ∅ BlockDemo.s2 x k (rd_inv _ _ _ _ _ Hr) Hk Hk252) as (_ & _ & _ & _ & _ & _ & Hc).
    change (mblocks_allocated (mbs BlockDemo.s2)) with 1 in Hc. lia.
  - unfold mblocks_of. apply Z.lt_trans with 300; [|lia]. clear -Hk252. zlia.
Defined.

Lemma large_requests_skip_buckets_witness :
  allocGroup BlockDemo.junk0 true 200 BlockDemo.s1 =
    (bd ← (modify (λ s, set_n_alloc (wrapU 64 (n_alloc_blocks s + 200)) s);; bump_hw;; alloc_from_mblock BlockDemo.junk0 true 200);
     when true (checkFreeListSanity BlockDemo.junk0);; mret bd) BlockDemo.s1 ∧
  blocks (rd BlockDemo.junk0 BlockDemo.s1 (desc 265)) = 247.
Proof.
  split; [|by vm_compute]. destruct BlockDemo.ready1 as (S & F & Hr & _).
  apply (large_requests_skip_buckets BlockDemo.junk0 true S F {[260]} BlockDemo.s1 200 Hr). lia.
Defined.

Lemma Bdescr_finds_group_witness :
  start (rd BlockDemo.junk0 BlockDemo.s1 (Bdescr (4096 * 262 + 7))) = 4096 * 262 + 7 - (4096 * 262 + 7) mod 4096 ∧
  (if blocks (rd BlockDemo.junk0 BlockDemo.s1 (Bdescr (4096 * 262 + 7))) =? 0
   then link (rd BlockDemo.junk0 BlockDemo.s1 (Bdescr (4096 * 262 + 7))) else Bdescr (4096 * 262 + 7)) = desc 260.
Proof.
  destruct BlockDemo.ready1 as (S & F & Hr & Hb).
  apply (Bdescr_finds_group BlockDemo.junk0 S F {[260]} BlockDemo.s1 260 5 (4096 * 262 + 7) Hr); [by apply elem_of_singleton|exact Hb|].
  change ((4096 * 262 + 7) / 4096) with 262. lia.
Defined.

Lemma initBlockAllocator_ready_witness :
  wp initBlockAllocator (λ _ s', ready BlockDemo.junk0 ∅ ∅ ∅ s' ∧ sm_mutex s' = false ∧ mbs s' = MBlockDemo.empty) BlockDemo.before.
Proof. exact (initBlockAllocator_ready BlockDemo.junk0 BlockDemo.before MBlockDemo.empty_inv eq_refl). Defined.

Lemma returnMemoryToOS_overflow_witness :
  wp (returnMemoryToOS BlockDemo.junk0 1) (λ _ s', free_mblock_list s' = desc 260 ∧ ∃ y, 260 / 256 <= y < 260 / 256 + (4097 - 1) ∧
    ¬ in_heap (mblock_maps (mbs s')) y ∧
    os (mbs s') = (munmap (2 ^ 20 * y) (2 ^ 20 * 1) (os (mbs BlockDemo.big))).2) BlockDemo.big.
Proof.
  apply (returnMemoryToOS_overflow BlockDemo.junk0 {[260 := 1048828]} {[260]} ∅ BlockDemo.big 260 4097 1);
    [exact BlockDemo.big_ready|by apply elem_of_singleton|apply lookup_singleton_eq|done|lia|lia].
Defined.

Lemma allocGroup_wraps_witness :
  wp (allocGroup BlockDemo.junk0 true (2 ^ 32 - 1)) (λ p s', blocks (rd BlockDemo.junk0 s' p) = 252 ∧
    n_alloc_blocks s' = n_alloc_blocks BlockDemo.s2 + 252 * (2 ^ 24 + 1)) BlockDemo.s2.
Proof.
  destruct BlockDemo.ready2 as (S & F & Hr). destruct (BlockDemo.free2 S F Hr) as [HF HS].
  apply (allocGroup_wraps BlockDemo.junk0 true S F ∅ BlockDemo.s2 260 (2 ^ 32 - 1) Hr HF HS). lia.
Defined.

Lemma descriptor_lists_witness :
  wp (dbl_link_onto BlockDemo.junk0 192 0) (λ _ s', bucket BlockDemo.junk0 s' 0 [192; 64; 128]) BlockDemo.pair ∧
  wp (dbl_link_remove BlockDemo.junk0 128 0) (λ _ s', bucket BlockDemo.junk0 s' 0 [64]) BlockDemo.pair ∧
  wp (dbl_link_insert_after BlockDemo.junk0 192 128) (λ _ s', bucket BlockDemo.junk0 s' 0 [64; 128; 192]) BlockDemo.pair ∧
  wp (dbl_link_replace BlockDemo.junk0 192 128 0) (λ _ s', bucket BlockDemo.junk0 s' 0 [64; 192]) BlockDemo.pair.
Proof.
  apply (descriptor_lists BlockDemo.junk0 BlockDemo.pair 0 [64] 128 [] 192 BlockDemo.pair_bucket); [|done].
  by intros [?|[?|?%elem_of_nil]%elem_of_cons]%elem_of_cons.
Defined.
