(* ===== verification/WSDeque.v ===== *)
(** * The work-stealing deque (rts/WSDeque.c, rts/WSDeque.h)

    The lock-free deque of sparks: one owner pushes and pops at the bottom, any
    number of thieves steal at the top.  Every function is cut at its accesses
    to the fields that other threads write ([top], [bottom], the elements): a
    program counter says which access comes next and holds the local variables,
    and [owner_step] and [thief_step] make one access.  The owner and the
    thieves interleave freely ([step]).

    The barriers of the source order the accesses of a thread as they are
    written, so that memory is sequentially consistent between the accesses
    modelled here.  [topBound] is a field of its owner alone.  The ASSERTs of a
    DEBUG build are kept; they read [top] like any other access. *)
From S2P Require Import Prelude DList.
From stdpp Require Import list gmap.
Local Open Scope Z_scope.

(** [elements] is the array itself. *)
Record WSDeque : Type := mkDeque {
  size : Z;
  moduloSize : Z;
  top : Z;
  bottom : Z;
  topBound : Z;
  elements : list ptr
}.
Definition set_top x q : WSDeque := mkDeque (size q) (moduloSize q) x (bottom q) (topBound q) (elements q).
Definition set_bottom x q : WSDeque := mkDeque (size q) (moduloSize q) (top q) x (topBound q) (elements q).
Definition set_topBound x q : WSDeque := mkDeque (size q) (moduloSize q) (top q) (bottom q) x (elements q).
Definition set_elements x q : WSDeque := mkDeque (size q) (moduloSize q) (top q) (bottom q) (topBound q) x.

Notation NULL := END.

(** ** Creation *)

(** [do rounded <<= 1 while (0 != (val >>= 1))] *)
Fixpoint roundUp2_loop (fuel : nat) (rounded val : Z) : outcome Z :=
  match fuel with
  | O => Err Diverges
  | S fuel =>
    let rounded := wrapU 64 (Z.shiftl rounded 1) in
    let val := Z.shiftr val 1 in
    if val =? 0 then Ok rounded else roundUp2_loop fuel rounded val
  end.
Definition roundUp2 (val : Z) : outcome Z :=
  if val =? 0 then Err Barf else roundUp2_loop 64 1 val.

(** What the fresh array holds is not known. *)
Definition newWSDeque (junk : nat → ptr) (n : Z) : outcome WSDeque :=
  match roundUp2 n with
  | Ok realsize => Ok (mkDeque realsize (realsize - 1) 0 0 0 (junk <$> seq 0 (Z.to_nat realsize)))
  | Err e => Err e
  end.

(** ** Accesses *)
Definition slot (q : WSDeque) (i : Z) : nat := Z.to_nat (Z.land i (moduloSize q)).
Definition read_element (i : Z) : prog WSDeque ptr :=
  q ← get; deref (elements q !! slot q i).
Definition write_element (i : Z) (v : ptr) : prog WSDeque unit :=
  q ← get;
  _ ← deref (elements q !! slot q i);
  modify (set_elements (<[slot q i := v]> (elements q))).

(** [CASTOP]: whether the swap was made *)
Definition CASTOP (old new : Z) : prog WSDeque bool :=
  t ← gets top;
  if t =? old then modify (set_top new);; mret true else mret false.

(** The first and last elements of the array can be read. *)
Definition ASSERT_WSDEQUE_INVARIANTS : prog WSDeque unit :=
  q ← get;
  ASSERT (0 <? size q);;
  ASSERT (topBound q <=? top q);;
  _ ← deref (elements q !! 0%nat);
  _ ← deref (elements q !! Z.to_nat (size q - 1));
  mret tt.

(** ** The owner *)
Inductive owner_pc : Type :=
  | OIdle
  (* pushWSDeque *)
  | OPush (elem : ptr)
  | OPushTop (elem : ptr) (b : Z)
  | OPushElem (elem : ptr) (b : Z)
  | OPushBottom (elem : ptr) (b : Z)
  | OPushCheck (r : bool)
  | OPushRet (r : bool)
  (* popWSDeque *)
  | OPop
  | OPopBottom (b : Z)
  | OPopTop (b : Z)
  | OPopReset (t : Z)
  | OPopElem (t b : Z)
  | OPopCas (t : Z) (removed : ptr)
  | OPopFix (t : Z) (removed : ptr)
  | OPopCheck (removed : ptr)
  | OPopAssert (removed : ptr)
  | OPopRet (removed : ptr).

Definition owner_step (pc : owner_pc) : prog WSDeque owner_pc :=
  match pc with
  | OIdle => mret OIdle
  | OPush elem =>
    ASSERT_WSDEQUE_INVARIANTS;;
    q ← get;
    let sz := moduloSize q in
    let b := bottom q in
    let t := topBound q in
    if sz <=? wrapS 64 b - wrapS 64 t then mret (OPushTop elem b) else mret (OPushElem elem b)
  | OPushTop elem b =>
    q ← get;
    let t := top q in
    modify (set_topBound t);;
    if moduloSize q <=? wrapU 64 (b - t) then mret (OPushCheck false) else mret (OPushElem elem b)
  | OPushElem elem b => write_element b elem;; mret (OPushBottom elem b)
  | OPushBottom elem b => modify (set_bottom (wrapU 64 (b + 1)));; mret (OPushCheck true)
  | OPushCheck r => ASSERT_WSDEQUE_INVARIANTS;; mret (OPushRet r)
  | OPushRet r => mret (OPushRet r)
  | OPop =>
    ASSERT_WSDEQUE_INVARIANTS;;
    b ← gets bottom;
    mret (OPopBottom (wrapU 64 (b - 1)))
  | OPopBottom b => modify (set_bottom b);; mret (OPopTop b)
  | OPopTop b =>
    t ← gets top;
    modify (set_topBound t);;
    let currSize := wrapS 64 b - wrapS 64 t in
    if currSize <? 0 then mret (OPopReset t) else mret (OPopElem t b)
  | OPopReset t => modify (set_bottom t);; mret (OPopRet NULL)
  | OPopElem t b =>
    removed ← read_element b;
    let currSize := wrapS 64 b - wrapS 64 t in
    if 0 <? currSize then mret (OPopRet removed) else mret (OPopCas t removed)
  | OPopCas t removed =>
    ok ← CASTOP t (wrapU 64 (t + 1));
    mret (OPopFix t (if ok : bool then removed else NULL))
  | OPopFix t removed =>
    modify (set_bottom (wrapU 64 (t + 1)));;
    modify (set_topBound (wrapU 64 (t + 1)));;
    mret (OPopCheck removed)
  | OPopCheck removed =>
    ASSERT_WSDEQUE_INVARIANTS;;
    mret (OPopAssert removed)
  | OPopAssert removed =>
    q ← get;
    ASSERT (top q <=? bottom q);;
    mret (OPopRet removed)
  | OPopRet removed => mret (OPopRet removed)
  end.

(** ** Thieves

    [again]: the caller is [stealWSDeque], which tries again while the deque
    does not look empty; otherwise it is [stealWSDeque_]. *)
Inductive thief_pc : Type :=
  | TIdle
  | TTop (again : bool)
  | TBottom (again : bool) (t : Z)
  | TElem (again : bool) (t : Z)
  | TCas (again : bool) (t : Z) (stolen : ptr)
  | TLookTop
  | TLookBottom (t : Z)
  | TRet (stolen : ptr).

(** [stealWSDeque_] has returned [stolen]. *)
Definition stolen_or_again (again : bool) (stolen : ptr) : thief_pc :=
  if again && (stolen =? NULL) then TLookTop else TRet stolen.

Definition thief_step (pc : thief_pc) : prog WSDeque thief_pc :=
  match pc with
  | TIdle => mret TIdle
  | TTop again => t ← gets top; mret (TBottom again t)
  | TBottom again t =>
    b ← gets bottom;
    if wrapS 64 b - wrapS 64 t <=? 0 then mret (stolen_or_again again NULL) else mret (TElem again t)
  | TElem again t => stolen ← read_element t; mret (TCas again t stolen)
  | TCas again t stolen =>
    ok ← CASTOP t (wrapU 64 (t + 1));
    mret (stolen_or_again again (if ok : bool then stolen else NULL))
  | TLookTop => t ← gets top; mret (TLookBottom t)
  | TLookBottom t =>
    b ← gets bottom;
    if wrapS 64 b - wrapS 64 t <=? 0 then mret (TRet NULL) else mret (TTop true)
  | TRet stolen => mret (TRet stolen)
  end.

(** ** Operations that need exclusive access *)
Definition dequeElements (q : WSDeque) : Z := wrapS 64 (bottom q) - wrapS 64 (top q).
Definition looksEmptyWSDeque (q : WSDeque) : bool := dequeElements q <=? 0.
Definition discardElements (q : WSDeque) : WSDeque := set_top (bottom q) q.

(** A call of the owner, run to its end without thieves. *)
Definition owner_done (pc : owner_pc) : bool :=
  match pc with OIdle | OPushRet _ | OPopRet _ => true | _ => false end.
Fixpoint run_owner (fuel : nat) (pc : owner_pc) : prog WSDeque owner_pc :=
  if owner_done pc then mret pc else
  match fuel with
  | O => fail Diverges
  | S fuel => pc ← owner_step pc; run_owner fuel pc
  end.
Definition pushWSDeque (elem : ptr) : prog WSDeque bool :=
  pc ← run_owner 8 (OPush elem);
  mret (match pc with OPushRet r => r | _ => false end).
Definition popWSDeque : prog WSDeque ptr :=
  pc ← run_owner 8 OPop;
  mret (match pc with OPopRet v => v | _ => NULL end).

Definition thief_done (pc : thief_pc) : bool :=
  match pc with TIdle | TRet _ => true | _ => false end.
Fixpoint run_thief (fuel : nat) (pc : thief_pc) : prog WSDeque thief_pc :=
  if thief_done pc then mret pc else
  match fuel with
  | O => fail Diverges
  | S fuel => pc ← thief_step pc; run_thief fuel pc
  end.
Definition stealWSDeque_ : prog WSDeque ptr :=
  pc ← run_thief 8 (TTop false);
  mret (match pc with TRet v => v | _ => NULL end).
Definition stealWSDeque : prog WSDeque ptr :=
  pc ← run_thief 8 (TTop true);
  mret (match pc with TRet v => v | _ => NULL end).

(** ** Threads *)
Inductive event : Type :=
  | EPush (elem : ptr)
  | EPushed (r : bool)
  | EPop
  | EPopped (v : ptr)
  | ESteal (i : nat)
  | EStolen (i : nat) (v : ptr).

Record system : Type := mkSys {
  deque : WSDeque;
  owner : owner_pc;
  thieves : gmap nat thief_pc
}.

(** A call, a return, or one access of a call in progress.  What is pushed is
    not NULL, which pop and steal return for a failure. *)
Inductive step : system → option event → system → Prop :=
  | step_push q ths elem :
    elem ≠ NULL →
    step (mkSys q OIdle ths) (Some (EPush elem)) (mkSys q (OPush elem) ths)
  | step_pushed q ths r :
    step (mkSys q (OPushRet r) ths) (Some (EPushed r)) (mkSys q OIdle ths)
  | step_pop q ths :
    step (mkSys q OIdle ths) (Some EPop) (mkSys q OPop ths)
  | step_popped q ths v :
    step (mkSys q (OPopRet v) ths) (Some (EPopped v)) (mkSys q OIdle ths)
  | step_steal q o ths i again :
    default TIdle (ths !! i) = TIdle →
    step (mkSys q o ths) (Some (ESteal i)) (mkSys q o (<[i := TTop again]> ths))
  | step_stolen q o ths i v :
    ths !! i = Some (TRet v) →
    step (mkSys q o ths) (Some (EStolen i v)) (mkSys q o (<[i := TIdle]> ths))
  | step_owner q q' o o' ths :
    owner_done o = false → owner_step o q = Ok (o', q') →
    step (mkSys q o ths) None (mkSys q' o' ths)
  | step_thief q q' o ths i pc pc' :
    ths !! i = Some pc → thief_done pc = false → thief_step pc q = Ok (pc', q') →
    step (mkSys q o ths) None (mkSys q' o (<[i := pc']> ths)).

(** A run and its history, the calls and returns in order. *)
Inductive steps (s : system) : list event → system → Prop :=
  | steps_nil : steps s [] s
  | steps_snoc tr s1 e s2 : steps s tr s1 → step s1 e s2 → steps s (tr ++ option_list e) s2.

Definition start_sys (q : WSDeque) : system := mkSys q OIdle ∅.
