(* ===== verification/WSDequeSpec.v ===== *)
(** * The work-stealing deque implements an abstract deque

    The abstract deque is a list; push, pop and steal take effect in one step
    between their call and their return.  The invariant relates a state of
    [WSDeque] to one of the abstract deque, and every access of a thread is
    either invisible or the effect of the operation it belongs to. *)
From stdpp Require Import list gmap.
From S2P Require Import Prelude DList WSDeque.
Local Open Scope Z_scope.

(** ** The abstract deque *)
Inductive spec_owner : Type :=
  | SIdle
  | SPush (elem : ptr)
  | SPushed (r : bool)
  | SPop
  | SPopped (v : ptr).
Inductive spec_thief : Type :=
  | SNone
  | SSteal
  | SStolen (v : ptr).
Record spec : Type := mkSpec {
  contents : list ptr;
  sowner : spec_owner;
  sthieves : gmap nat spec_thief
}.

(** At most [cap] elements.  Push fails when the deque is full, pop when it is
    empty; a steal may always fail. *)
Inductive spec_step (cap : Z) : spec → option event → spec → Prop :=
  | spec_push vs ths elem :
    spec_step cap (mkSpec vs SIdle ths) (Some (EPush elem)) (mkSpec vs (SPush elem) ths)
  | spec_push_ok vs ths elem :
    Z.of_nat (length vs) < cap →
    spec_step cap (mkSpec vs (SPush elem) ths) None (mkSpec (vs ++ [elem]) (SPushed true) ths)
  | spec_push_full vs ths elem :
    cap <= Z.of_nat (length vs) →
    spec_step cap (mkSpec vs (SPush elem) ths) None (mkSpec vs (SPushed false) ths)
  | spec_pushed vs ths r :
    spec_step cap (mkSpec vs (SPushed r) ths) (Some (EPushed r)) (mkSpec vs SIdle ths)
  | spec_pop vs ths :
    spec_step cap (mkSpec vs SIdle ths) (Some EPop) (mkSpec vs SPop ths)
  | spec_pop_ok vs ths v :
    spec_step cap (mkSpec (vs ++ [v]) SPop ths) None (mkSpec vs (SPopped v) ths)
  | spec_pop_empty ths :
    spec_step cap (mkSpec [] SPop ths) None (mkSpec [] (SPopped NULL) ths)
  | spec_popped vs ths v :
    spec_step cap (mkSpec vs (SPopped v) ths) (Some (EPopped v)) (mkSpec vs SIdle ths)
  | spec_steal vs o ths i :
    default SNone (ths !! i) = SNone →
    spec_step cap (mkSpec vs o ths) (Some (ESteal i)) (mkSpec vs o (<[i := SSteal]> ths))
  | spec_steal_ok v vs o ths i :
    ths !! i = Some SSteal →
    spec_step cap (mkSpec (v :: vs) o ths) None (mkSpec vs o (<[i := SStolen v]> ths))
  | spec_steal_fail vs o ths i :
    ths !! i = Some SSteal →
    spec_step cap (mkSpec vs o ths) None (mkSpec vs o (<[i := SStolen NULL]> ths))
  | spec_stolen vs o ths i v :
    ths !! i = Some (SStolen v) →
    spec_step cap (mkSpec vs o ths) (Some (EStolen i v)) (mkSpec vs o (<[i := SNone]> ths)).

Inductive spec_steps (cap : Z) (a : spec) : list event → spec → Prop :=
  | spec_nil : spec_steps cap a [] a
  | spec_snoc tr a1 e a2 : spec_steps cap a tr a1 → spec_step cap a1 e a2 → spec_steps cap a (tr ++ option_list e) a2.

Definition spec_start : spec := mkSpec [] SIdle ∅.

Lemma spec_one cap a e a' : spec_step cap a e a' → spec_steps cap a (option_list e) a'.
Proof. intros Hs. exact (spec_snoc cap a [] a e a' (spec_nil _ _) Hs). Qed.

Lemma spec_trans cap a1 tr1 a2 tr2 a3 :
  spec_steps cap a1 tr1 a2 → spec_steps cap a2 tr2 a3 → spec_steps cap a1 (tr1 ++ tr2) a3.
Proof.
  intros H1. induction 1 as [|tr a e a' _ IH Hs]; [by rewrite app_nil_r|].
  rewrite app_assoc. by econstructor.
Qed.

(** ** Words *)
Lemma wrapS_wrapU w z : 0 < w → wrapS w (wrapU w z) = wrapS w z.
Proof. intros Hw. unfold wrapS, wrapU. rewrite Z.mod_mod; [done|]. apply Z.pow_nonzero; lia. Qed.

(** ** Slots of the array *)
Record shaped (q : WSDeque) : Prop := {
  sh_size : ∃ k, 1 <= k <= 40 ∧ size q = 2 ^ k;
  sh_mod : moduloSize q = size q - 1;
  sh_len : Z.of_nat (length (elements q)) = size q
}.

Lemma shaped_size q : shaped q → 2 <= size q <= 2 ^ 40.
Proof.
  intros [(k & Hk & ->) _ _]. split; [|apply Z.pow_le_mono_r; lia].
  change 2 with (2 ^ 1) at 1. apply Z.pow_le_mono_r; lia.
Qed.

Lemma slot_mod q i : shaped q → slot q i = Z.to_nat (i `mod` size q).
Proof.
  intros [(k & Hk & Es) Em _]. unfold slot. rewrite Em, Es.
  replace (2 ^ k - 1) with (Z.ones k) by (rewrite Z.ones_equiv; lia). by rewrite Z.land_ones by lia.
Qed.

Lemma slot_lookup q i : shaped q → ∃ v, elements q !! slot q i = Some v.
Proof.
  intros Hs. pose proof (shaped_size q Hs). apply lookup_lt_is_Some. rewrite slot_mod by done.
  pose proof (sh_len q Hs). pose proof (Z.mod_pos_bound i (size q)). lia.
Qed.

Lemma slot_ne q i j : shaped q → i < j < i + size q → slot q i ≠ slot q j.
Proof.
  intros Hs Hij E. pose proof (shaped_size q Hs). rewrite !slot_mod in E by done.
  pose proof (Z.mod_pos_bound i (size q)). pose proof (Z.mod_pos_bound j (size q)).
  assert (i mod size q = j mod size q) as E' by lia.
  pose proof (Z.div_mod i (size q) ltac:(lia)). pose proof (Z.div_mod j (size q) ltac:(lia)).
  assert (size q * (j / size q - i / size q) = j - i) as E2 by lia.
  destruct (decide (j / size q - i / size q <= 0)); [nia|]. destruct (decide (j / size q - i / size q = 1)) as [E3|]; [rewrite E3 in E2; lia|nia].
Qed.

Lemma asserts_ok q Q : shaped q → topBound q <= top q → Q tt q → wp ASSERT_WSDEQUE_INVARIANTS Q q.
Proof.
  intros Hs Hb HQ. pose proof (shaped_size q Hs). pose proof (sh_len q Hs) as Hl.
  unfold ASSERT_WSDEQUE_INVARIANTS. do 2 wp_step. wp_step. apply wp_assert; [by apply Z.ltb_lt; lia|].
  wp_step. apply wp_assert; [by apply Z.leb_le|].
  destruct (lookup_lt_is_Some_2 (elements q) 0) as [v Hv]; [lia|].
  destruct (lookup_lt_is_Some_2 (elements q) (Z.to_nat (size q - 1))) as [w Hw]; [lia|].
  wp_step. eapply wp_deref; [done|]. wp_step. eapply wp_deref; [done|]. by apply wp_ret.
Qed.

(** ** The invariant

    [L] is the end of the contents: [bottom], except while a pop has moved it
    and not yet taken effect. *)
Definition owner_rel (q : WSDeque) (L n : Z) (o : owner_pc) (so : spec_owner) : Prop :=
  match o with
  | OIdle => bottom q = L ∧ so = SIdle
  | OPush v => bottom q = L ∧ so = SPush v ∧ v ≠ NULL ∧ L < n
  | OPushTop v b => bottom q = L ∧ b = L ∧ so = SPush v ∧ v ≠ NULL ∧ L < n
  | OPushElem v b => bottom q = L ∧ b = L ∧ so = SPush v ∧ v ≠ NULL ∧ L < n ∧ L - top q < size q - 1
  | OPushBottom v b => bottom q = L ∧ b = L ∧ so = SPush v ∧ v ≠ NULL ∧ L < n ∧ L - top q < size q - 1 ∧
      elements q !! slot q b = Some v
  | OPushCheck r | OPushRet r => bottom q = L ∧ so = SPushed r
  | OPop => bottom q = L ∧ so = SPop
  | OPopBottom b => bottom q = L ∧ b = wrapU 64 (L - 1) ∧ so = SPop
  | OPopTop b => bottom q = b ∧ b = wrapU 64 (L - 1) ∧ so = SPop
  | OPopReset t => bottom q = wrapU 64 (L - 1) ∧ t = L ∧ top q = L ∧ so = SPopped NULL
  | OPopElem t b => 0 <= t <= top q ∧ bottom q = b ∧
      (t < b ∧ b = L ∧ (∃ v, elements q !! slot q b = Some v ∧ so = SPopped v) ∨
       t = b ∧ b = L - 1 ∧ so = SPop)
  | OPopCas t v => 0 <= t <= top q ∧ bottom q = t ∧ t = L - 1 ∧ elements q !! slot q t = Some v ∧ so = SPop
  | OPopFix t v => 0 <= t ∧ bottom q = t ∧ t = L - 1 ∧ top q = L ∧ so = SPopped v
  | OPopCheck v | OPopAssert v => bottom q = L ∧ so = SPopped v
  | OPopRet v => bottom q = L ∧ so = SPopped v
  end.

(** A thief that has looked at the array is right about it as long as [top] has
    not changed. *)
Definition thief_rel (q : WSDeque) (L : Z) (pc : thief_pc) (st : spec_thief) : Prop :=
  match pc with
  | TIdle => st = SNone
  | TTop _ | TLookTop => st = SSteal
  | TBottom _ t | TLookBottom t => st = SSteal ∧ 0 <= t <= top q
  | TElem _ t => st = SSteal ∧ 0 <= t <= top q ∧ (top q = t → t < L)
  | TCas _ t v => st = SSteal ∧ 0 <= t <= top q ∧ (top q = t → t < L ∧ elements q !! slot q t = Some v)
  | TRet v => st = SStolen v
  end.

Record related (n : Z) (s : system) (a : spec) (L : Z) : Prop := {
  re_shape : shaped (deque s);
  re_bound : 0 <= topBound (deque s) <= top (deque s) ∧ top (deque s) <= L <= n ∧ n < 2 ^ 62;
  re_full : L - top (deque s) <= size (deque s) - 1;
  re_len : Z.of_nat (length (contents a)) = L - top (deque s);
  re_elem i : top (deque s) <= i < L → elements (deque s) !! slot (deque s) i = contents a !! Z.to_nat (i - top (deque s));
  re_null : NULL ∉ contents a;
  re_owner : owner_rel (deque s) L n (owner s) (sowner a);
  re_thief i : thief_rel (deque s) L (default TIdle (thieves s !! i)) (default SNone (sthieves a !! i))
}.
