(* ===== verification/WSDequeSim.v ===== *)
(** * Every access of a thread is a step of the abstract deque *)
From stdpp Require Import list gmap.
From S2P Require Import Prelude DList WSDeque WSDequeSpec.
Local Open Scope Z_scope.

Arguments shaped_size {q} _.

(** ** What a step leaves alone *)
Lemma bottom_signed q L n o so :
  0 <= L < 2 ^ 62 → owner_rel q L n o so → wrapS 64 (bottom q) = L ∨ wrapS 64 (bottom q) = L - 1.
Proof.
  intros HL Ho. assert (wrapS 64 L = L) as E by (apply wrapS_small; lia).
  assert (wrapS 64 (L - 1) = L - 1) as E1 by (apply wrapS_small; lia).
  destruct o; cbn in Ho; destruct_and?; repeat match goal with H : _ ∨ _ |- _ => destruct H; destruct_and? end;
    subst; repeat match goal with H : bottom q = _ |- _ => rewrite H end; rewrite ?wrapS_wrapU by lia; try rewrite E; try rewrite E1; auto; lia.
Qed.

Lemma thief_mono q L q' L' pc st :
  thief_rel q L pc st → top q <= top q' →
  (∀ t, 0 <= t → top q' = t → top q = t → t < L → t < L' ∧ elements q' !! slot q' t = elements q !! slot q t) →
  thief_rel q' L' pc st.
Proof.
  intros Ht Htop Hkeep. destruct pc; cbn in *; destruct_and?; split_and?; try done; try lia.
  - intros E. assert (top q = t) as E' by lia. by apply Hkeep; auto.
  - intros E. assert (top q = t) as E' by lia. destruct H2 as [Hlt Hv]; [done|].
    destruct (Hkeep t) as [Hlt' Hv']; [lia|done..|]. split; [done|]. by rewrite Hv'.
Qed.

(** The fields that a step of the owner changes without an effect. *)
Lemma related_owner n q q' o o' ths vs so so' sths L :
  related n (mkSys q o ths) (mkSpec vs so sths) L →
  size q' = size q → moduloSize q' = moduloSize q → top q' = top q → elements q' = elements q →
  0 <= topBound q' <= top q → owner_rel q' L n o' so' →
  related n (mkSys q' o' ths) (mkSpec vs so' sths) L.
Proof.
  intros [Hs Hb Hf Hl He Hn Ho Ht] E1 E2 E3 E4 Htb Ho'. cbn in *.
  assert (∀ i, slot q' i = slot q i) as Es by (intros; unfold slot; by rewrite E2).
  constructor; cbn; rewrite ?E1, ?E3, ?E4; try done.
  - destruct Hs as [Hk Hm Hle]. constructor; rewrite ?E1, ?E2, ?E4; done.
  - lia.
  - intros i Hi. rewrite Es. by apply He.
  - intros i. eapply thief_mono; [apply Ht|lia|]. intros t _ _ _ Hlt. by rewrite Es, E4.
Qed.

(** A pop takes the last element. *)
Lemma related_pop n q q' o o' ths vs so sths L v :
  related n (mkSys q o ths) (mkSpec vs so sths) L → top q < L →
  elements q !! slot q (L - 1) = Some v →
  size q' = size q → moduloSize q' = moduloSize q → elements q' = elements q →
  (top q' = top q ∧ top q < L - 1 ∧ owner_rel q' (L - 1) n o' (SPopped v)) ∨
  (top q' = L ∧ top q = L - 1 ∧ owner_rel q' L n o' (SPopped v)) →
  0 <= topBound q' <= top q' →
  ∃ vs' L', vs = vs' ++ [v] ∧ related n (mkSys q' o' ths) (mkSpec vs' (SPopped v) sths) L'.
Proof.
  intros [Hs Hb Hf Hl He Hn Ho Ht] Hlt Hv E1 E2 E4 Hcase Htb. cbn in *.
  assert (∀ i, slot q' i = slot q i) as Es by (intros; unfold slot; by rewrite E2).
  assert (shaped q') as Hs'. { destruct Hs as [Hk Hm Hle]. constructor; rewrite ?E1, ?E2, ?E4; done. }
  destruct vs as [|v' vs _] using rev_ind; [cbn in Hl; lia|].
  rewrite length_app in Hl. cbn in Hl.
  assert (v' = v) as ->.
  { rewrite He in Hv by lia. rewrite lookup_app_r in Hv by lia. replace (_ - _)%nat with 0%nat in Hv by lia. by injection Hv. }
  exists vs. destruct Hcase as [(E3 & Hlt' & Ho')|(E3 & Hlt' & Ho')].
  - exists (L - 1). split; [done|]. constructor; cbn; rewrite ?E1, ?E3, ?E4; try done; try lia.
    + intros i Hi. rewrite Es, He by lia. rewrite lookup_app_l by lia. done.
    + intros Hin. apply Hn. apply elem_of_app. by left.
    + intros i. eapply thief_mono; [apply Ht|lia|]. intros t _ E _ _. rewrite Es, E4. split; [lia|done].
  - exists L. split; [done|]. assert (vs = []) as -> by (destruct vs; [done|cbn in Hl; lia]).
    constructor; cbn; rewrite ?E1, ?E3, ?E4; try done; try lia.
    + by intros ?%elem_of_nil.
    + intros i. eapply thief_mono; [apply Ht|lia|]. intros t _ E E' _. lia.
Qed.

(** A push appends. *)
Lemma related_push n q o ths vs sths L v so :
  related n (mkSys q o ths) (mkSpec vs so sths) L → v ≠ NULL → L < n → L - top q < size q - 1 →
  elements q !! slot q L = Some v →
  related n (mkSys (set_bottom (L + 1) q) (OPushCheck true) ths) (mkSpec (vs ++ [v]) (SPushed true) sths) (L + 1).
Proof.
  intros [Hs Hb Hf Hl He Hn Ho Ht] Hv HLn Hfull Hel. cbn in *.
  constructor; cbn; try done; try lia.
  - destruct Hs as [Hk Hm Hle]. by constructor.
  - rewrite length_app. cbn. lia.
  - intros i Hi. change (slot (set_bottom (L + 1) q) i) with (slot q i). destruct (decide (i = L)) as [->|].
    + rewrite Hel. rewrite lookup_app_r by lia. replace (_ - _)%nat with 0%nat by lia. done.
    + rewrite He by lia. rewrite lookup_app_l by lia. done.
  - rewrite elem_of_app, list_elem_of_singleton. naive_solver.
  - intros i. eapply thief_mono; [apply Ht|cbn; lia|]. intros t _ _ _ Hlt. split; [lia|done].
Qed.

(** The free slot at [L] is written. *)
Lemma related_write n q ths vs sths L v :
  related n (mkSys q (OPushElem v L) ths) (mkSpec vs (SPush v) sths) L →
  related n (mkSys (set_elements (<[slot q L := v]> (elements q)) q) (OPushBottom v L) ths) (mkSpec vs (SPush v) sths) L.
Proof.
  intros [Hs Hb Hf Hl He Hn Ho Ht]. cbn in *. destruct Ho as (Eb & _ & _ & Hv & HLn & Hfull).
  set (q' := set_elements _ q). assert (∀ i, slot q' i = slot q i) as Es by done.
  assert (∀ i, top q <= i < L → elements q' !! slot q' i = elements q !! slot q i) as Hkeep.
  { intros i Hi. rewrite Es. cbn. apply list_lookup_insert_ne. apply not_eq_sym, slot_ne; [done|lia]. }
  constructor; cbn; try done.
  - destruct Hs as [Hk Hm Hle]. constructor; cbn; rewrite ?length_insert; done.
  - intros i Hi. change (slot q' i) with (slot q i). rewrite <- He by done. by apply Hkeep.
  - split_and!; try done. change (slot q' L) with (slot q L). apply list_lookup_insert_eq.
    destruct (slot_lookup q L Hs) as [w Hw]. by eapply lookup_lt_Some.
  - intros i. eapply thief_mono; [apply Ht|cbn; lia|]. intros t Ht0 Etop _ Hlt. split; [done|]. apply Hkeep.
    change (top q') with (top q) in Etop. lia.
Qed.

(** ** The owner *)
Lemma wp_read_element q i v Q : elements q !! slot q i = Some v → Q v q → wp (read_element i) Q q.
Proof. intros Hv HQ. unfold read_element. do 2 wp_step. by eapply wp_deref. Qed.

Lemma wp_write_element q i v Q :
  shaped q → Q tt (set_elements (<[slot q i := v]> (elements q)) q) → wp (write_element i v) Q q.
Proof.
  intros Hs HQ. destruct (slot_lookup q i Hs) as [w Hw]. unfold write_element. do 3 wp_step.
  eapply wp_deref; [done|]. by apply wp_modify.
Qed.

Lemma wp_castop q old new Q :
  (top q = old → Q true (set_top new q)) → (top q ≠ old → Q false q) → wp (CASTOP old new) Q q.
Proof.
  intros H1 H2. unfold CASTOP. do 2 wp_step. destruct (top q =? old) eqn:E.
  - do 3 wp_step. apply H1. by apply Z.eqb_eq.
  - apply wp_ret, H2. by apply Z.eqb_neq.
Qed.

(** The abstract deque follows a step of the owner. *)
Definition follows (n : Z) (q : WSDeque) (ths : gmap nat thief_pc) (a : spec) (q' : WSDeque) (o' : owner_pc) : Prop :=
  ∃ a' L', spec_steps (size q - 1) a [] a' ∧ related n (mkSys q' o' ths) a' L' ∧ size q' = size q.

Lemma follows_silent n q o so ths vs sths L q' o' :
  related n (mkSys q o ths) (mkSpec vs so sths) L →
  size q' = size q → moduloSize q' = moduloSize q → top q' = top q → elements q' = elements q →
  0 <= topBound q' <= top q → owner_rel q' L n o' so →
  follows n q ths (mkSpec vs so sths) q' o'.
Proof.
  intros Hr E1 E2 E3 E4 Hb Ho. exists (mkSpec vs so sths), L. split_and!; [constructor| |done].
  by eapply related_owner.
Qed.

Lemma follows_effect n q ths a q' o' a' L' :
  spec_step (size q - 1) a None a' → related n (mkSys q' o' ths) a' L' → size q' = size q →
  follows n q ths a q' o'.
Proof. intros Hst Hr E. exists a', L'. split_and!; [exact (spec_one _ _ _ _ Hst)|done|done]. Qed.

(** A step without an effect: what is left is the owner's program counter. *)
Ltac silent Hr := eapply follows_silent; [exact Hr|reflexivity..|cbn; lia|cbn; split_and?; try done].

Lemma owner_push_ok n q o ths a L :
  related n (mkSys q o ths) a L →
  match o with OPush _ | OPushTop _ _ | OPushElem _ _ | OPushBottom _ _ | OPushCheck _ => True | _ => False end →
  wp (owner_step o) (λ o' q', follows n q ths a q' o') q.
Proof.
  intros Hr Hpc. destruct a as [vs so sths]. pose proof Hr as [Hs Hb Hf Hl He Hn Ho Ht]. cbn in Hs, Hb, Hf, Hl, Ho.
  destruct o; try done; clear Hpc; cbn in Ho; cbn [owner_step]; destruct_and?; subst.
  - (* the bound on top *)
    wp_step. apply asserts_ok; [done|lia|]. do 2 wp_step.
    destruct (_ <=? _) eqn:E; wp_step; silent Hr.
    apply Z.leb_gt in E. rewrite !wrapS_small, (sh_mod _ Hs) in E by lia. lia.
  - (* top itself *)
    do 4 wp_step. destruct (_ <=? _) eqn:E; wp_step.
    + eapply follows_effect; [apply spec_push_full| |done].
      * apply Z.leb_le in E. rewrite wrapU_small, (sh_mod _ Hs) in E by lia. lia.
      * eapply related_owner; [exact Hr|done..|cbn; lia|done].
    + silent Hr.
      apply Z.leb_gt in E. rewrite wrapU_small, (sh_mod _ Hs) in E by lia. lia.
  - (* the element *)
    wp_step. apply wp_write_element; [done|]. wp_step. exists (mkSpec vs (SPush elem) sths), (bottom q).
    split_and!; [constructor| |done]. by apply related_write.
  - (* the push takes effect *)
    do 2 wp_step. wp_step. rewrite (wrapU_small 64 (bottom q + 1)) by lia.
    eapply follows_effect; [apply spec_push_ok; lia| |done]. by apply (related_push n q (OPushBottom elem (bottom q)) ths vs sths (bottom q) elem (SPush elem)).
  - wp_step. apply asserts_ok; [done|lia|]. wp_step. silent Hr.
Qed.

Lemma owner_pop_ok n q o ths a L :
  related n (mkSys q o ths) a L →
  match o with OPop | OPopBottom _ | OPopTop _ | OPopReset _ | OPopElem _ _ | OPopCas _ _ | OPopFix _ _ | OPopCheck _ | OPopAssert _ => True | _ => False end →
  wp (owner_step o) (λ o' q', follows n q ths a q' o') q.
Proof.
  intros Hr Hpc. destruct a as [vs so sths]. pose proof Hr as [Hs Hb Hf Hl He Hn Ho Ht]. cbn in Hs, Hb, Hf, Hl, He, Ho.
  destruct o; try done; clear Hpc; cbn in Ho; cbn [owner_step].
  - destruct Ho as [Eb ->]. wp_step. apply asserts_ok; [done|lia|]. do 2 wp_step. wp_step. subst.
    silent Hr; by subst.
  - destruct Ho as (Ebq & Eb & ->). do 3 wp_step. silent Hr.
  - (* pop reads top *)
    destruct Ho as (Ebq & Eb & ->). do 4 wp_step. assert (wrapS 64 b = L - 1) as Ebs by (rewrite Eb, wrapS_wrapU, wrapS_small by lia; lia).
    rewrite Ebs, (wrapS_small 64 (top q)) by lia. destruct (_ <? 0) eqn:E; wp_step.
    + apply Z.ltb_lt in E. assert (vs = []) as -> by (destruct vs; [done|cbn in Hl; lia]).
      eapply follows_effect; [apply spec_pop_empty| |done].
      eapply related_owner; [exact Hr|done..|cbn; lia|]. cbn. split_and!; [congruence|lia|lia|done].
    + apply Z.ltb_ge in E. rewrite wrapU_small in Eb by lia. subst b.
      destruct (slot_lookup q (L - 1) Hs) as [v Hv]. destruct (decide (top q = L - 1)) as [Et|Et].
      * silent Hr; [lia|]. right. split_and!; [lia|lia|done].
      * destruct (related_pop n q (set_topBound (top q) q) (OPopTop (bottom q)) (OPopElem (top q) (bottom q)) ths vs SPop sths L v) as (vs' & L' & -> & Hr');
          [exact Hr|lia|done|done|done|done| |cbn; lia|].
        { left. cbn. split_and!; [done|lia|lia|lia|done|]. left. split_and!; [lia|done|]. exists v. by rewrite Eb. }
        eapply follows_effect; [apply spec_pop_ok|exact Hr'|done].
  - destruct Ho as (Ebq & -> & Et & ->). do 3 wp_step. silent Hr.
  - (* pop reads the element *)
    destruct Ho as (Ht0 & Ebq & Hcase). wp_step. destruct (slot_lookup q b Hs) as [w Hw]. eapply wp_read_element; [done|].
    destruct Hcase as [(Hlt & -> & v & Hv & ->)|(-> & -> & ->)].
    + rewrite !wrapS_small by lia. rewrite (proj2 (Z.ltb_lt 0 (L - t))) by lia. wp_step.
      rewrite Hv in Hw. injection Hw as <-. silent Hr.
    + rewrite Z.sub_diag. change (0 <? 0) with false. cbv iota. wp_step.
      silent Hr; lia.
  - (* pop and the thieves compete for the last element *)
    destruct Ho as (Ht0 & Ebq & EtL & Hv & ->). wp_step. rewrite (wrapU_small 64 (t + 1)) by lia.
    apply wp_castop; intros Etop; wp_step.
    + destruct (related_pop n q (set_top (t + 1) q) (OPopCas t removed) (OPopFix t removed) ths vs SPop sths L removed) as (vs' & L' & -> & Hr');
        [exact Hr|lia|by replace (L - 1) with t by lia|done|done|done| |cbn; lia|].
      { right. cbn. split_and!; try done; lia. }
      eapply follows_effect; [apply spec_pop_ok|exact Hr'|done].
    + assert (vs = []) as -> by (destruct vs; [done|cbn in Hl; lia]).
      eapply follows_effect; [apply spec_pop_empty| |done].
      eapply related_owner; [exact Hr|done|done|done|done|lia|]. cbn. split_and!; try done; lia.
  - destruct Ho as (Ht0 & Ebq & EtL & Etop & ->). do 3 wp_step. wp_step. wp_step. rewrite (wrapU_small 64 (t + 1)) by lia.
    silent Hr. lia.
  - destruct Ho as (Ebq & ->). wp_step. apply asserts_ok; [done|lia|]. wp_step. silent Hr.
  - destruct Ho as (Ebq & ->). do 3 wp_step. apply wp_assert; [apply Z.leb_le; lia|]. wp_step. silent Hr.
Qed.

(** ** Thieves *)
Lemma related_thief n q o ths vs so sths L i pc sths' :
  related n (mkSys q o ths) (mkSpec vs so sths) L →
  thief_rel q L pc (default SNone (sths' !! i)) → (∀ j, j ≠ i → sths' !! j = sths !! j) →
  related n (mkSys q o (<[i := pc]> ths)) (mkSpec vs so sths') L.
Proof.
  intros [Hs Hb Hf Hl He Hn Ho Ht] Hi Hj. constructor; try done. intros j. cbn.
  destruct (decide (j = i)) as [->|Hne]; [by rewrite lookup_insert_eq|].
  rewrite lookup_insert_ne, Hj by done. apply Ht.
Qed.

Lemma owner_top q L n o so :
  owner_rel q L n o so → top q < L → owner_rel (set_top (top q + 1) q) L n o so.
Proof.
  intros Ho Hlt. destruct o; cbn in *; try change (slot (set_top _ q) ?i) with (slot q i); destruct_and?; split_and?; try done; lia.
Qed.

(** A steal takes the first element. *)
Lemma related_steal n q o ths vs so sths L i v :
  related n (mkSys q o ths) (mkSpec vs so sths) L → top q < L → elements q !! slot q (top q) = Some v →
  ∃ vs', vs = v :: vs' ∧ v ≠ NULL ∧
    related n (mkSys (set_top (top q + 1) q) o (<[i := TRet v]> ths)) (mkSpec vs' so (<[i := SStolen v]> sths)) L.
Proof.
  intros [Hs Hb Hf Hl He Hn Ho Ht] Hlt Hv. cbn in *.
  destruct vs as [|v' vs]; [cbn in Hl; lia|].
  assert (v' = v) as ->.
  { rewrite He in Hv by lia. rewrite Z.sub_diag in Hv. by injection Hv. }
  exists vs. split; [done|]. split; [intros ->; apply Hn; by left|].
  apply (related_thief n _ _ _ _ _ sths); [|by rewrite lookup_insert_eq|intros; by rewrite lookup_insert_ne].
  constructor; cbn; try done; try lia.
  - destruct Hs as [Hk Hm Hle]. by constructor.
  - cbn in Hl. lia.
  - intros j Hj. change (slot (set_top (top q + 1) q) j) with (slot q j). rewrite He by lia.
    replace (Z.to_nat (j - top q)) with (Datatypes.S (Z.to_nat (j - (top q + 1)))) by lia. done.
  - intros Hin. apply Hn. by right.
  - by apply owner_top.
  - intros j. eapply thief_mono; [apply Ht|cbn; lia|]. cbn. lia.
Qed.

Definition tfollows (n : Z) (q : WSDeque) (o : owner_pc) (ths : gmap nat thief_pc) (i : nat) (a : spec) (q' : WSDeque) (pc' : thief_pc) : Prop :=
  ∃ a' L', spec_steps (size q - 1) a [] a' ∧ related n (mkSys q' o (<[i := pc']> ths)) a' L' ∧ size q' = size q.

Lemma tfollows_silent n q o ths vs so sths L i pc :
  related n (mkSys q o ths) (mkSpec vs so sths) L → sths !! i = Some SSteal → thief_rel q L pc SSteal →
  tfollows n q o ths i (mkSpec vs so sths) q pc.
Proof.
  intros Hr Hi Hpc. exists (mkSpec vs so sths), L. split_and!; [constructor| |done].
  apply (related_thief n _ _ _ _ _ sths); [done|by rewrite Hi|done].
Qed.

(** A failed attempt: the call returns NULL, or tries again. *)
Lemma tfollows_fail n q o ths vs so sths L i again :
  related n (mkSys q o ths) (mkSpec vs so sths) L → sths !! i = Some SSteal →
  tfollows n q o ths i (mkSpec vs so sths) q (stolen_or_again again NULL).
Proof.
  intros Hr Hi. destruct again; cbn; [by eapply tfollows_silent|].
  exists (mkSpec vs so (<[i := SStolen NULL]> sths)), L. split_and!; [| |done].
  - exact (spec_one _ _ _ _ (spec_steal_fail _ vs so sths i Hi)).
  - apply (related_thief n _ _ _ _ _ sths); [done|by rewrite lookup_insert_eq|intros; by rewrite lookup_insert_ne].
Qed.

Lemma thief_ok n q o ths a L i pc :
  related n (mkSys q o ths) a L → ths !! i = Some pc → thief_done pc = false →
  wp (thief_step pc) (λ pc' q', tfollows n q o ths i a q' pc') q.
Proof.
  intros Hr Hpc Hdone. destruct a as [vs so sths]. pose proof Hr as [Hs Hb Hf Hl He Hn Ho Ht]. cbn in Hs, Hb, Hf, Hl, He, Ho.
  specialize (Ht i). cbn in Ht. rewrite Hpc in Ht. cbn in Ht.
  assert (default SNone (sths !! i) = SSteal → sths !! i = Some SSteal) as Hst.
  { destruct (sths !! i); cbn; [by intros ->|done]. }
  assert (wrapS 64 (bottom q) <= L) as Eb by (destruct (bottom_signed q L n o so ltac:(lia) Ho); lia).
  destruct pc; try done; cbn in Ht; cbn [thief_step].
  - do 3 wp_step. eapply tfollows_silent; [exact Hr|by apply Hst|]. cbn. split; [done|lia].
  - destruct Ht as [Ht Ht0]. do 2 wp_step. rewrite (wrapS_small 64 t) by lia.
    destruct (_ <=? 0) eqn:E; wp_step; [eapply tfollows_fail; [exact Hr|by apply Hst]|].
    apply Z.leb_gt in E. eapply tfollows_silent; [exact Hr|by apply Hst|]. cbn. split_and!; [done|lia..|].
    intros _. lia.
  - (* the element *)
    destruct Ht as (Ht & Ht0 & Hlt). wp_step. destruct (slot_lookup q t Hs) as [v Hv]. eapply wp_read_element; [done|]. wp_step.
    eapply tfollows_silent; [exact Hr|by apply Hst|]. cbn. split_and!; [done|lia..|]. intros Et. split; [by apply Hlt|done].
  - (* the swap *)
    destruct Ht as (Ht & Ht0 & Hlt). wp_step. rewrite (wrapU_small 64 (t + 1)) by lia.
    apply wp_castop; intros Et; wp_step; [|eapply tfollows_fail; [exact Hr|by apply Hst]].
    destruct (Hlt Et) as [HtL Hv]. subst t.
    destruct (related_steal n q o ths vs so sths L i stolen Hr HtL Hv) as (vs' & -> & Hne & Hr').
    exists (mkSpec vs' so (<[i := SStolen stolen]> sths)), L.
    unfold stolen_or_again. rewrite (proj2 (Z.eqb_neq stolen NULL) Hne), andb_false_r.
    split_and!; [exact (spec_one _ _ _ _ (spec_steal_ok _ stolen vs' so sths i (Hst Ht)))|exact Hr'|done].
  - do 3 wp_step. eapply tfollows_silent; [exact Hr|by apply Hst|]. cbn. split; [done|lia].
  - destruct Ht as [Ht Ht0]. do 2 wp_step. destruct (_ <=? 0); wp_step.
    + exact (tfollows_fail n q o ths vs so sths L i false Hr (Hst Ht)).
    + eapply tfollows_silent; [exact Hr|by apply Hst|done].
Qed.
