(* ===== verification/WSDequeMain.v ===== *)
(** * Properties of the work-stealing deque *)
From stdpp Require Import list gmap.
From S2P Require Import Prelude DList WSDeque WSDequeSpec WSDequeSim.
Local Open Scope Z_scope.

(** ** Creation *)
Lemma roundUp2_loop_spec fuel k r val :
  0 < val < 2 ^ Z.of_nat fuel → 0 <= k → r = 2 ^ k → k + Z.log2 val + 1 < 64 →
  roundUp2_loop fuel r val = Ok (2 ^ (k + Z.log2 val + 1)).
Proof.
  revert k r val. induction fuel as [|fuel IH]; intros k r val Hval Hk -> Hlt; [cbn in Hval; lia|].
  cbn [roundUp2_loop]. pose proof (Z.log2_nonneg val).
  assert (wrapU 64 (Z.shiftl (2 ^ k) 1) = 2 ^ (k + 1)) as ->.
  { rewrite Z.shiftl_mul_pow2, <- Z.pow_add_r by lia. apply wrapU_small.
    split; [lia|apply Z.pow_lt_mono_r; lia]. }
  rewrite Z.shiftr_div_pow2 by lia. change (2 ^ 1) with 2.
  destruct (_ =? 0) eqn:E.
  - apply Z.eqb_eq in E. assert (val = 1) as -> by (pose proof (Z.div_mod val 2); pose proof (Z.mod_pos_bound val 2); lia).
    by rewrite Z.add_0_r.
  - apply Z.eqb_neq in E. assert (0 < val / 2) as Hpos by (pose proof (Z.div_pos val 2); lia).
    assert (Z.log2 val = Z.log2 (val / 2) + 1) as El.
    { pose proof (Z.div_mod val 2 ltac:(lia)) as Ed. pose proof (Z.mod_pos_bound val 2 ltac:(lia)).
      assert (val mod 2 = 0 ∨ val mod 2 = 1) as [E2|E2] by lia; rewrite E2 in Ed.
      - rewrite Ed at 1. rewrite Z.add_0_r, Z.log2_double by lia. lia.
      - rewrite Ed at 1. rewrite Z.log2_succ_double by lia. lia. }
    rewrite El in *. replace (k + (Z.log2 (val / 2) + 1) + 1) with (k + 1 + Z.log2 (val / 2) + 1) by lia.
    apply IH; [|lia|done|lia]. split; [done|]. rewrite Nat2Z.inj_succ, Z.pow_succ_r in Hval by lia.
    apply Z.div_lt_upper_bound; lia.
Qed.

Lemma newWSDeque_ok junk n :
  1 <= n < 2 ^ 40 → ∃ q, newWSDeque junk n = Ok q ∧ shaped q ∧ size q = 2 ^ (Z.log2 n + 1) ∧
    top q = 0 ∧ bottom q = 0 ∧ topBound q = 0.
Proof.
  intros Hn. unfold newWSDeque, roundUp2. rewrite (proj2 (Z.eqb_neq n 0)) by lia.
  assert (Z.log2 n < 40) by (apply Z.log2_lt_pow2; lia). pose proof (Z.log2_nonneg n).
  rewrite (roundUp2_loop_spec 64 0) by (try done; try lia). rewrite Z.add_0_l.
  eexists. split; [done|]. split_and!; try done. constructor; cbn.
  - exists (Z.log2 n + 1). split; [lia|done].
  - done.
  - rewrite length_fmap, length_seq. rewrite Z2Nat.id; [done|]. apply Z.pow_nonneg. lia.
Qed.

(** ** The simulation *)
Fixpoint pushes (tr : list event) : Z :=
  match tr with
  | [] => 0
  | EPush _ :: tr => 1 + pushes tr
  | _ :: tr => pushes tr
  end.

Lemma pushes_app tr1 tr2 : pushes (tr1 ++ tr2) = pushes tr1 + pushes tr2.
Proof. induction tr1 as [|[] tr1 IH]; cbn; lia. Qed.

Lemma pushes_nonneg tr : 0 <= pushes tr.
Proof. induction tr as [|[] tr IH]; cbn; lia. Qed.

Lemma related_start q : shaped q → top q = 0 → bottom q = 0 → topBound q = 0 → related 0 (start_sys q) spec_start 0.
Proof.
  intros Hs Et Eb Etb. pose proof (shaped_size Hs). constructor; cbn; try done; try lia.
  intros ?%elem_of_nil. done.
Qed.

Lemma related_more n n' s a L : related n s a L → n <= n' → n' < 2 ^ 62 → related n' s a L.
Proof.
  intros [Hs Hb Hf Hl He Hn Ho Ht] Hle Hlt. constructor; try done; try lia.
  destruct s as [q o ths]. cbn in *. destruct o; cbn in *; destruct_and?; split_and?; try done; lia.
Qed.

Lemma owner_ok n q o ths a L :
  related n (mkSys q o ths) a L → owner_done o = false → wp (owner_step o) (λ o' q', follows n q ths a q' o') q.
Proof. intros Hr Ho. destruct o; try done; first [by eapply owner_push_ok|by eapply owner_pop_ok]. Qed.

Lemma related_call n q o ths vs so sths L o' so' :
  related n (mkSys q o ths) (mkSpec vs so sths) L → owner_rel q L n o' so' →
  related n (mkSys q o' ths) (mkSpec vs so' sths) L.
Proof. intros Hr Ho. eapply related_owner; [exact Hr|done..| |done]. by destruct Hr as [_ []]. Qed.

Lemma simulation_step n s e s' a L :
  related n s a L → step s e s' → n + pushes (option_list e) < 2 ^ 62 →
  ∃ a' L', spec_steps (size (deque s) - 1) a (option_list e) a' ∧
    related (n + pushes (option_list e)) s' a' L' ∧ size (deque s') = size (deque s).
Proof.
  intros Hr Hst Hn. assert (0 <= n) as Hn0 by (destruct Hr as [_ []]; lia). destruct a as [vs so sths].
  destruct Hst as [q ths elem Hne|q ths r|q ths|q ths v|q o ths i again Hi|q o ths i v Hi|q q' o o' ths Ho Hstep|q q' o ths i pc pc' Hi Hpc Hstep];
    cbn in Hn |- *.
  - apply (related_more _ (n + 1)) in Hr as Hr'; [|lia..]. destruct (re_owner _ _ _ _ Hr) as [Eb Es]. cbn in Eb, Es. subst so.
    exists (mkSpec vs (SPush elem) sths), L. split_and!; [exact (spec_one _ _ _ _ (spec_push _ vs sths elem))| |done].
    eapply related_call; [exact Hr'|]. cbn. split_and!; try done. destruct Hr as [_ []]. lia.
  - rewrite Z.add_0_r. destruct (re_owner _ _ _ _ Hr) as [Eb Es]. cbn in Eb, Es. subst so.
    exists (mkSpec vs SIdle sths), L. split_and!; [exact (spec_one _ _ _ _ (spec_pushed _ vs sths r))| |done].
    by eapply related_call.
  - rewrite Z.add_0_r. destruct (re_owner _ _ _ _ Hr) as [Eb Es]. cbn in Eb, Es. subst so.
    exists (mkSpec vs SPop sths), L. split_and!; [exact (spec_one _ _ _ _ (spec_pop _ vs sths))| |done].
    by eapply related_call.
  - rewrite Z.add_0_r. destruct (re_owner _ _ _ _ Hr) as [Eb Es]. cbn in Eb, Es. subst so.
    exists (mkSpec vs SIdle sths), L. split_and!; [exact (spec_one _ _ _ _ (spec_popped _ vs sths v))| |done].
    by eapply related_call.
  - rewrite Z.add_0_r. pose proof (re_thief _ _ _ _ Hr i) as Ht. cbn in Ht. rewrite Hi in Ht. cbn in Ht.
    exists (mkSpec vs so (<[i := SSteal]> sths)), L. split_and!; [exact (spec_one _ _ _ _ (spec_steal _ vs so sths i Ht))| |done].
    apply (related_thief _ _ _ _ _ _ sths); [done|by rewrite lookup_insert_eq|intros; by rewrite lookup_insert_ne].
  - rewrite Z.add_0_r. pose proof (re_thief _ _ _ _ Hr i) as Ht. cbn in Ht. rewrite Hi in Ht. cbn in Ht.
    assert (sths !! i = Some (SStolen v)) as Hs by (destruct (sths !! i); cbn in Ht; [by subst|done]).
    exists (mkSpec vs so (<[i := SNone]> sths)), L. split_and!; [exact (spec_one _ _ _ _ (spec_stolen _ vs so sths i v Hs))| |done].
    apply (related_thief _ _ _ _ _ _ sths); [done|by rewrite lookup_insert_eq|intros; by rewrite lookup_insert_ne].
  - rewrite Z.add_0_r. pose proof (owner_ok _ _ _ _ _ _ Hr Ho) as Hwp.
    exact (wp_ok _ _ _ _ _ Hstep Hwp).
  - rewrite Z.add_0_r. pose proof (thief_ok _ _ _ _ _ _ _ _ Hr Hi Hpc) as Hwp.
    exact (wp_ok _ _ _ _ _ Hstep Hwp).
Qed.

Lemma simulation q tr s :
  shaped q → top q = 0 → bottom q = 0 → topBound q = 0 → steps (start_sys q) tr s → pushes tr < 2 ^ 62 →
  ∃ a L, spec_steps (size q - 1) spec_start tr a ∧ related (pushes tr) s a L ∧ size (deque s) = size q.
Proof.
  intros Hs Et Eb Etb Hst. induction Hst as [|tr s1 e s2 Hst IH Hstep]; intros Hlt.
  - exists spec_start, 0. split_and!; [constructor|by apply related_start|done].
  - rewrite pushes_app in *. pose proof (pushes_nonneg (option_list e)).
    destruct IH as (a & L & Ha & Hr & Esz); [lia|].
    destruct (simulation_step _ _ _ _ _ _ Hr Hstep) as (a' & L' & Ha' & Hr' & Esz'); [lia|].
    exists a', L'. rewrite Esz in Ha'. split_and!; [by eapply spec_trans|done|congruence].
Qed.

(** ** What is in the deque *)
Definition live (q : WSDeque) : list ptr :=
  omap (λ j, elements q !! slot q (top q + Z.of_nat j)) (seq 0 (Z.to_nat (bottom q - top q))).

Lemma omap_seq {A} (f : nat → option A) s n (l : list A) :
  length l = n → (∀ j, (j < n)%nat → f (s + j)%nat = l !! j) → omap f (seq s n) = l.
Proof.
  revert s n. induction l as [|x l IH]; intros s n Hl Hf; cbn in Hl; subst n; [done|].
  cbn [seq omap list_omap]. pose proof (Hf 0%nat ltac:(lia)) as H0. rewrite Nat.add_0_r in H0. rewrite H0. cbn. f_equal.
  apply IH; [done|]. intros j Hj. etrans; [|exact (Hf (Datatypes.S j) ltac:(lia))]. f_equal. lia.
Qed.

Lemma live_related n q ths a :
  related n (mkSys q OIdle ths) a (bottom q) → live q = contents a.
Proof.
  intros [Hs Hb Hf Hl He _ _ _]. cbn in *. apply omap_seq; [lia|]. intros j Hj. rewrite He by lia. f_equal. lia.
Qed.

(** A deque between calls. *)
Record quiet (q : WSDeque) : Prop := {
  qu_shape : shaped q;
  qu_bound : 0 <= topBound q <= top q ∧ top q <= bottom q < 2 ^ 61;
  qu_full : bottom q - top q <= size q - 1;
  qu_null : NULL ∉ live q
}.

Lemma live_lookup q j :
  quiet q → 0 <= j < bottom q - top q → elements q !! slot q (top q + j) = live q !! Z.to_nat j.
Proof.
  intros [Hs _ _ _] Hj. unfold live.
  assert (∀ s n (f : nat → option ptr), (∀ i, is_Some (f i)) → ∀ k, (k < n)%nat → omap f (seq s n) !! k = f (s + k)%nat) as Hgen.
  { intros s n f Hf. revert s. induction n as [|n IH]; intros s k Hk; [lia|]. cbn.
    destruct (Hf s) as [x Hx]. rewrite Hx. destruct k as [|k]; cbn; [by rewrite Nat.add_0_r|].
    rewrite IH by lia. f_equal. lia. }
  rewrite Hgen; [do 2 f_equal; lia| |lia]. intros i. destruct (slot_lookup q (top q + Z.of_nat i) Hs). eauto.
Qed.

Lemma live_length q : shaped q → top q <= bottom q → Z.of_nat (length (live q)) = bottom q - top q.
Proof.
  intros Hs Hle. unfold live.
  assert (∀ s n (f : nat → option ptr), (∀ i, is_Some (f i)) → length (omap f (seq s n)) = n) as Hgen.
  { intros s n f Hf. revert s. induction n as [|n IH]; intros s; [done|]. cbn.
    destruct (Hf s) as [x Hx]. rewrite Hx. cbn. by rewrite IH. }
  rewrite Hgen; [lia|]. intros i. destruct (slot_lookup q (top q + Z.of_nat i) Hs). eauto.
Qed.

Lemma quiet_related n q : quiet q → bottom q <= n < 2 ^ 62 → related n (mkSys q OIdle ∅) (mkSpec (live q) SIdle ∅) (bottom q).
Proof.
  intros Hq Hle. pose proof Hq as [Hs Hb Hf Hn]. constructor; cbn; try done; try lia.
  - apply live_length; [done|lia].
  - intros i Hi. rewrite <- live_lookup by (try done; lia). f_equal. f_equal. lia.
Qed.

Lemma related_quiet n q ths a L :
  related n (mkSys q OIdle ths) a L → n < 2 ^ 61 → quiet q ∧ live q = contents a ∧ bottom q <= n.
Proof.
  intros Hr Hn. pose proof Hr as [Hs Hb Hf Hl He Hnull Ho _]. cbn in *. destruct Ho as [<- _].
  pose proof (live_related _ _ _ _ Hr) as El. split; [|split; [done|lia]]. constructor; try done; try lia. by rewrite El.
Qed.

(** ** A call without interference *)

(** An upper bound on the accesses a call of the owner still makes. *)
Definition owner_measure (o : owner_pc) : nat :=
  match o with
  | OPush _ => 5 | OPushTop _ _ => 4 | OPushElem _ _ => 3 | OPushBottom _ _ => 2 | OPushCheck _ => 1
  | OPop => 8 | OPopBottom _ => 7 | OPopTop _ => 6 | OPopReset _ => 1 | OPopElem _ _ => 5 | OPopCas _ _ => 4
  | OPopFix _ _ => 3 | OPopCheck _ => 2 | OPopAssert _ => 1
  | _ => 0
  end%nat.

Definition returns {S A} (m : prog S A) (P : A → Prop) : Prop := ∀ s a s', m s = Ok (a, s') → P a.

Lemma returns_ret {S A} (a : A) (P : A → Prop) : P a → @returns S A (mret a) P.
Proof. by intros HP s ? ? [= <- _]. Qed.

Lemma returns_bind {S A B} (m : prog S A) (k : A → prog S B) P : (∀ a, returns (k a) P) → returns (m ≫= k) P.
Proof.
  intros Hk s b s'. unfold mbind, prog_bind. destruct (m s) as [[a s1]|]; [apply Hk|done].
Qed.

Lemma owner_step_measure o :
  owner_done o = false → returns (owner_step o) (λ o', (owner_measure o' < owner_measure o)%nat).
Proof.
  intros Ho. destruct o; try done; cbn [owner_step]; cbv zeta;
    repeat first [apply returns_bind; intros; cbv zeta | case_match]; apply returns_ret; cbn; lia.
Qed.

Lemma run_owner_ok n fuel q o a L :
  related n (mkSys q o ∅) a L → (owner_measure o <= fuel)%nat →
  wp (run_owner fuel o) (λ o' q', owner_done o' = true ∧ follows n q ∅ a q' o') q.
Proof.
  revert q o a L. induction fuel as [|fuel IH]; intros q o a L Hr Hm; cbn [run_owner]; destruct (owner_done o) eqn:Ho.
  1,3: apply wp_ret; split; [done|]; exists a, L; split_and!; [constructor|done|done].
  - destruct o; cbn in *; first [done|lia].
  - apply wp_bind. pose proof (owner_ok _ _ _ _ _ _ Hr Ho) as Hwp. apply wp_run in Hwp as (o1 & q1 & E & Hf).
    apply wp_run. exists o1, q1. split; [done|]. destruct Hf as (a1 & L1 & Ha1 & Hr1 & Es1).
    pose proof (owner_step_measure _ Ho _ _ _ E) as Hlt. cbv beta in Hlt.
    eapply wp_mono; [apply (IH q1 o1 a1 L1 Hr1); lia|]. intros o2 q2 [Hd (a2 & L2 & Ha2 & Hr2 & Es2)]. split; [done|].
    exists a2, L2. rewrite Es1 in Ha2. split_and!; [exact (spec_trans _ _ _ _ _ _ Ha1 Ha2)|done|congruence].
Qed.

(** The abstract calls, run alone. *)
Lemma spec_alone_push cap vs v a :
  spec_steps cap (mkSpec vs (SPush v) ∅) [] a →
  a = mkSpec vs (SPush v) ∅ ∨
  Z.of_nat (length vs) < cap ∧ a = mkSpec (vs ++ [v]) (SPushed true) ∅ ∨
  cap <= Z.of_nat (length vs) ∧ a = mkSpec vs (SPushed false) ∅.
Proof.
  remember [] as tr eqn:Etr. induction 1 as [|tr a1 e a2 _ IH Hst]; [by left|].
  apply app_eq_nil in Etr as [-> Ee]. destruct e; [done|]. specialize (IH eq_refl).
  destruct IH as [->|[[? ->]|[? ->]]]; inversion Hst; subst; naive_solver.
Qed.

Lemma spec_alone_pop cap vs a :
  spec_steps cap (mkSpec vs SPop ∅) [] a →
  a = mkSpec vs SPop ∅ ∨ (∃ vs' v, vs = vs' ++ [v] ∧ a = mkSpec vs' (SPopped v) ∅) ∨
  vs = [] ∧ a = mkSpec [] (SPopped NULL) ∅.
Proof.
  remember [] as tr eqn:Etr. induction 1 as [|tr a1 e a2 _ IH Hst]; [by left|].
  apply app_eq_nil in Etr as [-> Ee]. destruct e; [done|]. specialize (IH eq_refl).
  destruct IH as [->|[(? & ? & ? & ->)|[? ->]]]; inversion Hst; subst; naive_solver.
Qed.

Lemma push_alone q v :
  quiet q → v ≠ NULL → bottom q + 1 < 2 ^ 61 →
  wp (pushWSDeque v) (λ r q', quiet q' ∧ size q' = size q ∧ bottom q' <= bottom q + 1 ∧
    if r then Z.of_nat (length (live q)) < size q - 1 ∧ live q' = live q ++ [v]
    else size q - 1 <= Z.of_nat (length (live q)) ∧ live q' = live q) q.
Proof.
  intros Hq Hv Hlt. pose proof Hq as [_ Hb _ _]. pose proof (quiet_related (bottom q + 1) q Hq ltac:(lia)) as Hr.
  apply (related_call _ _ _ _ _ _ _ _ (OPush v) (SPush v)) in Hr; [|cbn; split_and!; try done; lia].
  unfold pushWSDeque. apply wp_bind. eapply wp_mono; [apply (run_owner_ok _ 8 _ _ _ _ Hr); cbn; lia|].
  intros o' q' [Ho (a' & L' & Ha & Hr' & Es)]. apply wp_ret.
  apply spec_alone_push in Ha. pose proof (re_owner _ _ _ _ Hr') as Hrel. cbn in Hrel.
  destruct Ha as [->|[[Hlen ->]|[Hlen ->]]]; destruct o'; cbn in Ho, Hrel; destruct_and?; simplify_eq;
    (apply (related_call _ _ _ _ _ _ _ _ OIdle SIdle) in Hr'; [|done]); apply related_quiet in Hr' as (Hq' & El & Hbot); try lia; done.
Qed.

Lemma pop_alone q :
  quiet q → 
  wp popWSDeque (λ v q', quiet q' ∧ size q' = size q ∧ bottom q' <= bottom q ∧
    (live q = live q' ++ [v] ∨ live q = [] ∧ live q' = [] ∧ v = NULL)) q.
Proof.
  intros Hq. pose proof Hq as [_ Hb _ _]. pose proof (quiet_related (bottom q) q Hq ltac:(lia)) as Hr.
  apply (related_call _ _ _ _ _ _ _ _ OPop SPop) in Hr; [|done].
  unfold popWSDeque. apply wp_bind. eapply wp_mono; [apply (run_owner_ok _ 8 _ _ _ _ Hr); cbn; lia|].
  intros o' q' [Ho (a' & L' & Ha & Hr' & Es)]. apply wp_ret.
  apply spec_alone_pop in Ha. pose proof (re_owner _ _ _ _ Hr') as Hrel. cbn in Hrel.
  destruct Ha as [->|[(vs' & v & E & ->)|[E ->]]]; destruct o'; cbn in Ho, Hrel; destruct_and?; simplify_eq;
    (apply (related_call _ _ _ _ _ _ _ _ OIdle SIdle) in Hr'; [|done]); apply related_quiet in Hr' as (Hq' & El & Hbot); try lia; cbn in El.
  - split_and!; [done|done|done|left; congruence].
  - split_and!; [done|done|done|right; done].
Qed.

Lemma run_thief_step fuel pc Q q :
  thief_done pc = false → wp (thief_step pc) (λ pc' q', wp (run_thief fuel pc') Q q') q → wp (run_thief (Datatypes.S fuel) pc) Q q.
Proof. intros Hd Hwp. cbn [run_thief]. rewrite Hd. by apply wp_bind. Qed.

Lemma run_thief_done fuel v Q q : Q (TRet v) q → wp (run_thief fuel (TRet v)) Q q.
Proof. intros HQ. destruct fuel; by apply wp_ret. Qed.

Lemma steal_alone q again :
  quiet q →
  wp (pc ← run_thief 8 (TTop again); mret (match pc with TRet v => v | _ => NULL end)) (λ v q', quiet q' ∧ size q' = size q ∧ bottom q' = bottom q ∧
    (live q = v :: live q' ∨ live q = [] ∧ live q' = [] ∧ v = NULL)) q.
Proof.
  intros Hq. pose proof Hq as [Hs Hb Hf Hn]. wp_step.
  apply run_thief_step; [done|]. cbn [thief_step]. do 3 wp_step.
  apply run_thief_step; [done|]. cbn [thief_step]. do 2 wp_step. rewrite !wrapS_small by lia.
  destruct (_ <=? 0) eqn:E; wp_step.
  - assert (live q = []) as El.
    { apply Z.leb_le in E. apply length_zero_iff_nil. pose proof (live_length q Hs). lia. }
    destruct again.
    + change (stolen_or_again true NULL) with TLookTop.
      apply run_thief_step; [done|]. cbn [thief_step]. do 3 wp_step.
      apply run_thief_step; [done|]. cbn [thief_step]. do 2 wp_step. rewrite !wrapS_small, E by lia.
      wp_step. apply run_thief_done. wp_step. split_and!; [done|done|done|by right].
    + change (stolen_or_again false NULL) with (TRet NULL). apply run_thief_done. wp_step. split_and!; [done|done|done|by right].
  - apply Z.leb_gt in E. apply run_thief_step; [done|]. cbn [thief_step]. wp_step.
    destruct (slot_lookup q (top q) Hs) as [v Hv]. eapply wp_read_element; [done|]. wp_step.
    apply run_thief_step; [done|]. cbn [thief_step]. wp_step. apply wp_castop; intros Etop; [|done].
    pose proof (related_steal _ _ _ _ _ _ _ _ 0%nat v (quiet_related (bottom q) q Hq ltac:(lia)) ltac:(lia) Hv) as (vs' & El & Hv0 & Hr').
    rewrite wrapU_small by lia. wp_step.
    unfold stolen_or_again. rewrite (proj2 (Z.eqb_neq v NULL) Hv0), andb_false_r. apply run_thief_done. wp_step.
    apply related_quiet in Hr' as (Hq' & El' & _); [|lia]. split_and!; [done|done|done|]. left. by rewrite El, El'.
Qed.

(** ** Accounts of a history *)
Record account : Type := mkAccount {
  last_push : ptr;
  accepted : list ptr;
  taken : list ptr
}.
Definition account_event (c : account) (e : event) : account :=
  match e with
  | EPush v => mkAccount v (accepted c) (taken c)
  | EPushed true => mkAccount (last_push c) (accepted c ++ [last_push c]) (taken c)
  | EPopped v | EStolen _ v => mkAccount (last_push c) (accepted c) (taken c ++ (if v =? NULL then [] else [v]))
  | _ => c
  end.
Definition account_of (tr : list event) : account := foldl account_event (mkAccount NULL [] []) tr.

Definition some_element (v : ptr) : list ptr := if v =? NULL then [] else [v].
Definition thief_holds (st : spec_thief) : list ptr := match st with SStolen v => some_element v | _ => [] end.
Definition thieves_hold (ths : gmap nat spec_thief) : list ptr := concat (thief_holds ∘ snd <$> map_to_list ths).

Lemma thieves_hold_insert ths i st :
  thieves_hold (<[i := st]> ths) ≡ₚ thief_holds st ++ thieves_hold (delete i ths).
Proof.
  unfold thieves_hold. rewrite <- insert_delete_eq. by rewrite map_to_list_insert by apply lookup_delete_eq.
Qed.

Lemma thieves_hold_delete ths i :
  thieves_hold ths ≡ₚ thief_holds (default SNone (ths !! i)) ++ thieves_hold (delete i ths).
Proof.
  destruct (ths !! i) as [st|] eqn:E; cbn.
  - rewrite <- (insert_id ths i st) at 1 by done. by rewrite thieves_hold_insert.
  - by rewrite delete_id.
Qed.

Definition owner_holds (so : spec_owner) : list ptr := match so with SPopped v => some_element v | _ => [] end.

(** What has been accepted is in the deque, on its way out, or out. *)
Record balanced (c : account) (a : spec) : Prop := {
  ba_sum : accepted c ++ (match sowner a with SPushed true => [last_push c] | _ => [] end) ≡ₚ
    taken c ++ contents a ++ owner_holds (sowner a) ++ thieves_hold (sthieves a);
  ba_push v : sowner a = SPush v → last_push c = v ∧ v ≠ NULL;
  ba_null : NULL ∉ contents a
}.

Lemma balanced_thief c a st i vs' :
  balanced c a → NULL ∉ vs' →
  thief_holds st ++ vs' ≡ₚ contents a ++ thief_holds (default SNone (sthieves a !! i)) →
  balanced c (mkSpec vs' (sowner a) (<[i := st]> (sthieves a))).
Proof.
  intros [Hsum Hp Hn] Hn' HP. constructor; cbn; [|done..].
  rewrite Hsum, thieves_hold_insert, (thieves_hold_delete _ i).
  apply Permutation_app_head.
  rewrite (Permutation_app_swap_app (owner_holds _)), (Permutation_app_swap_app (owner_holds _)).
  rewrite !app_assoc. apply Permutation_app_tail, Permutation_app_tail. by rewrite <- HP, Permutation_app_comm.
Qed.

Lemma some_element_ne v : v ≠ NULL → some_element v = [v].
Proof. intros Hv. unfold some_element. by rewrite (proj2 (Z.eqb_neq v NULL) Hv). Qed.

Lemma balanced_step cap c a e a' :
  balanced c a → spec_step cap a e a' → (∀ v, e = Some (EPush v) → v ≠ NULL) →
  balanced (foldl account_event c (option_list e)) a'.
Proof.
  intros Hb Hst Hnull. pose proof Hb as [Hsum Hp Hn].
  destruct Hst as [vs ths v|vs ths v Hlt|vs ths v Hle|vs ths r|vs ths|vs ths v|ths|vs ths v|vs o ths i Hi|v vs o ths i Hi|vs o ths i Hi|vs o ths i v Hi];
    cbn in Hsum, Hp, Hn |- *.
  - constructor; cbn; [done| |done]. intros ? [= <-]. eauto.
  - destruct (Hp v eq_refl) as [El Hv]. subst v. constructor; cbn; [|done|].
    + rewrite app_nil_r in Hsum. rewrite Hsum, <- !app_assoc. apply Permutation_app_head, Permutation_app_head, Permutation_app_comm.
    + rewrite elem_of_app, list_elem_of_singleton. naive_solver.
  - by constructor.
  - destruct r; constructor; cbn; try done. by rewrite app_nil_r.
  - by constructor.
  - assert (v ≠ NULL ∧ NULL ∉ vs) as [Hv Hvs] by (rewrite elem_of_app, list_elem_of_singleton in Hn; naive_solver).
    constructor; cbn; [|done..]. rewrite (some_element_ne v Hv), Hsum, <- !app_assoc. done.
  - by constructor.
  - constructor; cbn; [|done..]. rewrite Hsum, <- !app_assoc. by rewrite (Permutation_app_swap_app vs).
  - apply (balanced_thief c (mkSpec vs o ths)); [done..|]. cbn. by rewrite Hi, app_nil_r.
  - assert (v ≠ NULL ∧ NULL ∉ vs) as [Hv Hvs] by (rewrite elem_of_cons in Hn; naive_solver).
    apply (balanced_thief c (mkSpec (v :: vs) o ths)); [done..|]. cbn. by rewrite Hi, (some_element_ne v Hv), app_nil_r.
  - apply (balanced_thief c (mkSpec vs o ths)); [done..|]. cbn. by rewrite Hi, app_nil_r.
  - constructor; cbn; [|done..]. rewrite Hsum, (thieves_hold_insert ths i), (thieves_hold_delete ths i), Hi. cbn.
    rewrite <- !app_assoc. apply Permutation_app_head.
    fold (some_element v). by rewrite (Permutation_app_swap_app (owner_holds o)), (Permutation_app_swap_app vs).
Qed.

Lemma balanced_steps cap tr a :
  spec_steps cap spec_start tr a → (∀ v, EPush v ∈ tr → v ≠ NULL) → balanced (account_of tr) a.
Proof.
  induction 1 as [|tr a1 e a2 _ IH Hst]; intros Hnull.
  - constructor; cbn; [done..|]. by intros ?%elem_of_nil.
  - unfold account_of. rewrite foldl_app. eapply balanced_step; [|exact Hst|].
    + apply IH. intros v Hv. apply Hnull, elem_of_app. by left.
    + intros v ->. apply Hnull, elem_of_app. right. cbn. by apply list_elem_of_singleton.
Qed.

Lemma pushed_not_null s tr s' v : steps s tr s' → EPush v ∈ tr → v ≠ NULL.
Proof.
  induction 1 as [|tr s1 e s2 _ IH Hst]; [by intros ?%elem_of_nil|].
  rewrite elem_of_app. intros [Hv|Hv]; [by apply IH|].
  destruct Hst; cbn in Hv; try apply list_elem_of_singleton in Hv; try apply elem_of_nil in Hv; try done. by injection Hv as ->.
Qed.

(** ** Schedules

    A schedule names the steps of a run, so that a run can be evaluated. *)
Inductive move : Type :=
  | MPush (v : ptr)
  | MPop
  | MOwner
  | MReturn
  | MSteal (i : nat) (again : bool)
  | MThief (i : nat)
  | MStolen (i : nat).

Definition next (m : move) (s : system) : option (option event * system) :=
  let q := deque s in
  let ths := thieves s in
  match m, owner s with
  | MPush v, OIdle => if v =? NULL then None else Some (Some (EPush v), mkSys q (OPush v) ths)
  | MPop, OIdle => Some (Some EPop, mkSys q OPop ths)
  | MReturn, OPushRet r => Some (Some (EPushed r), mkSys q OIdle ths)
  | MReturn, OPopRet v => Some (Some (EPopped v), mkSys q OIdle ths)
  | MOwner, o => if owner_done o then None else
      match owner_step o q with Ok (o', q') => Some (None, mkSys q' o' ths) | Err _ => None end
  | MSteal i again, o =>
      match default TIdle (ths !! i) with
      | TIdle => Some (Some (ESteal i), mkSys q o (<[i := TTop again]> ths))
      | _ => None
      end
  | MThief i, o =>
      match ths !! i with
      | Some pc => if thief_done pc then None else
          match thief_step pc q with Ok (pc', q') => Some (None, mkSys q' o (<[i := pc']> ths)) | Err _ => None end
      | None => None
      end
  | MStolen i, o =>
      match ths !! i with
      | Some (TRet v) => Some (Some (EStolen i v), mkSys q o (<[i := TIdle]> ths))
      | _ => None
      end
  | _, _ => None
  end.
Fixpoint schedule (ms : list move) (s : system) : option (list event * system) :=
  match ms with
  | [] => Some ([], s)
  | m :: ms =>
    match next m s with
    | Some (e, s1) =>
      match schedule ms s1 with Some (tr, s2) => Some (option_list e ++ tr, s2) | None => None end
    | None => None
    end
  end.

Lemma next_step m s e s' : next m s = Some (e, s') → step s e s'.
Proof.
  destruct s as [q o ths]. unfold next. cbn. intros Hn.
  destruct m; repeat (case_match; try done); simplify_eq; try (by constructor); try (eapply step_thief; eauto); try (by eapply step_owner).
  constructor. by apply Z.eqb_neq.
Qed.

Lemma steps_cons s e s1 tr s2 : step s e s1 → steps s1 tr s2 → steps s (option_list e ++ tr) s2.
Proof.
  intros Hst. induction 1 as [|tr s2 e' s3 _ IH Hst'].
  - rewrite app_nil_r. exact (steps_snoc s [] s e s1 (steps_nil s) Hst).
  - rewrite app_assoc. by econstructor.
Qed.

Lemma schedule_steps ms s tr s' : schedule ms s = Some (tr, s') → steps s tr s'.
Proof.
  revert s tr. induction ms as [|m ms IH]; intros s tr; cbn; [intros [= <- <-]; constructor|].
  destruct (next m s) as [[e s1]|] eqn:E; [|done]. destruct (schedule ms s1) as [[tr' s2]|] eqn:E'; [|done].
  intros [= <- <-]. apply (steps_cons _ _ s1); [by eapply next_step|by apply IH].
Qed.

(** ** Properties *)

Definition is_ok {A} (r : outcome A) : Prop := match r with Ok _ => True | Err _ => False end.

(** A run of a fresh deque. *)
Lemma simulation_new junk n q tr s :
  1 <= n < 2 ^ 40 → newWSDeque junk n = Ok q → steps (start_sys q) tr s → pushes tr < 2 ^ 62 →
  ∃ a L, spec_steps (moduloSize q) spec_start tr a ∧ related (pushes tr) s a L.
Proof.
  intros Hn Hq Hst Hp. destruct (newWSDeque_ok junk n Hn) as (q' & Eq & Hs & _ & Et & Eb & Etb).
  assert (q' = q) as -> by congruence.
  destruct (simulation q tr s Hs Et Eb Etb Hst Hp) as (a & L & Ha & Hr & _). exists a, L.
  by rewrite (sh_mod _ Hs).
Qed.

(** C4: every history of calls and returns of a fresh deque, with one owner
    and any number of thieves interleaved access by access, is a history of the
    abstract deque in which push, pop and steal are atomic and at most
    [moduloSize] elements fit; and what the array holds between the calls of
    the owner is what the abstract deque contains. *)
Theorem wsdeque_linearizable junk n q tr s :
  1 <= n < 2 ^ 40 → newWSDeque junk n = Ok q → steps (start_sys q) tr s → pushes tr < 2 ^ 62 →
  ∃ a, spec_steps (moduloSize q) spec_start tr a ∧ (owner s = OIdle → live (deque s) = contents a).
Proof.
  intros Hn Hq Hst Hp. destruct (simulation_new junk n q tr s Hn Hq Hst Hp) as (a & L & Ha & Hr).
  exists a. split; [done|]. destruct s as [q' o ths]. cbn. intros ->.
  pose proof (re_owner _ _ _ _ Hr) as [EL _]. cbn in EL. rewrite <- EL in Hr. by apply live_related in Hr.
Qed.

(** One owner and two thieves: a push, then a pop that loses the race for the
    last element to a thief. *)
Definition race : list move :=
  [MPush 7; MOwner; MOwner; MOwner; MOwner; MReturn; MPop; MOwner; MSteal 0 true; MThief 0; MThief 0; MOwner; MThief 0;
   MSteal 1 false; MThief 1; MOwner; MThief 0; MOwner; MOwner; MOwner; MOwner; MOwner; MReturn; MStolen 0; MThief 1; MThief 1; MThief 1; MStolen 1].
Definition race_history : list event :=
  [EPush 7; EPushed true; EPop; ESteal 0; ESteal 1; EPopped NULL; EStolen 0 7; EStolen 1 NULL].
Definition race_start : WSDeque := mkDeque 2 1 0 0 0 [5; 5].
Definition race_end : WSDeque := mkDeque 2 1 1 1 1 [7; 5].

Lemma race_steps : ∃ s, steps (start_sys race_start) race_history s ∧ deque s = race_end ∧ owner s = OIdle ∧ thieves s = {[0%nat := TIdle; 1%nat := TIdle]}.
Proof.
  destruct (schedule race (start_sys race_start)) as [[tr s]|] eqn:E; [|vm_compute in E; discriminate E].
  exists s. pose proof (schedule_steps _ _ _ _ E) as Hst. vm_compute in E. injection E as <- <-. done.
Qed.

Lemma wsdeque_linearizable_witness :
  ∃ s a, deque s = race_end ∧ spec_steps 1 spec_start race_history a ∧ contents a = [].
Proof.
  destruct race_steps as (s & Hs & Ed & Eo & _).
  destruct (wsdeque_linearizable (λ _, 5) 1 race_start race_history s) as (a & Ha & Hl);
    [split; [discriminate|reflexivity]|reflexivity|exact Hs|reflexivity|].
  exists s, a. split; [exact Ed|]. split; [exact Ha|]. rewrite <- (Hl Eo), Ed. reflexivity.
Defined.

(** C19: nothing is lost and nothing is handed out twice.  When no call is in
    progress, the elements whose push was accepted are, counted with
    multiplicity, those that pops and steals have returned and those still in
    the array. *)
Theorem wsdeque_no_loss junk n q tr s :
  1 <= n < 2 ^ 40 → newWSDeque junk n = Ok q → steps (start_sys q) tr s → pushes tr < 2 ^ 62 →
  owner s = OIdle → (∀ i pc, thieves s !! i = Some pc → pc = TIdle) →
  accepted (account_of tr) ≡ₚ taken (account_of tr) ++ live (deque s).
Proof.
  intros Hn Hq Hst Hp Ho Hths. destruct (simulation_new junk n q tr s Hn Hq Hst Hp) as (a & L & Ha & Hr).
  destruct (balanced_steps _ _ _ Ha (λ v, pushed_not_null _ _ _ v Hst)) as [Hsum _ _].
  destruct s as [q' o ths]. cbn in Ho, Hths |- *. subst o.
  pose proof (re_owner _ _ _ _ Hr) as [EL Eso]. cbn in EL, Eso. rewrite <- EL in Hr.
  rewrite (live_related _ _ _ _ Hr). rewrite Eso in Hsum. cbn in Hsum. rewrite app_nil_r in Hsum. rewrite Hsum.
  assert (thieves_hold (sthieves a) = []) as ->; [|by rewrite app_nil_r].
  unfold thieves_hold. apply concat_nil_Forall, Forall_fmap, Forall_forall. intros [i st] Hi.
  apply elem_of_map_to_list in Hi. pose proof (re_thief _ _ _ _ Hr i) as Ht. cbn in Ht. rewrite Hi in Ht. cbn in Ht |- *.
  destruct (ths !! i) as [pc|] eqn:E; [rewrite (Hths _ _ E) in Ht|]; cbn in Ht; by subst st.
Qed.

Lemma wsdeque_no_loss_witness : accepted (account_of race_history) ≡ₚ [7] ++ [] ∧ accepted (account_of race_history) = [7].
Proof.
  split; [|reflexivity]. destruct race_steps as (s & Hs & Ed & Eo & Et).
  pose proof (wsdeque_no_loss (λ _, 5) 1 race_start race_history s) as Hsum. rewrite Ed in Hsum.
  apply Hsum; [split; [discriminate|reflexivity]|reflexivity|exact Hs|reflexivity|exact Eo|].
  rewrite Et. intros i pc. rewrite lookup_insert_Some, lookup_singleton_Some. naive_solver.
Defined.

(** C33: in every reachable state the next access of every thread goes
    through: no assertion fails, and no access leaves the array. *)
Theorem wsdeque_never_fails junk n q tr s :
  1 <= n < 2 ^ 40 → newWSDeque junk n = Ok q → steps (start_sys q) tr s → pushes tr < 2 ^ 62 →
  is_ok (owner_step (owner s) (deque s)) ∧ ∀ i pc, thieves s !! i = Some pc → is_ok (thief_step pc (deque s)).
Proof.
  intros Hn Hq Hst Hp. destruct (simulation_new junk n q tr s Hn Hq Hst Hp) as (a & L & Ha & Hr).
  destruct s as [q' o ths]. cbn. split.
  - destruct (owner_done o) eqn:E; [by destruct o|].
    pose proof (owner_ok _ _ _ _ _ _ Hr E) as Hwp. unfold wp in Hwp. by destruct (owner_step o q').
  - intros i pc Hi. destruct (thief_done pc) eqn:E; [by destruct pc|].
    pose proof (thief_ok _ _ _ _ _ _ _ _ Hr Hi E) as Hwp. unfold wp in Hwp. by destruct (thief_step pc q').
Qed.

Lemma wsdeque_never_fails_witness : is_ok (owner_step OIdle race_end).
Proof.
  destruct race_steps as (s & Hs & Ed & Eo & _).
  destruct (wsdeque_never_fails (λ _, 5) 1 race_start race_history s) as [Hok _];
    [split; [discriminate|reflexivity]|reflexivity|exact Hs|reflexivity|].
  rewrite Ed, Eo in Hok. exact Hok.
Defined.

(** A size of 0 stops the program; any other size below 2^40 gives an
    empty deque whose array is a power of two larger than the size asked for
    and at most twice it. *)
Theorem newWSDeque_size junk n :
  newWSDeque junk 0 = Err Barf ∧
  (1 <= n < 2 ^ 40 → ∃ q k, newWSDeque junk n = Ok q ∧ size q = 2 ^ k ∧ n < size q <= 2 * n ∧
     Z.of_nat (length (elements q)) = size q ∧ live q = [] ∧ dequeElements q = 0).
Proof.
  split; [done|]. intros Hn. destruct (newWSDeque_ok junk n Hn) as (q & Eq & Hs & Es & Et & Eb & _).
  exists q, (Z.log2 n + 1). split; [done|]. split; [done|].
  pose proof (Z.log2_spec n ltac:(lia)) as [H1 H2]. pose proof (Z.log2_nonneg n).
  rewrite Es, (sh_len _ Hs), Es, Z.pow_add_r by lia. rewrite Z.pow_succ_r in H2 by lia. change (2 ^ 1) with 2.
  split; [lia|]. split; [done|]. unfold live, dequeElements. by rewrite Et, Eb.
Qed.

Lemma newWSDeque_size_witness : newWSDeque (λ _, 5) 0 = Err Barf ∧ ∃ q k, newWSDeque (λ _, 5) 4 = Ok q ∧ size q = 2 ^ k ∧ size q = 8.
Proof.
  destruct (newWSDeque_size (λ _, 5) 4) as [H0 Hq]. split; [exact H0|].
  destruct Hq as (q & k & E & Ek & _); [split; [discriminate|reflexivity]|]. exists q, k.
  split; [exact E|]. split; [exact Ek|]. vm_compute in E. injection E as <-. reflexivity.
Defined.

(** Calls that nothing interferes with.  Push appends exactly when there
    is room, and otherwise changes nothing; pop takes the last element and
    steal the first, in both versions of steal; both return NULL exactly when
    the deque is empty; and each call returns. *)
Theorem wsdeque_sequential q v (again : bool) :
  quiet q → v ≠ NULL → bottom q + 1 < 2 ^ 61 →
  (∃ r q', pushWSDeque v q = Ok (r, q') ∧ quiet q' ∧
     r = bool_decide (Z.of_nat (length (live q)) < size q - 1) ∧ live q' = live q ++ (if r then [v] else [])) ∧
  (∃ w q', popWSDeque q = Ok (w, q') ∧ quiet q' ∧ (live q = live q' ++ [w] ∨ live q = [] ∧ live q' = [] ∧ w = NULL)) ∧
  (∃ w q', (if again then stealWSDeque else stealWSDeque_) q = Ok (w, q') ∧ quiet q' ∧
     (live q = w :: live q' ∨ live q = [] ∧ live q' = [] ∧ w = NULL)).
Proof.
  intros Hq Hv Hb. split_and!.
  - destruct (proj1 (wp_run _ _ _) (push_alone q v Hq Hv Hb)) as (r & q' & E & Hq' & _ & _ & Hr). exists r, q'.
    destruct r; destruct Hr as [Hlen ->]; rewrite ?app_nil_r; split_and!; try done; symmetry;
      [by apply bool_decide_eq_true|apply bool_decide_eq_false; lia].
  - destruct (proj1 (wp_run _ _ _) (pop_alone q Hq)) as (w & q' & E & Hq' & _ & _ & Hr). by exists w, q'.
  - destruct (proj1 (wp_run _ _ _) (steal_alone q again Hq)) as (w & q' & E & Hq' & _ & _ & Hr). exists w, q'. by destruct again.
Qed.

Lemma wsdeque_sequential_witness :
  quiet race_start ∧ ∃ q', pushWSDeque 9 race_start = Ok (true, q') ∧ live q' = [9].
Proof.
  assert (quiet race_start) as Hq.
  { constructor; [constructor; [exists 1; split; [lia|reflexivity]|reflexivity|reflexivity]|cbn; lia|cbn; lia|].
    apply not_elem_of_nil. }
  split; [exact Hq|].
  destruct (wsdeque_sequential race_start 9 true Hq) as [(r & q' & E & _ & Er & El) _]; [discriminate|reflexivity|].
  vm_compute in Er. subst r. exists q'. split; [exact E|]. rewrite El. reflexivity.
Defined.
