(* ===== verification/ClosureFlags.v ===== *)
(** * Closure types and their flags (rts/ClosureFlags.c, includes/rts/storage)

    The types a closure can have, in the order of ClosureTypes.h; the flags of
    InfoTables.h; the table [closure_flags] that gives every type its flags;
    and the tests of InfoTables.h and ClosureMacros.h on pointers to closures. *)
From stdpp Require Import list.
From S2P Require Import Prelude DList.
Local Open Scope Z_scope.

Inductive closure_type : Type :=
  | INVALID_OBJECT | CONSTR | CONSTR_1_0 | CONSTR_0_1 | CONSTR_2_0
  | CONSTR_1_1 | CONSTR_0_2 | CONSTR_STATIC | CONSTR_NOCAF_STATIC | FUN
  | FUN_1_0 | FUN_0_1 | FUN_2_0 | FUN_1_1 | FUN_0_2
  | FUN_STATIC | THUNK | THUNK_1_0 | THUNK_0_1 | THUNK_2_0
  | THUNK_1_1 | THUNK_0_2 | THUNK_STATIC | THUNK_SELECTOR | BCO
  | AP | PAP | AP_STACK | IND | IND_PERM
  | IND_STATIC | RET_BCO | RET_SMALL | RET_BIG | RET_DYN
  | RET_FUN | UPDATE_FRAME | CATCH_FRAME | UNDERFLOW_FRAME | STOP_FRAME
  | BLOCKING_QUEUE | BLACKHOLE | MVAR_CLEAN | MVAR_DIRTY | ARR_WORDS
  | MUT_ARR_PTRS_CLEAN | MUT_ARR_PTRS_DIRTY | MUT_ARR_PTRS_FROZEN0 | MUT_ARR_PTRS_FROZEN | MUT_VAR_CLEAN
  | MUT_VAR_DIRTY | WEAK | PRIM | MUT_PRIM | TSO
  | STACK | TREC_CHUNK | ATOMICALLY_FRAME | CATCH_RETRY_FRAME | CATCH_STM_FRAME
  | WHITEHOLE.
#[export] Instance closure_type_eq_dec : EqDecision closure_type.
Proof. solve_decision. Defined.

Definition closure_types : list closure_type :=
  [INVALID_OBJECT; CONSTR; CONSTR_1_0; CONSTR_0_1; CONSTR_2_0; CONSTR_1_1;
   CONSTR_0_2; CONSTR_STATIC; CONSTR_NOCAF_STATIC; FUN; FUN_1_0; FUN_0_1;
   FUN_2_0; FUN_1_1; FUN_0_2; FUN_STATIC; THUNK; THUNK_1_0;
   THUNK_0_1; THUNK_2_0; THUNK_1_1; THUNK_0_2; THUNK_STATIC; THUNK_SELECTOR;
   BCO; AP; PAP; AP_STACK; IND; IND_PERM;
   IND_STATIC; RET_BCO; RET_SMALL; RET_BIG; RET_DYN; RET_FUN;
   UPDATE_FRAME; CATCH_FRAME; UNDERFLOW_FRAME; STOP_FRAME; BLOCKING_QUEUE; BLACKHOLE;
   MVAR_CLEAN; MVAR_DIRTY; ARR_WORDS; MUT_ARR_PTRS_CLEAN; MUT_ARR_PTRS_DIRTY; MUT_ARR_PTRS_FROZEN0;
   MUT_ARR_PTRS_FROZEN; MUT_VAR_CLEAN; MUT_VAR_DIRTY; WEAK; PRIM; MUT_PRIM;
   TSO; STACK; TREC_CHUNK; ATOMICALLY_FRAME; CATCH_RETRY_FRAME; CATCH_STM_FRAME;
   WHITEHOLE].

Definition _HNF : Z := Z.shiftl 1 0.
Definition _BTM : Z := Z.shiftl 1 1.
Definition _NS : Z := Z.shiftl 1 2.
Definition _STA : Z := Z.shiftl 1 3.
Definition _THU : Z := Z.shiftl 1 4.
Definition _MUT : Z := Z.shiftl 1 5.
Definition _UPT : Z := Z.shiftl 1 6.
Definition _SRT : Z := Z.shiftl 1 7.
Definition _IND : Z := Z.shiftl 1 8.

Notation "a .| b" := (Z.lor a b) (at level 50, left associativity).

Definition closure_flags (t : closure_type) : Z :=
  match t with
  | INVALID_OBJECT => 0
  | CONSTR => _HNF .| _NS
  | CONSTR_1_0 => _HNF .| _NS
  | CONSTR_0_1 => _HNF .| _NS
  | CONSTR_2_0 => _HNF .| _NS
  | CONSTR_1_1 => _HNF .| _NS
  | CONSTR_0_2 => _HNF .| _NS
  | CONSTR_STATIC => _HNF .| _NS .| _STA
  | CONSTR_NOCAF_STATIC => _HNF .| _NS .| _STA
  | FUN => _HNF .| _NS .| _SRT
  | FUN_1_0 => _HNF .| _NS .| _SRT
  | FUN_0_1 => _HNF .| _NS .| _SRT
  | FUN_2_0 => _HNF .| _NS .| _SRT
  | FUN_1_1 => _HNF .| _NS .| _SRT
  | FUN_0_2 => _HNF .| _NS .| _SRT
  | FUN_STATIC => _HNF .| _NS .| _STA .| _SRT
  | THUNK => _BTM .| _THU .| _SRT
  | THUNK_1_0 => _BTM .| _THU .| _SRT
  | THUNK_0_1 => _BTM .| _THU .| _SRT
  | THUNK_2_0 => _BTM .| _THU .| _SRT
  | THUNK_1_1 => _BTM .| _THU .| _SRT
  | THUNK_0_2 => _BTM .| _THU .| _SRT
  | THUNK_STATIC => _BTM .| _STA .| _THU .| _SRT
  | THUNK_SELECTOR => _BTM .| _THU .| _SRT
  | BCO => _HNF .| _NS
  | AP => _THU
  | PAP => _HNF .| _NS
  | AP_STACK => _THU
  | IND => _NS .| _IND
  | IND_PERM => _NS .| _IND
  | IND_STATIC => _NS .| _STA .| _IND
  | RET_BCO => _BTM
  | RET_SMALL => _BTM .| _SRT
  | RET_BIG => _SRT
  | RET_DYN => _SRT
  | RET_FUN => 0
  | UPDATE_FRAME => _BTM
  | CATCH_FRAME => _BTM
  | UNDERFLOW_FRAME => _BTM
  | STOP_FRAME => _BTM
  | BLACKHOLE => _NS .| _UPT
  | BLOCKING_QUEUE => _NS .| _MUT .| _UPT
  | MVAR_CLEAN => _HNF .| _NS .| _MUT .| _UPT
  | MVAR_DIRTY => _HNF .| _NS .| _MUT .| _UPT
  | ARR_WORDS => _HNF .| _NS .| _UPT
  | MUT_ARR_PTRS_CLEAN => _HNF .| _NS .| _MUT .| _UPT
  | MUT_ARR_PTRS_DIRTY => _HNF .| _NS .| _MUT .| _UPT
  | MUT_ARR_PTRS_FROZEN0 => _HNF .| _NS .| _MUT .| _UPT
  | MUT_ARR_PTRS_FROZEN => _HNF .| _NS .| _UPT
  | MUT_VAR_CLEAN => _HNF .| _NS .| _MUT .| _UPT
  | MUT_VAR_DIRTY => _HNF .| _NS .| _MUT .| _UPT
  | WEAK => _HNF .| _NS .| _UPT
  | PRIM => _HNF .| _NS .| _UPT
  | MUT_PRIM => _HNF .| _NS .| _MUT .| _UPT
  | TSO => _HNF .| _NS .| _MUT .| _UPT
  | STACK => _HNF .| _NS .| _MUT .| _UPT
  | TREC_CHUNK => _NS .| _MUT .| _UPT
  | ATOMICALLY_FRAME => _BTM
  | CATCH_RETRY_FRAME => _BTM
  | CATCH_STM_FRAME => _BTM
  | WHITEHOLE => 0
  end.

(** ** Tests on the flags *)
Definition isSTATIC (flags : Z) : bool := negb (Z.land flags _STA =? 0).
Definition isMUTABLE (flags : Z) : bool := negb (Z.land flags _MUT =? 0).
Definition isBITMAP (flags : Z) : bool := negb (Z.land flags _BTM =? 0).
Definition isTHUNK (flags : Z) : bool := negb (Z.land flags _THU =? 0).
Definition isUNPOINTED (flags : Z) : bool := negb (Z.land flags _UPT =? 0).
Definition hasSRT (flags : Z) : bool := negb (Z.land flags _SRT =? 0).

(** ** Pointers to closures *)
Definition TAG_BITS : Z := 3.
Definition TAG_MASK : Z := Z.shiftl 1 TAG_BITS - 1.
Definition GET_CLOSURE_TAG (p : ptr) : Z := Z.land p TAG_MASK.
Definition UNTAG_CLOSURE (p : ptr) : ptr := Z.ldiff p TAG_MASK.
Definition TAG_CLOSURE (tag : Z) (p : ptr) : ptr := Z.lor p tag.
Definition IS_FORWARDING_PTR (p : Z) : bool := negb (Z.land p 1 =? 0).
Definition MK_FORWARDING_PTR (p : Z) : Z := Z.lor p 1.
Definition UN_FORWARDING_PTR (p : Z) : Z := p - 1.

(** The part of the heap that these tests read: the info word of a closure and
    the closure type in the info table at an info pointer. *)
Record closures : Type := mkClosures {
  header_info : ptr → Z;
  info_type : Z → closure_type
}.
Definition closureFlags (h : closures) (c : ptr) : Z := closure_flags (info_type h (header_info h (UNTAG_CLOSURE c))).
Definition closure_HNF h c : bool := negb (Z.land (closureFlags h c) _HNF =? 0).
Definition closure_SHOULD_SPARK h c : bool := Z.land (closureFlags h c) _NS =? 0.
Definition closure_STATIC h c : bool := negb (Z.land (closureFlags h c) _STA =? 0).
Definition closure_THUNK h c : bool := negb (Z.land (closureFlags h c) _THU =? 0).
Definition closure_MUTABLE h c : bool := negb (Z.land (closureFlags h c) _MUT =? 0).
Definition closure_UNPOINTED h c : bool := negb (Z.land (closureFlags h c) _UPT =? 0).
Definition closure_IND h c : bool := negb (Z.land (closureFlags h c) _IND =? 0).

Lemma closure_types_all t : t ∈ closure_types.
Proof. apply list_elem_of_In. destruct t; cbn; tauto. Qed.

(** ** Properties *)
Definition flag (f : Z) (t : closure_type) : bool := negb (Z.land (closure_flags t) f =? 0).

(** The table classifies the closure types as the runtime system relies
    on: every type has a row; values and indirections are never sparked and
    thunks always may be; nothing is both a value and a thunk; what is mutable
    is unpointed and not sparked; what is static is a value, a thunk or an
    indirection; and what has a bitmap layout (thunks and stack frames) is
    neither a value nor excluded from sparking. *)
Theorem closure_flags_classify t :
  t ∈ closure_types ∧ 0 <= closure_flags t < 2 ^ 9 ∧
  (flag _HNF t = true ∨ flag _IND t = true → flag _NS t = true) ∧
  (flag _THU t = true → flag _NS t = false ∧ flag _HNF t = false) ∧
  (flag _MUT t = true → flag _UPT t = true ∧ flag _NS t = true) ∧
  (flag _STA t = true → flag _HNF t = true ∨ flag _THU t = true ∨ flag _IND t = true) ∧
  (flag _BTM t = true → flag _HNF t = false ∧ flag _NS t = false).
Proof.
  split; [apply closure_types_all|].
  destruct t; vm_compute; repeat split; try congruence; intuition congruence.
Qed.

(** Tagging, untagging and forwarding of an aligned pointer can be undone,
    and the two are told apart by the bits they set. *)
Theorem closure_tag_roundtrip p tag :
  0 <= p → p mod 8 = 0 → 0 <= tag < 8 →
  GET_CLOSURE_TAG (TAG_CLOSURE tag p) = tag ∧ UNTAG_CLOSURE (TAG_CLOSURE tag p) = p ∧
  IS_FORWARDING_PTR p = false ∧ IS_FORWARDING_PTR (MK_FORWARDING_PTR p) = true ∧
  UN_FORWARDING_PTR (MK_FORWARDING_PTR p) = p.
Proof.
  intros Hp Hal Htag.
  assert (p = Z.shiftl (p / 8) 3) as Ep.
  { rewrite Z.shiftl_mul_pow2 by lia. change (2 ^ 3) with 8. pose proof (Z.div_mod p 8). lia. }
  assert (∀ x, 0 <= x < 8 → Z.lor p x = p + x) as Hor.
  { intros x Hx. assert (Z.land p x = 0) as Hd; [|by rewrite Z.add_nocarry_lxor, Z.lxor_lor by done].
    apply Z.bits_inj'. intros i Hi. rewrite Z.land_spec, Z.bits_0, Ep. destruct (decide (i < 3)).
    - by rewrite Z.shiftl_spec_low by done.
    - assert (Z.testbit x i = false) as ->; [|apply andb_false_r].
      apply Z.bits_above_log2; [lia|]. destruct (decide (x = 0)) as [->|]; [cbn; lia|]. apply Z.log2_lt_pow2; [lia|].
      assert (2 ^ 3 <= 2 ^ i) by (apply Z.pow_le_mono_r; lia). lia. }
  assert (∀ x, Z.land x TAG_MASK = x mod 8) as Hland by (intros x; exact (Z.land_ones x 3 ltac:(lia))).
  assert (∀ x, Z.ldiff x TAG_MASK = x - x mod 8) as Hdiff.
  { intros x. change TAG_MASK with (Z.ones 3). rewrite Z.ldiff_ones_r, Z.shiftl_mul_pow2, Z.shiftr_div_pow2 by lia.
    change (2 ^ 3) with 8. pose proof (Z.div_mod x 8). lia. }
  assert (∀ x, Z.land x 1 = x mod 2) as Hland1 by (intros x; exact (Z.land_ones x 1 ltac:(lia))).
  assert (p mod 2 = 0) as H2 by (Z.to_euclidean_division_equations; lia).
  unfold GET_CLOSURE_TAG, TAG_CLOSURE, UNTAG_CLOSURE, IS_FORWARDING_PTR, MK_FORWARDING_PTR, UN_FORWARDING_PTR.
  rewrite Hdiff, Hland, !Hland1, !Hor by lia.
  assert ((p + tag) mod 8 = tag) as -> by (Z.to_euclidean_division_equations; lia). assert ((p + 1) mod 2 = 1) as -> by (Z.to_euclidean_division_equations; lia).
  rewrite H2. split_and!; try done; lia.
Qed.

Lemma closure_tag_roundtrip_witness : GET_CLOSURE_TAG (TAG_CLOSURE 5 4096) = 5 ∧ UNTAG_CLOSURE (TAG_CLOSURE 5 4096) = 4096.
Proof.
  destruct (closure_tag_roundtrip 4096 5) as (H1 & H2 & _); [lia|reflexivity|lia|]. split; [exact H1|exact H2].
Defined.
