(* ===== verification/Sparks.v ===== *)
(** * Sparks (rts/Sparks.c, rts/Sparks.h, findSpark and the spark counters of rts/Capability.c)

    Every capability has a pool of sparks, a work-stealing deque, and six
    counters of what became of the sparks it made or took.  The functions that
    run while the mutator does ([newSpark], [findSpark]) call the deque's
    operations as a whole; [WSDequeMain] shows that the deque behaves as if
    each of them were a single step.  [pruneSparkQueue] and
    [traverseSparkQueue] run during garbage collection and work on the fields
    of the deque directly. *)
From stdpp Require Import list gmap.
From S2P Require Import Prelude DList WSDeque ClosureFlags.
Local Open Scope Z_scope.

Record SparkCounters : Type := mkCounters {
  created : Z;
  dud : Z;
  overflowed : Z;
  converted : Z;
  gcd : Z;
  fizzled : Z
}.
Definition inc_created c := mkCounters (wrapU 64 (created c + 1)) (dud c) (overflowed c) (converted c) (gcd c) (fizzled c).
Definition inc_dud c := mkCounters (created c) (wrapU 64 (dud c + 1)) (overflowed c) (converted c) (gcd c) (fizzled c).
Definition inc_overflowed c := mkCounters (created c) (dud c) (wrapU 64 (overflowed c + 1)) (converted c) (gcd c) (fizzled c).
Definition inc_converted c := mkCounters (created c) (dud c) (overflowed c) (wrapU 64 (converted c + 1)) (gcd c) (fizzled c).
Definition add_gcd n c := mkCounters (created c) (dud c) (overflowed c) (converted c) (wrapU 64 (gcd c + n)) (fizzled c).
Definition inc_fizzled c := mkCounters (created c) (dud c) (overflowed c) (converted c) (gcd c) (wrapU 64 (fizzled c + 1)).

(** What this file uses of a capability. *)
Record Capability : Type := mkCap {
  sparks : WSDeque;
  spark_stats : SparkCounters;
  run_queue_hd : ptr;
  returning_tasks_hd : ptr
}.
Definition set_sparks q c := mkCap q (spark_stats c) (run_queue_hd c) (returning_tasks_hd c).
Definition set_stats s c := mkCap (sparks c) s (run_queue_hd c) (returning_tasks_hd c).

(** An operation on the pool, on the counters, on capability [i]. *)
Definition pool {A} (m : prog WSDeque A) : prog Capability A := λ c,
  match m (sparks c) with
  | Ok (a, q) => Ok (a, set_sparks q c)
  | Err e => Err e
  end.
Definition count (f : SparkCounters → SparkCounters) : prog Capability unit :=
  modify (λ c, set_stats (f (spark_stats c)) c).
Definition with_cap {A} (i : nat) (m : prog Capability A) : prog (list Capability) A := λ cs,
  match cs !! i with
  | Some c => match m c with Ok (a, c') => Ok (a, <[i := c']> cs) | Err e => Err e end
  | None => Err BadPointer
  end.

(** ** Pools *)
Definition allocSparkPool (junk : nat → ptr) (maxLocalSparks : Z) : outcome WSDeque := newWSDeque junk maxLocalSparks.
Definition reclaimSpark : prog WSDeque ptr := popWSDeque.
Definition looksEmpty (q : WSDeque) : bool := looksEmptyWSDeque q.
Definition sparkPoolSize (q : WSDeque) : Z := dequeElements q.
Definition discardSparks (q : WSDeque) : WSDeque := discardElements q.
Definition tryStealSpark : prog WSDeque ptr := stealWSDeque_.
Definition emptySparkPoolCap (c : Capability) : bool := looksEmpty (sparks c).
Definition discardSparksCap : prog Capability unit := pool (modify discardSparks).

(** [initCapability]: the fields above *)
Definition initCapability (junk : nat → ptr) (maxLocalSparks : Z) : outcome Capability :=
  match allocSparkPool junk maxLocalSparks with
  | Ok q => Ok (mkCap q (mkCounters 0 0 0 0 0 0) END NULL)
  | Err e => Err e
  end.

Definition fizzledSpark (h : closures) (spark : ptr) : bool :=
  negb (GET_CLOSURE_TAG spark =? 0) || negb (closure_SHOULD_SPARK h spark).

Definition newSpark (h : closures) (p : ptr) : prog Capability Z :=
  (if negb (fizzledSpark h p) then
     ok ← pool (pushWSDeque p);
     if ok : bool then count inc_created else count inc_overflowed
   else count inc_dud);;
  mret 1.

(** ** Garbage collection *)

(** What the garbage collector knows of a spark: whether it lies in the heap,
    the flags of its block, and the link field of a static thunk. *)
Record gc_heap : Type := mkGC {
  cl : closures;
  HEAP_ALLOCED : ptr → bool;
  bd_flags : ptr → Z;
  THUNK_STATIC_LINK : ptr → ptr
}.
Definition BF_EVACUATED : Z := 1.

Inductive verdict : Type :=
  | Keep (p : ptr)
  | Fizzle
  | Garbage.
Definition prune_verdict (h : gc_heap) (spark : ptr) : verdict :=
  if negb (GET_CLOSURE_TAG spark =? 0) then Fizzle else
  let info := header_info (cl h) spark in
  if IS_FORWARDING_PTR info then
    let tmp := UN_FORWARDING_PTR info in
    if closure_SHOULD_SPARK (cl h) tmp then Keep tmp else Fizzle
  else if HEAP_ALLOCED h spark then
    if negb (Z.land (bd_flags h spark) BF_EVACUATED =? 0) then
      if closure_SHOULD_SPARK (cl h) spark then Keep spark else Fizzle
    else Garbage
  else if bool_decide (info_type (cl h) info = THUNK_STATIC) then
    if negb (THUNK_STATIC_LINK h spark =? NULL) then Keep spark else Garbage
  else Fizzle.

Definition element (i : Z) : prog Capability ptr :=
  c ← get; deref (elements (sparks c) !! Z.to_nat i).
Definition set_element (i : Z) (v : ptr) : prog Capability unit :=
  c ← get;
  _ ← deref (elements (sparks c) !! Z.to_nat i);
  pool (modify (λ q, set_elements (<[Z.to_nat i := v]> (elements q)) q)).
(** The [if] chain of the body: the new [botInd] *)
Definition prune_one (h : gc_heap) (spark : ptr) (botInd : Z) : prog Capability Z :=
  match prune_verdict h spark with
  | Keep p => set_element botInd p;; mret (wrapU 64 (botInd + 1))
  | Fizzle => count inc_fizzled;; mret botInd
  | Garbage => count (add_gcd 1);; mret botInd
  end.
(** [while (currInd != oldBotInd) ...] *)
Fixpoint prune_loop (fuel : nat) (h : gc_heap) (oldBotInd currInd botInd : Z) : prog Capability (Z * Z) :=
  if currInd =? oldBotInd then mret (currInd, botInd) else
  match fuel with
  | O => fail Diverges
  | S fuel =>
    spark ← element currInd;
    botInd ← prune_one h spark botInd;
    let currInd := wrapU 64 (currInd + 1) in
    c ← get;
    let sz := size (sparks c) in
    ASSERT ((currInd <=? sz) && (botInd <=? sz));;
    let currInd := if currInd =? sz then 0 else currInd in
    let botInd := if botInd =? sz then 0 else botInd in
    prune_loop fuel h oldBotInd currInd botInd
  end.

Definition prune_reset (q : WSDeque) : WSDeque :=
  let q := if bottom q <? top q then set_top (bottom q) q else q in
  let q := set_bottom (wrapU 64 (bottom q - Z.land (top q) (Z.lnot (moduloSize q)))) q in
  let q := set_top (Z.land (top q) (moduloSize q)) q in
  set_topBound (top q) q.
Definition pruneSparkQueue (h : gc_heap) : prog Capability unit :=
  pool (modify prune_reset);;
  pool ASSERT_WSDEQUE_INVARIANTS;;
  c ← get;
  let q := sparks c in
  let currInd := Z.land (top q) (moduloSize q) in
  let oldBotInd := Z.land (bottom q) (moduloSize q) in
  ASSERT ((currInd <? size q) && (oldBotInd <? size q));;
  ' (currInd, botInd) ← prune_loop (Z.to_nat (size q)) h oldBotInd currInd oldBotInd;
  ASSERT (currInd =? oldBotInd);;
  pool (modify (set_top oldBotInd));;
  pool (modify (λ q, set_topBound (top q) q));;
  pool (modify (λ q, set_bottom (if oldBotInd <=? botInd then botInd else wrapU 64 (botInd + size q)) q));;
  pool ASSERT_WSDEQUE_INVARIANTS.

(** [evac] may change the spark it is given and the state of the collector. *)
Fixpoint traverse_loop {U} (fuel : nat) (evac : ptr → U → ptr * U) (user : U) (t b : Z) : prog Capability U :=
  if t <? b then
    match fuel with
    | O => fail Diverges
    | S fuel =>
      c ← get;
      let i := Z.land t (moduloSize (sparks c)) in
      spark ← element i;
      let '(spark', user) := evac spark user in
      set_element i spark';;
      traverse_loop fuel evac user (wrapU 64 (t + 1)) b
    end
  else mret user.
Definition traverseSparkQueue {U} (evac : ptr → U → ptr * U) (user : U) : prog Capability U :=
  pool ASSERT_WSDEQUE_INVARIANTS;;
  c ← get;
  let q := sparks c in
  traverse_loop (Z.to_nat (bottom q - top q)) evac user (top q) (bottom q).

(** ** Looking for a spark

    Other capabilities go on while [findSpark] looks for a spark: they push,
    take and steal between its accesses, and may win the race for an element
    that it is about to steal.  The code is written over the accesses it makes;
    the instance for a list of capabilities is that of a call that nobody
    interferes with, [SparkFind] has that of a call among others. *)
Class Accesses (W : Type) : Type := {
  access {A} : nat → prog Capability A → prog W A;
  steal : nat → prog W ptr;
  n_capabilities : prog W nat
}.
#[export] Instance undisturbed : Accesses (list Capability) := {
  access A := with_cap;
  steal j := with_cap j (pool tryStealSpark);
  n_capabilities := gets length
}.

Section find.
Context {W : Type} `{Accesses W}.

(** [spark = tryStealSpark(robbed); while (spark != NULL && fizzledSpark(spark)) ...] *)
Fixpoint steal_unfizzled (fuel : nat) (h : closures) (cap robbed : nat) : prog W ptr :=
  spark ← steal robbed;
  if negb (spark =? NULL) && fizzledSpark h spark then
    access cap (count inc_fizzled);;
    match fuel with
    | O => fail Diverges
    | S fuel => steal_unfizzled fuel h cap robbed
    end
  else mret spark.

(** [for (i = 0; i < n_capabilities; i++) ...]: the spark and [retry] *)
Fixpoint rob (fuel : nat) (h : closures) (cap : nat) (victims : list nat) (retry : bool) : prog W (ptr * bool) :=
  match victims with
  | [] => mret (NULL, retry)
  | robbed :: victims =>
    if (cap =? robbed)%nat then rob fuel h cap victims retry else
    empty ← access robbed (gets emptySparkPoolCap);
    if empty : bool then rob fuel h cap victims retry else
    spark ← steal_unfizzled fuel h cap robbed;
    retry ← (if spark =? NULL then
               empty ← access robbed (gets emptySparkPoolCap);
               mret (if empty : bool then retry else true)
             else mret retry);
    if negb (spark =? NULL) then
      access cap (count inc_converted);; mret (spark, retry)
    else rob fuel h cap victims retry
  end.

(** [do ... while (retry)]: at most [tries] rounds *)
Fixpoint find_loop (tries fuel : nat) (h : closures) (cap : nat) : prog W ptr :=
  match tries with
  | O => fail Diverges
  | S tries =>
    spark ← steal_unfizzled fuel h cap cap;
    if negb (spark =? NULL) then access cap (count inc_converted);; mret spark else
    empty ← access cap (gets emptySparkPoolCap);
    n ← n_capabilities;
    if (n =? 1)%nat then mret NULL else
    ' (spark, retry) ← rob fuel h cap (seq 0 n) (negb empty);
    if negb (spark =? NULL) then mret spark else
    if retry : bool then find_loop tries fuel h cap else mret NULL
  end.
Definition findSpark (tries fuel : nat) (h : closures) (cap : nat) : prog W ptr :=
  busy ← access cap (gets (λ c, negb (run_queue_hd c =? END) || negb (returning_tasks_hd c =? NULL)));
  if busy : bool then mret NULL else find_loop tries fuel h cap.
End find.

Definition anySparks (cs : list Capability) : bool := existsb (λ c, negb (emptySparkPoolCap c)) cs.

(** ** Counting *)

(** The loop of [scheduleDoGC] that throws all sparks away at shutdown *)
Definition discardAllSparks : prog (list Capability) unit :=
  n ← n_capabilities;
  for_each (seq 0 n) (λ i,
    size ← with_cap i (gets (λ c, sparkPoolSize (sparks c)));
    with_cap i (count (add_gcd size));;
    with_cap i discardSparksCap).

Definition sum64 (f : Capability → Z) (cs : list Capability) : Z := foldl (λ acc c, wrapU 64 (acc + f c)) 0 cs.
Definition checkSparkCountInvariant (cs : list Capability) : bool :=
  let sparks_created := sum64 (λ c, created (spark_stats c)) cs in
  let sparks_converted := sum64 (λ c, converted (spark_stats c)) cs in
  let sparks_gcd := sum64 (λ c, gcd (spark_stats c)) cs in
  let sparks_fizzled := sum64 (λ c, fizzled (spark_stats c)) cs in
  let remaining := sum64 (λ c, sparkPoolSize (sparks c)) cs in
  sparks_created =? wrapU 64 (sparks_converted + remaining + sparks_gcd + sparks_fizzled).
