(* ===== verification/SparkProps.v ===== *)
(** * Pruning and traversing the spark pool *)
From stdpp Require Import list gmap.
From S2P Require Import Prelude DList WSDeque WSDequeSpec WSDequeSim WSDequeMain ClosureFlags Sparks.
Local Open Scope Z_scope.

(** ** The operations on a capability *)
Lemma wp_pool {A} (m : prog WSDeque A) Q c : wp m (λ a q, Q a (set_sparks q c)) (sparks c) → wp (pool m) Q c.
Proof. unfold wp, pool. by destruct (m (sparks c)) as [[a q]|]. Qed.

Lemma wp_count f Q c : Q tt (set_stats (f (spark_stats c)) c) → wp (count f) Q c.
Proof. intros HQ. unfold count. by apply wp_modify. Qed.

Lemma wp_with_cap {A} i (m : prog Capability A) Q cs c :
  cs !! i = Some c → wp m (λ a c', Q a (<[i := c']> cs)) c → wp (with_cap i m) Q cs.
Proof. intros Hc. unfold wp, with_cap. rewrite Hc. by destruct (m c) as [[a c']|]. Qed.

Lemma wp_element i Q c v : elements (sparks c) !! Z.to_nat i = Some v → Q v c → wp (element i) Q c.
Proof. intros Hv HQ. unfold element. do 2 wp_step. by eapply wp_deref. Qed.

Lemma wp_set_element i v Q c :
  is_Some (elements (sparks c) !! Z.to_nat i) →
  Q tt (set_sparks (set_elements (<[Z.to_nat i := v]> (elements (sparks c))) (sparks c)) c) → wp (set_element i v) Q c.
Proof.
  intros [w Hw] HQ. unfold set_element. do 3 wp_step. eapply wp_deref; [done|]. apply wp_pool. by apply wp_modify.
Qed.

(** ** Indices *)
Lemma land_modulo q x : shaped q → Z.land x (moduloSize q) = x mod size q.
Proof.
  intros [(k & Hk & Es) Em _]. rewrite Em, Es.
  replace (2 ^ k - 1) with (Z.ones k) by (rewrite Z.ones_equiv; lia). by rewrite Z.land_ones by lia.
Qed.

Lemma slot_Z q x : shaped q → Z.of_nat (slot q x) = x mod size q.
Proof.
  intros Hs. pose proof (shaped_size Hs). rewrite slot_mod by done. pose proof (Z.mod_pos_bound x (size q)). lia.
Qed.

Lemma slot_bound q x : shaped q → 0 <= Z.of_nat (slot q x) < size q.
Proof. intros Hs. pose proof (shaped_size Hs). rewrite slot_Z by done. apply Z.mod_pos_bound. lia. Qed.

(** One step around the array. *)
Lemma slot_succ q x :
  shaped q →
  (if wrapU 64 (Z.of_nat (slot q x) + 1) =? size q then 0 else wrapU 64 (Z.of_nat (slot q x) + 1)) = Z.of_nat (slot q (x + 1)) ∧
  wrapU 64 (Z.of_nat (slot q x) + 1) <= size q.
Proof.
  intros Hs. pose proof (shaped_size Hs) as Hsz. assert (2 ^ 40 < 2 ^ 64) by (apply Z.pow_lt_mono_r; lia).
  pose proof (slot_bound q x Hs). rewrite wrapU_small by lia. rewrite !slot_Z in * by done. split; [|lia].
  destruct (_ =? _) eqn:E.
  - apply Z.eqb_eq in E. apply Z.mod_unique with (x / size q + 1); [lia|]. pose proof (Z.div_mod x (size q)). lia.
  - apply Z.eqb_neq in E. apply Z.mod_unique with (x / size q); [lia|]. pose proof (Z.div_mod x (size q)). lia.
Qed.

(** ** Pruning *)
Definition kept (h : gc_heap) (l : list ptr) : list ptr :=
  omap (λ p, match prune_verdict h p with Keep p' => Some p' | _ => None end) l.
Definition prune_stats (h : gc_heap) (l : list ptr) (s : SparkCounters) : SparkCounters :=
  foldl (λ s p, match prune_verdict h p with Keep _ => s | Fizzle => inc_fizzled s | Garbage => add_gcd 1 s end) s l.

Lemma kept_cons h p l : kept h (p :: l) = match prune_verdict h p with Keep p' => p' :: kept h l | _ => kept h l end.
Proof. unfold kept. cbn. by destruct (prune_verdict h p). Qed.

Lemma kept_length h l : (length (kept h l) <= length l)%nat.
Proof. induction l as [|p l IH]; [done|]. rewrite kept_cons. destruct (prune_verdict h p); cbn; lia. Qed.

Section prune_loop.
Context (h : gc_heap) (q : WSDeque) (Hs : shaped q) (Hfull : bottom q - top q <= size q - 1).
Context (rq rt : ptr).

(** After [k] elements: [rest] is still to be looked at, [done_] has been
    written from the old bottom on. *)
Record pruning (k : nat) (done_ rest es : list ptr) : Prop := {
  pr_len : length es = length (elements q);
  pr_pos : bottom q = top q + Z.of_nat k + Z.of_nat (length rest);
  pr_behind : (length done_ <= k)%nat;
  pr_rest i v : rest !! i = Some v → es !! slot q (top q + Z.of_nat k + Z.of_nat i) = Some v;
  pr_done i v : done_ !! i = Some v → es !! slot q (bottom q + Z.of_nat i) = Some v
}.

Lemma pruning_skip k done_ p rest es : pruning k done_ (p :: rest) es → pruning (Datatypes.S k) done_ rest es.
Proof using.
  intros [Hl Hp Hb Hr Hd]. constructor; [done|cbn in Hp; lia|lia| |done].
  intros i v Hi. rewrite <- (Hr (Datatypes.S i) v Hi). do 2 f_equal. lia.
Qed.

Lemma pruning_keep k done_ p v rest es :
  pruning k done_ (p :: rest) es →
  pruning (Datatypes.S k) (done_ ++ [v]) rest (<[slot q (bottom q + Z.of_nat (length done_)) := v]> es).
Proof using Hs Hfull.
  intros Hpr. pose proof (pruning_skip _ _ _ _ _ Hpr) as [_ Hp' _ Hr _]. destruct Hpr as [Hl Hp Hb _ Hd]. cbn in Hp.
  constructor; [by rewrite length_insert|done|rewrite length_app; cbn; lia| |].
  - intros i w Hi. pose proof (lookup_lt_Some _ _ _ Hi). rewrite list_lookup_insert_ne; [by apply Hr|].
    apply not_eq_sym, slot_ne; [done|lia].
  - intros i w Hi. destruct (decide (i = length done_)) as [->|Hne].
    + rewrite lookup_app_r, Nat.sub_diag in Hi by lia. injection Hi as <-. apply list_lookup_insert_eq.
      rewrite Hl. pose proof (slot_bound q (bottom q + Z.of_nat (length done_)) Hs). pose proof (sh_len q Hs). lia.
    + pose proof (lookup_lt_Some _ _ _ Hi) as Hlt. rewrite length_app in Hlt. cbn in Hlt.
      rewrite lookup_app_l in Hi by lia. rewrite list_lookup_insert_ne; [by apply Hd|].
      apply not_eq_sym, slot_ne; [done|lia].
Qed.

Lemma prune_one_ok k done_ p rest es st :
  pruning k done_ (p :: rest) es →
  wp (prune_one h p (Z.of_nat (slot q (bottom q + Z.of_nat (length done_)))))
     (λ b c', ∃ done' es' st', c' = mkCap (set_elements es' q) st' rq rt ∧ pruning (Datatypes.S k) done' rest es' ∧
        done' ++ kept h rest = done_ ++ kept h (p :: rest) ∧ prune_stats h rest st' = prune_stats h (p :: rest) st ∧
        b <= size q ∧ (if b =? size q then 0 else b) = Z.of_nat (slot q (bottom q + Z.of_nat (length done'))))
     (mkCap (set_elements es q) st rq rt).
Proof using Hs Hfull.
  intros Hpr. pose proof (slot_bound q (bottom q + Z.of_nat (length done_)) Hs) as Hb.
  unfold prune_one. rewrite kept_cons. unfold prune_stats. cbn [foldl]. destruct (prune_verdict h p) as [v| |] eqn:Ev.
  - wp_step. apply wp_set_element; cbn [sparks elements set_elements]; rewrite Nat2Z.id; cbv beta.
    { apply lookup_lt_is_Some. rewrite (pr_len _ _ _ _ Hpr). pose proof (sh_len q Hs). lia. }
    wp_step. exists (done_ ++ [v]), (<[slot q (bottom q + Z.of_nat (length done_)) := v]> es), st.
    destruct (slot_succ q (bottom q + Z.of_nat (length done_)) Hs) as [E1 E2].
    split_and!; [done|by eapply pruning_keep|by rewrite <- app_assoc|done|done|].
    rewrite E1, length_app. cbn. do 2 f_equal. lia.
  - wp_step. apply wp_count. wp_step. exists done_, es, (inc_fizzled st).
    split_and!; [done|by eapply pruning_skip|done|done|lia|]. by rewrite (proj2 (Z.eqb_neq _ _)) by lia.
  - wp_step. apply wp_count. wp_step. exists done_, es, (add_gcd 1 st).
    split_and!; [done|by eapply pruning_skip|done|done|lia|]. by rewrite (proj2 (Z.eqb_neq _ _)) by lia.
Qed.

Lemma prune_loop_ok fuel rest k done_ es st :
  pruning k done_ rest es → (length rest <= fuel)%nat →
  wp (prune_loop fuel h (Z.of_nat (slot q (bottom q))) (Z.of_nat (slot q (top q + Z.of_nat k)))
        (Z.of_nat (slot q (bottom q + Z.of_nat (length done_)))))
     (λ r c', ∃ es', r = (Z.of_nat (slot q (bottom q)), Z.of_nat (slot q (bottom q + Z.of_nat (length (done_ ++ kept h rest))))) ∧
        c' = mkCap (set_elements es' q) (prune_stats h rest st) rq rt ∧
        pruning (k + length rest) (done_ ++ kept h rest) [] es')
     (mkCap (set_elements es q) st rq rt).
Proof using Hs Hfull.
  revert fuel k done_ es st. induction rest as [|p rest IH]; intros fuel k done_ es st Hpr Hfuel.
  - pose proof (pr_pos _ _ _ _ Hpr) as Hp. cbn in Hp. rewrite Z.add_0_r in Hp.
    destruct fuel; cbn [prune_loop]; rewrite (proj2 (Z.eqb_eq _ _)) by (by rewrite Hp);
      apply wp_ret; exists es; rewrite app_nil_r, Nat.add_0_r, <- Hp; done.
  - pose proof (pr_pos _ _ _ _ Hpr) as Hp. cbn in Hp, Hfuel. destruct fuel as [|fuel]; [lia|]. cbn [prune_loop].
    assert (slot q (top q + Z.of_nat k) ≠ slot q (bottom q)) as Hne by (apply slot_ne; [done|lia]).
    rewrite (proj2 (Z.eqb_neq _ _)) by lia.
    wp_step. eapply wp_element; [cbn; rewrite Nat2Z.id, <- (Z.add_0_r (top q + Z.of_nat k)); by apply (pr_rest _ _ _ _ Hpr 0%nat)|].
    wp_step. eapply wp_mono; [by apply prune_one_ok|]. cbv beta.
    intros b c' (done' & es' & st' & -> & Hpr' & Ek & Est & Hb & Eb).
    destruct (slot_succ q (top q + Z.of_nat k) Hs) as [Ec Hc].
    cbv zeta. do 3 wp_step. cbn [sparks set_elements size].
    apply wp_assert; [by rewrite (proj2 (Z.leb_le _ _) Hc), (proj2 (Z.leb_le _ _) Hb)|].
    rewrite Ec, Eb. replace (top q + Z.of_nat k + 1) with (top q + Z.of_nat (Datatypes.S k)) by lia.
    rewrite <- Ek, <- Est. replace (k + length (p :: rest))%nat with (Datatypes.S k + length rest)%nat by (cbn; lia).
    apply IH; [done|lia].
Qed.
End prune_loop.

(** A pool while the mutator is stopped. *)
Record paused (q : WSDeque) : Prop := {
  pa_shape : shaped q;
  pa_bound : 0 <= top q < 2 ^ 62 ∧ 0 <= bottom q < 2 ^ 62;
  pa_full : bottom q - top q <= size q - 1;
  pa_null : NULL ∉ live q
}.

Lemma quiet_paused q : quiet q → paused q.
Proof. intros [Hs Hb Hf Hn]. constructor; try done; lia. Qed.

Lemma shaped_fields q q' :
  shaped q → size q' = size q → moduloSize q' = moduloSize q → length (elements q') = length (elements q) → shaped q'.
Proof. intros [Hk Hm Hl] E1 E2 E3. constructor; rewrite ?E1, ?E2, ?E3; done. Qed.

Lemma slot_shift q q' x y :
  shaped q → moduloSize q' = moduloSize q → x mod size q = y mod size q → slot q' x = slot q y.
Proof. intros Hs Em E. unfold slot. by rewrite Em, !land_modulo, E by done. Qed.

Lemma live_shift q q' :
  shaped q → moduloSize q' = moduloSize q → elements q' = elements q →
  top q' mod size q = top q mod size q → Z.max 0 (bottom q' - top q') = Z.max 0 (bottom q - top q) → live q' = live q.
Proof.
  intros Hs Em Ee Et Eb. unfold live. rewrite Ee. replace (Z.to_nat (bottom q' - top q')) with (Z.to_nat (bottom q - top q)) by lia.
  apply list_omap_ext, Forall2_same_length_lookup_2; [done|]. intros i j j' Hj Hj'. assert (j' = j) as -> by congruence.
  f_equal. apply slot_shift; [done..|]. rewrite Z.add_mod, Et, <- Z.add_mod; [done| |]; pose proof (shaped_size Hs); lia.
Qed.

Lemma prune_reset_ok q :
  paused q → shaped (prune_reset q) ∧ live (prune_reset q) = live q ∧ size (prune_reset q) = size q ∧
    0 <= topBound (prune_reset q) <= top (prune_reset q) ∧
    0 <= top (prune_reset q) < size q ∧ top (prune_reset q) <= bottom (prune_reset q) ∧
    bottom (prune_reset q) - top (prune_reset q) <= size q - 1.
Proof.
  intros [Hs [Ht Hb] Hf _]. pose proof (shaped_size Hs) as Hsz. assert (2 ^ 40 < 2 ^ 64 ∧ 2 ^ 62 < 2 ^ 64) by (split; apply Z.pow_lt_mono_r; lia).
  set (t := Z.min (top q) (bottom q)).
  assert (top (if bottom q <? top q then set_top (bottom q) q else q) = t) as Et.
  { destruct (_ <? _) eqn:E; cbn; [apply Z.ltb_lt in E|apply Z.ltb_ge in E]; lia. }
  assert (moduloSize (if bottom q <? top q then set_top (bottom q) q else q) = moduloSize q) as Em by by destruct (_ <? _).
  assert (bottom (if bottom q <? top q then set_top (bottom q) q else q) = bottom q) as Eb by by destruct (_ <? _).
  pose proof (Z.mod_pos_bound t (size q)). pose proof (Z.div_mod t (size q)).
  assert (0 <= t / size q) by (apply Z.div_pos; lia). assert (t mod size q <= t) by (apply Z.mod_le; lia).
  assert (Z.land t (Z.lnot (moduloSize q)) = t - t mod size q) as Eland.
  { rewrite <- Z.ldiff_land. destruct Hs as [(k & Hk & Es) Emod _]. rewrite Emod, Es.
    replace (2 ^ k - 1) with (Z.ones k) by (rewrite Z.ones_equiv; lia).
    rewrite Z.ldiff_ones_r, Z.shiftl_mul_pow2, Z.shiftr_div_pow2 by lia. rewrite <- Es. lia. }
  assert (top (prune_reset q) = t mod size q) as Et'.
  { unfold prune_reset. cbn. rewrite Et, Em. by apply land_modulo. }
  assert (bottom (prune_reset q) = bottom q - t + t mod size q) as Eb'.
  { unfold prune_reset. cbn. rewrite Et, Em, Eb, Eland. rewrite wrapU_small by lia. lia. }
  assert (topBound (prune_reset q) = top (prune_reset q)) as Etb by done.
  assert (size (prune_reset q) = size q ∧ moduloSize (prune_reset q) = moduloSize q ∧ elements (prune_reset q) = elements q) as (E1 & E2 & E3).
  { unfold prune_reset. cbn. by destruct (_ <? _). }
  rewrite Etb, Et', Eb'. split_and!; try done; try lia.
  - by apply (shaped_fields q); rewrite ?E3.
  - destruct (decide (bottom q < top q)) as [Hlt|Hge].
    + unfold live. replace (Z.to_nat (bottom q - top q)) with 0%nat by lia.
      replace (Z.to_nat _) with 0%nat; [done|]. rewrite Et', Eb'. lia.
    + apply live_shift; try done.
      * rewrite Et', Z.mod_mod by lia. f_equal. lia.
      * rewrite Et', Eb'. lia.
Qed.

Lemma live_of_done q es done_ :
  length done_ = Z.to_nat (bottom q - top q) → 
  (∀ i v, done_ !! i = Some v → es !! slot q (top q + Z.of_nat i) = Some v) → elements q = es → live q = done_.
Proof.
  intros Hl Hd Ee. unfold live. rewrite Ee. apply omap_seq; [done|]. intros j Hj.
  destruct (lookup_lt_is_Some_2 done_ j) as [v Hv]; [lia|]. rewrite Hv. cbn. by apply Hd.
Qed.

Definition good_forwarding (h : gc_heap) : Prop := ∀ p, header_info (cl h) p ≠ MK_FORWARDING_PTR NULL.

Lemma kept_null h l : good_forwarding h → NULL ∉ l → NULL ∉ kept h l.
Proof.
  intros Hh. induction l as [|p l IH]; intros Hn; [done|]. rewrite not_elem_of_cons in Hn. destruct Hn as [Hp Hl].
  rewrite kept_cons. destruct (prune_verdict h p) as [v| |] eqn:E; [|by apply IH..].
  apply not_elem_of_cons. split; [|by apply IH]. unfold prune_verdict in E.
  repeat case_match; simplify_eq; try done.
  intros E'. apply (Hh p). change (MK_FORWARDING_PTR NULL) with 1. unfold UN_FORWARDING_PTR, END in E'. lia.
Qed.

Lemma prune_ok h c :
  paused (sparks c) → good_forwarding h →
  wp (pruneSparkQueue h) (λ _ c', quiet (sparks c') ∧ live (sparks c') = kept h (live (sparks c)) ∧
    size (sparks c') = size (sparks c) ∧ bottom (sparks c') < 2 * size (sparks c) ∧
    c' = mkCap (sparks c') (prune_stats h (live (sparks c)) (spark_stats c)) (run_queue_hd c) (returning_tasks_hd c)) c.
Proof.
  intros Hp Hh. destruct c as [q0 st rq rt]. cbn [sparks spark_stats run_queue_hd returning_tasks_hd] in *.
  destruct (prune_reset_ok q0 Hp) as (Hs & El & Es & Htb & Ht & Hle & Hf). pose proof (shaped_size Hs) as Hsz.
  set (q := prune_reset q0) in *. unfold pruneSparkQueue.
  wp_step. apply wp_pool. apply wp_modify. cbn [sparks]. fold q. clearbody q.
  wp_step. apply wp_pool. cbn [sparks set_sparks]. apply asserts_ok; [done|lia|].
  wp_step. wp_step. cbn [sparks set_sparks spark_stats run_queue_hd returning_tasks_hd].
  rewrite !land_modulo by done. pose proof (Z.mod_pos_bound (top q) (size q) ltac:(lia)). pose proof (Z.mod_pos_bound (bottom q) (size q) ltac:(lia)).
  wp_step. apply wp_assert; [apply andb_true_intro; split; apply Z.ltb_lt; lia|].
  rewrite <- !slot_Z by done. wp_step.
  pose proof (live_length q Hs Hle) as Hll.
  assert (quiet q) as Hq by (constructor; [done|lia|lia|rewrite El; by destruct Hp]).
  pose proof (prune_loop_ok h q Hs ltac:(lia) rq rt (Z.to_nat (size q)) (live q) 0 [] (elements q) st) as Hloop.
  cbn [length] in Hloop. rewrite !Z.add_0_r in Hloop.
  replace (set_elements (elements q) q) with q in Hloop by by destruct q.
  eapply wp_mono; [apply Hloop; [|lia]|].
  { constructor; [done|lia|done| |done]. intros i v Hi. rewrite Z.add_0_r. pose proof (lookup_lt_Some _ _ _ Hi).
    rewrite live_lookup by (try done; lia). by rewrite Nat2Z.id. }
  intros [currInd botInd] c1 (es & [= -> ->] & -> & [Hlen _ Hbeh _ Hdone]). cbn [app] in *. cbn [Nat.add] in Hbeh.
  wp_step. apply wp_assert; [by apply Z.eqb_eq|].
  do 2 (wp_step; apply wp_pool; wp_step). wp_step. apply wp_pool. wp_step. 
  set (B := Z.of_nat (slot q (bottom q))). set (m := Z.of_nat (length (kept h (live q)))).
  assert (bottom q mod size q = B) as EB by (by rewrite <- slot_Z).
  assert (0 <= m <= size q - 1) as Hm by (pose proof (kept_length h (live q)); lia).
  assert ((if B <=? Z.of_nat (slot q (bottom q + m)) then Z.of_nat (slot q (bottom q + m)) else wrapU 64 (Z.of_nat (slot q (bottom q + m)) + size q)) = B + m) as Ebot.
  { rewrite slot_Z, Z.add_mod, EB, (Z.mod_small m) by (try done; lia). pose proof (slot_bound q (bottom q) Hs) as HB. fold B in HB.
    destruct (decide (B + m < size q)).
    - rewrite Z.mod_small by lia. by rewrite (proj2 (Z.leb_le _ _)) by lia.
    - assert ((B + m) mod size q = B + m - size q) as -> by (symmetry; apply (Z.mod_unique _ _ 1); lia).
      rewrite (proj2 (Z.leb_gt _ _)) by lia. assert (2 ^ 40 < 2 ^ 64) by (apply Z.pow_lt_mono_r; lia). rewrite wrapU_small by lia. lia. }
  cbn [sparks set_sparks spark_stats run_queue_hd returning_tasks_hd size set_topBound set_top set_elements]. rewrite Ebot.
  set (q' := set_bottom _ _). pose proof (slot_bound q (bottom q) Hs) as HB. fold B in HB.
  assert (shaped q') as Hs' by (by apply (shaped_fields q)).
  assert (live q' = kept h (live q)) as El'.
  { apply (live_of_done _ es); [cbn; lia| |done]. intros i v Hi. rewrite <- (Hdone i v Hi). f_equal.
    apply slot_shift; [done..|]. cbn [top q' set_bottom set_topBound set_top]. rewrite Z.add_mod, <- EB, Z.mod_mod, <- Z.add_mod by lia. done. }
  apply wp_pool. cbn [sparks set_sparks]. apply asserts_ok; [done|cbn; lia|].
  cbn [sparks set_sparks spark_stats run_queue_hd returning_tasks_hd]. rewrite El', El. split_and!; [|done|exact Es|cbn; lia|done].
  constructor; [done|cbn; lia|cbn; lia|]. rewrite El', El. apply kept_null; [done|]. by destruct Hp.
Qed.

(** ** Traversal *)
Fixpoint evac_all {U} (evac : ptr → U → ptr * U) (user : U) (l : list ptr) : list ptr * U :=
  match l with
  | [] => ([], user)
  | p :: l => let '(p', user) := evac p user in let '(l', user) := evac_all evac user l in (p' :: l', user)
  end.

Lemma evac_all_cons {U} (evac : ptr → U → ptr * U) user p l :
  evac_all evac user (p :: l) =
  ((evac p user).1 :: (evac_all evac (evac p user).2 l).1, (evac_all evac (evac p user).2 l).2).
Proof. cbn. destruct (evac p user) as [p' u]. cbn. by destruct (evac_all evac u l). Qed.

Section traverse_loop.
Context {U : Type} (evac : ptr → U → ptr * U) (q : WSDeque) (Hq : quiet q) (rq rt : ptr) (st : SparkCounters).

Record traversing (done_ rest es : list ptr) : Prop := {
  tr_len : length es = length (elements q);
  tr_pos : bottom q = top q + Z.of_nat (length done_) + Z.of_nat (length rest);
  tr_rest i v : rest !! i = Some v → es !! slot q (top q + Z.of_nat (length done_) + Z.of_nat i) = Some v;
  tr_done i v : done_ !! i = Some v → es !! slot q (top q + Z.of_nat i) = Some v
}.

Lemma traversing_one done_ p v rest es :
  traversing done_ (p :: rest) es →
  traversing (done_ ++ [v]) rest (<[slot q (top q + Z.of_nat (length done_)) := v]> es).
Proof using Hq.
  intros [Hl Hp Hr Hd]. cbn in Hp. pose proof Hq as [Hs _ Hf _].
  constructor; [by rewrite length_insert|rewrite length_app; cbn; lia| |].
  - intros i w Hi. pose proof (lookup_lt_Some _ _ _ Hi). rewrite length_app. cbn [length].
    rewrite list_lookup_insert_ne by (apply slot_ne; [done|lia]).
    rewrite <- (Hr (Datatypes.S i) w Hi). do 2 f_equal. lia.
  - intros i w Hi. pose proof (lookup_lt_Some _ _ _ Hi) as Hlt. rewrite length_app in Hlt. cbn in Hlt.
    destruct (decide (i = length done_)) as [->|Hne].
    + rewrite lookup_app_r, Nat.sub_diag in Hi by lia. injection Hi as <-. apply list_lookup_insert_eq.
      rewrite Hl. pose proof (slot_bound q (top q + Z.of_nat (length done_)) Hs). pose proof (sh_len q Hs). lia.
    + rewrite lookup_app_l in Hi by lia. rewrite list_lookup_insert_ne; [by apply Hd|].
      apply not_eq_sym, slot_ne; [done|lia].
Qed.

Lemma traverse_loop_ok fuel rest done_ es user :
  traversing done_ rest es → (length rest <= fuel)%nat →
  wp (traverse_loop fuel evac user (top q + Z.of_nat (length done_)) (bottom q))
     (λ u c', ∃ es', u = (evac_all evac user rest).2 ∧ c' = mkCap (set_elements es' q) st rq rt ∧
        traversing (done_ ++ (evac_all evac user rest).1) [] es')
     (mkCap (set_elements es q) st rq rt).
Proof using Hq.
  revert fuel done_ es user. induction rest as [|p rest IH]; intros fuel done_ es user Htr Hfuel;
    pose proof (tr_pos _ _ _ Htr) as Hp; cbn in Hp, Hfuel.
  - destruct fuel; cbn [traverse_loop]; rewrite (proj2 (Z.ltb_ge _ _)) by lia; apply wp_ret; exists es; cbn; by rewrite app_nil_r.
  - destruct fuel as [|fuel]; [lia|]. cbn [traverse_loop]. rewrite (proj2 (Z.ltb_lt _ _)) by lia.
    do 2 wp_step. cbn [sparks moduloSize set_elements].
    wp_step. eapply wp_element.
    { rewrite <- (tr_rest _ _ _ Htr 0%nat p eq_refl). cbn. by rewrite Z.add_0_r. }
    rewrite evac_all_cons. destruct (evac p user) as [p' u]. cbn [fst snd]. wp_step.
    apply wp_set_element; cbn [sparks elements set_elements]; fold (slot q (top q + Z.of_nat (length done_))).
    { apply lookup_lt_is_Some. rewrite (tr_len _ _ _ Htr). pose proof Hq as [Hs _ _ _].
      pose proof (slot_bound q (top q + Z.of_nat (length done_)) Hs). pose proof (sh_len q Hs). lia. }
    cbv beta. pose proof (traversing_one _ _ p' _ _ Htr) as Htr'. pose proof Hq as [_ Hb _ _].
    rewrite wrapU_small by (assert (2 ^ 61 < 2 ^ 64) by (apply Z.pow_lt_mono_r; lia); lia).
    replace (top q + Z.of_nat (length done_) + 1) with (top q + Z.of_nat (length (done_ ++ [p']))) by (rewrite length_app; cbn; lia).
    replace (done_ ++ p' :: (evac_all evac u rest).1) with ((done_ ++ [p']) ++ (evac_all evac u rest).1) by by rewrite <- app_assoc.
    apply IH; [done|lia].
Qed.
End traverse_loop.

Lemma evac_all_length {U} (evac : ptr → U → ptr * U) user l : length (evac_all evac user l).1 = length l.
Proof. revert user. induction l as [|p l IH]; intros user; [done|]. rewrite evac_all_cons. cbn. by rewrite IH. Qed.

Lemma traverse_ok {U} (evac : ptr → U → ptr * U) user c :
  quiet (sparks c) → NULL ∉ (evac_all evac user (live (sparks c))).1 →
  wp (traverseSparkQueue evac user) (λ u c', quiet (sparks c') ∧ bottom (sparks c') = bottom (sparks c) ∧
    size (sparks c') = size (sparks c) ∧
    (live (sparks c'), u) = evac_all evac user (live (sparks c)) ∧
    c' = mkCap (sparks c') (spark_stats c) (run_queue_hd c) (returning_tasks_hd c)) c.
Proof.
  intros Hq Hnull. destruct c as [q st rq rt]. cbn [sparks spark_stats run_queue_hd returning_tasks_hd] in *.
  pose proof Hq as [Hs Hb Hf Hn]. pose proof (live_length q Hs ltac:(lia)) as Hl.
  unfold traverseSparkQueue. wp_step. apply wp_pool. cbn [sparks]. apply asserts_ok; [done|lia|]. do 2 wp_step. cbn [sparks set_sparks].
  pose proof (traverse_loop_ok evac q Hq rq rt st (Z.to_nat (bottom q - top q)) (live q) [] (elements q) user) as Hloop.
  cbn [length app] in Hloop. rewrite Z.add_0_r in Hloop. replace (set_elements (elements q) q) with q in Hloop by by destruct q.
  eapply wp_mono; [apply Hloop; [|lia]|].
  { constructor; [done|cbn; lia| |done]. intros i v Hi. pose proof (lookup_lt_Some _ _ _ Hi). cbn. rewrite Z.add_0_r.
    rewrite live_lookup by (try done; lia). by rewrite Nat2Z.id. }
  intros u c' (es & -> & -> & [Hlen _ _ Hdone]). cbn [sparks spark_stats run_queue_hd returning_tasks_hd].
  assert (live (set_elements es q) = (evac_all evac user (live q)).1) as El.
  { apply (live_of_done _ es); [rewrite evac_all_length; cbn; lia| |done]. exact Hdone. }
  split_and!; try done.
  - constructor; [by apply (shaped_fields q)|done|done|]. by rewrite El.
  - rewrite El. by destruct (evac_all evac user (live q)).
Qed.
