(* ===== verification/SparkMain.v ===== *)
(** * Sparks: the count of the sparks, and the pruning of pools *)
From stdpp Require Import list gmap.
From S2P Require Import Prelude DList WSDeque WSDequeSpec WSDequeSim WSDequeMain ClosureFlags Sparks SparkProps.
Local Open Scope Z_scope.

(** ** Sums over the capabilities *)
Definition total (f : Capability → Z) (cs : list Capability) : Z := foldr (λ c acc, f c + acc) 0 cs.

Lemma total_app f cs1 cs2 : total f (cs1 ++ cs2) = total f cs1 + total f cs2.
Proof. induction cs1 as [|c cs1 IH]; cbn; [done|]. unfold total in *. cbn. lia. Qed.

Lemma total_insert f cs i c c' : cs !! i = Some c → total f (<[i := c']> cs) = total f cs - f c + f c'.
Proof.
  intros Hi. rewrite insert_take_drop by (by eapply lookup_lt_Some).
  rewrite <- (take_drop_middle cs i c Hi) at 3. rewrite !total_app. unfold total. cbn. lia.
Qed.

(** Equality of words *)
Definition eqm (a b : Z) : Prop := ∃ k, a = b + k * 2 ^ 64.

Lemma eqm_wrapU z : eqm (wrapU 64 z) z.
Proof. exists (- (z / 2 ^ 64)). unfold wrapU. pose proof (Z.div_mod z (2 ^ 64)). lia. Qed.

Lemma eqm_eq a b : eqm a b → wrapU 64 a = wrapU 64 b.
Proof. intros [k ->]. unfold wrapU. by rewrite Z_mod_plus_full. Qed.

#[export] Instance eqm_equiv : Equivalence eqm.
Proof.
  split.
  - intros a. exists 0. lia.
  - intros a b [k ->]. exists (- k). lia.
  - intros a b c [k ->] [j ->]. exists (k + j). lia.
Qed.
#[export] Instance eqm_add : Proper (eqm ==> eqm ==> eqm) Z.add.
Proof. intros a a' [k ->] b b' [j ->]. exists (k + j). lia. Qed.
#[export] Instance eqm_sub : Proper (eqm ==> eqm ==> eqm) Z.sub.
Proof. intros a a' [k ->] b b' [j ->]. exists (k - j). lia. Qed.

Lemma sum64_total f cs : sum64 f cs = wrapU 64 (total f cs).
Proof.
  assert (∀ acc, foldl (λ acc c, wrapU 64 (acc + f c)) (wrapU 64 acc) cs = wrapU 64 (acc + total f cs)) as Hgen.
  { induction cs as [|c cs IH]; intros acc; cbn; [by rewrite Z.add_0_r|]. unfold total in *. cbn in IH |- *.
    assert (wrapU 64 (wrapU 64 acc + f c) = wrapU 64 (acc + f c)) as -> by (apply eqm_eq; by rewrite eqm_wrapU).
    rewrite IH. f_equal. lia. }
  exact (Hgen 0).
Qed.

(** ** The account of a capability *)
Definition counted (s : SparkCounters) : Z := created s - converted s - gcd s - fizzled s.
Definition balance (c : Capability) : Z := counted (spark_stats c) - Z.of_nat (length (live (sparks c))).

Lemma counted_created s : eqm (counted (inc_created s)) (counted s + 1).
Proof. unfold counted. cbn. rewrite eqm_wrapU. exists 0. lia. Qed.
Lemma counted_converted s : eqm (counted (inc_converted s)) (counted s - 1).
Proof. unfold counted. cbn. rewrite eqm_wrapU. exists 0. lia. Qed.
Lemma counted_gcd n s : eqm (counted (add_gcd n s)) (counted s - n).
Proof. unfold counted. cbn. rewrite eqm_wrapU. exists 0. lia. Qed.
Lemma counted_fizzled s : eqm (counted (inc_fizzled s)) (counted s - 1).
Proof. unfold counted. cbn. rewrite eqm_wrapU. exists 0. lia. Qed.

Lemma counted_prune h l s :
  eqm (counted (prune_stats h l s)) (counted s - Z.of_nat (length l) + Z.of_nat (length (kept h l))).
Proof.
  revert s. induction l as [|p l IH]; intros s; [exists 0; cbn; lia|].
  rewrite kept_cons. unfold prune_stats in *. cbn [foldl length]. rewrite IH.
  destruct (prune_verdict h p); rewrite ?counted_fizzled, ?counted_gcd; exists 0; cbn [length]; lia.
Qed.

(** The invariant: every pool is a deque at rest with its bottom at most [B],
    and the accounts of all capabilities together are even. *)
Definition pools_ok (B : Z) (cs : list Capability) : Prop :=
  ∀ i c, cs !! i = Some c → quiet (sparks c) ∧ bottom (sparks c) <= B.
Definition even_count (cs : list Capability) : Prop := eqm (total balance cs) 0.

Lemma pools_ok_insert B cs i c' :
  pools_ok B cs → quiet (sparks c') → bottom (sparks c') <= B → pools_ok B (<[i := c']> cs).
Proof.
  intros Hok Hq Hb j c. rewrite list_lookup_insert_Some. intros [(-> & -> & _)|[_ Hj]]; [done|by eapply Hok].
Qed.

Lemma pools_ok_more B B' cs : pools_ok B cs → B <= B' → pools_ok B' cs.
Proof. intros Hok HB i c Hi. destruct (Hok i c Hi). split; [done|lia]. Qed.

Lemma dequeElements_live q : quiet q → dequeElements q = Z.of_nat (length (live q)).
Proof. intros [Hs Hb _ _]. unfold dequeElements. rewrite (live_length q), !wrapS_small by (try done; lia). done. Qed.

Lemma empty_live c : quiet (sparks c) → emptySparkPoolCap c = bool_decide (live (sparks c) = []).
Proof.
  intros Hq. unfold emptySparkPoolCap, looksEmpty, looksEmptyWSDeque. rewrite dequeElements_live by done.
  case_bool_decide as E; [by rewrite E|]. apply Z.leb_gt. destruct (live (sparks c)); [done|cbn; lia].
Qed.

Lemma total_ext f g cs : (∀ i c, cs !! i = Some c → f c = g c) → total f cs = total g cs.
Proof.
  induction cs as [|c cs IH]; intros Hfg; [done|]. unfold total in *. cbn.
  rewrite (Hfg 0%nat c eq_refl), IH; [done|]. intros i c' Hi. by apply (Hfg (Datatypes.S i)).
Qed.

Lemma total_balance cs :
  total balance cs = total (λ c, created (spark_stats c)) cs - total (λ c, converted (spark_stats c)) cs -
    total (λ c, gcd (spark_stats c)) cs - total (λ c, fizzled (spark_stats c)) cs - total (λ c, Z.of_nat (length (live (sparks c)))) cs.
Proof. induction cs as [|c cs IH]; [done|]. unfold total, balance, counted in *. cbn. lia. Qed.

Lemma even_check B cs : pools_ok B cs → even_count cs → checkSparkCountInvariant cs = true.
Proof.
  intros Hok Hev. unfold checkSparkCountInvariant. cbv zeta. rewrite !sum64_total. apply Z.eqb_eq, eqm_eq.
  rewrite !eqm_wrapU. unfold even_count in Hev. rewrite total_balance in Hev.
  rewrite (total_ext (λ c, sparkPoolSize (sparks c)) (λ c, Z.of_nat (length (live (sparks c))))) by
    (intros i c Hi; apply dequeElements_live; by destruct (Hok i c Hi)).
  destruct Hev as [k Hk]. exists k. lia.
Qed.

(** ** newSpark *)
Lemma newSpark_ok h p c :
  quiet (sparks c) → p ≠ NULL → bottom (sparks c) + 1 < 2 ^ 61 →
  wp (newSpark h p) (λ r c', r = 1 ∧ quiet (sparks c') ∧ bottom (sparks c') <= bottom (sparks c) + 1 ∧ eqm (balance c') (balance c) ∧
    ((fizzledSpark h p = true ∧ c' = set_stats (inc_dud (spark_stats c)) c) ∨
     (fizzledSpark h p = false ∧ Z.of_nat (length (live (sparks c))) < size (sparks c) - 1 ∧
        live (sparks c') = live (sparks c) ++ [p] ∧ spark_stats c' = inc_created (spark_stats c)) ∨
     (fizzledSpark h p = false ∧ size (sparks c) - 1 <= Z.of_nat (length (live (sparks c))) ∧
        live (sparks c') = live (sparks c) ∧ spark_stats c' = inc_overflowed (spark_stats c)))) c.
Proof.
  intros Hq Hp Hb. unfold newSpark. wp_step. destruct (fizzledSpark h p) eqn:E; cbn [negb].
  - apply wp_count. wp_step. split_and!; [done|done|cbn; lia|exists 0; unfold balance, counted; cbn; lia|by left].
  - wp_step. apply wp_pool. eapply wp_mono; [by apply push_alone|]. cbv beta. intros [] q' (Hq' & Es & Hbot & Hlen & El).
    + apply wp_count. wp_step. cbn. split_and!; [done|done|lia| |right; left; done].
      unfold balance. cbn [spark_stats sparks set_stats set_sparks]. rewrite counted_created, El, length_app. exists 0. cbn. lia.
    + apply wp_count. wp_step. cbn. split_and!; [done|done|lia| |right; right; done].
      unfold balance. cbn [spark_stats sparks set_stats set_sparks]. rewrite El. exists 0. unfold counted. cbn. lia.
Qed.

(** ** findSpark *)
Lemma stealWSDeque_ok q :
  quiet q →
  wp tryStealSpark (λ v q', quiet q' ∧ bottom q' = bottom q ∧
    (live q = v :: live q' ∨ live q = [] ∧ live q' = [] ∧ v = NULL)) q.
Proof.
  intros Hq. eapply wp_mono; [apply (steal_alone q false Hq)|]. cbv beta. intros v q' (Hq' & _ & Hb & Hv). done.
Qed.

(** The pools only lose sparks from their front. *)
Definition shrinks (cs cs' : list Capability) : Prop :=
  length cs' = length cs ∧
  ∀ i c c', cs !! i = Some c → cs' !! i = Some c' → live (sparks c') `suffix_of` live (sparks c).

#[export] Instance shrinks_preorder : PreOrder shrinks.
Proof.
  split.
  - intros cs. split; [done|]. intros i c c' Hi Hi'. assert (c = c') as -> by congruence. done.
  - intros cs1 cs2 cs3 [El1 H1] [El2 H2]. split; [congruence|]. intros i c c' Hi Hi'.
    destruct (lookup_lt_is_Some_2 cs2 i) as [c2 Hc2]; [rewrite El1; by eapply lookup_lt_Some|].
    transitivity (live (sparks c2)); eauto.
Qed.

Lemma shrinks_insert cs i c c' :
  cs !! i = Some c → live (sparks c') `suffix_of` live (sparks c) → shrinks cs (<[i := c']> cs).
Proof.
  intros Hi Hsuf. split; [by rewrite length_insert|]. intros j d d' Hj. rewrite list_lookup_insert_Some.
  intros [(-> & -> & _)|[_ Hj']]; [by simplify_eq|by simplify_eq].
Qed.

Definition pool_of (cs : list Capability) (i : nat) : list ptr :=
  match cs !! i with Some c => live (sparks c) | None => [] end.

Lemma shrinks_empty cs cs' i : shrinks cs cs' → pool_of cs i = [] → pool_of cs' i = [].
Proof.
  intros [El Hsuf]. unfold pool_of. destruct (cs' !! i) as [c'|] eqn:E'; [|done].
  destruct (lookup_lt_is_Some_2 cs i) as [c Hc]; [rewrite <- El; by eapply lookup_lt_Some|]. rewrite Hc.
  intros E. specialize (Hsuf i c c' Hc E'). rewrite E in Hsuf. by apply suffix_nil_inv in Hsuf.
Qed.

Section find.
Context (B : Z) (h : closures).

Lemma count_ok f d cs i :
  (∀ s, eqm (counted (f s)) (counted s + d)) → pools_ok B cs → (i < length cs)%nat →
  wp (with_cap i (count f)) (λ _ cs', pools_ok B cs' ∧ shrinks cs cs' ∧ (∀ j, pool_of cs' j = pool_of cs j) ∧
    eqm (total balance cs') (total balance cs + d)) cs.
Proof using.
  intros Hf Hok Hi. destruct (lookup_lt_is_Some_2 cs i Hi) as [c Hc]. eapply wp_with_cap; [done|]. apply wp_count.
  destruct (Hok i c Hc) as [Hq Hb]. split_and!.
  - by apply pools_ok_insert.
  - by eapply shrinks_insert.
  - intros j. unfold pool_of. destruct (decide (j = i)) as [->|]; [by rewrite list_lookup_insert_eq, Hc|by rewrite list_lookup_insert_ne].
  - rewrite (total_insert balance _ _ _ _ Hc). unfold balance. cbn [spark_stats sparks set_stats]. rewrite Hf. exists 0. lia.
Qed.

Lemma steal_ok cs j :
  pools_ok B cs → (j < length cs)%nat →
  wp (with_cap j (pool tryStealSpark)) (λ v cs', pools_ok B cs' ∧ shrinks cs cs' ∧
    (v = NULL ∧ pool_of cs' j = [] ∧ eqm (total balance cs') (total balance cs) ∨
     v ≠ NULL ∧ pool_of cs j = v :: pool_of cs' j ∧ eqm (total balance cs') (total balance cs + 1))) cs.
Proof using.
  intros Hok Hj. destruct (lookup_lt_is_Some_2 cs j Hj) as [c Hc]. destruct (Hok j c Hc) as [Hq Hb].
  eapply wp_with_cap; [done|]. apply wp_pool. eapply wp_mono; [by apply stealWSDeque_ok|]. cbv beta. intros v q' (Hq' & Hb' & Hv).
  assert (pools_ok B (<[j := set_sparks q' c]> cs)) as Hok' by (apply pools_ok_insert; [done..|cbn; lia]).
  unfold pool_of. rewrite Hc, list_lookup_insert_eq by done. cbn [sparks set_sparks].
  rewrite (total_insert balance _ _ _ _ Hc).
  assert (∀ n, Z.of_nat (length (live q')) = Z.of_nat (length (live (sparks c))) - n →
    balance (set_sparks q' c) = balance c + n) as Hbal by (intros n Hn; unfold balance; cbn [spark_stats sparks set_sparks]; lia).
  destruct Hv as [El|(El & El' & ->)].
  - split_and!; [done|eapply shrinks_insert; [done|]; rewrite El; cbn; by apply suffix_cons_r|].
    right. split_and!; [|done|rewrite (Hbal 1) by (rewrite El; cbn; lia); exists 0; lia].
    intros ->. apply (qu_null _ Hq). rewrite El. by left.
  - split_and!; [done|eapply shrinks_insert; [done|]; cbn; by rewrite El, El'|].
    left. split_and!; [done|done|rewrite (Hbal 0) by (rewrite El, El'; done); exists 0; lia].
Qed.

(** What one victim gives: a spark that is worth running and not yet counted,
    or nothing, with the victim's pool empty. *)
Definition stolen_from (j : nat) (cs : list Capability) (v : ptr) (cs' : list Capability) : Prop :=
  pools_ok B cs' ∧ shrinks cs cs' ∧
  (v = NULL ∧ pool_of cs' j = [] ∧ eqm (total balance cs') (total balance cs) ∨
   v ≠ NULL ∧ fizzledSpark h v = false ∧ v ∈ pool_of cs j ∧ eqm (total balance cs') (total balance cs + 1)).

Lemma steal_unfizzled_ok fuel cs i j :
  pools_ok B cs → (i < length cs)%nat → (j < length cs)%nat → (length (pool_of cs j) <= fuel)%nat →
  wp (steal_unfizzled fuel h i j) (stolen_from j cs) cs.
Proof using.
  revert cs. induction fuel as [|fuel IH]; intros cs Hok Hi Hj Hlen; cbn [steal_unfizzled]; wp_step;
    (eapply wp_mono; [by apply steal_ok|]); cbv beta; intros v cs1 (Hok1 & Hsh1 & [(-> & E1 & Hb1)|(Hv & E1 & Hb1)]).
  - change (NULL =? NULL) with true. cbn [negb andb]. apply wp_ret. split_and!; [done..|]. by left.
  - rewrite E1 in Hlen. cbn in Hlen. lia.
  - change (NULL =? NULL) with true. cbn [negb andb]. apply wp_ret. split_and!; [done..|]. by left.
  - rewrite (proj2 (Z.eqb_neq _ _)) by done. cbn [negb andb]. destruct (fizzledSpark h v) eqn:Ef.
    + pose proof Hsh1 as [El1 _]. wp_step. eapply wp_mono; [apply (count_ok _ (-1)); [|done|lia]|].
      { intros s. rewrite counted_fizzled. exists 0. lia. }
      intros _ cs2 (Hok2 & Hsh2 & Hp2 & Hb2). pose proof Hsh2 as [El2 _].
      eapply wp_mono; [apply IH; [done|lia|lia|rewrite Hp2; rewrite E1 in Hlen; cbn in Hlen; lia]|].
      intros w cs3 (Hok3 & Hsh3 & Hcase). split; [done|]. split; [by rewrite Hsh1, Hsh2|].
      assert (eqm (total balance cs2) (total balance cs)) as Hb by (rewrite Hb2, Hb1; exists 0; lia).
      destruct Hcase as [(-> & E3 & Hb3)|(Hw & Ew & Hin & Hb3)].
      * left. split_and!; [done..|]. by rewrite Hb3.
      * right. split_and!; [done|done| |by rewrite Hb3, Hb]. rewrite E1, Hp2 in *. by right.
    + apply wp_ret. split_and!; [done..|]. right. split_and!; [done|done|rewrite E1; by left|done].
Qed.

(** The result of the search: a spark, counted as converted, or nothing and
    the pools of [js] empty. *)
Definition searched (js : list nat) (cs : list Capability) (v : ptr) (cs' : list Capability) : Prop :=
  pools_ok B cs' ∧ shrinks cs cs' ∧ eqm (total balance cs') (total balance cs) ∧
  (v = NULL → ∀ j, j ∈ js → pool_of cs' j = []) ∧
  (v ≠ NULL → fizzledSpark h v = false ∧ ∃ j, v ∈ pool_of cs j).

Lemma convert_ok cs0 cs j js i v :
  stolen_from j cs0 v cs → v ≠ NULL → (i < length cs)%nat →
  wp (with_cap i (count inc_converted)) (λ _ cs', searched js cs0 v cs') cs.
Proof using.
  intros (Hok & Hsh & [[-> _]|(_ & Ef & Hin & Hb)]) Hv Hi; [done|].
  eapply wp_mono; [apply (count_ok _ (-1)); [|done|done]|].
  { intros s. rewrite counted_converted. exists 0. lia. }
  intros _ cs2 (Hok2 & Hsh2 & Hp2 & Hb2). split_and!; [done|by transitivity cs| |done|eauto].
  rewrite Hb2, Hb. exists 0. lia.
Qed.

Lemma empty_ok cs j : pools_ok B cs → (j < length cs)%nat →
  wp (with_cap j (gets emptySparkPoolCap)) (λ e cs', cs' = cs ∧ e = bool_decide (pool_of cs j = [])) cs.
Proof using.
  intros Hok Hj. destruct (lookup_lt_is_Some_2 cs j Hj) as [c Hc]. destruct (Hok j c Hc) as [Hq _].
  eapply wp_with_cap; [done|]. apply wp_gets. unfold pool_of. rewrite Hc, empty_live by done. split; [|done].
  by apply list_insert_id.
Qed.
Lemma searched_trans j js cs1 cs2 cs3 v :
  shrinks cs1 cs2 → eqm (total balance cs2) (total balance cs1) → pool_of cs2 j = [] →
  searched js cs2 v cs3 → searched (j :: js) cs1 v cs3.
Proof using.
  intros Hsh Hb Hj (Hok & Hsh' & Hb' & Hn & Hs). split_and!; [done|by rewrite Hsh|by rewrite Hb'| |].
  - intros -> k. rewrite elem_of_cons. intros [->|Hk]; [by eapply shrinks_empty|by apply Hn].
  - intros Hv. destruct (Hs Hv) as [Ef [k Hk]]. split; [done|]. exists k. destruct Hsh as [El Hsuf].
    unfold pool_of in *. destruct (cs2 !! k) as [c2|] eqn:E2; [|by apply elem_of_nil in Hk].
    destruct (lookup_lt_is_Some_2 cs1 k) as [c1 E1]; [rewrite <- El; by eapply lookup_lt_Some|]. rewrite E1.
    destruct (Hsuf k c1 c2 E1 E2) as [l ->]. apply elem_of_app. by right.
Qed.

Lemma searched_nothing cs j : pools_ok B cs → pool_of cs j = [] → searched [j] cs NULL cs.
Proof using.
  intros Hok Hj. split_and!; [done|done|done| |done]. intros _ k Hk. apply list_elem_of_singleton in Hk. by subst.
Qed.

Lemma rob_ok fuel i js cs retry :
  pools_ok B cs → (i < length cs)%nat → pool_of cs i = [] → Forall (λ j, j < length cs)%nat js →
  (∀ j, length (pool_of cs j) <= fuel)%nat →
  wp (rob fuel h i js retry) (λ r cs', r.2 = retry ∧ searched js cs r.1 cs') cs.
Proof using.
  revert cs. induction js as [|j js IH]; intros cs Hok Hi Hemp Hjs Hfuel; cbn [rob].
  { apply wp_ret. split; [done|]. split_and!; [done|done|done| |done]. intros _ j Hj. by apply elem_of_nil in Hj. }
  apply Forall_cons in Hjs as [Hj Hjs].
  assert (∀ cs', pools_ok B cs' → shrinks cs cs' → eqm (total balance cs') (total balance cs) → pool_of cs' j = [] →
    wp (rob fuel h i js retry) (λ r cs'', r.2 = retry ∧ searched (j :: js) cs r.1 cs'') cs') as Hgo.
  { intros cs' Hok' Hsh' Hb' Hj'. pose proof Hsh' as [El Hsuf]. eapply wp_mono; [apply IH|].
    - done.
    - by rewrite El.
    - by eapply shrinks_empty.
    - by rewrite El.
    - intros k. etrans; [|apply (Hfuel k)]. unfold pool_of. destruct (cs' !! k) as [c'|] eqn:E'; [|cbn; lia].
      destruct (lookup_lt_is_Some_2 cs k) as [c Hc]; [rewrite <- El; by eapply lookup_lt_Some|]. rewrite Hc.
      by apply suffix_length, Hsuf with k.
    - intros [v r] cs3 [Er Hs]. split; [done|]. by eapply searched_trans. }
  destruct (i =? j)%nat eqn:Eij; [apply Nat.eqb_eq in Eij as <-; by apply Hgo|].
  wp_step. eapply wp_mono; [by apply empty_ok|]. cbv beta. intros e ? [-> ->].
  case_bool_decide as Ee; [by apply Hgo|]. cbv iota.
  wp_step. eapply wp_mono; [by apply steal_unfizzled_ok|]. intros v cs1 Hst. pose proof Hst as (Hok1 & Hsh1 & Hcase). pose proof Hsh1 as [El1 _].
  wp_step. destruct Hcase as [(-> & E1 & Hb1)|(Hv & Ef & Hin & Hb1)].
  - change (NULL =? NULL) with true. cbn [negb]. wp_step. eapply wp_mono; [apply empty_ok; [done|lia]|]. cbv beta. intros e ? [-> ->].
    rewrite bool_decide_eq_true_2 by done. wp_step. by apply Hgo.
  - rewrite (proj2 (Z.eqb_neq _ _)) by done. cbn [negb]. do 2 wp_step.
    eapply wp_mono; [apply (convert_ok cs cs1 j (j :: js)); [done|done|lia]|]. cbv beta. intros _ cs2 Hs. wp_step. done.
Qed.

Lemma findSpark_ok tries fuel i c cs :
  pools_ok B cs → cs !! i = Some c → (0 < tries)%nat → (∀ j, length (pool_of cs j) <= fuel)%nat →
  let busy := negb (run_queue_hd c =? END) || negb (returning_tasks_hd c =? NULL) in
  wp (findSpark tries fuel h i) (λ v cs', if busy then v = NULL ∧ cs' = cs else searched (seq 0 (length cs)) cs v cs') cs.
Proof using.
  intros Hok Hc Htries Hfuel busy. assert (i < length cs)%nat as Hi by by eapply lookup_lt_Some.
  unfold findSpark. wp_step. eapply wp_with_cap; [done|]. wp_step. rewrite list_insert_id by done. fold busy.
  destruct busy; [by apply wp_ret|]. destruct tries as [|tries]; [lia|]. cbn [find_loop].
  wp_step. eapply wp_mono; [by apply steal_unfizzled_ok|]. intros v cs1 Hst. pose proof Hst as (Hok1 & Hsh1 & Hcase). pose proof Hsh1 as [El1 _].
  destruct Hcase as [(-> & E1 & Hb1)|(Hv & Ef & Hin & Hb1)].
  - change (NULL =? NULL) with true. cbn [negb]. wp_step. eapply wp_mono; [apply empty_ok; [done|lia]|]. cbv beta. intros e ? [-> ->].
    rewrite bool_decide_eq_true_2 by done. cbn [negb]. wp_step. cbn [n_capabilities undisturbed]. wp_step.
    destruct (length cs1 =? 1)%nat eqn:E.
    + apply Nat.eqb_eq in E. wp_step. rewrite <- El1, E. assert (i = 0%nat) as -> by lia.
      eapply (searched_trans 0 [] cs cs1); [done..|]. split_and!; [done|done|done| |done]. intros _ k Hk. by apply elem_of_nil in Hk.
    + wp_step. eapply wp_mono; [apply rob_ok; [done|lia|done| |]|].
      * apply Forall_forall. intros k Hk. apply elem_of_seq in Hk. lia.
      * intros k. etrans; [|apply (Hfuel k)]. unfold pool_of. destruct (cs1 !! k) as [c'|] eqn:E'; [|cbn; lia].
        destruct (lookup_lt_is_Some_2 cs k) as [c0 Hc0]; [rewrite <- El1; by eapply lookup_lt_Some|]. rewrite Hc0.
        by apply suffix_length, Hsh1 with k.
      * intros [v r] cs2 [Er Hs]. cbn [fst snd] in *. subst r. apply (searched_trans i _ cs) in Hs; [|done..].
        assert (searched (seq 0 (length cs)) cs v cs2) as Hs'.
        { destruct Hs as (H1 & H2 & H3 & H4 & H5). split_and!; [done..| |done]. intros Hv k Hk. apply H4; [done|]. right. by rewrite El1. }
        destruct (v =? NULL) eqn:Ev; cbn [negb]; [apply Z.eqb_eq in Ev; subst v|]; by wp_step.
  - rewrite (proj2 (Z.eqb_neq _ _)) by done. cbn [negb]. wp_step.
    eapply wp_mono; [apply (convert_ok cs cs1 i (seq 0 (length cs))); [done|done|lia]|]. cbv beta. intros _ cs2 Hs. by wp_step.
Qed.
End find.

(** ** Runs *)
Lemma with_cap_ok {A} B (m : prog Capability A) cs i B' :
  pools_ok B cs → (i < length cs)%nat → B <= B' →
  (∀ c, cs !! i = Some c → wp m (λ _ c', quiet (sparks c') ∧ bottom (sparks c') <= B' ∧ eqm (balance c') (balance c)) c) →
  wp (with_cap i m) (λ _ cs', length cs' = length cs ∧ pools_ok B' cs' ∧ eqm (total balance cs') (total balance cs)) cs.
Proof.
  intros Hok Hi HB Hm. destruct (lookup_lt_is_Some_2 cs i Hi) as [c Hc]. eapply wp_with_cap; [done|].
  eapply wp_mono; [by apply Hm|]. cbv beta. intros a c' (Hq & Hb & Hbal). split_and!; [by rewrite length_insert| |].
  - apply pools_ok_insert; [by apply pools_ok_more with B|done|done].
  - rewrite (total_insert balance _ _ _ _ Hc), Hbal. exists 0. lia.
Qed.

Lemma discard_ok B cs i :
  pools_ok B cs → (i < length cs)%nat →
  wp (size ← with_cap i (gets (λ c, sparkPoolSize (sparks c))); with_cap i (count (add_gcd size));; with_cap i discardSparksCap)
    (λ _ cs', length cs' = length cs ∧ pools_ok B cs' ∧ eqm (total balance cs') (total balance cs) ∧ pool_of cs' i = [] ∧
       ∀ j, j ≠ i → pool_of cs' j = pool_of cs j) cs.
Proof.
  intros Hok Hi. destruct (lookup_lt_is_Some_2 cs i Hi) as [c Hc]. destruct (Hok i c Hc) as [Hq Hb].
  wp_step. eapply wp_with_cap; [done|]. apply wp_gets. rewrite list_insert_id by done.
  wp_step. eapply wp_with_cap; [done|]. apply wp_count.
  eapply wp_with_cap; [by apply list_lookup_insert_eq|]. apply wp_pool. apply wp_modify.
  rewrite list_insert_insert_eq. cbn [sparks spark_stats set_stats set_sparks].
  set (c' := set_sparks _ _).
  assert (live (sparks c') = []) as El by (unfold live; cbn; by rewrite Z.sub_diag).
  split_and!.
  - by rewrite length_insert.
  - apply pools_ok_insert; [done| |done]. destruct Hq as [Hs Hbd Hf Hn].
    constructor; [by apply (shaped_fields (sparks c))|cbn; lia|cbn; pose proof (shaped_size Hs); lia|rewrite El; apply not_elem_of_nil].
  - rewrite (total_insert balance _ _ _ _ Hc). unfold balance at 3. rewrite El. subst c'. cbn [spark_stats set_sparks set_stats].
    rewrite counted_gcd. unfold sparkPoolSize. rewrite dequeElements_live by done. unfold balance. exists 0. cbn [length]. lia.
  - unfold pool_of. by rewrite list_lookup_insert_eq.
  - intros j Hj. unfold pool_of. by rewrite list_lookup_insert_ne.
Qed.

Lemma discardAll_ok B cs :
  pools_ok B cs →
  wp discardAllSparks (λ _ cs', length cs' = length cs ∧ pools_ok B cs' ∧ eqm (total balance cs') (total balance cs) ∧
    ∀ j, pool_of cs' j = []) cs.
Proof.
  intros Hok. unfold discardAllSparks. cbn [n_capabilities undisturbed]. wp_step. wp_step.
  eapply wp_mono.
  - apply (wp_for_each (λ pre cs', length cs' = length cs ∧ pools_ok B cs' ∧ eqm (total balance cs') (total balance cs) ∧
      ∀ j, (j ∈ pre → pool_of cs' j = []))).
    + split_and!; [done|done|done|]. by intros j ?%elem_of_nil.
    + intros pre i rest cs1 Hsplit (El & Hok1 & Hb1 & Hp1).
      assert (i < length cs)%nat as Hi.
      { assert (i ∈ seq 0 (length cs)) as Hin by (rewrite Hsplit, elem_of_app; right; left). apply elem_of_seq in Hin. lia. }
      eapply wp_mono; [apply (discard_ok B cs1 i); [done|lia]|]. cbv beta. intros _ cs2 (El2 & Hok2 & Hb2 & Hi2 & Hj2).
      split_and!; [congruence|done|by rewrite Hb2|]. intros j. rewrite elem_of_app, list_elem_of_singleton. intros Hj.
      destruct (decide (j = i)) as [->|]; [done|]. rewrite Hj2 by done. apply Hp1. naive_solver.
  - cbv beta. intros _ cs' (El & Hok' & Hb & Hp). split_and!; [done..|]. intros j.
    destruct (decide (j < length cs)%nat); [apply Hp, elem_of_seq; lia|].
    unfold pool_of. by rewrite lookup_ge_None_2 by lia.
Qed.

(** The calls that touch the pools and the counters.  Between them the run
    queue and the returning tasks of a capability change in any way. *)
Inductive spark_step : list Capability → list Capability → Prop :=
  | st_new cs i h p r cs' :
    p ≠ NULL → with_cap i (newSpark h p) cs = Ok (r, cs') → spark_step cs cs'
  | st_find cs i h tries fuel v cs' :
    (0 < tries)%nat → (∀ j, length (pool_of cs j) <= fuel)%nat → findSpark tries fuel h i cs = Ok (v, cs') → spark_step cs cs'
  | st_prune cs i h cs' :
    good_forwarding h → with_cap i (pruneSparkQueue h) cs = Ok (tt, cs') → spark_step cs cs'
  | st_traverse cs i U (evac : ptr → U → ptr * U) user user' cs' :
    (∀ p u, p ≠ NULL → (evac p u).1 ≠ NULL) → with_cap i (traverseSparkQueue evac user) cs = Ok (user', cs') → spark_step cs cs'
  | st_discard cs cs' :
    discardAllSparks cs = Ok (tt, cs') → spark_step cs cs'
  | st_other cs i c rq rt :
    cs !! i = Some c → spark_step cs (<[i := mkCap (sparks c) (spark_stats c) rq rt]> cs).

Inductive spark_run (cs : list Capability) : nat → list Capability → Prop :=
  | run_nil : spark_run cs 0 cs
  | run_snoc n cs1 cs2 : spark_run cs n cs1 → spark_step cs1 cs2 → spark_run cs (Datatypes.S n) cs2.

Lemma with_cap_inv {A} i (m : prog Capability A) cs a cs' : with_cap i m cs = Ok (a, cs') → (i < length cs)%nat.
Proof. unfold with_cap. destruct (cs !! i) eqn:E; [|done]. intros _. by eapply lookup_lt_Some. Qed.

Lemma evac_all_null {U} (evac : ptr → U → ptr * U) user l :
  (∀ p u, p ≠ NULL → (evac p u).1 ≠ NULL) → NULL ∉ l → NULL ∉ (evac_all evac user l).1.
Proof.
  intros He. revert user. induction l as [|p l IH]; intros user Hn; [done|].
  rewrite not_elem_of_cons in Hn. destruct Hn as [Hp Hl]. rewrite evac_all_cons. apply not_elem_of_cons.
  split; [by apply not_eq_sym, He, not_eq_sym|by apply IH].
Qed.

Lemma spark_step_ok B cs cs' :
  2 ^ 42 <= B → B + 1 < 2 ^ 61 → pools_ok B cs → spark_step cs cs' →
  length cs' = length cs ∧ pools_ok (B + 1) cs' ∧ eqm (total balance cs') (total balance cs).
Proof.
  intros HB HB1 Hok Hst. pose (Q := λ cs', length cs' = length cs ∧ pools_ok (B + 1) cs' ∧ eqm (total balance cs') (total balance cs)).
  fold (Q cs').
  assert (∀ A (m : prog Capability A) i a, with_cap i m cs = Ok (a, cs') →
    (∀ c, quiet (sparks c) → bottom (sparks c) <= B →
      wp m (λ _ c', quiet (sparks c') ∧ bottom (sparks c') <= B + 1 ∧ eqm (balance c') (balance c)) c) → Q cs') as Hcap.
  { intros A m i a E Hm. refine (wp_ok _ (λ _, Q) _ _ _ E _).
    apply (with_cap_ok B _ cs i (B + 1)); [done|by eapply with_cap_inv|lia|]. intros c Hc. destruct (Hok i c Hc). by apply Hm. }
  destruct Hst as [cs i h p r cs' Hp E|cs i h tries fuel v cs' Ht Hf E|cs i h cs' Hh E|cs i U evac user user' cs' He E|cs cs' E|cs i c rq rt Hc].
  - apply (Hcap _ _ _ _ E). intros c Hq Hb. eapply wp_mono; [apply newSpark_ok; [done|done|lia]|].
    cbv beta. intros r' c' (_ & Hq' & Hb' & Hbal & _). split_and!; [done|lia|done].
  - assert (i < length cs)%nat as Hi.
    { unfold findSpark, mbind, prog_bind in E. destruct (access i _ cs) as [[b cs1]|] eqn:E1; [|done]. by eapply with_cap_inv. }
    destruct (lookup_lt_is_Some_2 cs i Hi) as [c Hc].
    pose proof (wp_ok _ _ _ _ _ E (findSpark_ok B h tries fuel i c cs Hok Hc Ht Hf)) as Hwp. cbv beta in Hwp.
    destruct (_ || _); [destruct Hwp as [_ ->]|destruct Hwp as (Hok' & [El _] & Hb & _)];
      (split; [done|split; [eapply pools_ok_more; [done|lia]|done]]).
  - apply (Hcap _ _ _ _ E). intros c Hq Hb. eapply wp_mono; [apply prune_ok; [by apply quiet_paused|done]|].
    cbv beta. intros _ c' (Hq' & El & Es & Hb' & Ec). pose proof (shaped_size (qu_shape _ Hq)). split_and!; [done| |].
    + assert (2 ^ 42 = 4 * 2 ^ 40) by reflexivity. lia.
    + unfold balance. rewrite El, Ec. cbn [spark_stats]. rewrite counted_prune. exists 0. lia.
  - apply (Hcap _ _ _ _ E). intros c Hq Hb. eapply wp_mono; [apply traverse_ok; [done|apply evac_all_null; [done|by destruct Hq]]|].
    cbv beta. intros u c' (Hq' & Hb' & Es & El & Ec). split_and!; [done|lia|].
    unfold balance. assert (live (sparks c') = (evac_all evac user (live (sparks c))).1) as -> by (by rewrite <- El).
    rewrite evac_all_length, Ec. done.
  - refine (wp_ok _ (λ _, Q) _ _ _ E _). eapply wp_mono; [by apply (discardAll_ok B)|]. cbv beta. intros _ cs2 (El & Hok2 & Hb2 & _).
    split_and!; [done|eapply pools_ok_more; [done|lia]|done].
  - destruct (Hok i c Hc) as [Hq Hb]. split_and!; [by rewrite length_insert| |].
    + eapply pools_ok_insert; [eapply pools_ok_more; [done|lia]|done|cbn; lia].
    + rewrite (total_insert balance _ _ _ _ Hc). unfold balance at 3. cbn. fold (balance c). exists 0. unfold balance. lia.
Qed.

Lemma initCapability_ok junk maxLocalSparks c :
  1 <= maxLocalSparks < 2 ^ 40 → initCapability junk maxLocalSparks = Ok c →
  quiet (sparks c) ∧ live (sparks c) = [] ∧ bottom (sparks c) = 0 ∧ spark_stats c = mkCounters 0 0 0 0 0 0.
Proof.
  intros Hn. unfold initCapability, allocSparkPool. destruct (newWSDeque_ok junk maxLocalSparks Hn) as (q & -> & Hs & _ & Et & Eb & Etb).
  intros [= <-]. cbn. assert (live q = []) as El by (unfold live; by rewrite Et, Eb). split_and!; [|done..].
  constructor; [done|lia|pose proof (shaped_size Hs); lia|]. rewrite El. apply not_elem_of_nil.
Qed.

Definition initial (cs : list Capability) : Prop :=
  ∃ junk maxLocalSparks, 1 <= maxLocalSparks < 2 ^ 40 ∧ ∀ i c, cs !! i = Some c → initCapability junk maxLocalSparks = Ok c.

Lemma initial_ok cs : initial cs → pools_ok 0 cs ∧ even_count cs.
Proof.
  intros (junk & n & Hn & Hall). split.
  - intros i c Hi. destruct (initCapability_ok junk n c Hn (Hall i c Hi)) as (Hq & _ & Hb & _). split; [done|lia].
  - exists 0. rewrite (total_ext balance (λ _, 0)).
    + clear. induction cs; [done|]. unfold total in *. cbn. lia.
    + intros i c Hi. destruct (initCapability_ok junk n c Hn (Hall i c Hi)) as (_ & El & _ & Es). unfold balance. by rewrite El, Es.
Qed.

Lemma spark_run_ok cs n cs' :
  initial cs → spark_run cs n cs' → Z.of_nat n < 2 ^ 60 →
  length cs' = length cs ∧ pools_ok (2 ^ 42 + Z.of_nat n) cs' ∧ even_count cs'.
Proof.
  intros Hin Hrun. destruct (initial_ok cs Hin) as [Hok Hev]. induction Hrun as [|n cs1 cs2 _ IH Hst]; intros Hn.
  - split_and!; [done|by eapply pools_ok_more; [done|]|done].
  - destruct IH as (El & Hok1 & Hev1); [lia|].
    assert (2 ^ 42 + 2 ^ 60 + 2 < 2 ^ 61) by reflexivity.
    destruct (spark_step_ok (2 ^ 42 + Z.of_nat n) cs1 cs2) as (El2 & Hok2 & Hb2); [lia|lia|done|done|].
    split_and!; [congruence| |].
    + by replace (2 ^ 42 + Z.of_nat (Datatypes.S n)) with (2 ^ 42 + Z.of_nat n + 1) by lia.
    + unfold even_count. by rewrite Hb2.
Qed.

(** ** Properties *)

(** C8: no spark is lost or counted twice.  However newSpark, findSpark,
    pruneSparkQueue, traverseSparkQueue and the discarding of sparks at shutdown
    are called on the capabilities, the count that the source asserts,
    created = converted + remaining + gcd + fizzled, holds. *)
Theorem spark_count_invariant cs n cs' :
  initial cs → spark_run cs n cs' → Z.of_nat n < 2 ^ 60 → checkSparkCountInvariant cs' = true.
Proof.
  intros Hin Hrun Hn. destruct (spark_run_ok cs n cs' Hin Hrun Hn) as (_ & Hok & Hev). by eapply even_check.
Qed.

(** A heap of thunks, of which those up to 100 are still alive after a collection. *)
Definition demo_closures : closures := mkClosures (λ _, 2048) (λ _, THUNK).
Definition demo_gc : gc_heap := mkGC demo_closures (λ _, true) (λ p, if p <=? 100 then 1 else 0) (λ _, NULL).
Definition demo_cap : Capability := mkCap (mkDeque 4 3 0 0 0 [5; 5; 5; 5]) (mkCounters 0 0 0 0 0 0) END NULL.

Lemma demo_initial : initial [demo_cap; demo_cap].
Proof.
  exists (λ _, 5), 2. split; [lia|]. intros [|[|i]] c Hi; cbn in Hi; try discriminate Hi; injection Hi as <-; reflexivity.
Qed.

(** Capability 0 makes three sparks, capability 1 takes one, a collection
    prunes the pool of capability 0. *)
Lemma demo_run : ∃ cs', spark_run [demo_cap; demo_cap] 5 cs' ∧
  (map (λ c, (live (sparks c), spark_stats c)) cs' = [([16], mkCounters 3 0 0 0 1 0); ([], mkCounters 0 0 0 1 0 0)]).
Proof.
  eexists. split.
  - eapply run_snoc; [eapply run_snoc; [eapply run_snoc; [eapply run_snoc; [eapply run_snoc; [apply run_nil|]|]|]|]|].
    + apply (st_new _ 0 demo_closures 8 1); [done|vm_compute; reflexivity].
    + apply (st_new _ 0 demo_closures 16 1); [done|vm_compute; reflexivity].
    + apply (st_new _ 0 demo_closures 800 1); [done|vm_compute; reflexivity].
    + apply (st_find _ 1 demo_closures 1 5 8); [lia| |vm_compute; reflexivity].
      intros [|[|j]]; vm_compute; lia.
    + apply (st_prune _ 0 demo_gc); [|vm_compute; reflexivity]. by intros p.
  - vm_compute. reflexivity.
Qed.

Lemma spark_count_invariant_witness : ∃ cs', spark_run [demo_cap; demo_cap] 5 cs' ∧ checkSparkCountInvariant cs' = true.
Proof.
  destruct demo_run as (cs' & Hrun & _). exists cs'. split; [exact Hrun|].
  apply (spark_count_invariant [demo_cap; demo_cap] 5 cs'); [exact demo_initial|exact Hrun|reflexivity].
Defined.

(** What has become of a spark [p] in a collection, said without the code: it is
    alive at [p'] if it has been moved there, or stays in a block that is kept, or
    is a static closure; a static thunk is alive only if it is linked. *)
Inductive alive_at (h : gc_heap) (p : ptr) : ptr → Prop :=
  | alive_moved : IS_FORWARDING_PTR (header_info (cl h) p) = true →
      alive_at h p (UN_FORWARDING_PTR (header_info (cl h) p))
  | alive_in_place : IS_FORWARDING_PTR (header_info (cl h) p) = false →
      HEAP_ALLOCED h p = true → Z.odd (bd_flags h p) = true → alive_at h p p
  | alive_static : IS_FORWARDING_PTR (header_info (cl h) p) = false →
      HEAP_ALLOCED h p = false → (info_type (cl h) (header_info (cl h) p) = THUNK_STATIC → THUNK_STATIC_LINK h p ≠ NULL) → alive_at h p p.
(** A tagged pointer is one to a value. *)
Definition unevaluated (h : gc_heap) (p : ptr) : Prop := closure_SHOULD_SPARK (cl h) p = true.
Inductive fate (h : gc_heap) (p : ptr) : verdict → Prop :=
  | fate_kept p' : GET_CLOSURE_TAG p = 0 → alive_at h p p' → unevaluated h p' → fate h p (Keep p')
  | fate_value : GET_CLOSURE_TAG p ≠ 0 → fate h p Fizzle
  | fate_evaluated p' : GET_CLOSURE_TAG p = 0 → alive_at h p p' → ¬ unevaluated h p' → fate h p Fizzle
  | fate_dead : GET_CLOSURE_TAG p = 0 → (∀ p', ¬ alive_at h p p') → fate h p Garbage.
(** Outside the heap there are static closures only. *)
Definition statics_ok (h : gc_heap) : Prop := ∀ p,
  HEAP_ALLOCED h p = false → IS_FORWARDING_PTR (header_info (cl h) p) = false →
  info_type (cl h) (header_info (cl h) p) ∈ [CONSTR_STATIC; CONSTR_NOCAF_STATIC; FUN_STATIC; THUNK_STATIC; IND_STATIC].

Lemma evacuated_flag n : (Z.land n BF_EVACUATED =? 0) = negb (Z.odd n).
Proof.
  change BF_EVACUATED with (Z.ones 1). rewrite Z.land_ones by lia. change (2 ^ 1) with 2. rewrite Zmod_odd. by destruct (Z.odd n).
Qed.
Lemma untagged p : GET_CLOSURE_TAG p = 0 → UNTAG_CLOSURE p = p.
Proof. unfold UNTAG_CLOSURE, GET_CLOSURE_TAG. intros Et. pose proof (Z.lor_ldiff_and p TAG_MASK) as E. by rewrite Et, Z.lor_0_r in E. Qed.
Lemma static_unevaluated h p : statics_ok h → GET_CLOSURE_TAG p = 0 → HEAP_ALLOCED h p = false → IS_FORWARDING_PTR (header_info (cl h) p) = false →
  unevaluated h p ↔ info_type (cl h) (header_info (cl h) p) = THUNK_STATIC.
Proof.
  intros Hs Et Hh Hf. unfold unevaluated, closure_SHOULD_SPARK, closureFlags. rewrite untagged by done. specialize (Hs p Hh Hf).
  rewrite !elem_of_cons in Hs. destruct Hs as [-> |[-> |[-> |[-> |[-> |?%elem_of_nil]]]]]; done.
Qed.
(** The code's verdict is the fate of the spark. *)
Lemma verdict_fate h p : statics_ok h → fate h p (prune_verdict h p).
Proof.
  intros Hs. unfold prune_verdict. destruct (Z.eqb_spec (GET_CLOSURE_TAG p) 0) as [Et|Et]; cbn [negb]; [|by apply fate_value].
  destruct (IS_FORWARDING_PTR _) eqn:Ef.
  { pose proof (alive_moved h p Ef). destruct (closure_SHOULD_SPARK _ _) eqn:Es; [by apply fate_kept|]. eapply fate_evaluated; [done..|]. unfold unevaluated. by rewrite Es. }
  destruct (HEAP_ALLOCED h p) eqn:Eh.
  - rewrite evacuated_flag, negb_involutive. destruct (Z.odd (bd_flags h p)) eqn:Eb.
    + pose proof (alive_in_place h p Ef Eh Eb). destruct (closure_SHOULD_SPARK _ _) eqn:Es; [by apply fate_kept|]. eapply fate_evaluated; [done..|]. unfold unevaluated. by rewrite Es.
    + apply fate_dead; [done|]. intros p' Ha. destruct Ha; congruence.
  - pose proof (static_unevaluated h p Hs Et Eh Ef) as Hu. case_bool_decide as Ei.
    + destruct (Z.eqb_spec (THUNK_STATIC_LINK h p) NULL) as [El|El]; cbn [negb].
      * apply fate_dead; [done|]. intros p' Ha. destruct Ha as [?|?|? ? Hl]; [congruence..|]. by apply Hl.
      * apply fate_kept; [done| |by apply Hu]. by apply alive_static.
    + apply (fate_evaluated h p p); [done|by apply alive_static|]. by rewrite Hu.
Qed.

#[export] Instance verdict_eq_dec : EqDecision verdict.
Proof. solve_decision. Defined.
(** The counters after pruning the sparks [l], whose fates are [vs] *)
Definition fizzles (vs : list verdict) : Z := Z.of_nat (length (filter (λ v, v = Fizzle) vs)).
Definition garbage (vs : list verdict) : Z := Z.of_nat (length (filter (λ v, v = Garbage) vs)).
Definition kept_at (v : verdict) : option ptr := match v with Keep p' => Some p' | _ => None end.
Lemma prune_stats_fates h l s :
  let vs := prune_verdict h <$> l in let s' := prune_stats h l s in
  created s' = created s ∧ dud s' = dud s ∧ overflowed s' = overflowed s ∧ converted s' = converted s ∧
  eqm (fizzled s') (fizzled s + fizzles vs) ∧ eqm (gcd s') (gcd s + garbage vs).
Proof.
  cbv zeta. revert s. induction l as [|p l IH]; intros s; [cbn; unfold fizzles, garbage; cbn; split_and!; try done; exists 0; lia|].
  unfold prune_stats in *. cbn [foldl fmap list_fmap]. unfold fizzles, garbage in *. rewrite !filter_cons.
  destruct (prune_verdict h p) eqn:Ev.
  - rewrite !decide_False by done. apply IH.
  - rewrite decide_True, decide_False by done. destruct (IH (inc_fizzled s)) as (E1 & E2 & E3 & E4 & E5 & E6).
    split_and!; [done..| |done]. rewrite E5. cbn [fizzled inc_fizzled length]. rewrite eqm_wrapU. exists 0. lia.
  - rewrite decide_False, decide_True by done. destruct (IH (add_gcd 1 s)) as (E1 & E2 & E3 & E4 & E5 & E6).
    split_and!; [done..|]. rewrite E6. cbn [gcd add_gcd length]. rewrite eqm_wrapU. exists 0. lia.
Qed.

(** C35: pruning a pool during a collection returns.  Every spark has its fate:
    it is kept if it is alive and not evaluated, counted as fizzled if it is
    alive and evaluated, counted as collected if it is dead.  The pool then
    holds, in order and at their new addresses, those that are kept; no other
    counter changes; and the indices of the pool are reset. *)
Theorem pruneSparkQueue_spec h c :
  paused (sparks c) → good_forwarding h → statics_ok h →
  ∃ c' vs, pruneSparkQueue h c = Ok (tt, c') ∧ Forall2 (fate h) (live (sparks c)) vs ∧
    quiet (sparks c') ∧ live (sparks c') = omap kept_at vs ∧
    wrapU 64 (fizzled (spark_stats c')) = wrapU 64 (fizzled (spark_stats c) + fizzles vs) ∧
    wrapU 64 (gcd (spark_stats c')) = wrapU 64 (gcd (spark_stats c) + garbage vs) ∧
    created (spark_stats c') = created (spark_stats c) ∧ dud (spark_stats c') = dud (spark_stats c) ∧
    overflowed (spark_stats c') = overflowed (spark_stats c) ∧ converted (spark_stats c') = converted (spark_stats c) ∧
    size (sparks c') = size (sparks c) ∧ bottom (sparks c') < 2 * size (sparks c).
Proof.
  intros Hp Hh Hst. destruct (proj1 (wp_run _ _ _) (prune_ok h c Hp Hh)) as ([] & c' & E & Hq & El & Es & Hb & Ec).
  destruct (prune_stats_fates h (live (sparks c)) (spark_stats c)) as (E1 & E2 & E3 & E4 & E5 & E6).
  assert (spark_stats c' = prune_stats h (live (sparks c)) (spark_stats c)) as Ec' by (by rewrite Ec).
  exists c', (prune_verdict h <$> live (sparks c)). rewrite Ec'. split_and!; try done; [| |by apply eqm_eq..].
  - apply Forall2_fmap_r, Forall_Forall2_diag, Forall_forall. intros p _. by apply verdict_fate.
  - rewrite El. unfold kept, kept_at. clear. induction (live (sparks c)) as [|p l IH]; [done|]. cbn. destruct (prune_verdict h p); by rewrite ?IH.
Qed.

(** Six sparks: one dead, one to a value, one kept, one that has been evaluated,
    one that has been moved, and a static one. *)
Definition prune_closures : closures :=
  mkClosures (λ p, if p =? 24 then 2049 else if p =? 16 then 4096 else if p <? 4000 then 2048 else 8192)
    (λ i, if i =? 4096 then CONSTR else if i =? 8192 then THUNK_STATIC else THUNK).
Definition prune_gc : gc_heap := mkGC prune_closures (λ p, p <? 4000) (λ p, if p <=? 100 then 1 else 0) (λ _, 8).
Definition prune_cap : Capability :=
  mkCap (mkDeque 8 7 6 12 6 [8; 16; 24; 4096; 5; 5; 800; 9]) (mkCounters 6 0 0 0 0 0) END NULL.
Lemma pruneSparkQueue_spec_witness :
  ∃ c' vs, pruneSparkQueue prune_gc prune_cap = Ok (tt, c') ∧ Forall2 (fate prune_gc) (live (sparks prune_cap)) vs ∧
    live (sparks c') = [8; 2048; 4096] ∧ spark_stats c' = mkCounters 6 0 0 0 1 2.
Proof.
  destruct (pruneSparkQueue_spec prune_gc prune_cap) as (c' & vs & E & Hf & _).
  - constructor; [constructor; [exists 3; split; [lia|reflexivity]|reflexivity|reflexivity]|cbn; lia|cbn; lia|].
    vm_compute. intros Hin. repeat (apply elem_of_cons in Hin as [Hin|Hin]; [discriminate Hin|]). by apply elem_of_nil in Hin.
  - intros p. cbn. repeat case_match; discriminate.
  - intros p Hp _. cbn in Hp |- *. assert ((p =? 24) = false) as -> by lia. assert ((p =? 16) = false) as -> by lia. rewrite Hp. cbn.
    do 3 right. by left.
  - exists c', vs. split; [exact E|]. split; [exact Hf|]. pose proof E as E'. vm_compute in E'. injection E' as <-.
    split; vm_compute; reflexivity.
Defined.
