(* ===== verification/SparkFind.v ===== *)
(** * Sparks: findSpark among other capabilities

    The instance [disturbed] of [Accesses]: before every access of [findSpark]
    to a pool the other capabilities may do something, and an attempt to steal
    may lose the race for the element.  The accesses are logged, so that what
    the call did can be stated. *)
From stdpp Require Import list gmap.
From S2P Require Import Prelude DList WSDeque WSDequeSpec WSDequeSim WSDequeMain ClosureFlags Sparks SparkProps SparkMain.
Local Open Scope Z_scope.

(** ** Interference *)

(** What happens just before an access: the [others] act; [race]: one of them
    changes [top] between the loads and the CAS of [stealWSDeque_]. *)
Record turn : Type := mkTurn { others : list Capability → list Capability; race : bool }.
(** An access to capability [j], or an attempt to steal from it and its result,
    with the capabilities at that time *)
Inductive event : Type :=
  | Looked (j : nat) (cs : list Capability)
  | Tried (j : nat) (cs : list Capability) (v : ptr).
Record world : Type := mkWorld { caps : list Capability; turns : list turn; log : list event }.

Definition next_turn (w : world) : world :=
  match turns w with [] => w | t :: ts => mkWorld (others t (caps w)) ts (log w) end.
Definition race_lost (w : world) : bool := match turns w with [] => false | t :: _ => race t end.
Definition on_caps {A} (e : A → event) (m : prog (list Capability) A) : prog world A := λ w,
  match m (caps w) with
  | Ok (a, cs) => Ok (a, mkWorld cs (turns w) (log w ++ [e a]))
  | Err e => Err e
  end.
#[export] Instance disturbed : Accesses world := {
  access A j m := λ w, let w := next_turn w in on_caps (λ _, Looked j (caps w)) (with_cap j m) w;
  steal j := λ w,
    let lost := race_lost w in
    let w := next_turn w in
    on_caps (Tried j (caps w)) (if lost then mret NULL else with_cap j (pool tryStealSpark)) w;
  n_capabilities := gets (length ∘ caps)
}.

(** The sparks that were taken *)
Definition took (e : event) : option ptr :=
  match e with Tried _ _ v => if v =? NULL then None else Some v | Looked _ _ => None end.
Definition found (v : ptr) : list ptr := if v =? NULL then [] else [v].

Section find.
Context (B : Z) (M : nat) (h : closures) (i : nat).

(** The others leave every pool a deque at rest, of at most [M] sparks; the
    counters of capability [i] are its own. *)
Definition all_ok (cs : list Capability) : Prop := pools_ok B cs ∧ ∀ j, (length (pool_of cs j) <= M)%nat.
Definition stats_of (cs : list Capability) : option SparkCounters := spark_stats <$> cs !! i.
Definition others_ok (t : turn) : Prop := ∀ cs, all_ok cs →
  all_ok (others t cs) ∧ length (others t cs) = length cs ∧ stats_of (others t cs) = stats_of cs.
Definition world_ok (w : world) : Prop := all_ok (caps w) ∧ Forall others_ok (turns w).

(** From one world to another *)
Record went (w w' : world) (es : list event) : Prop := {
  wt_log : log w' = log w ++ es;
  wt_ok : world_ok w';
  wt_length : length (caps w') = length (caps w);
  wt_turns : (length (turns w') <= length (turns w))%nat;
  wt_alone : turns w = [] → shrinks (caps w) (caps w');
  wt_front : ∀ j cs v, Tried j cs v ∈ es → v ≠ NULL → ∃ rest, pool_of cs j = v :: rest
}.
Lemma went_trans w1 w2 w3 es1 es2 : went w1 w2 es1 → went w2 w3 es2 → went w1 w3 (es1 ++ es2).
Proof.
  intros [A1 A2 A3 A4 A5 A6] [B1 B2 B3 B4 B5 B6]. split; try done; [by rewrite B1, A1, app_assoc|lia|lia| |].
  - intros E. transitivity (caps w2); [by apply A5|]. apply B5, nil_length_inv. rewrite E in A4. cbn in A4. lia.
  - intros j cs v [Hin|Hin]%elem_of_app; eauto.
Qed.
Lemma went_alone w w' es j : went w w' es → turns w = [] → pool_of (caps w) j = [] → pool_of (caps w') j = [].
Proof. intros Hw E. apply shrinks_empty. by eapply wt_alone. Qed.

(** How many more attempts at [j] there can be *)
Definition budget (w : world) (j : nat) : nat := (length (turns w) * (M + 1) + length (pool_of (caps w) j))%nat.
Lemma next_turn_ok w : world_ok w →
  world_ok (next_turn w) ∧ length (caps (next_turn w)) = length (caps w) ∧ stats_of (caps (next_turn w)) = stats_of (caps w) ∧
  log (next_turn w) = log w ∧ length (turns (next_turn w)) = pred (length (turns w)) ∧
  (turns w = [] → next_turn w = w) ∧ ∀ j, (budget (next_turn w) j <= budget w j)%nat.
Proof.
  unfold next_turn, budget. destruct w as [cs [|t ts] l]; cbn [turns caps log]; [done|].
  intros [Hok [Ht Hts]%Forall_cons]. destruct (Ht cs Hok) as (Hok' & El & Es). split_and!; try done.
  intros j. pose proof (proj2 Hok' j). cbn. lia.
Qed.

(** ** The accesses *)
Lemma pool_of_insert cs j c k : (j < length cs)%nat → pool_of (<[j := c]> cs) k = if decide (k = j) then live (sparks c) else pool_of cs k.
Proof.
  intros Hj. unfold pool_of. destruct (decide (k = j)) as [->|]; [by rewrite list_lookup_insert_eq|by rewrite list_lookup_insert_ne].
Qed.
(** A change of one capability that leaves its pool as it is, or shorter *)
Lemma all_ok_insert cs j c c' : all_ok cs → cs !! j = Some c → quiet (sparks c') → bottom (sparks c') <= B →
  live (sparks c') `suffix_of` live (sparks c) → all_ok (<[j := c']> cs).
Proof.
  intros [Hok Hm] Hj Hq Hb Hs. split; [by apply pools_ok_insert|]. intros k. rewrite pool_of_insert by (by eapply lookup_lt_Some).
  destruct (decide (k = j)) as [->|]; [|apply Hm]. etrans; [by apply suffix_length|]. specialize (Hm j). unfold pool_of in Hm. by rewrite Hj in Hm.
Qed.
Lemma access_ok {A} j (m : prog Capability A) w (Q : A → world → Prop) : world_ok w → (j < length (caps w))%nat →
  (∀ c, caps (next_turn w) !! j = Some c → wp m (λ a c', live (sparks c') = live (sparks c) ∧ quiet (sparks c') ∧ bottom (sparks c') <= B ∧
     ∀ w', went w w' [Looked j (caps (next_turn w))] → caps w' = <[j := c']> (caps (next_turn w)) →
       (∀ k, (budget w' k <= budget w k)%nat) → Q a w') c) →
  wp (access j m) Q w.
Proof.
  intros Hw Hj HQ. destruct (next_turn_ok w Hw) as ([Hok Ht] & El & Es & Elog & Et & Ealone & Hbud). set (w1 := next_turn w) in *.
  destruct (lookup_lt_is_Some_2 (caps w1) j) as [c Hc]; [lia|]. destruct (proj1 (wp_run _ _ _) (HQ c Hc)) as (a & c' & E & Hl & Hq & Hb & HQ').
  unfold wp. cbn [access disturbed]. fold w1. unfold on_caps, with_cap. rewrite Hc, E. cbn.
  apply HQ'; [|done|].
  - split; cbn; [by rewrite Elog| | |lia| |].
    + split; [|done]. eapply all_ok_insert; [done..|]. by rewrite Hl.
    + rewrite length_insert. lia.
    + intros E0. rewrite <- (Ealone E0). fold w1. eapply shrinks_insert; [exact Hc|]. by rewrite Hl.
    + intros k cs v Hin. by apply list_elem_of_singleton in Hin.
  - intros k. etrans; [|apply (Hbud k)]. unfold budget. cbn. rewrite pool_of_insert by (rewrite El; lia).
    destruct (decide (k = j)) as [->|]; [|done]. rewrite Hl. unfold pool_of. by rewrite Hc.
Qed.
Lemma look_ok j w : world_ok w → (j < length (caps w))%nat →
  wp (access j (gets emptySparkPoolCap)) (λ e w', ∃ cs, went w w' [Looked j cs] ∧ stats_of (caps w') = stats_of (caps w) ∧
    e = bool_decide (pool_of cs j = []) ∧ (∀ k, (budget w' k <= budget w k)%nat) ∧ (turns w = [] → cs = caps w)) w.
Proof using.
  intros Hw Hj. destruct (next_turn_ok w Hw) as ([[Hok _] _] & El & Es & _ & _ & Ealone & _).
  apply access_ok; [done..|]. intros c Hc. destruct (Hok j c Hc) as [Hq Hb]. apply wp_gets. split_and!; [done..|].
  intros w' Hwent E Hbud. exists (caps (next_turn w)). split; [done|]. split; [by rewrite E, list_insert_id, Es|]. split; [|split; [done|]].
  - rewrite empty_live by done. unfold pool_of. by rewrite Hc.
  - intros E0. by rewrite Ealone.
Qed.
Lemma own_count_ok f w : world_ok w → (i < length (caps w))%nat →
  wp (access i (count f)) (λ _ w', ∃ cs, went w w' [Looked i cs] ∧ stats_of (caps w') = f <$> stats_of (caps w) ∧
    (∀ k, (budget w' k <= budget w k)%nat)) w.
Proof using.
  intros Hw Hj. destruct (next_turn_ok w Hw) as ([[Hok _] _] & El & Es & _ & _ & _).
  apply access_ok; [done..|]. intros c Hc. destruct (Hok i c Hc) as [Hq Hb]. apply wp_count. split_and!; [done..|].
  intros w' Hwent E Hbud. exists (caps (next_turn w)). split; [done|]. split; [|done].
  rewrite E, <- Es. unfold stats_of. rewrite list_lookup_insert_eq, Hc by (rewrite El; lia). done.
Qed.
Lemma try_ok j w : world_ok w → (j < length (caps w))%nat →
  wp (steal j) (λ v w', ∃ cs, went w w' [Tried j cs v] ∧ stats_of (caps w') = stats_of (caps w) ∧
    (length (turns w') <= pred (length (turns w)))%nat ∧
    (if v =? NULL then turns w = [] → pool_of (caps w') j = [] else (budget w' j < budget w j)%nat)) w.
Proof using.
  intros Hw Hj. destruct (next_turn_ok w Hw) as ([[Hok Hm] Ht] & El & Es & Elog & Et & Ealone & Hbud).
  unfold wp. cbn [steal disturbed]. unfold race_lost. set (w1 := next_turn w) in *. unfold on_caps.
  assert (j < length (caps w1))%nat as Hj1 by lia. destruct (lookup_lt_is_Some_2 (caps w1) j Hj1) as [c Hc]. destruct (Hok j c Hc) as [Hq Hb].
  destruct (match turns w with [] => false | t :: _ => race t end) eqn:Er.
  - exists (caps w1). split; [|split; [done|split; [cbn; lia|]]].
    + split; cbn; [by rewrite Elog|done|lia|lia|intros E; by rewrite E in Er|]. intros k cs v Hin Hv. apply list_elem_of_singleton in Hin. congruence.
    + cbn. intros E. by rewrite E in Er.
  - destruct (proj1 (wp_run _ _ _) (stealWSDeque_ok (sparks c) Hq)) as (v & q & E & Hq' & Hb' & Hv).
    unfold with_cap, pool. rewrite Hc, E. cbn [caps turns log].
    assert (all_ok (<[j := set_sparks q c]> (caps w1))) as Hok2.
    { eapply all_ok_insert; [done|exact Hc|done|cbn; lia|]. cbn. destruct Hv as [->|(-> & -> & _)]; [by apply suffix_cons_r|done]. }
    exists (caps w1). split; [|split; [|split; [lia|]]].
    + split; cbn; [by rewrite Elog|done|rewrite length_insert; lia|lia| |].
      * intros E0. rewrite <- (Ealone E0). fold w1. eapply shrinks_insert; [exact Hc|]. cbn. destruct Hv as [->|(-> & -> & _)]; [by apply suffix_cons_r|done].
      * intros k cs v' Hin Hne. apply list_elem_of_singleton in Hin. simplify_eq. unfold pool_of. rewrite Hc.
        destruct Hv as [->|(_ & _ & ->)]; [by eexists|done].
    + rewrite <- Es. unfold stats_of. destruct (decide (i = j)) as [->|]; [by rewrite list_lookup_insert_eq, Hc|by rewrite list_lookup_insert_ne by done].
    + cbn [caps]. rewrite pool_of_insert, decide_True by done. cbn. destruct (Z.eqb_spec v NULL) as [->|Hne].
      * destruct Hv as [E0|(_ & -> & _)]; [|done]. destruct (qu_null _ Hq). rewrite E0. by left.
      * destruct Hv as [E0|(_ & _ & ->)]; [|done]. eapply Nat.lt_le_trans; [|apply (Hbud j)]. unfold budget. cbn [turns caps].
        rewrite pool_of_insert, decide_True by done. unfold pool_of. rewrite Hc, E0. cbn. lia.
Qed.

(** ** The search *)

(** Between the two worlds the call took the sparks [fz], all fizzled and
    counted, and then [v], not fizzled and not yet counted, if it is not NULL. *)
Record searching (w w' : world) (es : list event) (fz : list ptr) (v : ptr) : Prop := {
  se_went : went w w' es;
  se_took : omap took es = fz ++ found v;
  se_fizzled : Forall (λ p, fizzledSpark h p = true) fz;
  se_found : v ≠ NULL → fizzledSpark h v = false;
  se_stats : stats_of (caps w') = Nat.iter (length fz) inc_fizzled <$> stats_of (caps w)
}.
Lemma searching_nothing w w' es : went w w' es → omap took es = [] → stats_of (caps w') = stats_of (caps w) → searching w w' es [] NULL.
Proof. intros Hw Et Es. split; try done. cbn. by rewrite Es, option_fmap_id. Qed.
Lemma searching_trans w1 w2 w3 es1 es2 fz1 fz2 v : searching w1 w2 es1 fz1 NULL → searching w2 w3 es2 fz2 v →
  searching w1 w3 (es1 ++ es2) (fz1 ++ fz2) v.
Proof.
  intros [A1 A2 A3 _ A5] [B1 B2 B3 B4 B5]. split; [by eapply went_trans| |by apply Forall_app|done|].
  - rewrite omap_app, A2, B2. cbn. by rewrite app_nil_r, app_assoc.
  - rewrite B5, A5, <- option_fmap_compose, length_app, Nat.add_comm. destruct (stats_of (caps w1)); [|done]. cbn. by rewrite Nat.iter_add.
Qed.
Lemma searching_ok w w' es fz v : searching w w' es fz v → world_ok w' ∧ length (caps w') = length (caps w).
Proof. intros [[] _ _ _ _]. done. Qed.
Lemma find_fuel_enough w j fuel : world_ok w → (length (turns w) * (M + 1) + M <= fuel)%nat → (budget w j <= fuel)%nat.
Proof. intros [[_ Hm] _] Hf. specialize (Hm j). unfold budget. lia. Qed.

Lemma unfizzled_ok fuel j w : world_ok w → (i < length (caps w))%nat → (j < length (caps w))%nat → (budget w j <= fuel)%nat →
  wp (steal_unfizzled fuel h i j) (λ v w', ∃ es fz, searching w w' es fz v ∧ (length (turns w') <= pred (length (turns w)))%nat ∧
    (v = NULL → turns w = [] → pool_of (caps w') j = [])) w.
Proof using.
  revert w. induction fuel as [|fuel IH]; intros w Hw Hi Hj Hf; cbn [steal_unfizzled]; wp_step;
    (eapply wp_mono; [by apply try_ok|]); cbv beta; intros v w1 (cs & Hw1 & Es & Et & Hv).
  1,2: destruct (Z.eqb_spec v NULL) as [->|Hne]; cbn [negb andb].
  1,3: apply wp_ret; exists [Tried j cs NULL], []; split; [by apply searching_nothing|by auto].
  { lia. }
  pose proof (wt_ok _ _ _ Hw1) as Hok1. pose proof (wt_length _ _ _ Hw1) as El1. destruct (fizzledSpark h v) eqn:Ef.
  - wp_step. eapply wp_mono; [apply own_count_ok; [done|lia]|]. cbv beta. intros _ w2 (cs2 & Hw2 & Es2 & Hb2).
    pose proof (wt_ok _ _ _ Hw2) as Hok2. pose proof (wt_length _ _ _ Hw2) as El2.
    eapply wp_mono; [apply IH; [done|lia|lia|specialize (Hb2 j); lia]|]. cbv beta. intros v' w' (es & fz & Hse & Ht' & Hv').
    assert (searching w w2 ([Tried j cs v] ++ [Looked i cs2]) [v] NULL) as Hse2.
    { split; [by eapply went_trans| |by constructor|done|by rewrite Es2, Es]. cbn. by rewrite (proj2 (Z.eqb_neq v NULL) Hne). }
    eexists _, _. split; [exact (searching_trans _ _ _ _ _ _ _ _ Hse2 Hse)|]. pose proof (wt_turns _ _ _ Hw2). split; [lia|].
    intros E E0. apply Hv'; [done|]. apply nil_length_inv. rewrite E0 in Et. cbn in Et. lia.
  - apply wp_ret. exists [Tried j cs v], []. split; [|split; [done|by intros ->]].
    split; try done; [|by rewrite Es; cbn; rewrite option_fmap_id]. cbn. unfold found. by rewrite (proj2 (Z.eqb_neq v NULL) Hne).
Qed.

(** Every pool of [js] but the own one was seen empty. *)
Definition all_seen (js : list nat) (es : list event) : Prop := ∀ j, j ∈ js → ∃ cs, Looked j cs ∈ es ∧ pool_of cs j = [].
Definition counted_as (v : ptr) (s : option SparkCounters) : option SparkCounters := if v =? NULL then s else inc_converted <$> s.
(** The same with [v] counted *)
Record search_done (w w' : world) (es : list event) (fz : list ptr) (v : ptr) : Prop := {
  sd_went : went w w' es;
  sd_took : omap took es = fz ++ found v;
  sd_fizzled : Forall (λ p, fizzledSpark h p = true) fz;
  sd_found : v ≠ NULL → fizzledSpark h v = false;
  sd_stats : stats_of (caps w') = counted_as v (Nat.iter (length fz) inc_fizzled <$> stats_of (caps w))
}.
Lemma search_done_null w w' es fz : searching w w' es fz NULL ↔ search_done w w' es fz NULL.
Proof. split; intros []; by split. Qed.
Lemma search_done_trans w1 w2 w3 es1 es2 fz1 fz2 v : searching w1 w2 es1 fz1 NULL → search_done w2 w3 es2 fz2 v →
  search_done w1 w3 (es1 ++ es2) (fz1 ++ fz2) v.
Proof.
  intros [A1 A2 A3 _ A5] [B1 B2 B3 B4 B5]. split; [by eapply went_trans| |by apply Forall_app|done|].
  - rewrite omap_app, A2, B2. cbn. by rewrite app_nil_r, app_assoc.
  - rewrite B5, A5, <- option_fmap_compose, length_app, Nat.add_comm. destruct (stats_of (caps w1)); [|done]. cbn. by rewrite Nat.iter_add.
Qed.
Lemma convert_done w w1 es fz v : searching w w1 es fz v → v ≠ NULL → (i < length (caps w))%nat →
  wp (access i (count inc_converted)) (λ _ w', ∃ es', search_done w w' (es ++ es') fz v) w1.
Proof using.
  intros Hse Hv Hi. destruct (searching_ok _ _ _ _ _ Hse) as [Hok El]. eapply wp_mono; [apply own_count_ok; [done|lia]|].
  cbv beta. intros _ w' (cs & Hw & Es & _). exists [Looked i cs]. destruct Hse as [A1 A2 A3 A4 A5]. split; [by eapply went_trans| |done..|].
  - rewrite omap_app, A2. cbn. by rewrite app_nil_r.
  - rewrite Es, A5. unfold counted_as. by rewrite (proj2 (Z.eqb_neq v NULL) Hv).
Qed.

Lemma all_seen_nil es : all_seen [] es.
Proof. by intros j ?%elem_of_nil. Qed.
Lemma all_seen_cons j js es1 es2 cs : Looked j cs ∈ es1 → pool_of cs j = [] → all_seen js es2 → all_seen (j :: js) (es1 ++ es2).
Proof.
  intros Hin He Hs k [->|Hk]%elem_of_cons; [exists cs; split; [apply elem_of_app; by left|done]|].
  destruct (Hs k Hk) as (cs' & Hin' & He'). exists cs'. split; [apply elem_of_app; by right|done].
Qed.

Lemma rob_find fuel js w retry : world_ok w → (i < length (caps w))%nat → Forall (λ j, j < length (caps w))%nat js →
  (length (turns w) * (M + 1) + M <= fuel)%nat →
  wp (rob fuel h i js retry) (λ r w', ∃ es fz, search_done w w' es fz r.1 ∧ (r.2 = true → retry = true ∨ turns w ≠ []) ∧
    (r.1 = NULL → r.2 = false → retry = false ∧ all_seen (filter (λ j, j ≠ i) js) es)) w.
Proof using.
  revert w retry. induction js as [|j js IH]; intros w retry Hw Hi Hjs Hf; cbn [rob].
  { apply wp_ret. cbn [fst snd]. exists [], []. split; [|split; [by left|intros _ E; split; [done|apply all_seen_nil]]].
    apply search_done_null, searching_nothing; try done. split; try done; [by rewrite app_nil_r|by intros j cs v ?%elem_of_nil]. }
  apply Forall_cons in Hjs as [Hj Hjs].
  assert (∀ w1 es1 fz1 retry1 cs, searching w w1 es1 fz1 NULL → (retry1 = true → retry = true ∨ turns w ≠ []) →
    (retry1 = false → retry = false ∧ Looked j cs ∈ es1 ∧ pool_of cs j = []) → i ≠ j →
    wp (rob fuel h i js retry1) (λ r w', ∃ es fz, search_done w w' es fz r.1 ∧ (r.2 = true → retry = true ∨ turns w ≠ []) ∧
      (r.1 = NULL → r.2 = false → retry = false ∧ all_seen (filter (λ k, k ≠ i) (j :: js)) es)) w1) as Hgo.
  { intros w1 es1 fz1 retry1 cs Hse Hr1 Hr2 Hij. destruct (searching_ok _ _ _ _ _ Hse) as [Hok1 El1]. pose proof (wt_turns _ _ _ (se_went _ _ _ _ _ Hse)) as Ht.
    eapply wp_mono; [apply IH; [done|lia|by rewrite El1|nia]|]. cbv beta. intros [v r] w' (es & fz & Hsd & H1 & H2). cbn [fst snd] in *.
    eexists _, _. split; [exact (search_done_trans _ _ _ _ _ _ _ _ Hse Hsd)|]. split.
    - intros Er. destruct (H1 Er) as [E|Hne]; [by apply Hr1|]. right. intros E. rewrite E in Ht. cbn in Ht. apply Hne, nil_length_inv. lia.
    - intros Ev Er. destruct (H2 Ev Er) as [E Hseen]. destruct (Hr2 E) as (-> & Hin & He). split; [done|]. rewrite filter_cons_True by auto. by eapply all_seen_cons. }
  destruct (i =? j)%nat eqn:Eij; [apply Nat.eqb_eq in Eij as <-|apply Nat.eqb_neq in Eij].
  { eapply wp_mono; [by apply IH|]. cbv beta. intros [v r] w' Hx. by rewrite filter_cons_False by auto. }
  wp_step. eapply wp_mono; [by apply look_ok|]. cbv beta. intros e w1 (cs & Hw1 & Es1 & -> & Hb1 & _).
  pose proof (searching_nothing _ _ _ Hw1 eq_refl Es1) as Hse1. destruct (searching_ok _ _ _ _ _ Hse1) as [Hok1 El1].
  pose proof (wt_turns _ _ _ Hw1) as Ht1. case_bool_decide as Ee; cbv iota.
  { apply (Hgo _ _ _ _ cs Hse1); [by left| |done]. intros ->. split; [done|]. split; [by left|done]. }
  wp_step. eapply wp_mono; [apply unfizzled_ok; [done|lia|lia|]|].
  { apply find_fuel_enough; [done|]. nia. }
  cbv beta. intros v w2 (es2 & fz2 & Hse2 & Ht2 & Hv2). pose proof (searching_trans _ _ _ _ _ _ _ _ Hse1 Hse2) as Hse.
  destruct (searching_ok _ _ _ _ _ Hse) as [Hok2 El2]. wp_step. destruct (Z.eqb_spec v NULL) as [->|Hne]; cbn [negb].
  - wp_step. eapply wp_mono; [apply look_ok; [done|lia]|]. cbv beta. intros e w3 (cs3 & Hw3 & Es3 & -> & Hb3 & Hcs3). wp_step.
    pose proof (searching_trans _ _ _ _ _ _ _ _ Hse (searching_nothing _ _ _ Hw3 eq_refl Es3)) as Hse3.
    apply (Hgo _ _ _ _ cs3 Hse3); [| |done].
    + case_bool_decide as E3; [by left|]. intros _. right. intros E0. apply E3.
      assert (turns w1 = []) as E1 by (apply nil_length_inv; rewrite E0 in Ht1; cbn in Ht1; lia).
      rewrite Hcs3; [by apply Hv2|]. apply nil_length_inv. rewrite E1 in Ht2. cbn in Ht2. lia.
    + case_bool_decide as E3; [|done]. intros ->. split; [done|]. split; [|done]. rewrite elem_of_app. right. by left.
  - do 2 wp_step. eapply wp_mono; [apply (convert_done _ _ _ _ _ Hse Hne Hi)|]. cbv beta. intros _ w3 (es3 & Hsd). wp_step.
    cbn [fst snd]. eexists _, _. split; [exact Hsd|]. split; [by left|]. by intros ->.
Qed.

Definition is_busy (c : Capability) : bool := negb (run_queue_hd c =? END) || negb (returning_tasks_hd c =? NULL).
Lemma find_loop_find tries fuel w : world_ok w → (i < length (caps w))%nat →
  (length (turns w) < tries)%nat → (length (turns w) * (M + 1) + M <= fuel)%nat →
  wp (find_loop tries fuel h i) (λ v w', ∃ es fz, search_done w w' es fz v ∧
    (v = NULL → length (caps w) = 1%nat ∨ all_seen (seq 0 (length (caps w))) es)) w.
Proof using.
  revert w. induction tries as [|tries IH]; intros w Hw Hi Ht Hf; [lia|]. cbn [find_loop].
  wp_step. eapply wp_mono; [apply unfizzled_ok; [done|lia|lia|by apply find_fuel_enough]|]. cbv beta. intros v w1 (es1 & fz1 & Hse1 & Ht1 & Hv1).
  destruct (searching_ok _ _ _ _ _ Hse1) as [Hok1 El1]. destruct (Z.eqb_spec v NULL) as [->|Hne]; cbn [negb].
  2: { wp_step. eapply wp_mono; [apply (convert_done _ _ _ _ _ Hse1 Hne Hi)|]. cbv beta. intros _ w2 (es2 & Hsd). wp_step. by eexists _, _. }
  wp_step. eapply wp_mono; [apply look_ok; [done|lia]|]. cbv beta. intros e w2 (cs2 & Hw2 & Es2 & -> & _ & Hcs2).
  pose proof (searching_trans _ _ _ _ _ _ _ _ Hse1 (searching_nothing _ _ _ Hw2 eq_refl Es2)) as Hse2. rewrite app_nil_r in Hse2.
  destruct (searching_ok _ _ _ _ _ Hse2) as [Hok2 El2]. pose proof (wt_turns _ _ _ Hw2) as Ht2.
  cbn [n_capabilities disturbed]. do 2 wp_step. unfold compose.
  destruct (length (caps w2) =? 1)%nat eqn:E1.
  { apply Nat.eqb_eq in E1. wp_step. eexists _, _. split; [by apply search_done_null|]. intros _. left. lia. }
  wp_step. eapply wp_mono; [apply rob_find; [done|lia| |nia]|].
  { apply Forall_forall. intros j Hj. apply elem_of_seq in Hj. lia. }
  cbv beta. intros [v r] w3 (es3 & fz3 & Hsd3 & H1 & H2). cbn [fst snd] in *.
  pose proof (search_done_trans _ _ _ _ _ _ _ _ Hse2 Hsd3) as Hsd. destruct (Z.eqb_spec v NULL) as [->|Hne]; cbn [negb].
  2: { wp_step. by eexists _, _. }
  destruct r.
  - apply search_done_null in Hsd. destruct (searching_ok _ _ _ _ _ Hsd) as [Hok3 El3]. pose proof (wt_turns _ _ _ (se_went _ _ _ _ _ Hsd)).
    assert (turns w ≠ []) as Hnil.
    { intros E0. assert (turns w1 = []) as E3 by (apply nil_length_inv; rewrite E0 in Ht1; cbn in Ht1; lia).
      destruct (H1 eq_refl) as [Hr|Hr]; [|apply Hr, nil_length_inv; rewrite E3 in Ht2; cbn in Ht2; lia].
      apply negb_true_iff, bool_decide_eq_false in Hr. apply Hr. rewrite Hcs2 by done. by apply Hv1. }
    assert (length (turns w3) < length (turns w))%nat as Hlt.
    { apply search_done_null in Hsd3. pose proof (wt_turns _ _ _ (se_went _ _ _ _ _ Hsd3)). destruct (turns w); [done|]. cbn in *. lia. }
    eapply wp_mono; [apply IH; [done|lia|lia|nia]|]. cbv beta. intros v w4 (es4 & fz4 & Hsd4 & Hv4).
    eexists _, _. split; [exact (search_done_trans _ _ _ _ _ _ _ _ Hsd Hsd4)|]. intros Ev. rewrite El3 in Hv4. destruct (Hv4 Ev) as [?|Hs]; [by left|right].
    intros j Hj. destruct (Hs j Hj) as (cs & Hin & He). exists cs. split; [apply elem_of_app; by right|done].
  - wp_step. eexists _, _. split; [exact Hsd|]. intros _. right. destruct (H2 eq_refl eq_refl) as [Hr Hs].
    apply negb_false_iff, bool_decide_eq_true in Hr. rewrite El2 in Hs. intros j Hj. destruct (decide (j = i)) as [->|Hji].
    + exists cs2. split; [|done]. rewrite !elem_of_app. left. right. by left.
    + destruct (Hs j) as (cs & Hin & He); [by apply list_elem_of_filter|]. exists cs. split; [rewrite !elem_of_app; auto|done].
Qed.

(** What a call of [findSpark] did from [w] to [w']: the accesses [es] *)
Record call_result (w : world) (v : ptr) (w' : world) (es : list event) (fz : list ptr) : Prop := {
  cr_log : log w' = log w ++ es;
  cr_took : omap took es = fz ++ found v;
  cr_front : ∀ j cs p, Tried j cs p ∈ es → p ≠ NULL → ∃ rest, pool_of cs j = p :: rest;
  cr_fizzled : Forall (λ p, fizzledSpark h p = true) fz;
  cr_found : v ≠ NULL → fizzledSpark h v = false;
  cr_stats : stats_of (caps w') = counted_as v (Nat.iter (length fz) inc_fizzled <$> stats_of (caps w));
  cr_busy : ∀ c, caps (next_turn w) !! i = Some c → is_busy c = true →
    v = NULL ∧ es = [Looked i (caps (next_turn w))];
  cr_null : v = NULL → (∃ c, caps (next_turn w) !! i = Some c ∧ is_busy c = true) ∨
    length (caps w) = 1%nat ∨ all_seen (seq 0 (length (caps w))) es
}.
End find.

(** C34: a thief among others.  Whatever the other capabilities do between its
    accesses to the pools, and however often it loses a race for a spark,
    [findSpark] returns once they leave it in peace.  It takes sparks from the
    front of pools only.  If the capability has threads to run or returning
    tasks, it takes nothing.  All sparks that it takes have fizzled, and it
    counts each of them as fizzled, but the last, if it returns one: that one can
    be run and is counted as converted.  If it returns none and there are other
    capabilities, it has seen every pool empty: a lost race for a spark alone
    does not make it give up. *)
Theorem findSpark_among_others B M h i tries fuel w : world_ok B M i w → (i < length (caps w))%nat →
  (length (turns w) < tries)%nat → (length (turns w) * (M + 1) + M <= fuel)%nat →
  ∃ v w' es fz, findSpark tries fuel h i w = Ok (v, w') ∧ call_result h i w v w' es fz.
Proof.
  intros Hw Hi Ht Hf. enough (wp (findSpark tries fuel h i) (λ v w', ∃ es fz, call_result h i w v w' es fz) w) as Hwp.
  { destruct (proj1 (wp_run _ _ _) Hwp) as (v & w' & E & es & fz & Hr). by exists v, w', es, fz. }
  destruct (next_turn_ok B M i w Hw) as ([[Hok _] _] & El & _). unfold findSpark. wp_step.
  apply (access_ok B M i); [done..|]. intros c Hc. destruct (Hok i c Hc) as [Hq Hb]. apply wp_gets. split_and!; [done..|].
  intros w1 Hw1 E _. fold (is_busy c). assert (stats_of i (caps w1) = stats_of i (caps w)) as Es.
  { rewrite E, list_insert_id by done. apply (next_turn_ok B M i w Hw). }
  destruct (is_busy c) eqn:Eb.
  - wp_step. exists [Looked i (caps (next_turn w))], []. split; try done.
    + apply Hw1.
    + intros j cs p Hin. by apply list_elem_of_singleton in Hin.
    + cbn. by rewrite Es, option_fmap_id.
    + intros _. left. by exists c.
  - pose proof (wt_turns _ _ _ _ _ _ Hw1). pose proof (wt_length _ _ _ _ _ _ Hw1) as El1. pose proof (wt_ok _ _ _ _ _ _ Hw1) as Hok1.
    eapply wp_mono; [apply (find_loop_find B M h i); [done|lia|lia|nia]|]. cbv beta. intros v w' (es & fz & [A1 A2 A3 A4 A5] & Hnull).
    pose proof (went_trans _ _ _ _ _ _ _ _ Hw1 A1) as [B1 _ _ _ _ B6]. exists ([Looked i (caps (next_turn w))] ++ es), fz. split; try done.
    + by rewrite A5, Es.
    + intros c' Hc' Hbusy. congruence.
    + intros Ev. right. rewrite El1 in Hnull. destruct (Hnull Ev) as [?|Hs]; [by left|right]. intros j Hj.
      destruct (Hs j Hj) as (cs & Hin & He). exists cs. split; [apply elem_of_app; by right|done].
Qed.

(** ** An example *)

(** Another thief takes a spark from capability [j]. *)
Definition thief (j : nat) (cs : list Capability) : list Capability :=
  match with_cap j (pool tryStealSpark) cs with Ok (_, cs') => cs' | Err _ => cs end.
Lemma other_thief_ok B M i j r : others_ok B M i (mkTurn (thief j) r).
Proof.
  intros cs [Hok Hm]. cbn. unfold thief. destruct (cs !! j) as [c|] eqn:Hc; [|by unfold with_cap; rewrite Hc].
  destruct (Hok j c Hc) as [Hq Hb]. destruct (proj1 (wp_run _ _ _) (stealWSDeque_ok (sparks c) Hq)) as (v & q & E & Hq' & Hb' & Hv).
  unfold with_cap, pool. rewrite Hc, E. split; [|split; [by rewrite length_insert|]].
  - eapply all_ok_insert; [by split|exact Hc|done|cbn; lia|]. cbn. destruct Hv as [->|(-> & -> & _)]; [by apply suffix_cons_r|done].
  - unfold stats_of. destruct (decide (i = j)) as [->|]; [|by rewrite list_lookup_insert_ne by done].
    by rewrite list_lookup_insert_eq, Hc by (by eapply lookup_lt_Some).
Qed.

(** Capability 1 has three sparks.  When capability 0 tries to steal the first,
    a thief takes it; in the second round it takes the other two, of which one
    has been evaluated (its pointer is tagged). *)
Definition demo_world : world :=
  let cap q := mkCap q (mkCounters 0 0 0 0 0 0) END NULL in
  let quiet_turn := mkTurn (λ cs, cs) false in
  mkWorld [cap (mkDeque 4 3 0 0 0 [5; 5; 5; 5]); cap (mkDeque 4 3 0 3 0 [8; 17; 24; 5]); cap (mkDeque 4 3 0 0 0 [5; 5; 5; 5])]
    [quiet_turn; quiet_turn; quiet_turn; quiet_turn; mkTurn (thief 1) true] [].
Lemma demo_world_ok : world_ok 10 3 0 demo_world.
Proof.
  split.
  - split; [|by intros [|[|[|j]]]; vm_compute; lia].
    intros [|[|[|j]]] c Hc; cbn in Hc; try discriminate Hc; injection Hc as <-; (split; [|cbn; lia]);
      (constructor; [constructor; [exists 2; split; [lia|reflexivity]|reflexivity|reflexivity]|cbn; lia|cbn; lia|];
       vm_compute; intros Hin; repeat (apply elem_of_cons in Hin as [Hin|Hin]; [discriminate Hin|]); by apply elem_of_nil in Hin).
  - assert (others_ok 10 3 0 (mkTurn (λ cs, cs) false)) as Hq by (by intros cs Hcs).
    cbn [turns demo_world]. do 4 (apply Forall_cons; split; [exact Hq|]). apply Forall_singleton, other_thief_ok.
Qed.
Lemma findSpark_among_others_witness :
  ∃ w' es fz, findSpark 6 23 demo_closures 0 demo_world = Ok (24, w') ∧ call_result demo_closures 0 demo_world 24 w' es fz.
Proof.
  destruct (findSpark_among_others 10 3 demo_closures 0 6 23 demo_world demo_world_ok) as (v & w' & es & fz & E & Hr); [cbn; lia..|].
  pose proof (f_equal (λ r, match r with Ok (v, _) => Some v | Err _ => None end) E) as Er. vm_compute in Er.
  injection Er as <-. exists w', es, fz. split; [exact E|exact Hr].
Defined.
