(* ===== verification/Stable.v ===== *)
(** * Stable names and stable pointers (rts/Stable.c, includes/rts/Stable.h)

    The table of entries with its free list threaded through the [addr] fields,
    the hash table from objects to entries, and the three passes of a garbage
    collection over the table.  Pointers into the table are addresses, as in
    the source, which tells free slots from objects by comparing [addr] with
    the bounds of the table.  The hash table is used through the interface
    [WordTable].  [stable_mutex] makes every call atomic. *)
From stdpp Require Import list gmap.
From S2P Require Import Prelude DList Hash ClosureFlags.
Local Open Scope Z_scope.

Notation NULL := END.

Record snEntry : Type := mkEntry {
  addr : ptr;
  old : ptr;
  ref : Z;
  sn_obj : ptr
}.
Definition set_addr x e : snEntry := mkEntry x (old e) (ref e) (sn_obj e).
Definition set_old x e : snEntry := mkEntry (addr e) x (ref e) (sn_obj e).
Definition set_ref x e : snEntry := mkEntry (addr e) (old e) x (sn_obj e).
Definition set_sn_obj x e : snEntry := mkEntry (addr e) (old e) (ref e) x.
Definition sizeof_snEntry : Z := 32.

Definition INIT_SPT_SIZE : Z := 64.

Section stable.
Context {T : Type} `{WordTable T}.
(** [malloc_at n]: where [stgMallocBytes] or [stgReallocBytes] puts a table of
    [n] entries, which is asked for once; [junk]: what fresh memory holds. *)
Context (malloc_at : Z → ptr) (junk : snEntry).

Record stable : Type := mkStable {
  entries : list snEntry;
  stable_ptr_table : ptr;
  stable_ptr_free : ptr;
  SPT_size : Z;
  addrToStableHash : option T  (* None is NULL *)
}.
Definition set_entries x s := mkStable x (stable_ptr_table s) (stable_ptr_free s) (SPT_size s) (addrToStableHash s).
Definition set_free x s := mkStable (entries s) (stable_ptr_table s) x (SPT_size s) (addrToStableHash s).
Definition set_hash x s := mkStable (entries s) (stable_ptr_table s) (stable_ptr_free s) (SPT_size s) (Some x).

Definition entry_ptr (s : stable) (i : Z) : ptr := stable_ptr_table s + sizeof_snEntry * i.
Definition entry_index (s : stable) (p : ptr) : Z := (p - stable_ptr_table s) `div` sizeof_snEntry.

Definition get_entry (i : Z) : prog stable snEntry :=
  s ← get; if i <? 0 then fail BadPointer else deref (entries s !! Z.to_nat i).
Definition put_entry (i : Z) (e : snEntry) : prog stable unit :=
  _ ← get_entry i; modify (λ s, set_entries (<[Z.to_nat i := e]> (entries s)) s).
Definition on_entry (i : Z) (f : snEntry → snEntry) : prog stable unit :=
  e ← get_entry i; put_entry i (f e).
Definition on_hash {A} (m : prog T A) : prog stable A := λ s,
  match addrToStableHash s with
  | None => Err BadPointer
  | Some t => match m t with Ok (a, t) => Ok (a, set_hash t s) | Err e => Err e end
  end.

(** ** The table *)
Fixpoint initFreeList_loop (l : list Z) (free : ptr) : prog stable unit :=
  match l with
  | [] => mret tt
  | p :: l =>
    put_entry p (mkEntry free NULL 0 NULL);;
    s ← get;
    initFreeList_loop l (entry_ptr s p)
  end.
(** [initFreeList(stable_ptr_table + table, n, free)] *)
Definition initFreeList (table n : Z) (free : ptr) : prog stable unit :=
  initFreeList_loop (reverse (seqZ table n)) free;;
  modify (λ s, set_free (entry_ptr s table) s).

Definition initStablePtrTable : prog stable unit :=
  s ← get;
  if 0 <? SPT_size s then mret tt else
  modify (λ s, mkStable (replicate (Z.to_nat INIT_SPT_SIZE) junk) (malloc_at INIT_SPT_SIZE) (stable_ptr_free s)
                        INIT_SPT_SIZE (addrToStableHash s));;
  initFreeList 1 (INIT_SPT_SIZE - 1) NULL;;
  modify (set_hash wt_alloc).

Definition exitStablePtrTable : prog stable unit :=
  modify (λ s, mkStable [] NULL (stable_ptr_free s) 0 None).

(** The old entries are copied; the new ones hold anything. *)
Definition enlargeStablePtrTable : prog stable unit :=
  old_SPT_size ← gets SPT_size;
  modify (λ s, let n := wrapU 32 (SPT_size s * 2) in
               mkStable (entries s ++ replicate (Z.to_nat (n - SPT_size s)) junk) (malloc_at n) (stable_ptr_free s) n
                        (addrToStableHash s));;
  initFreeList old_SPT_size old_SPT_size NULL.

(** ** Names and pointers *)

(** The heap: the tests of [ClosureFlags], and the indirectee of an indirection. *)
Context (h : closures) (indirectee : ptr → ptr).

Definition is_indirection (q : ptr) : bool :=
  match info_type h (header_info h q) with IND | IND_STATIC | IND_PERM => true | _ => false end.
Fixpoint removeIndirections_loop (fuel : nat) (tag : Z) (q : ptr) : outcome ptr :=
  if is_indirection q then
    match fuel with
    | O => Err Diverges
    | S fuel =>
      let q := indirectee q in
      let tag := GET_CLOSURE_TAG q in
      removeIndirections_loop fuel tag (UNTAG_CLOSURE q)
    end
  else Ok (TAG_CLOSURE tag q).
Definition removeIndirections (fuel : nat) (p : ptr) : outcome ptr :=
  removeIndirections_loop fuel (GET_CLOSURE_TAG p) (UNTAG_CLOSURE p).

Definition lookupStableName_ (fuel : nat) (p : ptr) : prog stable Z :=
  s ← get;
  (if stable_ptr_free s =? NULL then enlargeStablePtrTable else mret tt);;
  p ← (λ s, match removeIndirections fuel p with Ok p => Ok (p, s) | Err e => Err e end);
  let p := UNTAG_CLOSURE p in
  sn ← on_hash (wt_lookup p);
  if negb (sn =? 0) then
    e ← get_entry sn;
    ASSERT (addr e =? p);;
    mret sn
  else
    s ← get;
    let sn := entry_index s (stable_ptr_free s) in
    e ← get_entry sn;
    modify (set_free (addr e));;
    on_entry sn (set_ref 0);;
    on_entry sn (set_addr p);;
    on_entry sn (set_sn_obj NULL);;
    on_hash (wt_insert p sn);;
    mret sn.
Definition lookupStableName (fuel : nat) (p : ptr) : prog stable Z :=
  initStablePtrTable;; lookupStableName_ fuel p.

Definition freeStableName (sn : Z) : prog stable unit :=
  e ← get_entry sn;
  ASSERT (sn_obj e =? NULL);;
  (if negb (addr e =? NULL) then _ ← on_hash (wt_remove (addr e) NULL); mret tt else mret tt);;
  s ← get;
  on_entry sn (set_addr (stable_ptr_free s));;
  modify (set_free (entry_ptr s sn)).

Definition getStablePtr (fuel : nat) (p : ptr) : prog stable Z :=
  initStablePtrTable;;
  sn ← lookupStableName_ fuel p;
  on_entry sn (λ e, set_ref (wrapU 64 (ref e + 1)) e);;
  mret sn.

Definition freeStablePtr (sp : Z) : prog stable unit :=
  initStablePtrTable;;
  s ← get;
  e ← get_entry sp;
  ASSERT ((sp <? SPT_size s) && negb (addr e =? NULL) && (0 <? ref e));;
  on_entry sp (λ e, set_ref (wrapU 64 (ref e - 1)) e);;
  e ← get_entry sp;
  if (sn_obj e =? NULL) && (ref e =? 0) then freeStableName sp else mret tt.

Definition deRefStablePtr (sp : Z) : prog stable ptr :=
  e ← get_entry sp;
  ASSERT (0 <? ref e);;
  mret (addr e).

(** ** Garbage collection *)

(** [evac] on an object that is a root; [isAlive] of sm/GCAux.c, NULL for a
    dead object and its new address otherwise. *)
Context (evac isAlive : ptr → ptr).

(** [q && (q < (P_)stable_ptr_table || q >= (P_)end_stable_ptr_table)] *)
Definition is_object (s : stable) (q : ptr) : bool :=
  negb (q =? NULL) && ((q <? stable_ptr_table s) || (entry_ptr s (SPT_size s) <=? q)).

(** [for (p = stable_ptr_table+1; p < end_stable_ptr_table; p++) ...] *)
Definition for_entries (body : Z → prog stable unit) : prog stable unit :=
  s ← get; for_each (seqZ 1 (SPT_size s - 1)) body.

Definition markStablePtrTable : prog stable unit :=
  for_entries (λ p,
    s ← get;
    e ← get_entry p;
    when (is_object s (addr e)) (
      on_entry p (set_old (addr e));;
      when (negb (ref e =? 0)) (on_entry p (set_addr (evac (addr e)))))).

Definition threadStablePtrTable : prog stable unit :=
  for_entries (λ p,
    e ← get_entry p;
    when (negb (sn_obj e =? NULL)) (on_entry p (set_sn_obj (evac (sn_obj e))));;
    s ← get;
    e ← get_entry p;
    when (is_object s (addr e)) (on_entry p (set_addr (evac (addr e))))).

Definition gcStablePtrTable : prog stable unit :=
  for_entries (λ p,
    e ← get_entry p;
    when (negb (sn_obj e =? NULL)) (on_entry p (set_sn_obj (isAlive (sn_obj e))));;
    s ← get;
    e ← get_entry p;
    when (is_object s (addr e)) (
      when (ref e =? 0) (
        if sn_obj e =? NULL then freeStableName p
        else on_entry p (set_addr (isAlive (addr e)))))).

Definition updateStablePtrTable (full : bool) : prog stable unit :=
  h ← gets addrToStableHash;
  when (full && bool_decide (is_Some h)) (modify (set_hash wt_alloc));;
  for_entries (λ p,
    s ← get;
    e ← get_entry p;
    if addr e =? NULL then
      when (negb (old e =? NULL)) (
        _ ← on_hash (wt_remove (old e) NULL);
        on_entry p (set_old NULL))
    else when ((addr e <? stable_ptr_table s) || (entry_ptr s (SPT_size s) <=? addr e)) (
      if full then on_hash (wt_insert (addr e) p)
      else when (negb (addr e =? old e)) (
        _ ← on_hash (wt_remove (old e) NULL);
        on_hash (wt_insert (addr e) p)))).
End stable.
