(* ===== verification/StableInv.v ===== *)
(** * The invariant of the stable name table, and names outside collections *)
From stdpp Require Import list gmap.
From S2P Require Import Prelude DList Hash ClosureFlags Stable.
Local Open Scope Z_scope.

Section table.
Context {T : Type} `{HT : WordTable T}.
Notation stable := (@stable T).
Implicit Types s : stable.

(** ** Accesses *)
Lemma wp_stable_entry i e Q s : entries s !! i = Some e → Q e s → wp (get_entry (Z.of_nat i)) Q s.
Proof.
  intros Hi HQ. unfold get_entry. do 2 wp_step. rewrite (proj2 (Z.ltb_ge _ _)) by lia.
  eapply wp_deref; [by rewrite Nat2Z.id|done].
Qed.

Lemma wp_put_entry i e e' Q s :
  entries s !! i = Some e → Q tt (set_entries (<[i := e']> (entries s)) s) → wp (put_entry (Z.of_nat i) e') Q s.
Proof.
  intros Hi HQ. unfold put_entry. wp_step. eapply wp_stable_entry; [done|]. apply wp_modify. by rewrite Nat2Z.id.
Qed.

Lemma wp_on_entry i e f Q s :
  entries s !! i = Some e → Q tt (set_entries (<[i := f e]> (entries s)) s) → wp (on_entry (Z.of_nat i) f) Q s.
Proof. intros Hi HQ. unfold on_entry. wp_step. eapply wp_stable_entry; [done|]. by eapply wp_put_entry. Qed.

(** The hash table is allocated and represents [m]. *)
Definition hash_rep (h : option T) (m : gmap Z Z) : Prop := ∃ t, h = Some t ∧ wt_rep t m.
Lemma wp_on_hash {A} (k : prog T A) (m : gmap Z Z) Q s :
  hash_rep (addrToStableHash s) m →
  (∀ t, addrToStableHash s = Some t → wt_rep t m → wp k (λ a t', Q a (set_hash t' s)) t) → wp (on_hash k) Q s.
Proof.
  intros (t & E & Ht) Hw. specialize (Hw t E Ht). unfold wp, on_hash in *. rewrite E. by destruct (k t) as [[a t']|].
Qed.

(** ** The free list *)

(** From [p], the free slots are [fl], in order. *)
Fixpoint free_chain (es : list snEntry) (base p : ptr) (fl : list nat) : Prop :=
  match fl with
  | [] => p = NULL
  | i :: fl => p = base + sizeof_snEntry * Z.of_nat i ∧ (1 <= i)%nat ∧
      ∃ e, es !! i = Some e ∧ ref e = 0 ∧ sn_obj e = NULL ∧ free_chain es base (addr e) fl
  end.

Lemma free_chain_insert es base p fl i e :
  i ∉ fl → free_chain es base p fl → free_chain (<[i := e]> es) base p fl.
Proof.
  revert p. induction fl as [|j fl IH]; intros p Hi; [done|]. rewrite not_elem_of_cons in Hi. destruct Hi as [Hij Hi].
  intros (Hp & Hj & e' & He' & Hr & Hs & Hc). split_and!; [done|done|]. exists e'.
  rewrite list_lookup_insert_ne by done. eauto.
Qed.

Lemma free_chain_app es es' base p fl : free_chain es base p fl → free_chain (es ++ es') base p fl.
Proof.
  revert p. induction fl as [|j fl IH]; intros p; [done|]. intros (Hp & Hj & e' & He' & Hr & Hs & Hc).
  split_and!; [done|done|]. exists e'. split_and!; [by apply lookup_app_l_Some|done|done|by apply IH].
Qed.

Lemma free_chain_elem es base p fl i : free_chain es base p fl → i ∈ fl → (1 <= i)%nat ∧ ∃ e, es !! i = Some e ∧ ref e = 0 ∧ sn_obj e = NULL.
Proof.
  revert p. induction fl as [|j fl IH]; intros p; [by intros _ ?%elem_of_nil|].
  intros (Hp & Hj & e' & He' & Hr & Hs & Hc) [->|Hi]%elem_of_cons; [eauto|by eapply IH].
Qed.

(** What a free slot holds: NULL or the address of another slot. *)
Lemma free_chain_addr es base p fl i e :
  free_chain es base p fl → i ∈ fl → es !! i = Some e → addr e = NULL ∨ ∃ j, (1 <= j < length es)%nat ∧ addr e = base + sizeof_snEntry * Z.of_nat j.
Proof.
  revert p. induction fl as [|k fl IH]; intros p; [by intros _ ?%elem_of_nil|].
  intros (Hp & Hj & e' & He' & Hr & Hs & Hc) [->|Hi]%elem_of_cons He; [|by eapply IH].
  assert (e' = e) as -> by congruence. destruct fl as [|j fl]; [by left|]. destruct Hc as (Ha & Hj1 & e2 & He2 & _).
  right. exists j. split; [|done]. apply lookup_lt_Some in He2. lia.
Qed.

Lemma seqZ_of_nat lo n : seqZ (Z.of_nat lo) (Z.of_nat n) = Z.of_nat <$> seq lo n.
Proof.
  revert lo. induction n as [|n IH]; intros lo; [done|].
  rewrite seqZ_cons by lia. cbn. f_equal. rewrite <- IH. f_equal; lia.
Qed.

Lemma wp_initFreeList lo n (Q : unit → stable → Prop) s :
  (0 < lo)%nat → (0 < n)%nat → (lo + n <= length (entries s))%nat →
  (∀ es, length es = length (entries s) → (∀ i, (i < lo ∨ lo + n <= i)%nat → es !! i = entries s !! i) →
     (∀ i e, (lo <= i < lo + n)%nat → es !! i = Some e → old e = NULL) →
     free_chain es (stable_ptr_table s) (entry_ptr s (Z.of_nat lo)) (seq lo n) →
     Q tt (set_free (entry_ptr s (Z.of_nat lo)) (set_entries es s))) →
  wp (initFreeList (Z.of_nat lo) (Z.of_nat n) NULL) Q s.
Proof using.
  intros Hlo Hn Hlen HQ. unfold initFreeList. wp_step. rewrite seqZ_of_nat.
  assert (∀ k free es, (k <= n)%nat → length es = length (entries s) → (∀ i, (i < lo ∨ lo + n <= i)%nat → es !! i = entries s !! i) →
    (∀ i e, (lo + k <= i < lo + n)%nat → es !! i = Some e → old e = NULL) →
    free_chain es (stable_ptr_table s) free (seq (lo + k) (n - k)) →
    wp (initFreeList_loop (reverse (Z.of_nat <$> seq lo k)) free) (λ _ s', ∃ es', s' = set_entries es' s ∧ length es' = length (entries s) ∧
      (∀ i, (i < lo ∨ lo + n <= i)%nat → es' !! i = entries s !! i) ∧
      (∀ i e, (lo <= i < lo + n)%nat → es' !! i = Some e → old e = NULL) ∧
      ∃ free', free_chain es' (stable_ptr_table s) free' (seq lo n)) (set_entries es s)) as Hloop.
  { induction k as [|k IH]; intros free es Hk Hl Hout Hold Hc.
    - apply wp_ret. exists es. rewrite Nat.add_0_r, Nat.sub_0_r in *. eauto 10.
    - assert (reverse (Z.of_nat <$> seq lo (Datatypes.S k)) = Z.of_nat (lo + k) :: reverse (Z.of_nat <$> seq lo k)) as ->
        by (rewrite seq_S, fmap_app, reverse_app; done). cbn [initFreeList_loop].
      destruct (lookup_lt_is_Some_2 es (lo + k)) as [e He]; [lia|].
      wp_step. eapply wp_put_entry; [done|]. cbv beta. do 2 wp_step. cbn [entries set_entries].
      change (set_entries (<[(lo + k)%nat:=mkEntry free NULL 0 NULL]> es) (set_entries es s)) with (set_entries (<[(lo + k)%nat:=mkEntry free NULL 0 NULL]> es) s).
      apply IH.
      + lia.
      + by rewrite length_insert.
      + intros i Hi. rewrite list_lookup_insert_ne by lia. by apply Hout.
      + intros i e' Hi. destruct (decide (i = lo + k)%nat) as [->|].
        * rewrite list_lookup_insert_eq by lia. by intros [= <-].
        * rewrite list_lookup_insert_ne by lia. apply Hold. lia.
      + replace (n - k)%nat with (Datatypes.S (n - Datatypes.S k)) by lia. cbn. split_and!; [done|lia|].
        exists (mkEntry free NULL 0 NULL). split_and!; [apply list_lookup_insert_eq; lia|done|done|]. cbn.
        replace (Datatypes.S (lo + k)) with (lo + Datatypes.S k)%nat by lia.
        apply free_chain_insert; [rewrite elem_of_seq; lia|done]. }
  specialize (Hloop n NULL (entries s)). rewrite Nat.sub_diag in Hloop. cbn [seq free_chain] in Hloop.
  replace (set_entries (entries s) s) with s in Hloop by by destruct s.
  eapply wp_mono; [apply Hloop; [done|done|done| |done]; lia|]. cbv beta.
  intros _ s' (es & -> & Hl & Hout & Hold & free' & Hc). apply wp_modify.
  change (entry_ptr (set_entries es s) (Z.of_nat lo)) with (entry_ptr s (Z.of_nat lo)). apply HQ; try done.
  destruct n as [|n]; [lia|]. cbn in Hc |- *. destruct Hc as (_ & H1 & H2). done.
Qed.
End table.

Section names.
Context {T : Type} `{HT : WordTable T}.
Notation stable := (@stable T).
Implicit Types s : stable.
Context (malloc_at : Z → ptr) (junk : snEntry).
(** The addresses of heap objects, which lie outside every table. *)
Context (heap_ptr : ptr → Prop).
Context (Hmalloc : ∀ n, 0 < malloc_at n).
Context (Hheap : ∀ n p, heap_ptr p → p ≠ NULL ∧ (p < malloc_at n ∨ malloc_at n + sizeof_snEntry * n <= p)).

(** [m]: the objects that have an entry; [fl]: the free slots. *)
Record stable_ok s (m : gmap Z Z) (fl : list nat) : Prop := {
  ok_base : stable_ptr_table s = malloc_at (SPT_size s);
  ok_len : Z.of_nat (length (entries s)) = SPT_size s ∧ INIT_SPT_SIZE <= SPT_size s < 2 ^ 32;
  ok_chain : free_chain (entries s) (stable_ptr_table s) (stable_ptr_free s) fl;
  ok_free : NoDup fl;
  ok_used i e : entries s !! i = Some e → (1 <= i)%nat → (i ∉ fl) →
    0 <= ref e < 2 ^ 64 ∧ ((addr e = NULL ∧ ref e = 0 ∧ old e = NULL) ∨ m !! addr e = Some (Z.of_nat i));
  ok_names p i : m !! p = Some i → heap_ptr p ∧ ∃ k e, i = Z.of_nat k ∧ (1 <= k)%nat ∧ (k ∉ fl) ∧ entries s !! k = Some e ∧ addr e = p;
  ok_rep : hash_rep (addrToStableHash s) m
}.

Lemma names_inj s m fl p p' i : stable_ok s m fl → m !! p = Some i → m !! p' = Some i → p = p'.
Proof using.
  intros Hok Hp Hp'. apply (ok_names _ _ _ Hok) in Hp as (_ & k & e & -> & _ & _ & Hk & <-).
  apply (ok_names _ _ _ Hok) in Hp' as (_ & k' & e' & Ek & _ & _ & Hk' & <-).
  apply Nat2Z.inj in Ek. subst k'. congruence.
Qed.

(** Slots in use keep their entries. *)
Definition keeps (fl : list nat) s s' : Prop :=
  ∀ i e, entries s !! i = Some e → (1 <= i)%nat → (i ∉ fl) → entries s' !! i = Some e.

Lemma enlarge_ok s m :
  stable_ok s m [] → SPT_size s < 2 ^ 31 →
  wp (enlargeStablePtrTable malloc_at junk)
     (λ _ s', ∃ fl, fl ≠ [] ∧ stable_ok s' m fl ∧ keeps [] s s' ∧ (∀ i, i ∈ fl → (length (entries s) <= i)%nat)) s.
Proof using Hmalloc.
  intros Hok Hlt. pose proof (ok_len _ _ _ Hok) as [Hl Hsz]. unfold INIT_SPT_SIZE in Hsz.
  unfold enlargeStablePtrTable. do 4 wp_step. set (n := length (entries s)) in *.
  assert (wrapU 32 (SPT_size s * 2) = 2 * SPT_size s) as -> by (rewrite wrapU_small; lia).
  set (s1 := mkStable _ _ _ _ _). rewrite <- Hl.
  assert (length (entries s1) = n + n)%nat as Hl1 by (cbn; rewrite length_app, length_replicate; lia).
  apply wp_initFreeList; [lia|lia|lia|]. intros es Hles Hout _ Hc.
  assert (∀ i e, entries s !! i = Some e → es !! i = Some e) as Hold.
  { intros i e Hi. pose proof (lookup_lt_Some _ _ _ Hi). rewrite Hout by (left; lia). cbn. by apply lookup_app_l_Some. }
  exists (seq n n). split_and!; [destruct n; [lia|done]| |by intros i e Hi _ _; apply Hold|intros i Hi%elem_of_seq; lia].
  constructor; cbn [set_free set_entries entries stable_ptr_table stable_ptr_free SPT_size addrToStableHash s1].
  - done.
  - rewrite Hles, Hl1. unfold INIT_SPT_SIZE. lia.
  - exact Hc.
  - apply NoDup_seq.
  - intros i e Hi H1 Hfl. assert (i < n)%nat as Hin.
    { rewrite elem_of_seq in Hfl. pose proof (lookup_lt_Some _ _ _ Hi). lia. }
    destruct (lookup_lt_is_Some_2 (entries s) i Hin) as [e' He']. assert (e' = e) as -> by (apply Hold in He'; congruence).
    apply (ok_used _ _ _ Hok i e He' H1). apply not_elem_of_nil.
  - intros p i Hp. destruct (ok_names _ _ _ Hok p i Hp) as (Hh & k & e & -> & Hk1 & _ & Hk & He).
    split; [done|]. exists k, e. split_and!; try done; [|by apply Hold]. rewrite elem_of_seq. apply lookup_lt_Some in Hk. lia.
  - apply (ok_rep _ _ _ Hok).
Qed.

Context (h : closures) (indirectee : ptr → ptr).

(** The object that [p] stands for. *)
Definition resolves (fuel : nat) (p q : ptr) : Prop :=
  ∃ r, removeIndirections h indirectee fuel p = Ok r ∧ q = UNTAG_CLOSURE r.

Lemma entry_index_ptr s i : entry_index s (stable_ptr_table s + sizeof_snEntry * i) = i.
Proof using. unfold entry_index, sizeof_snEntry. rewrite Z.add_simpl_l. rewrite Z.mul_comm. by rewrite Z.div_mul. Qed.

(** Taking the first free slot for [q]. *)
Lemma take_slot_ok s m q i fl e t' :
  stable_ok s m (i :: fl) → heap_ptr q → m !! q = None → entries s !! i = Some e →
  wt_rep t' (<[q := Z.of_nat i]> m) →
  stable_ok (mkStable (<[i := mkEntry q (old e) 0 NULL]> (entries s)) (stable_ptr_table s) (addr e) (SPT_size s) (Some t'))
    (<[q := Z.of_nat i]> m) fl.
Proof using.
  intros Hok Hq Hm He Ht. destruct (ok_chain _ _ _ Hok) as (_ & Hi1 & e' & He' & _ & _ & Hc). assert (e' = e) as -> by congruence.
  pose proof (ok_free _ _ _ Hok) as Hnd. apply NoDup_cons in Hnd as [Hifl Hnd].
  constructor; cbn [entries stable_ptr_table stable_ptr_free SPT_size addrToStableHash]; try done.
  - apply (ok_base _ _ _ Hok).
  - rewrite length_insert. apply (ok_len _ _ _ Hok).
  - by apply free_chain_insert.
  - intros j ej. rewrite list_lookup_insert_Some. intros [(<- & <- & _)|[Hne Hj]] H1 Hfl.
    + cbn. split; [lia|]. right. apply lookup_insert_eq.
    + destruct (ok_used _ _ _ Hok j ej Hj H1) as [Hr Hor]; [rewrite not_elem_of_cons; auto|]. split; [done|].
      destruct Hor as [?|Hor]; [by left|right]. rewrite lookup_insert_ne; [done|]. intros E. congruence.
  - intros p k. rewrite lookup_insert_Some. intros [[<- <-]|[Hne Hp]].
    + split; [done|]. exists i, (mkEntry q (old e) 0 NULL). split_and!; try done. apply list_lookup_insert_eq. by eapply lookup_lt_Some.
    + destruct (ok_names _ _ _ Hok p k Hp) as (Hh & j & ej & -> & H1 & Hfl & Hj & Ha). rewrite not_elem_of_cons in Hfl.
      split; [done|]. exists j, ej. split_and!; try done; [by destruct Hfl|]. rewrite list_lookup_insert_ne; [done|]. intros ->. by destruct Hfl as [[] _].
  - by exists t'.
Qed.

(** The outcome of a look-up: the known name, or a new one. *)
Definition named (s : stable) (m : gmap Z Z) (fl : list nat) (q : ptr) (sn : Z) (s' : stable) : Prop :=
  ∃ i fl', sn = Z.of_nat i ∧ (1 <= i)%nat ∧ stable_ok s' (<[q := sn]> m) fl' ∧ keeps fl s s' ∧
    ((m !! q = Some sn ∧ i ∉ fl) ∨
     m !! q = None ∧ (∀ p, m !! p ≠ Some sn) ∧ (i ∈ fl ∨ length (entries s) <= i)%nat ∧ ∃ o, entries s' !! i = Some (mkEntry q o 0 NULL)).

Lemma lookup_known s m fl q sn :
  stable_ok s m fl → m !! q = Some sn →
  wp (e ← get_entry sn; ASSERT (addr e =? q);; mret sn) (λ r s', r = sn ∧ s' = s) s.
Proof using.
  intros Hok Hm. destruct (ok_names _ _ _ Hok q sn Hm) as (_ & k & e & -> & _ & _ & He & Ha).
  wp_step. eapply wp_stable_entry; [done|]. wp_step. apply wp_assert; [by apply Z.eqb_eq|]. by wp_step.
Qed.

Lemma lookupStableName_ok fuel p q s m fl :
  stable_ok s m fl → resolves fuel p q → heap_ptr q → (fl = [] → SPT_size s < 2 ^ 31) →
  wp (lookupStableName_ malloc_at junk h indirectee fuel p) (named s m fl q) s.
Proof using Hmalloc Hheap.
  intros Hok (r & Hr & ->) Hq Hsz. set (q := UNTAG_CLOSURE r) in *.
  unfold lookupStableName_. do 3 wp_step.
  assert (wp (if stable_ptr_free s =? NULL then enlargeStablePtrTable malloc_at junk else mret tt)
    (λ _ s', ∃ fl', fl' ≠ [] ∧ stable_ok s' m fl' ∧ keeps fl s s' ∧ (∀ i, i ∈ fl' → i ∈ fl ∨ (length (entries s) <= i)%nat)) s) as Hfree.
  { destruct (_ =? _) eqn:E.
    - apply Z.eqb_eq in E. assert (fl = []) as ->.
      { destruct fl as [|i fl]; [done|]. destruct (ok_chain _ _ _ Hok) as (Hp & Hi & _).
        pose proof (Hmalloc (SPT_size s)). rewrite E, (ok_base _ _ _ Hok) in Hp. unfold sizeof_snEntry, END in Hp. lia. }
      eapply wp_mono; [apply (enlarge_ok s m Hok), Hsz; done|]. cbv beta. intros _ s' (fl' & Hne & Hok' & Hk & Hin). exists fl'. split_and!; [done..|]. auto.
    - apply Z.eqb_neq in E. apply wp_ret. exists fl. split_and!; [|done|by intros i e|auto].
      intros ->. by apply E, (ok_chain _ _ _ Hok). }
  eapply wp_mono; [exact Hfree|]. clear Hfree. cbv beta. intros _ s1 (fl1 & Hne & Hok1 & Hk1 & Hin1).
  wp_step. unfold wp at 1. rewrite Hr. fold q.
  wp_step. eapply wp_on_hash; [apply (ok_rep _ _ _ Hok1)|]. intros t0 Et0 Ht0. eapply wp_mono; [by eapply wt_lookup_spec|]. cbv beta. intros sn t [Esn ->].
  replace (set_hash t0 s1) with s1 by (destruct s1; cbn in Et0; by rewrite Et0).
  assert (sn = default 0 (m !! q)) as Esn' by exact Esn. clear Esn.
  destruct (m !! q) as [sn'|] eqn:Em; cbn in Esn'; subst sn.
  - destruct (ok_names _ _ _ Hok q sn' Em) as (_ & k & e & -> & Hk & Hkfl & He & Ha).
    rewrite (proj2 (Z.eqb_neq (Z.of_nat k) 0)) by lia. cbn [negb].
    eapply wp_mono; [by eapply lookup_known|]. cbv beta. intros ? ? [-> ->].
    exists k, fl1. split_and!; [done|done| |done|left; done]. by rewrite insert_id.
  - cbn [negb Z.eqb]. destruct fl1 as [|i fl1]; [done|].
    destruct (ok_chain _ _ _ Hok1) as (Ef & Hi1 & e & He & _ & _ & _).
    do 2 wp_step. rewrite Ef, entry_index_ptr. wp_step. eapply wp_stable_entry; [done|]. do 2 wp_step.
    wp_step. eapply wp_on_entry; [done|]. wp_step. eapply wp_on_entry; [apply list_lookup_insert_eq; by eapply lookup_lt_Some|].
    wp_step. eapply wp_on_entry; [apply list_lookup_insert_eq; cbn; rewrite ?length_insert; by eapply lookup_lt_Some|].
    cbn [entries set_entries set_free]. rewrite !list_insert_insert_eq.
    wp_step. eapply wp_on_hash; [apply (ok_rep _ _ _ Hok1)|]. intros t1 _ Ht1.
    eapply wp_mono; [eapply wt_insert_spec; [exact Ht1|done]|]. cbv beta. intros _ t' Ht. wp_step.
    exists i, fl1. split_and!; [done|done| | |right; split_and!; [done| |apply Hin1; by left|]].
    + exact (take_slot_ok s1 m q i fl1 e t' Hok1 Hq Em He Ht).
    + intros j ej Hj H1 Hjfl. cbn. rewrite list_lookup_insert_ne; [by apply Hk1|]. intros ->.
      destruct (Hin1 j) as [?|?]; [by left|done|]. apply lookup_lt_Some in Hj. lia.
    + intros p0 Hp0. destruct (ok_names _ _ _ Hok1 p0 _ Hp0) as (_ & k & ek & Ek & _ & Hkfl & _). apply Nat2Z.inj in Ek. subst k.
      apply Hkfl. by left.
    + exists (old e). cbn. apply list_lookup_insert_eq. by eapply lookup_lt_Some.
Qed.

(** ** Stable pointers *)
Lemma set_entry_ok s m fl i e e' :
  stable_ok s m fl → entries s !! i = Some e → i ∉ fl → m !! addr e = Some (Z.of_nat i) →
  addr e' = addr e → 0 <= ref e' < 2 ^ 64 → stable_ok (set_entries (<[i := e']> (entries s)) s) m fl.
Proof using.
  intros Hok Hi Hfl Hm Ea Hr. constructor; cbn [entries stable_ptr_table stable_ptr_free SPT_size addrToStableHash set_entries].
  - apply (ok_base _ _ _ Hok).
  - rewrite length_insert. apply (ok_len _ _ _ Hok).
  - apply free_chain_insert; [done|apply (ok_chain _ _ _ Hok)].
  - apply (ok_free _ _ _ Hok).
  - intros j ej. rewrite list_lookup_insert_Some. intros [(<- & <- & _)|[_ Hj]]; [|by apply (ok_used _ _ _ Hok)].
    intros _ _. split; [done|]. right. by rewrite Ea.
  - intros p k Hp. destruct (ok_names _ _ _ Hok p k Hp) as (Hh & j & ej & -> & H1 & Hjfl & Hj & Ha). split; [done|].
    destruct (decide (j = i)) as [->|Hne].
    + exists i, e'. assert (ej = e) as -> by congruence. split_and!; try done; [|congruence].
      apply list_lookup_insert_eq. by eapply lookup_lt_Some.
    + exists j, ej. by rewrite list_lookup_insert_ne.
  - apply (ok_rep _ _ _ Hok).
Qed.

Lemma freeStableName_raw s m i e :
  entries s !! i = Some e → sn_obj e = NULL → addr e ≠ NULL → hash_rep (addrToStableHash s) m →
  wp (freeStableName (Z.of_nat i)) (λ _ s', ∃ t', wt_rep t' (delete (addr e) m) ∧
    s' = mkStable (<[i := set_addr (stable_ptr_free s) e]> (entries s)) (stable_ptr_table s) (entry_ptr s (Z.of_nat i)) (SPT_size s) (Some t')) s.
Proof using.
  intros Hi Hsn Hnull Hrep. unfold freeStableName. wp_step. eapply wp_stable_entry; [done|]. wp_step.
  apply wp_assert; [by apply Z.eqb_eq|]. rewrite (proj2 (Z.eqb_neq _ _)) by done. cbn [negb]. do 2 wp_step.
  eapply wp_on_hash; [exact Hrep|]. intros t0 _ Ht0. eapply wp_mono; [eapply wt_remove_spec; [exact Ht0|by left]|]. cbv beta. intros _ t [_ Ht]. do 3 wp_step.
  wp_step. eapply wp_on_entry; [exact Hi|]. apply wp_modify. exists t. done.
Qed.

Lemma freeStableName_ok s m fl i e :
  stable_ok s m fl → entries s !! i = Some e → (1 <= i)%nat → i ∉ fl → m !! addr e = Some (Z.of_nat i) → ref e = 0 → sn_obj e = NULL →
  wp (freeStableName (Z.of_nat i)) (λ _ s', stable_ok s' (delete (addr e) m) (i :: fl) ∧
     entries s' = <[i := set_addr (stable_ptr_free s) e]> (entries s)) s.
Proof using Hheap.
  intros Hok Hi H1 Hfl Hm Hr Hsn. destruct (ok_names _ _ _ Hok _ _ Hm) as (Hh & _).
  destruct (Hheap 0 _ Hh) as [Hnull _]. eapply wp_mono; [apply (freeStableName_raw s m); try done; apply (ok_rep _ _ _ Hok)|].
  cbv beta. intros _ s2 (t & Ht & ->). split; [|done].
  pose proof (lookup_lt_Some _ _ _ Hi) as Hlen.
  constructor; cbn [entries stable_ptr_table stable_ptr_free SPT_size addrToStableHash].
  - apply (ok_base _ _ _ Hok).
  - rewrite length_insert. apply (ok_len _ _ _ Hok).
  - split_and!; [done|done|]. exists (set_addr (stable_ptr_free s) e). split_and!; [by apply list_lookup_insert_eq|done|done|].
    apply free_chain_insert; [done|apply (ok_chain _ _ _ Hok)].
  - apply NoDup_cons. split; [done|apply (ok_free _ _ _ Hok)].
  - intros j ej. rewrite not_elem_of_cons, list_lookup_insert_Some. intros [(<- & _ & _)|[Hne Hj]] Hj1 [Hji Hjfl]; [done|].
    destruct (ok_used _ _ _ Hok j ej Hj Hj1 Hjfl) as [Hrj Hor]. split; [done|]. destruct Hor as [?|Hor]; [by left|right].
    rewrite lookup_delete_ne; [done|]. intros E. assert (m !! addr e = Some (Z.of_nat j)) as E' by by rewrite E.
    rewrite Hm in E'. injection E'. lia.
  - intros p k. rewrite lookup_delete_Some. intros [Hne Hp].
    destruct (ok_names _ _ _ Hok p k Hp) as (Hhp & j & ej & -> & Hj1 & Hjfl & Hj & Ha). split; [done|]. exists j, ej.
    assert (j ≠ i) as Hji by (intros ->; congruence).
    rewrite not_elem_of_cons, list_lookup_insert_ne by done. done.
  - by exists t.
Qed.

Lemma wp_init s m fl Q : stable_ok s m fl → Q tt s → wp (initStablePtrTable malloc_at junk) Q s.
Proof using.
  intros Hok HQ. pose proof (ok_len _ _ _ Hok) as [_ Hsz]. unfold INIT_SPT_SIZE in Hsz.
  unfold initStablePtrTable. do 2 wp_step. rewrite (proj2 (Z.ltb_lt _ _)) by lia. by wp_step.
Qed.

(** The entry of a name before and after [getStablePtr]. *)
Lemma getStablePtr_ok fuel p q s m fl :
  stable_ok s m fl → resolves fuel p q → heap_ptr q → (fl = [] → SPT_size s < 2 ^ 31) →
  (∀ i e, entries s !! i = Some e → ref e < 2 ^ 64 - 1) →
  wp (getStablePtr malloc_at junk h indirectee fuel p) (λ sp s', ∃ i fl' e, sp = Z.of_nat i ∧ (1 <= i)%nat ∧ (i ∉ fl') ∧
     stable_ok s' (<[q := sp]> m) fl' ∧ entries s' !! i = Some e ∧ addr e = q ∧ 0 < ref e ∧
     ((m !! q = Some sp ∧ (i ∉ fl) ∧ entries s !! i = Some (set_ref (ref e - 1) e)) ∨
      (m !! q = None ∧ ref e = 1 ∧ sn_obj e = NULL ∧ (i ∈ fl ∨ length (entries s) <= i)%nat)) ∧
     ∀ j ej, j ≠ i → entries s !! j = Some ej → (1 <= j)%nat → (j ∉ fl) → entries s' !! j = Some ej) s.
Proof using Hmalloc Hheap.
  intros Hok Hres Hq Hsz Href. unfold getStablePtr. wp_step. eapply wp_init; [done|]. wp_step.
  eapply wp_mono; [by eapply lookupStableName_ok|]. intros sn s1 (i & fl1 & -> & Hi1 & Hok1 & Hk1 & Hcase).
  pose proof (lookup_insert_eq m q (Z.of_nat i)) as Hm1.
  destruct (ok_names _ _ _ Hok1 _ _ Hm1) as (_ & k & e & Ek & _ & Hkfl & Hk & Ha). apply Nat2Z.inj in Ek. subst k.
  destruct (ok_used _ _ _ Hok1 i e Hk Hi1 Hkfl) as [Hr1 _].
  assert (ref e < 2 ^ 64 - 1) as Hr2.
  { destruct Hcase as [[Hm Hfl]|(_ & _ & _ & o & Ho)]; [|rewrite Hk in Ho; injection Ho as ->; cbn; lia].
    destruct (ok_names _ _ _ Hok _ _ Hm) as (_ & k & e0 & Ek & _ & _ & Hk0 & _). apply Nat2Z.inj in Ek. subst k.
    pose proof (Hk1 _ _ Hk0 Hi1 Hfl). assert (e0 = e) as -> by congruence. by eapply Href. }
  wp_step. eapply wp_on_entry; [done|]. wp_step. rewrite wrapU_small by lia.
  exists i, fl1, (set_ref (ref e + 1) e). split_and!; try done.
  - by apply (set_entry_ok _ _ _ i e); [..|rewrite Ha|done|cbn; lia].
  - apply list_lookup_insert_eq. by eapply lookup_lt_Some.
  - cbn. lia.
  - destruct Hcase as [[Hm Hfl]|(Hm & _ & Hnew & o & Ho)].
    + left. split_and!; [done|done|]. replace (set_ref _ _) with e by (destruct e; unfold set_ref; cbn; f_equal; lia).
      destruct (ok_names _ _ _ Hok _ _ Hm) as (_ & k & e0 & Ek & _ & _ & Hk0 & _). apply Nat2Z.inj in Ek. subst k.
      pose proof (Hk1 _ _ Hk0 Hi1 Hfl). congruence.
    + right. rewrite Hk in Ho. injection Ho as ->. done.
  - intros j ej Hji Hj Hj1 Hjfl. cbn. rewrite list_lookup_insert_ne by done. by apply Hk1.
Qed.

Lemma freeStablePtr_ok s m fl i e :
  stable_ok s m fl → entries s !! i = Some e → (1 <= i)%nat → (i ∉ fl) → m !! addr e = Some (Z.of_nat i) → 0 < ref e →
  wp (freeStablePtr malloc_at junk (Z.of_nat i)) (λ _ s',
    if (sn_obj e =? NULL) && (ref e =? 1)
    then stable_ok s' (delete (addr e) m) (i :: fl) ∧ ∀ j, j ≠ i → entries s' !! j = entries s !! j
    else stable_ok s' m fl ∧ entries s' = <[i := set_ref (ref e - 1) e]> (entries s)) s.
Proof using Hheap.
  intros Hok Hi Hi1 Hfl Hm Hr. destruct (ok_names _ _ _ Hok _ _ Hm) as (Hh & _). destruct (Hheap 0 _ Hh) as [Hnull _].
  destruct (ok_used _ _ _ Hok i e Hi Hi1 Hfl) as [Hr1 _]. pose proof (ok_len _ _ _ Hok) as [Hl _]. pose proof (lookup_lt_Some _ _ _ Hi).
  unfold freeStablePtr. wp_step. eapply wp_init; [done|]. do 2 wp_step. wp_step. eapply wp_stable_entry; [done|]. wp_step.
  apply wp_assert.
  { rewrite (proj2 (Z.ltb_lt _ _)) by lia. rewrite (proj2 (Z.eqb_neq _ _)) by done. by rewrite (proj2 (Z.ltb_lt _ _)) by lia. }
  wp_step. eapply wp_on_entry; [done|]. rewrite wrapU_small by lia. set (e' := set_ref (ref e - 1) e).
  assert (stable_ok (set_entries (<[i := e']> (entries s)) s) m fl) as Hok' by (by apply (set_entry_ok _ _ _ i e); [..|cbn; lia]).
  wp_step. eapply wp_stable_entry; [by apply list_lookup_insert_eq|].
  change (sn_obj e') with (sn_obj e). change (ref e') with (ref e - 1).
  replace (ref e - 1 =? 0) with (ref e =? 1) by (destruct (Z.eqb_spec (ref e) 1), (Z.eqb_spec (ref e - 1) 0); lia).
  destruct (_ && _) eqn:E; [|by wp_step].
  apply andb_true_iff in E as [E1%Z.eqb_eq E2%Z.eqb_eq].
  eapply wp_mono; [apply (freeStableName_ok _ m fl i e'); try done; [by apply list_lookup_insert_eq|cbn; lia]|]. cbv beta.
  intros _ s' [Hok2 Ee]. split; [done|]. intros j Hj. rewrite Ee. cbn. by rewrite !list_lookup_insert_ne.
Qed.
End names.
