(* ===== verification/StableGC.v ===== *)
(** * A garbage collection over the table of stable names *)
From stdpp Require Import list gmap.
From S2P Require Import Prelude DList Hash ClosureFlags Stable StableInv.
Local Open Scope Z_scope.

Section gc.
Context {T : Type} `{HT : WordTable T}.
Notation stable := (@stable T).
Implicit Types s : stable.
Context (malloc_at : Z → ptr) (heap_ptr : ptr → Prop).
Context (Hmalloc : ∀ n, 0 < malloc_at n).
Context (Hheap : ∀ n p, heap_ptr p → p ≠ NULL ∧ (p < malloc_at n ∨ malloc_at n + sizeof_snEntry * n <= p)).
Notation stable_ok := (stable_ok malloc_at heap_ptr).

Context (evac isAlive : ptr → ptr).

(** ** The loop *)
Lemma wp_for_entries (I : nat → stable → Prop) body Q s n :
  SPT_size s = Z.of_nat n → (1 <= n)%nat → I 1%nat s →
  (∀ k s', (1 <= k < n)%nat → I k s' → wp (body (Z.of_nat k)) (λ _ s'', I (Datatypes.S k) s'') s') →
  (∀ s', I n s' → Q tt s') → wp (for_entries body) Q s.
Proof using.
  intros Hsz Hn HI Hbody HQ. unfold for_entries. do 2 wp_step. rewrite Hsz.
  replace (Z.of_nat n - 1) with (Z.of_nat (n - 1)) by lia. change 1 with (Z.of_nat 1). rewrite seqZ_of_nat.
  eapply wp_mono.
  - apply (wp_for_each (λ pre s', I (Datatypes.S (length pre)) s')); [done|].
    intros pre x rest s' Hl HI'.
    assert (x = Z.of_nat (Datatypes.S (length pre)) ∧ (Datatypes.S (length pre) < n)%nat) as [-> Hlt].
    { assert ((Z.of_nat <$> seq 1 (n - 1)) !! length pre = Some x) as Hx by (rewrite Hl; by apply list_lookup_middle).
      rewrite list_lookup_fmap in Hx. destruct (seq 1 (n - 1) !! length pre) as [j|] eqn:E; [|done].
      apply lookup_seq in E as [-> Hlt]. cbn in Hx. injection Hx as <-. split; [f_equal|]; lia. }
    eapply wp_mono; [apply Hbody; [lia|done]|]. cbv beta. intros _ s''. by rewrite length_app, Nat.add_1_r.
  - cbv beta. intros [] s' HI'. apply HQ. rewrite length_fmap, length_seq in HI'. by replace (Datatypes.S (n - 1)) with n in HI' by lia.
Qed.

(** ** Free slots and objects *)
Definition outside s (q : ptr) : bool := (q <? stable_ptr_table s) || (entry_ptr s (SPT_size s) <=? q).

Lemma outside_heap s m fl p : stable_ok s m fl → heap_ptr p → outside s p = true.
Proof using Hheap.
  intros Hok Hp. unfold outside, entry_ptr. rewrite (ok_base _ _ _ _ _ Hok). destruct (Hheap (SPT_size s) p Hp) as [_ [Hlt|Hle]].
  - by rewrite (proj2 (Z.ltb_lt _ _)).
  - rewrite (proj2 (Z.leb_le _ _)) by done. apply orb_true_r.
Qed.

Lemma object_heap s m fl p : stable_ok s m fl → heap_ptr p → is_object s p = true.
Proof using Hheap.
  intros Hok Hp. unfold is_object. destruct (Hheap 0 p Hp) as [Hn _]. rewrite (proj2 (Z.eqb_neq _ _)) by done.
  by apply (outside_heap s m fl).
Qed.

Lemma outside_free s m fl es i e :
  stable_ok s m fl → length es = length (entries s) → ∀ fl' p, free_chain es (stable_ptr_table s) p fl' → i ∈ fl' → es !! i = Some e →
  addr e = NULL ∨ outside s (addr e) = false.
Proof using.
  intros Hok Hl fl' p Hc Hi He. destruct (free_chain_addr _ _ _ _ _ _ Hc Hi He) as [?|(j & Hj & Ea)]; [by left|right].
  unfold outside, entry_ptr. rewrite Ea. pose proof (ok_len _ _ _ _ _ Hok) as [Hlen _]. unfold sizeof_snEntry.
  apply orb_false_iff. split; [apply Z.ltb_ge|apply Z.leb_gt]; lia.
Qed.

Lemma object_free s m fl es i e fl' p :
  stable_ok s m fl → length es = length (entries s) → free_chain es (stable_ptr_table s) p fl' → i ∈ fl' → es !! i = Some e →
  is_object s (addr e) = false.
Proof using.
  intros Hok Hl Hc Hi He. unfold is_object. destruct (outside_free _ _ _ _ _ _ Hok Hl _ _ Hc Hi He) as [->|E]; [done|].
  fold (outside s (addr e)). rewrite E. apply andb_false_r.
Qed.

(** ** Marking *)
Definition mark_entry s (e : snEntry) : snEntry :=
  if is_object s (addr e) then mkEntry (if ref e =? 0 then addr e else evac (addr e)) (addr e) (ref e) (sn_obj e) else e.
Definition mark_upto s (k : nat) (i : nat) (e : snEntry) : snEntry :=
  if bool_decide (1 <= i < k)%nat then mark_entry s e else e.
Definition marked s (k : nat) : stable := set_entries (imap (mark_upto s k) (entries s)) s.

Lemma marked_lookup s k i : entries (marked s k) !! i = mark_upto s k i <$> entries s !! i.
Proof using. apply list_lookup_imap. Qed.

Lemma imap_insert_step {A} (f g : nat → A → A) l k x :
  l !! k = Some x → (∀ i y, i ≠ k → f i y = g i y) → <[k := g k x]> (imap f l) = imap g l.
Proof using.
  intros Hk Hfg. apply list_eq. intros i. rewrite list_lookup_imap. destruct (decide (i = k)) as [->|Hne].
  - rewrite list_lookup_insert_eq by (rewrite length_imap; by eapply lookup_lt_Some). by rewrite Hk.
  - rewrite list_lookup_insert_ne, list_lookup_imap by done. destruct (l !! i); cbn; [by rewrite Hfg|done].
Qed.

Lemma marked_1 s : marked s 1 = s.
Proof using.
  assert (imap (mark_upto s 1) (entries s) = entries s) as E.
  { apply list_eq. intros i. rewrite list_lookup_imap. destruct (entries s !! i) as [e|]; [|done]. cbn.
    unfold mark_upto. rewrite bool_decide_eq_false_2; [done|lia]. }
  unfold marked. rewrite E. by destruct s.
Qed.

Lemma mark_spec s m fl :
  stable_ok s m fl → wp (markStablePtrTable evac) (λ _ s', s' = marked s (length (entries s))) s.
Proof using.
  intros Hok. pose proof (ok_len _ _ _ _ _ Hok) as [Hl Hsz]. unfold INIT_SPT_SIZE in Hsz. unfold markStablePtrTable.
  apply (wp_for_entries (λ k s', s' = marked s k) _ _ _ (length (entries s))); [by rewrite Hl|lia| | |by intros s' ->].
  - symmetry. apply marked_1.
  - intros k s' Hk ->. destruct (lookup_lt_is_Some_2 (entries s) k) as [e He]; [lia|].
    assert (entries (marked s k) !! k = Some e) as He'.
    { rewrite marked_lookup, He. cbn. unfold mark_upto. rewrite bool_decide_eq_false_2; [done|lia]. }
    assert (marked s (Datatypes.S k) = set_entries (<[k := mark_entry s e]> (entries (marked s k))) (marked s k)) as Estep.
    { unfold marked, set_entries. cbn. f_equal. symmetry.
      replace (mark_entry s e) with (mark_upto s (Datatypes.S k) k e) by (unfold mark_upto; rewrite bool_decide_eq_true_2; [done|lia]).
      apply imap_insert_step; [done|]. intros i y Hi. unfold mark_upto. do 2 case_bool_decide; try done; lia. }
    rewrite Estep. do 2 wp_step. wp_step. eapply wp_stable_entry; [done|]. change (is_object (marked s k)) with (is_object s).
    unfold mark_entry. wp_step; rename select (is_object s (addr e) = _) into Ho; rewrite Ho.
    + wp_step. eapply wp_on_entry; [done|]. wp_step.
      * eapply wp_on_entry; [apply list_lookup_insert_eq; by eapply lookup_lt_Some|]. cbn [entries set_entries]. rewrite list_insert_insert_eq.
        rename select (negb _ = true) into Hr. apply negb_true_iff in Hr. by rewrite Hr.
      * rename select (negb _ = false) into Hr. apply negb_false_iff in Hr. by rewrite Hr.
    + rewrite list_insert_id by done. by destruct (marked s k).
Qed.

(** ** Collecting *)
Definition sn_alive (e : snEntry) : ptr := if sn_obj e =? NULL then NULL else isAlive (sn_obj e).
Definition gc_entry s (e : snEntry) : snEntry :=
  mkEntry (if is_object s (addr e) && (ref e =? 0) then isAlive (addr e) else addr e) (old e) (ref e) (sn_alive e).
Definition dead_entry s (e : snEntry) : bool := is_object s (addr e) && (ref e =? 0) && (sn_alive e =? NULL).

Section passes.
Context (s : stable) (m : gmap Z Z) (fl : list nat) (Hok : stable_ok s m fl).
Context (Hevac : ∀ p, heap_ptr p → heap_ptr (evac p)).
Notation n := (length (entries s)).
Notation s1 := (marked s n).

(** An entry in use, after marking. *)
Lemma marked_used i e1 :
  entries s1 !! i = Some e1 → (1 <= i)%nat → (i ∉ fl) →
  ∃ e, entries s !! i = Some e ∧ ref e1 = ref e ∧ sn_obj e1 = sn_obj e ∧ 0 <= ref e < 2 ^ 64 ∧
    ((addr e = NULL ∧ e1 = e ∧ ref e = 0 ∧ old e = NULL) ∨
     (m !! addr e = Some (Z.of_nat i) ∧ heap_ptr (addr e) ∧ old e1 = addr e ∧
      addr e1 = (if ref e =? 0 then addr e else evac (addr e)))).
Proof using Hok Hheap.
  rewrite marked_lookup. intros Hi H1 Hfl. destruct (entries s !! i) as [e|] eqn:He; [|done]. cbn in Hi. injection Hi as <-.
  destruct (ok_used _ _ _ _ _ Hok i e He H1 Hfl) as [Hr Hor]. exists e. unfold mark_upto.
  rewrite bool_decide_eq_true_2 by (apply lookup_lt_Some in He; lia). unfold mark_entry.
  destruct Hor as [(Ea & Er & Eo)|Hm].
  - assert (is_object s (addr e) = false) as -> by (by rewrite Ea). split_and!; try done; try lia. by left.
  - destruct (ok_names _ _ _ _ _ Hok _ _ Hm) as [Hh _]. rewrite (object_heap s m fl) by done. cbn. split_and!; try done; try lia.
    by right.
Qed.

Lemma marked_free i e1 : entries s1 !! i = Some e1 → i ∈ fl → entries s !! i = Some e1 ∧ is_object s (addr e1) = false.
Proof using Hok.
  rewrite marked_lookup. intros Hi Hfl. destruct (entries s !! i) as [e|] eqn:He; [|done]. cbn in Hi.
  pose proof (object_free s m fl (entries s) i e _ _ Hok eq_refl (ok_chain _ _ _ _ _ Hok) Hfl He) as Ho.
  assert (mark_upto s n i e = e) as E by (unfold mark_upto, mark_entry; rewrite Ho; by case_bool_decide).
  rewrite E in Hi. injection Hi as <-. done.
Qed.

Record collected (k : nat) (fl' : list nat) (m' : gmap Z Z) (s' : stable) : Prop := {
  co_base : stable_ptr_table s' = stable_ptr_table s ∧ SPT_size s' = SPT_size s ∧ length (entries s') = n;
  co_chain : free_chain (entries s') (stable_ptr_table s) (stable_ptr_free s') fl';
  co_nodup : NoDup fl';
  co_free i : i ∈ fl' ↔ i ∈ fl ∨ (1 <= i < k)%nat ∧ ∃ e, entries s1 !! i = Some e ∧ dead_entry s e = true;
  co_rep : hash_rep (addrToStableHash s') m';
  co_map p i : m' !! p = Some (Z.of_nat i) ↔ m !! p = Some (Z.of_nat i) ∧ (i ∉ fl');
  co_dom p i : m' !! p = Some i → m !! p = Some i;
  co_old i e' : entries s' !! i = Some e' → ∃ e1, entries s1 !! i = Some e1 ∧ old e' = old e1 ∧ (i ∈ fl → e' = e1);
  co_done i e1 : entries s1 !! i = Some e1 → (1 <= i < k)%nat → (i ∉ fl') → entries s' !! i = Some (gc_entry s e1);
  co_todo i e1 : entries s1 !! i = Some e1 → (k <= i)%nat → entries s' !! i = Some e1
}.

Lemma collected_1 : collected 1 fl m s1.
Proof using Hok Hheap.
  constructor; cbn [marked set_entries stable_ptr_table SPT_size stable_ptr_free addrToStableHash]; try done.
  - split_and!; [done|done|]. apply length_imap.
  - assert (∀ i e, i ∈ fl → entries s !! i = Some e → entries s1 !! i = Some e) as Hsame.
    { intros i e Hi He. destruct (entries s1 !! i) as [e1|] eqn:E1.
      - by apply marked_free in E1 as [<- _].
      - rewrite marked_lookup, He in E1. done. }
    pose proof (ok_chain _ _ _ _ _ Hok) as Hc. revert Hc Hsame. generalize (stable_ptr_free s). generalize fl.
    clear. intros fl. induction fl as [|i fl IH]; intros p; [done|]. intros (Hp & H1 & e & He & Hr & Hs & Hc) Hsame.
    split_and!; [done|done|]. exists e. split_and!; [apply Hsame; [by left|done]|done|done|]. apply IH; [done|].
    intros j ej Hj. apply Hsame. by right.
  - apply (ok_free _ _ _ _ _ Hok).
  - intros i. split; [by left|]. intros [?|[? _]]; [done|lia].
  - apply (ok_rep _ _ _ _ _ Hok).
  - intros p i. split; [|by intros [? _]]. intros Hp. split; [done|].
    destruct (ok_names _ _ _ _ _ Hok _ _ Hp) as (_ & k & e & Ek & _ & Hk & _). apply Nat2Z.inj in Ek. by subst k.
  - intros i e' He. eauto.
  - intros i e1 _ Hi. lia.
Qed.

Lemma not_yet k fl' m' s' : collected k fl' m' s' → k ∈ fl' → k ∈ fl.
Proof using. intros Hc Hk. apply (co_free _ _ _ _ Hc) in Hk as [?|[? _]]; [done|lia]. Qed.

Lemma gc_entry_free i e1 : entries s1 !! i = Some e1 → i ∈ fl → gc_entry s e1 = e1 ∧ dead_entry s e1 = false.
Proof using Hok.
  intros Hi Hfl. destruct (marked_free i e1 Hi Hfl) as [He Ho].
  destruct (free_chain_elem _ _ _ _ _ (ok_chain _ _ _ _ _ Hok) Hfl) as (_ & e & He' & _ & Hs). assert (e = e1) as -> by congruence.
  unfold gc_entry, dead_entry, sn_alive. rewrite Ho, Hs. cbn. split; [|done]. destruct e1. cbn in *. by subst.
Qed.

Lemma collected_keep k fl' m' s' e1 :
  collected k fl' m' s' → (1 <= k)%nat → entries s1 !! k = Some e1 → dead_entry s e1 = false →
  collected (Datatypes.S k) fl' m' (set_entries (<[k := gc_entry s e1]> (entries s')) s').
Proof using Hok.
  intros Hc Hk He Hd. pose proof Hc as [[Hb [Hsz Hl]] Hch Hnd Hfree Hrep Hmap Hdom Hold Hdone Htodo].
  assert (entries s' !! k = Some e1) as Hek by (apply Htodo; [done|lia]). pose proof (lookup_lt_Some _ _ _ Hek) as Hklt.
  constructor; cbn [set_entries entries stable_ptr_table SPT_size stable_ptr_free addrToStableHash]; try done.
  - by rewrite length_insert.
  - destruct (decide (k ∈ fl')) as [Hin|Hin]; [|by apply free_chain_insert].
    destruct (gc_entry_free k e1 He (not_yet _ _ _ _ Hc Hin)) as [-> _]. by rewrite list_insert_id.
  - intros i. rewrite Hfree. split.
    + intros [?|(? & e & Hi & Hde)]; [by left|right]. split; [lia|eauto].
    + intros [?|(? & e & Hi & Hde)]; [by left|]. destruct (decide (i = k)) as [->|]; [congruence|]. right. split; [lia|eauto].
  - intros i e'. rewrite list_lookup_insert_Some. intros [(<- & <- & _)|[_ Hi]]; [|by apply Hold].
    exists e1. split_and!; [done|done|]. intros Hin. exact (proj1 (gc_entry_free k e1 He Hin)).
  - intros i e1' Hi Hik Hifl. destruct (decide (i = k)) as [->|Hne].
    + assert (e1' = e1) as -> by congruence. by apply list_lookup_insert_eq.
    + rewrite list_lookup_insert_ne by done. apply Hdone; [done|lia|done].
  - intros i e1' Hi Hik. rewrite list_lookup_insert_ne by lia. apply Htodo; [done|lia].
Qed.

(** A dead entry was in use, and its object has not moved. *)
Lemma dead_used k fl' m' s' e1 :
  collected k fl' m' s' → (1 <= k)%nat → entries s1 !! k = Some e1 → dead_entry s e1 = true →
  (k ∉ fl) ∧ (k ∉ fl') ∧ m !! addr e1 = Some (Z.of_nat k) ∧ m' !! addr e1 = Some (Z.of_nat k) ∧ addr e1 ≠ NULL ∧ ref e1 = 0 ∧ sn_alive e1 = NULL.
Proof using Hok Hheap.
  intros Hc Hk He Hd. assert (k ∉ fl) as Hfl by (intros Hin; destruct (gc_entry_free k e1 He Hin); congruence).
  assert (k ∉ fl') as Hfl' by (intros Hin; by apply Hfl, (not_yet _ _ _ _ Hc)).
  destruct (marked_used k e1 He Hk Hfl) as (e & _ & Er & _ & _ & Hcase). unfold dead_entry in Hd.
  apply andb_true_iff in Hd as [Hd Hsn%Z.eqb_eq]. apply andb_true_iff in Hd as [Ho Hr%Z.eqb_eq].
  destruct Hcase as [(Ea & -> & _)|(Hm & Hh & _ & Ea)]; [unfold is_object in Ho; by rewrite Ea in Ho|].
  rewrite <- Er, Hr in Ea. cbn in Ea. rewrite Ea. destruct (Hheap 0 _ Hh) as [Hn _].
  split_and!; try done. by apply (co_map _ _ _ _ Hc).
Qed.

Lemma collected_free k fl' m' s' e1 t' :
  collected k fl' m' s' → (1 <= k)%nat → entries s1 !! k = Some e1 → dead_entry s e1 = true →
  wt_rep t' (delete (addr e1) m') →
  collected (Datatypes.S k) (k :: fl') (delete (addr e1) m')
    (mkStable (<[k := set_addr (stable_ptr_free s') (set_sn_obj NULL e1)]> (entries s')) (stable_ptr_table s') (entry_ptr s' (Z.of_nat k)) (SPT_size s') (Some t')).
Proof using Hok Hheap.
  intros Hc Hk He Hd Ht. destruct (dead_used _ _ _ _ _ Hc Hk He Hd) as (Hfl & Hfl' & Hm & Hm' & Hn & Hr & Hsn).
  pose proof Hc as [[Hb [Hsz Hl]] Hch Hnd Hfree Hrep Hmap Hdom Hold Hdone Htodo].
  assert (entries s' !! k = Some e1) as Hek by (apply Htodo; [done|lia]). pose proof (lookup_lt_Some _ _ _ Hek) as Hklt.
  constructor; cbn [entries stable_ptr_table SPT_size stable_ptr_free addrToStableHash]; try done.
  - by rewrite length_insert.
  - split_and!; [unfold entry_ptr; by rewrite Hb|done|]. eexists. split_and!; [by apply list_lookup_insert_eq|done|done|].
    by apply free_chain_insert.
  - by apply NoDup_cons.
  - intros i. rewrite elem_of_cons, Hfree. split.
    + intros [->|[?|(? & e & Hi & Hde)]]; [|by left|]; right; (split; [lia|eauto]).
    + intros [?|(? & e & Hi & Hde)]; [by right; left|]. destruct (decide (i = k)) as [->|]; [by left|]. right; right. split; [lia|eauto].
  - by exists t'.
  - intros p i. rewrite lookup_delete_Some, Hmap, not_elem_of_cons. split; [|intros (Hp & Hik & ?)].
    + intros (Hne & Hp & ?). split_and!; [done| |done]. intros ->. apply Hne. by apply (names_inj malloc_at heap_ptr s m fl _ _ (Z.of_nat k)).
    + split_and!; [|done|done]. intros E. assert (m !! addr e1 = Some (Z.of_nat i)) as Hp' by by rewrite E. rewrite Hm in Hp'. injection Hp' as ?. lia.
  - intros p i. rewrite lookup_delete_Some. intros [_ Hp]. by apply Hdom.
  - intros i e'. rewrite list_lookup_insert_Some. intros [(<- & <- & _)|[_ Hi]]; [|by apply Hold].
    exists e1. by split_and!.
  - intros i e1' Hi Hik. rewrite not_elem_of_cons. intros [Hne Hifl].
    rewrite list_lookup_insert_ne by done. apply Hdone; [done|lia|done].
  - intros i e1' Hi Hik. rewrite list_lookup_insert_ne by lia. apply Htodo; [done|lia].
Qed.

Lemma gc_spec :
  wp (gcStablePtrTable isAlive) (λ _ s', ∃ fl' m', collected n fl' m' s') s1.
Proof using Hok Hheap.
  pose proof (ok_len _ _ _ _ _ Hok) as [Hl Hsz]. unfold INIT_SPT_SIZE in Hsz. unfold gcStablePtrTable.
  apply (wp_for_entries (λ k s', ∃ fl' m', collected k fl' m' s') _ _ _ n); [cbn; by rewrite Hl|lia| | |by intros s' ?].
  { exists fl, m. apply collected_1. }
  intros k s' Hk (fl' & m' & Hc). destruct (lookup_lt_is_Some_2 (entries s1) k) as [e1 He]; [cbn; rewrite length_imap; lia|].
  pose proof Hc as [[Hb [Hsz' Hl']] _ _ _ Hrep _ _ _ _ Htodo].
  assert (entries s' !! k = Some e1) as Hek by (apply Htodo; [done|lia]). pose proof (lookup_lt_Some _ _ _ Hek) as Hklt.
  wp_step. eapply wp_stable_entry; [done|]. cbv beta. set (e2 := set_sn_obj (sn_alive e1) e1). set (s2 := set_entries (<[k := e2]> (entries s')) s').
  wp_step. apply (wp_mono _ (λ _ s'', s'' = s2)).
  { unfold s2, e2, sn_alive. destruct (sn_obj e1 =? NULL) eqn:E; cbn [negb].
    - apply wp_ret. apply Z.eqb_eq in E. replace (set_sn_obj NULL e1) with e1 by (destruct e1; cbn in *; by subst).
      rewrite list_insert_id by done. by destruct s'.
    - by eapply wp_on_entry. }
  intros _ ? ->. do 2 wp_step. wp_step. eapply wp_stable_entry; [by apply list_lookup_insert_eq|]. cbv beta.
  assert (is_object s2 (addr e2) = is_object s (addr e1)) as -> by (unfold is_object, entry_ptr; cbn; by rewrite Hb, Hsz').
  assert (∀ e, e = gc_entry s e1 → dead_entry s e1 = false → ∃ fl'' m'', collected (Datatypes.S k) fl'' m'' (set_entries (<[k := e]> (entries s')) s')) as Hkeep.
  { intros e -> Hd. exists fl', m'. apply collected_keep; [done|lia|done|done]. }
  wp_step; rename select (is_object _ _ = _) into Ho.
  - change (ref e2) with (ref e1). change (sn_obj e2) with (sn_alive e1). wp_step; rename select ((ref e1 =? 0) = _) into Hr.
    + destruct (sn_alive e1 =? NULL) eqn:Esn.
      * assert (dead_entry s e1 = true) as Hd by (unfold dead_entry; by rewrite Ho, Hr, Esn).
        destruct (dead_used _ _ _ _ _ Hc ltac:(lia) He Hd) as (_ & _ & _ & _ & Hn & _ & Hsn).
        eapply wp_mono; [apply (freeStableName_raw s2 m' k e2); [by apply list_lookup_insert_eq|done|done|done]|].
        cbv beta. intros _ s'' (t' & Ht & ->). exists (k :: fl'), (delete (addr e1) m').
        pose proof (collected_free k fl' m' s' e1 t' Hc ltac:(lia) He Hd Ht) as Hnew. cbn [s2 set_entries entries]. rewrite list_insert_insert_eq.
        unfold e2. rewrite Hsn. exact Hnew.
      * eapply wp_on_entry; [by apply list_lookup_insert_eq|]. cbn [s2 set_entries entries]. rewrite list_insert_insert_eq.
        apply Hkeep; [unfold gc_entry; by rewrite Ho, Hr|unfold dead_entry; by rewrite Esn, andb_false_r].
    + apply Hkeep; [unfold gc_entry; by rewrite Ho, Hr|unfold dead_entry; by rewrite Ho, Hr].
  - apply Hkeep; [unfold gc_entry; by rewrite Ho|unfold dead_entry; by rewrite Ho].
Qed.

(** ** Updating the hash table *)
Context (HisAlive : ∀ p, heap_ptr p → isAlive p = NULL ∨ isAlive p = evac p).
(** Objects move to different places, and to places where no named object was. *)
Context (Hinj : ∀ p p' i j, m !! p = Some i → m !! p' = Some j → evac p = evac p' → p = p').
Context (Hdisj : ∀ p p' i j, m !! p = Some i → m !! p' = Some j → evac p = p' → p = p').
(** What [old] holds in a free slot is the address of nothing that has a name. *)
Context (Hstale : ∀ i e, i ∈ fl → entries s !! i = Some e → addr e = NULL → old e ≠ NULL → m !! old e = None ∧ ∀ p j, m !! p = Some j → evac p ≠ old e).
Context (s2 : stable) (fl2 : list nat) (m2 : gmap Z Z) (Hc : collected n fl2 m2 s2).
Context (full : bool).

Lemma names_index p i : m !! p = Some i → heap_ptr p ∧ ∃ k, i = Z.of_nat k ∧ (1 <= k < n)%nat.
Proof using Hok.
  intros Hp. destruct (ok_names _ _ _ _ _ Hok _ _ Hp) as (Hh & k & e & -> & H1 & _ & He & _). split; [done|].
  exists k. split; [done|]. apply lookup_lt_Some in He. lia.
Qed.

Lemma names_one p p' i : m !! p = Some i → m !! p' = Some i → p = p'.
Proof using Hok. by apply (names_inj malloc_at heap_ptr s m fl). Qed.

(** A slot in use after the collection: its object is gone, or has moved. *)
Lemma final_used i e :
  entries s2 !! i = Some e → (1 <= i)%nat → (i ∉ fl2) →
  0 <= ref e < 2 ^ 64 ∧
  ((addr e = NULL ∧ ref e = 0 ∧ old e = NULL ∧ ∀ q, m !! q ≠ Some (Z.of_nat i)) ∨
   (∃ p, addr e = NULL ∧ ref e = 0 ∧ old e = p ∧ m !! p = Some (Z.of_nat i)) ∨
   (∃ p, addr e = evac p ∧ old e = p ∧ m !! p = Some (Z.of_nat i))).
Proof using Hok Hheap Hc HisAlive.
  intros He H1 Hfl2. destruct (co_base _ _ _ _ Hc) as (_ & _ & Hlen).
  assert (i < n)%nat as Hin by (rewrite <- Hlen; by eapply lookup_lt_Some).
  destruct (lookup_lt_is_Some_2 (entries s1) i) as [e1 He1]; [cbn; by rewrite length_imap|].
  assert (i ∉ fl) as Hfl by (intros ?; apply Hfl2, (co_free _ _ _ _ Hc); by left).
  rewrite (co_done _ _ _ _ Hc i e1 He1) in He by (done || lia). injection He as <-.
  destruct (marked_used i e1 He1 H1 Hfl) as (e & He & Er & Es & Hr & Hcase). unfold gc_entry. cbn. rewrite Er. split; [done|].
  destruct Hcase as [(Ea & -> & Hr0 & Ho)|(Hm & Hh & Ho & Ea)].
  - left. assert (is_object s (addr e) = false) as -> by (by rewrite Ea). split_and!; try done. intros q Hq.
    destruct (ok_names _ _ _ _ _ Hok _ _ Hq) as (Hqh & k & e' & Ek & _ & _ & Hk & Ha). apply Nat2Z.inj in Ek. subst k.
    assert (e' = e) as -> by congruence. destruct (Hheap 0 q Hqh) as [Hn _]. congruence.
  - right. destruct (ref e =? 0) eqn:E0; rewrite Ea.
    + apply Z.eqb_eq in E0. rewrite (object_heap s m fl) by done. cbn. rewrite Ho.
      destruct (HisAlive (addr e) Hh) as [E|E]; rewrite E; [left|right]; exists (addr e); done.
    + rewrite andb_false_r. right. exists (addr e). done.
Qed.

Definition final (q : ptr) (i : nat) : Prop :=
  ∃ e, entries s2 !! i = Some e ∧ (1 <= i)%nat ∧ (i ∉ fl2) ∧ addr e = q ∧ q ≠ NULL.

Lemma final_from q i : final q i → ∃ p, m !! p = Some (Z.of_nat i) ∧ q = evac p.
Proof using Hok Hheap Hc HisAlive.
  intros (e & He & H1 & Hfl & <- & Hn). destruct (final_used i e He H1 Hfl) as [_ [(? & _)|[(? & ? & _)|(p & -> & _ & Hm)]]]; [done..|]. eauto.
Qed.

Lemma final_inj q i j : final q i → final q j → i = j.
Proof using Hok Hheap Hc HisAlive Hinj.
  intros (p & Hp & ->)%final_from (p' & Hp' & E)%final_from. assert (p = p') as <- by (by eapply Hinj).
  rewrite Hp in Hp'. injection Hp' as ?. lia.
Qed.

(** The old name of a moved object is nobody's new one. *)
Lemma final_old p i j : final p i → m !! p = Some (Z.of_nat j) → i = j.
Proof using Hok Hheap Hc HisAlive Hdisj.
  intros (p' & Hp' & E)%final_from Hp. assert (p' = p) as -> by (by eapply Hdisj). rewrite Hp in Hp'. injection Hp' as ?. lia.
Qed.

(** The hash table when [k] is next: the slots before it are hashed anew. *)
Definition rehashed (k : nat) (mk : gmap Z Z) : Prop :=
  ∀ q i, mk !! q = Some i ↔ ∃ j, i = Z.of_nat j ∧ ((j < k)%nat ∧ final q j ∨ full = false ∧ (k <= j)%nat ∧ m2 !! q = Some i).

Lemma rehash_skip k mk :
  rehashed k mk → (∀ q, ¬ final q k) → (∀ q, m2 !! q ≠ Some (Z.of_nat k)) → rehashed (Datatypes.S k) mk.
Proof using.
  intros Hr Hf Hm q i. rewrite (Hr q i). split; intros (j & -> & Hj); exists j; (split; [done|]).
  - destruct Hj as [[Hj Hfj]|(Hfull & Hj & Hmj)]; [left; split; [lia|done]|right].
    assert (j ≠ k) by (intros ->; by eapply Hm). split_and!; [done|lia|done].
  - destruct Hj as [[Hj Hfj]|(Hfull & Hj & Hmj)]; [left|right; split_and!; [done|lia|done]].
    assert (j ≠ k) by (intros ->; by eapply Hf). split; [lia|done].
Qed.

Lemma old_name k mk p i :
  rehashed k mk → m !! p = Some (Z.of_nat k) → mk !! p = Some i → i = Z.of_nat k.
Proof using Hok Hheap Hc HisAlive Hdisj.
  intros Hr Hp (j & -> & [[Hj Hf]|(_ & _ & Hm2)])%Hr.
  - pose proof (final_old _ _ _ Hf Hp). lia.
  - apply (co_dom _ _ _ _ Hc) in Hm2. congruence.
Qed.

Lemma rehash_gone k mk p :
  rehashed k mk → (∀ q, ¬ final q k) → m !! p = Some (Z.of_nat k) → rehashed (Datatypes.S k) (delete p mk).
Proof using Hok Hheap Hc HisAlive Hdisj.
  intros Hr Hf Hp q i. rewrite lookup_delete_Some. split.
  - intros [Hne Hq]. pose proof Hq as (j & -> & Hj)%Hr. exists j. split; [done|].
    destruct Hj as [[Hj Hfj]|(Hfull & Hj & Hmj)]; [left; split; [lia|done]|right].
    assert (j ≠ k). { intros ->. apply Hne. apply (co_dom _ _ _ _ Hc) in Hmj. by eapply names_one. }
    split_and!; [done|lia|done].
  - intros (j & -> & Hj). assert (mk !! q = Some (Z.of_nat j) ∧ j ≠ k) as [Hq Hjk].
    { destruct Hj as [[Hj Hfj]|(Hfull & Hj & Hmj)].
      - assert (j ≠ k) by (intros ->; by eapply Hf). split; [|done]. apply Hr. exists j. split; [done|]. left. split; [lia|done].
      - split; [|lia]. apply Hr. exists j. split; [done|]. right. split_and!; [done|lia|done]. }
    split; [|done]. intros <-. pose proof (old_name _ _ _ _ Hr Hp Hq). lia.
Qed.

Lemma new_name k mk p i :
  rehashed k mk → m !! p = Some (Z.of_nat k) → final (evac p) k → mk !! evac p = Some i → full = false ∧ i = Z.of_nat k ∧ evac p = p.
Proof using Hok Hheap Hc HisAlive Hdisj Hinj.
  intros Hr Hp Hfk (j & -> & [[Hj Hf]|(Hfull & _ & Hm2)])%Hr.
  - pose proof (final_inj _ _ _ Hf Hfk). lia.
  - apply (co_dom _ _ _ _ Hc) in Hm2. assert (p = evac p) as E by (by eapply Hdisj).
    assert (m !! p = Some (Z.of_nat j)) as Hm2' by by rewrite E. rewrite Hp in Hm2'. injection Hm2' as ?. split_and!; [done|lia|done].
Qed.

Lemma rehash_moved k mk mk' p :
  rehashed k mk → m !! p = Some (Z.of_nat k) → final (evac p) k →
  (∀ q i, mk' !! q = Some i ↔ (q ≠ p ∧ mk !! q = Some i) ∨ (q = evac p ∧ i = Z.of_nat k)) → rehashed (Datatypes.S k) mk'.
Proof using Hok Hheap Hc HisAlive Hdisj Hinj.
  intros Hr Hp Hf Hmk' q i. rewrite Hmk'. split.
  - intros [[Hne Hq]|[-> ->]]; [|exists k; split; [done|]; left; split; [lia|done]].
    pose proof Hq as (j & -> & Hj)%Hr. exists j. split; [done|].
    destruct Hj as [[Hj Hfj]|(Hfull & Hj & Hmj)]; [left; split; [lia|done]|right].
    assert (j ≠ k). { intros ->. apply Hne. apply (co_dom _ _ _ _ Hc) in Hmj. by eapply names_one. }
    split_and!; [done|lia|done].
  - intros (j & -> & Hj). destruct (decide (j = k)) as [->|Hne].
    + right. destruct Hj as [[_ Hfj]|(_ & ? & _)]; [|lia]. split; [|done].
      destruct (final_from _ _ Hfj) as (p' & Hp' & ->). f_equal. by eapply names_one.
    + left. assert (mk !! q = Some (Z.of_nat j)) as Hq.
      { apply Hr. exists j. split; [done|]. destruct Hj as [[Hj Hfj]|(Hfull & Hj & Hmj)]; [left|right]; split_and!; try done; lia. }
      split; [|done]. intros ->. pose proof (old_name _ _ _ _ Hr Hp Hq). lia.
Qed.

(** Free slots: nothing has their old address for a name. *)
Lemma free_old k mk e :
  rehashed k mk → k ∈ fl2 → entries s2 !! k = Some e → addr e = NULL → old e ≠ NULL → mk !! old e = None.
Proof using Hok Hheap Hc HisAlive Hdisj Hstale.
  intros Hr Hk He Ha Ho. destruct (mk !! old e) as [i|] eqn:E; [|done]. exfalso.
  destruct (co_old _ _ _ _ Hc k e He) as (e1 & He1 & Eo & Esame). rewrite Eo in *.
  pose proof Hk as [Hfl|[H1 (e1' & He1' & Hd)]]%(co_free _ _ _ _ Hc).
  - destruct (marked_free k e1 He1 Hfl) as [He0 _]. rewrite (Esame Hfl) in Ha. destruct (Hstale k e1 Hfl He0 Ha Ho) as [Hm Hev].
    apply Hr in E as (j & -> & [[_ (p & Hp & Ep)%final_from]|(_ & _ & Hm2%(co_dom _ _ _ _ Hc))]); [by eapply Hev|discriminate (eq_trans (eq_sym Hm) Hm2)].
  - assert (e1' = e1) as -> by congruence.
    assert (k ∉ fl) as Hkfl by (intros Hin; destruct (gc_entry_free k e1 He1 Hin); congruence).
    destruct (marked_used k e1 He1 ltac:(lia) Hkfl) as (e0 & _ & _ & _ & _ & [(_ & -> & _ & Eo')|(Hm & _ & Eo' & _)]); [done|].
    rewrite Eo' in *. apply Hr in E as (j & -> & [[_ Hf]|(_ & _ & Hm2)]).
    + pose proof (final_old _ _ _ Hf Hm) as ->. by destruct Hf as (_ & _ & _ & Hnf & _).
    + pose proof (eq_trans (eq_sym Hm) (co_dom _ _ _ _ Hc _ _ Hm2)) as Hm'. injection Hm' as ?. assert (k = j) as -> by lia.
      by apply (co_map _ _ _ _ Hc) in Hm2 as [_ ?].
Qed.

Record updated (k : nat) (mk : gmap Z Z) (s' : stable) : Prop := {
  up_fields : stable_ptr_table s' = stable_ptr_table s2 ∧ SPT_size s' = SPT_size s2 ∧ stable_ptr_free s' = stable_ptr_free s2 ∧
    length (entries s') = length (entries s2);
  up_entries i e : entries s2 !! i = Some e → ∃ e', entries s' !! i = Some e' ∧ addr e' = addr e ∧ ref e' = ref e ∧ sn_obj e' = sn_obj e ∧
    ((k <= i)%nat → e' = e) ∧ ((1 <= i < k)%nat → addr e = NULL → old e' = NULL);
  up_rep : hash_rep (addrToStableHash s') mk;
  up_map : rehashed k mk
}.

Lemma updated_step k mk mk' s' t' e e' :
  updated k mk s' → (1 <= k)%nat → entries s2 !! k = Some e → addr e' = addr e → ref e' = ref e → sn_obj e' = sn_obj e →
  (addr e = NULL → old e' = NULL) → wt_rep t' mk' → rehashed (Datatypes.S k) mk' →
  updated (Datatypes.S k) mk' (set_entries (<[k := e']> (entries s')) (set_hash t' s')).
Proof using.
  intros [(E1 & E2 & E3 & E4) He _ _] Hk Hek Ea Er Es Ho Ht Hr. constructor; cbn [set_entries set_hash entries stable_ptr_table SPT_size stable_ptr_free addrToStableHash]; try done.
  - by rewrite length_insert.
  - intros i ei Hi. destruct (decide (i = k)) as [->|Hne].
    + assert (ei = e) as -> by congruence. exists e'. split_and!; try done; [|lia].
      apply list_lookup_insert_eq. rewrite E4. by eapply lookup_lt_Some.
    + destruct (He i ei Hi) as (ei' & Hi' & A1 & A2 & A3 & A4 & A5). exists ei'. rewrite list_lookup_insert_ne by done.
      split_and!; try done; [intros; apply A4; lia|intros; apply A5; [lia|done]].
  - by exists t'.
Qed.

Lemma update_body k mk s' e :
  updated k mk s' → (1 <= k < n)%nat → entries s2 !! k = Some e →
  wp (s ← get; e ← get_entry (Z.of_nat k);
      if addr e =? NULL then
        when (negb (old e =? NULL)) (_ ← on_hash (wt_remove (old e) NULL); on_entry (Z.of_nat k) (set_old NULL))
      else when ((addr e <? stable_ptr_table s) || (entry_ptr s (SPT_size s) <=? addr e)) (
        if full then on_hash (wt_insert (addr e) (Z.of_nat k))
        else when (negb (addr e =? old e)) (_ ← on_hash (wt_remove (old e) NULL); on_hash (wt_insert (addr e) (Z.of_nat k)))))
    (λ _ s'', ∃ mk', updated (Datatypes.S k) mk' s'') s'.
Proof using Hok Hheap Hevac Hc HisAlive Hdisj Hstale Hinj.
  intros Hup Hk He. destruct (up_entries _ _ _ Hup k e He) as (e' & He' & _ & _ & _ & Ee & _). rewrite Ee in He' by lia. clear Ee e'.
  pose proof (up_rep _ _ _ Hup) as Hrep. pose proof (up_map _ _ _ Hup) as Hr.
  destruct (up_fields _ _ _ Hup) as (E1 & E2 & E3 & E4). destruct (co_base _ _ _ _ Hc) as (B1 & B2 & B3).
  destruct Hrep as (t0 & Et0 & Ht0). assert (hash_rep (addrToStableHash s') mk) as Hrep by by exists t0.
  assert (s' = set_entries (<[k := e]> (entries s')) (set_hash t0 s')) as Eid.
  { rewrite list_insert_id by done. destruct s'. cbn in Et0. by rewrite Et0. }
  do 2 wp_step. wp_step. eapply wp_stable_entry; [done|]. cbv beta.
  assert (∀ q, addr e = NULL → ¬ final q k) as Hnf.
  { intros q Hn (e' & He'' & _ & _ & Ea & Hq). assert (e' = e) as -> by congruence. congruence. }
  assert (k ∈ fl2 → (∀ q, ¬ final q k) ∧ ∀ q, m2 !! q ≠ Some (Z.of_nat k)) as Hfree.
  { intros Hin. split; [by intros q (_ & _ & _ & Hnin & _)|]. intros q Hq. by apply (co_map _ _ _ _ Hc) in Hq as [_ ?]. }
  destruct (decide (k ∈ fl2)) as [Hin|Hin].
  - destruct (Hfree Hin) as [Hf1 Hf2]. pose proof (rehash_skip k mk Hr Hf1 Hf2) as Hr'.
    destruct (addr e =? NULL) eqn:En.
    + apply Z.eqb_eq in En. wp_step; rename select (negb _ = _) into Ho.
      * apply negb_true_iff, Z.eqb_neq in Ho. pose proof (free_old k mk e Hr Hin He En Ho) as Hnone.
        wp_step. eapply wp_on_hash; [exact Hrep|]. intros t1 _ Ht1. eapply wp_mono; [eapply wt_remove_spec; [exact Ht1|by left]|]. cbv beta. intros _ t' [_ Ht].
        rewrite delete_id in Ht by exact Hnone. eapply wp_on_entry; [done|]. exists mk. apply (updated_step k mk mk s' t' e); try done; lia.
      * apply negb_false_iff, Z.eqb_eq in Ho. exists mk. rewrite Eid. apply (updated_step k mk mk s' _ e); try done; lia.
    + apply Z.eqb_neq in En.
      assert ((addr e <? stable_ptr_table s') || (entry_ptr s' (SPT_size s') <=? addr e) = false) as ->.
      { destruct (outside_free s m fl (entries s2) k e Hok B3 _ _ (co_chain _ _ _ _ Hc) Hin He) as [?|Hout]; [done|].
        unfold outside, entry_ptr in *. by rewrite E1, E2, B1, B2. }
      apply wp_ret. exists mk. rewrite Eid. apply (updated_step k mk mk s' _ e); try done; lia.
  - destruct (final_used k e He ltac:(lia) Hin) as [_ [(Ea & _ & Eo & Hno)|[(p & Ea & _ & Eo & Hp)|(p & Ea & Eo & Hp)]]].
    + rewrite Ea, Eo. cbn [negb Z.eqb END when]. apply wp_ret. exists mk. rewrite Eid. apply (updated_step k mk mk s' _ e); try done; [lia|].
      apply rehash_skip; [done|intros q; by apply Hnf|]. intros q Hq. apply (co_dom _ _ _ _ Hc) in Hq. by apply (Hno q).
    + destruct (names_index _ _ Hp) as [Hh _]. destruct (Hheap 0 p Hh) as [Hn _]. rewrite Ea, Eo.
      change (NULL =? NULL) with true. rewrite (proj2 (Z.eqb_neq _ _)) by done. cbn [negb when].
      wp_step. eapply wp_on_hash; [exact Hrep|]. intros t1 _ Ht1. eapply wp_mono; [eapply wt_remove_spec; [exact Ht1|by left]|]. cbv beta. intros _ t' [_ Ht].
      eapply wp_on_entry; [done|]. exists (delete p mk). apply (updated_step k mk _ s' t' e); try done; [lia|].
      apply rehash_gone; [done|intros q; by apply Hnf|done].
    + destruct (names_index _ _ Hp) as [Hh _]. pose proof (Hevac _ Hh) as Hh'. destruct (Hheap 0 _ Hh') as [Hn _]. rewrite Ea, Eo.
      rewrite (proj2 (Z.eqb_neq _ _)) by done.
      assert (final (evac p) k) as Hf by (exists e; split_and!; [done|lia|done..]).
      assert ((evac p <? stable_ptr_table s') || (entry_ptr s' (SPT_size s') <=? evac p) = true) as ->.
      { pose proof (outside_heap s m fl _ Hok Hh') as Hout. unfold outside, entry_ptr in *. by rewrite E1, E2, B1, B2. }
      cbn [when].
      assert (∀ mk', (∀ q i, mk' !! q = Some i ↔ (q ≠ p ∧ mk !! q = Some i) ∨ (q = evac p ∧ i = Z.of_nat k)) →
        ∀ t', wt_rep t' mk' → ∃ mk', updated (Datatypes.S k) mk' (set_hash t' s')) as Hdone.
      { intros mk' Hmk' t' Ht. exists mk'. pose proof (rehash_moved k mk mk' p Hr Hp Hf Hmk') as Hr'.
        pose proof (updated_step k mk mk' s' t' e e Hup ltac:(lia) He eq_refl eq_refl eq_refl) as Hst.
        rewrite list_insert_id in Hst by done. replace (set_hash t' s') with (set_entries (entries s') (set_hash t' s')) by by destruct s'.
        apply Hst; [|done|done]. intros E. by rewrite Ea in E. }
      destruct full eqn:Efull.
      * assert (mk !! evac p = None) as Hnone.
        { destruct (mk !! evac p) as [i|] eqn:E; [|done]. destruct (new_name _ _ _ _ Hr Hp Hf E) as [Efalse _]. congruence. }
        eapply wp_on_hash; [exact Hrep|]. intros t1 _ Ht1. eapply wp_mono; [eapply wt_insert_spec; [exact Ht1|exact Hnone]|]. cbv beta. intros _ t' Ht.
        eapply Hdone; [|exact Ht]. intros q i. rewrite lookup_insert_Some. split.
        -- intros [[<- <-]|[Hne Hq]]; [by right|]. destruct (decide (q = p)) as [->|Hqp]; [|by left].
           pose proof (old_name _ _ _ _ Hr Hp Hq) as ->. apply Hr in Hq as (j & Ej & [[Hj _]|(Efalse & _)]); [lia|congruence].
        -- intros [[Hne Hq]|[-> ->]]; [|by left]. right. split; [|done]. intros <-. exact (eq_None_ne_Some_1 _ _ Hnone Hq).
      * wp_step; rename select (negb _ = _) into Hne; [apply negb_true_iff, Z.eqb_neq in Hne|apply negb_false_iff, Z.eqb_eq in Hne].
        -- wp_step. eapply wp_on_hash; [exact Hrep|]. intros t3 _ Ht3. eapply wp_mono; [eapply wt_remove_spec; [exact Ht3|by left]|]. cbv beta. intros _ t1 [_ Ht1].
           assert (delete p mk !! evac p = None) as Hnone.
           { apply lookup_delete_None. right. destruct (mk !! evac p) as [i|] eqn:E; [|done].
             destruct (new_name _ _ _ _ Hr Hp Hf E) as (_ & _ & E'). done. }
           eapply wp_on_hash; [by exists t1|]. intros t2 [= <-] _. eapply wp_mono; [eapply wt_insert_spec; [exact Ht1|exact Hnone]|]. cbv beta. intros _ t' Ht.
           change (set_hash t' (set_hash t1 s')) with (set_hash t' s'). eapply Hdone; [|exact Ht].
           intros q i. rewrite lookup_insert_Some, lookup_delete_Some. split.
           ++ intros [[<- <-]|(_ & Hqp & Hq)]; [by right|left; by split; [apply not_eq_sym|]].
           ++ intros [[Hqp Hq]|[-> ->]]; [|by left]. right. split; [|split; [by apply not_eq_sym|done]].
              intros <-. apply (eq_None_ne_Some_1 _ i Hnone). by rewrite lookup_delete_ne by done.
        -- assert (set_hash t0 s' = s') as Es by (destruct s'; cbn in Et0; by rewrite Et0).
           enough (∃ mk', updated (Datatypes.S k) mk' (set_hash t0 s')) as Hd by by rewrite Es in Hd.
           eapply Hdone; [|exact Ht0]. intros q i. rewrite Hne. split.
           ++ intros Hq. destruct (decide (q = p)) as [->|Hqp]; [right; split; [done|by eapply old_name]|by left].
           ++ intros [[_ Hq]|[-> ->]]; [done|]. apply Hr. exists k. split; [done|]. right. split_and!; [done|lia|].
              by apply (co_map _ _ _ _ Hc).
Qed.

Lemma rehashed_1 : rehashed 1 (if full then ∅ else m2).
Proof using Hok Hc.
  intros q i. split.
  - destruct full; [by rewrite lookup_empty|]. intros Hq. pose proof (co_dom _ _ _ _ Hc _ _ Hq) as Hm.
    destruct (names_index _ _ Hm) as [_ (j & -> & Hj)]. exists j. split; [done|]. right. split_and!; [done|lia|done].
  - intros (j & -> & [[Hj (e & _ & H1 & _)]|(-> & _ & Hq)]); [lia|done].
Qed.

Lemma update_spec : wp (updateStablePtrTable full) (λ _ s', ∃ mk, updated n mk s') s2.
Proof using Hok Hheap Hevac Hc HisAlive Hdisj Hstale Hinj.
  pose proof (ok_len _ _ _ _ _ Hok) as [Hl Hsz]. unfold INIT_SPT_SIZE in Hsz. destruct (co_base _ _ _ _ Hc) as (B1 & B2 & B3).
  unfold updateStablePtrTable. do 3 wp_step.
  apply (wp_mono _ (λ _ s', updated 1 (if full then ∅ else m2) s')).
  { pose proof rehashed_1 as Hr1. assert (∀ i e, entries s2 !! i = Some e → ∃ e', entries s2 !! i = Some e' ∧ addr e' = addr e ∧ ref e' = ref e ∧
      sn_obj e' = sn_obj e ∧ ((1 <= i)%nat → e' = e) ∧ ((1 <= i < 1)%nat → addr e = NULL → old e' = NULL)) as Hent.
    { intros i e He. exists e. split_and!; try done. lia. }
    destruct (co_rep _ _ _ _ Hc) as (t0 & Et0 & Ht0). rewrite Et0, bool_decide_eq_true_2, andb_true_r by done.
    destruct full; cbn [when]; [apply wp_modify|apply wp_ret]; (constructor; [done|exact Hent| |done]);
      [exists wt_alloc; split; [done|apply wt_alloc_rep]|by exists t0]. }
  intros _ s' Hup. apply (wp_for_entries (λ k s', ∃ mk, updated k mk s') _ _ _ n).
  - destruct (up_fields _ _ _ Hup) as (_ & E2 & _). by rewrite E2, B2, Hl.
  - lia.
  - eauto.
  - intros k s'' Hk (mk & Hup'). destruct (lookup_lt_is_Some_2 (entries s2) k) as [e He]; [lia|]. by eapply update_body.
  - done.
Qed.

(** Where the object of a slot is afterwards, if it keeps its name. *)
Definition survivor (e : snEntry) (p : ptr) : option ptr :=
  if ref e =? 0 then
    if sn_alive e =? NULL then None else if isAlive p =? NULL then None else Some (isAlive p)
  else Some (evac p).

Lemma slot_after p e i :
  m !! p = Some (Z.of_nat i) → entries s !! i = Some e →
    (1 <= i < n)%nat ∧ heap_ptr p ∧ ∃ e1, entries s1 !! i = Some e1 ∧ (i ∉ fl) ∧ addr e = p ∧
      (i ∈ fl2 ↔ dead_entry s e1 = true) ∧ (dead_entry s e1 = true ↔ ref e = 0 ∧ sn_alive e = NULL) ∧
      addr (gc_entry s e1) = if ref e =? 0 then isAlive p else evac p.
Proof using Hok Hheap Hevac Hc HisAlive.
  intros Hm He. destruct (ok_names _ _ _ _ _ Hok _ _ Hm) as (Hh & k & e' & Ek & H1 & Hfl & He' & Ha). apply Nat2Z.inj in Ek. subst k.
    assert (e' = e) as -> by congruence. pose proof (lookup_lt_Some _ _ _ He) as Hlt.
    destruct (lookup_lt_is_Some_2 (entries s1) i) as [e1 He1]; [cbn; by rewrite length_imap|].
    split; [lia|]. split; [done|]. exists e1. split; [done|]. split; [done|]. split; [done|].
    destruct (marked_used i e1 He1 H1 Hfl) as (e'' & He'' & Er & Es & _ & Hcase). assert (e'' = e) as -> by congruence.
    destruct (Hheap 0 p Hh) as [Hn _].
    destruct Hcase as [(Hn' & _)|(_ & _ & _ & Ea1)]; [congruence|].
    assert (is_object s (addr e1) = true) as Ho by (rewrite Ea1, Ha; destruct (ref e =? 0); apply (object_heap s m fl); auto).
    assert (sn_alive e1 = sn_alive e) as Esn by (unfold sn_alive; by rewrite Es).
    split; [|split].
    - rewrite (co_free _ _ _ _ Hc). split; [intros [?|(_ & e0 & He0 & Hd)]; [done|congruence]|]. intros Hd. right. split; [lia|eauto].
    - unfold dead_entry. rewrite Ho, Er, Esn, andb_true_l, andb_true_iff, !Z.eqb_eq. done.
    - unfold gc_entry. cbn. rewrite Ho, Er, Ea1, Ha. by destruct (ref e =? 0).
Qed.

(** The slots that are free afterwards *)
Lemma freed_slots i :
  i ∈ fl2 ↔ i ∈ fl ∨ ∃ p e, m !! p = Some (Z.of_nat i) ∧ entries s !! i = Some e ∧ ref e = 0 ∧ sn_alive e = NULL.
Proof using Hok Hheap Hevac Hc HisAlive.
  split.
  - intros Hin. destruct (decide (i ∈ fl)) as [?|Hfl]; [by left|right].
    pose proof Hin as [?|([H1 _] & e1 & He1 & Hd)]%(co_free _ _ _ _ Hc); [done|].
    destruct (marked_used i e1 He1 H1 Hfl) as (e & He & _ & _ & _ & [(Ea & -> & _)|(Hm & _)]).
    + unfold dead_entry, is_object in Hd. by rewrite Ea in Hd.
    + exists (addr e), e. split; [done|]. split; [done|].
      destruct (slot_after _ _ _ Hm He) as (_ & _ & e1' & He1' & _ & _ & _ & Hd2 & _).
      assert (e1' = e1) as -> by congruence. by apply Hd2.
  - intros [?|(p & e & Hm & He & Hr & Hs)]; [apply (co_free _ _ _ _ Hc); by left|].
    destruct (slot_after _ _ _ Hm He) as (_ & _ & e1 & _ & _ & _ & Hd1 & Hd2 & _). by apply Hd1, Hd2.
Qed.

Lemma final_survivor q i : final q i ↔ ∃ p e, m !! p = Some (Z.of_nat i) ∧ entries s !! i = Some e ∧ survivor e p = Some q.
Proof using Hok Hheap Hevac Hc HisAlive.
  unfold survivor. split.
  - intros Hf. destruct (final_from _ _ Hf) as (p & Hm & _). destruct Hf as (e2 & He2 & H1 & Hfl2 & Ea & Hn).
    destruct (names_index _ _ Hm) as [_ (j & Ej & Hj)]. apply Nat2Z.inj in Ej. subst j.
    destruct (lookup_lt_is_Some_2 (entries s) i) as [e He]; [lia|]. destruct (slot_after p e i Hm He) as (_ & _ & e1 & He1 & _ & _ & Hd1 & Hd2 & Eg).
    rewrite (co_done _ _ _ _ Hc i e1 He1) in He2 by (done || lia). injection He2 as <-. rewrite Eg in Ea.
    exists p, e. split_and!; [done|done|]. destruct (ref e =? 0) eqn:Er; [|by rewrite Ea].
    apply Z.eqb_eq in Er. rewrite (proj2 (Z.eqb_neq (sn_alive e) NULL)) by (intros ?; by apply Hfl2, Hd1, Hd2).
    rewrite Ea. by rewrite (proj2 (Z.eqb_neq q NULL)).
  - intros (p & e & Hm & He & Hs). destruct (slot_after p e i Hm He) as (Hi & Hh & e1 & He1 & _ & _ & Hd1 & Hd2 & Eg).
    assert (addr (gc_entry s e1) = q ∧ q ≠ NULL ∧ dead_entry s e1 = false) as (Eq & Hq & Hd).
    { rewrite Eg. destruct (ref e =? 0) eqn:Er.
      - destruct (sn_alive e =? NULL) eqn:Esn; [done|]. destruct (isAlive p =? NULL) eqn:Ei; [done|]. injection Hs as <-.
        apply Z.eqb_neq in Esn, Ei. split_and!; [done|done|]. apply not_true_iff_false. intros Ht. by apply Hd2 in Ht as [_ ?].
      - injection Hs as <-. apply Z.eqb_neq in Er. split_and!; [done|by apply (Hheap 0), Hevac|]. apply not_true_iff_false. intros Ht.
        by apply Hd2 in Ht as [? _]. }
    assert (i ∉ fl2) as Hfl2 by (intros Hin; apply Hd1 in Hin; congruence).
    exists (gc_entry s e1). split_and!; try done; [|lia]. apply (co_done _ _ _ _ Hc); [done|lia|done].
Qed.

Lemma free_chain_same es es' base p l :
  (∀ i e, es !! i = Some e → ∃ e', es' !! i = Some e' ∧ addr e' = addr e ∧ ref e' = ref e ∧ sn_obj e' = sn_obj e) →
  free_chain es base p l → free_chain es' base p l.
Proof using.
  intros Hsame. revert p. induction l as [|i l IH]; intros p; [done|]. intros (Hp & H1 & e & He & Hr & Hs & Hch).
  destruct (Hsame i e He) as (e' & He' & Ea & Er & Es). split_and!; [done|done|]. exists e'. rewrite Ea, Er, Es. eauto.
Qed.

Lemma updated_ok mk s3 :
  updated n mk s3 → stable_ok s3 mk fl2 ∧ (∀ q i, mk !! q = Some i ↔ ∃ j, i = Z.of_nat j ∧ final q j).
Proof using Hok Hheap Hevac Hc HisAlive.
  intros [(E1 & E2 & E3 & E4) Hent Hrep Hr]. destruct (co_base _ _ _ _ Hc) as (B1 & B2 & B3).
  assert (∀ q i, mk !! q = Some i ↔ ∃ j, i = Z.of_nat j ∧ final q j) as Hmap.
  { intros q i. rewrite (Hr q i). split; intros (j & -> & Hj); exists j; (split; [done|]).
    - destruct Hj as [[_ Hf]|(_ & Hj & Hm%(co_dom _ _ _ _ Hc))]; [done|]. destruct (names_index _ _ Hm) as [_ (k & Ek & Hk)]. lia.
    - left. split; [|done]. destruct Hj as (e & He & _). rewrite <- B3. by eapply lookup_lt_Some. }
  split; [|done]. constructor.
  - by rewrite E1, E2, B1, B2, (ok_base _ _ _ _ _ Hok).
  - rewrite E4, E2, B2, B3. apply (ok_len _ _ _ _ _ Hok).
  - rewrite E1, E3, B1. eapply free_chain_same; [|apply (co_chain _ _ _ _ Hc)].
    intros i e He. destruct (Hent i e He) as (e' & He' & ? & ? & ? & _). by exists e'.
  - apply (co_nodup _ _ _ _ Hc).
  - intros i e3 He3 H1 Hfl2. destruct (lookup_lt_is_Some_2 (entries s2) i) as [e2 He2]; [rewrite <- E4; by eapply lookup_lt_Some|].
    pose proof (lookup_lt_Some _ _ _ He2). destruct (Hent i e2 He2) as (e3' & He3' & Ea & Er & _ & _ & Eo). assert (e3' = e3) as -> by congruence.
    destruct (final_used i e2 He2 H1 Hfl2) as [Hr2 Hcase]. rewrite Er. split; [done|]. rewrite Ea.
    destruct Hcase as [(Ea2 & Er2 & _)|[(p & Ea2 & Er2 & _)|(p & Ea2 & _ & Hp)]].
    1,2: left; split_and!; [done|done|apply Eo; [lia|done]].
    right. apply Hmap. exists i. split; [done|]. exists e2. split_and!; try done.
    destruct (names_index _ _ Hp) as [Hh _]. rewrite Ea2. by apply (Hheap 0), Hevac.
  - intros q i (j & -> & Hf)%Hmap. destruct (final_from _ _ Hf) as (p & Hp & ->). destruct (names_index _ _ Hp) as [Hh _].
    split; [by apply Hevac|]. destruct Hf as (e2 & He2 & H1 & Hfl2 & Ea & _). destruct (Hent j e2 He2) as (e3 & He3 & Ea3 & _).
    exists j, e3. split_and!; try done. congruence.
  - done.
Qed.

(** A stable pointer still leads to its object. *)
Lemma updated_pointer mk s3 i e :
  updated n mk s3 → entries s !! i = Some e → (1 <= i)%nat → (i ∉ fl) → ref e ≠ 0 →
  ∃ e', entries s3 !! i = Some e' ∧ ref e' = ref e ∧ addr e' = evac (addr e).
Proof using Hok Hheap Hevac Hc.
  intros [_ Hent _ _] He H1 Hfl Hr. pose proof (lookup_lt_Some _ _ _ He).
  destruct (lookup_lt_is_Some_2 (entries s1) i) as [e1 He1]; [cbn; by rewrite length_imap|].
  destruct (marked_used i e1 He1 H1 Hfl) as (e0 & He0 & Er & _ & _ & Hcase). assert (e0 = e) as -> by congruence.
  destruct Hcase as [(_ & _ & ? & _)|(Hm & Hh & _ & Ea)]; [done|]. rewrite (proj2 (Z.eqb_neq _ _)) in Ea by done.
  assert (i ∉ fl2) as Hfl2.
  { intros [?|(_ & e1' & He1' & Hd)]%(co_free _ _ _ _ Hc); [done|]. assert (e1' = e1) as -> by congruence.
    unfold dead_entry in Hd. rewrite Er, (proj2 (Z.eqb_neq (ref e) 0)), andb_false_r in Hd by done. done. }
  destruct (Hent i (gc_entry s e1)) as (e3 & He3 & Ea3 & Er3 & _); [apply (co_done _ _ _ _ Hc); [done|lia|done]|].
  exists e3. split_and!; [done|by rewrite Er3|]. rewrite Ea3. unfold gc_entry. cbn. by rewrite Er, (proj2 (Z.eqb_neq (ref e) 0)), andb_false_r.
Qed.
End passes.
End gc.
