(* ===== verification/StableMain.v ===== *)
(** * Properties of stable names and stable pointers *)
From stdpp Require Import list gmap.
From S2P Require Import Prelude DList Hash ClosureFlags Stable StableInv StableGC.
Local Open Scope Z_scope.

Section properties.
Context {T : Type} `{HT : WordTable T}.
Notation stable := (@stable T).
Implicit Types s : stable.
Context (malloc_at : Z → ptr) (junk : snEntry) (heap_ptr : ptr → Prop).
Context (Hmalloc : ∀ n, 0 < malloc_at n).
Context (Hheap : ∀ n p, heap_ptr p → p ≠ NULL ∧ (p < malloc_at n ∨ malloc_at n + sizeof_snEntry * n <= p)).
Context (h : closures) (indirectee : ptr → ptr).

(** The first call sets up the table. *)
Lemma init_ok s :
  SPT_size s = 0 →
  wp (initStablePtrTable malloc_at junk) (λ _ s', stable_ok malloc_at heap_ptr s' ∅ (seq 1 63) ∧ (∀ i e, (1 <= i)%nat → entries s' !! i = Some e → old e = NULL)) s.
Proof using Hmalloc.
  intros Hs. unfold initStablePtrTable. do 2 wp_step. rewrite Hs. cbn [Z.ltb Z.compare]. do 3 wp_step.
  set (s1 := mkStable _ _ _ _ _). change 1 with (Z.of_nat 1). change (INIT_SPT_SIZE - Z.of_nat 1) with (Z.of_nat 63).
  apply wp_initFreeList; [lia|lia|cbn; rewrite length_replicate; by vm_compute|]. intros es Hl Hout Hold Hc. apply wp_modify.
  cbn [length s1 entries replicate] in Hl. rewrite length_replicate in Hl. change (Z.to_nat INIT_SPT_SIZE) with 64%nat in Hl.
  split.
  - constructor; cbn [set_hash set_free set_entries s1 entries stable_ptr_table stable_ptr_free SPT_size addrToStableHash]; try done.
    + rewrite Hl. done.
    + apply NoDup_seq.
    + intros i e He H1 Hi. rewrite elem_of_seq in Hi. apply lookup_lt_Some in He. lia.
    + exists wt_alloc. split; [done|apply wt_alloc_rep].
  - intros i e H1 He. cbn in He. apply (Hold i); [|done]. apply lookup_lt_Some in He. lia.
Qed.

(** Looking up the stable name of an object returns a non-zero name: the
    one the object already has, or one that no other object has; every other
    object keeps its name, and the table grows when it is full. *)
Theorem lookupStableName_spec fuel p q s m fl :
  stable_ok malloc_at heap_ptr s m fl → resolves h indirectee fuel p q → heap_ptr q → (fl = [] → SPT_size s < 2 ^ 31) →
  ∃ sn s' fl', lookupStableName malloc_at junk h indirectee fuel p s = Ok (sn, s') ∧ sn ≠ 0 ∧
    stable_ok malloc_at heap_ptr s' (<[q := sn]> m) fl' ∧ keeps fl s s' ∧
    (m !! q = Some sn ∨ (m !! q = None ∧ ∀ p', m !! p' ≠ Some sn)).
Proof using Hmalloc Hheap.
  intros Hok Hres Hq Hsz.
  assert (wp (lookupStableName malloc_at junk h indirectee fuel p) (named malloc_at heap_ptr s m fl q) s) as Hwp.
  { unfold lookupStableName. wp_step. eapply wp_init; [done|]. by eapply lookupStableName_ok. }
  apply wp_run in Hwp as (sn & s' & E & i & fl' & -> & Hi & Hok' & Hk & Hcase).
  exists (Z.of_nat i), s', fl'. split_and!; [done|lia|done|done|]. destruct Hcase as [[? _]|(? & ? & _)]; auto.
Qed.

(** A stable pointer leads back to the object it was made for, and freeing
    it leaves the names, the counts and the entries as they were, whether or
    not the object had a name before. *)
Theorem stable_ptr_roundtrip fuel p q s m fl :
  stable_ok malloc_at heap_ptr s m fl → resolves h indirectee fuel p q → heap_ptr q → (fl = [] → SPT_size s < 2 ^ 31) →
  (∀ i e, entries s !! i = Some e → ref e < 2 ^ 64 - 1) →
  (∀ i e, m !! q = Some (Z.of_nat i) → entries s !! i = Some e → ref e ≠ 0 ∨ sn_obj e ≠ NULL) →
  ∃ sp s1 s2, getStablePtr malloc_at junk h indirectee fuel p s = Ok (sp, s1) ∧ deRefStablePtr sp s1 = Ok (q, s1) ∧
    freeStablePtr malloc_at junk sp s1 = Ok (tt, s2) ∧ ∃ fl2, stable_ok malloc_at heap_ptr s2 m fl2 ∧ keeps fl s s2.
Proof using Hmalloc Hheap.
  intros Hok Hres Hq Hsz Href Hset.
  pose proof (getStablePtr_ok malloc_at junk heap_ptr Hmalloc Hheap h indirectee fuel p q s m fl Hok Hres Hq Hsz Href) as Hwp.
  apply wp_run in Hwp as (sp & s1 & E1 & i & fl1 & e & -> & Hi & Hfl1 & Hok1 & He & Ha & Hr & Hcase & Hkeep).
  assert (<[q := Z.of_nat i]> m !! addr e = Some (Z.of_nat i)) as Hm1 by (rewrite Ha; apply lookup_insert_eq).
  pose proof (freeStablePtr_ok malloc_at junk heap_ptr Hheap s1 _ fl1 i e Hok1 He Hi Hfl1 Hm1 Hr) as Hwp.
  apply wp_run in Hwp as ([] & s2 & E2 & Hfree).
  exists (Z.of_nat i), s1, s2. split; [done|]. split.
  { assert (wp (deRefStablePtr (Z.of_nat i)) (λ r s', r = q ∧ s' = s1) s1) as Hwp.
    { unfold deRefStablePtr. wp_step. eapply wp_stable_entry; [done|]. wp_step. apply wp_assert; [by apply Z.ltb_lt|]. by wp_step. }
    apply wp_run in Hwp as (r & s' & E & -> & ->). done. }
  split; [done|]. destruct Hcase as [(Hm & Hfl & Hold)|(Hm & Er & Es & Hnew)].
  - destruct ((sn_obj e =? NULL) && (ref e =? 1)) eqn:Eb.
    { apply andb_true_iff in Eb as [Eb1%Z.eqb_eq Eb2%Z.eqb_eq].
      destruct (Hset i _ Hm Hold) as [Hx|Hx]; cbn in Hx; [lia|done]. }
    destruct Hfree as [Hok2 Ee2]. rewrite insert_id in Hok2 by done. exists fl1. split; [done|].
    intros j ej Hj H1 Hjfl. rewrite Ee2. destruct (decide (j = i)) as [->|Hne].
    + rewrite list_lookup_insert_eq by (by eapply lookup_lt_Some). congruence.
    + rewrite list_lookup_insert_ne by done. by apply Hkeep.
  - rewrite Er, Es in Hfree. cbn in Hfree. destruct Hfree as [Hok2 Hsame]. rewrite Ha, delete_insert_id in Hok2 by done.
    exists (i :: fl1). split; [done|]. intros j ej Hj H1 Hjfl. assert (j ≠ i) as Hne.
    { intros ->. destruct Hnew as [?|?]; [done|]. apply lookup_lt_Some in Hj. lia. }
    rewrite Hsame by done. by apply Hkeep.
Qed.

(** A garbage collection: [evac] moves what is reachable, [isAlive] tells where
    an object is afterwards. *)
Definition collect (evac isAlive : ptr → ptr) (full : bool) : prog stable unit :=
  markStablePtrTable evac;; gcStablePtrTable isAlive;; updateStablePtrTable full.

(** What a copying collection may do to the objects that have names: it moves
    them to different places ([mv_inj]), which are not those of other named
    objects ([mv_apart]).  [mv_stale]: the last slot of the free list, the one
    whose [addr] is NULL, has no old address that is a named object's; the theorem
    [stable_name_forgotten] shows what happens if it has. *)
Record moves (evac isAlive : ptr → ptr) s (m : gmap Z Z) (fl : list nat) : Prop := {
  mv_heap p : heap_ptr p → heap_ptr (evac p);
  mv_alive p : heap_ptr p → isAlive p = NULL ∨ isAlive p = evac p;
  mv_inj p p' i j : m !! p = Some i → m !! p' = Some j → evac p = evac p' → p = p';
  mv_apart p p' i j : m !! p = Some i → m !! p' = Some j → evac p = p' → p = p';
  mv_stale i e : i ∈ fl → entries s !! i = Some e → addr e = NULL → old e ≠ NULL →
    m !! old e = None ∧ ∀ p j, m !! p = Some j → evac p ≠ old e
}.

Lemma collect_ok evac isAlive full s m fl :
  stable_ok malloc_at heap_ptr s m fl → moves evac isAlive s m fl →
  wp (collect evac isAlive full) (λ _ s3, ∃ fl2 m2 s2 mk, collected evac isAlive s m fl (length (entries s)) fl2 m2 s2 ∧
    updated s2 fl2 m2 full (length (entries s)) mk s3) s.
Proof using Hheap.
  intros Hok [Hev Hal Hinj Hap Hst]. unfold collect. wp_step. eapply wp_mono; [by eapply mark_spec|]. cbv beta. intros _ ? ->.
  wp_step. eapply wp_mono; [eapply gc_spec; eauto|]. cbv beta. intros _ s2 (fl2 & m2 & Hc).
  eapply wp_mono; [eapply update_spec; eauto|]. cbv beta. intros _ s3 (mk & Hup). eauto 10.
Qed.


(** The slot of a name whose object has died is never used again, although
    the name is dead: no collection puts it on the free list, whether or not its
    StableName object is still alive. *)
Theorem gone_slot_never_freed evac isAlive full s m fl i e :
  stable_ok malloc_at heap_ptr s m fl → moves evac isAlive s m fl →
  entries s !! i = Some e → (1 <= i)%nat → (i ∉ fl) → addr e = NULL →
  ∃ s' m' fl' e', collect evac isAlive full s = Ok (tt, s') ∧ stable_ok malloc_at heap_ptr s' m' fl' ∧ (i ∉ fl') ∧
    entries s' !! i = Some e' ∧ addr e' = NULL ∧ ref e' = 0 ∧ sn_obj e' = sn_alive isAlive e.
Proof using Hheap.
  intros Hok Hmv He H1 Hfl Ha. pose proof Hmv as [Hev Hal _ _ _].
  destruct (proj1 (wp_run _ _ _) (collect_ok evac isAlive full s m fl Hok Hmv)) as ([] & s3 & E & fl2 & m2 & s2 & mk & Hc & Hup).
  destruct (updated_ok malloc_at heap_ptr Hheap evac isAlive s m fl Hok Hev Hal s2 fl2 m2 Hc full mk s3 Hup) as [Hok3 _].
  assert (is_object s (addr e) = false) as Ho by (by rewrite Ha).
  assert (entries (marked evac s (length (entries s))) !! i = Some e) as He1.
  { rewrite marked_lookup, He. cbn. unfold mark_upto, mark_entry. rewrite Ho. by case_bool_decide. }
  assert (i ∉ fl2) as Hfl2.
  { intros [?|(_ & e1 & He1' & Hd)]%(co_free _ _ _ _ _ _ _ _ _ Hc); [done|]. assert (e1 = e) as -> by congruence.
    unfold dead_entry in Hd. by rewrite Ho in Hd. }
  pose proof (co_done _ _ _ _ _ _ _ _ _ Hc i e He1) as He2. apply lookup_lt_Some in He as Hlt.
  destruct (up_entries _ _ _ _ _ _ _ Hup i (gc_entry isAlive s e)) as (e3 & He3 & Ea3 & Er3 & Es3 & _); [apply He2; [lia|done]|].
  destruct (ok_used _ _ _ _ _ Hok i e He H1 Hfl) as [_ [(_ & Hr & _)|Hm]].
  - exists s3, mk, fl2, e3. cbn in Er3, Es3. split_and!; try done; [|congruence]. rewrite Ea3. unfold gc_entry. cbn. by rewrite Ho.
  - destruct (ok_names _ _ _ _ _ Hok _ _ Hm) as [Hh _]. rewrite Ha in Hh. by destruct (Hheap 0 _ Hh).
Qed.
End properties.

(** ** Runs *)

(** A heap of thunks between 4096 and 2^20, tables at 2^30. *)
Definition demo_heap (p : ptr) : Prop := 4096 <= p < 2 ^ 20.
Definition demo_malloc (n : Z) : ptr := 2 ^ 30.
Definition demo_junk : snEntry := mkEntry 1 1 1 1.
Definition demo_thunks : closures := mkClosures (λ _, 2048) (λ _, THUNK).
Definition demo_move (p : ptr) : ptr := if p =? 4096 then 8192 else p.
Definition empty_table : @stable HashTable := mkStable [] NULL NULL 0 None.

Lemma demo_malloc_pos n : 0 < demo_malloc n.
Proof. done. Qed.
Lemma demo_heap_outside n p : demo_heap p → p ≠ NULL ∧ (p < demo_malloc n ∨ demo_malloc n + sizeof_snEntry * n <= p).
Proof. unfold demo_heap, demo_malloc, END. intros [H1 H2]. split; [lia|left]. etrans; [exact H2|done]. Qed.

(** A fresh table, and the table with one stable pointer, to 4096. *)
Definition demo_init : @stable HashTable :=
  match initStablePtrTable demo_malloc demo_junk empty_table with Ok (_, s) => s | Err _ => empty_table end.

Lemma demo_init_ok : stable_ok demo_malloc demo_heap demo_init ∅ (seq 1 63).
Proof.
  pose proof (init_ok demo_malloc demo_junk demo_heap demo_malloc_pos empty_table eq_refl) as Hwp.
  destruct (proj1 (wp_run _ _ _) Hwp) as ([] & s & E & Hok & _). unfold demo_init. rewrite E. exact Hok.
Qed.

Lemma demo_resolves : resolves demo_thunks (λ p, p) 0 4096 4096.
Proof. by exists 4096. Qed.

Lemma demo_init_refs i e : entries demo_init !! i = Some e → ref e < 2 ^ 64 - 1.
Proof.
  assert (Forall (λ e, ref e < 2 ^ 64 - 1) (entries demo_init)) as Hall by (apply (bool_decide_unpack _); vm_compute; exact I).
  intros He. by eapply Forall_lookup_1 in Hall.
Qed.




Lemma lookupStableName_spec_witness :
  ∃ sn s', lookupStableName demo_malloc demo_junk demo_thunks (λ p, p) 0 4096 demo_init = Ok (sn, s') ∧ sn ≠ 0.
Proof.
  destruct (lookupStableName_spec demo_malloc demo_junk demo_heap demo_malloc_pos demo_heap_outside demo_thunks (λ p, p) 0 4096 4096 demo_init ∅ (seq 1 63))
    as (sn & s' & fl' & E & Hn & _); [exact demo_init_ok|exact demo_resolves|unfold demo_heap; lia|discriminate|].
  exists sn, s'. split; [exact E|exact Hn].
Defined.

Lemma stable_ptr_roundtrip_witness :
  ∃ sp s1, getStablePtr demo_malloc demo_junk demo_thunks (λ p, p) 0 4096 demo_init = Ok (sp, s1) ∧ deRefStablePtr sp s1 = Ok (4096, s1).
Proof.
  destruct (stable_ptr_roundtrip demo_malloc demo_junk demo_heap demo_malloc_pos demo_heap_outside demo_thunks (λ p, p) 0 4096 4096 demo_init ∅ (seq 1 63))
    as (sp & s1 & s2 & E1 & E2 & _); [exact demo_init_ok|exact demo_resolves|unfold demo_heap; lia|discriminate|exact demo_init_refs|intros i e He; rewrite lookup_empty in He; discriminate He|].
  exists sp, s1. split; [exact E1|exact E2].
Defined.


(** A table whose first name has lost its object. *)
Lemma gone_ok s e fl :
  stable_ok (T := HashTable) demo_malloc demo_heap s ∅ (1%nat :: fl) → entries s !! 1%nat = Some e →
  stable_ok demo_malloc demo_heap (mkStable (<[1%nat := mkEntry NULL NULL 0 5000]> (entries s)) (stable_ptr_table s) (addr e) (SPT_size s) (addrToStableHash s)) ∅ fl.
Proof.
  intros Hok He. destruct (ok_chain _ _ _ _ _ Hok) as (_ & _ & e' & He' & _ & _ & Hc). assert (e' = e) as -> by congruence.
  pose proof (ok_free _ _ _ _ _ Hok) as Hnd. apply NoDup_cons in Hnd as [H1 Hnd].
  constructor; cbn [entries stable_ptr_table stable_ptr_free SPT_size addrToStableHash]; [apply (ok_base _ _ _ _ _ Hok)| | |done| | |apply (ok_rep _ _ _ _ _ Hok)].
  - rewrite length_insert. apply (ok_len _ _ _ _ _ Hok).
  - by apply free_chain_insert.
  - intros i ei. rewrite list_lookup_insert_Some. intros [(<- & <- & _)|[Hne Hi]] Hi1 Hfl.
    + cbn. split; [lia|]. left. repeat split.
    + apply (ok_used _ _ _ _ _ Hok i ei Hi Hi1). rewrite not_elem_of_cons. split; [done|done].
  - intros p i. rewrite lookup_empty. discriminate.
Qed.

Lemma gone_slot_never_freed_witness :
  ∃ s s' m' fl', collect demo_move (λ _, NULL) true s = Ok (tt, s') ∧ stable_ok (T := HashTable) demo_malloc demo_heap s' m' fl' ∧ (1%nat ∉ fl').
Proof.
  destruct (proj1 (wp_run _ _ _) (init_ok demo_malloc demo_junk demo_heap demo_malloc_pos empty_table eq_refl)) as ([] & s & _ & Hok & Hold).
  destruct (ok_chain _ _ _ _ _ Hok) as (_ & _ & e & He & _).
  pose proof (gone_ok s e (seq 2 62) Hok He) as Hgone.
  destruct (gone_slot_never_freed demo_malloc demo_heap demo_heap_outside demo_move (λ _, NULL) true _ ∅ (seq 2 62) 1 (mkEntry NULL NULL 0 5000) Hgone)
    as (s' & m' & fl' & e' & E & Hok' & Hfl & _).
  - constructor.
    + intros p. unfold demo_heap, demo_move. destruct (p =? 4096) eqn:E; lia.
    + left. reflexivity.
    + intros p p' i j. rewrite lookup_empty. discriminate.
    + intros p p' i j. rewrite lookup_empty. discriminate.
    + intros i ei Hi Hei _ Ho. exfalso. apply Ho. rewrite elem_of_seq in Hi. cbn in Hei. rewrite list_lookup_insert_ne in Hei by lia.
      apply (Hold i ei); [lia|exact Hei].
  - cbn. apply list_lookup_insert_eq. apply lookup_lt_Some in He. exact He.
  - lia.
  - rewrite elem_of_seq. lia.
  - reflexivity.
  - eexists _, s', m', fl'. split; [exact E|]. split; [exact Hok'|exact Hfl].
Defined.

(** [n] objects, 64 bytes apart, from 8192 on. *)
Definition demo_object (k : Z) : ptr := 8192 + 64 * k.

(** An object can lose its stable name while a stable pointer to it is
    held.  The table is full; a collection moves the object of the last slot;
    its stable pointer and that of the slot before are freed; a new object, put
    where the moved one was, takes the slot before.  The last slot is now the
    end of the free list, so that its [addr] is NULL, and [freeStableName] has
    left the address before the collection in [old]: the next collection takes
    the slot for a name whose object has died and removes the new object from
    the hash table.  Looking its name up gives another one. *)
Theorem stable_name_forgotten :
  let get k := getStablePtr demo_malloc demo_junk demo_thunks (λ p, p) 0 k in
  let moved p := if p =? demo_object 63 then 2 ^ 19 else p in
  run (for_each (seqZ 1 63) (λ k, _ ← get (demo_object k); mret tt);;
       collect moved moved false;;
       freeStablePtr demo_malloc demo_junk 63;;
       freeStablePtr demo_malloc demo_junk 62;;
       before ← get (demo_object 63);
       collect (λ p, p) (λ p, p) false;;
       after ← lookupStableName demo_malloc demo_junk demo_thunks (λ p, p) 0 (demo_object 63);
       mret (before, after)) empty_table = Some (62, 63).
Proof. vm_compute. reflexivity. Qed.


