(* ===== verification/Tasks.v ===== *)
(** * Tasks and Capabilities (rts/Capability.c, rts/Task.c, sendMessage of rts/Messages.c)

    How operating-system threads hand the Capabilities over to each other: the
    task that runs on a Capability, the queue of tasks that come back from
    foreign calls, the spare workers, and waking tasks up through their
    condition variables.

    The state has every task and every Capability; a task carries what its
    operating-system thread does next ([pc]).  A section of code under
    [cap->lock], or under [task->lock], is one step: it takes these locks in
    that order and gives them up at its end, so that sections are serializable.
    What is read without a lock ([running_task], to guess a free Capability)
    may have any value.  [task->cond] is the state of the condition variable:
    only the task itself waits on it, and it may wake up without a signal. *)
From stdpp Require Import list gmap.
From S2P Require Import Prelude DList.
Local Open Scope Z_scope.

Definition NULL : ptr := END.

(** What the OS thread of a task does next.  [Holding cs]: it runs, and holds
    the Capabilities [cs]; it is outside the runtime system when it holds none.
    The [Return] states are those of [waitForReturnCapability] (with the
    Capabilities held meanwhile), the [Yield] states of [yieldCapability]. *)
Inductive pc : Type :=
  | Holding (cs : list nat)
  | ReturnEnter (cs : list nat) (c : nat)
  | ReturnLoop (cs : list nat)
  | ReturnSleep (cs : list nat)
  | ReturnCheck (cs : list nat) (c : nat)
  | YieldRelease (c : nat)
  | YieldLoop
  | YieldSleep
  | YieldCheck (c : nat)
  | Exited.
#[export] Instance pc_eq_dec : EqDecision pc.
Proof. solve_decision. Defined.

Inductive condition : Type :=
  | Nobody
  | Waits
  | Signalled.
#[export] Instance condition_eq_dec : EqDecision condition.
Proof. solve_decision. Defined.

(** A task with its in-call: [incall_tso] is [task->incall->tso]. *)
Record Task : Type := mkTask {
  cap : option nat;
  wakeup : bool;
  cond : condition;
  incall_tso : ptr;
  next : ptr;
  worker : bool;
  stopped : bool;
  os_thread : pc
}.
Definition set_cap x t := mkTask x (wakeup t) (cond t) (incall_tso t) (next t) (worker t) (stopped t) (os_thread t).
Definition set_wakeup x t := mkTask (cap t) x (cond t) (incall_tso t) (next t) (worker t) (stopped t) (os_thread t).
Definition set_cond x t := mkTask (cap t) (wakeup t) x (incall_tso t) (next t) (worker t) (stopped t) (os_thread t).
Definition set_incall_tso x t := mkTask (cap t) (wakeup t) (cond t) x (next t) (worker t) (stopped t) (os_thread t).
Definition set_next x t := mkTask (cap t) (wakeup t) (cond t) (incall_tso t) x (worker t) (stopped t) (os_thread t).
Definition set_stopped x t := mkTask (cap t) (wakeup t) (cond t) (incall_tso t) (next t) (worker t) x (os_thread t).
Definition set_os_thread x t := mkTask (cap t) (wakeup t) (cond t) (incall_tso t) (next t) (worker t) (stopped t) x.
Definition isBoundTask (t : Task) : bool := negb (incall_tso t =? NULL).

(** A thread of a run queue: [bound] is [tso->bound->task], NULL if the thread
    is not bound. *)
Record thread : Type := mkThread {
  thread_id : ptr;
  bound : ptr
}.
#[export] Instance thread_eq_dec : EqDecision thread.
Proof. solve_decision. Defined.

Record Capability : Type := mkCap {
  running_task : ptr;
  returning_tasks_hd : ptr;
  returning_tasks_tl : ptr;
  spare_workers : ptr;
  n_spare_workers : Z;
  run_queue : list thread;
  inbox : list Z;
  sparks_left : bool;
  suspended_ccalls : bool
}.
Definition set_running x c := mkCap x (returning_tasks_hd c) (returning_tasks_tl c) (spare_workers c) (n_spare_workers c) (run_queue c) (inbox c) (sparks_left c) (suspended_ccalls c).
Definition set_returning hd tl c := mkCap (running_task c) hd tl (spare_workers c) (n_spare_workers c) (run_queue c) (inbox c) (sparks_left c) (suspended_ccalls c).
Definition set_spare x n c := mkCap (running_task c) (returning_tasks_hd c) (returning_tasks_tl c) x n (run_queue c) (inbox c) (sparks_left c) (suspended_ccalls c).
Definition set_run_queue x c := mkCap (running_task c) (returning_tasks_hd c) (returning_tasks_tl c) (spare_workers c) (n_spare_workers c) x (inbox c) (sparks_left c) (suspended_ccalls c).
Definition set_inbox x c := mkCap (running_task c) (returning_tasks_hd c) (returning_tasks_tl c) (spare_workers c) (n_spare_workers c) (run_queue c) x (sparks_left c) (suspended_ccalls c).
Definition set_hints x y c := mkCap (running_task c) (returning_tasks_hd c) (returning_tasks_tl c) (spare_workers c) (n_spare_workers c) (run_queue c) (inbox c) x y.
Definition emptyRunQueue (c : Capability) : bool := match run_queue c with [] => true | _ => false end.
Definition emptyInbox (c : Capability) : bool := match inbox c with [] => true | _ => false end.

Record rts : Type := mkRts {
  capabilities : list Capability;
  tasks : gmap ptr Task;
  last_free_capability : nat;
  pending_sync : Z;
  sched_state : Z;
  inactive : bool
}.
Definition set_capabilities x s := mkRts x (tasks s) (last_free_capability s) (pending_sync s) (sched_state s) (inactive s).
Definition set_tasks x s := mkRts (capabilities s) x (last_free_capability s) (pending_sync s) (sched_state s) (inactive s).
Definition set_last_free x s := mkRts (capabilities s) (tasks s) x (pending_sync s) (sched_state s) (inactive s).
Definition set_pending_sync x s := mkRts (capabilities s) (tasks s) (last_free_capability s) x (sched_state s) (inactive s).
Definition set_sched x y s := mkRts (capabilities s) (tasks s) (last_free_capability s) (pending_sync s) x y.
Definition SYNC_GC_SEQ : Z := 1.
Definition SYNC_GC_PAR : Z := 2.
Definition SYNC_OTHER : Z := 3.
Definition SCHED_INTERRUPTING : Z := 1.
Definition SCHED_SHUTTING_DOWN : Z := 2.
Definition MAX_SPARE_WORKERS : Z := 6.

Definition get_task (t : ptr) : prog rts Task := load tasks t.
Definition upd_task (t : ptr) (f : Task → Task) : prog rts unit :=
  T ← get_task t; modify (λ s, set_tasks (<[t := f T]> (tasks s)) s).
Definition get_cap (c : nat) : prog rts Capability :=
  s ← get; deref (capabilities s !! c).
Definition upd_cap (c : nat) (f : Capability → Capability) : prog rts unit :=
  C ← get_cap c; modify (λ s, set_capabilities (<[c := f C]> (capabilities s)) s).
Definition goto (t : ptr) (p : pc) : prog rts unit := upd_task t (set_os_thread p).

(** ** Waking tasks up *)
Definition signalCondition (t : ptr) : prog rts unit :=
  upd_task t (λ T, set_cond (match cond T with Waits => Signalled | x => x end) T).
Definition giveCapabilityToTask (c : nat) (t : ptr) : prog rts unit :=
  T ← get_task t;
  ASSERT (bool_decide (cap T = Some c));;
  when (negb (wakeup T)) (
    upd_task t (set_wakeup true);;
    signalCondition t).

(** ** The queue of returning tasks *)
Definition newReturningTask (c : nat) (t : ptr) : prog rts unit :=
  T ← get_task t;
  ASSERT (next T =? NULL);;
  C ← get_cap c;
  if negb (returning_tasks_hd C =? NULL) then
    L ← get_task (returning_tasks_tl C);
    ASSERT (next L =? NULL);;
    upd_task (returning_tasks_tl C) (set_next t);;
    upd_cap c (set_returning (returning_tasks_hd C) t)
  else upd_cap c (set_returning t t).
Definition popReturningTask (c : nat) : prog rts ptr :=
  C ← get_cap c;
  let task := returning_tasks_hd C in
  ASSERT (negb (task =? NULL));;
  T ← get_task task;
  upd_cap c (set_returning (next T) (if next T =? NULL then NULL else returning_tasks_tl C));;
  upd_task task (set_next NULL);;
  mret task.

Section ops.
(** [malloc X]: a task structure outside [X]; [no_thread X]: the operating
    system fails to create a thread when the tasks are [X]. *)
Context (malloc : gset ptr → ptr) (no_thread : gset ptr → bool).

Definition newTask (w : bool) : prog rts ptr :=
  s ← get;
  let t := malloc (dom (tasks s)) in
  modify (set_tasks (<[t := mkTask None false Nobody NULL NULL w false (Holding [])]> (tasks s)));;
  mret t.
(** Up to [workerStart], whose thread finds the Capability in [task->cap]. *)
Definition startWorkerTask (c : nat) : prog rts unit :=
  s ← get;
  task ← newTask true;
  upd_task task (set_cap (Some c));;
  upd_cap c (set_running task);;
  if no_thread (dom (tasks s)) then fail Barf else
  goto task (Holding [c]).
Definition workerTaskStop (t : ptr) : prog rts unit :=
  upd_task t (set_cap None);;
  upd_task t (set_stopped true).

(** ** Letting go of a Capability *)
Definition globalWorkToDo (s : rts) : bool := (SCHED_INTERRUPTING <=? sched_state s) || inactive s.

(** [me] is [myTask()]. *)
Definition releaseCapability_ (me : ptr) (c : nat) (always_wakeup : bool) : prog rts unit :=
  C ← get_cap c;
  let task := running_task C in
  ASSERT (me =? task);;
  upd_cap c (set_running NULL);;
  s ← get;
  if negb (returning_tasks_hd C =? NULL) then giveCapabilityToTask c (returning_tasks_hd C)
  else if negb (pending_sync s =? 0) && negb (pending_sync s =? SYNC_GC_PAR) then modify (set_last_free c)
  else
    let head_bound := match run_queue C with th :: _ => bound th | [] => NULL end in
    if negb (head_bound =? NULL) then giveCapabilityToTask c head_bound
    else if (spare_workers C =? NULL) && ((sched_state s <? SCHED_SHUTTING_DOWN) || negb (emptyRunQueue C)) then
      startWorkerTask c
    else if (always_wakeup || negb (emptyRunQueue C) || negb (emptyInbox C) || sparks_left C || globalWorkToDo s)
            && negb (spare_workers C =? NULL) then giveCapabilityToTask c (spare_workers C)
    else modify (set_last_free c).

Definition releaseCapabilityAndQueueWorker (me : ptr) (c : nat) : prog rts unit :=
  C ← get_cap c;
  let task := running_task C in
  T ← get_task task;
  ASSERT (negb (stopped T));;
  if negb (isBoundTask T) then
    if n_spare_workers C <? MAX_SPARE_WORKERS then
      upd_task task (set_next (spare_workers C));;
      upd_cap c (set_spare task (n_spare_workers C + 1));;
      releaseCapability_ me c false;;
      goto me YieldLoop
    else
      releaseCapability_ me c false;;
      workerTaskStop task;;
      goto me Exited
  else
    releaseCapability_ me c false;;
    goto me YieldLoop.

(** [ASSERT_FULL_CAPABILITY_INVARIANTS] *)
Definition ASSERT_FULL (c : nat) (me : ptr) : prog rts unit :=
  C ← get_cap c;
  ASSERT (negb (running_task C =? NULL) && (running_task C =? me));;
  T ← get_task me;
  ASSERT (bool_decide (cap T = Some c)).

(** ** Waiting to be woken up *)

(** [if (!task->wakeup) waitCondition(...); cap = task->cap; task->wakeup =
    rtsFalse]: up to the wait, and from it on *)
Definition woken (me : ptr) (check : nat → pc) : prog rts unit :=
  upd_task me (set_cond Nobody);;
  T ← get_task me;
  c ← deref (cap T);
  upd_task me (set_wakeup false);;
  goto me (check c).
Definition wait_wakeup (me : ptr) (sleep : pc) (check : nat → pc) : prog rts unit :=
  T ← get_task me;
  if negb (wakeup T) then upd_task me (set_cond Waits);; goto me sleep
  else woken me check.

Definition waitForReturnCapability_enter (me : ptr) (cs : list nat) (c : nat) : prog rts unit :=
  C ← get_cap c;
  if running_task C =? NULL then
    upd_cap c (set_running me);;
    goto me (Holding (c :: cs));;
    ASSERT_FULL c me
  else
    newReturningTask c me;;
    goto me (ReturnLoop cs).
Definition waitForReturnCapability_check (me : ptr) (cs : list nat) (c : nat) : prog rts unit :=
  C ← get_cap c;
  if running_task C =? NULL then
    if negb (returning_tasks_hd C =? me) then
      giveCapabilityToTask c (returning_tasks_hd C);;
      goto me (ReturnLoop cs)
    else
      upd_cap c (set_running me);;
      _ ← popReturningTask c;
      goto me (Holding (c :: cs));;
      ASSERT_FULL c me
  else goto me (ReturnLoop cs).

Definition yieldCapability_check (me : ptr) (c : nat) : prog rts unit :=
  C ← get_cap c;
  T ← get_task me;
  if negb (running_task C =? NULL) then goto me YieldLoop
  else if negb (bool_decide (cap T = Some c)) then goto me YieldLoop
  else if incall_tso T =? NULL then
    ASSERT (negb (spare_workers C =? NULL));;
    if negb (spare_workers C =? me) then
      giveCapabilityToTask c (spare_workers C);;
      goto me YieldLoop
    else
      upd_cap c (set_spare (next T) (n_spare_workers C - 1));;
      upd_task me (set_next NULL);;
      upd_cap c (set_running me);;
      goto me (Holding [c]);;
      ASSERT_FULL c me
  else
    upd_cap c (set_running me);;
    goto me (Holding [c]);;
    ASSERT_FULL c me.

(** One step of the OS thread of [me] through the functions above; [None] when
    it is not in one of them, or sleeps. *)
Definition task_step (me : ptr) (T : Task) : option (prog rts unit) :=
  match os_thread T with
  | ReturnEnter cs c => Some (waitForReturnCapability_enter me cs c)
  | ReturnLoop cs => Some (wait_wakeup me (ReturnSleep cs) (ReturnCheck cs))
  | ReturnSleep cs => if decide (cond T = Signalled) then Some (woken me (ReturnCheck cs)) else None
  | ReturnCheck cs c => Some (waitForReturnCapability_check me cs c)
  | YieldRelease c => Some (releaseCapabilityAndQueueWorker me c)
  | YieldLoop => Some (wait_wakeup me YieldSleep YieldCheck)
  | YieldSleep => if decide (cond T = Signalled) then Some (woken me YieldCheck) else None
  | YieldCheck c => Some (yieldCapability_check me c)
  | Holding _ | Exited => None
  end.

(** ** Calls *)

(** [waitForReturnCapability(&cap, me)] up to its first lock; [pCap] is the
    Capability asked for, [free] the one picked by the unlocked search if it is
    NULL. *)
Definition waitForReturnCapability (me : ptr) (cs : list nat) (pCap : option nat) (free : nat) : prog rts unit :=
  match pCap with
  | None =>
    upd_task me (set_cap (Some free));;
    goto me (ReturnEnter cs free)
  | Some c =>
    T ← get_task me;
    ASSERT (bool_decide (cap T = Some c));;
    goto me (ReturnEnter cs c)
  end.
(** [yieldCapability(&cap, me)] up to its first lock.  In a parallel collection
    the task takes part in it and keeps the Capability. *)
Definition yieldCapability (me : ptr) (c : nat) : prog rts unit :=
  s ← get;
  if pending_sync s =? SYNC_GC_PAR then mret tt
  else
    upd_task me (set_wakeup false);;
    goto me (YieldRelease c).
(** [releaseCapability], [releaseAndWakeupCapability], by a task that holds
    [cs] afterwards *)
Definition releaseCapability (me : ptr) (c : nat) (cs : list nat) : prog rts unit :=
  releaseCapability_ me c false;;
  goto me (Holding cs).
Definition releaseAndWakeupCapability (me : ptr) (c : nat) (cs : list nat) : prog rts unit :=
  releaseCapability_ me c true;;
  goto me (Holding cs).
(** The end of [scheduleWorker] *)
Definition scheduleWorker_exit (me : ptr) (c : nat) : prog rts unit :=
  releaseCapability_ me c false;;
  workerTaskStop me;;
  goto me Exited.
Definition tryGrabCapability (me : ptr) (cs : list nat) (c : nat) : prog rts bool :=
  C ← get_cap c;
  if negb (running_task C =? NULL) then mret false
  else
    upd_task me (set_cap (Some c));;
    upd_cap c (set_running me);;
    goto me (Holding (c :: cs));;
    mret true.
Definition prodCapability (me : ptr) (c : nat) : prog rts unit :=
  C ← get_cap c;
  when (running_task C =? NULL) (
    upd_cap c (set_running me);;
    releaseCapability_ me c true).
Definition sendMessage (me : ptr) (c : nat) (msg : Z) : prog rts unit :=
  C ← get_cap c;
  upd_cap c (set_inbox (msg :: inbox C));;
  when (running_task C =? NULL) (
    upd_cap c (set_running me);;
    releaseCapability_ me c false).

(** [shutdownCapability]: one turn of its loop; [true] when it is done.  The
    walk over the spare workers looks for dead ones. *)
Fixpoint dead_workers (fuel : nat) (alive : ptr → bool) (c : nat) (prev t : ptr) : prog rts unit :=
  if t =? NULL then mret tt else
  match fuel with
  | O => fail Diverges
  | S fuel =>
    T ← get_task t;
    if negb (alive t) then
      C ← get_cap c;
      upd_cap c (set_spare (spare_workers C) (n_spare_workers C - 1));;
      (if prev =? NULL then
         C ← get_cap c; upd_cap c (set_spare (next T) (n_spare_workers C))
       else upd_task prev (set_next (next T)));;
      T ← get_task t;
      dead_workers fuel alive c t (next T)
    else dead_workers fuel alive c prev (next T)
  end.
Definition shutdownCapability_turn (alive : ptr → bool) (me : ptr) (cs : list nat) (c : nat) (safe : bool) : prog rts bool :=
  upd_task me (set_cap (Some c));;
  s ← get;
  ASSERT (sched_state s =? SCHED_SHUTTING_DOWN);;
  C ← get_cap c;
  if negb (running_task C =? NULL) then mret false else
  upd_cap c (set_running me);;
  dead_workers (S (size (tasks s))) alive c NULL (spare_workers C);;
  C ← get_cap c;
  if negb (emptyRunQueue C) || negb (spare_workers C =? NULL) then
    releaseCapability_ me c false;; mret false
  else if suspended_ccalls C && safe then
    upd_cap c (set_running NULL);; mret false
  else goto me (Holding (c :: cs));; mret true.

(** ** What the holder of a Capability does with it *)

(** [scheduleWaitThread]: a new bound thread *)
Definition scheduleWaitThread (me : ptr) (c : nat) (tso : ptr) : prog rts unit :=
  upd_task me (set_incall_tso tso);;
  upd_cap c (λ C, set_run_queue (run_queue C ++ [mkThread tso me]) C).
(** The body of the loop of [schedulePushWork] that gives thread [i] of the
    queue of [c] to [c'] *)
Definition push_thread (c c' : nat) (i : nat) : prog rts unit :=
  C ← get_cap c;
  th ← deref (run_queue C !! i);
  upd_cap c (set_run_queue (delete i (run_queue C)));;
  upd_cap c' (λ C', set_run_queue (run_queue C' ++ [th]) C');;
  when (negb (bound th =? NULL)) (upd_task (bound th) (set_cap (Some c'))).

(** ** The transition system

    [Run t]: the OS thread of [t] goes on in the function it is in.
    [Spurious t]: it wakes up without a signal.  The other actions are calls,
    by a task that is not in one of these functions, and what the holder of a
    Capability does with it; a call of waitForReturnCapability that asks for a
    Capability comes after the assignment of [task->cap] that its callers make.
    [enabled] is what the callers see to:
    a task yields or lets go of a Capability it holds and has in [task->cap];
    it does not leave its own bound thread behind on the queue of a Capability
    it lets go of; a thread on the queue of a Capability, if it is bound to
    another task, is bound to one that sleeps in [yieldCapability] and belongs
    to that Capability; a synchronisation ends when its task holds every
    Capability, or took part in a parallel collection. *)
Inductive action : Type :=
  | Run (t : ptr)
  | Spurious (t : ptr)
  | NewBoundTask
  | WaitForReturn (t : ptr) (c : nat) (asked : bool)
  | Yield (t : ptr) (c : nat)
  | Release (t : ptr) (c : nat) (always_wakeup : bool)
  | WorkerExit (t : ptr) (c : nat)
  | TryGrab (t : ptr) (c : nat)
  | Prod (t : ptr) (c : nat)
  | Send (t : ptr) (c : nat) (msg : Z)
  | Shutdown (t : ptr) (c : nat) (safe : bool)
  | SetCap (t : ptr) (c : nat)
  | SetRunQueue (t : ptr) (c : nat) (q : list thread)
  | PushThread (t : ptr) (c c' : nat) (i : nat)
  | ReadInbox (t : ptr) (c : nat)
  | ScheduleWait (t : ptr) (c : nat) (tso : ptr)
  | ThreadFinished (t : ptr)
  | RequestSync (t : ptr) (sync_type : Z)
  | EndSync (t : ptr)
  | SetHints (c : nat) (sparks ccalls : bool)
  | SetSched (st : Z) (idle : bool).

(** The Capabilities a running task holds. *)
Definition holding (s : rts) (t : ptr) : option (list nat) :=
  match tasks s !! t with
  | Some T => match os_thread T with Holding cs => Some cs | _ => None end
  | None => None
  end.
Definition holds (s : rts) (t : ptr) (c : nat) : bool :=
  match holding s t with Some cs => bool_decide (c ∈ cs) | None => false end.
Definition task_cap_is (s : rts) (t : ptr) (c : nat) : bool :=
  match tasks s !! t with Some T => bool_decide (cap T = Some c) | None => false end.
Definition yielding (p : pc) : bool :=
  match p with YieldLoop | YieldSleep | YieldCheck _ => true | _ => false end.
Definition queue_of (s : rts) (c : nat) : list thread :=
  match capabilities s !! c with Some C => run_queue C | None => [] end.
Definition bound_on (s : rts) (t : ptr) (c : nat) : bool := existsb (λ th, bound th =? t) (queue_of s c).
(** A thread that may be put on the queue of [c] by its holder [t] *)
Definition may_run_on (s : rts) (t : ptr) (c : nat) (th : thread) : bool :=
  (bound th =? NULL) ||
  match tasks s !! bound th with
  | Some B => isBoundTask B && ((bound th =? t) || (yielding (os_thread B) && bool_decide (cap B = Some c)))
  | None => false
  end.
Definition bound_tasks (q : list thread) : list ptr := filter (λ t, t ≠ NULL) (bound <$> q).

Definition enabled (a : action) (s : rts) : bool :=
  match a with
  | Run t => match tasks s !! t with Some T => match task_step t T with Some _ => true | None => false end | None => false end
  | Spurious t => match tasks s !! t with Some T => match os_thread T with ReturnSleep _ | YieldSleep => true | _ => false end | None => false end
  | NewBoundTask => true
  | WaitForReturn t c _ => match holding s t with Some cs => negb (bool_decide (c ∈ cs)) && bool_decide (c < length (capabilities s))%nat | None => false end
  | Yield t c => bool_decide (holding s t = Some [c]) && task_cap_is s t c
  | Release t c _ => holds s t c && task_cap_is s t c && negb (bound_on s t c)
  | WorkerExit t c => bool_decide (holding s t = Some [c]) && task_cap_is s t c && negb (bound_on s t c)
  | TryGrab t c => match holding s t with Some cs => bool_decide (c < length (capabilities s))%nat | None => false end
  | Prod t c | Send t c _ => match holding s t with Some _ => bool_decide (c < length (capabilities s))%nat | None => false end
  | Shutdown t c _ => match holding s t with Some cs => bool_decide (c < length (capabilities s))%nat && (sched_state s =? SCHED_SHUTTING_DOWN) | None => false end
  | SetCap t c => holds s t c
  | SetRunQueue t c q => holds s t c && forallb (may_run_on s t c) q && bool_decide (NoDup (bound_tasks q))
  | PushThread t c c' i => holds s t c && holds s t c' && negb (bool_decide (c = c')) &&
      match queue_of s c !! i with Some th => negb (bound th =? t) | None => false end
  | ReadInbox t c => holds s t c
  | ScheduleWait t c tso => holds s t c && negb (tso =? NULL) && match tasks s !! t with Some T => negb (isBoundTask T) | None => false end
  | ThreadFinished t => match holding s t with Some _ => forallb (λ c, negb (bound_on s t c)) (seq 0 (length (capabilities s))) | None => false end
  | RequestSync t k => match holding s t with Some _ => (pending_sync s =? 0) && (0 <? k) | None => false end
  | EndSync t => match holding s t with
                 | Some cs => (pending_sync s =? SYNC_GC_PAR) || forallb (λ c, bool_decide (c ∈ cs)) (seq 0 (length (capabilities s)))
                 | None => false end
  | SetHints c _ _ => bool_decide (c < length (capabilities s))%nat
  | SetSched st _ => sched_state s <=? st
  end.

Definition held_by (s : rts) (t : ptr) : list nat := default [] (holding s t).
Definition perform (a : action) : prog rts unit :=
  s ← get;
  match a with
  | Run t => T ← get_task t; m ← deref (task_step t T); m
  | Spurious t =>
    T ← get_task t;
    match os_thread T with
    | ReturnSleep cs => woken t (ReturnCheck cs)
    | YieldSleep => woken t YieldCheck
    | _ => fail BadPointer
    end
  | NewBoundTask => _ ← newTask false; mret tt
  | WaitForReturn t c asked =>
    when asked (upd_task t (set_cap (Some c)));;
    waitForReturnCapability t (held_by s t) (if asked : bool then Some c else None) c
  | Yield t c => yieldCapability t c
  | Release t c aw =>
    let cs := filter (λ c', c' ≠ c) (held_by s t) in
    if aw : bool then releaseAndWakeupCapability t c cs else releaseCapability t c cs
  | WorkerExit t c => scheduleWorker_exit t c
  | TryGrab t c => _ ← tryGrabCapability t (held_by s t) c; mret tt
  | Prod t c => prodCapability t c
  | Send t c msg => sendMessage t c msg
  | Shutdown t c safe => _ ← shutdownCapability_turn (λ _, true) t (held_by s t) c safe; mret tt
  | SetCap t c => upd_task t (set_cap (Some c))
  | SetRunQueue t c q => upd_cap c (set_run_queue q)
  | PushThread t c c' i => push_thread c c' i
  | ReadInbox t c => upd_cap c (set_inbox [])
  | ScheduleWait t c tso => scheduleWaitThread t c tso
  | ThreadFinished t => upd_task t (set_incall_tso NULL)
  | RequestSync t k => modify (set_pending_sync k)
  | EndSync t => modify (set_pending_sync 0)
  | SetHints c sp cc => upd_cap c (set_hints sp cc)
  | SetSched st idle => modify (set_sched st idle)
  end.

Inductive step (s s' : rts) : Prop :=
  | step_action a : enabled a s = true → perform a s = Ok (tt, s') → step s s'.
Inductive steps (s : rts) : rts → Prop :=
  | steps_refl : steps s s
  | steps_step s1 s2 : steps s s1 → step s1 s2 → steps s s2.
(** ** Start *)
Definition initCapability : Capability := mkCap NULL NULL NULL NULL 0 [] [] false false.
Definition initCapabilities (n : nat) : rts := mkRts (replicate n initCapability) ∅ 0 0 0 false.
Definition startWorkerTasks (from to : nat) : prog rts unit := for_each (seq from (to - from)) startWorkerTask.
(** [initScheduler] with [n] Capabilities *)
Definition initScheduler (n : nat) : outcome (unit * rts) := startWorkerTasks 1 n (initCapabilities n).
End ops.
