(* ===== verification/TasksInv.v ===== *)
(** * The invariant of tasks and Capabilities *)
From stdpp Require Import list gmap.
From S2P Require Import Prelude DList Tasks.
Local Open Scope Z_scope.

(** ** States and updates *)
Definition setT (t : ptr) (f : Task → Task) (s : rts) : rts := set_tasks (alter f t (tasks s)) s.
Definition setC (c : nat) (f : Capability → Capability) (s : rts) : rts := set_capabilities (alter f c (capabilities s)) s.

Lemma setT_task t f s u : tasks (setT t f s) !! u = if decide (t = u) then f <$> tasks s !! u else tasks s !! u.
Proof.
  cbn. destruct (decide (t = u)) as [->|]; [by rewrite lookup_alter_eq|by rewrite lookup_alter_ne].
Qed.
Lemma setC_cap c f s d : capabilities (setC c f s) !! d = if decide (c = d) then f <$> capabilities s !! d else capabilities s !! d.
Proof.
  cbn. destruct (decide (c = d)) as [->|]; [by rewrite list_lookup_alter_eq|by rewrite list_lookup_alter_ne].
Qed.
Lemma setT_comp t f g s : setT t f (setT t g s) = setT t (f ∘ g) s.
Proof. unfold setT, set_tasks. cbn. by rewrite alter_alter_eq. Qed.
Lemma setC_comp c f g s : setC c f (setC c g s) = setC c (f ∘ g) s.
Proof. unfold setC, set_capabilities. cbn. by rewrite list_alter_alter_eq. Qed.
Lemma setT_ext t f g s : (∀ T, tasks s !! t = Some T → f T = g T) → setT t f s = setT t g s.
Proof.
  intros H. unfold setT, set_tasks. f_equal. apply map_eq. intros i.
  destruct (decide (t = i)) as [->|]; [|by rewrite !lookup_alter_ne].
  rewrite !lookup_alter_eq. destruct (tasks s !! i) as [T|] eqn:E; [|done]. cbn. by rewrite H.
Qed.
Lemma setT_comm t u f g s : t ≠ u → setT t f (setT u g s) = setT u g (setT t f s).
Proof. intros H. unfold setT, set_tasks. cbn. f_equal. by apply alter_alter_ne. Qed.
Lemma caps_setT t f s : capabilities (setT t f s) = capabilities s.
Proof. done. Qed.
Lemma tasks_setC c f s : tasks (setC c f s) = tasks s.
Proof. done. Qed.
Lemma setT_length t f s : length (capabilities (setT t f s)) = length (capabilities s).
Proof. done. Qed.
Lemma setC_length c f s : length (capabilities (setC c f s)) = length (capabilities s).
Proof. cbn. apply length_alter. Qed.

Lemma wp_get_task t T Q s : tasks s !! t = Some T → Q T s → wp (get_task t) Q s.
Proof. apply wp_load. Qed.
Lemma wp_get_cap c C Q s : capabilities s !! c = Some C → Q C s → wp (get_cap c) Q s.
Proof. intros H HQ. unfold get_cap. wp_step. wp_step. by eapply wp_deref. Qed.
Lemma wp_upd_task t f T Q s : tasks s !! t = Some T → Q tt (setT t f s) → wp (upd_task t f) Q s.
Proof.
  intros H HQ. unfold upd_task. wp_step. eapply wp_get_task; [done|]. cbv beta. wp_step.
  enough (<[t := f T]> (tasks s) = alter f t (tasks s)) as -> by done.
  apply map_eq. intros i. destruct (decide (t = i)) as [<-|].
  - by rewrite lookup_insert_eq, lookup_alter_eq, H.
  - by rewrite lookup_insert_ne, lookup_alter_ne.
Qed.
Lemma wp_upd_cap c f C Q s : capabilities s !! c = Some C → Q tt (setC c f s) → wp (upd_cap c f) Q s.
Proof.
  intros H HQ. unfold upd_cap. wp_step. eapply wp_get_cap; [done|]. cbv beta. wp_step.
  enough (<[c := f C]> (capabilities s) = alter f c (capabilities s)) as -> by done.
  apply list_eq. intros i. destruct (decide (c = i)) as [<-|].
  - rewrite list_lookup_alter_eq, H. apply list_lookup_insert_eq. by eapply lookup_lt_Some.
  - by rewrite list_lookup_insert_ne, list_lookup_alter_ne.
Qed.

(** ** What a state of the program counter means *)
Definition held (p : pc) : list nat :=
  match p with
  | Holding cs | ReturnEnter cs _ | ReturnLoop cs | ReturnSleep cs | ReturnCheck cs _ => cs
  | YieldRelease c => [c]
  | _ => []
  end.
Definition returning (p : pc) : bool :=
  match p with ReturnLoop _ | ReturnSleep _ | ReturnCheck _ _ => true | _ => false end.
Definition sleeping (p : pc) : bool :=
  match p with ReturnSleep _ | YieldSleep => true | _ => false end.
Definition checks (p : pc) : option nat :=
  match p with ReturnCheck _ c | YieldCheck c => Some c | _ => None end.
(** A task on the list of spare workers *)
Definition spare (T : Task) : bool := yielding (os_thread T) && negb (isBoundTask T).
Definition waiting (p : pc) : bool := returning p || yielding p.

Definition nx (s : rts) : ptr → option ptr := λ t, next <$> tasks s !! t.
Definition running (s : rts) (c : nat) : option ptr := running_task <$> capabilities s !! c.

(** Somebody who will look at Capability [c] next: a task that waits for it and
    has been woken up. *)
Definition baton (s : rts) (c : nat) (t : ptr) : Prop :=
  ∃ T, tasks s !! t = Some T ∧ waiting (os_thread T) = true ∧ cap T = Some c ∧
    (wakeup T = true ∨ checks (os_thread T) = Some c).
(** There is work for Capability [c]: tasks that return, and, unless all
    Capabilities are being stopped, threads or messages. *)
Definition wants (s : rts) (C : Capability) : Prop :=
  returning_tasks_hd C ≠ NULL ∨
  ((pending_sync s = 0 ∨ pending_sync s = SYNC_GC_PAR) ∧
   (run_queue C ≠ [] ∨ (inbox C ≠ [] ∧ sched_state s < SCHED_SHUTTING_DOWN))).

Definition bound_ok (s : rts) (c : nat) (b : ptr) : Prop :=
  ∃ B, tasks s !! b = Some B ∧ isBoundTask B = true ∧
    (c ∈ held (os_thread B) ∨ (yielding (os_thread B) = true ∧ cap B = Some c)).

Record task_ok (rq sw : nat → list ptr) (s : rts) (t : ptr) (T : Task) : Prop := {
  tk_null : t ≠ NULL;
  tk_held c : c ∈ held (os_thread T) → running s c = Some t;
  tk_nodup : NoDup (held (os_thread T));
  tk_rq c : t ∈ rq c ↔ returning (os_thread T) = true ∧ cap T = Some c;
  tk_sw c : t ∈ sw c ↔ spare T = true ∧ cap T = Some c;
  tk_next : returning (os_thread T) = false → spare T = false → next T = END;
  tk_cap : waiting (os_thread T) = true → ∃ c, cap T = Some c ∧ (c < length (capabilities s))%nat;
  tk_at : match os_thread T with
          | ReturnEnter _ c => cap T = Some c ∧ (c < length (capabilities s))%nat
          | ReturnCheck _ c | YieldRelease c => cap T = Some c
          | YieldCheck c => (c < length (capabilities s))%nat
          | _ => True
          end;
  tk_cond : match cond T with
            | Nobody => sleeping (os_thread T) = false
            | Waits => sleeping (os_thread T) = true ∧ wakeup T = false
            | Signalled => sleeping (os_thread T) = true ∧ wakeup T = true
            end;
  tk_stopped : stopped T = true → os_thread T = Exited
}.
Record cap_ok (rq sw : nat → list ptr) (s : rts) (c : nat) (C : Capability) : Prop := {
  ck_rq : slist (nx s) (returning_tasks_hd C) (rq c) END;
  ck_tl : returning_tasks_tl C = default END (last (rq c));
  ck_sw : slist (nx s) (spare_workers C) (sw c) END;
  ck_n : n_spare_workers C = Z.of_nat (length (sw c));
  ck_max : n_spare_workers C <= MAX_SPARE_WORKERS;
  ck_run : running_task C ≠ NULL → ∃ T, tasks s !! running_task C = Some T ∧ c ∈ held (os_thread T);
  ck_bound th : th ∈ run_queue C → bound th ≠ NULL → bound_ok s c (bound th);
  ck_nodup : NoDup (bound_tasks (run_queue C))
}.
(** [rq], [sw]: the tasks in the queue of returning tasks and on the list of
    spare workers of each Capability; [b]: a Capability that is being let go
    of, for which nobody has been woken up yet. *)
Record Inv (b : option nat) (rq sw : nat → list ptr) (s : rts) : Prop := {
  inv_task t T : tasks s !! t = Some T → task_ok rq sw s t T;
  inv_cap c C : capabilities s !! c = Some C → cap_ok rq sw s c C;
  inv_baton c C : capabilities s !! c = Some C → b ≠ Some c → running_task C = NULL → wants s C → ∃ t, baton s c t;
  inv_range c : capabilities s !! c = None → rq c = [] ∧ sw c = []
}.

(** ** Frames *)
Definition baton_of (T : Task) (c : nat) : Prop :=
  waiting (os_thread T) = true ∧ cap T = Some c ∧ (wakeup T = true ∨ checks (os_thread T) = Some c).
Lemma baton_alt s c t : baton s c t ↔ ∃ T, tasks s !! t = Some T ∧ baton_of T c.
Proof. done. Qed.

Lemma running_setT t f s c : running (setT t f s) c = running s c.
Proof. done. Qed.
Lemma running_setC d f s c :
  running (setC d f s) c = if decide (d = c) then (running_task ∘ f) <$> capabilities s !! c else running s c.
Proof. unfold running. rewrite setC_cap. destruct (decide (d = c)); [|done]. by rewrite <- option_fmap_compose. Qed.
Lemma nx_setT t f s u : nx (setT t f s) u = if decide (t = u) then (next ∘ f) <$> tasks s !! u else nx s u.
Proof. unfold nx. rewrite setT_task. destruct (decide (t = u)); [|done]. by rewrite <- option_fmap_compose. Qed.

Lemma task_ok_frame rq sw s rq' sw' s' t T :
  task_ok rq sw s t T →
  (∀ c, running s c = Some t → running s' c = Some t) →
  (∀ c, t ∈ rq' c ↔ t ∈ rq c) → (∀ c, t ∈ sw' c ↔ t ∈ sw c) →
  length (capabilities s') = length (capabilities s) →
  task_ok rq' sw' s' t T.
Proof.
  intros [] Hr Hq Hs Hl. split; rewrite ?Hl; try done; intros c.
  - eauto.
  - by rewrite Hq.
  - by rewrite Hs.
Qed.
Lemma cap_ok_frame rq sw s rq' sw' s' c C C' :
  cap_ok rq sw s c C →
  rq' c = rq c → sw' c = sw c →
  returning_tasks_hd C' = returning_tasks_hd C → returning_tasks_tl C' = returning_tasks_tl C →
  spare_workers C' = spare_workers C → n_spare_workers C' = n_spare_workers C → run_queue C' = run_queue C →
  (∀ t, t ∈ rq c ∨ t ∈ sw c → nx s' t = nx s t) →
  (∀ th, th ∈ run_queue C → bound th ≠ NULL → bound_ok s c (bound th) → bound_ok s' c (bound th)) →
  (running_task C' ≠ NULL → ∃ T, tasks s' !! running_task C' = Some T ∧ c ∈ held (os_thread T)) →
  cap_ok rq' sw' s' c C'.
Proof.
  intros [] Hq Hs E1 E2 E3 E4 E5 Hnx Hb Hr. split; rewrite ?Hq, ?Hs, ?E1, ?E2, ?E3, ?E4, ?E5; try done.
  - eapply slist_ext; [|done]. intros; apply Hnx; by left.
  - eapply slist_ext; [|done]. intros; apply Hnx; by right.
  - eauto.
Qed.

Lemma bound_ok_setT s c b me f :
  bound_ok s c b →
  (∀ T, tasks s !! me = Some T → isBoundTask T = true →
     (c ∈ held (os_thread T) ∨ yielding (os_thread T) = true ∧ cap T = Some c) →
     isBoundTask (f T) = true ∧ (c ∈ held (os_thread (f T)) ∨ yielding (os_thread (f T)) = true ∧ cap (f T) = Some c)) →
  bound_ok (setT me f s) c b.
Proof.
  intros (B & HB & Hi & Hc) Hf. unfold bound_ok. setoid_rewrite setT_task.
  destruct (decide (me = b)) as [->|]; [|by exists B]. exists (f B). rewrite HB. split; [done|]. by apply Hf.
Qed.
Lemma baton_setT_ne s c t me f : t ≠ me → baton s c t → baton (setT me f s) c t.
Proof. intros Hne (T & HT & H). exists T. by rewrite setT_task, decide_False. Qed.
Lemma held_run s c C me T rq sw b :
  Inv b rq sw s → capabilities s !! c = Some C → tasks s !! me = Some T → c ∈ held (os_thread T) → running_task C = me.
Proof.
  intros HI HC HT Hc. pose proof (tk_held _ _ _ _ _ (inv_task _ _ _ _ HI _ _ HT) _ Hc) as H.
  unfold running in H. rewrite HC in H. by injection H.
Qed.

(** ** Steps of the invariant *)
Lemma Inv_weaken rq sw s c : Inv None rq sw s → Inv (Some c) rq sw s.
Proof. intros []. split; eauto. Qed.
Lemma Inv_done c rq sw s : Inv (Some c) rq sw s →
  (∀ C, capabilities s !! c = Some C → running_task C = NULL → wants s C → ∃ t, baton s c t) → Inv None rq sw s.
Proof.
  intros [H1 H2 H3 H4] Hd. split; [done..| |done]. intros d C HC _ Hr Hw.
  destruct (decide (d = c)) as [->|]; [eauto|]. eapply H3; [done|congruence|done..].
Qed.

Lemma Inv_setT_gen b rq sw s me T f :
  Inv b rq sw s → tasks s !! me = Some T →
  task_ok rq sw s me (f T) → next (f T) = next T →
  (∀ c, c ∈ held (os_thread T) → c ∈ held (os_thread (f T))) →
  (∀ c C th, capabilities s !! c = Some C → th ∈ run_queue C → bound th ≠ NULL → bound_ok s c (bound th) → bound_ok (setT me f s) c (bound th)) →
  (∀ c C, capabilities s !! c = Some C → running_task C = NULL → b ≠ Some c → baton_of T c →
     baton_of (f T) c ∨ ∃ t, t ≠ me ∧ baton s c t) →
  Inv b rq sw (setT me f s).
Proof.
  intros [H1 H2 H3 H4] HT Hok Hn Hh Hb Hbt. split; [| | |done].
  - intros t T'. rewrite setT_task. destruct (decide (me = t)) as [->|].
    + rewrite HT. intros [= <-]. by eapply task_ok_frame.
    + intros Ht. by eapply task_ok_frame; [by apply H1|..].
  - intros c C HC. eapply cap_ok_frame; [by apply H2|done..| | |].
    + intros t _. rewrite nx_setT. destruct (decide (me = t)) as [->|]; [|done]. unfold nx. rewrite HT. cbn. by rewrite Hn.
    + intros th. by apply (Hb c C).
    + intros Hr. destruct (ck_run _ _ _ _ _ (H2 _ _ HC) Hr) as (T1 & HT1 & Hc). rewrite setT_task.
      destruct (decide (me = running_task C)) as [E|]; [|by exists T1]. rewrite <- E in *. rewrite HT in HT1. injection HT1 as <-.
      exists (f T). rewrite HT. split; [done|by apply Hh].
  - intros c C HC Hc Hr Hw. destruct (H3 c C HC Hc Hr Hw) as [t Hbat].
    destruct (decide (t = me)) as [->|]; [|exists t; by apply baton_setT_ne].
    destruct Hbat as (T0 & HT0 & Hbo). rewrite HT in HT0. injection HT0 as <-.
    destruct (Hbt c C HC Hr Hc Hbo) as [Hf|(t' & Hne & Ht')]; [|exists t'; by apply baton_setT_ne].
    exists me, (f T). rewrite setT_task, decide_True, HT by done. by split.
Qed.
Lemma Inv_setT b rq sw s me T f :
  Inv b rq sw s → tasks s !! me = Some T →
  task_ok rq sw s me (f T) → next (f T) = next T →
  (∀ c, c ∈ held (os_thread T) → c ∈ held (os_thread (f T))) →
  (isBoundTask T = true → isBoundTask (f T) = true ∧
     ∀ c, yielding (os_thread T) = true → cap T = Some c → c ∈ held (os_thread (f T)) ∨ yielding (os_thread (f T)) = true ∧ cap (f T) = Some c) →
  (∀ c C, capabilities s !! c = Some C → running_task C = NULL → b ≠ Some c → baton_of T c →
     baton_of (f T) c ∨ ∃ t, t ≠ me ∧ baton s c t) →
  Inv b rq sw (setT me f s).
Proof.
  intros HI HT Hok Hn Hh Hb Hbt. eapply Inv_setT_gen; [done..| |done].
  intros c C th _ _ _ Hb'. apply bound_ok_setT; [done|]. intros T0 HT0 Hi Hc. rewrite HT in HT0. injection HT0 as <-.
  destruct (Hb Hi) as [? Hy]. split; [done|]. destruct Hc as [Hc|[Hc1 Hc2]]; [left; by apply Hh|by apply Hy].
Qed.

(** [me], which is in no queue, takes the free Capability [c]. *)
Definition take (me : ptr) (cs : list nat) (c : nat) (s : rts) : rts :=
  setC c (set_running me) (setT me (λ T, set_os_thread (Holding (c :: cs)) (set_cap (Some c) T)) s).
Lemma Inv_take b rq sw s me T c C :
  Inv b rq sw s → (b = None ∨ b = Some c) → tasks s !! me = Some T → capabilities s !! c = Some C →
  running_task C = NULL → returning (os_thread T) = false → spare T = false → sleeping (os_thread T) = false → os_thread T ≠ Exited →
  (∀ d, yielding (os_thread T) = true → cap T = Some d → d = c) →
  Inv None rq sw (take me (held (os_thread T)) c s).
Proof.
  intros [H1 H2 H3 H4] Hb HT HC Hr Hret Hsp Hsl Hx Hyld. set (s' := take _ _ _ _). pose proof (H1 _ _ HT) as HmT.
  assert (running s c = Some NULL) as Hrun by (unfold running; by rewrite HC, <- Hr).
  assert (∀ t d, t ≠ NULL → running s d = Some t → running s' d = Some t) as Hrun'.
  { intros t d Ht Hd. unfold s', take. rewrite running_setC. destruct (decide (c = d)) as [<-|]; [|done].
    rewrite Hrun in Hd. congruence. }
  assert (c ∉ held (os_thread T)) as Hc.
  { intros Hc. pose proof (tk_held _ _ _ _ _ HmT _ Hc) as E. rewrite Hrun in E. injection E as E. by apply (tk_null _ _ _ _ _ HmT). }
  assert (length (capabilities s') = length (capabilities s)) as Hl by (unfold s', take; by rewrite setC_length).
  split; [| | |intros d Hd; apply H4, lookup_ge_None; rewrite <- Hl; by apply lookup_ge_None].
  - intros t T'. unfold s', take. cbn [tasks setC set_capabilities]. rewrite setT_task. destruct (decide (me = t)) as [<-|].
    + rewrite HT. intros [= <-]. destruct HmT. split; cbn in *.
      * done.
      * intros d [->|Hd]%elem_of_cons; [|by apply (Hrun' me), tk_held0].
        rewrite running_setC, decide_True by done. by rewrite caps_setT, HC.
      * by apply NoDup_cons.
      * intros d. rewrite tk_rq0, Hret. naive_solver.
      * intros d. rewrite tk_sw0, Hsp. unfold spare. cbn. naive_solver.
      * intros _ _. by apply tk_next0.
      * done.
      * done.
      * rewrite Hsl in tk_cond0. destruct (cond T); naive_solver.
      * intros Hst. by apply tk_stopped0 in Hst.
    + intros Ht. eapply task_ok_frame; [by apply H1| |done..]. intros d Hd. apply (Hrun' t); [|done].
      by eapply tk_null, H1.
  - intros d D. unfold s', take. rewrite setC_cap, caps_setT. intros HD. assert (∃ D0, capabilities s !! d = Some D0 ∧
      (D = if decide (c = d) then set_running me D0 else D0)) as (D0 & HD0 & ED).
    { destruct (decide (c = d)) as [<-|]; [|by exists D]. cbn in HD. rewrite HC in HD. injection HD as <-. by exists C. }
    eapply cap_ok_frame with (C := D0); [by apply H2|done|done|subst D; by destruct (decide (c = d))..| | |].
    + intros t _. unfold nx. cbn [tasks setC set_capabilities]. rewrite setT_task. destruct (decide (me = t)) as [<-|]; [|done]. by rewrite HT.
    + intros th _ _ Hb'. refine (bound_ok_setT s d (bound th) me _ Hb' _). intros T0 HT0 Hi Hor. rewrite HT in HT0. injection HT0 as <-.
      split; [done|]. left. apply elem_of_cons. destruct Hor as [?|[Hy Hd]]; [by right|left; by apply Hyld].
    + intros HrD. cbn [tasks setC set_capabilities]. rewrite setT_task.
      subst D. destruct (decide (c = d)) as [<-|].
      * rewrite decide_True by done. cbn. rewrite HT. eexists. split; [done|]. by left.
      * destruct (ck_run _ _ _ _ _ (H2 _ _ HD0) HrD) as (T1 & HT1 & Hd).
        destruct (decide (me = running_task D0)) as [E|]; [|by exists T1].
        rewrite <- E, HT in *. injection HT1 as <-. eexists. split; [done|]. by right.
  - intros d D. unfold s', take. rewrite setC_cap, caps_setT. destruct (decide (c = d)) as [<-|Hcd].
    + rewrite HC. intros [= <-] _. cbn. intros ->. by destruct (tk_null _ _ _ _ _ HmT).
    + intros HD _ HrD Hwant. destruct (H3 d D) as [t Hbt]; [done|destruct Hb; congruence|done|done|].
      exists t. refine (baton_setT_ne s d t me _ _ Hbt). intros ->. destruct Hbt as (T0 & HT0 & Hw0 & Hc0 & _).
      rewrite HT in HT0. injection HT0 as <-. apply Hcd. symmetry. apply Hyld; [|done]. unfold waiting in Hw0. by rewrite Hret in Hw0.
Qed.

(** [me] lets go of [c]; what it does next, [os_thread (f T)], is not in a
    queue, unless [me] is bound and yields. *)
Definition let_go (me : ptr) (f : Task → Task) (c : nat) (s : rts) : rts :=
  setC c (set_running NULL) (setT me f s).
Definition left_behind (T T' : Task) (c : nat) : Prop :=
  returning (os_thread T') = false ∧ spare T' = false ∧ sleeping (os_thread T') = false ∧
  held (os_thread T') = filter (λ d, d ≠ c) (held (os_thread T)) ∧
  next T' = next T ∧ cond T' = Nobody ∧ isBoundTask T' = isBoundTask T ∧
  (yielding (os_thread T') = true → cap T' = Some c) ∧
  match os_thread T' with Holding _ | YieldLoop | Exited => True | _ => False end ∧
  (stopped T' = true → os_thread T' = Exited).
Lemma Inv_let_go rq sw s me T f c C :
  Inv None rq sw s → tasks s !! me = Some T → capabilities s !! c = Some C → c ∈ held (os_thread T) →
  waiting (os_thread T) = false → left_behind T (f T) c →
  (yielding (os_thread (f T)) = true ∨ ∀ th, th ∈ run_queue C → bound th ≠ me) →
  Inv (Some c) rq sw (let_go me f c s).
Proof.
  intros HI HT HC Hc Hw (L1 & L2 & L3 & L4 & L5 & L6 & L7 & L8 & L9 & L10) Hown.
  pose proof (held_run _ _ _ _ _ _ _ _ HI HC HT Hc) as Hrc.
  destruct HI as [H1 H2 H3 H4]. pose proof (H1 _ _ HT) as HmT. pose proof (tk_null _ _ _ _ _ HmT) as Hnull.
  set (s' := let_go _ _ _ _).
  assert (returning (os_thread T) = false ∧ yielding (os_thread T) = false) as [Hret Hyld].
  { by apply orb_false_iff in Hw. }
  assert (∀ t d, (t ≠ me ∨ d ≠ c) → running s d = Some t → running s' d = Some t) as Hrun'.
  { intros t d Ht Hd. unfold s', let_go. rewrite running_setC. destruct (decide (c = d)) as [<-|]; [|done].
    unfold running in Hd. rewrite HC in Hd. injection Hd as Hd. naive_solver. }
  assert (∀ d, d ∈ held (os_thread (f T)) ↔ d ∈ held (os_thread T) ∧ d ≠ c) as Hheld.
  { intros d. rewrite L4, list_elem_of_filter. naive_solver. }
  assert (∀ d b, d ≠ c ∨ b ≠ me ∨ yielding (os_thread (f T)) = true → bound_ok s d b → bound_ok s' d b) as Hbound.
  { intros d b Hdb (B & HB & Hi & Hor). unfold bound_ok. unfold s', let_go. setoid_rewrite tasks_setC. setoid_rewrite setT_task.
    destruct (decide (me = b)) as [<-|]; [|by exists B]. exists (f T). rewrite HT in HB |- *. injection HB as <-.
    split_and!; [done|congruence|]. destruct Hor as [Hd|[? _]]; [|congruence].
    destruct (decide (d = c)) as [->|]; [|left; by apply Hheld]. right.
    assert (yielding (os_thread (f T)) = true) as Hy by naive_solver. split; [done|by apply L8]. }
  assert (length (capabilities s') = length (capabilities s)) as Hl by (unfold s', let_go; by rewrite setC_length).
  split; [| | |intros d Hd; apply H4, lookup_ge_None; rewrite <- Hl; by apply lookup_ge_None].
  - intros t T'. unfold s', let_go. rewrite tasks_setC, setT_task. destruct (decide (me = t)) as [<-|].
    + rewrite HT. intros [= <-]. destruct HmT. split.
      * done.
      * intros d [Hd Hdc]%Hheld. apply Hrun'; [by right|by apply tk_held0].
      * rewrite L4. by apply NoDup_filter.
      * intros d. rewrite tk_rq0, Hret, L1. naive_solver.
      * intros d. rewrite tk_sw0, L2. unfold spare. rewrite Hyld. naive_solver.
      * intros _ _. rewrite L5. apply tk_next0; [done|]. unfold spare. by rewrite Hyld.
      * unfold waiting. rewrite L1. cbn. intros Hy. exists c. split; [by apply L8|]. fold s'. change (c < length (capabilities s'))%nat. rewrite Hl. by eapply lookup_lt_Some.
      * destruct (os_thread (f T)); done.
      * by rewrite L6.
      * done.
    + intros Ht. eapply task_ok_frame; [by apply H1| |done|done|done]. intros d Hd. apply (Hrun' t); [by left|done].
  - intros d D. unfold s', let_go. rewrite setC_cap, caps_setT. intros HD. assert (∃ D0, capabilities s !! d = Some D0 ∧
      (D = if decide (c = d) then set_running NULL D0 else D0)) as (D0 & HD0 & ED).
    { destruct (decide (c = d)) as [<-|]; [|by exists D]. rewrite HC in HD. injection HD as <-. by exists C. }
    assert (∀ th, th ∈ run_queue D0 → bound th ≠ NULL → bound_ok s' d (bound th)) as Hq.
    { intros th Hth Hb. apply Hbound; [|by apply (ck_bound _ _ _ _ _ (H2 _ _ HD0))].
      destruct (decide (d = c)) as [->|]; [|by left]. right. rewrite HC in HD0. injection HD0 as <-.
      destruct Hown as [?|Hown]; [by right|left; by apply Hown]. }
    destruct (H2 _ _ HD0). fold s'. subst D. destruct (decide (c = d)) as [<-|Hcd]; split; try done; try (eapply slist_ext; [|done]);
      try (intros t _; unfold s', let_go; change (nx (setT me f s) t = nx s t); rewrite nx_setT; destruct (decide (me = t)) as [<-|]; [|done];
           unfold nx; rewrite HT; cbn; by rewrite L5).
    intros Hr. destruct (ck_run0 Hr) as (T1 & HT1 & Hd). unfold s', let_go. rewrite tasks_setC, setT_task.
    destruct (decide (me = running_task D0)) as [E|]; [|by exists T1]. rewrite <- E, HT in *. injection HT1 as <-.
    exists (f T). split; [done|]. apply Hheld. by split.
  - intros d D. unfold s', let_go. rewrite setC_cap, caps_setT. destruct (decide (c = d)) as [<-|Hcd]; [done|].
    intros HD _ HrD Hwant. destruct (H3 d D HD) as [t Hbt]; [done..|].
    exists t. refine (baton_setT_ne s d t me f _ Hbt). intros ->. destruct Hbt as (T0 & HT0 & Hw0 & _). rewrite HT in HT0. congruence.
Qed.

(** ** Queues *)
Definition upd (q : nat → list ptr) (c : nat) (l : list ptr) : nat → list ptr := λ d, if decide (d = c) then l else q d.
Lemma upd_eq q c l : upd q c l c = l.
Proof. unfold upd. by rewrite decide_True. Qed.
Lemma upd_ne q c l d : d ≠ c → upd q c l d = q d.
Proof. intros. unfold upd. by rewrite decide_False. Qed.

Lemma slist_snoc nx nx' hd l x y :
  slist nx hd (l ++ [x]) END → nx' x = Some y → nx' y = Some END → y ≠ END →
  (∀ t, t ∈ l → nx' t = nx t) → slist nx' hd (l ++ [x; y]) END.
Proof.
  intros (m & H1 & (-> & Hx & _))%slist_app Ex Ey Hy Hl. apply slist_app. exists x. split; [by eapply slist_ext|].
  cbn. split_and!; [done|done|]. exists y. split_and!; [done..|]. by exists END.
Qed.
Lemma queue_tasks rq sw s c C t : cap_ok rq sw s c C → t ∈ rq c ∨ t ∈ sw c → is_Some (tasks s !! t).
Proof.
  intros HC Ht. assert (∀ hd l, slist (nx s) hd l END → t ∈ l → is_Some (tasks s !! t)) as H.
  { intros hd l Hl Htl. apply list_elem_of_split in Htl as (l1 & l2 & ->). apply slist_split in Hl as (_ & _ & n & Hn & _).
    unfold nx in Hn. destruct (tasks s !! t); [eauto|done]. }
  destruct Ht; [eapply H; [apply HC|done]|eapply (H _ _ (ck_sw _ _ _ _ _ HC)); done].
Qed.
Lemma rq_hd rq sw s c C : cap_ok rq sw s c C → (returning_tasks_hd C = NULL) ↔ rq c = [].
Proof.
  intros HC. pose proof (ck_rq _ _ _ _ _ HC) as H. destruct (rq c) as [|x l]; cbn in H; [done|].
  destruct H as (-> & ? & _). by split.
Qed.
Lemma sw_hd rq sw s c C : cap_ok rq sw s c C → (spare_workers C = NULL) ↔ sw c = [].
Proof.
  intros HC. pose proof (ck_sw _ _ _ _ _ HC) as H. destruct (sw c) as [|x l]; cbn in H; [done|].
  destruct H as (-> & ? & _). by split.
Qed.
Lemma not_queued rq sw s t T c : task_ok rq sw s t T → waiting (os_thread T) = false → (t ∉ rq c) ∧ t ∉ sw c.
Proof.
  intros HT [Hr Hy]%orb_false_iff. rewrite (tk_rq _ _ _ _ _ HT), (tk_sw _ _ _ _ _ HT). unfold spare. rewrite Hr, Hy. naive_solver.
Qed.
Lemma queues_apart rq sw s t T c d : task_ok rq sw s t T → t ∈ rq c → t ∉ sw d.
Proof.
  intros HT [Hr _]%(tk_rq _ _ _ _ _ HT) [Hs _]%(tk_sw _ _ _ _ _ HT). unfold spare in Hs.
  apply andb_prop in Hs as [Hs _]. by destruct (os_thread T).
Qed.

(** A step of [me] that changes the queues of [c]: other tasks change in
    [next] at most, and only those that are in the queue of returning tasks. *)
Record requeue (rq sw rq' sw' : nat → list ptr) (s s' : rts) (me : ptr) (T T' : Task) (c : nat) (C C' : Capability) : Prop := {
  re_task : tasks s !! me = Some T;
  re_task' : tasks s' !! me = Some T';
  re_cap : capabilities s !! c = Some C;
  re_others t : t ≠ me → tasks s' !! t = tasks s !! t ∨
    (t ∈ rq c ∧ ∃ T1 n, tasks s !! t = Some T1 ∧ tasks s' !! t = Some (set_next n T1));
  re_caps d : capabilities s' !! d = if decide (c = d) then Some C' else capabilities s !! d;
  re_run : running_task C' = running_task C;
  re_queue : run_queue C' = run_queue C;
  re_elsewhere d : d ≠ c → rq' d = rq d ∧ sw' d = sw d;
  re_members t : t ≠ me → (t ∈ rq' c ↔ t ∈ rq c) ∧ (t ∈ sw' c ↔ t ∈ sw c);
  re_here d : waiting (os_thread T) = true → cap T = Some d → d = c;
  re_me : task_ok rq' sw' s' me T';
  re_held : held (os_thread T') = held (os_thread T);
  re_bound : isBoundTask T' = isBoundTask T;
  re_yield : isBoundTask T = true → yielding (os_thread T) = false;
  re_rq : slist (nx s') (returning_tasks_hd C') (rq' c) END;
  re_tl : returning_tasks_tl C' = default END (last (rq' c));
  re_sw : slist (nx s') (spare_workers C') (sw' c) END;
  re_n : n_spare_workers C' = Z.of_nat (length (sw' c));
  re_max : n_spare_workers C' <= MAX_SPARE_WORKERS;
  re_sync : pending_sync s' = pending_sync s;
  re_sched : sched_state s' = sched_state s
}.

Lemma Inv_requeue b rq sw rq' sw' s s' me T T' c C C' :
  Inv b rq sw s → requeue rq sw rq' sw' s s' me T T' c C C' → (running_task C ≠ NULL ∨ b = Some c) →
  Inv b rq' sw' s'.
Proof.
  intros [H1 H2 H3 H4] R Hb. pose proof (re_task _ _ _ _ _ _ _ _ _ _ _ _ R) as HT. pose proof (re_task' _ _ _ _ _ _ _ _ _ _ _ _ R) as HT'.
  pose proof (re_cap _ _ _ _ _ _ _ _ _ _ _ _ R) as HC. destruct R.
  assert (∀ t T1, t ≠ me → tasks s !! t = Some T1 → ∃ n, tasks s' !! t = Some (set_next n T1) ∧ (n = next T1 ∨ t ∈ rq c)) as Hoth.
  { intros t T1 Hne HT1. destruct (re_others0 t Hne) as [E|(Ht & T2 & n & E1 & E2)].
    - exists (next T1). rewrite E, HT1. split; [by destruct T1|by left].
    - exists n. rewrite HT1 in E1. injection E1 as <-. eauto. }
  assert (∀ d, running s' d = running s d) as Hrun.
  { intros d. unfold running. rewrite re_caps0. destruct (decide (c = d)) as [<-|]; [|done]. rewrite HC. cbn. by rewrite re_run0. }
  assert (length (capabilities s') = length (capabilities s)) as Hl.
  { apply Nat.le_antisymm; apply Nat.nlt_ge; intros Hlt; apply lookup_lt_is_Some in Hlt as [D HD].
    - rewrite re_caps0 in HD. destruct (decide (c = length (capabilities s))) as [E|].
      + apply lookup_lt_Some in HC. lia.
      + apply lookup_lt_Some in HD. lia.
    - pose proof (re_caps0 (length (capabilities s'))) as E. rewrite HD in E.
      destruct (decide _); apply lookup_lt_Some in E; lia. }
  assert (∀ t T1, t ≠ me → tasks s !! t = Some T1 → ∀ d, (t ∈ rq' d ↔ t ∈ rq d) ∧ (t ∈ sw' d ↔ t ∈ sw d)) as Hmem.
  { intros t T1 Hne HT1 d. destruct (decide (d = c)) as [->|Hd]; [by apply re_members0|]. by destruct (re_elsewhere0 d Hd) as [-> ->]. }
  assert (∀ d b', bound_ok s d b' → bound_ok s' d b') as Hbd.
  { intros d b' (B & HB & Hi & Hor). destruct (decide (b' = me)) as [->|Hne].
    - rewrite HT in HB. injection HB as <-. exists T'. split_and!; [done|congruence|]. left. rewrite re_held0.
      destruct Hor as [?|[Hy _]]; [done|]. by rewrite re_yield0 in Hy.
    - destruct (Hoth b' B Hne HB) as (n & Hn & _). by exists (set_next n B). }
  assert (∀ d D, capabilities s !! d = Some D → running_task D ≠ NULL → ∃ T1, tasks s' !! running_task D = Some T1 ∧ d ∈ held (os_thread T1)) as Hck.
  { intros d D HD HrD. destruct (ck_run _ _ _ _ _ (H2 _ _ HD) HrD) as (T1 & HT1 & Hd).
    destruct (decide (running_task D = me)) as [E|Hne].
    - rewrite E in HT1 |- *. rewrite HT in HT1. injection HT1 as <-. exists T'. by rewrite re_held0.
    - destruct (Hoth _ T1 Hne HT1) as (n & Hn & _). by exists (set_next n T1). }
  split; [| | |intros d Hd; rewrite re_caps0 in Hd; destruct (decide (c = d)); [done|]; destruct (re_elsewhere0 d) as [-> ->]; [done|by apply H4]].
  - intros t T1 HT1. destruct (decide (t = me)) as [->|Hne]; [rewrite HT' in HT1; by injection HT1 as <-|].
    destruct (tasks s !! t) as [T0|] eqn:HT0; [|destruct (re_others0 t Hne) as [E|(_ & ? & ? & ? & _)]; congruence].
    destruct (Hoth t T0 Hne HT0) as (n & Hn & Hor). rewrite Hn in HT1. injection HT1 as <-.
    destruct (H1 _ _ HT0). split; cbn; rewrite ?Hl; try done.
    + intros d Hd. rewrite Hrun. by apply tk_held0.
    + intros d. rewrite (proj1 (Hmem t T0 Hne HT0 d)). apply tk_rq0.
    + intros d. rewrite (proj2 (Hmem t T0 Hne HT0 d)). apply tk_sw0.
    + intros Hr Hs. destruct Hor as [->|Hq]; [by apply tk_next0|]. apply tk_rq0 in Hq as [Hq _]. congruence.
  - intros d D HD. rewrite re_caps0 in HD. destruct (decide (c = d)) as [<-|Hcd].
    + injection HD as <-. destruct (H2 _ _ HC). split; rewrite ?re_queue0, ?re_run0; try done; eauto.
    + destruct (re_elsewhere0 d) as [E1 E2]; [done|]. eapply cap_ok_frame; [by apply H2|done..| |by eauto|by eauto].
      intros t Ht. destruct (queue_tasks _ _ _ _ _ t (H2 _ _ HD) Ht) as [T0 HT0]. pose proof (H1 _ _ HT0) as Hok.
      unfold nx. destruct (decide (t = me)) as [->|Hne].
      * exfalso. rewrite HT in HT0. injection HT0 as <-. apply Hcd. symmetry.
        destruct Ht as [[Hr Hc]%(tk_rq _ _ _ _ _ Hok)|[Hs Hc]%(tk_sw _ _ _ _ _ Hok)]; (apply re_here0; [|done]); unfold waiting; [by rewrite Hr|].
        unfold spare in Hs. apply andb_prop in Hs as [-> _]. by rewrite orb_true_r.
      * destruct (re_others0 t Hne) as [->|(Hq & _)]; [done|]. exfalso.
        apply (tk_rq _ _ _ _ _ Hok) in Hq as Hq'. destruct Ht as [Ht|Ht]; [|exact (queues_apart _ _ _ _ _ _ _ Hok Hq Ht)].
        apply (tk_rq _ _ _ _ _ Hok) in Ht. destruct Ht, Hq'. congruence.
  - intros d D HD Hbd' HrD Hwant. rewrite re_caps0 in HD. destruct (decide (c = d)) as [<-|Hcd].
    + injection HD as <-. destruct Hb; congruence.
    + destruct (H3 d D HD Hbd' HrD) as [t (T0 & HT0 & Hw & Hc & Ho)].
      { revert Hwant. unfold wants. by rewrite re_sync0, re_sched0. }
      assert (t ≠ me) as Hne. { intros ->. rewrite HT in HT0. injection HT0 as <-. apply Hcd. symmetry. by apply re_here0. }
      destruct (Hoth t T0 Hne HT0) as (n & Hn & _). by exists t, (set_next n T0).
Qed.

Lemma last_in_queue rq sw s c C : cap_ok rq sw s c C → returning_tasks_hd C ≠ NULL →
  ∃ l T, rq c = l ++ [returning_tasks_tl C] ∧ (returning_tasks_tl C ∉ l) ∧ tasks s !! returning_tasks_tl C = Some T ∧ next T = END.
Proof.
  intros HC Hh. pose proof (ck_tl _ _ _ _ _ HC) as Et. pose proof (ck_rq _ _ _ _ _ HC) as Hl.
  destruct (last (rq c)) as [x|] eqn:El; [|apply last_None in El; by apply (rq_hd _ _ _ _ _ HC) in El].
  cbn in Et. subst x. apply last_Some in El as [l El]. rewrite El in Hl.
  pose proof Hl as (m & _ & (_ & _ & n & Hn & ->))%slist_app. unfold nx in Hn.
  destruct (tasks s !! returning_tasks_tl C) as [T|] eqn:HT; [|done]. injection Hn as Hn.
  exists l, T. split_and!; [done| |done|done]. apply slist_NoDup in Hl. apply NoDup_app in Hl as (_ & Hl & _).
  intros Hx. apply (Hl _ Hx). by left.
Qed.

(** [me] joins the queue of returning tasks. *)
Definition enqueue (me : ptr) (cs : list nat) (c : nat) (C : Capability) (s : rts) : rts :=
  setT me (set_os_thread (ReturnLoop cs))
    (if returning_tasks_hd C =? NULL then setC c (set_returning me me) s
     else setC c (set_returning (returning_tasks_hd C) me) (setT (returning_tasks_tl C) (set_next me) s)).
Lemma enqueue_ok rq sw s me T c C cs :
  Inv None rq sw s → tasks s !! me = Some T → os_thread T = ReturnEnter cs c → capabilities s !! c = Some C →
  requeue rq sw (upd rq c (rq c ++ [me])) sw s (enqueue me cs c C s) me T (set_os_thread (ReturnLoop cs) T) c C
    (set_returning (if returning_tasks_hd C =? NULL then me else returning_tasks_hd C) me C).
Proof.
  intros [H1 H2 _ _] HT Hpc HC. pose proof (H1 _ _ HT) as HmT. pose proof (H2 _ _ HC) as HcC.
  assert (∀ d, (me ∉ rq d) ∧ me ∉ sw d) as Hme by (intros d; eapply not_queued; [done|by rewrite Hpc]).
  pose proof (tk_at _ _ _ _ _ HmT) as Hat. rewrite Hpc in Hat. destruct Hat as [Hcap Hlt].
  assert (next T = END) as Hnext by (apply HmT; [by rewrite Hpc|unfold spare; by rewrite Hpc]).
  set (s' := enqueue _ _ _ _ _).
  assert (∀ d, capabilities s' !! d = if decide (c = d) then Some (set_returning (if returning_tasks_hd C =? NULL then me else returning_tasks_hd C) me C) else capabilities s !! d) as Hcaps.
  { intros d. unfold s', enqueue. rewrite caps_setT. destruct (returning_tasks_hd C =? NULL); rewrite setC_cap, ?caps_setT;
      (destruct (decide (c = d)) as [<-|]; [by rewrite HC|done]). }
  assert (∀ t, tasks s' !! t = if decide (me = t) then Some (set_os_thread (ReturnLoop cs) T) else
     if decide (returning_tasks_hd C ≠ NULL ∧ returning_tasks_tl C = t) then set_next me <$> tasks s !! t else tasks s !! t) as Htasks.
  { intros t. unfold s', enqueue. rewrite setT_task. destruct (returning_tasks_hd C =? NULL) eqn:E.
    - apply Z.eqb_eq in E. rewrite (decide_False (P := _ ∧ _)) by naive_solver. destruct (decide (me = t)) as [<-|]; [|done]. by rewrite tasks_setC, HT.
    - apply Z.eqb_neq in E. rewrite tasks_setC, setT_task. destruct (last_in_queue _ _ _ _ _ HcC E) as (l & L & Hl & _).
      assert (returning_tasks_tl C ≠ me) as Hne. { intros Ee. apply (proj1 (Hme c)). rewrite Hl, Ee. apply elem_of_app; right; by left. }
      destruct (decide (me = t)) as [<-|]; [by rewrite decide_False, HT|].
      destruct (decide (returning_tasks_tl C = t)); [rewrite decide_True by done|rewrite decide_False by naive_solver]; done. }
  assert (pending_sync s' = pending_sync s ∧ sched_state s' = sched_state s ∧ length (capabilities s') = length (capabilities s) ∧ ∀ d, running s' d = running s d) as (Hg1 & Hg2 & Hg3 & Hg4).
  { split_and!; [unfold s', enqueue; by destruct (returning_tasks_hd C =? NULL)..| |].
    - unfold s', enqueue. rewrite setT_length. destruct (returning_tasks_hd C =? NULL); by rewrite setC_length.
    - intros d. unfold running. rewrite Hcaps. destruct (decide (c = d)) as [<-|]; [by rewrite HC|done]. }
  clearbody s'. split; try done.
  - by rewrite Htasks, decide_True.
  - intros t Hne. rewrite Htasks, decide_False by done. destruct (decide _) as [[Hh <-]|]; [|by left]. right.
    destruct (last_in_queue _ _ _ _ _ HcC Hh) as (l & L & Hl & _ & HL & _). split; [rewrite Hl; apply elem_of_app; right; by left|].
    exists L, me. by rewrite HL.
  - intros d Hd. by rewrite upd_ne.
  - intros t Hne. rewrite upd_eq, elem_of_app, list_elem_of_singleton. naive_solver.
  - intros d Hw. by rewrite Hpc in Hw.
  - destruct HmT. split; cbn; rewrite ?Hg3; try done.
    + intros d Hd. rewrite Hg4. apply tk_held0. by rewrite Hpc.
    + by rewrite Hpc in tk_nodup0.
    + intros d. destruct (decide (d = c)) as [->|Hd]; [rewrite upd_eq, elem_of_app, list_elem_of_singleton; naive_solver|].
      rewrite upd_ne by done. destruct (Hme d). split; [done|]. naive_solver.
    + intros d. destruct (Hme d). split; [done|]. unfold spare. cbn. naive_solver.
    + intros _. by exists c.
    + by rewrite Hpc in tk_cond0.
    + intros Hst. apply tk_stopped0 in Hst. congruence.
  - by rewrite Hpc.
  - intros _. by rewrite Hpc.
  - rewrite upd_eq. cbn. assert (nx s' me = Some END) as Hnme by (unfold nx; by rewrite Htasks, decide_True, <- Hnext).
    destruct (returning_tasks_hd C =? NULL) eqn:E.
    + apply Z.eqb_eq, (rq_hd _ _ _ _ _ HcC) in E. rewrite E. cbn. split_and!; [done|by apply HmT|]. by exists END.
    + apply Z.eqb_neq in E. destruct (last_in_queue _ _ _ _ _ HcC E) as (l & L & Hl & Hnl & HL & HnL).
      assert (returning_tasks_tl C ≠ me) as Hne. { intros Ee. apply (proj1 (Hme c)). rewrite Hl, Ee. apply elem_of_app; right; by left. }
      rewrite Hl, <- app_assoc. cbn. eapply slist_snoc; [rewrite <- Hl; by apply HcC| |done|by apply HmT|].
      * unfold nx. rewrite Htasks, decide_False, decide_True, HL by done. done.
      * intros t Ht. assert (me ≠ t) as Hmt. { intros <-. apply (proj1 (Hme c)). rewrite Hl. apply elem_of_app; by left. }
        unfold nx. rewrite Htasks, !decide_False; [done| |done]. intros [_ <-]. done.
  - by rewrite upd_eq, last_snoc.
  - eapply slist_ext; [|by apply HcC]. intros t Ht. assert (me ≠ t) as Hmt by (intros <-; by apply (proj2 (Hme c))).
    unfold nx. rewrite Htasks, !decide_False; [done| |done]. intros [Hh <-].
    destruct (last_in_queue _ _ _ _ _ HcC Hh) as (l & L & Hl & Hnl & HL & HnL).
    eapply (queues_apart _ _ _ _ _ c c (H1 _ _ HL)); [|done]. rewrite Hl. apply elem_of_app; right; by left.
  - by apply HcC.
  - by apply HcC.
Qed.

(** [me] leaves the queue of returning tasks, as its head. *)
Definition dequeue (me : ptr) (cs : list nat) (c : nat) (C : Capability) (T : Task) (s : rts) : rts :=
  setT me (set_os_thread (ReturnEnter cs c) ∘ set_next NULL)
    (setC c (set_returning (next T) (if next T =? NULL then NULL else returning_tasks_tl C)) s).
Lemma one_task_one_cap me f c g s T C :
  tasks s !! me = Some T → capabilities s !! c = Some C →
  (∀ t, t ≠ me → tasks (setT me f (setC c g s)) !! t = tasks s !! t) ∧
  tasks (setT me f (setC c g s)) !! me = Some (f T) ∧
  (∀ d, capabilities (setT me f (setC c g s)) !! d = if decide (c = d) then Some (g C) else capabilities s !! d) ∧
  length (capabilities (setT me f (setC c g s))) = length (capabilities s) ∧
  (running_task (g C) = running_task C → ∀ d, running (setT me f (setC c g s)) d = running s d).
Proof.
  intros HT HC. split_and!.
  - intros t Ht. by rewrite setT_task, decide_False.
  - by rewrite setT_task, decide_True, tasks_setC, HT.
  - intros d. rewrite caps_setT, setC_cap. destruct (decide (c = d)) as [<-|]; [by rewrite HC|done].
  - by rewrite setT_length, setC_length.
  - intros Hr d. rewrite running_setT, running_setC. destruct (decide (c = d)) as [<-|]; [|done]. unfold running. rewrite HC. cbn. by rewrite Hr.
Qed.
Lemma dequeue_ok b rq sw s me T c C cs l :
  Inv b rq sw s → tasks s !! me = Some T → held (os_thread T) = cs → returning (os_thread T) = true → cond T = Nobody →
  cap T = Some c → rq c = me :: l → capabilities s !! c = Some C →
  requeue rq sw (upd rq c l) sw s (dequeue me cs c C T s) me T (set_os_thread (ReturnEnter cs c) (set_next NULL T)) c C
    (set_returning (next T) (if next T =? NULL then NULL else returning_tasks_tl C) C).
Proof.
  intros [H1 H2 _ _] HT Hheld Hret Hcond Hcap Hrq HC. pose proof (H1 _ _ HT) as HmT. pose proof (H2 _ _ HC) as HcC.
  set (g := set_returning (next T) (if next T =? NULL then NULL else returning_tasks_tl C)).
  destruct (one_task_one_cap me (set_os_thread (ReturnEnter cs c) ∘ set_next NULL) c g s T C HT HC) as (E1 & E2 & E3 & E4 & E5).
  specialize (E5 eq_refl). fold g in E5. unfold dequeue. fold g.
  set (s' := setT me _ _) in *. assert (pending_sync s' = pending_sync s ∧ sched_state s' = sched_state s) as [Hg1 Hg2] by done. clearbody s'.
  pose proof (ck_rq _ _ _ _ _ HcC) as Hl. rewrite Hrq in Hl. pose proof Hl as Hl0. destruct Hl as (Hhd & Hnull & n & Hn & Hl).
  unfold nx in Hn. rewrite HT in Hn. injection Hn as <-.
  pose proof (slist_NoDup _ _ _ Hl0) as [Hml _]%NoDup_cons.
  assert (∀ d, me ∉ sw d) as Hms. { intros d. eapply queues_apart; [done|]. rewrite Hrq. by left. }
  assert (yielding (os_thread T) = false) as Hyld by by destruct (os_thread T).
  split; try done.
  - intros t Ht. left. by apply E1.
  - intros d Hd. by rewrite upd_ne.
  - intros t Hne. rewrite upd_eq, Hrq, elem_of_cons. naive_solver.
  - intros d _ Hd. congruence.
  - destruct HmT. split; cbn -[spare]; rewrite ?E4; try done.
    + intros d Hd. rewrite E5. apply tk_held0. by rewrite Hheld.
    + by rewrite <- Hheld.
    + intros d. destruct (decide (d = c)) as [->|Hd]; [rewrite upd_eq; naive_solver|]. rewrite upd_ne, tk_rq0 by done. naive_solver.
    + intros d. specialize (Hms d). split; [done|]. unfold spare. cbn. naive_solver.
    + split; [done|]. by eapply lookup_lt_Some.
    + by rewrite Hcond.
    + intros Hst. apply tk_stopped0 in Hst. by rewrite Hst in Hret.
  - rewrite upd_eq. cbn. eapply slist_ext; [|done]. intros t Ht. unfold nx. rewrite E1; [done|]. by intros ->.
  - rewrite upd_eq. cbn. destruct l as [|x l]; cbn in Hl |- *; [rewrite Hl; by rewrite Z.eqb_refl|].
    destruct Hl as (-> & Hx & _). rewrite (proj2 (Z.eqb_neq x NULL)) by done. pose proof (ck_tl _ _ _ _ _ HcC) as ->.
    by rewrite Hrq.
  - eapply slist_ext; [|by apply HcC]. intros t Ht. unfold nx. rewrite E1; [done|]. intros ->. by apply (Hms c).
  - by apply HcC.
  - by apply HcC.
Qed.

Lemma spare_set p n T : spare (set_os_thread p (set_next n T)) = yielding p && negb (isBoundTask T).
Proof. done. Qed.

(** A worker joins the spare workers, and leaves them, at the front. *)
Definition join_spare (me : ptr) (c : nat) (C : Capability) (s : rts) : rts :=
  setT me (set_os_thread YieldLoop ∘ set_next (spare_workers C)) (setC c (set_spare me (n_spare_workers C + 1)) s).
Lemma join_spare_ok b rq sw s me T c C :
  Inv b rq sw s → tasks s !! me = Some T → os_thread T = Holding [] → isBoundTask T = false → cap T = Some c →
  capabilities s !! c = Some C → n_spare_workers C < MAX_SPARE_WORKERS → stopped T = false →
  requeue rq sw rq (upd sw c (me :: sw c)) s (join_spare me c C s) me T (set_os_thread YieldLoop (set_next (spare_workers C) T)) c C
    (set_spare me (n_spare_workers C + 1) C).
Proof.
  intros [H1 H2 _ _] HT Hpc Hub Hcap HC Hmax Hst. pose proof (H1 _ _ HT) as HmT. pose proof (H2 _ _ HC) as HcC.
  destruct (one_task_one_cap me (set_os_thread YieldLoop ∘ set_next (spare_workers C)) c (set_spare me (n_spare_workers C + 1)) s T C HT HC) as (E1 & E2 & E3 & E4 & E5).
  specialize (E5 eq_refl). unfold join_spare.
  set (s' := setT me _ _) in *. assert (pending_sync s' = pending_sync s ∧ sched_state s' = sched_state s) as [Hg1 Hg2] by done. clearbody s'.
  assert (∀ d, (me ∉ rq d) ∧ me ∉ sw d) as Hme by (intros d; eapply not_queued; [done|by rewrite Hpc]).
  split; try done.
  - intros t Ht. left. by apply E1.
  - intros d Hd. by rewrite upd_ne.
  - intros t Hne. rewrite upd_eq, elem_of_cons. naive_solver.
  - intros d Hw. by rewrite Hpc in Hw.
  - destruct HmT. split; cbn -[spare]; rewrite ?E4; try done.
    + by intros d ?%elem_of_nil.
    + constructor.
    + intros d. destruct (Hme d). split; [done|]. naive_solver.
    + intros d. rewrite spare_set, Hub. cbn. destruct (Hme d). destruct (decide (d = c)) as [->|Hd].
      * rewrite upd_eq, elem_of_cons. naive_solver.
      * rewrite upd_ne by done. naive_solver.
    + intros _. by rewrite spare_set, Hub.
    + intros _. exists c. split; [done|]. by eapply lookup_lt_Some.
    + by rewrite Hpc in tk_cond0.
    + congruence.
  - by rewrite Hpc.
  - by rewrite Hub.
  - eapply slist_ext; [|by apply HcC]. intros t Ht. unfold nx. rewrite E1; [done|]. intros ->. by apply (proj1 (Hme c)).
  - by apply HcC.
  - rewrite upd_eq. cbn. split_and!; [done|by apply HmT|]. exists (spare_workers C). split; [unfold nx; by rewrite E2|].
    eapply slist_ext; [|by apply HcC]. intros t Ht. unfold nx. rewrite E1; [done|]. intros ->. by apply (proj2 (Hme c)).
  - rewrite upd_eq. cbn. rewrite (ck_n _ _ _ _ _ HcC). lia.
  - cbn. lia.
Qed.
Definition leave_spare (me : ptr) (c : nat) (C : Capability) (T : Task) (s : rts) : rts :=
  setT me (set_os_thread (Holding []) ∘ set_next NULL) (setC c (set_spare (next T) (n_spare_workers C - 1)) s).
Lemma leave_spare_ok b rq sw s me T c C l :
  Inv b rq sw s → tasks s !! me = Some T → spare T = true → cond T = Nobody → cap T = Some c → sw c = me :: l →
  capabilities s !! c = Some C →
  requeue rq sw rq (upd sw c l) s (leave_spare me c C T s) me T (set_os_thread (Holding []) (set_next NULL T)) c C
    (set_spare (next T) (n_spare_workers C - 1) C).
Proof.
  intros [H1 H2 _ _] HT Hsp Hcond Hcap Hsw HC. pose proof (H1 _ _ HT) as HmT. pose proof (H2 _ _ HC) as HcC.
  destruct (one_task_one_cap me (set_os_thread (Holding []) ∘ set_next NULL) c (set_spare (next T) (n_spare_workers C - 1)) s T C HT HC) as (E1 & E2 & E3 & E4 & E5).
  specialize (E5 eq_refl). unfold leave_spare.
  set (s' := setT me _ _) in *. assert (pending_sync s' = pending_sync s ∧ sched_state s' = sched_state s) as [Hg1 Hg2] by done. clearbody s'.
  pose proof (ck_sw _ _ _ _ _ HcC) as Hl. rewrite Hsw in Hl. pose proof Hl as Hl0. destruct Hl as (Hhd & Hnull & n & Hn & Hl).
  unfold nx in Hn. rewrite HT in Hn. injection Hn as <-.
  pose proof (slist_NoDup _ _ _ Hl0) as [Hml _]%NoDup_cons.
  unfold spare in Hsp. apply andb_prop in Hsp as [Hyld Hub%negb_true_iff].
  assert (returning (os_thread T) = false) as Hret by by destruct (os_thread T).
  assert (held (os_thread T) = []) as Hheld by by destruct (os_thread T).
  assert (∀ d, me ∉ rq d) as Hmr. { intros d [Hr _]%(tk_rq _ _ _ _ _ HmT). congruence. }
  split; try done.
  - intros t Ht. left. by apply E1.
  - intros d Hd. by rewrite upd_ne.
  - intros t Hne. rewrite upd_eq, Hsw, elem_of_cons. naive_solver.
  - intros d _ Hd. congruence.
  - destruct HmT. split; cbn -[spare]; rewrite ?E4; try done.
    + by intros d ?%elem_of_nil.
    + constructor.
    + intros d. specialize (Hmr d). split; [done|]. naive_solver.
    + intros d. unfold spare. cbn. destruct (decide (d = c)) as [->|Hd]; [rewrite upd_eq; naive_solver|]. rewrite upd_ne, tk_sw0 by done. naive_solver.
    + by rewrite Hcond.
    + intros Hst. apply tk_stopped0 in Hst. by rewrite Hst in Hyld.
  - by rewrite Hub.
  - eapply slist_ext; [|by apply HcC]. intros t Ht. unfold nx. rewrite E1; [done|]. intros ->. by apply (Hmr c).
  - by apply HcC.
  - rewrite upd_eq. cbn. eapply slist_ext; [|done]. intros t Ht. unfold nx. rewrite E1; [done|]. by intros ->.
  - rewrite upd_eq. cbn. rewrite (ck_n _ _ _ _ _ HcC), Hsw. cbn. lia.
  - cbn. pose proof (ck_max _ _ _ _ _ HcC). lia.
Qed.
