(* ===== verification/TasksStep.v ===== *)
(** * The functions of Capability.c and the invariant *)
From stdpp Require Import list gmap.
From S2P Require Import Prelude DList Tasks TasksInv.
Local Open Scope Z_scope.

(** ** Waking a task *)
Definition wake (T : Task) : Task :=
  if wakeup T then T else set_cond (match cond T with Waits => Signalled | x => x end) (set_wakeup true T).
Lemma wake_fields T : cap (wake T) = cap T ∧ os_thread (wake T) = os_thread T ∧ incall_tso (wake T) = incall_tso T ∧
  next (wake T) = next T ∧ stopped (wake T) = stopped T ∧ wakeup (wake T) = true.
Proof. unfold wake. destruct (wakeup T) eqn:E; by rewrite ?E. Qed.

Lemma setT_id t f s T : tasks s !! t = Some T → f T = T → setT t f s = s.
Proof.
  intros HT Hf. unfold setT, set_tasks. rewrite (alter_id f); [by destruct s|]. intros T0 HT0. rewrite HT in HT0. by injection HT0 as <-.
Qed.
Lemma wp_give c t T Q s : tasks s !! t = Some T → cap T = Some c → Q tt (setT t wake s) → wp (giveCapabilityToTask c t) Q s.
Proof.
  intros HT Hc HQ. unfold giveCapabilityToTask. wp_step. eapply wp_get_task; [done|]. cbv beta.
  wp_step. apply wp_assert; [by apply bool_decide_eq_true|]. apply wp_when; intros Hw.
  - apply negb_true_iff in Hw. wp_step. eapply wp_upd_task; [done|]. cbv beta. unfold signalCondition.
    eapply (wp_upd_task t _ (set_wakeup true T)); [by rewrite setT_task, decide_True, HT|]. rewrite setT_comp.
    erewrite setT_ext; [exact HQ|]. intros T1 HT1. rewrite HT in HT1. injection HT1 as <-. cbn. unfold wake. by rewrite Hw.
  - apply negb_false_iff in Hw. rewrite (setT_id t wake s T) in HQ; [done|done|]. unfold wake. by rewrite Hw.
Qed.

Lemma Inv_wake b rq sw s t T c :
  Inv b rq sw s → (b = None ∨ b = Some c) → tasks s !! t = Some T → waiting (os_thread T) = true → cap T = Some c →
  Inv None rq sw (setT t wake s).
Proof.
  intros HI Hb HT Hw Hc. destruct (wake_fields T) as (E1 & E2 & E3 & E4 & E5 & E6).
  assert (Inv b rq sw (setT t wake s)) as HI'.
  { eapply Inv_setT; [done..| |done| | |].
    - destruct (inv_task _ _ _ _ HI _ _ HT). split; rewrite ?E1, ?E2, ?E4, ?E5; try done.
      + intros d. unfold spare, isBoundTask. rewrite E2, E3. apply tk_sw.
      + intros H1 H2. apply tk_next; [done|]. revert H2. unfold spare, isBoundTask. by rewrite E2, E3.
      + unfold wake. destruct (wakeup T) eqn:E; cbn; destruct (cond T); naive_solver.
    - intros d. by rewrite E2.
    - unfold isBoundTask. rewrite E1, E2, E3. naive_solver.
    - intros d C HC Hr Hbd (B1 & B2 & B3). left. split_and!; [by rewrite E2|by rewrite E1|]. by left. }
  destruct Hb as [-> | ->]; [done|]. apply (Inv_done c); [done|]. intros _ _ _ _. exists t, (wake T).
  rewrite setT_task, decide_True, HT by done. split_and!; [done|by rewrite E2|by rewrite E1|by left].
Qed.

(** ** New tasks *)
Definition fresh_task (w : bool) : Task := mkTask None false Nobody NULL NULL w false (Holding []).
Definition add_task (t : ptr) (T : Task) (s : rts) : rts := set_tasks (<[t := T]> (tasks s)) s.
Lemma Inv_add b rq sw s w t : Inv b rq sw s → t ∉ dom (tasks s) → t ≠ NULL → Inv b rq sw (add_task t (fresh_task w) s).
Proof.
  intros [H1 H2 H3 H4] Hd Hn. apply not_elem_of_dom in Hd.
  assert (∀ u T, tasks s !! u = Some T → tasks (add_task t (fresh_task w) s) !! u = Some T) as Hold.
  { intros u T HT. cbn. rewrite lookup_insert_ne; [done|]. intros ->. congruence. }
  assert (∀ c, (t ∉ rq c) ∧ t ∉ sw c) as Hq.
  { intros c. destruct (capabilities s !! c) as [C|] eqn:HC; [|destruct (H4 c HC) as [-> ->]; by split; apply not_elem_of_nil].
    assert (¬ (t ∈ rq c ∨ t ∈ sw c)) as Ht; [|naive_solver].
    intros [T HT]%(queue_tasks _ _ _ _ _ t (H2 _ _ HC)). congruence. }
  split.
  - intros u T. cbn. destruct (decide (t = u)) as [<-|].
    + rewrite lookup_insert_eq. intros [= <-]. split; cbn; try done.
      * by intros c ?%elem_of_nil.
      * constructor.
      * intros c. destruct (Hq c). naive_solver.
      * intros c. destruct (Hq c). unfold spare. cbn. naive_solver.
    + rewrite lookup_insert_ne by done. intros HT. by eapply task_ok_frame; [by apply H1|..].
  - intros c C HC. eapply cap_ok_frame; [by apply H2|done..| | |].
    + intros u Hu. destruct (queue_tasks _ _ _ _ _ u (H2 _ _ HC) Hu) as [T HT]. unfold nx. by rewrite (Hold u T HT), HT.
    + intros th _ _ (B & HB & ?). exists B. split; [by apply Hold|done].
    + intros Hr. destruct (ck_run _ _ _ _ _ (H2 _ _ HC) Hr) as (T1 & HT1 & Hc). exists T1. split; [by apply Hold|done].
  - intros c C HC Hb Hr Hw. destruct (H3 c C HC Hb Hr Hw) as (u & T & HT & ?). exists u, T. split; [by apply Hold|done].
  - done.
Qed.
Section ops.
Context (malloc : gset ptr → ptr) (no_thread : gset ptr → bool).
Hypothesis malloc_fresh : ∀ X, (malloc X ∉ X) ∧ malloc X ≠ NULL.

Lemma wp_newTask w Q s :
  Q (malloc (dom (tasks s))) (add_task (malloc (dom (tasks s))) (fresh_task w) s) → wp (newTask malloc w) Q s.
Proof. done. Qed.

Lemma wpb_startWorkerTask c C s Q : capabilities s !! c = Some C →
  (let w := malloc (dom (tasks s)) in Q tt (take w [] c (add_task w (fresh_task true) s))) →
  wpb (startWorkerTask malloc no_thread c) Q s.
Proof.
  intros HC HQ. unfold startWorkerTask. apply wpb_bind_wp. apply wp_get. apply wpb_bind_wp. apply wp_newTask.
  set (w := malloc _) in *. cbv zeta in HQ. apply wpb_bind_wp.
  assert (tasks (add_task w (fresh_task true) s) !! w = Some (fresh_task true)) as Hw by apply lookup_insert_eq.
  eapply wp_upd_task; [exact Hw|]. cbv beta. apply wpb_bind_wp. eapply wp_upd_cap; [done|]. cbv beta.
  destruct (no_thread _); [apply wpb_barf|]. apply wpb_wp. unfold goto. eapply wp_upd_task.
  { by rewrite tasks_setC, setT_task, decide_True, Hw. }
  enough (take w [] c (add_task w (fresh_task true) s) =
    setT w (set_os_thread (Holding [c])) (setC c (set_running w) (setT w (set_cap (Some c)) (add_task w (fresh_task true) s)))) as <- by done.
  unfold take. change (setT w (set_os_thread (Holding [c])) (setC c (set_running w) (setT w (set_cap (Some c)) (add_task w (fresh_task true) s))))
    with (setC c (set_running w) (setT w (set_os_thread (Holding [c])) (setT w (set_cap (Some c)) (add_task w (fresh_task true) s)))).
  by rewrite setT_comp.
Qed.

(** ** Letting go of a Capability *)
Lemma wake_comm me f t s : (t ≠ me ∨ ∀ T, wake (f T) = f (wake T)) → setT me f (setT t wake s) = setT t wake (setT me f s).
Proof.
  intros H. destruct (decide (t = me)) as [->|Hne]; [|by apply setT_comm, not_eq_sym].
  rewrite !setT_comp. apply setT_ext. intros T _. cbn. destruct H as [?|H]; [done|]. by rewrite H.
Qed.
Lemma take_comm me f w c s T : w ≠ me → setT me f (take w [] c (add_task w T s)) = take w [] c (add_task w T (setT me f s)).
Proof.
  intros H. unfold take. change (setT me f (setC ?c ?g ?x)) with (setC c g (setT me f x)). f_equal.
  rewrite setT_comm by done. f_equal. unfold setT, add_task, set_tasks. cbn. f_equal. by rewrite alter_insert_ne.
Qed.

(** [s0]: the state in which [me] calls [releaseCapability_]; [f]: what [me]
    does to its own task afterwards.  If the invariant holds with [c] free and
    [f] done, except that nobody has been woken up for [c], then the call wakes
    the right task up, or starts a worker, or nobody is needed. *)
Definition after_release (me : ptr) (f : Task → Task) (c : nat) (s0 : rts) : rts := setT me f (setC c (set_running NULL) s0).
Lemma release_ok rq sw me c aw s0 C T0 f :
  capabilities s0 !! c = Some C → running_task C = me → tasks s0 !! me = Some T0 →
  (waiting (os_thread (f T0)) = true → cap (f T0) = cap T0 ∧ ∀ T, wake (f T) = f (wake T)) →
  Inv (Some c) rq sw (after_release me f c s0) →
  wpb (releaseCapability_ malloc no_thread me c aw)
      (λ _ s1, (tasks s1 !! me = Some T0 ∨ tasks s1 !! me = Some (wake T0)) ∧ Inv None rq sw (setT me f s1)) s0.
Proof.
  intros HC Hme HT0 Hf HI. set (s2 := after_release me f c s0) in *.
  set (s0' := setC c (set_running NULL) s0).
  assert (capabilities s2 !! c = Some (set_running NULL C)) as HC2.
  { unfold s2, after_release. rewrite caps_setT, setC_cap, decide_True, HC by done. done. }
  pose proof (inv_cap _ _ _ _ HI _ _ HC2) as Hok.
  unfold releaseCapability_. apply wpb_bind_wp. eapply wp_get_cap; [done|]. cbv beta zeta.
  apply wpb_bind_wp. apply wp_assert; [by apply Z.eqb_eq|].
  apply wpb_bind_wp. eapply wp_upd_cap; [done|]. cbv beta. fold s0'. apply wpb_bind_wp. apply wp_get.
  assert (∀ t, (∃ T, tasks s2 !! t = Some T ∧ waiting (os_thread T) = true ∧ cap T = Some c) →
     wpb (giveCapabilityToTask c t) (λ _ s1, (tasks s1 !! me = Some T0 ∨ tasks s1 !! me = Some (wake T0)) ∧ Inv None rq sw (setT me f s1)) s0') as Hgive.
  { intros t (T & HT & Hw & Hcap).
    assert (∃ T1, tasks s0 !! t = Some T1 ∧ cap T1 = Some c ∧ (t ≠ me ∨ ∀ T, wake (f T) = f (wake T))) as (T1 & HT1 & Hcap1 & Hcm).
    { unfold s2, after_release in HT. rewrite setT_task, tasks_setC in HT. destruct (decide (me = t)) as [<-|Hne]; [|exists T; naive_solver].
      exists T0. rewrite HT0 in HT. injection HT as <-. destruct (Hf Hw) as [E Hc]. split_and!; [done|congruence|by right]. }
    apply wpb_wp. eapply wp_give; [done|done|]. split.
    - rewrite setT_task. change (tasks s0') with (tasks s0). destruct (decide (t = me)) as [->|]; [right|by left].
      rewrite HT0 in HT1 |- *. done.
    - rewrite wake_comm by done. eapply Inv_wake; [exact HI|by right|exact HT|done|done]. }
  assert (∀ f', (∀ s, Inv None rq sw s → Inv None rq sw (f' s)) → (¬ wants s2 (set_running NULL C)) →
     (∀ s, tasks (f' s) = tasks s ∧ setT me f (f' s) = f' (setT me f s)) →
     wpb (modify f') (λ _ s1, (tasks s1 !! me = Some T0 ∨ tasks s1 !! me = Some (wake T0)) ∧ Inv None rq sw (setT me f s1)) s0') as Hfree.
  { intros f' Hf' Hnw Hc. apply wpb_wp, wp_modify. destruct (Hc s0') as [E1 E2]. rewrite E1, E2. split; [by left|]. apply Hf'.
    apply (Inv_done c); [exact HI|]. intros C2 H2 _ Hwt. exfalso. change (capabilities s2 !! c = Some C2) in H2. rewrite HC2 in H2. injection H2 as <-. by apply Hnw. }
  assert (∀ s, Inv None rq sw s → Inv None rq sw (set_last_free c s)) as Hlf.
  { intros s [I1 I2 I3 I4]. split; [|..|done|done].
    - intros t T HT. by destruct (I1 t T HT).
    - intros d D HD. by destruct (I2 d D HD). }
  destruct (negb (returning_tasks_hd C =? NULL)) eqn:Ehd.
  { apply negb_true_iff, Z.eqb_neq in Ehd. apply Hgive. pose proof (ck_rq _ _ _ _ _ Hok) as Hl. cbn in Hl.
    pose proof (rq_hd _ _ _ _ _ Hok) as Hh. cbn in Hh. destruct (rq c) as [|x l] eqn:Erq; [by destruct Ehd; apply Hh|].
    destruct Hl as (-> & _). destruct (queue_tasks _ _ _ _ _ x Hok) as [T HT]; [left; rewrite Erq; by left|].
    assert (x ∈ rq c) as [Hr Hcp]%(tk_rq _ _ _ _ _ (inv_task _ _ _ _ HI _ _ HT)) by (rewrite Erq; by left).
    exists T. unfold waiting. by rewrite Hr. }
  apply negb_false_iff, Z.eqb_eq in Ehd.
  destruct (negb (pending_sync s0 =? 0) && negb (pending_sync s0 =? SYNC_GC_PAR)) eqn:Esync.
  { change (pending_sync s0') with (pending_sync s0). rewrite Esync. apply Hfree; [done| |done].
    intros [Hw|[[Hs|Hs] _]]; [by cbn in Hw| |]; cbn in Hs; rewrite Hs in Esync; discriminate. }
  change (pending_sync s0') with (pending_sync s0). rewrite Esync.
  match goal with |- wpb (if ?b then _ else _) _ _ => destruct b eqn:Ehead end.
  { apply negb_true_iff, Z.eqb_neq in Ehead. apply Hgive. destruct (run_queue C) as [|th q] eqn:Eq; [done|].
    destruct (ck_bound _ _ _ _ _ Hok th) as (B & HB & Hi & Hor); [cbn; rewrite Eq; by left|done|].
    exists B. destruct Hor as [Hh|[Hy Hcp]]; [|unfold waiting; rewrite Hy, orb_true_r; done]. exfalso.
    pose proof (held_run _ _ _ _ _ _ _ _ HI HC2 HB Hh) as E. cbn in E. by apply (tk_null _ _ _ _ _ (inv_task _ _ _ _ HI _ _ HB)). }
  destruct ((spare_workers C =? NULL) && _) eqn:Estart.
  { eapply wpb_startWorkerTask; [unfold s0'; rewrite setC_cap, decide_True, HC by done; done|]. cbv zeta.
    destruct (malloc_fresh (dom (tasks s0'))) as [Hfr Hnn]. set (w := malloc _) in *. change (dom (tasks s0')) with (dom (tasks s0)) in Hfr.
    apply not_elem_of_dom in Hfr. assert (w ≠ me) as Hwm by (intros ->; congruence). split.
    - left. unfold take. rewrite tasks_setC, setT_task, decide_False by done. cbn. by rewrite lookup_insert_ne.
    - rewrite take_comm by done. eapply (Inv_take (Some c) rq sw _ w (fresh_task true)); [|by right|apply lookup_insert_eq|exact HC2|done..].
      apply Inv_add; [exact HI| |done]. apply not_elem_of_dom. change (tasks s2 !! w = None). unfold s2, after_release.
      by rewrite setT_task, decide_False, tasks_setC by done. }
  destruct ((aw || _ || _ || _ || _) && _) eqn:Egive.
  { apply andb_prop in Egive as [_ Esp]. apply negb_true_iff, Z.eqb_neq in Esp. apply Hgive.
    pose proof (ck_sw _ _ _ _ _ Hok) as Hl. cbn in Hl. pose proof (sw_hd _ _ _ _ _ Hok) as Hh. cbn in Hh.
    destruct (sw c) as [|x l] eqn:Esw; [by destruct Esp; apply Hh|].
    destruct Hl as (-> & _). destruct (queue_tasks _ _ _ _ _ x Hok) as [T HT]; [right; rewrite Esw; by left|].
    assert (x ∈ sw c) as [Hs Hcp]%(tk_sw _ _ _ _ _ (inv_task _ _ _ _ HI _ _ HT)) by (rewrite Esw; by left).
    exists T. unfold spare in Hs. apply andb_prop in Hs as [Hy _]. unfold waiting. by rewrite Hy, orb_true_r. }
  apply Hfree; [done| |done]. intros [Hw|[_ Hw]]; [by cbn in Hw|]. cbn in Hw.
  unfold emptyRunQueue, emptyInbox in *. change (sched_state s0') with (sched_state s0) in *.
  destruct (spare_workers C =? NULL); cbn in Estart, Egive.
  - apply orb_false_iff in Estart as [E1 E2]. apply Z.ltb_ge in E1. destruct (run_queue C); [|done]. destruct Hw as [?|[_ ?]]; [done|]. lia.
  - rewrite andb_true_r in Egive. apply orb_false_iff in Egive as [[[[_ E1]%orb_false_iff E2]%orb_false_iff _]%orb_false_iff _].
    destruct (run_queue C); [|done]. destruct (inbox C); [|done]. naive_solver.
Qed.
End ops.
