(* ===== verification/TasksKeep.v ===== *)
(** * Every action keeps the invariant *)
From stdpp Require Import list gmap.
From S2P Require Import Prelude DList Tasks TasksInv TasksStep.
Local Open Scope Z_scope.

Ltac task_fields HI HT := destruct (inv_task _ _ _ _ HI _ _ HT); split; cbn -[spare]; try done.

(** ** Waiting *)
Lemma waitForReturnCapability_ok rq sw s me T cs c asked :
  Inv None rq sw s → tasks s !! me = Some T → os_thread T = Holding cs → (c < length (capabilities s))%nat →
  wp (when asked (upd_task me (set_cap (Some c)));; waitForReturnCapability me cs (if asked : bool then Some c else None) c)
    (λ _ s', Inv None rq sw s') s.
Proof.
  intros HI HT Hpc Hc. enough (wp (goto me (ReturnEnter cs c)) (λ _ s', Inv None rq sw s') (setT me (set_cap (Some c)) s)) as Hwp.
  { destruct asked; unfold waitForReturnCapability; cbn [when]; [wp_step|wp_step; wp_step; wp_step; eapply wp_upd_task; done].
    eapply wp_upd_task; [done|]. wp_step. eapply wp_get_task; [by rewrite setT_task, decide_True, HT|]. wp_step.
    apply wp_assert; [by apply bool_decide_eq_true|exact Hwp]. }
  unfold goto.
  eapply wp_upd_task; [by rewrite setT_task, decide_True, HT|]. rewrite setT_comp.
  eapply Inv_setT; [done..| |done| | |].
  - task_fields HI HT.
    + intros d Hd. apply tk_held. by rewrite Hpc.
    + by rewrite Hpc in tk_nodup.
    + intros d. rewrite tk_rq, Hpc. naive_solver.
    + intros d. rewrite tk_sw. unfold spare. cbn. rewrite Hpc. naive_solver.
    + intros _ _. apply tk_next; [|unfold spare]; by rewrite Hpc.
    + by rewrite Hpc in tk_cond.
    + intros Hs. apply tk_stopped in Hs. congruence.
  - intros d. by rewrite Hpc.
  - rewrite Hpc. done.
  - intros d C _ _ _ (Hw & _). by rewrite Hpc in Hw.
Qed.
Lemma yieldCapability_ok rq sw s me T c :
  Inv None rq sw s → tasks s !! me = Some T → os_thread T = Holding [c] → cap T = Some c →
  wp (yieldCapability me c) (λ _ s', Inv None rq sw s') s.
Proof.
  intros HI HT Hpc Hc. unfold yieldCapability, goto. wp_step. apply wp_get. cbv beta. destruct (pending_sync s =? SYNC_GC_PAR); [done|].
  wp_step. eapply wp_upd_task; [done|]. cbv beta.
  eapply wp_upd_task; [by rewrite setT_task, decide_True, HT|]. rewrite setT_comp.
  eapply Inv_setT; [done..| |done| | |].
  - task_fields HI HT.
    + intros d Hd. apply tk_held. by rewrite Hpc.
    + by rewrite Hpc in tk_nodup.
    + intros d. rewrite tk_rq, Hpc. naive_solver.
    + intros d. rewrite tk_sw. unfold spare. cbn. rewrite Hpc. naive_solver.
    + intros _ _. apply tk_next; [|unfold spare]; by rewrite Hpc.
    + rewrite Hpc in tk_cond. destruct (cond T); naive_solver.
    + intros Hs. apply tk_stopped in Hs. congruence.
  - intros d. by rewrite Hpc.
  - rewrite Hpc. done.
  - intros d C _ _ _ (Hw & _). by rewrite Hpc in Hw.
Qed.

(** The three states of a wait, for [waitForReturnCapability] and for
    [yieldCapability] *)
Definition wait_states (loop sleep : pc) (check : nat → pc) : Prop :=
  (∃ cs, loop = ReturnLoop cs ∧ sleep = ReturnSleep cs ∧ check = ReturnCheck cs) ∨
  (loop = YieldLoop ∧ sleep = YieldSleep ∧ check = YieldCheck).
Lemma woken_ok rq sw s me T loop sleep check :
  Inv None rq sw s → wait_states loop sleep check → tasks s !! me = Some T → os_thread T = loop ∨ os_thread T = sleep →
  ∃ c T', wp (woken me check) (λ _ s', Inv None rq sw s' ∧ s' = setT me (λ _, T') s) s ∧ cap T = Some c ∧
    T' = set_os_thread (check c) (set_wakeup false (set_cond Nobody T)).
Proof.
  intros HI Hst HT Hpc. assert (waiting (os_thread T) = true) as Hw.
  { destruct Hst as [(cs & -> & -> & _)|(-> & -> & _)], Hpc as [-> | ->]; done. }
  destruct (tk_cap _ _ _ _ _ (inv_task _ _ _ _ HI _ _ HT) Hw) as (c & Hc & Hlt).
  exists c. eexists. split; [|done]. unfold woken, goto.
  assert (∀ f, tasks (setT me f s) !! me = Some (f T)) as Hme by (intros f; by rewrite setT_task, decide_True, HT).
  wp_step. eapply wp_upd_task; [done|]. cbv beta. wp_step. eapply wp_get_task; [apply Hme|]. cbv beta.
  wp_step. eapply wp_deref; [exact Hc|]. cbv beta. wp_step. eapply wp_upd_task; [apply Hme|]. cbv beta. rewrite setT_comp.
  eapply wp_upd_task; [apply Hme|]. rewrite setT_comp. split; [|apply setT_ext; intros T1 HT1; rewrite HT in HT1; by injection HT1 as <-].
  assert (held (check c) = held (os_thread T) ∧ returning (check c) = returning (os_thread T) ∧ yielding (check c) = yielding (os_thread T) ∧
    waiting (check c) = true ∧ sleeping (check c) = false ∧ checks (check c) = Some c ∧ check c ≠ Exited ∧ os_thread T ≠ Exited) as (E1 & E2 & E3 & E4 & E5 & E6 & E7 & E8).
  { destruct Hst as [(cs & -> & -> & ->)|(-> & -> & ->)], Hpc as [-> | ->]; done. }
  eapply Inv_setT; [done..| |done| | |].
  - assert (spare (set_os_thread (check c) (set_wakeup false (set_cond Nobody T))) = spare T) as Esp.
    { unfold spare. cbn. by rewrite E3. }
    task_fields HI HT; rewrite ?Esp, ?E1, ?E2, ?E4, ?E5; try done.
    + by intros _; exists c.
    + destruct Hst as [(cs & _ & _ & ->)|(_ & _ & ->)]; done.
    + intros Hs. by apply tk_stopped in Hs.
  - intros d. cbn. by rewrite E1.
  - intros Hb. split; [done|]. intros d Hy Hd. right. cbn. by rewrite E3.
  - intros d C _ _ _ (_ & Hd & _). left. unfold baton_of. cbn. rewrite E4, E6. naive_solver.
Qed.
Lemma wait_wakeup_ok rq sw s me T loop sleep check :
  Inv None rq sw s → wait_states loop sleep check → tasks s !! me = Some T → os_thread T = loop →
  wp (wait_wakeup me sleep check) (λ _ s', Inv None rq sw s') s.
Proof.
  intros HI Hst HT Hpc. unfold wait_wakeup, goto. wp_step. eapply wp_get_task; [done|]. cbv beta.
  destruct (wakeup T) eqn:Hwk; cbn [negb].
  - destruct (woken_ok rq sw s me T loop sleep check) as (c & T' & Hwp & _); [done..|by left|]. eapply wp_mono; [exact Hwp|]. by intros _ s' [? _].
  - wp_step. eapply wp_upd_task; [done|]. cbv beta.
    eapply wp_upd_task; [by rewrite setT_task, decide_True, HT|]. rewrite setT_comp.
    assert (held sleep = held (os_thread T) ∧ returning sleep = returning (os_thread T) ∧ yielding sleep = yielding (os_thread T) ∧
      waiting sleep = waiting (os_thread T) ∧ sleeping sleep = true ∧ sleep ≠ Exited ∧ os_thread T ≠ Exited ∧ checks (os_thread T) = None) as (E1 & E2 & E3 & E4 & E5 & E6 & E7 & E8).
    { destruct Hst as [(cs & -> & -> & ->)|(-> & -> & ->)]; by rewrite Hpc. }
    eapply Inv_setT; [done..| |done| | |].
    + assert (spare (set_os_thread sleep (set_cond Waits T)) = spare T) as Esp. { unfold spare. cbn. by rewrite E3. }
      task_fields HI HT; rewrite ?Esp, ?E1, ?E2, ?E4, ?E5; try done.
      * destruct Hst as [(cs & _ & -> & _)|(_ & -> & _)]; done.
      * intros Hs. by apply tk_stopped in Hs.
    + intros d. cbn. by rewrite E1.
    + intros Hb. split; [done|]. intros d Hy Hd. right. cbn. by rewrite E3.
    + intros d C _ _ _ (_ & Hd & [?|?]); congruence.
Qed.

(** ** Taking a Capability *)
Lemma wp_ASSERT_FULL c me C T Q s : capabilities s !! c = Some C → running_task C = me → me ≠ NULL →
  tasks s !! me = Some T → cap T = Some c → Q tt s → wp (ASSERT_FULL c me) Q s.
Proof.
  intros HC Hr Hn HT Hc HQ. unfold ASSERT_FULL. wp_step. eapply wp_get_cap; [done|]. cbv beta. wp_step. apply wp_assert.
  { rewrite Hr. apply andb_true_intro. split; [by apply negb_true_iff, Z.eqb_neq|by apply Z.eqb_eq]. }
  wp_step. eapply wp_get_task; [done|]. cbv beta. apply wp_assert; [by apply bool_decide_eq_true|done].
Qed.
Lemma enter_ok rq sw s me T cs c :
  Inv None rq sw s → tasks s !! me = Some T → os_thread T = ReturnEnter cs c →
  wp (waitForReturnCapability_enter me cs c) (λ _ s', ∃ rq', Inv None rq' sw s') s.
Proof.
  intros HI HT Hpc. pose proof (inv_task _ _ _ _ HI _ _ HT) as Hok. pose proof (tk_at _ _ _ _ _ Hok) as Hat. rewrite Hpc in Hat.
  destruct Hat as [Hcap [C HC]%lookup_lt_is_Some]. pose proof (inv_cap _ _ _ _ HI _ _ HC) as Hck. pose proof (tk_null _ _ _ _ _ Hok) as Hnull.
  unfold waitForReturnCapability_enter, goto. wp_step. eapply wp_get_cap; [done|]. cbv beta.
  destruct (running_task C =? NULL) eqn:Er; [apply Z.eqb_eq in Er|apply Z.eqb_neq in Er].
  - wp_step. eapply wp_upd_cap; [done|]. cbv beta. wp_step. eapply wp_upd_task; [by rewrite tasks_setC|]. cbv beta.
    assert (setT me (set_os_thread (Holding (c :: cs))) (setC c (set_running me) s) = take me cs c s) as ->.
    { change (setC c (set_running me) (setT me (set_os_thread (Holding (c :: cs))) s) = take me cs c s). unfold take. f_equal.
      apply setT_ext. intros T1 HT1. rewrite HT in HT1. injection HT1 as <-. destruct T; cbn in *. by subst. }
    eapply wp_ASSERT_FULL; [unfold take; by rewrite setC_cap, decide_True, caps_setT, HC|done|done| | |].
    + unfold take. by rewrite tasks_setC, setT_task, decide_True, HT.
    + done.
    + exists rq. replace cs with (held (os_thread T)) by (by rewrite Hpc).
      apply (Inv_take None rq sw s me T c C); rewrite ?Hpc; try done; [by left|unfold spare; by rewrite Hpc].
  - unfold newReturningTask. wp_step. wp_step. eapply wp_get_task; [done|]. cbv beta. wp_step. apply wp_assert.
    { apply Z.eqb_eq. apply (tk_next _ _ _ _ _ Hok); [|unfold spare]; by rewrite Hpc. }
    wp_step. eapply wp_get_cap; [done|]. cbv beta.
    assert (Inv None (upd rq c (rq c ++ [me])) sw (enqueue me cs c C s)) as HI'.
    { eapply Inv_requeue; [done|by eapply enqueue_ok|by left]. }
    unfold enqueue in HI'. destruct (returning_tasks_hd C =? NULL) eqn:Eh; cbn [negb].
    + eapply wp_upd_cap; [done|]. cbv beta. eapply wp_upd_task; [by rewrite tasks_setC|]. eauto.
    + apply Z.eqb_neq in Eh. destruct (last_in_queue _ _ _ _ _ Hck Eh) as (l & L & Hl & _ & HL & HnL).
      assert (returning_tasks_tl C ≠ me) as Hne.
      { intros E. destruct (not_queued _ _ _ _ _ c Hok) as [Hq _]; [by rewrite Hpc|]. apply Hq. rewrite Hl, E. apply elem_of_app; right; by left. }
      wp_step. eapply wp_get_task; [done|]. cbv beta. wp_step. apply wp_assert; [by apply Z.eqb_eq|].
      wp_step. eapply wp_upd_task; [done|]. cbv beta. eapply wp_upd_cap; [done|].
      eapply wp_upd_task; [by rewrite tasks_setC, setT_task, decide_False|]. eauto.
Qed.

Lemma not_sleeping rq sw s t T : task_ok rq sw s t T → sleeping (os_thread T) = false → cond T = Nobody.
Proof. intros HT Hs. pose proof (tk_cond _ _ _ _ _ HT) as Hc. rewrite Hs in Hc. destruct (cond T); naive_solver. Qed.

(** [me] goes back to sleep. *)
Lemma back_ok rq sw s me T loop :
  Inv None rq sw s → tasks s !! me = Some T →
  match os_thread T with ReturnCheck cs c => loop = ReturnLoop cs | YieldCheck c => loop = YieldLoop | _ => False end →
  (∀ c C, checks (os_thread T) = Some c → cap T = Some c → capabilities s !! c = Some C →
     running_task C ≠ NULL ∨ ∃ t, t ≠ me ∧ baton s c t) →
  wp (goto me loop) (λ _ s', Inv None rq sw s') s.
Proof.
  intros HI HT Hpc Hb. unfold goto. eapply wp_upd_task; [done|].
  assert (held loop = held (os_thread T) ∧ returning loop = returning (os_thread T) ∧ yielding loop = yielding (os_thread T) ∧
    waiting loop = true ∧ waiting (os_thread T) = true ∧ sleeping loop = false ∧ sleeping (os_thread T) = false ∧ loop ≠ Exited ∧ os_thread T ≠ Exited) as (E1 & E2 & E3 & E4 & E4' & E5 & E6 & E7 & E8).
  { destruct (os_thread T); try done; by subst loop. }
  eapply Inv_setT; [done..| |done| | |].
  - assert (spare (set_os_thread loop T) = spare T) as Esp. { unfold spare. cbn. by rewrite E3. }
    task_fields HI HT; rewrite ?Esp, ?E1, ?E2, ?E4, ?E5; try done.
    + intros _. by apply tk_cap.
    + destruct (os_thread T); try done; by subst loop.
    + by rewrite E6 in tk_cond.
    + intros Hs. by apply tk_stopped in Hs.
  - intros d. cbn. by rewrite E1.
  - intros Hbd. split; [done|]. intros d Hy Hd. right. cbn. by rewrite E3.
  - intros d C HC Hr _ (_ & Hd & [Hw|Hc]); [left; split_and!; [done..|by left]|].
    destruct (Hb d C Hc Hd HC) as [?|Ht]; [done|by right].
Qed.
Lemma return_check_ok rq sw s me T cs c :
  Inv None rq sw s → tasks s !! me = Some T → os_thread T = ReturnCheck cs c →
  wp (waitForReturnCapability_check me cs c) (λ _ s', ∃ rq', Inv None rq' sw s') s.
Proof.
  intros HI HT Hpc. pose proof (inv_task _ _ _ _ HI _ _ HT) as Hok. pose proof (tk_at _ _ _ _ _ Hok) as Hcap. rewrite Hpc in Hcap.
  destruct (tk_cap _ _ _ _ _ Hok) as (c' & Hcap' & [C HC]%lookup_lt_is_Some); [by rewrite Hpc|].
  rewrite Hcap in Hcap'. injection Hcap' as <-. pose proof (inv_cap _ _ _ _ HI _ _ HC) as Hck.
  assert (me ∈ rq c) as Hq by (apply (tk_rq _ _ _ _ _ Hok); by rewrite Hpc).
  assert (cond T = Nobody) as Hcond by (eapply not_sleeping; [done|by rewrite Hpc]).
  unfold waitForReturnCapability_check. wp_step. eapply wp_get_cap; [done|]. cbv beta.
  destruct (running_task C =? NULL) eqn:Er; [apply Z.eqb_eq in Er|apply Z.eqb_neq in Er].
  2:{ eapply wp_mono; [eapply back_ok; [done..|by rewrite Hpc|]|by intros ? s' ?; exists rq].
      intros d D _ Hd HD. rewrite Hcap in Hd. injection Hd as <-. rewrite HC in HD. injection HD as <-. by left. }
  pose proof (ck_rq _ _ _ _ _ Hck) as Hl. destruct (rq c) as [|x l] eqn:Erq; [by apply elem_of_nil in Hq|]. destruct Hl as (Hx & _). subst x.
  set (hd := returning_tasks_hd C) in *.
  destruct (queue_tasks _ _ _ _ _ hd Hck) as [H HH]; [left; rewrite Erq; by left|].
  assert (hd ∈ rq c) as [Hr Hc]%(tk_rq _ _ _ _ _ (inv_task _ _ _ _ HI _ _ HH)) by (rewrite Erq; by left).
  assert (waiting (os_thread H) = true) as Hwt by (unfold waiting; by rewrite Hr).
  destruct (hd =? me) eqn:Eme; cbn [negb]; [apply Z.eqb_eq in Eme|apply Z.eqb_neq in Eme].
  - clear H HH Hr Hc Hwt. wp_step. eapply wp_upd_cap; [done|]. cbv beta. unfold popReturningTask, goto. wp_step. wp_step.
    eapply wp_get_cap; [by rewrite setC_cap, decide_True, HC|]. cbn [returning_tasks_hd returning_tasks_tl set_running]. fold hd. rewrite Eme.
    wp_step. apply wp_assert; [apply negb_true_iff, Z.eqb_neq, (tk_null _ _ _ _ _ Hok)|]. wp_step. eapply wp_get_task; [done|]. cbv beta.
    wp_step. eapply wp_upd_cap; [by rewrite setC_cap, decide_True, HC|]. cbv beta. wp_step. eapply wp_upd_task; [by rewrite !tasks_setC|]. cbv beta.
    wp_step. wp_step. eapply wp_upd_task; [by rewrite setT_task, decide_True, !tasks_setC, HT|]. cbv beta.
    match goal with |- wp _ _ ?x => assert (x = take me cs c (dequeue me cs c C T s)) as -> end.
    { rewrite setT_comp, setC_comp. unfold take, dequeue. rewrite setT_comp. change (setC c ?g (setT me ?f (setC c ?h s))) with (setT me f (setC c g (setC c h s))).
      rewrite setC_comp. apply setT_ext. intros T1 HT1. rewrite tasks_setC, HT in HT1. injection HT1 as <-. destruct T; cbn in *. by subst. }
    pose proof (dequeue_ok (Some c) rq sw s me T c C cs l (Inv_weaken _ _ _ _ HI) HT) as R. rewrite Hpc in R.
    specialize (R eq_refl eq_refl Hcond Hcap). rewrite Erq, Eme in R. specialize (R eq_refl HC).
    pose proof (Inv_requeue (Some c) _ _ _ _ _ _ _ _ _ _ _ _ (Inv_weaken _ _ _ _ HI) R (or_intror eq_refl)) as HI2.
    pose proof (re_task' _ _ _ _ _ _ _ _ _ _ _ _ R) as HT2. pose proof (re_caps _ _ _ _ _ _ _ _ _ _ _ _ R c) as HC2. rewrite decide_True in HC2 by done.
    pose proof (Inv_take _ _ _ _ _ _ c _ HI2 (or_intror eq_refl) HT2 HC2 Er eq_refl eq_refl eq_refl) as HI3.
    eapply wp_ASSERT_FULL; [unfold take; rewrite setC_cap, decide_True, caps_setT, HC2 by done; done|done|by apply Hok| | |].
    + unfold take. rewrite tasks_setC, setT_task, decide_True, HT2 by done. done.
    + done.
    + exists (upd rq c l). by apply HI3.
  - wp_step. eapply wp_give; [done|done|].
    assert (Inv None rq sw (setT hd wake s)) as HI1 by (eapply Inv_wake; [done|by left|done..]).
    eapply wp_mono; [eapply back_ok; [done|by rewrite setT_task, decide_False|by rewrite Hpc|]|by intros ? s' ?; exists rq].
    intros d D Hd _ _. rewrite Hpc in Hd. injection Hd as <-. right. exists hd. split; [done|]. exists (wake H).
    destruct (wake_fields H) as (F1 & F2 & _ & _ & _ & F6). rewrite setT_task, decide_True, HH by done. split_and!; [done|by rewrite F2|by rewrite F1|by left].
Qed.
Lemma yield_check_ok rq sw s me T c :
  Inv None rq sw s → tasks s !! me = Some T → os_thread T = YieldCheck c →
  wp (yieldCapability_check me c) (λ _ s', ∃ sw', Inv None rq sw' s') s.
Proof.
  intros HI HT Hpc. pose proof (inv_task _ _ _ _ HI _ _ HT) as Hok. pose proof (tk_at _ _ _ _ _ Hok) as Hlt. rewrite Hpc in Hlt.
  apply lookup_lt_is_Some in Hlt as [C HC]. pose proof (inv_cap _ _ _ _ HI _ _ HC) as Hck.
  assert (cond T = Nobody) as Hcond by (eapply not_sleeping; [done|by rewrite Hpc]).
  assert (∀ (P : Prop), (cap T = Some c → running_task C ≠ NULL ∨ ∃ t, t ≠ me ∧ baton s c t) → 
    wp (goto me YieldLoop) (λ _ s', ∃ sw', Inv None rq sw' s') s) as Hback.
  { intros _ Hb. eapply wp_mono; [eapply back_ok; [done..|by rewrite Hpc|]|by intros ? s' ?; exists sw].
    intros d D Hd Hd' HD. rewrite Hpc in Hd. injection Hd as <-. rewrite HC in HD. injection HD as <-. by apply Hb. }
  unfold yieldCapability_check. wp_step. eapply wp_get_cap; [done|]. cbv beta. wp_step. eapply wp_get_task; [done|]. cbv beta.
  destruct (running_task C =? NULL) eqn:Er; cbn [negb]; [apply Z.eqb_eq in Er|apply Z.eqb_neq in Er; apply (Hback True); by left].
  case_bool_decide as Hcap; cbn [negb]; [|apply (Hback True); done].
  assert (take me [] c s = setT me (set_os_thread (Holding [c])) (setC c (set_running me) s)) as Htake.
  { change (setT me ?f (setC c ?g s)) with (setC c g (setT me f s)). unfold take. f_equal.
    apply setT_ext. intros T1 HT1. rewrite HT in HT1. injection HT1 as <-. destruct T; cbn in *. by subst. }
  destruct (incall_tso T =? NULL) eqn:Eb.
  - assert (spare T = true) as Hsp by (unfold spare, isBoundTask; by rewrite Hpc, Eb).
    assert (me ∈ sw c) as Hq by (by apply (tk_sw _ _ _ _ _ Hok)).
    pose proof (ck_sw _ _ _ _ _ Hck) as Hl. pose proof (sw_hd _ _ _ _ _ Hck) as Hhd.
    destruct (sw c) as [|x l] eqn:Esw; [by apply elem_of_nil in Hq|]. destruct Hl as (Hx & _). subst x.
    wp_step. apply wp_assert; [apply negb_true_iff, Z.eqb_neq; intros E%Hhd; done|].
    destruct (spare_workers C =? me) eqn:Eme; cbn [negb]; [apply Z.eqb_eq in Eme|apply Z.eqb_neq in Eme].
    + wp_step. eapply wp_upd_cap; [done|]. cbv beta. wp_step. eapply wp_upd_task; [by rewrite tasks_setC|]. cbv beta.
      wp_step. eapply wp_upd_cap; [by rewrite caps_setT, setC_cap, decide_True, HC|]. cbv beta. unfold goto. wp_step.
      eapply wp_upd_task; [by rewrite tasks_setC, setT_task, decide_True, tasks_setC, HT|]. cbv beta.
      match goal with |- wp _ _ ?x => assert (x = take me [] c (leave_spare me c C T s)) as -> end.
      { change (setT me ?f (setC c ?g (setT me ?f2 (setC c ?g2 s)))) with (setC c g (setT me f (setT me f2 (setC c g2 s)))).
        unfold take, leave_spare. f_equal. rewrite !setT_comp. apply setT_ext. intros T1 HT1. rewrite tasks_setC, HT in HT1. injection HT1 as <-. destruct T; cbn in *. by subst. }
      pose proof (leave_spare_ok (Some c) rq sw s me T c C l (Inv_weaken _ _ _ _ HI) HT Hsp Hcond Hcap) as R.
      rewrite Esw, Eme in R. specialize (R eq_refl HC).
      pose proof (Inv_requeue (Some c) _ _ _ _ _ _ _ _ _ _ _ _ (Inv_weaken _ _ _ _ HI) R (or_intror eq_refl)) as HI2.
      pose proof (re_task' _ _ _ _ _ _ _ _ _ _ _ _ R) as HT2. pose proof (re_caps _ _ _ _ _ _ _ _ _ _ _ _ R c) as HC2. rewrite decide_True in HC2 by done.
      pose proof (Inv_take _ _ _ _ _ _ c _ HI2 (or_intror eq_refl) HT2 HC2 Er eq_refl eq_refl eq_refl) as HI3.
      eapply wp_ASSERT_FULL; [unfold take; rewrite setC_cap, decide_True, caps_setT, HC2 by done; done|done|by apply Hok| | |].
      * unfold take. rewrite tasks_setC, setT_task, decide_True, HT2 by done. done.
      * done.
      * exists (upd sw c l). by apply HI3.
    + set (w := spare_workers C) in *. destruct (queue_tasks _ _ _ _ _ w Hck) as [W HW]; [right; rewrite Esw; by left|].
      assert (w ∈ sw c) as [Hs Hc]%(tk_sw _ _ _ _ _ (inv_task _ _ _ _ HI _ _ HW)) by (rewrite Esw; by left).
      assert (waiting (os_thread W) = true) as Hwt. { unfold spare in Hs. apply andb_prop in Hs as [Hy _]. unfold waiting. by rewrite Hy, orb_true_r. }
      wp_step. eapply wp_give; [done|done|].
      assert (Inv None rq sw (setT w wake s)) as HI1 by (eapply Inv_wake; [done|by left|done..]).
      eapply wp_mono; [eapply back_ok; [done|by rewrite setT_task, decide_False|by rewrite Hpc|]|by intros ? s' ?; exists sw].
      intros d D Hd _ _. rewrite Hpc in Hd. injection Hd as <-. right. exists w. split; [done|]. exists (wake W).
      destruct (wake_fields W) as (F1 & F2 & _ & _ & _ & F6). rewrite setT_task, decide_True, HW by done. split_and!; [done|by rewrite F2|by rewrite F1|by left].
  - wp_step. eapply wp_upd_cap; [done|]. cbv beta. unfold goto. wp_step. eapply wp_upd_task; [by rewrite tasks_setC|]. cbv beta. rewrite <- Htake.
    assert (spare T = false) as Hsp by (unfold spare, isBoundTask; by rewrite Eb, andb_false_r).
    eapply wp_ASSERT_FULL; [unfold take; by rewrite setC_cap, decide_True, caps_setT, HC|done|by apply Hok| | |].
    + unfold take. by rewrite tasks_setC, setT_task, decide_True, HT.
    + done.
    + exists sw. replace [] with (held (os_thread T)) by (by rewrite Hpc).
      apply (Inv_take None rq sw s me T c C); rewrite ?Hpc; try done; [by left|]. congruence.
Qed.

(** ** Letting go *)
Section release.
Context (malloc : gset ptr → ptr) (no_thread : gset ptr → bool).
Hypothesis malloc_fresh : ∀ X, (malloc X ∉ X) ∧ malloc X ≠ NULL.

(** The invariant holds, for some queues. *)
Definition good (s : rts) : Prop := ∃ rq sw, Inv None rq sw s.

Lemma wake_os_thread p T : wake (set_os_thread p T) = set_os_thread p (wake T).
Proof. unfold wake. cbn. by destruct (wakeup T). Qed.
(** [releaseCapability_], followed by what [me] does to its own task *)
Lemma release_then {A} rq sw me c aw s0 C T0 f (m : prog rts A) :
  capabilities s0 !! c = Some C → running_task C = me → tasks s0 !! me = Some T0 →
  (waiting (os_thread (f T0)) = true → cap (f T0) = cap T0 ∧ ∀ T, wake (f T) = f (wake T)) →
  Inv (Some c) rq sw (after_release me f c s0) →
  (∀ s1 T1, tasks s1 !! me = Some T1 → wp m (λ _ s', s' = setT me f s1) s1) →
  wpb (releaseCapability_ malloc no_thread me c aw;; m) (λ _ s', good s') s0.
Proof.
  intros HC Hr HT0 Hf HI Hm. apply wpb_bind. eapply wpb_mono; [by eapply release_ok|].
  intros [] s1 [HT1 HI1]. cbn. apply wpb_wp.
  assert (∃ T1, tasks s1 !! me = Some T1) as [T1 HT1'] by (destruct HT1; eauto).
  eapply wp_mono; [by eapply Hm|]. intros ? s' ->. by exists rq, sw.
Qed.
Lemma not_own rq sw b s c C me T : Inv b rq sw s → capabilities s !! c = Some C → tasks s !! me = Some T →
  isBoundTask T = false → ∀ th, th ∈ run_queue C → bound th ≠ me.
Proof.
  intros HI HC HT Hb th Hth E. pose proof (inv_task _ _ _ _ HI _ _ HT) as Hok.
  destruct (ck_bound _ _ _ _ _ (inv_cap _ _ _ _ HI _ _ HC) th Hth) as (B & HB & Hi & _).
  - rewrite E. by apply Hok.
  - rewrite E, HT in HB. injection HB as <-. congruence.
Qed.

Lemma queue_worker_ok rq sw s me T c :
  Inv None rq sw s → tasks s !! me = Some T → os_thread T = YieldRelease c →
  wpb (releaseCapabilityAndQueueWorker malloc no_thread me c) (λ _ s', good s') s.
Proof.
  intros HI HT Hpc. pose proof (inv_task _ _ _ _ HI _ _ HT) as Hok. pose proof (tk_at _ _ _ _ _ Hok) as Hcap. rewrite Hpc in Hcap.
  assert (c ∈ held (os_thread T)) as Hh by (rewrite Hpc; by left).
  pose proof (tk_held _ _ _ _ _ Hok _ Hh) as Hrun. unfold running in Hrun.
  destruct (capabilities s !! c) as [C|] eqn:HC; [|done]. injection Hrun as Hrun.
  assert (stopped T = false) as Hst. { destruct (stopped T) eqn:E; [|done]. apply (tk_stopped _ _ _ _ _ Hok) in E. congruence. }
  assert (cond T = Nobody) as Hcond by (eapply not_sleeping; [done|by rewrite Hpc]).
  assert (filter (λ d, d ≠ c) (held (os_thread T)) = []) as Hf by (rewrite Hpc; cbn [held]; by rewrite filter_cons, decide_False by naive_solver).
  unfold releaseCapabilityAndQueueWorker. apply wpb_bind_wp. eapply wp_get_cap; [done|]. cbv beta zeta. rewrite Hrun.
  apply wpb_bind_wp. eapply wp_get_task; [done|]. cbv beta. apply wpb_bind_wp. apply wp_assert; [by rewrite Hst|]. cbv beta.
  destruct (isBoundTask T) eqn:Eb; cbn [negb].
  - eapply (release_then rq sw me c false s C T (set_os_thread YieldLoop)); [done..| | |].
    + intros _. split; [done|]. intros; apply wake_os_thread.
    + change (after_release me (set_os_thread YieldLoop) c s) with (let_go me (set_os_thread YieldLoop) c s).
      eapply Inv_let_go; [done..|by rewrite Hpc| |by left]. unfold left_behind, spare. cbn. rewrite Hf, Hst. by rewrite andb_true_iff || (unfold isBoundTask in *; cbn; rewrite Eb; done).
    + intros s1 T1 HT1. by eapply wp_upd_task.
  - assert (Inv (Some c) rq sw (let_go me (set_os_thread (Holding [])) c s)) as HI1.
    { eapply Inv_let_go; [done..|by rewrite Hpc| |right; by eapply not_own]. unfold left_behind, spare. cbn. by rewrite Hf, Hst. }
    destruct (n_spare_workers C <? MAX_SPARE_WORKERS) eqn:En.
    + apply Z.ltb_lt in En. apply wpb_bind_wp. eapply wp_upd_task; [done|]. cbv beta. apply wpb_bind_wp. eapply wp_upd_cap; [done|]. cbv beta.
      eapply (release_then rq (upd sw c (me :: sw c)) me c false _ (set_spare me (n_spare_workers C + 1) C) (set_next (spare_workers C) T) (set_os_thread YieldLoop)).
      * rewrite setC_cap, decide_True, caps_setT, HC by done. done.
      * done.
      * by rewrite tasks_setC, setT_task, decide_True, HT.
      * intros _. split; [done|]. intros; apply wake_os_thread.
      * assert (after_release me (set_os_thread YieldLoop) c (setC c (set_spare me (n_spare_workers C + 1)) (setT me (set_next (spare_workers C)) s)) =
          join_spare me c (set_running NULL C) (let_go me (set_os_thread (Holding [])) c s)) as ->.
        { unfold after_release, join_spare, let_go.
          change (setT me ?f (setC c ?g (setC c ?h (setT me ?f' s)))) with (setC c g (setC c h (setT me f (setT me f' s)))). rewrite setC_comp.
          change (setT me ?f (setC c ?g (setC c ?h (setT me ?f' s)))) with (setC c g (setC c h (setT me f (setT me f' s)))). rewrite setC_comp.
          rewrite !setT_comp. done. }
        eapply (Inv_requeue (Some c)); [exact HI1| |by right].
        eapply (join_spare_ok (Some c) rq sw _ me (set_os_thread (Holding []) T)); [exact HI1| |done|done|done| |done|done].
        -- unfold let_go. by rewrite tasks_setC, setT_task, decide_True, HT.
        -- unfold let_go. by rewrite setC_cap, decide_True, caps_setT, HC.
      * intros s1 T1 HT1. by eapply wp_upd_task.
    + eapply (release_then rq sw me c false s C T (set_os_thread Exited ∘ set_stopped true ∘ set_cap None)); [done..| |].
      * change (after_release me ?f c s) with (let_go me f c s). eapply Inv_let_go; [done..|by rewrite Hpc| |right; exact (not_own _ _ _ _ _ _ _ _ HI HC HT Eb)].
        unfold left_behind, spare. cbn. by rewrite Hf.
      * intros s1 T1 HT1. unfold workerTaskStop, goto. wp_step. wp_step. eapply wp_upd_task; [done|]. cbv beta.
        eapply wp_upd_task; [by rewrite setT_task, decide_True, HT1|]. cbv beta. eapply wp_upd_task; [by rewrite !setT_task, !decide_True, HT1|].
        by rewrite !setT_comp.
Qed.

Lemma release_held_ok rq sw s me T c C aw f (A : Type) (m : prog rts A) :
  Inv None rq sw s → tasks s !! me = Some T → (∃ cs, os_thread T = Holding cs) → c ∈ held (os_thread T) → capabilities s !! c = Some C →
  (∀ th, th ∈ run_queue C → bound th ≠ me) → left_behind T (f T) c → waiting (os_thread (f T)) = false →
  (∀ s1 T1, tasks s1 !! me = Some T1 → wp m (λ _ s', s' = setT me f s1) s1) →
  wpb (releaseCapability_ malloc no_thread me c aw;; m) (λ _ s', good s') s.
Proof.
  intros HI HT [cs Hpc] Hh HC Hown Hl Hw Hm. pose proof (held_run _ _ _ _ _ _ _ _ HI HC HT Hh) as Hrun.
  eapply (release_then rq sw me c aw s C T f); [done..| | |done].
  - rewrite Hw. done.
  - change (after_release me f c s) with (let_go me f c s). eapply Inv_let_go; [done..|by rewrite Hpc|done|by right].
Qed.

(** A change of a Capability outside its queues *)
Lemma Inv_setC b rq sw s c C f :
  Inv b rq sw s → capabilities s !! c = Some C →
  returning_tasks_hd (f C) = returning_tasks_hd C → returning_tasks_tl (f C) = returning_tasks_tl C →
  spare_workers (f C) = spare_workers C → n_spare_workers (f C) = n_spare_workers C → running_task (f C) = running_task C →
  (∀ th, th ∈ run_queue (f C) → bound th ≠ NULL → bound_ok s c (bound th)) → NoDup (bound_tasks (run_queue (f C))) →
  (running_task C ≠ NULL ∨ (wants s (f C) → wants s C) ∨ b = Some c) →
  Inv b rq sw (setC c f s).
Proof.
  intros [H1 H2 H3 H4] HC E1 E2 E3 E4 E5 Hq Hnd Hb.
  assert (∀ d, running (setC c f s) d = running s d) as Hrun.
  { intros d. rewrite running_setC. destruct (decide (c = d)) as [<-|]; [|done]. unfold running. rewrite HC. cbn. by rewrite E5. }
  split.
  - intros t T HT. eapply task_ok_frame; [by apply H1| |done|done|apply setC_length]. intros d. by rewrite Hrun.
  - intros d D. rewrite setC_cap. destruct (decide (c = d)) as [<-|].
    + rewrite HC. intros [= <-]. destruct (H2 _ _ HC). split; rewrite ?E1, ?E2, ?E3, ?E4, ?E5; done.
    + intros HD. by destruct (H2 _ _ HD).
  - intros d D. rewrite setC_cap. destruct (decide (c = d)) as [<-|]; [|by apply H3].
    rewrite HC. intros [= <-] Hbd Hr Hw. rewrite E5 in Hr. apply (H3 c C); [done..|]. destruct Hb as [?|[Hb|?]]; [done| |done]. by apply Hb.
  - intros d Hd. apply H4. apply lookup_ge_None in Hd. rewrite setC_length in Hd. by apply lookup_ge_None.
Qed.

(** A task that nobody waits for is made to hold a free Capability and lets go
    of it at once. *)
Lemma after_release_taken me c C T s :
  tasks s !! me = Some T → capabilities s !! c = Some C → running_task C = NULL →
  after_release me id c (setC c (set_running me) s) = s.
Proof.
  intros HT HC Hr. unfold after_release. rewrite (setT_id _ _ _ T) by done. rewrite setC_comp. unfold setC, set_capabilities. destruct s; cbn in *. f_equal.
  apply list_eq. intros d. destruct (decide (c = d)) as [<-|]; [|by rewrite list_lookup_alter_ne].
  rewrite list_lookup_alter_eq, HC. cbn. f_equal. destruct C; cbn in *. by subst.
Qed.
Lemma release_taken_ok rq sw s me T c C aw :
  Inv (Some c) rq sw s → tasks s !! me = Some T → capabilities s !! c = Some C → running_task C = NULL →
  wpb (releaseCapability_ malloc no_thread me c aw) (λ _ s', good s') (setC c (set_running me) s).
Proof.
  intros HI HT HC Hr. eapply wpb_mono.
  - eapply (release_ok malloc no_thread malloc_fresh rq sw me c aw _ (set_running me C) T id); [|done|done|done|].
    + by rewrite setC_cap, decide_True, HC.
    + by rewrite (after_release_taken me c C T).
  - intros [] s' [[HT'|HT'] HI']; (rewrite (setT_id me id s' _ HT') in HI'; [by exists rq, sw|done]).
Qed.
Lemma prodCapability_ok s me T c C :
  good s → tasks s !! me = Some T → capabilities s !! c = Some C →
  wpb (prodCapability malloc no_thread me c) (λ _ s', good s') s.
Proof.
  intros (rq & sw & HI) HT HC. unfold prodCapability. apply wpb_bind_wp. eapply wp_get_cap; [done|]. cbv beta.
  destruct (running_task C =? NULL) eqn:Er; cbn [when]; [apply Z.eqb_eq in Er|apply wpb_wp, wp_ret; by exists rq, sw].
  apply wpb_bind_wp. eapply wp_upd_cap; [done|]. eapply release_taken_ok; [by apply Inv_weaken|done..].
Qed.
Lemma sendMessage_ok s me T c C msg :
  good s → tasks s !! me = Some T → capabilities s !! c = Some C →
  wpb (sendMessage malloc no_thread me c msg) (λ _ s', good s') s.
Proof.
  intros (rq & sw & HI) HT HC. unfold sendMessage. apply wpb_bind_wp. eapply wp_get_cap; [done|]. cbv beta.
  pose proof (inv_cap _ _ _ _ HI _ _ HC) as Hck.
  apply wpb_bind_wp. eapply wp_upd_cap; [done|]. cbv beta.
  destruct (running_task C =? NULL) eqn:Er; cbn [when]; [apply Z.eqb_eq in Er|apply Z.eqb_neq in Er].
  - apply wpb_bind_wp. eapply wp_upd_cap; [by rewrite setC_cap, decide_True, HC|]. cbv beta.
    eapply (release_taken_ok rq sw _ me T c (set_inbox (msg :: inbox C) C)); [|done|by rewrite setC_cap, decide_True, HC|done].
    eapply Inv_setC; [by apply Inv_weaken|done..|by apply Hck|by apply Hck|by right; right].
  - apply wpb_wp, wp_ret. exists rq, sw. eapply Inv_setC; [done..|by apply Hck|by apply Hck|by left].
Qed.
End release.
