(* ===== verification/TasksActs.v ===== *)
(** * Every action keeps the invariant, and none fails *)
From stdpp Require Import list gmap.
From S2P Require Import Prelude DList Tasks TasksInv TasksStep TasksKeep.
Local Open Scope Z_scope.

(** ** Changes outside the tasks and the Capabilities *)
Lemma Inv_globals rq sw s s' :
  capabilities s' = capabilities s → tasks s' = tasks s →
  (∀ c C, capabilities s !! c = Some C → running_task C = NULL → wants s' C → wants s C) →
  Inv None rq sw s → Inv None rq sw s'.
Proof.
  intros E1 E2 Hw [H1 H2 H3 H4].
  assert (∀ c b, bound_ok s c b → bound_ok s' c b) as Hb by (intros c b; unfold bound_ok; by rewrite E2).
  split.
  - intros t T. rewrite E2. intros HT. eapply task_ok_frame; [by apply H1| |done|done|by rewrite E1].
    intros c. unfold running. by rewrite E1.
  - intros c C. rewrite E1. intros HC. eapply cap_ok_frame; [by apply H2|done..| | |].
    + intros t _. unfold nx. by rewrite E2.
    + intros th _ _. apply Hb.
    + rewrite E2. by apply (ck_run _ _ _ _ _ (H2 _ _ HC)).
  - intros c C. rewrite E1. intros HC Hn Hr Hwt. destruct (H3 c C HC Hn Hr) as [t Ht]; [by eapply Hw|].
    exists t. unfold baton. by rewrite E2.
  - intros c. rewrite E1. apply H4.
Qed.

(** ** Steps of a task that runs *)

(** What a running task may change of itself *)
Lemma Inv_holding rq sw s me T cs f :
  Inv None rq sw s → tasks s !! me = Some T → os_thread T = Holding cs →
  os_thread (f T) = Holding cs → next (f T) = next T → cond (f T) = cond T → stopped (f T) = stopped T →
  (isBoundTask T = true → isBoundTask (f T) = true ∨
     ∀ c C th, capabilities s !! c = Some C → th ∈ run_queue C → bound th ≠ me) →
  Inv None rq sw (setT me f s).
Proof.
  intros HI HT Hpc E1 E2 E3 E4 Hb. eapply Inv_setT_gen; [done..| |done| | |].
  - destruct (inv_task _ _ _ _ HI _ _ HT). split; rewrite ?E1, ?E2, ?E3, ?E4 in *; rewrite ?Hpc in *; try done.
    + intros d. rewrite tk_rq. naive_solver.
    + intros d. rewrite tk_sw. unfold spare. rewrite E1, Hpc. naive_solver.
    + intros _ _. apply tk_next; [done|]. unfold spare. by rewrite Hpc.
    + destruct (cond T); naive_solver.
  - intros d. by rewrite Hpc, E1.
  - intros c C th HC Hth _ Hbo. destruct (decide (bound th = me)) as [E|Hne].
    + apply bound_ok_setT; [done|]. intros T0 HT0 Hi Hc. rewrite HT in HT0. injection HT0 as <-.
      rewrite E1. rewrite Hpc in Hc. destruct (Hb Hi) as [?|Hno]; [naive_solver|]. by destruct (Hno c C th HC Hth).
    + destruct Hbo as (B & HB & ?). exists B. by rewrite setT_task, decide_False.
  - intros d C _ _ _ (Hw & _). by rewrite Hpc in Hw.
Qed.
Lemma take_holding me cs c s T : tasks s !! me = Some T →
  setT me (set_os_thread (Holding (c :: cs))) (setC c (set_running me) (setT me (set_cap (Some c)) s)) = take me cs c s.
Proof.
  intros HT. change (setT me ?f (setC c ?g (setT me ?h s))) with (setC c g (setT me f (setT me h s))).
  unfold take. by rewrite setT_comp.
Qed.
Lemma Inv_take_holding rq sw s me T cs c C :
  Inv None rq sw s → tasks s !! me = Some T → os_thread T = Holding cs → capabilities s !! c = Some C → running_task C = NULL →
  Inv None rq sw (take me cs c s).
Proof.
  intros HI HT Hpc HC Hr. replace cs with (held (os_thread T)) by (by rewrite Hpc).
  apply (Inv_take None rq sw s me T c C); rewrite ?Hpc; try done; [by left|]. unfold spare. by rewrite Hpc.
Qed.
Lemma tryGrabCapability_ok s me T cs c C :
  good s → tasks s !! me = Some T → os_thread T = Holding cs → capabilities s !! c = Some C →
  wp (tryGrabCapability me cs c) (λ _ s', good s') s.
Proof.
  intros (rq & sw & HI) HT Hpc HC. unfold tryGrabCapability, goto. wp_step. eapply wp_get_cap; [done|]. cbv beta.
  destruct (running_task C =? NULL) eqn:Er; cbn [negb]; [apply Z.eqb_eq in Er|apply wp_ret; by exists rq, sw].
  wp_step. eapply wp_upd_task; [done|]. cbv beta. wp_step. eapply wp_upd_cap; [done|]. cbv beta.
  wp_step. eapply wp_upd_task; [by rewrite tasks_setC, setT_task, decide_True, HT|]. cbv beta. apply wp_ret.
  rewrite (take_holding _ _ _ _ T) by done. exists rq, sw. by eapply Inv_take_holding.
Qed.
(** ** What the holder of a Capability does with it *)
Lemma holder_runs rq sw s me T cs c :
  Inv None rq sw s → tasks s !! me = Some T → os_thread T = Holding cs → c ∈ cs →
  ∃ C, capabilities s !! c = Some C ∧ running_task C = me ∧ running_task C ≠ NULL.
Proof.
  intros HI HT Hpc Hc. pose proof (inv_task _ _ _ _ HI _ _ HT) as Hok.
  assert (running s c = Some me) as Hr by (apply (tk_held _ _ _ _ _ Hok); by rewrite Hpc).
  unfold running in Hr. destruct (capabilities s !! c) as [C|]; [|done]. injection Hr as Hr. exists C.
  split_and!; [done..|]. rewrite Hr. by apply Hok.
Qed.
Lemma bound_tasks_delete q i th : q !! i = Some th → NoDup (bound_tasks q) →
  NoDup (bound_tasks (delete i q)) ∧ (bound th ∉ bound_tasks (delete i q)).
Proof.
  intros Hi. rewrite delete_take_drop. pose proof (take_drop_middle q i th Hi) as E.
  set (l1 := firstn i q) in *. set (l2 := drop (S i) q) in *. clearbody l1 l2. subst q.
  unfold bound_tasks. rewrite !fmap_app, fmap_cons, !filter_app, filter_cons. destruct (decide (bound th ≠ NULL)) as [Hb|Hb].
  - intros (H1 & H2 & [H3 H4]%NoDup_cons)%NoDup_app. rewrite NoDup_app, elem_of_app. split; [|intros [Hx|Hx]].
    + split_and!; [done| |done]. intros x Hx Hx'. apply (H2 x Hx). by right.
    + apply (H2 _ Hx). by left.
    + done.
  - intros Hn. split; [done|]. rewrite <- filter_app, list_elem_of_filter. naive_solver.
Qed.
Lemma elem_of_bound_tasks b q : b ≠ NULL → b ∈ bound_tasks q ↔ ∃ th, th ∈ q ∧ bound th = b.
Proof.
  intros Hb. unfold bound_tasks. rewrite list_elem_of_filter, list_elem_of_fmap. naive_solver.
Qed.
Lemma bound_tasks_snoc q th : NoDup (bound_tasks q) → (bound th ≠ NULL → bound th ∉ bound_tasks q) → NoDup (bound_tasks (q ++ [th])).
Proof.
  intros Hq Hth. unfold bound_tasks. rewrite fmap_app, filter_app. apply NoDup_app. split_and!; [done| |apply NoDup_filter, NoDup_singleton].
  intros b Hb [Hn Hx]%list_elem_of_filter. apply list_elem_of_singleton in Hx as ->. by apply Hth.
Qed.
Lemma scheduleWaitThread_ok s me T cs c C tso :
  good s → tasks s !! me = Some T → os_thread T = Holding cs → isBoundTask T = false → capabilities s !! c = Some C → c ∈ cs →
  tso ≠ NULL → wp (scheduleWaitThread me c tso) (λ _ s', good s') s.
Proof.
  intros (rq & sw & HI) HT Hpc Hub HC Hc Htso. unfold scheduleWaitThread. wp_step. eapply wp_upd_task; [done|]. cbv beta.
  assert (Inv None rq sw (setT me (set_incall_tso tso) s)) as HI1 by (by eapply Inv_holding; [..|rewrite Hub]).
  assert (c ∈ held (os_thread T)) as Hh by by rewrite Hpc.
  pose proof (held_run _ _ _ _ _ _ _ _ HI HC HT Hh) as Hrun.
  eapply wp_upd_cap; [done|]. exists rq, sw. pose proof (inv_cap _ _ _ _ HI1 _ _ HC) as Hck.
  eapply Inv_setC; [exact HI1|exact HC|done..| | |].
  - intros th [Hth| ->%list_elem_of_singleton]%elem_of_app Hb; [by apply Hck|]. cbn. eexists.
    rewrite setT_task, decide_True, HT by done. split; [done|]. split; [|by left].
    unfold isBoundTask. cbn. by apply negb_true_iff, Z.eqb_neq.
  - apply bound_tasks_snoc; [by apply Hck|]. intros Hb (th & Hth & E)%elem_of_bound_tasks; [|done].
    by apply (not_own _ _ _ _ _ _ _ _ HI HC HT Hub th).
  - left. rewrite Hrun. by apply (inv_task _ _ _ _ HI _ _ HT).
Qed.

(** The task of a thread that is pushed to another Capability. *)
Lemma Inv_move_bound rq sw s b B c c' :
  Inv None rq sw s → tasks s !! b = Some B → yielding (os_thread B) = true → isBoundTask B = true → cap B = Some c →
  (∀ C, capabilities s !! c = Some C → running_task C ≠ NULL ∧ ∀ th, th ∈ run_queue C → bound th ≠ b) →
  (c' < length (capabilities s))%nat →
  Inv None rq sw (setT b (set_cap (Some c')) s).
Proof.
  intros HI HB Hy Hbd Hcap HC Hc'.
  assert (returning (os_thread B) = false ∧ held (os_thread B) = []) as [Hr Hh] by by destruct (os_thread B).
  assert (spare (set_cap (Some c') B) = false ∧ spare B = false) as [Hs Hs'] by (unfold spare, isBoundTask in *; cbn; by rewrite Hbd, andb_false_r).
  eapply Inv_setT_gen; [done..| |done|done| |].
  - task_fields HI HB.
    + intros d. rewrite tk_rq, Hr. naive_solver.
    + intros d. rewrite tk_sw, Hs, Hs'. naive_solver.
    + intros _. by exists c'.
    + destruct (os_thread B); done.
  - intros d D th HD Hth _ (B1 & HB1 & Hi & Hor). exists B1.
    assert (b ≠ bound th) as Hne; [intros ->|by rewrite setT_task, decide_False].
    rewrite HB in HB1. injection HB1 as <-. rewrite Hh in Hor. destruct Hor as [Hx|[_ Hx]]; [by apply elem_of_nil in Hx|].
    rewrite Hcap in Hx. injection Hx as <-. by destruct (HC _ HD) as [_ Hx]; apply (Hx th).
  - intros d D HD Hrun _ (_ & Hx & _). rewrite Hcap in Hx. injection Hx as <-. by destruct (HC _ HD).
Qed.
Lemma set_run_queue_ok rq sw s me T cs c q :
  Inv None rq sw s → tasks s !! me = Some T → os_thread T = Holding cs → c ∈ cs →
  (∀ th, th ∈ q → bound th ≠ NULL → bound_ok s c (bound th)) → NoDup (bound_tasks q) →
  Inv None rq sw (setC c (set_run_queue q) s).
Proof.
  intros HI HT Hpc Hc Hq Hnd. destruct (holder_runs _ _ _ _ _ _ _ HI HT Hpc Hc) as (C & HC & _ & Hr).
  eapply Inv_setC; [done..|by left].
Qed.
Lemma push_thread_ok s me T cs c c' i C th :
  good s → tasks s !! me = Some T → os_thread T = Holding cs → c ∈ cs → c' ∈ cs → c ≠ c' →
  capabilities s !! c = Some C → run_queue C !! i = Some th → bound th ≠ me →
  wp (push_thread c c' i) (λ _ s', good s') s.
Proof.
  intros (rq & sw & HI) HT Hpc Hc Hc' Hne HC Hi Hb.
  destruct (holder_runs _ _ _ _ _ _ _ HI HT Hpc Hc') as (C' & HC' & Hr' & Hn').
  destruct (holder_runs _ _ _ _ _ _ _ HI HT Hpc Hc) as (C0 & HC0 & Hr & Hn). rewrite HC in HC0. injection HC0 as <-.
  pose proof (inv_cap _ _ _ _ HI _ _ HC) as Hck. pose proof (inv_cap _ _ _ _ HI _ _ HC') as Hck'.
  assert (th ∈ run_queue C) as Hth by by eapply list_elem_of_lookup_2.
  unfold push_thread. wp_step. eapply wp_get_cap; [done|]. cbv beta. wp_step. eapply wp_deref; [done|]. cbv beta.
  wp_step. eapply wp_upd_cap; [done|]. cbv beta.
  assert (∀ x, x ∈ delete i (run_queue C) → x ∈ run_queue C) as Hsub by (intros x Hx; by eapply elem_of_submseteq, submseteq_delete).
  destruct (bound_tasks_delete _ _ _ Hi (ck_nodup _ _ _ _ _ Hck)) as [Hnd Hnin].
  set (s1 := setC c (set_run_queue (delete i (run_queue C))) s).
  assert (Inv None rq sw s1) as HI1.
  { eapply set_run_queue_ok; [done..| |done]. intros x Hx. apply Hck. by apply Hsub. }
  assert (capabilities s1 !! c' = Some C') as HC1 by (unfold s1; by rewrite setC_cap, decide_False).
  wp_step. eapply wp_upd_cap; [done|]. cbv beta. apply wp_when; intros Eb.
  - apply negb_true_iff, Z.eqb_neq in Eb.
    destruct (ck_bound _ _ _ _ _ Hck th Hth Eb) as (B & HB & Hbd & Hor).
    assert (yielding (os_thread B) = true ∧ cap B = Some c) as [Hy HcB].
    { destruct Hor as [Hh|?]; [|done]. destruct Hb. rewrite <- Hr. symmetry. by apply (held_run _ _ _ _ _ _ _ _ HI HC HB). }
    eapply wp_upd_task; [done|]. exists rq, sw. change (setT ?b ?f (setC c' ?g s1)) with (setC c' g (setT b f s1)).
    assert (Inv None rq sw (setT (bound th) (set_cap (Some c')) s1)) as HI2.
    { eapply (Inv_move_bound rq sw s1 _ B c c'); try done.
      - intros D. unfold s1. rewrite setC_cap, decide_True, HC by done. intros [= <-]. split; [done|].
        intros x Hx E. apply Hnin. apply elem_of_bound_tasks; [done|]. by exists x.
      - by eapply lookup_lt_Some. }
    eapply Inv_setC; [exact HI2|exact HC1|done..| | |by left].
    + intros x [Hx|Hx]%elem_of_app Hxb; [by apply (inv_cap _ _ _ _ HI2 _ _ HC1)|].
      apply list_elem_of_singleton in Hx as ->. exists (set_cap (Some c') B). rewrite setT_task, decide_True by done.
      change (tasks s1) with (tasks s). rewrite HB. split_and!; [done|done|by right].
    + apply bound_tasks_snoc; [by apply Hck'|]. intros _ (x & Hx & Ex)%elem_of_bound_tasks; [|done].
      destruct (ck_bound _ _ _ _ _ Hck' x Hx) as (B' & HB' & _ & Hor'); [by rewrite Ex|]. rewrite Ex, HB in HB'. injection HB' as <-.
      assert (held (os_thread B) = []) as Hh by by destruct (os_thread B).
      rewrite Hh in Hor'. destruct Hor' as [Hx'|[_ Hx']]; [by apply elem_of_nil in Hx'|congruence].
  - apply negb_false_iff, Z.eqb_eq in Eb. exists rq, sw. eapply Inv_setC; [exact HI1|exact HC1|done..| | |by left].
    + intros x [Hx|Hx]%elem_of_app Hxb; [by apply (inv_cap _ _ _ _ HI1 _ _ HC1)|]. apply list_elem_of_singleton in Hx as ->. done.
    + by apply bound_tasks_snoc; [apply Hck'|].
Qed.

(** ** shutdownCapability *)
Lemma no_dead_workers s c hd l fuel prev :
  slist (nx s) hd l END → (length l ≤ fuel)%nat → wp (dead_workers fuel (λ _, true) c prev hd) (λ _ s', s' = s) s.
Proof.
  revert hd l. induction fuel as [|fuel IH]; intros hd l Hl Hf; cbn [dead_workers].
  - destruct l; [|cbn in Hf; lia]. cbn in Hl. subst. rewrite Z.eqb_refl. by apply wp_ret.
  - destruct (hd =? NULL) eqn:E; [by apply wp_ret|]. apply Z.eqb_neq in E.
    destruct (slist_cons_inv _ _ _ _ Hl E) as (n & l' & -> & _ & Hn & Hl'). unfold nx in Hn.
    destruct (tasks s !! hd) as [T|] eqn:HT; [|done]. injection Hn as <-.
    wp_step. eapply wp_get_task; [done|]. cbv beta. eapply IH; [done|]. cbn in Hf. lia.
Qed.
Lemma untake me c C s : capabilities s !! c = Some C → running_task C = NULL →
  setC c (set_running NULL) (setC c (set_running me) s) = s.
Proof.
  intros HC Hr. rewrite setC_comp. unfold setC, set_capabilities. destruct s; cbn in *. f_equal.
  apply list_eq. intros d. destruct (decide (c = d)) as [<-|]; [|by rewrite list_lookup_alter_ne].
  rewrite list_lookup_alter_eq, HC. cbn. f_equal. destruct C; cbn in *. by subst.
Qed.
Section shutdown.
Context (malloc : gset ptr → ptr) (no_thread : gset ptr → bool).
Hypothesis malloc_fresh : ∀ X, (malloc X ∉ X) ∧ malloc X ≠ NULL.

Lemma shutdown_turn_ok s me T cs c C safe :
  good s → tasks s !! me = Some T → os_thread T = Holding cs → capabilities s !! c = Some C → sched_state s = SCHED_SHUTTING_DOWN →
  wpb (shutdownCapability_turn malloc no_thread (λ _, true) me cs c safe) (λ _ s', good s') s.
Proof.
  intros (rq & sw & HI) HT Hpc HC Hst. unfold shutdownCapability_turn, goto.
  apply wpb_bind_wp. eapply wp_upd_task; [done|]. cbv beta.
  set (s1 := setT me (set_cap (Some c)) s).
  assert (Inv None rq sw s1) as HI1 by (eapply Inv_holding; [done..|by left]).
  assert (tasks s1 !! me = Some (set_cap (Some c) T)) as HT1 by (unfold s1; by rewrite setT_task, decide_True, HT).
  assert (capabilities s1 !! c = Some C) as HC1 by done.
  apply wpb_bind_wp. apply wp_get. cbv beta. apply wpb_bind_wp. apply wp_assert; [by apply Z.eqb_eq|]. cbv beta.
  apply wpb_bind_wp. eapply wp_get_cap; [done|]. cbv beta.
  destruct (running_task C =? NULL) eqn:Er; cbn [negb]; [apply Z.eqb_eq in Er|apply wpb_wp, wp_ret; by exists rq, sw].
  apply wpb_bind_wp. eapply wp_upd_cap; [done|]. cbv beta. apply wpb_bind_wp.
  pose proof (ck_sw _ _ _ _ _ (inv_cap _ _ _ _ HI1 _ _ HC1)) as Hl.
  eapply wp_mono; [apply (no_dead_workers (setC c (set_running me) s1) c _ (sw c)); [exact Hl|]|].
  { pose proof (slist_length (tasks s1) next _ _ Hl). lia. }
  intros [] ? ->. apply wpb_bind_wp. eapply wp_get_cap; [by rewrite setC_cap, decide_True, HC1|]. cbv beta.
  match goal with |- wpb (if ?b then _ else _) _ _ => destruct b end.
  { apply wpb_bind. eapply wpb_mono; [eapply (release_taken_ok malloc no_thread malloc_fresh rq sw s1); [by apply Inv_weaken|done..]|].
    intros [] s' Hg. by apply wpb_wp, wp_ret. }
  match goal with |- wpb (if ?b then _ else _) _ _ => destruct b end.
  - apply wpb_bind_wp. eapply wp_upd_cap; [by rewrite setC_cap, decide_True, HC1|]. cbv beta. apply wpb_wp, wp_ret.
    rewrite (untake me c C) by done. by exists rq, sw.
  - apply wpb_bind_wp. eapply wp_upd_task; [done|]. cbv beta. apply wpb_wp, wp_ret. unfold s1. rewrite (take_holding _ _ _ _ T) by done.
    exists rq, sw. by eapply Inv_take_holding.
Qed.

(** ** All actions *)
Lemma holding_Some s t cs : holding s t = Some cs → ∃ T, tasks s !! t = Some T ∧ os_thread T = Holding cs.
Proof.
  unfold holding. destruct (tasks s !! t) as [T|]; [|done]. destruct (os_thread T) eqn:E; try done. intros [= <-]. by exists T.
Qed.
Lemma holds_true s t c : holds s t c = true → ∃ T cs, holding s t = Some cs ∧ tasks s !! t = Some T ∧ os_thread T = Holding cs ∧ c ∈ cs.
Proof.
  unfold holds. destruct (holding s t) as [cs|] eqn:E; [|done]. intros Hc%bool_decide_eq_true.
  destruct (holding_Some _ _ _ E) as (T & ? & ?). by exists T, cs.
Qed.
Lemma task_cap_true s t T c : task_cap_is s t c = true → tasks s !! t = Some T → cap T = Some c.
Proof. unfold task_cap_is. intros H E. rewrite E in H. by apply bool_decide_eq_true in H. Qed.
Lemma bound_on_false s t c C : bound_on s t c = false → capabilities s !! c = Some C → ∀ th, th ∈ run_queue C → bound th ≠ t.
Proof.
  unfold bound_on, queue_of. intros H HC th Hth E. rewrite HC in H.
  enough (existsb (λ th, bound th =? t) (run_queue C) = true) by congruence.
  apply existsb_exists. exists th. split; [by apply list_elem_of_In|by apply Z.eqb_eq].
Qed.
Lemma release_action_ok s me T cs c f (A : Type) (m : prog rts A) aw :
  good s → tasks s !! me = Some T → os_thread T = Holding cs → c ∈ cs → bound_on s me c = false →
  (cond T = Nobody → (stopped T = true → os_thread T = Exited) → left_behind T (f T) c ∧ waiting (os_thread (f T)) = false) →
  (∀ s1 T1, tasks s1 !! me = Some T1 → wp m (λ _ s', s' = setT me f s1) s1) →
  wpb (releaseCapability_ malloc no_thread me c aw;; m) (λ _ s', good s') s.
Proof.
  intros (rq & sw & HI) HT Hpc Hc Hb Hf Hm. destruct (holder_runs _ _ _ _ _ _ _ HI HT Hpc Hc) as (C & HC & _).
  pose proof (inv_task _ _ _ _ HI _ _ HT) as Hok.
  destruct Hf as [Hf1 Hf2]; [eapply not_sleeping; [done|by rewrite Hpc]|by apply Hok|].
  eapply (release_held_ok malloc no_thread malloc_fresh rq sw s me T c C aw f); try done.
  - by exists cs.
  - by rewrite Hpc.
  - by eapply bound_on_false.
Qed.
Lemma Release_ok s me T cs c aw :
  good s → tasks s !! me = Some T → os_thread T = Holding cs → c ∈ cs → bound_on s me c = false →
  wpb (releaseCapability_ malloc no_thread me c aw;; goto me (Holding (filter (λ d, d ≠ c) cs))) (λ _ s', good s') s.
Proof.
  intros Hg HT Hpc Hc Hb. eapply (release_action_ok s me T cs c (set_os_thread (Holding (filter (λ d, d ≠ c) cs)))); try done.
  - intros Hcond Hst. split; [|done]. unfold left_behind, spare. rewrite Hpc. cbn. split_and!; try done. intros E%Hst. congruence.
  - intros s1 T1 HT1. by eapply wp_upd_task.
Qed.
Lemma WorkerExit_ok s me T c :
  good s → tasks s !! me = Some T → os_thread T = Holding [c] → bound_on s me c = false →
  wpb (scheduleWorker_exit malloc no_thread me c) (λ _ s', good s') s.
Proof.
  intros Hg HT Hpc Hb. unfold scheduleWorker_exit.
  eapply (release_action_ok s me T [c] c (set_os_thread Exited ∘ set_stopped true ∘ set_cap None)); [done..|by left|done| |].
  - intros Hcond Hst. split; [|done]. unfold left_behind, spare. rewrite Hpc. cbn [held].
    rewrite filter_cons, decide_False by naive_solver. done.
  - intros s1 T1 HT1. unfold workerTaskStop, goto. wp_step. wp_step. eapply wp_upd_task; [done|]. cbv beta.
    eapply wp_upd_task; [by rewrite setT_task, decide_True, HT1|]. cbv beta. eapply wp_upd_task; [by rewrite !setT_task, !decide_True, HT1|].
    by rewrite !setT_comp.
Qed.
Lemma run_ok s me T m :
  good s → tasks s !! me = Some T → task_step malloc no_thread me T = Some m → wpb m (λ _ s', good s') s.
Proof.
  intros (rq & sw & HI) HT. unfold task_step.
  assert (∀ cs, wait_states (ReturnLoop cs) (ReturnSleep cs) (ReturnCheck cs)) as W1 by (intros cs; left; eauto).
  assert (wait_states YieldLoop YieldSleep YieldCheck) as W2 by by right.
  destruct (os_thread T) as [cs|cs c|cs|cs|cs c|c| | |c|] eqn:Hpc; try done; intros H; try (injection H as <-).
  - apply wpb_wp. eapply wp_mono; [by eapply enter_ok|]. intros [] s' [rq' ?]. by exists rq', sw.
  - apply wpb_wp. eapply wp_mono; [by eapply wait_wakeup_ok|]. intros [] s' ?. by exists rq, sw.
  - destruct (decide _); [|done]. injection H as <-. apply wpb_wp.
    destruct (woken_ok rq sw s me T _ _ _ HI (W1 cs) HT (or_intror Hpc)) as (c & T' & Hw & _). eapply wp_mono; [exact Hw|].
    intros [] s' [? _]. by exists rq, sw.
  - apply wpb_wp. eapply wp_mono; [by eapply return_check_ok|]. intros [] s' [rq' ?]. by exists rq', sw.
  - by eapply queue_worker_ok.
  - apply wpb_wp. eapply wp_mono; [by eapply wait_wakeup_ok|]. intros [] s' ?. by exists rq, sw.
  - destruct (decide _); [|done]. injection H as <-. apply wpb_wp.
    destruct (woken_ok rq sw s me T _ _ _ HI W2 HT (or_intror Hpc)) as (c & T' & Hw & _). eapply wp_mono; [exact Hw|].
    intros [] s' [? _]. by exists rq, sw.
  - apply wpb_wp. eapply wp_mono; [by eapply yield_check_ok|]. intros [] s' [sw' ?]. by exists rq, sw'.
Qed.

Ltac split_enabled H :=
  repeat match type of H with _ && _ = true => let H1 := fresh H in apply andb_prop in H as [H H1]; split_enabled H1 end.
Lemma lt_cap s c : bool_decide (c < length (capabilities s))%nat = true → ∃ C, capabilities s !! c = Some C.
Proof. intros [C HC]%bool_decide_eq_true%lookup_lt_is_Some. by exists C. Qed.

Lemma set_run_queue_action_ok s t c q :
  good s → enabled malloc no_thread (SetRunQueue t c q) s = true → wp (upd_cap c (set_run_queue q)) (λ _ s', good s') s.
Proof.
  intros (rq & sw & HI) He. cbn in He. apply andb_prop in He as [[H1 Hq]%andb_prop Hnd%bool_decide_eq_true].
  destruct (holds_true _ _ _ H1) as (T & cs & _ & HT & Hpc & Hc).
  destruct (holder_runs _ _ _ _ _ _ _ HI HT Hpc Hc) as (C & HC & _).
  eapply wp_upd_cap; [done|]. exists rq, sw. eapply set_run_queue_ok; [done..| |done].
  intros th Hth Hb. rewrite forallb_forall in Hq. specialize (Hq th). rewrite <- list_elem_of_In in Hq. specialize (Hq Hth).
  unfold may_run_on in Hq. apply orb_prop in Hq as [Hq%Z.eqb_eq|Hq]; [done|].
  destruct (tasks s !! bound th) as [B|] eqn:HB; [|done]. apply andb_prop in Hq as [Hbd Hor].
  exists B. split_and!; [done..|]. apply orb_prop in Hor as [E%Z.eqb_eq|[Hy Hd%bool_decide_eq_true]%andb_prop]; [left|by right].
  rewrite E, HT in HB. injection HB as <-. by rewrite Hpc.
Qed.
Lemma end_sync_ok s t : good s → enabled malloc no_thread (EndSync t) s = true → good (set_pending_sync 0 s).
Proof.
  intros (rq & sw & HI) He. cbn in He. destruct (holding s t) as [cs|] eqn:Eh; [|done]. destruct (holding_Some _ _ _ Eh) as (T & HT & Hpc).
  exists rq, sw. eapply (Inv_globals rq sw s); [done..| |done]. intros c C HC Hr.
  apply orb_prop in He as [E%Z.eqb_eq|Hall]; unfold wants; cbn; [rewrite E; naive_solver|].
  exfalso. rewrite forallb_forall in Hall. specialize (Hall c). destruct (holder_runs rq sw s t T cs c HI HT Hpc) as (C1 & HC1 & _ & Hn); [|rewrite HC in HC1; injection HC1 as <-; done].
  apply (bool_decide_eq_true (c ∈ cs)), Hall, in_seq. apply lookup_lt_Some in HC. lia.
Qed.
Lemma thread_finished_ok s t : good s → enabled malloc no_thread (ThreadFinished t) s = true →
  wp (upd_task t (set_incall_tso NULL)) (λ _ s', good s') s.
Proof.
  intros (rq & sw & HI) He. cbn in He. destruct (holding s t) as [cs|] eqn:Eh; [|done]. destruct (holding_Some _ _ _ Eh) as (T & HT & Hpc).
  eapply wp_upd_task; [done|]. exists rq, sw. eapply Inv_holding; [done..|]. intros _. right. intros c C th HC Hth.
  rewrite forallb_forall in He. eapply bound_on_false; [|done..]. apply negb_true_iff, He, in_seq. apply lookup_lt_Some in HC. lia.
Qed.

Lemma perform_ok s a : good s → enabled malloc no_thread a s = true → wpb (perform malloc no_thread a) (λ _ s', good s') s.
Proof.
  intros Hg He. pose proof Hg as (rq & sw & HI). unfold perform. apply wpb_bind_wp, wp_get. cbv beta.
  destruct a as [t|t| |t c|t c|t c aw|t c|t c|t c|t c msg|t c safe|t c|t c q|t c c' i|t c|t c tso|t|t k|t|c sp cc|st idle]; cbn in He.
  - destruct (tasks s !! t) as [T|] eqn:HT; [|done]. apply wpb_bind_wp. eapply wp_get_task; [done|]. cbv beta.
    destruct (task_step malloc no_thread t T) as [m|] eqn:Em; [|done]. apply wpb_bind_wp. eapply wp_deref; [done|]. by eapply run_ok.
  - destruct (tasks s !! t) as [T|] eqn:HT; [|done]. apply wpb_bind_wp. eapply wp_get_task; [done|]. cbv beta. apply wpb_wp.
    destruct (os_thread T) eqn:Hpc; try done.
    + destruct (woken_ok rq sw s t T (ReturnLoop cs) (ReturnSleep cs) (ReturnCheck cs) HI) as (c & T' & Hw & _); [left; eauto|done|by right|].
      eapply wp_mono; [exact Hw|]. intros [] s' [? _]. by exists rq, sw.
    + destruct (woken_ok rq sw s t T YieldLoop YieldSleep YieldCheck HI) as (c & T' & Hw & _); [by right|done|by right|].
      eapply wp_mono; [exact Hw|]. intros [] s' [? _]. by exists rq, sw.
  - apply wpb_bind_wp, wp_newTask. apply wpb_wp, wp_ret. exists rq, sw. destruct (malloc_fresh (dom (tasks s))). by eapply Inv_add.
  - destruct (holding s t) as [cs|] eqn:Eh; [|done]. destruct (holding_Some _ _ _ Eh) as (T & HT & Hpc). apply andb_prop in He as [_ Hc%bool_decide_eq_true].
    apply wpb_wp. unfold held_by. rewrite Eh. eapply wp_mono; [by eapply waitForReturnCapability_ok|]. intros [] s' ?. by exists rq, sw.
  - apply andb_prop in He as [Eh%bool_decide_eq_true Hcap]. destruct (holding_Some _ _ _ Eh) as (T & HT & Hpc).
    apply wpb_wp. eapply wp_mono; [by eapply yieldCapability_ok, task_cap_true|]. intros [] s' ?. by exists rq, sw.
  - apply andb_prop in He as [[Hh _]%andb_prop Hb%negb_true_iff]. destruct (holds_true _ _ _ Hh) as (T & cs & Eh & HT & Hpc & Hc).
    unfold held_by. rewrite Eh. destruct aw; by eapply Release_ok.
  - apply andb_prop in He as [[Eh%bool_decide_eq_true _]%andb_prop Hb%negb_true_iff]. destruct (holding_Some _ _ _ Eh) as (T & HT & Hpc).
    by eapply WorkerExit_ok.
  - destruct (holding s t) as [cs|] eqn:Eh; [|done]. destruct (holding_Some _ _ _ Eh) as (T & HT & Hpc). destruct (lt_cap _ _ He) as [C HC].
    apply wpb_bind_wp. unfold held_by. rewrite Eh. eapply wp_mono; [by eapply tryGrabCapability_ok|]. intros r s' ?. by apply wpb_wp, wp_ret.
  - destruct (holding s t) as [cs|] eqn:Eh; [|done]. destruct (holding_Some _ _ _ Eh) as (T & HT & Hpc). destruct (lt_cap _ _ He) as [C HC].
    by eapply prodCapability_ok.
  - destruct (holding s t) as [cs|] eqn:Eh; [|done]. destruct (holding_Some _ _ _ Eh) as (T & HT & Hpc). destruct (lt_cap _ _ He) as [C HC].
    by eapply sendMessage_ok.
  - destruct (holding s t) as [cs|] eqn:Eh; [|done]. destruct (holding_Some _ _ _ Eh) as (T & HT & Hpc). apply andb_prop in He as [[C HC]%lt_cap Hst%Z.eqb_eq].
    unfold held_by. rewrite Eh. apply wpb_bind. eapply wpb_mono; [by eapply shutdown_turn_ok|]. intros r s' ?. by apply wpb_wp, wp_ret.
  - destruct (holds_true _ _ _ He) as (T & cs & Eh & HT & Hpc & Hc). apply wpb_wp. eapply wp_upd_task; [done|]. exists rq, sw.
    eapply Inv_holding; [done..|by left].
  - apply wpb_wp. by eapply set_run_queue_action_ok.
  - apply andb_prop in He as [[[Hh Hh']%andb_prop Hne%negb_true_iff%bool_decide_eq_false]%andb_prop Hth].
    destruct (holds_true _ _ _ Hh) as (T & cs & Eh & HT & Hpc & Hc). destruct (holds_true _ _ _ Hh') as (T' & cs' & Eh' & _ & _ & Hc').
    rewrite Eh in Eh'. injection Eh' as <-. destruct (holder_runs _ _ _ _ _ _ _ HI HT Hpc Hc) as (C & HC & _).
    unfold queue_of in Hth. rewrite HC in Hth. destruct (run_queue C !! i) as [th|] eqn:Ei; [|done]. apply negb_true_iff, Z.eqb_neq in Hth.
    apply wpb_wp. by eapply push_thread_ok.
  - destruct (holds_true _ _ _ He) as (T & cs & Eh & HT & Hpc & Hc). destruct (holder_runs _ _ _ _ _ _ _ HI HT Hpc Hc) as (C & HC & _ & Hn).
    pose proof (inv_cap _ _ _ _ HI _ _ HC) as Hck. apply wpb_wp. eapply wp_upd_cap; [done|]. exists rq, sw.
    eapply Inv_setC; [done..|apply Hck|apply Hck|by left].
  - apply andb_prop in He as [[Hh Hn%negb_true_iff%Z.eqb_neq]%andb_prop Hb]. destruct (holds_true _ _ _ Hh) as (T & cs & Eh & HT & Hpc & Hc).
    rewrite HT in Hb. apply negb_true_iff in Hb. destruct (holder_runs _ _ _ _ _ _ _ HI HT Hpc Hc) as (C & HC & _).
    apply wpb_wp. by eapply scheduleWaitThread_ok.
  - apply wpb_wp. by eapply thread_finished_ok.
  - destruct (holding s t) as [cs|] eqn:Eh; [|done]. apply andb_prop in He as [E%Z.eqb_eq _].
    apply wpb_wp, wp_modify. exists rq, sw. eapply (Inv_globals rq sw s); [done..| |done]. intros c C HC Hr. unfold wants. cbn. rewrite E. naive_solver.
  - apply wpb_wp, wp_modify. by eapply end_sync_ok.
  - destruct (lt_cap _ _ He) as [C HC]. pose proof (inv_cap _ _ _ _ HI _ _ HC) as Hck.
    apply wpb_wp. eapply wp_upd_cap; [done|]. exists rq, sw. eapply Inv_setC; [done..|apply Hck|apply Hck|right; by left].
  - apply Z.leb_le in He. apply wpb_wp, wp_modify. exists rq, sw. eapply (Inv_globals rq sw s); [done..| |done]. intros c C HC Hr. unfold wants. cbn.
    intros [?|[? [?|[? ?]]]]; [by left|right; naive_solver|right]. split; [done|]. right. split; [done|]. lia.
Qed.
End shutdown.
