(* ===== verification/TasksLive.v ===== *)
(** * A free Capability that is wanted gets taken *)
From stdpp Require Import list gmap.
From S2P Require Import Prelude DList Tasks TasksInv TasksStep TasksKeep TasksActs.
Local Open Scope Z_scope.

(** [t] will take [c] when it looks at it: it is the first of its queue. *)
Definition first_in_line (s : rts) (c : nat) (t : ptr) : Prop :=
  ∃ T C, tasks s !! t = Some T ∧ capabilities s !! c = Some C ∧ baton_of T c ∧
    (returning (os_thread T) = true → returning_tasks_hd C = t) ∧ (spare T = true → spare_workers C = t).
Definition is_free (s : rts) (c : nat) : Prop := running s c = Some NULL.
Lemma is_free_cap s c : is_free s c → ∃ C, capabilities s !! c = Some C ∧ running_task C = NULL.
Proof. unfold is_free, running. destruct (capabilities s !! c) as [C|]; [|done]. intros [= E]. by exists C. Qed.

(** The first of a queue *)
Lemma returning_head_in_line rq sw s c C t H :
  Inv None rq sw s → capabilities s !! c = Some C → t ∈ rq c → returning_tasks_hd C ≠ t → tasks s !! returning_tasks_hd C = Some H →
  first_in_line (setT (returning_tasks_hd C) wake s) c (returning_tasks_hd C) ∧ cap H = Some c.
Proof.
  intros HI HC Ht Hne HH. pose proof (inv_cap _ _ _ _ HI _ _ HC) as Hck. pose proof (ck_rq _ _ _ _ _ Hck) as Hl.
  destruct (rq c) as [|x l] eqn:Erq; [by apply elem_of_nil in Ht|]. destruct Hl as (Hx & _). subst x.
  assert (returning_tasks_hd C ∈ rq c) as [Hr Hc]%(tk_rq _ _ _ _ _ (inv_task _ _ _ _ HI _ _ HH)) by (rewrite Erq; by left).
  split; [|done]. destruct (wake_fields H) as (F1 & F2 & F3 & _ & _ & F6). exists (wake H), C.
  rewrite setT_task, decide_True, HH by done. split_and!; [done|done| |done|].
  - unfold baton_of. rewrite F1, F2, F6. split_and!; [unfold waiting; by rewrite Hr|done|by left].
  - unfold spare. rewrite F2. intros [Hy _]%andb_prop. by destruct (os_thread H).
Qed.
Lemma spare_head_in_line rq sw s c C t H :
  Inv None rq sw s → capabilities s !! c = Some C → t ∈ sw c → spare_workers C ≠ t → tasks s !! spare_workers C = Some H →
  first_in_line (setT (spare_workers C) wake s) c (spare_workers C) ∧ cap H = Some c.
Proof.
  intros HI HC Ht Hne HH. pose proof (inv_cap _ _ _ _ HI _ _ HC) as Hck. pose proof (ck_sw _ _ _ _ _ Hck) as Hl.
  destruct (sw c) as [|x l] eqn:Esw; [by apply elem_of_nil in Ht|]. destruct Hl as (Hx & _). subst x.
  assert (spare_workers C ∈ sw c) as [Hr Hc]%(tk_sw _ _ _ _ _ (inv_task _ _ _ _ HI _ _ HH)) by (rewrite Esw; by left).
  split; [|done]. destruct (wake_fields H) as (F1 & F2 & F3 & _ & _ & F6). exists (wake H), C.
  unfold spare in Hr. apply andb_prop in Hr as [Hy _].
  rewrite setT_task, decide_True, HH by done. split_and!; [done|done| | |done].
  - unfold baton_of. rewrite F1, F2, F6. split_and!; [unfold waiting; by rewrite Hy, orb_true_r|done|by left].
  - rewrite F2. by destruct (os_thread H).
Qed.
Lemma first_setT s c h t p : h ≠ t → first_in_line s c h → first_in_line (setT t p s) c h.
Proof.
  intros Hne (T & C & HT & HC & H). exists T, C. rewrite setT_task, decide_False by done. by repeat (split; [done|]).
Qed.

(** What a task finds out when it looks at a free Capability: it takes it, or
    wakes up the first in the line. *)
Definition looked (s : rts) (c : nat) (me : ptr) (s' : rts) : Prop :=
  running s' c = Some me ∨
  (¬ first_in_line s c me ∧ is_free s' c ∧ ∃ h, first_in_line s' c h).
Lemma return_check_looks rq sw s me T cs c :
  Inv None rq sw s → tasks s !! me = Some T → os_thread T = ReturnCheck cs c → is_free s c →
  wp (waitForReturnCapability_check me cs c) (λ _ s', looked s c me s') s.
Proof.
  intros HI HT Hpc (C & HC & Er)%is_free_cap. pose proof (inv_task _ _ _ _ HI _ _ HT) as Hok.
  pose proof (tk_at _ _ _ _ _ Hok) as Hcap. rewrite Hpc in Hcap.
  assert (me ∈ rq c) as Hq by (apply (tk_rq _ _ _ _ _ Hok); by rewrite Hpc).
  unfold waitForReturnCapability_check, goto. wp_step. eapply wp_get_cap; [done|]. cbv beta. rewrite Er, Z.eqb_refl.
  destruct (returning_tasks_hd C =? me) eqn:Eme; cbn [negb]; [apply Z.eqb_eq in Eme|apply Z.eqb_neq in Eme].
  - wp_step. eapply wp_upd_cap; [done|]. cbv beta. unfold popReturningTask. wp_step. wp_step.
    eapply wp_get_cap; [by rewrite setC_cap, decide_True, HC|]. cbn [returning_tasks_hd returning_tasks_tl set_running]. rewrite Eme.
    wp_step. apply wp_assert; [apply negb_true_iff, Z.eqb_neq, (tk_null _ _ _ _ _ Hok)|]. wp_step. eapply wp_get_task; [done|]. cbv beta.
    wp_step. eapply wp_upd_cap; [by rewrite setC_cap, decide_True, HC|]. cbv beta. wp_step. eapply wp_upd_task; [by rewrite !tasks_setC|]. cbv beta.
    wp_step. wp_step. eapply wp_upd_task; [by rewrite setT_task, decide_True, !tasks_setC, HT|]. cbv beta.
    rewrite setT_comp, setC_comp. eapply wp_ASSERT_FULL; [by rewrite caps_setT, setC_cap, decide_True, HC|done|by apply Hok| | |].
    + by rewrite setT_task, decide_True, tasks_setC, HT.
    + done.
    + left. unfold running. by rewrite caps_setT, setC_cap, decide_True, HC.
  - destruct (queue_tasks _ _ _ _ _ (returning_tasks_hd C) (inv_cap _ _ _ _ HI _ _ HC)) as [H HH].
    { left. pose proof (ck_rq _ _ _ _ _ (inv_cap _ _ _ _ HI _ _ HC)) as Hl. destruct (rq c); [by apply elem_of_nil in Hq|]. destruct Hl as (-> & _). by left. }
    destruct (returning_head_in_line _ _ _ _ _ me H HI HC Hq Eme HH) as [Hfirst HcH].
    wp_step. eapply wp_give; [done|done|]. eapply wp_upd_task; [by rewrite setT_task, decide_False|]. right. split_and!.
    + intros (T1 & C1 & HT1 & HC1 & _ & Hr & _). rewrite HT in HT1. injection HT1 as <-. rewrite HC in HC1. injection HC1 as <-.
      apply Eme, Hr. by rewrite Hpc.
    + unfold is_free, running. by rewrite !caps_setT, HC, <- Er.
    + exists (returning_tasks_hd C). by apply first_setT.
Qed.
Lemma yield_check_looks rq sw s me T c :
  Inv None rq sw s → tasks s !! me = Some T → os_thread T = YieldCheck c → cap T = Some c → is_free s c →
  wp (yieldCapability_check me c) (λ _ s', looked s c me s') s.
Proof.
  intros HI HT Hpc Hcap (C & HC & Er)%is_free_cap. pose proof (inv_task _ _ _ _ HI _ _ HT) as Hok.
  unfold yieldCapability_check, goto. wp_step. eapply wp_get_cap; [done|]. cbv beta. wp_step. eapply wp_get_task; [done|]. cbv beta.
  rewrite Er, Z.eqb_refl. cbn [negb]. rewrite bool_decide_eq_true_2 by done. cbn [negb].
  destruct (incall_tso T =? NULL) eqn:Eb.
  - assert (me ∈ sw c) as Hq by (apply (tk_sw _ _ _ _ _ Hok); unfold spare, isBoundTask; by rewrite Hpc, Eb).
    pose proof (inv_cap _ _ _ _ HI _ _ HC) as Hck.
    assert (spare_workers C ∈ sw c ∧ spare_workers C ≠ NULL) as [Hin Hn].
    { pose proof (ck_sw _ _ _ _ _ Hck) as Hl. destruct (sw c); [by apply elem_of_nil in Hq|]. destruct Hl as (-> & ? & _). split; [by left|done]. }
    wp_step. apply wp_assert; [by apply negb_true_iff, Z.eqb_neq|].
    destruct (spare_workers C =? me) eqn:Eme; cbn [negb]; [apply Z.eqb_eq in Eme|apply Z.eqb_neq in Eme].
    + wp_step. eapply wp_upd_cap; [done|]. cbv beta. wp_step. eapply wp_upd_task; [by rewrite tasks_setC|]. cbv beta.
      wp_step. eapply wp_upd_cap; [by rewrite caps_setT, setC_cap, decide_True, HC|]. cbv beta. wp_step.
      eapply wp_upd_task; [by rewrite tasks_setC, setT_task, decide_True, tasks_setC, HT|]. cbv beta.
      eapply wp_ASSERT_FULL; [by rewrite caps_setT, setC_cap, decide_True, caps_setT, setC_cap, decide_True, HC|done|by apply Hok| | |].
      * by rewrite setT_task, decide_True, tasks_setC, setT_task, decide_True, tasks_setC, HT.
      * done.
      * left. unfold running. by rewrite caps_setT, setC_cap, decide_True, caps_setT, setC_cap, decide_True, HC.
    + destruct (queue_tasks _ _ _ _ _ (spare_workers C) Hck) as [H HH]; [by right|].
      destruct (spare_head_in_line _ _ _ _ _ me H HI HC Hq Eme HH) as [Hfirst HcH].
      wp_step. eapply wp_give; [done|done|]. eapply wp_upd_task; [by rewrite setT_task, decide_False|]. right. split_and!.
      * intros (T1 & C1 & HT1 & HC1 & _ & _ & Hs). rewrite HT in HT1. injection HT1 as <-. rewrite HC in HC1. injection HC1 as <-.
        apply Eme, Hs. unfold spare, isBoundTask. by rewrite Hpc, Eb.
      * unfold is_free, running. by rewrite !caps_setT, HC, <- Er.
      * exists (spare_workers C). by apply first_setT.
  - wp_step. eapply wp_upd_cap; [done|]. cbv beta. wp_step. eapply wp_upd_task; [by rewrite tasks_setC|]. cbv beta.
    eapply wp_ASSERT_FULL; [by rewrite caps_setT, setC_cap, decide_True, HC|done|by apply Hok| | |].
    + by rewrite setT_task, decide_True, tasks_setC, HT.
    + done.
    + left. unfold running. by rewrite caps_setT, setC_cap, decide_True, HC.
Qed.

Section live.
Context (malloc : gset ptr → ptr) (no_thread : gset ptr → bool).

(** The OS threads of the tasks [l] run in this order. *)
Fixpoint runs (l : list ptr) : prog rts unit :=
  match l with
  | [] => mret tt
  | t :: l => perform malloc no_thread (Run t);; runs l
  end.
Lemma wp_runs_app l1 l2 Q s : wp (runs l1) (λ _ s', wp (runs l2) Q s') s → wp (runs (l1 ++ l2)) Q s.
Proof.
  revert s. induction l1 as [|t l1 IH]; intros s; cbn [runs app]; [done|].
  intros H%wp_bind_inv. wp_step. eapply wp_mono; [exact H|]. intros [] s' H'. by apply IH.
Qed.
Lemma wp_run1 t T m Q s : tasks s !! t = Some T → task_step malloc no_thread t T = Some m → wp m Q s → wp (runs [t]) Q s.
Proof.
  intros HT Hm HQ. cbn [runs]. wp_step. unfold perform. wp_step. apply wp_get. cbv beta. wp_step. eapply wp_get_task; [done|]. cbv beta.
  wp_step. eapply wp_deref; [done|]. cbv beta. eapply wp_mono; [exact HQ|]. intros [] s' H. by apply wp_ret.
Qed.

Lemma run_looks s t T c :
  good s → tasks s !! t = Some T → checks (os_thread T) = Some c → cap T = Some c → is_free s c →
  wp (runs [t]) (λ _ s', good s' ∧ looked s c t s') s.
Proof.
  intros (rq & sw & HI) HT Hch Hcap Hfree. destruct (os_thread T) as [| | | |cs c0| | | |c0|] eqn:Hpc; try done; injection Hch as ->.
  - eapply wp_run1; [done|unfold task_step; by rewrite Hpc|]. apply wp_and; [|by eapply return_check_looks].
    eapply wp_mono; [by eapply return_check_ok|]. intros [] s' [rq' ?]. by exists rq', sw.
  - eapply wp_run1; [done|unfold task_step; by rewrite Hpc|]. apply wp_and; [|by eapply yield_check_looks].
    eapply wp_mono; [by eapply yield_check_ok|]. intros [] s' [sw' ?]. by exists rq, sw'.
Qed.
Definition about_to_look (s s' : rts) (c : nat) (t : ptr) (T : Task) : Prop :=
  good s' ∧ capabilities s' = capabilities s ∧ ∃ T', tasks s' !! t = Some T' ∧ checks (os_thread T') = Some c ∧ baton_of T' c ∧
    returning (os_thread T') = returning (os_thread T) ∧ spare T' = spare T.
Lemma run_wakes s t T c :
  good s → tasks s !! t = Some T → baton_of T c → checks (os_thread T) = None → wp (runs [t]) (λ _ s', about_to_look s s' c t T) s.
Proof.
  intros (rq & sw & HI) HT (Hw & Hcap & [Hwk|?]) Hch; [|congruence]. pose proof (inv_task _ _ _ _ HI _ _ HT) as Hok.
  assert (∀ loop sleep check, wait_states loop sleep check → os_thread T = loop ∨ os_thread T = sleep →
    wp (woken t check) (λ _ s', about_to_look s s' c t T) s) as Hgo.
  { intros loop sleep check Hst Hpc. destruct (woken_ok rq sw s t T loop sleep check HI Hst HT Hpc) as (c' & T' & Hwp & Hc' & ->).
    rewrite Hcap in Hc'. injection Hc' as <-. eapply wp_mono; [exact Hwp|]. intros [] s' [HI' ->]. split; [by exists rq, sw|]. split; [done|].
    eexists. rewrite setT_task, decide_True, HT by done. split; [done|]. unfold baton_of, spare, isBoundTask. cbn.
    destruct Hst as [(cs & -> & -> & ->)|(-> & -> & ->)], Hpc as [-> | ->]; cbn; split_and!; try done; by right. }
  pose proof (tk_cond _ _ _ _ _ Hok) as Hcond.
  assert (sleeping (os_thread T) = true → cond T = Signalled) as Hsig by (intros E; rewrite E in Hcond; destruct (cond T); [done|destruct Hcond; congruence|done]).
  assert (∀ cs, wait_states (ReturnLoop cs) (ReturnSleep cs) (ReturnCheck cs)) as W1 by (intros cs; left; eauto).
  assert (wait_states YieldLoop YieldSleep YieldCheck) as W2 by by right.
  assert (∀ sleep check, wp (woken t check) (λ _ s', about_to_look s s' c t T) s →
    wp (wait_wakeup t sleep check) (λ _ s', about_to_look s s' c t T) s) as Hwait.
  { intros sleep check H. unfold wait_wakeup. wp_step. eapply wp_get_task; [done|]. cbv beta. by rewrite Hwk. }
  destruct (os_thread T) as [| |cs|cs| | | | | |] eqn:Hpc; try done.
  - eapply wp_run1; [done|unfold task_step; by rewrite Hpc|]. apply Hwait. eapply Hgo; [apply W1|by left].
  - eapply wp_run1; [done|unfold task_step; by rewrite Hpc, decide_True by (by apply Hsig)|]. eapply Hgo; [apply W1|by right].
  - eapply wp_run1; [done|unfold task_step; by rewrite Hpc|]. apply Hwait. eapply Hgo; [apply W2|by left].
  - eapply wp_run1; [done|unfold task_step; by rewrite Hpc, decide_True by (by apply Hsig)|]. eapply Hgo; [apply W2|by right].
Qed.

(** [t] was on its way to another Capability when its thread was pushed to [c]. *)
Lemma run_elsewhere s t T c c' :
  good s → tasks s !! t = Some T → checks (os_thread T) = Some c' → cap T = Some c → c' ≠ c →
  wp (runs [t]) (λ _ s', good s' ∧ s' = setT t (set_os_thread YieldLoop) s ∧ os_thread T = YieldCheck c') s.
Proof.
  intros (rq & sw & HI) HT Hch Hcap Hne. pose proof (inv_task _ _ _ _ HI _ _ HT) as Hok.
  pose proof (tk_at _ _ _ _ _ Hok) as Hat. destruct (os_thread T) as [| | | |cs c0| | | |c0|] eqn:Hpc; try done; injection Hch as ->; [congruence|].
  apply lookup_lt_is_Some in Hat as [C HC].
  eapply wp_run1; [done|unfold task_step; by rewrite Hpc|].
  apply wp_and; [eapply wp_mono; [by eapply yield_check_ok|]; intros [] s' [sw' ?]; by exists rq, sw'|].
  unfold yieldCapability_check, goto. wp_step. eapply wp_get_cap; [done|]. cbv beta. wp_step. eapply wp_get_task; [done|]. cbv beta.
  destruct (negb (running_task C =? NULL)); [by eapply wp_upd_task|].
  rewrite bool_decide_eq_false_2 by congruence. by eapply wp_upd_task.
Qed.

(** A task that has been woken up for a free Capability looks at it. *)
Definition will_look (s : rts) (c : nat) (t : ptr) (n : nat) : Prop :=
  ∃ l, (length l ≤ n)%nat ∧ wp (runs l) (λ _ s', good s' ∧ ∃ s1, looked s1 c t s' ∧ (first_in_line s c t → first_in_line s1 c t)) s.
Lemma wakes_looks s t T c : good s → tasks s !! t = Some T → baton_of T c → checks (os_thread T) = None → is_free s c → will_look s c t 2.
Proof.
  intros Hg HT Hb Hch Hfree. exists ([t] ++ [t]). split; [cbn; lia|]. apply wp_runs_app. eapply wp_mono; [by eapply run_wakes|].
  intros [] s1 (Hg1 & Hcaps & T1 & HT1 & Hch1 & Hb1 & Er & Es).
  assert (is_free s1 c) as Hfree1 by (unfold is_free, running; by rewrite Hcaps).
  pose proof Hb1 as (_ & Hcap1 & _). eapply wp_mono; [by eapply run_looks|].
  intros [] s' [Hg' Hl]. split; [done|]. exists s1. split; [done|]. intros (T0 & C & HT0 & HC & _ & Hr & Hs).
  rewrite HT in HT0. injection HT0 as <-. exists T1, C. rewrite Hcaps, Er, Es. done.
Qed.
Lemma awake_looks s t T c : good s → tasks s !! t = Some T → baton_of T c → is_free s c → will_look s c t 3.
Proof.
  intros Hg HT Hb Hfree. destruct (checks (os_thread T)) as [c'|] eqn:Hch.
  2:{ destruct (wakes_looks s t T c) as (l & Hl & Hwp); [done..|]. exists l. split; [lia|done]. }
  pose proof Hb as (_ & Hcap & Hor). destruct (decide (c' = c)) as [->|Hne].
  - exists [t]. split; [cbn; lia|]. eapply wp_mono; [by eapply run_looks|]. intros [] s' [Hg' Hl]. split; [done|]. by exists s.
  - destruct Hor as [Hwk|?]; [|congruence].
    pose proof (proj1 (wp_run _ _ _) (run_elsewhere s t T c c' Hg HT Hch Hcap Hne)) as ([] & s1 & Hrun & Hg1 & E & Hpc).
    assert (tasks s1 !! t = Some (set_os_thread YieldLoop T)) as HT1 by (rewrite E, setT_task, decide_True, HT; done).
    destruct (wakes_looks s1 t (set_os_thread YieldLoop T) c) as (l & Hl & Hwp); [done..| |done|by rewrite E|].
    { split_and!; [done|done|by left]. }
    exists ([t] ++ l). split; [cbn; lia|]. apply wp_runs_app. unfold wp at 1. rewrite Hrun. eapply wp_mono; [exact Hwp|].
    intros [] s' (Hg' & s2 & Hlk & Hf). split; [done|]. exists s2. split; [done|]. intros (T0 & C & HT0 & HC & _ & Hr & Hs).
    rewrite HT in HT0. injection HT0 as <-. apply Hf. exists (set_os_thread YieldLoop T), C. 
    split; [done|]. split; [by rewrite E|]. split; [split; [done|split; [done|by left]]|]. split; [done|].
    intros E2. apply Hs. unfold spare, isBoundTask in *. by rewrite Hpc.
Qed.
Definition taken (s : rts) (c : nat) : Prop := ∃ t, t ≠ NULL ∧ running s c = Some t.
Lemma task_not_null s t T : good s → tasks s !! t = Some T → t ≠ NULL.
Proof. intros (rq & sw & HI) HT. apply (inv_task _ _ _ _ HI _ _ HT). Qed.
Lemma awake_takes s t c : good s → baton s c t → is_free s c → 
  ∃ l, (length l ≤ 6)%nat ∧ wp (runs l) (λ _ s', good s' ∧ taken s' c) s.
Proof.
  intros Hg (T & HT & Hb) Hfree. pose proof (task_not_null _ _ _ Hg HT) as Hnn.
  destruct (awake_looks s t T c Hg HT Hb Hfree) as (l1 & Hl1 & Hwp).
  pose proof (proj1 (wp_run _ _ _) Hwp) as ([] & s' & Hrun & Hg' & s1 & [Htk|(_ & Hfree' & h & Hfirst)] & _).
  - exists l1. split; [lia|]. unfold wp. rewrite Hrun. split; [done|]. by exists t.
  - pose proof Hfirst as (T' & C' & HT' & HC' & Hb' & Hf').
    destruct (awake_looks s' h T' c Hg' HT' Hb' Hfree') as (l2 & Hl2 & Hwp2).
    exists (l1 ++ l2). rewrite length_app. split; [lia|]. apply wp_runs_app. unfold wp at 1. rewrite Hrun.
    eapply wp_mono; [exact Hwp2|]. intros [] s2 (Hg2 & s3 & [Htk|(Hno & _)] & Hf); [|by destruct Hno; apply Hf].
    split; [done|]. exists h. split; [exact (task_not_null _ _ _ Hg' HT')|done].
Qed.
End live.
