(* ===== verification/TasksMain.v ===== *)
(** * Properties of tasks and Capabilities *)
From stdpp Require Import list gmap.
From S2P Require Import Prelude DList Tasks TasksInv TasksStep TasksKeep TasksActs TasksLive.
Local Open Scope Z_scope.

(** ** No failure but that of creating a thread *)
Definition no_barf {S A} (m : prog S A) : Prop := ∀ s, m s ≠ Err Barf.
Lemma no_barf_bind {S A B} (m : prog S A) (k : A → prog S B) : no_barf m → (∀ a, no_barf (k a)) → no_barf (m ≫= k).
Proof.
  intros Hm Hk s. unfold mbind, prog_bind. destruct (m s) as [[a s']|e] eqn:E; [apply Hk|]. intros [= ->]. by apply (Hm s).
Qed.
Lemma no_barf_ret {S A} (a : A) : no_barf (S := S) (mret a).
Proof. done. Qed.
Lemma no_barf_get {S} : no_barf (S := S) get.
Proof. done. Qed.
Lemma no_barf_modify {S} (f : S → S) : no_barf (modify f).
Proof. done. Qed.
Lemma no_barf_assert {S} b : no_barf (S := S) (ASSERT b).
Proof. by intros s; destruct b. Qed.
Lemma no_barf_deref {S A} (o : option A) : no_barf (S := S) (deref o).
Proof. by intros s; destruct o. Qed.
Lemma no_barf_load {S K V} `{Countable K} (f : S → gmap K V) p : no_barf (load f p).
Proof. intros s. unfold load. by destruct (f s !! p). Qed.
Lemma no_barf_fail {S A} e : e ≠ Barf → no_barf (S := S) (A := A) (fail e).
Proof. by intros H s [= ->]. Qed.
Create HintDb no_barf.
#[export] Hint Resolve no_barf_ret no_barf_get no_barf_modify no_barf_assert no_barf_deref no_barf_load : no_barf.
Ltac head_of t := lazymatch t with ?f _ => head_of f | _ => t end.
Ltac no_barf :=
  repeat (intros; first [solve [auto with no_barf] | lazymatch goal with
  | |- no_barf (mbind _ _) => apply no_barf_bind
  | |- no_barf (if ?b then _ else _) => destruct b eqn:?
  | |- no_barf (match ?x with _ => _ end) => destruct x
  | |- no_barf (when _ _) => unfold when
  | |- no_barf (fail _) => apply no_barf_fail
  | |- no_barf ?m => let h := head_of m in unfold h
  end]).

Section no_barf.
Context (malloc : gset ptr → ptr) (no_thread : gset ptr → bool).
Hypothesis threads : ∀ X, no_thread X = false.
Lemma upd_task_no_barf t f : no_barf (upd_task t f).
Proof. no_barf. Qed.
Lemma upd_cap_no_barf c f : no_barf (upd_cap c f).
Proof. no_barf. Qed.
Lemma startWorkerTask_no_barf c : no_barf (startWorkerTask malloc no_thread c).
Proof. unfold startWorkerTask. no_barf. by rewrite threads in *. Qed.
Hint Resolve upd_task_no_barf upd_cap_no_barf startWorkerTask_no_barf : no_barf.
Lemma releaseCapability_no_barf me c aw : no_barf (releaseCapability_ malloc no_thread me c aw).
Proof. no_barf. Qed.
Lemma dead_workers_no_barf fuel alive c prev t : no_barf (dead_workers fuel alive c prev t).
Proof.
  revert prev t. induction fuel as [|fuel IH]; intros prev t; cbn [dead_workers]; no_barf; by (apply IH || done).
Qed.
Hint Resolve releaseCapability_no_barf dead_workers_no_barf : no_barf.
Lemma task_step_no_barf t T m : task_step malloc no_thread t T = Some m → no_barf m.
Proof.
  unfold task_step. intros H. destruct (os_thread T); try done; try (injection H as <-; no_barf).
  all: destruct (decide _); [injection H as <-; no_barf|done].
Qed.
Lemma perform_no_barf a : no_barf (perform malloc no_thread a).
Proof.
  unfold perform. apply no_barf_bind; [apply no_barf_get|]. intros s. destruct a; try (no_barf; done).
  apply no_barf_bind; [no_barf|]. intros T. destruct (task_step malloc no_thread t T) as [m|] eqn:Em; [|done].
  exact (task_step_no_barf _ _ _ Em).
Qed.
End no_barf.

(** ** The start, and reachable states *)
Section main.
Context (malloc : gset ptr → ptr) (no_thread : gset ptr → bool).
Hypothesis malloc_fresh : ∀ X, (malloc X ∉ X) ∧ malloc X ≠ NULL.

Definition reachable (n : nat) (s : rts) : Prop := ∃ s0, initScheduler malloc no_thread n = Ok (tt, s0) ∧ steps malloc no_thread s0 s.

Lemma initCapabilities_ok n : Inv None (λ _, []) (λ _, []) (initCapabilities n).
Proof.
  split; cbn.
  - intros t T. by rewrite lookup_empty.
  - intros c C [-> _]%lookup_replicate. split; cbn; try done; [by intros th ?%elem_of_nil|constructor].
  - intros c C [-> _]%lookup_replicate _ _ [?|[_ [?|[? _]]]]; done.
  - done.
Qed.
Lemma initScheduler_ok n s0 : initScheduler malloc no_thread n = Ok (tt, s0) → good s0 ∧ length (capabilities s0) = n.
Proof.
  unfold initScheduler, startWorkerTasks.
  assert (∀ k from s, (from + k = n ∨ k = 0)%nat → good s → length (capabilities s) = n → (∀ c, (from ≤ c < n)%nat → is_free s c) →
    wpb (for_each (seq from k) (startWorkerTask malloc no_thread)) (λ _ s', good s' ∧ length (capabilities s') = n) s) as H.
  { induction k as [|k IH]; intros from s Hk (rq & sw & HI) Hl Hfree; cbn [seq for_each]; [apply wpb_wp, wp_ret; split; [by exists rq, sw|done]|].
    destruct (is_free_cap s from) as (C & HC & Hr); [apply Hfree; lia|]. apply wpb_bind. eapply wpb_startWorkerTask; [done|]. cbv zeta.
    destruct (malloc_fresh (dom (tasks s))) as [Hd Hn]. set (w := malloc _) in *.
    assert (Inv None rq sw (take w [] from (add_task w (fresh_task true) s))) as HI'.
    { eapply (Inv_take None rq sw _ w (fresh_task true)); [by apply Inv_add|by left|apply lookup_insert_eq|done..]. }
    apply IH; [lia|by exists rq, sw| |].
    - unfold take. by rewrite setC_length.
    - intros c Hc. unfold is_free, running, take. rewrite setC_cap, decide_False by lia. apply Hfree. lia. }
  intros E. specialize (H (n - 1) 1 (initCapabilities n))%nat. unfold wpb in H. rewrite E in H. apply H.
  - lia.
  - exists (λ _, []), (λ _, []). apply initCapabilities_ok.
  - cbn. apply length_replicate.
  - intros c Hc. unfold is_free, running. cbn. rewrite lookup_replicate_2 by lia. done.
Qed.
Lemma reachable_good n s : reachable n s → good s.
Proof.
  intros (s0 & Hi & Hs). induction Hs as [|s1 s2 Hs IH [a He Ha]]; [by eapply initScheduler_ok|].
  pose proof (perform_ok malloc no_thread malloc_fresh s1 a IH He) as H. unfold wpb in H. by rewrite Ha in H.
Qed.

(** A run given by its actions *)
Fixpoint plays (l : list action) (s : rts) : option rts :=
  match l with
  | [] => Some s
  | a :: l =>
    if enabled malloc no_thread a s then
      match perform malloc no_thread a s with Ok (_, s') => plays l s' | Err _ => None end
    else None
  end.
Lemma plays_reachable n l s0 s : initScheduler malloc no_thread n = Ok (tt, s0) → plays l s0 = Some s → reachable n s.
Proof.
  intros Hi Hl. exists s0. split; [done|]. assert (steps malloc no_thread s0 s0) as Hs by constructor.
  revert Hs Hl. generalize s0 at 2 3 as s1. induction l as [|a l IH]; intros s1 Hs; cbn; [by intros [= <-]|].
  destruct (enabled malloc no_thread a s1) eqn:He; [|done]. destruct (perform malloc no_thread a s1) as [[[] s2]|] eqn:Ha; [|done].
  apply IH. eapply steps_step; [exact Hs|]. by econstructor.
Qed.

(** ** Properties *)

(** C6: at most one task holds a Capability.  In every state that the tasks
    reach, [cap->running_task] is the one task whose OS thread holds the
    Capability, wherever that thread is, and it is NULL when none does. *)
Theorem capability_exclusive n s c C :
  reachable n s → capabilities s !! c = Some C →
  (∀ t T, tasks s !! t = Some T → c ∈ held (os_thread T) ↔ running_task C = t) ∧
  (running_task C = NULL ∨ is_Some (tasks s !! running_task C)).
Proof.
  intros (rq & sw & HI)%reachable_good HC. pose proof (inv_cap _ _ _ _ HI _ _ HC) as Hck. split.
  - intros t T HT. split; [by eapply held_run|]. intros E.
    assert (running_task C ≠ NULL) as Hn by (rewrite E; by apply (inv_task _ _ _ _ HI _ _ HT)).
    destruct (ck_run _ _ _ _ _ Hck Hn) as (T' & HT' & Hh). rewrite E, HT in HT'. by injection HT' as <-.
  - destruct (decide (running_task C = NULL)) as [?|Hn]; [by left|right].
    destruct (ck_run _ _ _ _ _ Hck Hn) as (T' & HT' & _). by exists T'.
Qed.

(** C37: in every state that the tasks reach, the queue of returning tasks of a
    Capability is well formed and has, each once, the tasks that wait in
    [waitForReturnCapability] for this Capability; the list of spare workers has
    the unbound tasks that wait in [yieldCapability]; [n_spare_workers] is its
    length, at most [MAX_SPARE_WORKERS]. *)
Theorem capability_queues n s c C :
  reachable n s → capabilities s !! c = Some C →
  ∃ ret spares,
    slist (nx s) (returning_tasks_hd C) ret NULL ∧ returning_tasks_tl C = default NULL (last ret) ∧ NoDup ret ∧
    (∀ t, t ∈ ret ↔ ∃ T, tasks s !! t = Some T ∧ returning (os_thread T) = true ∧ cap T = Some c) ∧
    slist (nx s) (spare_workers C) spares NULL ∧ NoDup spares ∧
    (∀ t, t ∈ spares ↔ ∃ T, tasks s !! t = Some T ∧ yielding (os_thread T) = true ∧ isBoundTask T = false ∧ cap T = Some c) ∧
    n_spare_workers C = Z.of_nat (length spares) ∧ n_spare_workers C <= MAX_SPARE_WORKERS.
Proof.
  intros (rq & sw & HI)%reachable_good HC. pose proof (inv_cap _ _ _ _ HI _ _ HC) as Hck. exists (rq c), (sw c).
  pose proof (ck_rq _ _ _ _ _ Hck) as H1. pose proof (ck_sw _ _ _ _ _ Hck) as H2.
  split_and!; [done|by apply Hck|by eapply slist_NoDup| |done|by eapply slist_NoDup| |by apply Hck|by apply Hck].
  - intros t. split.
    + intros Ht. destruct (queue_tasks _ _ _ _ _ t Hck) as [T HT]; [by left|]. exists T. split; [done|]. by apply (inv_task _ _ _ _ HI _ _ HT).
    + intros (T & HT & H). by apply (inv_task _ _ _ _ HI _ _ HT).
  - intros t. assert (∀ T, spare T = true ↔ yielding (os_thread T) = true ∧ isBoundTask T = false) as Hsp.
    { intros T. unfold spare. by rewrite andb_true_iff, negb_true_iff. }
    split.
    + intros Ht. destruct (queue_tasks _ _ _ _ _ t Hck) as [T HT]; [by right|]. exists T. split; [done|].
      destruct (proj1 (tk_sw _ _ _ _ _ (inv_task _ _ _ _ HI _ _ HT) c) Ht) as [[? ?]%Hsp ?]. done.
    + intros (T & HT & Hy & Hb & Hc). apply (tk_sw _ _ _ _ _ (inv_task _ _ _ _ HI _ _ HT)). rewrite Hsp. done.
Qed.

(** C7: no call on a Capability fails.  What a task that is entitled to it
    does in a state that the tasks reach, meets no failed assertion and no bad
    pointer, ends, and leads to such a state again; it stops the program only
    when the operating system cannot create a thread for a worker. *)
Theorem capability_no_failure n s a :
  reachable n s → enabled malloc no_thread a s = true →
  match perform malloc no_thread a s with
  | Ok (_, s') => reachable n s'
  | Err e => e = Barf ∧ ¬ (∀ X, no_thread X = false)
  end.
Proof.
  intros Hr He. pose proof (perform_ok malloc no_thread malloc_fresh s a (reachable_good n s Hr) He) as H.
  unfold wpb in H. destruct (perform malloc no_thread a s) as [[[] s']|e] eqn:Ha.
  - destruct Hr as (s0 & Hi & Hs). exists s0. split; [done|]. eapply steps_step; [exact Hs|by econstructor].
  - split; [done|]. intros Ht. apply (perform_no_barf malloc no_thread Ht a s). by rewrite Ha, H.
Qed.

(** C5: no wake-up is lost.  When, in a state that the tasks reach, a
    Capability is free and there is work for it (a task that returns, or, unless
    all Capabilities are being stopped, a thread or a message), then some
    tasks that are awake can run, for six steps at most, and one of them takes
    the Capability: nobody else has to act. *)
Theorem capability_no_lost_wakeup n s c C :
  reachable n s → capabilities s !! c = Some C → running_task C = NULL → wants s C →
  ∃ l s' C', (length l ≤ 6)%nat ∧ runs malloc no_thread l s = Ok (tt, s') ∧
    capabilities s' !! c = Some C' ∧ running_task C' ≠ NULL.
Proof.
  intros Hr%reachable_good HC Hf Hw. pose proof Hr as (rq & sw & HI).
  destruct (inv_baton _ _ _ _ HI c C) as [t Ht]; [done..|].
  destruct (awake_takes malloc no_thread s t c) as (l & Hl & Hwp); [done..| |].
  { unfold is_free, running. by rewrite HC, <- Hf. }
  apply wp_run in Hwp as ([] & s' & Hrun & _ & t' & Hn & Ht'). unfold running in Ht'.
  destruct (capabilities s' !! c) as [C'|] eqn:HC'; [|done]. injection Ht' as E. exists l, s', C'. by rewrite E.
Qed.
End main.

(** ** The walk over the spare workers in [shutdownCapability]

    [prev] is set behind a dead worker only: of a live worker in front of a dead
    one, none is left on the list, although it is still there. *)
Lemma dead_worker_drops_live s c C a A b B fuel alive :
  capabilities s !! c = Some C → spare_workers C = a → a ≠ NULL → b ≠ NULL →
  tasks s !! a = Some A → next A = b → tasks s !! b = Some B → next B = NULL → alive a = true → alive b = false →
  wp (dead_workers (S (S fuel)) alive c NULL (spare_workers C))
     (λ _ s', ∃ C', capabilities s' !! c = Some C' ∧ spare_workers C' = NULL ∧ n_spare_workers C' = n_spare_workers C - 1 ∧ tasks s' = tasks s) s.
Proof.
  intros HC -> Ha Hb HA HnA HB HnB Hal Hbl. cbn [dead_workers]. rewrite (proj2 (Z.eqb_neq _ _) Ha).
  wp_step. eapply wp_get_task; [done|]. cbv beta. rewrite Hal, HnA. cbn [negb]. rewrite (proj2 (Z.eqb_neq _ _) Hb).
  wp_step. eapply wp_get_task; [done|]. cbv beta. rewrite Hbl. cbn [negb].
  wp_step. eapply wp_get_cap; [done|]. cbv beta. wp_step. eapply wp_upd_cap; [done|]. cbv beta.
  rewrite Z.eqb_refl. wp_step. wp_step. eapply wp_get_cap; [by rewrite setC_cap, decide_True, HC|]. cbv beta.
  eapply wp_upd_cap; [by rewrite setC_cap, decide_True, HC|]. cbv beta. wp_step. eapply wp_get_task; [done|]. cbv beta. rewrite HnB.
  assert (∀ n p Q s', Q tt s' → wp (dead_workers n alive c p NULL) Q s') as Hend by (by intros []).
  apply Hend. eexists. rewrite setC_cap, decide_True, setC_cap, decide_True, HC by done. done.
Qed.

(** ** A run *)

(** A bound task holds the only Capability, a second one comes back from a
    foreign call and sleeps, and the first one lets the Capability go. *)
Definition above (X : gset ptr) : ptr := 1 + foldr Z.max 0 (elements X).
Lemma above_fresh X : (above X ∉ X) ∧ above X ≠ NULL.
Proof.
  assert (∀ l : list Z, 0 <= foldr Z.max 0 l ∧ ∀ x, x ∈ l → x <= foldr Z.max 0 l) as H.
  { induction l as [|y l [IH1 IH2]]; cbn; [split; [lia|by intros x ?%elem_of_nil]|]. split; [lia|].
    intros x [->|Hx%IH2]%elem_of_cons; lia. }
  destruct (H (elements X)) as [H1 H2]. unfold above, NULL, END. split; [|lia]. intros Hx%elem_of_elements%H2. lia.
Qed.
Definition always (_ : gset ptr) : bool := false.
Definition handover : list action :=
  [NewBoundTask; WaitForReturn 1 0 false; Run 1; NewBoundTask; WaitForReturn 2 0 true; Run 2; Run 2; Release 1 0 false].
Definition one_cap : rts := Eval vm_compute in match initScheduler above always 1 with Ok (_, s) => s | _ => initCapabilities 0 end.
Definition handed : rts := Eval vm_compute in default (initCapabilities 0) (plays above always handover one_cap).
Definition handed_cap : Capability := Eval vm_compute in default initCapability (head (capabilities handed)).
Lemma handed_reachable : reachable above always 1 handed.
Proof. apply (plays_reachable above always 1 handover one_cap); vm_compute; reflexivity. Qed.
Lemma handed_cap_ok : capabilities handed !! 0%nat = Some handed_cap.
Proof. reflexivity. Qed.

Lemma capability_exclusive_witness :
  ∃ T, tasks handed !! 2 = Some T ∧ os_thread T = ReturnSleep [] ∧ (0%nat ∈ held (os_thread T) ↔ running_task handed_cap = 2).
Proof.
  eexists. split; [reflexivity|]. split; [reflexivity|].
  apply (proj1 (capability_exclusive above always above_fresh 1 handed 0 handed_cap handed_reachable handed_cap_ok) 2). reflexivity.
Defined.
Lemma capability_queues_witness :
  returning_tasks_hd handed_cap = 2 ∧ ∃ spares, n_spare_workers handed_cap = Z.of_nat (length spares) ∧ slist (nx handed) (spare_workers handed_cap) spares NULL.
Proof.
  destruct (capability_queues above always above_fresh 1 handed 0 handed_cap handed_reachable handed_cap_ok)
    as (ret & spares & _ & _ & _ & _ & H1 & _ & _ & H2 & _).
  split; [reflexivity|]. exists spares. exact (conj H2 H1).
Defined.
Lemma capability_no_failure_witness :
  match perform above always (Run 2) handed with
  | Ok (_, s') => reachable above always 1 s'
  | Err e => e = Barf ∧ ¬ (∀ X, always X = false)
  end.
Proof. apply (capability_no_failure above always above_fresh 1 handed (Run 2) handed_reachable). vm_compute. reflexivity. Defined.
Lemma capability_no_lost_wakeup_witness :
  ∃ l s' C', (length l ≤ 6)%nat ∧ runs above always l handed = Ok (tt, s') ∧ capabilities s' !! 0%nat = Some C' ∧ running_task C' ≠ NULL.
Proof.
  apply (capability_no_lost_wakeup above always above_fresh 1 handed 0 handed_cap handed_reachable handed_cap_ok); [reflexivity|].
  left. discriminate.
Defined.
