(* ===== verification/Compact.v ===== *)
(** * The compacting collector (rts/sm/Compact.c, Compact.h)

    Jonkers' algorithm: every field that points to an object is threaded onto a
    chain that starts in the object's header, so that all of them can be set to
    the new address of the object as soon as it is known; objects then slide
    towards the start of the chain of blocks.

    The memory is a map from (byte) addresses to 64-bit words: the heap, the
    static objects, and the variables and structures that hold roots.  Info
    tables are read-only data behind their info pointers: [itbl]. *)
From stdpp Require Import list gmap.
From S2P Require Import Prelude DList ClosureFlags.
Local Open Scope Z_scope.

(** ** Words and blocks *)
Definition W (n : Z) : Z := 8 * n.
Definition BLOCK_SIZE : Z := 4096.
Definition BITS_IN_W : Z := 64.

(** The block descriptors of the generation that is compacted: [bd_marked] is
    the flag [BF_MARKED], [bitmap] the words of the mark bitmap of the block. *)
Record bdescr : Type := mkBd {
  start : Z;
  free : Z;
  bd_marked : bool;
  bitmap : list Z
}.
Definition set_free (x : Z) (b : bdescr) : bdescr := mkBd (start b) x (bd_marked b) (bitmap b).
Definition set_bitmap (x : list Z) (b : bdescr) : bdescr := mkBd (start b) (free b) (bd_marked b) x.

Record cstate : Type := mkC {
  words : gmap Z Z;
  old_blocks : list bdescr
}.
Definition set_words (x : gmap Z Z) (s : cstate) : cstate := mkC x (old_blocks s).
Definition set_old_blocks (x : list bdescr) (s : cstate) : cstate := mkC (words s) x.

Definition ld (a : Z) : prog cstate Z := load words a.
Definition st (a v : Z) : prog cstate unit :=
  _ ← ld a; modify (λ s, set_words (<[a := v]> (words s)) s).
Definition block (i : nat) : prog cstate bdescr := s ← get; deref (old_blocks s !! i).
Definition upd_block (i : nat) (f : bdescr → bdescr) : prog cstate unit :=
  b ← block i; modify (λ s, set_old_blocks (<[i := f b]> (old_blocks s)) s).

(** ** Mark bits *)
Definition offset_within_block (p : Z) (bd : bdescr) : Z := (p - start bd) / 8.
Definition bit_mask (off : Z) : Z := Z.shiftl 1 (Z.land off (BITS_IN_W - 1)).
Definition mark (p : Z) (i : nat) : prog cstate unit :=
  bd ← block i;
  let off := offset_within_block p bd in
  let k := Z.to_nat (off / BITS_IN_W) in
  w ← deref (bitmap bd !! k);
  upd_block i (set_bitmap (<[k := Z.lor w (bit_mask off)]> (bitmap bd))).
Definition unmark (p : Z) (i : nat) : prog cstate unit :=
  bd ← block i;
  let off := offset_within_block p bd in
  let k := Z.to_nat (off / BITS_IN_W) in
  w ← deref (bitmap bd !! k);
  upd_block i (set_bitmap (<[k := Z.land w (Z.lnot (bit_mask off))]> (bitmap bd))).
Definition is_marked (p : Z) (bd : bdescr) : bool :=
  let off := offset_within_block p bd in
  match bitmap bd !! Z.to_nat (off / BITS_IN_W) with
  | Some w => negb (Z.land w (bit_mask off) =? 0)
  | None => false
  end.

(** ** Threading *)

(** [HEAP_ALLOCED(q)] and [Bdescr(q)->flags & BF_MARKED]: that flag is set on
    blocks of the generation that is compacted only. *)
Definition in_block (q : Z) (bd : bdescr) : bool := (start bd <=? q) && (q <? start bd + BLOCK_SIZE).
Definition marked_block (q : Z) (s : cstate) : bool := existsb (λ bd, bd_marked bd && in_block q bd) (old_blocks s).

Definition thread (p : Z) : prog cstate unit :=
  q0 ← ld p;
  let q := UNTAG_CLOSURE q0 in
  s ← get;
  when (marked_block q s) (
    iptr ← ld q;
    if GET_CLOSURE_TAG iptr =? 0 then
      st p (iptr + GET_CLOSURE_TAG q0);;
      st q (p + 1)
    else if (GET_CLOSURE_TAG iptr =? 1) || (GET_CLOSURE_TAG iptr =? 2) then
      st p iptr;;
      st q (p + 2)
    else mret tt).
Definition thread_root : Z → prog cstate unit := thread.

Fixpoint unthread_loop (fuel : nat) (p q to : Z) : prog cstate unit :=
  match fuel with
  | O => fail Diverges
  | S fuel =>
    let tag := GET_CLOSURE_TAG q in
    if tag =? 0 then mret tt
    else if tag =? 1 then
      let q0 := q - 1 in
      r ← ld q0;
      st q0 to;;
      st p (UNTAG_CLOSURE r)
    else if tag =? 2 then
      let q0 := q - 2 in
      r ← ld q0;
      st q0 to;;
      unthread_loop fuel p r to
    else fail Barf
  end.
Definition unthread (p to : Z) : prog cstate unit :=
  s ← get;
  q ← ld p;
  unthread_loop (S (size (words s))) p q to.

Fixpoint move (size : nat) (to from : Z) : prog cstate unit :=
  match size with
  | O => mret tt
  | S size =>
    w ← ld from;
    st to w;;
    move size (to + 8) (from + 8)
  end.

(** ** Info tables *)
Inductive fun_type : Type := ARG_GEN | ARG_GEN_BIG | ARG_BCO | ARG_PATTERN (n : Z).
(** [layout] is a union: [ptrs] and [nptrs] of closures; [layout_bitmap] or
    [large_bitmap] of stack frames.  [ftype], [fun_bitmap] and
    [fun_large_bitmap] belong to the info tables of functions.  A large bitmap
    has a size and words. *)
Record StgInfoTable : Type := mkInfo {
  type : closure_type;
  ptrs : Z;
  nptrs : Z;
  layout_bitmap : Z;
  large_bitmap : Z * list Z;
  ftype : fun_type;
  fun_bitmap : Z;
  fun_large_bitmap : Z * list Z
}.
Definition BITMAP_SIZE (b : Z) : Z := Z.land b 63.
Definition BITMAP_BITS (b : Z) : Z := Z.shiftr b 6.
Definition END_OF_STATIC_LIST : Z := 1.

(** Sizes of the structures, in words *)
Definition sizeofW_StgHeader : Z := 1.
Definition sizeofW_StgThunk : Z := 2.
Definition sizeofW_StgPAP : Z := 3.
Definition sizeofW_StgAP : Z := 4.
Definition sizeofW_StgAP_STACK : Z := 4.
Definition sizeofW_StgInd : Z := 2.
Definition sizeofW_StgSelector : Z := 3.
Definition sizeofW_StgArrWords : Z := 2.
Definition sizeofW_StgMutArrPtrs : Z := 3.
Definition sizeofW_StgWeak : Z := 6.
Definition sizeofW_StgMVar : Z := 4.
Definition sizeofW_StgTSO : Z := 14.
Definition sizeofW_StgStack : Z := 3.
Definition TREC_CHUNK_NUM_ENTRIES : Z := 16.
Definition sizeofW_TRecEntry : Z := 4.
Definition sizeofW_StgTRecChunk : Z := 3 + TREC_CHUNK_NUM_ENTRIES * sizeofW_TRecEntry.

(** Fields: the [n]th word of a structure, and its two half words. *)
Definition field (p n : Z) : prog cstate Z := ld (p + W n).
Definition low_half (w : Z) : Z := Z.land w (2 ^ 32 - 1).
Definition high_half (w : Z) : Z := Z.shiftr w 32.
Definition why_blocked (w : Z) : Z := Z.land (Z.shiftr w 16) (2 ^ 16 - 1).
Definition NotBlocked : Z := 0.
Definition BlockedOnMVar : Z := 1.
Definition BlockedOnBlackHole : Z := 2.
Definition BlockedOnMsgThrowTo : Z := 12.
Definition arr_words_words (bytes : Z) : Z := (bytes + 8 - 1) / 8.

Section compact.
(** [itbl]: [INFO_PTR_TO_STRUCT]; [stg_arg_bitmaps]: the generated table of
    bitmaps, by function type. *)
Context (itbl : Z → option StgInfoTable) (stg_arg_bitmaps : Z → Z).

Definition INFO_PTR_TO_STRUCT (ip : Z) : prog cstate StgInfoTable := deref (itbl ip).
Definition get_itbl (p : Z) : prog cstate StgInfoTable := ip ← ld p; INFO_PTR_TO_STRUCT ip.
Definition LOOKS_LIKE_INFO_PTR (ip : Z) : bool :=
  negb (ip =? 0) && (IS_FORWARDING_PTR ip ||
    match itbl ip with Some i => negb (bool_decide (type i = INVALID_OBJECT)) | None => false end).
Definition LOOKS_LIKE_CLOSURE_PTR (p : Z) : prog cstate bool := w ← ld (UNTAG_CLOSURE p); mret (LOOKS_LIKE_INFO_PTR w).

Fixpoint threaded_info_loop (fuel : nat) (q : Z) : prog cstate Z :=
  match fuel with
  | O => fail Diverges
  | S fuel =>
    let tag := GET_CLOSURE_TAG q in
    if tag =? 0 then ASSERT (LOOKS_LIKE_INFO_PTR q);; mret q
    else if tag =? 1 then
      r ← ld (q - 1);
      ASSERT (LOOKS_LIKE_INFO_PTR (UNTAG_CLOSURE r));;
      mret r
    else if tag =? 2 then
      q ← ld (q - 2);
      threaded_info_loop fuel q
    else fail Barf
  end.
Definition get_threaded_info (p : Z) : prog cstate Z :=
  s ← get;
  q ← ld (UNTAG_CLOSURE p);
  threaded_info_loop (S (size (words s))) q.

(** ** Threading the fields of objects *)

(** [for (p = ...; p < end; p++) thread(p)] *)
Fixpoint thread_range (n : nat) (p : Z) : prog cstate unit :=
  match n with
  | O => mret tt
  | S n => thread p;; thread_range n (p + 8)
  end.
(** [while (size > 0) { if ((bitmap & 1) == 0) thread(p); p++; ... }] *)
Fixpoint thread_small_bitmap (size : nat) (p bitmap : Z) : prog cstate Z :=
  match size with
  | O => mret p
  | S size =>
    when (Z.land bitmap 1 =? 0) (thread p);;
    thread_small_bitmap size (p + 8) (Z.shiftr bitmap 1)
  end.
(** [word b] is [large_bitmap->bitmap[b]]; the loop reads a word in advance. *)
Fixpoint large_bitmap_loop (n : nat) (word : Z → prog cstate Z) (i b p bitmap : Z) : prog cstate unit :=
  match n with
  | O => mret tt
  | S n =>
    when (Z.land bitmap 1 =? 0) (thread p);;
    let i := i + 1 in
    if i mod BITS_IN_W =? 0 then
      bitmap ← word (b + 1);
      large_bitmap_loop n word i (b + 1) (p + 8) bitmap
    else large_bitmap_loop n word i b (p + 8) (Z.shiftr bitmap 1)
  end.
Definition thread_large_bitmap (p : Z) (word : Z → prog cstate Z) (size : Z) : prog cstate unit :=
  bitmap ← word 0;
  large_bitmap_loop (Z.to_nat size) word 0 0 p bitmap.
(** The words of a bitmap in an info table, and of the one in a BCO; what is
    read behind the last word is not used. *)
Definition static_word (bm : Z * list Z) (b : Z) : prog cstate Z := mret (default 0 (snd bm !! Z.to_nat b)).
Definition BCO_BITMAP_SIZE (bco : Z) : prog cstate Z := field bco 5.
Definition BCO_BITMAP_word (bco b : Z) : prog cstate Z := s ← get; mret (default 0 (words s !! (bco + W (6 + b)))).

Definition thread_arg_block (fun_info : StgInfoTable) (args : Z) : prog cstate Z :=
  match ftype fun_info with
  | ARG_GEN => thread_small_bitmap (Z.to_nat (BITMAP_SIZE (fun_bitmap fun_info))) args (BITMAP_BITS (fun_bitmap fun_info))
  | ARG_GEN_BIG =>
    let size := fst (fun_large_bitmap fun_info) in
    thread_large_bitmap args (static_word (fun_large_bitmap fun_info)) size;;
    mret (args + W size)
  | ARG_BCO =>
    thread_small_bitmap (Z.to_nat (BITMAP_SIZE (stg_arg_bitmaps 2))) args (BITMAP_BITS (stg_arg_bitmaps 2))
  | ARG_PATTERN n =>
    thread_small_bitmap (Z.to_nat (BITMAP_SIZE (stg_arg_bitmaps n))) args (BITMAP_BITS (stg_arg_bitmaps n))
  end.

Definition RET_DYN_NONPTRS (l : Z) : Z := Z.land (Z.shiftr l 16) 255.
Definition RET_DYN_PTRS (l : Z) : Z := Z.land (Z.shiftr l 24) 255.
Definition RET_DYN_LIVENESS (l : Z) : Z := Z.land l 65535.
Definition RET_DYN_BITMAP_SIZE : Z := 8.
Definition RET_DYN_NONPTR_REGS_SIZE : Z := 10.

(** One activation record, at [p]; the result is the address of the next. *)
Definition thread_frame (p : Z) : prog cstate Z :=
  info ← get_itbl p;
  match type info with
  | RET_DYN =>
    dyn ← field p 1;
    p ← thread_small_bitmap (Z.to_nat RET_DYN_BITMAP_SIZE) (p + W 3) (RET_DYN_LIVENESS dyn);
    let p := p + W (RET_DYN_NONPTRS dyn + RET_DYN_NONPTR_REGS_SIZE) in
    thread_range (Z.to_nat (RET_DYN_PTRS dyn)) p;;
    mret (p + W (RET_DYN_PTRS dyn))
  | CATCH_RETRY_FRAME | CATCH_STM_FRAME | ATOMICALLY_FRAME | UPDATE_FRAME
  | UNDERFLOW_FRAME | STOP_FRAME | CATCH_FRAME | RET_SMALL =>
    thread_small_bitmap (Z.to_nat (BITMAP_SIZE (layout_bitmap info))) (p + W 1) (BITMAP_BITS (layout_bitmap info))
  | RET_BCO =>
    let p := p + W 1 in
    bco ← ld p;
    thread p;;
    let p := p + W 1 in
    size ← BCO_BITMAP_SIZE bco;
    thread_large_bitmap p (BCO_BITMAP_word bco) size;;
    mret (p + W size)
  | RET_BIG =>
    let p := p + W 1 in
    let size := fst (large_bitmap info) in
    thread_large_bitmap p (static_word (large_bitmap info)) size;;
    mret (p + W size)
  | RET_FUN =>
    f ← field p 2;
    ip ← get_threaded_info f;
    fun_info ← INFO_PTR_TO_STRUCT (UNTAG_CLOSURE ip);
    thread (p + W 2);;
    thread_arg_block fun_info (p + W 3)
  | _ => fail Barf
  end.
Fixpoint thread_stack (fuel : nat) (p stack_end : Z) : prog cstate unit :=
  if p <? stack_end then
    match fuel with
    | O => fail Diverges
    | S fuel => p ← thread_frame p; thread_stack fuel p stack_end
    end
  else mret tt.

Definition thread_PAP_payload (f payload size : Z) : prog cstate Z :=
  ip ← get_threaded_info f;
  fun_info ← INFO_PTR_TO_STRUCT (UNTAG_CLOSURE ip);
  ASSERT (negb (bool_decide (type fun_info = PAP)));;
  match ftype fun_info with
  | ARG_GEN => thread_small_bitmap (Z.to_nat size) payload (BITMAP_BITS (fun_bitmap fun_info))
  | ARG_GEN_BIG =>
    thread_large_bitmap payload (static_word (fun_large_bitmap fun_info)) size;;
    mret (payload + W size)
  | ARG_BCO =>
    thread_large_bitmap payload (BCO_BITMAP_word f) size;;
    mret (payload + W size)
  | ARG_PATTERN n => thread_small_bitmap (Z.to_nat size) payload (BITMAP_BITS (stg_arg_bitmaps n))
  end.
Definition thread_PAP (pap : Z) : prog cstate Z :=
  f ← field pap 2;
  w ← field pap 1;
  p ← thread_PAP_payload f (pap + W sizeofW_StgPAP) (high_half w);
  thread (pap + W 2);;
  mret p.
Definition thread_AP (ap : Z) : prog cstate Z :=
  f ← field ap 3;
  w ← field ap 2;
  p ← thread_PAP_payload f (ap + W sizeofW_StgAP) (high_half w);
  thread (ap + W 3);;
  mret p.
Definition thread_AP_STACK (ap : Z) : prog cstate Z :=
  thread (ap + W 3);;
  size ← field ap 2;
  let payload := ap + W sizeofW_StgAP_STACK in
  thread_stack (Z.to_nat size) payload (payload + W size);;
  size ← field ap 2;
  mret (ap + W (sizeofW_StgAP_STACK + size)).
Definition thread_TSO (tso : Z) : prog cstate Z :=
  thread (tso + W 1);;
  thread (tso + W 2);;
  w ← field tso 4;
  let why := why_blocked w in
  when ((why =? BlockedOnMVar) || (why =? BlockedOnBlackHole) || (why =? BlockedOnMsgThrowTo) || (why =? NotBlocked))
    (thread (tso + W 5));;
  thread (tso + W 11);;
  thread (tso + W 12);;
  thread (tso + W 10);;
  thread (tso + W 3);;
  mret (tso + W sizeofW_StgTSO).
(** The entries [i], [i + 1], ... of a chunk of a transaction record; [e] is
    the address of entry [i]. *)
Fixpoint thread_entries (n : nat) (e : Z) : prog cstate unit :=
  match n with
  | O => mret tt
  | S n =>
    thread e;;
    thread (e + W 1);;
    thread (e + W 2);;
    thread_entries n (e + W sizeofW_TRecEntry)
  end.
Definition thread_TREC_CHUNK (tc : Z) : prog cstate unit :=
  thread (tc + W 1);;
  next_entry_idx ← field tc 2;
  thread_entries (Z.to_nat next_entry_idx) (tc + W 3).
Definition thread_MUT_ARR_PTRS (a : Z) : prog cstate unit :=
  n ← field a 1;
  thread_range (Z.to_nat n) (a + W sizeofW_StgMutArrPtrs).
Definition thread_STACK (stack : Z) : prog cstate unit :=
  sp ← field stack 2;
  w ← field stack 1;
  thread_stack (Z.to_nat (low_half w)) sp (stack + W (sizeofW_StgStack + low_half w)).

Definition thread_obj (info : StgInfoTable) (p : Z) : prog cstate Z :=
  let payload := p + W sizeofW_StgHeader in
  let thunk_payload := p + W sizeofW_StgThunk in
  match type info with
  | THUNK_0_1 => mret (p + W (sizeofW_StgThunk + 1))
  | FUN_0_1 | CONSTR_0_1 => mret (p + W (sizeofW_StgHeader + 1))
  | FUN_1_0 | CONSTR_1_0 => thread payload;; mret (p + W (sizeofW_StgHeader + 1))
  | THUNK_1_0 => thread thunk_payload;; mret (p + W (sizeofW_StgThunk + 1))
  | THUNK_0_2 => mret (p + W (sizeofW_StgThunk + 2))
  | FUN_0_2 | CONSTR_0_2 => mret (p + W (sizeofW_StgHeader + 2))
  | THUNK_1_1 => thread thunk_payload;; mret (p + W (sizeofW_StgThunk + 2))
  | FUN_1_1 | CONSTR_1_1 => thread payload;; mret (p + W (sizeofW_StgHeader + 2))
  | THUNK_2_0 => thread thunk_payload;; thread (thunk_payload + W 1);; mret (p + W (sizeofW_StgThunk + 2))
  | FUN_2_0 | CONSTR_2_0 => thread payload;; thread (payload + W 1);; mret (p + W (sizeofW_StgHeader + 2))
  | BCO =>
    thread (p + W 1);;
    thread (p + W 2);;
    thread (p + W 3);;
    w ← field p 4;
    mret (p + W (high_half w))
  | THUNK =>
    thread_range (Z.to_nat (ptrs info)) thunk_payload;;
    mret (thunk_payload + W (ptrs info + nptrs info))
  | FUN | CONSTR | PRIM | MUT_PRIM | MUT_VAR_CLEAN | MUT_VAR_DIRTY | BLACKHOLE | BLOCKING_QUEUE =>
    thread_range (Z.to_nat (ptrs info)) payload;;
    mret (payload + W (ptrs info + nptrs info))
  | WEAK =>
    thread (p + W 1);;
    thread (p + W 2);;
    thread (p + W 3);;
    thread (p + W 4);;
    link ← field p 5;
    when (negb (link =? 0)) (thread (p + W 5));;
    mret (p + W sizeofW_StgWeak)
  | MVAR_CLEAN | MVAR_DIRTY =>
    thread (p + W 1);;
    thread (p + W 2);;
    thread (p + W 3);;
    mret (p + W sizeofW_StgMVar)
  | IND | IND_PERM => thread (p + W 1);; mret (p + W sizeofW_StgInd)
  | THUNK_SELECTOR => thread (p + W 2);; mret (p + W sizeofW_StgSelector)
  | AP_STACK => thread_AP_STACK p
  | PAP => thread_PAP p
  | AP => thread_AP p
  | ARR_WORDS => bytes ← field p 1; mret (p + W (sizeofW_StgArrWords + arr_words_words bytes))
  | MUT_ARR_PTRS_CLEAN | MUT_ARR_PTRS_DIRTY | MUT_ARR_PTRS_FROZEN | MUT_ARR_PTRS_FROZEN0 =>
    thread_MUT_ARR_PTRS p;;
    size ← field p 2;
    mret (p + W (sizeofW_StgMutArrPtrs + size))
  | TSO => thread_TSO p
  | STACK =>
    thread_STACK p;;
    w ← field p 1;
    mret (p + W (sizeofW_StgStack + low_half w))
  | TREC_CHUNK => thread_TREC_CHUNK p;; mret (p + W sizeofW_StgTRecChunk)
  | _ => fail Barf
  end.

(** The size of the closure at [p], in words *)
Definition closure_sizeW_ (p : Z) (info : StgInfoTable) : prog cstate Z :=
  match type info with
  | THUNK_0_1 | THUNK_1_0 => mret (sizeofW_StgThunk + 1)
  | FUN_0_1 | CONSTR_0_1 | FUN_1_0 | CONSTR_1_0 => mret (sizeofW_StgHeader + 1)
  | THUNK_0_2 | THUNK_1_1 | THUNK_2_0 => mret (sizeofW_StgThunk + 2)
  | FUN_0_2 | CONSTR_0_2 | FUN_1_1 | CONSTR_1_1 | FUN_2_0 | CONSTR_2_0 => mret (sizeofW_StgHeader + 2)
  | THUNK => mret (sizeofW_StgThunk + ptrs info + nptrs info)
  | THUNK_SELECTOR => mret sizeofW_StgSelector
  | AP_STACK => size ← field p 2; mret (sizeofW_StgAP_STACK + size)
  | AP => w ← field p 2; mret (sizeofW_StgAP + high_half w)
  | PAP => w ← field p 1; mret (sizeofW_StgPAP + high_half w)
  | IND | IND_PERM => mret sizeofW_StgInd
  | ARR_WORDS => bytes ← field p 1; mret (sizeofW_StgArrWords + arr_words_words bytes)
  | MUT_ARR_PTRS_CLEAN | MUT_ARR_PTRS_DIRTY | MUT_ARR_PTRS_FROZEN | MUT_ARR_PTRS_FROZEN0 =>
    size ← field p 2; mret (sizeofW_StgMutArrPtrs + size)
  | TSO => mret sizeofW_StgTSO
  | STACK => w ← field p 1; mret (sizeofW_StgStack + low_half w)
  | BCO => w ← field p 4; mret (high_half w)
  | TREC_CHUNK => mret sizeofW_StgTRecChunk
  | _ => mret (sizeofW_StgHeader + ptrs info + nptrs info)
  end.

(** ** Objects outside the compacted generation *)
Fixpoint update_fwd_block (fuel : nat) (p end_ : Z) : prog cstate unit :=
  if p <? end_ then
    match fuel with
    | O => fail Diverges
    | S fuel =>
      ok ← LOOKS_LIKE_CLOSURE_PTR p;
      ASSERT ok;;
      info ← get_itbl p;
      p ← thread_obj info p;
      update_fwd_block fuel p end_
    end
  else mret tt.
(** [blocks]: from [bd->start] to [bd->free] of each block of the chain *)
Definition update_fwd (blocks : list (Z * Z)) : prog cstate unit :=
  for_each blocks (λ bd, update_fwd_block (Z.to_nat BLOCK_SIZE) (fst bd) (snd bd)).
(** One large object: whether its block is [BF_PINNED], and where it starts *)
Definition update_fwd_large_object (bd : bool * Z) : prog cstate unit :=
  let p := snd bd in
  if fst bd then mret tt else
  info ← get_itbl p;
  match type info with
  | ARR_WORDS => mret tt
  | MUT_ARR_PTRS_CLEAN | MUT_ARR_PTRS_DIRTY | MUT_ARR_PTRS_FROZEN | MUT_ARR_PTRS_FROZEN0 => thread_MUT_ARR_PTRS p
  | STACK => thread_STACK p
  | AP_STACK => _ ← thread_AP_STACK p; mret tt
  | PAP => _ ← thread_PAP p; mret tt
  | TREC_CHUNK => thread_TREC_CHUNK p
  | _ => fail Barf
  end.
Definition update_fwd_large (bds : list (bool * Z)) : prog cstate unit := for_each bds update_fwd_large_object.

(** ** The compacted generation *)

(** [while (p < bd->free && !is_marked(p,bd)) p++] *)
Fixpoint skip_unmarked (fuel : nat) (p : Z) (bd : bdescr) : Z :=
  match fuel with
  | O => p
  | S fuel => if (p <? free bd) && negb (is_marked p bd) then skip_unmarked fuel (p + 8) bd else p
  end.
Definition next_marked (p : Z) (bd : bdescr) : Z := skip_unmarked (Z.to_nat (free bd - p)) p bd.

(** The object at [p] in block [i]; it goes to [to] in block [fb], or to the
    next block.  The result: where the next object goes, and the end of this
    one. *)
Definition fwd_object (i : nat) (p : Z) (fb : nat) (to : Z) : prog cstate (nat * Z * Z) :=
  iptr ← get_threaded_info p;
  info ← INFO_PTR_TO_STRUCT (UNTAG_CLOSURE iptr);
  let q := p in
  p ← thread_obj info p;
  let size := (p - q) / 8 in
  free_bd ← block fb;
  '(fb, to) ←
    (if start free_bd + BLOCK_SIZE <? to + W size then
       mark (q + W 1) i;;
       free_bd ← block (S fb);
       mret (S fb, start free_bd)
     else
       bd ← block i;
       ASSERT (negb (is_marked (q + W 1) bd));;
       mret (fb, to));
  unthread q (to + GET_CLOSURE_TAG iptr);;
  mret (fb, to + W size, p).
(** The objects of block [i] from [p] on *)
Fixpoint fwd_block (fuel : nat) (i : nat) (p : Z) (fb : nat) (to : Z) : prog cstate (nat * Z) :=
  bd ← block i;
  let p := next_marked p bd in
  if p <? free bd then
    match fuel with
    | O => fail Diverges
    | S fuel =>
      '(fb, to, p) ← fwd_object i p fb to;
      fwd_block fuel i p fb to
    end
  else mret (fb, to).
(** The blocks [i], [i + 1], ... *)
Fixpoint fwd_blocks (n i fb : nat) (to : Z) : prog cstate (nat * Z) :=
  match n with
  | O => mret (fb, to)
  | S n =>
    bd ← block i;
    '(fb, to) ← fwd_block (Z.to_nat BLOCK_SIZE) i (start bd) fb to;
    fwd_blocks n (S i) fb to
  end.
Definition update_fwd_compact : prog cstate unit :=
  s ← get;
  free_bd ← block 0;
  _ ← fwd_blocks (length (old_blocks s)) 0 0 (start free_bd);
  mret tt.

(** [move_STACK] *)
Definition move_STACK (src dest : Z) : prog cstate unit :=
  sp ← field dest 2;
  st (dest + W 2) (sp + (dest - src)).

Definition bkwd_object (i : nat) (p : Z) (fb : nat) (to : Z) : prog cstate (nat * Z * Z) :=
  bd ← block i;
  '(fb, to) ←
    (if is_marked (p + W 1) bd then
       upd_block fb (set_free to);;
       free_bd ← block (S fb);
       mret (S fb, start free_bd)
     else mret (fb, to));
  iptr ← get_threaded_info p;
  unthread p (to + GET_CLOSURE_TAG iptr);;
  w ← ld p;
  ASSERT (LOOKS_LIKE_INFO_PTR w);;
  info ← get_itbl p;
  size ← closure_sizeW_ p info;
  when (negb (to =? p)) (move (Z.to_nat size) to p);;
  when (bool_decide (type info = STACK)) (move_STACK p to);;
  mret (fb, to + W size, p + W size).
Fixpoint bkwd_block (fuel : nat) (i : nat) (p : Z) (fb : nat) (to : Z) : prog cstate (nat * Z) :=
  bd ← block i;
  let p := next_marked p bd in
  if p <? free bd then
    match fuel with
    | O => fail Diverges
    | S fuel =>
      '(fb, to, p) ← bkwd_object i p fb to;
      bkwd_block fuel i p fb to
    end
  else mret (fb, to).
Fixpoint bkwd_blocks (n i fb : nat) (to : Z) : prog cstate (nat * Z) :=
  match n with
  | O => mret (fb, to)
  | S n =>
    bd ← block i;
    '(fb, to) ← bkwd_block (Z.to_nat BLOCK_SIZE) i (start bd) fb to;
    bkwd_blocks n (S i) fb to
  end.
(** The blocks behind the last one in use are freed; the result is how many are
    left. *)
Definition update_bkwd_compact : prog cstate nat :=
  s ← get;
  free_bd ← block 0;
  '(fb, to) ← bkwd_blocks (length (old_blocks s)) 0 0 (start free_bd);
  upd_block fb (set_free to);;
  modify (λ s, set_old_blocks (firstn (S fb) (old_blocks s)) s);;
  mret (S fb).

(** ** The roots *)
Fixpoint thread_static (fuel : nat) (p : Z) : prog cstate unit :=
  if p =? END_OF_STATIC_LIST then mret tt else
  match fuel with
  | O => fail Diverges
  | S fuel =>
    info ← get_itbl p;
    match type info with
    | IND_STATIC => thread (p + W 1);; p ← field p 2; thread_static fuel p
    | THUNK_STATIC => p ← field p 2; thread_static fuel p
    | FUN_STATIC => p ← field p 1; thread_static fuel p
    | CONSTR_STATIC => p ← field p (1 + ptrs info + nptrs info); thread_static fuel p
    | _ => fail Barf
    end
  end.

(** Where [compact] finds its roots: the addresses of the variables and fields
    that the functions of other files ([markCapabilities], [markScheduler],
    [threadStablePtrTable], [markCAFs]) and its own loops over mutable lists,
    generations and in-calls pass to [thread], in the order of the calls. *)
Record roots : Type := mkRoots {
  mark_capabilities : list Z;
  mark_scheduler : list Z;
  weak_ptr_list : Z;
  old_weak_ptr_list : Z;
  mut_lists : list (Z * Z);
  gen_threads : list Z;
  resurrected_threads : Z;
  incall_tsos : list Z;
  static_objects : Z;
  stable_ptr_table : list Z;
  mark_CAFs : list Z
}.
Definition thread_weak_list (a : Z) : prog cstate unit := w ← ld a; when (negb (w =? 0)) (thread a).
Definition thread_incall (a : Z) : prog cstate unit := tso ← ld a; when (negb (tso =? 0)) (thread a).
Definition thread_mut_list (bd : Z * Z) : prog cstate unit := thread_range (Z.to_nat ((snd bd - fst bd) / 8)) (fst bd).
Definition thread_roots (r : roots) : prog cstate unit :=
  for_each (mark_capabilities r) thread_root;;
  for_each (mark_scheduler r) thread_root;;
  thread_weak_list (weak_ptr_list r);;
  thread_weak_list (old_weak_ptr_list r);;
  for_each (mut_lists r) thread_mut_list;;
  for_each (gen_threads r) thread;;
  thread (resurrected_threads r);;
  for_each (incall_tsos r) thread_incall;;
  s ← get;
  thread_static (size (words s)) (static_objects r);;
  for_each (stable_ptr_table r) thread_root;;
  for_each (mark_CAFs r) thread_root.
(** The chains of blocks of a generation that are not compacted ([gen->blocks]
    and those of the collector's threads), and its large objects *)
Record generation : Type := mkGen {
  gen_blocks : list (Z * Z);
  scavenged_large_objects : list (bool * Z)
}.
(** [gens]: all generations, the oldest last; the compacted blocks belong to
    the oldest one. *)
Definition compact (r : roots) (gens : list generation) : prog cstate unit :=
  thread_roots r;;
  for_each gens (λ gen, update_fwd (gen_blocks gen);; update_fwd_large (scavenged_large_objects gen));;
  s ← get;
  when (match old_blocks s with [] => false | _ => true end) (
    update_fwd_compact;;
    _ ← update_bkwd_compact;
    mret tt).
End compact.
