(* ===== verification/CompactChain.v ===== *)
(** * Chains of threaded fields

    A memory with threaded fields is described by the memory in which all
    chains are undone ([flat]), and the chain of each object: its fields, the
    one threaded last in front.  Threading a field is invisible in the flat
    memory; unthreading an object sets the fields of its chain there. *)
From stdpp Require Import list gmap.
From S2P Require Import Prelude DList ClosureFlags Compact.
Local Open Scope Z_scope.

(** ** Tags *)
Definition aligned (a : Z) : Prop := a mod 8 = 0.
Lemma tag_mod p : GET_CLOSURE_TAG p = p mod 8.
Proof. unfold GET_CLOSURE_TAG. change TAG_MASK with (Z.ones 3). by rewrite Z.land_ones. Qed.
Lemma untag_mod p : UNTAG_CLOSURE p = p - p mod 8.
Proof.
  unfold UNTAG_CLOSURE. change TAG_MASK with (Z.ones 3). rewrite Z.ldiff_ones_r by lia.
  rewrite Z.shiftr_div_pow2, Z.shiftl_mul_pow2 by lia. change (2 ^ 3) with 8. pose proof (Z.div_mod p 8). lia.
Qed.
Lemma tag_add q t : aligned q → 0 <= t < 8 → GET_CLOSURE_TAG (q + t) = t.
Proof. unfold aligned. rewrite tag_mod. intros H Ht. rewrite Z.add_mod, H, Z.add_0_l, Z.mod_mod by lia. by apply Z.mod_small. Qed.
Lemma untag_add q t : aligned q → 0 <= t < 8 → UNTAG_CLOSURE (q + t) = q.
Proof. intros H Ht. rewrite untag_mod, <- tag_mod, tag_add by done. lia. Qed.
Lemma untag_aligned q : aligned q → UNTAG_CLOSURE q = q.
Proof. intros H. rewrite <- (Z.add_0_r q) at 1. by apply untag_add. Qed.
Lemma tag_aligned q : aligned q → GET_CLOSURE_TAG q = 0.
Proof. intros H. rewrite <- (Z.add_0_r q). by apply tag_add. Qed.
Lemma tagged_inj q t q' t' : aligned q → aligned q' → 0 <= t < 8 → 0 <= t' < 8 → q + t = q' + t' → q = q'.
Proof. intros H H' Ht Ht' E. rewrite <- (untag_add q t), <- (untag_add q' t'), E by done. done. Qed.
Lemma aligned_W a n : aligned a → aligned (a + W n).
Proof. unfold aligned, W. intros H. rewrite Z.mul_comm, Z.mod_add; [done|lia]. Qed.

(** ** Loads and stores *)
Definition set_word (a v : Z) (s : cstate) : cstate := set_words (<[a := v]> (words s)) s.
Lemma wp_ld_word a v Q s : words s !! a = Some v → Q v s → wp (ld a) Q s.
Proof. apply wp_load. Qed.
Lemma wp_st a v w Q s : words s !! a = Some w → Q tt (set_word a v s) → wp (st a v) Q s.
Proof. intros H HQ. unfold st. wp_step. eapply wp_ld_word; [done|]. cbv beta. wp_step. exact HQ. Qed.
Lemma set_word_words a v s b : words (set_word a v s) !! b = if decide (a = b) then Some v else words s !! b.
Proof. cbn. destruct (decide (a = b)) as [<-|]; [by rewrite lookup_insert_eq|by rewrite lookup_insert_ne]. Qed.

(** ** Chains *)
Definition link (l : list Z) (w : Z) : Z := match l with [] => w | [f] => f + 1 | f :: _ => f + 2 end.
(** [tg q]: the tag of the pointer that was threaded first; it is at the end of
    the chain of [q], on the info pointer. *)
Record threaded (tg : Z → Z) (ch : Z → list Z) (flat : gmap Z Z) (m : gmap Z Z) : Prop := {
  th_other a : ch a = [] → (∀ q, a ∉ ch q) → m !! a = flat !! a;
  th_head q : ch q ≠ [] → ∃ i, flat !! q = Some i ∧ aligned i ∧ aligned q ∧ m !! q = Some (link (ch q) i);
  th_cell q i pre f post : flat !! q = Some i → ch q = pre ++ f :: post → m !! f = Some (link post (i + tg q));
  th_field q f : f ∈ ch q → (∃ t, 0 <= t < 8 ∧ flat !! f = Some (q + t)) ∧ aligned f ∧ ch f = [];
  th_tag q : ch q ≠ [] → 0 <= tg q < 8;
  th_nodup q : NoDup (ch q)
}.
Definition updc (ch : Z → list Z) (q : Z) (l : list Z) : Z → list Z := λ q', if decide (q' = q) then l else ch q'.
Lemma updc_eq ch q l : updc ch q l q = l.
Proof. unfold updc. by rewrite decide_True. Qed.
Lemma updc_ne ch q l q' : q' ≠ q → updc ch q l q' = ch q'.
Proof. intros. unfold updc. by rewrite decide_False. Qed.

Lemma link_tag l w : aligned w → (∀ f, f ∈ l → aligned f) →
  GET_CLOSURE_TAG (link l w) = match l with [] => 0 | [_] => 1 | _ => 2 end.
Proof.
  intros Hw Hl. destruct l as [|f [|g l]]; cbn.
  - by apply tag_aligned.
  - apply tag_add; [apply Hl; by left|lia].
  - apply tag_add; [apply Hl; by left|lia].
Qed.
Lemma elem_of_not_nil (f : Z) l : f ∈ l → l ≠ [].
Proof. by intros H ->; apply elem_of_nil in H. Qed.
Section chains.
Context (tg : Z → Z).
Implicit Types (ch : Z → list Z) (flat m : gmap Z Z).

Lemma th_one_chain ch flat m q q' f : threaded tg ch flat m → f ∈ ch q → f ∈ ch q' → q = q'.
Proof.
  intros HR H H'. destruct (th_field _ _ _ _ HR q f H) as ((t & Ht & E) & _). destruct (th_field _ _ _ _ HR q' f H') as ((t' & Ht' & E') & _).
  rewrite E in E'. injection E' as E'.
  pose proof (elem_of_not_nil _ _ H) as Hn. pose proof (elem_of_not_nil _ _ H') as Hn'.
  destruct (th_head _ _ _ _ HR q Hn) as (? & _ & _ & Ha & _). destruct (th_head _ _ _ _ HR q' Hn') as (? & _ & _ & Ha' & _).
  exact (tagged_inj q t q' t' Ha Ha' Ht Ht' E').
Qed.
Lemma th_aligned ch flat m q : threaded tg ch flat m → ∀ f, f ∈ ch q → aligned f.
Proof. intros HR f Hf. by apply (th_field _ _ _ _ HR q f Hf). Qed.
Lemma th_head_any ch flat m q i : threaded tg ch flat m → flat !! q = Some i → (∀ q', q ∉ ch q') → m !! q = Some (link (ch q) i).
Proof.
  intros HR Hi Hn. destruct (ch q) as [|f l] eqn:E; [by rewrite (th_other _ _ _ _ HR)|].
  destruct (th_head _ _ _ _ HR q) as (i' & Hi' & _ & _ & H); [by rewrite E|]. rewrite Hi in Hi'. injection Hi' as <-. by rewrite E in H.
Qed.
(** An object's header is not a field. *)
Lemma th_not_field ch flat m q : threaded tg ch flat m → ch q ≠ [] → ∀ q', q ∉ ch q'.
Proof. intros HR Hq q' H. destruct (th_field _ _ _ _ HR q' q H) as (_ & _ & E). done. Qed.

Lemma threaded_ext ch ch' flat m : (∀ q, ch' q = ch q) → threaded tg ch flat m → threaded tg ch' flat m.
Proof.
  intros E HR. split.
  - intros a Ha Hn. apply (th_other _ _ _ _ HR); [by rewrite <- E|]. intros q. rewrite <- E. apply Hn.
  - intros q. rewrite E. apply (th_head _ _ _ _ HR).
  - intros q i pre f post. rewrite E. apply (th_cell _ _ _ _ HR).
  - intros q f. rewrite !E. apply (th_field _ _ _ _ HR).
  - intros q. rewrite E. apply (th_tag _ _ _ _ HR).
  - intros q. rewrite E. apply (th_nodup _ _ _ _ HR).
Qed.
Lemma threaded_refl flat : threaded tg (λ _, []) flat flat.
Proof.
  split; try done.
  - by intros q i [|? ?] f post.
  - by intros q f ?%elem_of_nil.
  - constructor.
Qed.
End chains.

(** ** get_threaded_info *)
Section ops.
Context (itbl : Z → option StgInfoTable) (tg : Z → Z).
Implicit Types (ch : Z → list Z) (flat m : gmap Z Z).

Definition info_of (ch : Z → list Z) (q i : Z) : Z := match ch q with [] => i | _ => i + tg q end.

Lemma threaded_info_loop_ok ch flat s q i l pre fuel Q :
  threaded tg ch flat (words s) → ch q = pre ++ l → l ≠ [] → flat !! q = Some i → LOOKS_LIKE_INFO_PTR itbl i = true →
  (length l < fuel)%nat → Q (i + tg q) s →
  wp (threaded_info_loop itbl fuel (link l i)) Q s.
Proof.
  intros HR. revert pre l. induction fuel as [|fuel IH]; intros pre l Hch Hl Hi Hlk Hf HQ; [lia|]. cbn [threaded_info_loop].
  assert (ch q ≠ []) as Hne by (rewrite Hch; by destruct pre, l).
  destruct (th_head _ _ _ _ HR q Hne) as (i' & Hi' & Hai & Haq & _). rewrite Hi in Hi'. injection Hi' as <-.
  assert (∀ f, f ∈ l → aligned f) as Hal by (intros f Hf'; eapply (th_aligned tg ch flat _ q); [exact HR|rewrite Hch; apply elem_of_app; by right]).
  pose proof (th_tag _ _ _ _ HR q Hne) as Htg.
  destruct l as [|f l]; [done|]. pose proof (th_cell _ _ _ _ HR q i pre f l Hi Hch) as Hcell.
  rewrite (link_tag (f :: l) i Hai Hal). destruct l as [|g l]; cbn [link] in *.
  - cbn. wp_step. eapply wp_ld_word; [by replace (f + 1 - 1) with f by lia|]. cbv beta.
    wp_step. apply wp_assert; [rewrite untag_add by done; exact Hlk|]. by apply wp_ret.
  - cbn. wp_step. eapply wp_ld_word; [by replace (f + 2 - 2) with f by lia|]. cbv beta.
    replace (match l with [] => g + 1 | _ :: _ => g + 2 end) with (link (g :: l) i) by (by destruct l).
    apply (IH (pre ++ [f]) (g :: l)); [by rewrite <- app_assoc|done|done|done|cbn in *; lia|done].
Qed.
Lemma chain_length ch flat m q : threaded tg ch flat m → (length (ch q) ≤ size m)%nat.
Proof.
  intros HR. rewrite <- (size_dom (D := gset Z)). etrans; [|apply (subseteq_size (list_to_set (ch q) : gset Z))].
  - rewrite size_list_to_set; [done|by eapply th_nodup].
  - intros f. rewrite elem_of_list_to_set. intros Hf. apply elem_of_dom.
    destruct (ch q) as [|g l] eqn:E; [by apply elem_of_nil in Hf|]. destruct (th_head _ _ _ _ HR q) as (i & Hi & _); [by rewrite E|].
    rewrite <- E in Hf. apply list_elem_of_split in Hf as (pre & post & Hch). rewrite (th_cell _ _ _ _ HR q i pre f post Hi Hch). by eexists.
Qed.
Lemma get_threaded_info_ok ch flat s p q i Q :
  threaded tg ch flat (words s) → UNTAG_CLOSURE p = q → flat !! q = Some i → aligned i → (∀ q', q ∉ ch q') →
  LOOKS_LIKE_INFO_PTR itbl i = true → Q (info_of ch q i) s → wp (get_threaded_info itbl p) Q s.
Proof.
  intros HR Hp Hi Hai Hn Hlk HQ. unfold get_threaded_info. wp_step. apply wp_get. cbv beta. wp_step. rewrite Hp.
  eapply wp_ld_word; [by eapply th_head_any|]. cbv beta. unfold info_of in HQ. pose proof (chain_length ch flat (words s) q HR) as Hlen.
  destruct (ch q) as [|f l] eqn:E.
  - cbn [link threaded_info_loop]. rewrite tag_aligned by done. cbn. wp_step. apply wp_assert; [done|]. by apply wp_ret.
  - eapply (threaded_info_loop_ok ch flat s q i (f :: l) []); try done. lia.
Qed.
End ops.

(** ** thread *)
Section threading.
Context (tg : Z → Z).
Implicit Types (ch : Z → list Z) (flat m : gmap Z Z).

(** [p] is a field, with tag [t], that may be threaded onto the chain of [q]. *)
Record may_thread (ch : Z → list Z) (flat : gmap Z Z) (p q i t : Z) : Prop := {
  mt_field : flat !! p = Some (q + t);
  mt_tag : 0 <= t < 8;
  mt_info : flat !! q = Some i;
  mt_aligned : aligned i ∧ aligned q ∧ aligned p;
  mt_free q' : p ∉ ch q';
  mt_nohead : ch p = [];
  mt_header q' : q ∉ ch q';
  mt_ne : p ≠ q
}.
Definition push_tag (ch : Z → list Z) (q t : Z) : Z → Z := match ch q with [] => λ q', if decide (q' = q) then t else tg q' | _ => tg end.
Lemma push_tag_ne ch q t q' : q' ≠ q → push_tag ch q t q' = tg q'.
Proof. intros. unfold push_tag. destruct (ch q); [by rewrite decide_False|done]. Qed.
Lemma push_tag_eq ch q t : (0 <= t < 8 → (ch q ≠ [] → 0 <= tg q < 8) → 0 <= push_tag ch q t q < 8) ∧ (ch q ≠ [] → push_tag ch q t q = tg q) ∧ (ch q = [] → push_tag ch q t q = t).
Proof. unfold push_tag. destruct (ch q); [rewrite decide_True by done|]; naive_solver. Qed.
Lemma link_any l w w' : l ≠ [] → link l w = link l w'.
Proof. by destruct l. Qed.
Lemma threaded_push ch flat m p q i t :
  threaded tg ch flat m → may_thread ch flat p q i t →
  threaded (push_tag ch q t) (updc ch q (p :: ch q)) flat (<[q := link (p :: ch q) i]> (<[p := link (ch q) (i + t)]> m)).
Proof.
  intros HR []. destruct mt_aligned0 as (Hai & Haq & Hap). destruct (push_tag_eq ch q t) as (Hpt1 & Hpt2 & Hpt3). split.
  - intros a Ha Hn. assert (a ≠ q) as Haq' by (intros ->; by rewrite updc_eq in Ha). rewrite updc_ne in Ha by done.
    assert (a ≠ p) as Hap' by (intros ->; apply (Hn q); rewrite updc_eq; by left).
    rewrite !lookup_insert_ne by done. apply (th_other _ _ _ _ HR); [done|]. intros q' Hq'. apply (Hn q').
    destruct (decide (q' = q)) as [->|]; [rewrite updc_eq; by right|by rewrite updc_ne].
  - intros q' Hq'. destruct (decide (q' = q)) as [->|Hne].
    + exists i. by rewrite updc_eq, lookup_insert_eq.
    + rewrite updc_ne in * by done. rewrite !lookup_insert_ne; [by apply (th_head _ _ _ _ HR)|by intros ->|done].
  - intros q' i' pre f post Hi'. destruct (decide (q' = q)) as [->|Hne].
    + rewrite updc_eq. rewrite mt_info0 in Hi'. injection Hi' as <-. destruct pre as [|x pre]; intros [= -> E].
      * subst. rewrite lookup_insert_ne, lookup_insert_eq by done. f_equal.
        destruct (decide (ch q = [])) as [E|Hne]; [by rewrite (Hpt3 E)|by apply link_any].
      * assert (f ∈ ch q) as Hf by (rewrite E; apply elem_of_app; right; by left).
        rewrite Hpt2 by by eapply elem_of_not_nil.
        rewrite !lookup_insert_ne; [by eapply (th_cell _ _ _ _ HR)|by intros ->; apply (mt_free0 q)|by intros ->; apply (mt_header0 f)].
    + rewrite updc_ne by done. intros E. assert (f ∈ ch q') as Hf by (rewrite E; apply elem_of_app; right; by left). rewrite push_tag_ne by done.
      rewrite !lookup_insert_ne; [by eapply (th_cell _ _ _ _ HR)|by intros ->; apply (mt_free0 q')|by intros ->; apply (mt_header0 q')].
  - intros q' f Hf. destruct (decide (q' = q)) as [->|Hne].
    + rewrite updc_eq in Hf. apply elem_of_cons in Hf as [->|Hf]; [rewrite updc_ne by done; split; [by exists t|done]|].
      rewrite updc_ne; [by apply (th_field _ _ _ _ HR)|by intros ->; apply (mt_header0 q)].
    + rewrite updc_ne in Hf by done. rewrite updc_ne; [by apply (th_field _ _ _ _ HR)|by intros ->; apply (mt_header0 q')].
  - intros q' Hq'. destruct (decide (q' = q)) as [->|Hne]; [by apply Hpt1; [|apply (th_tag _ _ _ _ HR)]|].
    rewrite updc_ne in Hq' by done. rewrite push_tag_ne by done. by apply (th_tag _ _ _ _ HR).
  - intros q'. destruct (decide (q' = q)) as [->|Hne]; [rewrite updc_eq|rewrite updc_ne by done; by eapply th_nodup].
    apply NoDup_cons. split; [done|]. by eapply th_nodup.
Qed.
Lemma marked_block_words q s f : marked_block q (set_words f s) = marked_block q s.
Proof. done. Qed.
Lemma thread_hit ch flat s p q i t :
  threaded tg ch flat (words s) → may_thread ch flat p q i t → marked_block q s = true →
  wp (thread p) (λ _ s', threaded (push_tag ch q t) (updc ch q (p :: ch q)) flat (words s') ∧ old_blocks s' = old_blocks s) s.
Proof.
  intros HR Hmt Hmk. pose proof (threaded_push _ _ _ _ _ _ _ HR Hmt) as HR'. destruct Hmt. destruct mt_aligned0 as (Hai & Haq & Hap).
  assert (words s !! p = Some (q + t)) as Hp by (by rewrite (th_other _ _ _ _ HR)).
  assert (words s !! q = Some (link (ch q) i)) as Hq by (by eapply th_head_any).
  assert (∀ f, f ∈ ch q → aligned f) as Hal by (by eapply th_aligned).
  unfold thread. wp_step. eapply wp_ld_word; [done|]. cbv beta zeta. wp_step. apply wp_get. cbv beta. rewrite untag_add, Hmk by done. cbn [when].
  wp_step. eapply wp_ld_word; [done|]. cbv beta. rewrite (link_tag (ch q) i Hai Hal), tag_add by done.
  assert (∀ v w, (v = link (p :: ch q) i) → (w = link (ch q) (i + t)) →
    wp (st p w;; st q v) (λ _ s', threaded (push_tag ch q t) (updc ch q (p :: ch q)) flat (words s') ∧ old_blocks s' = old_blocks s) s) as Hst.
  { intros v w -> ->. wp_step. eapply wp_st; [done|]. eapply wp_st; [by rewrite set_word_words, decide_False|]. done. }
  destruct (ch q) as [|f [|g l]] eqn:E; cbn [Z.eqb orb]; by apply Hst.
Qed.
Lemma thread_miss ch flat s p v :
  threaded tg ch flat (words s) → flat !! p = Some v → (∀ q, p ∉ ch q) → ch p = [] → marked_block (UNTAG_CLOSURE v) s = false →
  wp (thread p) (λ _ s', s' = s) s.
Proof.
  intros HR Hp Hn Hc Hmk. unfold thread. wp_step. eapply wp_ld_word; [by rewrite (th_other _ _ _ _ HR)|]. cbv beta zeta.
  wp_step. apply wp_get. cbv beta. rewrite Hmk. by apply wp_ret.
Qed.

(** ** unthread *)
Definition set_all (l : list Z) (w : Z) (m : gmap Z Z) : gmap Z Z := foldr (λ f m, <[f := w]> m) m l.
Lemma set_all_lookup l w m a : set_all l w m !! a = if decide (a ∈ l) then Some w else m !! a.
Proof.
  induction l as [|f l IH]; [done|]. cbn [set_all foldr]. destruct (decide (a = f)) as [->|Hne].
  - rewrite lookup_insert_eq, decide_True; [done|by left].
  - rewrite lookup_insert_ne by done. fold (set_all l w m). rewrite IH.
    destruct (decide (a ∈ l)); [rewrite decide_True; [done|by right]|rewrite decide_False; [done|]]. by intros [?|?]%elem_of_cons.
Qed.
Definition unthreaded (q i to : Z) (l : list Z) (m m' : gmap Z Z) : Prop :=
  ∀ a, m' !! a = if decide (a ∈ l) then Some to else if decide (a = q ∧ l ≠ []) then Some i else m !! a.
Lemma unthread_loop_ok q i to l s fuel :
  aligned i → 0 <= tg q < 8 → (∀ f, f ∈ l → aligned f) → NoDup l → q ∉ l → is_Some (words s !! q) →
  (∀ pre f post, l = pre ++ f :: post → words s !! f = Some (link post (i + tg q))) → (length l < fuel)%nat →
  wp (unthread_loop fuel q (link l i) to) (λ _ s', unthreaded q i to l (words s) (words s') ∧ old_blocks s' = old_blocks s) s.
Proof.
  intros Hai Htg. revert l s. induction fuel as [|fuel IH]; intros l s Hal Hnd Hql [x Hx] Hcell Hf; [lia|]. cbn [unthread_loop].
  rewrite (link_tag l i Hai Hal). destruct l as [|f l].
  { cbn. apply wp_ret. split; [|done]. intros a. rewrite decide_False by apply not_elem_of_nil. by rewrite decide_False by naive_solver. }
  apply not_elem_of_cons in Hql as [Hqf Hql]. apply NoDup_cons in Hnd as [Hfl Hnd].
  pose proof (Hcell [] f l eq_refl) as Hcf. destruct l as [|g l].
  - cbn. replace (f + 1 - 1) with f by lia. wp_step. eapply wp_ld_word; [done|]. cbv beta. wp_step. eapply wp_st; [done|]. cbv beta.
    eapply wp_st; [by rewrite set_word_words, decide_False|]. split; [|done]. intros a. rewrite set_word_words, set_word_words. cbn [link].
    rewrite untag_add by done. destruct (decide (q = a)) as [<-|Hqa].
    + rewrite decide_False by (intros ?%list_elem_of_singleton; done). by rewrite decide_True.
    + destruct (decide (f = a)) as [<-|]; [rewrite decide_True by (by left); done|].
      rewrite decide_False by (intros ?%list_elem_of_singleton; done). rewrite decide_False by naive_solver. done.
  - cbn [link]. cbn. replace (f + 2 - 2) with f by lia. wp_step. eapply wp_ld_word; [done|]. cbv beta. wp_step. eapply wp_st; [done|]. cbv beta.
    replace (link (g :: l) (i + tg q)) with (link (g :: l) i) by (by destruct l).
    eapply wp_mono; [apply (IH (g :: l) (set_word f to s))|].
    + intros y Hy. apply Hal. by right.
    + done.
    + done.
    + rewrite set_word_words, decide_False by done. by eexists.
    + intros pre y post E. rewrite set_word_words, decide_False.
      * apply (Hcell (f :: pre)). by rewrite E.
      * intros <-. apply Hfl. rewrite E. apply elem_of_app; right; by left.
    + cbn in *. lia.
    + intros [] s' [H Hb]. split; [|done]. intros a. rewrite (H a), set_word_words.
      destruct (decide (a ∈ g :: l)); [rewrite decide_True by (by right); done|].
      destruct (decide (a = q ∧ g :: l ≠ [])) as [[-> _]|].
      * rewrite decide_False by (intros [?|?]%elem_of_cons; done). by rewrite decide_True.
      * destruct (decide (f = a)) as [<-|]; [rewrite decide_True by (by left); done|].
        rewrite decide_False by (intros [?|?]%elem_of_cons; done). rewrite decide_False by naive_solver. done.
Qed.
Lemma threaded_pop ch flat m m' q i to :
  threaded tg ch flat m → flat !! q = Some i → (∀ q', q ∉ ch q') → unthreaded q i to (ch q) m m' →
  threaded tg (updc ch q []) (set_all (ch q) to flat) m'.
Proof.
  intros HR Hi Hq Hun. assert (∀ q' f, q' ≠ q → f ∈ ch q' → f ∉ ch q) as Hapart.
  { intros q' f Hne Hf Hf'. apply Hne. by eapply th_one_chain. }
  assert (∀ q', ch q' ≠ [] → q' ∉ ch q) as Hhead by (intros q' Hq'; by eapply th_not_field).
  split.
  - intros a Ha Hn. rewrite (Hun a), set_all_lookup. destruct (decide (a ∈ ch q)) as [|Hal]; [done|].
    destruct (decide (a = q ∧ ch q ≠ [])) as [[-> _]|Haq]; [done|]. destruct (decide (a = q)) as [->|Hne].
    + destruct (ch q) eqn:E; [|exfalso; naive_solver]. by apply (th_other _ _ _ _ HR).
    + rewrite updc_ne in Ha by done. apply (th_other _ _ _ _ HR); [done|]. intros q' Hq'. destruct (decide (q' = q)) as [->|]; [done|].
      apply (Hn q'). by rewrite updc_ne.
  - intros q' Hq'. destruct (decide (q' = q)) as [->|Hne]; [by rewrite updc_eq in Hq'|]. rewrite updc_ne in * by done.
    rewrite set_all_lookup, (Hun q'), !(decide_False (P := q' ∈ ch q)) by (by apply Hhead). rewrite decide_False by naive_solver.
    by apply (th_head _ _ _ _ HR).
  - intros q' i' pre f post. destruct (decide (q' = q)) as [->|Hne]; [rewrite updc_eq; by destruct pre|]. rewrite updc_ne by done.
    intros Hi' E. assert (f ∈ ch q') as Hf by (rewrite E; apply elem_of_app; right; by left).
    assert (ch q' ≠ []) as Hn' by by eapply elem_of_not_nil.
    rewrite set_all_lookup, decide_False in Hi' by (by apply Hhead). rewrite (Hun f), decide_False by (by eapply Hapart).
    rewrite decide_False; [by eapply (th_cell _ _ _ _ HR)|]. intros [-> _]. by apply (Hq q').
  - intros q' f Hf. destruct (decide (q' = q)) as [->|Hne]; [rewrite updc_eq in Hf; by apply elem_of_nil in Hf|]. rewrite updc_ne in Hf by done.
    destruct (th_field _ _ _ _ HR q' f Hf) as (E1 & E2 & E3). rewrite set_all_lookup, decide_False by (by eapply Hapart).
    split_and!; [done|done|]. unfold updc. by destruct (decide (f = q)).
  - intros q' Hq'. destruct (decide (q' = q)) as [->|Hne]; [by rewrite updc_eq in Hq'|]. rewrite updc_ne in Hq' by done. by apply (th_tag _ _ _ _ HR).
  - intros q'. unfold updc. destruct (decide (q' = q)); [constructor|by eapply th_nodup].
Qed.
Lemma unthread_ok ch flat s q i to :
  threaded tg ch flat (words s) → flat !! q = Some i → aligned i → (∀ q', q ∉ ch q') →
  wp (unthread q to) (λ _ s', threaded tg (updc ch q []) (set_all (ch q) to flat) (words s') ∧ old_blocks s' = old_blocks s) s.
Proof.
  intros HR Hi Hai Hq. unfold unthread. wp_step. apply wp_get. cbv beta. wp_step. pose proof (th_head_any _ _ _ _ _ _ HR Hi Hq) as Hw.
  eapply wp_ld_word; [done|]. cbv beta. pose proof (chain_length tg ch flat (words s) q HR) as Hlen.
  destruct (decide (ch q = [])) as [E|Hne].
  - assert (link (ch q) i = i) as -> by (by rewrite E). cbn [unthread_loop]. rewrite tag_aligned by done. cbn. apply wp_ret. split; [|done].
    eapply threaded_pop; [done..|]. intros a. rewrite E, decide_False by apply not_elem_of_nil. by rewrite decide_False by naive_solver.
  - eapply wp_mono; [eapply (unthread_loop_ok q i to (ch q) s)|].
    + done.
    + by apply (th_tag _ _ _ _ HR).
    + by eapply th_aligned.
    + by eapply th_nodup.
    + done.
    + by rewrite Hw.
    + intros pre f post E. by apply (th_cell _ _ _ _ HR q i pre f post).
    + lia.
    + intros [] s' [H Hb]. split; [|done]. by eapply threaded_pop.
Qed.

(** A write outside the headers and fields of the chains *)
Lemma threaded_store ch flat m a v :
  threaded tg ch flat m → ch a = [] → (∀ q, a ∉ ch q) → threaded tg ch (<[a := v]> flat) (<[a := v]> m).
Proof.
  intros HR Ha Hn. assert (∀ q, ch q ≠ [] → a ≠ q) as Hh by (intros q Hq <-; done).
  assert (∀ q f, f ∈ ch q → a ≠ f) as Hf by (intros q f Hf <-; by apply (Hn q)).
  split.
  - intros b Hb Hn'. destruct (decide (a = b)) as [<-|]; [by rewrite !lookup_insert_eq|]. rewrite !lookup_insert_ne by done.
    by apply (th_other _ _ _ _ HR).
  - intros q Hq. rewrite !lookup_insert_ne by (by apply Hh). by apply (th_head _ _ _ _ HR).
  - intros q i pre f post Hi E. assert (f ∈ ch q) as Hfq by (rewrite E; apply elem_of_app; right; by left).
    rewrite lookup_insert_ne in * by (first [by eapply Hf|by eapply Hh, elem_of_not_nil]). by eapply (th_cell _ _ _ _ HR).
  - intros q f Hfq. rewrite lookup_insert_ne by (by eapply Hf). by apply (th_field _ _ _ _ HR).
  - by apply (th_tag _ _ _ _ HR).
  - by eapply th_nodup.
Qed.
End threading.
