(* ===== verification/CompactThread.v ===== *)
(** * Programs that thread a list of fields

    [threads m fs r]: the program [m] threads the fields [fs], in this order,
    and returns [r].  The rules follow the structure of the programs of
    [Compact]; what a program reads is not threaded, or not yet. *)
From stdpp Require Import list gmap.
From S2P Require Import Prelude DList ClosureFlags Compact CompactChain.
Local Open Scope Z_scope.
(** ** Lists of addresses *)
Fixpoint addrs (p : Z) (n : nat) : list Z :=
  match n with O => [] | S n => p :: addrs (p + 8) n end.
Fixpoint bitmap_addrs (n : nat) (p bitmap : Z) : list Z :=
  match n with
  | O => []
  | S n => (if Z.land bitmap 1 =? 0 then [p] else []) ++ bitmap_addrs n (p + 8) (Z.shiftr bitmap 1)
  end.
Fixpoint large_addrs (n : nat) (word : Z → Z) (i b p bitmap : Z) : list Z :=
  match n with
  | O => []
  | S n =>
    (if Z.land bitmap 1 =? 0 then [p] else []) ++
    if (i + 1) mod BITS_IN_W =? 0 then large_addrs n word (i + 1) (b + 1) (p + 8) (word (b + 1))
    else large_addrs n word (i + 1) b (p + 8) (Z.shiftr bitmap 1)
  end.
Lemma elem_of_addrs a p n : a ∈ addrs p n ↔ ∃ k, (0 <= k < Z.of_nat n) ∧ a = p + W k.
Proof.
  revert p. induction n as [|n IH]; intros p; cbn [addrs].
  - split; [by intros ?%elem_of_nil|]. intros (k & ? & _). lia.
  - rewrite elem_of_cons, IH. unfold W. split.
    + intros [->|(k & Hk & ->)]; [exists 0|exists (k + 1)]; lia.
    + intros (k & Hk & ->). destruct (decide (k = 0)) as [->|]; [left; lia|right; exists (k - 1); lia].
Qed.
Lemma elem_of_bitmap_addrs a n p bm : a ∈ bitmap_addrs n p bm → a ∈ addrs p n.
Proof.
  revert p bm. induction n as [|n IH]; intros p bm; cbn; [done|]. rewrite elem_of_app, elem_of_cons.
  intros [H|H%IH]; [|by right]. destruct (_ =? 0); [apply list_elem_of_singleton in H; by left|by apply elem_of_nil in H].
Qed.
Lemma elem_of_large_addrs a n word i b p bm : a ∈ large_addrs n word i b p bm → a ∈ addrs p n.
Proof.
  revert i b p bm. induction n as [|n IH]; intros i b p bm; cbn; [done|]. rewrite elem_of_app, elem_of_cons.
  intros [H|H]; [|right; destruct (_ mod _ =? 0); by apply IH in H].
  left. destruct (_ =? 0); [by apply list_elem_of_singleton in H|by apply elem_of_nil in H].
Qed.

(** The pointers of [n] entries of a chunk of a transaction record *)
Fixpoint entry_addrs (n : nat) (e : Z) : list Z :=
  match n with
  | O => []
  | S n => e :: (e + W 1) :: (e + W 2) :: entry_addrs n (e + W sizeofW_TRecEntry)
  end.

(** ** Programs that thread a list of fields *)
Section threads.
(** [obj]: the info word of the live objects of the compacted generation; [Fld]: the fields of all objects
    and the roots; [m0]: the memory before the collection; [in_marked]: the
    addresses in the blocks that are compacted. *)
Context (obj : Z → option Z) (Fld : Z → Prop) (m0 : gmap Z Z) (in_marked : Z → bool).

Class static_ok : Prop := {
  so_obj q i : obj q = Some i → m0 !! q = Some i ∧ aligned q ∧ aligned i ∧ in_marked q = true;
  so_field f : Fld f → obj f = None ∧ aligned f
}.
(** A pointer to a live object or out of the compacted blocks, with any tag; no
    field is the header of a closure. *)
Definition pointer_ok (v : Z) : Prop :=
  (is_Some (obj (UNTAG_CLOSURE v)) ∨ in_marked (UNTAG_CLOSURE v) = false) ∧ ¬ Fld (UNTAG_CLOSURE v).
Definition field_ok (f : Z) : Prop := Fld f ∧ ∃ v, m0 !! f = Some v ∧ pointer_ok v.
(** The object that a field points to *)
Definition target (f : Z) : option Z :=
  match (m0 !! f : option Z) with
  | Some v => match obj (UNTAG_CLOSURE v) with Some _ => Some (UNTAG_CLOSURE v) | None => None end
  | None => None
  end.
Definition push (ch : Z → list Z) (f : Z) : Z → list Z :=
  match target f with Some q => updc ch q (f :: ch q) | None => ch end.
Definition chain_on (fs : list Z) (ch : Z → list Z) : Z → list Z := foldl push ch fs.

(** Some pointer to the object at [q] has the tag [t]. *)
Definition has_tag (q t : Z) : Prop := 0 <= t < 8 ∧ ∃ f, Fld f ∧ m0 !! f = Some (q + t).
Definition chains (flat : gmap Z Z) (ch : Z → list Z) (s : cstate) : Prop :=
  ∃ tg, threaded tg ch flat (words s) ∧ ∀ q, ch q ≠ [] → has_tag q (tg q).
(** The memory without the chains, [flat], differs from [m0] in fields only. *)
Record tinv (flat : gmap Z Z) (ch : Z → list Z) (s : cstate) : Prop := {
  ti_threaded : chains flat ch s;
  ti_obj q : ch q ≠ [] → is_Some (obj q);
  ti_fld q f : f ∈ ch q → Fld f;
  ti_same a : ¬ Fld a → flat !! a = m0 !! a;
  ti_marked q : marked_block q s = in_marked q
}.
Definition fresh_in (ch : Z → list Z) (fs : list Z) : Prop := ∀ f q, f ∈ fs → f ∉ ch q.
Definition threads {A} (m : prog cstate A) (fs : list Z) (r : A) : Prop :=
  ∀ flat ch s, tinv flat ch s → fresh_in ch fs → NoDup fs → (∀ f, f ∈ fs → field_ok f ∧ flat !! f = m0 !! f) →
    wp m (λ a s', a = r ∧ tinv flat (chain_on fs ch) s' ∧ old_blocks s' = old_blocks s) s.

Context `{Hstatic : static_ok}.
Lemma elem_of_push ch f g q : g ∈ push ch f q ↔ g ∈ ch q ∨ (g = f ∧ target f = Some q).
Proof.
  unfold push. destruct (target f) as [q'|] eqn:E; [|naive_solver]. destruct (decide (q = q')) as [->|Hne].
  - rewrite updc_eq, elem_of_cons. naive_solver.
  - rewrite updc_ne by done. naive_solver.
Qed.
Lemma elem_of_chain_on fs ch g q : g ∈ chain_on fs ch q ↔ g ∈ ch q ∨ (g ∈ fs ∧ target g = Some q).
Proof.
  revert ch. induction fs as [|f fs IH]; intros ch; cbn [chain_on foldl]; [split; [by left|intros [?|[?%elem_of_nil ?]]; done]|].
  fold (chain_on fs (push ch f)). rewrite IH, elem_of_push, elem_of_cons. naive_solver.
Qed.
Lemma chain_on_app fs gs ch : chain_on (fs ++ gs) ch = chain_on gs (chain_on fs ch).
Proof. unfold chain_on. by rewrite foldl_app. Qed.

Lemma ti_header flat ch s q q' : tinv flat ch s → is_Some (obj q) → q ∉ ch q'.
Proof. intros HI [i Hi] H. apply (ti_fld _ _ _ HI), (so_field) in H as [H _]. congruence. Qed.
Lemma ti_plain flat ch s f : tinv flat ch s → obj f = None → ch f = [].
Proof. intros HI Hf. destruct (ch f) eqn:E; [done|]. destruct (ti_obj _ _ _ HI f) as [? H]; [by rewrite E|congruence]. Qed.
Lemma ti_read flat ch s a : tinv flat ch s → obj a = None → (∀ q, a ∉ ch q) → words s !! a = flat !! a.
Proof. intros HI Ha Hn. destruct (ti_threaded _ _ _ HI) as (tg & HR & _). apply (th_other _ _ _ _ HR); [by eapply ti_plain|done]. Qed.
Lemma ti_info flat ch s q i : tinv flat ch s → obj q = Some i → flat !! q = Some i.
Proof.
  intros HI Hi. destruct (so_obj q i Hi) as (Hq & _). rewrite (ti_same _ _ _ HI); [done|].
  intros HF. apply (so_field) in HF as [HF _]. congruence.
Qed.

Lemma tag_untag v : v = UNTAG_CLOSURE v + GET_CLOSURE_TAG v ∧ 0 <= GET_CLOSURE_TAG v < 8.
Proof. rewrite tag_mod, untag_mod. split; [lia|]. by apply Z.mod_pos_bound. Qed.
Lemma has_tag_push ch tg q t : has_tag q t → (∀ q, ch q ≠ [] → has_tag q (tg q)) → ∀ q' l, updc ch q l q' ≠ [] → has_tag q' (push_tag tg ch q t q').
Proof.
  intros Ht Htg q' l H. destruct (decide (q' = q)) as [->|Hne].
  - destruct (push_tag_eq tg ch q t) as (_ & H1 & H2). destruct (decide (ch q = [])) as [E|Hn]; [by rewrite H2|]. rewrite H1 by done. by apply Htg.
  - rewrite push_tag_ne by done. rewrite updc_ne in H by done. by apply Htg.
Qed.
Lemma threads_one f : threads (thread f) [f] tt.
Proof.
  intros flat ch s HI Hfr _ Hf. destruct (Hf f) as ((HF & v & Hv & Hp & _) & Hfl); [by left|]. destruct (so_field f HF) as [Hfo Hfa].
  destruct (ti_threaded _ _ _ HI) as (tg & HR & Htg). assert (ch f = []) as Hch by by eapply ti_plain.
  assert (∀ q, f ∉ ch q) as Hn by (intros q; apply Hfr; by left).
  cbn [chain_on foldl]. unfold push. destruct (obj (UNTAG_CLOSURE v)) as [i|] eqn:Hi.
  - assert (target f = Some (UNTAG_CLOSURE v)) as -> by (unfold target; rewrite Hv; cbn; by rewrite Hi).
    destruct (so_obj _ i Hi) as (_ & Hqa & Hia & Hmk). pose proof (ti_info _ _ _ _ _ HI Hi) as Hqi.
    destruct (tag_untag v) as [Ev Ht]. set (q := UNTAG_CLOSURE v) in *. set (t := GET_CLOSURE_TAG v) in *.
    eapply wp_mono; [eapply (thread_hit tg ch flat s f q i t HR)|].
    + split; try done; [by rewrite Hfl, Hv, <- Ev|intros q'; by eapply ti_header|intros ->; congruence].
    + by rewrite (ti_marked _ _ _ HI).
    + intros [] s' [HR' Hb]. split; [done|]. split; [|done]. split; [| | |by apply HI|].
      * eexists; split; [done|]. intros q'. apply has_tag_push; [|done]. split; [done|]. exists f. by rewrite Hv, <- Ev.
      * intros q' Hq'. destruct (decide (q' = q)) as [->|]; [by exists i|]. rewrite updc_ne in Hq' by done. by apply HI.
      * intros q' g Hg. destruct (decide (q' = q)) as [->|]; [rewrite updc_eq in Hg|rewrite updc_ne in Hg by done; by eapply HI].
        apply elem_of_cons in Hg as [->|Hg]; [done|by eapply HI].
      * intros q'. rewrite <- (ti_marked _ _ _ HI). unfold marked_block. by rewrite Hb.
  - assert (target f = None) as -> by (unfold target; rewrite Hv; cbn; by rewrite Hi).
    destruct Hp as [[? ?]|Hm]; [done|].
    eapply wp_mono; [eapply (thread_miss tg ch flat s f v); [done|exact (eq_trans Hfl Hv)|done..|]|by intros [] s' ->].
    by rewrite (ti_marked _ _ _ HI).
Qed.
Lemma threads_ret {A} (r : A) : threads (mret r) [] r.
Proof. intros flat ch s HI _ _ _. apply wp_ret. done. Qed.
Lemma threads_bind {A B} (m : prog cstate A) (k : A → prog cstate B) fs gs r r' :
  threads m fs r → threads (k r) gs r' → threads (m ≫= k) (fs ++ gs) r'.
Proof.
  intros Hm Hk flat ch s HI Hfr Hnd Hf. apply NoDup_app in Hnd as (Hnf & Hdisj & Hng). wp_step. eapply wp_mono.
  - eapply Hm; [done|intros f q ?; apply Hfr, elem_of_app; by left|done|]. intros f ?. apply Hf, elem_of_app. by left.
  - intros a s' (-> & HI' & Hb). rewrite chain_on_app, <- Hb. eapply Hk; [done| |done|intros f ?; apply Hf, elem_of_app; by right].
    intros f q Hg [H|[H _]]%elem_of_chain_on; [by apply (Hfr f q); [apply elem_of_app; right|]|by apply (Hdisj f)].
Qed.
Lemma threads_seq {B} m (k : prog cstate B) fs gs r : threads m fs tt → threads k gs r → threads (m;; k) (fs ++ gs) r.
Proof. intros Hm Hk. by eapply threads_bind. Qed.
Lemma threads_then {B} f (k : prog cstate B) gs r : threads k gs r → threads (thread f;; k) (f :: gs) r.
Proof. intros Hk. apply (threads_seq _ _ [f]); [apply threads_one|done]. Qed.
Lemma threads_map {A B} (m : prog cstate A) (k : A → prog cstate B) fs r r' : threads m fs r → threads (k r) [] r' → threads (m ≫= k) fs r'.
Proof. intros Hm Hk. rewrite <- (app_nil_r fs). by eapply threads_bind. Qed.
Lemma threads_then_ret {A} m (k : prog cstate A) fs r : threads m fs tt → threads k [] r → threads (m;; k) fs r.
Proof. intros Hm Hk. rewrite <- (app_nil_r fs). by apply threads_seq. Qed.
Lemma threads_if {A} (b : bool) (m1 m2 : prog cstate A) fs1 fs2 r :
  threads m1 fs1 r → threads m2 fs2 r → threads (if b then m1 else m2) (if b then fs1 else fs2) r.
Proof. by destruct b. Qed.
Lemma threads_when (b : bool) m fs : threads m fs tt → threads (when b m) (if b then fs else []) tt.
Proof. intros. unfold when. destruct b; [done|apply threads_ret]. Qed.

(** What is read is not threaded, or not yet. *)
Definition readable (a v : Z) (fs : list Z) : Prop := m0 !! a = Some v ∧ obj a = None ∧ (¬ Fld a ∨ a ∈ fs).
Lemma threads_ld {B} a v (k : Z → prog cstate B) fs r : readable a v fs → threads (k v) fs r → threads (ld a ≫= k) fs r.
Proof.
  intros (Hv & Ha & Hn) Hk flat ch s HI Hfr Hnd Hf. wp_step. eapply wp_ld_word; [|by apply Hk]. rewrite (ti_read flat ch s a HI Ha).
  - destruct Hn as [Hn|Hn]; [by rewrite (ti_same _ _ _ HI)|]. by destruct (Hf a Hn) as [_ ->].
  - intros q Hq. destruct Hn as [Hn|Hn]; [|by apply (Hfr a q)]. by apply Hn, (ti_fld _ _ _ HI q).
Qed.
(** [get_threaded_info] returns the info word with a tag: 0 when nothing is
    threaded onto the object, else the tag of some pointer to it. *)
Lemma chains_get_info itbl f i flat ch s Q :
  chains flat ch s → flat !! (UNTAG_CLOSURE f : Z) = Some i → aligned i → (∀ q', UNTAG_CLOSURE f ∉ ch q') → LOOKS_LIKE_INFO_PTR itbl i = true →
  (∀ t, (ch (UNTAG_CLOSURE f) = [] ∧ t = 0) ∨ (ch (UNTAG_CLOSURE f) ≠ [] ∧ has_tag (UNTAG_CLOSURE f) t) →
     UNTAG_CLOSURE (i + t) = i → GET_CLOSURE_TAG (i + t) = t → Q (i + t) s) →
  wp (get_threaded_info itbl f) Q s.
Proof.
  intros (tg & HR & Htg) Hi Hia Hn Hlk HQ.
  eapply (get_threaded_info_ok itbl tg ch flat s f _ i); [done..|]. unfold info_of.
  destruct (ch (UNTAG_CLOSURE f)) as [|g l] eqn:E.
  - rewrite <- (Z.add_0_r i). apply HQ; [by left|by apply untag_add|by apply tag_add].
  - assert (has_tag (UNTAG_CLOSURE f) (tg (UNTAG_CLOSURE f))) as Ht by (apply Htg; by rewrite E).
    pose proof (proj1 Ht). apply HQ; [by right|by apply untag_add|by apply tag_add].
Qed.
Lemma threads_info {B} itbl f i (k : Z → prog cstate B) fs r :
  m0 !! (UNTAG_CLOSURE f : Z) = Some i → ¬ Fld (UNTAG_CLOSURE f) → aligned i → LOOKS_LIKE_INFO_PTR itbl i = true →
  (∀ ip, UNTAG_CLOSURE ip = i → threads (k ip) fs r) → threads (get_threaded_info itbl f ≫= k) fs r.
Proof.
  intros Hi Hn Hia Hlk Hk flat ch s HI Hfr Hnd Hf. wp_step.
  eapply (chains_get_info itbl f i flat); [by apply HI|by rewrite (ti_same _ _ _ HI)|done| |done|].
  - intros q' Hq'. by apply Hn, (ti_fld _ _ _ HI q').
  - intros t _ Ht _. apply Hk; done.
Qed.
Lemma threads_deref {A B} (o : option A) a (k : A → prog cstate B) fs r : o = Some a → threads (k a) fs r → threads (deref o ≫= k) fs r.
Proof. intros -> Hk. exact Hk. Qed.
Lemma threads_assert {B} b (k : prog cstate B) fs r : b = true → threads k fs r → threads (ASSERT b;; k) fs r.
Proof. intros -> Hk. exact Hk. Qed.
(** ** Loops *)
Lemma threads_range n p : threads (thread_range n p) (addrs p n) tt.
Proof. revert p. induction n as [|n IH]; intros p; cbn; [apply threads_ret|]. by apply threads_then. Qed.
Lemma threads_small_bitmap n p bm : threads (thread_small_bitmap n p bm) (bitmap_addrs n p bm) (p + W (Z.of_nat n)).
Proof.
  revert p bm. induction n as [|n IH]; intros p bm; cbn [thread_small_bitmap bitmap_addrs].
  - replace (p + W (Z.of_nat 0)) with p by (unfold W; lia). apply threads_ret.
  - apply threads_seq; [apply threads_when, threads_one|].
    replace (p + W (Z.of_nat (S n))) with (p + 8 + W (Z.of_nat n)) by (unfold W; lia). apply IH.
Qed.
Lemma threads_large_loop n bm i b p bits :
  threads (large_bitmap_loop n (static_word bm) i b p bits) (large_addrs n (λ b, default 0 (snd bm !! Z.to_nat b)) i b p bits) tt.
Proof.
  revert i b p bits. induction n as [|n IH]; intros i b p bits; cbn [large_bitmap_loop large_addrs]; [apply threads_ret|].
  apply threads_seq; [apply threads_when, threads_one|]. cbv zeta. apply threads_if; [|apply IH].
  apply (threads_bind _ _ [] _ (default 0 (snd bm !! Z.to_nat (b + 1)))); [apply threads_ret|apply IH].
Qed.
Definition static_addrs (bm : Z * list Z) (p size : Z) : list Z :=
  let word := λ b, default 0 (snd bm !! Z.to_nat b) in large_addrs (Z.to_nat size) word 0 0 p (word 0).
Lemma threads_large_bitmap bm p size : threads (thread_large_bitmap p (static_word bm) size) (static_addrs bm p size) tt.
Proof. apply (threads_bind _ _ [] _ (default 0 (snd bm !! 0%nat))); [apply threads_ret|apply threads_large_loop]. Qed.

Lemma threads_entries m e : threads (thread_entries m e) (entry_addrs m e) tt.
Proof.
  revert e. induction m as [|m IH]; intros e; cbn; [apply threads_ret|]. do 3 apply threads_then. apply IH.
Qed.
Lemma threads_for_each {A} (l : list A) (m : A → prog cstate unit) (fs : A → list Z) :
  (∀ x, x ∈ l → threads (m x) (fs x) tt) → threads (for_each l m) (l ≫= fs) tt.
Proof.
  induction l as [|x l IH]; intros H; cbn; [apply threads_ret|]. apply threads_seq; [apply H; by left|].
  apply IH. intros y Hy. apply H. by right.
Qed.
End threads.
Arguments threads_one {_ _ _ _ _} _.
Arguments threads_then {_ _ _ _ _ _} _ _ _ _ _.
Arguments threads_range {_ _ _ _ _} _ _.
Arguments threads_small_bitmap {_ _ _ _ _} _ _ _.
Arguments threads_large_bitmap {_ _ _ _ _} _ _ _.
Arguments threads_entries {_ _ _ _ _} _ _.
Arguments ti_header {_ _ _ _ _}.
Arguments ti_plain {_ _ _ _}.
Arguments ti_info {_ _ _ _ _}.
Arguments ti_read {_ _ _ _}.
Arguments ti_threaded {_ _ _ _ _ _ _}.
Arguments ti_obj {_ _ _ _ _ _ _}.
Arguments ti_fld {_ _ _ _ _ _ _}.
Arguments ti_same {_ _ _ _ _ _ _}.
Arguments ti_marked {_ _ _ _ _ _ _}.
