(* ===== verification/CompactObj.v ===== *)
(** * The fields of objects

    [layout]: which words of an object are pointers, and how large it is, as
    a function of its info table and contents.  [thread_obj] threads exactly
    these fields and returns the end of the object; [closure_sizeW_] agrees on
    its size. *)
From stdpp Require Import list gmap.
From S2P Require Import Prelude DList ClosureFlags Compact CompactChain CompactThread.
Local Open Scope Z_scope.

Section layouts.
Context (itbl : Z → option StgInfoTable) (stg_arg_bitmaps : Z → Z) (m0 : gmap Z Z).

Definition word_at (a : Z) : Z := default 0 (m0 !! a).
(** The info table of the function that [f] points to *)
Definition fun_info (f : Z) : option StgInfoTable :=
  match (m0 !! (UNTAG_CLOSURE f : Z) : option Z) with
  | Some i => if (i mod 8 =? 0) && LOOKS_LIKE_INFO_PTR itbl i then itbl i else None
  | None => None
  end.
(** The fields among the [size] words at [payload] of a partial application of
    the function [f]; not for byte code. *)
Definition pap_payload (f payload size : Z) : option (list Z) :=
  match fun_info f with
  | None => None
  | Some fi =>
    if bool_decide (type fi = PAP) then None else
    match ftype fi with
    | ARG_GEN => Some (bitmap_addrs (Z.to_nat size) payload (BITMAP_BITS (fun_bitmap fi)))
    | ARG_GEN_BIG => Some (static_addrs (fun_large_bitmap fi) payload size)
    | ARG_BCO => None
    | ARG_PATTERN n => Some (bitmap_addrs (Z.to_nat size) payload (BITMAP_BITS (stg_arg_bitmaps n)))
    end
  end.
(** The words described by a small bitmap, and what is behind them *)
Definition small_layout (bm p : Z) : list Z * Z :=
  (bitmap_addrs (Z.to_nat (BITMAP_SIZE bm)) p (BITMAP_BITS bm), p + W (BITMAP_SIZE bm)).
Definition large_layout (bm : Z * list Z) (p : Z) : option (list Z * Z) :=
  if 0 <=? fst bm then Some (static_addrs bm p (fst bm), p + W (fst bm)) else None.
Definition arg_layout (fi : StgInfoTable) (args : Z) : option (list Z * Z) :=
  match ftype fi with
  | ARG_GEN => Some (small_layout (fun_bitmap fi) args)
  | ARG_GEN_BIG => large_layout (fun_large_bitmap fi) args
  | ARG_BCO => Some (small_layout (stg_arg_bitmaps 2) args)
  | ARG_PATTERN n => Some (small_layout (stg_arg_bitmaps n) args)
  end.
Definition dyn_layout (p dyn : Z) : list Z * Z :=
  let q := p + W 3 + W RET_DYN_BITMAP_SIZE + W (RET_DYN_NONPTRS dyn + RET_DYN_NONPTR_REGS_SIZE) in
  (bitmap_addrs (Z.to_nat RET_DYN_BITMAP_SIZE) (p + W 3) (RET_DYN_LIVENESS dyn) ++ addrs q (Z.to_nat (RET_DYN_PTRS dyn)),
   q + W (RET_DYN_PTRS dyn)).
(** The fields of the stack frame at [p] and the address of the next one; not
    for byte code. *)
Definition frame_layout (p : Z) : option (list Z * Z) :=
  match itbl (word_at p) with
  | None => None
  | Some info =>
    match type info with
    | RET_DYN =>
      Some (dyn_layout p (word_at (p + W 1)))
    | CATCH_RETRY_FRAME | CATCH_STM_FRAME | ATOMICALLY_FRAME | UPDATE_FRAME
    | UNDERFLOW_FRAME | STOP_FRAME | CATCH_FRAME | RET_SMALL => Some (small_layout (layout_bitmap info) (p + W 1))
    | RET_BIG => large_layout (large_bitmap info) (p + W 1)
    | RET_FUN =>
      match fun_info (word_at (p + W 2)) with
      | Some fi =>
        match arg_layout fi (p + W 3) with Some (fs, e) => Some ((p + W 2) :: fs, e) | None => None end
      | None => None
      end
    | _ => None
    end
  end.
Fixpoint stack_layout (fuel : nat) (p stack_end : Z) : option (list Z) :=
  if p <? stack_end then
    match fuel with
    | O => None
    | S fuel =>
      match frame_layout p with
      | Some (fs, p') =>
        if p' <=? stack_end then
          match stack_layout fuel p' stack_end with Some gs => Some (fs ++ gs) | None => None end
        else None
      | None => None
      end
    end
  else Some [].

(** The pointer fields of an object at [p] with info table [info], and its size
    in words; [None] for stacks and partial applications of byte code, and what
    is not an object of the heap. *)
Definition layout (info : StgInfoTable) (p : Z) : option (list Z * Z) :=
  let payload := p + W sizeofW_StgHeader in
  let thunk_payload := p + W sizeofW_StgThunk in
  match type info with
  | THUNK_0_1 => Some ([], sizeofW_StgThunk + 1)
  | FUN_0_1 | CONSTR_0_1 => Some ([], sizeofW_StgHeader + 1)
  | FUN_1_0 | CONSTR_1_0 => Some ([payload], sizeofW_StgHeader + 1)
  | THUNK_1_0 => Some ([thunk_payload], sizeofW_StgThunk + 1)
  | THUNK_0_2 => Some ([], sizeofW_StgThunk + 2)
  | FUN_0_2 | CONSTR_0_2 => Some ([], sizeofW_StgHeader + 2)
  | THUNK_1_1 => Some ([thunk_payload], sizeofW_StgThunk + 2)
  | FUN_1_1 | CONSTR_1_1 => Some ([payload], sizeofW_StgHeader + 2)
  | THUNK_2_0 => Some ([thunk_payload; thunk_payload + W 1], sizeofW_StgThunk + 2)
  | FUN_2_0 | CONSTR_2_0 => Some ([payload; payload + W 1], sizeofW_StgHeader + 2)
  | BCO =>
    let size := high_half (word_at (p + W 4)) in
    if 5 <=? size then Some ([p + W 1; p + W 2; p + W 3], size) else None
  | THUNK => Some (addrs thunk_payload (Z.to_nat (ptrs info)), sizeofW_StgThunk + ptrs info + nptrs info)
  | FUN | CONSTR | PRIM | MUT_PRIM | MUT_VAR_CLEAN | MUT_VAR_DIRTY | BLACKHOLE | BLOCKING_QUEUE =>
    Some (addrs payload (Z.to_nat (ptrs info)), sizeofW_StgHeader + ptrs info + nptrs info)
  | WEAK =>
    if ptrs info + nptrs info =? 5 then
      Some ([p + W 1; p + W 2; p + W 3; p + W 4] ++ (if negb (word_at (p + W 5) =? 0) then [p + W 5] else []), sizeofW_StgWeak)
    else None
  | MVAR_CLEAN | MVAR_DIRTY =>
    if ptrs info + nptrs info =? 3 then Some ([p + W 1; p + W 2; p + W 3], sizeofW_StgMVar) else None
  | IND | IND_PERM => Some ([p + W 1], sizeofW_StgInd)
  | THUNK_SELECTOR => Some ([p + W 2], sizeofW_StgSelector)
  | AP_STACK =>
    let size := word_at (p + W 2) in
    match stack_layout (Z.to_nat size) (p + W sizeofW_StgAP_STACK) (p + W sizeofW_StgAP_STACK + W size) with
    | Some fs => Some ((p + W 3) :: fs, sizeofW_StgAP_STACK + size)
    | None => None
    end
  | PAP =>
    let size := high_half (word_at (p + W 1)) in
    match pap_payload (word_at (p + W 2)) (p + W sizeofW_StgPAP) size with
    | Some fs => Some (fs ++ [p + W 2], sizeofW_StgPAP + size)
    | None => None
    end
  | AP =>
    let size := high_half (word_at (p + W 2)) in
    match pap_payload (word_at (p + W 3)) (p + W sizeofW_StgAP) size with
    | Some fs => Some (fs ++ [p + W 3], sizeofW_StgAP + size)
    | None => None
    end
  | ARR_WORDS => Some ([], sizeofW_StgArrWords + arr_words_words (word_at (p + W 1)))
  | MUT_ARR_PTRS_CLEAN | MUT_ARR_PTRS_DIRTY | MUT_ARR_PTRS_FROZEN | MUT_ARR_PTRS_FROZEN0 =>
    let size := word_at (p + W 2) in
    if 0 <=? size then Some (addrs (p + W sizeofW_StgMutArrPtrs) (Z.to_nat (word_at (p + W 1))), sizeofW_StgMutArrPtrs + size) else None
  | TSO =>
    let why := why_blocked (word_at (p + W 4)) in
    Some ([p + W 1; p + W 2] ++
          (if (why =? BlockedOnMVar) || (why =? BlockedOnBlackHole) || (why =? BlockedOnMsgThrowTo) || (why =? NotBlocked)
           then [p + W 5] else []) ++ [p + W 11; p + W 12; p + W 10; p + W 3], sizeofW_StgTSO)
  | STACK =>
    let size := low_half (word_at (p + W 1)) in
    let sp := word_at (p + W 2) in
    if (p + W sizeofW_StgStack <=? sp) && ((sp - p) mod 8 =? 0) then
      match stack_layout (Z.to_nat size) sp (p + W (sizeofW_StgStack + size)) with
      | Some fs => Some (fs, sizeofW_StgStack + size)
      | None => None
      end
    else None
  | TREC_CHUNK => Some ((p + W 1) :: entry_addrs (Z.to_nat (word_at (p + W 2))) (p + W 3), sizeofW_StgTRecChunk)
  | _ => None
  end.
End layouts.

(** ** Where the fields of a frame are *)
Section bounds.
Context (itbl : Z → option StgInfoTable) (stg_arg_bitmaps : Z → Z) (m0 : gmap Z Z).

(** The list [fs] consists of words between [p] and [p'], which are words apart. *)
Definition within (p p' : Z) (fs : list Z) : Prop := (∃ n, 0 <= n ∧ p' = p + W n) ∧ ∀ f, f ∈ fs → p <= f < p'.
Lemma within_addrs p n fs : 0 <= n → (∀ f, f ∈ fs → f ∈ addrs p (Z.to_nat n)) → within p (p + W n) fs.
Proof.
  intros Hn H. split; [by exists n|]. intros f (k & Hk & ->)%H%elem_of_addrs. unfold W in *. lia.
Qed.
Lemma within_app p q r fs gs : within p q fs → within q r gs → within p r (fs ++ gs).
Proof.
  intros [(n & Hn & ->) Hf] [(k & Hk & ->) Hg]. split; [exists (n + k); unfold W; lia|].
  intros f [H%Hf|H%Hg]%elem_of_app; unfold W in *; lia.
Qed.
Lemma within_skip p n r fs : 0 <= n → within (p + W n) r fs → within p r fs.
Proof. intros Hn H. apply (within_app p (p + W n) r []); [by apply within_addrs; [|intros f ?%elem_of_nil]|done]. Qed.
Lemma within_cons p n r f fs : 0 < n → p <= f < p + W n → within (p + W n) r fs → within p r (f :: fs).
Proof.
  intros Hn Hf H. apply (within_app p (p + W n) r [f]); [|done]. split; [exists n; lia|]. by intros g ->%list_elem_of_singleton.
Qed.
Lemma BITMAP_SIZE_nonneg bm : 0 <= BITMAP_SIZE bm.
Proof. unfold BITMAP_SIZE. apply Z.land_nonneg. lia. Qed.
Lemma small_layout_within bm p fs e : small_layout bm p = (fs, e) → within p e fs.
Proof. intros [= <- <-]. apply within_addrs; [apply BITMAP_SIZE_nonneg|]. intros f. apply elem_of_bitmap_addrs. Qed.
Lemma large_layout_within bm p fs e : large_layout bm p = Some (fs, e) → within p e fs.
Proof.
  unfold large_layout. destruct (Z.leb_spec 0 (fst bm)); [|done]. intros [= <- <-]. apply within_addrs; [done|].
  intros f. apply elem_of_large_addrs.
Qed.
Lemma arg_layout_within fi p fs e : arg_layout stg_arg_bitmaps fi p = Some (fs, e) → within p e fs.
Proof.
  unfold arg_layout. destruct (ftype fi); [|by apply large_layout_within|..]; intros E%(inj Some); by eapply small_layout_within.
Qed.
Lemma RET_DYN_nonneg dyn : 0 <= RET_DYN_NONPTRS dyn ∧ 0 <= RET_DYN_PTRS dyn.
Proof. unfold RET_DYN_NONPTRS, RET_DYN_PTRS. split; apply Z.land_nonneg; lia. Qed.
Lemma dyn_layout_within p dyn : within (p + W 1) (snd (dyn_layout p dyn)) (fst (dyn_layout p dyn)).
Proof.
  destruct (RET_DYN_nonneg dyn) as [H1 H2]. unfold dyn_layout. cbv zeta. cbn [fst snd].
  apply (within_skip _ 2); [lia|]. replace (p + W 1 + W 2) with (p + W 3) by (unfold W; lia).
  apply (within_app _ (p + W 3 + W RET_DYN_BITMAP_SIZE)).
  - apply within_addrs; [done|]. intros f. apply elem_of_bitmap_addrs.
  - eapply within_skip; [|by apply within_addrs; [|intros f Hf]]. unfold RET_DYN_NONPTR_REGS_SIZE. lia.
Qed.
Lemma dyn_layout_end p dyn : p + W 2 <= snd (dyn_layout p dyn).
Proof.
  destruct (RET_DYN_nonneg dyn). unfold dyn_layout. cbv zeta. cbn [snd]. unfold RET_DYN_NONPTR_REGS_SIZE, RET_DYN_BITMAP_SIZE, W in *. lia.
Qed.
Lemma frame_layout_within p fs e : frame_layout itbl stg_arg_bitmaps m0 p = Some (fs, e) → within (p + W 1) e fs.
Proof.
  unfold frame_layout. destruct (itbl _) as [info|]; [|done].
  destruct (type info); try discriminate; try (intros E%(inj Some); by apply (small_layout_within _ _ _ _ E)); try (intros; by eapply large_layout_within).
  - intros E%(inj Some). pose proof (dyn_layout_within p (word_at m0 (p + W 1))) as H. rewrite E in H. exact H.
  - destruct (fun_info _ _ _) as [fi|]; [|done]. destruct (arg_layout _ _ _) as [[gs e']|] eqn:E; [|done]. intros H%(inj Some).
    injection H as <- <-. apply arg_layout_within in E. apply (within_cons _ 2); [lia|unfold W; lia|].
    by replace (p + W 1 + W 2) with (p + W 3) by (unfold W; lia).
Qed.
End bounds.

(** ** The programs of the collector thread the fields of the layouts *)
Section objects.
Context (itbl : Z → option StgInfoTable) (stg_arg_bitmaps : Z → Z).
Context (obj : Z → option Z) (Fld : Z → Prop) (m0 : gmap Z Z) (in_marked : Z → bool).
Context `{Hstatic : !static_ok obj Fld m0 in_marked}.
Local Notation threads := (threads obj Fld m0 in_marked).
Local Notation readable := (readable obj Fld m0).
Local Notation field_ok := (field_ok obj Fld m0 in_marked).
Local Notation word_at := (word_at m0).

(** The words of an object are in the memory; its fields are what its layout
    says, and no object starts within it. *)
Record obj_ok (p : Z) (info : StgInfoTable) (fs : list Z) (n : Z) : Prop := {
  ok_layout : layout itbl stg_arg_bitmaps m0 info p = Some (fs, n);
  ok_size : 2 <= n;
  ok_word k : 1 <= k < n → (∃ v, m0 !! (p + W k) = Some v ∧ 0 <= v) ∧ obj (p + W k) = None;
  ok_fields k : 1 <= k < n → Fld (p + W k) → p + W k ∈ fs;
  ok_field f : f ∈ fs → field_ok f;
  ok_in f : f ∈ fs → ∃ k, 1 <= k < n ∧ f = p + W k;
  ok_nodup : NoDup fs;
  ok_ptrs : 0 <= ptrs info ∧ 0 <= nptrs info
}.
Lemma word_readable a gs : is_Some (m0 !! a) → obj a = None → (¬ Fld a ∨ a ∈ gs) → readable a (word_at a) gs.
Proof. intros [v Hv] Ho Hn. unfold readable, CompactObj.word_at. by rewrite Hv. Qed.
Lemma obj_readable p info fs n k gs :
  obj_ok p info fs n → 1 <= k < n → (p + W k ∈ fs → p + W k ∈ gs) → readable (p + W k) (word_at (p + W k)) gs.
Proof.
  intros H Hk Hgs. destruct (ok_word _ _ _ _ H k Hk) as [[v [Hv _]] Ho]. apply word_readable; [by eexists|done|].
  destruct (decide (p + W k ∈ fs)) as [|Hn]; [right; by apply Hgs|left]. intros HF. by apply Hn, (ok_fields _ _ _ _ H).
Qed.
Lemma threads_field {B} p info fs n k gs (f : Z → prog cstate B) r :
  obj_ok p info fs n → 1 <= k < n → (p + W k ∈ fs → p + W k ∈ gs) → threads (f (word_at (p + W k))) gs r → threads (field p k ≫= f) gs r.
Proof. intros H Hk Hgs Hf. unfold field. eapply threads_ld; [by eapply obj_readable|done]. Qed.
Lemma word_nonneg p info fs n k : obj_ok p info fs n → 1 <= k < n → 0 <= word_at (p + W k).
Proof. intros H Hk. destruct (ok_word _ _ _ _ H k Hk) as [(v & Hv & Hp) _]. unfold CompactObj.word_at. by rewrite Hv. Qed.
(** What a field points to has a header that is no field. *)
Lemma field_header f : field_ok f → ¬ Fld (UNTAG_CLOSURE (word_at f)).
Proof. intros (_ & v & Hv & _ & Hn). unfold CompactObj.word_at. by rewrite Hv. Qed.

Lemma threads_fun_info {B} f fi (k : StgInfoTable → prog cstate B) fs r :
  fun_info itbl m0 f = Some fi → ¬ Fld (UNTAG_CLOSURE f) → threads (k fi) fs r →
  threads (ip ← get_threaded_info itbl f; fi ← INFO_PTR_TO_STRUCT itbl (UNTAG_CLOSURE ip); k fi) fs r.
Proof.
  intros Hfi Hn Hk. unfold fun_info in Hfi. destruct (m0 !! _) as [i|] eqn:Hi; [|done].
  destruct (_ && _) eqn:E; [|done]. apply andb_true_iff in E as [Ha%Z.eqb_eq Hlk].
  eapply threads_info; [exact Hi|exact Hn|exact Ha|exact Hlk|]. intros ip ->.
  unfold INFO_PTR_TO_STRUCT. by eapply threads_deref.
Qed.
Lemma threads_small_layout bm p : threads (thread_small_bitmap (Z.to_nat (BITMAP_SIZE bm)) p (BITMAP_BITS bm)) (fst (small_layout bm p)) (snd (small_layout bm p)).
Proof.
  unfold small_layout. cbn [fst snd]. rewrite <- (Z2Nat.id (BITMAP_SIZE bm)) at 3 by apply BITMAP_SIZE_nonneg. apply threads_small_bitmap.
Qed.
Lemma threads_large_layout bm p fs e : large_layout bm p = Some (fs, e) →
  threads (thread_large_bitmap p (static_word bm) (fst bm);; mret (p + W (fst bm))) fs e.
Proof.
  unfold large_layout. destruct (0 <=? _); [|done]. intros [= <- <-]. apply threads_then_ret; [apply threads_large_bitmap|apply threads_ret].
Qed.
Lemma threads_arg_block fi p fs e : arg_layout stg_arg_bitmaps fi p = Some (fs, e) → threads (thread_arg_block stg_arg_bitmaps fi p) fs e.
Proof.
  unfold arg_layout, thread_arg_block. destruct (ftype fi); intros H; [|by apply threads_large_layout|..]; apply (inj Some) in H;
    match type of H with small_layout ?bm _ = _ => pose proof (threads_small_layout bm p) as Ht; rewrite H in Ht; exact Ht end.
Qed.
Lemma threads_PAP_payload f payload size fs :
  pap_payload itbl stg_arg_bitmaps m0 f payload size = Some fs → 0 <= size → ¬ Fld (UNTAG_CLOSURE f) →
  threads (thread_PAP_payload itbl stg_arg_bitmaps f payload size) fs (payload + W size).
Proof.
  intros Hfs Hs Hn. unfold thread_PAP_payload. unfold pap_payload in Hfs. destruct (fun_info _ _ _) as [fi|] eqn:Ei; [|done].
  eapply threads_fun_info; [done|done|]. destruct (bool_decide (type fi = PAP)); [done|]. apply threads_assert; [done|].
  assert (W (Z.of_nat (Z.to_nat size)) = W size) as E by (by rewrite Z2Nat.id).
  destruct (ftype fi); try discriminate Hfs; injection Hfs as <-.
  - rewrite <- E. apply threads_small_bitmap.
  - apply threads_then_ret; [apply threads_large_bitmap|apply threads_ret].
  - rewrite <- E. apply threads_small_bitmap.
Qed.
Lemma pap_payload_addrs f payload size fs a : pap_payload itbl stg_arg_bitmaps m0 f payload size = Some fs → a ∈ fs → a ∈ addrs payload (Z.to_nat size).
Proof.
  unfold pap_payload. destruct (fun_info _ _ _) as [fi|]; [|done]. destruct (bool_decide _); [done|]. destruct (ftype fi); intros [= <-].
  - apply elem_of_bitmap_addrs.
  - apply elem_of_large_addrs.
  - apply elem_of_bitmap_addrs.
Qed.

(** ** Stacks *)
Local Notation frame_layout := (frame_layout itbl stg_arg_bitmaps m0).
Local Notation stack_layout := (stack_layout itbl stg_arg_bitmaps m0).
(** All words from [p] to [e] can be read as long as [fs] are to be threaded. *)
Definition range_readable (p e : Z) (fs : list Z) : Prop :=
  ∀ k, 0 <= k → p + W k < e → is_Some (m0 !! (p + W k)) ∧ obj (p + W k) = None ∧ (¬ Fld (p + W k) ∨ p + W k ∈ fs).
Lemma range_word p e fs k : range_readable p e fs → 0 <= k → p + W k < e → readable (p + W k) (word_at (p + W k)) fs.
Proof. intros H Hk He. destruct (H k Hk He) as (H1 & H2 & H3). by apply word_readable. Qed.
Lemma range_first p e fs : range_readable p e fs → p < e → p ∉ fs → readable p (word_at p) [].
Proof.
  intros H He Hn. destruct (H 0) as (H1 & H2 & H3); [lia|unfold W; lia|]. replace (p + W 0) with p in * by (unfold W; lia).
  apply word_readable; [done|done|]. left. by destruct H3.
Qed.
Lemma range_tail p p' e fs gs : within p p' fs → range_readable p e (fs ++ gs) → range_readable p' e gs.
Proof.
  intros [(n & Hn & ->) Hw] H k Hk He. destruct (H (n + k)) as (H1 & H2 & H3); [lia|unfold W in *; lia|].
  replace (p + W n + W k) with (p + W (n + k)) by (unfold W; lia). split_and!; [done|done|].
  destruct H3 as [?|[H3%Hw|?]%elem_of_app]; [by left| |by right]. unfold W in *; lia.
Qed.
Lemma range_head p p' e fs gs : within p p' fs → p' <= e → (∀ g, g ∈ gs → p' <= g) → range_readable p e (fs ++ gs) → range_readable p p' fs.
Proof.
  intros _ Hle Hg H k Hk He. destruct (H k) as (H1 & H2 & H3); [done|lia|]. split_and!; [done|done|].
  destruct H3 as [?|[?|H3%Hg]%elem_of_app]; [by left|by right|lia].
Qed.

Lemma threads_dyn p dyn :
  threads (q ← thread_small_bitmap (Z.to_nat RET_DYN_BITMAP_SIZE) (p + W 3) (RET_DYN_LIVENESS dyn);
           let q := q + W (RET_DYN_NONPTRS dyn + RET_DYN_NONPTR_REGS_SIZE) in
           thread_range (Z.to_nat (RET_DYN_PTRS dyn)) q;; mret (q + W (RET_DYN_PTRS dyn)))
    (fst (dyn_layout p dyn)) (snd (dyn_layout p dyn)).
Proof.
  unfold dyn_layout. cbv zeta. cbn [fst snd]. eapply threads_bind; [apply threads_small_bitmap|].
  rewrite Z2Nat.id by done. apply threads_then_ret; [apply threads_range|apply threads_ret].
Qed.
Lemma threads_get_itbl {B} p info fs (k : _ → prog cstate B) r :
  readable p (word_at p) [] → itbl (word_at p) = Some info → threads (k info) fs r → threads (get_itbl itbl p ≫= k) fs r.
Proof.
  intros Hr Hi Hk. eapply (threads_bind _ _ _ _ _ _ []); [|exact Hk]. unfold get_itbl. eapply threads_ld; [done|].
  unfold INFO_PTR_TO_STRUCT. rewrite Hi. eapply threads_ret.
Qed.
Lemma threads_small_frame bm p fs e : small_layout bm p = (fs, e) → threads (thread_small_bitmap (Z.to_nat (BITMAP_SIZE bm)) p (BITMAP_BITS bm)) fs e.
Proof. intros H. pose proof (threads_small_layout bm p) as Ht. by rewrite H in Ht. Qed.
Lemma threads_frame p fs e :
  frame_layout p = Some (fs, e) → range_readable p e fs → (∀ f, f ∈ fs → field_ok f) →
  threads (thread_frame itbl stg_arg_bitmaps p) fs e.
Proof.
  intros Hl Hr Hh. pose proof (frame_layout_within _ _ _ _ _ _ Hl) as [(n & Hn & He) Hw].
  unfold thread_frame. unfold CompactObj.frame_layout in Hl.
  destruct (itbl (word_at p)) as [info|] eqn:Ei; [|done].
  eapply threads_get_itbl; [|done|]. { eapply range_first; [done|unfold W in *; lia|]. intros Hp%Hw. unfold W in *; lia. }
  destruct (type info); try discriminate Hl; try (apply (inj Some) in Hl; by apply threads_small_frame); try (by apply threads_large_layout).
  - apply (inj Some) in Hl. unfold field. eapply threads_ld.
    { eapply range_word; [done|lia|]. pose proof (dyn_layout_end p (word_at (p + W 1))) as Hend. rewrite Hl in Hend. cbn [snd] in Hend. unfold W in *. lia. }
    pose proof (threads_dyn p (word_at (p + W 1))) as Ht. rewrite Hl in Ht. exact Ht.
  - destruct (fun_info itbl m0 (word_at (p + W 2))) as [fi|] eqn:Efi; [|done].
    destruct (arg_layout stg_arg_bitmaps fi (p + W 3)) as [[gs e']|] eqn:E; [|done]. apply (inj Some) in Hl. injection Hl as <- <-.
    unfold field. eapply threads_ld; [eapply range_word; [done|lia|]|].
    { apply arg_layout_within in E as [(k & Hk & ->) _]. unfold W in *. lia. }
    eapply threads_fun_info; [done|apply field_header, Hh; by left|]. eapply threads_then. by apply threads_arg_block.
Qed.
Lemma stack_layout_ge fuel p e fs f : stack_layout fuel p e = Some fs → f ∈ fs → p < f < e.
Proof.
  revert p fs. induction fuel as [|fuel IH]; intros p fs; cbn [CompactObj.stack_layout]; (destruct (Z.ltb_spec p e); [|by intros [= <-] ?%elem_of_nil]); [done|].
  destruct (frame_layout p) as [[gs p']|] eqn:Ef; [|done]. destruct (Z.leb_spec p' e); [|done]. destruct (stack_layout fuel p' e) as [hs|] eqn:Es; [|done].
  apply frame_layout_within in Ef as [(n & Hn & ->) Hw]. intros [= <-] [H1%Hw|H1%(IH _ _ Es)]%elem_of_app; unfold W in *; lia.
Qed.
Lemma threads_stack fuel p e fs :
  stack_layout fuel p e = Some fs → range_readable p e fs → (∀ f, f ∈ fs → field_ok f) → threads (thread_stack itbl stg_arg_bitmaps fuel p e) fs tt.
Proof.
  revert p fs. induction fuel as [|fuel IH]; intros p fs; cbn [CompactObj.stack_layout thread_stack];
    (destruct (Z.ltb_spec p e); [|by intros [= <-] _ _; eapply threads_ret]); [done|].
  destruct (frame_layout p) as [[gs p']|] eqn:Ef; [|done]. destruct (Z.leb_spec p' e); [|done]. destruct (stack_layout fuel p' e) as [hs|] eqn:Es; [|done].
  intros [= <-] Hr Hh. pose proof (frame_layout_within _ _ _ _ _ _ Ef) as Hw. apply (within_skip p 1) in Hw; [|lia].
  eapply threads_bind.
  - eapply threads_frame; [done| |intros f Hf; apply Hh, elem_of_app; by left]. eapply range_head; [done|done| |done].
    intros g Hg. apply (stack_layout_ge _ _ _ _ _ Es) in Hg. lia.
  - apply IH; [done|by eapply range_tail|]. intros f Hf. apply Hh, elem_of_app. by right.
Qed.

(** ** Objects *)
Lemma obj_range p info fs n j gs : obj_ok p info fs n → 1 <= j → (∀ k, j <= k < n → p + W k ∈ fs → p + W k ∈ gs) → range_readable (p + W j) (p + W n) gs.
Proof.
  intros H Hj Hgs k Hk He. replace (p + W j + W k) with (p + W (j + k)) in * by (unfold W; lia).
  destruct (obj_readable p info fs n (j + k) gs H) as (H1 & H2 & H3); [unfold W in *; lia|apply Hgs; unfold W in *; lia|].
  split_and!; [by eexists|done|done].
Qed.
Lemma high_half_nonneg w : 0 <= w → 0 <= high_half w.
Proof. intros. unfold high_half. by apply Z.shiftr_nonneg. Qed.
Lemma low_half_nonneg w : 0 <= low_half w.
Proof. unfold low_half. apply Z.land_nonneg. lia. Qed.
Lemma size_of p info fs n n' gs : obj_ok p info fs n → layout itbl stg_arg_bitmaps m0 info p = Some (gs, n') → fs = gs ∧ n = n'.
Proof. intros H E. rewrite (ok_layout _ _ _ _ H) in E. by injection E as <- <-. Qed.

(** The size that [closure_sizeW_] computes is the one of the layout. *)
Lemma not_field_word p info fs n k : obj_ok p info fs n → 1 <= k < n → p + W k ∉ fs → readable (p + W k) (word_at (p + W k)) [].
Proof. intros H Hk Hn. eapply obj_readable; [done|done|]. intros Hf. by destruct Hn. Qed.
Lemma threads_thread_TSO p info fs n : obj_ok p info fs n → type info = TSO → threads (thread_TSO p) fs (p + W n).
Proof.
  intros H Ht. pose proof (ok_layout _ _ _ _ H) as Hl. unfold layout in Hl. rewrite Ht in Hl. apply (inj Some), pair_equal_spec in Hl as [<- <-].
  unfold thread_TSO. cbn [app]. do 2 eapply threads_then.
  eapply threads_field; [done|unfold sizeofW_StgTSO; lia| |].
  { intros Hf. apply elem_of_cons in Hf as [E|Hf]; [unfold W in E; lia|]. apply elem_of_cons in Hf as [E|Hf]; [unfold W in E; lia|done]. }
  cbv zeta. eapply threads_seq; [apply threads_when, threads_one|]. do 4 eapply threads_then. eapply threads_ret.
Qed.
Lemma threads_thread_PAP p info fs n : obj_ok p info fs n → type info = PAP → threads (thread_PAP itbl stg_arg_bitmaps p) fs (p + W n).
Proof.
  intros H Ht. pose proof (ok_layout _ _ _ _ H) as Hl. unfold layout in Hl. rewrite Ht in Hl.
  destruct (pap_payload _ _ _ _ _ _) as [gs|] eqn:Hgs; [|done]. apply (inj Some), pair_equal_spec in Hl as [<- <-].
  pose proof (ok_size _ _ _ _ H) as Hsz. pose proof (word_nonneg _ _ _ _ 1 H) as H1. pose proof (high_half_nonneg (word_at (p + W 1))) as H2.
  unfold thread_PAP. eapply threads_field; [done|unfold sizeofW_StgPAP in *; lia|done|].
  eapply threads_field; [done|unfold sizeofW_StgPAP in *; lia|done|].
  eapply threads_bind.
  - apply threads_PAP_payload; [done|apply H2, H1; lia|]. eapply field_header, (ok_field _ _ _ _ H). apply elem_of_app. right. by left.
  - eapply threads_then. replace (p + W sizeofW_StgPAP + _) with (p + W (sizeofW_StgPAP + high_half (word_at (p + W 1)))) by (unfold W; lia). eapply threads_ret.
Qed.
Lemma threads_thread_AP p info fs n : obj_ok p info fs n → type info = AP → threads (thread_AP itbl stg_arg_bitmaps p) fs (p + W n).
Proof.
  intros H Ht. pose proof (ok_layout _ _ _ _ H) as Hl. unfold layout in Hl. rewrite Ht in Hl.
  destruct (pap_payload _ _ _ _ _ _) as [gs|] eqn:Hgs; [|done]. apply (inj Some), pair_equal_spec in Hl as [<- <-].
  assert (p + W 3 ∈ gs ++ [p + W 3]) as Hin by (apply elem_of_app; right; by left).
  destruct (ok_in _ _ _ _ H _ Hin) as (k & Hk & Ek). pose proof (word_nonneg _ _ _ _ 2 H) as H1. pose proof (high_half_nonneg (word_at (p + W 2))) as H2.
  unfold thread_AP. eapply threads_field; [done|unfold W in *; lia|done|].
  eapply threads_field; [done|unfold W in *; lia|done|].
  eapply threads_bind.
  - apply threads_PAP_payload; [done|apply H2, H1; unfold W in *; lia|]. by eapply field_header, (ok_field _ _ _ _ H).
  - eapply threads_then. replace (p + W sizeofW_StgAP + _) with (p + W (sizeofW_StgAP + high_half (word_at (p + W 2)))) by (unfold W; lia). eapply threads_ret.
Qed.

Lemma threads_thread_AP_STACK p info fs n : obj_ok p info fs n → type info = AP_STACK → threads (thread_AP_STACK itbl stg_arg_bitmaps p) fs (p + W n).
Proof.
  intros H Ht. pose proof (ok_layout _ _ _ _ H) as Hl. unfold layout in Hl. rewrite Ht in Hl.
  destruct (CompactObj.stack_layout _ _ _ _ _ _) as [gs|] eqn:Hgs; [|done]. apply (inj Some), pair_equal_spec in Hl as [<- <-].
  assert (p + W 3 ∈ (p + W 3) :: gs) as Hin by by left.
  destruct (ok_in _ _ _ _ H _ Hin) as (k & Hk & Ek). assert (3 < sizeofW_StgAP_STACK + word_at (p + W 2)) as H3 by (unfold W in *; lia).
  assert (p + W 2 ∉ (p + W 3) :: gs) as Hn2.
  { intros [E|Hf]%elem_of_cons; [unfold W in E; lia|]. apply (stack_layout_ge _ _ _ _ _ Hgs) in Hf. unfold sizeofW_StgAP_STACK, W in *. lia. }
  assert (∀ gs', readable (p + W 2) (word_at (p + W 2)) gs') as Hr2.
  { intros gs'. eapply obj_readable; [done|lia|]. intros Hf. by destruct Hn2. }
  unfold thread_AP_STACK. eapply threads_then. unfold field. eapply threads_ld; [apply Hr2|]. cbv zeta.
  apply threads_then_ret.
  - eapply threads_stack; [done| |intros f Hf; apply (ok_field _ _ _ _ H); by right].
    replace (p + W sizeofW_StgAP_STACK + W (word_at (p + W 2))) with (p + W (sizeofW_StgAP_STACK + word_at (p + W 2))) by (unfold W; lia).
    eapply obj_range; [done|done|]. intros j Hj [E|Hf]%elem_of_cons; [unfold sizeofW_StgAP_STACK, W in *; lia|done].
  - eapply threads_ld; [apply Hr2|]. apply threads_ret.
Qed.
Lemma threads_thread_STACK p info fs n : obj_ok p info fs n → type info = STACK →
  threads (thread_STACK itbl stg_arg_bitmaps p) fs tt ∧ n = sizeofW_StgStack + low_half (word_at (p + W 1)) ∧ (∀ f, f ∈ fs → p + W 2 < f).
Proof.
  intros H Ht. pose proof (ok_layout _ _ _ _ H) as Hl. unfold layout in Hl. rewrite Ht in Hl.
  destruct (_ && _) eqn:Hsp; [|done]. apply andb_true_iff in Hsp as [Hsp1%Z.leb_le Hsp2%Z.eqb_eq].
  destruct (CompactObj.stack_layout _ _ _ _ _ _) as [gs|] eqn:Hgs; [|done]. apply (inj Some), pair_equal_spec in Hl as [<- <-].
  pose proof (low_half_nonneg (word_at (p + W 1))) as Hlow.
  assert (∀ f, f ∈ gs → p + W 2 < f) as Hgt.
  { intros f Hf%(stack_layout_ge _ _ _ _ _ Hgs). unfold sizeofW_StgStack, W in *. lia. }
  split; [|done]. unfold thread_STACK. unfold sizeofW_StgStack in *.
  eapply threads_field; [done|lia|done|]. eapply threads_field; [done|lia|done|].
  eapply threads_stack; [done| |by apply (ok_field _ _ _ _ H)].
  set (j := (word_at (p + W 2) - p) / 8). assert (word_at (p + W 2) = p + W j) as Ej.
  { unfold j. generalize dependent (word_at (p + W 2)). intros w. intros. unfold W. pose proof (Z.div_mod (w - p) 8). lia. }
  rewrite Ej. eapply obj_range; [done| |done]. clearbody j. unfold W in *. lia.
Qed.
Lemma threads_MUT_ARR p info fs n :
  obj_ok p info fs n → fs = addrs (p + W sizeofW_StgMutArrPtrs) (Z.to_nat (word_at (p + W 1))) → 3 <= n → threads (thread_MUT_ARR_PTRS p) fs tt.
Proof.
  intros H -> Hn. unfold thread_MUT_ARR_PTRS. eapply threads_field; [done|lia|done|]. apply threads_range.
Qed.
Lemma threads_TREC p info fs n :
  obj_ok p info fs n → fs = (p + W 1) :: entry_addrs (Z.to_nat (word_at (p + W 2))) (p + W 3) → 3 <= n → threads (thread_TREC_CHUNK p) fs tt.
Proof.
  intros H -> Hn. unfold thread_TREC_CHUNK. eapply threads_then. eapply threads_field; [done|lia| |apply threads_entries].
  intros [E|Hf]%elem_of_cons; [unfold W in E; lia|done].
Qed.

Lemma threads_mut_arr p info fs n :
  obj_ok p info fs n →
  (let size := word_at (p + W 2) in
   if 0 <=? size then Some (addrs (p + W sizeofW_StgMutArrPtrs) (Z.to_nat (word_at (p + W 1))), sizeofW_StgMutArrPtrs + size) else None) = Some (fs, n) →
  threads (thread_MUT_ARR_PTRS p;; size ← field p 2; mret (p + W (sizeofW_StgMutArrPtrs + size))) fs (p + W n).
Proof.
  intros H Hl. cbv zeta in Hl. destruct (Z.leb_spec 0 (word_at (p + W 2))) as [Hs|]; [|done]. apply (inj Some), pair_equal_spec in Hl as [E <-].
  apply threads_then_ret; [eapply threads_MUT_ARR; [done|done|unfold sizeofW_StgMutArrPtrs; lia]|].
  eapply threads_ld; [|apply threads_ret]. eapply not_field_word; [done|unfold sizeofW_StgMutArrPtrs; lia|]. subst fs.
  intros (k & Hk & Ek)%elem_of_addrs. unfold sizeofW_StgMutArrPtrs, W in *. lia.
Qed.
Lemma threads_ret_eq {A} (a b : A) : a = b → threads (mret a) [] b.
Proof. intros ->. apply threads_ret. Qed.
(** [thread_obj] threads the fields of the layout and returns the end. *)
Lemma threads_obj p info fs n : obj_ok p info fs n → threads (thread_obj itbl stg_arg_bitmaps info p) fs (p + W n).
Proof.
  intros H. pose proof (ok_layout _ _ _ _ H) as Hl. pose proof (ok_size _ _ _ _ H) as Hsz. pose proof (ok_ptrs _ _ _ _ H) as [Hp1 Hp2].
  unfold thread_obj. unfold layout in Hl. destruct (type info) eqn:Ht; try discriminate Hl;
    try (by apply (threads_thread_PAP p info)); try (by apply (threads_thread_AP p info)); try (by apply (threads_thread_AP_STACK p info));
    try (by apply (threads_thread_TSO p info));
    try (apply (inj Some), pair_equal_spec in Hl as [<- <-]; repeat eapply threads_then; apply threads_ret_eq; unfold W; lia);
    try (apply (inj Some), pair_equal_spec in Hl as [<- <-]; apply threads_then_ret; [apply threads_range|]; apply threads_ret_eq;
         unfold sizeofW_StgThunk, sizeofW_StgHeader, W in *; lia).
  - destruct (Z.leb_spec 5 (high_half (word_at (p + W 4)))); [|done]. apply (inj Some), pair_equal_spec in Hl as [<- <-].
    do 3 eapply threads_then. eapply threads_field; [done|lia| |apply threads_ret].
    intros Hf. repeat (apply elem_of_cons in Hf as [E|Hf]; [unfold W in E; lia|]). done.
  - destruct (_ =? 3); [|done]. apply (inj Some), pair_equal_spec in Hl as [<- <-]. do 3 eapply threads_then. apply threads_ret.
  - destruct (_ =? 3); [|done]. apply (inj Some), pair_equal_spec in Hl as [<- <-]. do 3 eapply threads_then. apply threads_ret.
  - apply (inj Some), pair_equal_spec in Hl as [<- <-]. eapply threads_field; [done|lia|done|apply threads_ret].
  - by eapply threads_mut_arr.
  - by eapply threads_mut_arr.
  - by eapply threads_mut_arr.
  - by eapply threads_mut_arr.
  - destruct (_ =? 5); [|done]. apply (inj Some), pair_equal_spec in Hl as [<- <-]. cbn [app]. do 4 eapply threads_then.
    eapply threads_field; [done|unfold sizeofW_StgWeak; lia| |].
    { intros Hf. do 4 (apply elem_of_cons in Hf as [E|Hf]; [unfold W in E; lia|]). exact Hf. }
    apply threads_then_ret; [apply threads_when, threads_one|apply threads_ret].
  - destruct (threads_thread_STACK p info fs n H Ht) as (H1 & -> & H3). apply threads_then_ret; [done|].
    eapply threads_ld; [|apply threads_ret]. eapply not_field_word; [done|lia|]. intros Hf%H3. unfold W in Hf. lia.
  - apply (inj Some), pair_equal_spec in Hl as [<- <-]. apply threads_then_ret; [|apply threads_ret]. eapply threads_TREC; [done|done|].
    unfold sizeofW_StgTRecChunk, TREC_CHUNK_NUM_ENTRIES, sizeofW_TRecEntry. lia.
Qed.

(** [closure_sizeW_] computes the size of the layout, from words that are no
    fields. *)
Definition plain_words (p : Z) (fs : list Z) (n : Z) (s : cstate) : Prop :=
  ∀ k, 1 <= k < n → p + W k ∉ fs → words s !! (p + W k) = m0 !! (p + W k).
Lemma wp_plain {B} p info fs n k (f : Z → prog cstate B) Q s :
  obj_ok p info fs n → plain_words p fs n s → 1 <= k < n → p + W k ∉ fs → wp (f (word_at (p + W k))) Q s → wp (field p k ≫= f) Q s.
Proof.
  intros H Hs Hk Hn Hf. unfold field. wp_step. eapply wp_ld_word; [|exact Hf]. rewrite (Hs k Hk Hn).
  destruct (ok_word _ _ _ _ H k Hk) as [(v & Hv & _) _]. unfold CompactObj.word_at. by rewrite Hv.
Qed.
Lemma pap_size_word f payload size gs x a : pap_payload itbl stg_arg_bitmaps m0 f payload size = Some gs → a < payload → a ≠ x → a ∉ gs ++ [x].
Proof.
  intros Hgs Ha Hx [Hf|Hf%list_elem_of_singleton]%elem_of_app; [|done].
  apply (pap_payload_addrs _ _ _ _ _ Hgs), elem_of_addrs in Hf as (k & Hk & ->). unfold W in *. lia.
Qed.
Lemma wp_mut_arr p info fs n Q s :
  obj_ok p info fs n → plain_words p fs n s → Q n s →
  (let size := word_at (p + W 2) in
   if 0 <=? size then Some (addrs (p + W sizeofW_StgMutArrPtrs) (Z.to_nat (word_at (p + W 1))), sizeofW_StgMutArrPtrs + size) else None) = Some (fs, n) →
  wp (size ← field p 2; mret (sizeofW_StgMutArrPtrs + size)) Q s.
Proof.
  intros H Hs HQ Hl. cbv zeta in Hl. destruct (Z.leb_spec 0 (word_at (p + W 2))); [|done]. apply (inj Some), pair_equal_spec in Hl as [E <-].
  eapply wp_plain; [done|done|unfold sizeofW_StgMutArrPtrs; lia| |by apply wp_ret]. subst fs.
  intros (k & Hk & Ek)%elem_of_addrs. unfold sizeofW_StgMutArrPtrs, W in *. lia.
Qed.
Lemma closure_sizeW_ok p info fs n Q s : obj_ok p info fs n → plain_words p fs n s → Q n s → wp (closure_sizeW_ p info) Q s.
Proof.
  intros H Hs HQ. pose proof (ok_layout _ _ _ _ H) as Hl. pose proof (ok_size _ _ _ _ H) as Hsz. pose proof (λ k, word_nonneg _ _ _ _ k H) as Hnn.
  unfold closure_sizeW_. unfold layout in Hl. destruct (type info) eqn:Ht; try discriminate Hl;
    try (apply (inj Some), pair_equal_spec in Hl as [_ <-]; apply wp_ret; exact HQ).
  - destruct (Z.leb_spec 5 (high_half (word_at (p + W 4)))); [|done]. apply (inj Some), pair_equal_spec in Hl as [<- <-].
    eapply wp_plain; [done|done|lia| |by apply wp_ret].
    intros Hf. repeat (apply elem_of_cons in Hf as [E|Hf]; [unfold W in E; lia|]). by apply elem_of_nil in Hf.
  - destruct (pap_payload _ _ _ _ _ _) as [gs|] eqn:Hgs; [|done]. apply (inj Some), pair_equal_spec in Hl as [<- <-].
    assert (p + W 3 ∈ gs ++ [p + W 3]) as Hin by (apply elem_of_app; right; by left). destruct (ok_in _ _ _ _ H _ Hin) as (k & Hk & Ek).
    eapply wp_plain; [done|done|unfold W in *; lia| |by apply wp_ret]. eapply pap_size_word; [done|unfold sizeofW_StgAP, W; lia..].
  - destruct (pap_payload _ _ _ _ _ _) as [gs|] eqn:Hgs; [|done]. apply (inj Some), pair_equal_spec in Hl as [<- <-].
    eapply wp_plain; [done|done|lia| |by apply wp_ret]. eapply pap_size_word; [done|unfold sizeofW_StgPAP, W; lia..].
  - destruct (CompactObj.stack_layout _ _ _ _ _ _) as [gs|] eqn:Hgs; [|done]. apply (inj Some), pair_equal_spec in Hl as [<- <-].
    destruct (ok_in _ _ _ _ H (p + W 3)) as (k & Hk & Ek); [by left|].
    eapply wp_plain; [done|done|unfold W in *; lia| |by apply wp_ret].
    intros [E|Hf]%elem_of_cons; [unfold W in E; lia|]. apply (stack_layout_ge _ _ _ _ _ Hgs) in Hf. unfold sizeofW_StgAP_STACK, W in *. lia.
  - destruct (Z.eqb_spec (ptrs info + nptrs info) 3) as [E|]; [|done]. apply (inj Some), pair_equal_spec in Hl as [_ <-]. apply wp_ret.
    by replace (sizeofW_StgHeader + ptrs info + nptrs info) with sizeofW_StgMVar by (unfold sizeofW_StgMVar, sizeofW_StgHeader; lia).
  - destruct (Z.eqb_spec (ptrs info + nptrs info) 3) as [E|]; [|done]. apply (inj Some), pair_equal_spec in Hl as [_ <-]. apply wp_ret.
    by replace (sizeofW_StgHeader + ptrs info + nptrs info) with sizeofW_StgMVar by (unfold sizeofW_StgMVar, sizeofW_StgHeader; lia).
  - apply (inj Some), pair_equal_spec in Hl as [<- <-]. eapply wp_plain; [done|done|lia|by apply not_elem_of_nil|by apply wp_ret].
  - by eapply wp_mut_arr.
  - by eapply wp_mut_arr.
  - by eapply wp_mut_arr.
  - by eapply wp_mut_arr.
  - destruct (Z.eqb_spec (ptrs info + nptrs info) 5) as [E|]; [|done]. apply (inj Some), pair_equal_spec in Hl as [_ <-]. apply wp_ret.
    by replace (sizeofW_StgHeader + ptrs info + nptrs info) with sizeofW_StgWeak by (unfold sizeofW_StgWeak, sizeofW_StgHeader; lia).
  - destruct (threads_thread_STACK p info fs n H Ht) as (_ & -> & H3). eapply wp_plain; [done|done|lia| |by apply wp_ret].
    intros Hf%H3. unfold W in Hf. lia.
Qed.
End objects.
Arguments threads_MUT_ARR {_ _ _ _ _ _ _}.
Arguments threads_TREC {_ _ _ _ _ _ _}.
Arguments threads_thread_PAP {_ _ _ _ _ _ _}.
Arguments threads_thread_AP_STACK {_ _ _ _ _ _ _}.
Arguments threads_thread_STACK {_ _ _ _ _ _ _}.
Arguments threads_obj {_ _ _ _ _ _ _}.
Arguments closure_sizeW_ok {_ _ _ _ _ _ _}.
Arguments ok_layout {_ _ _ _ _ _ _ _ _ _}.
Arguments ok_size {_ _ _ _ _ _ _ _ _ _}.
Arguments ok_word {_ _ _ _ _ _ _ _ _ _}.
Arguments ok_fields {_ _ _ _ _ _ _ _ _ _}.
Arguments ok_in {_ _ _ _ _ _ _ _ _ _}.
