(* ===== verification/CompactMarks.v ===== *)
(** * Mark bitmaps

    [mark] sets the bit of one word of a block; [next_marked] finds the next
    word whose bit is set. *)
From stdpp Require Import list gmap.
From S2P Require Import Prelude DList ClosureFlags Compact CompactChain.
Local Open Scope Z_scope.

(** The words of a block that [is_marked] can be asked about *)
Definition in_words (p : Z) (bd : bdescr) : Prop := ∃ k, 0 <= k < BLOCK_SIZE / 8 ∧ p = start bd + W k.
Definition bitmap_ok (bd : bdescr) : Prop := length (bitmap bd) = Z.to_nat (BLOCK_SIZE / 8 / BITS_IN_W).

Lemma offset_in_words k bd : offset_within_block (start bd + W k) bd = k.
Proof. unfold offset_within_block, W. replace (start bd + 8 * k - start bd) with (k * 8) by lia. apply Z.div_mul. lia. Qed.
Lemma bit_mask_mod off : bit_mask off = Z.shiftl 1 (off mod 64).
Proof. unfold bit_mask. change (BITS_IN_W - 1) with (Z.ones 6). by rewrite Z.land_ones. Qed.
Lemma land_mask w b : 0 <= b → (Z.land w (Z.shiftl 1 b) =? 0) = negb (Z.testbit w b).
Proof. intros Hb. by rewrite Z.shiftl_1_l, <- land_bit, negb_involutive. Qed.
Definition bit_at (k : Z) (bits : list Z) : bool :=
  match bits !! Z.to_nat (k / BITS_IN_W) with Some w => Z.testbit w (k mod 64) | None => false end.
Lemma is_marked_bit k bd : is_marked (start bd + W k) bd = bit_at k (bitmap bd).
Proof.
  unfold is_marked, bit_at. cbv zeta. rewrite offset_in_words. destruct (bitmap bd !! _) as [w|]; [|done].
  rewrite bit_mask_mod, land_mask by (apply Z.mod_pos_bound; lia). apply negb_involutive.
Qed.
(** Changing bit [k] of its word *)
Lemma bit_at_update k j bits w w' (b : bool) : 0 <= k → 0 <= j → bits !! Z.to_nat (k / BITS_IN_W) = Some w →
  (∀ n, 0 <= n → Z.testbit w' n = if k mod 64 =? n then b else Z.testbit w n) →
  bit_at j (<[Z.to_nat (k / BITS_IN_W) := w']> bits) = if j =? k then b else bit_at j bits.
Proof.
  intros Hk Hj Hw Hw'. unfold bit_at. unfold BITS_IN_W in *. destruct (decide (j / 64 = k / 64)) as [E|Hne].
  - rewrite E, list_lookup_insert_eq, Hw by (by eapply lookup_lt_Some).
    rewrite Hw' by (apply Z.mod_pos_bound; lia).
    pose proof (Z.div_mod j 64). pose proof (Z.div_mod k 64).
    destruct (Z.eqb_spec (k mod 64) (j mod 64)), (Z.eqb_spec j k); subst; try done; lia.
  - rewrite list_lookup_insert_ne.
    + destruct (Z.eqb_spec j k) as [->|]; done.
    + intros H. apply Hne. apply Z2Nat.inj in H; [done|apply Z.div_pos; lia..].
Qed.
Lemma bit_at_set k j bits w : 0 <= k → 0 <= j → bits !! Z.to_nat (k / BITS_IN_W) = Some w →
  bit_at j (<[Z.to_nat (k / BITS_IN_W) := Z.lor w (bit_mask k)]> bits) = bit_at j bits || (j =? k).
Proof.
  intros Hk Hj Hw. rewrite (bit_at_update k j bits w _ true Hk Hj Hw).
  - destruct (j =? k); [by rewrite orb_true_r|by rewrite orb_false_r].
  - intros n Hn. rewrite bit_mask_mod, Z.lor_spec, Z.shiftl_1_l, Z.pow2_bits_eqb by (apply Z.mod_pos_bound; lia).
    destruct (_ =? n); [apply orb_true_r|apply orb_false_r].
Qed.
Lemma bit_at_clear k j bits w : 0 <= k → 0 <= j → bits !! Z.to_nat (k / BITS_IN_W) = Some w →
  bit_at j (<[Z.to_nat (k / BITS_IN_W) := Z.land w (Z.lnot (bit_mask k))]> bits) = bit_at j bits && negb (j =? k).
Proof.
  intros Hk Hj Hw. rewrite (bit_at_update k j bits w _ false Hk Hj Hw).
  - destruct (j =? k); [by rewrite andb_false_r|by rewrite andb_true_r].
  - intros n Hn. rewrite bit_mask_mod, Z.land_spec, Z.lnot_spec, Z.shiftl_1_l, Z.pow2_bits_eqb by (lia || apply Z.mod_pos_bound; lia).
    destruct (_ =? n); [apply andb_false_r|apply andb_true_r].
Qed.

(** ** mark *)
Lemma wp_block i bd Q s : old_blocks s !! i = Some bd → Q bd s → wp (block i) Q s.
Proof. intros H HQ. unfold block. wp_step. apply wp_get. cbv beta. rewrite H. by apply wp_ret. Qed.
Lemma wp_upd_block i bd f Q s :
  old_blocks s !! i = Some bd → Q tt (set_old_blocks (<[i := f bd]> (old_blocks s)) s) → wp (upd_block i f) Q s.
Proof. intros H HQ. unfold upd_block. wp_step. eapply wp_block; [done|]. cbv beta. exact HQ. Qed.

Lemma existsb_insert {A} (g : A → bool) l i x y : l !! i = Some x → g y = g x → existsb g (<[i := y]> l) = existsb g l.
Proof.
  revert i. induction l as [|z l IH]; intros [|i]; cbn; try done.
  - intros [= ->] ->. done.
  - intros H E. by rewrite IH.
Qed.
Lemma marked_block_insert q s i bd bd' :
  old_blocks s !! i = Some bd → start bd' = start bd → bd_marked bd' = bd_marked bd →
  marked_block q (set_old_blocks (<[i := bd']> (old_blocks s)) s) = marked_block q s.
Proof. intros H E1 E2. unfold marked_block. cbn. eapply existsb_insert; [done|]. unfold in_block. by rewrite E1, E2. Qed.

(** The word with the bit of word [k] *)
Lemma bitmap_word bd k : bitmap_ok bd → 0 <= k < BLOCK_SIZE / 8 → ∃ w, bitmap bd !! Z.to_nat (k / BITS_IN_W) = Some w.
Proof.
  intros Hb Hk. apply lookup_lt_is_Some. rewrite Hb. unfold BLOCK_SIZE, BITS_IN_W in *. change (4096 / 8 / 64) with 8. change (4096 / 8) with 512 in Hk.
  pose proof (Z.div_lt_upper_bound k 64 8). pose proof (Z.div_pos k 64). lia.
Qed.
Lemma mark_bit_ok i bd k Q s :
  old_blocks s !! i = Some bd → bitmap_ok bd → 0 <= k < BLOCK_SIZE / 8 →
  (∀ bits, length bits = length (bitmap bd) → (∀ j, 0 <= j → bit_at j bits = bit_at j (bitmap bd) || (j =? k)) →
     Q tt (set_old_blocks (<[i := set_bitmap bits bd]> (old_blocks s)) s)) →
  wp (mark (start bd + W k) i) Q s.
Proof.
  intros Hi Hb Hk HQ. unfold mark. wp_step. eapply wp_block; [done|]. cbv beta zeta. rewrite offset_in_words.
  destruct (bitmap_word bd k Hb Hk) as [w Hw].
  rewrite Hw. wp_step. apply wp_ret. cbv beta. eapply wp_upd_block; [done|].
  apply HQ; [by rewrite length_insert|]. intros j Hj. apply bit_at_set; [lia|done|done].
Qed.
Lemma unmark_bit_ok i bd k Q s :
  old_blocks s !! i = Some bd → bitmap_ok bd → 0 <= k < BLOCK_SIZE / 8 →
  (∀ bits, length bits = length (bitmap bd) → (∀ j, 0 <= j → bit_at j bits = bit_at j (bitmap bd) && negb (j =? k)) →
     Q tt (set_old_blocks (<[i := set_bitmap bits bd]> (old_blocks s)) s)) →
  wp (unmark (start bd + W k) i) Q s.
Proof.
  intros Hi Hb Hk HQ. unfold unmark. wp_step. eapply wp_block; [done|]. cbv beta zeta. rewrite offset_in_words.
  destruct (bitmap_word bd k Hb Hk) as [w Hw].
  rewrite Hw. wp_step. apply wp_ret. cbv beta. eapply wp_upd_block; [done|].
  apply HQ; [by rewrite length_insert|]. intros j Hj. apply bit_at_clear; [lia|done|done].
Qed.

(** ** next_marked *)
Lemma skip_unmarked_ok fuel j k bd :
  0 <= j <= k → (∀ n, j <= n < k → start bd + W n < free bd ∧ bit_at n (bitmap bd) = false) →
  (start bd + W k < free bd → bit_at k (bitmap bd) = true) → k - j <= Z.of_nat fuel →
  skip_unmarked fuel (start bd + W j) bd = start bd + W k.
Proof.
  intros Hjk Hu Hm. revert j Hjk Hu. induction fuel as [|fuel IH]; intros j Hjk Hu Hf; cbn [skip_unmarked].
  - f_equal. unfold W. lia.
  - rewrite is_marked_bit. destruct (decide (j = k)) as [->|].
    + destruct (Z.ltb_spec (start bd + W k) (free bd)) as [Hlt|]; [by rewrite (Hm Hlt)|done].
    + destruct (Hu j) as [Hlt ->]; [lia|]. apply Z.ltb_lt in Hlt as ->. cbn.
      replace (start bd + W j + 8) with (start bd + W (j + 1)) by (unfold W; lia). apply IH; [lia| |lia]. intros m Hm'. apply Hu. lia.
Qed.
(** The word that is found *)
Lemma next_marked_found j k bd :
  0 <= j <= k → start bd + W k < free bd → (∀ n, j <= n < k → bit_at n (bitmap bd) = false) → bit_at k (bitmap bd) = true →
  next_marked (start bd + W j) bd = start bd + W k.
Proof.
  intros Hjk Hlt Hu Hm. unfold next_marked. apply skip_unmarked_ok; [done| |done|].
  - intros n Hn. split; [unfold W in *; lia|by apply Hu].
  - unfold W in *. lia.
Qed.
(** No word is found. *)
Lemma next_marked_none j bd : 0 <= j → (∀ n, j <= n → start bd + W n < free bd → bit_at n (bitmap bd) = false) → free bd <= next_marked (start bd + W j) bd.
Proof.
  intros Hj Hu. unfold next_marked. destruct (decide (free bd <= start bd + W j)) as [Hle|Hgt].
  { replace (Z.to_nat (free bd - (start bd + W j))) with O by lia. done. }
  set (k := (free bd - start bd + 7) / 8).
  assert (free bd <= start bd + W k ∧ start bd + W k < free bd + 8) as [Hk1 Hk2] by (unfold W, k in *; pose proof (Z.div_mod (free bd - start bd + 7) 8); pose proof (Z.mod_pos_bound (free bd - start bd + 7) 8); lia).
  clearbody k. rewrite (skip_unmarked_ok _ j k); [done|unfold W in *; lia| |unfold W in *; lia|unfold W in *; lia].
  intros n Hn. assert (start bd + W n < free bd) by (unfold W in *; lia). split; [done|]. apply Hu; [lia|done].
Qed.
