(* ===== verification/CompactHeap.v ===== *)
(** * The heap that is compacted

    The live objects of the blocks of the generation, in the order of the
    blocks and addresses; where they go; and what one scan over the mark bits
    of a block finds. *)
From Stdlib Require Import Sorted.
From stdpp Require Import list gmap.
From S2P Require Import Prelude DList ClosureFlags Compact CompactChain CompactThread CompactObj CompactMarks.
Local Open Scope Z_scope.

(** ** Live objects *)
Record object : Type := mkObj {
  o_addr : Z;
  o_ip : Z;
  o_info : StgInfoTable;
  o_fields : list Z;
  o_size : Z
}.
Definition o_end (o : object) : Z := o_addr o + W (o_size o).

Section heap.
Context (itbl : Z → option StgInfoTable) (stg_arg_bitmaps : Z → Z).
(** [m0], [blks0]: the memory and the blocks before the collection; [bls]: the
    live objects of each block; [roots]: the fields outside these blocks. *)
Context (m0 : gmap Z Z) (blks0 : list bdescr) (bls : list (list object)) (roots : list Z).

Definition all : list object := concat bls.
Definition obj (q : Z) : option Z := o_ip <$> head (filter (λ o, o_addr o = q) all).
Definition fields : list Z := roots ++ (all ≫= o_fields).
Definition Fld (f : Z) : Prop := f ∈ fields.
Definition in_marked (q : Z) : bool := existsb (λ bd, bd_marked bd && in_block q bd) blks0.

(** What the mutator and the marking phase guarantee.  The objects of a block
    are disjoint, in order, and below its [free]; exactly their first words are
    marked; every field is a field of one object only, or one root.  The
    memory has all words of the blocks. *)
Class heap_ok : Prop := {
  h_blocks : length bls = length blks0;
  h_bitmaps bd : bd ∈ blks0 → bitmap_ok bd ∧ aligned (start bd) ∧ free bd <= start bd + BLOCK_SIZE;
  h_disjoint i j bd bd' : blks0 !! i = Some bd → blks0 !! j = Some bd' → i ≠ j → start bd + BLOCK_SIZE <= start bd' ∨ start bd' + BLOCK_SIZE <= start bd;
  h_mapped bd k : bd ∈ blks0 → 0 <= k < BLOCK_SIZE / 8 → is_Some (m0 !! (start bd + W k));
  h_marks i bd os k : blks0 !! i = Some bd → bls !! i = Some os → 0 <= k < BLOCK_SIZE / 8 →
    (bit_at k (bitmap bd) = true ↔ ∃ o, o ∈ os ∧ start bd + W k = o_addr o);
  h_place i bd os o : blks0 !! i = Some bd → bls !! i = Some os → o ∈ os →
    bd_marked bd = true ∧ (∃ k, 0 <= k ∧ o_addr o = start bd + W k) ∧ o_end o <= free bd;
  h_sorted os : os ∈ bls → StronglySorted (λ o o', o_end o <= o_addr o') os;
  h_obj o : o ∈ all → m0 !! o_addr o = Some (o_ip o) ∧ aligned (o_ip o) ∧ LOOKS_LIKE_INFO_PTR itbl (o_ip o) = true ∧
    itbl (o_ip o) = Some (o_info o);
  h_obj_ok o : o ∈ all → obj_ok itbl stg_arg_bitmaps obj Fld m0 in_marked (o_addr o) (o_info o) (o_fields o) (o_size o);
  h_nodup : NoDup fields;
  h_addrs : NoDup (o_addr <$> all);
  h_fields f : f ∈ fields → obj f = None ∧ aligned f;
  h_roots f : f ∈ roots → field_ok obj Fld m0 in_marked f ∧ ∀ bd, bd ∈ blks0 → in_block f bd = false
}.
Context `{Hheap : heap_ok}.

Lemma obj_some q i : obj q = Some i → ∃ o, o ∈ all ∧ o_addr o = q ∧ o_ip o = i.
Proof.
  unfold obj. destruct (filter _ _) as [|o l] eqn:E; [done|]. cbn. intros [= <-].
  assert (o ∈ filter (λ o, o_addr o = q) all) as H by (rewrite E; by left). apply list_elem_of_filter in H as [H1 H2]. by exists o.
Qed.
Lemma addr_inj o o' : o ∈ all → o' ∈ all → o_addr o = o_addr o' → o = o'.
Proof.
  pose proof h_addrs as Hnd. revert Hnd. induction all as [|x l IH]; [by intros _ ?%elem_of_nil|]. cbn. rewrite NoDup_cons. intros [Hn Hnd].
  rewrite !elem_of_cons. intros [->|H] [->|H'] E; [done| | |by apply IH].
  - exfalso. apply Hn. rewrite E. by apply list_elem_of_fmap_2.
  - exfalso. apply Hn. rewrite <- E. by apply list_elem_of_fmap_2.
Qed.
Lemma obj_of o : o ∈ all → obj (o_addr o) = Some (o_ip o).
Proof.
  intros Ho. unfold obj. destruct (filter _ _) as [|o' l] eqn:E.
  - assert (o ∈ filter (λ o', o_addr o' = o_addr o) all) as H by by apply list_elem_of_filter. rewrite E in H. by apply elem_of_nil in H.
  - assert (o' ∈ filter (λ o', o_addr o' = o_addr o) all) as H by (rewrite E; by left). apply list_elem_of_filter in H as [H1 H2].
    cbn. by rewrite (addr_inj o' o).
Qed.
Lemma elem_of_all o : o ∈ all ↔ ∃ i os, bls !! i = Some os ∧ o ∈ os.
Proof.
  unfold all. rewrite list_elem_of_In, in_concat. split.
  - intros (os & H1 & H2). apply list_elem_of_In in H1, H2. apply list_elem_of_lookup in H1 as [i Hi]. by exists i, os.
  - intros (i & os & Hi & Ho). exists os. rewrite <- !list_elem_of_In. split; [by eapply list_elem_of_lookup_2|done].
Qed.
(** The block of an object *)
Lemma block_of o : o ∈ all → ∃ i os bd, bls !! i = Some os ∧ o ∈ os ∧ blks0 !! i = Some bd.
Proof.
  intros (i & os & Hi & Ho)%elem_of_all. apply lookup_lt_Some in Hi as Hlt. rewrite h_blocks in Hlt. apply lookup_lt_is_Some in Hlt as [bd Hbd]. by exists i, os, bd.
Qed.
Lemma size_ge o : o ∈ all → 2 <= o_size o.
Proof. intros Ho. by apply (ok_size (h_obj_ok o Ho)). Qed.
Lemma in_block_iff a bd : in_block a bd = true ↔ start bd <= a < start bd + BLOCK_SIZE.
Proof. unfold in_block. rewrite andb_true_iff, Z.leb_le, Z.ltb_lt. done. Qed.
Lemma obj_in_block i os bd o : bls !! i = Some os → blks0 !! i = Some bd → o ∈ os → start bd <= o_addr o ∧ o_end o <= start bd + BLOCK_SIZE.
Proof.
  intros Hi Hbd Ho. destruct (h_place i bd os o Hbd Hi Ho) as (_ & (k & Hk & E) & He).
  destruct (h_bitmaps bd) as (_ & _ & Hf); [by eapply list_elem_of_lookup_2|]. unfold W in *. lia.
Qed.
#[global] Instance heap_static : static_ok obj Fld m0 in_marked.
Proof.
  split; [|by apply h_fields]. intros q i (o & Ho & <- & <-)%obj_some. destruct (h_obj o Ho) as (H1 & H2 & H3 & H4).
  destruct (block_of o Ho) as (j & os & bd & Hj & Hos & Hbd). destruct (h_place j bd os o Hbd Hj Hos) as (Hm & (k & Hk & E) & He).
  split_and!; [done| |done|].
  - rewrite E. apply aligned_W. by apply h_bitmaps; eapply list_elem_of_lookup_2.
  - apply existsb_exists. exists bd. rewrite <- list_elem_of_In. split; [by eapply list_elem_of_lookup_2|]. rewrite Hm, (proj2 (in_block_iff _ _)); [done|].
    pose proof (obj_in_block _ _ _ _ Hj Hbd Hos). pose proof (size_ge o Ho). unfold o_end, W in *. lia.
Qed.

(** ** Scanning a block *)

(** The marks of a block with objects [os]: those of the objects, and for the
    objects in [S] also their second word. *)
Definition bits_ok (os : list object) (S : Z → Prop) (bd : bdescr) : Prop :=
  ∀ k, 0 <= k < BLOCK_SIZE / 8 →
    (bit_at k (bitmap bd) = true ↔ ∃ o, o ∈ os ∧ (start bd + W k = o_addr o ∨ S (o_addr o) ∧ start bd + W k = o_addr o + W 1)).
(** The blocks during the collection; those below [fb] are full. *)
Record block_ok (S : Z → Prop) (i fb : nat) (bd0 bd : bdescr) (os : list object) : Prop := {
  b_start : start bd = start bd0;
  b_marked : bd_marked bd = bd_marked bd0;
  b_bitmap : bitmap_ok bd;
  b_bits : bits_ok os S bd;
  b_free : (fb <= i)%nat → free bd = free bd0
}.
Definition blocks_ok (S : Z → Prop) (fb : nat) (blks : list bdescr) : Prop :=
  length blks = length blks0 ∧
  ∀ i bd0 os, blks0 !! i = Some bd0 → bls !! i = Some os → ∃ bd, blks !! i = Some bd ∧ block_ok S i fb bd0 bd os.

(** The objects of a block, some of which end at or below [p], the others start
    at or above [p] *)
Record scan_at (i : nat) (bd : bdescr) (os1 os2 : list object) (p : Z) : Prop := {
  s_block : blks0 !! i = Some bd;
  s_objs : bls !! i = Some (os1 ++ os2);
  s_word : ∃ j, 0 <= j ∧ p = start bd + W j;
  s_before o : o ∈ os1 → o_end o <= p;
  s_after o : o ∈ os2 → p <= o_addr o
}.
Lemma scan_in_all i bd os1 os2 p o : scan_at i bd os1 os2 p → o ∈ os1 ++ os2 → o ∈ all.
Proof. intros H Ho. apply elem_of_all. exists i, (os1 ++ os2). split; [apply H|done]. Qed.
Lemma sorted_mid os1 o os2 o' :
  StronglySorted (λ o o', o_end o <= o_addr o') (os1 ++ o :: os2) → (o' ∈ os1 → o_end o' <= o_addr o) ∧ (o' ∈ os2 → o_end o <= o_addr o').
Proof.
  induction os1 as [|x os1 IH]; cbn; intros H; apply StronglySorted_inv in H as [H1 H2]; rewrite Forall_forall in H2.
  - split; [by intros ?%elem_of_nil|]. apply H2.
  - destruct (IH H1) as [IH1 IH2]. split; [|done]. intros [->|Ho]%elem_of_cons; [|by apply IH1]. apply H2, elem_of_app. right. by left.
Qed.
Lemma scan_sorted i bd os1 o os2 p o' : scan_at i bd os1 (o :: os2) p → (o' ∈ os1 → o_end o' <= o_addr o) ∧ (o' ∈ os2 → o_end o <= o_addr o').
Proof. intros H. apply sorted_mid, h_sorted. eapply list_elem_of_lookup_2, (s_objs _ _ _ _ _ H). Qed.
(** The next object *)
Lemma scan_next S i fb bd0 bd os1 o os2 p :
  scan_at i bd0 os1 (o :: os2) p → block_ok S i fb bd0 bd (os1 ++ o :: os2) → (fb <= i)%nat →
  next_marked p bd = o_addr o ∧ o_addr o < free bd.
Proof.
  intros Hs Hb Hfb. pose proof (scan_sorted _ _ _ _ _ _ o Hs) as _. destruct (s_word _ _ _ _ _ Hs) as (j & Hj & ->).
  assert (o ∈ os1 ++ o :: os2) as Hin by (apply elem_of_app; right; by left).
  pose proof (scan_in_all _ _ _ _ _ _ Hs Hin) as Hall. pose proof (size_ge o Hall) as Hsz.
  destruct (h_place i bd0 _ o (s_block _ _ _ _ _ Hs) (s_objs _ _ _ _ _ Hs) Hin) as (_ & (k & Hk & E) & He).
  pose proof (obj_in_block _ _ _ _ (s_objs _ _ _ _ _ Hs) (s_block _ _ _ _ _ Hs) Hin) as [_ Hend].
  pose proof (s_after _ _ _ _ _ Hs o ltac:(by left)) as Hle. unfold o_end in *. rewrite (b_free _ _ _ _ _ _ Hb Hfb). rewrite E in *.
  split; [|unfold W in *; lia]. rewrite <- (b_start _ _ _ _ _ _ Hb) in *. apply next_marked_found.
  - unfold W in *. lia.
  - rewrite (b_free _ _ _ _ _ _ Hb Hfb). unfold W in *; lia.
  - intros n Hn. destruct (bit_at n (bitmap bd)) eqn:Eb; [|done]. exfalso.
    apply (b_bits _ _ _ _ _ _ Hb) in Eb as (o' & Ho' & Hp); [|unfold BLOCK_SIZE, W in *; change (4096 / 8) with 512; lia].
    pose proof (size_ge o' (scan_in_all _ _ _ _ _ _ Hs Ho')) as Hsz'. apply elem_of_app in Ho' as [Ho'|Ho'].
    + apply (s_before _ _ _ _ _ Hs) in Ho'. unfold o_end, W in *. destruct Hp as [?|[_ ?]]; lia.
    + assert (start bd + W k <= o_addr o').
      { apply elem_of_cons in Ho' as [->|Ho']; [lia|]. apply (scan_sorted _ _ _ _ _ _ o' Hs) in Ho'. unfold o_end, W in *. lia. }
      unfold W in *. destruct Hp as [?|[_ ?]]; lia.
  - apply (b_bits _ _ _ _ _ _ Hb); [unfold BLOCK_SIZE, W in *; change (4096 / 8) with 512; lia|]. exists o. split; [done|]. by left.
Qed.
Lemma scan_none S i fb bd0 bd os1 p :
  scan_at i bd0 os1 [] p → block_ok S i fb bd0 bd (os1 ++ []) → (fb <= i)%nat → free bd <= next_marked p bd.
Proof.
  intros Hs Hb Hfb. destruct (s_word _ _ _ _ _ Hs) as (j & Hj & ->). rewrite <- (b_start _ _ _ _ _ _ Hb) in *. apply next_marked_none; [done|].
  intros n Hn Hlt. destruct (bit_at n (bitmap bd)) eqn:Eb; [|done]. exfalso.
  destruct (h_bitmaps bd0) as (_ & _ & Hfr); [eapply list_elem_of_lookup_2, (s_block _ _ _ _ _ Hs)|]. rewrite (b_free _ _ _ _ _ _ Hb Hfb) in Hlt. rewrite (b_start _ _ _ _ _ _ Hb) in Hlt.
  apply (b_bits _ _ _ _ _ _ Hb) in Eb as (o' & Ho' & Hp); [|unfold BLOCK_SIZE, W in *; change (4096 / 8) with 512; lia].
  pose proof (size_ge o' (scan_in_all _ _ _ _ _ _ Hs Ho')) as Hsz'. apply elem_of_app in Ho' as [Ho'|Ho'%elem_of_nil]; [|done].
  apply (s_before _ _ _ _ _ Hs) in Ho'. unfold o_end, W in *. rewrite (b_start _ _ _ _ _ _ Hb) in *. destruct Hp as [?|[_ ?]]; lia.
Qed.
(** The mark on the second word of the object *)
Lemma scan_second S i fb bd0 bd os1 o os2 p :
  scan_at i bd0 os1 (o :: os2) p → block_ok S i fb bd0 bd (os1 ++ o :: os2) → is_marked (o_addr o + W 1) bd = true ↔ S (o_addr o).
Proof.
  intros Hs Hb. assert (o ∈ os1 ++ o :: os2) as Hin by (apply elem_of_app; right; by left).
  pose proof (scan_in_all _ _ _ _ _ _ Hs Hin) as Hall. pose proof (size_ge o Hall) as Hsz.
  destruct (h_place i bd0 _ o (s_block _ _ _ _ _ Hs) (s_objs _ _ _ _ _ Hs) Hin) as (_ & (k & Hk & E) & _).
  pose proof (obj_in_block _ _ _ _ (s_objs _ _ _ _ _ Hs) (s_block _ _ _ _ _ Hs) Hin) as [_ Hend].
  rewrite <- (b_start _ _ _ _ _ _ Hb) in *. assert (o_addr o + W 1 = start bd + W (k + 1)) as E1 by (unfold W in *; lia).
  pose proof (b_bits _ _ _ _ _ _ Hb (k + 1)) as Hbit. rewrite <- E1 in Hbit. rewrite E1, is_marked_bit, Hbit by (unfold o_end, BLOCK_SIZE, W in *; change (4096 / 8) with 512; lia).
  split.
  - intros (o' & Ho' & Hp). pose proof (size_ge o' (scan_in_all _ _ _ _ _ _ Hs Ho')) as Hsz'. destruct Hp as [Hp|[HS Hp]].
    + exfalso. apply elem_of_app in Ho' as [Ho'|[->|Ho']%elem_of_cons]; [|unfold W in *; lia|].
      * apply (scan_sorted _ _ _ _ _ _ o' Hs) in Ho'. unfold o_end, W in *. lia.
      * apply (scan_sorted _ _ _ _ _ _ o' Hs) in Ho'. unfold o_end, W in *. lia.
    + by replace (o_addr o) with (o_addr o') by (unfold W in *; lia).
  - intros HS. exists o. split; [done|]. by right.
Qed.
Lemma scan_step i bd os1 o os2 p : scan_at i bd os1 (o :: os2) p → scan_at i bd (os1 ++ [o]) os2 (o_end o).
Proof.
  intros Hs. assert (o ∈ os1 ++ o :: os2) as Hin by (apply elem_of_app; right; by left).
  pose proof (size_ge o (scan_in_all _ _ _ _ _ _ Hs Hin)) as Hsz.
  destruct (h_place i bd _ o (s_block _ _ _ _ _ Hs) (s_objs _ _ _ _ _ Hs) Hin) as (_ & (k & Hk & E) & _). split.
  - apply Hs.
  - rewrite <- app_assoc. apply Hs.
  - exists (k + o_size o). unfold o_end, W in *. lia.
  - intros o' [Ho'|E'%list_elem_of_singleton]%elem_of_app; [|by subst]. apply (scan_sorted _ _ _ _ _ _ o' Hs) in Ho'. unfold o_end, W in *. lia.
  - intros o' Ho'. by apply (scan_sorted _ _ _ _ _ _ o' Hs) in Ho'.
Qed.
Lemma scan_start i bd os : blks0 !! i = Some bd → bls !! i = Some os → scan_at i bd [] os (start bd).
Proof.
  intros Hb Ho. split; [done|done|exists 0; unfold W; lia|by intros ? ?%elem_of_nil|]. intros o H. by apply (obj_in_block i os bd o).
Qed.
End heap.
#[global] Instance Fld_dec bls roots f : Decision (Fld bls roots f).
Proof. unfold Fld. apply _. Defined.
Arguments h_blocks {_ _ _ _ _ _ _}.
Arguments h_bitmaps {_ _ _ _ _ _ _}.
Arguments h_disjoint {_ _ _ _ _ _ _}.
Arguments h_mapped {_ _ _ _ _ _ _}.
Arguments h_marks {_ _ _ _ _ _ _}.
Arguments h_place {_ _ _ _ _ _ _}.
Arguments h_sorted {_ _ _ _ _ _ _}.
Arguments h_obj {_ _ _ _ _ _ _}.
Arguments h_obj_ok {_ _ _ _ _ _ _}.
Arguments h_nodup {_ _ _ _ _ _ _}.
Arguments h_addrs {_ _ _ _ _ _ _}.
Arguments h_fields {_ _ _ _ _ _ _}.
Arguments h_roots {_ _ _ _ _ _ _}.
Arguments addr_inj {_ _ _ _ _ _ _}.
Arguments obj_of {_ _ _ _ _ _ _}.
Arguments block_of {_ _ _ _ _ _ _}.
Arguments size_ge {_ _ _ _ _ _ _}.
Arguments obj_in_block {_ _ _ _ _ _ _}.
Arguments scan_sorted {_ _ _ _ _ _ _}.
Arguments scan_next {_ _ _ _ _ _ _}.
Arguments scan_none {_ _ _ _ _ _ _}.
Arguments scan_second {_ _ _ _ _ _ _}.
Arguments scan_step {_ _ _ _ _ _ _}.
Arguments scan_start {_ _ _ _ _ _ _}.
