(* ===== verification/CompactPlace.v ===== *)
(** * Where the objects go

    The new place of every live object: behind the one before it, or at the
    start of the next block when it does not fit.  An object never moves past
    its old place. *)
From Stdlib Require Import Sorted.
From stdpp Require Import list gmap.
From S2P Require Import Prelude DList ClosureFlags Compact CompactChain CompactThread CompactObj CompactMarks CompactHeap.
Local Open Scope Z_scope.

Section place.
Context (blks0 : list bdescr) (bls : list (list object)).
Local Notation all := (all bls).

Definition start_of (i : nat) : Z := match blks0 !! i with Some bd => start bd | None => 0 end.
(** [c]: the block, and the address in it, where the next object goes.
    [place c o]: whether [o] needs a new block, and its place. *)
Definition place (c : nat * Z) (o : object) : bool * (nat * Z) :=
  if start_of (fst c) + BLOCK_SIZE <? snd c + W (o_size o) then (true, (S (fst c), start_of (S (fst c)))) else (false, c).
Definition past (c : nat * Z) (o : object) : nat * Z :=
  let c' := snd (place c o) in (fst c', snd c' + W (o_size o)).
Definition advance (c : nat * Z) (os : list object) : nat * Z := foldl past c os.
Definition c0 : nat * Z := (O, start_of 0).
Fixpoint find_place (c : nat * Z) (os : list object) (q : Z) : bool * (nat * Z) :=
  match os with
  | [] => (false, c)
  | o :: os => if o_addr o =? q then place c o else find_place (past c o) os q
  end.
Definition spills (q : Z) : bool := fst (find_place c0 all q).
Definition new_block (q : Z) : nat := fst (snd (find_place c0 all q)).
Definition new (q : Z) : Z := snd (snd (find_place c0 all q)).

Lemma find_place_split c d o r : NoDup (o_addr <$> d ++ o :: r) → find_place c (d ++ o :: r) (o_addr o) = place (advance c d) o.
Proof.
  revert c. induction d as [|x d IH]; intros c; cbn [app find_place fmap list_fmap advance foldl].
  - by rewrite Z.eqb_refl.
  - intros [Hx Hnd]%NoDup_cons. destruct (Z.eqb_spec (o_addr x) (o_addr o)) as [E|]; [|by apply IH].
    exfalso. apply Hx. rewrite E. apply list_elem_of_fmap_2, elem_of_app. right. by left.
Qed.
Lemma advance_app c d r : advance c (d ++ r) = advance (advance c d) r.
Proof. apply foldl_app. Qed.

(** The cursor is at or below the address [p] of block [i]. *)
Record cursor_ok (i : nat) (p : Z) (c : nat * Z) : Prop := {
  c_le : (fst c < i)%nat ∨ fst c = i ∧ snd c <= p;
  c_in : ∃ bd k, blks0 !! fst c = Some bd ∧ 0 <= k <= BLOCK_SIZE / 8 ∧ snd c = start bd + W k
}.
(** The place of an object in block [i] at [p] *)
Record place_at (i : nat) (o : object) (c : nat * Z) : Prop := {
  pl_le : (fst c < i)%nat ∨ fst c = i ∧ snd c <= o_addr o;
  pl_in : ∃ bd k, blks0 !! fst c = Some bd ∧ 0 <= k ∧ k + o_size o <= BLOCK_SIZE / 8 ∧ snd c = start bd + W k
}.
Lemma start_of_lookup i bd : blks0 !! i = Some bd → start_of i = start bd.
Proof. unfold start_of. by intros ->. Qed.
Lemma cursor_past i o c : place_at i o c → cursor_ok i (o_end o) (fst c, snd c + W (o_size o)) ∨ o_size o < 0.
Proof.
  intros [Hle (bd & k & Hbd & Hk & He & E)]. destruct (decide (o_size o < 0)); [by right|left]. split; cbn.
  - destruct Hle as [|[-> ?]]; [by left|right]. unfold o_end. split; [done|lia].
  - exists bd, (k + o_size o). split_and!; [done|lia|lia|]. unfold W in *; lia.
Qed.
Lemma cursor_next i p p' c : cursor_ok i p c → cursor_ok (S i) p' c.
Proof. intros [Hle Hin]. split; [|done]. left. destruct Hle as [|[-> _]]; lia. Qed.
Lemma cursor_start bd : blks0 !! O = Some bd → cursor_ok 0 (start bd) c0.
Proof.
  intros H. unfold c0. rewrite (start_of_lookup 0 bd H). split; cbn; [right; split; [done|lia]|].
  exists bd, 0. split_and!; [done|done|by vm_compute|unfold W; lia].
Qed.
End place.

Section placing.
Context (itbl : Z → option StgInfoTable) (stg_arg_bitmaps : Z → Z).
Context (m0 : gmap Z Z) (blks0 : list bdescr) (bls : list (list object)) (roots : list Z).
Context `{Hheap : !heap_ok itbl stg_arg_bitmaps m0 blks0 bls roots}.
Local Notation all := (all bls).
Local Notation scan_at := (scan_at blks0 bls).
Local Notation place := (place blks0).
Local Notation past := (past blks0).
Local Notation new := (new blks0 bls).
Local Notation new_block := (new_block blks0 bls).
Local Notation spills := (spills blks0 bls).

Lemma place_ok i bd os1 o os2 p c : scan_at i bd os1 (o :: os2) p → cursor_ok blks0 i p c → place_at blks0 i o (snd (place c o)).
Proof.
  intros Hs [Hle (bdf & k & Hbdf & Hk & Ek)]. assert (o ∈ os1 ++ o :: os2) as Hin by (apply elem_of_app; right; by left).
  pose proof (s_block _ _ _ _ _ _ _ Hs) as Hbd. pose proof (s_objs _ _ _ _ _ _ _ Hs) as Hos.
  destruct (obj_in_block _ _ _ _ Hos Hbd Hin) as [Hst Hend].
  pose proof (s_after _ _ _ _ _ _ _ Hs o ltac:(by left)) as Hp. unfold CompactPlace.place. rewrite (start_of_lookup _ _ _ Hbdf).
  unfold o_end, BLOCK_SIZE in *. change (4096 / 8) with 512 in *. destruct (Z.ltb_spec (start bdf + 4096) (snd c + W (o_size o))) as [Hlt|Hge]; cbn.
  - assert (fst c < i)%nat as Hfb.
    { destruct Hle as [|[E Hle]]; [done|]. rewrite E, Hbd in Hbdf. injection Hbdf as <-. unfold W in *; lia. }
    assert (∃ bd', blks0 !! S (fst c) = Some bd') as [bd' Hbd'] by (apply lookup_lt_is_Some; apply lookup_lt_Some in Hbd; lia).
    rewrite (start_of_lookup _ _ _ Hbd'). split; cbn.
    + destruct (decide (S (fst c) = i)) as [E|]; [|left; lia]. right. split; [done|]. rewrite E, Hbd in Hbd'. by injection Hbd' as <-.
    + exists bd', 0. split_and!; [done|lia|unfold BLOCK_SIZE, W in *; change (4096 / 8) with 512; lia|unfold W; lia].
  - split; [destruct Hle as [|[E Hle]]; [by left|right; split; [done|lia]]|]. exists bdf, k. split_and!; [done|lia|unfold BLOCK_SIZE, W in *; change (4096 / 8) with 512; lia|done].
Qed.
Lemma cursor_step i bd os1 o os2 p c : scan_at i bd os1 (o :: os2) p → cursor_ok blks0 i p c → cursor_ok blks0 i (o_end o) (past c o).
Proof.
  intros Hs Hc. pose proof (place_ok _ _ _ _ _ _ _ Hs Hc) as Hp. destruct (cursor_past _ _ _ _ Hp) as [|Hneg]; [done|].
  assert (o ∈ all) as Ho. { eapply scan_in_all; [done|]. apply elem_of_app; right; by left. }
  pose proof (size_ge o Ho). lia.
Qed.

(** ** New places do not overlap *)

(** The object [o] is at its new place, before the cursor. *)
Definition before (c : nat * Z) (o : object) : Prop :=
  (∃ bd, blks0 !! new_block (o_addr o) = Some bd ∧ start bd <= new (o_addr o) ∧ new (o_addr o) + W (o_size o) <= start bd + BLOCK_SIZE) ∧
  (new_block (o_addr o) = fst c ∧ new (o_addr o) + W (o_size o) <= snd c ∨ (new_block (o_addr o) < fst c)%nat).
Lemma before_past c o o' : 0 <= o_size o → before c o' → before (past c o) o'.
Proof.
  intros Hsz [Hin H]. split; [done|]. unfold CompactPlace.past, CompactPlace.place.
  destruct (_ <? _); cbn; destruct H as [[E H]|E]; [right; lia|right; lia| |by right]. left. split; [done|]. unfold W in *; lia.
Qed.
(** The place of the next object *)
Lemma place_next d o r : all = d ++ o :: r → place (advance blks0 (c0 blks0) d) o = (spills (o_addr o), (new_block (o_addr o), new (o_addr o))).
Proof.
  intros E. unfold CompactPlace.spills, CompactPlace.new_block, CompactPlace.new. rewrite E, find_place_split; [by destruct (place _ _) as [? [? ?]]|].
  rewrite <- E. exact h_addrs.
Qed.
Lemma past_next d o r : all = d ++ o :: r → past (advance blks0 (c0 blks0) d) o = (new_block (o_addr o), new (o_addr o) + W (o_size o)).
Proof. intros E. unfold CompactPlace.past. by rewrite (place_next d o r E). Qed.
Lemma before_self i d o r : all = d ++ o :: r → place_at blks0 i o (new_block (o_addr o), new (o_addr o)) → before (past (advance blks0 (c0 blks0) d) o) o.
Proof.
  intros E [_ (bd & k & Hbd & Hk & He & Ek)]. cbn in *. unfold before. rewrite (past_next d o r E). cbn [fst snd]. split; [|by left].
  exists bd. split; [done|]. unfold BLOCK_SIZE, W in *. change (4096 / 8) with 512 in *. lia.
Qed.
End placing.
Arguments place_ok {_ _ _ _ _ _ _}.
Arguments cursor_step {_ _ _ _ _ _ _}.
Arguments place_next {_ _ _ _ _ _ _}.
Arguments past_next {_ _ _ _ _ _ _}.
Arguments before_self {_ _ _ _ _ _ _}.
