(* ===== verification/CompactFwd.v ===== *)
(** * The forward pass

    The invariant of [update_fwd_compact]: the fields of the roots and of the
    objects that were visited are threaded, or hold the new address already;
    when an object has been visited, only fields of later objects are threaded
    onto it. *)
From Stdlib Require Import Sorted.
From stdpp Require Import list gmap.
From S2P Require Import Prelude DList ClosureFlags Compact CompactChain CompactThread CompactObj CompactMarks CompactHeap CompactPlace.
Local Open Scope Z_scope.

Section fwd.
Context (itbl : Z → option StgInfoTable) (stg_arg_bitmaps : Z → Z).
Context (m0 : gmap Z Z) (blks0 : list bdescr) (bls : list (list object)) (roots : list Z).
Context `{Hheap : !heap_ok itbl stg_arg_bitmaps m0 blks0 bls roots}.
Local Notation all := (all bls).
Local Notation obj := (obj bls).
Local Notation Fld := (Fld bls roots).
Local Notation in_marked := (in_marked blks0).
Local Notation target := (target obj m0).
Local Notation chain_on := (chain_on obj m0).
Local Notation tinv := (tinv obj Fld m0 in_marked).
Local Notation has_tag := (has_tag Fld m0).
Local Notation new := (new blks0 bls).
Local Notation new_block := (new_block blks0 bls).
Local Notation spills := (spills blks0 bls).
Local Notation place := (place blks0).
Local Notation advance := (advance blks0 (c0 blks0)).
Local Notation blocks_ok := (blocks_ok blks0 bls).
Local Notation scan_at := (scan_at blks0 bls).

(** ** The marks of objects that go to the next block *)
Definition spilled (d : list object) (q : Z) : Prop := q ∈ o_addr <$> d ∧ spills q = true.
Lemma blocks_ok_ext S S' fb blks : (∀ q, S q ↔ S' q) → blocks_ok S fb blks → blocks_ok S' fb blks.
Proof.
  intros HS [Hl H]. split; [done|]. intros i bd0 os Hbd Hos. destruct (H i bd0 os Hbd Hos) as (bd & Hi & []). exists bd. split; [done|]. split; try done.
  intros k Hk. rewrite (b_bits k Hk). by setoid_rewrite HS.
Qed.
Lemma one_block i j os os' o : bls !! i = Some os → bls !! j = Some os' → o ∈ os → o ∈ os' → i = j.
Proof.
  intros Hi Hj Ho Ho'. destruct (decide (i = j)) as [|Hne]; [done|exfalso].
  assert (∃ bd, blks0 !! i = Some bd) as [bd Hbd] by (apply lookup_lt_is_Some; rewrite <- h_blocks; by eapply lookup_lt_Some).
  assert (∃ bd, blks0 !! j = Some bd) as [bd' Hbd'] by (apply lookup_lt_is_Some; rewrite <- h_blocks; by eapply lookup_lt_Some).
  pose proof (obj_in_block _ _ _ _ Hi Hbd Ho). pose proof (obj_in_block _ _ _ _ Hj Hbd' Ho'). pose proof (h_disjoint _ _ _ _ Hbd Hbd' Hne).
  assert (o ∈ all) as Hall by (apply elem_of_all; by exists i, os). pose proof (size_ge o Hall). unfold o_end, W in *. lia.
Qed.
Lemma blocks_ok_mark S fb blks i os o bd k bits :
  blocks_ok S fb blks → bls !! i = Some os → o ∈ os → blks !! i = Some bd → 0 <= k → start bd + W k = o_addr o + W 1 →
  length bits = length (bitmap bd) → (∀ j, 0 <= j → bit_at j bits = bit_at j (bitmap bd) || (j =? k)) →
  blocks_ok (λ q, S q ∨ q = o_addr o) fb (<[i := set_bitmap bits bd]> blks).
Proof.
  intros [Hl H] Hi Ho Hbd Hk Ek Hlen Hbits. split; [by rewrite length_insert|]. intros j bd0 os' Hbd0 Hos'. destruct (H j bd0 os' Hbd0 Hos') as (bd' & Hbd' & []).
  destruct (decide (i = j)) as [<-|Hne].
  - rewrite Hbd in Hbd'. injection Hbd' as <-. rewrite Hi in Hos'. injection Hos' as <-. exists (set_bitmap bits bd).
    rewrite list_lookup_insert_eq by (by eapply lookup_lt_Some). split; [done|]. split; [done|done|by unfold bitmap_ok; cbn; rewrite Hlen| |done].
    intros n Hn. cbn [start bitmap set_bitmap]. rewrite Hbits, orb_true_iff, (b_bits n Hn), Z.eqb_eq by lia. split.
    + intros [(o' & Ho' & H')| ->]; [exists o'; naive_solver|]. exists o. split; [done|]. right. split; [by right|done].
    + intros (o' & Ho' & [E|[[Hs|E'] E]]); [left; exists o'; naive_solver|left; exists o'; naive_solver|]. right. rewrite E' in E. unfold W in *. lia.
  - exists bd'. rewrite list_lookup_insert_ne by done. split; [done|]. split; try done. intros n Hn. rewrite (b_bits n Hn). split.
    + intros (o' & Ho' & H'). exists o'. naive_solver.
    + intros (o' & Ho' & H'). exists o'. split; [done|]. destruct H' as [E|[[Hs|E'] E]]; [by left|by right|]. exfalso. apply Hne.
      apply (one_block i j os os' o); [done|done|done|]. rewrite <- (addr_inj o' o); [done| | |done]; apply elem_of_all; eauto.
Qed.
Lemma spilled_snoc d o q : spilled (d ++ [o]) q ↔ spilled d q ∨ (q = o_addr o ∧ spills q = true).
Proof. unfold spilled. rewrite fmap_app, elem_of_app. cbn. rewrite list_elem_of_singleton. naive_solver. Qed.

(** ** The invariant *)
Definition seen (d : list object) : list Z := roots ++ (d ≫= o_fields).
(** [w] is what the field [f] holds in the end: the new address of its object,
    with the tag of some pointer to the object, or, in a field of the object
    itself, possibly no tag. *)
Definition moved (f w : Z) : Prop :=
  ∃ q t, target f = Some q ∧ w = new q + t ∧ ((t = 0 ∧ ∃ o, o ∈ all ∧ o_addr o = q ∧ f ∈ o_fields o) ∨ has_tag q t).
Record finv (d : list object) (flat : gmap Z Z) (ch : Z → list Z) (s : cstate) : Prop := {
  fi_tinv : tinv flat ch s;
  fi_blocks : blocks_ok (spilled d) 0 (old_blocks s);
  fi_later f : f ∉ seen d → flat !! f = m0 !! f ∧ ∀ q, f ∉ ch q;
  fi_now f : f ∈ seen d →
    match target f with
    | Some q => (f ∈ ch q ∧ flat !! f = m0 !! f) ∨ ((∃ w, flat !! f = Some w ∧ moved f w) ∧ ∀ q', f ∉ ch q')
    | None => flat !! f = m0 !! f ∧ ∀ q', f ∉ ch q'
    end;
  fi_target f q : f ∈ ch q → target f = Some q;
  fi_order d1 o d2 : d = d1 ++ o :: d2 → ∀ f, f ∈ ch (o_addr o) → f ∈ d2 ≫= o_fields
}.
Lemma fields_apart d o r f : all = d ++ o :: r → f ∈ o_fields o → f ∉ seen d.
Proof.
  intros E Hf Hs. pose proof h_nodup as Hnd. unfold fields in Hnd. rewrite E, bind_app, app_assoc in Hnd. cbn in Hnd.
  apply NoDup_app in Hnd as (_ & Hd & _). apply (Hd f Hs), elem_of_app. by left.
Qed.
Lemma elem_of_seen_snoc d o f : f ∈ seen (d ++ [o]) ↔ f ∈ seen d ∨ f ∈ o_fields o.
Proof. unfold seen. rewrite bind_app, app_assoc. cbn. rewrite app_nil_r. apply elem_of_app. Qed.
Lemma elem_of_seen d f : f ∈ seen d → (∀ o, o ∈ d → o ∈ all) → Fld f.
Proof.
  unfold seen, CompactHeap.Fld, fields. rewrite !elem_of_app. intros [Hf|Hf] Hd; [by left|right].
  apply list_elem_of_bind in Hf as (o & Ho & Hf). apply list_elem_of_bind. exists o. split; [done|by apply Hd].
Qed.

(** Threading the fields of the next object *)
Lemma thread_next d o r flat ch s :
  all = d ++ o :: r → finv d flat ch s →
  wp (thread_obj itbl stg_arg_bitmaps (o_info o) (o_addr o))
    (λ p s', p = o_end o ∧ tinv flat (chain_on (o_fields o) ch) s' ∧ old_blocks s' = old_blocks s) s.
Proof.
  intros E []. assert (o ∈ all) as Ho by (rewrite E; apply elem_of_app; right; by left).
  pose proof (h_obj_ok o Ho) as Hok. eapply (threads_obj _ _ _ _ Hok); [done| |apply Hok|].
  - intros f q Hf. by apply fi_later0, (fields_apart d o r).
  - intros f Hf. split; [by apply Hok|]. by apply fi_later0, (fields_apart d o r).
Qed.

(** Unthreading it: [t] is the tag that was found before its own fields were
    threaded. *)
Lemma unthread_next d o r flat ch s s1 t :
  all = d ++ o :: r → finv d flat ch s → tinv flat (chain_on (o_fields o) ch) s1 → blocks_ok (spilled (d ++ [o])) 0 (old_blocks s1) →
  (ch (o_addr o) = [] ∧ t = 0 ∨ ch (o_addr o) ≠ [] ∧ has_tag (o_addr o) t) →
  wp (unthread (o_addr o) (new (o_addr o) + t)) (λ _ s', ∃ flat' ch', finv (d ++ [o]) flat' ch' s') s1.
Proof.
  intros E HI HI1 Hb Ht. assert (o ∈ all) as Ho by (rewrite E; apply elem_of_app; right; by left).
  set (ch1 := chain_on (o_fields o) ch) in *. set (q := o_addr o) in *. set (w := new q + t).
  pose proof (obj_of o Ho) as Hq. pose proof (ti_info _ _ _ _ _ HI1 Hq) as Hfl. fold q in Hq, Hfl.
  destruct (h_obj o Ho) as (_ & Hia & _). destruct (ti_threaded HI1) as (tg & HR & Htg).
  eapply wp_mono; [eapply (unthread_ok tg ch1 flat s1 q _ w); [done|done|done|]|].
  { intros q'. eapply (ti_header flat ch1 s1); [exact HI1|by eexists]. }
  intros [] s' [HR' Hb']. exists (set_all (ch1 q) w flat), (updc ch1 q []).
  assert (∀ f q', f ∈ ch1 q' → target f = Some q') as Htar.
  { intros f q' [H|[_ H]]%elem_of_chain_on; [by eapply fi_target|done]. }
  assert (∀ f q', f ∈ updc ch1 q [] q' ↔ q' ≠ q ∧ f ∈ ch1 q') as Hupd.
  { intros f q'. unfold updc. destruct (decide (q' = q)); [|naive_solver]. split; [by intros ?%elem_of_nil|naive_solver]. }
  assert (∀ f, f ∉ ch1 q → set_all (ch1 q) w flat !! f = flat !! f) as Hkeep by (intros f Hf; by rewrite set_all_lookup, decide_False).
  assert (∀ f, f ∈ ch1 q → (∃ w', set_all (ch1 q) w flat !! f = Some w' ∧ moved f w') ∧ ∀ q', f ∉ updc ch1 q [] q') as Hset.
  { intros f Hf. rewrite set_all_lookup, decide_True by done. split.
    - exists w. split; [done|]. exists q, t. split; [by apply Htar|]. split; [done|].
      apply elem_of_chain_on in Hf as [Hf|[Hf _]].
      + right. destruct Ht as [[E0 _]|[_ Ht]]; [rewrite E0 in Hf; by apply elem_of_nil in Hf|done].
      + destruct Ht as [[_ ->]|[_ Ht]]; [left; split; [done|]; by exists o|by right].
    - intros q' [Hne Hf']%Hupd. apply Htar in Hf, Hf'. congruence. }
  split.
  - split.
    + exists tg. split; [done|]. intros q' Hq'. apply Htg. intros E'. apply Hq'. unfold updc. by destruct (decide (q' = q)).
    + intros q' Hq'. apply (ti_obj HI1). intros E'. apply Hq'. unfold updc. by destruct (decide (q' = q)).
    + intros q' f [_ Hf]%Hupd. by eapply (ti_fld HI1).
    + intros a Ha. rewrite Hkeep; [by apply (ti_same HI1)|]. intros Hf. by apply Ha, (ti_fld HI1 q).
    + intros q'. rewrite <- (ti_marked HI1). unfold marked_block. by rewrite Hb'.
  - by rewrite Hb'.
  - intros f Hf. rewrite elem_of_seen_snoc in Hf. destruct (fi_later _ _ _ _ HI f) as [H1 H2]; [naive_solver|].
    assert (∀ q', f ∉ ch1 q') as Hn by (intros q' [?|[? _]]%elem_of_chain_on; [by apply (H2 q')|naive_solver]).
    rewrite Hkeep by done. split; [done|]. intros q' [_ ?]%Hupd. by apply (Hn q').
  - intros f Hf. apply elem_of_seen_snoc in Hf. destruct (decide (f ∈ ch1 q)) as [Hc|Hc].
    { rewrite (Htar f q Hc). right. by apply Hset. }
    rewrite Hkeep by done. destruct (target f) as [q'|] eqn:Et.
    + assert (f ∈ ch1 q' → f ∈ updc ch1 q [] q') as Hin by (intros Hf'; apply Hupd; split; [|done]; congruence).
      destruct Hf as [Hf|Hf].
      * pose proof (fi_now _ _ _ _ HI f Hf) as Hn. rewrite Et in Hn. destruct Hn as [[H1 H2]|[H1 H2]].
        -- left. split; [|done]. apply Hin, elem_of_chain_on. by left.
        -- right. split; [done|]. intros q'' [_ [?|[Hf' _]]%elem_of_chain_on]%Hupd; [by apply (H2 q'')|]. by apply (fields_apart d o r f).
      * destruct (fi_later _ _ _ _ HI f) as [H1 H2]; [by apply (fields_apart d o r)|]. left. split; [|done]. apply Hin, elem_of_chain_on. by right.
    + assert (∀ q', f ∉ updc ch1 q [] q') as Hn by (intros q' [_ Hf'%Htar]%Hupd; congruence). split; [|done].
      destruct Hf as [Hf|Hf]; [pose proof (fi_now _ _ _ _ HI f Hf) as H; rewrite Et in H; apply H|].
      apply (fi_later _ _ _ _ HI). by apply (fields_apart d o r).
  - intros f q' [_ Hf]%Hupd. by apply Htar.
  - intros d1 o' d2 Ed f [Hne Hf]%Hupd. destruct d2 as [|x d2 _] using rev_ind.
    + apply app_inj_tail in Ed as [_ <-]. done.
    + rewrite app_comm_cons, app_assoc in Ed. apply app_inj_tail in Ed as [Ed <-]. rewrite bind_app, elem_of_app. cbn. rewrite app_nil_r.
      apply elem_of_chain_on in Hf as [Hf|[Hf _]]; [left|by right]. by eapply (fi_order _ _ _ _ HI).
Qed.

(** ** One object *)
Lemma tinv_blocks flat ch s s' : tinv flat ch s → words s' = words s → (∀ q, marked_block q s' = marked_block q s) → tinv flat ch s'.
Proof. intros [] E Em. split; try done; [unfold chains; by rewrite E|]. intros q. by rewrite Em. Qed.
Lemma block_exists S fb blks i os : blocks_ok S fb blks → bls !! i = Some os → ∃ bd0 bd, blks0 !! i = Some bd0 ∧ blks !! i = Some bd ∧ block_ok S i fb bd0 bd os.
Proof.
  intros [Hl H] Hi. assert (∃ bd, blks0 !! i = Some bd) as [bd0 Hbd] by (apply lookup_lt_is_Some; rewrite <- h_blocks; by eapply lookup_lt_Some).
  destruct (H i bd0 os Hbd Hi) as (bd & H1 & H2). by exists bd0, bd.
Qed.
Lemma block_start S fb blks i bd0 : blocks_ok S fb blks → blks0 !! i = Some bd0 → ∃ bd, blks !! i = Some bd ∧ start bd = start_of blks0 i.
Proof.
  intros Hb Hi. assert (∃ os, bls !! i = Some os) as [os Hos] by (apply lookup_lt_is_Some; rewrite h_blocks; by eapply lookup_lt_Some).
  destruct (proj2 Hb i bd0 os Hi Hos) as (bd & H1 & H2). exists bd. split; [done|]. rewrite (b_start _ _ _ _ _ _ H2). by rewrite (start_of_lookup _ _ _ Hi).
Qed.
(** The place of the object; the mark on its second word *)
Lemma choose_place i bd0 os1 os2 p d o r s fbd :
  all = d ++ o :: r → scan_at i bd0 os1 (o :: os2) p → cursor_ok blks0 i p (advance d) → blocks_ok (spilled d) 0 (old_blocks s) →
  start fbd = start_of blks0 (fst (advance d)) →
  let '(fb, to) := advance d in
  wp (if start fbd + BLOCK_SIZE <? to + W (o_size o) then
        mark (o_addr o + W 1) i;; free_bd ← block (S fb); mret (S fb, start free_bd)
      else bd ← block i; ASSERT (negb (is_marked (o_addr o + W 1) bd));; mret (fb, to))
    (λ c s', c = (new_block (o_addr o), new (o_addr o)) ∧ words s' = words s ∧ blocks_ok (spilled (d ++ [o])) 0 (old_blocks s') ∧
       ∀ q, marked_block q s' = marked_block q s) s.
Proof.
  intros E Hs Hc Hb Hst. pose proof (place_next d o r E) as Hpl. pose proof (place_ok _ _ _ _ _ _ _ Hs Hc) as Hp.
  assert (o ∈ os1 ++ o :: os2) as Hin by (apply elem_of_app; right; by left). pose proof (s_objs _ _ _ _ _ _ _ Hs) as Hos.
  assert (o ∈ all) as Ho by (apply elem_of_all; eauto). pose proof (size_ge o Ho) as Hsz. assert (o ∉ d) as Hnd.
  { intros Hd. pose proof h_addrs as Hnd. rewrite E, fmap_app in Hnd. apply NoDup_app in Hnd as (_ & Hnd & _).
    apply (Hnd (o_addr o)); [by apply list_elem_of_fmap_2|]. by left. }
  destruct (block_exists _ _ _ _ _ Hb Hos) as (bd0' & bd & Hbd0 & Hbd & Hbk). rewrite (s_block _ _ _ _ _ _ _ Hs) in Hbd0. injection Hbd0 as <-.
  pose proof (scan_second _ _ _ _ _ _ _ _ _ Hs Hbk) as Hsec. assert (¬ spilled d (o_addr o)) as Hns.
  { intros [(o' & E' & Ho')%list_elem_of_fmap _]. apply Hnd. rewrite (addr_inj o o'); [done|done| |done]. rewrite E. apply elem_of_app. by left. }
  destruct (advance d) as [fb to] eqn:Ea. cbn [fst snd] in *. unfold CompactPlace.place in Hpl. cbn [fst snd] in Hpl. rewrite Hst.
  destruct (Z.ltb_spec (start_of blks0 fb + BLOCK_SIZE) (to + W (o_size o))).
  - injection Hpl as E1 E2 E3.
    destruct (h_place i bd0 _ o (s_block _ _ _ _ _ _ _ Hs) Hos Hin) as (_ & (k & Hk & Ek) & _).
    pose proof (obj_in_block _ _ _ _ Hos (s_block _ _ _ _ _ _ _ Hs) Hin) as [_ Hend].
    rewrite <- (b_start _ _ _ _ _ _ Hbk) in *. assert (o_addr o + W 1 = start bd + W (k + 1)) as E4 by (unfold W in *; lia). rewrite E4.
    assert (0 <= k + 1 < BLOCK_SIZE / 8) as Hk1 by (unfold o_end, BLOCK_SIZE, W in *; change (4096 / 8) with 512; lia).
    wp_step. eapply (mark_bit_ok i bd (k + 1)); [done|apply Hbk|done|]. intros bits Hlen Hbits.
    destruct Hp as [_ (bdf & kf & Hbdf & _ & _ & _)]. unfold CompactPlace.place in Hbdf. cbn [fst snd] in Hbdf.
    rewrite (proj2 (Z.ltb_lt _ _)) in Hbdf by done. cbn in Hbdf.
    pose proof (blocks_ok_mark _ _ _ _ _ _ _ _ _ Hb Hos Hin Hbd (proj1 Hk1) (eq_sym E4) Hlen Hbits) as Hb'.
    destruct (block_start _ _ _ _ _ Hb' Hbdf) as (bdn & Hbdn & Hstn). wp_step. eapply wp_block; [exact Hbdn|]. cbv beta. apply wp_ret.
    split_and!; [by rewrite Hstn, E3, E2|done| |].
    + eapply blocks_ok_ext; [|exact Hb']. intros q. rewrite spilled_snoc. split; [intros [?|E5]; [by left|by right; subst]|naive_solver].
    + intros q. by eapply marked_block_insert.
  - injection Hpl as E1 E2 E3. wp_step. eapply wp_block; [done|]. cbv beta. wp_step. apply wp_assert.
    { apply negb_true_iff. destruct (is_marked _ bd); [|done]. exfalso. by apply Hns, Hsec. }
    apply wp_ret. split_and!; [by rewrite E2, E3|done| |done]. eapply blocks_ok_ext; [|exact Hb]. intros q. rewrite spilled_snoc. naive_solver congruence.
Qed.

(** ** The loops *)
Definition fwd_done (d : list object) (s : cstate) : Prop := ∃ flat ch, finv d flat ch s.
Lemma obj_aligned o : o ∈ all → aligned (o_addr o).
Proof. intros Ho. by apply (so_obj obj Fld m0 in_marked _ _ (obj_of o Ho)). Qed.
Lemma fwd_object_ok i bd0 os1 os2 p d o r s Q :
  all = d ++ o :: r → scan_at i bd0 os1 (o :: os2) p → cursor_ok blks0 i p (advance d) → fwd_done d s →
  (∀ s', fwd_done (d ++ [o]) s' → Q (new_block (o_addr o), new (o_addr o) + W (o_size o), o_end o) s') →
  wp (fwd_object itbl stg_arg_bitmaps i (o_addr o) (fst (advance d)) (snd (advance d))) Q s.
Proof.
  intros E Hs Hc (flat & ch & HI) HQ. assert (o ∈ all) as Ho by (rewrite E; apply elem_of_app; right; by left).
  unfold fwd_object. pose proof (fi_tinv _ _ _ _ HI) as HT. destruct (h_obj o Ho) as (_ & Hia & Hlk & Hitbl).
  pose proof (untag_aligned _ (obj_aligned o Ho)) as Hun. pose proof (obj_of o Ho) as Hobj.
  wp_step. eapply (chains_get_info _ _ itbl (o_addr o) (o_ip o)); [exact (ti_threaded HT)|rewrite Hun; by eapply ti_info|done|rewrite Hun; intros q'; eapply (ti_header flat ch s); [done|by eexists]|done|].
  rewrite Hun. intros t Ht Hut Htag. cbv beta. wp_step. unfold INFO_PTR_TO_STRUCT. rewrite Hut, Hitbl. apply wp_ret. cbv beta.
  wp_step. eapply wp_mono; [by apply (thread_next d o r flat ch)|]. intros p1 s1 (-> & HT1 & Hb1). cbv beta zeta.
  assert ((o_end o - o_addr o) / 8 = o_size o) as ->.
  { unfold o_end, W. replace (o_addr o + 8 * o_size o - o_addr o) with (o_size o * 8) by lia. by rewrite Z.div_mul. }
  pose proof (fi_blocks _ _ _ _ HI) as Hb. rewrite <- Hb1 in Hb.
  destruct (c_in _ _ _ _ Hc) as (bdf & k & Hbdf & _). destruct (block_start _ _ _ _ _ Hb Hbdf) as (fbd & Hfbd & Hst).
  wp_step. eapply wp_block; [done|]. cbv beta. wp_step.
  pose proof (choose_place i bd0 os1 os2 p d o r s1 fbd E Hs Hc Hb Hst) as Hch. destruct (advance d) as [fb to]. cbn [fst snd] in *.
  eapply wp_mono; [exact Hch|]. intros c s2 (-> & Hw & Hb2 & Hm). cbv beta iota. rewrite Htag. wp_step.
  eapply wp_mono; [apply (unthread_next d o r flat ch s s2 t E HI); [by eapply tinv_blocks|done|done]|].
  intros [] s3 (flat' & ch' & HI'). apply wp_ret. apply HQ. by exists flat', ch'.
Qed.
Lemma fwd_block_ok i bd0 os1 os2 p fuel d r s :
  all = d ++ os2 ++ r → scan_at i bd0 os1 os2 p → cursor_ok blks0 i p (advance d) → fwd_done d s → (length os2 ≤ fuel)%nat →
  wp (fwd_block itbl stg_arg_bitmaps fuel i p (fst (advance d)) (snd (advance d)))
    (λ c s', c = advance (d ++ os2) ∧ (∃ p', cursor_ok blks0 i p' c) ∧ fwd_done (d ++ os2) s') s.
Proof.
  revert os1 os2 p d s. induction fuel as [|fuel IH]; intros os1 os2 p d s E Hs Hc Hd Hf;
    pose proof Hd as (flat & ch & HI); destruct (block_exists _ _ _ _ _ (fi_blocks _ _ _ _ HI) (s_objs _ _ _ _ _ _ _ Hs)) as (bd0' & bd & Hbd0 & Hbd & Hbk);
    rewrite (s_block _ _ _ _ _ _ _ Hs) in Hbd0; injection Hbd0 as <-; cbn [fwd_block]; wp_step; (eapply wp_block; [done|]); cbv beta.
  1: destruct os2; [|cbn in Hf; lia]. 2: destruct os2 as [|o os2].
  1,2: pose proof (scan_none _ _ _ _ _ _ _ Hs Hbk (Nat.le_0_l _)) as Hnone; rewrite (proj2 (Z.ltb_ge _ _)) by done; apply wp_ret;
    rewrite app_nil_r; split; [by destruct (advance d)|]; split; [exists p; by destruct (advance d)|done].
  destruct (scan_next _ _ _ _ _ _ _ _ _ Hs Hbk (Nat.le_0_l _)) as [-> Hlt]. apply Z.ltb_lt in Hlt as ->.
  assert (o ∈ all) as Ho by (rewrite E; apply elem_of_app; right; by left).
  wp_step. eapply (fwd_object_ok i bd0 os1 os2 p d o (os2 ++ r)); [done..|]. intros s' Hd'. cbv beta iota.
  assert (past blks0 (advance d) o = advance (d ++ [o])) as Epast by (by rewrite advance_app).
  rewrite (past_next d o (os2 ++ r) E) in Epast.
  assert (wp (fwd_block itbl stg_arg_bitmaps fuel i (o_end o) (fst (advance (d ++ [o]))) (snd (advance (d ++ [o]))))
    (λ c s', c = advance ((d ++ [o]) ++ os2) ∧ (∃ p', cursor_ok blks0 i p' c) ∧ fwd_done ((d ++ [o]) ++ os2) s') s') as Hrec.
  { apply (IH (os1 ++ [o])); [by rewrite <- app_assoc|by eapply scan_step| |done|cbn in Hf; lia].
    rewrite advance_app. cbn. by eapply cursor_step. }
  rewrite <- Epast, <- app_assoc in Hrec. exact Hrec.
Qed.

(** A block has fewer objects than bytes. *)
Lemma sorted_length os lo hi :
  StronglySorted (λ o o', o_end o <= o_addr o') os → (∀ o, o ∈ os → 2 <= o_size o ∧ lo <= o_addr o ∧ o_end o <= hi) → lo <= hi →
  Z.of_nat (length os) <= hi - lo.
Proof.
  revert lo. induction os as [|o os IH]; intros lo Hs Ho Hlh; cbn; [lia|]. apply StronglySorted_inv in Hs as [Hs Hf]. rewrite Forall_forall in Hf.
  destruct (Ho o) as (H1 & H2 & H3); [by left|]. specialize (IH (o_end o) Hs). unfold o_end, W in *.
  assert (Z.of_nat (length os) <= hi - (o_addr o + 8 * o_size o)); [|lia]. apply IH; [|done]. intros o' Ho'.
  destruct (Ho o') as (? & ? & ?); [by right|]. specialize (Hf o' Ho'). lia.
Qed.
Lemma objs_length i os : bls !! i = Some os → (length os ≤ Z.to_nat BLOCK_SIZE)%nat.
Proof.
  intros Hi. assert (∃ bd, blks0 !! i = Some bd) as [bd Hbd] by (apply lookup_lt_is_Some; rewrite <- h_blocks; by eapply lookup_lt_Some).
  pose proof (sorted_length os (start bd) (start bd + BLOCK_SIZE)) as H.
  enough (Z.of_nat (length os) <= BLOCK_SIZE) by lia. replace BLOCK_SIZE with (start bd + BLOCK_SIZE - start bd) at 1 by lia. apply H; [|intros o Ho|unfold BLOCK_SIZE; lia].
  - apply h_sorted. by eapply list_elem_of_lookup_2.
  - split; [apply size_ge, elem_of_all; eauto|]. by eapply obj_in_block.
Qed.
(** The objects of the blocks [pre] were visited. *)
Definition cursor_at (i : nat) (c : nat * Z) : Prop := ∀ bd, blks0 !! i = Some bd → cursor_ok blks0 i (start bd) c.
Lemma bls_split pre os post : bls = pre ++ os :: post → bls !! length pre = Some os ∧ all = concat pre ++ os ++ concat post ∧ concat pre ++ os = concat (pre ++ [os]).
Proof.
  intros E. unfold CompactHeap.all. rewrite E, concat_app. split; [by rewrite lookup_app_r, Nat.sub_diag by lia|]. split; [done|].
  rewrite concat_app. cbn. by rewrite app_nil_r.
Qed.
Lemma fwd_blocks_ok pre post s :
  bls = pre ++ post → cursor_at (length pre) (advance (concat pre)) → fwd_done (concat pre) s →
  wp (fwd_blocks itbl stg_arg_bitmaps (length post) (length pre) (fst (advance (concat pre))) (snd (advance (concat pre))))
    (λ c s', fwd_done all s') s.
Proof.
  revert pre s. induction post as [|os post IH]; intros pre s E Hc Hd; cbn [fwd_blocks length].
  - apply wp_ret. unfold CompactHeap.all. by rewrite E, app_nil_r.
  - destruct (bls_split pre os post E) as (Hos & Hall & Hcat). pose proof Hd as (flat & ch & HI).
    destruct (block_exists _ _ _ _ _ (fi_blocks _ _ _ _ HI) Hos) as (bd0 & bd & Hbd0 & Hbd & Hbk).
    wp_step. eapply wp_block; [done|]. cbv beta. wp_step. rewrite (b_start _ _ _ _ _ _ Hbk).
    eapply wp_mono; [eapply (fwd_block_ok (length pre) bd0 [] os (start bd0) _ (concat pre) (concat post)); [done|by apply scan_start|by apply Hc|done|by eapply objs_length]|].
    intros c s' (-> & (p' & Hc') & Hd'). rewrite Hcat in Hd', Hc'. rewrite Hcat.
    assert (length (pre ++ [os]) = S (length pre)) as Hlen by (rewrite length_app; cbn; lia).
    specialize (IH (pre ++ [os]) s'). rewrite Hlen in IH. destruct (advance (concat (pre ++ [os]))) as [fb to] eqn:Ea. cbn [fst snd] in IH.
    apply IH; [by rewrite <- app_assoc| |done]. intros bd' _. by eapply cursor_next.
Qed.
Lemma update_fwd_compact_ok bd0 flat s :
  blks0 !! O = Some bd0 → finv [] flat (chain_on roots (λ _, [])) s → wp (update_fwd_compact itbl stg_arg_bitmaps) (λ _ s', fwd_done all s') s.
Proof.
  intros Hbd HI. unfold update_fwd_compact. wp_step. apply wp_get. cbv beta.
  destruct (block_start _ _ _ _ _ (fi_blocks _ _ _ _ HI) Hbd) as (bd & Hb & Hst). wp_step. eapply wp_block; [done|]. cbv beta. wp_step. rewrite Hst.
  assert (length (old_blocks s) = length bls) as -> by (rewrite (proj1 (fi_blocks _ _ _ _ HI)); by rewrite h_blocks).
  eapply wp_mono; [apply (fwd_blocks_ok [] bls s); [done| |by eexists _, _]|].
  - intros bd' Hbd'. by apply cursor_start.
  - intros c s' Hd. by apply wp_ret.
Qed.
End fwd.
Arguments block_exists {_ _ _ _ _ _ _}.
Arguments block_start {_ _ _ _ _ _ _}.
Arguments objs_length {_ _ _ _ _ _ _}.
Arguments update_fwd_compact_ok {_ _ _ _ _ _ _}.
