(* ===== verification/CompactBkwd.v ===== *)
(** * The backward pass

    The invariant of [update_bkwd_compact]: the objects that were visited are
    at their new places, and all their fields hold new addresses; the other
    objects are where they were, and only fields of objects behind an object
    are threaded onto it.  Moving an object overwrites no other object. *)
From Stdlib Require Import Sorted.
From stdpp Require Import list gmap.
From S2P Require Import Prelude DList ClosureFlags Compact CompactChain CompactThread CompactObj CompactMarks CompactHeap CompactPlace CompactFwd.
Local Open Scope Z_scope.

(** ** Moving words that are in no chain *)
Definition off_chain (ch : Z → list Z) (a : Z) : Prop := ch a = [] ∧ ∀ q, a ∉ ch q.
Lemma off_chain_read tg ch flat m a : threaded tg ch flat m → off_chain ch a → m !! a = flat !! a.
Proof. intros HR [H1 H2]. by apply (th_other _ _ _ _ HR). Qed.
Lemma wp_st_off tg ch flat s a v Q :
  threaded tg ch flat (words s) → off_chain ch a → is_Some (flat !! a) →
  (threaded tg ch (<[a := v]> flat) (words (set_word a v s)) → Q tt (set_word a v s)) → wp (st a v) Q s.
Proof.
  intros HR Ha [w Hw] HQ. eapply (wp_st a v w); [by rewrite (off_chain_read _ _ _ _ _ HR Ha)|]. apply HQ. destruct Ha. by apply threaded_store.
Qed.
Lemma move_ok tg ch n to p flat s Q :
  threaded tg ch flat (words s) →
  (∀ k, 0 <= k < Z.of_nat n → off_chain ch (to + W k) ∧ is_Some (flat !! (to + W k)) ∧ off_chain ch (p + W k) ∧ is_Some (flat !! (p + W k))) →
  (∀ j k, 0 <= j < k → k < Z.of_nat n → to + W j ≠ p + W k) →
  (∀ flat' s', threaded tg ch flat' (words s') → old_blocks s' = old_blocks s →
     (∀ k, 0 <= k < Z.of_nat n → flat' !! (to + W k) = flat !! (p + W k)) →
     (∀ a, (∀ k, 0 <= k < Z.of_nat n → a ≠ to + W k) → flat' !! a = flat !! a) → Q tt s') →
  wp (move n to p) Q s.
Proof.
  revert to p flat s. induction n as [|n IH]; intros to p flat s HR Hoff Hdis HQ; cbn [move].
  - apply wp_ret. eapply HQ; [done|done|intros k Hk; lia|done].
  - destruct (Hoff 0) as (H1 & H2 & H3 & [w Hw]); [lia|]. replace (to + W 0) with to in * by (unfold W; lia). replace (p + W 0) with p in * by (unfold W; lia).
    wp_step. eapply (wp_ld_word p w); [by rewrite (off_chain_read _ _ _ _ _ HR H3)|]. cbv beta. wp_step. eapply wp_st_off; [done..|]. intros HR'. cbv beta.
    assert (∀ a k, a + 8 + W k = a + W (k + 1)) as Eshift by (unfold W; lia).
    assert (∀ k, 0 <= k < Z.of_nat n → p + 8 + W k ≠ to) as Hne.
    { intros k Hk E. rewrite Eshift in E. apply (Hdis 0 (k + 1)); [lia|lia|]. unfold W in *; lia. }
    eapply IH; [done| | |].
    + intros k Hk. destruct (Hoff (k + 1)) as (G1 & G2 & G3 & G4); [lia|]. rewrite !Eshift. split_and!; [done| |done|].
      * rewrite lookup_insert_ne by (unfold W; lia). done.
      * rewrite lookup_insert_ne by (intros E; apply (Hne k Hk); rewrite Eshift; done). done.
    + intros j k Hj Hk. rewrite !Eshift. apply Hdis; lia.
    + intros flat' s' HR'' Hb Hmv Hkeep. eapply HQ; [done|done| |].
      * intros k Hk. destruct (decide (k = 0)) as [->|].
        -- replace (to + W 0) with to by (unfold W; lia). replace (p + W 0) with p by (unfold W; lia). rewrite Hkeep; [by rewrite lookup_insert_eq|].
           intros k Hk'. unfold W; lia.
        -- specialize (Hmv (k - 1)). rewrite !Eshift in Hmv. replace (k - 1 + 1) with k in Hmv by lia. rewrite Hmv by lia.
           apply lookup_insert_ne. intros E. apply (Hne (k - 1)); [lia|]. rewrite Eshift. replace (k - 1 + 1) with k by lia. done.
      * intros a Ha. rewrite Hkeep; [apply lookup_insert_ne|].
        -- intros E. apply (Ha 0); [lia|]. unfold W; lia.
        -- intros k Hk. rewrite Eshift. apply Ha. lia.
Qed.

Section bkwd.
Context (itbl : Z → option StgInfoTable) (stg_arg_bitmaps : Z → Z).
Context (m0 : gmap Z Z) (blks0 : list bdescr) (bls : list (list object)) (roots : list Z).
Context `{Hheap : !heap_ok itbl stg_arg_bitmaps m0 blks0 bls roots}.
Local Notation all := (all bls).
Local Notation obj := (obj bls).
Local Notation Fld := (Fld bls roots).
Local Notation target := (target obj m0).
Local Notation has_tag := (has_tag Fld m0).
Local Notation chains := (chains Fld m0).
Local Notation new := (new blks0 bls).
Local Notation new_block := (new_block blks0 bls).
Local Notation spills := (spills blks0 bls).
Local Notation advance := (advance blks0 (c0 blks0)).
Local Notation blocks_ok := (blocks_ok blks0 bls).
Local Notation scan_at := (scan_at blks0 bls).
Local Notation spilled := (spilled blks0 bls).
Local Notation moved := (moved m0 blks0 bls roots).
Local Notation before := (before blks0 bls).

(** ** Regions of the blocks *)
Definition at_block (j : nat) (a : Z) : Prop := ∃ bd, blks0 !! j = Some bd ∧ start bd <= a < start bd + BLOCK_SIZE.
(** Addresses before the cursor, and from [p] in block [i] on *)
Definition low (c : nat * Z) (a : Z) : Prop := ∃ j, at_block j a ∧ ((j < fst c)%nat ∨ j = fst c ∧ a < snd c).
Definition high (i : nat) (p a : Z) : Prop := ∃ j, at_block j a ∧ ((i < j)%nat ∨ i = j ∧ p <= a).
Definition word_of (o : object) (a : Z) : Prop := ∃ k, 0 <= k < o_size o ∧ a = o_addr o + W k.
Definition outside (a : Z) : Prop := ∀ j, ¬ at_block j a.
Lemma at_block_inj i j a : at_block i a → at_block j a → i = j.
Proof.
  intros (bd & Hi & H) (bd' & Hj & H'). destruct (decide (i = j)) as [|Hne]; [done|]. pose proof (h_disjoint _ _ _ _ Hi Hj Hne). lia.
Qed.
Lemma low_high i p c a : cursor_ok blks0 i p c → low c a → high i p a → False.
Proof.
  intros [Hle _] (j & Hj & H) (j' & Hj' & H'). rewrite (at_block_inj j' j a) in H' by done. destruct Hle as [|[? ?]]; lia.
Qed.
Lemma high_le i p p' a : high i p' a → p <= p' → high i p a.
Proof. intros (j & Hj & H) Hp. exists j. split; [done|]. destruct H as [|[? ?]]; [by left|right; split; [done|lia]]. Qed.
Lemma cursor_le i p p' c : cursor_ok blks0 i p c → p <= p' → cursor_ok blks0 i p' c.
Proof. intros [Hle Hin] Hp. split; [|done]. destruct Hle as [|[? ?]]; [by left|right; split; [done|lia]]. Qed.
Lemma before_low c o k : before c o → 0 <= k < o_size o → low c (new (o_addr o) + W k).
Proof.
  intros [(bd & Hbd & Hst & Hend) H] Hk. exists (new_block (o_addr o)). split; [exists bd; split; [done|]; unfold W in *; lia|].
  destruct H as [[E H]|E]; [right|by left]. split; [done|]. unfold W in *; lia.
Qed.
Lemma place_not_low i o c a k :
  low c a → CompactPlace.place blks0 c o = (spills (o_addr o), (new_block (o_addr o), new (o_addr o))) → place_at blks0 i o (new_block (o_addr o), new (o_addr o)) →
  0 <= k < o_size o → a ≠ new (o_addr o) + W k.
Proof.
  intros (j & Hj & H) Hpl [_ (bd & n & Hbd & Hn & He & En)] Hk ->. cbn [fst snd] in *.
  assert (j = new_block (o_addr o)) as ->.
  { eapply at_block_inj; [done|]. exists bd. split; [done|]. unfold BLOCK_SIZE, W in *. change (4096 / 8) with 512 in *. lia. }
  unfold CompactPlace.place in Hpl. destruct (_ <? _) in Hpl; injection Hpl as E1 E2; [lia|]. destruct c; cbn in *. injection E2 as -> ->. unfold W in *; lia.
Qed.
Lemma place_low i o k :
  place_at blks0 i o (new_block (o_addr o), new (o_addr o)) → 0 <= k < o_size o →
  low (new_block (o_addr o), new (o_addr o) + W (o_size o)) (new (o_addr o) + W k) ∧ at_block (new_block (o_addr o)) (new (o_addr o) + W k).
Proof.
  intros [_ (bd & n & Hbd & Hn & He & En)] Hk. cbn [fst snd] in *.
  assert (at_block (new_block (o_addr o)) (new (o_addr o) + W k)) as Hat.
  { exists bd. split; [done|]. unfold BLOCK_SIZE, W in *. change (4096 / 8) with 512 in *. lia. }
  split; [|done]. exists (new_block (o_addr o)). split; [done|]. right. cbn. split; [done|]. unfold W; lia.
Qed.

(** ** The invariant of the memory *)

(** The word at [a] is as before, threaded, or what it becomes. *)
Definition kept (flat : gmap Z Z) (ch : Z → list Z) (a : Z) : Prop :=
  if decide (Fld a) then
    match target a with
    | Some q => (a ∈ ch q ∧ flat !! a = m0 !! a) ∨ ((∃ w, flat !! a = Some w ∧ moved a w) ∧ ∀ q', a ∉ ch q')
    | None => flat !! a = m0 !! a ∧ ∀ q', a ∉ ch q'
    end
  else flat !! a = m0 !! a ∧ ∀ q', a ∉ ch q'.
(** What the word that was at [a] becomes *)
Definition settled (a w : Z) : Prop :=
  if decide (Fld a ∧ is_Some (target a)) then moved a w else m0 !! a = Some w.
Definition reloc (o : object) (k w : Z) : Prop :=
  if decide (type (o_info o) = STACK ∧ k = 2) then w = word_at m0 (o_addr o + W 2) + (new (o_addr o) - o_addr o)
  else settled (o_addr o + W k) w.
(** [d]: the objects that were moved; [hs]: those that have chains; [r]: those
    that were not moved. *)
Record minv (d hs r : list object) (flat : gmap Z Z) (ch : Z → list Z) (s : cstate) : Prop := {
  mi_chains : chains flat ch s;
  mi_heads q : ch q ≠ [] → ∃ o, o ∈ hs ∧ q = o_addr o;
  mi_order d1 o d2 : all = d1 ++ o :: d2 → ∀ f, f ∈ ch (o_addr o) → f ∈ d2 ≫= o_fields;
  mi_done o k : o ∈ d → 0 <= k < o_size o → ∃ w, flat !! (new (o_addr o) + W k) = Some w ∧ reloc o k w;
  mi_rest a : (∃ o, o ∈ r ∧ word_of o a) ∨ outside a → kept flat ch a;
  mi_mapped bd k : bd ∈ blks0 → 0 <= k < BLOCK_SIZE / 8 → is_Some (flat !! (start bd + W k))
}.
Lemma kept_settled flat ch a : kept flat ch a → (∀ q, a ∉ ch q) → is_Some (m0 !! a) → ∃ w, flat !! a = Some w ∧ settled a w.
Proof.
  unfold kept, settled. intros H Hn [v Hv]. destruct (decide (Fld a)) as [HF|HF].
  - destruct (target a) as [q|] eqn:Et.
    + destruct H as [[H _]|[(w & Hw & Hm) _]]; [by apply Hn in H|]. exists w. rewrite decide_True by (split; [done|by eexists]). done.
    + destruct H as [-> _]. exists v. rewrite decide_False by (intros [_ [? ?]]; done). done.
  - destruct H as [-> _]. exists v. rewrite decide_False by naive_solver. done.
Qed.
Lemma kept_ext flat flat' ch ch' a : kept flat ch a → flat' !! a = flat !! a → (∀ q, a ∈ ch' q ↔ a ∈ ch q) → kept flat' ch' a.
Proof.
  unfold kept. intros H E Hch. rewrite E. destruct (decide (Fld a)); [destruct (target a) as [q|]|].
  - destruct H as [[H1 H2]|[H1 H2]]; [left; by rewrite Hch|right; split; [done|]; intros q'; by rewrite Hch].
  - destruct H as [H1 H2]. split; [done|]. intros q'. by rewrite Hch.
  - destruct H as [H1 H2]. split; [done|]. intros q'. by rewrite Hch.
Qed.

Lemma field_word o f : o ∈ all → f ∈ o_fields o → word_of o f.
Proof. intros Ho Hf. destruct (ok_in (h_obj_ok o Ho) f Hf) as (k & Hk & ->). exists k. split; [lia|done]. Qed.
Lemma first_word o : o ∈ all → word_of o (o_addr o).
Proof. intros Ho. pose proof (size_ge o Ho). exists 0. split; [lia|]. unfold W; lia. Qed.
(** Only fields of objects that have chains, but the first, are threaded. *)
Lemma chain_field d pre hs r flat ch s f q : minv d hs r flat ch s → all = pre ++ hs → f ∈ ch q → ∃ o, o ∈ hs ∧ f ∈ o_fields o.
Proof.
  intros HI E Hf. destruct (mi_heads _ _ _ _ _ _ HI q) as (o & Ho & ->); [by eapply elem_of_not_nil|].
  apply list_elem_of_split in Ho as (h1 & h2 & ->). rewrite app_assoc in E. pose proof (mi_order _ _ _ _ _ _ HI _ _ _ E f Hf) as Hin.
  apply list_elem_of_bind in Hin as (o' & Hf' & Ho'). exists o'. split; [|done]. apply elem_of_app. right. by right.
Qed.
Lemma not_high_off i p d pre hs r flat ch s a :
  minv d hs r flat ch s → all = pre ++ hs → (∀ o b, o ∈ hs → word_of o b → high i p b) → ¬ high i p a → off_chain ch a.
Proof.
  intros HI E Hh Ha. assert (∀ o, o ∈ hs → o ∈ all) as Hall by (intros o Ho; rewrite E; apply elem_of_app; by right). split.
  - destruct (ch a) eqn:Ea; [done|]. destruct (mi_heads _ _ _ _ _ _ HI a) as (o & Ho & ->); [by rewrite Ea|]. exfalso. eapply Ha, Hh; [done|]. by apply first_word, Hall.
  - intros q Hq. destruct (chain_field _ _ _ _ _ _ _ _ _ HI E Hq) as (o & Ho & Hf). apply Ha. eapply Hh; [done|]. by apply field_word; [apply Hall|].
Qed.

(** Unthreading the next object *)
Lemma unthread_back i p d o r flat ch s t :
  all = d ++ o :: r → minv d (o :: r) (o :: r) flat ch s → (∀ o' b, o' ∈ o :: r → word_of o' b → high i p b) →
  cursor_ok blks0 i p (advance d) → (∀ o', o' ∈ d → before (advance d) o') →
  (ch (o_addr o) = [] ∧ t = 0 ∨ ch (o_addr o) ≠ [] ∧ has_tag (o_addr o) t) →
  wp (unthread (o_addr o) (new (o_addr o) + t))
    (λ _ s', old_blocks s' = old_blocks s ∧ ∃ flat', minv d r (o :: r) flat' (updc ch (o_addr o) []) s') s.
Proof.
  intros E HI Hh Hc Hbef Ht. assert (o ∈ all) as Ho by (rewrite E; apply elem_of_app; right; by left).
  destruct (h_obj o Ho) as (Hm & Hia & _). destruct (mi_chains _ _ _ _ _ _ HI) as (tg & HR & Htg). set (q := o_addr o) in *. set (w := new q + t).
  assert (∀ q', q ∉ ch q') as Hq.
  { intros q' Hf. destruct (chain_field _ _ _ _ _ _ _ _ _ HI E Hf) as (o' & Ho' & Hf'). assert (o' ∈ all) as Hall by (rewrite E; apply elem_of_app; by right).
    destruct (ok_in (h_obj_ok o' Hall) q Hf') as (k & Hk & Ek).
    destruct (ok_word (h_obj_ok o' Hall) k Hk) as [_ Hno]. rewrite <- Ek in Hno. unfold q in Hno. rewrite (obj_of o Ho) in Hno. done. }
  assert (kept flat ch q) as Hkq by (apply (mi_rest _ _ _ _ _ _ HI); left; exists o; split; [by left|by apply first_word]).
  assert (flat !! q = Some (o_ip o)) as Hfl.
  { unfold kept in Hkq. rewrite decide_False in Hkq; [destruct Hkq as [-> _]; exact Hm|]. intros HF. apply h_fields in HF as [HF _].
    unfold q in HF. rewrite (obj_of o Ho) in HF. done. }
  eapply wp_mono; [by eapply (unthread_ok tg ch flat s q (o_ip o) w)|]. intros [] s' [HR' Hb']. split; [done|]. exists (set_all (ch q) w flat).
  assert (∀ f q', f ∈ updc ch q [] q' ↔ q' ≠ q ∧ f ∈ ch q') as Hupd.
  { intros f q'. unfold updc. destruct (decide (q' = q)); [|naive_solver]. split; [by intros ?%elem_of_nil|naive_solver]. }
  split.
  - exists tg. split; [done|]. intros q' Hq'. apply Htg. intros E'. apply Hq'. unfold updc. by destruct (decide (q' = q)).
  - intros q' Hq'. assert (q' ≠ q) as Hne by (intros ->; by rewrite updc_eq in Hq'). rewrite updc_ne in Hq' by done.
    destruct (mi_heads _ _ _ _ _ _ HI q' Hq') as (o' & [->|Ho']%elem_of_cons & ->); [done|by exists o'].
  - intros d1 o' d2 E' f [_ Hf]%Hupd. by eapply (mi_order _ _ _ _ _ _ HI).
  - intros o' k Ho' Hk. rewrite set_all_lookup, decide_False; [by apply (mi_done _ _ _ _ _ _ HI)|]. intros Hf.
    destruct (chain_field _ _ _ _ _ _ _ _ _ HI E Hf) as (o'' & Ho'' & Hf'). eapply (low_high i p (advance d)); [done|apply before_low; [by apply Hbef|done]|].
    eapply Hh; [done|]. apply field_word; [rewrite E; apply elem_of_app; by right|done].
  - intros a Ha. pose proof (mi_rest _ _ _ _ _ _ HI a Ha) as Hk. destruct (decide (a ∈ ch q)) as [Hin|Hin].
    + unfold kept in *. destruct (decide (Fld a)) as [HF|HF]; [|by apply (proj2 Hk) in Hin]. destruct (target a) as [q'|] eqn:Et; [|by apply (proj2 Hk) in Hin].
      destruct Hk as [[Hk _]|[_ Hk]]; [|by apply Hk in Hin]. assert (q' = q) as -> by exact (th_one_chain tg ch flat _ _ _ a HR Hk Hin). right. split.
      * exists w. rewrite set_all_lookup, decide_True by done. split; [done|]. exists q, t. split; [done|]. split; [done|]. right.
        destruct Ht as [[E0 _]|[_ Ht]]; [|done]. rewrite E0 in Hin. by apply elem_of_nil in Hin.
      * intros q' [Hne Hf]%Hupd. apply Hne. exact (th_one_chain tg ch flat _ _ _ a HR Hf Hin).
    + eapply kept_ext; [done|by rewrite set_all_lookup, decide_False|]. intros q'. rewrite Hupd. split; [by intros [_ ?]|]. intros Hf. split; [by intros ->|done].
  - intros bd k Hbd Hk. rewrite set_all_lookup. destruct (decide _); [by eexists|]. by apply (mi_mapped _ _ _ _ _ _ HI).
Qed.

(** ** Moving the object *)
Lemma minv_moved i d o r tg flat flat' ch s s' :
  minv d r (o :: r) flat ch s → threaded tg ch flat' (words s') → (∀ q, ch q ≠ [] → has_tag q (tg q)) →
  (∀ k, 0 <= k < o_size o → ∃ w, flat' !! (new (o_addr o) + W k) = Some w ∧ reloc o k w) →
  (∀ a, (∀ k, 0 <= k < o_size o → a ≠ new (o_addr o) + W k) → flat' !! a = flat !! a) →
  CompactPlace.place blks0 (advance d) o = (spills (o_addr o), (new_block (o_addr o), new (o_addr o))) →
  place_at blks0 i o (new_block (o_addr o), new (o_addr o)) → (∀ o', o' ∈ d → before (advance d) o') →
  cursor_ok blks0 i (o_end o) (new_block (o_addr o), new (o_addr o) + W (o_size o)) →
  (∀ o' b, o' ∈ r → word_of o' b → high i (o_end o) b) →
  minv (d ++ [o]) r r flat' ch s'.
Proof.
  intros HI HR Htg Hnew Hkeep Hpl Hat Hbef Hc Hh. split; [by exists tg|apply HI|apply HI| | |].
  - intros o' k [Ho'|Ho'%list_elem_of_singleton]%elem_of_app Hk; [|subst o'; by apply Hnew].
    rewrite Hkeep; [by apply (mi_done _ _ _ _ _ _ HI)|]. intros j Hj. eapply place_not_low; [|done..]. apply before_low; [by apply Hbef|done].
  - intros a Ha. eapply kept_ext; [apply (mi_rest _ _ _ _ _ _ HI a)| |done].
    + destruct Ha as [(o' & Ho' & Hw)|]; [left; exists o'; split; [by right|done]|by right].
    + apply Hkeep. intros k Hk ->. destruct (place_low i o k Hat Hk) as [Hlow Hblk]. destruct Ha as [(o' & Ho' & Hw)|Hout]; [|by apply (Hout (new_block (o_addr o)))].
      eapply low_high; [exact Hc|exact Hlow|]. by eapply Hh.
  - intros bd k Hbd Hk. set (a := start bd + W k). set (n := (a - new (o_addr o)) / 8).
    destruct (decide (0 <= n < o_size o ∧ a = new (o_addr o) + W n)) as [[Hn E]|Hn].
    + destruct (Hnew n Hn) as (w & Hw & _). rewrite E. by exists w.
    + rewrite Hkeep; [by apply (mi_mapped _ _ _ _ _ _ HI)|]. intros j Hj E. apply Hn. unfold n. rewrite E. unfold W.
      replace (new (o_addr o) + 8 * j - new (o_addr o)) with (j * 8) by lia. rewrite Z.div_mul by done. done.
Qed.
Lemma place_apart i bd0 os o c j k :
  blks0 !! i = Some bd0 → bls !! i = Some os → o ∈ os → place_at blks0 i o c → 0 <= j < o_size o → 0 <= k < o_size o → j < k → snd c + W j ≠ o_addr o + W k.
Proof.
  intros Hbd Hos Ho [Hle (bd & n & Hb & Hn & He & En)] Hj Hk Hjk E. pose proof (obj_in_block _ _ _ _ Hos Hbd Ho) as [H1 H2]. unfold o_end in *.
  destruct Hle as [Hlt|[_ Hle]]; [|unfold W in *; lia].
  assert (fst c ≠ i) as Hne by lia. pose proof (h_disjoint _ _ _ _ Hb Hbd Hne). unfold BLOCK_SIZE, W in *. change (4096 / 8) with 512 in *. lia.
Qed.

(** Copying the words of the object; nothing is to be done when it stays. *)
Lemma copy_ok tg ch flat s o to Q :
  threaded tg ch flat (words s) →
  (∀ k, 0 <= k < o_size o → off_chain ch (to + W k) ∧ is_Some (flat !! (to + W k)) ∧ off_chain ch (o_addr o + W k) ∧ is_Some (flat !! (o_addr o + W k))) →
  (∀ j k, 0 <= j < k → k < o_size o → to + W j ≠ o_addr o + W k) → 0 <= o_size o →
  (∀ flat' s', threaded tg ch flat' (words s') → old_blocks s' = old_blocks s →
     (∀ k, 0 <= k < o_size o → flat' !! (to + W k) = flat !! (o_addr o + W k)) →
     (∀ a, (∀ k, 0 <= k < o_size o → a ≠ to + W k) → flat' !! a = flat !! a) → Q tt s') →
  wp (when (negb (to =? o_addr o)) (move (Z.to_nat (o_size o)) to (o_addr o))) Q s.
Proof.
  intros HR Hoff Hdis Hsz HQ. unfold when. destruct (Z.eqb_spec to (o_addr o)) as [->|Hne]; cbn [negb].
  - apply wp_ret. by eapply HQ.
  - assert (Z.of_nat (Z.to_nat (o_size o)) = o_size o) as En by (by rewrite Z2Nat.id). eapply (move_ok tg ch); rewrite ?En; done.
Qed.
(** The stack pointer of a stack moves along. *)
Lemma move_STACK_ok tg ch flat s src dest sp Q :
  threaded tg ch flat (words s) → off_chain ch (dest + W 2) → flat !! (dest + W 2) = Some sp →
  (threaded tg ch (<[dest + W 2 := sp + (dest - src)]> flat) (words (set_word (dest + W 2) (sp + (dest - src)) s)) →
     Q tt (set_word (dest + W 2) (sp + (dest - src)) s)) → wp (move_STACK src dest) Q s.
Proof.
  intros HR Hoff Hsp HQ. unfold move_STACK, field. wp_step. eapply wp_ld_word; [by rewrite (off_chain_read _ _ _ _ _ HR Hoff)|]. cbv beta.
  eapply wp_st_off; [done|done|by eexists|done].
Qed.
(** The words of the object that is moved next: they are as in the end. *)
Lemma next_words d o r flat ch s k :
  all = d ++ o :: r → minv d r (o :: r) flat ch s → (∀ k, 0 <= k < o_size o → off_chain ch (o_addr o + W k)) → 0 <= k < o_size o →
  (∃ w, flat !! (o_addr o + W k) = Some w ∧ settled (o_addr o + W k) w) ∧ (¬ Fld (o_addr o + W k) → flat !! (o_addr o + W k) = m0 !! (o_addr o + W k)).
Proof.
  intros E HI Hoff Hk. assert (o ∈ all) as Ho by (rewrite E; apply elem_of_app; right; by left).
  assert (kept flat ch (o_addr o + W k)) as Hkept.
  { apply (mi_rest _ _ _ _ _ _ HI). left. exists o. split; [by left|by exists k]. }
  assert (is_Some (m0 !! (o_addr o + W k))) as Hs.
  { destruct (decide (k = 0)) as [->|]; [|by destruct (ok_word (h_obj_ok o Ho) k) as [(v & -> & _) _]; [lia|eexists]].
    replace (o_addr o + W 0) with (o_addr o) by (unfold W; lia). destruct (h_obj o Ho) as (-> & _). by eexists. }
  split; [by eapply kept_settled, Hs; [|apply Hoff]|]. intros HF. unfold kept in Hkept. rewrite decide_False in Hkept by done. apply Hkept.
Qed.
Lemma header_not_field o : o ∈ all → ¬ Fld (o_addr o).
Proof. intros Ho HF. apply h_fields in HF as [HF _]. by rewrite (obj_of o Ho) in HF. Qed.

Lemma stack_word o : o ∈ all → type (o_info o) = STACK → 2 < o_size o ∧ ¬ Fld (o_addr o + W 2) ∧ m0 !! (o_addr o + W 2) = Some (word_at m0 (o_addr o + W 2)).
Proof.
  intros Ho Ht. pose proof (h_obj_ok o Ho) as Hok. destruct (threads_thread_STACK _ _ _ _ Hok Ht) as (_ & En & Hf).
  pose proof (low_half_nonneg (word_at m0 (o_addr o + W 1))). assert (2 < o_size o) as Hsz by (unfold sizeofW_StgStack in *; lia).
  split_and!; [done| |].
  - intros HF. apply (ok_fields Hok) in HF; [|lia]. apply Hf in HF. lia.
  - destruct (ok_word Hok 2) as [(v & Hv & _) _]; [lia|]. unfold word_at. by rewrite Hv.
Qed.
(** What is left to be done when an object was unthreaded *)
Definition move_object (fb : nat) (to p : Z) : prog cstate (nat * Z * Z) :=
  w ← ld p;
  ASSERT (LOOKS_LIKE_INFO_PTR itbl w);;
  info ← get_itbl itbl p;
  size ← closure_sizeW_ p info;
  when (negb (to =? p)) (move (Z.to_nat size) to p);;
  when (bool_decide (type info = STACK)) (move_STACK p to);;
  mret (fb, to + W size, p + W size).
Lemma move_back i bd0 os1 os2 p d o r flat ch s :
  all = d ++ o :: r → scan_at i bd0 os1 (o :: os2) p → cursor_ok blks0 i p (advance d) →
  minv d r (o :: r) flat ch s → (∀ o', o' ∈ d → before (advance d) o') → (∀ o' b, o' ∈ r → word_of o' b → high i (o_end o) b) →
  wp (move_object (new_block (o_addr o)) (new (o_addr o)) (o_addr o))
    (λ x s', x = (new_block (o_addr o), new (o_addr o) + W (o_size o), o_end o) ∧ old_blocks s' = old_blocks s ∧
       ∃ flat', minv (d ++ [o]) r r flat' ch s') s.
Proof.
  intros E Hs Hc HI Hbef Hh. assert (o ∈ all) as Ho by (rewrite E; apply elem_of_app; right; by left).
  assert (o ∈ os1 ++ o :: os2) as Hin by (apply elem_of_app; right; by left).
  pose proof (place_next d o r E) as Hpl. pose proof (place_ok _ _ _ _ _ _ _ Hs Hc) as Hat. rewrite Hpl in Hat. cbn [snd] in Hat.
  assert (cursor_ok blks0 i (o_end o) (new_block (o_addr o), new (o_addr o) + W (o_size o))) as Hc'.
  { rewrite <- (past_next d o r E). by eapply cursor_step. }
  destruct (h_obj o Ho) as (Hm & Hia & Hlk & Hitbl). pose proof (h_obj_ok o Ho) as Hok. pose proof (size_ge o Ho) as Hsz.
  assert (all = (d ++ [o]) ++ r) as E' by (by rewrite <- app_assoc).
  assert (∀ k, 0 <= k < o_size o → off_chain ch (o_addr o + W k)) as Hsrc.
  { intros k Hk. eapply (not_high_off i (o_end o)); [done|exact E'|done|]. intros (j & Hj & H).
    assert (at_block i (o_addr o + W k)) as Hi.
    { exists bd0. split; [apply Hs|]. pose proof (obj_in_block _ _ _ _ (s_objs _ _ _ _ _ _ _ Hs) (s_block _ _ _ _ _ _ _ Hs) Hin).
      unfold o_end, W in *. lia. }
    rewrite (at_block_inj j i _ Hj Hi) in H. unfold o_end, W in *. lia. }
  assert (∀ k, 0 <= k < o_size o → off_chain ch (new (o_addr o) + W k)) as Hdst.
  { intros k Hk. eapply (not_high_off i (o_end o)); [done|exact E'|done|]. intros Hhi. by eapply low_high, Hhi; [exact Hc'|apply (place_low i)]. }
  pose proof (λ k, next_words d o r flat ch s k E HI Hsrc) as Hwords. destruct (mi_chains _ _ _ _ _ _ HI) as (tg & HR & Htg).
  assert (words s !! o_addr o = Some (o_ip o)) as Hhd.
  { assert (o_addr o + W 0 = o_addr o) as E0 by (unfold W; lia).
    rewrite (off_chain_read _ _ _ _ _ HR); [|rewrite <- E0; apply Hsrc; lia]. destruct (Hwords 0) as [_ Hw]; [lia|]. rewrite E0 in Hw.
    rewrite Hw; [done|by apply header_not_field]. }
  unfold move_object. wp_step. eapply wp_ld_word; [done|]. cbv beta. wp_step. apply wp_assert; [done|]. cbv beta.
  wp_step. unfold get_itbl. wp_step. eapply wp_ld_word; [done|]. cbv beta. unfold INFO_PTR_TO_STRUCT. rewrite Hitbl. apply wp_ret. cbv beta.
  wp_step. eapply (closure_sizeW_ok _ _ _ _ _ _ Hok).
  { intros k Hk Hn. rewrite (off_chain_read _ _ _ _ _ HR); [|apply Hsrc; lia]. apply (Hwords k); [lia|]. intros HF.
    by apply Hn, (ok_fields Hok). }
  cbv beta. wp_step. eapply (copy_ok tg ch flat); [done| | |lia|].
  - intros k Hk. split_and!; [by apply Hdst| |by apply Hsrc|by destruct (Hwords k Hk) as [(w & -> & _) _]; eexists].
    destruct (pl_in _ _ _ _ Hat) as (bd & n & Hbd & Hn & He & En). cbn [fst snd] in *. rewrite En. replace (start bd + W n + W k) with (start bd + W (n + k)) by (unfold W; lia).
    apply (mi_mapped _ _ _ _ _ _ HI); [by eapply list_elem_of_lookup_2|lia].
  - intros j k Hj Hk. eapply (place_apart i bd0 _ o (new_block (o_addr o), new (o_addr o))); [apply Hs|apply Hs|done|done|lia..].
  - intros flat1 s1 HR1 Hb1 Hcp Hkeep. cbv beta. wp_step.
    assert (∀ flat2 s2, threaded tg ch flat2 (words s2) → old_blocks s2 = old_blocks s →
      (∀ k, 0 <= k < o_size o → ∃ w, flat2 !! (new (o_addr o) + W k) = Some w ∧ reloc o k w) →
      (∀ a, (∀ k, 0 <= k < o_size o → a ≠ new (o_addr o) + W k) → flat2 !! a = flat !! a) →
      wp (mret (new_block (o_addr o), new (o_addr o) + W (o_size o), o_addr o + W (o_size o)))
        (λ x s', x = (new_block (o_addr o), new (o_addr o) + W (o_size o), o_end o) ∧ old_blocks s' = old_blocks s ∧
           ∃ flat', minv (d ++ [o]) r r flat' ch s') s2) as Hfin.
    { intros flat2 s2 HR2 Hb2 Hnew Hk2. apply wp_ret. split; [done|]. split; [done|]. exists flat2. by eapply minv_moved. }
    unfold when. destruct (bool_decide_reflect (type (o_info o) = STACK)) as [Ht|Ht].
    + destruct (stack_word o Ho Ht) as (Hs2 & Hnf & Hsp). eapply move_STACK_ok; [done|apply Hdst; lia| |].
      { rewrite Hcp by lia. destruct (Hwords 2) as [_ Hw]; [lia|]. rewrite Hw by done. exact Hsp. }
      intros HR2. eapply Hfin; [exact HR2|done| |].
      * intros k Hk. unfold reloc. destruct (decide (k = 2)) as [->|Hne].
        -- eexists. rewrite lookup_insert_eq. split; [done|]. by rewrite decide_True.
        -- rewrite lookup_insert_ne by (unfold W; lia). rewrite Hcp by done. destruct (Hwords k Hk) as [(w & Hw & Hset) _]. exists w. split; [done|].
           by rewrite decide_False by naive_solver.
      * intros a Ha. rewrite lookup_insert_ne; [by apply Hkeep|]. intros <-. apply (Ha 2); [lia|done].
    + apply wp_ret. eapply Hfin; [exact HR1|done| |done].
      intros k Hk. rewrite Hcp by done. destruct (Hwords k Hk) as [(w & Hw & Hset) _]. exists w. split; [done|]. unfold reloc. by rewrite decide_False by naive_solver.
Qed.

(** ** The blocks *)

(** The blocks below the cursor have their new [free]. *)
Record kinv (d : list object) (c : nat * Z) (blks : list bdescr) : Prop := {
  k_blocks : blocks_ok (spilled all) (fst c) blks;
  k_before o : o ∈ d → before c o;
  k_apart o o' k k' : o ∈ d → o' ∈ d → o ≠ o' → 0 <= k < o_size o → 0 <= k' < o_size o' → new (o_addr o) + W k ≠ new (o_addr o') + W k';
  k_free o : o ∈ d → (new_block (o_addr o) < fst c)%nat → ∃ bd, blks !! new_block (o_addr o) = Some bd ∧ new (o_addr o) + W (o_size o) <= free bd
}.
Lemma block_ok_le S i fb fb' bd0 bd os : block_ok S i fb bd0 bd os → (fb <= fb')%nat → block_ok S i fb' bd0 bd os.
Proof. intros [] Hle. split; [done..|]. intros Hi. apply b_free. lia. Qed.
Lemma blocks_ok_free S fb blks bd x : blocks_ok S fb blks → blks !! fb = Some bd → blocks_ok S (Datatypes.S fb) (<[fb := set_free x bd]> blks).
Proof.
  intros [Hl H] Hfb. split; [by rewrite length_insert|]. intros i bd0 os Hbd Hos. destruct (H i bd0 os Hbd Hos) as (bd' & Hbd' & Hok).
  destruct (decide (fb = i)) as [<-|Hne].
  - rewrite Hfb in Hbd'. injection Hbd' as <-. exists (set_free x bd). rewrite list_lookup_insert_eq by (by eapply lookup_lt_Some). split; [done|].
    destruct Hok. split; try done. intros Hi. lia.
  - exists bd'. rewrite list_lookup_insert_ne by done. split; [done|]. eapply block_ok_le; [done|lia].
Qed.
Lemma kinv_free d c blks bd : kinv d c blks → blks !! fst c = Some bd →
  ∀ o, o ∈ d → ∃ bd', (<[fst c := set_free (snd c) bd]> blks) !! new_block (o_addr o) = Some bd' ∧ new (o_addr o) + W (o_size o) <= free bd'.
Proof.
  intros HK Hbd o Ho. destruct (k_before _ _ _ HK o Ho) as [_ [[E H]|H]].
  - rewrite E, list_lookup_insert_eq by (by eapply lookup_lt_Some). by eexists.
  - rewrite list_lookup_insert_ne by lia. by apply (k_free _ _ _ HK).
Qed.
Lemma place_inv c o sp fb to :
  CompactPlace.place blks0 c o = (sp, (fb, to)) → sp = true ∧ fb = S (fst c) ∧ to = start_of blks0 (S (fst c)) ∨ sp = false ∧ fb = fst c ∧ to = snd c.
Proof. unfold CompactPlace.place. destruct (_ <? _); intros [= <- E1]; [left|right]; by destruct c; simplify_eq. Qed.
Definition choose_back (i : nat) (p : Z) (fb : nat) (to : Z) : prog cstate (nat * Z) :=
  bd ← block i;
  if is_marked (p + W 1) bd then
    upd_block fb (set_free to);;
    free_bd ← block (S fb);
    mret (S fb, start free_bd)
  else mret (fb, to).
Lemma choose_back_ok i bd0 os1 os2 p d o r s :
  all = d ++ o :: r → scan_at i bd0 os1 (o :: os2) p → cursor_ok blks0 i p (advance d) → kinv d (advance d) (old_blocks s) →
  wp (choose_back i (o_addr o) (fst (advance d)) (snd (advance d)))
    (λ c s', c = (new_block (o_addr o), new (o_addr o)) ∧ words s' = words s ∧
       kinv (d ++ [o]) (new_block (o_addr o), new (o_addr o) + W (o_size o)) (old_blocks s')) s.
Proof.
  intros E Hs Hc HK. pose proof (place_next d o r E) as Hpl. pose proof (place_ok _ _ _ _ _ _ _ Hs Hc) as Hat.
  assert (o ∈ all) as Ho by (rewrite E; apply elem_of_app; right; by left). pose proof (size_ge o Ho) as Hsz.
  destruct (block_exists _ _ _ _ _ (k_blocks _ _ _ HK) (s_objs _ _ _ _ _ _ _ Hs)) as (bd0' & bd & Hbd0 & Hbd & Hbk).
  rewrite (s_block _ _ _ _ _ _ _ Hs) in Hbd0. injection Hbd0 as <-.
  pose proof (scan_second _ _ _ _ _ _ _ _ _ Hs Hbk) as Hsec. pose proof (past_next d o r E) as Hpast.
  assert (∀ o', o' ∈ d ++ [o] → before (new_block (o_addr o), new (o_addr o) + W (o_size o)) o') as Hbef.
  { rewrite <- Hpast. intros o' [Ho'|Ho'%list_elem_of_singleton]%elem_of_app.
    - apply before_past; [lia|by apply (k_before _ _ _ HK)].
    - subst o'. eapply before_self; [done|]. rewrite Hpl in Hat. exact Hat. }
  assert (∀ o1 o2 k1 k2, o1 ∈ d ++ [o] → o2 ∈ d ++ [o] → o1 ≠ o2 → 0 <= k1 < o_size o1 → 0 <= k2 < o_size o2 →
    new (o_addr o1) + W k1 ≠ new (o_addr o2) + W k2) as Hapart.
  { assert (∀ o1 k1 k2, o1 ∈ d → 0 <= k1 < o_size o1 → 0 <= k2 < o_size o → new (o_addr o1) + W k1 ≠ new (o_addr o) + W k2) as Hnext.
    { intros o1 k1 k2 H1 Hk1 Hk2. rewrite Hpl in Hat. eapply place_not_low; [|exact Hpl|exact Hat|done]. apply before_low; [by apply (k_before _ _ _ HK)|done]. }
    intros o1 o2 k1 k2 [H1|H1%list_elem_of_singleton]%elem_of_app [H2|H2%list_elem_of_singleton]%elem_of_app Hne Hk1 Hk2; subst;
      [by apply (k_apart _ _ _ HK)|by apply Hnext|symmetry; by apply Hnext|done]. }
  unfold choose_back. wp_step. eapply wp_block; [done|]. cbv beta. destruct (is_marked _ bd) eqn:Em.
  - destruct (proj1 Hsec eq_refl) as [_ Hsp]. destruct (pl_in _ _ _ _ Hat) as (bdn & n & Hbdn & _). rewrite Hpl in Hbdn. cbn [fst snd] in Hbdn.
    destruct (place_inv _ _ _ _ _ Hpl) as [(_ & En & Ew)|(E1 & _)]; [|congruence].
    destruct (c_in _ _ _ _ Hc) as (bdf & kf & Hbdf & _). destruct (block_start _ _ _ _ _ (k_blocks _ _ _ HK) Hbdf) as (bf & Hbf & _).
    pose proof (blocks_ok_free _ _ _ _ (snd (advance d)) (k_blocks _ _ _ HK) Hbf) as Hb'. rewrite <- En in Hb'.
    destruct (block_start _ _ _ _ _ Hb' Hbdn) as (bn & Hbn & Hstn). wp_step. eapply wp_upd_block; [done|]. cbv beta. wp_step.
    rewrite <- En. eapply wp_block; [exact Hbn|]. cbv beta. apply wp_ret. split; [by rewrite Hstn, Ew, En|]. split; [done|]. split; [done|done|done|].
    cbn [fst snd]. intros o' [Ho'|Ho'%list_elem_of_singleton]%elem_of_app Hlt; [by eapply kinv_free|subst o'; lia].
  - assert (spills (o_addr o) = false) as Hsp.
    { destruct (spills (o_addr o)) eqn:Esp; [|done]. assert (false = true); [|done]. apply Hsec. split; [by apply list_elem_of_fmap_2|done]. }
    destruct (place_inv _ _ _ _ _ Hpl) as [(E1 & _)|(_ & En & Ew)]; [congruence|]. apply wp_ret. split; [by rewrite En, Ew|]. split; [done|].
    split; [cbn [fst]; rewrite En; apply HK|done|done|]. cbn [fst]. intros o' [Ho'|Ho'%list_elem_of_singleton]%elem_of_app Hlt.
    + rewrite En in Hlt. by apply (k_free _ _ _ HK).
    + subst o'. lia.
Qed.

(** ** The loops *)
Definition bkwd_inv (d r : list object) (s : cstate) : Prop := (∃ flat ch, minv d r r flat ch s) ∧ kinv d (advance d) (old_blocks s).
(** All words of the objects [r] are in blocks behind block [i]. *)
Definition behind (i : nat) (r : list object) : Prop := ∀ o a, o ∈ r → word_of o a → ∃ j, at_block j a ∧ (i < j)%nat.
Lemma behind_high i p r o a : behind i r → o ∈ r → word_of o a → high i p a.
Proof. intros H Ho Ha. destruct (H o a Ho Ha) as (j & Hj & Hlt). exists j. split; [done|by left]. Qed.
Lemma scan_high i bd0 os1 os2 p o a : scan_at i bd0 os1 os2 p → o ∈ os2 → word_of o a → high i p a.
Proof.
  intros Hs Ho (k & Hk & ->). exists i. pose proof (s_after _ _ _ _ _ _ _ Hs o Ho) as Hp.
  assert (o ∈ os1 ++ os2) as Hin by (apply elem_of_app; by right).
  pose proof (obj_in_block _ _ _ _ (s_objs _ _ _ _ _ _ _ Hs) (s_block _ _ _ _ _ _ _ Hs) Hin) as [H1 H2]. unfold o_end in *. split.
  - exists bd0. split; [apply Hs|]. unfold W in *; lia.
  - right. split; [done|]. unfold W in *; lia.
Qed.
Lemma bkwd_object_ok i bd0 os1 o os2 p d r s Q :
  all = d ++ o :: os2 ++ r → scan_at i bd0 os1 (o :: os2) p → cursor_ok blks0 i p (advance d) → behind i r → bkwd_inv d (o :: os2 ++ r) s →
  (∀ s', bkwd_inv (d ++ [o]) (os2 ++ r) s' → Q (new_block (o_addr o), new (o_addr o) + W (o_size o), o_end o) s') →
  wp (bkwd_object itbl i (o_addr o) (fst (advance d)) (snd (advance d))) Q s.
Proof.
  intros E Hs Hc Hr [(flat & ch & HM) HK] HQ. assert (o ∈ all) as Ho by (rewrite E; apply elem_of_app; right; by left).
  assert (∀ o' b, o' ∈ o :: os2 ++ r → word_of o' b → high i p b) as Hh.
  { intros o' b Ho' Hb. rewrite app_comm_cons in Ho'. apply elem_of_app in Ho' as [Ho'|Ho']; [by eapply scan_high|by eapply behind_high]. }
  assert (∀ o' b, o' ∈ os2 ++ r → word_of o' b → high i (o_end o) b) as Hh'.
  { intros o' b Ho' Hb. apply elem_of_app in Ho' as [Ho'|Ho']; [by eapply (scan_high i bd0 (os1 ++ [o]) os2); [eapply scan_step|..]|by eapply behind_high]. }
  assert (wp (choose_back i (o_addr o) (fst (advance d)) (snd (advance d)) ≫= λ '(fb, to),
    iptr ← get_threaded_info itbl (o_addr o); unthread (o_addr o) (to + GET_CLOSURE_TAG iptr);; move_object fb to (o_addr o)) Q s) as Hgoal.
  { wp_step. eapply wp_mono; [by eapply choose_back_ok|]. intros c s1 (-> & Hw & HK1). cbv beta iota.
    assert (minv d (o :: os2 ++ r) (o :: os2 ++ r) flat ch s1) as HM1.
    { destruct HM. split; try done. unfold CompactThread.chains. by rewrite Hw. }
    pose proof (untag_aligned _ (obj_aligned _ _ _ _ _ _ o Ho)) as Hun. destruct (h_obj o Ho) as (Hm & Hia & Hlk & _).
    assert (∀ q', o_addr o ∉ ch q') as Hq.
    { intros q' Hf. destruct (chain_field _ _ _ _ _ _ _ _ _ HM1 E Hf) as (o' & Ho' & Hf'). assert (o' ∈ all) as Hall by (rewrite E; apply elem_of_app; by right).
      apply (header_not_field o Ho). apply elem_of_app. right. apply list_elem_of_bind. by exists o'. }
    assert (flat !! o_addr o = Some (o_ip o)) as Hfl.
    { rewrite <- Hm. assert (kept flat ch (o_addr o)) as Hk by (apply (mi_rest _ _ _ _ _ _ HM1); left; exists o; split; [by left|by apply first_word]).
      unfold kept in Hk. rewrite decide_False in Hk by (by apply header_not_field). apply Hk. }
    wp_step. eapply (chains_get_info _ _ itbl (o_addr o) (o_ip o) flat ch); [apply HM1|by rewrite Hun|done|by rewrite Hun|done|].
    rewrite Hun. intros t Ht _ Htag. cbv beta. rewrite Htag. wp_step.
    eapply wp_mono; [eapply (unthread_back i p d o (os2 ++ r) flat ch); [done|done|done|done|apply HK|done]|]. intros [] s2 (Hb2 & flat' & HM2).
    eapply wp_mono; [eapply move_back; [done|done|done|exact HM2|apply HK|done]|]. intros x s3 (-> & Hb3 & flat'' & HM3).
    apply HQ. split; [by eexists _, _|]. rewrite Hb3, Hb2, advance_app. cbn. by rewrite (past_next d o (os2 ++ r) E). }
  apply wp_bind_inv in Hgoal. unfold choose_back in Hgoal. apply wp_bind_inv in Hgoal. unfold bkwd_object. apply wp_bind.
  eapply wp_mono; [exact Hgoal|]. intros bd s' Hbd. apply wp_bind. exact Hbd.
Qed.

Lemma bkwd_block_ok i bd0 os1 os2 p fuel d r s :
  all = d ++ os2 ++ r → scan_at i bd0 os1 os2 p → cursor_ok blks0 i p (advance d) → behind i r → bkwd_inv d (os2 ++ r) s → (length os2 ≤ fuel)%nat →
  wp (bkwd_block itbl fuel i p (fst (advance d)) (snd (advance d)))
    (λ c s', c = advance (d ++ os2) ∧ (∃ p', cursor_ok blks0 i p' c) ∧ bkwd_inv (d ++ os2) r s') s.
Proof.
  revert os1 os2 p d s. induction fuel as [|fuel IH]; intros os1 os2 p d s E Hs Hc Hr Hd Hf;
    pose proof Hd as [_ HK]; destruct (block_exists _ _ _ _ _ (k_blocks _ _ _ HK) (s_objs _ _ _ _ _ _ _ Hs)) as (bd0' & bd & Hbd0 & Hbd & Hbk);
    rewrite (s_block _ _ _ _ _ _ _ Hs) in Hbd0; injection Hbd0 as <-;
    assert (fst (advance d) <= i)%nat as Hle by (destruct (c_le _ _ _ _ Hc) as [|[? _]]; lia);
    cbn [bkwd_block]; wp_step; (eapply wp_block; [done|]); cbv beta.
  1: destruct os2; [|cbn in Hf; lia]. 2: destruct os2 as [|o os2].
  1,2: pose proof (scan_none _ _ _ _ _ _ _ Hs Hbk Hle) as Hnone; rewrite (proj2 (Z.ltb_ge _ _)) by done; apply wp_ret;
    rewrite app_nil_r; split; [by destruct (advance d)|]; split; [exists p; by destruct (advance d)|done].
  destruct (scan_next _ _ _ _ _ _ _ _ _ Hs Hbk Hle) as [-> Hlt]. apply Z.ltb_lt in Hlt as ->.
  wp_step. eapply (bkwd_object_ok i bd0 os1 o os2 p d r); [done..|]. intros s' Hd'. cbv beta iota.
  assert (past blks0 (advance d) o = advance (d ++ [o])) as Epast by (by rewrite advance_app).
  rewrite (past_next d o (os2 ++ r) E) in Epast.
  assert (wp (bkwd_block itbl fuel i (o_end o) (fst (advance (d ++ [o]))) (snd (advance (d ++ [o]))))
    (λ c s', c = advance ((d ++ [o]) ++ os2) ∧ (∃ p', cursor_ok blks0 i p' c) ∧ bkwd_inv ((d ++ [o]) ++ os2) r s') s') as Hrec.
  { apply (IH (os1 ++ [o])); [by rewrite <- app_assoc|by eapply scan_step| |done|done|cbn in Hf; lia].
    rewrite advance_app. cbn. by eapply cursor_step. }
  rewrite <- Epast, <- app_assoc in Hrec. exact Hrec.
Qed.
Lemma behind_post pre os post : bls = pre ++ os :: post → behind (length pre) (concat post).
Proof.
  intros E o a Ho (k & Hk & ->). apply list_elem_of_In, in_concat in Ho as (os' & Hos' & Ho). apply list_elem_of_In in Hos', Ho.
  apply list_elem_of_lookup in Hos' as [n Hn]. assert (bls !! (length pre + S n)%nat = Some os') as Hi by (rewrite E, lookup_app_r by lia; by replace (length pre + S n - length pre)%nat with (S n) by lia).
  assert (∃ bd, blks0 !! (length pre + S n)%nat = Some bd) as [bd Hbd] by (apply lookup_lt_is_Some; rewrite <- h_blocks; by eapply lookup_lt_Some).
  pose proof (obj_in_block _ _ _ _ Hi Hbd Ho) as [H1 H2]. exists (length pre + S n)%nat. split; [|lia]. exists bd. split; [done|]. unfold o_end, W in *. lia.
Qed.
Lemma bkwd_blocks_ok pre post s :
  bls = pre ++ post → cursor_at blks0 (length pre) (advance (concat pre)) → is_Some (blks0 !! fst (advance (concat pre))) → bkwd_inv (concat pre) (concat post) s →
  wp (bkwd_blocks itbl (length post) (length pre) (fst (advance (concat pre))) (snd (advance (concat pre))))
    (λ c s', c = advance all ∧ is_Some (blks0 !! fst c) ∧ bkwd_inv all [] s') s.
Proof.
  revert pre s. induction post as [|os post IH]; intros pre s E Hc Hin Hd; cbn [bkwd_blocks length].
  - apply wp_ret. unfold CompactHeap.all. rewrite E, app_nil_r. split; [by destruct (advance (concat pre))|done].
  - destruct (bls_split _ pre os post E) as (Hos & Hall & Hcat). pose proof Hd as [_ HK].
    destruct (block_exists _ _ _ _ _ (k_blocks _ _ _ HK) Hos) as (bd0 & bd & Hbd0 & Hbd & Hbk).
    wp_step. eapply wp_block; [done|]. cbv beta. wp_step. rewrite (b_start _ _ _ _ _ _ Hbk).
    eapply wp_mono; [eapply (bkwd_block_ok (length pre) bd0 [] os (start bd0) _ (concat pre) (concat post)); [done|by apply scan_start|by apply Hc|by eapply behind_post|done|by eapply objs_length]|].
    intros c s' (-> & (p' & Hc') & Hd'). rewrite Hcat in Hd', Hc'. rewrite Hcat.
    assert (length (pre ++ [os]) = S (length pre)) as Hlen by (rewrite length_app; cbn; lia).
    specialize (IH (pre ++ [os]) s'). rewrite Hlen in IH. destruct (advance (concat (pre ++ [os]))) as [fb to] eqn:Ea. cbn [fst snd] in IH.
    apply IH; [by rewrite <- app_assoc| | |done]; [intros bd' _; by eapply cursor_next|].
    destruct (c_in _ _ _ _ Hc') as (bdc & ? & Hbdc & _). by exists bdc.
Qed.

(** ** The whole pass *)

(** The forward pass leaves what the backward pass needs. *)
Lemma fwd_kept flat ch s a : finv m0 blks0 bls roots all flat ch s → kept flat ch a.
Proof.
  intros HI. unfold kept. assert (seen roots all = fields bls roots) as Eseen by done. destruct (decide (Fld a)) as [HF|HF].
  - assert (a ∈ seen roots all) as Ha by (by rewrite Eseen). exact (fi_now _ _ _ _ _ _ _ _ HI a Ha).
  - apply (fi_later _ _ _ _ _ _ _ _ HI). by rewrite Eseen.
Qed.
Lemma kept_some flat ch a : kept flat ch a → is_Some (m0 !! a) → is_Some (flat !! a).
Proof.
  unfold kept. intros H Hs. destruct (decide (Fld a)); [destruct (target a)|].
  - destruct H as [[_ ->]|[(w & -> & _) _]]; [done|by eexists].
  - by destruct H as [-> _].
  - by destruct H as [-> _].
Qed.
Lemma fwd_bkwd s : fwd_done m0 blks0 bls roots all s → bkwd_inv [] all s.
Proof.
  intros (flat & ch & HI). split.
  - exists flat, ch. split.
    + apply (ti_threaded (fi_tinv _ _ _ _ _ _ _ _ HI)).
    + intros q Hq. destruct (ti_obj (fi_tinv _ _ _ _ _ _ _ _ HI) q Hq) as [i (o & Ho & E & _)%obj_some]. by exists o.
    + apply (fi_order _ _ _ _ _ _ _ _ HI).
    + by intros o k ?%elem_of_nil.
    + intros a _. by eapply fwd_kept.
    + intros bd k Hbd Hk. eapply kept_some; [by eapply fwd_kept|]. by eapply h_mapped.
  - split; [|by intros o ?%elem_of_nil|by intros o o' k k' ?%elem_of_nil|by intros o ?%elem_of_nil]. apply (fi_blocks _ _ _ _ _ _ _ _ HI).
Qed.
(** The memory at the end: the words of every object are at its new place, and
    those outside the blocks are where they were; fields hold new addresses. *)
Record relocated (s : cstate) : Prop := {
  cp_words o k : o ∈ all → 0 <= k < o_size o → ∃ w, words s !! (new (o_addr o) + W k) = Some w ∧ reloc o k w;
  cp_outside a : outside a → is_Some (m0 !! a) → ∃ w, words s !! a = Some w ∧ settled a w
}.
(** The blocks at the end: every object is in a block that was kept, below its
    [free], and overlaps no other. *)
Record packed (s : cstate) : Prop := {
  cp_blocks o : o ∈ all → ∃ bd, old_blocks s !! new_block (o_addr o) = Some bd ∧ start bd <= new (o_addr o) ∧ new (o_addr o) + W (o_size o) <= free bd;
  cp_apart o o' k k' : o ∈ all → o' ∈ all → o ≠ o' → 0 <= k < o_size o → 0 <= k' < o_size o' → new (o_addr o) + W k ≠ new (o_addr o') + W k';
  cp_kept : (length (old_blocks s) <= length blks0)%nat
}.
Lemma bkwd_no_chain s flat ch : minv all [] [] flat ch s → ∀ a, off_chain ch a.
Proof.
  intros HI a. assert (∀ q, ch q = []) as Hn.
  { intros q. destruct (ch q) eqn:E; [done|]. destruct (mi_heads _ _ _ _ _ _ HI q) as (o & Ho & _); [by rewrite E|by apply elem_of_nil in Ho]. }
  split; [done|]. intros q. rewrite Hn. by intros ?%elem_of_nil.
Qed.
Lemma update_bkwd_compact_ok bd0 s :
  blks0 !! O = Some bd0 → fwd_done m0 blks0 bls roots all s →
  wp (update_bkwd_compact itbl) (λ n s', relocated s' ∧ packed s' ∧ n = length (old_blocks s')) s.
Proof.
  intros Hbd Hd. pose proof (fwd_bkwd s Hd) as HB. pose proof HB as [_ HK]. unfold update_bkwd_compact. wp_step. apply wp_get. cbv beta.
  destruct (block_start _ _ _ _ _ (k_blocks _ _ _ HK) Hbd) as (bd & Hb & Hst). wp_step. eapply wp_block; [done|]. cbv beta. wp_step. rewrite Hst.
  assert (length (old_blocks s) = length bls) as -> by (rewrite (proj1 (k_blocks _ _ _ HK)); by rewrite h_blocks).
  eapply wp_mono; [apply (bkwd_blocks_ok [] bls s); [done| |by exists bd0|done]|].
  { intros bd' Hbd'. by apply cursor_start. }
  intros c s1 (-> & [bdl Hbdl] & (flat & ch & HM) & HK1). destruct (advance all) as [fb to] eqn:Ea. cbv beta iota. cbn [fst snd] in *.
  destruct (block_start _ _ _ _ _ (k_blocks _ _ _ HK1) Hbdl) as (bf & Hbf & _). cbn [fst] in Hbf.
  wp_step. eapply wp_upd_block; [done|]. cbv beta. wp_step. apply wp_modify. cbv beta. apply wp_ret.
  pose proof (kinv_free _ _ _ _ HK1 Hbf) as Hfree. cbn [fst snd] in Hfree. pose proof (bkwd_no_chain _ _ _ HM) as Hoff.
  destruct (mi_chains _ _ _ _ _ _ HM) as (tg & HR & _).
  assert (fb < length (old_blocks s1))%nat as Hfb by (by eapply lookup_lt_Some). cbn [old_blocks set_old_blocks].
  rewrite (proj1 (k_blocks _ _ _ HK1)) in Hfb.
  assert (length (firstn (S fb) (<[fb:=set_free to bf]> (old_blocks s1))) = S fb) as Hlen by (rewrite length_firstn, length_insert, (proj1 (k_blocks _ _ _ HK1)); lia).
  split; [|split; [|by rewrite Hlen]]; split; cbn [old_blocks set_old_blocks words].
  - intros o k Ho Hk. rewrite (off_chain_read _ _ _ _ _ HR) by apply Hoff. by apply (mi_done _ _ _ _ _ _ HM).
  - intros a Ha Hs. rewrite (off_chain_read _ _ _ _ _ HR) by apply Hoff. apply (kept_settled flat ch); [|apply Hoff|done]. apply (mi_rest _ _ _ _ _ _ HM). by right.
  - intros o Ho. destruct (Hfree o Ho) as (bd' & Hbd' & Hle). exists bd'. destruct (k_before _ _ _ HK1 o Ho) as [(bd1 & Hbd1 & Hst1 & _) Hlt]. cbn [fst snd] in Hlt.
    rewrite lookup_take_lt by lia. split; [done|]. split; [|done].
    destruct (block_start _ _ _ _ _ (blocks_ok_free _ _ _ _ to (k_blocks _ _ _ HK1) Hbf) Hbd1) as (bd2 & Hbd2 & Hst2).
    cbn [fst] in Hbd2. rewrite Hbd' in Hbd2. injection Hbd2 as <-. rewrite Hst2, (start_of_lookup _ _ _ Hbd1). done.
  - apply HK1.
  - cbn [old_blocks set_old_blocks] in *. rewrite Hlen. lia.
Qed.
End bkwd.
Arguments update_bkwd_compact_ok {_ _ _ _ _ _ _}.
