(* ===== verification/CompactRoots.v ===== *)
(** * The roots

    What [compact] threads before the forward pass: the fields that the roots
    and the objects outside the compacted blocks have. *)
From stdpp Require Import list gmap.
From S2P Require Import Prelude DList ClosureFlags Compact CompactChain CompactThread CompactObj CompactHeap.
Local Open Scope Z_scope.

(** ** The static objects *)
Section statics.
Context (itbl : Z → option StgInfoTable) (m0 : gmap Z Z).
Local Notation word_at := (word_at m0).
(** The static objects from [p] on, and their fields: those of indirections. *)
Fixpoint static_layout (fuel : nat) (p : Z) : option (list Z * list Z) :=
  if p =? END_OF_STATIC_LIST then Some ([], []) else
  match fuel with
  | O => None
  | S fuel =>
    match itbl (word_at p) with
    | None => None
    | Some info =>
      let next a fs :=
        match static_layout fuel (word_at a) with
        | Some (ps, gs) => Some (p :: a :: ps, fs ++ gs)
        | None => None
        end in
      match type info with
      | IND_STATIC => next (p + W 2) [p + W 1]
      | THUNK_STATIC => next (p + W 2) []
      | FUN_STATIC => next (p + W 1) []
      | CONSTR_STATIC => next (p + W (1 + ptrs info + nptrs info)) []
      | _ => None
      end
    end
  end.
Definition root_field (a : Z) : list Z := if negb (word_at a =? 0) then [a] else [].
(** The fields that [thread_roots] threads; [sfs]: those of static objects *)
Definition root_fields (r : roots) (sfs : list Z) : list Z :=
  mark_capabilities r ++ mark_scheduler r ++ root_field (weak_ptr_list r) ++ root_field (old_weak_ptr_list r) ++
  (mut_lists r ≫= λ bd, addrs (fst bd) (Z.to_nat ((snd bd - fst bd) / 8))) ++
  gen_threads r ++ resurrected_threads r :: (incall_tsos r ≫= root_field) ++ sfs ++ stable_ptr_table r ++ mark_CAFs r.
End statics.

Section roots.
Context (itbl : Z → option StgInfoTable) (stg_arg_bitmaps : Z → Z).
Context (obj : Z → option Z) (Fld : Z → Prop) (m0 : gmap Z Z) (in_marked : Z → bool).
Context `{Hstatic : !static_ok obj Fld m0 in_marked}.
Local Notation threads := (threads obj Fld m0 in_marked).
Local Notation readable := (readable obj Fld m0).
Local Notation word_at := (word_at m0).
Local Notation obj_ok := (obj_ok itbl stg_arg_bitmaps obj Fld m0 in_marked).

(** A word that is neither a field nor part of a compacted object *)
Definition plain (a : Z) : Prop := is_Some (m0 !! a) ∧ obj a = None ∧ ¬ Fld a.
Lemma plain_readable a gs : plain a → readable a (word_at a) gs.
Proof. intros (H1 & H2 & H3). apply word_readable; [done|done|by left]. Qed.

Lemma threads_static n p ps fs fuel :
  static_layout itbl m0 n p = Some (ps, fs) → (∀ a, a ∈ ps → plain a) → (length ps ≤ fuel)%nat → threads (thread_static itbl fuel p) fs tt.
Proof.
  revert p ps fs fuel. induction n as [|n IH]; intros p ps fs fuel Hl Hp Hf; cbn [static_layout] in Hl;
    (destruct (p =? END_OF_STATIC_LIST) eqn:Ep; [injection Hl as <- <-; destruct fuel; cbn [thread_static]; rewrite Ep; apply threads_ret|]); [done|].
  destruct (itbl (word_at p)) as [info|] eqn:Ei; [|done]. cbv zeta in Hl.
  assert (∀ a gs, match static_layout itbl m0 n (word_at a) with Some (ps, hs) => Some (p :: a :: ps, gs ++ hs) | None => None end = Some (ps, fs) →
    ∃ fuel' hs, fuel = S fuel' ∧ fs = gs ++ hs ∧ plain p ∧ plain a ∧ threads (thread_static itbl fuel' (word_at a)) hs tt) as Hnext.
  { intros a gs H. destruct (static_layout itbl m0 n (word_at a)) as [[ps' hs]|] eqn:El; [|done]. apply (inj Some), pair_equal_spec in H as [<- <-].
    destruct fuel as [|fuel]; [cbn in Hf; lia|]. exists fuel, hs. split; [done|]. split; [done|].
    split; [apply Hp; by left|]. split; [apply Hp; right; by left|].
    apply (IH _ ps'); [done| |cbn in Hf; lia]. intros b Hb. apply Hp. right. by right. }
  destruct (type info) eqn:Et; try discriminate Hl; apply Hnext in Hl as (fuel' & hs & -> & -> & Hpp & Hpa & Hrec);
    cbn [thread_static]; rewrite Ep; (eapply threads_get_itbl; [by apply plain_readable|done|]); rewrite Et; cbn [app]; try eapply threads_then;
    unfold field; (eapply threads_ld; [by apply plain_readable|exact Hrec]).
Qed.
(** Distinct words of the memory are no more than its size. *)
Lemma threads_static_roots n p ps fs :
  static_layout itbl m0 n p = Some (ps, fs) → (∀ a, a ∈ ps → plain a) → NoDup ps → threads (s ← get; thread_static itbl (size (words s)) p) fs tt.
Proof.
  intros Hl Hp Hnd flat ch s HI Hfr Hndf Hf. wp_step. apply wp_get. cbv beta. eapply threads_static; [done..| |done|done|done|done].
  rewrite <- (size_dom (D := gset Z)). etrans; [|apply (subseteq_size (list_to_set ps : gset Z))]; [by rewrite size_list_to_set|].
  intros a. rewrite elem_of_list_to_set. intros Ha. apply elem_of_dom. destruct (Hp a Ha) as (Hs & Ho & Hn).
  rewrite (ti_read flat ch s a HI Ho); [by rewrite (ti_same HI)|]. intros q Hq. by apply Hn, (ti_fld HI q).
Qed.
Lemma threads_root_field a : is_Some (m0 !! a) → obj a = None → (¬ Fld a ∨ a ∈ root_field m0 a) →
  threads (w ← ld a; when (negb (w =? 0)) (thread a)) (root_field m0 a) tt.
Proof. intros Hs Ho Hn. eapply threads_ld; [by apply word_readable|]. apply threads_when, threads_one. Qed.
Lemma threads_list fs : threads (for_each fs thread) fs tt.
Proof. induction fs as [|f fs IH]; cbn; [apply threads_ret|]. by eapply threads_then. Qed.

(** The variables that may be null, and the static objects, can be read. *)
Record roots_ok (r : roots) (n : nat) (ps sfs : list Z) : Prop := {
  r_static : static_layout itbl m0 n (static_objects r) = Some (ps, sfs);
  r_plain a : a ∈ ps → plain a;
  r_nodup : NoDup ps;
  r_null a : a ∈ weak_ptr_list r :: old_weak_ptr_list r :: incall_tsos r → is_Some (m0 !! a) ∧ obj a = None ∧ (¬ Fld a ∨ a ∈ root_field m0 a)
}.
Lemma threads_roots r n ps sfs : roots_ok r n ps sfs → threads (thread_roots itbl r) (root_fields m0 r sfs) tt.
Proof.
  intros [Hst Hpl Hnd Hnull]. unfold thread_roots, root_fields.
  do 2 (eapply threads_seq; [apply threads_list|]).
  eapply threads_seq; [apply threads_root_field; apply Hnull; by left|].
  eapply threads_seq; [apply threads_root_field; apply Hnull; right; by left|].
  eapply threads_seq; [apply threads_for_each; intros bd _; apply threads_range|].
  eapply threads_seq; [apply threads_list|]. eapply threads_then.
  eapply threads_seq; [apply (threads_for_each _ _ _ _ _ thread_incall); intros a Ha; apply threads_root_field; apply Hnull; right; by right|].
  pose proof (threads_static_roots n (static_objects r) ps sfs Hst Hpl Hnd) as Hs. intros flat ch s HI Hfr Hndf Hf.
  apply wp_assoc. eapply (threads_seq _ _ _ _ _ _ _ _ _ Hs); [|done..]. eapply threads_seq; apply threads_list.
Qed.

(** ** The objects of the other generations *)
Record other_ok (o : object) : Prop := {
  ot_plain : plain (o_addr o);
  ot_aligned : aligned (o_addr o);
  ot_info : LOOKS_LIKE_INFO_PTR itbl (word_at (o_addr o)) = true ∧ itbl (word_at (o_addr o)) = Some (o_info o);
  ot_obj : obj_ok (o_addr o) (o_info o) (o_fields o) (o_size o)
}.
(** The objects fill the words from [p] to [e]. *)
Fixpoint contiguous (p : Z) (os : list object) (e : Z) : Prop :=
  match os with
  | [] => e <= p
  | o :: os => o_addr o = p ∧ p < e ∧ other_ok o ∧ contiguous (o_end o) os e
  end.
Lemma contiguous_length p os e : contiguous p os e → Z.of_nat (length os) <= Z.max 0 (e - p).
Proof.
  revert p. induction os as [|o os IH]; intros p; cbn; [lia|]. intros (<- & Hlt & Ho & H). apply IH in H.
  pose proof (ok_size (ot_obj _ Ho)). unfold o_end, W in *. lia.
Qed.
Lemma threads_update_fwd_block os p e fuel :
  contiguous p os e → (length os ≤ fuel)%nat → threads (update_fwd_block itbl stg_arg_bitmaps fuel p e) (os ≫= o_fields) tt.
Proof.
  revert p fuel. induction os as [|o os IH]; intros p fuel H Hf; cbn in H, Hf.
  - destruct fuel; cbn [update_fwd_block]; rewrite (proj2 (Z.ltb_ge _ _)) by done; apply threads_ret.
  - destruct H as (<- & Hlt & [Hpl Ha [Hlk Hi] Hok] & H). destruct fuel as [|fuel]; [lia|]. cbn [update_fwd_block]. rewrite (proj2 (Z.ltb_lt _ _)) by done.
    eapply (threads_bind _ _ _ _ _ _ []); [unfold LOOKS_LIKE_CLOSURE_PTR; rewrite untag_aligned by done; eapply threads_ld; [by apply plain_readable|apply threads_ret]|].
    apply threads_assert; [done|]. eapply threads_get_itbl; [by apply plain_readable|done|].
    eapply threads_bind; [by apply threads_obj|]. apply IH; [done|lia].
Qed.
(** A block: from its [start] to its [free] *)
Definition block_objs (bd : Z * Z) (os : list object) : Prop := contiguous (fst bd) os (snd bd) ∧ snd bd - fst bd <= BLOCK_SIZE.
Lemma threads_update_fwd bds oss : Forall2 block_objs bds oss → threads (update_fwd itbl stg_arg_bitmaps bds) (oss ≫= λ os, os ≫= o_fields) tt.
Proof.
  intros H. induction H as [|bd os bds oss [Hc Hl] _ IH]; [apply threads_ret|]. unfold update_fwd in *. cbn [for_each mbind list_bind].
  eapply threads_seq; [|exact IH]. eapply threads_update_fwd_block; [done|]. apply contiguous_length in Hc. unfold BLOCK_SIZE in *. lia.
Qed.
(** A large object; nothing is known of those that are pinned. *)
Definition large_type (t : closure_type) : bool :=
  match t with
  | ARR_WORDS | MUT_ARR_PTRS_CLEAN | MUT_ARR_PTRS_DIRTY | MUT_ARR_PTRS_FROZEN | MUT_ARR_PTRS_FROZEN0 | STACK | AP_STACK | PAP | TREC_CHUNK => true
  | _ => false
  end.
Definition large_obj (bd : bool * Z) (o : object) : Prop :=
  if fst bd then o_fields o = [] else snd bd = o_addr o ∧ other_ok o ∧ large_type (type (o_info o)) = true.
Lemma threads_drop {A} (m : prog cstate A) fs r : threads m fs r → threads (_ ← m; mret tt) fs tt.
Proof. intros H. eapply threads_map; [done|apply threads_ret]. Qed.
Lemma threads_large_object bd o : large_obj bd o → threads (update_fwd_large_object itbl stg_arg_bitmaps bd) (o_fields o) tt.
Proof.
  unfold large_obj, update_fwd_large_object. destruct bd as [b p]. cbn [fst snd]. destruct b; [intros ->; apply threads_ret|].
  intros (-> & [Hpl Ha [_ Hi] Hok] & Ht). cbv zeta. eapply threads_get_itbl; [by apply plain_readable|done|].
  pose proof (ok_layout Hok) as Hl. unfold layout in Hl.
  assert (∀ size, (if 0 <=? size then Some (addrs (o_addr o + W sizeofW_StgMutArrPtrs) (Z.to_nat (word_at (o_addr o + W 1))), sizeofW_StgMutArrPtrs + size) else None)
    = Some (o_fields o, o_size o) → threads (thread_MUT_ARR_PTRS (o_addr o)) (o_fields o) tt) as Harr.
  { intros size Hs. destruct (Z.leb_spec 0 size); [|done]. apply (inj Some), pair_equal_spec in Hs as [E1 E2].
    eapply threads_MUT_ARR; [exact Hok|by rewrite E1|]. unfold sizeofW_StgMutArrPtrs in E2. lia. }
  destruct (type (o_info o)) eqn:Et; try discriminate Ht; try (by eapply Harr).
  - eapply threads_drop. by eapply threads_thread_PAP.
  - eapply threads_drop. by eapply threads_thread_AP_STACK.
  - apply (inj Some), pair_equal_spec in Hl as [<- _]. apply threads_ret.
  - by eapply threads_thread_STACK.
  - apply (inj Some), pair_equal_spec in Hl as [E1 E2]. eapply threads_TREC; [done|done|].
    rewrite <- E2. unfold sizeofW_StgTRecChunk, TREC_CHUNK_NUM_ENTRIES, sizeofW_TRecEntry. lia.
Qed.
Lemma threads_update_fwd_large bds os : Forall2 large_obj bds os → threads (update_fwd_large itbl stg_arg_bitmaps bds) (os ≫= o_fields) tt.
Proof.
  intros H. induction H as [|bd o bds os Ho _ IH]; [apply threads_ret|]. unfold update_fwd_large in *. cbn [for_each mbind list_bind].
  eapply threads_seq; [|exact IH]. by apply threads_large_object.
Qed.
(** The generations, each with the objects of its blocks and its large ones *)
Definition gen_objs : Type := list (list object) * list object.
Definition gen_ok (g : generation) (go : gen_objs) : Prop :=
  Forall2 block_objs (gen_blocks g) (fst go) ∧ Forall2 large_obj (scavenged_large_objects g) (snd go).
Definition gen_fields (go : gen_objs) : list Z := (fst go ≫= λ os, os ≫= o_fields) ++ (snd go ≫= o_fields).
Lemma threads_gens gens gos : Forall2 gen_ok gens gos →
  threads (for_each gens (λ gen, update_fwd itbl stg_arg_bitmaps (gen_blocks gen);; update_fwd_large itbl stg_arg_bitmaps (scavenged_large_objects gen)))
    (gos ≫= gen_fields) tt.
Proof.
  intros H. induction H as [|g go gens gos [Hb Hl] _ IH]; [apply threads_ret|]. cbn [for_each mbind list_bind].
  eapply threads_seq; [|exact IH]. unfold gen_fields. eapply threads_seq; [by apply threads_update_fwd|by apply threads_update_fwd_large].
Qed.
End roots.
Arguments threads_roots {_ _ _ _ _ _}.
Arguments threads_gens {_ _ _ _ _ _ _}.
