(* ===== verification/CompactCheck.v ===== *)
(** * Checking that a heap can be compacted

    [heap_checked] and [roots_checked] are decidable forms of the hypotheses of
    the theorems on the compacting collector; concrete heaps are checked by
    evaluation. *)
From Stdlib Require Import Sorted.
From stdpp Require Import list gmap.
From S2P Require Import Prelude DList ClosureFlags Compact CompactChain CompactThread CompactObj CompactMarks CompactHeap CompactRoots.
Local Open Scope Z_scope.

Section checked.
Context (itbl : Z → option StgInfoTable) (stg_arg_bitmaps : Z → Z).
Context (m0 : gmap Z Z) (blks0 : list bdescr) (bls : list (list object)) (roots : list Z).
Local Notation obj := (obj bls).
Local Notation Fld := (Fld bls roots).
Local Notation in_marked := (in_marked blks0).

Definition field_checked (f : Z) : Prop :=
  Fld f ∧ 0 <= default (-1) (m0 !! f) ∧
  let p := UNTAG_CLOSURE (default 0 (m0 !! f)) in (is_Some (obj p) ∨ in_marked p = false) ∧ ¬ Fld p.
Definition obj_checked (o : object) : Prop :=
  layout itbl stg_arg_bitmaps m0 (o_info o) (o_addr o) = Some (o_fields o, o_size o) ∧ 2 <= o_size o ∧
  Forall (λ k, 0 <= default (-1) (m0 !! (o_addr o + W k)) ∧ obj (o_addr o + W k) = None ∧
               (¬ Fld (o_addr o + W k) ∨ o_addr o + W k ∈ o_fields o)) (seqZ 1 (o_size o - 1)) ∧
  Forall field_checked (o_fields o) ∧
  Forall (λ f, f ∈ (λ k, o_addr o + W k) <$> seqZ 1 (o_size o - 1)) (o_fields o) ∧ NoDup (o_fields o) ∧
  0 <= ptrs (o_info o) ∧ 0 <= nptrs (o_info o).
Definition header_checked (o : object) : Prop :=
  m0 !! o_addr o = Some (o_ip o) ∧ o_ip o mod 8 = 0 ∧ LOOKS_LIKE_INFO_PTR itbl (o_ip o) = true.
Definition block_checked (bd : bdescr) (os : list object) : Prop :=
  (length (bitmap bd) = 8%nat ∧ start bd mod 8 = 0 ∧ free bd <= start bd + BLOCK_SIZE) ∧
  Forall (λ k, 0 <= default (-1) (m0 !! (start bd + W k)) ∧
               (bit_at k (bitmap bd) = true ↔ start bd + W k ∈ o_addr <$> os)) (seqZ 0 (BLOCK_SIZE / 8)) ∧
  Forall (λ o, bd_marked bd = true ∧ start bd <= o_addr o ∧ (o_addr o - start bd) mod 8 = 0 ∧ o_end o <= free bd) os.
(** In the list, every end is at or below the next start. *)
Fixpoint ordered (p : Z) (os : list object) : Prop :=
  match os with [] => True | o :: os => p <= o_addr o ∧ o_addr o <= o_end o ∧ ordered (o_end o) os end.
Definition heap_checked : Prop :=
  Forall2 block_checked blks0 bls ∧
  Forall (λ ij, ij.1 = ij.2 ∨
    match blks0 !! ij.1, blks0 !! ij.2 with
    | Some bd, Some bd' => start bd + BLOCK_SIZE <= start bd' ∨ start bd' + BLOCK_SIZE <= start bd
    | _, _ => False
    end) (list_prod (seq 0 (length blks0)) (seq 0 (length blks0))) ∧
  Forall (λ os, ordered 0 os) bls ∧
  Forall (λ o, header_checked o ∧ itbl (o_ip o) = Some (o_info o) ∧ obj_checked o) (all bls) ∧
  NoDup (fields bls roots) ∧ NoDup (o_addr <$> all bls) ∧
  Forall (λ f, obj f = None ∧ f mod 8 = 0) (fields bls roots) ∧
  Forall (λ f, field_checked f ∧ Forall (λ bd, in_block f bd = false) blks0) roots.

Lemma default_some (o : option Z) : 0 <= default (-1) o → ∃ v, o = Some v ∧ 0 <= v.
Proof. destruct o as [v|]; cbn; [by exists v|lia]. Qed.
Lemma field_checked_ok f : field_checked f → field_ok obj Fld m0 in_marked f.
Proof.
  intros (HF & (v & Hv & _)%default_some & H). rewrite Hv in H. cbn in H. split; [done|]. exists v. split; [done|]. exact H.
Qed.
Lemma obj_checked_ok o : obj_checked o → obj_ok itbl stg_arg_bitmaps obj Fld m0 in_marked (o_addr o) (o_info o) (o_fields o) (o_size o).
Proof.
  intros (H1 & H2 & H3 & H4 & H5 & H6 & H7 & H8). rewrite Forall_forall in H3; rewrite Forall_forall in H4; rewrite Forall_forall in H5. split; try done.
  - intros k Hk. destruct (H3 k) as (Hv%default_some & Ho & _); [apply elem_of_seqZ; lia|]. done.
  - intros k Hk HF. destruct (H3 k) as (_ & _ & [?|?]); [apply elem_of_seqZ; lia|done..].
  - intros f Hf. by apply field_checked_ok, H4.
  - intros f Hf. apply H5 in Hf as (k & -> & Hk%elem_of_seqZ)%list_elem_of_fmap. exists k. split; [lia|done].
Qed.
Lemma ordered_sorted p os : ordered p os → StronglySorted (λ o o', o_end o <= o_addr o') os ∧ ∀ o, o ∈ os → p <= o_addr o.
Proof.
  revert p. induction os as [|o os IH]; intros p; cbn; [intros _; split; [constructor|by intros ? ?%elem_of_nil]|].
  intros (H1 & H2 & [IH1 IH2]%IH). split; [constructor; [done|]; by apply Forall_forall|].
  intros o' [->|Ho]%elem_of_cons; [done|]. apply IH2 in Ho. lia.
Qed.
Lemma heap_checked_ok : heap_checked → heap_ok itbl stg_arg_bitmaps m0 blks0 bls roots.
Proof.
  intros (Hb & Hd & Hs & Ho & Hnf & Hna & Hf & Hr). rewrite Forall_forall in Hd; rewrite Forall_forall in Hs; rewrite Forall_forall in Ho; rewrite Forall_forall in Hf; rewrite Forall_forall in Hr. split; try done.
  - symmetry. by eapply Forall2_length.
  - intros bd Hbd. apply list_elem_of_lookup in Hbd as [i Hi]. destruct (Forall2_lookup_l _ _ _ _ _ Hb Hi) as (os & _ & (H & _)). exact H.
  - intros i j bd bd' Hi Hj Hne. destruct (Hd (i, j)) as [E|E]; [| |cbn in E; by rewrite Hi, Hj in E]; [|done].
    apply list_elem_of_In, in_prod; apply in_seq; [apply lookup_lt_Some in Hi|apply lookup_lt_Some in Hj]; lia.
  - intros bd k Hbd Hk. apply list_elem_of_lookup in Hbd as [i Hi]. destruct (Forall2_lookup_l _ _ _ _ _ Hb Hi) as (os & _ & (_ & H & _)).
    rewrite Forall_forall in H. destruct (H k) as [(v & -> & _)%default_some _]; [apply elem_of_seqZ; lia|]. by eexists.
  - intros i bd os k Hi Hos Hk. destruct (Forall2_lookup_lr _ _ _ _ _ _ Hb Hi Hos) as (_ & H & _). rewrite Forall_forall in H.
    destruct (H k) as [_ ->]; [apply elem_of_seqZ; lia|]. rewrite list_elem_of_fmap. naive_solver.
  - intros i bd os o Hi Hos Hin. destruct (Forall2_lookup_lr _ _ _ _ _ _ Hb Hi Hos) as (_ & _ & H). rewrite Forall_forall in H.
    destruct (H o Hin) as (H1 & H2 & H3 & H4). split; [done|]. split; [|done]. exists ((o_addr o - start bd) / 8).
    pose proof (Z.div_mod (o_addr o - start bd) 8). pose proof (Z.div_pos (o_addr o - start bd) 8). unfold W. lia.
  - intros os Hos. eapply ordered_sorted. by apply Hs.
  - intros o Hin. destruct (Ho o Hin) as ((H1 & H2 & H3) & H4 & _). done.
  - intros o Hin. destruct (Ho o Hin) as (_ & _ & H). by apply obj_checked_ok.
  - intros f Hin. destruct (Hr f Hin) as [H1 H2]. rewrite Forall_forall in H2. split; [by apply field_checked_ok|done].
Qed.

(** ** The roots and the objects that stay *)
Definition plain_checked (a : Z) : Prop := 0 <= default (-1) (m0 !! a) ∧ obj a = None ∧ ¬ Fld a.
Definition other_checked (o : object) : Prop :=
  plain_checked (o_addr o) ∧ o_addr o mod 8 = 0 ∧
  (LOOKS_LIKE_INFO_PTR itbl (word_at m0 (o_addr o)) = true ∧ itbl (word_at m0 (o_addr o)) = Some (o_info o)) ∧ obj_checked o.
Fixpoint contiguous_checked (p : Z) (os : list object) (e : Z) : Prop :=
  match os with
  | [] => e <= p
  | o :: os => o_addr o = p ∧ p < e ∧ other_checked o ∧ contiguous_checked (o_end o) os e
  end.
Definition block_objs_checked (bd : Z * Z) (os : list object) : Prop :=
  contiguous_checked (fst bd) os (snd bd) ∧ snd bd - fst bd <= BLOCK_SIZE.
Definition large_checked (bd : bool * Z) (o : object) : Prop :=
  (fst bd = true ∧ o_fields o = []) ∨ (fst bd = false ∧ snd bd = o_addr o ∧ other_checked o ∧ large_type (type (o_info o)) = true).
Definition gen_checked (g : generation) (go : gen_objs) : Prop :=
  Forall2 block_objs_checked (gen_blocks g) (fst go) ∧ Forall2 large_checked (scavenged_large_objects g) (snd go).
Definition roots_checked (r : Compact.roots) (n : nat) (ps sfs : list Z) : Prop :=
  static_layout itbl m0 n (static_objects r) = Some (ps, sfs) ∧ Forall plain_checked ps ∧ NoDup ps ∧
  Forall (λ a, 0 <= default (-1) (m0 !! a) ∧ obj a = None ∧ (¬ Fld a ∨ a ∈ root_field m0 a)) (weak_ptr_list r :: old_weak_ptr_list r :: incall_tsos r).
Lemma plain_checked_ok a : plain_checked a → plain obj Fld m0 a.
Proof. intros ((v & Hv & _)%default_some & H). split; [by exists v|done]. Qed.
Lemma other_checked_ok o : other_checked o → other_ok itbl stg_arg_bitmaps obj Fld m0 in_marked o.
Proof. intros (H1 & H2 & H3 & H4). split; [by apply plain_checked_ok|done|done|by apply obj_checked_ok]. Qed.
Lemma contiguous_checked_ok p os e : contiguous_checked p os e → contiguous itbl stg_arg_bitmaps obj Fld m0 in_marked p os e.
Proof.
  revert p. induction os as [|o os IH]; intros p; cbn; [done|]. intros (H1 & H2 & H3 & H4).
  split_and!; [done|done|by apply other_checked_ok|by apply IH].
Qed.
Lemma gens_checked_ok gens gos : Forall2 gen_checked gens gos → Forall2 (gen_ok itbl stg_arg_bitmaps obj Fld m0 in_marked) gens gos.
Proof.
  intros H. eapply Forall2_impl; [exact H|]. intros g go [Hb Hl]. split; (eapply Forall2_impl; [done|]).
  - intros bd os [H1 H2]. split; [by apply contiguous_checked_ok|done].
  - intros [b p] o Hlo. unfold large_obj, large_checked in *. cbn [fst snd] in *. destruct Hlo as [[-> E]|(-> & E & Ho & Ht)]; [done|].
    split_and!; [done|by apply other_checked_ok|done].
Qed.
Lemma roots_checked_ok r n ps sfs : roots_checked r n ps sfs → roots_ok itbl obj Fld m0 r n ps sfs.
Proof.
  intros (H1 & H2 & H3 & H4). rewrite Forall_forall in H2; rewrite Forall_forall in H4. split; [done| |done|].
  - intros a Ha. by apply plain_checked_ok, H2.
  - intros a Ha. destruct (H4 a Ha) as ((v & -> & _)%default_some & H). split; [by eexists|done].
Qed.
End checked.

(** ** Deciding the conditions *)
#[global] Instance fun_type_eq_dec : EqDecision fun_type.
Proof. solve_decision. Defined.
#[global] Instance StgInfoTable_eq_dec : EqDecision StgInfoTable.
Proof. solve_decision. Defined.
#[global] Instance heap_checked_dec itbl sab m0 blks bls rs : Decision (heap_checked itbl sab m0 blks bls rs).
Proof.
  assert (∀ p os, Decision (ordered p os)) by (intros p os; revert p; induction os; cbn; apply _).
  unfold heap_checked, block_checked, header_checked, obj_checked, field_checked. cbv zeta.
  assert (∀ ij : nat * nat, Decision (match blks !! ij.1, blks !! ij.2 with
    | Some bd, Some bd' => start bd + BLOCK_SIZE <= start bd' ∨ start bd' + BLOCK_SIZE <= start bd | _, _ => False end)).
  { intros ij. destruct (blks !! ij.1), (blks !! ij.2); apply _. }
  apply _.
Defined.
#[global] Instance roots_checked_dec itbl m0 bls rs r n ps sfs : Decision (roots_checked itbl m0 bls rs r n ps sfs).
Proof. unfold roots_checked, plain_checked. apply _. Defined.
#[global] Instance gens_checked_dec itbl sab m0 blks bls rs gens gos : Decision (Forall2 (gen_checked itbl sab m0 blks bls rs) gens gos).
Proof.
  assert (∀ o, Decision (other_checked itbl sab m0 blks bls rs o)).
  { intros o. unfold other_checked, plain_checked, obj_checked, field_checked. cbv zeta. apply _. }
  assert (∀ p os e, Decision (contiguous_checked itbl sab m0 blks bls rs p os e)) by (intros p os; revert p; induction os; cbn; apply _).
  assert (∀ g go, Decision (gen_checked itbl sab m0 blks bls rs g go)) by (intros g go; unfold gen_checked, block_objs_checked, large_checked; apply _).
  apply _.
Defined.
