(* ===== verification/CompactDemo.v ===== *)
(** * A heap that is compacted

    Two blocks with four live objects: a cyclic constructor, a stack, an array
    of bytes and a constructor; the array moves to the first block, and the last
    constructor, for which there is no room, to the start of the second. *)
From stdpp Require Import list gmap.
From S2P Require Import Prelude DList ClosureFlags Compact CompactChain CompactThread CompactObj CompactHeap CompactRoots CompactCheck.
Local Open Scope Z_scope.

Module CDemo.
Definition table (t : closure_type) (p np bm : Z) : StgInfoTable := mkInfo t p np bm (0, []) ARG_GEN 0 (0, []).
Definition itbl (ip : Z) : option StgInfoTable :=
  if ip =? 800 then Some (table CONSTR_2_0 2 0 0) else
  if ip =? 808 then Some (table ARR_WORDS 0 0 0) else
  if ip =? 816 then Some (table CONSTR_1_0 1 0 0) else
  if ip =? 824 then Some (table STACK 0 0 0) else
  if ip =? 832 then Some (table RET_SMALL 0 0 1) else
  if ip =? 840 then Some (table IND_STATIC 0 0 0) else
  if ip =? 848 then Some (table MUT_ARR_PTRS_CLEAN 0 0 0) else
  if ip =? 856 then Some (table CONSTR_NOCAF_STATIC 0 0 0) else None.
Definition arg_bitmaps (n : Z) : Z := 0.
Definition b0 : Z := 65536.
Definition b1 : Z := 81920.
Definition a_addr : Z := b0 + 16.
Definition s_addr : Z := b0 + 64.
Definition w_addr : Z := b1 + 8.
Definition c_addr : Z := b1 + 4080.
Definition object_at (p ip : Z) (fs : list Z) (n : Z) : object := mkObj p ip (default (table INVALID_OBJECT 0 0 0) (itbl ip)) fs n.
Definition cell : object := object_at a_addr 800 [a_addr + 8; a_addr + 16] 3.
Definition stack : object := object_at s_addr 824 [s_addr + 32] 5.
Definition bytes : object := object_at w_addr 808 [] 504.
Definition box : object := object_at c_addr 816 [c_addr + 8] 2.
Definition blocks : list bdescr :=
  [mkBd b0 (b0 + 104) true [260; 0; 0; 0; 0; 0; 0; 0]; mkBd b1 (b1 + 4096) true [2; 0; 0; 0; 0; 0; 0; 2 ^ 62]].
Definition bls : list (list object) := [[cell; stack]; [bytes; box]].
Definition rs : Compact.roots := mkRoots [1000] [] 1008 1016 [(1040, 1048)] [1032] 1024 [1064] 2000 [1056] [].
Definition other : object := object_at 3000 816 [3008] 2.
Definition array : object := object_at 4000 848 [4024] 5.
Definition pinned : object := object_at 6000 808 [] 2.
Definition gens : list generation := [mkGen [(3000, 3016)] [(false, 4000); (true, 6000)]; mkGen [] []].
Definition gos : list gen_objs := [([[other]], [array; pinned]); ([], [])].
Definition memory : gmap Z Z := list_to_map (
  [(a_addr, 800); (a_addr + 8, c_addr + 1); (a_addr + 16, a_addr + 2);
   (s_addr, 824); (s_addr + 8, 2); (s_addr + 16, s_addr + 24); (s_addr + 24, 832); (s_addr + 32, a_addr + 2);
   (w_addr, 808); (w_addr + 8, 4016);
   (c_addr, 816); (c_addr + 8, a_addr + 2);
   (1000, w_addr); (1008, 0); (1016, 0); (1024, 5000); (1032, 5000); (1040, 3000); (1056, s_addr); (1064, 0);
   (2000, 840); (2008, c_addr + 1); (2016, END_OF_STATIC_LIST);
   (3000, 816); (3008, s_addr); (4000, 848); (4008, 1); (4016, 2); (4024, c_addr + 1); (4032, 0); (5000, 856)]
  ++ ((λ k, (b0 + 8 * k, 0)) <$> seqZ 0 512) ++ ((λ k, (b1 + 8 * k, 0)) <$> seqZ 0 512)).
Definition heap : cstate := mkC memory blocks.
End CDemo.
