(* ===== verification/CompactMain.v ===== *)
(** * Properties of the compacting collector *)
From Stdlib Require Import Sorted.
From stdpp Require Import list gmap.
From S2P Require Import Prelude DList ClosureFlags Compact CompactChain CompactThread CompactObj CompactMarks CompactHeap CompactPlace CompactFwd CompactBkwd CompactRoots CompactCheck CompactDemo.
Local Open Scope Z_scope.

Section main.
Context (itbl : Z → option StgInfoTable) (stg_arg_bitmaps : Z → Z).
Context (bls : list (list object)) (r : roots) (gens : list generation) (gos : list gen_objs) (n : nat) (ps sfs : list Z).

(** All fields outside the compacted blocks, in the order in which they are
    threaded *)
Definition all_roots (m0 : gmap Z Z) : list Z := root_fields m0 r sfs ++ (gos ≫= gen_fields).
(** A heap that can be compacted: [bls] are the live objects of each block of
    the oldest generation, [gos] the objects of all generations that stay, [ps]
    the static objects. *)
Record collectable (s : cstate) : Prop := {
  co_heap : heap_ok itbl stg_arg_bitmaps (words s) (old_blocks s) bls (all_roots (words s));
  co_roots : roots_ok itbl (obj bls) (Fld bls (all_roots (words s))) (words s) r n ps sfs;
  co_gens : Forall2 (gen_ok itbl stg_arg_bitmaps (obj bls) (Fld bls (all_roots (words s))) (words s) (in_marked (old_blocks s))) gens gos
}.

Lemma start_tinv s : tinv (obj bls) (Fld bls (all_roots (words s))) (words s) (in_marked (old_blocks s)) (words s) (λ _, []) s.
Proof.
  split; try done.
  - exists (λ _, 0). split; [apply threaded_refl|done].
  - by intros q f ?%elem_of_nil.
Qed.
Lemma start_finv s s1 : collectable s →
  tinv (obj bls) (Fld bls (all_roots (words s))) (words s) (in_marked (old_blocks s)) (words s) (chain_on (obj bls) (words s) (all_roots (words s)) (λ _, [])) s1 →
  old_blocks s1 = old_blocks s →
  finv (words s) (old_blocks s) bls (all_roots (words s)) [] (words s) (chain_on (obj bls) (words s) (all_roots (words s)) (λ _, [])) s1.
Proof.
  intros [Hh _ _] HT Hb. assert (seen (all_roots (words s)) [] = all_roots (words s)) as Hseen by (unfold seen; cbn; by rewrite app_nil_r).
  split; rewrite ?Hseen.
  - done.
  - rewrite Hb. split; [done|]. intros i bd0 os Hbd Hos. exists bd0. split; [done|].
    destruct (h_bitmaps bd0) as (Hbm & _); [by eapply list_elem_of_lookup_2|]. split; try done.
    intros k Hk. rewrite (h_marks i bd0 os k Hbd Hos Hk). split.
    + intros (o & Ho & E). exists o. split; [done|]. by left.
    + intros (o & Ho & [E|[[Hs _] _]]); [by exists o|]. by apply elem_of_nil in Hs.
  - intros f Hf. split; [done|]. intros q [?%elem_of_nil|[? _]]%elem_of_chain_on; done.
  - intros f Hf. destruct (target _ _ f) as [q|] eqn:Et.
    + left. split; [|done]. apply elem_of_chain_on. by right.
    + split; [done|]. intros q [?%elem_of_nil|[_ ?]]%elem_of_chain_on; [done|congruence].
  - intros f q [?%elem_of_nil|[_ ?]]%elem_of_chain_on; done.
  - intros d1 o d2 E. by destruct d1.
Qed.
(** The roots and the objects that stay *)
Lemma threads_all_roots s Q : collectable s →
  (∀ s1, finv (words s) (old_blocks s) bls (all_roots (words s)) [] (words s) (chain_on (obj bls) (words s) (all_roots (words s)) (λ _, [])) s1 →
     old_blocks s1 = old_blocks s → Q tt s1) →
  wp (thread_roots itbl r;;
      for_each gens (λ gen, update_fwd itbl stg_arg_bitmaps (gen_blocks gen);; update_fwd_large itbl stg_arg_bitmaps (scavenged_large_objects gen))) Q s.
Proof.
  intros HC HQ. pose proof HC as [Hh Hr Hg].
  assert (threads (obj bls) (Fld bls (all_roots (words s))) (words s) (in_marked (old_blocks s))
    (thread_roots itbl r;;
     for_each gens (λ gen, update_fwd itbl stg_arg_bitmaps (gen_blocks gen);; update_fwd_large itbl stg_arg_bitmaps (scavenged_large_objects gen)))
    (all_roots (words s)) tt) as Ht.
  { eapply threads_seq; [exact (threads_roots _ _ _ _ Hr)|exact (threads_gens _ _ Hg)]. }
  eapply wp_mono; [apply (Ht (words s) (λ _, []) s)|].
  - apply start_tinv.
  - intros f q _. apply not_elem_of_nil.
  - pose proof h_nodup as Hnd. unfold fields in Hnd. by apply NoDup_app in Hnd as (Hnd & _).
  - intros f Hf. split; [by apply h_roots|done].
  - intros [] s1 (_ & HT & Hb). apply HQ; [by apply start_finv|done].
Qed.

(** Nothing to compact *)
Lemma compact_empty s s1 : collectable s → old_blocks s = [] →
  finv (words s) (old_blocks s) bls (all_roots (words s)) [] (words s) (chain_on (obj bls) (words s) (all_roots (words s)) (λ _, [])) s1 →
  relocated (words s) (old_blocks s) bls (all_roots (words s)) s1 ∧ (old_blocks s1 = [] → packed (old_blocks s) bls s1).
Proof.
  intros [Hh _ _] Hb HI. assert (bls = []) as Hbls by (apply length_zero_iff_nil; rewrite h_blocks; by rewrite Hb).
  assert (∀ q, obj bls q = None) as Hno by (intros q; by rewrite Hbls).
  assert (∀ o, o ∉ all bls) as Hall by (intros o; unfold all; rewrite Hbls; apply not_elem_of_nil).
  assert (∀ a, off_chain (chain_on (obj bls) (words s) (all_roots (words s)) (λ _, [])) a) as Hoff.
  { assert (∀ q, chain_on (obj bls) (words s) (all_roots (words s)) (λ _, []) q = []) as H0.
    { intros q. destruct (chain_on _ _ _ _ q) eqn:E; [done|]. destruct (ti_obj (fi_tinv _ _ _ _ _ _ _ _ HI) q) as [i Hi]; [by rewrite E|]. by rewrite Hno in Hi. }
    intros a. split; [done|]. intros q. rewrite H0. apply not_elem_of_nil. }
  destruct (ti_threaded (fi_tinv _ _ _ _ _ _ _ _ HI)) as (tg & HR & _). split; [split|intros Hb1; split].
  - by intros o k ?%Hall.
  - intros a _ [w Hw]. exists w. rewrite (off_chain_read _ _ _ _ _ HR) by apply Hoff. split; [done|]. unfold settled. rewrite decide_False; [done|].
    intros [_ [q Hq]]. unfold target in Hq. rewrite Hw, Hno in Hq. done.
  - by intros o ?%Hall.
  - by intros o o' k k' ?%Hall.
  - by rewrite Hb1, Hb.
Qed.
Lemma compact_ok s :
  collectable s → wp (compact itbl stg_arg_bitmaps r gens)
    (λ _ s', relocated (words s) (old_blocks s) bls (all_roots (words s)) s' ∧ packed (old_blocks s) bls s') s.
Proof.
  intros HC. unfold compact. apply wp_assoc, wp_bind. apply threads_all_roots; [done|]. intros s1 HI Hb. wp_step. apply wp_get. cbv beta.
  rewrite Hb. destruct (old_blocks s) as [|bd blks] eqn:E; cbn [when].
  - apply wp_ret. rewrite <- E. destruct (compact_empty s s1) as [H1 H2]; [done|done|by rewrite E|]. split; [done|]. apply H2. by rewrite Hb.
  - destruct HC as [Hh _ _]. rewrite E in Hh. wp_step. eapply wp_mono; [by apply (update_fwd_compact_ok bd (words s))|].
    intros x s2 Hd. wp_step. eapply wp_mono; [by apply (update_bkwd_compact_ok bd)|]. intros k s3 (H1 & H2 & _). by apply wp_ret.
Qed.

(** C2: [compact] relocates the heap.  It terminates without a failed
    assertion; afterwards every word of every live object of the compacted
    generation is at the object's new place.  A field that points to such an
    object points to the object's new place, with the tag of some pointer to
    it (or, in a field of the object itself, possibly without a tag); all other
    words are as before, but the stack pointer of a stack, which moves along.
    The words of everything that is not compacted - roots, static objects, the
    other generations - are as before, except that their fields point to the
    new places too. *)
Theorem compact_relocates s :
  collectable s → wp (compact itbl stg_arg_bitmaps r gens) (λ _ s', relocated (words s) (old_blocks s) bls (all_roots (words s)) s') s.
Proof. intros HC. eapply wp_mono; [by apply compact_ok|]. by intros _ s' [H _]. Qed.

(** C10: [compact] packs the heap.  Afterwards every live object lies in a
    block that was kept, between its [start] and its new [free]; no two objects
    overlap; and there are no more blocks than before. *)
Theorem compact_packs s :
  collectable s → wp (compact itbl stg_arg_bitmaps r gens) (λ _ s', packed (old_blocks s) bls s') s.
Proof. intros HC. eapply wp_mono; [by apply compact_ok|]. by intros _ s' [_ H]. Qed.

(** C12: the two ways in which the passes find the end of an object agree, for
    every type of object: [closure_sizeW_], which the backward pass uses,
    computes the number of words after which [thread_obj] of the forward pass
    says that the object ends. *)
Theorem thread_obj_closure_size s o :
  collectable s → o ∈ all bls →
  wp (size ← closure_sizeW_ (o_addr o) (o_info o); p ← thread_obj itbl stg_arg_bitmaps (o_info o) (o_addr o); mret (size, p))
    (λ '(size, p) _, size = o_size o ∧ p = o_addr o + W size) s.
Proof.
  intros [Hh _ _] Ho. pose proof (h_obj_ok o Ho) as Hok. wp_step.
  eapply (closure_sizeW_ok _ _ _ _ _ _ Hok); [by intros k Hk _|]. cbv beta. wp_step.
  eapply wp_mono; [apply (threads_obj _ _ _ _ Hok (words s) (λ _, []) s); [apply start_tinv|by intros f q _; apply not_elem_of_nil|apply Hok|]|].
  - intros f Hf. split; [by apply Hok|done].
  - intros p s' (-> & _). by apply wp_ret.
Qed.
End main.

(** ** One chain *)
Section one_chain.
Context (itbl : Z → option StgInfoTable).
(** A field that points to the object at [q] *)
Definition points_to (m : gmap Z Z) (q f : Z) : Prop := f ≠ q ∧ aligned f ∧ ∃ t, 0 <= t < 8 ∧ m !! f = Some (q + t).
Lemma thread_list_ok tg l q i flat fs s :
  threaded tg (updc (λ _, []) q l) flat (words s) → flat !! q = Some i → aligned i → aligned q → marked_block q s = true →
  NoDup fs → (∀ f, f ∈ fs → (f ∉ l) ∧ points_to flat q f) → q ∉ l → l ≠ [] →
  wp (for_each fs thread) (λ _ s', threaded tg (updc (λ _, []) q (rev fs ++ l)) flat (words s') ∧ old_blocks s' = old_blocks s) s.
Proof.
  revert l s. induction fs as [|f fs IH]; intros l s HR Hi Hai Haq Hm Hnd Hf Hql Hl; cbn [for_each rev].
  - by apply wp_ret.
  - apply NoDup_cons in Hnd as [Hn Hnd]. destruct (Hf f) as (Hfl & Hne & Haf & t & Ht & Hft); [by left|].
    assert (∀ a q', (a ∈ updc (λ _, []) q l q') ↔ q' = q ∧ a ∈ l) as Hin.
    { intros a q'. unfold updc. destruct (decide (q' = q)); [naive_solver|]. split; [by intros ?%elem_of_nil|naive_solver]. }
    wp_step. eapply wp_mono; [eapply (thread_hit tg _ flat s f q i t HR); [|done]|].
    + split; try done; [intros q' [_ ?]%Hin; done|by rewrite updc_ne|intros q' [_ ?]%Hin; done].
    + intros [] s' [HR' Hb']. rewrite updc_eq in HR'.
      assert (threaded tg (updc (λ _, []) q (f :: l)) flat (words s')) as HR''.
      { assert (push_tag tg (updc (λ _, []) q l) q t = tg) as <- by (unfold push_tag; rewrite updc_eq; by destruct l).
        eapply threaded_ext; [|exact HR']. intros q'. unfold updc. by destruct (decide (q' = q)). }
      rewrite <- Hb'. rewrite <- app_assoc. apply IH; try done.
      * unfold marked_block. by rewrite Hb'.
      * intros g Hg. destruct (Hf g) as [Hgl Hgp]; [by right|]. split; [|done]. intros [->|?]%elem_of_cons; done.
      * intros [->|?]%elem_of_cons; done.
Qed.

(** C11: threading and unthreading.  The fields [f0], [fs] that point to an
    object, with any tags, are threaded onto it; then [get_threaded_info] finds
    the object's info word, with the tag of [f0], and [unthread] restores the
    info word and sets exactly these fields to the address that is given. *)
Theorem thread_unthread_roundtrip s q i to f0 t0 fs :
  words s !! q = Some i → aligned i → aligned q → LOOKS_LIKE_INFO_PTR itbl i = true → marked_block q s = true →
  NoDup (f0 :: fs) → (∀ f, f ∈ f0 :: fs → points_to (words s) q f) → words s !! f0 = Some (q + t0) → 0 <= t0 < 8 →
  wp (for_each (f0 :: fs) thread;; ip ← get_threaded_info itbl q; unthread q (to + GET_CLOSURE_TAG ip);; mret ip)
    (λ ip s', ip = i + t0 ∧ words s' = set_all (f0 :: fs) (to + t0) (words s) ∧ old_blocks s' = old_blocks s) s.
Proof.
  intros Hi Hai Haq Hlk Hm Hnd Hf Ht0 Ht. apply NoDup_cons in Hnd as [Hn Hnd].
  assert (∀ f, f ∈ f0 :: fs → f ≠ q) as Hne by (intros f H; by apply Hf).
  wp_step. cbn [for_each]. wp_step. eapply wp_mono; [eapply (thread_hit (λ _, 0) (λ _, []) (words s) s f0 q i t0 (threaded_refl _ _)); [|done]|].
  { split; try done; [split_and!; [done|done|by apply Hf; left]|by intros ? ?%elem_of_nil|by intros ? ?%elem_of_nil|by apply Hne; left]. }
  intros [] s1 [HR1 Hb1]. assert (push_tag (λ _, 0) (λ _, []) q t0 q = t0) as Etag by (unfold push_tag; by rewrite decide_True).
  set (tg := push_tag _ _ _ _) in *. clearbody tg.
  eapply wp_mono; [apply (thread_list_ok tg [f0] q i (words s) fs s1 HR1 Hi Hai Haq)|].
  { unfold marked_block. by rewrite Hb1. }
  { done. }
  { intros f H. split; [intros ->%list_elem_of_singleton; done|]. apply Hf. by right. }
  { intros ->%list_elem_of_singleton. by apply (Hne f0); [left|]. }
  { done. }
  intros [] s2 [HR2 Hb2]. set (l := rev fs ++ [f0]) in *.
  assert (∀ a, (a ∈ l) ↔ a ∈ f0 :: fs) as Hl.
  { intros a. assert ((a ∈ rev fs) ↔ a ∈ fs) as Hr by (rewrite !list_elem_of_In; symmetry; apply in_rev).
    unfold l. rewrite elem_of_app, Hr, list_elem_of_singleton, elem_of_cons. tauto. }
  assert (∀ q', q ∉ updc (λ _, []) q l q') as Hnh.
  { intros q'. unfold updc. destruct (decide (q' = q)) as [->|]; [|apply not_elem_of_nil]. rewrite Hl. intros H. by apply (Hne q H). }
  wp_step. eapply (get_threaded_info_ok itbl tg _ (words s) s2 q q i); [exact HR2|by apply untag_aligned|done|done|done|done|].
  unfold info_of. rewrite updc_eq. assert (∃ g l', l = g :: l') as (g & l' & E) by (destruct l eqn:E; [by destruct (rev fs)|by eexists _, _]). rewrite E.
  rewrite Etag, tag_add by done. wp_step. eapply wp_mono; [eapply (unthread_ok tg _ (words s) s2 q i (to + t0)); [exact HR2|done|done|done]|].
  intros [] s3 [HR3 Hb3]. apply wp_ret. split; [done|]. rewrite Hb3, Hb2, Hb1. split; [|done].
  rewrite updc_eq in HR3. apply map_eq. intros a. rewrite (th_other _ _ _ _ HR3 a), !set_all_lookup.
  - destruct (decide (a ∈ l)) as [H|H]; [rewrite decide_True by (by apply Hl)|rewrite decide_False by (by rewrite <- Hl)]; done.
  - unfold updc. by destruct (decide (a = q)).
  - intros q'. unfold updc. destruct (decide (q' = q)); apply not_elem_of_nil.
Qed.
End one_chain.

(** ** Concrete runs *)
Lemma demo_heap_ok : heap_ok CDemo.itbl CDemo.arg_bitmaps CDemo.memory CDemo.blocks CDemo.bls (all_roots CDemo.rs CDemo.gos [2008] CDemo.memory).
Proof. apply heap_checked_ok. apply (bool_decide_unpack _). by vm_compute. Qed.
Lemma demo_collectable : collectable CDemo.itbl CDemo.arg_bitmaps CDemo.bls CDemo.rs CDemo.gens CDemo.gos 5 [2000; 2016] [2008] CDemo.heap.
Proof.
  pose proof demo_heap_ok as Hh. split; [exact Hh|apply roots_checked_ok|apply gens_checked_ok]; apply (bool_decide_unpack _); by vm_compute.
Qed.
Lemma compact_relocates_witness :
  wp (compact CDemo.itbl CDemo.arg_bitmaps CDemo.rs CDemo.gens)
    (λ _ s', relocated CDemo.memory CDemo.blocks CDemo.bls (all_roots CDemo.rs CDemo.gos [2008] CDemo.memory) s') CDemo.heap.
Proof. apply (compact_relocates _ _ _ _ _ _ _ _ _ _ demo_collectable). Defined.
Lemma compact_packs_witness : wp (compact CDemo.itbl CDemo.arg_bitmaps CDemo.rs CDemo.gens) (λ _ s', packed CDemo.blocks CDemo.bls s') CDemo.heap.
Proof. apply (compact_packs _ _ _ _ _ _ _ _ _ _ demo_collectable). Defined.
Lemma thread_obj_closure_size_witness :
  wp (size ← closure_sizeW_ CDemo.s_addr (o_info CDemo.stack);
      p ← thread_obj CDemo.itbl CDemo.arg_bitmaps (o_info CDemo.stack) CDemo.s_addr; mret (size, p))
    (λ '(size, p) _, size = 5 ∧ p = CDemo.s_addr + W size) CDemo.heap.
Proof. apply (thread_obj_closure_size _ _ _ _ _ _ _ _ _ _ CDemo.stack demo_collectable). right. by left. Defined.
Lemma thread_unthread_roundtrip_witness :
  wp (for_each [1056; 3008] thread;; ip ← get_threaded_info CDemo.itbl CDemo.s_addr;
      unthread CDemo.s_addr (CDemo.b0 + GET_CLOSURE_TAG ip);; mret ip)
    (λ ip s', ip = 824 + 0 ∧ words s' = set_all [1056; 3008] (CDemo.b0 + 0) (words CDemo.heap) ∧ old_blocks s' = old_blocks CDemo.heap) CDemo.heap.
Proof.
  apply (thread_unthread_roundtrip CDemo.itbl CDemo.heap CDemo.s_addr 824 CDemo.b0 1056 0 [3008]); try (by vm_compute); try lia.
  - apply (bool_decide_unpack _). by vm_compute.
  - intros f Hf. rewrite elem_of_cons, list_elem_of_singleton in Hf. destruct Hf as [-> | ->]; (split; [done|split; [done|exists 0; split; [lia|by vm_compute]]]).
Defined.

(** A pointer from an object to itself can lose its tag.  In this heap all
    pointers to the constructor have the tag 2; after [compact] its own pointer
    to itself has no tag, while the one from the stack behind it has kept it:
    the tag is read from the chain before the fields of the object are
    threaded, when nothing is threaded onto it. *)
Theorem self_pointer_loses_tag :
  (∀ f, f ∈ [CDemo.a_addr + 16; CDemo.s_addr + 32; CDemo.c_addr + 8] → words CDemo.heap !! f = Some (CDemo.a_addr + 2)) ∧
  wp (compact CDemo.itbl CDemo.arg_bitmaps CDemo.rs CDemo.gens)
    (λ _ s', words s' !! (CDemo.b0 + 16) = Some CDemo.b0 ∧ words s' !! (CDemo.b0 + 56) = Some (CDemo.b0 + 2)) CDemo.heap.
Proof.
  split; [|by vm_compute]. intros f Hf. rewrite !elem_of_cons in Hf. destruct Hf as [-> |[-> |[-> |Hf]]]; [by vm_compute..|by apply elem_of_nil in Hf].
Qed.
