(* ===== verification/Sweep.v ===== *)
(** * Sweeping (rts/sm/Sweep.c)

    [sweep] frees the blocks of the oldest generation in which nothing is
    marked, and flags those in which little is.  The chain of blocks is linked
    through its descriptors; [freeGroup] takes the descriptor away, so that
    using it afterwards is a [BadPointer]. *)
From stdpp Require Import list gmap.
From S2P Require Import Prelude.
Local Open Scope Z_scope.

(** The fields of block descriptors that [sweep] uses: the flags [BF_MARKED],
    [BF_FRAGMENTED] and [BF_SWEPT], and the words of the mark bitmap *)
Record bdescr : Type := mkBdescr {
  link : Z;
  blocks : Z;
  BF_MARKED : bool;
  BF_FRAGMENTED : bool;
  BF_SWEPT : bool;
  bitmap : list Z
}.
Definition set_link (x : Z) (b : bdescr) : bdescr := mkBdescr x (blocks b) (BF_MARKED b) (BF_FRAGMENTED b) (BF_SWEPT b) (bitmap b).
Definition flag_fragmented (b : bdescr) : bdescr := mkBdescr (link b) (blocks b) (BF_MARKED b) true (BF_SWEPT b) (bitmap b).
Definition flag_swept (b : bdescr) : bdescr := mkBdescr (link b) (blocks b) (BF_MARKED b) (BF_FRAGMENTED b) true (bitmap b).

(** The generation, with the descriptors in memory and those that were freed *)
Record generation : Type := mkGen {
  descriptors : gmap Z bdescr;
  old_blocks : Z;
  n_old_blocks : Z;
  live_estimate : Z;
  freed_groups : list Z
}.
Definition set_descriptors (x : gmap Z bdescr) (g : generation) : generation :=
  mkGen x (old_blocks g) (n_old_blocks g) (live_estimate g) (freed_groups g).
Definition set_old_blocks (x : Z) (g : generation) : generation :=
  mkGen (descriptors g) x (n_old_blocks g) (live_estimate g) (freed_groups g).
Definition set_n_old_blocks (x : Z) (g : generation) : generation :=
  mkGen (descriptors g) (old_blocks g) x (live_estimate g) (freed_groups g).
Definition set_live_estimate (x : Z) (g : generation) : generation :=
  mkGen (descriptors g) (old_blocks g) (n_old_blocks g) x (freed_groups g).
Definition set_freed (x : list Z) (g : generation) : generation :=
  mkGen (descriptors g) (old_blocks g) (n_old_blocks g) (live_estimate g) x.

Definition BLOCK_SIZE_W : Z := 4096 / 8.
Definition BITS_IN_W : Z := 64.

Definition ld (bd : Z) : prog generation bdescr := load descriptors bd.
Definition upd (bd : Z) (f : bdescr → bdescr) : prog generation unit :=
  b ← ld bd; modify (λ g, set_descriptors (<[bd := f b]> (descriptors g)) g).
Definition freeGroup (bd : Z) : prog generation unit :=
  _ ← ld bd;
  modify (λ g, set_freed (freed_groups g ++ [bd]) (set_descriptors (delete bd (descriptors g)) g)).

(** [for (n=0; bd != NULL; bd=bd->link) n += bd->blocks;] *)
Fixpoint countBlocks (fuel : nat) (bd n : Z) : prog generation Z :=
  if bd =? 0 then mret n else
  match fuel with
  | O => fail Diverges
  | S fuel => b ← ld bd; countBlocks fuel (link b) (wrapU 32 (n + blocks b))
  end.
(** [for (i = 0; i < BLOCK_SIZE_W / BITS_IN(W_); i++)], from [i] on *)
Fixpoint count_resid (n i : nat) (bits : list Z) (resid : Z) : prog generation Z :=
  match n with
  | O => mret resid
  | S n =>
    w ← deref (bits !! i);
    count_resid n (S i) bits (if negb (w =? 0) then wrapU 32 (resid + 1) else resid)
  end.
(** The loop; the counters that are only printed are left out. *)
Fixpoint sweep_blocks (fuel : nat) (bd prev live : Z) : prog generation Z :=
  if bd =? 0 then mret live else
  match fuel with
  | O => fail Diverges
  | S fuel =>
    b ← ld bd;
    let next := link b in
    if negb (BF_MARKED b) then sweep_blocks fuel next bd live
    else
      resid ← count_resid (Z.to_nat (BLOCK_SIZE_W / BITS_IN_W)) 0 (bitmap b) 0;
      let live := wrapU 32 (live + resid * BITS_IN_W) in
      if resid =? 0 then
        modify (λ g, set_n_old_blocks (wrapU 64 (n_old_blocks g - 1)) g);;
        (if prev =? 0 then modify (set_old_blocks next) else upd prev (set_link next));;
        freeGroup bd;;
        sweep_blocks fuel next prev live
      else
        when (resid <? (BLOCK_SIZE_W * 3) / (BITS_IN_W * 4)) (upd bd flag_fragmented);;
        upd bd flag_swept;;
        sweep_blocks fuel next bd live
  end.
Definition sweep : prog generation unit :=
  g ← get;
  n ← countBlocks (size (descriptors g)) (old_blocks g) 0;
  ASSERT (n =? n_old_blocks g);;
  live ← sweep_blocks (size (descriptors g)) (old_blocks g) 0 0;
  modify (set_live_estimate live);;
  g ← get;
  n ← countBlocks (size (descriptors g)) (old_blocks g) 0;
  ASSERT (n =? n_old_blocks g).
