(* ===== verification/SweepMain.v ===== *)
(** * Properties of sweeping *)
From stdpp Require Import list gmap.
From S2P Require Import Prelude Sweep.
Local Open Scope Z_scope.

(** ** Chains of blocks *)
Fixpoint lseg (h : gmap Z bdescr) (p : Z) (l : list Z) (q : Z) : Prop :=
  match l with
  | [] => p = q
  | x :: l => p = x ∧ x ≠ 0 ∧ ∃ b, h !! x = Some b ∧ lseg h (link b) l q
  end.
Lemma lseg_app h p l1 l2 q : lseg h p (l1 ++ l2) q ↔ ∃ m, lseg h p l1 m ∧ lseg h m l2 q.
Proof.
  revert p. induction l1 as [|x l1 IH]; intros p; cbn [app lseg].
  - split; [by eauto|by intros (? & -> & ?)].
  - setoid_rewrite IH. naive_solver.
Qed.
Lemma lseg_ext h h' p l q : (∀ x, x ∈ l → link <$> h' !! x = link <$> h !! x) → lseg h p l q → lseg h' p l q.
Proof.
  revert p. induction l as [|x l IH]; intros p Hx; cbn [lseg]; [done|]. intros (-> & Hn & b & Hb & Hl).
  assert (link <$> h' !! x = link <$> h !! x) as E by (apply Hx; by left). rewrite Hb in E. destruct (h' !! x) as [b'|]; [|done]. injection E as E.
  split; [done|]. split; [done|]. exists b'. split; [done|]. rewrite E. apply IH; [|done]. intros y Hy. apply Hx. by right.
Qed.
Lemma lseg_end h l p : lseg h p l 0 → p = 0 → l = [].
Proof. destruct l; [done|]. by intros (-> & ? & _). Qed.
Lemma lseg_mapped h p l q x : lseg h p l q → x ∈ l → x ≠ 0 ∧ ∃ b, h !! x = Some b.
Proof.
  revert p. induction l as [|y l IH]; intros p; [by intros _ ?%elem_of_nil|]. cbn [lseg].
  intros (-> & Hn & b & Hb & Hl) [->|Hx]%elem_of_cons; [by eauto|by eapply IH].
Qed.
(** The last block of a segment gets a new successor. *)
Lemma lseg_relink h p l x b q q' : h !! x = Some b → x ∉ l → lseg h p (l ++ [x]) q → lseg (<[x := set_link q' b]> h) p (l ++ [x]) q'.
Proof.
  intros Hb Hx. rewrite !lseg_app. intros (m & Hl & -> & Hn & b' & Hb' & Hq). exists x. split.
  - eapply lseg_ext; [|exact Hl]. intros y Hy. rewrite lookup_insert_ne; [done|]. by intros ->.
  - split; [done|]. split; [done|]. exists (set_link q' b). by rewrite lookup_insert_eq.
Qed.
Lemma chain_size h p l q : NoDup l → lseg h p l q → (length l ≤ size h)%nat.
Proof.
  intros Hnd Hl. rewrite <- (size_list_to_set (C := gset Z) l), <- size_dom by done. apply subseteq_size. intros x Hx%elem_of_list_to_set.
  destruct (lseg_mapped _ _ _ _ _ Hl Hx) as [_ [b Hb]]. apply elem_of_dom. by exists b.
Qed.

(** ** What [sweep] does to each block *)
(** The words of the bitmap that are not zero *)
Definition resid (b : bdescr) : Z := Z.of_nat (length (filter (λ w, w ≠ 0) (bitmap b))).
(** The blocks that stay: those that are not collected, and those with a marked
    object *)
Definition stays (b : bdescr) : bool := negb (BF_MARKED b) || negb (resid b =? 0).
(** How a block that stays is flagged *)
Definition swept (b : bdescr) : bdescr :=
  if BF_MARKED b then flag_swept (if resid b <? 6 then flag_fragmented b else b) else b.
Definition live_words (b : bdescr) : Z := if BF_MARKED b then 64 * resid b else 0.

Lemma count_resid_ok bits i n acc Q s :
  length bits = (i + n)%nat → 0 <= acc → acc + Z.of_nat n < 2 ^ 32 →
  Q (acc + Z.of_nat (length (filter (λ w, w ≠ 0) (drop i bits)))) s → wp (count_resid n i bits acc) Q s.
Proof.
  revert i acc. induction n as [|n IH]; intros i acc Hl Ha Hb HQ; cbn [count_resid].
  - apply wp_ret. rewrite drop_ge, Z.add_0_r in HQ by lia. done.
  - destruct (lookup_lt_is_Some_2 bits i) as [w Hw]; [lia|]. wp_step. rewrite Hw. apply wp_ret. cbv beta.
    rewrite (drop_S _ _ _ Hw) in HQ. destruct (Z.eqb_spec w 0) as [->|Hne]; cbn [negb].
    + rewrite filter_cons_False in HQ by (by intros []). apply IH; [lia|done|lia|done].
    + rewrite filter_cons_True in HQ by done. rewrite wrapU_small by lia. apply IH; [lia..|].
      replace (acc + 1 + _) with (acc + Z.of_nat (length (w :: filter (λ w, w ≠ 0) (drop (S i) bits)))) by (cbn [length]; lia). done.
Qed.
Lemma countBlocks_ok fuel bd n l h Q s :
  descriptors s = h → lseg h bd l 0 → (∀ x b, x ∈ l → h !! x = Some b → blocks b = 1) → (length l ≤ fuel)%nat →
  0 <= n → n + Z.of_nat (length l) < 2 ^ 32 → Q (n + Z.of_nat (length l)) s → wp (countBlocks fuel bd n) Q s.
Proof.
  intros Hs. revert bd n l. induction fuel as [|fuel IH]; intros bd n [|x l]; cbn [lseg countBlocks length]; intros Hl H1 Hf Hn Hb HQ.
  1,3: subst bd; cbn; apply wp_ret; by rewrite Z.add_0_r in HQ.
  - lia.
  - destruct Hl as (-> & Hx & b & Hbx & Hl). destruct (Z.eqb_spec x 0); [done|]. wp_step. unfold ld. eapply wp_load; [by rewrite Hs|]. cbv beta.
    rewrite (H1 x b) by (done || by left). rewrite wrapU_small by lia. eapply IH; [exact Hl| |lia..|].
    + intros y c Hy. apply H1. by right.
    + by replace (n + 1 + Z.of_nat (length l)) with (n + Z.of_nat (S (length l))) by lia.
Qed.

Section loop.
Context (D : gmap Z bdescr).
Definition stays_at (x : Z) : Prop := ∃ b, D !! x = Some b ∧ stays b = true.
#[export] Instance stays_at_dec x : Decision (stays_at x).
Proof.
  unfold stays_at. destruct (D !! x) as [b|] eqn:E; [|right; by intros (? & ? & _)].
  destruct (stays b) eqn:Eb; [left; eauto|right; intros (? & [= <-] & ?); congruence].
Defined.
Definition kept (l : list Z) : list Z := filter stays_at l.
Definition dropped (l : list Z) : list Z := filter (λ x, ¬ stays_at x) l.
Definition total_live (l : list Z) : Z := foldr (λ x n, match D !! x with Some b => live_words b | None => 0 end + n) 0 l.
(** A descriptor without its link *)
Definition contents (s : generation) (x : Z) : option bdescr := set_link 0 <$> descriptors s !! x.

(** Before the rest [l] of the chain: [K] are the blocks that were kept. *)
Record sweeping (K l : list Z) (bd prev : Z) (s : generation) : Prop := {
  sw_done : lseg (descriptors s) (old_blocks s) K bd;
  sw_rest : lseg (descriptors s) bd l 0;
  sw_prev : prev = default 0 (last K);
  sw_nodup : NoDup (K ++ l);
  sw_same : ∀ x, x ∈ l → descriptors s !! x = D !! x;
  sw_bits : ∀ x b, x ∈ l → D !! x = Some b → length (bitmap b) = 8%nat
}.
(** After the chain *)
Record swept_from (K l : list Z) (live : Z) (s : generation) (live' : Z) (s' : generation) : Prop := {
  se_chain : lseg (descriptors s') (old_blocks s') (K ++ kept l) 0;
  se_kept : ∀ x b, x ∈ l → D !! x = Some b → contents s' x = if stays b then Some (set_link 0 (swept b)) else None;
  se_other : ∀ x, (x ∉ l) → contents s' x = contents s x;
  se_freed : freed_groups s' = freed_groups s ++ dropped l;
  se_count : n_old_blocks s' = n_old_blocks s - Z.of_nat (length (dropped l));
  se_live : live' = wrapU 32 (live + total_live l)
}.
Lemma kept_blocks_cons x l b : D !! x = Some b → kept (x :: l) = if stays b then x :: kept l else kept l.
Proof.
  intros Hb. unfold kept. destruct (stays b) eqn:E; [rewrite filter_cons_True by (by exists b); done|].
  rewrite filter_cons_False; [done|]. intros (b' & ? & ?). congruence.
Qed.
Lemma dropped_blocks_cons x l b : D !! x = Some b → dropped (x :: l) = if stays b then dropped l else x :: dropped l.
Proof.
  intros Hb. unfold dropped. destruct (stays b) eqn:E; [rewrite filter_cons_False by (intros H; apply H; by exists b); done|].
  rewrite filter_cons_True; [done|]. intros (b' & ? & ?). congruence.
Qed.
(** A block that stays: its descriptor may have got flags. *)
Lemma sweeping_keep K x l bd prev s b b' : sweeping K (x :: l) bd prev s → D !! x = Some b → link b' = link b →
  sweeping (K ++ [x]) l (link b) x (set_descriptors (<[x := b']> (descriptors s)) s).
Proof.
  intros [Hd Hr Hp Hn Hs Hb] Hx El. destruct Hr as (-> & Hx0 & b0 & Hb0 & Hr).
  assert (b0 = b) as -> by (rewrite Hs in Hb0 by (by left); congruence). pose proof Hn as Hn2.
  rewrite NoDup_app in Hn2. destruct Hn2 as (_ & HK & [Hxl _]%NoDup_cons).
  assert (x ∉ K) as HxK by (intros H; apply (HK _ H); by left).
  assert (∀ y, link <$> <[x := b']> (descriptors s) !! y = link <$> descriptors s !! y) as Hlink.
  { intros y. destruct (decide (y = x)) as [->|Hne]; [by rewrite lookup_insert_eq, Hb0; cbn; rewrite El|by rewrite lookup_insert_ne]. }
  split; cbn [descriptors old_blocks set_descriptors].
  - apply lseg_app. exists x. split; [eapply lseg_ext; [|exact Hd]; intros y _; apply Hlink|]. split; [done|]. split; [done|].
    exists b'. by rewrite lookup_insert_eq.
  - eapply lseg_ext; [|exact Hr]. intros y _. apply Hlink.
  - by rewrite last_snoc.
  - by rewrite <- app_assoc.
  - intros y Hy. rewrite lookup_insert_ne by (by intros ->). apply Hs. by right.
  - intros y c Hy. apply Hb. by right.
Qed.
Lemma swept_keep K x l live live1 s b b' live' s' : D !! x = Some b → x ∉ l → stays b = true → set_link 0 b' = set_link 0 (swept b) →
  live1 = wrapU 32 (live + live_words b) →
  swept_from (K ++ [x]) l live1 (set_descriptors (<[x := b']> (descriptors s)) s) live' s' → swept_from K (x :: l) live s live' s'.
Proof.
  intros Hx Hxl Hst Hsw -> [H1 H2 H3 H4 H5 H6].
  split; rewrite ?(kept_blocks_cons x l b Hx), ?(dropped_blocks_cons x l b Hx), ?Hst; try done.
  - by rewrite <- app_assoc in H1.
  - intros y c [->|Hy]%elem_of_cons Hc; [|by apply H2]. replace c with b by congruence. rewrite Hst, H3 by done. unfold contents. cbn. by rewrite lookup_insert_eq; cbn; rewrite Hsw.
  - intros y [Hne Hy]%not_elem_of_cons. rewrite H3 by done. unfold contents. cbn. by rewrite lookup_insert_ne.
  - rewrite H6. cbn [total_live foldr]. rewrite Hx. unfold wrapU. rewrite Zplus_mod_idemp_l. f_equal. unfold total_live. lia.
Qed.
(** A block that is freed: its predecessor, or the generation, gets its
    successor. *)
Lemma unlink_ok K x l prev s b n Q : sweeping K (x :: l) x prev s → D !! x = Some b →
  (∀ s', sweeping K l (link b) prev s' → (∀ y, contents s' y = if decide (y = x) then None else contents s y) →
     freed_groups s' = freed_groups s ++ [x] → n_old_blocks s' = n → Q tt s') →
  wp ((if prev =? 0 then modify (set_old_blocks (link b)) else upd prev (set_link (link b)));; freeGroup x) Q (set_n_old_blocks n s).
Proof.
  intros [Hd Hr Hp Hn Hs Hb] Hx HQ. destruct Hr as (_ & Hx0 & b0 & Hb0 & Hr).
  assert (b0 = b) as -> by (rewrite Hs in Hb0 by (by left); congruence). pose proof Hn as Hn2.
  rewrite NoDup_app in Hn2. destruct Hn2 as (HndK & HK & Hn2). apply NoDup_cons in Hn2 as [Hxl Hndl].
  assert (x ∉ K) as HxK by (intros H; apply (HK _ H); by left).
  assert (NoDup (K ++ l)) as Hnd by (apply NoDup_app; split; [done|split; [|done]]; intros y Hy Hyl; apply (HK y Hy); by right).
  assert (∀ h : gmap Z bdescr, (∀ y, (y ∉ K) → h !! y = descriptors s !! y) → lseg (delete x h) (link b) l 0) as Hrest.
  { intros h Hh. eapply lseg_ext; [|exact Hr]. intros y Hy. rewrite lookup_delete_ne by (by intros ->). rewrite Hh; [done|].
    intros H. apply (HK y H). by right. }
  assert (∀ h : gmap Z bdescr, (∀ y, (y ∉ K) → h !! y = descriptors s !! y) → ∀ y, y ∈ l → delete x h !! y = D !! y) as Hsame.
  { intros h Hh y Hy. rewrite lookup_delete_ne by (by intros ->). rewrite Hh; [apply Hs; by right|]. intros H. apply (HK y H). by right. }
  destruct K as [|y K' _] using rev_ind.
  - cbn in Hp, Hd. subst prev. cbn [Z.eqb]. wp_step. apply wp_modify. unfold freeGroup, ld. wp_step. eapply wp_load; [exact Hb0|]. cbv beta.
    apply wp_modify. apply HQ; [split; try done|..]; try done.
    + apply Hrest. intros z _. done.
    + apply Hsame. intros z _. done.
    + intros z c Hz. apply Hb. by right.
    + intros z. unfold contents. cbn. destruct (decide (z = x)) as [->|]; [by rewrite lookup_delete_eq|by rewrite lookup_delete_ne].
  - rewrite last_snoc in Hp. cbn in Hp. subst y. destruct (lseg_mapped _ _ _ _ prev Hd) as [Hp0 [c Hc]]; [apply elem_of_app; right; by left|].
    assert (prev ≠ x) as Hpx by (intros ->; apply HxK, elem_of_app; right; by left).
    assert (∀ z, z ∉ K' ++ [prev] → <[prev := set_link (link b) c]> (descriptors s) !! z = descriptors s !! z) as Hh.
    { intros z Hz. rewrite lookup_insert_ne; [done|]. intros ->. apply Hz, elem_of_app. right. by left. }
    apply NoDup_app in HndK as (_ & HndK & _).
    destruct (Z.eqb_spec prev 0); [done|]. unfold upd, freeGroup, ld. wp_steps; [cbn; rewrite lookup_insert_ne by done; exact Hb0|]. apply HQ; [split; try done|..]; try done.
    + cbn. eapply lseg_ext; [|eapply lseg_relink; [exact Hc| |exact Hd]].
      * intros z Hz. rewrite lookup_delete_ne; [done|]. by intros ->.
      * intros H. apply (HndK _ H). by left.
    + by apply Hrest.
    + by rewrite last_snoc.
    + by apply Hsame.
    + intros z d Hz. apply Hb. by right.
    + intros z. unfold contents. cbn. destruct (decide (z = x)) as [->|]; [by rewrite lookup_delete_eq|]. rewrite lookup_delete_ne by done.
      destruct (decide (z = prev)) as [->|]; [by rewrite lookup_insert_eq, Hc|by rewrite lookup_insert_ne].
Qed.
Lemma swept_drop K x l live s b s1 live' s' : D !! x = Some b → x ∉ l → stays b = false →
  (∀ y, contents s1 y = if decide (y = x) then None else contents s y) → freed_groups s1 = freed_groups s ++ [x] →
  n_old_blocks s1 = n_old_blocks s - 1 →
  swept_from K l (wrapU 32 (live + live_words b)) s1 live' s' → swept_from K (x :: l) live s live' s'.
Proof.
  intros Hx Hxl Hst Hc Hf Hn [H1 H2 H3 H4 H5 H6].
  split; rewrite ?(kept_blocks_cons x l b Hx), ?(dropped_blocks_cons x l b Hx), ?Hst; try done.
  - intros y c [->|Hy]%elem_of_cons Hc'; [|by apply H2]. replace c with b by congruence. by rewrite Hst, H3, Hc, decide_True.
  - intros y [Hne Hy]%not_elem_of_cons. by rewrite H3, Hc, decide_False.
  - by rewrite H4, Hf, <- app_assoc.
  - rewrite H5, Hn. cbn [length]. lia.
  - rewrite H6. cbn [total_live foldr]. rewrite Hx. unfold wrapU. rewrite Zplus_mod_idemp_l. f_equal. unfold total_live. lia.
Qed.
Lemma flag_block_ok x b r s Q : descriptors s !! x = Some b →
  Q tt (set_descriptors (<[x := flag_swept (if r <? 6 then flag_fragmented b else b)]> (descriptors s)) s) →
  wp (when (r <? (BLOCK_SIZE_W * 3) / (BITS_IN_W * 4)) (upd x flag_fragmented);; upd x flag_swept) Q s.
Proof.
  intros Hb HQ. change ((BLOCK_SIZE_W * 3) / (BITS_IN_W * 4)) with 6. unfold upd, ld. wp_step. apply wp_when; intros E; rewrite E in HQ.
  - wp_steps; [cbn; apply lookup_insert_eq|]. cbn. rewrite insert_insert_eq. exact HQ.
  - by wp_steps.
Qed.
Lemma sweep_blocks_ok fuel K l bd prev live s Q :
  sweeping K l bd prev s → (length l ≤ fuel)%nat → Z.of_nat (length l) <= n_old_blocks s < 2 ^ 64 → wrapU 32 live = live →
  (∀ live' s', swept_from K l live s live' s' → Q live' s') → wp (sweep_blocks fuel bd prev live) Q s.
Proof.
  revert K l bd prev live s. induction fuel as [|fuel IH]; intros K [|x l] bd prev live s HI Hf Hn Hlive HQ; cbn [sweep_blocks].
  1,3: pose proof (sw_rest _ _ _ _ _ HI) as E; cbn in E; rewrite E; cbn; apply wp_ret, HQ; split; cbn; rewrite ?app_nil_r, ?Z.sub_0_r, ?Z.add_0_r; try done;
    [by rewrite <- E; apply HI|by intros ? ? ?%elem_of_nil].
  { cbn in Hf. lia. }
  pose proof (sw_rest _ _ _ _ _ HI) as Hr. destruct Hr as (-> & Hx0 & b & Hb & _).
  assert (D !! x = Some b) as Hx by (rewrite <- (sw_same _ _ _ _ _ HI) by (by left); done).
  assert (x ∉ l) as Hxl by (pose proof (sw_nodup _ _ _ _ _ HI) as [_ [_ [? _]%NoDup_cons]]%NoDup_app; done).
  destruct (Z.eqb_spec x 0); [done|]. unfold ld. wp_step. eapply wp_load; [exact Hb|]. cbv beta zeta.
  destruct (BF_MARKED b) eqn:Em; cbn [negb].
  - wp_step. apply count_resid_ok; [rewrite (sw_bits _ _ _ _ _ HI x b) by (done || by left); done|lia|done|].
    change (0 + Z.of_nat (length (filter (λ w, w ≠ 0) (drop 0 (bitmap b))))) with (resid b). change BITS_IN_W with 64.
    assert (wrapU 32 (live + resid b * 64) = wrapU 32 (live + live_words b)) as -> by (unfold live_words; rewrite Em; f_equal; lia).
    assert (∀ z, wrapU 32 (wrapU 32 z) = wrapU 32 z) as Hww by (intros z; apply wrapU_small, wrapU_bound; done).
    cbn [length] in Hf, Hn. destruct (Z.eqb_spec (resid b) 0) as [E0|N0].
    + wp_step. apply wp_modify. cbv beta. rewrite (wrapU_small 64) by lia. apply wp_assoc, wp_bind. eapply unlink_ok; [exact HI|exact Hx|]. intros s1 HI1 Hc1 Hf1 Hn1.
      eapply IH; [exact HI1|lia|rewrite Hn1; lia|apply Hww|]. intros live' s' Hs. apply HQ. eapply swept_drop; try done.
      unfold stays. by rewrite Em, E0.
    + apply wp_assoc, wp_bind. apply (flag_block_ok x b); [done|]. eapply IH; [by eapply sweeping_keep; [exact HI| |by destruct (_ <? 6)]|lia|cbn; lia|apply Hww|].
      intros live' s' Hs. apply HQ. eapply swept_keep; [done|done| | |reflexivity|exact Hs].
      * unfold stays. rewrite Em. by destruct (Z.eqb_spec (resid b) 0).
      * unfold swept. by rewrite Em.
  - assert (set_descriptors (<[x := b]> (descriptors s)) s = s) as Es by (unfold set_descriptors; rewrite insert_id by done; by destruct s).
    cbn [length] in Hf, Hn. eapply (IH (K ++ [x]) l); [rewrite <- Es; by eapply sweeping_keep|lia|lia|done|].
    intros live' s' Hs. apply HQ. eapply swept_keep; [done|done| | | |rewrite Es; exact Hs].
    + unfold stays. by rewrite Em.
    + unfold swept. by rewrite Em.
    + unfold live_words. by rewrite Em, Z.add_0_r.
Qed.
End loop.

Lemma kept_dropped D l : (length (kept D l) + length (dropped D l) = length l)%nat.
Proof.
  unfold kept, dropped. induction l as [|x l IH]; [done|]. destruct (decide (stays_at D x)).
  - rewrite filter_cons_True by done. rewrite (filter_cons_False _ x) by tauto. cbn. lia.
  - rewrite filter_cons_False by done. rewrite (filter_cons_True _ x) by done. cbn. lia.
Qed.
(** A generation that can be swept: [l] is the chain of its blocks, one block
    each, with a bitmap of 512 bits. *)
Record sweepable (l : list Z) (s : generation) : Prop := {
  sp_chain : lseg (descriptors s) (old_blocks s) l 0;
  sp_nodup : NoDup l;
  sp_blocks : ∀ x b, x ∈ l → descriptors s !! x = Some b → blocks b = 1 ∧ length (bitmap b) = 8%nat;
  sp_count : n_old_blocks s = Z.of_nat (length l);
  sp_small : Z.of_nat (length l) < 2 ^ 32
}.

(** C40: [sweep] frees exactly the blocks that are collected and have no marked
    object, each once, and takes them off the chain, whose order stays.  The
    blocks that are left are flagged: fragmented if fewer than 6 words of the
    bitmap are not zero, and swept; blocks that are not collected and other
    descriptors stay as they are.  The number of blocks is right, both
    assertions hold, and the estimate of live words is that of the marked
    words of the bitmaps, modulo 2^32. *)
Theorem sweep_spec l s : sweepable l s →
  wp sweep (λ _ s',
    let D := descriptors s in
    lseg (descriptors s') (old_blocks s') (kept D l) 0 ∧
    n_old_blocks s' = Z.of_nat (length (kept D l)) ∧
    freed_groups s' = freed_groups s ++ dropped D l ∧
    (∀ x b, x ∈ l → D !! x = Some b → contents s' x = if stays b then Some (set_link 0 (swept b)) else None) ∧
    (∀ x, (x ∉ l) → contents s' x = contents s x) ∧
    live_estimate s' = wrapU 32 (total_live D l)) s.
Proof.
  intros [Hc Hnd Hb Hn Hs]. unfold sweep. wp_step. apply wp_get. wp_step.
  eapply countBlocks_ok; [done|exact Hc|intros x b Hx Hbx; by apply (Hb x b)|by eapply chain_size|done|done|].
  wp_step. apply wp_assert; [rewrite Hn; by apply Z.eqb_eq|]. wp_step.
  eapply (sweep_blocks_ok (descriptors s) _ [] l); [|by eapply chain_size|rewrite Hn; lia|done|].
  { split; try done. intros x b Hx Hbx. by apply (Hb x b). }
  intros live' s' [H1 H2 H3 H4 H5 H6]. cbn [app] in H1. wp_step. apply wp_modify. wp_step. apply wp_get. wp_step. cbn [descriptors old_blocks set_live_estimate].
  pose proof (kept_dropped (descriptors s) l) as Hlen.
  assert (NoDup (kept (descriptors s) l)) as Hndk by (by apply NoDup_filter).
  eapply countBlocks_ok; [done|exact H1| |by eapply chain_size|done|lia|].
  - intros x b' [(b & Hbx & Hst) Hx]%list_elem_of_filter Hb'. pose proof (H2 x b Hx Hbx) as E. rewrite Hst in E. unfold contents in E. cbn in Hb'. rewrite Hb' in E. cbn in E.
    apply (inj Some), (f_equal blocks) in E. cbn in E. rewrite E.
    assert (blocks (swept b) = blocks b) as -> by (unfold swept; by destruct (BF_MARKED b), (resid b <? 6)). by apply (Hb x b).
  - rewrite Z.add_0_l. apply wp_assert; [cbn; apply Z.eqb_eq; rewrite H5, Hn; lia|]. cbv zeta. cbn. split; [done|]. split; [rewrite H5, Hn; lia|]. done.
Qed.

(** ** A concrete run: four blocks - one in use, one empty, one not collected, one
    with a single marked word *)
Definition demo_block (next : Z) (m : bool) (bits : list Z) : bdescr := mkBdescr next 1 m false false bits.
Definition demo_gen : generation :=
  mkGen (list_to_map [(64, demo_block 128 true (repeat 1 8)); (128, demo_block 192 true (repeat 0 8));
                      (192, demo_block 256 false (repeat 0 8)); (256, demo_block 0 true [0; 0; 0; 4; 0; 0; 0; 0])]) 64 4 0 [].
Lemma demo_sweepable : sweepable [64; 128; 192; 256] demo_gen.
Proof.
  split; try done.
  - repeat (split; [done|]; split; [done|]; eexists; split; [by vm_compute|]). done.
  - apply (bool_decide_unpack _). by vm_compute.
  - intros x b Hx Hb. rewrite !elem_of_cons in Hx. destruct Hx as [-> |[-> |[-> |[-> |Hx]]]]; [..|by apply elem_of_nil in Hx]; vm_compute in Hb; by injection Hb as <-.
Qed.
Lemma sweep_spec_witness :
  wp sweep (λ _ s', lseg (descriptors s') (old_blocks s') (kept (descriptors demo_gen) [64; 128; 192; 256]) 0 ∧
    freed_groups s' = [128] ∧ n_old_blocks s' = 3 ∧ live_estimate s' = 576) demo_gen.
Proof.
  eapply wp_mono; [apply (sweep_spec [64; 128; 192; 256] demo_gen demo_sweepable)|].
  intros _ s' (H1 & H2 & H3 & _ & _ & H6). split; [exact H1|]. rewrite H2, H3, H6. by vm_compute.
Defined.
