(* ===== verification/StgPrimFloat.v ===== *)
(** * Encoding and decoding floating-point numbers (rts/StgPrimFloat.c)

    The numbers are those of [SpecFloat], the Standard Library's specification of
    IEEE 754 arithmetic; what the C union reads is their bits.  [nat] and
    [unsigned int] have 32 bits, [I_] and [W_] 64. *)
From Stdlib Require Import SpecFloat.
From stdpp Require Import base numbers option.
From S2P Require Import Prelude.
Local Open Scope Z_scope.

(** ** The representation of numbers *)

(** <float.h> *)
Definition DBL_MIN_EXP : Z := -1021.
Definition DBL_MANT_DIG : Z := 53.
Definition DBL_MAX_EXP : Z := 1024.
Definition FLT_MIN_EXP : Z := -125.
Definition FLT_MANT_DIG : Z := 24.
Definition FLT_MAX_EXP : Z := 128.

(** A number from its bits: [mbits] bits of the mantissa, [ebits] of the
    exponent, and the sign. *)
Definition sf_of_bits (mbits ebits min_exp mant_dig bits : Z) : spec_float :=
  let s := Z.testbit bits (mbits + ebits) in
  let ex := bits / 2 ^ mbits mod 2 ^ ebits in
  let m := bits mod 2 ^ mbits in
  if ex =? 0 then
    if m =? 0 then S754_zero s else S754_finite s (Z.to_pos m) (min_exp - mant_dig)
  else if ex =? 2 ^ ebits - 1 then
    if m =? 0 then S754_infinity s else S754_nan
  else S754_finite s (Z.to_pos (2 ^ mbits + m)) (ex + (min_exp - mant_dig - 1)).
Definition double_of_bits : Z → spec_float := sf_of_bits 52 11 DBL_MIN_EXP DBL_MANT_DIG.
Definition float_of_bits : Z → spec_float := sf_of_bits 23 8 FLT_MIN_EXP FLT_MANT_DIG.

(** Conversions of integers and between the two formats, and [ldexp], whose
    second argument is an [int]. *)
Definition double_of_int (j : Z) : spec_float := binary_normalize DBL_MANT_DIG DBL_MAX_EXP j 0 false.
Definition float_of_int (j : Z) : spec_float := binary_normalize FLT_MANT_DIG FLT_MAX_EXP j 0 false.
Definition round_to (prec emax : Z) (r : spec_float) : spec_float :=
  match r with S754_finite s m e => binary_round prec emax s m e | _ => r end.
Definition double_of_float : spec_float → spec_float := round_to DBL_MANT_DIG DBL_MAX_EXP.
Definition float_of_double : spec_float → spec_float := round_to FLT_MANT_DIG FLT_MAX_EXP.
Definition ldexp (r : spec_float) (e : Z) : spec_float := SFldexp DBL_MANT_DIG DBL_MAX_EXP r (wrapS 32 e).
Definition ldexpf (r : spec_float) (e : Z) : spec_float := float_of_double (ldexp (double_of_float r) e).
Definition nonzero (r : spec_float) : bool := negb (SFeqb r (S754_zero false)).

(** ** Constants *)
Definition MY_DMINEXP : Z := DBL_MIN_EXP - DBL_MANT_DIG - 1.
Definition DHIGHBIT : Z := 0x00100000.
Definition DMSBIT : Z := 0x80000000.
Definition MY_FMINEXP : Z := FLT_MIN_EXP - FLT_MANT_DIG - 1.
Definition FHIGHBIT : Z := 0x00800000.
Definition FMSBIT : Z := 0x80000000.
(** Negating the least [I_] overflows; the machine wraps around. *)
Definition __abs (a : Z) : Z := wrapS 64 (if 0 <=? a then a else - a).

(** ** Encoding *)
Definition __2Int_encodeDouble (j_high j_low e : Z) : spec_float :=
  let r := double_of_int (wrapU 32 j_high) in
  let r := SFmul DBL_MANT_DIG DBL_MAX_EXP r (double_of_int 4294967296) in
  let r := SFadd DBL_MANT_DIG DBL_MAX_EXP r (double_of_int (wrapU 32 j_low)) in
  let r := if nonzero r then ldexp r e else r in
  if j_high <? 0 then SFopp r else r.
Definition __word_encodeDouble (j e : Z) : spec_float :=
  let r := double_of_int j in
  if nonzero r then ldexp r e else r.
Definition __int_encodeDouble (j e : Z) : spec_float :=
  let r := double_of_int (__abs j) in
  let r := if nonzero r then ldexp r e else r in
  if j <? 0 then SFopp r else r.
Definition __int_encodeFloat (j e : Z) : spec_float :=
  let r := float_of_int (__abs j) in
  let r := if nonzero r then ldexpf r e else r in
  if j <? 0 then SFopp r else r.
Definition __word_encodeFloat (j e : Z) : spec_float :=
  let r := float_of_int j in
  if nonzero r then ldexpf r e else r.

(** ** Decoding *)

(** What [__decodeDouble_2Int] writes; [man_sign] is not written for a zero. *)
Record decoded : Type := mkDecoded { man_sign : option Z; man_high : Z; man_low : Z; man_exp : Z }.

(** [while (! (high & DHIGHBIT))]: normalizes a denormal mantissa. *)
Fixpoint normalize_double (fuel : nat) (high low iexp : Z) : option (Z * Z * Z) :=
  if negb (Z.land high DHIGHBIT =? 0) then Some (high, low, iexp) else
  match fuel with
  | O => None
  | S fuel =>
    let high := wrapU 32 (Z.shiftl high 1) in
    let high := if negb (Z.land low DMSBIT =? 0) then wrapU 32 (high + 1) else high in
    normalize_double fuel high (wrapU 32 (Z.shiftl low 1)) (iexp - 1)
  end.
Definition __decodeDouble_2Int (dbl : Z) : option decoded :=
  let low := wrapU 32 dbl in
  let high := wrapU 32 (Z.shiftr dbl 32) in
  if (low =? 0) && (Z.land high (Z.lnot DMSBIT) =? 0) then Some (mkDecoded None 0 0 0) else
  let iexp := Z.land (Z.shiftr high 20) 0x7ff + MY_DMINEXP in
  let sign := wrapS 32 high in
  let high := Z.land high (DHIGHBIT - 1) in
  '(high, low, iexp) ←
    (if negb (iexp =? MY_DMINEXP) then Some (Z.lor high DHIGHBIT, low, iexp)
     else normalize_double 64 high low (iexp + 1));
  Some (mkDecoded (Some (if sign <? 0 then -1 else 1)) high low iexp).

Fixpoint normalize_float (fuel : nat) (high exp : Z) : option (Z * Z) :=
  if negb (Z.land high FHIGHBIT =? 0) then Some (high, exp) else
  match fuel with
  | O => None
  | S fuel => normalize_float fuel (wrapS 32 (Z.shiftl high 1)) (exp - 1)
  end.
(** [*man] and [*exp] *)
Definition __decodeFloat_Int (flt : Z) : option (Z * Z) :=
  let high := wrapS 32 flt in
  if Z.land (wrapU 32 high) (Z.lnot FMSBIT) =? 0 then Some (0, 0) else
  let exp := Z.land (Z.shiftr high 23) 0xff + MY_FMINEXP in
  let sign := high in
  let high := Z.land high (FHIGHBIT - 1) in
  '(high, exp) ←
    (if negb (exp =? MY_FMINEXP) then Some (Z.lor high FHIGHBIT, exp)
     else normalize_float 64 high (exp + 1));
  Some (if sign <? 0 then - high else high, exp).
