(* ===== verification/StgPrimFloatMain.v ===== *)
(** * Properties of encoding and decoding floating-point numbers *)
From Stdlib Require Import SpecFloat Bool.
From stdpp Require Import base numbers option.
From S2P Require Import Prelude StgPrimFloat.
Local Open Scope Z_scope.

(** ** Rounding of numbers that need none *)
Lemma digits2_bounds m : 2 ^ (Zpos (digits2_pos m) - 1) <= Zpos m < 2 ^ Zpos (digits2_pos m).
Proof.
  induction m as [m IH|m IH|]; cbn [digits2_pos]; [| |done];
    rewrite Pos2Z.inj_succ; unfold Z.succ; rewrite Z.add_simpl_r;
    replace (Z.pos (digits2_pos m)) with (Z.pos (digits2_pos m) - 1 + 1) by lia;
    rewrite !Z.pow_add_r by lia; replace (Z.pos (digits2_pos m)) with (Z.pos (digits2_pos m) - 1 + 1) in IH by lia;
    rewrite !Z.pow_add_r, Z.add_simpl_r in IH by lia; lia.
Qed.
Lemma digits2_unique m d : 0 < d → 2 ^ (d - 1) <= Zpos m < 2 ^ d → Zpos (digits2_pos m) = d.
Proof.
  intros Hd Hm. pose proof (digits2_bounds m) as Hm'.
  assert (d - 1 < Z.pos (digits2_pos m)) by (apply (Z.pow_lt_mono_r_iff 2); lia).
  assert (Z.pos (digits2_pos m) - 1 < d) by (apply (Z.pow_lt_mono_r_iff 2); lia). lia.
Qed.

Section rounding.
Context (prec emax : Z).
Lemma bounded_normal m e : 0 < prec → 2 ^ (prec - 1) <= Zpos m < 2 ^ prec → emin prec emax <= e <= emax - prec → bounded prec emax m e = true.
Proof.
  intros Hp Hm He. unfold bounded, canonical_mantissa, fexp. rewrite (digits2_unique m prec) by done.
  rewrite andb_true_iff, Z.eqb_eq, Z.leb_le. lia.
Qed.
Lemma bounded_denormal m : 0 < prec → Zpos m < 2 ^ (prec - 1) → emin prec emax <= emax - prec → bounded prec emax m (emin prec emax) = true.
Proof.
  intros Hp Hm He. unfold bounded, canonical_mantissa, fexp. pose proof (digits2_bounds m).
  assert (Z.pos (digits2_pos m) - 1 < prec - 1) by (apply (Z.pow_lt_mono_r_iff 2); lia).
  rewrite andb_true_iff, Z.eqb_eq, Z.leb_le. lia.
Qed.
Lemma iter_shr p m : SpecFloat.iter_pos shr_1 p (Build_shr_record (Zpos m * 2 ^ Zpos p) false false) = Build_shr_record (Zpos m) false false.
Proof.
  assert (∀ n, shr_1 (Build_shr_record (2 * Zpos n) false false) = Build_shr_record (Zpos n) false false) as H1 by done.
  assert (∀ m (q : positive), Zpos m * 2 ^ Zpos q = Zpos (m * 2 ^ q)) as H2 by (intros; by rewrite Pos2Z.inj_mul, Pos2Z.inj_pow).
  assert (∀ q, 2 ^ (Zpos q + Zpos q) = 2 ^ Zpos q * 2 ^ Zpos q) as H3 by (intros; apply Z.pow_add_r; lia).
  revert m. induction p as [p IH|p IH|]; intros m; cbn [SpecFloat.iter_pos].
  - replace (Zpos m * 2 ^ Zpos p~1) with (2 * Zpos (m * 2 ^ p * 2 ^ p)).
    + rewrite H1, <- H2, IH, <- H2. apply IH.
    + rewrite <- !H2. replace (Zpos p~1) with (1 + (Zpos p + Zpos p)) by lia. rewrite Z.pow_add_r, H3 by lia. ring.
  - replace (Zpos m * 2 ^ Zpos p~0) with (Zpos (m * 2 ^ p) * 2 ^ Zpos p).
    + rewrite IH, <- H2. apply IH.
    + rewrite <- !H2. replace (Zpos p~0) with (Zpos p + Zpos p) by lia. rewrite H3. ring.
  - rewrite Z.pow_1_r, Z.mul_comm. apply H1.
Qed.
Lemma shr_exact m k e : 0 <= k → shr (shr_record_of_loc (Zpos m * 2 ^ k) loc_Exact) e k = (Build_shr_record (Zpos m) false false, e + k).
Proof.
  intros Hk. destruct k as [|p|p]; [|cbn [shr shr_record_of_loc]; by rewrite iter_shr|lia]. by rewrite Z.mul_1_r, Z.add_0_r.
Qed.
Lemma digits2_shift m m' k : 0 <= k → Zpos m = Zpos m' * 2 ^ k → Zpos (digits2_pos m) = Zpos (digits2_pos m') + k.
Proof.
  intros Hk E. pose proof (digits2_bounds m') as [Hl Hu]. apply digits2_unique; [lia|]. rewrite E.
  replace (Zpos (digits2_pos m') + k - 1) with (Zpos (digits2_pos m') - 1 + k) by lia.
  rewrite !Z.pow_add_r by lia. pose proof (Z.pow_pos_nonneg 2 k). nia.
Qed.
Lemma bounded_fexp m e : bounded prec emax m e = true → fexp prec emax (Zpos (digits2_pos m) + e) = e ∧ e <= emax - prec.
Proof. unfold bounded, canonical_mantissa. by rewrite andb_true_iff, Z.eqb_eq, Z.leb_le. Qed.
(** [binary_round_aux] on the mantissa of a number of the format, with [k] more
    digits *)
Lemma binary_round_aux_exact s m k mc ec : 0 <= k → bounded prec emax mc ec = true → Zpos m = Zpos mc * 2 ^ k →
  binary_round_aux prec emax s (Zpos m) (ec - k) loc_Exact = S754_finite s mc ec.
Proof.
  intros Hk Hb E. apply bounded_fexp in Hb as [Hf He]. unfold binary_round_aux, shr_fexp. cbn [Zdigits2].
  rewrite (digits2_shift m mc k Hk E). replace (Zpos (digits2_pos mc) + k + (ec - k)) with (Zpos (digits2_pos mc) + ec) by lia.
  rewrite Hf, E. replace (ec - (ec - k)) with k by lia. rewrite shr_exact by done. cbn [shr_m shr_r shr_s loc_of_shr_record round_nearest_even Zdigits2].
  replace (ec - k + k) with ec by lia. rewrite Hf. rewrite Z.sub_diag. cbn [shr shr_record_of_loc shr_m].
  by rewrite (proj2 (Z.leb_le _ _) He).
Qed.
(** A number of the format whose mantissa has more zeros than it needs ... *)
Lemma binary_round_exact s m e mc ec :
  bounded prec emax mc ec = true → e <= ec → Zpos m = Zpos mc * 2 ^ (ec - e) → binary_round prec emax s m e = S754_finite s mc ec.
Proof.
  intros Hb Hle E. unfold binary_round. pose proof (bounded_fexp _ _ Hb) as [Hf _]. rewrite (digits2_shift m mc (ec - e)) by (done || lia).
  replace (Zpos (digits2_pos mc) + (ec - e) + e) with (Zpos (digits2_pos mc) + ec) by lia. rewrite Hf.
  assert (binary_round_aux prec emax s (Zpos m) e loc_Exact = S754_finite s mc ec) as Ha.
  { replace e with (ec - (ec - e)) by lia. apply binary_round_aux_exact; [lia|done|done]. }
  unfold shl_align. destruct (ec - e) as [|p|p] eqn:D; [done|done|lia].
Qed.
(** ... and one with less. *)
Lemma binary_round_widen s m e mc ec :
  bounded prec emax mc ec = true → ec < e → Zpos mc = Zpos m * 2 ^ (e - ec) → binary_round prec emax s m e = S754_finite s mc ec.
Proof.
  intros Hb Hle E. unfold binary_round. pose proof (bounded_fexp _ _ Hb) as [Hf _].
  assert (Zpos (digits2_pos m) + e = Zpos (digits2_pos mc) + ec) as -> by (rewrite (digits2_shift mc m (e - ec)) by (done || lia); lia).
  rewrite Hf. unfold shl_align. destruct (ec - e) as [|p|p] eqn:D; [lia..|]. replace ec with (ec - 0) at 1 by lia.
  assert (Pos.iter xO m p = mc) as ->.
  { apply Pos2Z.inj. rewrite E. replace (e - ec) with (Zpos p) by lia. clear. induction p as [|p IH] using Pos.peano_ind; [cbn; lia|]. rewrite Pos.iter_succ, Pos2Z.inj_xO, IH, Pos2Z.inj_succ, Z.pow_succ_r by lia. ring. }
  apply binary_round_aux_exact; [done|done|]. by rewrite Z.mul_1_r.
Qed.
End rounding.

(** ** Bits *)
Lemma testbit_top w b : 0 <= b → 0 <= w < 2 ^ (b + 1) → Z.testbit w b = (2 ^ b <=? w).
Proof.
  intros Hb Hw. rewrite Z.pow_add_r in Hw by lia. apply eq_true_iff_eq. rewrite Z.testbit_true, Z.leb_le by done.
  pose proof (Z.pow_pos_nonneg 2 b). destruct (decide (2 ^ b <= w)) as [Hle|Hlt].
  - rewrite <- (Z.div_unique w (2 ^ b) 1 (w - 2 ^ b)) by lia. done.
  - rewrite Z.div_small by lia. split; [done|lia].
Qed.
Lemma lor_hidden w b : 0 <= b → 0 <= w < 2 ^ b → Z.lor w (2 ^ b) = w + 2 ^ b.
Proof.
  intros Hb Hw. assert (Z.land w (2 ^ b) = 0) as H0.
  { apply Z.eqb_eq, negb_false_iff. rewrite land_bit, testbit_top by (rewrite ?Z.pow_add_r; lia). apply Z.leb_gt. lia. }
  by rewrite (Z.add_nocarry_lxor w (2 ^ b)), Z.lxor_lor.
Qed.
Lemma land_ones_mod w b : 0 <= b → Z.land w (2 ^ b - 1) = w mod 2 ^ b.
Proof. intros Hb. rewrite <- Z.land_ones by done. f_equal. by rewrite Z.ones_equiv, Z.sub_1_r. Qed.
(** All bits but the sign *)
Lemma land_not_sign w b : 0 <= b → 0 <= w < 2 ^ (b + 1) → Z.land w (Z.lnot (2 ^ b)) = w mod 2 ^ b.
Proof.
  intros Hb Hw. rewrite <- Z.land_ones by done. apply Z.bits_inj'. intros n Hn. rewrite !Z.land_spec, Z.lnot_spec, Z.pow2_bits_eqb by done.
  destruct (decide (n < b)) as [Hlt|Hge]; [rewrite Z.ones_spec_low by lia|rewrite Z.ones_spec_high by lia].
  - destruct (Z.eqb_spec b n); [lia|done].
  - destruct (Z.eqb_spec b n) as [|Hne]; cbn [negb]; rewrite !andb_false_r; [done|]. rewrite andb_true_r. rewrite <- (Z.mod_small w (2 ^ (b + 1))) by done.
    by rewrite Z.mod_pow2_bits_high by lia.
Qed.

(** ** Decoding a double *)
Lemma normalize_double_ok fuel high low iexp :
  0 <= high < 2 ^ 21 → 0 <= low < 2 ^ 32 → 2 ^ 52 <= (high * 2 ^ 32 + low) * 2 ^ Z.of_nat fuel →
  ∃ k high' low', normalize_double fuel high low iexp = Some (high', low', iexp - k) ∧ 0 <= k ∧ 0 <= low' < 2 ^ 32 ∧
    2 ^ 20 <= high' < 2 ^ 21 ∧ high' * 2 ^ 32 + low' = (high * 2 ^ 32 + low) * 2 ^ k.
Proof.
  revert high low iexp. induction fuel as [|fuel IH]; intros high low iexp Hh Hl Hf; cbn [normalize_double];
    change DHIGHBIT with (2 ^ 20); change DMSBIT with (2 ^ 31); rewrite land_bit, testbit_top by done;
    destruct (Z.leb_spec (2 ^ 20) high) as [Hge|Hlt].
  1,3: exists 0, high, low; rewrite Z.sub_0_r, Z.mul_1_r; repeat split; try done; lia.
  - cbn in Hf. lia.
  - rewrite land_bit, testbit_top by done. rewrite !Z.shiftl_mul_pow2, Z.pow_1_r by done.
    set (c := 2 ^ 31 <=? low). rewrite (wrapU_small 32 (high * 2)) by (cbn in *; lia).
    assert (∃ h1, (if c then wrapU 32 (high * 2 + 1) else high * 2) = h1 ∧ h1 * 2 ^ 32 + wrapU 32 (low * 2) = (high * 2 ^ 32 + low) * 2 ∧ 0 <= h1 < 2 ^ 21) as (h1 & -> & E & Hh1).
    { unfold wrapU, c. destruct (Z.leb_spec (2 ^ 31) low) as [Hb|Hb].
      - exists (high * 2 + 1). rewrite (Z.mod_small (high * 2 + 1)) by (cbn in *; lia). rewrite <- (Z.mod_unique (low * 2) (2 ^ 32) 1 (low * 2 - 2 ^ 32)) by (cbn in *; lia).
        cbn in *; lia.
      - exists (high * 2). rewrite (Z.mod_small (low * 2)) by (cbn in *; lia). cbn in *; lia. }
    destruct (IH h1 (wrapU 32 (low * 2)) (iexp - 1)) as (k & h' & l' & -> & Hk & Hl' & Hh' & E').
    + done.
    + apply wrapU_bound. lia.
    + rewrite E. rewrite Nat2Z.inj_succ, Z.pow_succ_r in Hf by lia. lia.
    + exists (k + 1), h', l'. split; [f_equal; f_equal; lia|]. repeat split; try done; try lia.
      rewrite E', E, Z.pow_add_r by lia. lia.
Qed.

Lemma wrapS_sign w z : 0 < w → 0 <= z < 2 ^ w → (wrapS w z <? 0) = Z.testbit z (w - 1).
Proof.
  intros Hw Hz. rewrite testbit_top by (rewrite ?Z.sub_add; lia). unfold wrapS. rewrite Z.mod_small by done. cbv zeta.
  case_bool_decide; destruct (Z.leb_spec (2 ^ (w - 1)) z); lia.
Qed.
(** The two words of a double *)
Lemma double_words bits : 0 <= bits < 2 ^ 64 →
  let high := bits / 2 ^ 32 in let low := bits mod 2 ^ 32 in
  0 <= high < 2 ^ 32 ∧ 0 <= low < 2 ^ 32 ∧ bits mod 2 ^ 52 = high mod 2 ^ 20 * 2 ^ 32 + low ∧
  bits / 2 ^ 52 = high / 2 ^ 20 ∧ Z.testbit bits 63 = Z.testbit high 31 ∧ wrapU 32 (Z.shiftr bits 32) = high.
Proof.
  intros Hb high low. assert (0 <= high < 2 ^ 32) as Hh by (unfold high; split; [apply Z.div_pos|apply Z.div_lt_upper_bound]; lia).
  split; [done|]. split; [by apply Z.mod_pos_bound|]. split; [|split; [|split]].
  - change (2 ^ 52) with (2 ^ 32 * 2 ^ 20). rewrite Z.rem_mul_r by done. unfold high, low. lia.
  - unfold high. by rewrite Z.div_div.
  - unfold high. rewrite <- Z.shiftr_div_pow2 by done. by rewrite Z.shiftr_spec.
  - rewrite Z.shiftr_div_pow2 by done. by apply wrapU_small.
Qed.
(** The shape of a finite number that is not zero *)
Lemma sf_finite mbits ebits min_exp mant_dig bits s m e :
  0 < mbits → 0 < ebits → sf_of_bits mbits ebits min_exp mant_dig bits = S754_finite s m e →
  s = Z.testbit bits (mbits + ebits) ∧
  ((bits / 2 ^ mbits mod 2 ^ ebits = 0 ∧ 0 < bits mod 2 ^ mbits ∧ Zpos m = bits mod 2 ^ mbits ∧ e = min_exp - mant_dig) ∨
   (0 < bits / 2 ^ mbits mod 2 ^ ebits < 2 ^ ebits - 1 ∧ Zpos m = 2 ^ mbits + bits mod 2 ^ mbits ∧
    e = bits / 2 ^ mbits mod 2 ^ ebits + (min_exp - mant_dig - 1))).
Proof.
  intros Hm He. unfold sf_of_bits. cbv zeta. pose proof (Z.mod_pos_bound bits (2 ^ mbits) ltac:(by apply Z.pow_pos_nonneg; lia)) as Hf.
  pose proof (Z.mod_pos_bound (bits / 2 ^ mbits) (2 ^ ebits) ltac:(by apply Z.pow_pos_nonneg; lia)) as Hx.
  destruct (Z.eqb_spec (bits / 2 ^ mbits mod 2 ^ ebits) 0) as [E0|N0].
  - destruct (Z.eqb_spec (bits mod 2 ^ mbits) 0) as [|Nm]; [done|]. intros [= <- <- <-]. split; [done|left]. rewrite Z2Pos.id; lia.
  - destruct (Z.eqb_spec (bits / 2 ^ mbits mod 2 ^ ebits) (2 ^ ebits - 1)) as [|N1]; [by destruct (_ =? 0)|].
    intros [= <- <- <-]. split; [done|right]. rewrite Z2Pos.id; lia.
Qed.

Lemma decodeDouble_ok bits s m e : 0 <= bits < 2 ^ 64 → double_of_bits bits = S754_finite s m e →
  ∃ high low k, __decodeDouble_2Int bits = Some (mkDecoded (Some (if s then -1 else 1)) high low (e - k)) ∧
    0 <= low < 2 ^ 32 ∧ 2 ^ 20 <= high < 2 ^ 21 ∧ 0 <= k ∧ high * 2 ^ 32 + low = Zpos m * 2 ^ k.
Proof.
  intros Hb Hd. apply sf_finite in Hd as [-> Hd]; [|done..]. change (52 + 11) with 63.
  destruct (double_words bits Hb) as (Hh & Hl & Hm & Hx & Hs & Hw). rewrite Hs in *. unfold __decodeDouble_2Int. rewrite Hw.
  change (wrapU 32 bits) with (bits mod 2 ^ 32). revert Hh Hl Hm Hx Hs Hw. generalize (bits / 2 ^ 32), (bits mod 2 ^ 32). intros high low Hh Hl Hm Hx _ _.
  rewrite Hx, Hm in Hd. change DMSBIT with (2 ^ 31). rewrite land_not_sign by done. cbv zeta.
  rewrite wrapS_sign by done. change (32 - 1) with 31.
  change 0x7ff with (2 ^ 11 - 1). change (DHIGHBIT - 1) with (2 ^ 20 - 1). change DHIGHBIT with (2 ^ 20). rewrite !land_ones_mod, Z.shiftr_div_pow2 by done.
  pose proof (Z.mod_pos_bound high (2 ^ 20) eq_refl) as Hhm.
  destruct ((low =? 0) && (high mod 2 ^ 31 =? 0)) eqn:E0.
  { exfalso. apply andb_true_iff in E0 as [E1%Z.eqb_eq E2%Z.eqb_eq]. subst low. change (2 ^ 31) with (2 ^ 20 * 2 ^ 11) in E2.
    rewrite Z.rem_mul_r in E2 by done. pose proof (Z.mod_pos_bound (high / 2 ^ 20) (2 ^ 11) eq_refl). lia. }
  unfold MY_DMINEXP. destruct Hd as [(Ex & Hm0 & Em & ->)|(Hx' & Em & ->)].
  - rewrite Ex. cbn [negb Z.eqb]. destruct (normalize_double_ok 64 (high mod 2 ^ 20) low (0 + (DBL_MIN_EXP - DBL_MANT_DIG - 1) + 1)) as (k & h & l & En & Hk & Hl' & Hh' & Emk); [lia|done|cbn in *; lia|].
    change (0 + (DBL_MIN_EXP - DBL_MANT_DIG - 1) =? DBL_MIN_EXP - DBL_MANT_DIG - 1) with true. cbn [negb]. rewrite En. cbn [mbind option_bind].
    exists h, l, k. rewrite Em. repeat split; try done; lia.
  - destruct (Z.eqb_spec (high / 2 ^ 20 mod 2 ^ 11 + (DBL_MIN_EXP - DBL_MANT_DIG - 1)) (DBL_MIN_EXP - DBL_MANT_DIG - 1)); [lia|]. cbn [negb mbind option_bind].
    rewrite lor_hidden by done. exists (high mod 2 ^ 20 + 2 ^ 20), low, 0. rewrite Z.sub_0_r. repeat split; try done; try lia.
Qed.

(** ** Encoding *)
Definition with_sign (s : bool) (z : Z) : Z := (if s then -1 else 1) * z.
Lemma abs_with_sign s z : 0 <= z < 2 ^ 63 → __abs (with_sign s z) = z.
Proof.
  intros Hz. unfold __abs, with_sign. rewrite wrapS_small; [|done|].
  - destruct s, (Z.leb_spec 0 (-1 * z)); cbn [Z.leb] in *; try lia; destruct (Z.leb_spec 0 (1 * z)); lia.
  - destruct s; [destruct (Z.leb_spec 0 (-1 * z))|destruct (Z.leb_spec 0 (1 * z))]; cbn in *; lia.
Qed.
Lemma with_sign_neg s z : 0 < z → (with_sign s z <? 0) = s.
Proof. intros Hz. unfold with_sign. destruct s; [apply Z.ltb_lt|apply Z.ltb_ge]; lia. Qed.
Lemma opp_finite (s : bool) m e : (if s then SFopp (S754_finite false m e) else S754_finite false m e) = S754_finite s m e.
Proof. by destruct s. Qed.
(** A mantissa with all its digits *)
Lemma normal_bounds h l : 2 ^ 20 <= h < 2 ^ 21 → 0 <= l < 2 ^ 32 → 2 ^ 52 <= h * 2 ^ 32 + l < 2 ^ 53.
Proof. intros. change (2 ^ 52) with (2 ^ 20 * 2 ^ 32). change (2 ^ 53) with (2 ^ 21 * 2 ^ 32). lia. Qed.
Lemma double_of_int_exact m : 2 ^ 52 <= Zpos m < 2 ^ 53 → double_of_int (Zpos m) = S754_finite false m 0.
Proof.
  intros Hm. unfold double_of_int. cbn [binary_normalize]. apply binary_round_exact; [by apply bounded_normal|done|]. by rewrite Z.mul_1_r.
Qed.
Lemma double_bounded bits s m e : double_of_bits bits = S754_finite s m e → bounded 53 1024 m e = true.
Proof.
  intros [_ Hd]%sf_finite; [|done..]. pose proof (Z.mod_pos_bound bits (2 ^ 52) eq_refl) as Hf.
  destruct Hd as [(_ & _ & Em & ->)|(Hx & Em & ->)].
  - apply bounded_denormal; try done. rewrite Em. apply Hf.
  - apply bounded_normal; [done|rewrite Em; change (2 ^ 53) with (2 ^ 52 + 2 ^ 52); change (53 - 1) with 52; lia|].
    unfold emin, DBL_MIN_EXP, DBL_MANT_DIG in *. lia.
Qed.
Lemma scale_small m m' k : 0 <= k → Zpos m' = Zpos m * 2 ^ k → Zpos m' < 2 ^ 53 → k < 53.
Proof. intros Hk E Hm. apply (Z.pow_lt_mono_r_iff 2); [lia..|]. pose proof (Z.pow_pos_nonneg 2 k). nia. Qed.
Lemma bounded_exp prec emax m e : bounded prec emax m e = true → emin prec emax <= e <= emax - prec.
Proof. intros [Hf He]%bounded_fexp. unfold fexp in Hf. lia. Qed.

(** C38: decoding and encoding a double.  Of every finite number that is not
    zero, denormal ones included, [__decodeDouble_2Int] returns the sign and a
    mantissa of exactly 53 bits with an exponent, whose product is the number;
    [__int_encodeDouble] makes the same number of them again, without rounding. *)
Theorem decodeDouble_roundtrip bits s m e :
  0 <= bits < 2 ^ 64 → double_of_bits bits = S754_finite s m e →
  ∃ high low x, __decodeDouble_2Int bits = Some (mkDecoded (Some (if s then -1 else 1)) high low x) ∧
    0 <= low < 2 ^ 32 ∧ 2 ^ 52 <= high * 2 ^ 32 + low < 2 ^ 53 ∧
    x <= e ∧ high * 2 ^ 32 + low = Zpos m * 2 ^ (e - x) ∧
    __int_encodeDouble ((if s then -1 else 1) * (high * 2 ^ 32 + low)) x = double_of_bits bits.
Proof.
  intros Hb Hd. destruct (decodeDouble_ok bits s m e Hb Hd) as (h & l & k & Hdec & Hl & Hh & Hk & E).
  pose proof (normal_bounds h l Hh Hl) as Hman. exists h, l, (e - k). replace (e - (e - k)) with k by lia.
  split; [done|]. split; [done|]. split; [done|]. split; [lia|]. split; [done|]. rewrite Hd.
  destruct (h * 2 ^ 32 + l) as [|p|p] eqn:Ep; [lia| |lia]. change ((if s then -1 else 1) * Z.pos p) with (with_sign s (Zpos p)).
  unfold __int_encodeDouble. rewrite abs_with_sign by (cbn in *; lia). rewrite with_sign_neg, double_of_int_exact by (done || lia).
  pose proof (double_bounded _ _ _ _ Hd) as Hbd. pose proof (bounded_exp _ _ _ _ Hbd) as He. pose proof (scale_small m p k Hk E ltac:(lia)).
  change (nonzero (S754_finite false p 0)) with true. unfold ldexp, SFldexp. unfold emin in He.
  rewrite wrapS_small by (cbn in *; lia). cbv zeta. unfold DBL_MANT_DIG, DBL_MAX_EXP. rewrite (binary_round_exact _ _ _ _ _ m e).
  - apply opp_finite.
  - done.
  - lia.
  - rewrite E. f_equal. f_equal. lia.
Qed.

(** ** Floats *)
Lemma normalize_float_ok fuel high x : 0 <= high < 2 ^ 24 → 2 ^ 23 <= high * 2 ^ Z.of_nat fuel →
  ∃ k high', normalize_float fuel high x = Some (high', x - k) ∧ 0 <= k ∧ 2 ^ 23 <= high' < 2 ^ 24 ∧ high' = high * 2 ^ k.
Proof.
  revert high x. induction fuel as [|fuel IH]; intros high x Hh Hf; cbn [normalize_float];
    change FHIGHBIT with (2 ^ 23); rewrite land_bit, testbit_top by done;
    destruct (Z.leb_spec (2 ^ 23) high) as [Hge|Hlt].
  1,3: exists 0, high; rewrite Z.sub_0_r, Z.mul_1_r; repeat split; try done; lia.
  - cbn in Hf. lia.
  - rewrite Z.shiftl_mul_pow2, Z.pow_1_r, wrapS_small by (cbn in *; lia).
    destruct (IH (high * 2) (x - 1)) as (k & h' & -> & Hk & Hh' & E'); [cbn in *; lia| |].
    + rewrite Nat2Z.inj_succ, Z.pow_succ_r in Hf by lia. lia.
    + exists (k + 1), h'. split; [f_equal; f_equal; lia|]. repeat split; try done; try lia. rewrite E', Z.pow_add_r by lia. lia.
Qed.
(** The bits of a float as an [int] *)
Lemma wrapS_fields bits : 0 <= bits < 2 ^ 32 →
  Z.land (wrapU 32 (wrapS 32 bits)) (Z.lnot (2 ^ 31)) = bits mod 2 ^ 31 ∧
  Z.land (Z.shiftr (wrapS 32 bits) 23) (2 ^ 8 - 1) = bits / 2 ^ 23 mod 2 ^ 8 ∧
  Z.land (wrapS 32 bits) (2 ^ 23 - 1) = bits mod 2 ^ 23.
Proof.
  intros Hb. assert (∃ c, wrapS 32 bits = bits + c * 2 ^ 32) as [c ->].
  { unfold wrapS. rewrite Z.mod_small by done. case_bool_decide; [exists 0|exists (-1)]; lia. }
  rewrite !land_ones_mod, Z.shiftr_div_pow2 by done. split; [|split].
  - unfold wrapU. rewrite Z.mod_add, Z.mod_small by done. by apply land_not_sign.
  - replace (bits + c * 2 ^ 32) with (bits + (c * 2 ^ 9) * 2 ^ 23) by lia. rewrite Z.div_add by done.
    replace (c * 2 ^ 9) with (c * 2 * 2 ^ 8) by lia. by rewrite Z.mod_add.
  - replace (bits + c * 2 ^ 32) with (bits + (c * 2 ^ 9) * 2 ^ 23) by lia. by rewrite Z.mod_add.
Qed.
Lemma decodeFloat_ok bits s m e : 0 <= bits < 2 ^ 32 → float_of_bits bits = S754_finite s m e →
  ∃ man k, __decodeFloat_Int bits = Some (with_sign s man, e - k) ∧ 2 ^ 23 <= man < 2 ^ 24 ∧ 0 <= k ∧ man = Zpos m * 2 ^ k.
Proof.
  intros Hb Hd. apply sf_finite in Hd as [-> Hd]; [|done..]. change (23 + 8) with (32 - 1).
  destruct (wrapS_fields bits Hb) as (Hz & Hx & Hm). unfold __decodeFloat_Int. change FMSBIT with (2 ^ 31).
  change 0xff with (2 ^ 8 - 1). change (FHIGHBIT - 1) with (2 ^ 23 - 1). cbv zeta. rewrite Hz, Hx, Hm, wrapS_sign by done.
  change FHIGHBIT with (2 ^ 23). pose proof (Z.mod_pos_bound bits (2 ^ 23) eq_refl) as Hf.
  destruct (Z.eqb_spec (bits mod 2 ^ 31) 0) as [E0|_].
  { exfalso. change (2 ^ 31) with (2 ^ 23 * 2 ^ 8) in E0. rewrite Z.rem_mul_r in E0 by done.
    pose proof (Z.mod_pos_bound (bits / 2 ^ 23) (2 ^ 8) eq_refl). lia. }
  assert (∀ (s : bool) man, (if s then - man else man) = with_sign s man) as Hsign by (intros [] man; unfold with_sign; lia).
  unfold MY_FMINEXP. destruct Hd as [(Ex & Hm0 & Em & ->)|(Hx' & Em & ->)].
  - rewrite Ex. change (negb (0 + (FLT_MIN_EXP - FLT_MANT_DIG - 1) =? FLT_MIN_EXP - FLT_MANT_DIG - 1)) with false. cbv iota.
    destruct (normalize_float_ok 64 (bits mod 2 ^ 23) (0 + (FLT_MIN_EXP - FLT_MANT_DIG - 1) + 1)) as (k & h & -> & Hk & Hh & Emk); [lia|cbn in *; lia|].
    cbn [mbind option_bind]. exists h, k. rewrite Hsign, Em. repeat split; try done; lia.
  - destruct (Z.eqb_spec (bits / 2 ^ 23 mod 2 ^ 8 + (FLT_MIN_EXP - FLT_MANT_DIG - 1)) (FLT_MIN_EXP - FLT_MANT_DIG - 1)); [lia|]. cbn [negb mbind option_bind].
    rewrite lor_hidden by done. exists (bits mod 2 ^ 23 + 2 ^ 23), 0. rewrite Hsign, Z.sub_0_r. repeat split; try done; try lia.
Qed.
Lemma float_bounded bits s m e : float_of_bits bits = S754_finite s m e → bounded 24 128 m e = true.
Proof.
  intros [_ Hd]%sf_finite; [|done..]. pose proof (Z.mod_pos_bound bits (2 ^ 23) eq_refl) as Hf.
  destruct Hd as [(_ & _ & Em & ->)|(Hx & Em & ->)].
  - apply bounded_denormal; try done. rewrite Em. apply Hf.
  - apply bounded_normal; [done|rewrite Em; change (2 ^ 24) with (2 ^ 23 + 2 ^ 23); change (24 - 1) with 23; lia|].
    unfold emin, FLT_MIN_EXP, FLT_MANT_DIG in *. lia.
Qed.
(** [ldexp] on floats goes through doubles, which hold every float times any
    power of two that occurs. *)
Lemma ldexpf_exact p m e x : 2 ^ 23 <= Zpos p < 2 ^ 24 → bounded 24 128 m e = true → x <= e → Zpos p = Zpos m * 2 ^ (e - x) →
  ldexpf (S754_finite false p 0) x = S754_finite false m e.
Proof.
  intros Hp Hb Hx E. pose proof (bounded_exp _ _ _ _ Hb) as He. unfold emin in He.
  assert (e - x < 24) by (apply (Z.pow_lt_mono_r_iff 2); [lia..|]; pose proof (Z.pow_pos_nonneg 2 (e - x)); nia).
  assert (Zpos (p * 2 ^ 29) = Zpos p * 2 ^ 29) as Ew by (by rewrite Pos2Z.inj_mul).
  assert (2 ^ 52 <= Zpos (p * 2 ^ 29) < 2 ^ 53) as Hw by (rewrite Ew; cbn in *; lia).
  unfold ldexpf, double_of_float, float_of_double, round_to, ldexp, SFldexp, DBL_MANT_DIG, DBL_MAX_EXP, FLT_MANT_DIG, FLT_MAX_EXP.
  rewrite (binary_round_widen 53 1024 false p 0 (p * 2 ^ 29) (-29)); [|by apply bounded_normal|done|by rewrite Ew].
  cbv iota. rewrite wrapS_small by (cbn in *; lia).
  rewrite (binary_round_exact 53 1024 false (p * 2 ^ 29) (-29 + x) (p * 2 ^ 29) (-29 + x)); [|apply bounded_normal; [done|done|unfold emin; lia]|lia|by rewrite Z.sub_diag, Z.mul_1_r].
  apply binary_round_exact; [done|lia|]. rewrite Ew, E, <- Z.mul_assoc, <- Z.pow_add_r by lia. f_equal. f_equal. lia.
Qed.

(** Decoding and encoding a float.  Of every finite number that is not
    zero [__decodeFloat_Int] returns a mantissa of exactly 24 bits, with the
    sign, and an exponent, whose product is the number; [__int_encodeFloat] makes
    the same number of them again, although its [ldexp] works on doubles. *)
Theorem decodeFloat_roundtrip bits s m e :
  0 <= bits < 2 ^ 32 → float_of_bits bits = S754_finite s m e →
  ∃ man x, __decodeFloat_Int bits = Some (man, x) ∧ 2 ^ 23 <= Z.abs man < 2 ^ 24 ∧
    x <= e ∧ man = (if s then -1 else 1) * Zpos m * 2 ^ (e - x) ∧ __int_encodeFloat man x = float_of_bits bits.
Proof.
  intros Hb Hd. destruct (decodeFloat_ok bits s m e Hb Hd) as (man & k & Hdec & Hman & Hk & E).
  exists (with_sign s man), (e - k). replace (e - (e - k)) with k by lia. split; [done|]. split; [unfold with_sign; destruct s; lia|].
  split; [lia|]. split; [unfold with_sign; lia|]. rewrite Hd. destruct man as [|p|p]; [lia| |lia].
  pose proof (float_bounded _ _ _ _ Hd) as Hbd.
  unfold __int_encodeFloat. rewrite abs_with_sign, with_sign_neg by (cbn in *; lia).
  assert (float_of_int (Zpos p) = S754_finite false p 0) as ->.
  { unfold float_of_int. cbn [binary_normalize]. apply binary_round_exact; [by apply bounded_normal|done|by rewrite Z.mul_1_r]. }
  change (nonzero (S754_finite false p 0)) with true. cbv zeta iota. rewrite (ldexpf_exact p m e); [apply opp_finite|done|done|lia|].
  rewrite E. f_equal. f_equal. lia.
Qed.

(** ** Where the functions do not do what they should *)

(** C39: the sign of zero is not returned: for the two zeros, and only for
    them, [__decodeDouble_2Int] leaves [*man_sign] as it was. *)
Theorem decodeDouble_zero_sign bits :
  0 <= bits < 2 ^ 64 → ((∃ d, __decodeDouble_2Int bits = Some d ∧ man_sign d = None) ↔ ∃ s, double_of_bits bits = S754_zero s).
Proof.
  intros Hb. transitivity (bits mod 2 ^ 52 = 0 ∧ bits / 2 ^ 52 mod 2 ^ 11 = 0).
  - destruct (double_words bits Hb) as (Hh & Hl & -> & -> & _ & Hw). unfold __decodeDouble_2Int. rewrite Hw.
    change (wrapU 32 bits) with (bits mod 2 ^ 32). change DMSBIT with (2 ^ 31). rewrite land_not_sign by done. cbv zeta.
    pose proof (Z.mod_pos_bound (bits / 2 ^ 32) (2 ^ 20) eq_refl). pose proof (Z.mod_pos_bound (bits / 2 ^ 32 / 2 ^ 20) (2 ^ 11) eq_refl).
    change (2 ^ 31) with (2 ^ 20 * 2 ^ 11). rewrite (Z.rem_mul_r (bits / 2 ^ 32)) by done.
    destruct (Z.eqb_spec (bits mod 2 ^ 32) 0) as [E1|E1]; cbn [andb]; [destruct (Z.eqb_spec (bits / 2 ^ 32 mod 2 ^ 20 + 2 ^ 20 * (bits / 2 ^ 32 / 2 ^ 20 mod 2 ^ 11)) 0) as [E2|E2]|].
    + split; [lia|]. intros _. by eexists.
    + split; [|lia]. intros (d & Hd & Hs). destruct (if negb _ then _ else _) as [[[? ?] ?]|]; [|done]. injection Hd as <-. done.
    + split; [|lia]. intros (d & Hd & Hs). destruct (if negb _ then _ else _) as [[[? ?] ?]|]; [|done]. injection Hd as <-. done.
  - unfold double_of_bits, sf_of_bits. cbv zeta. change (2 ^ 11 - 1) with 2047.
    destruct (Z.eqb_spec (bits / 2 ^ 52 mod 2 ^ 11) 0) as [->|]; destruct (Z.eqb_spec (bits mod 2 ^ 52) 0) as [->|]; try (destruct (_ =? 2047)).
    all: split; [intros [??]; try done; by eexists|intros [s Hs]; done].
Qed.
(** Exponents count modulo 2^32: [ldexp] takes an [int]. *)
Theorem encode_exponent_wraps j e : __int_encodeDouble j (e + 2 ^ 32) = __int_encodeDouble j e.
Proof.
  unfold __int_encodeDouble, ldexp. replace (wrapS 32 (e + 2 ^ 32)) with (wrapS 32 e); [done|].
  unfold wrapS. replace (e + 2 ^ 32) with (e + 1 * 2 ^ 32) by lia. by rewrite Z.mod_add.
Qed.
(** The least [I_] has no absolute value: it is encoded as a positive number. *)
Lemma encode_min_int : __int_encodeDouble (- 2 ^ 63) 0 = SFopp (S754_finite true (2 ^ 52) 11).
Proof. by vm_compute. Qed.

(** ** Concrete numbers *)
Lemma decodeDouble_roundtrip_witness :
  0 <= 3 < 2 ^ 64 ∧ ∃ high low x, __decodeDouble_2Int 3 = Some (mkDecoded (Some 1) high low x) ∧
    0 <= low < 2 ^ 32 ∧ 2 ^ 52 <= high * 2 ^ 32 + low < 2 ^ 53 ∧ x <= -1074 ∧ high * 2 ^ 32 + low = 3 * 2 ^ (-1074 - x) ∧
    __int_encodeDouble (1 * (high * 2 ^ 32 + low)) x = double_of_bits 3.
Proof. split; [done|]. by apply (decodeDouble_roundtrip 3 false 3 (-1074)). Defined.
Lemma decodeFloat_roundtrip_witness :
  0 <= 0x80000005 < 2 ^ 32 ∧ ∃ man x, __decodeFloat_Int 0x80000005 = Some (man, x) ∧ 2 ^ 23 <= Z.abs man < 2 ^ 24 ∧
    x <= -149 ∧ man = -1 * 5 * 2 ^ (-149 - x) ∧ __int_encodeFloat man x = float_of_bits 0x80000005.
Proof. split; [done|]. by apply (decodeFloat_roundtrip 0x80000005 true 5 (-149)). Defined.
Lemma decodeDouble_zero_sign_witness :
  (∃ d, __decodeDouble_2Int (2 ^ 63) = Some d ∧ man_sign d = None) ↔ ∃ s, double_of_bits (2 ^ 63) = S754_zero s.
Proof. by apply (decodeDouble_zero_sign (2 ^ 63)). Defined.
