(* ===== verification/Weak.v ===== *)
(** * Weak pointers in a collection (rts/sm/MarkWeak.c)

    [traverseWeakPtrList] decides, between rounds of scavenging, which weak
    pointers are alive, which finalizers have to run, and which threads are
    unreachable and will be resurrected.

    Evacuating and scavenging are the collector's: class [Collector].  Objects
    have an address in from-space and, once evacuated, one in to-space; both
    are addresses of one object, named by its [origin]; [isAlive p] is [p]'s
    address in to-space, if it has one, and [evacuated p] what evacuating leaves
    in a field that contained [p].  The fields of weak
    pointers and threads are kept by that name, so that a field that is written
    before the object is copied is also that of the copy. *)
From stdpp Require Import list gmap.
From S2P Require Import Prelude DList.
Local Open Scope Z_scope.

(** ** The objects *)
Inductive weak_info : Type := WEAK | DEAD_WEAK | OTHER.
(** A [StgWeak]; if it is dead, [StgDeadWeak]'s [link] lies where [cfinalizer]
    was. *)
Record StgWeak : Type := mkWeak {
  w_info : weak_info;
  cfinalizer : ptr;
  key : ptr;
  value : ptr;
  finalizer : ptr;
  link : ptr
}.
Definition dead_link (w : StgWeak) : ptr := cfinalizer w.
Definition set_cfinalizer (x : ptr) (w : StgWeak) : StgWeak := mkWeak (w_info w) x (key w) (value w) (finalizer w) (link w).
Definition set_key (x : ptr) (w : StgWeak) : StgWeak := mkWeak (w_info w) (cfinalizer w) x (value w) (finalizer w) (link w).
Definition set_value (x : ptr) (w : StgWeak) : StgWeak := mkWeak (w_info w) (cfinalizer w) (key w) x (finalizer w) (link w).
Definition set_finalizer (x : ptr) (w : StgWeak) : StgWeak := mkWeak (w_info w) (cfinalizer w) (key w) (value w) x (link w).
Definition set_link (x : ptr) (w : StgWeak) : StgWeak := mkWeak (w_info w) (cfinalizer w) (key w) (value w) (finalizer w) x.

Inductive next_action : Type := ThreadRunGHC | ThreadInterpret | ThreadKilled | ThreadComplete.
Definition BlockedOnCCall : Z := 10.
Definition BlockedOnCCall_Interruptible : Z := 11.
Definition TSO_BLOCKEX : Z := 4.
(** The fields of a [StgTSO] that matter here *)
Record StgTSO : Type := mkTSO {
  global_link : ptr;
  what_next : next_action;
  blocked_exceptions : ptr;
  why_blocked : Z;
  flags : Z
}.
Definition set_global_link (x : ptr) (t : StgTSO) : StgTSO := mkTSO x (what_next t) (blocked_exceptions t) (why_blocked t) (flags t).

Inductive WeakStage : Type := WeakPtrs | WeakThreads | WeakDone.
Record generation : Type := mkGen { old_threads : ptr; threads : ptr }.

(** ** The collector *)
Class Collector (G : Type) : Type := {
  isAlive : G → ptr → ptr;
  evacuate_object : ptr → G → G;
  evacuated : ptr → G → ptr;
  scavenge_until_all_done : G → G;
  origin : ptr → ptr;
  gen_of : ptr → nat
}.

Section weak.
Context {G : Type} `{Collector G}.

Record gc : Type := mkGC {
  collector : G;
  weaks : gmap ptr StgWeak;
  tsos : gmap ptr StgTSO;
  weak_ptr_list : ptr;
  old_weak_ptr_list : ptr;
  resurrected_threads : ptr;
  weak_stage : WeakStage;
  generations : list generation
}.
Definition set_collector (x : G) (s : gc) : gc := mkGC x (weaks s) (tsos s) (weak_ptr_list s) (old_weak_ptr_list s) (resurrected_threads s) (weak_stage s) (generations s).
Definition set_weaks (x : gmap ptr StgWeak) (s : gc) : gc := mkGC (collector s) x (tsos s) (weak_ptr_list s) (old_weak_ptr_list s) (resurrected_threads s) (weak_stage s) (generations s).
Definition set_tsos (x : gmap ptr StgTSO) (s : gc) : gc := mkGC (collector s) (weaks s) x (weak_ptr_list s) (old_weak_ptr_list s) (resurrected_threads s) (weak_stage s) (generations s).
Definition set_weak_ptr_list (x : ptr) (s : gc) : gc := mkGC (collector s) (weaks s) (tsos s) x (old_weak_ptr_list s) (resurrected_threads s) (weak_stage s) (generations s).
Definition set_old_weak_ptr_list (x : ptr) (s : gc) : gc := mkGC (collector s) (weaks s) (tsos s) (weak_ptr_list s) x (resurrected_threads s) (weak_stage s) (generations s).
Definition set_resurrected (x : ptr) (s : gc) : gc := mkGC (collector s) (weaks s) (tsos s) (weak_ptr_list s) (old_weak_ptr_list s) x (weak_stage s) (generations s).
Definition set_weak_stage (x : WeakStage) (s : gc) : gc := mkGC (collector s) (weaks s) (tsos s) (weak_ptr_list s) (old_weak_ptr_list s) (resurrected_threads s) x (generations s).
Definition set_generations (x : list generation) (s : gc) : gc := mkGC (collector s) (weaks s) (tsos s) (weak_ptr_list s) (old_weak_ptr_list s) (resurrected_threads s) (weak_stage s) x.

(** Objects through any of their addresses *)
Definition weak_at (w : ptr) : prog gc StgWeak := s ← get; deref (weaks s !! origin w).
Definition upd_weak (w : ptr) (f : StgWeak → StgWeak) : prog gc unit :=
  x ← weak_at w; modify (λ s, set_weaks (<[origin w := f x]> (weaks s)) s).
Definition tso_at (t : ptr) : prog gc StgTSO := s ← get; deref (tsos s !! origin t).
Definition upd_tso (t : ptr) (f : StgTSO → StgTSO) : prog gc unit :=
  x ← tso_at t; modify (λ s, set_tsos (<[origin t := f x]> (tsos s)) s).
Definition gen_at (g : nat) : prog gc generation := s ← get; deref (generations s !! g).
Definition upd_gen (g : nat) (x : generation) : prog gc unit := modify (λ s, set_generations (<[g := x]> (generations s)) s).

Definition is_alive (p : ptr) : prog gc ptr := s ← get; mret (isAlive (collector s) p).
(** [evacuate(&p)]: the new value of the field [p] *)
Definition evacuate (p : ptr) : prog gc ptr :=
  s ← get;
  modify (set_collector (evacuate_object p (collector s)));;
  mret (evacuated p (collector s)).

(** ** Weak pointers *)
Definition initWeakForGC : prog gc unit :=
  s ← get;
  modify (set_old_weak_ptr_list (weak_ptr_list s));;
  modify (set_weak_ptr_list 0);;
  modify (set_weak_stage WeakPtrs);;
  modify (set_resurrected END).

(** [*last_w = x]: [last_w] is the address of [old_weak_ptr_list], or that of
    the [link] of an object. *)
Definition write_last_w (last_w : option ptr) (x : ptr) : prog gc unit :=
  match last_w with
  | None => modify (set_old_weak_ptr_list x)
  | Some w => upd_weak w (set_link x)
  end.
(** The key of [w] is alive: its value and finalizer are evacuated, and it goes
    to the other list; the result is [next_w]. *)
Definition move_weak (w : ptr) (last_w : option ptr) (x : StgWeak) : prog gc ptr :=
  new ← is_alive (key x);
  upd_weak w (set_key new);;
  v ← evacuate (value x);
  upd_weak w (set_value v);;
  f ← evacuate (finalizer x);
  upd_weak w (set_finalizer f);;
  x ← weak_at w;
  write_last_w last_w (link x);;
  let next_w := link x in
  s ← get;
  upd_weak w (set_link (weak_ptr_list s));;
  modify (set_weak_ptr_list w);;
  mret next_w.
(** The loop over [old_weak_ptr_list]; the result is [flag]. *)
Fixpoint traverse_weaks (fuel : nat) (w : ptr) (last_w : option ptr) (flag : bool) : prog gc bool :=
  if w =? 0 then mret flag else
  match fuel with
  | O => fail Diverges
  | S fuel =>
    x ← weak_at w;
    match w_info x with
    | DEAD_WEAK =>
      let next_w := dead_link x in
      write_last_w last_w next_w;;
      traverse_weaks fuel next_w last_w flag
    | WEAK =>
      new ← is_alive (key x);
      if negb (new =? 0) then
        next_w ← move_weak w last_w x;
        traverse_weaks fuel next_w last_w true
      else traverse_weaks fuel (link x) (Some w) flag
    | OTHER => fail Barf
    end
  end.
(** [for (w = old_weak_ptr_list; w; w = w->link) evacuate(&w->finalizer);] *)
Fixpoint evacuate_finalizers (fuel : nat) (w : ptr) : prog gc unit :=
  if w =? 0 then mret tt else
  match fuel with
  | O => fail Diverges
  | S fuel =>
    x ← weak_at w;
    f ← evacuate (finalizer x);
    upd_weak w (set_finalizer f);;
    evacuate_finalizers fuel (link x)
  end.

(** ** Threads *)

(** [*prev = x]: in [gen->old_threads], or in the [global_link] of a thread *)
Definition write_prev (g : nat) (prev : option ptr) (x : ptr) : prog gc unit :=
  match prev with
  | None => gen ← gen_at g; upd_gen g (mkGen x (threads gen))
  | Some t => upd_tso t (set_global_link x)
  end.
(** The thread goes on the list of its new generation. *)
Definition push_thread (t : ptr) : prog gc unit :=
  let new_gen := gen_of t in
  gen ← gen_at new_gen;
  upd_tso t (set_global_link (threads gen));;
  upd_gen new_gen (mkGen (old_threads gen) t).
(** Exceptions may be pending only if the thread masks them or is in a foreign
    call. *)
Definition exceptions_ok (x : StgTSO) : bool :=
  (blocked_exceptions x =? END) || (why_blocked x =? BlockedOnCCall) || (why_blocked x =? BlockedOnCCall_Interruptible)
  || negb (Z.land (flags x) TSO_BLOCKEX =? 0).
(** The flag that [tidyThreadList] returns is never set. *)
Fixpoint tidy_threads (fuel : nat) (g : nat) (t : ptr) (prev : option ptr) : prog gc bool :=
  if t =? END then mret false else
  match fuel with
  | O => fail Diverges
  | S fuel =>
    tmp ← is_alive t;
    let t := if negb (tmp =? 0) then tmp else t in
    x ← tso_at t;
    let next := global_link x in
    ASSERT (exceptions_ok x);;
    if tmp =? 0 then tidy_threads fuel g next (Some t)
    else
      write_prev g prev next;;
      push_thread t;;
      tidy_threads fuel g next prev
  end.
Definition tidyThreadList (g : nat) : prog gc bool :=
  s ← get;
  gen ← gen_at g;
  tidy_threads (size (tsos s)) g (old_threads gen) None.
Fixpoint resurrect_threads (fuel : nat) (t : ptr) : prog gc unit :=
  if t =? END then mret tt else
  match fuel with
  | O => fail Diverges
  | S fuel =>
    x ← tso_at t;
    let next := global_link x in
    match what_next x with
    | ThreadKilled | ThreadComplete => resurrect_threads fuel next
    | _ =>
      tmp ← evacuate t;
      s ← get;
      upd_tso tmp (set_global_link (resurrected_threads s));;
      modify (set_resurrected tmp);;
      resurrect_threads fuel next
    end
  end.
Definition resurrectUnreachableThreads (g : nat) : prog gc unit :=
  s ← get;
  gen ← gen_at g;
  resurrect_threads (size (tsos s)) (old_threads gen).

(** [for (g = 0; g <= N; g++) if (tidyThreadList(...)) flag = rtsTrue;] *)
Fixpoint tidy_all (n g : nat) (flag : bool) : prog gc bool :=
  match n with
  | O => mret flag
  | S n => b ← tidyThreadList g; tidy_all n (S g) (if b : bool then true else flag)
  end.

(** ** The traversal; [N] is the oldest generation that is collected. *)
Definition traverseWeakPtrList (N : nat) : prog gc bool :=
  s ← get;
  match weak_stage s with
  | WeakDone => mret false
  | WeakPtrs =>
    flag ← traverse_weaks (size (weaks s)) (old_weak_ptr_list s) None false;
    when (negb flag) (
      s ← get;
      evacuate_finalizers (size (weaks s)) (old_weak_ptr_list s);;
      modify (set_weak_stage WeakThreads));;
    mret true
  | WeakThreads =>
    flag ← tidy_all (S N) 0 false;
    if flag : bool then mret true
    else
      for_each (seq 0 (S N)) resurrectUnreachableThreads;;
      modify (set_weak_stage WeakDone);;
      mret true
  end.
(** The loop of [GarbageCollect] *)
Fixpoint scavenge_loop (fuel : nat) (N : nat) : prog gc unit :=
  modify (λ s, set_collector (scavenge_until_all_done (collector s)) s);;
  again ← traverseWeakPtrList N;
  if again : bool then
    match fuel with
    | O => fail Diverges
    | S fuel => scavenge_loop fuel N
    end
  else mret tt.

(** ** Marking the list of weak pointers; [last_w] is the address of
    [weak_ptr_list], or that of the link of an object. *)
Definition read_last_w (last_w : option ptr) : prog gc ptr :=
  match last_w with
  | None => gets weak_ptr_list
  | Some w => x ← weak_at w; mret (match w_info x with DEAD_WEAK => dead_link x | _ => link x end)
  end.
Definition write_mark_w (last_w : option ptr) (p : ptr) : prog gc unit :=
  match last_w with
  | None => modify (set_weak_ptr_list p)
  | Some w => upd_weak w (λ x, match w_info x with DEAD_WEAK => set_cfinalizer p x | _ => set_link p x end)
  end.
Fixpoint mark_weaks (fuel : nat) (w : ptr) (last_w : option ptr) : prog gc unit :=
  if w =? 0 then mret tt else
  match fuel with
  | O => fail Diverges
  | S fuel =>
    q ← read_last_w last_w;
    w ← evacuate q;
    write_mark_w last_w w;;
    x ← weak_at w;
    mark_weaks fuel (link x) (Some w)
  end.
Definition markWeakPtrList : prog gc unit :=
  s ← get;
  mark_weaks (size (weaks s)) (weak_ptr_list s) None.
End weak.
