(* ===== verification/WeakPtr.v ===== *)
(** * Weak pointers: the first stage of a traversal

    Class [CollectorLaws] states what evacuating and scavenging (Evac.c, Scav.c,
    [isAlive] in GCAux.c) promise; then the invariant of the two lists of weak
    pointers, and what a pass over them does: every weak pointer with a live key
    moves to the new list. *)
From stdpp Require Import list gmap relations.
From S2P Require Import Prelude DList Weak.
Local Open Scope Z_scope.

(** ** What the collector promises

    Of one collection:
    - [edge o o']: the collector, having got to the object named [o], follows a
      pointer to [o'];
    - [fixed p]: [p] is static, or in a generation that is not collected: for
      [isAlive] it is alive, whether or not the collector has got to it;
    - [plain p]: evacuating a pointer to [p] leaves a pointer to [p] or its
      copy.  Not so for an indirection, a thunk that has been updated (a
      [BLACKHOLE] with a value), a selector thunk that the collector evaluates
      and a small Int or Char: [stands o o'] if a field that contained [o] then
      contains the indirectee, the value, the shared closure [o'];
    - [reached g p]: the collector has got to [p]: it has been evacuated.  For a
      fixed object this cannot be seen from [isAlive]: evacuating a static
      closure leaves the pointer as it is, and puts the closure on the list of
      those to scavenge, which gets the collector to what its SRT names.

    Whether a selector thunk is evaluated depends on whether the limit on the
    depth of such evaluations is hit; the laws suppose that it is not. *)
Class Tracing (G : Type) : Type := {
  edge : ptr → ptr → Prop;
  stands : ptr → ptr → Prop;
  fixed : ptr → Prop;
  plain : ptr → Prop;
  reached : G → ptr → Prop
}.
Class CollectorLaws (G : Type) `{Collector G} `{Tracing G} : Prop := {
  origin_idem p : origin (origin p) = origin p;
  edge_origin o o' : edge o o' → origin o' = o';
  stands_edge o o' : stands o o' → edge o o';
  reached_origin g p : reached g (origin p) ↔ reached g p;
  isAlive_plain g p : plain p → isAlive g p ≠ 0 ↔ fixed p ∨ reached g p;
  isAlive_copy g p : plain p → isAlive g p ≠ 0 → plain (isAlive g p) ∧ origin (isAlive g p) = origin p ∧ isAlive g (isAlive g p) = isAlive g p;
  evacuated_copy g p : evacuated p g ≠ 0 ∧ isAlive (evacuate_object p g) (evacuated p g) = evacuated p g ∧ rtc stands (origin p) (origin (evacuated p g));
  evacuated_plain g p : plain p → evacuated p g = isAlive (evacuate_object p g) p;
  evacuate_reached g p : reached (evacuate_object p g) p;
  evacuate_mono g p q : reached g q → reached (evacuate_object p g) q;
  evacuate_sound g p q : reached (evacuate_object p g) q → reached g q ∨ rtc edge (origin p) (origin q);
  evacuate_plain g p q : plain p → reached (evacuate_object p g) q → reached g q ∨ origin q = origin p;
  evacuate_same g p q : isAlive g q ≠ 0 → isAlive (evacuate_object p g) q = isAlive g q;
  scavenge_reached g q : reached (scavenge_until_all_done g) q ↔ ∃ p, reached g p ∧ rtc edge (origin p) (origin q);
  scavenge_same g q : isAlive g q ≠ 0 → isAlive (scavenge_until_all_done g) q = isAlive g q
}.

Section weak.
Context {G : Type} `{HCol : Collector G} `{HTr : !Tracing G} `{HG : !CollectorLaws G}.
Notation gc := (gc (G := G)).
Implicit Types (s : gc) (g : G).

(** One collector has got further than another. *)
Definition grows g g' : Prop :=
  (∀ q, isAlive g q ≠ 0 → isAlive g' q = isAlive g q) ∧ ∀ q, reached g q → reached g' q.
Lemma grows_refl g : grows g g.
Proof. done. Qed.
Lemma grows_same g g' q : grows g g' → isAlive g q ≠ 0 → isAlive g' q = isAlive g q.
Proof. intros Hg. apply Hg. Qed.
Lemma grows_alive g g' q : grows g g' → isAlive g q ≠ 0 → isAlive g' q ≠ 0.
Proof. intros Hg Hq. by rewrite (grows_same g). Qed.
Lemma grows_reached g g' q : grows g g' → reached g q → reached g' q.
Proof. intros Hg. apply Hg. Qed.
Lemma grows_trans g1 g2 g3 : grows g1 g2 → grows g2 g3 → grows g1 g3.
Proof.
  intros H1 H2. split; [|intros q Hq; eapply grows_reached; [exact H2|by eapply grows_reached]].
  intros q Hq. rewrite (grows_same g2 g3) by (done || by eapply grows_alive). by apply grows_same.
Qed.
Lemma grows_evacuate g p : grows g (evacuate_object p g).
Proof. split; [apply evacuate_same|apply evacuate_mono]. Qed.
Lemma grows_scavenge g : grows g (scavenge_until_all_done g).
Proof. split; [apply scavenge_same|]. intros q Hq. apply scavenge_reached. by exists q. Qed.
Lemma reached_eq g p q : origin p = origin q → reached g p → reached g q.
Proof. intros E Hp. apply reached_origin. rewrite <- E. by apply reached_origin. Qed.
Lemma reached_evacuate g p q : plain p → reached (evacuate_object p g) q ↔ reached g q ∨ origin q = origin p.
Proof.
  intros Hp. split; [by apply evacuate_plain|]. intros [Hq|E]; [by apply evacuate_mono|]. apply (reached_eq _ p); [done|apply evacuate_reached].
Qed.
Lemma reached_alive g p : plain p → reached g p → isAlive g p ≠ 0.
Proof. intros Hp Hr. apply isAlive_plain; [done|]. by right. Qed.
Lemma dead_not_reached g p : plain p → isAlive g p = 0 → ¬ reached g p.
Proof. intros Hp E Hr. by destruct (reached_alive g p Hp Hr). Qed.
Lemma evacuate_alive g p : plain p → isAlive (evacuate_object p g) p ≠ 0.
Proof. intros Hp. apply reached_alive; [done|apply evacuate_reached]. Qed.

(** [p'] is what the field that contained [p] contains after the object has
    been found: an address in to-space of [p], or of what stands for it. *)
Definition copy_of g (p' p : ptr) : Prop := p' ≠ 0 ∧ isAlive g p' = p' ∧ rtc stands (origin p) (origin p').
Lemma copy_of_grows g g' p' p : grows g g' → copy_of g p' p → copy_of g' p' p.
Proof. intros Hg (H1 & H2 & H3). split; [done|]. split; [|done]. rewrite (grows_same g); congruence. Qed.
Lemma copy_of_evacuated g p : copy_of (evacuate_object p g) (evacuated p g) p.
Proof. apply evacuated_copy. Qed.
Lemma copy_of_alive g p : plain p → isAlive g p ≠ 0 → copy_of g (isAlive g p) p.
Proof. intros Hp Ha. destruct (isAlive_copy g p Hp Ha) as (_ & E1 & E2). split; [done|]. split; [done|]. by rewrite E1. Qed.

(** ** Steps *)
Lemma wp_weak_at w x Q s : weaks s !! origin w = Some x → Q x s → wp (weak_at w) Q s.
Proof. intros Hx HQ. unfold weak_at. wp_step. apply wp_get. cbv beta. by rewrite Hx. Qed.
Lemma wp_upd_weak w f x Q s : weaks s !! origin w = Some x → Q tt (set_weaks (<[origin w := f x]> (weaks s)) s) → wp (upd_weak w f) Q s.
Proof. intros Hx HQ. unfold upd_weak. wp_step. eapply wp_weak_at; [done|]. exact HQ. Qed.
Lemma wp_evacuate p Q s :
  Q (evacuated p (collector s)) (set_collector (evacuate_object p (collector s)) s) → wp (evacuate p) Q s.
Proof. intros HQ. unfold evacuate. wp_steps. exact HQ. Qed.

(** ** Reachability: weak pointers whose keys are alive keep their values and
    finalizers alive. *)
Context (W0 : gmap ptr StgWeak) (Ws : list ptr) (g0 : G).
Inductive live : ptr → Prop :=
  | live_root p : reached g0 p → live (origin p)
  | live_edge o o' : live o → edge o o' → live o'
  | live_value w x : w ∈ Ws → W0 !! origin w = Some x → w_info x = WEAK → live (origin (key x)) → live (origin (value x))
  | live_finalizer w x : w ∈ Ws → W0 !! origin w = Some x → w_info x = WEAK → live (origin (key x)) → live (origin (finalizer x))
  | live_fixed_value w x : w ∈ Ws → W0 !! origin w = Some x → w_info x = WEAK → fixed (key x) → live (origin (value x))
  | live_fixed_finalizer w x : w ∈ Ws → W0 !! origin w = Some x → w_info x = WEAK → fixed (key x) → live (origin (finalizer x)).
Definition live_key (x : StgWeak) : Prop := fixed (key x) ∨ live (origin (key x)).
Lemma live_weak w x : w ∈ Ws → W0 !! origin w = Some x → w_info x = WEAK → live_key x → live (origin (value x)) ∧ live (origin (finalizer x)).
Proof. intros Hw Hx Hi [Hk|Hk]; split; [by eapply live_fixed_value|by eapply live_fixed_finalizer|by eapply live_value|by eapply live_finalizer]. Qed.
Lemma live_rtc o o' : live o → rtc edge o o' → live o'.
Proof. intros Ho Hr. induction Hr as [|o o1 o' He _ IH]; [done|]. apply IH. by eapply live_edge. Qed.
(** The keys are plain: [isAlive] does not look through other objects. *)
Context (Hplain : ∀ w x, w ∈ Ws → W0 !! origin w = Some x → w_info x = WEAK → plain (key x)).

(** A weak pointer that was found alive *)
Record moved_ok g (x0 x : StgWeak) : Prop := {
  mv_key : isAlive g (key x0) ≠ 0 ∧ key x = isAlive g (key x0);
  mv_value : reached g (value x0) ∧ copy_of g (value x) (value x0);
  mv_finalizer : reached g (finalizer x0) ∧ copy_of g (finalizer x) (finalizer x0);
  mv_rest : w_info x = w_info x0 ∧ cfinalizer x = cfinalizer x0
}.
Lemma moved_ok_grows g g' x0 x : grows g g' → moved_ok g x0 x → moved_ok g' x0 x.
Proof.
  intros Hg [[H1 E1] [H2 E2] [H3 E3] H4]. split; [..|done].
  - split; [by eapply grows_alive|]. by rewrite (grows_same g g').
  - split; [by eapply grows_reached|by eapply copy_of_grows].
  - split; [by eapply grows_reached|by eapply copy_of_grows].
Qed.

Definition wnext s (p : ptr) : option ptr := link <$> weaks s !! origin p.
Definition next_of (x : StgWeak) : ptr := match w_info x with DEAD_WEAK => dead_link x | _ => link x end.
Definition onext s (p : ptr) : option ptr := next_of <$> weaks s !! origin p.
(** A weak pointer that is as it was, but for its link *)
Definition untouched s (w : ptr) (x0 : StgWeak) : Prop :=
  W0 !! origin w = Some x0 ∧ ∃ l, weaks s !! origin w = Some (set_link l x0).

(** The lists during a traversal: [M], found alive; [K], looked at; [l], the
    rest from [w] on. *)
Record winv (M K l : list ptr) (w : ptr) (last_w : option ptr) s : Prop := {
  wi_new : slist (wnext s) (weak_ptr_list s) M END;
  wi_done : slist (wnext s) (old_weak_ptr_list s) K w;
  wi_rest : slist (onext s) w l END;
  wi_last : last_w = last K;
  wi_nodup : NoDup (origin <$> M ++ K ++ l);
  wi_left : ∀ w, w ∈ l → ∃ x0, untouched s w x0 ∧ w_info x0 ≠ OTHER;
  wi_kept : ∀ w, w ∈ K → ∃ x0, untouched s w x0 ∧ w_info x0 = WEAK;
  wi_moved : ∀ w, w ∈ M → ∃ x0 x, W0 !! origin w = Some x0 ∧ w_info x0 = WEAK ∧ weaks s !! origin w = Some x ∧ moved_ok (collector s) x0 x;
  wi_sub : ∀ w, w ∈ M ++ K ++ l → w ∈ Ws;
  wi_all : ∀ w x, w ∈ Ws → W0 !! origin w = Some x → w_info x = WEAK → w ∈ M ++ K ++ l;
  wi_sound : ∀ p, reached (collector s) p → live (origin p);
  wi_roots : ∀ p, reached g0 p → reached (collector s) p
}.

(** What the traversal of weak pointers leaves alone *)
Definition same_threads s s' : Prop :=
  tsos s' = tsos s ∧ generations s' = generations s ∧ resurrected_threads s' = resurrected_threads s ∧ weak_stage s' = weak_stage s.
Lemma same_threads_trans s1 s2 s3 : same_threads s1 s2 → same_threads s2 s3 → same_threads s1 s3.
Proof. intros (E1 & E2 & E3 & E4) (F1 & F2 & F3 & F4). split_and!; congruence. Qed.
Lemma onext_untouched s w x0 : untouched s w x0 → w_info x0 = WEAK → onext s w = wnext s w.
Proof. intros (_ & l & E) Hi. unfold onext, wnext. rewrite E. cbn. unfold next_of. cbn. by rewrite Hi. Qed.
(** The end of the list of those that were looked at gets a new successor. *)
Lemma write_last_ok K w p s Q :
  slist (wnext s) (old_weak_ptr_list s) K w → NoDup (origin <$> K) → (∀ y, y ∈ K → ∃ x0, untouched s y x0 ∧ w_info x0 = WEAK) →
  (∀ s', slist (wnext s') (old_weak_ptr_list s') K p → (∀ q, (∀ y, y ∈ K → origin y ≠ origin q) → weaks s' !! origin q = weaks s !! origin q) →
     (∀ y, y ∈ K → ∃ x0, untouched s' y x0 ∧ w_info x0 = WEAK) → same_threads s s' → collector s' = collector s → weak_ptr_list s' = weak_ptr_list s → Q tt s') →
  wp (write_last_w (last K) p) Q s.
Proof.
  intros Hc Hnd Hk HQ. destruct K as [|y K' _] using rev_ind.
  - cbn. apply wp_modify. apply HQ; done.
  - rewrite last_snoc. cbn. destruct (Hk y) as (x0 & (H0 & l & Hy) & Hi); [apply elem_of_app; right; by left|].
    eapply wp_upd_weak; [exact Hy|]. rewrite fmap_app in Hnd. apply NoDup_app in Hnd as (_ & Hnd & _).
    assert (∀ z, z ∈ K' → origin z ≠ origin y) as Hz.
    { intros z Hz E. apply (Hnd (origin z)); [by apply list_elem_of_fmap_2|]. rewrite E. by left. }
    apply HQ; try done.
    + apply slist_app in Hc as (m & Hc & -> & Hn & n & _ & _). apply slist_app. exists y. cbn. split.
      * eapply slist_ext; [|exact Hc]. intros z Hz'. unfold wnext. cbn. rewrite lookup_insert_ne; [done|]. by apply not_eq_sym, Hz.
      * split; [done|]. split; [done|]. exists p. unfold wnext. cbn. by rewrite lookup_insert_eq.
    + intros q Hq. cbn. apply lookup_insert_ne. apply Hq, elem_of_app. right. by left.
    + intros z Hz'. destruct (Hk z Hz') as (z0 & (Hz0 & lz & Ez) & Hiz). destruct (decide (origin y = origin z)) as [E|Hne].
      * exists x0. split; [|done]. unfold untouched. rewrite <- E. split; [done|]. exists p. cbn. by rewrite lookup_insert_eq.
      * exists z0. split; [|done]. split; [done|]. exists lz. cbn. by rewrite lookup_insert_ne.
Qed.
Lemma winv_nodup M K w l p last s : winv M K (w :: l) p last s →
  NoDup (origin <$> K) ∧ NoDup (origin <$> M ++ K ++ l) ∧
  (∀ y, y ∈ M ++ K ++ l → origin y ≠ origin w).
Proof.
  intros HI. pose proof (wi_nodup _ _ _ _ _ _ HI) as Hall. assert (M ++ K ++ w :: l ≡ₚ w :: (M ++ K ++ l)) as E by (rewrite !app_assoc; by rewrite Permutation_middle).
  rewrite E in Hall. cbn in Hall. apply NoDup_cons in Hall as [Hw Hnd]. split; [|split; [done|]].
  - rewrite !fmap_app in Hnd. apply NoDup_app in Hnd as (_ & _ & Hnd). by apply NoDup_app in Hnd as (Hnd & _).
  - intros y Hy Eo. apply Hw. rewrite <- Eo. by apply list_elem_of_fmap_2.
Qed.
(** The list [l] behind an object is not changed by a change of others. *)
Lemma onext_same s s' p l : (∀ y, y ∈ l → weaks s' !! origin y = weaks s !! origin y) → slist (onext s) p l END → slist (onext s') p l END.
Proof. intros Hw. apply slist_ext. intros y Hy. unfold onext. by rewrite Hw. Qed.
Lemma wnext_same s s' p l e : (∀ y, y ∈ l → weaks s' !! origin y = weaks s !! origin y) → slist (wnext s) p l e → slist (wnext s') p l e.
Proof. intros Hw. apply slist_ext. intros y Hy. unfold wnext. by rewrite Hw. Qed.

(** A dead object is taken off the list. *)
Lemma drop_dead_ok M K w l x0 s Q : winv M K (w :: l) w (last K) s → untouched s w x0 → w_info x0 = DEAD_WEAK →
  (∀ s', winv M K l (dead_link x0) (last K) s' → same_threads s s' → collector s' = collector s → Q tt s') →
  wp (write_last_w (last K) (dead_link x0)) Q s.
Proof.
  intros HI [H0 [lk Hx]] Hd HQ. destruct (winv_nodup _ _ _ _ _ _ _ HI) as (HndK & Hnd & Hw). pose proof HI as [I1 I2 I3 _ _ I6 I7 I8 I9 I10 I11 I12].
  assert (∀ y z, y ∈ K → z ∈ M ++ l → origin y ≠ origin z) as Hdisj.
  { intros y z Hy Hz E. assert (M ++ K ++ l ≡ₚ K ++ (M ++ l)) as Ep by (rewrite !app_assoc; f_equiv; apply Permutation_app_comm).
    rewrite Ep, fmap_app in Hnd. apply NoDup_app in Hnd as (_ & Hnd & _). apply (Hnd (origin y)); [by apply list_elem_of_fmap_2|]. rewrite E. by apply list_elem_of_fmap_2. }
  eapply write_last_ok; [exact I2|done|exact I7|]. intros s' J2 Jw J7 Js Jc Jm. apply HQ; [|done|done].
  assert (∀ y, y ∈ M ++ l → weaks s' !! origin y = weaks s !! origin y) as Hsame by (intros y Hy; apply Jw; intros z Hz; by eapply Hdisj).
  split; try done.
  - rewrite Jm. eapply wnext_same; [|exact I1]. intros y Hy. apply Hsame, elem_of_app. by left.
  - destruct I3 as (_ & _ & n & Hn & I3). unfold onext in Hn. rewrite Hx in Hn. cbn in Hn. unfold next_of in Hn. cbn in Hn. rewrite Hd in Hn. injection Hn as <-.
    eapply onext_same; [|exact I3]. intros y Hy. apply Hsame, elem_of_app. by right.
  - intros y Hy. destruct (I6 y) as (y0 & [Hy0 [ly Ey]] & Hi); [by right|]. exists y0. split; [|done]. split; [done|]. exists ly. rewrite Hsame; [done|]. apply elem_of_app. by right.
  - intros y Hy. destruct (I8 y Hy) as (y0 & y1 & Hy0 & Hi & E1 & Hm). exists y0, y1. rewrite Hsame by (apply elem_of_app; by left). by rewrite Jc.
  - intros y Hy. apply I9. rewrite !elem_of_app in *. rewrite elem_of_cons. tauto.
  - intros y y0 Hy Hy0 Hi. specialize (I10 y y0 Hy Hy0 Hi). rewrite !elem_of_app, elem_of_cons in *. destruct I10 as [?|[?|[->|?]]]; [tauto..| |tauto].
    congruence.
  - intros p Hp. rewrite Jc in Hp. by apply I11.
  - intros o Ho. rewrite Jc. by apply I12.
Qed.

(** Its key is alive: value and finalizer are evacuated. *)
Definition evacuate_both (x : StgWeak) g : G := evacuate_object (finalizer x) (evacuate_object (value x) g).
Definition moved (x : StgWeak) (l : ptr) g : StgWeak :=
  mkWeak (w_info x) (cfinalizer x) (isAlive g (key x)) (evacuated (value x) g) (evacuated (finalizer x) (evacuate_object (value x) g)) l.
Lemma grows_both x g : grows g (evacuate_both x g).
Proof. eapply grows_trans; apply grows_evacuate. Qed.
Lemma moved_moved_ok x l g : isAlive g (key x) ≠ 0 → moved_ok (evacuate_both x g) x (moved x l g).
Proof.
  intros Hk. split; cbn.
  - split; [by eapply grows_alive; [apply grows_both|]|]. symmetry. apply grows_same; [apply grows_both|done].
  - split; [eapply grows_reached; [apply grows_evacuate|apply evacuate_reached]|]. eapply copy_of_grows; [apply grows_evacuate|apply copy_of_evacuated].
  - split; [apply evacuate_reached|apply copy_of_evacuated].
  - done.
Qed.
Lemma both_sound x g q : reached (evacuate_both x g) q → reached g q ∨ rtc edge (origin (value x)) (origin q) ∨ rtc edge (origin (finalizer x)) (origin q).
Proof. intros [[Hq|Hq]%evacuate_sound|Hq]%evacuate_sound; tauto. Qed.

Lemma move_weak_ok M K w l x0 lk s Q : winv M K (w :: l) w (last K) s → W0 !! origin w = Some x0 → weaks s !! origin w = Some (set_link lk x0) →
  w_info x0 = WEAK → isAlive (collector s) (key x0) ≠ 0 →
  (∀ s', winv (w :: M) K l lk (last K) s' → same_threads s s' → grows (collector s) (collector s') → Q lk s') →
  wp (move_weak w (last K) (set_link lk x0)) Q s.
Proof.
  intros HI H0 Hx Hd Hkey HQ. destruct (winv_nodup _ _ _ _ _ _ _ HI) as (HndK & Hnd & Hw). pose proof HI as [I1 I2 I3 _ I5 I6 I7 I8 I9 I10 I11 I12].
  assert (∀ y z, y ∈ K → z ∈ M ++ w :: l → origin y ≠ origin z) as Hdisj.
  { intros y z Hy Hz E. assert (M ++ K ++ w :: l ≡ₚ K ++ (M ++ w :: l)) as Ep by (rewrite !app_assoc; f_equiv; apply Permutation_app_comm).
    rewrite Ep, fmap_app in I5. apply NoDup_app in I5 as (_ & I5 & _). apply (I5 (origin y)); [by apply list_elem_of_fmap_2|]. rewrite E. by apply list_elem_of_fmap_2. }
  set (g2 := evacuate_both x0 (collector s)). set (s2 := set_weaks (<[origin w := moved x0 lk (collector s)]> (weaks s)) (set_collector g2 s)).
  unfold move_weak. wp_step. unfold is_alive. wp_steps. eapply wp_upd_weak; [exact Hx|]. wp_step. apply wp_evacuate. wp_step. eapply wp_upd_weak; [cbn; apply lookup_insert_eq|].
  wp_step. apply wp_evacuate. wp_step. eapply wp_upd_weak; [cbn; apply lookup_insert_eq|]. wp_step.
  match goal with |- wp _ _ ?s' => replace s' with s2 end.
  2: { unfold s2, set_weaks, set_collector. cbn. f_equal. rewrite !insert_insert_eq. done. }
  eapply wp_weak_at; [cbn; apply lookup_insert_eq|]. wp_step. cbn [link moved].
  assert (∀ y, origin y ≠ origin w → weaks s2 !! origin y = weaks s !! origin y) as H2 by (intros y Hy; cbn; by apply lookup_insert_ne, not_eq_sym).
  assert (∀ y, y ∈ K → origin y ≠ origin w) as HKw by (intros y Hy; apply Hw; rewrite !elem_of_app; tauto).
  eapply write_last_ok.
  - eapply (wnext_same s); [|exact I2]. intros y Hy. by apply H2, HKw.
  - done.
  - intros y Hy. destruct (I7 y Hy) as (y0 & [Hy0 [ly Ey]] & Hi). exists y0. split; [|done]. split; [done|]. exists ly. rewrite H2; [done|by apply HKw].
  - intros s3 J2 Jw J7 Js Jc Jm. wp_step. apply wp_get. wp_step.
    assert (weaks s3 !! origin w = Some (moved x0 lk (collector s))) as Hw3.
    { rewrite Jw; [cbn; apply lookup_insert_eq|]. intros y Hy. by apply HKw. }
    eapply wp_upd_weak; [exact Hw3|]. wp_step. apply wp_modify. wp_step. rewrite Jm. cbn [weak_ptr_list set_collector set_weaks s2] in *.
    assert (∀ y, y ∈ M ++ l → <[origin w := set_link (weak_ptr_list s) (moved x0 lk (collector s))]> (weaks s3) !! origin y = weaks s !! origin y) as Hsame.
    { intros y Hy. assert (origin y ≠ origin w) by (apply Hw; rewrite !elem_of_app in *; tauto). rewrite lookup_insert_ne by (by apply not_eq_sym).
      rewrite Jw; [by apply H2|]. intros z Hz. apply Hdisj; [done|]. apply elem_of_app. apply elem_of_app in Hy as [Hy|Hy]; [by left|right; by right]. }
    destruct I3 as (_ & Hwn & n & Hn & I3). unfold onext in Hn. rewrite Hx in Hn. cbn in Hn. unfold next_of in Hn. cbn in Hn. rewrite Hd in Hn. injection Hn as <-.
    apply HQ; [|destruct Js as (E1 & E2 & E3 & E4); split_and!; [exact E1|exact E2|exact E3|exact E4]|cbn; rewrite Jc; apply grows_both].
    match goal with |- winv _ _ _ _ _ ?s' => set (s4 := s') end.
    assert (∀ y, y ∈ M ++ l → weaks s4 !! origin y = weaks s !! origin y) as Hs4 by done.
    assert (∀ y, y ∈ K → weaks s4 !! origin y = weaks s3 !! origin y) as Hs4K by (intros y Hy; cbn; by apply lookup_insert_ne, not_eq_sym, HKw).
    assert (weaks s4 !! origin w = Some (moved x0 (weak_ptr_list s) (collector s))) as Hs4w by (cbn; apply lookup_insert_eq).
    assert (weak_ptr_list s4 = w) as Em by done. assert (old_weak_ptr_list s4 = old_weak_ptr_list s3) as Eo by done.
    assert (collector s4 = g2) as Eg by exact Jc. clearbody s4. clear Hsame.
    split; try done.
    + rewrite Em. split; [done|]. split; [done|]. exists (weak_ptr_list s). unfold wnext at 1. rewrite Hs4w. split; [done|].
      eapply wnext_same; [|exact I1]. intros y Hy. apply Hs4, elem_of_app. by left.
    + rewrite Eo. eapply (wnext_same s3); [|exact J2]. exact Hs4K.
    + eapply onext_same; [|exact I3]. intros y Hy. apply Hs4, elem_of_app. by right.
    + assert ((w :: M) ++ K ++ l ≡ₚ M ++ K ++ w :: l) as -> by (rewrite !app_assoc; apply Permutation_middle). done.
    + intros y Hy. destruct (I6 y) as (y0 & [Hy0 [ly Ey]] & Hi); [by right|]. exists y0. split; [|done]. split; [done|]. exists ly. rewrite Hs4; [done|]. apply elem_of_app. by right.
    + intros y Hy. destruct (J7 y Hy) as (y0 & [Hy0 [ly Ey]] & Hi). exists y0. split; [|done]. split; [done|]. exists ly. by rewrite Hs4K.
    + intros y [->|Hy]%elem_of_cons.
      * exists x0, (moved x0 (weak_ptr_list s) (collector s)). rewrite Eg, Hs4w. split; [done|]. split; [done|]. split; [done|]. by apply moved_moved_ok.
      * destruct (I8 y Hy) as (y0 & y1 & Hy0 & Hi & E1 & Hm). exists y0, y1. rewrite Hs4 by (apply elem_of_app; by left). split; [done|]. split; [done|]. split; [done|].
        rewrite Eg. eapply moved_ok_grows; [apply grows_both|exact Hm].
    + intros y Hy. apply I9. revert Hy. rewrite !elem_of_app, !elem_of_cons. tauto.
    + intros y y0 Hy Hy0 Hi. specialize (I10 y y0 Hy Hy0 Hi). revert I10. rewrite !elem_of_app, !elem_of_cons. tauto.
    + intros p Hp. rewrite Eg in Hp.
      assert (w ∈ Ws) as HwW by (apply I9; rewrite !elem_of_app, elem_of_cons; tauto).
      assert (live_key x0) as Hlk by (destruct (proj1 (isAlive_plain _ _ (Hplain w x0 HwW H0 Hd)) Hkey); [by left|right; by apply I11]).
      destruct (live_weak w x0 HwW H0 Hd Hlk). apply both_sound in Hp as [Hp|[Hp|Hp]]; [by apply I11|eapply live_rtc; [|exact Hp]; done..].
    + intros o Ho. rewrite Eg. eapply grows_reached; [apply grows_both|by apply I12].
Qed.

(** Its key is not (yet) alive. *)
Lemma keep_weak M K w l x0 lk s : winv M K (w :: l) w (last K) s → W0 !! origin w = Some x0 → weaks s !! origin w = Some (set_link lk x0) →
  w_info x0 = WEAK → winv M (K ++ [w]) l lk (Some w) s.
Proof.
  intros [I1 I2 I3 _ I5 I6 I7 I8 I9 I10 I11 I12] H0 Hx Hi.
  destruct I3 as (_ & Hwn & n & Hn & I3). unfold onext in Hn. rewrite Hx in Hn. cbn in Hn. unfold next_of in Hn. cbn in Hn. rewrite Hi in Hn. injection Hn as <-.
  split; rewrite <- ?app_assoc; try done.
  - apply slist_app. exists w. split; [done|]. split; [done|]. split; [done|]. exists lk. unfold wnext. by rewrite Hx.
  - by rewrite last_snoc.
  - intros y Hy. apply I6. by right.
  - intros y [Hy| ->%list_elem_of_singleton]%elem_of_app; [by apply I7|]. exists x0. split; [|done]. split; [done|]. by exists lk.
Qed.
Lemma traverse_weaks_ok fuel M K l w flag s Q : winv M K l w (last K) s → (length l ≤ fuel)%nat →
  (∀ M' K' flag' s', winv M' K' [] 0 (last K') s' → same_threads s s' → grows (collector s) (collector s') →
     (length M ≤ length M')%nat → (length M' + length K' ≤ length M + length K + length l)%nat →
     (if flag' : bool then flag = true ∨ (length M < length M')%nat
      else flag = false ∧ collector s' = collector s ∧ ∀ y x0, y ∈ K' → W0 !! origin y = Some x0 → y ∈ K ∨ isAlive (collector s) (key x0) = 0) → Q flag' s') →
  wp (traverse_weaks fuel w (last K) flag) Q s.
Proof.
  revert M K l w flag s. induction fuel as [|fuel IH]; intros M K [|y l] w flag s HI Hf HQ; cbn [traverse_weaks].
  1,3: pose proof (wi_rest _ _ _ _ _ _ HI) as E; cbn in E; subst w; cbn; apply wp_ret; eapply HQ; [exact HI|done|apply grows_refl|done|cbn; lia|destruct flag; [by left|split; [done|split; [done|by left]]]].
  { cbn in Hf. lia. }
  pose proof (wi_rest _ _ _ _ _ _ HI) as (-> & Hn & _). destruct (Z.eqb_spec y 0); [done|].
  destruct (wi_left _ _ _ _ _ _ HI y) as (x0 & [H0 [lk Hx]] & Hi); [by left|]. cbn in Hf. wp_step. eapply wp_weak_at; [exact Hx|]. cbn [w_info set_link].
  destruct (w_info x0) eqn:Ei; [| |done].
  - unfold is_alive at 1. wp_steps. cbn [key set_link]. destruct (Z.eqb_spec (isAlive (collector s) (key x0)) 0) as [Ek|Nk]; cbn [negb].
    + replace (Some y) with (last (K ++ [y])) by apply last_snoc. eapply IH; [by rewrite last_snoc; eapply keep_weak|lia|].
      intros M' K' flag' s' HI' Hs Hg Hlen Hsum Hf'. rewrite length_app in Hsum. cbn in Hsum. eapply HQ; try done; [cbn; lia|]. destruct flag'; [done|]. destruct Hf' as (Hff & Hc & Hk). split; [done|]. split; [done|].
      intros z z0 Hz Hz0. destruct (Hk z z0 Hz Hz0) as [[?| ->%list_elem_of_singleton]%elem_of_app|?]; [by left| |by right].
      right. by replace z0 with x0 by congruence.
    + wp_step. eapply move_weak_ok; [exact HI|exact H0|exact Hx|done|done|]. intros s1 HI1 Hs1 Hg1. eapply IH; [exact HI1|lia|].
      intros M' K' flag' s' HI' Hs Hg Hlen Hsum Hf'. cbn [length] in *. destruct flag'; [|by destruct Hf' as [? _]].
      eapply HQ; [exact HI'|exact (same_threads_trans _ _ _ Hs1 Hs)|exact (grows_trans _ _ _ Hg1 Hg)|lia|lia|right; lia].
  - change (dead_link (set_link lk x0)) with (dead_link x0). wp_step. eapply drop_dead_ok; [exact HI|by split; [|exists lk]|done|]. intros s1 HI1 Hs1 Hc1. eapply IH; [exact HI1|lia|].
    intros M' K' flag' s' HI' Hs Hg Hlen Hsum Hf'. eapply HQ; [exact HI'|exact (same_threads_trans _ _ _ Hs1 Hs)|by rewrite Hc1 in Hg|done|cbn; lia|by rewrite Hc1 in Hf'].
Qed.

(** ** When nothing was found any more *)
Definition scavenged g : Prop := ∀ p o, reached g p → edge (origin p) o → reached g o.
Lemma scavenge_scavenged g : scavenged (scavenge_until_all_done g).
Proof.
  intros p o (q & Hq & Hr)%scavenge_reached He. apply scavenge_reached. exists q. split; [done|].
  rewrite (edge_origin _ _ He). by eapply rtc_r.
Qed.
Lemma live_origin o : live o → origin o = o.
Proof. destruct 1; [apply origin_idem|by eapply edge_origin|apply origin_idem..]. Qed.
(** Exactly the live objects have been reached. *)
Lemma weak_fixpoint M K last_w s : winv M K [] 0 last_w s → scavenged (collector s) →
  (∀ y x0, y ∈ K → W0 !! origin y = Some x0 → isAlive (collector s) (key x0) = 0) →
  ∀ p, reached (collector s) p ↔ live (origin p).
Proof.
  intros HI Hs Hk p. split; [by apply HI|]. intros Hp. apply reached_origin.
  assert (∀ w x, w ∈ Ws → W0 !! origin w = Some x → w_info x = WEAK → fixed (key x) ∨ reached (collector s) (origin (key x)) →
    reached (collector s) (value x) ∧ reached (collector s) (finalizer x)) as Hw.
  { intros w x Hw Hx Hi Hkr. pose proof (wi_all _ _ _ _ _ _ HI w x Hw Hx Hi) as Hin. rewrite app_nil_r in Hin. apply elem_of_app in Hin as [Hin|Hin].
    - destruct (wi_moved _ _ _ _ _ _ HI w Hin) as (x0 & x1 & Hx0 & _ & _ & [_ [Hv _] [Hf _] _]). by replace x with x0 by congruence.
    - exfalso. assert (isAlive (collector s) (key x) ≠ 0) as Hne; [|by destruct Hne; apply (Hk w)].
      apply isAlive_plain; [by eapply Hplain|]. by rewrite reached_origin in Hkr. }
  induction Hp as [q Hq|o o' Ho IH He|w x Hw1 Hx Hi Hkey IH|w x Hw1 Hx Hi Hkey IH|w x Hw1 Hx Hi Hkey|w x Hw1 Hx Hi Hkey].
  - apply reached_origin. by apply (wi_roots _ _ _ _ _ _ HI).
  - apply (Hs o); [done|]. by rewrite live_origin.
  - apply reached_origin, (Hw w x); auto.
  - apply reached_origin, (Hw w x); auto.
  - apply reached_origin, (Hw w x); auto.
  - apply reached_origin, (Hw w x); auto.
Qed.

(** ** Finalizers of the dead *)
Definition dead_weak (w : ptr) (x : StgWeak) : Prop := w ∈ Ws ∧ W0 !! origin w = Some x ∧ w_info x = WEAK ∧ ¬ live_key x.
Inductive live_fin : ptr → Prop :=
  | fin_live o : live o → live_fin o
  | fin_dead w x : dead_weak w x → live_fin (origin (finalizer x))
  | fin_edge o o' : live_fin o → edge o o' → live_fin o'.
Lemma live_fin_rtc o o' : live_fin o → rtc edge o o' → live_fin o'.
Proof. intros Ho Hr. induction Hr as [|o o1 o' He _ IH]; [done|]. apply IH. by eapply fin_edge. Qed.
(** The weak pointers after the first stage: [M] alive, [K] dead *)
Record wdone (M K : list ptr) s : Prop := {
  wd_new : slist (wnext s) (weak_ptr_list s) M END;
  wd_old : slist (wnext s) (old_weak_ptr_list s) K END;
  wd_moved : ∀ w, w ∈ M → ∃ x0 x, W0 !! origin w = Some x0 ∧ w_info x0 = WEAK ∧ live_key x0 ∧
    weaks s !! origin w = Some x ∧ moved_ok (collector s) x0 x;
  wd_dead : ∀ w, w ∈ K → ∃ x0 lk f, dead_weak w x0 ∧ reached (collector s) (finalizer x0) ∧
    weaks s !! origin w = Some (set_link lk (set_finalizer f x0)) ∧ copy_of (collector s) f (finalizer x0);
  wd_all : ∀ w x, w ∈ Ws → W0 !! origin w = Some x → w_info x = WEAK → w ∈ M ∨ w ∈ K
}.
Lemma evacuate_finalizers_ok fuel M K1 K2 w s Q :
  let K := K1 ++ K2 in
  NoDup (origin <$> M ++ K) → slist (wnext s) (weak_ptr_list s) M END → slist (wnext s) (old_weak_ptr_list s) K END → slist (wnext s) w K2 END →
  (∀ w, w ∈ M → ∃ x0 x, W0 !! origin w = Some x0 ∧ w_info x0 = WEAK ∧ live_key x0 ∧ weaks s !! origin w = Some x ∧ moved_ok (collector s) x0 x) →
  (∀ w, w ∈ K1 → ∃ x0 lk f, dead_weak w x0 ∧ reached (collector s) (finalizer x0) ∧
    weaks s !! origin w = Some (set_link lk (set_finalizer f x0)) ∧ copy_of (collector s) f (finalizer x0)) →
  (∀ w, w ∈ K2 → ∃ x0 lk, dead_weak w x0 ∧ weaks s !! origin w = Some (set_link lk x0)) →
  (∀ w x, w ∈ Ws → W0 !! origin w = Some x → w_info x = WEAK → w ∈ M ∨ w ∈ K) →
  (∀ p, reached (collector s) p → live_fin (origin p)) → (length K2 ≤ fuel)%nat →
  (∀ s', wdone M K s' → same_threads s s' → grows (collector s) (collector s') → (∀ p, reached (collector s') p → live_fin (origin p)) → Q tt s') →
  wp (evacuate_finalizers fuel w) Q s.
Proof.
  revert K1 K2 w s. induction fuel as [|fuel IH]; intros K1 [|y K2] w s K Hnd Hm Hold Hrest HM HK1 HK2 Hall Hsound Hf HQ; cbn [evacuate_finalizers].
  1,3: cbn in Hrest; subst w; cbn; apply wp_ret; unfold K in *; rewrite app_nil_r in *; apply HQ; [by split|done|apply grows_refl|done].
  { cbn in Hf. lia. }
  destruct Hrest as (-> & Hy0 & n & Hn & Hrest). destruct (Z.eqb_spec y 0); [done|].
  destruct (HK2 y) as (x0 & lk & Hd & Hx); [by left|]. unfold wnext in Hn. rewrite Hx in Hn. injection Hn as <-.
  wp_step. eapply wp_weak_at; [exact Hx|]. wp_step. apply wp_evacuate. wp_step. eapply wp_upd_weak; [exact Hx|]. cbn [finalizer link set_link].
  set (g2 := evacuate_object (finalizer x0) (collector s)).
  assert (∀ z, z ∈ M ++ K1 ++ K2 → origin z ≠ origin y) as Hz.
  { intros z Hz E. unfold K in Hnd. assert (M ++ K1 ++ y :: K2 ≡ₚ y :: (M ++ K1 ++ K2)) as Ep by (rewrite !app_assoc; by rewrite Permutation_middle).
    rewrite Ep in Hnd. cbn in Hnd. apply NoDup_cons in Hnd as [Hnd _]. apply Hnd. rewrite <- E. by apply list_elem_of_fmap_2. }
  match goal with |- wp _ _ ?s' => set (s1 := s') end.
  assert (∀ z, z ∈ M ++ K1 ++ K2 → weaks s1 !! origin z = weaks s !! origin z) as H1 by (intros z Hz'; cbn; by apply lookup_insert_ne, not_eq_sym, Hz).
  assert (weaks s1 !! origin y = Some (set_link lk (set_finalizer (evacuated (finalizer x0) (collector s)) x0))) as H2 by (cbn; by rewrite lookup_insert_eq).
  assert (∀ z, wnext s1 z = wnext s z) as H3.
  { intros z. unfold wnext. destruct (decide (origin z = origin y)) as [E|Hne]; [by rewrite E, H2, Hx|]. cbn. rewrite lookup_insert_ne; [done|by apply not_eq_sym]. }
  assert (collector s1 = g2) as H4 by done. assert (same_threads s s1) as H5 by done.
  assert (weak_ptr_list s1 = weak_ptr_list s ∧ old_weak_ptr_list s1 = old_weak_ptr_list s) as [H6 H7] by done. clearbody s1.
  assert (grows (collector s) (collector s1)) as Hg by (rewrite H4; apply grows_evacuate).
  apply (IH (K1 ++ [y]) K2); rewrite <- ?app_assoc; rewrite ?H6, ?H7; try done; try (eapply slist_ext; [intros; apply H3|done]).
  - intros z Hzm. destruct (HM z Hzm) as (z0 & z1 & A1 & A2 & A3 & A4 & A5). exists z0, z1. rewrite H1 by (apply elem_of_app; by left). split_and!; try done. by eapply moved_ok_grows.
  - intros z [Hzk| ->%list_elem_of_singleton]%elem_of_app.
    + destruct (HK1 z Hzk) as (z0 & lz & f & A1 & A2 & A3 & A4). exists z0, lz, f. rewrite H1 by (rewrite !elem_of_app; tauto). split_and!; try done; [by eapply grows_reached|by eapply copy_of_grows].
    + exists x0, lk, (evacuated (finalizer x0) (collector s)). rewrite H4. split_and!; try done; [apply evacuate_reached|apply copy_of_evacuated].
  - intros z Hzk. rewrite H1 by (rewrite !elem_of_app; tauto). apply HK2. by right.
  - intros p Hp. rewrite H4 in Hp. apply evacuate_sound in Hp as [Hp|Hp]; [by apply Hsound|]. eapply live_fin_rtc; [|exact Hp]. by eapply fin_dead.
  - cbn in Hf. lia.
  - intros s' HD Hs Hg' Hsd. apply HQ; [done|exact (same_threads_trans _ _ _ H5 Hs)|exact (grows_trans _ _ _ Hg Hg')|done].
Qed.

Lemma fin_fixpoint g : scavenged g → (∀ p, live (origin p) → reached g p) → (∀ w x, dead_weak w x → reached g (finalizer x)) →
  ∀ o, live_fin o → reached g o.
Proof.
  intros Hs Hl Hd o. assert (∀ o, live_fin o → origin o = o) as Ho.
  { destruct 1; [by apply live_origin|apply origin_idem|by eapply edge_origin]. }
  induction 1 as [o H1|w x H1|o o' H1 IH He].
  - apply Hl. by rewrite live_origin.
  - apply reached_origin. by eapply Hd.
  - apply (Hs o); [done|]. by rewrite Ho.
Qed.
End weak.
