(* ===== verification/WeakThreads.v ===== *)
(** * Weak pointers: the second stage of a traversal

    The lists of threads: [tidyThreadList] sorts the threads that were reached
    into their new generations, [resurrectUnreachableThreads] evacuates the
    others. *)
From stdpp Require Import list gmap relations.
From S2P Require Import Prelude DList Weak WeakPtr.
Local Open Scope Z_scope.

Inductive place : Type := PT (h : nat) | PO (h : nat) | PR.
#[export] Instance place_eq_dec : EqDecision place.
Proof. solve_decision. Defined.

Section threads.
Context {G : Type} `{HCol : Collector G} `{HTr : !Tracing G} `{HG : !CollectorLaws G}.
Notation gc := (gc (G := G)).
Implicit Types (s : gc) (g : G) (L : place → list ptr).
Context (T0 : gmap ptr StgTSO).

Lemma wp_tso_at t x Q s : tsos s !! origin t = Some x → Q x s → wp (tso_at t) Q s.
Proof. intros Hx HQ. unfold tso_at. wp_step. apply wp_get. cbv beta. by rewrite Hx. Qed.
Lemma wp_set_tso t f x Q s : tsos s !! origin t = Some x → Q tt (set_tsos (<[origin t := f x]> (tsos s)) s) → wp (upd_tso t f) Q s.
Proof. intros Hx HQ. unfold upd_tso. wp_step. eapply wp_tso_at; [done|]. exact HQ. Qed.
Lemma wp_gen_at h x Q s : generations s !! h = Some x → Q x s → wp (gen_at h) Q s.
Proof. intros Hx HQ. unfold gen_at. wp_step. apply wp_get. cbv beta. by rewrite Hx. Qed.

Definition gnext s (p : ptr) : option ptr := global_link <$> tsos s !! origin p.
(** The three kinds of lists: the threads of a generation, those it had before
    the collection, and the resurrected ones *)
Definition head_of s (p : place) : option ptr :=
  match p with
  | PT h => threads <$> generations s !! h
  | PO h => old_threads <$> generations s !! h
  | PR => Some (resurrected_threads s)
  end.
Definition disjoint_lists L : Prop :=
  (∀ p, NoDup (origin <$> L p)) ∧ ∀ p q x y, x ∈ L p → y ∈ L q → origin x = origin y → p = q.
(** A thread that is as it was, but for its link *)
Definition tnode s (t : ptr) (t0 : StgTSO) : Prop :=
  T0 !! origin t = Some t0 ∧ plain t ∧ ∃ lk, tsos s !! origin t = Some (set_global_link lk t0).
Definition upd_list L (p : place) (l : list ptr) : place → list ptr := λ q, if decide (q = p) then l else L q.
Lemma upd_list_eq L p l : upd_list L p l p = l.
Proof. unfold upd_list. by rewrite decide_True. Qed.
Lemma upd_list_ne L p l q : q ≠ p → upd_list L p l q = L q.
Proof. intros Hne. unfold upd_list. by rewrite decide_False. Qed.
(** What the work on threads leaves alone *)
Definition same_weaks s s' : Prop :=
  weaks s' = weaks s ∧ weak_ptr_list s' = weak_ptr_list s ∧ old_weak_ptr_list s' = old_weak_ptr_list s ∧ weak_stage s' = weak_stage s.
Lemma same_weaks_trans s1 s2 s3 : same_weaks s1 s2 → same_weaks s2 s3 → same_weaks s1 s3.
Proof. intros (E1 & E2 & E3 & E4) (F1 & F2 & F3 & F4). split_and!; congruence. Qed.

(** The lists while the old threads of generation [h] are looked at: [K], those
    that stay; [l], the rest from [t] on. *)
Record tidying (h : nat) L (K l : list ptr) (t : ptr) (prev : option ptr) s : Prop := {
  td_lists : ∀ p q, p ≠ PO h → head_of s p = Some q → slist (gnext s) q (L p) END;
  td_done : ∃ q, head_of s (PO h) = Some q ∧ slist (gnext s) q K t;
  td_rest : slist (gnext s) t l END;
  td_prev : prev = last K;
  td_split : L (PO h) = K ++ l;
  td_disjoint : disjoint_lists L;
  td_nodes : ∀ p x, x ∈ L p → ∃ t0, tnode s x t0;
  td_gens : ∀ x, (gen_of x < length (generations s))%nat
}.
(** Changing the link of a thread that is in one list *)
Lemma gnext_other L s p x t1 : disjoint_lists L → x ∈ L p →
  ∀ q, q ≠ p → ∀ y, y ∈ L q → gnext (set_tsos (<[origin x := t1]> (tsos s)) s) y = gnext s y.
Proof.
  intros [_ Hd] Hx q Hq y Hy. unfold gnext. cbn. rewrite lookup_insert_ne; [done|]. intros E. by destruct Hq; apply (Hd q p y x).
Qed.
Lemma tnode_set s x lk y t0 t1 : tnode s x t1 → tnode s y t0 → ∃ t2, tnode (set_tsos (<[origin x := set_global_link lk t1]> (tsos s)) s) y t2.
Proof.
  intros [H1 _] (H0 & Hp & ly & Hy). destruct (decide (origin x = origin y)) as [E|Hne].
  - exists t1. unfold tnode. rewrite <- E. split; [done|]. split; [done|]. exists lk. cbn. by rewrite lookup_insert_eq.
  - exists t0. split; [done|]. split; [done|]. exists ly. cbn. by rewrite lookup_insert_ne.
Qed.
Lemma disjoint_members h L K x l t prev s : tidying h L K (x :: l) t prev s → NoDup (origin <$> K ++ l) ∧ (∀ y, y ∈ K ++ l → origin y ≠ origin x).
Proof.
  intros HI. pose proof (proj1 (td_disjoint _ _ _ _ _ _ _ HI) (PO h)) as Hn. rewrite (td_split _ _ _ _ _ _ _ HI) in Hn.
  assert (K ++ x :: l ≡ₚ x :: (K ++ l)) as E by (by rewrite Permutation_middle). rewrite E in Hn. cbn in Hn. apply NoDup_cons in Hn as [Hx Hn].
  split; [done|]. intros y Hy Eo. apply Hx. rewrite <- Eo. by apply list_elem_of_fmap_2.
Qed.

Lemma head_of_upd_gen h gen o th p s : generations s !! h = Some gen →
  head_of (set_generations (<[h := mkGen o th]> (generations s)) s) p =
    if decide (p = PO h) then Some o else if decide (p = PT h) then Some th else head_of s p.
Proof.
  intros Hg. assert (h < length (generations s))%nat as Hlt by (by eapply lookup_lt_Some).
  destruct p as [k|k|]; cbn; [destruct (decide (k = h)) as [->|]..|].
  - rewrite list_lookup_insert_eq by done. rewrite decide_False by done. by rewrite decide_True.
  - rewrite list_lookup_insert_ne by done. rewrite !decide_False by congruence. done.
  - rewrite list_lookup_insert_eq by done. by rewrite decide_True.
  - rewrite list_lookup_insert_ne by done. rewrite !decide_False by congruence. done.
  - by rewrite !decide_False.
Qed.
(** The thread [x] is taken off the list of old threads. *)
Lemma write_prev_ok h L K x l t prev n s Q : tidying h L K (x :: l) t prev s → slist (gnext s) n l END →
  (∀ s', (∀ p q, p ≠ PO h → head_of s' p = Some q → slist (gnext s') q (L p) END) →
     (∃ q, head_of s' (PO h) = Some q ∧ slist (gnext s') q K n) → slist (gnext s') n l END →
     (∀ p y, y ∈ L p → ∃ t0, tnode s' y t0) → (∀ p, is_Some (head_of s' p) ↔ is_Some (head_of s p)) →
     length (generations s') = length (generations s) → same_weaks s s' → collector s' = collector s →
     resurrected_threads s' = resurrected_threads s → Q tt s') →
  wp (write_prev h prev n) Q s.
Proof.
  intros HI Hn HQ. destruct (disjoint_members _ _ _ _ _ _ _ _ HI) as [HndK Hx]. pose proof HI as [I1 (q0 & Hq0 & I2) _ -> I5 I6 I7 I8].
  destruct K as [|y K' _] using rev_ind.
  - cbn [last write_prev]. cbn in Hq0. destruct (generations s !! h) as [gen|] eqn:Eg; [|done]. wp_step. eapply wp_gen_at; [exact Eg|]. unfold upd_gen. apply wp_modify.
    apply HQ; try done.
    + intros p q Hp. rewrite (head_of_upd_gen h gen) by done. rewrite decide_False by done. destruct (decide (p = PT h)) as [->|]; [|by apply I1].
      intros [= <-]. apply (I1 (PT h)); [done|]. cbn. by rewrite Eg.
    + exists n. rewrite (head_of_upd_gen h gen) by done. by rewrite decide_True.
    + intros p. rewrite (head_of_upd_gen h gen) by done. destruct (decide (p = PO h)) as [->|]; [cbn; rewrite Eg; split; intros _; by eexists|].
      destruct (decide (p = PT h)) as [->|]; [cbn; rewrite Eg; split; intros _; by eexists|done].
    + cbn. by rewrite length_insert.
  - rewrite last_snoc. cbn [write_prev]. assert (y ∈ L (PO h)) as HyL by (rewrite I5, !elem_of_app; left; right; by left).
    destruct (I7 _ _ HyL) as (t0 & Ht). pose proof Ht as (HT & _ & lk & Hy). eapply wp_set_tso; [exact Hy|].
    assert (∀ z, z ∈ K' ++ l → origin y ≠ origin z) as Hz.
    { intros z Hz E. assert ((K' ++ [y]) ++ l ≡ₚ y :: (K' ++ l)) as Ep by (rewrite <- app_assoc; cbn; by rewrite Permutation_middle).
      rewrite Ep in HndK. cbn in HndK. apply NoDup_cons in HndK as [Hnd _]. apply Hnd. rewrite E. by apply list_elem_of_fmap_2. }
    apply HQ; try done.
    + intros p q Hp Hh. eapply slist_ext; [|by apply (I1 p q Hp)]. intros z Hz'. eapply gnext_other; [exact I6|exact HyL|exact Hp|exact Hz'].
    + exists q0. split; [done|]. apply slist_app in I2 as (m & I2 & -> & Hne & _). apply slist_app. exists y. split.
      * eapply slist_ext; [|exact I2]. intros z Hz'. unfold gnext. cbn. rewrite lookup_insert_ne; [done|]. apply Hz, elem_of_app. by left.
      * split; [done|]. split; [done|]. exists n. unfold gnext. cbn. by rewrite lookup_insert_eq.
    + eapply slist_ext; [|exact Hn]. intros z Hz'. unfold gnext. cbn. rewrite lookup_insert_ne; [done|]. apply Hz, elem_of_app. by right.
    + intros p z Hzl. destruct (I7 _ _ Hzl) as (z0 & Hz0). exact (tnode_set s y n z z0 t0 Ht Hz0).
Qed.
(** It goes to the threads of its new generation, under its new address. *)
Lemma tidy_move_ok h L K x l t prev n t' s Q : tidying h L K (x :: l) t prev s → slist (gnext s) n l END → plain t' → origin t' = origin x → t' ≠ END →
  (∀ s', tidying h (upd_list (upd_list L (PO h) (K ++ l)) (PT (gen_of t')) (t' :: L (PT (gen_of t')))) K l n prev s' →
     same_weaks s s' → collector s' = collector s → resurrected_threads s' = resurrected_threads s → length (generations s') = length (generations s) → Q tt s') →
  wp (write_prev h prev n;; push_thread t') Q s.
Proof.
  intros HI Hn Hpl Et Ht' HQ. wp_step. eapply write_prev_ok; [exact HI|exact Hn|]. intros s1 J1 (q1 & Hq1 & J2) J3 J4 J5 J6 Js Jc Jr.
  destruct (disjoint_members _ _ _ _ _ _ _ _ HI) as [HndK Hx]. pose proof HI as [_ _ _ Ep I5 I6 I7 I8].
  unfold push_thread. assert (is_Some (generations s1 !! gen_of t')) as [gen Hgen] by (apply lookup_lt_is_Some; rewrite J6; apply I8).
  wp_step. eapply wp_gen_at; [exact Hgen|]. wp_step. assert (x ∈ L (PO h)) as HxL by (rewrite I5, elem_of_app; right; by left).
  destruct (J4 _ _ HxL) as (t0 & Ht0). pose proof Ht0 as (HT & _ & lk & Hxt). eapply wp_set_tso; [by rewrite Et|]. unfold upd_gen. apply wp_modify.
  rewrite Et.
  set (ng := gen_of t') in *. set (L' := upd_list (upd_list L (PO h) (K ++ l)) (PT ng) (t' :: L (PT ng))).
  match goal with |- Q tt ?s' => set (s2 := s') end.
  assert (∀ p y, y ∈ L p → p ≠ PO h → gnext s2 y = gnext s1 y) as Hother.
  { intros p y Hy Hp. exact (gnext_other L s1 (PO h) x _ I6 HxL p Hp y Hy). }
  assert (∀ y, y ∈ K ++ l → gnext s2 y = gnext s1 y) as Hold.
  { intros y Hy. unfold gnext. cbn. rewrite lookup_insert_ne; [done|]. by apply not_eq_sym, Hx. }
  assert (gnext s2 t' = Some (threads gen)) as Hnew by (unfold gnext; cbn; by rewrite Et, lookup_insert_eq).
  assert (∀ p, head_of s2 p = if decide (p = PO ng) then Some (old_threads gen) else if decide (p = PT ng) then Some t' else head_of s1 p) as Hhead.
  { intros p. exact (head_of_upd_gen ng gen (old_threads gen) t' p (set_tsos _ s1) Hgen). }
  assert (∀ p, p ≠ PT ng → head_of s2 p = head_of s1 p) as Hhead'.
  { intros p Hp. rewrite Hhead. destruct (decide (p = PO ng)) as [->|]; [cbn; by rewrite Hgen|by rewrite decide_False]. }
  assert (∀ p y, y ∈ L p → p ≠ PO h → origin y ≠ origin x) as Hxo by (intros p y Hy Hp E; by destruct Hp; apply (proj2 I6 _ _ y x)).
  assert (∀ p y, y ∈ L' p → (y = t' ∧ p = PT ng) ∨ (y ∈ L p ∧ origin y ≠ origin x)) as HL'.
  { intros p y. unfold L', upd_list. repeat case_decide; subst.
    - intros [->|Hy]%elem_of_cons; [by left|right; split; [done|by eapply Hxo]].
    - intros Hy. right. split; [rewrite I5; rewrite !elem_of_app, ?elem_of_cons in *; tauto|by apply Hx].
    - intros Hy. right. split; [done|by eapply Hxo]. }
  apply HQ; [split| | | |]; try done.
  - intros p q Hp Hq. unfold L'. destruct (decide (p = PT ng)) as [->|Hpt].
    + rewrite upd_list_eq. rewrite Hhead, decide_False, decide_True in Hq by done. injection Hq as <-. split; [done|]. split; [done|]. exists (threads gen).
      split; [exact Hnew|]. eapply slist_ext; [|apply (J1 (PT ng)); [done|cbn; by rewrite Hgen]]. intros y Hy. by eapply Hother.
    + rewrite !upd_list_ne by done. rewrite Hhead' in Hq by done. eapply slist_ext; [|by apply (J1 p q Hp)]. intros y Hy. by eapply Hother.
  - exists q1. rewrite Hhead' by done. split; [done|]. eapply slist_ext; [|exact J2]. intros y Hy. apply Hold, elem_of_app. by left.
  - eapply slist_ext; [|exact J3]. intros y Hy. apply Hold, elem_of_app. by right.
  - unfold L'. rewrite upd_list_ne, upd_list_eq by done. done.
  - split.
    + intros p. unfold L', upd_list. repeat case_decide; [|done|apply I6]. cbn. apply NoDup_cons. split; [|apply I6].
      rewrite Et. intros (y & E & Hy)%list_elem_of_fmap_1. by apply (Hxo (PT ng) y).
    + intros p q y z Hy Hz E. destruct (HL' p y Hy) as [[-> ->]|[Hyl Hyx]], (HL' q z Hz) as [[-> ->]|[Hzl Hzx]]; try done; try congruence.
      by apply (proj2 I6 p q y z).
  - intros p y Hy. destruct (HL' p y Hy) as [[-> _]|[Hyl _]].
    + exists t0. unfold tnode. rewrite Et. split; [done|]. split; [done|]. exists (threads gen). cbn. by rewrite lookup_insert_eq.
    + destruct (J4 _ _ Hyl) as (y0 & Hy0). exact (tnode_set s1 x (threads gen) y y0 t0 Ht0 Hy0).
  - cbn. rewrite length_insert. intros y. rewrite J6. apply I8.
  - cbn. by rewrite length_insert.
Qed.

(** The threads that are not (yet) alive, and those that are, at their new
    addresses *)
Definition unreached g (l : list ptr) : list ptr := filter (λ x, isAlive g x = 0) l.
Definition moved_to g (l : list ptr) (h : nat) (x' : ptr) : Prop := ∃ x, x ∈ l ∧ isAlive g x ≠ 0 ∧ x' = isAlive g x ∧ gen_of x' = h.
(** What [tidyThreadList] does to the lists: [l] are the old threads of [h]. *)
Record tidied g (h : nat) (l : list ptr) L L' : Prop := {
  ty_old k : L' (PO k) = if decide (k = h) then unreached g l else L (PO k);
  ty_new k x : x ∈ L' (PT k) ↔ x ∈ L (PT k) ∨ moved_to g l k x;
  ty_res : L' PR = L PR
}.
Lemma keep_thread h L K x l t prev n s : tidying h L K (x :: l) t prev s → gnext s x = Some n → slist (gnext s) n l END →
  tidying h L (K ++ [x]) l n (Some x) s.
Proof.
  intros [I1 (q & Hq & I2) I3 -> I5 I6 I7 I8] Hn Hl. destruct I3 as (-> & Hx & _). split; rewrite <- ?app_assoc; try done.
  - exists q. split; [done|]. apply slist_app. exists x. split; [done|]. split; [done|]. split; [done|]. by exists n.
  - by rewrite last_snoc.
Qed.
Lemma tidy_threads_ok fuel h L K l t prev s Q : tidying h L K l t prev s → (length l ≤ fuel)%nat →
  (∀ x t0, x ∈ l → T0 !! origin x = Some t0 → exceptions_ok t0 = true) →
  (∀ L' s', tidying h L' (K ++ unreached (collector s) l) [] END (last (K ++ unreached (collector s) l)) s' →
     (∀ k, k ≠ h → L' (PO k) = L (PO k)) → (∀ k x, x ∈ L' (PT k) ↔ x ∈ L (PT k) ∨ moved_to (collector s) l k x) → L' PR = L PR →
     same_weaks s s' → collector s' = collector s → length (generations s') = length (generations s) → Q false s') →
  wp (tidy_threads fuel h t prev) Q s.
Proof.
  revert L K l t prev s. induction fuel as [|fuel IH]; intros L K [|x l] t prev s HI Hf Hok HQ; cbn [tidy_threads].
  1,3: pose proof (td_rest _ _ _ _ _ _ _ HI) as E; cbn in E; subst t; pose proof (td_prev _ _ _ _ _ _ _ HI); subst prev;
    cbn; apply wp_ret; apply (HQ L); rewrite ?app_nil_r; try done; intros k x; split; [by left|intros [?|(y & Hy%elem_of_nil & _)]; done].
  { cbn in Hf. lia. }
  pose proof (td_rest _ _ _ _ _ _ _ HI) as (-> & Hx0 & n & Hn & Hl). destruct (Z.eqb_spec x END); [done|].
  assert (x ∈ L (PO h)) as HxL by (rewrite (td_split _ _ _ _ _ _ _ HI), elem_of_app; right; by left).
  destruct (td_nodes _ _ _ _ _ _ _ HI _ _ HxL) as (t0 & HT & Hpl & lk & Hx). unfold gnext in Hn. rewrite Hx in Hn. injection Hn as <-.
  unfold is_alive at 1. wp_steps. cbn in Hf. assert (∀ g, isAlive g x = 0 → unreached g (x :: l) = x :: unreached g l) as Hun by (intros g E; unfold unreached; by rewrite filter_cons_True).
  assert (∀ g, isAlive g x ≠ 0 → unreached g (x :: l) = unreached g l) as Hre by (intros g E; unfold unreached; by rewrite filter_cons_False).
  destruct (Z.eqb_spec (isAlive (collector s) x) 0) as [E0|N0]; cbn [negb].
  - eapply wp_tso_at; [exact Hx|]. cbn [global_link set_global_link]. wp_step. apply wp_assert; [exact (Hok x t0 ltac:(by left) HT)|].
    eapply (IH L (K ++ [x]) l); [eapply keep_thread; [exact HI| |exact Hl]; unfold gnext; by rewrite Hx|lia|intros y y0 Hy; apply Hok; by right|].
    intros L' s' HI' H1 H2 H3 Hs Hc Hlen. rewrite <- app_assoc in HI'. apply (HQ L'); rewrite ?Hun by done; try done.
    intros k y. rewrite H2. split; (intros [?|(z & Hz & Hr & Ez & Hg)]; [by left|right]); [exists z; split; [by right|done]|].
    apply elem_of_cons in Hz as [->|Hz]; [done|by exists z].
  - destruct (isAlive_copy _ x Hpl N0) as (Hpl' & Eo & _).
    eapply wp_tso_at; [by rewrite Eo|]. cbn [global_link set_global_link]. wp_step. apply wp_assert; [exact (Hok x t0 ltac:(by left) HT)|].
    apply wp_assoc, wp_bind. eapply tidy_move_ok; [exact HI|exact Hl|exact Hpl'|exact Eo|done|]. intros s1 HI1 Hs1 Hc1 Hr1 Hlen1.
    eapply IH; [exact HI1|lia|intros y y0 Hy; apply Hok; by right|].
    intros L' s' HI' H1 H2 H3 Hs Hc Hlen. rewrite Hc1 in *. apply (HQ L'); rewrite ?Hre by done; try done; [..|exact (same_weaks_trans _ _ _ Hs1 Hs)|congruence].
    + intros k Hk. rewrite H1 by done. rewrite !upd_list_ne by congruence. done.
    + intros k y. rewrite H2. destruct (decide (k = gen_of (isAlive (collector s) x))) as [->|Hk].
      * rewrite upd_list_eq, elem_of_cons. unfold moved_to. setoid_rewrite elem_of_cons. naive_solver.
      * rewrite !upd_list_ne by congruence. unfold moved_to. setoid_rewrite elem_of_cons. naive_solver.
Qed.

(** All lists *)
Record linked L s : Prop := {
  ln_lists : ∀ p q, head_of s p = Some q → slist (gnext s) q (L p) END;
  ln_disjoint : disjoint_lists L;
  ln_nodes : ∀ p x, x ∈ L p → ∃ t0, tnode s x t0;
  ln_gens : ∀ x, (gen_of x < length (generations s))%nat
}.
Lemma size_bound {A} (m : gmap ptr A) (f : ptr → ptr) l : NoDup (f <$> l) → (∀ x, x ∈ l → is_Some (m !! f x)) → (length l ≤ size m)%nat.
Proof.
  intros Hnd Hm. rewrite <- (length_fmap f l), <- (size_list_to_set (C := gset ptr)), <- size_dom by done. apply subseteq_size.
  intros y (x & -> & Hx)%elem_of_list_to_set%list_elem_of_fmap_1. by apply elem_of_dom, Hm.
Qed.
Lemma linked_bound L p s : linked L s → (length (L p) ≤ size (tsos s))%nat.
Proof.
  intros [_ [Hd _] Hn _]. apply (size_bound _ origin); [apply Hd|]. intros x Hx. destruct (Hn p x Hx) as (t0 & _ & _ & lk & E). rewrite E. by eexists.
Qed.
Lemma tidyThreadList_ok h L s Q : linked L s → (h < length (generations s))%nat →
  (∀ x t0, x ∈ L (PO h) → T0 !! origin x = Some t0 → exceptions_ok t0 = true) →
  (∀ L' s', linked L' s' → tidied (collector s) h (L (PO h)) L L' → same_weaks s s' → collector s' = collector s →
     length (generations s') = length (generations s) → Q false s') →
  wp (tidyThreadList h) Q s.
Proof.
  intros HL Hh Hok HQ. unfold tidyThreadList. wp_step. apply wp_get. destruct (lookup_lt_is_Some_2 _ _ Hh) as [gen Hgen]. wp_step. eapply wp_gen_at; [exact Hgen|].
  pose proof HL as [I1 I2 I3 I4]. pose proof (I1 (PO h) (old_threads gen) ltac:(cbn; by rewrite Hgen)) as Hch.
  eapply (tidy_threads_ok _ h L [] (L (PO h))); [|by apply linked_bound|done|].
  - split; try done; [by intros p q _; apply I1|]. exists (old_threads gen). cbn. by rewrite Hgen.
  - intros L' s' [J1 (q & Hq & J2) _ _ J5 J6 J7 J8] H1 H2 H3 Hs Hc Hlen. apply (HQ L'); try done.
    + split; [|done..]. intros p q' Hp. destruct (decide (p = PO h)) as [->|]; [|by apply J1]. rewrite J5, app_nil_r. replace q' with q by congruence. done.
    + split; [|done..]. intros k. destruct (decide (k = h)) as [->|]; [by rewrite J5, app_nil_r|by apply H1].
Qed.
(** ... for the generations [hs] *)
Record tidied_all g (hs : list nat) L L' : Prop := {
  ta_old k : L' (PO k) = if decide (k ∈ hs) then unreached g (L (PO k)) else L (PO k);
  ta_new k x : x ∈ L' (PT k) ↔ x ∈ L (PT k) ∨ ∃ j, j ∈ hs ∧ moved_to g (L (PO j)) k x;
  ta_res : L' PR = L PR
}.
Lemma tidy_all_ok n h L s Q : linked L s → (h + n ≤ length (generations s))%nat →
  (∀ j x t0, j ∈ seq h n → x ∈ L (PO j) → T0 !! origin x = Some t0 → exceptions_ok t0 = true) →
  (∀ L' s', linked L' s' → tidied_all (collector s) (seq h n) L L' → same_weaks s s' → collector s' = collector s →
     length (generations s') = length (generations s) → Q false s') →
  wp (tidy_all n h false) Q s.
Proof.
  revert h L s. induction n as [|n IH]; intros h L s HL Hh Hok HQ; cbn [tidy_all].
  - apply wp_ret. apply (HQ L); try done. split; try done. intros k x.
    split; [by left|intros [?|(j & Hj%elem_of_nil & _)]; done].
  - wp_step. eapply tidyThreadList_ok; [done|lia|intros x t0; apply Hok; cbn; by left|]. intros L1 s1 HL1 [T1 T2 T3] Hs1 Hc1 Hlen1.
    assert (∀ j, j ∈ seq (S h) n → j ≠ h) as Hj by (intros j Hj ->; apply elem_of_seq in Hj; lia).
    apply (IH (S h) L1); [done|lia| |].
    + intros j x t0 Hjn. rewrite T1, decide_False by auto. apply Hok. cbn. by right.
    + intros L' s' HL' [U1 U2 U3] Hs Hc Hlen. rewrite Hc1 in *. apply (HQ L'); [done| |exact (same_weaks_trans _ _ _ Hs1 Hs)|done|lia].
      split; [| |by rewrite U3].
      * intros k. rewrite U1, T1. cbn [seq]. destruct (decide (k = h)) as [->|Hk].
        -- rewrite decide_False by (intros Hn%elem_of_seq; lia). by rewrite decide_True by (by left).
        -- destruct (decide (k ∈ seq (S h) n)) as [Hin|Hout]; [by rewrite decide_True by (by right)|]. by rewrite decide_False by (by intros [?|?]%elem_of_cons).
      * intros k x. rewrite U2, T2. cbn [seq]. setoid_rewrite elem_of_cons. split.
        -- intros [[?|?]|(j & Hjn & Hm)]; [by left|right; exists h; split; [by left|done]|right; exists j]. rewrite T1, decide_False in Hm by auto. split; [by right|done].
        -- intros [?|(j & [->|Hjn] & Hm)]; [by left; left|by left; right|right; exists j]. rewrite T1, decide_False by auto. done.
Qed.

(** ** Resurrection *)
Definition finished (x : StgTSO) : bool := match what_next x with ThreadKilled | ThreadComplete => true | _ => false end.
Definition unfinished (x : ptr) : Prop := ∃ t0, T0 !! origin x = Some t0 ∧ finished t0 = false.
(** The old threads of [h] are looked at, [l] from [t] on; the old lists in [B]
    have been used up. *)
Record resurrecting (B : nat → Prop) (h : nat) L (t : ptr) s : Prop := {
  rs_lists : ∀ p q, (∀ k, p = PO k → k ≠ h ∧ ¬ B k) → head_of s p = Some q → slist (gnext s) q (L p) END;
  rs_rest : slist (gnext s) t (L (PO h)) END;
  rs_disjoint : disjoint_lists L;
  rs_nodes : ∀ p x, x ∈ L p → ∃ t0, tnode s x t0
}.
Record resurrected (l : list ptr) (h : nat) L L' g g' : Prop := {
  rd_old k : L' (PO k) = if decide (k = h) then [] else L (PO k);
  rd_new k : L' (PT k) = L (PT k);
  rd_res x' : x' ∈ L' PR ↔ x' ∈ L PR ∨ ∃ x, x ∈ l ∧ unfinished x ∧ x' = isAlive g' x;
  rd_grows : grows g g';
  rd_reached p : reached g' p ↔ reached g p ∨ ∃ x, x ∈ l ∧ unfinished x ∧ origin p = origin x
}.
Lemma resurrect_step B h L x l n t' s lk t0 : resurrecting B h L x s → L (PO h) = x :: l → T0 !! origin x = Some t0 →
  tsos s !! origin x = Some (set_global_link lk t0) → slist (gnext s) n l END → plain t' → origin t' = origin x → t' ≠ END → ∀ g2,
  resurrecting B h (upd_list (upd_list L (PO h) l) PR (t' :: L PR)) n
    (set_resurrected t' (set_tsos (<[origin x := set_global_link (resurrected_threads s) t0]> (tsos s)) (set_collector g2 s))).
Proof.
  intros [I1 _ I6 I7] EL HT Hx Hl Hpl Et Ht g2. assert (x ∈ L (PO h)) as HxL by (rewrite EL; by left).
  assert (∀ p y, y ∈ L p → p ≠ PO h → origin y ≠ origin x) as Hxo by (intros p y Hy Hp E; by destruct Hp; apply (proj2 I6 _ _ y x)).
  assert (NoDup (origin <$> x :: l)) as Hnd by (rewrite <- EL; apply I6). cbn in Hnd. apply NoDup_cons in Hnd as [Hxl Hnd].
  assert (∀ y, y ∈ l → origin y ≠ origin x) as Hxl' by (intros y Hy E; apply Hxl; rewrite <- E; by apply list_elem_of_fmap_2).
  set (L' := upd_list (upd_list L (PO h) l) PR (t' :: L PR)).
  match goal with |- resurrecting _ _ _ _ ?s' => set (s2 := s') end.
  assert (∀ y, origin y ≠ origin x → gnext s2 y = gnext s y) as Hsame by (intros y Hy; unfold gnext; cbn; by rewrite lookup_insert_ne by (by apply not_eq_sym)).
  assert (∀ p y, y ∈ L' p → (y = t' ∧ p = PR) ∨ (y ∈ L p ∧ origin y ≠ origin x)) as HL'.
  { intros p y. unfold L', upd_list. repeat case_decide; subst.
    - intros [->|Hy]%elem_of_cons; [by left|right; split; [done|by eapply Hxo]].
    - intros Hy. right. split; [rewrite EL; by right|by apply Hxl'].
    - intros Hy. right. split; [done|by eapply Hxo]. }
  split.
  - intros p q Hp Hq. unfold L'. destruct (decide (p = PR)) as [->|Hr].
    + rewrite upd_list_eq. cbn in Hq. injection Hq as <-. split; [done|]. split; [done|]. exists (resurrected_threads s).
      split; [unfold gnext; cbn; by rewrite Et, lookup_insert_eq|]. eapply slist_ext; [|by apply (I1 PR)]. intros y Hy. by apply Hsame, (Hxo PR).
    + rewrite !upd_list_ne by (done || (intros ->; by destruct (Hp h eq_refl))). eapply slist_ext; [|apply (I1 p q Hp); by destruct p].
      intros y Hy. apply Hsame, (Hxo p); [done|]. intros ->. by destruct (Hp h eq_refl).
  - unfold L'. rewrite upd_list_ne, upd_list_eq by done. eapply slist_ext; [|exact Hl]. intros y Hy. by apply Hsame, Hxl'.
  - split.
    + intros p. unfold L', upd_list. repeat case_decide; [|done|apply I6]. cbn. apply NoDup_cons. split; [|apply I6].
      rewrite Et. intros (y & E & Hy)%list_elem_of_fmap_1. by apply (Hxo PR y).
    + intros p q y z Hy Hz E. destruct (HL' p y Hy) as [[-> ->]|[Hyl Hyx]], (HL' q z Hz) as [[-> ->]|[Hzl Hzx]]; try done; try congruence.
      by apply (proj2 I6 p q y z).
  - intros p y Hy. destruct (HL' p y Hy) as [[-> _]|[Hyl Hyx]].
    + exists t0. unfold tnode. rewrite Et. split; [done|]. split; [done|]. exists (resurrected_threads s). cbn. by rewrite lookup_insert_eq.
    + destruct (I7 _ _ Hyl) as (y0 & Hy0 & Hy1 & ly & Ey). exists y0. split; [done|]. split; [done|]. exists ly. cbn. by rewrite lookup_insert_ne by (by apply not_eq_sym).
Qed.
Lemma resurrect_skip B h L x l n s : resurrecting B h L x s → L (PO h) = x :: l → slist (gnext s) n l END →
  resurrecting B h (upd_list L (PO h) l) n s.
Proof.
  intros [I1 _ I6 I7] EL Hl. split.
  - intros p q Hp Hq. rewrite upd_list_ne by (intros ->; by destruct (Hp h eq_refl)). by apply I1.
  - by rewrite upd_list_eq.
  - split.
    + intros p. unfold upd_list. case_decide as E; [|apply I6]. pose proof (proj1 I6 (PO h)) as Hnd. rewrite EL in Hnd. cbn in Hnd. by apply NoDup_cons in Hnd as [_ Hnd].
    + intros p q y z Hy Hz. apply (proj2 I6).
      * unfold upd_list in Hy. case_decide; [subst; rewrite EL; by right|done].
      * unfold upd_list in Hz. case_decide; [subst; rewrite EL; by right|done].
  - intros p y Hy. apply (I7 p). unfold upd_list in Hy. case_decide; [subst; rewrite EL; by right|done].
Qed.
Lemma resurrected_nil h L g : L (PO h) = [] → resurrected [] h L L g g.
Proof.
  intros EL. split.
  - intros k. by destruct (decide (k = h)) as [->|].
  - done.
  - intros x'. split; [by left|intros [?|(x & Hx%elem_of_nil & _)]; done].
  - apply grows_refl.
  - intros p. split; [by left|intros [?|(x & Hx%elem_of_nil & _)]; done].
Qed.
Lemma resurrected_step h x l L L1 L' g g2 g' : g2 = evacuate_object x g → plain x → unfinished x →
  (∀ p, p ≠ PO h → p ≠ PR → L1 p = L p) → L1 PR = isAlive g2 x :: L PR → resurrected l h L1 L' g2 g' → resurrected (x :: l) h L L' g g'.
Proof.
  intros -> Hpl Hx Hp Hr [R1 R2 R3 R4 R5]. set (g2 := evacuate_object x g) in *.
  split.
  - intros k. rewrite R1. destruct (decide (k = h)); [done|]. rewrite Hp; congruence.
  - intros k. by rewrite R2, Hp.
  - intros x'. rewrite R3, Hr, elem_of_cons. setoid_rewrite elem_of_cons.
    assert (isAlive g' x = isAlive g2 x) as E by (by apply (grows_same g2), evacuate_alive). naive_solver congruence.
  - eapply grows_trans; [apply grows_evacuate|exact R4].
  - intros p. rewrite R5. unfold g2. rewrite reached_evacuate by done. setoid_rewrite elem_of_cons. naive_solver.
Qed.
Lemma resurrect_threads_ok B fuel h L t s Q : resurrecting B h L t s → (length (L (PO h)) ≤ fuel)%nat →
  (∀ L' s', resurrecting B h L' END s' → resurrected (L (PO h)) h L L' (collector s) (collector s') →
     same_weaks s s' → generations s' = generations s → Q tt s') →
  wp (resurrect_threads fuel t) Q s.
Proof.
  revert L t s. induction fuel as [|fuel IH]; intros L t s HI Hf HQ; destruct (L (PO h)) as [|x l] eqn:EL; cbn [resurrect_threads].
  1,3: pose proof (rs_rest _ _ _ _ _ HI) as E; rewrite EL in E; cbn in E; subst t; cbn; apply wp_ret; apply (HQ L); [done|by apply resurrected_nil|done..].
  { cbn in Hf. lia. }
  pose proof (rs_rest _ _ _ _ _ HI) as Hr. rewrite EL in Hr. destruct Hr as (-> & Hx0 & n & Hn & Hl). destruct (Z.eqb_spec x END); [done|].
  assert (x ∈ L (PO h)) as HxL by (rewrite EL; by left).
  destruct (rs_nodes _ _ _ _ _ HI _ _ HxL) as (t0 & HT & Hpl & lk & Hx). unfold gnext in Hn. rewrite Hx in Hn. injection Hn as <-.
  wp_step. eapply wp_tso_at; [exact Hx|]. cbn [global_link what_next set_global_link]. cbn in Hf.
  destruct (finished t0) eqn:Ef.
  - assert (wp (resurrect_threads fuel lk) Q s) as Hwp.
    { apply (IH (upd_list L (PO h) l)); [by eapply resurrect_skip|rewrite upd_list_eq; lia|].
      intros L' s' HI' [R1 R2 R3 R4 R5] Hs Hgs. rewrite upd_list_eq in *. apply (HQ L'); try done. split; try done.
      - intros k. rewrite R1. destruct (decide (k = h)); [done|]. by rewrite upd_list_ne by congruence.
      - intros x'. rewrite R3, upd_list_ne by done. setoid_rewrite elem_of_cons. split; [naive_solver|].
        intros [?|(y & [->|Hy] & (y0 & Hy0 & Hf0) & E)]; [by left|congruence|]. right. exists y. split; [done|]. split; [by exists y0|done].
      - intros p. rewrite R5. setoid_rewrite elem_of_cons. split; [naive_solver|].
        intros [?|(y & [->|Hy] & (y0 & Hy0 & Hf0) & E)]; [by left|congruence|]. right. exists y. split; [done|]. split; [by exists y0|done]. }
    unfold finished in Ef. destruct (what_next t0); done.
  - assert (unfinished x) as Hunf by (by exists t0). set (g2 := evacuate_object x (collector s)). set (t' := isAlive g2 x).
    assert (isAlive g2 x ≠ 0) as Hr2 by (by apply evacuate_alive). destruct (isAlive_copy _ x Hpl Hr2) as (Hpl' & Et & _). fold t' in Hpl', Et.
    assert (wp (tmp ← evacuate x; s0 ← get; upd_tso tmp (set_global_link (resurrected_threads s0));; modify (set_resurrected tmp);; resurrect_threads fuel lk) Q s) as Hwp.
    { wp_step. apply wp_evacuate. rewrite evacuated_plain by done. fold g2. fold t'. wp_step. apply wp_get. wp_step. eapply wp_set_tso; [cbn; by rewrite Et|]. wp_step. apply wp_modify. rewrite Et. cbn [tsos set_collector].
      set (L1 := upd_list (upd_list L (PO h) l) PR (t' :: L PR)).
      assert (L1 (PO h) = l) as E1 by (unfold L1; by rewrite upd_list_ne, upd_list_eq).
      eapply (IH L1); [exact (resurrect_step B h L x l lk t' s lk t0 HI EL HT Hx Hl Hpl' Et Hr2 g2)|by rewrite E1; lia|].
      intros L' s' HI' HR Hs Hgs. rewrite E1 in HR. apply (HQ L'); [done| |exact Hs|exact Hgs].
      apply (resurrected_step h x l L L1 L' (collector s) g2 (collector s')); try done.
      intros p Hp1 Hp2. unfold L1. by rewrite !upd_list_ne. }
    unfold finished in Ef. destruct (what_next t0); done.
Qed.

(** All lists but the old ones in [B] *)
Record linked_but (B : nat → Prop) L s : Prop := {
  lb_lists : ∀ p q, (∀ k, p = PO k → ¬ B k) → head_of s p = Some q → slist (gnext s) q (L p) END;
  lb_disjoint : disjoint_lists L;
  lb_nodes : ∀ p x, x ∈ L p → ∃ t0, tnode s x t0
}.
Record resurrected_all (hs : list nat) L L' g g' : Prop := {
  ra_old k : k ∉ hs → L' (PO k) = L (PO k);
  ra_new k : L' (PT k) = L (PT k);
  ra_res x' : x' ∈ L' PR ↔ x' ∈ L PR ∨ ∃ j x, j ∈ hs ∧ x ∈ L (PO j) ∧ unfinished x ∧ x' = isAlive g' x;
  ra_grows : grows g g';
  ra_reached p : reached g' p ↔ reached g p ∨ ∃ j x, j ∈ hs ∧ x ∈ L (PO j) ∧ unfinished x ∧ origin p = origin x
}.
Lemma resurrectUnreachableThreads_ok (B : nat → Prop) h L s Q : linked_but B L s → (h < length (generations s))%nat → ¬ B h →
  (∀ L' s', linked_but (λ k, k = h ∨ B k) L' s' → resurrected (L (PO h)) h L L' (collector s) (collector s') →
     same_weaks s s' → generations s' = generations s → Q tt s') →
  wp (resurrectUnreachableThreads h) Q s.
Proof.
  intros [I1 I2 I3] Hh HB HQ. unfold resurrectUnreachableThreads. wp_step. apply wp_get.
  destruct (lookup_lt_is_Some_2 _ _ Hh) as [gen Hgen]. wp_step. eapply wp_gen_at; [exact Hgen|].
  eapply (resurrect_threads_ok B _ h L).
  - split; try done.
    + intros p q Hp. apply I1. intros k Hk. by apply Hp.
    + apply (I1 (PO h)); [by intros k [= <-]|]. cbn. by rewrite Hgen.
  - apply (size_bound _ origin); [apply I2|]. intros x Hx. destruct (I3 _ x Hx) as (t0 & _ & _ & lk & E). rewrite E. by eexists.
  - intros L' s' [J1 _ J2 J3] HR Hs Hg. apply (HQ L'); try done. split; [|done..]. intros p q Hp. apply J1. intros k Hk. specialize (Hp k Hk). tauto.
Qed.
Lemma resurrect_all_ok (B : nat → Prop) hs L s Q : linked_but B L s → NoDup hs → (∀ h, h ∈ hs → (h < length (generations s))%nat ∧ ¬ B h) →
  (∀ L' s', linked_but (λ k, k ∈ hs ∨ B k) L' s' → resurrected_all hs L L' (collector s) (collector s') →
     same_weaks s s' → generations s' = generations s → Q tt s') →
  wp (for_each hs resurrectUnreachableThreads) Q s.
Proof.
  revert B L s. induction hs as [|h hs IH]; intros B L s HL Hnd Hh HQ; cbn [for_each].
  - apply wp_ret. apply (HQ L); try done.
    + destruct HL as [I1 I2 I3]. split; [|done..]. intros p q Hp. apply I1. intros k Hk. specialize (Hp k Hk). tauto.
    + split; try done; [intros x'|intros p]; (split; [by left|intros [?|(j & x & Hj%elem_of_nil & _)]; done]).
  - apply NoDup_cons in Hnd as [Hn Hnd]. destruct (Hh h) as [Hlt HB]; [by left|]. wp_step. eapply resurrectUnreachableThreads_ok; [exact HL|done|done|].
    intros L1 s1 HL1 [R1 R2 R3 R4 R5] Hs1 Hg1. assert (∀ j, j ∈ hs → L1 (PO j) = L (PO j)) as HLj.
    { intros j Hj. rewrite R1, decide_False; [done|]. by intros ->. }
    apply (IH _ _ _ HL1 Hnd).
    + intros k Hk. rewrite Hg1. destruct (Hh k) as [Hk1 Hk2]; [by right|]. split; [done|]. intros [->|?]; done.
    + intros L' s' [I1 I2 I3] [U1 U2 U3 U4 U5] Hs Hg. apply (HQ L').
      * split; [|done..]. intros p q Hp. apply I1. intros k Hk. specialize (Hp k Hk). rewrite elem_of_cons in Hp. tauto.
      * split.
        -- intros k [Hk1 Hk2]%not_elem_of_cons. by rewrite U1, R1, decide_False.
        -- intros k. by rewrite U2, R2.
        -- intros x'. rewrite U3, R3. setoid_rewrite elem_of_cons. split.
           ++ intros [[?|(x & Hx & Hu & ->)]|(j & x & Hj & Hx & Hu & E)]; [by left|right; exists h, x|right; exists j, x].
              ** split; [by left|]. split; [done|]. split; [done|]. symmetry. apply (grows_same _ _ _ U4). destruct (lb_nodes _ _ _ HL _ _ Hx) as (t0 & _ & Hpl & _). apply reached_alive; [done|]. apply R5. right. by exists x.
              ** rewrite HLj in Hx by done. split; [by right|done].
           ++ intros [?|(j & x & [->|Hj] & Hx & Hu & E)]; [by left; left|left; right; exists x|right; exists j, x].
              ** split; [done|]. split; [done|]. rewrite E. apply (grows_same _ _ _ U4). destruct (lb_nodes _ _ _ HL _ _ Hx) as (t0 & _ & Hpl & _). apply reached_alive; [done|]. apply R5. right. by exists x.
              ** rewrite HLj by done. done.
        -- by eapply grows_trans.
        -- intros p. rewrite U5, R5. setoid_rewrite elem_of_cons. split.
           ++ intros [[?|(x & Hx)]|(j & x & Hj & Hx)]; [by left|right; exists h, x; split; [by left|done]|right; exists j, x]. rewrite HLj in Hx by done. split; [by right|done].
           ++ intros [?|(j & x & [->|Hj] & Hx)]; [by left; left|left; right; by exists x|right; exists j, x]. rewrite HLj by done. done.
      * exact (same_weaks_trans _ _ _ Hs1 Hs).
      * congruence.
Qed.
End threads.
