(* ===== verification/WeakMain.v ===== *)
(** * Properties of weak pointers in a collection *)
From stdpp Require Import list gmap relations.
From S2P Require Import Prelude DList Weak WeakPtr WeakThreads.
Local Open Scope Z_scope.

Section main.
Context {G : Type} `{HCol : Collector G} `{HTr : !Tracing G} `{HG : !CollectorLaws G}.
Notation gc := (gc (G := G)).
Implicit Types (s : gc) (g : G) (L : place → list ptr).
Context (W0 : gmap ptr StgWeak) (Ws : list ptr) (g0 : G) (T0 : gmap ptr StgTSO) (L0 : place → list ptr) (N : nat).
Notation live := (live W0 Ws g0).
Notation live_fin := (live_fin W0 Ws g0).
Notation winv := (winv W0 Ws g0).
Notation wdone := (wdone W0 Ws g0).
Context (Hplain : ∀ w x, w ∈ Ws → W0 !! origin w = Some x → w_info x = WEAK → plain (key x)).
Context (Hthr : ∀ j x, (j ≤ N)%nat → x ∈ L0 (PO j) → plain x ∧ ¬ fixed x).
Lemma thread_same g g' j x : (j ≤ N)%nat → x ∈ L0 (PO j) → grows g g' → reached g x → isAlive g' x = isAlive g x.
Proof. intros Hj Hx Hg Hr. destruct (Hthr j x Hj Hx). apply grows_same; [done|]. by apply reached_alive. Qed.
Lemma thread_alive g j x : (j ≤ N)%nat → x ∈ L0 (PO j) → isAlive g x ≠ 0 ↔ reached g x.
Proof. intros Hj Hx. destruct (Hthr j x Hj Hx). rewrite isAlive_plain by done. tauto. Qed.

(** An unreachable thread that has not finished *)
Definition doomed (x : ptr) : Prop := ∃ j, (j ≤ N)%nat ∧ x ∈ L0 (PO j) ∧ ¬ live_fin (origin x) ∧ unfinished T0 x.
Inductive live_all : ptr → Prop :=
  | all_fin o : live_fin o → live_all o
  | all_thread x : doomed x → live_all (origin x)
  | all_edge o o' : live_all o → edge o o' → live_all o'.

(** ** Going on with the collection *)
Lemma live_all_rtc o o' : live_all o → rtc edge o o' → live_all o'.
Proof. intros Ho Hr. induction Hr as [|o o1 o' He _ IH]; [done|]. apply IH. by eapply all_edge. Qed.
Lemma scavenge_sound (P : ptr → Prop) g : (∀ o o', P o → rtc edge o o' → P o') → (∀ p, reached g p → P (origin p)) →
  ∀ p, reached (scavenge_until_all_done g) p → P (origin p).
Proof. intros HP Hs p (q & Hq & Hr)%scavenge_reached. eapply HP; [by apply Hs|done]. Qed.
Definition scavenge s : gc := set_collector (scavenge_until_all_done (collector s)) s.
Lemma winv_scavenge M K l w last_w s : winv M K l w last_w s → winv M K l w last_w (scavenge s).
Proof.
  intros [I1 I2 I3 I4 I5 I6 I7 I8 I9 I10 I11 I12]. split; try done.
  - intros y Hy. destruct (I8 y Hy) as (x0 & x & A1 & A2 & A3 & A4). exists x0, x. split_and!; try done. eapply moved_ok_grows; [apply grows_scavenge|done].
  - exact (scavenge_sound live _ (live_rtc W0 Ws g0) I11).
  - intros p Hp. eapply grows_reached; [apply grows_scavenge|by apply I12].
Qed.
Lemma wdone_grows M K s s' : wdone M K s → weaks s' = weaks s → weak_ptr_list s' = weak_ptr_list s → old_weak_ptr_list s' = old_weak_ptr_list s →
  grows (collector s) (collector s') → wdone M K s'.
Proof.
  intros [D1 D2 D3 D4 D5] E1 E2 E3 Hg. split; unfold wnext; rewrite ?E1, ?E2, ?E3; try done.
  - intros w Hw. destruct (D3 w Hw) as (x0 & x & A1 & A2 & A3 & A4 & A5). exists x0, x. split_and!; try done. by eapply moved_ok_grows.
  - intros w Hw. destruct (D4 w Hw) as (x0 & lk & f & A1 & A2 & A3 & A4). exists x0, lk, f. split_and!; try done; [by eapply grows_reached|by eapply copy_of_grows].
Qed.
Lemma linked_threads L s s' : linked T0 L s → tsos s' = tsos s → generations s' = generations s → resurrected_threads s' = resurrected_threads s → linked T0 L s'.
Proof.
  intros [I1 I2 I3 I4] E1 E2 E3. split; try done.
  - intros p q Hq. assert (head_of s' p = head_of s p) as E by (destruct p; cbn; rewrite ?E2, ?E3; done). rewrite E in Hq.
    eapply slist_ext; [|by apply (I1 p q)]. intros x _. unfold gnext. by rewrite E1.
  - intros p x Hx. destruct (I3 p x Hx) as (t0 & HT & Hpl & lk & E). exists t0. split; [done|]. split; [done|]. exists lk. by rewrite E1.
  - intros x. rewrite E2. apply I4.
Qed.

(** ** The result *)
Record weak_result s : Prop := {
  wr_reached p : reached (collector s) p ↔ live_all (origin p);
  wr_weaks : ∃ M K, wdone M K s;
  wr_threads : ∃ L, linked_but T0 (λ k, (k ≤ N)%nat) L s ∧
    (∀ k x', x' ∈ L (PT k) ↔ x' ∈ L0 (PT k) ∨
       ∃ j x, (j ≤ N)%nat ∧ x ∈ L0 (PO j) ∧ live_fin (origin x) ∧ x' = isAlive (collector s) x ∧ gen_of x' = k) ∧
    (∀ x', x' ∈ L PR ↔ ∃ x, doomed x ∧ x' = isAlive (collector s) x)
}.

(** *** The last stage *)
Lemma live_all_reached g : scavenged g → (∀ o, live_fin o → reached g o) → (∀ x, doomed x → reached g x) → ∀ o, live_all o → reached g o.
Proof.
  intros Hs Hf Hd o. assert (∀ o, live_all o → origin o = o) as Ho.
  { destruct 1 as [o' Hf'|x|o1 o' _ He]; [|apply origin_idem|by eapply edge_origin].
    destruct Hf' as [o' Hl|w x|o1 o' _ He]; [by eapply live_origin|apply origin_idem|by eapply edge_origin]. }
  induction 1 as [o H1|x H1|o o' H1 IH He].
  - by apply Hf.
  - apply reached_origin. by apply Hd.
  - apply (Hs o); [done|]. by rewrite Ho.
Qed.
Definition threads_result L s g : Prop :=
  linked_but T0 (λ k, (k ≤ N)%nat) L s ∧
  (∀ k x', x' ∈ L (PT k) ↔ x' ∈ L0 (PT k) ∨
     ∃ j x, (j ≤ N)%nat ∧ x ∈ L0 (PO j) ∧ live_fin (origin x) ∧ x' = isAlive g x ∧ gen_of x' = k) ∧
  (∀ x', x' ∈ L PR ↔ ∃ x, doomed x ∧ x' = isAlive g x).
Lemma threads_result_grows L s g g' : threads_result L s g → (∀ o, live_fin o → reached g o) → (∀ x, doomed x → reached g x) → grows g g' →
  threads_result L (set_collector g' s) g'.
Proof.
  intros ([I1 I2 I3] & HT & HR) Hf Hd Hg. split; [by split|]. split.
  - intros k x'. rewrite HT. assert (∀ j x, (j ≤ N)%nat → x ∈ L0 (PO j) → live_fin (origin x) → isAlive g' x = isAlive g x) as E.
    { intros j x Hj Hx Hl. eapply thread_same; [done..|]. by apply reached_origin, Hf. }
    split; (intros [?|(j & x & Hj & Hx & Hl & Ex & Hk)]; [by left|right; exists j, x; rewrite (E j x) in * by done; done]).
  - intros x'. rewrite HR. assert (∀ x, doomed x → isAlive g' x = isAlive g x) as E by (intros x Hx; pose proof Hx as (j & Hj & Hin & _); by eapply thread_same, Hd).
    split; intros (x & Hx & ->); exists x; (split; [done|]); by rewrite E.
Qed.
(** After the last stage nothing is done any more. *)
Lemma done_loop fuel M K L s Q : weak_stage s = WeakDone → wdone M K s → threads_result L s (collector s) →
  (∀ p, reached (collector s) p → live_all (origin p)) → (∀ o, live_fin o → reached (collector s) o) → (∀ x, doomed x → reached (collector s) x) →
  (∀ s', weak_result s' → Q tt s') → wp (scavenge_loop fuel N) Q s.
Proof.
  intros Hst HD HT Hs Hf Hd HQ. assert (weak_result (scavenge s)) as HW.
  { split.
    - intros p. split; [exact (scavenge_sound live_all _ live_all_rtc Hs p)|]. intros Hp. apply reached_origin.
      apply (live_all_reached (collector (scavenge s))); [apply scavenge_scavenged| | |done].
      + intros o Ho. eapply grows_reached; [apply grows_scavenge|by apply Hf].
      + intros x Hx. eapply grows_reached; [apply grows_scavenge|by apply Hd].
    - exists M, K. eapply wdone_grows; [exact HD|done..|apply grows_scavenge].
    - exists L. eapply threads_result_grows; [exact HT|done|done|apply grows_scavenge]. }
  assert (wp (again ← traverseWeakPtrList N; if again : bool then match fuel with O => fail Diverges | S fuel => scavenge_loop fuel N end else mret tt) Q (scavenge s)) as Hwp.
  { unfold traverseWeakPtrList. wp_step. wp_step. apply wp_get. cbn [weak_stage scavenge set_collector]. rewrite Hst. wp_step. wp_step. by apply HQ. }
  destruct fuel; cbn [scavenge_loop]; wp_step; apply wp_modify; exact Hwp.
Qed.

(** *** The stage of threads *)
Lemma threads_loop fuel M K s Q : weak_stage s = WeakThreads → wdone M K s → linked T0 L0 s → L0 PR = [] → (N < length (generations s))%nat →
  (∀ j x t0, (j ≤ N)%nat → x ∈ L0 (PO j) → T0 !! origin x = Some t0 → exceptions_ok t0 = true) →
  (∀ p, reached (collector s) p → live_fin (origin p)) → (∀ p, live (origin p) → reached (collector s) p) →
  (∀ s', weak_result s' → Q tt s') → wp (scavenge_loop (S fuel) N) Q s.
Proof.
  intros Hst HD HL HPR HN Hok Hs Hl HQ. cbn [scavenge_loop]. wp_step. apply wp_modify. fold (scavenge s).
  assert (wdone M K (scavenge s)) as HD1 by (eapply wdone_grows; [exact HD|done..|apply grows_scavenge]).
  assert (linked T0 L0 (scavenge s)) as HL1 by (by eapply linked_threads).
  assert (∀ p, reached (collector (scavenge s)) p ↔ live_fin (origin p)) as Hf.
  { intros p. split; [exact (scavenge_sound live_fin _ (live_fin_rtc W0 Ws g0) Hs p)|]. intros Hp. apply reached_origin.
    eapply fin_fixpoint; [apply scavenge_scavenged| | |exact Hp].
    - intros q Hq. eapply grows_reached; [apply grows_scavenge|by apply Hl].
    - intros w x Hw. eapply grows_reached; [apply grows_scavenge|]. pose proof Hw as (Hw1 & Hw2 & Hw3 & Hw4).
      destruct (wd_all _ _ _ _ _ _ HD w x Hw1 Hw2 Hw3) as [Hin|Hin].
      + destruct (wd_moved _ _ _ _ _ _ HD w Hin) as (x0 & ? & A1 & _ & A3 & _). by replace x0 with x in A3 by congruence.
      + destruct (wd_dead _ _ _ _ _ _ HD w Hin) as (x0 & ? & ? & (_ & A1 & _) & A2 & _). by replace x with x0 by congruence. }
  unfold traverseWeakPtrList. wp_step. wp_step. apply wp_get. cbn [weak_stage scavenge set_collector]. rewrite Hst. fold (scavenge s).
  wp_step. eapply (tidy_all_ok T0 (S N) 0 L0); [done|cbn; lia|intros j x t0 Hj%elem_of_seq; apply Hok; lia|].
  intros L1 s1 HL2 [U1 U2 U3] Hs1 Hc1 Hlen1. cbv iota. wp_step.
  eapply (resurrect_all_ok T0 (λ _, False) _ L1).
  - destruct HL2 as [I1 I2 I3 _]. split; [|done..]. intros p q _. apply I1.
  - apply NoDup_seq.
  - intros h Hh%elem_of_seq. rewrite Hlen1. cbn. split; [lia|tauto].
  - intros L2 s2 [I1 I2 I3] [R1 R2 R3 R4 R5] Hs2 Hg2. wp_step. apply wp_modify. wp_step. cbv iota.
    destruct Hs1 as (A1 & A2 & A3 & _), Hs2 as (B1 & B2 & B3 & _). rewrite Hc1 in *. set (g1 := collector (scavenge s)) in *.
    assert (∀ x, reached (collector s2) (origin x) ↔ reached (collector s2) x) as Ho by (intros x; apply reached_origin).
    assert (∀ j x, (j ≤ N)%nat → x ∈ L0 (PO j) → isAlive g1 x ≠ 0 ↔ live_fin (origin x)) as Ha by (intros j x Hj Hx; rewrite (thread_alive _ j) by done; apply Hf).
    assert (∀ x, doomed x ↔ ∃ j, j ∈ seq 0 (S N) ∧ x ∈ L1 (PO j) ∧ unfinished T0 x) as Hdoom.
    { intros x. split.
      - intros (j & Hj & Hx & Hnl & Hu). exists j. assert (j ∈ seq 0 (S N)) as Hj' by (apply elem_of_seq; lia). split; [done|]. split; [|done].
        rewrite U1, decide_True by done. apply list_elem_of_filter. split; [|done]. destruct (decide (isAlive g1 x = 0)) as [|Hr]; [done|]. by destruct Hnl; apply (Ha j).
      - intros (j & Hj & Hx & Hu). exists j. rewrite U1, decide_True in Hx by done. apply list_elem_of_filter in Hx as [Hx Hin]. apply elem_of_seq in Hj.
        split; [lia|]. split; [done|]. split; [|done]. intros Hl'. apply (Ha j) in Hl'; [done|lia|done]. }
    assert (∀ x, doomed x → reached (collector s2) x) as Hdr.
    { intros x (j & Hj & Hx & Hu)%Hdoom. apply R5. right. by exists j, x. }
    assert (∀ o, live_fin o → reached (collector s2) o) as Hfr.
    { intros o Ho'. eapply grows_reached; [exact R4|]. apply Hf. assert (origin o = o) as ->; [|done].
      destruct Ho' as [o' Hl'|w x|o1 o' _ He]; [by eapply live_origin|apply origin_idem|by eapply edge_origin]. }
    apply (done_loop fuel M K L2); try done.
    + eapply wdone_grows; [exact HD1|exact (eq_trans B1 A1)|exact (eq_trans B2 A2)|exact (eq_trans B3 A3)|exact R4].
    + split; [|split].
      * split; [|exact I2|exact I3]. intros p q Hp Hq. apply (I1 p q); [|done]. intros k Hk [Hk'%elem_of_seq|[]]. apply (Hp k Hk). lia.
      * intros k x'. rewrite R2, U2. cbn [collector set_weak_stage]. split.
        -- intros [?|(j & Hj%elem_of_seq & x & Hx & Hr & -> & Hk)]; [by left|right; exists j, x]. split_and!; try done; [lia|apply (Ha j); [lia|done..]|symmetry; by apply (grows_same _ _ _ R4)].
        -- intros [?|(j & x & Hj & Hx & Hlx & -> & Hk)]; [by left|right; exists j]. apply (Ha j x Hj Hx) in Hlx. split; [apply elem_of_seq; lia|]. exists x. split_and!; try done. by apply (grows_same _ _ _ R4).
      * intros x'. rewrite R3, U3, HPR. cbn [collector set_weak_stage]. setoid_rewrite Hdoom. split.
        -- intros [?%elem_of_nil|(j & x & Hj & Hx & Hu & ->)]; [done|]. exists x. split; [by exists j|done].
        -- intros (x & (j & Hj & Hx & Hu) & ->). right. by exists j, x.
    + intros p. cbn [collector set_weak_stage]. rewrite R5. intros [Hr|(j & x & Hj & Hx & Hu & ->)]; [apply all_fin; by apply Hf|]. apply all_thread, Hdoom. by exists j.
Qed.

(** *** The stage of weak pointers *)
Lemma restart M K last_w s : winv M K [] 0 last_w s → winv M [] K (old_weak_ptr_list s) None s.
Proof.
  intros [I1 I2 I3 I4 I5 I6 I7 I8 I9 I10 I11 I12]. rewrite app_nil_r in *. split; try done.
  - eapply slist_ext; [|exact I2]. intros y Hy. destruct (I7 y Hy) as (x0 & Hu & Hi). by eapply onext_untouched.
  - intros y Hy. destruct (I7 y Hy) as (x0 & Hu & Hi). exists x0. split; [done|]. by rewrite Hi.
  - by intros y ?%elem_of_nil.
Qed.
Lemma winv_bound M K l w last_w s : winv M K l w last_w s → (length l ≤ size (weaks s))%nat.
Proof.
  intros HI. apply (size_bound _ origin).
  - pose proof (wi_nodup _ _ _ _ _ _ _ _ _ HI) as Hnd. rewrite !fmap_app in Hnd. apply NoDup_app in Hnd as (_ & _ & Hnd). by apply NoDup_app in Hnd as (_ & _ & Hnd).
  - intros y Hy. destruct (wi_left _ _ _ _ _ _ _ _ _ HI y Hy) as (x0 & (_ & lk & E) & _). rewrite E. by eexists.
Qed.
Lemma weak_loop fuel M K s Q : weak_stage s = WeakPtrs → winv M [] K (old_weak_ptr_list s) None s → linked T0 L0 s → L0 PR = [] →
  (N < length (generations s))%nat → (∀ j x t0, (j ≤ N)%nat → x ∈ L0 (PO j) → T0 !! origin x = Some t0 → exceptions_ok t0 = true) →
  (∀ s', weak_result s' → Q tt s') → (length K + 2 ≤ fuel)%nat → wp (scavenge_loop fuel N) Q s.
Proof.
  revert M K s. induction fuel as [|fuel IH]; intros M K s Hst HI HL HPR HN Hok HQ Hf; [lia|].
  cbn [scavenge_loop]. wp_step. apply wp_modify. fold (scavenge s). pose proof (winv_scavenge _ _ _ _ _ _ HI) as HI1.
  unfold traverseWeakPtrList. wp_step. wp_step. apply wp_get. cbn [weak_stage scavenge set_collector]. rewrite Hst. fold (scavenge s). wp_step.
  change None with (last (@nil ptr)). eapply (traverse_weaks_ok W0 Ws g0 Hplain _ M [] K); [exact HI1|by eapply winv_bound|].
  intros M' K' flag s' HI' (E1 & E2 & E3 & E4) Hg Hlen Hsum Hflag. destruct flag; cbn [negb when].
  - wp_step. wp_step. wp_step. cbv iota. destruct Hflag as [|Hflag]; [done|]. apply (IH M' K'); try done.
    + by rewrite E4.
    + by eapply restart.
    + by eapply linked_threads.
    + rewrite E2. done.
    + cbn in Hsum. lia.
  - destruct Hflag as (_ & Hc & Hk). wp_steps.
    assert (∀ p, reached (collector s') p ↔ live (origin p)) as Hfix.
    { eapply (weak_fixpoint W0 Ws g0 Hplain); [exact HI'|rewrite Hc; apply scavenge_scavenged|]. intros y x0 Hy Hx. rewrite Hc. by destruct (Hk y x0 Hy Hx) as [?%elem_of_nil|]. }
    pose proof HI' as [I1 I2 I3 I4 I5 I6 I7 I8 I9 I10 I11 I12]. rewrite app_nil_r in *.
    assert (∀ w x, w ∈ Ws → W0 !! origin w = Some x → w_info x = WEAK → isAlive (collector s') (key x) ≠ 0 ↔ live_key W0 Ws g0 x) as Hkey.
    { intros w x Hw Hx Hi. rewrite isAlive_plain by (by eapply Hplain). by rewrite Hfix. }
    eapply (evacuate_finalizers_ok W0 Ws g0 _ M' [] K'); try done.
    + intros w Hw. destruct (I8 w Hw) as (x0 & x & A1 & A2 & A3 & A4). exists x0, x. split_and!; try done. apply (Hkey w); [by apply I9, elem_of_app; left|done..|by apply A4].
    + by intros w ?%elem_of_nil.
    + intros w Hw. destruct (I7 w Hw) as (x0 & (A1 & lk & A2) & A3). exists x0, lk. split; [|done]. split_and!; try done; [apply I9, elem_of_app; by right|].
      intros Hlv. apply (Hkey w) in Hlv; [|apply I9, elem_of_app; by right|done..]. rewrite Hc in Hlv. by destruct (Hk w x0 Hw A1) as [?%elem_of_nil|].
    + intros w x Hw Hx Hi. specialize (I10 w x Hw Hx Hi). by apply elem_of_app in I10.
    + intros p Hp. apply fin_live. by apply Hfix.
    + apply (size_bound _ origin); [rewrite fmap_app in I5; by apply NoDup_app in I5 as (_ & _ & I5)|].
      intros w Hw. destruct (I7 w Hw) as (x0 & (_ & lk & E) & _). rewrite E. by eexists.
    + intros s2 HD (F1 & F2 & F3 & F4) Hg2 Hsound. wp_steps. cbv iota. destruct fuel as [|fuel]; [lia|].
      apply (threads_loop fuel M' K'); try done.
      * eapply wdone_grows; [exact HD|done..|apply grows_refl].
      * eapply linked_threads; [exact HL|exact (eq_trans F1 E1)|exact (eq_trans F2 E2)|exact (eq_trans F3 E3)].
      * cbn. rewrite F2, E2. done.
      * intros p Hp. eapply grows_reached; [exact Hg2|by apply Hfix].
Qed.
End main.

(** ** Marking the list *)
Section mark.
Context {G : Type} `{HCol : Collector G} `{HTr : !Tracing G} `{HG : !CollectorLaws G}.
Notation gc := (gc (G := G)).
Implicit Types (s : gc) (g : G).

(** What marking leaves alone: all but the links *)
Definition same_weak (x y : StgWeak) : Prop :=
  w_info y = w_info x ∧ key y = key x ∧ value y = value x ∧ finalizer y = finalizer x ∧ (w_info x ≠ DEAD_WEAK → cfinalizer y = cfinalizer x).
Definition weaks_like (m m' : gmap ptr StgWeak) : Prop := ∀ p, option_Forall2 same_weak (m !! p) (m' !! p).
Lemma weaks_like_refl m : weaks_like m m.
Proof. intros p. destruct (m !! p); constructor. by repeat split. Qed.
Lemma weaks_like_trans m1 m2 m3 : weaks_like m1 m2 → weaks_like m2 m3 → weaks_like m1 m3.
Proof.
  intros H1 H2 p. specialize (H1 p). specialize (H2 p). destruct H1 as [x y (A1 & A2 & A3 & A4 & A5)|]; inversion H2 as [? z (B1 & B2 & B3 & B4 & B5)|]; subst; constructor.
  split_and!; try congruence. intros Hd. rewrite B5 by congruence. by apply A5.
Qed.
(** [D], the new addresses of those that were evacuated; [l], the rest *)
Record marking (D l : list ptr) (w : ptr) (last_w : option ptr) s : Prop := {
  mk_done : slist (onext s) (weak_ptr_list s) D w;
  mk_rest : slist (wnext s) w l END;
  mk_last : last_w = last D;
  mk_nodup : NoDup (origin <$> D ++ l);
  mk_plain : ∀ y, y ∈ l → plain y;
  mk_dead : ∀ y, y ∈ l → ∃ x, weaks s !! origin y = Some x ∧ (w_info x = DEAD_WEAK → cfinalizer x = link x)
}.
Definition same_other s s' : Prop :=
  tsos s' = tsos s ∧ generations s' = generations s ∧ resurrected_threads s' = resurrected_threads s ∧ old_weak_ptr_list s' = old_weak_ptr_list s.
Lemma write_mark_ok D l w w' s Q : marking D l w (last D) s → l ≠ [] →
  (∀ s', slist (onext s') (weak_ptr_list s') D w' → (∀ y, y ∈ l → weaks s' !! origin y = weaks s !! origin y) → weaks_like (weaks s) (weaks s') →
     same_other s s' → collector s' = collector s → Q tt s') →
  wp (write_mark_w (last D) w') Q s.
Proof.
  intros [I1 I2 _ I4 _ _] _ HQ. destruct D as [|y D _] using rev_ind.
  - cbn. apply wp_modify. apply HQ; try done. apply weaks_like_refl.
  - rewrite last_snoc. cbn [write_mark_w]. apply slist_app in I1 as (m & I1 & -> & Hy & n & Hn & ->). unfold onext in Hn. destruct (weaks s !! origin y) as [x|] eqn:Ex; [|done].
    eapply wp_upd_weak; [exact Ex|]. set (x' := match w_info x with DEAD_WEAK => _ | _ => _ end).
    assert (same_weak x x' ∧ next_of x' = w') as [Hsw Hnx] by (unfold x', next_of, same_weak; destruct (w_info x) eqn:Ei; cbn; rewrite Ei; done).
    assert (∀ z, z ∈ D ++ l → origin y ≠ origin z) as Hz.
    { intros z Hz E. assert ((D ++ [y]) ++ l ≡ₚ y :: (D ++ l)) as Ep by (rewrite <- app_assoc; cbn; by rewrite Permutation_middle).
      rewrite Ep in I4. cbn in I4. apply NoDup_cons in I4 as [Hnd _]. apply Hnd. rewrite E. by apply list_elem_of_fmap_2. }
    apply HQ; try done.
    + apply slist_app. exists y. split.
      * eapply slist_ext; [|exact I1]. intros z Hz'. unfold onext. cbn. rewrite lookup_insert_ne; [done|]. apply Hz, elem_of_app. by left.
      * split; [done|]. split; [done|]. exists w'. unfold onext. cbn. rewrite lookup_insert_eq. cbn. by rewrite Hnx.
    + intros z Hz'. cbn. apply lookup_insert_ne, Hz, elem_of_app. by right.
    + intros p. cbn. destruct (decide (origin y = p)) as [<-|Hne]; [rewrite lookup_insert_eq, Ex; by constructor|rewrite lookup_insert_ne by done; apply weaks_like_refl].
Qed.
Lemma read_last_ok D l w s Q : marking D l w (last D) s → Q w s → wp (read_last_w (last D)) Q s.
Proof.
  intros [I1 _ _ _ _ _] HQ. destruct D as [|y D _] using rev_ind.
  - cbn in *. subst w. by apply wp_gets.
  - rewrite last_snoc. cbn [read_last_w]. apply slist_app in I1 as (m & _ & -> & _ & n & Hn & ->). unfold onext in Hn. destruct (weaks s !! origin y) as [x|] eqn:Ex; [|done].
    wp_step. eapply wp_weak_at; [exact Ex|]. wp_step. injection Hn as <-. done.
Qed.
Lemma mark_weaks_ok fuel D l w s Q : marking D l w (last D) s → (length l ≤ fuel)%nat →
  (∀ s', slist (onext s') (weak_ptr_list s') (D ++ (isAlive (collector s') <$> l)) END → weaks_like (weaks s) (weaks s') → same_other s s' →
     grows (collector s) (collector s') → (∀ p, reached (collector s') p ↔ reached (collector s) p ∨ ∃ y, y ∈ l ∧ origin p = origin y) → Q tt s') →
  wp (mark_weaks fuel w (last D)) Q s.
Proof.
  revert D l w s. induction fuel as [|fuel IH]; intros D [|y l] w s HI Hf HQ; cbn [mark_weaks].
  1,3: pose proof (mk_rest _ _ _ _ _ HI) as E; cbn in E; subst w; cbn; apply wp_ret; apply HQ;
    [cbn; rewrite app_nil_r; apply HI|apply weaks_like_refl|done|apply grows_refl|intros p; split; [by left|intros [?|(z & Hz%elem_of_nil & _)]; done]].
  { cbn in Hf. lia. }
  pose proof (mk_rest _ _ _ _ _ HI) as (-> & Hy0 & n & Hn & Hl). destruct (Z.eqb_spec y 0); [done|].
  destruct (mk_dead _ _ _ _ _ HI y) as (x & Hx & Hd); [by left|]. unfold wnext in Hn. rewrite Hx in Hn. injection Hn as <-. cbn in Hf.
  assert (plain y) as Hpl by (apply (mk_plain _ _ _ _ _ HI); by left).
  wp_step. eapply read_last_ok; [exact HI|]. wp_step. apply wp_evacuate. rewrite evacuated_plain by done. set (g2 := evacuate_object y (collector s)).
  assert (isAlive g2 y ≠ 0) as Hr by (by apply evacuate_alive). destruct (isAlive_copy g2 y Hpl Hr) as (_ & Eo & _).
  wp_step. eapply (write_mark_ok D (y :: l) y); [by destruct HI as [I1 I2 I3 I4 I5 I6]; split|done|]. intros s1 J1 J2 J3 J4 J5.
  assert (weaks s1 !! origin y = Some x) as Hx1 by (rewrite J2 by (by left); done).
  wp_step. eapply wp_weak_at; [by rewrite Eo|]. replace (Some (isAlive g2 y)) with (last (D ++ [isAlive g2 y])) by apply last_snoc.
  apply (IH _ l).
  - split; rewrite <- ?app_assoc; try done.
    + apply slist_app. exists (isAlive g2 y). split; [done|]. split; [done|]. split; [exact Hr|]. exists (link x). unfold onext. rewrite Eo, Hx1. split; [|done]. cbn.
      unfold next_of. destruct (w_info x) eqn:Ei; [done| |done]. unfold dead_link. by rewrite Hd.
    + eapply wnext_same; [|exact Hl]. intros z Hz. apply J2. by right.
    + pose proof (mk_nodup _ _ _ _ _ HI) as Hnd. rewrite !fmap_app in *. cbn in *. by rewrite Eo.
    + intros z Hz. apply (mk_plain _ _ _ _ _ HI). by right.
    + intros z Hz. rewrite J2 by (by right). apply (mk_dead _ _ _ _ _ HI). by right.
  - lia.
  - intros s' K1 K2 (B1 & B2 & B3 & B4) K4 K5. rewrite J5 in K4, K5. cbn [collector set_collector] in K4, K5. destruct J4 as (A1 & A2 & A3 & A4). apply HQ.
    + rewrite <- app_assoc in K1. cbn [fmap list_fmap app] in *. by rewrite (grows_same _ _ _ K4 Hr).
    + exact (weaks_like_trans _ _ _ J3 K2).
    + split_and!; [exact (eq_trans B1 A1)|exact (eq_trans B2 A2)|exact (eq_trans B3 A3)|exact (eq_trans B4 A4)].
    + eapply grows_trans; [apply grows_evacuate|exact K4].
    + intros p. rewrite K5. fold g2. unfold g2. rewrite reached_evacuate by done. setoid_rewrite elem_of_cons. naive_solver.
Qed.
End mark.

(** ** A whole collection *)
Section collection.
Context {G : Type} `{HCol : Collector G} `{HTr : !Tracing G} `{HG : !CollectorLaws G}.
Notation gc := (gc (G := G)).
Context (L0 : place → list ptr) (N : nat) (Ws : list ptr).

(** A heap before the collection: [Ws] are the weak pointers; [L0] the threads
    of each generation, those in [PO] belong to generations that are collected.
    The keys are plain: [isAlive] takes a thunk that has been updated for dead
    even if its value is alive. *)
Record weak_ready (s : gc) : Prop := {
  rd_chain : slist (wnext s) (weak_ptr_list s) Ws END;
  rd_nodup : NoDup (origin <$> Ws);
  rd_weaks : ∀ y, y ∈ Ws → plain y ∧ ∃ x, weaks s !! origin y = Some x ∧ w_info x ≠ OTHER ∧ (w_info x = DEAD_WEAK → cfinalizer x = link x) ∧
    (w_info x = WEAK → plain (key x));
  rd_threads : ∀ p q, p ≠ PR → head_of s p = Some q → slist (gnext s) q (L0 p) END;
  rd_disjoint : disjoint_lists L0;
  rd_nodes : ∀ p x, x ∈ L0 p → plain x ∧ is_Some (tsos s !! origin x);
  rd_collected : ∀ j x, (j ≤ N)%nat → x ∈ L0 (PO j) → ¬ fixed x;
  rd_PR : L0 PR = [];
  rd_gens : ∀ x, (gen_of x < length (generations s))%nat;
  rd_N : (N < length (generations s))%nat;
  rd_exceptions : ∀ j x t0, (j ≤ N)%nat → x ∈ L0 (PO j) → tsos s !! origin x = Some t0 → exceptions_ok t0 = true
}.

(** C13: weak pointers and finalization.  The loop of a collection ends, after
    at most as many rounds as there are weak pointers and three more.  Then
    the collector has got to exactly the objects that are reachable when a weak
    pointer keeps its value and finalizer alive if its key is static, in a
    generation that is not collected, or itself reachable (the least such set);
    the finalizers of the other weak pointers, and what they reach; and the
    threads that none of these reach and that have not finished, with what they
    reach.  The weak pointers are divided into those with a live key, with all
    their fields updated, and the dead ones, with their finalizers updated; the
    threads that were reached are in the lists of their new generations, and
    the resurrected ones in theirs. *)
Theorem weak_collection fuel s : weak_ready s → (length Ws + 2 ≤ fuel)%nat →
  wp (markWeakPtrList;; initWeakForGC;; scavenge_loop fuel N)
    (λ _ s', ∃ W1 g1, weaks_like (weaks s) W1 ∧
       (∀ p, reached g1 p ↔ reached (collector s) p ∨ ∃ y, y ∈ Ws ∧ origin p = origin y) ∧
       weak_result W1 (isAlive g1 <$> Ws) g1 (tsos s) L0 N s') s.
Proof.
  intros [R1 R2 R3 R4 R5 R6 R6' R7 R8 R9 R10] Hf. unfold markWeakPtrList. wp_steps.
  change None with (last (@nil ptr)). eapply (mark_weaks_ok _ [] Ws).
  - split; try done; [intros y Hy; apply (R3 y Hy)|]. intros y Hy. destruct (R3 y Hy) as (_ & x & Hx & _ & Hd & _). by exists x.
  - apply (size_bound _ origin); [done|]. intros y Hy. destruct (R3 y Hy) as (_ & x & Hx & _). rewrite Hx. by eexists.
  - intros s1 K1 K2 (A1 & A2 & A3 & A4) K4 K5. cbn [app] in K1. wp_step. unfold initWeakForGC. wp_steps.
    set (g1 := collector s1) in *. assert (∀ y, y ∈ Ws → reached g1 y) as Hreach by (intros y Hy; apply K5; right; by exists y).
    assert (∀ y, y ∈ Ws → origin (isAlive g1 y) = origin y) as Eo1.
    { intros y Hy. destruct (R3 y Hy) as [Hpl _]. apply isAlive_copy; [done|]. by apply reached_alive, Hreach. }
    assert (origin <$> (isAlive g1 <$> Ws) = origin <$> Ws) as Eo.
    { rewrite <- list_fmap_compose. apply list_fmap_ext. intros i y Hy. cbn. apply Eo1. by eapply list_elem_of_lookup_2. }
    assert (∀ y, y ∈ Ws → ∃ x1, weaks s1 !! origin y = Some x1 ∧ w_info x1 ≠ OTHER ∧ (w_info x1 = WEAK → plain (key x1))) as R3'.
    { intros y Hy. destruct (R3 y Hy) as (_ & x & Hx & Hi & _ & Hk). pose proof (K2 (origin y)) as Hl. rewrite Hx in Hl.
      inversion Hl as [? x1 (B1 & B2 & _) E1 E2|]; subst. exists x1. rewrite B1, B2. done. }
    assert (∀ w x, w ∈ isAlive g1 <$> Ws → weaks s1 !! origin w = Some x → w_info x = WEAK → plain (key x)) as Hkeys.
    { intros w x (y & -> & Hy)%list_elem_of_fmap_1. rewrite Eo1 by done. intros Hx. destruct (R3' y Hy) as (x1 & Hx1 & _ & Hk). by simplify_eq. }
    assert (∀ j x, (j ≤ N)%nat → x ∈ L0 (PO j) → plain x ∧ ¬ fixed x) as Hthr.
    { intros j x Hj Hx. split; [by eapply R6|by eapply R6']. }
    eapply (weak_loop (weaks s1) (isAlive g1 <$> Ws) g1 (tsos s) L0 N Hkeys Hthr _ [] (isAlive g1 <$> Ws)); try done.
    + split; try done.
      * cbn [app]. by rewrite Eo.
      * intros w (y & -> & Hy)%list_elem_of_fmap_1. destruct (R3' y Hy) as (x1 & Hx & Hi & _). exists x1. split; [|done]. unfold untouched. cbn. rewrite Eo1 by done.
        split; [done|]. exists (link x1). rewrite Hx. by destruct x1.
      * by intros w ?%elem_of_nil.
      * by intros w ?%elem_of_nil.
      * intros p Hp. by apply live_root.
    + split.
      * intros p q Hq. destruct (decide (p = PR)) as [->|Hp].
        -- cbn in Hq. injection Hq as <-. by rewrite R7.
        -- eapply slist_ext; [|apply (R4 p q Hp)].
           ++ intros x _. unfold gnext. cbn. by rewrite A1.
           ++ rewrite <- Hq. destruct p; cbn; rewrite ?A2; done.
      * done.
      * intros p x Hx. destruct (R6 p x Hx) as [Hpl [t0 Ht]]. exists t0. split; [done|]. split; [done|]. exists (global_link t0). cbn. rewrite A1, Ht. by destruct t0.
      * intros x. cbn. rewrite A2. apply R8.
    + cbn. by rewrite A2.
    + intros s' Hw. exists (weaks s1), g1. split; [done|]. split; [exact K5|exact Hw].
    + by rewrite length_fmap.
Qed.
End collection.

(** ** A concrete collection *)
Module WDemo.
(** From-space addresses are even, an object's copy is at the next odd address.
    100 points to 104; 200 is static, and its SRT names 204; 220 is a thunk that
    has been updated with 222. *)
Definition pointers : list (ptr * ptr) := [(100, 104); (200, 204); (220, 222)].
Definition name (p : ptr) : ptr := 2 * (p / 2).
Definition targets (g : gset ptr) : gset ptr := list_to_set (snd <$> filter (λ e, e.1 ∈ g) pointers).
#[export] Instance collector_demo : Collector (gset ptr) := {
  isAlive g p := if decide (name p = 200) then p else if decide (name p ≠ 220 ∧ name p ∈ g) then name p + 1 else 0;
  evacuate_object p g := {[name p]} ∪ (if decide (name p = 220) then {[222]} else ∅) ∪ g;
  evacuated p g := if decide (name p = 200) then p else if decide (name p = 220) then 223 else name p + 1;
  scavenge_until_all_done g := g ∪ targets g;
  origin := name;
  gen_of _ := 1%nat
}.
#[export] Instance tracing_demo : Tracing (gset ptr) := {
  edge o o' := (o, o') ∈ pointers;
  stands o o' := o = 220 ∧ o' = 222;
  fixed p := name p = 200;
  plain p := name p ≠ 220;
  reached g p := name p ∈ g
}.
Lemma name_name p : name (name p) = name p.
Proof. unfold name. rewrite (Z.mul_comm 2 (p / 2)), Z.div_mul by done. lia. Qed.
Lemma name_copy p : name (name p + 1) = name p.
Proof. unfold name. rewrite (Z.mul_comm 2 (p / 2)), Z.div_add_l by done. change (1 / 2) with 0. lia. Qed.
Lemma copy_not_null p : name p + 1 ≠ 0.
Proof. unfold name. lia. Qed.
Lemma pointers_elem (o o' : ptr) : (o, o') ∈ pointers ↔ (o = 100 ∧ o' = 104) ∨ (o = 200 ∧ o' = 204) ∨ (o = 220 ∧ o' = 222).
Proof. unfold pointers. rewrite !elem_of_cons, elem_of_nil. naive_solver. Qed.
Lemma targets_elem g o' : o' ∈ targets g ↔ ∃ o, o ∈ g ∧ (o, o') ∈ pointers.
Proof.
  unfold targets. rewrite elem_of_list_to_set, list_elem_of_fmap. split.
  - intros ([o o1] & -> & [Ho Hp]%list_elem_of_filter). by exists o.
  - intros (o & Ho & Hp). exists (o, o'). split; [done|]. by apply list_elem_of_filter.
Qed.
#[local] Arguments targets : simpl never.
Lemma rtc_edge o o' : rtc edge o o' ↔ o = o' ∨ edge o o'.
Proof.
  split; [|by intros [->|?]; [|apply rtc_once]]. intros Hr. induction Hr as [|o o1 o2 He _ IH]; [by left|].
  destruct IH as [<-|He']; [by right|]. cbn in He, He'. rewrite pointers_elem in He, He'. lia.
Qed.
Lemma static_not_null p : name p = 200 → p ≠ 0.
Proof. by intros E ->. Qed.
#[export] Instance collector_demo_laws : CollectorLaws (gset ptr).
Proof.
  split; cbn.
  - apply name_name.
  - intros o o' Hp%pointers_elem. destruct Hp as [[_ ->]|[[_ ->]|[_ ->]]]; done.
  - intros o o' [-> ->]. by apply pointers_elem; auto.
  - intros g p. by rewrite name_name.
  - intros g p Hp. pose proof (copy_not_null p). pose proof (static_not_null p). repeat case_decide; tauto.
  - intros g p Hp. pose proof (copy_not_null p). repeat case_decide; try done; rewrite ?name_copy in *; tauto.
  - intros g p. pose proof (copy_not_null p). pose proof (static_not_null p). destruct (decide (name p = 200)) as [E|N2].
    + split; [auto|]. by rewrite decide_True.
    + destruct (decide (name p = 220)) as [E|N3].
      * split; [done|]. split; [|rewrite E; by apply rtc_once]. change (name 223) with 222. rewrite decide_False by done. by rewrite decide_True by (split; [done|set_solver]).
      * rewrite name_copy, decide_False by done. rewrite decide_True by (split; [done|set_solver]). done.
  - intros g p Hp. case_decide; [done|]. rewrite decide_False by done. by rewrite decide_True by (split; [done|set_solver]).
  - set_solver.
  - set_solver.
  - intros g p q. rewrite rtc_edge. cbn. rewrite pointers_elem. case_decide; set_solver.
  - intros g p q Hp. rewrite decide_False by done. set_solver.
  - intros g p q. repeat case_decide; try done; naive_solver set_solver.
  - intros g q. setoid_rewrite rtc_edge. cbn. rewrite elem_of_union, targets_elem. split.
    + intros [Hq|(o & Ho & Hp)]; [exists q; by auto|]. exists o.
      assert (name o = o) as ->; [|by auto]. apply pointers_elem in Hp. destruct Hp as [[-> _]|[[-> _]|[-> _]]]; done.
    + intros (p & Hp & [<-|He]); [by left|]. right. by exists (name p).
  - intros g q. repeat case_decide; try done; naive_solver set_solver.
Qed.

(** Roots: the object 100 and the thread 400.  The key of the weak pointer 16
    is 104, which 100 points to, and its value the static closure; the key of 24
    is what the static closure's SRT names, and its value the updated thunk; the
    key of 48 is the static closure; that of 32 is garbage, and 40 has been
    finalized.  Of the other two threads one has finished. *)
Definition heap : gc (G := gset ptr) := mkGC {[100; 400]}
  (list_to_map [(16, mkWeak WEAK 8 104 200 112 24); (24, mkWeak WEAK 8 204 220 116 48); (48, mkWeak WEAK 8 200 130 132 32);
                (32, mkWeak WEAK 8 120 122 124 40); (40, mkWeak DEAD_WEAK 0 126 128 134 0)])
  (list_to_map [(400, mkTSO 408 ThreadRunGHC END 0 0); (408, mkTSO 416 ThreadRunGHC END 0 0); (416, mkTSO END ThreadKilled END 0 0)])
  16 0 END WeakPtrs [mkGen 400 END; mkGen END END].
Definition threads_of (p : place) : list ptr := match p with PO 0 => [400; 408; 416] | _ => [] end.
Lemma heap_ready : weak_ready (G := gset ptr) threads_of 0 [16; 24; 48; 32; 40] heap.
Proof.
  split.
  - repeat (split; [done|]; split; [done|]; eexists; split; [by vm_compute|]). done.
  - apply (bool_decide_unpack _). by vm_compute.
  - intros y Hy. rewrite !elem_of_cons in Hy. destruct Hy as [-> |[-> |[-> |[-> |[-> |Hy]]]]]; [..|by apply elem_of_nil in Hy]; (split; [done|eexists; split; [by vm_compute|done]]).
  - intros [[|[|h]]|[|[|h]]|] q Hp Hq; cbn in Hq; try done; injection Hq as <-; try done.
    repeat (split; [done|]; split; [done|]; eexists; split; [by vm_compute|]). done.
  - split.
    + intros [[|h]|[|h]|]; apply (bool_decide_unpack _); by vm_compute.
    + intros [h|[|h]|] [k|[|k]|] x y Hx Hy; cbn in Hx, Hy; try (by apply elem_of_nil in Hx); try (by apply elem_of_nil in Hy). done.
  - intros [h|[|h]|] x Hx; cbn in Hx; try (by apply elem_of_nil in Hx). rewrite !elem_of_cons in Hx. destruct Hx as [-> |[-> |[-> |Hx]]]; [..|by apply elem_of_nil in Hx]; (split; [done|eexists; by vm_compute]).
  - intros j x Hj Hx. replace j with 0%nat in Hx by lia. cbn in Hx. rewrite !elem_of_cons in Hx. destruct Hx as [-> |[-> |[-> |Hx]]]; [..|by apply elem_of_nil in Hx]; done.
  - done.
  - cbn. lia.
  - cbn. lia.
  - intros j x t0 Hj Hx. replace j with 0%nat in Hx by lia. cbn in Hx. rewrite !elem_of_cons in Hx. destruct Hx as [-> |[-> |[-> |Hx]]]; [..|by apply elem_of_nil in Hx]; vm_compute; by intros [= <-].
Qed.
(** What is alive in the end: not the key and the value of the dead weak
    pointer, but its finalizer, and what the static closure leads to *)
Lemma outcome : match (markWeakPtrList;; initWeakForGC;; scavenge_loop 7 0) heap with
  | Ok (_, s) => (λ p, bool_decide (isAlive (collector s) p ≠ 0)) <$> [100; 104; 112; 204; 222; 116; 130; 132; 120; 122; 124; 400; 408; 416] =
      [true; true; true; true; true; true; true; true; false; false; true; true; true; false] ∧
      (weak_ptr_list s, old_weak_ptr_list s, resurrected_threads s, generations s) = (25, 33, 409, [mkGen 408 END; mkGen END 401]) ∧
      value <$> (weaks s !! 24) = Some 223
  | Err _ => False
  end.
Proof. by vm_compute. Qed.
End WDemo.
Import WDemo.
Lemma weak_collection_witness :
  wp (markWeakPtrList;; initWeakForGC;; scavenge_loop 7 0)
    (λ _ s', ∃ W1 g1, weaks_like (weaks WDemo.heap) W1 ∧
       (∀ p, reached g1 p ↔ reached (collector WDemo.heap) p ∨ ∃ y, y ∈ [16; 24; 48; 32; 40] ∧ origin p = origin y) ∧
       weak_result W1 (isAlive g1 <$> [16; 24; 48; 32; 40]) g1 (tsos WDemo.heap) WDemo.threads_of 0 s') WDemo.heap.
Proof. apply (weak_collection WDemo.threads_of 0 [16; 24; 48; 32; 40] 7 WDemo.heap WDemo.heap_ready). apply le_n. Defined.
